(* ===== verification/_CoqProject ===== *)
-Q . S2P
Prelude.v
Float64.v
Labels.v
Requirement.v
Objects.v
RepairPolicy.v
Requirements.v
Resources.v
Taints.v
HostPorts.v
Volumes.v
VolumeTopology.v
PodValidation.v
InstanceTypes.v
Reservations.v
PodState.v
DisruptionCost.v
Preferences.v
DefaultConstraints.v
Parallel.v
SchedQueue.v
TopologyGroup.v
Topology.v
NodeClaims.v
Budgets.v
Templates.v
NodePools.v
ExistingNodes.v
Evictions.v
NodePoolHealth.v
NodePoolState.v
StateNodes.v
Cluster.v
ClusterInv.v
Scheduler.v
SchedulerSetup.v
Solver.v
Candidates.v
Balanced.v
Simulation.v
Provisioner.v
ProvisionerProps.v
Consolidation.v
ConsolidationProps.v
Validation.v
Drift.v
Repair.v
DisruptionQueue.v
DisruptionQueueProps.v
DisruptionController.v
Lifecycle.v
LifecycleProps.v
Terminator.v
Termination.v
ClaimControllers.v
StaticPools.v
Devices.v
DeviceConstraints.v
DeviceCapacity.v
DeviceTracker.v
DeviceTrackerProps.v
DeviceRequests.v
DeviceAllocator.v
Examples.v
DisruptionExamples.v
LifecycleExamples.v
