(* ===== verification/Prelude.v ===== *)
(** * Karpenter: provisioning and disruption, modelled and verified

    Karpenter watches for pods that no node can host and creates nodes for
    them, and it removes or replaces nodes that are empty, too expensive, outdated or
    unhealthy.  Both rest on one scheduling run: given pods, the
    NodePools with their instance types, and the nodes of the cluster, the run
    decides which pod goes to which existing node or to which node that is to be
    created, and which instance types the new nodes may have.  This development
    models that run, from the label algebra it is built on up to
    [Scheduler.Solve], the provisioner that starts it and launches the result, the cache
    of the cluster it reads, and the disruption loop with its methods and its queue, and
    proves that what they do is sound.

    ** The parts of the program and the files that model them

    Values and constraints:
    - Labels: pkg/apis/v1/labels.go, the label tables and restricted labels;
    - Requirement: pkg/scheduling/requirement.go, one label requirement;
    - Requirements: pkg/scheduling/requirements.go, a map of them;
    - Objects: the fields of the Kubernetes objects that the code reads;
    - Float64: the arithmetic of prices and costs;
    - Resources: pkg/utils/resources/resources.go;
    - Taints: pkg/scheduling/taints.go and pkg/apis/v1/taints.go;
    - HostPorts: pkg/scheduling/hostportusage.go;
    - Volumes: pkg/scheduling/volumeusage.go and pkg/utils/volume/volume.go;
    - InstanceTypes: pkg/cloudprovider/types.go and capacitytype.go;
    - PodState: pkg/utils/pod/scheduling.go;
    - PodValidation: pkg/apis/v1/nodeclaim_validation.go and [Validate] of the
      provisioner.

    The scheduling run, of pkg/controllers/provisioning/scheduling/:
    - Reservations: reservationmanager.go;
    - Preferences: preferences.go;
    - Parallel: [parallelizeUntil] of scheduler.go and its critical section;
    - SchedQueue: queue.go and the two loops of scheduler.go ([Solve] and
      [trySchedule]), over an arbitrary scheduler state;
    - TopologyGroup: topologydomaingroup.go, topologynodefilter.go and
      topologygroup.go;
    - Topology: topology.go;
    - VolumeTopology: volumetopology.go;
    - DefaultConstraints: defaultconstraints.go;
    - NodeClaims: nodeclaim.go;
    - Templates: nodeclaimtemplate.go and [ToNodeClaim] of
      pkg/apis/v1/nodepool.go;
    - ExistingNodes: existingnode.go;
    - Scheduler: the operations of scheduler.go, one definition each;
    - SchedulerSetup: [NewScheduler] and [calculateExistingNodeClaims];
    - Solver: [Scheduler.Solve] and [Results], composed of all the above.

    Provisioning and the state of the cluster:
    - NodePools: pkg/utils/nodepool/nodepool.go and how the provisioner reads pools;
    - Provisioner and ProvisionerProps: pkg/controllers/provisioning/provisioner.go with
      the helpers for capacity buffers of buffers.go;
    - NodePoolHealth: pkg/state/nodepoolhealth/tracker.go and the ring buffer;
    - NodePoolState, StateNodes, Cluster and ClusterInv: statenodepool.go, statenode.go
      and cluster.go of pkg/controllers/state.

    Disruption, of pkg/controllers/disruption/:
    - DisruptionCost and Evictions: what evicting pods costs and whether it is allowed
      (pkg/utils/disruption, pkg/utils/pdb, pkg/utils/node);
    - Budgets: the budgets of pkg/apis/v1/nodepool.go;
    - Candidates: types.go and the candidates and budgets of helpers.go;
    - Balanced: balanced.go, the scores of the balanced policy;
    - Simulation: the scheduling simulations of helpers.go;
    - Consolidation and ConsolidationProps: consolidation.go, emptiness.go,
      multinodeconsolidation.go and singlenodeconsolidation.go;
    - Validation: validation.go;
    - Drift: drift.go and staticdrift.go;
    - RepairPolicy and Repair: pkg/controllers/node/health/policy.go, repair.go and
      repair_history.go;
    - DisruptionQueue and DisruptionQueueProps: queue.go;
    - DisruptionController: controller.go.

    The life of a NodeClaim, of pkg/controllers/nodeclaim and pkg/controllers/node:
    - Lifecycle and LifecycleProps: lifecycle/controller.go, launch.go, registration.go,
      initialization.go and liveness.go;
    - Terminator: the eviction queue and drains of node/termination/terminator;
    - Termination: node/termination/controller.go;
    - ClaimControllers: the controllers of nodeclaim that mark drift and consolidation, expire
      and collect claims, note pod events and check consistency;
    - StaticPools: static/provisioning and static/deprovisioning, the replicas of static pools.

    Dynamic resources, of pkg/scheduling/dynamicresources:
    - Devices: types.go and pool.go, the devices of slices and templates and their pools;
    - DeviceConstraints: constraint.go and attributebindings.go, devices that must agree in
      an attribute;
    - DeviceCapacity: the request policies of consumable_capacity.go;
    - DeviceTracker and DeviceTrackerProps: allocationtracker.go and the commits and releases
      of partitionable_devices.go and consumable_capacity.go;
    - DeviceRequests: request.go, the validation of claims;
    - DeviceAllocator: allocator.go, the search for devices, its commits and releases.

    Examples, DisruptionExamples and LifecycleExamples hold concrete instances of the interfaces and, for the
    theorems that have hypotheses, inputs that meet them.

    ** How the parts interact

    [Provisioner.Schedule] collects the pending pods and those of nodes that are being
    deleted, builds a scheduler from the cluster state and solves.
    [Solver.Scheduler_Solve] pops a pod from the queue and calls
    [Scheduler.add].  That tries the existing nodes ([ExistingNode_CanAdd]), then
    the node claims of this run and then a fresh claim of each template
    ([NodeClaim_CanAdd]).  Both [CanAdd]s ask the topology for the requirements that the
    pod's spread and affinity constraints add ([Topology.AddRequirements], which asks
    each of its groups for the admissible domains); a node claim then filters its
    instance types ([filterInstanceTypesByRequirements]) and asks the reservation
    manager which reserved offerings it may hold.  An accepted pod is committed with
    [Add], which records it in the topology.  A pod that fits nowhere loses one soft
    constraint ([Preferences.Relax]), the topology is told ([Topology.Update]), and it is
    tried again; a pod that has none left goes back to the queue.  The claims of the result
    are created by [Provisioner.CreateNodeClaims], which tells the cluster state.

    [DisruptionController.Controller_Reconcile] asks the methods in turn.  A method
    filters the candidates ([Candidates.NewCandidate]), bounds them by the budgets,
    simulates what happens without them ([Simulation.SimulateScheduling], the same
    scheduler behind the class [SchedulerService]) and returns commands, which consolidation
    validates once more after a pause.  [DisruptionQueue.StartCommand] taints the candidates,
    launches the replacements (the provisioner behind the class [Launcher]), and queues the
    command; [DisruptionQueue.Queue_Reconcile] waits for the replacements and deletes the
    candidates.

    Objects that the Go code shares by pointer (the topology, the reservation manager,
    the limits per NodePool, the annotation map of a template, the daemon pods, the commands
    of the queue) are state that each operation takes and returns, never a copy per use.

    ** What the theorems show

    - The run as a whole (Solver, SchedQueue): the pods placed on a node together
      request no more than it can hold, no pod is lost or placed twice, NodePool limits on
      resources that instance types list are respected, the loops end, and a run on pods
      that pass API validation returns without a panic when the reservations of the
      templates are known to the manager ([Solver.Solve_never_panics]), which
      [SchedulerSetup.NewScheduler_reservations_ok] shows of a new scheduler.
    - Topology (TopologyGroup, Topology): the domains offered for spread, affinity
      and anti-affinity are exactly those the constraints allow; recording a
      pod keeps the skew within bounds; the anti-affinity of placed pods is enforced
      against later ones; counts agree with a direct count over the
      cluster's pods.
    - Nodes (NodeClaims, ExistingNodes, Reservations, HostPorts, Volumes):
      [CanAdd] accepts only what fits and [Add] keeps that true; reserved
      capacity is conserved, and so are host ports and volume limits.
    - Concurrency (Parallel): under every interleaving of the workers the first
      decisive candidate wins, so the sequential scan in Scheduler is the outcome.
    - Relaxation (Preferences): only soft constraints are dropped, one per step, and
      all of them are dropped before the pod is given up.
    - The label algebra (Requirement, Requirements): a requirement denotes a set
      of strings; intersection, its emptiness test, compatibility and
      serialisation are correct for that meaning.
    - Preparation of pods (VolumeTopology, DefaultConstraints, PodValidation): the
      alternatives of volumes denote where they mount, the cached injection of default
      constraints equals its definition pod by pod, and what passes validation
      parses.
    - Provisioning (ProvisionerProps): the provisioner keeps the promise the simulations
      rely on, and launching gives every reservation back.
    - The cluster state (NodePoolState, StateNodes, ClusterInv): in every state reached
      with distinct provider ids no operation panics, and the resources of a pool are the sum over its nodes.
    - Disruption methods: budgets are never exceeded, replacements are cheaper whatever
      offering is launched, the pods of candidates have a place, what was validated still
      holds at the second read, static pools replace node by node within their limits, and a
      node is rebooted at most twice a day within the life of a process.
    - The queue and the loop (DisruptionQueueProps, DisruptionController), by rule induction
      over all interleavings of starts, which check the queue in one step and queue their
      command in a later one, and of reconciliations: nodes are deleted only after their
      replacements were seen initialized, a node is in one command at a time, reservations
      are given back on every path, and a command ends after its timeout.  The sweep at the
      start of a pass leaves nodes alone that are being disrupted.
    - The life of a NodeClaim (LifecycleProps, Terminator, Termination): its phases follow each
      other; at most one instance is launched for it, under a finalizer that goes only when
      the instance is gone; a node joins with everything its claim asks for, a claim that
      does not launch or register in time is deleted; drains go tier by tier, deadlines of
      pods only tighten, and a node is let go only when it is empty.  Claims are marked as
      drifted or consolidatable, expired and collected exactly when they should be
      (ClaimControllers).  Static pools are refilled within their limit and scaled down to
      their replicas, cheapest nodes first (StaticPools).
    - Dynamic resources: pools hold exactly the devices of the newest complete generation
      (Devices); bindings are the transitive closure of what providers declare and removing a
      device undoes adding it (DeviceConstraints); capacity is rounded up to the least value
      the policy admits (DeviceCapacity); counters and capacity are conserved over all
      commits and releases, none of which panics (DeviceTrackerProps).
    - A few theorems state behaviour that differs from what the code or a comment
      intends, among them [Templates.negative_bound_panics],
      [ClusterInv.shared_provider_id_panics], [Terminator.Add_clears_timeout],
      [Scheduler.node_limit_not_reduced], [Scheduler.daemon_relaxation_leaks],
      [Solver.relaxed_annotation_overwritten], [ConsolidationProps.batch_exceeds_limit],
      [DisruptionQueueProps.late_success_is_undone],
      [DisruptionQueueProps.gone_claim_loses_command], [LifecycleProps.unrecorded_instance_left]
      and [Terminator.blocked_pod_never_woken].

    ** Conventions

    - A Go panic is [None], or the constructor [ReservationPanic] where it crosses the
      errors of a search for a node; an error is a value of an error type or [None] where
      the callers only test for one.  Error texts, events, logs and metrics are left out.
    - [int32] counts of topology groups, [int] bounds of requirements and [int64]
      reservations keep their
      width, with wrap-around written out.  A [resource.Quantity] is an exact
      number of nano-units.  A price of an offering is an order embedding of the finite
      float64 values into [Z]: the code only compares those prices.  Costs and scores are
      added, multiplied and divided; Float64 has the rounding, the infinities and the NaN of
      the format.
    - A Go map is a [gmap], and where the order of iteration can be observed the
      order is a parameter ([IterationOrder]), so that the theorems hold for every
      order.  [sort.Slice] and its relatives are a stable insertion sort.
    - Instance types are compared by structure where the code compares pointers.
    - Candidates that are evaluated in parallel are scanned in order, which Parallel
      justifies for the candidate that is chosen.  What depends on the
      interleaving besides is fixed to that scan: the numbers of placeholder
      hostnames (the model numbers the templates in order and skips the numbers of
      attempts that failed; claims that are kept have distinct ones), which errors of
      later templates are collected, and the annotation that a template evaluated
      ahead of the chosen one writes before it is superseded.  Workers that only write to
      the API server run in the order of their index.  The commands of a pass, which the code
      starts in parallel, are started in order by [DisruptionController.disrupt]; the relation
      [DisruptionQueueProps.queue_step] interleaves their checks and insertions.
    - Maps keyed by pod pointers are keyed by the pod's UID.
    - Code outside the repository is an argument or a class with named laws: the
      API server ([KubeReader], [VolumeApi], [NodeApi], [ClusterApi], [KubeApi] and others),
      label selectors and hashing,
      [MatchTaint] and [ToleratesTaint] ([TaintApi]), status conditions ([ConditionApi]), cron
      schedules, net.ParseIP,
      time.ParseDuration, strings.ToLower, random draws, and the helper that
      totals the requests of a pod, CEL selectors of devices.  NodeClaims and
      ExistingNodes take the allocator of dynamic resources as a function argument, which
      DeviceAllocator models.

    ** Fuel

    The loop of [Solve] runs with n(n+2)+1 steps for n pods;
    [SchedQueue.Solve_terminates] shows that the loop has ended by then, since
    between two placements the queue is cycled through at most once.  The retry loop
    of [trySchedule] has as many steps as the pod has soft constraints, each of which
    one relaxation removes.  The loop over required affinity terms of a daemon pod has
    one step per term ([Scheduler.daemon_loop_fuel]).  The binary search of
    multi-node consolidation has as many steps as candidates
    ([ConsolidationProps.firstN_spec]).  The search for devices is as deep as
    [DeviceAllocator.search_depth]: a request has at most 32 slots.

    ** What is not modelled

    The batcher, the reboot controller and the
    controllers of NodePools, node overlays and the cost tracker are not modelled.
    The operator, options, metrics and test support are input and output around
    this core. *)

From Stdlib Require Import Ascii DecimalString DecimalZ.
From Stdlib Require Export Btauto.
From stdpp Require Export sorting.
From stdpp Require Export base gmap strings list fin_maps numbers option.
Export list_basics.list list_relations.list list_misc.list list_tactics.list list_monad.list list_numbers.list.

(** ** Machine integers

    Go's [int] and [int64] are 64 bits wide on every platform the controller
    runs on; arithmetic wraps around. *)

Definition int64_max : Z := 9223372036854775807.
Definition int64_min : Z := -9223372036854775808.

(** Two's-complement wrap-around to 64 bits. *)
Definition wrap64 (z : Z) : Z := (z - int64_min) `mod` 18446744073709551616 + int64_min.

Definition in_int64 (z : Z) : Prop := (int64_min ≤ z ≤ int64_max)%Z.

Lemma wrap64_in_range z : in_int64 (wrap64 z).
Proof.
  unfold in_int64, wrap64, int64_min, int64_max.
  pose proof (Z.mod_pos_bound (z - -9223372036854775808) 18446744073709551616). lia.
Qed.

Lemma wrap64_id z : in_int64 z → wrap64 z = z.
Proof.
  unfold in_int64, wrap64, int64_min, int64_max. intros.
  rewrite Z.mod_small; lia.
Qed.

(** [int32], used for the topology counts. *)
Definition int32_max : Z := 2147483647.
Definition int32_min : Z := -2147483648.
Definition wrap32 (z : Z) : Z := (z - int32_min) `mod` 4294967296 + int32_min.

Lemma wrap32_id z : (int32_min ≤ z ≤ int32_max)%Z → wrap32 z = z.
Proof. unfold wrap32, int32_min, int32_max. intros. rewrite Z.mod_small; lia. Qed.

(** ** Map iteration

    Go visits the keys of a map or set in an unspecified order that differs
    from loop to loop.  Where an outcome depends on it, the order is a
    parameter: [iter n X] is the order in which loop [n] visits [X]. *)
Class IterationOrder := {
  iter : nat → gset string → list string;
  iter_Permutation : ∀ n X, iter n X ≡ₚ elements X;
}.

#[export] Program Instance elements_order : IterationOrder | 100 := { iter _ X := elements X }.
Next Obligation. done. Qed.

Lemma elem_of_iter `{IterationOrder} n X x : x ∈ iter n X ↔ x ∈ X.
Proof. by rewrite iter_Permutation, elem_of_elements. Qed.

(** ** The part of package strconv the sources use *)

Inductive num_error := ErrSyntax | ErrRange.

(** [strconv.FormatInt(z, 10)]. *)
Definition FormatInt (z : Z) : string := NilZero.string_of_int (Z.to_int z).

(** [strconv.Atoi]: an optional sign and decimal digits.  On a syntax error the
    value is 0; out of range it is the nearest [int]. *)
Definition Atoi (s : string) : Z * option num_error :=
  let parsed := match s with
                | String "+"%char rest =>
                    match NilZero.uint_of_string rest with
                    | Some d => Some (Z.of_uint d)
                    | None => None
                    end
                | _ => option_map Z.of_int (NilZero.int_of_string s)
                end in
  match parsed with
  | None => (0%Z, Some ErrSyntax)
  | Some z => if decide (z > int64_max)%Z then (int64_max, Some ErrRange)
              else if decide (z < int64_min)%Z then (int64_min, Some ErrRange)
              else (z, None)
  end.

(** [strconv.ParseInt(s, 10, 32)]: the same syntax, with the range of an int32. *)
Definition ParseInt32 (s : string) : option Z :=
  match Atoi s with
  | (z, None) => if decide (-2147483648 ≤ z ≤ 2147483647)%Z then Some z else None
  | (_, Some _) => None
  end.

Lemma ParseInt32_range s z : ParseInt32 s = Some z → (-2147483648 ≤ z ≤ 2147483647)%Z.
Proof. unfold ParseInt32. destruct (Atoi s) as [y []]; [done|]. case_decide; by intros [= <-]. Qed.

Lemma to_int_nonnil z : Z.to_int z ≠ Decimal.Pos Decimal.Nil ∧ Z.to_int z ≠ Decimal.Neg Decimal.Nil.
Proof.
  destruct z as [|p|p]; simpl; split; try done; intros [=];
  pose proof (DecimalPos.Unsigned.to_uint_nonnil p); congruence.
Qed.

(** Zero-padded spellings of an integer: infinitely many strings parse to it. *)
Definition zero_padded (z : Z) (k : nat) : string :=
  NilZero.string_of_int
    match Z.to_int z with
    | Decimal.Pos d => Decimal.Pos (Nat.iter k Decimal.D0 d)
    | Decimal.Neg d => Decimal.Neg (Nat.iter k Decimal.D0 d)
    end.

Lemma iter_D0_nonnil k d : d ≠ Decimal.Nil → Nat.iter k Decimal.D0 d ≠ Decimal.Nil.
Proof. destruct k; simpl; congruence. Qed.

Lemma of_uint_iter_D0 k d : Z.of_uint (Nat.iter k Decimal.D0 d) = Z.of_uint d.
Proof. induction k as [|k IH]; simpl; [done|]. exact IH. Qed.

Lemma zero_padded_length z k : (k ≤ String.length (zero_padded z k))%nat.
Proof.
  assert (∀ d, d ≠ Decimal.Nil →
    (k ≤ String.length (NilEmpty.string_of_uint (Nat.iter k Decimal.D0 d)))%nat) as Hlen.
  { intros d Hd. induction k as [|k IH]; simpl; lia. }
  pose proof (to_int_nonnil z) as [H1 H2]. unfold zero_padded.
  destruct (Z.to_int z) as [d|d]; simpl; unfold NilZero.string_of_uint;
    assert (d ≠ Decimal.Nil) as Hd by congruence; specialize (Hlen d Hd);
    pose proof (iter_D0_nonnil k d Hd); destruct (Nat.iter k Decimal.D0 d); simpl in *; try done; lia.
Qed.

Lemma string_of_int_not_plus d rest : NilZero.string_of_int d ≠ String "+"%char rest.
Proof. destruct d as [d|d]; simpl; [destruct d|]; simpl; congruence. Qed.

Lemma Atoi_string_of_int d z :
  d ≠ Decimal.Pos Decimal.Nil → d ≠ Decimal.Neg Decimal.Nil →
  Z.of_int d = z → in_int64 z → Atoi (NilZero.string_of_int d) = (z, None).
Proof.
  intros H1 H2 Hd Hz. unfold Atoi.
  assert (∀ (A : Type) (f : string → A) e, match NilZero.string_of_int d with
            String "+"%char r => f r | _ => e end = e) as ->.
  { intros. destruct (NilZero.string_of_int d) as [|c r] eqn:E; [done|].
    pose proof (string_of_int_not_plus d r) as Hn. rewrite E in Hn.
    destruct c as [[] [] [] [] [] [] [] []]; try done; by exfalso. }
  rewrite NilZero.isi by done. simpl. rewrite Hd.
  unfold in_int64 in Hz. rewrite !decide_False by lia. done.
Qed.

(** Printing a 64-bit integer and parsing it back is the identity. *)
Lemma Atoi_FormatInt z : in_int64 z → Atoi (FormatInt z) = (z, None).
Proof.
  intros. destruct (to_int_nonnil z). apply Atoi_string_of_int; try done.
  apply DecimalZ.of_to.
Qed.

Lemma Atoi_zero_padded z k : in_int64 z → Atoi (zero_padded z k) = (z, None).
Proof.
  intros. destruct (to_int_nonnil z) as [H1 H2]. pose proof (DecimalZ.of_to z) as Hz.
  unfold zero_padded. destruct (Z.to_int z) as [d|d];
    assert (d ≠ Decimal.Nil) as Hd by congruence; pose proof (iter_D0_nonnil k d Hd);
    apply Atoi_string_of_int; try congruence; simpl in *.
  - by rewrite of_uint_iter_D0.
  - by rewrite of_uint_iter_D0.
Qed.

(** Every finite set of strings misses a spelling of a given integer. *)
Lemma fresh_spelling z (X : gset string) :
  in_int64 z → ∃ s, (s ∉ X) ∧ Atoi s = (z, None).
Proof.
  intros Hz. set (n := S (foldr (λ s m, String.length s `max` m)%nat 0%nat (elements X))).
  exists (zero_padded z n). split; [|by apply Atoi_zero_padded].
  rewrite <-elem_of_elements. intros Hin.
  assert (String.length (zero_padded z n) < n)%nat; [|pose proof (zero_padded_length z n); lia].
  generalize dependent (zero_padded z n). intros s. unfold n.
  induction (elements X) as [|x l IH]; [by intros ?%not_elem_of_nil|].
  simpl. intros [->|Hin]%elem_of_cons; [lia|]. specialize (IH Hin). lia.
Qed.

(** ** The part of package strings the sources use *)

Definition HasPrefix (s prefix : string) : bool := String.prefix prefix s.

Fixpoint Contains (s sub : string) : bool :=
  String.prefix sub s ||
  match s with
  | EmptyString => false
  | String _ rest => Contains rest sub
  end.

Definition HasSuffix (s suffix : string) : bool :=
  String.prefix (String.rev suffix) (String.rev s).

(** [strings.Cut(s, "/")]: the text before and after the first slash. *)
Fixpoint CutSlash (s : string) : string * string * bool :=
  match s with
  | EmptyString => (EmptyString, EmptyString, false)
  | String c rest =>
      if Ascii.eqb c "/"%char then (EmptyString, rest, true)
      else let '(before, after, found) := CutSlash rest in
           (String c before, after, found)
  end.

(** [strings.Join]. *)
Fixpoint Join (l : list string) (sep : string) : string :=
  match l with
  | [] => EmptyString
  | [s] => s
  | s :: rest => s +:+ sep +:+ Join rest sep
  end.

(** ** Errors as values

    A Go function returning [(T, error)] is modelled by [result E T]; a
    function that accumulates errors with [multierr] by the list of errors, the
    nil error being the empty list. *)

Inductive result (E A : Type) : Type :=
| Ok (a : A)
| Err (e : E).
Arguments Ok {E A} a.
Arguments Err {E A} e.

#[global] Instance result_ret E : MRet (result E) := λ A a, Ok a.
#[global] Instance result_bind E : MBind (result E) :=
  λ A B f m, match m with Ok a => f a | Err e => Err e end.
#[global] Instance result_fmap E : FMap (result E) :=
  λ A B f m, match m with Ok a => Ok (f a) | Err e => Err e end.

Definition is_ok {E A} (m : result E A) : bool :=
  match m with Ok _ => true | Err _ => false end.

Lemma result_bind_ok {E A B} (m : result E A) (f : A → result E B) b :
  (m ≫= f) = Ok b ↔ ∃ a, m = Ok a ∧ f a = Ok b.
Proof.
  destruct m; simpl; split; [eauto|by intros (? & [= ->] & ?)|done|by intros (? & ? & ?)].
Qed.

(** ** Sorted views of sets and maps: [sets.List] *)

Definition sets_List (s : gset string) : list string := merge_sort String.le (elements s).

Lemma elem_of_sets_List x s : x ∈ sets_List s ↔ x ∈ s.
Proof. unfold sets_List. by rewrite merge_sort_Permutation, elem_of_elements. Qed.

Lemma sets_List_nil s : sets_List s = [] ↔ s = ∅.
Proof.
  split; [|intros ->; done]. intros H. apply set_eq. intros x.
  rewrite <-elem_of_sets_List, H. set_solver.
Qed.

Lemma list_to_set_sets_List s : (list_to_set (sets_List s) : gset string) = s.
Proof. apply set_eq. intros x. by rewrite elem_of_list_to_set, elem_of_sets_List. Qed.

(** ** Boolean folds over sets and maps

    A Go [range] loop that returns at the first element satisfying a test is a
    boolean fold; the answer does not depend on the iteration order. *)

Definition set_existsb {A} `{Countable A} (f : A → bool) (s : gset A) : bool :=
  existsb f (elements s).

Definition map_existsb {K V} `{Countable K} (f : K → V → bool) (m : gmap K V) : bool :=
  existsb (λ kv, f kv.1 kv.2) (map_to_list m).

Definition map_forallb {K V} `{Countable K} (f : K → V → bool) (m : gmap K V) : bool :=
  forallb (λ kv, f kv.1 kv.2) (map_to_list m).

Lemma existsb_elem_of {A} (f : A → bool) (l : list A) :
  existsb f l = true ↔ ∃ x, x ∈ l ∧ f x = true.
Proof. rewrite existsb_exists. setoid_rewrite <-list_elem_of_In. done. Qed.

Lemma forallb_elem_of {A} (f : A → bool) (l : list A) :
  forallb f l = true ↔ ∀ x, x ∈ l → f x = true.
Proof. rewrite forallb_forall. setoid_rewrite <-list_elem_of_In. done. Qed.

Lemma set_existsb_spec {A} `{Countable A} (f : A → bool) (s : gset A) :
  set_existsb f s = true ↔ ∃ x, x ∈ s ∧ f x = true.
Proof. unfold set_existsb. rewrite existsb_elem_of. by setoid_rewrite elem_of_elements. Qed.

Lemma map_existsb_spec {K V} `{Countable K} (f : K → V → bool) (m : gmap K V) :
  map_existsb f m = true ↔ ∃ k v, m !! k = Some v ∧ f k v = true.
Proof.
  unfold map_existsb. rewrite existsb_elem_of. split.
  - intros ([k v] & Hin & Hf). apply elem_of_map_to_list in Hin. eauto.
  - intros (k & v & Hk & Hf). exists (k, v). by rewrite elem_of_map_to_list.
Qed.

Lemma map_forallb_spec {K V} `{Countable K} (f : K → V → bool) (m : gmap K V) :
  map_forallb f m = true ↔ ∀ k v, m !! k = Some v → f k v = true.
Proof.
  unfold map_forallb. rewrite forallb_elem_of. split.
  - intros Hall k v Hk. apply (Hall (k, v)). by apply elem_of_map_to_list.
  - intros Hall [k v] Hin. apply elem_of_map_to_list in Hin. by apply Hall.
Qed.

(** ** Tactics and hints *)

Create HintDb karpenter.
#[export] Hint Resolve wrap64_in_range : karpenter.

(** Turn boolean facts about the models into propositions. *)
Ltac breflect :=
  repeat match goal with
  | H : andb _ _ = true |- _ => apply andb_true_iff in H as [? ?]
  | H : orb _ _ = false |- _ => apply orb_false_iff in H as [? ?]
  | H : negb _ = true |- _ => apply negb_true_iff in H
  | H : negb _ = false |- _ => apply negb_false_iff in H
  | H : bool_decide _ = true |- _ => apply bool_decide_eq_true in H
  | H : bool_decide _ = false |- _ => apply bool_decide_eq_false in H
  | H : (_ =? _)%Z = true |- _ => apply Z.eqb_eq in H
  | H : (_ =? _)%Z = false |- _ => apply Z.eqb_neq in H
  | H : (_ <? _)%Z = true |- _ => apply Z.ltb_lt in H
  | H : (_ <? _)%Z = false |- _ => apply Z.ltb_ge in H
  | H : (_ <=? _)%Z = true |- _ => apply Z.leb_le in H
  | H : (_ <=? _)%Z = false |- _ => apply Z.leb_gt in H
  end.

(** Case on the scrutinee of every boolean test of the goal. *)
Ltac case_tests :=
  repeat match goal with
  | |- context [if ?b then _ else _] =>
      lazymatch type of b with
      | bool => let E := fresh "E" in destruct b eqn:E
      | _ => case_decide
      end
  end.

(** ** Sorting

    [sort.Slice] and [slices.SortFunc] on short slices, and [sort.SliceStable] on
    all, are a stable insertion sort by a [less] function. *)

Fixpoint insert_by {A} (less : A → A → bool) (x : A) (l : list A) : list A :=
  match l with
  | [] => [x]
  | y :: l' => if less y x then y :: insert_by less x l' else x :: y :: l'
  end.

Definition sort_by {A} (less : A → A → bool) (l : list A) : list A :=
  foldr (insert_by less) [] l.

Lemma insert_by_Permutation {A} (less : A → A → bool) x l :
  insert_by less x l ≡ₚ x :: l.
Proof.
  induction l as [|y l IH]; simpl; [done|]. destruct (less y x); [|done].
  rewrite IH. apply Permutation_swap.
Qed.

Lemma sort_by_Permutation {A} (less : A → A → bool) l : sort_by less l ≡ₚ l.
Proof. induction l as [|x l IH]; simpl; [done|]. by rewrite insert_by_Permutation, IH. Qed.

Section sort_by_sorted.
  Context {A : Type} (less : A → A → bool).
  (** [less] is a strict weak order: its negation is a total preorder. *)
Definition not_after (x y : A) : Prop := less y x = false.
  Hypothesis less_asym : ∀ x y, less x y = true → less y x = false.
  Hypothesis not_after_trans : ∀ x y z, not_after x y → not_after y z → not_after x z.

Lemma insert_by_StronglySorted x l :
  StronglySorted not_after l → StronglySorted not_after (insert_by less x l).
Proof.
  induction 1 as [|y l Hs IH Hall]; simpl; [by repeat constructor|].
  destruct (less y x) eqn:E.
  - constructor; [done|]. rewrite insert_by_Permutation. constructor; [|done].
    unfold not_after. by apply less_asym.
  - constructor; [by constructor|]. constructor; [done|].
    eapply Forall_impl; [exact Hall|]. intros z Hz. by apply (not_after_trans _ y).
Qed.

Lemma sort_by_StronglySorted l : StronglySorted not_after (sort_by less l).
Proof. induction l; simpl; [constructor|]. by apply insert_by_StronglySorted. Qed.

(** The head of the sorted slice is not after any element. *)
Lemma sort_by_head x l l' y : sort_by less l = x :: l' → y ∈ l → not_after x y ∨ x = y.
Proof.
  intros E Hy. pose proof (sort_by_StronglySorted l) as Hs. rewrite E in Hs.
  rewrite <-(sort_by_Permutation less l), E in Hy.
  apply elem_of_cons in Hy as [->|Hy]; [by right|left].
  apply StronglySorted_inv in Hs as [_ Hall]. rewrite Forall_forall in Hall. by apply Hall.
Qed.
End sort_by_sorted.

(** ** Loops in the option monad *)

Fixpoint foldl_opt {A B} (f : B → A → option B) (b : B) (l : list A) : option B :=
  match l with
  | [] => Some b
  | a :: l' => f b a ≫= λ b', foldl_opt f b' l'
  end.

(** Choosing an optional value for every key of a finite set gives a map. *)
Lemma finite_map_choice {K V} `{Countable K} (X : gset K) (P : K → option V → Prop) :
  (∀ k, k ∈ X → ∃ o, P k o) → ∃ m : gmap K V, ∀ k, k ∈ X → P k (m !! k).
Proof.
  induction X as [|k X Hk IH] using set_ind_L; intros HP.
  { exists ∅. set_solver. }
  destruct IH as [m Hm]; [set_solver|]. destruct (HP k) as [o Ho]; [set_solver|].
  exists (partial_alter (λ _, o) k m). intros k' Hk'.
  destruct (decide (k = k')) as [<-|Hne].
  - by rewrite lookup_partial_alter_eq.
  - rewrite lookup_partial_alter_ne by done. apply Hm. set_solver.
Qed.

Lemma Forall_nil_omap {A B} (f : A → option B) (l : list A) :
  (∀ x, x ∈ l → f x = None) ↔ omap f l = [].
Proof.
  induction l as [|x l IH]; simpl; [by split; [done|intros _ x ?%not_elem_of_nil]|].
  destruct (f x) eqn:E; split; try done.
  - intros H. rewrite (H x) in E; [done|by left].
  - intros H. apply IH. intros y Hy. apply H. by right.
  - intros H y [->|Hy]%elem_of_cons; [done|]. by apply IH.
Qed.

Lemma find_none {A} (f : A → bool) l : List.find f l = None ↔ ∀ x, x ∈ l → f x = false.
Proof.
  split.
  - intros H x Hx. eapply List.find_none; [done|]. by apply list_elem_of_In.
  - intros H. destruct (List.find f l) as [x|] eqn:E; [|done].
    apply List.find_some in E as [Hin Hf]. rewrite H in Hf; [done|by apply list_elem_of_In].
Qed.

Lemma foldl_ext {A B} (f g : B → A → B) b l :
  (∀ b x, x ∈ l → f b x = g b x) → foldl f b l = foldl g b l.
Proof.
  revert b. induction l as [|x l IH]; intros b H; simpl; [done|].
  rewrite H by (by left). apply IH. intros. apply H. by right.
Qed.

Lemma foldl_opt_app {A B} (f : B → A → option B) b l1 l2 :
  foldl_opt f b (l1 ++ l2) = foldl_opt f b l1 ≫= λ b', foldl_opt f b' l2.
Proof.
  revert b. induction l1 as [|a l1 IH]; intros b; simpl; [done|].
  destruct (f b a); simpl; [apply IH|done].
Qed.

(** A [range] loop over a map that rewrites one entry of an accumulator per key
    touches every key once. *)
Lemma map_fold_update_lookup {K V W} `{Countable K} (g : K → V → option W → option W)
    (m : gmap K V) (acc : gmap K W) k :
  map_fold (λ k v acc, partial_alter (g k v) k acc) acc m !! k
  = match m !! k with Some v => g k v (acc !! k) | None => acc !! k end.
Proof.
  revert k.
  apply (map_fold_weak_ind (λ (r : gmap K W) (m : gmap K V),
    ∀ k, r !! k = match m !! k with Some v => g k v (acc !! k) | None => acc !! k end)).
  - intros k. by rewrite lookup_empty.
  - intros i v m' r Hi IH k. destruct (decide (i = k)) as [<-|Hne].
    + rewrite lookup_partial_alter_eq, lookup_insert_eq, IH, Hi. done.
    + rewrite lookup_partial_alter_ne, lookup_insert_ne, IH by done. done.
Qed.

Lemma list_filter_none {A} (P : A → Prop) `{∀ x, Decision (P x)} l :
  (∀ x, x ∈ l → ¬ P x) → filter P l = [].
Proof.
  induction l as [|x l IH]; intros Hn; [done|]. rewrite filter_cons_False.
  - apply IH. intros y Hy. apply Hn. by right.
  - apply Hn. by left.
Qed.

Lemma list_filter_all {A} (P : A → Prop) `{∀ x, Decision (P x)} (l : list A) :
  (∀ x, x ∈ l → P x) → filter P l = l.
Proof.
  induction l as [|x l IH]; intros Hn; [done|]. rewrite filter_cons_True.
  - f_equal. apply IH. intros y Hy. apply Hn. by right.
  - apply Hn. by left.
Qed.

Lemma StronglySorted_lookup {A} (R : relation A) l i j x y :
  StronglySorted R l → l !! i = Some x → l !! j = Some y → (i < j)%nat → R x y.
Proof.
  intros Hs Hi Hj Hlt. rewrite <-(take_drop (S i) l) in Hs. eapply StronglySorted_app_1_elem_of; [exact Hs|..].
  - apply list_elem_of_lookup. exists i. by rewrite lookup_take_lt by lia.
  - apply list_elem_of_lookup. exists (j - S i)%nat. rewrite lookup_drop. rewrite <-Hj. f_equal. lia.
Qed.

(** ** Strings in order *)

Lemma ltb_false_le s1 s2 : String.ltb s1 s2 = false ↔ String.le s2 s1.
Proof.
  unfold String.le, String.ltb, String.leb. rewrite (String.compare_antisym s1 s2).
  destruct (String.compare s2 s1); simpl; naive_solver.
Qed.

Lemma ltb_asym s1 s2 : String.ltb s1 s2 = true → String.ltb s2 s1 = false.
Proof. unfold String.ltb. rewrite (String.compare_antisym s1 s2). by destruct (String.compare s2 s1). Qed.

(** ** Keeping the best of a sequence

    A loop that replaces its candidate by every element strictly better than it
    ends with the best element; when the order is total, in whatever order the
    elements come. *)

Section keep_best.
  Context {A : Type} (less : A → A → bool).

Definition keep (acc : option A) (x : A) : option A :=
  match acc with None => Some x | Some y => Some (if less x y then x else y) end.

Definition best (l : list A) : option A := foldl keep None l.

Lemma foldl_keep_is_Some l y : is_Some (foldl keep (Some y) l).
Proof. revert y. induction l as [|x l IH]; intros y; simpl; [done|]. apply IH. Qed.

Lemma best_None l : best l = None ↔ l = [].
Proof.
  split; [|by intros ->]. destruct l as [|x l]; [done|]. unfold best. simpl.
  destruct (foldl_keep_is_Some l x) as [z ->]. done.
Qed.

  Hypothesis less_asym : ∀ x y, less x y = true → less y x = false.
  Hypothesis not_after_trans : ∀ x y z, not_after less x y → not_after less y z → not_after less x z.

Lemma foldl_keep_spec l y z : foldl keep (Some y) l = Some z →
  z ∈ y :: l ∧ ∀ x, x ∈ y :: l → less x z = false.
Proof.
  assert (∀ x, less x x = false) as Hirr.
  { intros x. destruct (less x x) eqn:E; [|done]. by rewrite (less_asym _ _ E) in E. }
  revert y. induction l as [|x l IH]; intros y H; simpl in *.
  { injection H as <-. split; [by left|]. intros w [->|?%not_elem_of_nil]%elem_of_cons; [auto|done]. }
  apply IH in H as [Hin Hmin]. split.
  { apply elem_of_cons in Hin as [->|Hin]; [destruct (less x y); set_solver|set_solver]. }
  assert (less (if less x y then x else y) z = false) as Hc by (apply Hmin; by left).
  intros w [->|[->|Hw]%elem_of_cons]%elem_of_cons; [..|apply Hmin; by right]; destruct (less x y) eqn:E; try done.
  - exact (not_after_trans _ _ _ Hc (less_asym _ _ E)).
  - exact (not_after_trans _ _ _ Hc E).
Qed.

Lemma best_spec l z : best l = Some z → z ∈ l ∧ ∀ x, x ∈ l → less x z = false.
Proof. destruct l as [|x l]; [done|]. apply foldl_keep_spec. Qed.

  Hypothesis less_total : ∀ x y, less x y = false → less y x = false → x = y.

Lemma best_Permutation l l' : l ≡ₚ l' → best l = best l'.
Proof.
  intros HP. destruct (best l) as [z|] eqn:E.
  - destruct (best l') as [z'|] eqn:E'; [|apply best_None in E' as ->; apply Permutation_nil_r in HP as ->; done].
    apply best_spec in E as [Hz Hm], E' as [Hz' Hm']. f_equal. apply less_total.
    + apply Hm'. by rewrite <-HP.
    + apply Hm. by rewrite HP.
  - apply best_None in E as ->. apply Permutation_nil in HP as ->. done.
Qed.
End keep_best.

(** ** Sums over the values of a map *)

Definition map_sum {K V} `{Countable K} (f : V → Z) (m : gmap K V) : Z := map_fold (λ _ x acc, (f x + acc)%Z) 0%Z m.

Section map_sum.
  Context {K V : Type} `{Countable K} (f : V → Z).

Lemma map_sum_empty : map_sum f (∅ : gmap K V) = 0%Z.
Proof. done. Qed.

Lemma map_sum_insert_None (m : gmap K V) i x : m !! i = None → map_sum f (<[i := x]> m) = (f x + map_sum f m)%Z.
Proof. intros Hi. unfold map_sum. rewrite map_fold_insert_L; [done| |done]. intros. lia. Qed.

Lemma map_sum_delete (m : gmap K V) i : map_sum f (delete i m) = (map_sum f m - from_option f 0 (m !! i))%Z.
Proof.
  destruct (m !! i) as [x|] eqn:E; simpl.
  - rewrite <-(insert_delete_id m i x E) at 2. rewrite map_sum_insert_None by apply lookup_delete_eq. lia.
  - rewrite delete_id by done. lia.
Qed.

Lemma map_sum_insert (m : gmap K V) i x : map_sum f (<[i := x]> m) = (map_sum f m - from_option f 0 (m !! i) + f x)%Z.
Proof.
  rewrite <-insert_delete_eq, map_sum_insert_None by apply lookup_delete_eq. rewrite map_sum_delete. lia.
Qed.

Lemma map_sum_ext (g : V → Z) (m : gmap K V) : (∀ i x, m !! i = Some x → f x = g x) → map_sum f m = map_sum g m.
Proof.
  unfold map_sum. induction m as [|i x m Hi IH] using map_ind; intros Hf; [done|].
  rewrite !map_fold_insert_L by (done || (intros; lia)). rewrite (Hf i x) by (by rewrite lookup_insert_eq).
  f_equal. apply IH. intros j y Hj. apply (Hf j). rewrite lookup_insert_ne; [done|congruence].
Qed.

Lemma map_sum_nonneg (m : gmap K V) : (∀ i x, m !! i = Some x → 0 ≤ f x)%Z → (0 ≤ map_sum f m)%Z.
Proof.
  induction m as [|i x m Hi IH] using map_ind; intros Hf; [done|]. rewrite map_sum_insert_None by done.
  assert (0 ≤ f x)%Z by (apply (Hf i); by rewrite lookup_insert_eq).
  assert (0 ≤ map_sum f m)%Z; [|lia]. apply IH. intros j y Hj. apply (Hf j). rewrite lookup_insert_ne; [done|congruence].
Qed.

Lemma map_sum_ge (m : gmap K V) i x : (∀ i x, m !! i = Some x → 0 ≤ f x)%Z → m !! i = Some x → (f x ≤ map_sum f m)%Z.
Proof.
  intros Hf Hi. pose proof (map_sum_delete m i) as Hd. rewrite Hi in Hd. simpl in Hd.
  assert (0 ≤ map_sum f (delete i m))%Z; [|lia]. apply map_sum_nonneg. intros j y [_ Hj]%lookup_delete_Some. by eapply Hf.
Qed.
End map_sum.

(** ** [lo.GroupBy]: the elements with a key, in their order *)

Definition group_by {A} (f : A → string) (l : list A) : gmap string (list A) :=
  foldl (λ m x, <[f x := default [] (m !! f x) ++ [x]]> m) ∅ l.

Lemma group_by_lookup {A} (f : A → string) l k :
  group_by f l !! k = match filter (λ x, f x = k) l with [] => None | g => Some g end.
Proof.
  unfold group_by.
  assert (∀ m : gmap string (list A), (∀ g, m !! k = Some g → g ≠ []) →
    foldl (λ m x, <[f x := default [] (m !! f x) ++ [x]]> m) m l !! k =
    match default [] (m !! k) ++ filter (λ x, f x = k) l with [] => None | g => Some g end) as H.
  { induction l as [|x l IH]; intros m Hm; cbn [foldl].
    - rewrite app_nil_r. destruct (m !! k) as [[|]|] eqn:E; cbn; [by destruct (Hm [])|done..].
    - rewrite filter_cons. destruct (decide (f x = k)) as [<-|Hne].
      + rewrite IH; rewrite lookup_insert_eq; [cbn|intros g [= <-]; by destruct (default [] _)].
        by rewrite <-app_assoc.
      + rewrite IH; by rewrite lookup_insert_ne by done. }
  rewrite H; [by rewrite lookup_empty|]. intros g. by rewrite lookup_empty.
Qed.

(** [group_by] on the empty side: no group is empty. *)
Lemma group_by_elem {A} (f : A → string) l k g :
  group_by f l !! k = Some g ↔ g = filter (λ x, f x = k) l ∧ g ≠ [].
Proof.
  rewrite group_by_lookup. destruct (filter _ l) as [|y ys]; [naive_solver|]. split; [by intros [= <-]|by intros [-> _]].
Qed.
