(* ===== verification/Float64.v ===== *)
(** * Float64: the float64 arithmetic the sources use

    A finite float64 is its integer multiple of the smallest positive one, 2^-1074;
    an operation computes exactly and rounds to 53 significant bits, ties to even.
    The two zeros are one value: no code modelled here tells them apart. *)

From S2P Require Import Prelude.

#[local] Open Scope Z_scope.

Inductive float64 := Fin (z : Z) | PosInf | NegInf | NaN.

#[export] Instance float64_eq_dec : EqDecision float64.
Proof. solve_decision. Defined.

(** ** Rounding *)

(** How many low bits a quotient with integer part [q] loses. *)
Definition dropped_bits (q : Z) : Z := 0 `max` (Z.log2 q - 52).

(** [n / d] to the nearest integer, ties to even. *)
Definition div_even (n d : Z) : Z :=
  let m := n / d in
  let r := n mod d in
  if (2 * r >? d) || ((2 * r =? d) && Z.odd m) then (m + 1) else m.

(** The representable number nearest to [n / d], for [n] not negative. *)
Definition round_abs (n d : Z) : Z :=
  let e := dropped_bits (n / d) in (div_even n (d * 2 ^ e) * 2 ^ e).

Definition round_div (n d : Z) : Z := (Z.sgn n * round_abs (Z.abs n) d).

(** One in units of 2^-1074, and the first power of two that overflows. *)
Definition funit : Z := 2 ^ 1074.
Definition foverflow : Z := 2 ^ 2098.

(** The float64 nearest to [n / d] units. *)
Definition to_float64 (n d : Z) : float64 :=
  let z := round_div n d in
  if (foverflow <=? z) then PosInf else if (z <=? - foverflow) then NegInf else Fin z.

Definition float64_of_int (n : Z) : float64 := to_float64 (n * funit) 1.

(** [math.MaxFloat64] in units of 2^-1074. *)
Definition MaxFloat64 : Z := (2 ^ 53 - 1) * 2 ^ 2045.

(** ** Comparison *)

Definition fltb (x y : float64) : bool :=
  match x, y with
  | NaN, _ | _, NaN => false
  | NegInf, NegInf => false
  | NegInf, _ => true
  | _, NegInf => false
  | PosInf, _ => false
  | _, PosInf => true
  | Fin a, Fin b => (a <? b)
  end.

Definition feqb (x y : float64) : bool := negb (bool_decide (x = NaN)) && bool_decide (x = y).

Definition fleb (x y : float64) : bool := fltb x y || feqb x y.

(** ** Arithmetic *)

Definition fneg (x : float64) : float64 :=
  match x with Fin a => Fin (- a) | PosInf => NegInf | NegInf => PosInf | NaN => NaN end.

Definition fadd (x y : float64) : float64 :=
  match x, y with
  | Fin a, Fin b => to_float64 (a + b) 1
  | NaN, _ | _, NaN => NaN
  | PosInf, NegInf | NegInf, PosInf => NaN
  | PosInf, _ | _, PosInf => PosInf
  | NegInf, _ | _, NegInf => NegInf
  end.

Definition fsub (x y : float64) : float64 := fadd x (fneg y).

(** An infinity of the given sign; NaN for the sign of zero. *)
Definition signed_inf (s : Z) : float64 :=
  if (0 <? s) then PosInf else if (s <? 0) then NegInf else NaN.

Definition fsgn (x : float64) : Z :=
  match x with Fin a => Z.sgn a | PosInf => 1 | NegInf => -1 | NaN => 0 end.

Definition fmul (x y : float64) : float64 :=
  match x, y with
  | NaN, _ | _, NaN => NaN
  | Fin a, Fin b => to_float64 (a * b) funit
  | _, _ => signed_inf (fsgn x * fsgn y)
  end.

(** Dividing by zero takes the sign of the dividend: zeros are positive here. *)
Definition fdiv (x y : float64) : float64 :=
  match x, y with
  | NaN, _ | _, NaN => NaN
  | Fin a, Fin b =>
      if (b =? 0) then signed_inf (Z.sgn a)
      else to_float64 (Z.sgn b * a * funit) (Z.abs b)
  | Fin _, _ => Fin 0
  | _, Fin b => signed_inf (fsgn x * if (b <? 0) then -1 else 1)
  | _, _ => NaN
  end.

(** [math.Max] without NaNs, and [lo.Clamp]. *)
Definition fmax (x y : float64) : float64 :=
  if bool_decide (x = NaN) || bool_decide (y = NaN) then NaN else if fltb x y then y else x.

Definition fclamp (x lo hi : float64) : float64 :=
  if fltb x lo then lo else if fltb hi x then hi else x.

Definition fsum (l : list float64) : float64 := foldl fadd (Fin 0) l.

(** ** Rounding is monotone and exact where it can be *)

Lemma div_even_bounds n d : (0 < d) → (n / d ≤ div_even n d ≤ n / d + 1).
Proof. intros. unfold div_even. destruct (_ || _); lia. Qed.

Lemma div_even_mono n n' d : (0 < d) → (n ≤ n') → (div_even n d ≤ div_even n' d).
Proof.
  intros Hd Hn. pose proof (Z.div_le_mono n n' d Hd Hn) as Hq.
  pose proof (div_even_bounds n d Hd). pose proof (div_even_bounds n' d Hd).
  destruct (decide (n / d < n' / d)) as [|Hge]; [lia|].
  assert (n / d = n' / d) as E by lia.
  pose proof (Z.div_mod n d ltac:(lia)). pose proof (Z.div_mod n' d ltac:(lia)).
  assert (n mod d ≤ n' mod d) by lia. unfold div_even. rewrite <-E.
  destruct (Z.gtb_spec (2 * (n mod d)) d), (Z.gtb_spec (2 * (n' mod d)) d); simpl; try lia;
    destruct (Z.eqb_spec (2 * (n mod d)) d), (Z.eqb_spec (2 * (n' mod d)) d); simpl; try lia;
    destruct (Z.odd _); lia.
Qed.

Lemma div_even_exact m d : (0 < d) → div_even (m * d) d = m.
Proof.
  intros Hd. unfold div_even. rewrite Z.div_mul, Z.mod_mul by lia.
  destruct (Z.gtb_spec (2 * 0) d); [lia|]. destruct (Z.eqb_spec (2 * 0) d); [lia|]. done.
Qed.

(** The quotient kept has at most 53 bits. *)
Lemma kept_bits n d : 0 < d → 0 ≤ n →
  n / (d * 2 ^ dropped_bits (n / d)) < 2 ^ 53.
Proof.
  intros Hd Hn. assert (0 ≤ n / d) as Hq by (apply Z.div_pos; lia).
  pose proof (Z.log2_nonneg (n / d)). unfold dropped_bits.
  assert (n / d < 2 ^ (53 + 0 `max` (Z.log2 (n / d) - 52))) as Hlt.
  { destruct (decide (n / d = 0)) as [->|]; [apply Z.pow_pos_nonneg; lia|].
    eapply Z.lt_le_trans; [apply (Z.log2_spec (n / d)); lia|]. apply Z.pow_le_mono_r; lia. }
  rewrite <-Z.div_div by (try apply Z.pow_pos_nonneg; lia).
  apply Z.div_lt_upper_bound; [apply Z.pow_pos_nonneg; lia|]. rewrite <-Z.pow_add_r by lia.
  by rewrite (Z.add_comm _ 53).
Qed.

Lemma dropped_bits_mono q q' : q ≤ q' → dropped_bits q ≤ dropped_bits q'.
Proof. intros H%Z.log2_le_mono. unfold dropped_bits. lia. Qed.

Lemma round_abs_mono n n' d : 0 < d → 0 ≤ n ≤ n' → round_abs n d ≤ round_abs n' d.
Proof.
  intros Hd Hn. unfold round_abs.
  pose proof (Z.div_le_mono n n' d Hd ltac:(lia)) as Hq.
  pose proof (dropped_bits_mono _ _ Hq) as He.
  set (e := dropped_bits (n / d)) in *. set (e' := dropped_bits (n' / d)) in *.
  assert (0 ≤ e) by (subst e; unfold dropped_bits; lia).
  assert (0 < 2 ^ e) by (apply Z.pow_pos_nonneg; lia). assert (0 < 2 ^ e') by (apply Z.pow_pos_nonneg; lia).
  destruct (decide (e = e')) as [<-|Hne].
  - apply Z.mul_le_mono_nonneg_r; [lia|]. apply div_even_mono; nia.
  - pose proof (kept_bits n d Hd ltac:(lia)) as Hk. fold e in Hk.
    pose proof (div_even_bounds n (d * 2 ^ e) ltac:(nia)) as Hb.
    pose proof (div_even_bounds n' (d * 2 ^ e') ltac:(nia)) as Hb'.
    assert (2 ^ 52 ≤ n' / (d * 2 ^ e')) as Hk'.
    { rewrite <-Z.div_div by nia. assert (e' = Z.log2 (n' / d) - 52) as E by (subst e'; unfold dropped_bits in *; lia).
      assert (n' / d ≠ 0) as Hnz by (intros E0; rewrite E0 in E; simpl in E; lia).
      assert (0 ≤ n' / d) by (apply Z.div_pos; lia).
      apply Z.div_le_lower_bound; [lia|]. rewrite <-Z.pow_add_r by lia.
      replace (e' + 52) with (Z.log2 (n' / d)) by lia. apply Z.log2_spec. lia. }
    transitivity (2 ^ 53 * 2 ^ e); [nia|]. transitivity (2 ^ 52 * 2 ^ e'); [|nia].
    rewrite <-!Z.pow_add_r by lia. apply Z.pow_le_mono_r; lia.
Qed.

Lemma round_abs_nonneg n d : 0 < d → 0 ≤ n → 0 ≤ round_abs n d.
Proof.
  intros Hd Hn. unfold round_abs. assert (0 < 2 ^ dropped_bits (n / d)).
  { apply Z.pow_pos_nonneg; unfold dropped_bits; lia. }
  pose proof (div_even_bounds n (d * 2 ^ dropped_bits (n / d)) ltac:(nia)).
  assert (0 ≤ n / (d * 2 ^ dropped_bits (n / d))) by (apply Z.div_pos; nia). nia.
Qed.

Lemma round_div_mono n n' d : 0 < d → n ≤ n' → round_div n d ≤ round_div n' d.
Proof.
  intros Hd Hn. unfold round_div.
  destruct (decide (0 ≤ n)).
  - rewrite !Z.abs_eq by lia. pose proof (round_abs_mono n n' d Hd ltac:(lia)).
    pose proof (round_abs_nonneg n d Hd ltac:(lia)).
    destruct (Z.sgn_spec n) as [[? ->]|[[? ->]|[? ->]]], (Z.sgn_spec n') as [[? ->]|[[? ->]|[? ->]]]; lia.
  - destruct (decide (0 ≤ n')).
    + pose proof (round_abs_nonneg (Z.abs n) d Hd ltac:(lia)). pose proof (round_abs_nonneg (Z.abs n') d Hd ltac:(lia)).
      destruct (Z.sgn_spec n) as [[? ->]|[[? ->]|[? ->]]], (Z.sgn_spec n') as [[? ->]|[[? ->]|[? ->]]]; lia.
    + pose proof (round_abs_mono (Z.abs n') (Z.abs n) d Hd ltac:(lia)).
      rewrite (Z.sgn_neg n), (Z.sgn_neg n') by lia. lia.
Qed.

(** Numbers with at most 53 significant bits are float64s. *)
Definition representable (z : Z) : Prop := ∃ m e, 0 ≤ e ∧ Z.abs m < 2 ^ 53 ∧ z = m * 2 ^ e.

Lemma dropped_bits_representable m e : 0 ≤ e → 0 ≤ m < 2 ^ 53 → dropped_bits (m * 2 ^ e) ≤ e.
Proof.
  intros He Hm. assert (0 < 2 ^ e) by (apply Z.pow_pos_nonneg; lia). unfold dropped_bits.
  destruct (decide (m = 0)) as [->|]; [rewrite Z.mul_0_l; simpl; lia|].
  assert (Z.log2 (m * 2 ^ e) < 53 + e); [|lia]. apply Z.log2_lt_pow2; [nia|].
  rewrite Z.pow_add_r by lia. apply Z.mul_lt_mono_pos_r; lia.
Qed.

Lemma round_abs_representable n : 0 ≤ n → representable n → round_abs n 1 = n.
Proof.
  intros Hn (m & e & He & Hm & ->). assert (0 < 2 ^ e) by (apply Z.pow_pos_nonneg; lia).
  assert (0 ≤ m) by nia. unfold round_abs. rewrite Z.div_1_r, Z.mul_1_l.
  pose proof (dropped_bits_representable m e He ltac:(lia)) as Hk.
  set (k := dropped_bits (m * 2 ^ e)) in *. assert (0 ≤ k) by (subst k; unfold dropped_bits; lia).
  assert (m * 2 ^ e = m * 2 ^ (e - k) * 2 ^ k) as ->.
  { rewrite <-Z.mul_assoc, <-Z.pow_add_r by lia. f_equal. f_equal. lia. }
  rewrite div_even_exact by (apply Z.pow_pos_nonneg; lia). done.
Qed.

Lemma round_div_representable z : representable z → round_div z 1 = z.
Proof.
  intros (m & e & He & Hm & E). unfold round_div. rewrite round_abs_representable by first
    [lia | exists (Z.abs m), e; split_and!; [done|lia|subst z; rewrite Z.abs_mul, (Z.abs_eq (2 ^ e)); [done|]; apply Z.pow_nonneg; lia]].
  pose proof (Z.sgn_abs z). lia.
Qed.

Lemma to_float64_Fin z : representable z → Z.abs z < foverflow → to_float64 z 1 = Fin z.
Proof.
  intros Hr Hb. unfold to_float64. rewrite round_div_representable by done.
  destruct (Z.leb_spec foverflow z); [lia|]. destruct (Z.leb_spec z (- foverflow)); [lia|]. done.
Qed.

(** Adding a number that is not negative does not decrease a float64. *)
Lemma fadd_grows a b : representable a → 0 ≤ b → Z.abs a < foverflow → fleb (Fin a) (fadd (Fin a) (Fin b)) = true.
Proof.
  intros Ha Hb Ho. simpl. unfold to_float64.
  pose proof (round_div_mono a (a + b) 1 ltac:(lia) ltac:(lia)) as Hm. rewrite round_div_representable in Hm by done.
  destruct (Z.leb_spec foverflow (round_div (a + b) 1)); [done|].
  destruct (Z.leb_spec (round_div (a + b) 1) (- foverflow)); [lia|].
  unfold fleb, feqb. simpl. destruct (Z.ltb_spec a (round_div (a + b) 1)) as [|Hge]; [done|]. simpl.
  apply bool_decide_eq_true. f_equal. lia.
Qed.

Lemma representable_pow2 k : 0 ≤ k → representable (2 ^ k).
Proof. intros Hk. exists 1, k. split_and!; [done| |lia]. done. Qed.

Lemma representable_opp z : representable z → representable (- z).
Proof. intros (m & e & He & Hm & ->). exists (- m), e. split_and!; [done|lia|lia]. Qed.

Lemma round_div_opp n d : round_div (- n) d = - round_div n d.
Proof. unfold round_div. rewrite Z.sgn_opp, Z.abs_opp. lia. Qed.

Lemma div_even_scale k m d : 0 < d → 0 < m → div_even (k * d) (m * d) = div_even k m.
Proof.
  intros Hd Hm. unfold div_even. rewrite Z.div_mul_cancel_r, Z.mul_mod_distr_r by lia.
  replace (2 * (k mod m * d) >? m * d) with (2 * (k mod m) >? m).
  2: { apply eq_true_iff_eq. rewrite !Z.gtb_lt. nia. }
  replace (2 * (k mod m * d) =? m * d) with (2 * (k mod m) =? m); [done|].
  apply eq_true_iff_eq. rewrite !Z.eqb_eq. nia.
Qed.

Lemma round_div_scale k d : 0 < d → round_div (k * d) d = round_div k 1.
Proof.
  intros Hd. unfold round_div. rewrite Z.sgn_mul, (Z.sgn_pos d), Z.abs_mul, (Z.abs_eq d), Z.mul_1_r by lia. f_equal.
  unfold round_abs. rewrite Z.div_mul, Z.div_1_r, Z.mul_1_l by lia. f_equal.
  rewrite (Z.mul_comm d). apply div_even_scale; [lia|]. apply Z.pow_pos_nonneg; [lia|]. unfold dropped_bits. lia.
Qed.

Lemma to_float64_scale k d : 0 < d → to_float64 (k * d) d = to_float64 k 1.
Proof. intros Hd. unfold to_float64. by rewrite round_div_scale. Qed.

Lemma round_abs_is_representable n d : 0 < d → 0 ≤ n → representable (round_abs n d).
Proof.
  intros Hd Hn. unfold round_abs. pose proof (kept_bits n d Hd Hn) as Hk. set (e := dropped_bits (n / d)) in *.
  assert (0 ≤ e) by (subst e; unfold dropped_bits; lia). assert (0 < 2 ^ e) by (apply Z.pow_pos_nonneg; lia).
  pose proof (div_even_bounds n (d * 2 ^ e) ltac:(nia)) as Hb.
  assert (0 ≤ n / (d * 2 ^ e)) by (apply Z.div_pos; nia).
  destruct (decide (div_even n (d * 2 ^ e) = 2 ^ 53)) as [->|].
  - rewrite <-Z.pow_add_r by lia. apply representable_pow2. lia.
  - exists (div_even n (d * 2 ^ e)), e. split_and!; [done|lia|done].
Qed.

Lemma round_div_is_representable n d : 0 < d → representable (round_div n d).
Proof.
  intros Hd. pose proof (round_abs_is_representable (Z.abs n) d Hd ltac:(lia)) as Hr. unfold round_div.
  destruct (Z.sgn_spec n) as [[_ ->]|[[_ ->]|[_ ->]]].
  - by rewrite Z.mul_1_l.
  - exists 0, 0. by rewrite Z.mul_0_l.
  - rewrite Z.mul_comm, <-Z.opp_eq_mul_m1. by apply representable_opp.
Qed.

Lemma round_div_bounded n d k : 0 < d → 0 ≤ k → Z.abs n ≤ 2 ^ k * d → Z.abs (round_div n d) ≤ 2 ^ k.
Proof.
  intros Hd Hk Hn. assert (round_div (2 ^ k * d) d = 2 ^ k) as E.
  { rewrite round_div_scale by done. apply round_div_representable, representable_pow2. lia. }
  pose proof (round_div_mono n (2 ^ k * d) d Hd ltac:(lia)).
  pose proof (round_div_mono (- (2 ^ k * d)) n d Hd ltac:(lia)) as Hl. rewrite round_div_opp in Hl. lia.
Qed.

Lemma pow2_lt_foverflow k : 0 ≤ k < 2098 → 2 ^ k < foverflow.
Proof. intros Hk. unfold foverflow. apply Z.pow_lt_mono_r; lia. Qed.

Lemma funit_pos : 0 < funit.
Proof. apply Z.pow_pos_nonneg; lia. Qed.

Lemma to_float64_value n d : 0 < d → Z.abs (round_div n d) < foverflow → to_float64 n d = Fin (round_div n d).
Proof.
  intros Hd Hb. unfold to_float64. destruct (Z.leb_spec foverflow (round_div n d)); [lia|].
  destruct (Z.leb_spec (round_div n d) (- foverflow)); [lia|done].
Qed.

(** A quotient below 2^1024 is a finite float64. *)
Lemma to_float64_bounded n d k : 0 < d → 0 ≤ k < 2098 → Z.abs n ≤ 2 ^ k * d →
  to_float64 n d = Fin (round_div n d) ∧ Z.abs (round_div n d) ≤ 2 ^ k.
Proof.
  intros Hd Hk Hn. pose proof (round_div_bounded n d k Hd ltac:(lia) Hn). pose proof (pow2_lt_foverflow k Hk).
  split; [|done]. apply to_float64_value; [done|lia].
Qed.

Lemma to_float64_not_NaN n d : to_float64 n d ≠ NaN.
Proof. unfold to_float64. by repeat case_match. Qed.

(** An integer of less than 53 bits is exact. *)
Lemma float64_of_int_exact n : Z.abs n < 2 ^ 53 → float64_of_int n = Fin (n * funit).
Proof.
  intros Hn. unfold float64_of_int. apply to_float64_Fin; [by exists n, 1074; split_and!; [lia|done|]|].
  rewrite Z.abs_mul, (Z.abs_eq funit) by (pose proof funit_pos; lia).
  apply (Z.lt_trans _ (2 ^ (53 + 1074))); [|by apply pow2_lt_foverflow].
  rewrite Z.pow_add_r by lia. apply Z.mul_lt_mono_pos_r; [apply funit_pos|done].
Qed.

(** An integer of at most 63 bits is finite. *)
Lemma float64_of_int_finite n : Z.abs n ≤ 2 ^ 63 →
  ∃ z, float64_of_int n = Fin z ∧ Z.abs z ≤ 2 ^ 1137.
Proof.
  intros Hn. destruct (to_float64_bounded (n * funit) 1 1137) as [E Hb]; [lia..| |by eexists].
  rewrite Z.mul_1_r, Z.abs_mul, (Z.abs_eq funit) by (pose proof funit_pos; lia).
  change 1137 with (63 + 1074). rewrite (Z.pow_add_r 2 63 1074) by lia.
  apply Z.mul_le_mono_nonneg_r; [pose proof funit_pos; lia|done].
Qed.

(** Values of at least [lo] stay so when something that is not negative is added;
    the sum may overflow to infinity. *)
Definition at_least (lo : Z) (x : float64) : Prop :=
  x = PosInf ∨ ∃ z, x = Fin z ∧ lo ≤ z ∧ representable z ∧ Z.abs z < foverflow.

Lemma fadd_at_least lo x y : at_least lo x → 0 ≤ lo → at_least 0 y → at_least lo (fadd x y).
Proof.
  intros [->|(a & -> & Ha & Hr & Ho)] Hlo [->|(b & -> & Hb & Hrb & Hob)]; try by left.
  pose proof (round_div_mono a (a + b) 1 ltac:(lia) ltac:(lia)) as Hm. rewrite round_div_representable in Hm by done.
  simpl. unfold to_float64. destruct (Z.leb_spec foverflow (round_div (a + b) 1)); [by left|].
  destruct (Z.leb_spec (round_div (a + b) 1) (- foverflow)); [lia|].
  right. eexists. split_and!; [done|lia|by apply round_div_is_representable|lia].
Qed.

Lemma fclamp_bounds x lo hi : x ≠ NaN → lo ≤ hi →
  ∃ z, fclamp x (Fin lo) (Fin hi) = Fin z ∧ lo ≤ z ≤ hi.
Proof.
  intros Hx Hlh. unfold fclamp. destruct x as [z| | |]; simpl; try done; try (eexists; split; [done|lia]).
  destruct (Z.ltb_spec z lo); [eexists; split; [done|lia]|].
  destruct (Z.ltb_spec hi z); eexists; (split; [done|lia]).
Qed.

Lemma fclamp_representable x lo hi : (∃ z, x = Fin z ∧ representable z) → lo ≤ hi → representable lo → representable hi →
  ∃ z, fclamp x (Fin lo) (Fin hi) = Fin z ∧ lo ≤ z ≤ hi ∧ representable z.
Proof.
  intros (z & -> & Hz) Hlh Hlo Hhi. unfold fclamp. simpl.
  destruct (Z.ltb_spec z lo); [eexists; split_and!; [done|lia..|done]|].
  destruct (Z.ltb_spec hi z); eexists; (split_and!; [done|lia..|done]).
Qed.

(** ** Order *)

Lemma fleb_Fin a b : fleb (Fin a) (Fin b) = true ↔ a ≤ b.
Proof.
  unfold fleb, feqb. cbn [fltb]. destruct (Z.ltb_spec a b); cbn [orb]; [split; [lia|done]|].
  rewrite bool_decide_false by done. cbn [negb andb]. rewrite bool_decide_eq_true. split; [intros [= ->]; lia|].
  intros. f_equal. lia.
Qed.

Lemma to_float64_mono n n' d : 0 < d → n ≤ n' → fleb (to_float64 n d) (to_float64 n' d) = true.
Proof.
  intros Hd Hn. pose proof (round_div_mono n n' d Hd Hn). assert (0 < foverflow) by (apply Z.pow_pos_nonneg; lia).
  unfold to_float64.
  destruct (Z.leb_spec foverflow (round_div n d)), (Z.leb_spec foverflow (round_div n' d)); try lia; [done| |].
  - by destruct (Z.leb_spec (round_div n d) (- foverflow)).
  - destruct (Z.leb_spec (round_div n d) (- foverflow)), (Z.leb_spec (round_div n' d) (- foverflow)); try lia; [done..|].
    by apply fleb_Fin.
Qed.

Lemma to_float64_sign n d : 0 < d → n ≤ 0 → fleb (to_float64 n d) (Fin 0) = true.
Proof.
  intros Hd Hn. rewrite <-(to_float64_Fin 0); [|by exists 0, 0|by apply Z.pow_pos_nonneg].
  rewrite <-(to_float64_scale 0 d) by done. by apply to_float64_mono.
Qed.

Lemma fleb_trans x y z : fleb x y = true → fleb y z = true → fleb x z = true.
Proof.
  destruct x as [a| | |], y as [b| | |], z as [c| | |]; try done. rewrite !fleb_Fin. lia.
Qed.

Lemma fleb_not_NaN x y : fleb x y = true → x ≠ NaN ∧ y ≠ NaN.
Proof. by destruct x, y. Qed.

(** Dividing by a positive number preserves the order. *)
Lemma fdiv_mono x y d : 0 < d → fleb x y = true → fleb (fdiv x (Fin d)) (fdiv y (Fin d)) = true.
Proof.
  intros Hd. unfold fdiv. destruct (Z.eqb_spec d 0); [lia|]. destruct (Z.ltb_spec d 0); [lia|].
  rewrite Z.sgn_pos, Z.abs_eq by lia. destruct x as [a| | |], y as [b| | |]; try done.
  - rewrite fleb_Fin. intros. apply to_float64_mono; [done|]. pose proof funit_pos. nia.
  - intros _. cbn [fsgn signed_inf]. pose proof (to_float64_not_NaN (1 * a * funit) d). unfold signed_inf. cbn.
    by destruct (to_float64 _ _).
  - intros _. unfold signed_inf. cbn. pose proof (to_float64_not_NaN (1 * b * funit) d). by destruct (to_float64 _ _).
Qed.

(** Subtracting what is not negative does not increase. *)
Lemma fsub_le p y : representable p → Z.abs p < foverflow → at_least 0 y → fleb (fsub (Fin p) y) (Fin p) = true.
Proof.
  intros Hp Ho [->|(b & -> & Hb & _ & _)]; [done|]. unfold fsub. cbn [fneg fadd].
  rewrite <-(to_float64_Fin p Hp Ho). apply to_float64_mono; lia.
Qed.

Lemma fadd_0_l x : (∃ z, x = Fin z ∧ representable z ∧ Z.abs z < foverflow) ∨ x = PosInf → fadd (Fin 0) x = x.
Proof.
  intros [(z & -> & Hz & Ho)| ->]; [|done]. cbn [fadd]. rewrite Z.add_0_l. by apply to_float64_Fin.
Qed.

Lemma at_least_fin lo x : at_least lo x → (∃ z, x = Fin z ∧ representable z ∧ Z.abs z < foverflow) ∨ x = PosInf.
Proof. intros [->|(z & -> & _ & ? & ?)]; [by right|left; by exists z]. Qed.

Lemma at_least_mono lo lo' x : lo' ≤ lo → at_least lo x → at_least lo' x.
Proof. intros H [->|(z & -> & ? & ? & ?)]; [by left|right; exists z; split_and!; [done|lia|done..]]. Qed.

Lemma fadd_comm x y : fadd x y = fadd y x.
Proof. destruct x, y; try done. cbn [fadd]. f_equal. lia. Qed.

Lemma at_least_0 : at_least 0 (Fin 0).
Proof. right. exists 0. split_and!; [done..|by exists 0, 0|by apply Z.pow_pos_nonneg]. Qed.
