(* ===== verification/Labels.v ===== *)
(** * Labels: the label registry of the API group (pkg/apis/v1/labels.go)

    The label tables are package variables that a cloud provider extends when it
    is initialised, so the models are stated over an arbitrary registry (the
    class [LabelRegistry]); [default_registry] is the registry the package
    itself declares. *)

From S2P Require Import Prelude.

(** Label keys of the API group and of Kubernetes. *)
Definition Group : string := "karpenter.sh".
Definition NodePoolLabelKey : string := Group +:+ "/nodepool".
Definition NodeInitializedLabelKey : string := Group +:+ "/initialized".
Definition NodeRegisteredLabelKey : string := Group +:+ "/registered".
Definition NodeDoNotSyncTaintsLabelKey : string := Group +:+ "/do-not-sync-taints".
Definition CapacityTypeLabelKey : string := Group +:+ "/capacity-type".

Definition CapacityTypeSpot : string := "spot".
Definition CapacityTypeOnDemand : string := "on-demand".
Definition CapacityTypeReserved : string := "reserved".

Definition LabelTopologyZone : string := "topology.kubernetes.io/zone".
Definition LabelTopologyRegion : string := "topology.kubernetes.io/region".
Definition LabelInstanceTypeStable : string := "node.kubernetes.io/instance-type".
Definition LabelArchStable : string := "kubernetes.io/arch".
Definition LabelOSStable : string := "kubernetes.io/os".
Definition LabelWindowsBuild : string := "node.kubernetes.io/windows-build".
Definition LabelHostname : string := "kubernetes.io/hostname".
Definition LabelFailureDomainBetaZone : string := "failure-domain.beta.kubernetes.io/zone".
Definition LabelFailureDomainBetaRegion : string := "failure-domain.beta.kubernetes.io/region".
Definition LabelInstanceType : string := "beta.kubernetes.io/instance-type".

Class LabelRegistry := {
  RestrictedLabelDomains : gset string;
  WellKnownLabels : gset string;
  WellKnownLabelsForOfferings : gset string;
  RestrictedLabels : gset string;
  NormalizedLabels : gmap string string;
  NormalizedLabelValues : gmap string (gmap string string);
}.

(** The registry as package v1 initialises it. *)
Definition default_registry : LabelRegistry := {|
  RestrictedLabelDomains := {[ Group ]};
  WellKnownLabels := list_to_set
    [NodePoolLabelKey; LabelTopologyZone; LabelTopologyRegion; LabelInstanceTypeStable;
     LabelArchStable; LabelOSStable; CapacityTypeLabelKey; LabelWindowsBuild];
  WellKnownLabelsForOfferings := list_to_set [LabelTopologyZone; CapacityTypeLabelKey];
  RestrictedLabels := {[ LabelHostname ]};
  NormalizedLabels := list_to_map
    [(LabelFailureDomainBetaZone, LabelTopologyZone);
     ("beta.kubernetes.io/arch", LabelArchStable);
     ("beta.kubernetes.io/os", LabelOSStable);
     (LabelInstanceType, LabelInstanceTypeStable);
     (LabelFailureDomainBetaRegion, LabelTopologyRegion)];
  NormalizedLabelValues := ∅;
|}.

(** The text before the first slash, empty when there is none. *)
Definition GetLabelDomain (key : string) : string :=
  match CutSlash key with
  | (before, _, true) => before
  | _ => EmptyString
  end.

Section registry.
  Context `{LR : LabelRegistry}.

  (** [IsRestrictedLabel], [true] standing for the error. *)
Definition IsRestrictedLabel (key : string) : bool :=
    if bool_decide (key ∈ WellKnownLabels) then false
    else
      let labelDomain := GetLabelDomain key in
      set_existsb (λ d, bool_decide (labelDomain = d) || HasSuffix labelDomain ("." +:+ d))
        RestrictedLabelDomains
      || bool_decide (key ∈ RestrictedLabels).

  (** The key and value normalisation at the head of [NewRequirementWithFlexibility]. *)
Definition normalize_key (key : string) : string := default key (NormalizedLabels !! key).

Definition normalize_values (key : string) (values : list string) : list string :=
    match NormalizedLabelValues !! key with
    | Some valueMap => (λ v, default v (valueMap !! v)) <$> values
    | None => values
    end.

  (** A registry is stable when normalising is idempotent; it is for the default tables. *)
Class StableRegistry : Prop := {
    normalize_key_idemp key : normalize_key (normalize_key key) = normalize_key key;
    normalize_values_idemp key values :
      normalize_values key (normalize_values key values) = normalize_values key values;
  }.
End registry.

Lemma default_registry_stable : @StableRegistry default_registry.
Proof.
  split.
  - intros key. unfold normalize_key.
    remember (@NormalizedLabels default_registry) as m eqn:Hm.
    destruct (m !! key) as [k'|] eqn:E; simpl; [|by rewrite E].
    rewrite Hm in E. apply elem_of_list_to_map_2 in E. rewrite Hm.
    repeat (apply elem_of_cons in E as [[= -> ->]|E]; [vm_compute; done|]).
    by apply not_elem_of_nil in E.
  - intros key vs. unfold normalize_values. done.
Qed.
