(* ===== verification/Requirement.v ===== *)
(** * Requirement: one label requirement (pkg/scheduling/requirement.go)

    A requirement is a set of strings given by its members or by its exceptions,
    optionally cut by inclusive integer bounds.  The central facts are that
    [Intersection] is the intersection of the sets two requirements denote, that
    [HasIntersection] decides whether that intersection is inhabited without
    building it, and that the string cache is never stale. *)

From S2P Require Import Prelude Labels.

(** The operators of [corev1.NodeSelectorOperator] and of package v1. *)
Inductive NodeSelectorOperator :=
| OpIn | OpNotIn | OpExists | OpDoesNotExist | OpGt | OpLt | OpGte | OpLte.

#[export] Instance NodeSelectorOperator_eq_dec : EqDecision NodeSelectorOperator.
Proof. solve_decision. Defined.

Definition operator_string (op : NodeSelectorOperator) : string :=
  match op with
  | OpIn => "In" | OpNotIn => "NotIn" | OpExists => "Exists"
  | OpDoesNotExist => "DoesNotExist" | OpGt => "Gt" | OpLt => "Lt"
  | OpGte => "Gte" | OpLte => "Lte"
  end.

Record Requirement := mkRequirement {
  Key : string;
  complement : bool;
  values : gset string;
  gte : option Z;
  lte : option Z;
  minValues : option Z;
  asString : option string;
}.

#[export] Instance Requirement_eq_dec : EqDecision Requirement.
Proof. solve_decision. Defined.

(** [v1.NodeSelectorRequirementWithMinValues]. *)
Record NodeSelectorRequirementWithMinValues := mkNSR {
  nsr_Key : string;
  nsr_Operator : NodeSelectorOperator;
  nsr_Values : list string;
  nsr_MinValues : option Z;
}.

Definition minIntPtr (a b : option Z) : option Z :=
  match a, b with
  | None, _ => b
  | _, None => a
  | Some x, Some y => if (x <? y)%Z then a else b
  end.

Definition maxIntPtr (a b : option Z) : option Z :=
  match a, b with
  | None, _ => b
  | _, None => a
  | Some x, Some y => if (x >? y)%Z then a else b
  end.

Definition withinBounds (valueAsString : string) (gte lte : option Z) : bool :=
  match gte, lte with
  | None, None => true
  | _, _ =>
      match Atoi valueAsString with
      | (_, Some _) => false
      | (val, None) =>
          if match gte with Some g => (val <? g)%Z | None => false end then false
          else if match lte with Some l => (val >? l)%Z | None => false end then false
          else true
      end
  end.

(** The bounds contradict each other: [gte != nil && lte != nil && *gte > *lte]. *)
Definition bounds_conflict (gte lte : option Z) : bool :=
  match gte, lte with Some g, Some l => (g >? l)%Z | _, _ => false end.

Definition Has (r : Requirement) (value : string) : bool :=
  if complement r
  then negb (bool_decide (value ∈ values r)) && withinBounds value (gte r) (lte r)
  else bool_decide (value ∈ values r) && withinBounds value (gte r) (lte r).

Definition Len (r : Requirement) : Z :=
  if complement r then int64_max - Z.of_nat (size (values r)) else Z.of_nat (size (values r)).

Definition Operator (r : Requirement) : NodeSelectorOperator :=
  if complement r then (if (Len r <? int64_max)%Z then OpNotIn else OpExists)
  else if (Len r >? 0)%Z then OpIn else OpDoesNotExist.

Section requirement.
  Context `{LR : LabelRegistry}.

  (** The literal [&Requirement{...}] the constructor starts from once the key is
      normalised: no values, and the complement flag of the operator. *)
Definition blank_requirement (key : string) (op : NodeSelectorOperator)
    (minValues : option Z) : Requirement :=
  mkRequirement key (negb (bool_decide (op = OpIn) || bool_decide (op = OpDoesNotExist)))
    ∅ None None minValues None.

Definition with_values (vs : gset string) (r : Requirement) : Requirement :=
  mkRequirement (Key r) (complement r) vs (gte r) (lte r) (minValues r) (asString r).
Definition with_gte (g : Z) (r : Requirement) : Requirement :=
  mkRequirement (Key r) (complement r) (values r) (Some g) (lte r) (minValues r) (asString r).
Definition with_lte (l : Z) (r : Requirement) : Requirement :=
  mkRequirement (Key r) (complement r) (values r) (gte r) (Some l) (minValues r) (asString r).

  (** [NewRequirement(key, DoesNotExist)] and the like never read [values[0]];
      this is their result. *)
Definition simple_requirement (key : string) (op : NodeSelectorOperator)
    (minValues : option Z) : Requirement :=
  blank_requirement (normalize_key key) op minValues.

  (** [None] is the index-out-of-range panic of [values[0]].  The conversions of
      the bounds ignore the error of [strconv.Atoi] and wrap around as Go does. *)
Definition NewRequirementWithFlexibility (key : string) (op : NodeSelectorOperator)
    (minValues : option Z) (vals : list string) : option Requirement :=
  let key := normalize_key key in
  let vals := normalize_values key vals in
  let r := blank_requirement key op minValues in
  match op with
  | OpIn | OpNotIn => Some (with_values (list_to_set vals) r)
  | OpExists | OpDoesNotExist => Some r
  | OpGt => v ← vals !! 0%nat;
            let value := (Atoi v).1 in
            if (value =? int64_max)%Z then Some (simple_requirement key OpDoesNotExist None)
            else Some (with_gte (wrap64 (value + 1)) r)
  | OpLt => v ← vals !! 0%nat; Some (with_lte (wrap64 ((Atoi v).1 - 1)) r)
  | OpGte => v ← vals !! 0%nat; Some (with_gte (Atoi v).1 r)
  | OpLte => v ← vals !! 0%nat; Some (with_lte (Atoi v).1 r)
  end.

Definition NewRequirement (key : string) (op : NodeSelectorOperator) (vals : list string)
    : option Requirement := NewRequirementWithFlexibility key op None vals.

Definition BoundedNodeSelectorRequirements (r : Requirement)
    : option (list NodeSelectorRequirementWithMinValues) :=
  g ← gte r; l ← lte r;
  Some [mkNSR (Key r) OpGte [FormatInt g] (minValues r);
        mkNSR (Key r) OpLte [FormatInt l] (minValues r)].

Definition NodeSelectorRequirement (r : Requirement) : NodeSelectorRequirementWithMinValues :=
  match gte r, lte r with
  | Some g, _ => mkNSR (Key r) OpGte [FormatInt g] (minValues r)
  | None, Some l => mkNSR (Key r) OpLte [FormatInt l] (minValues r)
  | None, None =>
      if complement r then
        if (0 <? size (values r))%nat
        then mkNSR (Key r) OpNotIn (sets_List (values r)) (minValues r)
        else mkNSR (Key r) OpExists [] (minValues r)
      else
        if (0 <? size (values r))%nat
        then mkNSR (Key r) OpIn (sets_List (values r)) (minValues r)
        else mkNSR (Key r) OpDoesNotExist [] (minValues r)
  end.

Definition Intersection (r requirement : Requirement) : Requirement :=
  let compl := complement r && complement requirement in
  let g := maxIntPtr (gte r) (gte requirement) in
  let l := minIntPtr (lte r) (lte requirement) in
  let mv := maxIntPtr (minValues r) (minValues requirement) in
  if bounds_conflict g l then simple_requirement (Key r) OpDoesNotExist mv
  else
    let vs := if complement r && complement requirement then values r ∪ values requirement
              else if complement r && negb (complement requirement)
                   then values requirement ∖ values r
              else if negb (complement r) && complement requirement
                   then values r ∖ values requirement
              else values r ∩ values requirement in
    let vs := filter (λ v, withinBounds v g l = true) vs in
    let '(g, l) := if compl then (g, l) else (None, None) in
    mkRequirement (Key r) compl vs g l mv None.

Definition HasIntersection (r requirement : Requirement) : bool :=
  let g := maxIntPtr (gte r) (gte requirement) in
  let l := minIntPtr (lte r) (lte requirement) in
  if bounds_conflict g l then false
  else if complement r && complement requirement then true
  else if complement r && negb (complement requirement) then
    set_existsb (λ v, negb (bool_decide (v ∈ values r)) && withinBounds v g l)
      (values requirement)
  else if negb (complement r) && complement requirement then
    set_existsb (λ v, negb (bool_decide (v ∈ values requirement)) && withinBounds v g l)
      (values r)
  else
    set_existsb (λ v, bool_decide (v ∈ values requirement) && withinBounds v g l) (values r).

  (** [Any] draws from [rand.Intn], given here by the drawn number; [rand.Intn]
      panics when its argument is not positive. *)
Definition Any (draw : Z → Z) (r : Requirement) : option string :=
  match Operator r with
  | OpIn => elements (values r) !! 0%nat
  | OpNotIn | OpExists =>
      let mn := default 0%Z (gte r) in
      let mx := match lte r with Some l => wrap64 (l + 1) | None => int64_max end in
      let n := wrap64 (mx - mn) in
      if (n <=? 0)%Z then None else Some (FormatInt (wrap64 (draw n + mn)))
  | _ => Some EmptyString
  end.

Definition Insert (r : Requirement) (items : list string) : Requirement :=
  mkRequirement (Key r) (complement r) (values r ∪ list_to_set items)
    (gte r) (lte r) (minValues r) None.

Definition SetMinValues (r : Requirement) (mv : Z) : Requirement :=
  mkRequirement (Key r) (complement r) (values r) (gte r) (lte r) (Some mv) None.

  (** The text [String] computes when nothing is cached. *)
Definition render (r : Requirement) : string :=
  let head :=
    match Operator r with
    | OpExists | OpDoesNotExist => Key r +:+ " " +:+ operator_string (Operator r)
    | _ =>
        let vs := sets_List (values r) in
        let vs := if (5 <? length vs)%nat
                  then take 5 vs ++ ["and " +:+ FormatInt (Z.of_nat (length vs) - 5) +:+ " others"]
                  else vs in
        Key r +:+ " " +:+ operator_string (Operator r) +:+ " [" +:+ Join vs " " +:+ "]"
    end in
  head
  +:+ match gte r with Some g => " >=" +:+ FormatInt g | None => EmptyString end
  +:+ match lte r with Some l => " <=" +:+ FormatInt l | None => EmptyString end
  +:+ match minValues r with Some m => " minValues " +:+ FormatInt m | None => EmptyString end.

  (** [String] returns the cached text, or computes and caches it. *)
Definition String_ (r : Requirement) : string * Requirement :=
  match asString r with
  | Some s => (s, r)
  | None => let s := render r in
            (s, mkRequirement (Key r) (complement r) (values r) (gte r) (lte r)
                  (minValues r) (Some s))
  end.

Definition DeepCopyInto (r : Requirement) : Requirement :=
  mkRequirement (Key r) (complement r) (values r) (gte r) (lte r) (minValues r) None.
End requirement.

(** ** Bounds *)

Lemma withinBounds_inter v g1 g2 l1 l2 :
  withinBounds v (maxIntPtr g1 g2) (minIntPtr l1 l2)
  = withinBounds v g1 l1 && withinBounds v g2 l2.
Proof.
  unfold withinBounds, maxIntPtr, minIntPtr.
  destruct (Atoi v) as [x [e|]];
    destruct g1 as [a|], g2 as [b|], l1 as [c|], l2 as [d|]; try done;
    repeat match goal with
    | |- context [(?p <? ?q)%Z] => destruct (Z.ltb_spec p q)
    | |- context [(?p >? ?q)%Z] => rewrite (Z.gtb_ltb p q)
    end; simpl; try done; try lia.
Qed.

Lemma withinBounds_conflict v g l : bounds_conflict g l = true → withinBounds v g l = false.
Proof.
  unfold bounds_conflict, withinBounds.
  destruct g as [g|], l as [l|]; try done. intros ?%Z.gtb_lt.
  destruct (Atoi v) as [x [e|]]; [done|].
  destruct (Z.ltb_spec x g); [done|]. destruct (x >? l)%Z eqn:E; [done|].
  rewrite Z.gtb_ltb in E. breflect. lia.
Qed.

Lemma withinBounds_none v : withinBounds v None None = true.
Proof. done. Qed.

Section requirement_facts.
  Context `{LR : LabelRegistry}.

Lemma NewRequirement_In key vals :
  NewRequirement key OpIn vals = Some (mkRequirement (normalize_key key) false
    (list_to_set (normalize_values (normalize_key key) vals)) None None None None).
Proof. done. Qed.

Lemma Has_DoesNotExist key mv v : Has (simple_requirement key OpDoesNotExist mv) v = false.
Proof. unfold Has; simpl. rewrite bool_decide_eq_false_2; set_solver. Qed.

Lemma Has_Exists key mv v : Has (simple_requirement key OpExists mv) v = true.
Proof. unfold Has; simpl. rewrite bool_decide_eq_false_2; set_solver. Qed.

Lemma Intersection_allows r q v :
  Has (Intersection r q) v = Has r v && Has q v.
Proof.
  pose proof (withinBounds_inter v (gte r) (gte q) (lte r) (lte q)) as HB.
  unfold Intersection.
  destruct (bounds_conflict _ _) eqn:Hc.
  - rewrite Has_DoesNotExist. apply (withinBounds_conflict v) in Hc.
    rewrite HB in Hc. unfold Has.
    destruct (complement r), (complement q), (withinBounds v (gte r) (lte r)),
      (withinBounds v (gte q) (lte q)); try done; btauto.
  - revert HB. generalize (maxIntPtr (gte r) (gte q)) as g,
      (minIntPtr (lte r) (lte q)) as l. intros g l HB.
    unfold Has.
    destruct (complement r) eqn:Cr, (complement q) eqn:Cq; simpl;
      rewrite ?withinBounds_none, ?andb_true_r;
      repeat case_bool_decide; simpl;
      rewrite ?elem_of_filter, ?HB in *;
      destruct (withinBounds v (gte r) (lte r)), (withinBounds v (gte q) (lte q));
      simpl in *; try done; set_solver.
Qed.

(** [Intersection] denotes set intersection: a value is allowed by the
    intersection of two requirements exactly when both requirements allow it,
    for concrete sets, complements and integer bounds alike. *)
Theorem Intersection_Has r q v :
  Has (Intersection r q) v = Has r v && Has q v.
Proof. apply Intersection_allows. Qed.

Lemma filter_set_nonempty (P : string → bool) (X : gset string) :
  (0 <? size (filter (λ v, P v = true) X))%nat = set_existsb P X.
Proof.
  apply eq_true_iff_eq. rewrite Nat.ltb_lt, set_existsb_spec. split.
  - intros Hs. destruct (set_choose_L (filter (λ v, P v = true) X)) as [x Hx].
    { intros E. rewrite E, size_empty in Hs. lia. }
    apply elem_of_filter in Hx as [? ?]. eauto.
  - intros (x & Hx & HP). assert (x ∈ filter (λ v, P v = true) X) as Hin.
    { by apply elem_of_filter. }
    destruct (size (filter (λ v, P v = true) X)) as [|n] eqn:E; [|lia].
    apply size_empty_inv in E. set_solver.
Qed.

(** The operator of a requirement without complement tells whether it has a member. *)
Lemma Operator_concrete key vs g l mv s :
  bool_decide (Operator (mkRequirement key false vs g l mv s) = OpDoesNotExist)
  = negb (0 <? size vs)%nat.
Proof.
  unfold Operator, Len; simpl. rewrite Z.gtb_ltb.
  destruct (Nat.ltb_spec 0 (size vs)); destruct (Z.ltb_spec 0 (Z.of_nat (size vs))); try done; lia.
Qed.

Lemma set_existsb_ext (f g : string → bool) (X Y : gset string) :
  (∀ v, (v ∈ X ∧ f v = true) ↔ (v ∈ Y ∧ g v = true)) → set_existsb f X = set_existsb g Y.
Proof. intros H. apply eq_true_iff_eq. rewrite !set_existsb_spec. naive_solver. Qed.

(** [HasIntersection], which builds no set, agrees with [Intersection]: it
    answers true exactly when the intersection it avoids building has an
    operator other than DoesNotExist. *)
Theorem HasIntersection_Intersection r q :
  HasIntersection r q = negb (bool_decide (Operator (Intersection r q) = OpDoesNotExist)).
Proof.
  unfold HasIntersection, Intersection.
  destruct (bounds_conflict _ _) eqn:Hc.
  { unfold simple_requirement, blank_requirement; simpl. by rewrite Operator_concrete. }
  destruct (complement r) eqn:Cr, (complement q) eqn:Cq; simpl.
  { unfold Operator; simpl. by destruct (_ <? _)%Z. }
  all: rewrite Operator_concrete, negb_involutive, filter_set_nonempty;
    apply set_existsb_ext; intros v; rewrite andb_true_iff, ?negb_true_iff,
      ?bool_decide_eq_false, ?bool_decide_eq_true; set_solver.
Qed.

(** A requirement as the code builds it: its bounds are 64-bit integers. *)
Definition bounds_wf (r : Requirement) : Prop :=
  from_option in_int64 True (gte r) ∧ from_option in_int64 True (lte r).

(** Bounds that do not conflict are met by some integer. *)
Lemma bounds_inhabited g l :
  from_option in_int64 True g → from_option in_int64 True l → bounds_conflict g l = false →
  ∃ n, in_int64 n ∧ ∀ v, Atoi v = (n, None) → withinBounds v g l = true.
Proof.
  intros Hg Hl Hc.
  exists (match g with Some n => n | None => default 0%Z l end). split.
  { destruct g, l; simpl in *; try done. }
  intros v Hv. unfold withinBounds, bounds_conflict in *. rewrite Hv.
  destruct g as [g|], l as [l|]; simpl in *; rewrite ?Z.gtb_ltb, ?Z.ltb_irrefl in *; try done.
  by rewrite Hc.
Qed.

Lemma maxIntPtr_wf a b : from_option in_int64 True a → from_option in_int64 True b →
  from_option in_int64 True (maxIntPtr a b).
Proof. destruct a, b; simpl; try done. by destruct (_ >? _)%Z. Qed.

Lemma minIntPtr_wf a b : from_option in_int64 True a → from_option in_int64 True b →
  from_option in_int64 True (minIntPtr a b).
Proof. destruct a, b; simpl; try done. by destruct (_ <? _)%Z. Qed.

Lemma HasIntersection_inhabited r q :
  bounds_wf r → bounds_wf q →
  HasIntersection r q = true ↔ ∃ v, Has r v = true ∧ Has q v = true.
Proof.
  intros [Hgr Hlr] [Hgq Hlq].
  setoid_rewrite <-andb_true_iff. setoid_rewrite <-Intersection_allows.
  rewrite HasIntersection_Intersection. unfold Intersection.
  pose proof (maxIntPtr_wf _ _ Hgr Hgq) as Hg. pose proof (minIntPtr_wf _ _ Hlr Hlq) as Hl.
  revert Hg Hl. generalize (maxIntPtr (gte r) (gte q)) as g, (minIntPtr (lte r) (lte q)) as l.
  intros g l Hg Hl. destruct (bounds_conflict g l) eqn:Hc.
  { rewrite bool_decide_eq_true_2 by done.
    split; [done|intros [v Hv]; by rewrite Has_DoesNotExist in Hv]. }
  destruct (complement r && complement q) eqn:Hcc.
  - destruct (bounds_inhabited g l Hg Hl Hc) as (n & Hn & Hin).
    split; [intros _|intros _; unfold Operator; simpl; by destruct (_ <? _)%Z].
    destruct (fresh_spelling n (filter (λ v, withinBounds v g l = true)
      (values r ∪ values q)) Hn) as (s & Hs & Hat).
    exists s. unfold Has; simpl. rewrite bool_decide_eq_false_2 by done. simpl. auto.
  - rewrite Operator_concrete, negb_involutive, filter_set_nonempty, set_existsb_spec.
    unfold Has; simpl. setoid_rewrite andb_true_r. setoid_rewrite bool_decide_eq_true.
    setoid_rewrite elem_of_filter. naive_solver.
Qed.

(** [HasIntersection] decides satisfiability: for requirements whose bounds
    are machine integers it answers true exactly when some label value
    satisfies both requirements. *)
Theorem HasIntersection_satisfiable r q :
  bounds_wf r → bounds_wf q →
  HasIntersection r q = true ↔ ∃ v, Has r v = true ∧ Has q v = true.
Proof. apply HasIntersection_inhabited. Qed.
End requirement_facts.

(** ** Denotational equality

    Two requirements are equivalent when they allow the same values; the code
    never looks at more than that through [Has]. *)

#[export] Instance Requirement_equiv : Equiv Requirement := λ r q, ∀ v, Has r v = Has q v.

#[export] Instance Requirement_equivalence : Equivalence (≡@{Requirement}).
Proof. split; [done|intros r q H v; by rewrite H|intros r q t H1 H2 v; by rewrite H1, H2]. Qed.

#[export] Instance Has_proper : Proper ((≡) ==> (=) ==> (=)) Has.
Proof. intros r q H v ? <-. apply H. Qed.

Section requirement_algebra.
  Context `{LR : LabelRegistry}.

#[export] Instance Intersection_proper : Proper ((≡) ==> (≡) ==> (≡)) Intersection.
Proof. intros r r' Hr q q' Hq v. by rewrite !Intersection_allows, Hr, Hq. Qed.

Lemma Intersection_comm r q : Intersection r q ≡ Intersection q r.
Proof. intros v. rewrite !Intersection_allows. apply andb_comm. Qed.

Lemma Intersection_assoc r q t :
  Intersection r (Intersection q t) ≡ Intersection (Intersection r q) t.
Proof. intros v. rewrite !Intersection_allows. apply andb_assoc. Qed.

Lemma Intersection_idemp r : Intersection r r ≡ r.
Proof. intros v. rewrite Intersection_allows. apply andb_diag. Qed.

Lemma Intersection_complement r q :
  bounds_conflict (maxIntPtr (gte r) (gte q)) (minIntPtr (lte r) (lte q)) = false →
  complement (Intersection r q) = complement r && complement q.
Proof. intros H. unfold Intersection. rewrite H. by destruct (complement r && complement q). Qed.

(** Intersecting never lowers a minValues demand. *)
Lemma Intersection_minValues r q :
  minValues (Intersection r q) = maxIntPtr (minValues r) (minValues q).
Proof.
  unfold Intersection. destruct (bounds_conflict _ _); [done|].
  by destruct (complement r && complement q).
Qed.

Lemma Intersection_bounds_wf r q : bounds_wf r → bounds_wf q → bounds_wf (Intersection r q).
Proof.
  intros [Hgr Hlr] [Hgq Hlq]. unfold Intersection.
  destruct (bounds_conflict _ _); [done|].
  destruct (complement r && complement q); split; simpl; auto using maxIntPtr_wf, minIntPtr_wf.
Qed.

Lemma Atoi_in_range s : in_int64 (Atoi s).1.
Proof.
  unfold Atoi, in_int64, int64_min, int64_max.
  repeat case_match; simplify_eq/=; lia.
Qed.

Lemma NewRequirement_bounds_wf key op mv vals r :
  NewRequirementWithFlexibility key op mv vals = Some r → bounds_wf r.
Proof.
  unfold NewRequirementWithFlexibility, bounds_wf.
  intros H.
  destruct op; simpl in H; try (destruct (_ !! 0%nat) as [w|]; simpl in H; [|done]);
    repeat case_match; simplify_eq/=; split; simpl; auto using Atoi_in_range, wrap64_in_range.
Qed.
End requirement_algebra.
#[export] Hint Resolve Intersection_bounds_wf NewRequirement_bounds_wf : karpenter.

(** ** What the constructor denotes *)

(** The meaning of an operator over (normalised) operands, after the Kubernetes
    documentation of node selector operators. *)
Definition operator_allows (op : NodeSelectorOperator) (vals : list string) (v : string) : bool :=
  let against (test : Z → Z → bool) :=
    match vals with
    | [] => false
    | w :: _ => match Atoi v with
                | (n, None) => test n (Atoi w).1
                | (_, Some _) => false
                end
    end in
  match op with
  | OpIn => bool_decide (v ∈ vals)
  | OpNotIn => negb (bool_decide (v ∈ vals))
  | OpExists => true
  | OpDoesNotExist => false
  | OpGt => against Z.gtb
  | OpLt => against Z.ltb
  | OpGte => against Z.geb
  | OpLte => against Z.leb
  end.

Section constructor_semantics.
  Context `{LR : LabelRegistry}.

Lemma withinBounds_gte v g :
  withinBounds v (Some g) None = match Atoi v with (n, None) => (g <=? n)%Z | _ => false end.
Proof.
  unfold withinBounds. destruct (Atoi v) as [n [e|]]; [done|].
  destruct (Z.ltb_spec n g), (Z.leb_spec g n); try done; lia.
Qed.

Lemma withinBounds_lte v l :
  withinBounds v None (Some l) = match Atoi v with (n, None) => (n <=? l)%Z | _ => false end.
Proof.
  unfold withinBounds. destruct (Atoi v) as [n [e|]]; [done|].
  rewrite Z.gtb_ltb. destruct (Z.ltb_spec l n), (Z.leb_spec n l); try done; lia.
Qed.

Lemma Has_only_gte key mv s g v :
  Has (mkRequirement key true ∅ (Some g) None mv s) v = withinBounds v (Some g) None.
Proof. unfold Has; simpl. by rewrite bool_decide_eq_false_2 by set_solver. Qed.

Lemma Has_only_lte key mv s l v :
  Has (mkRequirement key true ∅ None (Some l) mv s) v = withinBounds v None (Some l).
Proof. unfold Has; simpl. by rewrite bool_decide_eq_false_2 by set_solver. Qed.

(** A constructed requirement denotes the documented meaning of its operator
    on the normalised operands: In/NotIn are membership, Gt/Lt/Gte/Lte compare
    integers, and Gt of the largest integer matches nothing.  The one excluded
    operand is the smallest integer under Lt, where the code wraps around. *)
Theorem NewRequirement_denotes key op mv vals r v :
  NewRequirementWithFlexibility key op mv vals = Some r →
  (op = OpLt → ∀ w rest, normalize_values (normalize_key key) vals = w :: rest →
               (Atoi w).1 ≠ int64_min) →
  Has r v = operator_allows op (normalize_values (normalize_key key) vals) v.
Proof.
  intros HN HLt. unfold NewRequirementWithFlexibility in HN. unfold operator_allows.
  generalize dependent (normalize_values (normalize_key key) vals). intros ws HN HLt.
  pose proof (Atoi_in_range v) as Hv.
  destruct op; simpl in HN.
  1-2: injection HN as <-; unfold Has; simpl; rewrite andb_true_r; try f_equal;
    apply bool_decide_ext; apply elem_of_list_to_set.
  1: injection HN as <-; apply (Has_Exists key mv v).
  1: injection HN as <-; apply (Has_DoesNotExist key mv v).
  all: destruct ws as [|w ws]; simpl in HN; [done|];
    pose proof (Atoi_in_range w) as Hw; unfold in_int64 in *.
  - destruct (Z.eqb_spec (Atoi w).1 int64_max) as [E|E]; simplify_eq.
    + rewrite Has_DoesNotExist. destruct (Atoi v) as [n [|]]; [done|]. simpl in *.
      rewrite Z.gtb_ltb. destruct (Z.ltb_spec (Atoi w).1 n); [lia|done].
    + unfold with_gte; simpl. rewrite Has_only_gte, withinBounds_gte.
      rewrite wrap64_id by (unfold in_int64; lia).
      destruct (Atoi v) as [n [|]]; [done|]. rewrite Z.gtb_ltb.
      destruct (Z.leb_spec ((Atoi w).1 + 1) n), (Z.ltb_spec (Atoi w).1 n); try done; lia.
  - specialize (HLt eq_refl w ws eq_refl).
    simplify_eq/=. unfold with_lte; simpl. rewrite Has_only_lte, withinBounds_lte.
    rewrite wrap64_id by (unfold in_int64; lia).
    destruct (Atoi v) as [n [|]]; [done|].
    destruct (Z.leb_spec n ((Atoi w).1 - 1)), (Z.ltb_spec n (Atoi w).1); try done; lia.
  - simplify_eq/=. unfold with_gte; simpl. rewrite Has_only_gte, withinBounds_gte.
    destruct (Atoi v) as [n [|]]; [done|]. by rewrite Z.geb_leb.
  - simplify_eq/=. unfold with_lte; simpl. by rewrite Has_only_lte, withinBounds_lte.
Qed.

(** The requirement "less than the smallest 64-bit integer" is satisfiable in
    the model, as it is in the code: the canonicalisation to an inclusive bound
    wraps around to the largest integer, so every integer label is accepted,
    while the symmetric Gt of the largest integer accepts nothing. *)
Theorem Lt_MinInt_wraps key v n :
  NormalizedLabelValues !! normalize_key key = None →
  Atoi v = (n, None) →
  (∃ r, NewRequirement key OpLt [FormatInt int64_min] = Some r ∧ Has r v = true) ∧
  (∃ r, NewRequirement key OpGt [FormatInt int64_max] = Some r ∧ Has r v = false).
Proof.
  intros Hn Hv. unfold NewRequirement, NewRequirementWithFlexibility, normalize_values.
  rewrite Hn. cbn [lookup list_lookup mbind option_bind].
  rewrite !Atoi_FormatInt by (unfold in_int64, int64_min, int64_max; lia). cbn [fst].
  replace (wrap64 (int64_min - 1)) with int64_max by (vm_compute; done).
  rewrite Z.eqb_refl. split; eexists; (split; [reflexivity|]); [|apply Has_DoesNotExist].
  unfold with_lte; cbn. rewrite Has_only_lte, withinBounds_lte, Hv.
  pose proof (Atoi_in_range v) as Hr. rewrite Hv in Hr. apply Z.leb_le, Hr.
Qed.
End constructor_semantics.

(** ** The string cache *)

Definition cache_ok (r : Requirement) : Prop := ∀ s, asString r = Some s → s = render r.

(** The calls that reach a requirement shared by pointer. *)
Inductive requirement_step : Requirement → Requirement → Prop :=
| step_Insert r items : requirement_step r (Insert r items)
| step_SetMinValues r mv : requirement_step r (SetMinValues r mv)
| step_String r : requirement_step r (String_ r).2
| step_DeepCopy r : requirement_step r (DeepCopyInto r).

Lemma render_ignores_cache key c vs g l mv s1 s2 :
  render (mkRequirement key c vs g l mv s1) = render (mkRequirement key c vs g l mv s2).
Proof. done. Qed.

Lemma requirement_step_cache_ok r r' : requirement_step r r' → cache_ok r → cache_ok r'.
Proof.
  intros [] Hok s Hs; simpl in *; try done.
  unfold String_ in *. destruct (asString r0) eqn:E; simpl in *; [by apply Hok|].
  by simplify_eq.
Qed.

(** The cached text is never stale: after any sequence of insertions,
    minValues updates, copies and earlier String calls on a requirement that
    starts with a valid cache (a fresh one has none), String returns the text of
    the requirement's current fields. *)
Theorem String_never_stale r r' :
  cache_ok r → rtc requirement_step r r' → (String_ r').1 = render r'.
Proof.
  intros Hok Hsteps. assert (cache_ok r') as Hok'.
  { induction Hsteps as [|? ? ? Hst _ IH]; eauto using requirement_step_cache_ok. }
  unfold String_. destruct (asString r') eqn:E; simpl; auto.
Qed.
