(* ===== verification/Objects.v ===== *)
(** * Objects: the Kubernetes objects the sources read

    The types of k8s.io/api are not part of the repository; these records hold
    the fields of a pod, a taint and a toleration that the modelled code reads,
    with a Go pointer as an [option] and a Go slice as a list. *)

From S2P Require Import Prelude Requirement.

Definition NamespacedName : Type := string * string.

(** [corev1.NodeSelectorRequirement]. *)
Record CoreNodeSelectorRequirement := mkCoreNSR {
  cnsr_Key : string;
  cnsr_Operator : NodeSelectorOperator;
  cnsr_Values : list string;
}.

(** [corev1.PreferredSchedulingTerm]; [corev1.NodeSelectorTerm] is its match expressions. *)
Record PreferredSchedulingTerm := mkPreferredTerm {
  Weight : Z;
  Preference : list CoreNodeSelectorRequirement;
}.

Record NodeAffinityT := mkNodeAffinity {
  RequiredTerms : option (list (list CoreNodeSelectorRequirement));
  PreferredTerms : list PreferredSchedulingTerm;
}.

(** [metav1.LabelSelector] requirements and selectors. *)
Inductive LabelSelectorOperator := SelIn | SelNotIn | SelExists | SelDoesNotExist.

#[export] Instance LabelSelectorOperator_eq_dec : EqDecision LabelSelectorOperator.
Proof. solve_decision. Defined.

Record LabelSelectorRequirement := mkLSR {
  lsr_Key : string;
  lsr_Operator : LabelSelectorOperator;
  lsr_Values : list string;
}.

#[export] Instance LabelSelectorRequirement_eq_dec : EqDecision LabelSelectorRequirement.
Proof. solve_decision. Defined.

Record LabelSelector := mkLabelSelector {
  MatchLabels : gmap string string;
  MatchExpressions : list LabelSelectorRequirement;
}.

#[export] Instance LabelSelector_eq_dec : EqDecision LabelSelector.
Proof. solve_decision. Defined.

(** [corev1.PodAffinityTerm] and [corev1.WeightedPodAffinityTerm]. *)
Record PodAffinityTerm := mkPodAffinityTerm {
  pat_LabelSelector : option LabelSelector;
  pat_Namespaces : list string;
  pat_NamespaceSelector : option LabelSelector;
  pat_TopologyKey : string;
}.

Record WeightedPodAffinityTerm := mkWeightedPodAffinityTerm {
  wpat_Weight : Z;
  wpat_Term : PodAffinityTerm;
}.

Record PodAffinityT := mkPodAffinity {
  pa_Required : list PodAffinityTerm;
  pa_Preferred : list WeightedPodAffinityTerm;
}.

Record AffinityT := mkAffinity {
  NodeAffinity : option NodeAffinityT;
  PodAffinity : option PodAffinityT;
  PodAntiAffinity : option PodAffinityT;
}.

(** Taints and tolerations. *)
Inductive TaintEffect := NoSchedule | PreferNoSchedule | NoExecute.

#[export] Instance TaintEffect_eq_dec : EqDecision TaintEffect.
Proof. solve_decision. Defined.

Record Taint := mkTaint {
  taint_Key : string;
  taint_Value : string;
  taint_Effect : TaintEffect;
}.

#[export] Instance Taint_eq_dec : EqDecision Taint.
Proof. solve_decision. Defined.

Inductive TolerationOperator := TolEmpty | TolExists | TolEqual | TolGt | TolLt.

#[export] Instance TolerationOperator_eq_dec : EqDecision TolerationOperator.
Proof. solve_decision. Defined.

(** An absent effect matches every effect; the key may be empty. *)
Record Toleration := mkToleration {
  tol_Key : string;
  tol_Operator : TolerationOperator;
  tol_Value : string;
  tol_Effect : option TaintEffect;
}.

#[export] Instance Toleration_eq_dec : EqDecision Toleration.
Proof. solve_decision. Defined.

Inductive UnsatisfiableConstraintAction := DoNotSchedule | ScheduleAnyway.

#[export] Instance UnsatisfiableConstraintAction_eq_dec :
  EqDecision UnsatisfiableConstraintAction.
Proof. solve_decision. Defined.

(** [corev1.NodeInclusionPolicy]. *)
Inductive NodeInclusionPolicy := PolicyHonor | PolicyIgnore.

#[export] Instance NodeInclusionPolicy_eq_dec : EqDecision NodeInclusionPolicy.
Proof. solve_decision. Defined.

Record TopologySpreadConstraint := mkTSC {
  MaxSkew : Z;
  TopologyKey : string;
  WhenUnsatisfiable : UnsatisfiableConstraintAction;
  tsc_LabelSelector : option LabelSelector;
  MinDomains : option Z;
  NodeAffinityPolicy : option NodeInclusionPolicy;
  NodeTaintsPolicy : option NodeInclusionPolicy;
  MatchLabelKeys : list string;
}.

(** [corev1.ContainerPort]; the protocol is a string type. *)
Record ContainerPort := mkContainerPort {
  cp_HostIP : string;
  cp_HostPort : Z;
  cp_Protocol : string;
}.

(** [metav1.Condition] and [corev1.NodeCondition]; the status is a string type. *)
Record Condition := mkCondition {
  cond_Type : string;
  cond_Status : string;
  cond_Reason : string;
  cond_Message : string;
  cond_LastTransitionTime : Z;
}.

#[export] Instance Condition_eq_dec : EqDecision Condition.
Proof. solve_decision. Defined.

Definition ConditionTrue : string := "True".
Definition ConditionFalse : string := "False".
Definition ConditionUnknown : string := "Unknown".

(** The time [time.Time{}], 1 January of year 1. *)
Definition zero_time : Z := -62135596800000000000.

(** [time.Time.Sub]: a duration saturates at 64 bits. *)
Definition time_Sub (t u : Z) : Z := (int64_min `max` (t - u)) `min` int64_max.

Inductive PodPhase := PodPending | PodRunning | PodSucceeded | PodFailed | PodUnknown.

#[export] Instance PodPhase_eq_dec : EqDecision PodPhase.
Proof. solve_decision. Defined.

(** [corev1.PodStatus]. *)
Record PodStatus := mkPodStatus {
  Phase : PodPhase;
  Conditions : list Condition;
  NominatedNodeName : string;
  StartTime : option Z;
}.

(** [metav1.OwnerReference]; [or_Controller] is the [*bool] read as false when nil. *)
Record OwnerReference := mkOwnerReference {
  or_APIVersion : string;
  or_Kind : string;
  or_Controller : bool;
  or_Name : string;
  or_UID : string;
}.

(** Times are nanoseconds since the epoch. *)
Record Pod := mkPod {
  pod_Namespace : string;
  pod_Name : string;
  pod_UID : string;
  pod_Labels : gmap string string;
  pod_Annotations : gmap string string;
  pod_CreationTimestamp : Z;
  pod_NodeSelector : gmap string string;
  pod_Affinity : option AffinityT;
  pod_Tolerations : list Toleration;
  pod_TopologySpreadConstraints : list TopologySpreadConstraint;
  pod_Containers : list (list ContainerPort);
  pod_Priority : option Z;
  pod_NodeName : string;
  pod_Status : PodStatus;
  pod_DeletionTimestamp : option Z;
  pod_OwnerReferences : list OwnerReference;
  pod_ResourceClaims : list string;
  pod_InitContainerClaims : list (list string);
  pod_ContainerClaims : list (list string);
}.

(** [corev1.Node], as far as it is read. *)
Record Node := mkNode {
  node_Name : string;
  node_Labels : gmap string string;
  node_Annotations : gmap string string;
  node_CreationTimestamp : Z;
  node_DeletionTimestamp : option Z;
  node_Taints : list Taint;
  node_ProviderID : string;
  node_Capacity : gmap string Z;
  node_Allocatable : gmap string Z;
  node_Conditions : list Condition;
}.

#[export] Instance Node_eq_dec : EqDecision Node.
Proof. solve_decision. Defined.

(** [v1.NodeClaim] of pkg/apis/v1/nodeclaim.go: the API object of a node. *)
Record v1NodeClaim := mkv1NodeClaim {
  claim_Name : string;
  claim_UID : string;
  claim_Labels : gmap string string;
  claim_Annotations : gmap string string;
  claim_CreationTimestamp : Z;
  claim_DeletionTimestamp : option Z;
  claim_Taints : list Taint;
  claim_StartupTaints : list Taint;
  claim_TerminationGracePeriod : option Z;
  claim_ExpireAfter : option Z;
  claim_ProviderID : string;
  claim_NodeName : string;
  claim_Capacity : gmap string Z;
  claim_Allocatable : gmap string Z;
  claim_Conditions : list Condition;
  claim_LastPodEventTime : option Z;
}.

#[export] Instance v1NodeClaim_eq_dec : EqDecision v1NodeClaim.
Proof. solve_decision. Defined.

(** The condition types of pkg/apis/v1/nodeclaim_status.go. *)
Definition ConditionTypeLaunched : string := "Launched".
Definition ConditionTypeRegistered : string := "Registered".
Definition ConditionTypeInitialized : string := "Initialized".
Definition ConditionTypeConsolidatable : string := "Consolidatable".
Definition ConditionTypeDrifted : string := "Drifted".
Definition ConditionTypeDrained : string := "Drained".
Definition ConditionTypeVolumesDetached : string := "VolumesDetached".
Definition ConditionTypeInstanceTerminating : string := "InstanceTerminating".
Definition ConditionTypeConsistentStateFound : string := "ConsistentStateFound".
Definition ConditionTypeDisruptionReason : string := "DisruptionReason".
Definition ConditionTypeRebooting : string := "Rebooting".

(** [StatusConditions().Get]: the condition of a type; a condition that is absent
    is neither true nor false. *)
Definition get_condition (type : string) (conditions : list Condition) : option Condition :=
  List.find (λ c, bool_decide (cond_Type c = type)) conditions.

Definition condition_has (status type : string) (conditions : list Condition) : bool :=
  match get_condition type conditions with
  | Some c => bool_decide (cond_Status c = status)
  | None => false
  end.

Abbreviation condition_true := (condition_has ConditionTrue).
Abbreviation condition_false := (condition_has ConditionFalse).

(** [client.ObjectKeyFromObject]. *)
Definition pod_key (p : Pod) : NamespacedName := (pod_Namespace p, pod_Name p).

(** [intstr.IntOrString]. *)
Inductive IntOrString := IntVal (z : Z) | StrVal (s : string).

#[export] Instance IntOrString_eq_dec : EqDecision IntOrString.
Proof. solve_decision. Defined.
