(* ===== verification/RepairPolicy.v ===== *)
(** * RepairPolicy: which repair an unhealthy node needs
    (pkg/controllers/node/health/policy.go and [RepairPolicy] of
    pkg/cloudprovider/types.go)

    The provider's policies are validated and compiled once; the conditions of a
    node select policies, and the eligible ones are merged into one decision. *)

From S2P Require Import Prelude Float64 Objects.

#[local] Open Scope Z_scope.

(** A [RepairAction] is a string; the empty one is no action. *)
Definition RebootNode : string := "RebootNode".
Definition ReplaceNode : string := "ReplaceNode".

Record RepairPolicy := mkRepairPolicy {
  rp_ConditionType : string;
  rp_ConditionStatus : string;
  rp_ReasonRegex : string;
  rp_TolerationDuration : Z;
  rp_TerminationGracePeriod : option Z;
  rp_Priority : Z;
  rp_Action : string;
}.

(** [None] is the panic on an unsupported action. *)
Definition repairActionRank (action : string) : option Z :=
  if bool_decide (action = ReplaceNode) then Some 1
  else if bool_decide (action = RebootNode) then Some 0 else None.

Definition IsMoreDisruptiveThan (a other : string) : option bool :=
  ra ← repairActionRank a; ro ← repairActionRank other; Some (ra >? ro).

Definition supportedRepairActions : gset string := {[ReplaceNode; RebootNode]}.

Definition minRepairPolicyPriority : Z := 0.
Definition maxRepairPolicyPriority : Z := 100.
Definition agingConstant : Z := 1800000000000.

(** A compiled regular expression, read as the strings it matches. *)
Abbreviation Regexp := (string → bool).

Record compiledPolicy := mkCompiledPolicy {
  cp_policy : RepairPolicy;
  cp_reasonRegex : option Regexp;
  (** type, status and reason of the matched condition *)
  cp_Condition : string * string * string;
}.

Record RepairPolicyMatcher := mkRepairPolicyMatcher {
  groups : gmap (string * string) (list compiledPolicy);
  fallbackPolicy : compiledPolicy;
  ranks : gmap Z Z;
}.

(** ** Validation *)

Inductive policy_error :=
| EmptyConditionType (index : nat)
| InvalidConditionStatus (index : nat) (status : string)
| NegativeToleration (index : nat)
| NegativeGracePeriod (index : nat)
| PriorityOutOfRange (index : nat) (priority : Z)
| UnsupportedAction (index : nat) (action : string)
| InvalidReasonRegex (index : nat)
| MultipleFallbacks (first second : RepairPolicy)
| NoFallback
| NoPolicies
| FallbackMustReplace (fallback : RepairPolicy).

Definition validConditionStatus (status : string) : bool :=
  bool_decide (status = ConditionTrue) || bool_decide (status = ConditionFalse) ||
  bool_decide (status = ConditionUnknown).

Definition validateRepairPolicy (index : nat) (policy : RepairPolicy) (supportedActions : gset string)
    : list policy_error :=
  (if bool_decide (rp_ConditionType policy = EmptyString) then [EmptyConditionType index] else []) ++
  (if validConditionStatus (rp_ConditionStatus policy) then []
   else [InvalidConditionStatus index (rp_ConditionStatus policy)]) ++
  (if rp_TolerationDuration policy <? 0 then [NegativeToleration index] else []) ++
  match rp_TerminationGracePeriod policy with
  | Some d => if d <? 0 then [NegativeGracePeriod index] else []
  | None => []
  end ++
  (if (rp_Priority policy <? minRepairPolicyPriority) || (rp_Priority policy >? maxRepairPolicyPriority)
   then [PriorityOutOfRange index (rp_Priority policy)] else []) ++
  (if bool_decide (rp_Action policy ∈ supportedActions) then []
   else [UnsupportedAction index (rp_Action policy)]).

(** The priorities in use, numbered from the lowest. *)
Definition unique_priorities (policies : list RepairPolicy) : list Z :=
  merge_sort Z.le (elements (list_to_set (rp_Priority <$> policies) : gset Z)).

Definition denseRanks (policies : list RepairPolicy) : gmap Z Z :=
  list_to_map (imap (λ rank priority, (priority, Z.of_nat rank)) (unique_priorities policies)).

Section compile.
  (** [regexp.Compile]; [None] is an error. *)
  Context (Compile : string → option Regexp).

Definition compileRepairPolicyReasonRegex (index : nat) (policy : RepairPolicy)
    : option Regexp * list policy_error :=
  if bool_decide (rp_ReasonRegex policy = EmptyString) then (None, [])
  else match Compile (rp_ReasonRegex policy) with
       | Some r => (Some r, [])
       | None => (None, [InvalidReasonRegex index])
       end.

Definition compileRepairPolicy (index : nat) (policy : RepairPolicy) (supportedActions : gset string)
    : compiledPolicy * list policy_error :=
  let errs := validateRepairPolicy index policy supportedActions in
  let '(reasonRegex, err) := compileRepairPolicyReasonRegex index policy in
  (mkCompiledPolicy policy reasonRegex (EmptyString, EmptyString, EmptyString), errs ++ err).

(** One iteration: the groups, the fallback found so far and the errors. *)
Definition compile_step (supportedActions : gset string)
    (st : gmap (string * string) (list compiledPolicy) * option compiledPolicy * list policy_error)
    (i : nat) (policy : RepairPolicy) :=
  let '(groups, fallback, errs) := st in
  let key := (rp_ConditionType policy, rp_ConditionStatus policy) in
  let specificPolicies := default [] (groups !! key) in
  let '(compiled, err) := compileRepairPolicy i policy supportedActions in
  let errs := errs ++ err in
  if bool_decide (rp_ReasonRegex policy = EmptyString) then
    match fallback with
    | Some f => (<[key := specificPolicies]> groups, Some f,
                 errs ++ [MultipleFallbacks (cp_policy f) (cp_policy compiled)])
    | None => (<[key := specificPolicies]> groups, Some compiled, errs)
    end
  else (<[key := specificPolicies ++ [compiled]]> groups, fallback, errs).

Fixpoint compile_loop (supportedActions : gset string) st (i : nat) (policies : list RepairPolicy) :=
  match policies with
  | [] => st
  | policy :: rest => compile_loop supportedActions (compile_step supportedActions st i policy) (S i) rest
  end.

Definition newRepairPolicyMatcher (policies : list RepairPolicy) (supportedActions : gset string)
    : result (list policy_error) RepairPolicyMatcher :=
  let '(groups, fallback, errs) := compile_loop supportedActions (∅, None, []) 0%nat policies in
  match fallback with
  | None => Err (errs ++ [NoFallback])
  | Some f =>
      let errs := if bool_decide (rp_Action (cp_policy f) = ReplaceNode) then errs
                  else errs ++ [FallbackMustReplace (cp_policy f)] in
      match errs with
      | [] => Ok (mkRepairPolicyMatcher groups f (denseRanks policies))
      | _ => Err errs
      end
  end.

(** [nil, nil] unless node repair is enabled and not the legacy one. *)
Definition NewRepairPolicyMatcher (NodeRepair LegacyNodeRepair : bool) (policies : list RepairPolicy)
    : result (list policy_error) (option RepairPolicyMatcher) :=
  if negb NodeRepair || LegacyNodeRepair then Ok None
  else match policies with
       | [] => Err [NoPolicies]
       | _ => Some <$> newRepairPolicyMatcher policies supportedRepairActions
       end.
End compile.

(** ** Matching *)

Record RepairPolicyMatch := mkRepairPolicyMatch {
  m_policy : compiledPolicy;
  m_rank : Z;
  m_eligibleAt : Z;
}.

Record matchCondition := mkMatchCondition {
  mc_conditionType : string;
  mc_status : string;
  mc_reason : string;
  mc_lastTransition : Z;
}.

#[export] Instance matchCondition_eq_dec : EqDecision matchCondition.
Proof. solve_decision. Defined.

Definition newMatchCondition (c : Condition) : matchCondition :=
  mkMatchCondition (cond_Type c) (cond_Status c) (cond_Reason c) (cond_LastTransitionTime c).

Definition matchCreated (node : Node) : Z := node_CreationTimestamp node.

Fixpoint conditions_equal (a b : list Condition) : bool :=
  match a, b with
  | x :: a', y :: b' =>
      if negb (bool_decide (newMatchCondition x = newMatchCondition y)) then false else conditions_equal a' b'
  | _, _ => true
  end.

Definition MatchInputsEqual (a b : Node) : bool :=
  if negb (matchCreated a =? matchCreated b) ||
     negb (bool_decide (length (node_Conditions a) = length (node_Conditions b))) then false
  else conditions_equal (node_Conditions a) (node_Conditions b).

Definition newMatch (p : RepairPolicyMatcher) (policy : compiledPolicy) (condition : string * string * string)
    (transitionTime : Z) : RepairPolicyMatch :=
  mkRepairPolicyMatch (mkCompiledPolicy (cp_policy policy) (cp_reasonRegex policy) condition)
    (default 0 (ranks p !! rp_Priority (cp_policy policy)))
    (transitionTime + rp_TolerationDuration (cp_policy policy)).

(** The specific policies whose regular expression matches the reason; [None] is
    the panic of matching with a nil expression. *)
Fixpoint matching_policies (reason : string) (policies : list compiledPolicy) : option (list compiledPolicy) :=
  match policies with
  | [] => Some []
  | policy :: rest =>
      r ← cp_reasonRegex policy;
      ms ← matching_policies reason rest;
      Some (if r reason : bool then policy :: ms else ms)
  end.

Definition match_condition (p : RepairPolicyMatcher) (created : Z) (c : matchCondition)
    : option (list RepairPolicyMatch) :=
  let condition := (mc_conditionType c, mc_status c, mc_reason c) in
  let transitionTime := if mc_lastTransition c <? created then created else mc_lastTransition c in
  match groups p !! (mc_conditionType c, mc_status c) with
  | None => Some []
  | Some specificPolicies =>
      matched ← matching_policies (mc_reason c) specificPolicies;
      Some ((λ policy, newMatch p policy condition transitionTime) <$>
            match matched with [] => [fallbackPolicy p] | _ => matched end)
  end.

Fixpoint match_conditions (p : RepairPolicyMatcher) (created : Z) (conditions : list matchCondition)
    : option (list RepairPolicyMatch) :=
  match conditions with
  | [] => Some []
  | c :: rest => ms ← match_condition p created c; ms' ← match_conditions p created rest; Some (ms ++ ms')
  end.

Definition Match (p : RepairPolicyMatcher) (node : Node) : option (list RepairPolicyMatch) :=
  match_conditions p (matchCreated node) (newMatchCondition <$> node_Conditions node).

Definition Matches (p : RepairPolicyMatcher) (condition : Condition) : bool :=
  bool_decide (is_Some (groups p !! (cond_Type condition, cond_Status condition))).

(** ** Resolving *)

Record RepairResult := mkRepairResult {
  r_Action : string;
  r_Condition : string;
  r_ConditionStatus : string;
  r_Reason : string;
  r_ReasonRegex : string;
  r_Fallback : bool;
  r_SelectedEligibleAt : Z;
  r_TerminationGracePeriod : option Z;
  r_TerminationGracePeriodCondition : string;
  r_selectedPriority : Z;
  r_terminationGracePeriodEligibleAt : Z;
  r_scoreRank : Z;
  r_scoreEligibleAt : Z;
}.

Definition empty_result : RepairResult :=
  mkRepairResult EmptyString EmptyString EmptyString EmptyString EmptyString false zero_time None EmptyString
    0 zero_time 0 zero_time.

(** [time.Duration.Minutes]. *)
Definition Minutes (d : Z) : float64 :=
  fadd (float64_of_int (d `quot` 60000000000))
       (fdiv (float64_of_int (d `rem` 60000000000)) (float64_of_int 60000000000)).

(** The score of a policy of the given rank, eligible since [eligibleAt]. *)
Definition policy_score (rank eligibleAt now : Z) : float64 :=
  fadd (float64_of_int rank) (fdiv (Minutes (time_Sub now eligibleAt)) (Minutes agingConstant)).

Definition ScoreAt (r : RepairResult) (now : Z) : float64 :=
  if bool_decide (r_Action r = EmptyString) then Fin 0
  else policy_score (r_scoreRank r) (r_scoreEligibleAt r) now.

Definition mergeScore (r : RepairResult) (rank eligibleAt now : Z) (isFirstEligiblePolicy : bool) : RepairResult :=
  if isFirstEligiblePolicy || fltb (ScoreAt r now) (policy_score rank eligibleAt now) then
    mkRepairResult (r_Action r) (r_Condition r) (r_ConditionStatus r) (r_Reason r) (r_ReasonRegex r) (r_Fallback r)
      (r_SelectedEligibleAt r) (r_TerminationGracePeriod r) (r_TerminationGracePeriodCondition r)
      (r_selectedPriority r) (r_terminationGracePeriodEligibleAt r) rank eligibleAt
  else r.

Definition shorterTerminationGracePeriod (r : RepairResult) (bound : Z) (condition : string) (eligibleAt : Z) : bool :=
  match r_TerminationGracePeriod r with
  | None => true
  | Some current =>
      if negb (bound =? current) then bound <? current
      else if negb (eligibleAt =? r_terminationGracePeriodEligibleAt r) then
        eligibleAt <? r_terminationGracePeriodEligibleAt r
      else String.ltb condition (r_TerminationGracePeriodCondition r)
  end.

Definition merge_grace_period (r : RepairResult) (policy : compiledPolicy) (eligibleAt : Z) : RepairResult :=
  match rp_TerminationGracePeriod (cp_policy policy) with
  | Some bound =>
      if shorterTerminationGracePeriod r bound (cp_Condition policy).1.1 eligibleAt then
        mkRepairResult (r_Action r) (r_Condition r) (r_ConditionStatus r) (r_Reason r) (r_ReasonRegex r) (r_Fallback r)
          (r_SelectedEligibleAt r) (Some bound) (cp_Condition policy).1.1
          (r_selectedPriority r) eligibleAt (r_scoreRank r) (r_scoreEligibleAt r)
      else r
  | None => r
  end.

(** Whether a policy takes over the action; [None] is a panic. *)
Definition selects (r : RepairResult) (policy : compiledPolicy) (eligibleAt : Z) (isFirstEligiblePolicy : bool)
    : option bool :=
  let action := rp_Action (cp_policy policy) in
  selected ← (if isFirstEligiblePolicy then Some true else IsMoreDisruptiveThan action (r_Action r));
  Some (if bool_decide (action = r_Action r) then
          if negb (rp_Priority (cp_policy policy) =? r_selectedPriority r) then
            rp_Priority (cp_policy policy) >? r_selectedPriority r
          else if negb (eligibleAt =? r_SelectedEligibleAt r) then eligibleAt <? r_SelectedEligibleAt r
          else String.ltb (cp_Condition policy).1.1 (r_Condition r)
        else selected).

Definition mergePolicy (r : RepairResult) (policy : compiledPolicy) (rank eligibleAt now : Z) : option RepairResult :=
  if eligibleAt >? now then Some r
  else
    let isFirstEligiblePolicy := bool_decide (r_Action r = EmptyString) in
    let r := mergeScore r rank eligibleAt now isFirstEligiblePolicy in
    let r := merge_grace_period r policy eligibleAt in
    selected ← selects r policy eligibleAt isFirstEligiblePolicy;
    Some (if selected : bool then
            let '(type, status, reason) := cp_Condition policy in
            mkRepairResult (rp_Action (cp_policy policy)) type status reason (rp_ReasonRegex (cp_policy policy))
              (bool_decide (rp_ReasonRegex (cp_policy policy) = EmptyString)) eligibleAt
              (r_TerminationGracePeriod r) (r_TerminationGracePeriodCondition r) (rp_Priority (cp_policy policy))
              (r_terminationGracePeriodEligibleAt r) (r_scoreRank r) (r_scoreEligibleAt r)
          else r).

(** A toleration is measured from [notBefore] at the earliest. *)
Definition match_eligibleAt (notBefore : Z) (m : RepairPolicyMatch) : Z :=
  let earliest := notBefore + rp_TolerationDuration (cp_policy (m_policy m)) in
  if m_eligibleAt m <? earliest then earliest else m_eligibleAt m.

Definition Resolve (matches : list RepairPolicyMatch) (now notBefore : Z) : option RepairResult :=
  foldl_opt (λ r m, mergePolicy r (m_policy m) (m_rank m) (match_eligibleAt notBefore m) now) empty_result matches.

(** ** The decision as the best of the eligible matches *)

(** The more disruptive action, then the higher priority, then the earlier
    eligibility, then the lower condition type. *)
Definition action_key : Type := Z * Z * Z * string.

Definition action_key_less (k k' : action_key) : bool :=
  let '(rank, priority, eligibleAt, type) := k in
  let '(rank', priority', eligibleAt', type') := k' in
  if negb (rank =? rank') then rank >? rank'
  else if negb (priority =? priority') then priority >? priority'
  else if negb (eligibleAt =? eligibleAt') then eligibleAt <? eligibleAt'
  else String.ltb type type'.

(** The shorter bound, then the earlier eligibility, then the lower condition type. *)
Definition grace_key : Type := Z * Z * string.

Definition grace_key_less (k k' : grace_key) : bool :=
  let '(bound, eligibleAt, type) := k in
  let '(bound', eligibleAt', type') := k' in
  if negb (bound =? bound') then bound <? bound'
  else if negb (eligibleAt =? eligibleAt') then eligibleAt <? eligibleAt'
  else String.ltb type type'.

Definition selected_key (r : RepairResult) : option action_key :=
  if bool_decide (r_Action r = EmptyString) then None
  else Some (default 0 (repairActionRank (r_Action r)), r_selectedPriority r, r_SelectedEligibleAt r, r_Condition r).

Definition selected_grace (r : RepairResult) : option grace_key :=
  bound ← r_TerminationGracePeriod r;
  Some (bound, r_terminationGracePeriodEligibleAt r, r_TerminationGracePeriodCondition r).

Section resolution.
  Context (now notBefore : Z).

Definition eligible (m : RepairPolicyMatch) : Prop := match_eligibleAt notBefore m ≤ now.

Definition match_key (m : RepairPolicyMatch) : action_key :=
  (default 0 (repairActionRank (rp_Action (cp_policy (m_policy m)))), rp_Priority (cp_policy (m_policy m)),
   match_eligibleAt notBefore m, (cp_Condition (m_policy m)).1.1).

Definition match_grace (m : RepairPolicyMatch) : option grace_key :=
  bound ← rp_TerminationGracePeriod (cp_policy (m_policy m));
  Some (bound, match_eligibleAt notBefore m, (cp_Condition (m_policy m)).1.1).

Definition supported_match (m : RepairPolicyMatch) : Prop := rp_Action (cp_policy (m_policy m)) ∈ supportedRepairActions.
End resolution.

(** Decide the integer tests of lexicographic comparisons. *)
Ltac lex_cases :=
  repeat match goal with
  | H : context [(?a =? ?b)] |- _ => destruct (Z.eqb_spec a b); simpl in H; subst
  | |- context [(?a =? ?b)] => destruct (Z.eqb_spec a b); simpl; subst
  end; rewrite ?Z.gtb_ltb in *; simpl in *; breflect; try lia; try congruence.

Lemma action_key_less_asym x y : action_key_less x y = true → action_key_less y x = false.
Proof.
  destruct x as [[[r p] e] t], y as [[[r' p'] e'] t']. simpl. intros H.
  lex_cases; try (apply Z.ltb_ge; lia). by apply ltb_asym.
Qed.

Lemma grace_key_less_asym x y : grace_key_less x y = true → grace_key_less y x = false.
Proof.
  destruct x as [[b e] t], y as [[b' e'] t']. simpl. intros H. lex_cases; try (apply Z.ltb_ge; lia). by apply ltb_asym.
Qed.

Lemma action_key_less_trans x y z :
  not_after action_key_less x y → not_after action_key_less y z → not_after action_key_less x z.
Proof.
  destruct x as [[[r p] e] t], y as [[[r' p'] e'] t'], z as [[[r'' p''] e''] t'']. unfold not_after. simpl. intros H1 H2.
  lex_cases; try (apply Z.ltb_ge; lia). rewrite ltb_false_le in *. by etrans.
Qed.

Lemma grace_key_less_trans x y z :
  not_after grace_key_less x y → not_after grace_key_less y z → not_after grace_key_less x z.
Proof.
  destruct x as [[b e] t], y as [[b' e'] t'], z as [[b'' e''] t'']. unfold not_after. simpl. intros H1 H2.
  lex_cases; try (apply Z.ltb_ge; lia). rewrite ltb_false_le in *. by etrans.
Qed.

Lemma action_key_less_total x y : action_key_less x y = false → action_key_less y x = false → x = y.
Proof.
  destruct x as [[[r p] e] t], y as [[[r' p'] e'] t']. simpl. intros H1 H2. lex_cases.
  rewrite ltb_false_le in *. f_equal. by apply (anti_symm String.le).
Qed.

Lemma grace_key_less_total x y : grace_key_less x y = false → grace_key_less y x = false → x = y.
Proof.
  destruct x as [[b e] t], y as [[b' e'] t']. simpl. intros H1 H2. lex_cases.
  rewrite ltb_false_le in *. f_equal. by apply (anti_symm String.le).
Qed.

Definition action_rank (action : string) : Z := default 0 (repairActionRank action).

Lemma supported_rank a : a ∈ supportedRepairActions → repairActionRank a = Some (action_rank a) ∧ a ≠ EmptyString.
Proof.
  intros [->%elem_of_singleton| ->%elem_of_singleton]%elem_of_union; done.
Qed.

Lemma supported_rank_inj a b : a ∈ supportedRepairActions → b ∈ supportedRepairActions →
  action_rank a = action_rank b → a = b.
Proof.
  intros [->%elem_of_singleton| ->%elem_of_singleton]%elem_of_union
         [->%elem_of_singleton| ->%elem_of_singleton]%elem_of_union; done.
Qed.

(** No action yet, or a supported one. *)
Definition wf_result (r : RepairResult) : Prop := r_Action r = EmptyString ∨ r_Action r ∈ supportedRepairActions.

Lemma mergeScore_same r rank eligibleAt now first : ∃ a b, mergeScore r rank eligibleAt now first =
  mkRepairResult (r_Action r) (r_Condition r) (r_ConditionStatus r) (r_Reason r) (r_ReasonRegex r) (r_Fallback r)
    (r_SelectedEligibleAt r) (r_TerminationGracePeriod r) (r_TerminationGracePeriodCondition r)
    (r_selectedPriority r) (r_terminationGracePeriodEligibleAt r) a b.
Proof. unfold mergeScore. destruct (_ || _); [by eexists _, _|]. destruct r. by eexists _, _. Qed.

Lemma merge_grace_period_grace notBefore r m :
  selected_grace (merge_grace_period r (m_policy m) (match_eligibleAt notBefore m)) =
  match match_grace notBefore m with
  | Some k => keep grace_key_less (selected_grace r) k
  | None => selected_grace r
  end.
Proof.
  unfold merge_grace_period, match_grace. destruct (rp_TerminationGracePeriod _) as [b|]; simpl; [|done].
  unfold shorterTerminationGracePeriod, selected_grace.
  destruct (r_TerminationGracePeriod r) as [c|] eqn:Ec; simpl; [|done].
  case_match; simpl; [done|]. by rewrite Ec.
Qed.

Lemma merge_grace_period_action r p e : r_Action (merge_grace_period r p e) = r_Action r ∧
  selected_key (merge_grace_period r p e) = selected_key r.
Proof. unfold merge_grace_period. repeat case_match; done. Qed.

(** Taking over is being better by [action_key_less]. *)
Lemma selects_spec notBefore r m : wf_result r → supported_match m →
  selects r (m_policy m) (match_eligibleAt notBefore m) (bool_decide (r_Action r = EmptyString)) =
  Some match selected_key r with Some k => action_key_less (match_key notBefore m) k | None => true end.
Proof.
  intros Hwf Hs. destruct (supported_rank _ Hs) as [Hr Hne]. unfold selects, selected_key.
  destruct Hwf as [E|Hr'].
  { rewrite (bool_decide_true _ E). simpl. by rewrite bool_decide_false by congruence. }
  destruct (supported_rank _ Hr') as [Hrr Hne']. rewrite (bool_decide_false _ Hne'). unfold IsMoreDisruptiveThan.
  rewrite Hr, Hrr. simpl. rewrite Hr. simpl. f_equal.
  destruct (bool_decide_reflect (rp_Action (cp_policy (m_policy m)) = r_Action r)) as [E|Hn].
  - by rewrite E, Z.eqb_refl.
  - destruct (Z.eqb_spec (action_rank (rp_Action (cp_policy (m_policy m)))) (action_rank (r_Action r))) as [E|]; [|done].
    by apply supported_rank_inj in E.
Qed.

Lemma mergePolicy_eligible now notBefore r m : wf_result r → supported_match m → eligible now notBefore m →
  ∃ r', mergePolicy r (m_policy m) (m_rank m) (match_eligibleAt notBefore m) now = Some r' ∧ wf_result r' ∧
    selected_key r' = keep action_key_less (selected_key r) (match_key notBefore m) ∧
    selected_grace r' = match match_grace notBefore m with
                        | Some k => keep grace_key_less (selected_grace r) k
                        | None => selected_grace r end.
Proof.
  intros Hwf Hs He. unfold mergePolicy. unfold eligible in He.
  destruct (Z.gtb_spec (match_eligibleAt notBefore m) now); [lia|].
  destruct (mergeScore_same r (m_rank m) (match_eligibleAt notBefore m) now (bool_decide (r_Action r = EmptyString)))
    as (a & b & ->).
  set (r1 := mkRepairResult _ _ _ _ _ _ _ _ _ _ _ _ _).
  destruct (merge_grace_period_action r1 (m_policy m) (match_eligibleAt notBefore m)) as [Ha Hk].
  assert (wf_result (merge_grace_period r1 (m_policy m) (match_eligibleAt notBefore m))) as Hwf1.
  { unfold wf_result. by rewrite Ha. }
  pose proof (selects_spec notBefore _ m Hwf1 Hs) as Hsel. rewrite Ha in Hsel. change (r_Action r1) with (r_Action r) in Hsel.
  rewrite Hsel. cbn [mbind option_bind]. pose proof (merge_grace_period_grace notBefore r1 m) as Hg.
  set (r2 := merge_grace_period r1 _ _) in *. change (selected_grace r1) with (selected_grace r) in Hg.
  change (selected_key r1) with (selected_key r) in Hk. rewrite Hk.
  destruct (supported_rank _ Hs) as [Hr Hne].
  eexists. split; [done|]. destruct (selected_key r) as [k|] eqn:Ek.
  - unfold keep. destruct (action_key_less (match_key notBefore m) k) eqn:El; [|split_and!; [exact Hwf1|exact Hk|exact Hg]].
    destruct (cp_Condition (m_policy m)) as [[ty st] rs] eqn:Ec. split_and!; [by right| |exact Hg].
    unfold selected_key, match_key. simpl. by rewrite bool_decide_false, Ec by done.
  - destruct (cp_Condition (m_policy m)) as [[ty st] rs] eqn:Ec. split_and!; [by right| |exact Hg].
    unfold selected_key, match_key. simpl. by rewrite bool_decide_false, Ec by done.
Qed.

Lemma eligible_dec now notBefore m : Decision (eligible now notBefore m).
Proof. unfold eligible. apply _. Defined.
#[export] Existing Instance eligible_dec.

(** The loop of [Resolve] keeps the best action and the shortest bound. *)
Lemma Resolve_loop now notBefore ms r : wf_result r → Forall supported_match ms →
  ∃ r', foldl_opt (λ r m, mergePolicy r (m_policy m) (m_rank m) (match_eligibleAt notBefore m) now) r ms = Some r' ∧
    selected_key r' = foldl (keep action_key_less) (selected_key r)
                        (match_key notBefore <$> filter (eligible now notBefore) ms) ∧
    selected_grace r' = foldl (keep grace_key_less) (selected_grace r)
                          (omap (match_grace notBefore) (filter (eligible now notBefore) ms)).
Proof.
  revert r. induction ms as [|m ms IH]; intros r Hwf Hs; [by exists r|].
  apply Forall_cons in Hs as [Hm Hs]. simpl. destruct (decide (eligible now notBefore m)) as [He|He].
  - destruct (mergePolicy_eligible now notBefore r m Hwf Hm He) as (r' & -> & Hwf' & Hk & Hg). simpl.
    destruct (IH r' Hwf' Hs) as (r'' & -> & Hk' & Hg'). exists r''. split; [done|].
    rewrite filter_cons_True by done. csimpl. rewrite Hk', Hk. split; [done|]. rewrite Hg', Hg.
    by destruct (match_grace notBefore m).
  - assert (mergePolicy r (m_policy m) (m_rank m) (match_eligibleAt notBefore m) now = Some r) as ->.
    { unfold mergePolicy. unfold eligible in He. destruct (Z.gtb_spec (match_eligibleAt notBefore m) now); [done|lia]. }
    simpl. rewrite filter_cons_False by done. by apply IH.
Qed.

Lemma Resolve_best now notBefore ms : Forall supported_match ms → ∃ r, Resolve ms now notBefore = Some r ∧
  selected_key r = best action_key_less (match_key notBefore <$> filter (eligible now notBefore) ms) ∧
  selected_grace r = best grace_key_less (omap (match_grace notBefore) (filter (eligible now notBefore) ms)).
Proof. intros Hs. apply (Resolve_loop now notBefore ms empty_result); [by left|done]. Qed.

#[export] Instance omap_Permutation_proper {A B} (f : A → option B) : Proper (Permutation ==> Permutation) (omap f).
Proof.
  intros l l' HP. induction HP as [|x l l' HP IH|x y l|l1 l2 l3 H1 IH1 H2 IH2]; csimpl; [done|..].
  - destruct (f x); [by constructor|done].
  - destruct (f x), (f y); try done. apply Permutation_swap.
  - by rewrite IH1.
Qed.

Lemma Resolve_best_Permutation now notBefore ms ms' : ms ≡ₚ ms' →
  best action_key_less (match_key notBefore <$> filter (eligible now notBefore) ms) =
  best action_key_less (match_key notBefore <$> filter (eligible now notBefore) ms') ∧
  best grace_key_less (omap (match_grace notBefore) (filter (eligible now notBefore) ms)) =
  best grace_key_less (omap (match_grace notBefore) (filter (eligible now notBefore) ms')).
Proof.
  intros HP. split; apply best_Permutation; try (by rewrite HP);
    auto using action_key_less_asym, action_key_less_total, grace_key_less_asym, grace_key_less_total.
  - apply action_key_less_trans.
  - apply grace_key_less_trans.
Qed.

(** ** A compiled policy set is usable *)

Definition valid_compiled (c : compiledPolicy) : Prop :=
  (∃ i, validateRepairPolicy i (cp_policy c) supportedRepairActions = []) ∧
  (rp_ReasonRegex (cp_policy c) ≠ EmptyString → is_Some (cp_reasonRegex c)).

Definition valid_matcher (p : RepairPolicyMatcher) : Prop :=
  (∀ key l c, groups p !! key = Some l → c ∈ l → valid_compiled c ∧ rp_ReasonRegex (cp_policy c) ≠ EmptyString) ∧
  valid_compiled (fallbackPolicy p) ∧ rp_Action (cp_policy (fallbackPolicy p)) = ReplaceNode.

Section compiled.
  Context (Compile : string → option Regexp).

Definition valid_state (st : gmap (string * string) (list compiledPolicy) * option compiledPolicy) : Prop :=
  (∀ key l c, st.1 !! key = Some l → c ∈ l → valid_compiled c ∧ rp_ReasonRegex (cp_policy c) ≠ EmptyString) ∧
  (∀ f, st.2 = Some f → valid_compiled f).

Lemma compileRepairPolicy_valid i policy c :
  compileRepairPolicy Compile i policy supportedRepairActions = (c, []) → valid_compiled c ∧ cp_policy c = policy.
Proof.
  unfold compileRepairPolicy. destruct (compileRepairPolicyReasonRegex Compile i policy) as [r e] eqn:E.
  intros [= <- [Hv ->]%app_eq_nil]. split; [|done]. split; [by exists i|]. simpl. intros Hne.
  unfold compileRepairPolicyReasonRegex in E. rewrite bool_decide_false in E by done.
  destruct (Compile _); by injection E as <-.
Qed.

Lemma compile_step_valid groups fallback i policy groups' fallback' :
  compile_step Compile supportedRepairActions (groups, fallback, []) i policy = (groups', fallback', []) →
  valid_state (groups, fallback) → valid_state (groups', fallback').
Proof.
  unfold compile_step. destruct (compileRepairPolicy _ _ _ _) as [c err] eqn:Ec. intros H [Hg Hf].
  set (key := (rp_ConditionType policy, rp_ConditionStatus policy)) in *.
  assert (∀ key' l' x, <[key := default [] (groups !! key)]> groups !! key' = Some l' → x ∈ l' →
     valid_compiled x ∧ rp_ReasonRegex (cp_policy x) ≠ EmptyString) as Hg'.
  { intros key' l' x Hl Hx. apply lookup_insert_Some in Hl as [[<- <-]|[_ Hl]]; [|by eapply Hg].
    destruct (groups !! key) eqn:Ek; [|by apply not_elem_of_nil in Hx]. by eapply Hg. }
  destruct (bool_decide_reflect (rp_ReasonRegex policy = EmptyString)) as [_|Hne].
  - destruct fallback as [f|]; simplify_eq/=.
    + by destruct err.
    + apply compileRepairPolicy_valid in Ec as [Hc _]. split; [exact Hg'|]. by intros f [= <-].
  - simplify_eq/=. apply compileRepairPolicy_valid in Ec as [Hc Hp]. split; [|exact Hf]. simpl.
    intros key' l' x Hl Hx. apply lookup_insert_Some in Hl as [[<- <-]|[_ Hl]]; [|by eapply Hg].
    apply elem_of_app in Hx as [Hx|Hx%list_elem_of_singleton]; [|subst x; split; [done|by rewrite Hp]].
    destruct (groups !! key) eqn:Ek; [|by apply not_elem_of_nil in Hx]. by eapply Hg.
Qed.

Lemma compile_step_errors st i policy errs' groups' fallback' :
  compile_step Compile supportedRepairActions st i policy = (groups', fallback', errs') → errs' = [] → st.2 = [].
Proof.
  destruct st as [[g f] e]. unfold compile_step. destruct (compileRepairPolicy _ _ _ _) as [c err].
  intros H ->. simpl. destruct (bool_decide _); [destruct f|]; simplify_eq/=;
    repeat match goal with H : _ ++ _ = [] |- _ => apply app_eq_nil in H as [? ?] end; done.
Qed.

Lemma compile_loop_errors policies i st groups' fallback' :
  compile_loop Compile supportedRepairActions st i policies = (groups', fallback', []) → st.2 = [].
Proof.
  revert i st. induction policies as [|policy rest IH]; intros i st H; simpl in H; [by subst st|].
  apply IH in H. destruct (compile_step _ _ st i policy) as [[g f] e] eqn:E. simpl in H. by eapply compile_step_errors.
Qed.

Lemma compile_loop_valid policies i groups fallback groups' fallback' :
  compile_loop Compile supportedRepairActions (groups, fallback, []) i policies = (groups', fallback', []) →
  valid_state (groups, fallback) → valid_state (groups', fallback').
Proof.
  revert i groups fallback. induction policies as [|policy rest IH]; intros i g f H Hv; cbn [compile_loop] in H; [by simplify_eq|].
  pose proof (compile_loop_errors _ _ _ _ _ H) as He.
  destruct (compile_step Compile supportedRepairActions (g, f, []) i policy) as [[g1 f1] e1] eqn:E. simpl in He. subst e1.
  eapply IH; [exact H|]. by eapply compile_step_valid.
Qed.

Lemma newRepairPolicyMatcher_valid policies p :
  newRepairPolicyMatcher Compile policies supportedRepairActions = Ok p → valid_matcher p.
Proof.
  unfold newRepairPolicyMatcher. destruct (compile_loop _ _ _ _ _) as [[g f] e] eqn:E.
  destruct f as [f|]; [|done]. destruct (bool_decide_reflect (rp_Action (cp_policy f) = ReplaceNode)) as [Ha|]; [|by destruct e].
  destruct e; [|done]. intros [= <-]. apply compile_loop_valid in E as [Hg Hf]; [|split; [|done]; intros key l c Hk; simpl in Hk; by rewrite lookup_empty in Hk].
  split_and!; simpl; [exact Hg|by apply Hf|done].
Qed.
End compiled.

Lemma valid_supported c : valid_compiled c → rp_Action (cp_policy c) ∈ supportedRepairActions.
Proof.
  intros [[i Hv] _]. unfold validateRepairPolicy in Hv.
  repeat match type of Hv with _ ++ _ = [] => apply app_eq_nil in Hv as [? Hv] end.
  destruct (bool_decide_reflect (rp_Action (cp_policy c) ∈ supportedRepairActions)); done.
Qed.

Lemma matching_policies_total reason l :
  (∀ c, c ∈ l → is_Some (cp_reasonRegex c)) → ∃ ms, matching_policies reason l = Some ms ∧ ms ⊆ l.
Proof.
  induction l as [|c l IH]; intros Hl; simpl; [by exists []|].
  destruct (Hl c) as [r ->]; [by left|]. destruct IH as (ms & -> & Hms); [intros; apply Hl; by right|].
  simpl. eexists. split; [done|]. destruct (r reason); set_solver.
Qed.

Lemma match_condition_total p created c : valid_matcher p →
  ∃ ms, match_condition p created c = Some ms ∧ Forall supported_match ms.
Proof.
  intros (Hg & Hf & _). unfold match_condition. destruct (groups p !! _) as [l|] eqn:E; [|by exists []].
  destruct (matching_policies_total (mc_reason c) l) as (ms & -> & Hms).
  { intros x Hx. destruct (Hg _ _ _ E Hx) as [[_ Hr] Hne]. auto. }
  simpl. eexists. split; [done|]. apply Forall_fmap, Forall_forall. intros x Hx. apply valid_supported.
  assert (valid_compiled x) as [Hv Hr]; [|by split].
  destruct ms as [|y ms]; [apply list_elem_of_singleton in Hx as ->; done|]. by eapply Hg; [|apply Hms].
Qed.

Lemma match_conditions_total p created cs : valid_matcher p →
  ∃ ms, match_conditions p created cs = Some ms ∧ Forall supported_match ms.
Proof.
  intros Hp. induction cs as [|c cs (ms' & E & Hs')]; simpl; [by exists []|].
  destruct (match_condition_total p created c Hp) as (ms & -> & Hs). rewrite E. simpl.
  eexists. split; [done|]. by apply Forall_app.
Qed.

Lemma match_conditions_Permutation p created cs cs' : valid_matcher p → cs ≡ₚ cs' →
  ∃ ms ms', match_conditions p created cs = Some ms ∧ match_conditions p created cs' = Some ms' ∧ ms ≡ₚ ms'.
Proof.
  intros Hp HP. induction HP as [|c cs cs' HP (ms & ms' & E & E' & H)|c c' cs|cs1 cs2 cs3 H1 (a & b & Ea & Eb & Hab) H2 (a' & b' & Ea' & Eb' & Hab')]; simpl.
  - by exists [], [].
  - destruct (match_condition_total p created c Hp) as (m & -> & _). rewrite E, E'. simpl.
    eexists _, _. split_and!; [done..|]. by rewrite H.
  - destruct (match_condition_total p created c Hp) as (m & -> & _), (match_condition_total p created c' Hp) as (m' & -> & _).
    destruct (match_conditions_total p created cs Hp) as (ms & -> & _). simpl.
    eexists _, _. split_and!; [done..|]. by rewrite !app_assoc, (Permutation_app_comm m').
  - exists a, b'. split_and!; [done..|]. rewrite Hab. rewrite Eb in Ea'. by injection Ea' as ->.
Qed.

(** C31: a validated policy set never panics while a node is examined, and the repair
    decided for it, its source and the bound on its drain do not depend on the
    order of the node's conditions. *)
Theorem repair_decision_order_independent Compile policies p n n' now notBefore :
  newRepairPolicyMatcher Compile policies supportedRepairActions = Ok p →
  node_CreationTimestamp n = node_CreationTimestamp n' → node_Conditions n ≡ₚ node_Conditions n' →
  ∃ ms ms' r r', Match p n = Some ms ∧ Match p n' = Some ms' ∧
    Resolve ms now notBefore = Some r ∧ Resolve ms' now notBefore = Some r' ∧
    selected_key r = selected_key r' ∧ selected_grace r = selected_grace r'.
Proof.
  intros Hp%newRepairPolicyMatcher_valid Hc HP. unfold Match, matchCreated. rewrite <-Hc.
  destruct (match_conditions_Permutation p (node_CreationTimestamp n) (newMatchCondition <$> node_Conditions n)
    (newMatchCondition <$> node_Conditions n') Hp) as (ms & ms' & E & E' & H); [by rewrite HP|].
  destruct (match_conditions_total p (node_CreationTimestamp n) (newMatchCondition <$> node_Conditions n) Hp) as (? & E1 & Hs).
  rewrite E in E1. injection E1 as <-.
  destruct (Resolve_best now notBefore ms Hs) as (r & Er & Hk & Hg).
  destruct (Resolve_best now notBefore ms') as (r' & Er' & Hk' & Hg'); [by rewrite <-H|].
  destruct (Resolve_best_Permutation now notBefore ms ms' H) as [Eq1 Eq2].
  exists ms, ms', r, r'. rewrite Hk, Hk', Hg, Hg'. done.
Qed.

Lemma action_key_less_rank k k' : action_key_less k k' = false → k.1.1.1 ≤ k'.1.1.1.
Proof. destruct k as [[[r p] e] t], k' as [[[r' p'] e'] t']. simpl. intros H. lex_cases. Qed.

Lemma grace_key_less_bound k k' : grace_key_less k k' = false → k'.1.1 ≤ k.1.1.
Proof. destruct k as [[b e] t], k' as [[b' e'] t']. simpl. intros H. lex_cases. Qed.

(** The decision over supported policies: some action exactly when some match has
    waited out its toleration, none of these more disruptive than it; and the drain
    bounded by the shortest of their grace periods, when they have any. *)
Theorem Resolve_spec now notBefore ms : Forall supported_match ms → ∃ r, Resolve ms now notBefore = Some r ∧
  (r_Action r ≠ EmptyString ↔ ∃ m, m ∈ ms ∧ eligible now notBefore m) ∧
  (∀ m, m ∈ ms → eligible now notBefore m →
    action_rank (rp_Action (cp_policy (m_policy m))) ≤ action_rank (r_Action r) ∧
    ∀ b, rp_TerminationGracePeriod (cp_policy (m_policy m)) = Some b →
      ∃ b', r_TerminationGracePeriod r = Some b' ∧ b' ≤ b) ∧
  (∀ b, r_TerminationGracePeriod r = Some b → ∃ m, m ∈ ms ∧ eligible now notBefore m ∧
    rp_TerminationGracePeriod (cp_policy (m_policy m)) = Some b).
Proof.
  intros Hs. destruct (Resolve_best now notBefore ms Hs) as (r & Er & Hk & Hg). exists r. split; [done|].
  unfold selected_key in Hk. split_and!.
  - split.
    + intros Hne. rewrite bool_decide_false in Hk by done. symmetry in Hk.
      destruct (filter (eligible now notBefore) ms) as [|m l] eqn:E; [done|]. exists m.
      assert (m ∈ filter (eligible now notBefore) ms) as [? ?]%list_elem_of_filter by (rewrite E; by left). done.
    + intros (m & Hm & He) E. rewrite bool_decide_true in Hk by done. symmetry in Hk. apply best_None in Hk.
      apply fmap_nil_inv in Hk. apply (not_elem_of_nil m). rewrite <-Hk. by apply list_elem_of_filter.
  - intros m Hm He. assert (m ∈ filter (eligible now notBefore) ms) as Hin by (by apply list_elem_of_filter). split.
    + case_bool_decide as Ha.
      * symmetry in Hk. apply best_None, fmap_nil_inv in Hk. rewrite Hk in Hin. by apply not_elem_of_nil in Hin.
      * symmetry in Hk. apply best_spec in Hk as [_ Hmin]; [|apply action_key_less_asym|apply action_key_less_trans].
        apply (action_key_less_rank _ _ (Hmin (match_key notBefore m) (list_elem_of_fmap_2 _ _ _ Hin))).
    + intros b Hb. unfold selected_grace in Hg.
      assert ((b, match_eligibleAt notBefore m, (cp_Condition (m_policy m)).1.1) ∈
        omap (match_grace notBefore) (filter (eligible now notBefore) ms)) as Hin'.
      { apply list_elem_of_omap. exists m. unfold match_grace. by rewrite Hb. }
      destruct (r_TerminationGracePeriod r) as [b'|]; simpl in Hg; symmetry in Hg.
      * exists b'. split; [done|]. apply best_spec in Hg as [_ Hmin]; [|apply grace_key_less_asym|apply grace_key_less_trans].
        apply (grace_key_less_bound _ _ (Hmin _ Hin')).
      * apply best_None in Hg. rewrite Hg in Hin'. by apply not_elem_of_nil in Hin'.
  - intros b Hb. unfold selected_grace in Hg. rewrite Hb in Hg. simpl in Hg. symmetry in Hg.
    apply best_spec in Hg as [Hin _]; [|apply grace_key_less_asym|apply grace_key_less_trans].
    apply list_elem_of_omap in Hin as (m & [He Hm]%list_elem_of_filter & Hmg). exists m. split_and!; [done..|].
    unfold match_grace in Hmg. destruct (rp_TerminationGracePeriod _); by simplify_eq/=.
Qed.

(** ** Cached matches and ranks *)

Lemma conditions_equal_spec a b : length a = length b →
  conditions_equal a b = true ↔ newMatchCondition <$> a = newMatchCondition <$> b.
Proof.
  revert b. induction a as [|x a IH]; intros [|y b] Hl; try done. csimpl. simpl in Hl.
  destruct (bool_decide_reflect (newMatchCondition x = newMatchCondition y)) as [E|Hn]; cbn [negb].
  - rewrite IH by lia. split; [by intros ->; f_equal|intros H; exact (f_equal tail H)].
  - split; [done|]. intros H. destruct Hn. apply (inj Some), (f_equal head H).
Qed.

(** [MatchInputsEqual] compares all that matching reads: the matches kept for a
    node stay valid as long as it answers true. *)
Theorem MatchInputsEqual_sound p a b : MatchInputsEqual a b = true → Match p a = Match p b.
Proof.
  unfold MatchInputsEqual, Match. destruct (Z.eqb_spec (matchCreated a) (matchCreated b)) as [->|]; [|done].
  case_bool_decide as Hl; simpl; [|done]. intros H%conditions_equal_spec; [|done]. by rewrite H.
Qed.

Lemma unique_priorities_spec policies : Sorted Z.le (unique_priorities policies) ∧ NoDup (unique_priorities policies) ∧
  ∀ x, x ∈ unique_priorities policies ↔ x ∈ rp_Priority <$> policies.
Proof.
  unfold unique_priorities. split_and!.
  - apply Sorted_merge_sort. intros x y. apply Z.le_total.
  - rewrite merge_sort_Permutation. apply NoDup_elements.
  - intros x. by rewrite merge_sort_Permutation, elem_of_elements, elem_of_list_to_set.
Qed.

Lemma denseRanks_lookup policies x : x ∈ rp_Priority <$> policies →
  ∃ i, denseRanks policies !! x = Some (Z.of_nat i) ∧ unique_priorities policies !! i = Some x.
Proof.
  destruct (unique_priorities_spec policies) as (_ & Hnd & Hel). intros Hx%Hel.
  apply list_elem_of_lookup in Hx as [i Hi]. exists i. split; [|done]. unfold denseRanks.
  apply elem_of_list_to_map_1.
  - assert ((imap (λ rank priority, (priority, Z.of_nat rank)) (unique_priorities policies)).*1 = unique_priorities policies) as ->; [|done].
    rewrite fmap_imap. apply list_eq. intros k. rewrite list_lookup_imap. by destruct (_ !! k).
  - apply list_elem_of_lookup. exists i. by rewrite list_lookup_imap, Hi.
Qed.

(** Ranks order policies as their priorities do, without gaps: they are the
    positions of the priorities among the distinct ones in use. *)
Theorem denseRanks_order policies x y : x ∈ rp_Priority <$> policies → y ∈ rp_Priority <$> policies →
  ∃ i j, denseRanks policies !! x = Some i ∧ denseRanks policies !! y = Some j ∧ (x < y ↔ i < j) ∧
    0 ≤ i < Z.of_nat (length (unique_priorities policies)).
Proof.
  intros Hx Hy. destruct (unique_priorities_spec policies) as (Hs & Hnd & _).
  destruct (denseRanks_lookup policies x Hx) as (i & -> & Hi), (denseRanks_lookup policies y Hy) as (j & -> & Hj).
  eexists _, _. split_and!; [done..| |lia|apply inj_lt; by eapply lookup_lt_Some].
  apply Sorted_StronglySorted in Hs; [|intros ???; lia].
  assert (∀ i j x y, unique_priorities policies !! i = Some x → unique_priorities policies !! j = Some y →
    (i < j)%nat → x < y) as Hlt.
  { clear i j Hi Hj x y Hx Hy. intros i j x y Hi Hj Hlt.
    assert (x ≤ y) by (by eapply (StronglySorted_lookup _ _ i j)).
    assert (x ≠ y); [|lia]. intros ->. pose proof (NoDup_lookup _ _ _ _ Hnd Hi Hj). lia. }
  destruct (lt_eq_lt_dec i j) as [[Hij|<-]|Hij].
  - split; [lia|]. intros _. by eapply Hlt.
  - rewrite Hi in Hj. injection Hj as <-. lia.
  - pose proof (Hlt _ _ _ _ Hj Hi Hij). lia.
Qed.
