(* ===== verification/Requirements.v ===== *)
(** * Requirements: sets of label requirements (pkg/scheduling/requirements.go)

    A map from label key to requirement.  [Add] intersects per key, [Intersects]
    and [Compatible] decide whether the requirements of a node and of a pod can
    be met together, and [NodeSelectorRequirements] serialises the map. *)

From S2P Require Import Prelude Labels Requirement Objects.

Abbreviation Requirements := (gmap string Requirement).

Inductive podRequirementType := podRequirementTypeAll | podRequirementTypeRequiredOnly.

(** The errors of [Compatible]: an undefined label with its hint, or a key whose
    two requirements have no common value. *)
Inductive compatible_error :=
| UndefinedLabel (key : string) (hint : string)
| badKeyError (key : string) (incoming existing : Requirement).

(** [Operator] is NotIn or DoesNotExist: the label may be absent. *)
Definition absent_ok (r : Requirement) : bool :=
  bool_decide (Operator r = OpNotIn) || bool_decide (Operator r = OpDoesNotExist).

Section requirements.
  Context `{LR : LabelRegistry}.

Definition Requirements_Has (r : Requirements) (key : string) : bool :=
  bool_decide (is_Some (r !! key)).

Definition Get (r : Requirements) (key : string) : Requirement :=
  match r !! key with
  | Some req => req
  | None => simple_requirement key OpExists None
  end.

Definition Add1 (r : Requirements) (requirement : Requirement) : Requirements :=
  let requirement := match r !! Key requirement with
                     | Some existing => Intersection requirement existing
                     | None => requirement
                     end in
  <[Key requirement := requirement]> r.

Definition Add (r : Requirements) (requirements : list Requirement) : Requirements :=
  foldl Add1 r requirements.

Definition NewRequirements (requirements : list Requirement) : Requirements :=
  Add ∅ requirements.

Definition NewNodeSelectorRequirementsWithMinValues
    (requirements : list NodeSelectorRequirementWithMinValues) : option Requirements :=
  foldl_opt (λ r q,
    req ← NewRequirementWithFlexibility (nsr_Key q) (nsr_Operator q) (nsr_MinValues q) (nsr_Values q);
    Some (Add1 r req)) (NewRequirements []) requirements.

Definition NewNodeSelectorRequirements (requirements : list CoreNodeSelectorRequirement)
    : option Requirements :=
  foldl_opt (λ r q,
    req ← NewRequirementWithFlexibility (cnsr_Key q) (cnsr_Operator q) None (cnsr_Values q);
    Some (Add1 r req)) (NewRequirements []) requirements.

Definition NewLabelRequirements (labels : gmap string string) : Requirements :=
  Add ∅ ((λ kv, let key := normalize_key kv.1 in
                mkRequirement key false (list_to_set (normalize_values key [kv.2]))
                  None None None None) <$> map_to_list labels).

Definition Values (r : Requirements) : list Requirement := (map_to_list r).*2.

Definition Keys (r : Requirements) : gset string := dom r.

  (** Preferences are sorted by decreasing weight and the first one is taken. *)
Definition heaviest_first (a b : PreferredSchedulingTerm) : bool := (Weight a >? Weight b)%Z.

Definition newPodRequirements (pod : Pod) (typ : podRequirementType) : option Requirements :=
  let requirements := NewLabelRequirements (pod_NodeSelector pod) in
  match pod_Affinity pod ≫= NodeAffinity with
  | None => Some requirements
  | Some na =>
      requirements ←
        match typ, sort_by heaviest_first (PreferredTerms na) with
        | podRequirementTypeAll, preferred :: _ =>
            rs ← NewNodeSelectorRequirements (Preference preferred);
            Some (Add requirements (Values rs))
        | _, _ => Some requirements
        end;
      match RequiredTerms na with
      | Some (term :: _) =>
          rs ← NewNodeSelectorRequirements term;
          Some (Add requirements (Values rs))
      | _ => Some requirements
      end
  end.

Definition NewPodRequirements (pod : Pod) : option Requirements :=
  newPodRequirements pod podRequirementTypeAll.
Definition NewStrictPodRequirements (pod : Pod) : option Requirements :=
  newPodRequirements pod podRequirementTypeRequiredOnly.

Definition HasPreferredNodeAffinity (p : option Pod) : bool :=
  match (p ≫= pod_Affinity) ≫= NodeAffinity with
  | Some na => (0 <? length (PreferredTerms na))%nat
  | None => false
  end.

Definition NodeSelectorRequirements (r : Requirements)
    : list NodeSelectorRequirementWithMinValues :=
  concat ((λ req, match BoundedNodeSelectorRequirements req with
                  | Some both => both
                  | None => [NodeSelectorRequirement req]
                  end) <$> Values r).

Definition getSuffix (key : string) : string :=
  let '(before, after, found) := CutSlash key in if found then after else before.

Definition labelHint (r : Requirements) (key : string) (allowedUndefined : gset string) : string :=
  let typo s := Contains s key || HasSuffix s (getSuffix key) in
  match List.find typo (elements allowedUndefined ++ (map_to_list r).*1) with
  | Some s => " (typo of " +:+ s +:+ "?)"
  | None => EmptyString
  end.

Definition intersectKeys (r rhs : Requirements) : list string :=
  let '(smallest, largest) := if (size rhs <? size r)%nat then (rhs, r) else (r, rhs) in
  filter (λ key, is_Some (largest !! key)) (map_to_list smallest).*1.

Definition Intersects (r requirements : Requirements) : list compatible_error :=
  omap (λ key,
    let existing := Get r key in
    let incoming := Get requirements key in
    if HasIntersection existing incoming then None
    else if absent_ok incoming && absent_ok existing then None
    else Some (badKeyError key incoming existing)) (intersectKeys r requirements).

Definition Compatible (r requirements : Requirements) (allowUndefined : gset string)
    : list compatible_error :=
  let undefined key := negb (bool_decide (key ∈ allowUndefined))
                       && negb (Requirements_Has r key || absent_ok (Get requirements key)) in
  match List.find undefined (map_to_list requirements).*1 with
  | Some key => [UndefinedLabel key (labelHint r key allowUndefined)]
  | None => Intersects r requirements
  end.

Definition IsCompatible (r requirements : Requirements) (allowUndefined : gset string) : bool :=
  match Compatible r requirements allowUndefined with [] => true | _ => false end.

Definition HasMinValues (r : Requirements) : bool :=
  map_existsb (λ _ req, bool_decide (is_Some (minValues req))) r.

Definition Requirements_String (r : Requirements) : string :=
  let shown := filter (λ req, ¬ (Key req ∈ RestrictedLabels)) (Values r) in
  Join (merge_sort String.le ((λ req, (String_ req).1) <$> shown)) ", ".
End requirements.

(** ** Well-formed requirement maps

    A requirement as the code builds it has machine bounds that do not
    contradict each other, and none at all when it is a concrete set; a map
    files it under its own, normalised key. *)

Definition requirement_wf (r : Requirement) : Prop :=
  bounds_wf r ∧ bounds_conflict (gte r) (lte r) = false ∧
  (complement r = false → gte r = None ∧ lte r = None).

Section requirements_wf.
  Context `{LR : LabelRegistry}.

Definition key_normal (r : Requirement) : Prop := normalize_key (Key r) = Key r.

Definition requirements_wf (r : Requirements) : Prop :=
  ∀ k req, r !! k = Some req → Key req = k ∧ key_normal req ∧ requirement_wf req.

Lemma bounds_conflict_single (g l : option Z) :
  g = None ∨ l = None → bounds_conflict g l = false.
Proof. destruct g, l; naive_solver. Qed.

Lemma simple_requirement_wf key op mv : requirement_wf (simple_requirement key op mv).
Proof. repeat split. Qed.

Lemma NewRequirement_wf key op mv vals req :
  NewRequirementWithFlexibility key op mv vals = Some req → requirement_wf req.
Proof.
  intros H. split; [by eapply NewRequirement_bounds_wf|].
  unfold NewRequirementWithFlexibility in H.
  destruct op; simpl in H; try (destruct (_ !! 0%nat) as [w|]; simpl in H; [|done]);
    repeat case_match; simplify_eq/=; done.
Qed.

Lemma Intersection_wf r q : requirement_wf r → requirement_wf q → requirement_wf (Intersection r q).
Proof.
  intros (Hr & _) (Hq & _). split; [auto with karpenter|].
  unfold Intersection. destruct (bounds_conflict (maxIntPtr _ _) _) eqn:E; [by repeat split|].
  by destruct (complement r && complement q).
Qed.

Lemma Intersection_Key r q : key_normal r → Key (Intersection r q) = Key r.
Proof.
  intros H. unfold Intersection. destruct (bounds_conflict _ _); [exact H|].
  by destruct (complement r && complement q).
Qed.

Lemma NewRequirement_key_normal `{!StableRegistry} key op mv vals req :
  NewRequirementWithFlexibility key op mv vals = Some req →
  Key req = normalize_key key ∧ key_normal req.
Proof.
  intros HN. assert (Key req = normalize_key key) as HK.
  { unfold NewRequirementWithFlexibility  in HN.
    destruct op; simpl in HN; try (destruct (_ !! 0%nat) as [w|]; simpl in HN; [|done]);
      repeat case_match; simplify_eq/=; try done; by rewrite normalize_key_idemp. }
  split; [done|]. unfold key_normal. by rewrite HK, normalize_key_idemp.
Qed.

Lemma Add1_lookup r q k :
  key_normal q →
  Add1 r q !! k = if decide (Key q = k)
                  then Some (match r !! k with Some e => Intersection q e | None => q end)
                  else r !! k.
Proof.
  intros Hq. unfold Add1. destruct (r !! Key q) as [e|] eqn:E.
  - rewrite Intersection_Key by done. rewrite lookup_insert. case_decide; [subst|done].
    by rewrite E.
  - rewrite lookup_insert. case_decide; [subst|done]. by rewrite E.
Qed.

Lemma Add1_wf r q :
  key_normal q → requirement_wf q → requirements_wf r → requirements_wf (Add1 r q).
Proof.
  intros Hk Hq Hr k req. rewrite Add1_lookup by done. case_decide; [subst|apply Hr].
  destruct (r !! Key q) as [e|] eqn:E; intros [= <-]; [|done].
  destruct (Hr _ _ E) as (? & ? & ?). unfold key_normal. rewrite Intersection_Key by done.
  split_and!; [done|done|by apply Intersection_wf].
Qed.

Lemma Get_insert r q k v :
  key_normal q → Has (Get (Add1 r q) k) v =
    Has (Get r k) v && (negb (bool_decide (Key q = k)) || Has q v).
Proof.
  intros Hq. unfold Get. rewrite Add1_lookup by done.
  destruct (decide (Key q = k)) as [->|Hne].
  - rewrite bool_decide_eq_true_2 by done; simpl.
    destruct (r !! k); rewrite ?Intersection_allows, ?Has_Exists; btauto.
  - rewrite bool_decide_eq_false_2 by done; simpl. by rewrite andb_true_r.
Qed.

Lemma Add_Has r qs k v :
  Forall key_normal qs →
  Has (Get (Add r qs) k) v =
    Has (Get r k) v && forallb (λ q, negb (bool_decide (Key q = k)) || Has q v) qs.
Proof.
  revert r. induction qs as [|q qs IH]; intros r Hqs; simpl; [by rewrite andb_true_r|].
  apply Forall_cons_1 in Hqs as [Hq Hqs]. rewrite IH by done. rewrite Get_insert by done.
  by rewrite andb_assoc.
Qed.

(** Adding requirements intersects per key: under a key the result allows
    exactly the values that the previous requirement (anything, if there was
    none) and every added requirement with that key allow. *)
Theorem Add_denotes r qs k v :
  Forall key_normal qs →
  Has (Get (Add r qs) k) v =
    Has (Get r k) v && forallb (λ q, negb (bool_decide (Key q = k)) || Has q v) qs.
Proof. apply Add_Has. Qed.

Lemma Add_wf r qs :
  Forall key_normal qs → Forall requirement_wf qs → requirements_wf r →
  requirements_wf (Add r qs).
Proof.
  revert r. induction qs as [|q qs IH]; intros r; simpl; [done|].
  intros [? ?]%Forall_cons_1 [? ?]%Forall_cons_1 ?. apply IH; auto using Add1_wf.
Qed.

Lemma Add_dom r qs : Forall key_normal qs → dom (Add r qs) = dom r ∪ list_to_set (Key <$> qs).
Proof.
  revert r. induction qs as [|q qs IH]; intros r Hqs; simpl; [set_solver|].
  apply Forall_cons_1 in Hqs as [Hq Hqs]. rewrite IH by done.
  assert (dom (Add1 r q) = {[Key q]} ∪ dom r) as ->; [|set_solver].
  apply set_eq. intros k. rewrite elem_of_dom, Add1_lookup by done.
  rewrite elem_of_union, elem_of_singleton, elem_of_dom.
  case_decide; naive_solver.
Qed.

(** The order in which requirements are added does not matter: same keys, same
    allowed values. *)
Lemma Add_permutation r qs qs' k v :
  Forall key_normal qs → qs ≡ₚ qs' →
  dom (Add r qs) = dom (Add r qs') ∧ Has (Get (Add r qs) k) v = Has (Get (Add r qs') k) v.
Proof.
  intros Hn HP. assert (Forall key_normal qs') as Hn' by by rewrite <-HP. split.
  - rewrite !Add_dom by done. apply set_eq. intros x.
    rewrite !elem_of_union, !elem_of_list_to_set. by rewrite HP.
  - rewrite !Add_Has by done. f_equal. apply eq_true_iff_eq.
    rewrite !forallb_elem_of. by setoid_rewrite HP.
Qed.
End requirements_wf.

(** ** What compatibility means for labels

    A label map satisfies a requirement when the label's value is allowed, or
    when the label is absent and the operator is NotIn or DoesNotExist. *)

Definition label_satisfies (labels : gmap string string) (k : string) (req : Requirement) : bool :=
  match labels !! k with Some v => Has req v | None => absent_ok req end.

Definition labels_satisfy (labels : gmap string string) (r : Requirements) : Prop :=
  ∀ k req, r !! k = Some req → label_satisfies labels k req = true.

Section compatibility.
  Context `{LR : LabelRegistry}.

Lemma elem_of_intersectKeys (r q : Requirements) k :
  k ∈ intersectKeys r q ↔ is_Some (r !! k) ∧ is_Some (q !! k).
Proof.
  unfold intersectKeys. assert (∀ m : Requirements, k ∈ (map_to_list m).*1 ↔ is_Some (m !! k)) as Hk.
  { intros m. rewrite list_elem_of_fmap. split.
    - intros ([k' v] & -> & Hin%elem_of_map_to_list). eauto.
    - intros [v Hv]. exists (k, v). by rewrite elem_of_map_to_list. }
  destruct (_ <? _)%nat; rewrite list_elem_of_filter, Hk; tauto.
Qed.

Lemma Intersects_nil r q :
  Intersects r q = [] ↔
  ∀ k a b, r !! k = Some a → q !! k = Some b →
    HasIntersection a b = true ∨ (absent_ok a = true ∧ absent_ok b = true).
Proof.
  unfold Intersects. rewrite <-Forall_nil_omap. split.
  - intros Hnil k a b Ha Hb.
    assert (k ∈ intersectKeys r q) as Hk by (apply elem_of_intersectKeys; eauto).
    apply (Hnil k) in Hk. unfold Get in Hk. rewrite Ha, Hb in Hk.
    destruct (HasIntersection a b); [by left|]. right.
    destruct (absent_ok a), (absent_ok b); simpl in Hk; done.
  - intros Hall k Hk. apply elem_of_intersectKeys in Hk as [[a Ha] [b Hb]].
    unfold Get. rewrite Ha, Hb.
    destruct (Hall k a b Ha Hb) as [->|[-> ->]]; [done|by destruct (HasIntersection a b)].
Qed.

(** A well-formed requirement can be met on its own. *)
Lemma requirement_satisfiable r :
  requirement_wf r → absent_ok r = true ∨ ∃ v, Has r v = true.
Proof.
  intros (Hwf & Hc & Hconc). destruct (HasIntersection r r) eqn:E.
  - right. apply HasIntersection_inhabited in E as (v & ? & _); eauto.
  - left. unfold absent_ok. rewrite orb_true_iff, !bool_decide_eq_true. right.
    assert (complement r = false) as Hr.
    { destruct (complement r) eqn:Cr; [|done]. unfold HasIntersection in E.
      rewrite Cr in E; simpl in E.
      assert (maxIntPtr (gte r) (gte r) = gte r) as Hg.
      { destruct (gte r) as [x|]; simpl; [|done]. by destruct (x >? x)%Z. }
      assert (minIntPtr (lte r) (lte r) = lte r) as Hl.
      { destruct (lte r) as [x|]; simpl; [|done]. by destruct (x <? x)%Z. }
      by rewrite Hg, Hl, Hc in E. }
    destruct (Hconc Hr) as [Hg Hl]. unfold HasIntersection in E. rewrite Hr, Hg, Hl in E; simpl in E.
    assert (values r = ∅) as Hv.
    { apply set_eq. intros x. split; [|set_solver]. intros Hx. exfalso.
      assert (set_existsb (λ v, bool_decide (v ∈ values r) && true) (values r) = true) as HT; [|congruence].
      apply set_existsb_spec. exists x. by rewrite bool_decide_eq_true_2. }
    unfold Operator, Len. rewrite Hr, Hv. done.
Qed.

(** C37: [Intersects] decides joint satisfiability: for well-formed requirement
    maps it reports no error exactly when some assignment of label values (or
    absence of labels) satisfies both maps at once. *)
Theorem Intersects_iff_labels r q :
  requirements_wf r → requirements_wf q →
  Intersects r q = [] ↔ ∃ labels, labels_satisfy labels r ∧ labels_satisfy labels q.
Proof.
  intros Hr Hq. rewrite Intersects_nil. split.
  - intros Hall.
    destruct (finite_map_choice (dom r ∪ dom q) (λ k (o : option string),
      ∀ req, (r !! k = Some req ∨ q !! k = Some req) →
        match o with Some v => Has req v | None => absent_ok req end = true)) as [L HL].
    + intros k _. destruct (r !! k) as [a|] eqn:Ha, (q !! k) as [b|] eqn:Hb.
      * destruct (Hr _ _ Ha) as (_ & _ & Wa & _), (Hq _ _ Hb) as (_ & _ & Wb & _).
        destruct (Hall k a b Ha Hb) as [(v & ? & ?)%HasIntersection_inhabited|[? ?]];
          [exists (Some v)|done..|exists None]; intros req [[= <-]|[= <-]]; done.
      * destruct (requirement_satisfiable a) as [?|[v ?]]; [by eapply Hr|exists None|exists (Some v)];
          intros req [[= <-]|?]; done.
      * destruct (requirement_satisfiable b) as [?|[v ?]]; [by eapply Hq|exists None|exists (Some v)];
          intros req [?|[= <-]]; done.
      * exists None. by intros req [|].
    + exists L. split; intros k req Hk; apply (HL k); auto; set_unfold;
        rewrite !elem_of_dom; eauto.
  - intros (L & HLr & HLq) k a b Ha Hb.
    specialize (HLr k a Ha). specialize (HLq k b Hb). unfold label_satisfies in *.
    destruct (L !! k) as [v|]; [left|by right].
    destruct (Hr _ _ Ha) as (_ & _ & Wa & _), (Hq _ _ Hb) as (_ & _ & Wb & _).
    apply HasIntersection_inhabited; eauto.
Qed.

Lemma IsCompatible_iff r q allowUndefined :
  IsCompatible r q allowUndefined = true ↔
  (∀ k b, q !! k = Some b →
     (k ∈ allowUndefined) ∨ is_Some (r !! k) ∨ absent_ok b = true) ∧
  Intersects r q = [].
Proof.
  unfold IsCompatible, Compatible.
  set (undefined := λ key, negb (bool_decide (key ∈ allowUndefined)) &&
    negb (Requirements_Has r key || absent_ok (Get q key))).
  assert (List.find undefined (map_to_list q).*1 = None ↔ ∀ k b, q !! k = Some b →
     (k ∈ allowUndefined) ∨ is_Some (r !! k) ∨ absent_ok b = true) as Hf.
  { rewrite find_none. unfold undefined, Requirements_Has, Get.
    split.
    - intros Hx k b Hb. specialize (Hx k). rewrite Hb in Hx.
      destruct (decide (k ∈ allowUndefined)); [by left|].
      rewrite bool_decide_eq_false_2 in Hx by done. simpl in Hx.
      destruct (decide (is_Some (r !! k))) as [Hs|Hs]; [by right; left|].
      rewrite (bool_decide_eq_false_2 (is_Some _)) in Hx by done. simpl in Hx.
      right; right. apply negb_false_iff, Hx. apply list_elem_of_fmap. exists (k, b).
      by rewrite elem_of_map_to_list.
    - intros Hall k ([k' b] & -> & Hin%elem_of_map_to_list)%list_elem_of_fmap. simpl.
      rewrite Hin. destruct (Hall k' b Hin) as [?|[?|Hab]].
      + by rewrite bool_decide_eq_true_2.
      + rewrite (bool_decide_eq_true_2 (is_Some _)) by done. by rewrite andb_false_r.
      + rewrite Hab, orb_true_r. by rewrite andb_false_r. }
  rewrite <-Hf. destruct (List.find undefined _) as [k|] eqn:E.
  - split; [done|by intros [? _]].
  - destruct (Intersects r q); naive_solver.
Qed.

(** [Compatible] succeeds exactly when every label the incoming requirements
    demand is defined, allowed to be undefined, or may be absent, and the two
    maps intersect; otherwise it returns an error. *)
Theorem Compatible_spec r q allowUndefined :
  IsCompatible r q allowUndefined = true ↔
  (∀ k b, q !! k = Some b →
     (k ∈ allowUndefined) ∨ is_Some (r !! k) ∨ absent_ok b = true) ∧
  Intersects r q = [].
Proof. apply IsCompatible_iff. Qed.
End compatibility.

(** ** Serialisation *)

(** What serialising and parsing back keeps of a requirement: with bounds the
    excluded values are dropped. *)
Definition serialized_view (req : Requirement) : Requirement :=
  match gte req, lte req with
  | None, None => DeepCopyInto req
  | g, l => mkRequirement (Key req) true ∅ g l (minValues req) None
  end.

Section serialisation.
  Context `{LR : LabelRegistry}.
  #[local] Arguments NewRequirementWithFlexibility : simpl never.

Definition serialize_one (req : Requirement) : list NodeSelectorRequirementWithMinValues :=
  match BoundedNodeSelectorRequirements req with
  | Some both => both
  | None => [NodeSelectorRequirement req]
  end.

Definition parse_step (r : Requirements) (q : NodeSelectorRequirementWithMinValues) :=
  req ← NewRequirementWithFlexibility (nsr_Key q) (nsr_Operator q) (nsr_MinValues q) (nsr_Values q);
  Some (Add1 r req).

(** A requirement the registry leaves alone when it is parsed again. *)
Definition registry_inert (req : Requirement) : Prop :=
  key_normal req ∧ NormalizedLabelValues !! Key req = None.

Lemma normalize_values_inert req vals :
  registry_inert req → normalize_values (Key req) vals = vals.
Proof. intros [_ H]. unfold normalize_values. by rewrite H. Qed.

Lemma parse_bound req key op mv n :
  registry_inert req → Key req = key → in_int64 n → op = OpGte ∨ op = OpLte →
  NewRequirementWithFlexibility key op mv [FormatInt n] =
    Some (mkRequirement key true ∅ (if decide (op = OpGte) then Some n else None)
            (if decide (op = OpLte) then Some n else None) mv None).
Proof.
  intros Hin <- Hn Hop. pose proof (normalize_values_inert req [FormatInt n] Hin) as Hv.
  destruct Hin as [Hk _]. unfold key_normal in Hk. unfold NewRequirementWithFlexibility.
  destruct Hop as [-> | ->]; rewrite Hk, Hv; simpl; rewrite Atoi_FormatInt by done; done.
Qed.

Lemma parse_values req :
  registry_inert req → gte req = None → lte req = None →
  let q := NodeSelectorRequirement req in
  NewRequirementWithFlexibility (nsr_Key q) (nsr_Operator q) (nsr_MinValues q) (nsr_Values q)
  = Some (DeepCopyInto req).
Proof.
  intros Hin Hg Hl. pose proof (normalize_values_inert req) as Hv. destruct Hin as [Hk Hn].
  unfold key_normal in Hk.
  unfold NodeSelectorRequirement, NewRequirementWithFlexibility, DeepCopyInto, with_values,
    blank_requirement.
  rewrite Hg, Hl.
  destruct (complement req), (Nat.ltb_spec 0 (size (values req))) as [|Hs]; simpl;
    rewrite ?Hk, ?Hv, ?list_to_set_sets_List by done; try done;
    assert (values req = ∅) as -> by (apply leibniz_equiv, size_empty_inv; lia); done.
Qed.

Lemma maxIntPtr_diag a : maxIntPtr a a = a.
Proof. destruct a as [x|]; simpl; [|done]. by destruct (x >? x)%Z. Qed.

Lemma parse_serialize_one acc req :
  requirement_wf req → registry_inert req → acc !! Key req = None →
  foldl_opt parse_step acc (serialize_one req)
  = Some (<[Key req := serialized_view req]> acc).
Proof.
  intros ([Wg Wl] & Hc & _) Hin Hacc. unfold serialize_one, BoundedNodeSelectorRequirements.
  destruct (gte req) as [g|] eqn:Hg, (lte req) as [l|] eqn:Hl; simpl.
  - unfold parse_step at 1; simpl.
    rewrite (parse_bound req) by (auto; by rewrite Hg in Wg). simpl.
    unfold parse_step; simpl. rewrite (parse_bound req) by (auto; by rewrite Hl in Wl). simpl.
    unfold Add1 at 2; simpl. rewrite Hacc; simpl. unfold Add1; simpl.
    rewrite lookup_insert_eq. unfold Intersection; simpl. simpl in Hc. rewrite Hc; simpl.
    rewrite insert_insert_eq. unfold serialized_view. rewrite Hg, Hl, maxIntPtr_diag.
    done.
  - unfold parse_step, NodeSelectorRequirement. rewrite Hg; simpl.
    rewrite (parse_bound req) by (auto; by rewrite Hg in Wg). simpl.
    unfold Add1; simpl. rewrite Hacc; simpl. unfold serialized_view. by rewrite Hg, Hl.
  - unfold parse_step, NodeSelectorRequirement. rewrite Hg, Hl; simpl.
    rewrite (parse_bound req) by (auto; by rewrite Hl in Wl). simpl.
    unfold Add1; simpl. rewrite Hacc; simpl. unfold serialized_view. by rewrite Hg, Hl.
  - unfold parse_step. rewrite parse_values by done. simpl. unfold Add1; simpl.
    rewrite Hacc; simpl. unfold serialized_view. by rewrite Hg, Hl.
Qed.

Lemma parse_serialize_list (l : list (string * Requirement)) acc :
  NoDup l.*1 → Forall (λ kv, Key kv.2 = kv.1 ∧ requirement_wf kv.2 ∧ registry_inert kv.2) l →
  Forall (λ kv, acc !! kv.1 = None) l →
  ∃ m, foldl_opt parse_step acc (concat (serialize_one <$> l.*2)) = Some m ∧
    ∀ k, m !! k = match (list_to_map l : Requirements) !! k with
                  | Some req => Some (serialized_view req) | None => acc !! k end.
Proof.
  revert acc. induction l as [|[k req] l IH]; intros acc; simpl; [by eauto|].
  intros [Hni Hnd]%NoDup_cons [(HK & Hwf & Hin) Hall]%Forall_cons_1 [Hacc Haccs]%Forall_cons_1.
  simpl in *. subst k. rewrite foldl_opt_app, parse_serialize_one by done. simpl.
  destruct (IH (<[Key req := serialized_view req]> acc)) as (m & Hm0 & Hm); [done|done| |].
  { apply Forall_forall. intros [k q] Hkq. simpl. rewrite lookup_insert_ne.
    - rewrite Forall_forall in Haccs. apply (Haccs _ Hkq).
    - intros <-. apply Hni. apply list_elem_of_fmap. exists (Key req, q). done. }
  exists m. split; [exact Hm0|]. intros k. rewrite Hm. rewrite !lookup_insert.
  case_decide as Hd; [|done]. subst k.
  assert ((list_to_map l : Requirements) !! Key req = None) as ->; [|done].
  by apply not_elem_of_list_to_map_1.
Qed.

(** C39: serialising a well-formed requirement map to node selector requirements
    and parsing the result gives back every key with its minValues, its bounds
    and, for a requirement without bounds, its operator and values; a
    requirement with bounds loses its excluded values.  This is for keys whose
    values the provider does not normalize: parsing rewrites the values of a key
    in [NormalizedLabelValues], so a map over such a key need not come back. *)
Theorem NodeSelectorRequirements_roundtrip r :
  requirements_wf r → map_Forall (λ _ req, NormalizedLabelValues !! Key req = None) r →
  NewNodeSelectorRequirementsWithMinValues (NodeSelectorRequirements r)
  = Some (serialized_view <$> r).
Proof.
  intros Hwf Hin. destruct (parse_serialize_list (map_to_list r) ∅) as (m & Hm & Hlook).
  - apply NoDup_fst_map_to_list.
  - apply Forall_forall. intros [k req] Hk%elem_of_map_to_list. simpl.
    destruct (Hwf k req Hk) as (? & ? & ?). split_and!; [done|done|].
    split; [done|by eapply Hin].
  - apply Forall_forall. intros kv _. apply lookup_empty.
  - etransitivity; [exact Hm|]. f_equal. apply map_eq. intros k.
    rewrite Hlook, list_to_map_to_list, lookup_fmap. by destruct (r !! k).
Qed.

(** The serialised map is never stricter than the original, and equivalent
    to it unless a requirement combines bounds with excluded values. *)
Lemma serialized_view_weaker req v :
  requirement_wf req → Has req v = true → Has (serialized_view req) v = true.
Proof.
  intros (_ & _ & Hc). unfold serialized_view, Has.
  destruct (complement req) eqn:C.
  - intros H. destruct (gte req) eqn:Hg, (lte req) eqn:Hl; simpl; try (
      rewrite bool_decide_eq_false_2 by apply not_elem_of_empty; simpl;
      by apply andb_true_iff in H as [_ ?]).
    by rewrite C, Hg, Hl.
  - destruct Hc as [Hg Hl]; [done|]. rewrite Hg, Hl. simpl. by rewrite C, Hg, Hl.
Qed.

Lemma serialized_view_exact req :
  (gte req = None ∧ lte req = None) ∨ (complement req = true ∧ values req = ∅) →
  serialized_view req ≡ req.
Proof.
  intros [[Hg Hl]|[Hc Hv]] v; unfold serialized_view.
  - rewrite Hg, Hl. done.
  - unfold Has. rewrite Hc, Hv.
    destruct (gte req) eqn:Hg, (lte req) eqn:Hl; simpl; rewrite ?Hg, ?Hl, ?Hc, ?Hv; done.
Qed.

(** The serialisation of a requirement that has both an integer bound and
    excluded values forgets the exclusions: the excluded value, inside the
    bounds, is rejected before and accepted after the round trip. *)
Theorem serialization_drops_exclusions key v n g :
  Atoi v = (n, None) → (g ≤ n)%Z →
  let req := mkRequirement key true {[v]} (Some g) None None None in
  Has req v = false ∧ Has (serialized_view req) v = true.
Proof.
  intros Hv Hg req. split.
  - unfold Has; simpl. by rewrite bool_decide_eq_true_2 by set_solver.
  - change (serialized_view req) with (mkRequirement key true ∅ (Some g) None None None).
    rewrite Has_only_gte, withinBounds_gte, Hv. by apply Z.leb_le.
Qed.
End serialisation.

(** ** Requirements of a pod *)

Section pod_requirements.
  Context `{LR : LabelRegistry, !StableRegistry}.

Lemma NewNodeSelectorRequirements_wf l r :
  NewNodeSelectorRequirements l = Some r → requirements_wf r.
Proof.
  unfold NewNodeSelectorRequirements. assert (requirements_wf (NewRequirements [])) as H0.
  { intros k req Hk. unfold NewRequirements, Add in Hk; simpl in Hk. by rewrite lookup_empty in Hk. }
  revert H0. generalize (NewRequirements []) as acc.
  induction l as [|q l IH]; simpl; intros acc H0 Hr; [by simplify_eq|].
  destruct (NewRequirementWithFlexibility _ _ _ _) as [req|] eqn:E; simpl in Hr; [|done].
  eapply IH, Hr. apply Add1_wf; [|by eapply NewRequirement_wf|done].
  by eapply NewRequirement_key_normal.
Qed.

Lemma Values_key_normal r : requirements_wf r → Forall key_normal (Values r).
Proof.
  intros Hr. apply Forall_forall. intros req ([k q] & -> & Hin)%list_elem_of_fmap.
  apply elem_of_map_to_list in Hin. by destruct (Hr _ _ Hin) as (_ & ? & _).
Qed.

Lemma Values_wf r : requirements_wf r → Forall requirement_wf (Values r).
Proof.
  intros Hr. apply Forall_forall. intros req ([k q] & -> & Hin)%list_elem_of_fmap.
  apply elem_of_map_to_list in Hin. by destruct (Hr _ _ Hin) as (_ & _ & ?).
Qed.

(** Adding all requirements of a map intersects the two maps label by label. *)
Lemma Add_Values_Has r q k v :
  requirements_wf q → Has (Get (Add r (Values q)) k) v = Has (Get r k) v && Has (Get q k) v.
Proof.
  intros Hw. rewrite Add_Has by (by apply Values_key_normal). f_equal.
  apply eq_true_iff_eq. rewrite forallb_forall. split.
  - intros Hall. unfold Get. destruct (q !! k) as [req|] eqn:Ek; [|apply Has_Exists].
    specialize (Hall req). destruct (Hw _ _ Ek) as (Hk & _). rewrite bool_decide_eq_true_2 in Hall by done.
    apply Hall. apply list_elem_of_In, list_elem_of_fmap. exists (k, req). split; [done|]. by apply elem_of_map_to_list.
  - intros HG req Hin%list_elem_of_In. apply list_elem_of_fmap in Hin as ([k' q'] & -> & Hin%elem_of_map_to_list).
    destruct (Hw _ _ Hin) as (Hk & _). simpl. destruct (bool_decide (Key q' = k)) eqn:Ek; [|done]. simpl.
    apply bool_decide_eq_true in Ek. subst. unfold Get in HG. by rewrite Hin in HG.
Qed.

Lemma Add_Values_wf r q : requirements_wf r → requirements_wf q → requirements_wf (Add r (Values q)).
Proof. intros. apply Add_wf; auto using Values_key_normal, Values_wf. Qed.

Lemma NewRequirements_wf q : requirements_wf q → requirements_wf (NewRequirements (Values q)).
Proof. intros. apply Add_Values_wf; [|done]. intros k req. by rewrite lookup_empty. Qed.

Lemma NewRequirements_Has q k v :
  requirements_wf q → Has (Get (NewRequirements (Values q)) k) v = Has (Get q k) v.
Proof. intros. unfold NewRequirements. rewrite Add_Values_Has by done. unfold Get at 1. by rewrite lookup_empty, Has_Exists. Qed.

(** Adding the requirements of a term only narrows what is allowed. *)
Lemma Add_term_narrows (r r' : Requirements) l rs k v :
  NewNodeSelectorRequirements l = Some rs →
  (Has (Get r k) v = true → Has (Get r' k) v = true) →
  Has (Get (Add r (Values rs)) k) v = true → Has (Get (Add r' (Values rs)) k) v = true.
Proof.
  intros Hrs%NewNodeSelectorRequirements_wf%Values_key_normal Hle.
  rewrite !Add_Has by done. rewrite !andb_true_iff. naive_solver.
Qed.

(** Treating a pod's preferred node affinity as required only narrows its
    requirements: every label value the relaxable requirements of a pod allow is
    allowed by its strict requirements too. *)
Theorem NewPodRequirements_narrows pod r r' k v :
  NewPodRequirements pod = Some r → NewStrictPodRequirements pod = Some r' →
  Has (Get r k) v = true → Has (Get r' k) v = true.
Proof.
  unfold NewPodRequirements, NewStrictPodRequirements, newPodRequirements.
  destruct (_ ≫= NodeAffinity) as [na|]; [|by intros [= <-] [= <-]].
  set (base := NewLabelRequirements (pod_NodeSelector pod)).
  assert (∀ r1, match sort_by heaviest_first (PreferredTerms na) with
                | preferred :: _ => rs ← NewNodeSelectorRequirements (Preference preferred);
                                    Some (Add base (Values rs))
                | [] => Some base end = Some r1 →
           Has (Get r1 k) v = true → Has (Get base k) v = true) as Hpref.
  { intros r1. destruct (sort_by _ _) as [|t ?]; [by intros [= <-]|].
    destruct (NewNodeSelectorRequirements _) as [rs|] eqn:E; simpl; [|done]. intros [= <-].
    apply NewNodeSelectorRequirements_wf, Values_key_normal in E.
    rewrite Add_Has by done. by rewrite andb_true_iff; intros [? _]. }
  destruct (match sort_by _ _ with [] => _ | _ => _ end) as [r1|] eqn:E1; simpl;
    [|by destruct (sort_by _ _)].
  specialize (Hpref r1).
  assert (Hr1 : Has (Get r1 k) v = true → Has (Get base k) v = true).
  { apply Hpref. revert E1. by destruct (sort_by _ _). }
  destruct (RequiredTerms na) as [[|term ?]|]; [by intros [= <-] [= <-]| |by intros [= <-] [= <-]].
  destruct (NewNodeSelectorRequirements term) as [rs|] eqn:E2; simpl; [|done].
  intros [= <-] [= <-]. by eapply Add_term_narrows.
Qed.

Lemma heaviest_first_head l t rest u :
  sort_by heaviest_first l = t :: rest → u ∈ l → (Weight u ≤ Weight t)%Z.
Proof.
  intros Hs Hu. destruct (sort_by_head heaviest_first) with (x := t) (l := l) (l' := rest) (y := u)
    as [Hn| ->]; [| |done|done| |done].
  - unfold heaviest_first. intros x y. rewrite !Z.gtb_ltb. intros ?%Z.ltb_lt. apply Z.ltb_ge. lia.
  - unfold not_after, heaviest_first. intros x y z. rewrite !Z.gtb_ltb, !Z.ltb_ge. lia.
  - unfold not_after, heaviest_first in Hn. rewrite Z.gtb_ltb, Z.ltb_ge in Hn. lia.
Qed.
(** ** When reading a pod's requirements cannot panic *)

(** What API validation guarantees of a pod: ordered operators have an operand, and a
    spread constraint with matchLabelKeys has a selector. *)
Definition operand_given (q : CoreNodeSelectorRequirement) : bool :=
  match cnsr_Operator q with
  | OpGt | OpLt | OpGte | OpLte => negb (length (cnsr_Values q) =? 0)%nat
  | _ => true
  end.

Definition node_affinity_valid (na : NodeAffinityT) : bool :=
  forallb (forallb operand_given) (default [] (RequiredTerms na)) &&
  forallb (λ t, forallb operand_given (Preference t)) (PreferredTerms na).

Definition spread_valid (tsc : TopologySpreadConstraint) : bool :=
  (length (MatchLabelKeys tsc) =? 0)%nat || bool_decide (is_Some (tsc_LabelSelector tsc)).

Definition pod_valid (pod : Pod) : bool :=
  match pod_Affinity pod ≫= NodeAffinity with Some na => node_affinity_valid na | None => true end &&
  forallb spread_valid (pod_TopologySpreadConstraints pod).

Lemma NewRequirementWithFlexibility_total q mv :
  operand_given q = true → is_Some (NewRequirementWithFlexibility (cnsr_Key q) (cnsr_Operator q) mv (cnsr_Values q)).
Proof.
  destruct q as [k op vs]. unfold operand_given, NewRequirementWithFlexibility, normalize_values; simpl.
  destruct op; try (by eexists); destruct vs as [|v vs]; try done; intros _; destruct (NormalizedLabelValues !! _); simpl;
    repeat case_match; by eexists.
Qed.

Lemma NewNodeSelectorRequirements_total l :
  forallb operand_given l = true → is_Some (NewNodeSelectorRequirements l).
Proof.
  unfold NewNodeSelectorRequirements. generalize (NewRequirements []) as acc.
  induction l as [|q l IH]; simpl; intros acc Hl; [by eexists|]. apply andb_true_iff in Hl as [Hq Hl].
  destruct (NewRequirementWithFlexibility_total q None Hq) as [r ->]. simpl. by apply IH.
Qed.

Lemma newPodRequirements_total pod typ : pod_valid pod = true → is_Some (newPodRequirements pod typ).
Proof.
  unfold pod_valid, newPodRequirements. destruct (_ ≫= NodeAffinity) as [na|]; [|by eexists].
  intros [[Hr Hp]%andb_true_iff _]%andb_true_iff. rewrite forallb_forall in Hp.
  assert (∃ base, match typ, sort_by heaviest_first (PreferredTerms na) with
    | podRequirementTypeAll, preferred :: _ =>
        rs ← NewNodeSelectorRequirements (Preference preferred);
        Some (Add (NewLabelRequirements (pod_NodeSelector pod)) (Values rs))
    | _, _ => Some (NewLabelRequirements (pod_NodeSelector pod)) end = Some base) as [base ->].
  { destruct typ, (sort_by heaviest_first (PreferredTerms na)) as [|t ts] eqn:Es; try (by eexists).
    destruct (NewNodeSelectorRequirements_total (Preference t)) as [rs ->]; [|by eexists].
    apply Hp. apply list_elem_of_In. rewrite <-(sort_by_Permutation heaviest_first), Es. by left. }
  simpl. destruct (RequiredTerms na) as [[|term terms]|]; [by eexists| |by eexists]. simpl in Hr.
  apply andb_true_iff in Hr as [Ht _]. destruct (NewNodeSelectorRequirements_total term Ht) as [rs ->]. by eexists.
Qed.
End pod_requirements.

(** An integer bound does not make a label mandatory once the requirement
    also excludes a value: Gt 5 alone is refused by a node without the label,
    but Gt 5 with NotIn [7] has operator NotIn, so a node that lacks the label
    is declared compatible with it. *)
Theorem bounded_NotIn_treated_as_optional :
  let _ := default_registry in
  ∃ gt notin, NewRequirement "example.com/n" OpGt ["5"] = Some gt ∧
    NewRequirement "example.com/n" OpNotIn ["7"] = Some notin ∧
    IsCompatible ∅ (NewRequirements [gt]) ∅ = false ∧
    IsCompatible ∅ (NewRequirements [gt; notin]) ∅ = true.
Proof. eexists _, _. split_and!; reflexivity. Qed.
