(* ===== verification/Resources.v ===== *)
(** * Resources: arithmetic on resource lists (pkg/utils/resources/resources.go)

    A [resource.Quantity] is an exact decimal with nine fractional digits at
    most, modelled by its number of nano-units; a resource list is a finite map
    from resource name to quantity, a missing name counting as zero. *)

From S2P Require Import Prelude Objects.

Abbreviation ResourceList := (gmap string Z).

Definition ResourcePods : string := "pods".
Definition ResourceCPU : string := "cpu".
Definition ResourceMemory : string := "memory".
Definition ResourceNodes : string := "nodes".

(** One unit of a resource. *)
Definition unit_quantity : Z := 1000000000.

(** The quantity a list has of a resource: Go's zero value when it is absent. *)
Definition qty (l : ResourceList) (name : string) : Z := default 0%Z (l !! name).

(** The loop body shared by [Merge] and [MergeInto]. *)
Definition add_into (dest src : ResourceList) : ResourceList :=
  map_fold (λ name quantity acc,
    partial_alter (λ current, Some (default 0%Z current + quantity)%Z) name acc) dest src.

Definition Merge (resources : list ResourceList) : ResourceList :=
  match resources with [] => ∅ | _ => foldl add_into ∅ resources end.

(** A nil [dest] is [None]. *)
Definition MergeInto (dest : option ResourceList) (src : ResourceList) : ResourceList :=
  add_into (default ∅ dest) src.

Definition Subtract (lhs rhs : ResourceList) : ResourceList :=
  map_imap (λ name current,
    Some match rhs !! name with Some rhsValue => (current - rhsValue)%Z | None => current end) lhs.

(** [SubtractFrom] updates the caller's map; when the caller's map is nil the
    function only rebinds its own parameter. *)
Definition SubtractFrom (dest : option ResourceList) (src : ResourceList) : option ResourceList :=
  match dest with
  | None => None
  | Some d => Some (map_fold (λ name quantity acc,
      partial_alter (λ current, Some (default 0%Z current - quantity)%Z) name acc) d src)
  end.

Definition MaxResources (resources : list ResourceList) : ResourceList :=
  foldl (λ acc resource, map_fold (λ name quantity acc,
    partial_alter (λ value, match value with
      | Some v => if (quantity >? v)%Z then Some quantity else Some v
      | None => Some quantity end) name acc) acc resource) ∅ resources.

Definition MinResources (resources : list ResourceList) : ResourceList :=
  match resources with
  | [] => ∅
  | first :: rest =>
      foldl (λ acc rl, map_imap (λ name quantity,
        match rl !! name with
        | Some q => if (q <? quantity)%Z then Some q else Some quantity
        | None => None
        end) acc) first rest
  end.

Definition IsZero (q : Z) : bool := (q =? 0)%Z.

Definition Cmp (lhs rhs : Z) : Z :=
  match (lhs ?= rhs)%Z with Lt => -1 | Eq => 0 | Gt => 1 end.

Definition Fits (candidate total : ResourceList) : bool :=
  map_forallb (λ _ quantity, negb (Cmp 0 quantity >? 0)%Z) total &&
  map_forallb (λ name quantity, negb (Cmp quantity (qty total name) >? 0)%Z) candidate.

Section pods.
  (** [resourcehelper.PodRequests] and [PodLimits] of k8s.io/component-helpers. *)
  Context (PodRequests PodLimits : Pod → ResourceList).

Definition total_for_pods (of_pod : Pod → ResourceList) (pods : list Pod) : ResourceList :=
  <[ResourcePods := (Z.of_nat (length pods) * unit_quantity)%Z]> (Merge (of_pod <$> pods)).

Definition RequestsForPods (pods : list Pod) : ResourceList := total_for_pods PodRequests pods.
Definition LimitsForPods (pods : list Pod) : ResourceList := total_for_pods PodLimits pods.
End pods.

(** ** Pointwise descriptions *)

Lemma Cmp_gt a b : (Cmp a b >? 0)%Z = (b <? a)%Z.
Proof.
  unfold Cmp. destruct (Z.compare_spec a b); destruct (Z.ltb_spec b a); simpl; try done; lia.
Qed.

Lemma add_into_lookup dest src k :
  add_into dest src !! k = match src !! k with
                           | Some q => Some (qty dest k + q)%Z | None => dest !! k end.
Proof.
  apply (map_fold_update_lookup (λ _ quantity current, Some (default 0%Z current + quantity)%Z)).
Qed.

Lemma add_into_qty dest src k : qty (add_into dest src) k = (qty dest k + qty src k)%Z.
Proof. unfold qty at 1 3. rewrite add_into_lookup. destruct (src !! k); unfold qty; simpl; lia. Qed.

Definition sumZ (l : list Z) : Z := foldr Z.add 0%Z l.

Lemma sumZ_app l1 l2 : sumZ (l1 ++ l2) = (sumZ l1 + sumZ l2)%Z.
Proof. induction l1; simpl; lia. Qed.

Lemma foldl_add_into_qty acc l k :
  qty (foldl add_into acc l) k = (qty acc k + sumZ ((λ r, qty r k) <$> l))%Z.
Proof.
  revert acc. induction l as [|r l IH]; intros acc; csimpl; [lia|].
  rewrite IH, add_into_qty. lia.
Qed.

Lemma Merge_sum l k : qty (Merge l) k = sumZ ((λ r, qty r k) <$> l).
Proof. destruct l as [|r l]; [done|]. unfold Merge. by rewrite foldl_add_into_qty. Qed.

(** [Merge] adds up resource lists name by name: the merged quantity of
    every resource is the sum of its quantities in the lists. *)
Theorem Merge_qty l k : qty (Merge l) k = sumZ ((λ r, qty r k) <$> l).
Proof. apply Merge_sum. Qed.

Lemma foldl_add_into_dom acc l :
  dom (foldl add_into acc l) = dom acc ∪ ⋃ (dom <$> l).
Proof.
  revert acc. induction l as [|r l IH]; intros acc; simpl; [set_solver|].
  rewrite IH. apply set_eq. intros k.
  assert (k ∈ dom (add_into acc r) ↔ k ∈ dom acc ∨ k ∈ dom r) as Hd.
  { rewrite !elem_of_dom, add_into_lookup. destruct (r !! k); naive_solver. }
  set_solver.
Qed.

Lemma Merge_dom l : dom (Merge l) = ⋃ (dom <$> l).
Proof.
  destruct l as [|r l]; [done|]. unfold Merge. rewrite foldl_add_into_dom, dom_empty_L. set_solver.
Qed.

Lemma map_qty_eq (a b : ResourceList) :
  dom a = dom b → (∀ k, qty a k = qty b k) → a = b.
Proof.
  intros Hd Hq. apply map_eq. intros k. specialize (Hq k). unfold qty in Hq.
  assert (is_Some (a !! k) ↔ is_Some (b !! k)) as Hs by (rewrite <-!elem_of_dom; by rewrite Hd).
  destruct (a !! k), (b !! k); simpl in *; [by subst|..|done];
    destruct Hs as [Hs1 Hs2]; exfalso; [destruct Hs1|destruct Hs2]; eauto; congruence.
Qed.

Lemma sumZ_Permutation l l' : l ≡ₚ l' → sumZ l = sumZ l'.
Proof. induction 1; simpl; lia. Qed.

(** The order of the merged lists does not matter. *)
Lemma Merge_Permutation l l' : l ≡ₚ l' → Merge l = Merge l'.
Proof.
  intros HP. apply map_qty_eq.
  - rewrite !Merge_dom. apply set_eq. intros x. rewrite !elem_of_union_list.
    by setoid_rewrite HP.
  - intros k. rewrite !Merge_sum. apply sumZ_Permutation. by rewrite HP.
Qed.

Lemma Subtract_lookup lhs rhs k :
  Subtract lhs rhs !! k = (λ q, (q - qty rhs k)%Z) <$> lhs !! k.
Proof.
  unfold Subtract. rewrite map_lookup_imap. destruct (lhs !! k); simpl; [|done].
  unfold qty. destruct (rhs !! k); simpl; f_equal; lia.
Qed.

Lemma Subtract_qty lhs rhs k :
  k ∈ dom lhs → qty (Subtract lhs rhs) k = (qty lhs k - qty rhs k)%Z.
Proof. intros [q Hq]%elem_of_dom. unfold qty at 1 2. by rewrite Subtract_lookup, Hq. Qed.

Lemma SubtractFrom_qty d src k d' :
  SubtractFrom (Some d) src = Some d' → qty d' k = (qty d k - qty src k)%Z.
Proof.
  intros [= <-]. unfold qty at 1.
  rewrite (map_fold_update_lookup (λ _ quantity current, Some (default 0%Z current - quantity)%Z)).
  unfold qty. destruct (src !! k); simpl; lia.
Qed.

(** Subtracting in place undoes merging in place: after [MergeInto] a map
    and [SubtractFrom] the same list, every quantity is what it was. *)
Theorem SubtractFrom_MergeInto dest src k :
  qty (default ∅ (SubtractFrom (Some (MergeInto dest src)) src)) k = qty (default ∅ dest) k.
Proof.
  destruct (SubtractFrom _ _) as [d'|] eqn:E; [|done]. simpl.
  rewrite (SubtractFrom_qty _ _ k _ E). unfold MergeInto. rewrite add_into_qty. lia.
Qed.

(** [SubtractFrom] on a nil map is a no-op for its caller, whereas
    [MergeInto] on a nil map returns the sum. *)
Theorem SubtractFrom_nil src :
  SubtractFrom None src = None ∧ ∀ k, qty (MergeInto None src) k = qty src k.
Proof. split; [done|]. intros k. unfold MergeInto. rewrite add_into_qty. done. Qed.

(** ** Fitting *)

Lemma Fits_iff candidate total :
  Fits candidate total = true ↔
  (∀ k q, total !! k = Some q → 0 ≤ q)%Z ∧
  (∀ k q, candidate !! k = Some q → q ≤ qty total k)%Z.
Proof.
  unfold Fits. rewrite andb_true_iff, !map_forallb_spec.
  setoid_rewrite negb_true_iff. setoid_rewrite Cmp_gt. setoid_rewrite Z.ltb_ge. done.
Qed.

(** [Fits] compares pointwise with absent resources counting as zero: a
    candidate fits when no total is negative and every requested quantity is at
    most the total. *)
Theorem Fits_spec candidate total :
  Fits candidate total = true ↔
  (∀ k q, total !! k = Some q → 0 ≤ q)%Z ∧
  (∀ k q, candidate !! k = Some q → q ≤ qty total k)%Z.
Proof. apply Fits_iff. Qed.

Definition nonneg (l : ResourceList) : Prop := ∀ k, (0 ≤ qty l k)%Z.

Lemma qty_lookup l k q : l !! k = Some q → qty l k = q.
Proof. unfold qty. by intros ->. Qed.

Lemma qty_absent l k : k ∉ dom l → qty l k = 0%Z.
Proof. intros ?%not_elem_of_dom. unfold qty. by rewrite H. Qed.

Lemma Fits_nonneg candidate total : Fits candidate total = true → nonneg total.
Proof.
  intros [Ht _]%Fits_iff k. unfold qty. destruct (total !! k) eqn:E; simpl; [by eapply Ht|done].
Qed.

Lemma Fits_qty candidate total k : Fits candidate total = true → (qty candidate k ≤ qty total k)%Z.
Proof.
  intros HF. pose proof (Fits_nonneg _ _ HF k). apply Fits_iff in HF as [_ Hc].
  unfold qty at 1. destruct (candidate !! k) eqn:E; simpl; [by eapply Hc|lia].
Qed.

Lemma Fits_intro candidate total :
  nonneg total → (∀ k, k ∈ dom candidate → (qty candidate k ≤ qty total k)%Z) →
  Fits candidate total = true.
Proof.
  intros Hn Hc. apply Fits_iff. split; intros k q Hk.
  - specialize (Hn k). by rewrite (qty_lookup _ _ _ Hk) in Hn.
  - rewrite <-(qty_lookup _ _ _ Hk). apply Hc. by apply elem_of_dom_2 in Hk.
Qed.

(** Checking a request against what is left is the same as checking the sum
    of everything against the capacity: when the resources in use are
    non-negative and all known to the capacity, a non-negative request fits
    into the difference exactly when the merged usage fits into the total. *)
Theorem Fits_Subtract request used total :
  nonneg request → nonneg used → dom used ⊆ dom total →
  Fits request (Subtract total used) = Fits (Merge [used; request]) total.
Proof.
  intros Hr Hu Hd. apply eq_true_iff_eq. split; intros HF.
  - assert (nonneg total) as Ht.
    { intros k. destruct (decide (k ∈ dom total)); [|by rewrite qty_absent].
      pose proof (Fits_nonneg _ _ HF k) as Hs. rewrite Subtract_qty in Hs by done.
      specialize (Hu k). lia. }
    apply Fits_intro; [done|]. intros k _. rewrite Merge_sum; simpl.
    pose proof (Fits_qty _ _ k HF) as Hq.
    destruct (decide (k ∈ dom total)) as [Hk|Hk].
    + rewrite Subtract_qty in Hq by done. lia.
    + rewrite (qty_absent used) by set_solver. rewrite (qty_absent total) by done.
      rewrite (qty_absent (Subtract _ _)) in Hq; [lia|].
      rewrite not_elem_of_dom, Subtract_lookup. apply not_elem_of_dom in Hk. by rewrite Hk.
  - assert (∀ k, qty used k + qty request k ≤ qty total k)%Z as Hsum.
    { intros k. pose proof (Fits_qty _ _ k HF) as Hq. rewrite Merge_sum in Hq; simpl in Hq. lia. }
    assert (∀ k, k ∉ dom total → qty (Subtract total used) k = 0)%Z as Habs.
    { intros k Hk. apply qty_absent. rewrite not_elem_of_dom, Subtract_lookup.
      apply not_elem_of_dom in Hk. by rewrite Hk. }
    apply Fits_intro.
    + intros k. destruct (decide (k ∈ dom total)); [|by rewrite Habs].
      rewrite Subtract_qty by done. specialize (Hsum k). specialize (Hr k). lia.
    + intros k _. specialize (Hsum k). destruct (decide (k ∈ dom total)) as [Hk|Hk].
      * rewrite Subtract_qty by done. lia.
      * rewrite Habs by done. rewrite (qty_absent total) in Hsum by done. specialize (Hu k). lia.
Qed.
