(* ===== verification/Taints.v ===== *)
(** * Taints: tolerating and merging taints (pkg/scheduling/taints.go, pkg/apis/v1/taints.go)

    [MatchTaint] and [ToleratesTaint] belong to k8s.io/api: they are the
    operations of the class [TaintApi], whose law is the documented meaning of
    [MatchTaint]. *)

From S2P Require Import Prelude Labels Objects.

Class TaintApi := {
  MatchTaint : Taint → Taint → bool;
  ToleratesTaint : Toleration → Taint → bool;
  (** Taints are unique by key and effect. *)
  MatchTaint_spec a b :
    MatchTaint a b = true ↔ taint_Key a = taint_Key b ∧ taint_Effect a = taint_Effect b;
}.

(** A computable interface: matching by key and effect, and the documented
    toleration rules for the Exists and Equal operators. *)
Definition match_key_effect (a b : Taint) : bool :=
  bool_decide (taint_Key a = taint_Key b) && bool_decide (taint_Effect a = taint_Effect b).

Lemma match_key_effect_spec a b :
  match_key_effect a b = true ↔ taint_Key a = taint_Key b ∧ taint_Effect a = taint_Effect b.
Proof. unfold match_key_effect. by rewrite andb_true_iff, !bool_decide_eq_true. Qed.

Definition simple_taint_api : TaintApi := {|
  MatchTaint := match_key_effect;
  ToleratesTaint := λ t taint,
    match tol_Effect t with None => true | Some e => bool_decide (e = taint_Effect taint) end &&
    (bool_decide (tol_Key t = EmptyString) || bool_decide (tol_Key t = taint_Key taint)) &&
    match tol_Operator t with
    | TolExists => true
    | TolEmpty | TolEqual => bool_decide (tol_Value t = taint_Value taint)
    | _ => false
    end;
  MatchTaint_spec := match_key_effect_spec;
|}.

Definition DisruptedTaintKey : string := Group +:+ "/disrupted".
Definition UnregisteredTaintKey : string := Group +:+ "/unregistered".
Definition RebootingTaintKey : string := Group +:+ "/rebooting".

Definition DisruptedNoScheduleTaint : Taint := mkTaint DisruptedTaintKey EmptyString NoSchedule.
Definition UnregisteredNoExecuteTaint : Taint := mkTaint UnregisteredTaintKey EmptyString NoExecute.
Definition RebootingNoScheduleTaint : Taint := mkTaint RebootingTaintKey EmptyString NoSchedule.

Definition KnownEphemeralTaints : list Taint :=
  [mkTaint "node.kubernetes.io/not-ready" EmptyString NoSchedule;
   mkTaint "node.kubernetes.io/not-ready" EmptyString NoExecute;
   mkTaint "node.kubernetes.io/unreachable" EmptyString NoSchedule;
   mkTaint "node.cloudprovider.kubernetes.io/uninitialized" "true" NoSchedule;
   UnregisteredNoExecuteTaint].

Definition KnownEphemeralTaintKeyPrefixes : list string := ["readiness.k8s.io/"].

Section taints.
  Context `{TA : TaintApi}.

Definition IsKnownEphemeralTaint (taint : option Taint) : bool :=
  match taint with
  | None => false
  | Some taint =>
      existsb (λ known, MatchTaint known taint) KnownEphemeralTaints
      || existsb (λ prefix, HasPrefix (taint_Key taint) prefix) KnownEphemeralTaintKeyPrefixes
  end.

  (** The untolerated taints, one error each. *)
Definition Tolerates (ts : list Taint) (tolerations : list Toleration) : list Taint :=
  filter (λ taint, foldl (λ acc t, acc || ToleratesTaint t taint) false tolerations = false) ts.

Definition ToleratesPod (ts : list Taint) (pod : Pod) : list Taint :=
  Tolerates ts (pod_Tolerations pod).

Definition Taints_Merge (ts with_ : list Taint) : list Taint :=
  foldl (λ res taint, if existsb (λ t, MatchTaint taint t) res then res else res ++ [taint])
    ts with_.

Lemma foldl_orb {A} (f : A → bool) l b :
  foldl (λ acc t, acc || f t) b l = b || existsb f l.
Proof.
  revert b. induction l as [|x l IH]; intros b; simpl; [by rewrite orb_false_r|].
  by rewrite IH, orb_assoc.
Qed.

Lemma elem_of_Tolerates ts tolerations taint :
  taint ∈ Tolerates ts tolerations ↔
  taint ∈ ts ∧ existsb (λ t, ToleratesTaint t taint) tolerations = false.
Proof. unfold Tolerates. rewrite list_elem_of_filter, foldl_orb. simpl. tauto. Qed.

(** A pod tolerates a set of taints exactly when each taint is tolerated by
    one of the pod's tolerations. *)
Theorem Tolerates_spec ts tolerations :
  Tolerates ts tolerations = [] ↔
  ∀ taint, taint ∈ ts → ∃ t, t ∈ tolerations ∧ ToleratesTaint t taint = true.
Proof.
  split.
  - intros Hnil taint Hin. apply existsb_elem_of, not_false_iff_true. intros E.
    assert (taint ∈ Tolerates ts tolerations) as Hf by by apply elem_of_Tolerates.
    rewrite Hnil in Hf. by apply not_elem_of_nil in Hf.
  - intros Hall. destruct (Tolerates ts tolerations) as [|taint l] eqn:E; [done|].
    assert (taint ∈ Tolerates ts tolerations) as [Hin Hf]%elem_of_Tolerates by (rewrite E; by left).
    apply Hall, existsb_elem_of in Hin. congruence.
Qed.

(** No two taints of the list share key and effect. *)
Definition taints_unique (ts : list Taint) : Prop :=
  NoDup ((λ t, (taint_Key t, taint_Effect t)) <$> ts).

Lemma existsb_MatchTaint taint ts :
  existsb (λ t, MatchTaint taint t) ts = true ↔
  (taint_Key taint, taint_Effect taint) ∈ (λ t, (taint_Key t, taint_Effect t)) <$> ts.
Proof.
  rewrite existsb_elem_of, list_elem_of_fmap. split.
  - intros (t & Hin & [HK HE]%MatchTaint_spec). exists t. by rewrite HK, HE.
  - intros (t & [= HK HE] & Hin). exists t. split; [done|]. by apply MatchTaint_spec.
Qed.

(** Merging taints keeps the receiver's taints in front, adds no taint whose
    key and effect are already present, represents every merged taint, and so
    preserves uniqueness by key and effect. *)
Theorem Taints_Merge_spec ts with_ :
  (∃ added, Taints_Merge ts with_ = ts ++ added ∧ ∀ t, t ∈ added → t ∈ with_) ∧
  (∀ t, t ∈ with_ → ∃ t', t' ∈ Taints_Merge ts with_ ∧ MatchTaint t t' = true) ∧
  (taints_unique ts → taints_unique (Taints_Merge ts with_)).
Proof.
  unfold Taints_Merge, taints_unique. revert ts.
  induction with_ as [|w ws IH]; intros ts; simpl.
  { split_and!; [exists []; split; [by rewrite app_nil_r|by intros t ?%not_elem_of_nil]
      |by intros t ?%not_elem_of_nil|done]. }
  destruct (existsb (λ t, MatchTaint w t) ts) eqn:E.
  - destruct (IH ts) as ((added & Heq & Hadd) & Hrep & Hu). split_and!; [|.. |done].
    + exists added. split; [done|]. intros t Ht. right. by apply Hadd.
    + intros t [->|Ht]%elem_of_cons; [|by apply Hrep].
      apply existsb_elem_of in E as (t' & Hin & Hm). exists t'. split; [|done].
      rewrite Heq. apply elem_of_app. by left.
  - destruct (IH (ts ++ [w])) as ((added & Heq & Hadd) & Hrep & Hu). split_and!.
    + exists (w :: added). split; [by rewrite Heq, <-app_assoc|].
      intros t [->|Ht]%elem_of_cons; [by left|right; by apply Hadd].
    + intros t [->|Ht]%elem_of_cons; [|by apply Hrep].
      exists w. split; [|by apply MatchTaint_spec]. rewrite Heq. set_solver.
    + intros Hnd. apply Hu. rewrite fmap_app; simpl. apply NoDup_app. split_and!; [done| |].
      * intros x Hx ->%list_elem_of_singleton.
        apply existsb_MatchTaint in Hx. congruence.
      * apply NoDup_singleton.
Qed.

(** [IsKnownEphemeralTaint] ignores the taint's value: any value under the
    key and effect of a known ephemeral taint is ephemeral. *)
Theorem IsKnownEphemeralTaint_ignores_value key v1 v2 effect :
  IsKnownEphemeralTaint (Some (mkTaint key v1 effect))
  = IsKnownEphemeralTaint (Some (mkTaint key v2 effect)).
Proof.
  unfold IsKnownEphemeralTaint. f_equal. apply eq_true_iff_eq. rewrite !existsb_elem_of.
  by setoid_rewrite MatchTaint_spec.
Qed.
End taints.
