(* ===== verification/HostPorts.v ===== *)
(** * HostPorts: host port reservations of a node (pkg/scheduling/hostportusage.go) *)

From S2P Require Import Prelude Objects.

(** [net.IP]: nil, or an address; an IPv4 address and its IPv6-mapped form are
    the same address for [Equal]. *)
Inductive IP := IPnil | IPv4 (a : Z) | IPv6 (a : Z).

#[export] Instance IP_eq_dec : EqDecision IP.
Proof. solve_decision. Defined.

(** The IPv4-mapped range ::ffff:0:0/96. *)
Definition IP_canonical (ip : IP) : IP :=
  match ip with
  | IPv4 a => IPv6 (281470681743360 + a)
  | _ => ip
  end.

Definition IP_Equal (a b : IP) : bool := bool_decide (IP_canonical a = IP_canonical b).

Definition IP_IsUnspecified (ip : IP) : bool := IP_Equal ip (IPv4 0) || IP_Equal ip (IPv6 0).

Record HostPort := mkHostPort {
  hp_IP : IP;
  hp_Port : Z;
  hp_Protocol : string;
}.

Definition HostPort_Matches (p rhs : HostPort) : bool :=
  if negb (bool_decide (hp_Protocol p = hp_Protocol rhs)) then false
  else if negb (hp_Port p =? hp_Port rhs)%Z then false
  else if negb (IP_Equal (hp_IP p) (hp_IP rhs)) && negb (IP_IsUnspecified (hp_IP p))
          && negb (IP_IsUnspecified (hp_IP rhs)) then false
  else true.

(** The map [reserved] of [HostPortUsage]. *)
Abbreviation HostPortUsage := (gmap NamespacedName (list HostPort)).

Definition NewHostPortUsage : HostPortUsage := ∅.

Definition HostPortUsage_Add (u : HostPortUsage) (usedBy : NamespacedName) (ports : list HostPort)
    : HostPortUsage := <[usedBy := ports]> u.

(** [true] is the conflict error. *)
Definition HostPortUsage_Conflicts (u : HostPortUsage) (usedBy : NamespacedName)
    (ports : list HostPort) : bool :=
  existsb (λ newEntry,
    map_existsb (λ podKey entries,
      existsb (λ existing, HostPort_Matches newEntry existing && negb (bool_decide (podKey = usedBy)))
        entries) u) ports.

Definition HostPortUsage_DeletePod (u : HostPortUsage) (key : NamespacedName) : HostPortUsage :=
  delete key u.

Section get_host_ports.
  (** [net.ParseIP]: nil when the text is no address. *)
  Context (ParseIP : string → IP).

Definition GetHostPorts (pod : Pod) : list HostPort :=
  omap (λ p, if (cp_HostPort p =? 0)%Z then None
             else let hostIP := if bool_decide (cp_HostIP p = EmptyString) then "0.0.0.0"
                                else cp_HostIP p in
                  Some (mkHostPort (ParseIP hostIP) (cp_HostPort p) (cp_Protocol p)))
    (concat (pod_Containers pod)).
End get_host_ports.

Lemma IP_Equal_sym a b : IP_Equal a b = IP_Equal b a.
Proof. unfold IP_Equal. apply bool_decide_ext. naive_solver. Qed.

Lemma HostPort_Matches_sym p q : HostPort_Matches p q = HostPort_Matches q p.
Proof.
  unfold HostPort_Matches. rewrite (IP_Equal_sym (hp_IP p)), Z.eqb_sym.
  rewrite (bool_decide_ext (hp_Protocol p = _) (hp_Protocol q = hp_Protocol p)) by naive_solver.
  destruct (bool_decide _), (_ =? _)%Z, (IP_Equal _ _), (IP_IsUnspecified (hp_IP p)),
    (IP_IsUnspecified (hp_IP q)); done.
Qed.

(** The invariant of a node: ports of different pods never collide. *)
Definition no_collisions (u : HostPortUsage) : Prop :=
  ∀ k1 k2 l1 l2 p1 p2, u !! k1 = Some l1 → u !! k2 = Some l2 → k1 ≠ k2 →
    p1 ∈ l1 → p2 ∈ l2 → HostPort_Matches p1 p2 = false.

Lemma HostPortUsage_Conflicts_false u usedBy ports :
  HostPortUsage_Conflicts u usedBy ports = false ↔
  ∀ k l p q, p ∈ ports → u !! k = Some l → q ∈ l → k ≠ usedBy → HostPort_Matches p q = false.
Proof.
  rewrite <-not_true_iff_false. unfold HostPortUsage_Conflicts.
  rewrite existsb_elem_of. setoid_rewrite map_existsb_spec. setoid_rewrite existsb_elem_of.
  split.
  - intros Hn k l p q Hp Hl Hq Hne. apply not_true_iff_false. intros HM. apply Hn.
    exists p. split; [done|]. exists k, l. split; [done|]. exists q. split; [done|].
    by rewrite HM, bool_decide_eq_false_2.
  - intros Hall (p & Hp & k & l & Hl & q & Hq & [HM Hne]%andb_true_iff).
    apply negb_true_iff, bool_decide_eq_false in Hne. rewrite (Hall k l p q) in HM; done.
Qed.

(** The operations a node performs: a pod's ports are added only after the
    conflict check, and removed when the pod goes away. *)
Inductive host_port_step : HostPortUsage → HostPortUsage → Prop :=
| step_add_ports u usedBy ports :
    HostPortUsage_Conflicts u usedBy ports = false →
    host_port_step u (HostPortUsage_Add u usedBy ports)
| step_delete_ports u key : host_port_step u (HostPortUsage_DeletePod u key).

(** On a node that starts without reservations, adding pods after the
    conflict check and deleting pods never leaves two different pods with
    colliding host ports. *)
Theorem host_ports_never_collide u :
  rtc host_port_step NewHostPortUsage u → no_collisions u.
Proof.
  intros Hsteps. refine (rtc_ind_r no_collisions _ _ _ _ Hsteps).
  { intros k1 k2 l1 l2 p1 p2 H1. unfold NewHostPortUsage in H1. by rewrite lookup_empty in H1. }
  intros v w _ Hstep Hinv. destruct Hstep as [v usedBy ports Hc|v key].
  - rewrite HostPortUsage_Conflicts_false in Hc.
    intros k1 k2 l1 l2 p1 p2. unfold HostPortUsage_Add. rewrite !lookup_insert.
    intros H1 H2 Hne Hp1 Hp2.
    destruct (decide (usedBy = k1)), (decide (usedBy = k2)); simplify_eq; eauto.
    rewrite HostPort_Matches_sym. eauto.
  - intros k1 k2 l1 l2 p1 p2. unfold HostPortUsage_DeletePod. rewrite !lookup_delete.
    repeat case_decide; try done. apply Hinv.
Qed.
