(* ===== verification/Volumes.v ===== *)
(** * Volumes: volume attach limits of a node
    (pkg/scheduling/volumeusage.go, pkg/utils/volume/volume.go)

    Lookups in the API server are the fields of [VolumeApi]; an error is either
    not-found or another failure. *)

From S2P Require Import Prelude Objects.

(** The type [Volumes]: the claims attached per storage driver. *)
Abbreviation Volumes := (gmap string (gset string)).

Definition Volumes_Add (u : Volumes) (provisioner pvcID : string) : Volumes :=
  <[provisioner := default ∅ (u !! provisioner) ∪ {[pvcID]}]> u.

(** The loop shared by [Union] and [Insert]. *)
Definition Volumes_Insert (u volumes : Volumes) : Volumes :=
  map_fold (λ k v acc, partial_alter (λ existing, Some (default ∅ existing ∪ v)) k acc) u volumes.

Definition Volumes_Union (u vol : Volumes) : Volumes := Volumes_Insert u vol.

(** ** Resolving the volumes of a pod *)

Inductive api_error := NotFound | Conflict | OtherError.

#[export] Instance api_error_eq_dec : EqDecision api_error.
Proof. solve_decision. Defined.

Inductive VolumeSource :=
| PersistentVolumeClaimSource (claimName : string)
| EphemeralSource
| OtherSource.

Record Volume := mkVolume { vol_Name : string; vol_Source : VolumeSource }.

Record PersistentVolumeClaim := mkPVC {
  pvc_Namespace : string;
  pvc_Name : string;
  pvc_VolumeName : string;
  pvc_StorageClassName : option string;
  pvc_Annotations : gmap string string;
  pvc_DeletionTimestamp : option Z;
  pvc_Phase : string;
}.

(** [pv.Spec]: the CSI driver, whether it is an AWS elastic block store, the required
    terms of its node affinity, and whether it is bound to one host. *)
Record PersistentVolume := mkPV {
  pv_CSI : option string;
  pv_AWSElasticBlockStore : bool;
  pv_RequiredTerms : option (list (list CoreNodeSelectorRequirement));
  pv_LocalOrHostPath : bool;
  pv_DeletionTimestamp : option Z;
}.

(** The terms of [AllowedTopologies] are lists of keys with their values. *)
Record StorageClass := mkStorageClass {
  sc_Provisioner : string;
  sc_VolumeBindingMode : option string;
  sc_AllowedTopologies : list (list (string * list string));
}.

Record VolumeApi := mkVolumeApi {
  get_pvc : NamespacedName → result api_error PersistentVolumeClaim;
  get_pv : string → result api_error PersistentVolume;
  get_storage_class : string → result api_error StorageClass;
  (** [translator.GetCSINameFromInTreeName] *)
  GetCSINameFromInTreeName : string → option string;
  (** [plugins.AWSEBSDriverName] *)
  AWSEBSDriverName : string;
}.

Section resolve.
  Context (api : VolumeApi).

Definition GetPersistentVolumeClaim (pod : Pod) (volume : Volume)
    : result api_error (option PersistentVolumeClaim) :=
  let get name := Some <$> get_pvc api (pod_Namespace pod, name) in
  match vol_Source volume with
  | PersistentVolumeClaimSource claimName => get claimName
  | EphemeralSource => get (pod_Name pod +:+ "-" +:+ vol_Name volume)
  | OtherSource => Ok None
  end.

Definition driverFromSC (storageClassName : string) : result api_error string :=
  storageClass ← get_storage_class api storageClassName;
  let provisioner := sc_Provisioner storageClass in
  Ok (default provisioner (GetCSINameFromInTreeName api provisioner)).

Definition driverFromVolume (volumeName : string) : result api_error string :=
  pv ← get_pv api volumeName;
  Ok match pv_CSI pv with
     | Some driver => driver
     | None => if pv_AWSElasticBlockStore pv then AWSEBSDriverName api else EmptyString
     end.

Definition ResolveDriver (pvc : PersistentVolumeClaim) (storageClassName : string)
    : result api_error string :=
  if negb (bool_decide (pvc_VolumeName pvc = EmptyString)) then
    driverFromVolume (pvc_VolumeName pvc)
  else if bool_decide (storageClassName = EmptyString) then Ok EmptyString
  else match driverFromSC storageClassName with
       | Err NotFound => Ok EmptyString
       | r => r
       end.

Fixpoint GetVolumes_loop (pod : Pod) (podPVCs : Volumes) (volumes : list Volume)
    : result api_error Volumes :=
  match volumes with
  | [] => Ok podPVCs
  | volume :: rest =>
      match GetPersistentVolumeClaim pod volume with
      | Err NotFound => GetVolumes_loop pod podPVCs rest
      | Err e => Err e
      | Ok None => GetVolumes_loop pod podPVCs rest
      | Ok (Some pvc) =>
          match ResolveDriver pvc (default EmptyString (pvc_StorageClassName pvc)) with
          | Err e => Err e
          | Ok driverName =>
              GetVolumes_loop pod
                (if bool_decide (driverName = EmptyString) then podPVCs
                 else Volumes_Add podPVCs driverName (pvc_Namespace pvc +:+ "/" +:+ pvc_Name pvc))
                rest
          end
      end
  end.

Definition GetVolumes (pod : Pod) (volumes : list Volume) : result api_error Volumes :=
  GetVolumes_loop pod ∅ volumes.
End resolve.

(** ** Usage and limits of a node *)

Record VolumeUsage := mkVolumeUsage {
  vu_volumes : Volumes;
  podVolumes : gmap NamespacedName Volumes;
  limits : gmap string Z;
  publishedDrivers : gset string;
}.

Definition NewVolumeUsage : VolumeUsage := mkVolumeUsage ∅ ∅ ∅ ∅.

(** The drivers whose limit would be exceeded; Go returns the first it meets. *)
Definition ExceedsLimits (v : VolumeUsage) (vols : Volumes) : bool :=
  map_existsb (λ k volumes,
    match limits v !! k with
    | Some limit => (Z.of_nat (size volumes) >? limit)%Z
    | None => false
    end) (Volumes_Union (vu_volumes v) vols).

Definition AddLimit (v : VolumeUsage) (storageDriver : string) (value : Z) : VolumeUsage :=
  mkVolumeUsage (vu_volumes v) (podVolumes v) (<[storageDriver := value]> (limits v))
    (publishedDrivers v ∪ {[storageDriver]}).

Definition AddUnbounded (v : VolumeUsage) (storageDriver : string) : VolumeUsage :=
  mkVolumeUsage (vu_volumes v) (podVolumes v) (delete storageDriver (limits v))
    (publishedDrivers v ∪ {[storageDriver]}).

Definition AddFallbackLimit (v : VolumeUsage) (storageDriver : string) (value : Z) : VolumeUsage :=
  if bool_decide (storageDriver ∈ publishedDrivers v) then v
  else mkVolumeUsage (vu_volumes v) (podVolumes v) (<[storageDriver := value]> (limits v))
         (publishedDrivers v).

Definition VolumeUsage_Add (v : VolumeUsage) (pod : NamespacedName) (volumes : Volumes) : VolumeUsage :=
  mkVolumeUsage (Volumes_Union (vu_volumes v) volumes) (<[pod := volumes]> (podVolumes v))
    (limits v) (publishedDrivers v).

Definition VolumeUsage_DeletePod (v : VolumeUsage) (key : NamespacedName) : VolumeUsage :=
  let pods := delete key (podVolumes v) in
  mkVolumeUsage (map_fold (λ _ c acc, Volumes_Insert acc c) ∅ pods) pods
    (limits v) (publishedDrivers v).

(** ** Facts *)

(** The claims of a driver. *)
Definition claims_of (u : Volumes) (driver : string) : gset string := default ∅ (u !! driver).

Lemma Volumes_Insert_claims u vols d :
  claims_of (Volumes_Insert u vols) d = claims_of u d ∪ claims_of vols d.
Proof.
  unfold claims_of, Volumes_Insert.
  rewrite (map_fold_update_lookup (λ _ v existing, Some (default ∅ existing ∪ v))).
  destruct (vols !! d); simpl; set_solver.
Qed.

(** The claims some pod of the node uses. *)
Definition pods_claim (pods : gmap NamespacedName Volumes) (d c : string) : Prop :=
  ∃ k vols, pods !! k = Some vols ∧ c ∈ claims_of vols d.

Lemma rebuild_claims (pods : gmap NamespacedName Volumes) d c :
  c ∈ claims_of (map_fold (λ _ vols acc, Volumes_Insert acc vols) ∅ pods) d
  ↔ pods_claim pods d c.
Proof.
  apply (map_fold_weak_ind (λ r (m : gmap NamespacedName Volumes),
    c ∈ claims_of r d ↔ pods_claim m d c)).
  - unfold claims_of, pods_claim. rewrite lookup_empty. simpl. split; [set_solver|].
    intros (k & vols & Hk & _). by rewrite lookup_empty in Hk.
  - intros i x m r Hi IH. rewrite Volumes_Insert_claims, elem_of_union, IH. split.
    + intros [(k & vols & Hk & Hc)|Hc].
      * exists k, vols. split; [|done]. rewrite lookup_insert_ne; [done|congruence].
      * exists i, x. by rewrite lookup_insert_eq.
    + intros (k & vols & Hk & Hc). apply lookup_insert_Some in Hk as [[<- <-]|[Hne Hk]]; [by right|].
      left. by exists k, vols.
Qed.

(** Every claim a tracked pod uses is counted. *)
Definition volumes_cover (v : VolumeUsage) : Prop :=
  ∀ d c, pods_claim (podVolumes v) d c → c ∈ claims_of (vu_volumes v) d.

Inductive volume_step : VolumeUsage → VolumeUsage → Prop :=
| vstep_add v pod vols : volume_step v (VolumeUsage_Add v pod vols)
| vstep_delete v key : volume_step v (VolumeUsage_DeletePod v key)
| vstep_limit v d n : volume_step v (AddLimit v d n)
| vstep_unbounded v d : volume_step v (AddUnbounded v d)
| vstep_fallback v d n : volume_step v (AddFallbackLimit v d n).

Lemma volume_step_cover v w : volume_step v w → volumes_cover v → volumes_cover w.
Proof.
  intros [] Hc; try exact Hc.
  - intros d c (k & vs & Hk & Hin). simpl in *. unfold Volumes_Union.
    rewrite Volumes_Insert_claims, elem_of_union.
    apply lookup_insert_Some in Hk as [[<- <-]|[_ Hk]]; [by right|left].
    apply Hc. by exists k, vs.
  - intros d c Hp. simpl in *. by apply rebuild_claims.
  - unfold AddFallbackLimit. by case_bool_decide.
Qed.

(** The volumes a node counts always cover the volumes of its tracked pods,
    whatever the order of pods added, re-added and deleted and of limits set; and
    right after a deletion the count is exactly the union over the remaining
    pods. *)
Theorem volume_usage_covers v key :
  rtc volume_step NewVolumeUsage v →
  volumes_cover v ∧
  (∀ d c, c ∈ claims_of (vu_volumes (VolumeUsage_DeletePod v key)) d ↔
          pods_claim (delete key (podVolumes v)) d c).
Proof.
  intros Hsteps. split; [|intros d c; apply rebuild_claims].
  refine (rtc_ind_r volumes_cover _ _ _ _ Hsteps).
  - intros d c (k & vs & Hk & _). simpl in Hk. by rewrite lookup_empty in Hk.
  - intros x y _ Hst Hx. by eapply volume_step_cover.
Qed.

(** A limit a driver publishes wins over a fallback limit in either order:
    once a driver has published a limit or that it has none, a fallback changes
    nothing, and publishing after a fallback overwrites it. *)
Theorem published_limit_wins v d n m :
  limits (AddFallbackLimit (AddLimit v d n) d m) !! d = Some n ∧
  limits (AddFallbackLimit (AddUnbounded v d) d m) !! d = None ∧
  limits (AddLimit (AddFallbackLimit v d m) d n) !! d = Some n ∧
  limits (AddUnbounded (AddFallbackLimit v d m) d) !! d = None.
Proof.
  split_and!.
  - unfold AddFallbackLimit. rewrite bool_decide_eq_true_2 by (simpl; set_solver).
    simpl. by rewrite lookup_insert_eq.
  - unfold AddFallbackLimit. rewrite bool_decide_eq_true_2 by (simpl; set_solver).
    simpl. by rewrite lookup_delete_eq.
  - simpl. by rewrite lookup_insert_eq.
  - simpl. by rewrite lookup_delete_eq.
Qed.

(** [ExceedsLimits] rejects exactly when some limited driver would have more
    distinct claims than its limit, claims already attached counting once. *)
Theorem ExceedsLimits_spec v vols :
  ExceedsLimits v vols = true ↔
  ∃ d limit, limits v !! d = Some limit ∧
    (is_Some (vu_volumes v !! d) ∨ is_Some (vols !! d)) ∧
    (limit < Z.of_nat (size (claims_of (vu_volumes v) d ∪ claims_of vols d)))%Z.
Proof.
  unfold ExceedsLimits, Volumes_Union. rewrite map_existsb_spec.
  assert (∀ d, Volumes_Insert (vu_volumes v) vols !! d =
    match vols !! d with Some x => Some (default ∅ (vu_volumes v !! d) ∪ x)
    | None => vu_volumes v !! d end) as Hlk.
  { intros d. unfold Volumes_Insert.
    by rewrite (map_fold_update_lookup (λ _ x existing, Some (default ∅ existing ∪ x))). }
  split.
  - intros (d & x & Hx & Ht). destruct (limits v !! d) as [limit|] eqn:E; [|done].
    exists d, limit. apply Z.gtb_lt in Ht. split; [done|].
    rewrite <-Volumes_Insert_claims. unfold claims_of. rewrite Hx. split; [|done].
    rewrite Hlk in Hx. destruct (vols !! d); [right; eauto|left; eauto].
  - intros (d & limit & HL & Hs & Hlt). rewrite <-Volumes_Insert_claims in Hlt.
    unfold claims_of in Hlt.
    destruct (Volumes_Insert (vu_volumes v) vols !! d) as [x|] eqn:E.
    + exists d, x. split; [done|]. rewrite HL. by apply Z.gtb_lt.
    + exfalso. rewrite Hlk in E. destruct (vols !! d); [done|].
      rewrite E in Hs. by destruct Hs as [[? ?]|[? ?]].
Qed.
