(* ===== verification/VolumeTopology.v ===== *)
(** * VolumeTopology: where the volumes of a pod can be mounted
    (pkg/controllers/provisioning/scheduling/volumetopology.go)

    Every volume of a pod offers alternatives, the terms of its persistent volume or the
    topologies of its storage class; the pod needs one alternative of every volume. An
    alternative [nil] of the source, which constrains nothing yet, is [None]. *)

From S2P Require Import Prelude Labels Requirement Objects Requirements Volumes.

(** [UnsupportedProvisioners] and [UnsupportedTopologyKeys], which a provider fills. *)
Class UnsupportedStorage := {
  UnsupportedProvisioners : gset string;
  UnsupportedTopologyKeys : gset string;
}.

Definition ClaimLost : string := "Lost".
Definition VolumeBindingImmediate : string := "Immediate".
Definition AnnBindCompleted : string := "pv.kubernetes.io/bind-completed".

(** ** Combining the alternatives of several volumes *)

Section alternatives.
  Context `{LR : LabelRegistry}.

Definition volumeRequirementsCompatible (existing : option Requirements) (volReq : Requirements) : bool :=
  match existing with
  | None => true
  | Some existing => bool_decide (Intersects existing volReq = [])
  end.

Definition mergeVolumeRequirements (existing : option Requirements) (volReq : Requirements) : Requirements :=
  let merged := NewRequirements [] in
  let merged := match existing with Some existing => Add merged (Values existing) | None => merged end in
  Add merged (Values volReq).

Definition mergeCompatibleVolumeRequirementAlternatives (alternatives : list (option Requirements)) (volAlts : list Requirements)
    : list (option Requirements) :=
  existing ← alternatives;
  volReq ← filter (λ volReq, volumeRequirementsCompatible existing volReq = true) volAlts;
  [Some (mergeVolumeRequirements existing volReq)].

Definition mergeAllVolumeRequirementAlternatives (alternatives : list (option Requirements)) (volAlts : list Requirements)
    : list (option Requirements) :=
  existing ← alternatives;
  volReq ← volAlts;
  [Some (mergeVolumeRequirements existing volReq)].

Definition mergeVolumeRequirementAlternatives (alternatives : list (option Requirements)) (volAlts : list Requirements)
    : list (option Requirements) :=
  match mergeCompatibleVolumeRequirementAlternatives alternatives volAlts with
  | [] => mergeAllVolumeRequirementAlternatives alternatives volAlts
  | merged => merged
  end.
End alternatives.

(** ** The alternatives of a volume *)

Section topology_of_volumes.
  Context `{LR : LabelRegistry} (api : VolumeApi).

Definition topology_term (topology : list (string * list string)) : list CoreNodeSelectorRequirement :=
  (λ '(key, values), mkCoreNSR key OpIn values) <$> topology.

(** [None] is a panic of the constructor of requirements. *)
Definition getStorageClassRequirements (storageClassName : string) : option (result api_error (list Requirements)) :=
  match get_storage_class api storageClassName with
  | Err e => Some (Err e)
  | Ok storageClass =>
      alternatives ← mapM NewNodeSelectorRequirements
        (filter (λ requirements, 0 < length requirements)%nat (topology_term <$> sc_AllowedTopologies storageClass));
      Some (Ok alternatives)
  end.

(** The expressions of a term that count, [None] when the term is dropped. *)
Definition volume_term (pv : PersistentVolume) (term : list CoreNodeSelectorRequirement)
    : option (list CoreNodeSelectorRequirement) :=
  let requirements := if pv_LocalOrHostPath pv then filter (λ req, cnsr_Key req ≠ LabelHostname) term else term in
  match term with
  | [] => None
  | _ => Some requirements
  end.

Definition getPersistentVolumeRequirements (volumeName : string) : option (result api_error (list Requirements)) :=
  match get_pv api volumeName with
  | Err e => Some (Err e)
  | Ok pv =>
      match pv_RequiredTerms pv with
      | None => Some (Ok [])
      | Some terms =>
          alternatives ← mapM NewNodeSelectorRequirements (omap (volume_term pv) terms);
          Some (Ok alternatives)
      end
  end.

Definition getRequirements (pod : Pod) (volume : Volume) : option (result api_error (list Requirements)) :=
  match GetPersistentVolumeClaim api pod volume with
  | Err e => Some (Err e)
  | Ok None => Some (Ok [])
  | Ok (Some pvc) =>
      if negb (bool_decide (pvc_VolumeName pvc = EmptyString)) then getPersistentVolumeRequirements (pvc_VolumeName pvc)
      else
        let sc := default EmptyString (pvc_StorageClassName pvc) in
        if bool_decide (sc = EmptyString) then Some (Ok []) else getStorageClassRequirements sc
  end.

Fixpoint requirements_loop (pod : Pod) (alternatives : list (option Requirements)) (volumes : list Volume)
    : option (result api_error (list (option Requirements))) :=
  match volumes with
  | [] => Some (Ok alternatives)
  | vol :: rest =>
      volAlts ← getRequirements pod vol;
      match volAlts with
      | Err e => Some (Err e)
      | Ok [] => requirements_loop pod alternatives rest
      | Ok volAlts => requirements_loop pod (mergeVolumeRequirementAlternatives alternatives volAlts) rest
      end
  end.

(** Once a volume has alternatives every entry is a map, so dropping [None] drops only the
    initial entry. *)
Definition VolumeTopology_GetRequirements (pod : Pod) (volumes : list Volume) : option (result api_error (list Requirements)) :=
  match requirements_loop pod [None] volumes with
  | None => None
  | Some (Err e) => Some (Err e)
  | Some (Ok alternatives) => Some (Ok (omap id alternatives))
  end.
End topology_of_volumes.

(** ** Which pods are rejected for their claims *)

Inductive pvc_error :=
| PVCApiError (e : api_error)
| ClaimDeleting | ClaimIsLost | VolumeDeleting | ClaimUnbound
| NoStorageClass | ImmediateUnbound | UnsupportedTopology (key : string) | UnsupportedProvisioner (driver : string).

Section validate.
  Context (api : VolumeApi) `{US : UnsupportedStorage}.

Definition validateVolume (volumeName : string) : option pvc_error :=
  if bool_decide (volumeName = EmptyString) then None
  else match get_pv api volumeName with
       | Err e => Some (PVCApiError e)
       | Ok pv => if bool_decide (is_Some (pv_DeletionTimestamp pv)) then Some VolumeDeleting else None
       end.

Definition unsupported_key (storageClass : StorageClass) : option string :=
  head (filter (λ key, key ∈ UnsupportedTopologyKeys) (mjoin (sc_AllowedTopologies storageClass)).*1).

Definition bound_error (pvc : PersistentVolumeClaim) : option pvc_error :=
  match validateVolume (pvc_VolumeName pvc) with
  | Some e => Some e
  | None => if bool_decide (is_Some (pvc_Annotations pvc !! AnnBindCompleted)) then None else Some ClaimUnbound
  end.

Definition unbound_error (storageClassName : string) : option pvc_error :=
  if bool_decide (storageClassName = EmptyString) then Some NoStorageClass
  else match get_storage_class api storageClassName with
       | Err e => Some (PVCApiError e)
       | Ok storageClass =>
           if bool_decide (default EmptyString (sc_VolumeBindingMode storageClass) = VolumeBindingImmediate)
           then Some ImmediateUnbound
           else UnsupportedTopology <$> unsupported_key storageClass
       end.

Definition claim_error (pvc : PersistentVolumeClaim) : option pvc_error :=
  if bool_decide (is_Some (pvc_DeletionTimestamp pvc)) then Some ClaimDeleting
  else if bool_decide (pvc_Phase pvc = ClaimLost) then Some ClaimIsLost
  else
    let storageClassName := default EmptyString (pvc_StorageClassName pvc) in
    match (if negb (bool_decide (pvc_VolumeName pvc = EmptyString)) then bound_error pvc
           else unbound_error storageClassName) with
    | Some e => Some e
    | None =>
        match ResolveDriver api pvc storageClassName with
        | Err e => Some (PVCApiError e)
        | Ok driver => if bool_decide (driver ∈ UnsupportedProvisioners) then Some (UnsupportedProvisioner driver) else None
        end
    end.

Fixpoint ValidatePersistentVolumeClaims (pod : Pod) (volumes : list Volume) : option pvc_error :=
  match volumes with
  | [] => None
  | vol :: rest =>
      match GetPersistentVolumeClaim api pod vol with
      | Err e => Some (PVCApiError e)
      | Ok None => ValidatePersistentVolumeClaims pod rest
      | Ok (Some pvc) =>
          match claim_error pvc with
          | Some e => Some e
          | None => ValidatePersistentVolumeClaims pod rest
          end
      end
  end.
End validate.

(** ** The alternatives are exactly the places where every volume can be mounted *)

Section volume_topology_properties.
  Context `{LR : LabelRegistry} `{SR : !StableRegistry} (api : VolumeApi).

(** A node, given by the value of each of its labels, is allowed by a requirement map. *)
Definition admits (node : string → string) (r : Requirements) : Prop := ∀ k, Has (Get r k) (node k) = true.
Definition admits_alternative (node : string → string) (o : option Requirements) : Prop :=
  match o with Some r => admits node r | None => True end.
Definition mounts_somewhere (node : string → string) (alts : list Requirements) : Prop :=
  alts = [] ∨ ∃ a, a ∈ alts ∧ admits node a.

Definition alternative_wf (o : option Requirements) : Prop := from_option requirements_wf True o.

Lemma admits_Add node r q : requirements_wf q → admits node (Add r (Values q)) ↔ admits node r ∧ admits node q.
Proof.
  intros Hq. unfold admits. setoid_rewrite (Add_Values_Has r q _ _ Hq). setoid_rewrite andb_true_iff.
  split; [intros H; split; intros k; apply H|intros [H1 H2] k; auto].
Qed.

Lemma empty_wf : requirements_wf (NewRequirements []).
Proof. intros k req. unfold NewRequirements. cbn. by rewrite lookup_empty. Qed.

Lemma merge_admits node o q : alternative_wf o → requirements_wf q →
  admits node (mergeVolumeRequirements o q) ↔ admits_alternative node o ∧ admits node q.
Proof.
  intros Ho Hq. unfold mergeVolumeRequirements. rewrite admits_Add by done.
  assert (admits node (NewRequirements [])) as He.
  { intros k. unfold Get, NewRequirements. cbn. rewrite lookup_empty. apply Has_Exists. }
  destruct o as [r|]; simpl in *; [rewrite admits_Add by done|]; tauto.
Qed.

Lemma merge_requirements_wf o q : alternative_wf o → requirements_wf q → requirements_wf (mergeVolumeRequirements o q).
Proof.
  intros Ho Hq. unfold mergeVolumeRequirements. apply Add_Values_wf; [|done].
  destruct o as [r|]; [|apply empty_wf]. apply Add_Values_wf; [apply empty_wf|done].
Qed.

Lemma admitted_compatible node o q : alternative_wf o → requirements_wf q →
  admits_alternative node o → admits node q → volumeRequirementsCompatible o q = true.
Proof.
  intros Ho Hq Ao Aq. destruct o as [r|]; [|done]. simpl in *. apply bool_decide_eq_true. rewrite Intersects_nil.
  intros k a b Ha Hb. left. destruct (Ho _ _ Ha) as (_ & _ & ? & _), (Hq _ _ Hb) as (_ & _ & ? & _).
  apply HasIntersection_inhabited; [done..|]. exists (node k). specialize (Ao k). specialize (Aq k).
  unfold Get in Ao, Aq. by rewrite Ha in Ao; rewrite Hb in Aq.
Qed.

Lemma elem_of_mergeAll A V o :
  o ∈ mergeAllVolumeRequirementAlternatives A V ↔ ∃ e q, e ∈ A ∧ q ∈ V ∧ o = Some (mergeVolumeRequirements e q).
Proof.
  unfold mergeAllVolumeRequirementAlternatives. setoid_rewrite list_elem_of_bind. setoid_rewrite list_elem_of_bind.
  setoid_rewrite list_elem_of_singleton. naive_solver.
Qed.

Lemma elem_of_mergeCompatible A V o :
  o ∈ mergeCompatibleVolumeRequirementAlternatives A V ↔
  ∃ e q, e ∈ A ∧ q ∈ V ∧ volumeRequirementsCompatible e q = true ∧ o = Some (mergeVolumeRequirements e q).
Proof.
  unfold mergeCompatibleVolumeRequirementAlternatives. setoid_rewrite list_elem_of_bind. setoid_rewrite list_elem_of_bind.
  setoid_rewrite list_elem_of_filter. setoid_rewrite list_elem_of_singleton. naive_solver.
Qed.

(** Whichever of the two products is taken, its entries are merges of an entry of each
    side, and it has every merge that some node is allowed by. *)
Lemma elem_of_merge A V o : o ∈ mergeVolumeRequirementAlternatives A V →
  ∃ e q, e ∈ A ∧ q ∈ V ∧ o = Some (mergeVolumeRequirements e q).
Proof.
  unfold mergeVolumeRequirementAlternatives. destruct (mergeCompatibleVolumeRequirementAlternatives A V) as [|o' l] eqn:E.
  - intros Ho. by apply elem_of_mergeAll in Ho.
  - rewrite <-E. rewrite elem_of_mergeCompatible. naive_solver.
Qed.

Lemma merge_complete A V e q : e ∈ A → q ∈ V → volumeRequirementsCompatible e q = true →
  Some (mergeVolumeRequirements e q) ∈ mergeVolumeRequirementAlternatives A V.
Proof.
  intros He Hq Hc. assert (Some (mergeVolumeRequirements e q) ∈ mergeCompatibleVolumeRequirementAlternatives A V) as Hin.
  { apply elem_of_mergeCompatible. eauto 6. }
  unfold mergeVolumeRequirementAlternatives. destruct (mergeCompatibleVolumeRequirementAlternatives A V); [|done].
  by apply elem_of_nil in Hin.
Qed.

Lemma merge_nonempty A V : A ≠ [] → V ≠ [] → mergeVolumeRequirementAlternatives A V ≠ [].
Proof.
  unfold mergeVolumeRequirementAlternatives. destruct (mergeCompatibleVolumeRequirementAlternatives A V) eqn:E; [|done].
  by destruct A as [|e A], V as [|q V].
Qed.

Lemma merged_admission node A V : Forall alternative_wf A → Forall requirements_wf V →
  (∃ o, o ∈ mergeVolumeRequirementAlternatives A V ∧ admits_alternative node o) ↔
  (∃ o, o ∈ A ∧ admits_alternative node o) ∧ (∃ q, q ∈ V ∧ admits node q).
Proof.
  rewrite !Forall_forall. intros HA HV. split.
  - intros (o & (e & q & He & Hq & ->)%elem_of_merge & Ha). simpl in Ha.
    apply merge_admits in Ha as [? ?]; [|by auto..]. split; by eexists.
  - intros [(e & He & Ae) (q & Hq & Aq)]. exists (Some (mergeVolumeRequirements e q)). split.
    + apply merge_complete; [done..|]. eapply admitted_compatible; eauto.
    + simpl. apply merge_admits; auto.
Qed.

Lemma getRequirements_wf pod vol va : getRequirements api pod vol = Some (Ok va) → Forall requirements_wf va.
Proof.
  assert (∀ terms (alts : list Requirements), mapM NewNodeSelectorRequirements terms = Some alts → Forall requirements_wf alts) as Hm.
  { intros terms alts H%mapM_Some. induction H as [|t a ts al Ht ? IH]; constructor; [|done].
    by apply NewNodeSelectorRequirements_wf in Ht. }
  unfold getRequirements, getPersistentVolumeRequirements, getStorageClassRequirements.
  destruct (GetPersistentVolumeClaim api pod vol) as [[pvc|]|]; [|by intros [= <-]|done].
  destruct (bool_decide (pvc_VolumeName pvc = EmptyString)); simpl.
  - destruct (bool_decide _); [by intros [= <-]|]. destruct (get_storage_class _ _); [|done].
    destruct (mapM _ _) eqn:E; [|done]. simpl. intros [= <-]. eauto.
  - destruct (get_pv _ _) as [pv|]; [|done]. destruct (pv_RequiredTerms pv); [|by intros [= <-]].
    destruct (mapM _ _) eqn:E; [|done]. simpl. intros [= <-]. eauto.
Qed.

(** The entries so far: the unconstrained one, or only proper maps. *)
Definition entries_ok (A : list (option Requirements)) : Prop :=
  Forall alternative_wf A ∧ (A = [None] ∨ (A ≠ [] ∧ Forall is_Some A)).

Lemma merge_entries_ok A V : entries_ok A → Forall requirements_wf V → V ≠ [] → entries_ok (mergeVolumeRequirementAlternatives A V).
Proof.
  intros [HA HS] HV Hne. rewrite Forall_forall in HA. rewrite Forall_forall in HV. split; [|right; split].
  - apply Forall_forall. intros o (e & q & ? & ? & ->)%elem_of_merge. apply merge_requirements_wf; auto.
  - apply merge_nonempty; [|done]. by destruct HS as [->|[? _]].
  - apply Forall_forall. intros o (e & q & ? & ? & ->)%elem_of_merge. eauto.
Qed.

Lemma requirements_loop_spec node pod vols A B : entries_ok A → requirements_loop api pod A vols = Some (Ok B) →
  entries_ok B ∧
  ((∃ o, o ∈ B ∧ admits_alternative node o) ↔
   (∃ o, o ∈ A ∧ admits_alternative node o) ∧
   ∀ vol, vol ∈ vols → ∃ va, getRequirements api pod vol = Some (Ok va) ∧ mounts_somewhere node va).
Proof.
  revert A. induction vols as [|vol vols IH]; intros A HA; cbn [requirements_loop].
  { intros [= <-]. split; [done|]. split; [|by intros [? _]]. intros H. split; [done|]. by intros ? ?%elem_of_nil. }
  destruct (getRequirements api pod vol) as [[va|]|] eqn:Ev; [|done..]. cbn [mbind option_bind].
  assert (∀ P : Volume → Prop, (∀ v, v ∈ vol :: vols → P v) ↔ P vol ∧ ∀ v, v ∈ vols → P v) as Hc.
  { intros P. setoid_rewrite elem_of_cons. naive_solver. }
  assert (∀ Q : list Requirements → Prop, (∃ x, getRequirements api pod vol = Some (Ok x) ∧ Q x) ↔ Q va) as Hv.
  { intros Q. rewrite Ev. split; [by intros (x & [= <-] & ?)|eauto]. }
  destruct va as [|q va]; rewrite Hc, Hv; clear Hc Hv.
  - intros H. apply IH in H as [HB ->]; [|done]. split; [done|]. unfold mounts_somewhere. naive_solver.
  - intros H. pose proof (getRequirements_wf _ _ _ Ev) as Hw.
    apply IH in H as [HB ->]; [|by apply merge_entries_ok]. split; [done|].
    rewrite merged_admission by (done || apply HA). unfold mounts_somewhere. naive_solver.
Qed.

(** The requirements of a pod's volumes describe where the pod can run: when they are
    computed, a node is allowed by one of them (or there are none) exactly when every
    volume of the pod can be mounted on it, that is, when it is allowed by one of the
    terms of the volume or the volume has no terms. *)
Theorem volume_alternatives_spec node pod volumes alts :
  VolumeTopology_GetRequirements api pod volumes = Some (Ok alts) →
  mounts_somewhere node alts ↔
  ∀ vol, vol ∈ volumes → ∃ va, getRequirements api pod vol = Some (Ok va) ∧ mounts_somewhere node va.
Proof.
  unfold VolumeTopology_GetRequirements. destruct (requirements_loop api pod [None] volumes) as [[B|]|] eqn:E; [|done..]. intros [= <-].
  destruct (requirements_loop_spec node pod volumes [None] B) as [[_ HB] Hspec]; [|done|].
  { split; [by repeat constructor|by left]. }
  transitivity (∃ o, o ∈ B ∧ admits_alternative node o).
  - unfold mounts_somewhere. destruct HB as [->|[Hne HS]]; simpl.
    { split; [|by left]. intros _. exists None. split; [by left|done]. }
    rewrite Forall_forall in HS. split.
    + intros [Hnil|(a & (o & Ho & Eo)%list_elem_of_omap & Ha)]; [|simpl in Eo; subst o; by exists (Some a)].
      destruct B as [|o B]; [done|]. destruct (HS o) as [r ->]; [by left|done].
    + intros (o & Ho & Ha). right. destruct (HS o Ho) as [r ->]. exists r. split; [|done]. apply list_elem_of_omap. by exists (Some r).
  - rewrite Hspec. split; [by intros [_ ?]|]. intros H. split; [|done]. exists None. split; [by left|done].
Qed.
End volume_topology_properties.

(** ** What a validated pod is known to have *)

Section validation_properties.
  Context (api : VolumeApi) `{US : UnsupportedStorage}.

Lemma Validate_claims pod volumes : ValidatePersistentVolumeClaims api pod volumes = None ↔
  ∀ vol, vol ∈ volumes → GetPersistentVolumeClaim api pod vol = Ok None ∨
    ∃ pvc, GetPersistentVolumeClaim api pod vol = Ok (Some pvc) ∧ claim_error api pvc = None.
Proof.
  induction volumes as [|vol vols IH]; cbn [ValidatePersistentVolumeClaims].
  { split; [|done]. by intros _ ? ?%elem_of_nil. }
  setoid_rewrite elem_of_cons. destruct (GetPersistentVolumeClaim api pod vol) as [[pvc|]|e] eqn:E.
  - destruct (claim_error api pvc) as [err|] eqn:Ec.
    + split; [done|]. intros H. destruct (H vol) as [?|(p & Hp & ?)]; [by left|congruence|].
      rewrite E in Hp. injection Hp as <-. congruence.
    + rewrite IH. split; [intros H v [->|?]; eauto|eauto].
  - rewrite IH. split; [intros H v [->|?]; eauto|eauto].
  - split; [done|]. intros H. destruct (H vol) as [?|(p & ? & ?)]; [by left|congruence..].
Qed.

(** A pod whose claims pass validation uses only claims that are neither being deleted nor
    lost; a claim with a volume is completely bound to a volume that exists and is not being
    deleted, a claim without one has a storage class that waits for the first consumer
    and none of whose topologies uses an unsupported key. *)
Theorem validated_claims pod volumes vol pvc :
  ValidatePersistentVolumeClaims api pod volumes = None → vol ∈ volumes →
  GetPersistentVolumeClaim api pod vol = Ok (Some pvc) →
  pvc_DeletionTimestamp pvc = None ∧ pvc_Phase pvc ≠ ClaimLost ∧
  (pvc_VolumeName pvc ≠ EmptyString →
     is_Some (pvc_Annotations pvc !! AnnBindCompleted) ∧
     ∃ pv, get_pv api (pvc_VolumeName pvc) = Ok pv ∧ pv_DeletionTimestamp pv = None) ∧
  (pvc_VolumeName pvc = EmptyString →
     ∃ name sc, pvc_StorageClassName pvc = Some name ∧ name ≠ EmptyString ∧ get_storage_class api name = Ok sc ∧
       sc_VolumeBindingMode sc ≠ Some VolumeBindingImmediate ∧
       ∀ term key values, term ∈ sc_AllowedTopologies sc → (key, values) ∈ term → key ∉ UnsupportedTopologyKeys).
Proof.
  rewrite Validate_claims. intros H Hv Hp. destruct (H vol Hv) as [?|(pvc' & Hp' & He)]; [congruence|].
  rewrite Hp in Hp'. injection Hp' as <-. revert He. unfold claim_error.
  case_bool_decide as Hd; [done|]. case_bool_decide as Hl; [done|].
  assert (pvc_DeletionTimestamp pvc = None) by (destruct (pvc_DeletionTimestamp pvc); [by destruct Hd|done]).
  case_bool_decide as Hn; simpl.
  - intros He. split_and!; [done..|]. intros _. revert He. unfold unbound_error. case_bool_decide as Hs; [done|].
    destruct (pvc_StorageClassName pvc) as [name|]; [|done]. simpl in Hs |- *.
    destruct (get_storage_class api name) as [sc|] eqn:Esc; [|done]. case_bool_decide as Hb; [done|].
    destruct (unsupported_key sc) eqn:Eu; [done|]. intros _. exists name, sc. split_and!; [done..| |].
    + intros Hm. apply Hb. by rewrite Hm.
    + intros term key values Ht Hk Hin. unfold unsupported_key in Eu. apply head_None in Eu.
      assert (key ∈ filter (λ k, k ∈ UnsupportedTopologyKeys) (mjoin (sc_AllowedTopologies sc)).*1) as Hf.
      { apply list_elem_of_filter. split; [done|]. apply list_elem_of_fmap. exists (key, values). split; [done|].
        apply list_elem_of_join. eauto. }
      rewrite Eu in Hf. by apply elem_of_nil in Hf.
  - intros He. split_and!; [done..| |done]. intros _. revert He. unfold bound_error, validateVolume.
    rewrite bool_decide_false by done. destruct (get_pv api (pvc_VolumeName pvc)) as [pv|]; [|done].
    case_bool_decide as Hpd; [done|]. case_bool_decide; [|done]. intros _. split; [done|]. exists pv. split; [done|].
    destruct (pv_DeletionTimestamp pv); [by destruct Hpd|done].
Qed.
End validation_properties.
