(* ===== verification/PodValidation.v ===== *)
(** * PodValidation: which pods the provisioner takes
    ([Provisioner.Validate] and its helpers of pkg/controllers/provisioning/provisioner.go,
    [ValidateRequirement] and the checks of taints of pkg/apis/v1/nodeclaim_validation.go)

    Errors are lists, as [multierr] collects them; an empty list is no error. Operators are
    those of the type, so the check for unknown operators has nothing to reject. *)

From S2P Require Import Prelude Labels Requirement Objects Requirements Taints Volumes VolumeTopology.

(** The syntax checks of the API machinery. *)
Class NameSyntax := {
  IsQualifiedName : string → bool;
  IsValidLabelValue : string → bool;
}.

(** [WellKnownValuesForRequirements], which a provider may extend. *)
Class KnownValues := { WellKnownValuesForRequirements : gmap string (gset string) }.

Definition default_known_values : KnownValues := {|
  WellKnownValuesForRequirements := {[CapacityTypeLabelKey := {[CapacityTypeOnDemand; CapacityTypeSpot; CapacityTypeReserved]}]};
|}.

Inductive requirement_error :=
| RestrictedLabel (key : string)
| NoValidValues (key : string)
| NotEnoughValidValues (key : string)
| KeyNotQualified (key : string)
| InvalidLabelValue (value : string)
| ValuesMissing (key : string)
| FewerThanMinValues (key : string)
| NotOneInteger (key : string).

Section requirement_checks.
  Context `{LR : LabelRegistry} `{NS : NameSyntax} `{KV : KnownValues}.

Definition validateWellKnownValues (key : string) (op : NodeSelectorOperator) (vals : list string) (minValues : option Z)
    : list requirement_error :=
  if negb (bool_decide (key ∈ WellKnownLabels)) || negb (bool_decide (op = OpIn)) then []
  else match WellKnownValuesForRequirements !! key with
       | None => []
       | Some knownValues =>
           let values := filter (λ val, val ∈ knownValues) vals in
           if (length values =? 0)%nat then [NoValidValues key]
           else match minValues with
                | Some m => if (Z.of_nat (length values) <? m)%Z then [NotEnoughValidValues key] else []
                | None => []
                end
       end.

Definition is_ordered (op : NodeSelectorOperator) : bool :=
  match op with OpGt | OpLt | OpGte | OpLte => true | _ => false end.

(** A single value that is an integer and not negative. *)
Definition one_integer (vals : list string) : bool :=
  match vals with
  | [v] => match Atoi v with (value, None) => (0 <=? value)%Z | _ => false end
  | _ => false
  end.

Definition ValidateRequirement (requirement : NodeSelectorRequirementWithMinValues) : list requirement_error :=
  let key := normalize_key (nsr_Key requirement) in
  let op := nsr_Operator requirement in
  let vals := nsr_Values requirement in
  (if IsRestrictedLabel key then [RestrictedLabel key] else []) ++
  validateWellKnownValues key op vals (nsr_MinValues requirement) ++
  (if IsQualifiedName key then [] else [KeyNotQualified key]) ++
  (InvalidLabelValue <$> filter (λ v, IsValidLabelValue v = false) vals) ++
  (if bool_decide (op = OpIn) && (length vals =? 0)%nat then [ValuesMissing key] else []) ++
  match nsr_MinValues requirement with
  | Some m => if bool_decide (op = OpIn) && (Z.of_nat (length vals) <? m)%Z then [FewerThanMinValues key] else []
  | None => []
  end ++
  (if is_ordered op && negb (one_integer vals) then [NotOneInteger key] else []).
End requirement_checks.

(** ** The taints of a template *)

Inductive taint_error := TaintKeyEmpty | TaintKeyInvalid | TaintValueInvalid | DuplicateTaint (key : string) (effect : TaintEffect).

Section taint_checks.
  Context `{NS : NameSyntax}.

(** The set holds the pairs of keys and effects seen so far. *)
Definition validate_taint (st : list taint_error * list (string * TaintEffect)) (taint : Taint)
    : list taint_error * list (string * TaintEffect) :=
  let '(errs, existing) := st in
  let key := (taint_Key taint, taint_Effect taint) in
  (errs ++
   (if bool_decide (taint_Key taint = EmptyString) then [TaintKeyEmpty] else []) ++
   (if IsQualifiedName (taint_Key taint) then [] else [TaintKeyInvalid]) ++
   (if bool_decide (taint_Value taint = EmptyString) || IsQualifiedName (taint_Value taint) then [] else [TaintValueInvalid]) ++
   (if bool_decide (key ∈ existing) then [DuplicateTaint (taint_Key taint) (taint_Effect taint)] else []),
   key :: existing).

Definition validateTaintsField (taints : list Taint) (existing : list (string * TaintEffect))
    : list taint_error * list (string * TaintEffect) := foldl validate_taint ([], existing) taints.

Definition validateTaints (taints startupTaints : list Taint) : list taint_error :=
  let '(errs, existing) := validateTaintsField taints [] in
  errs ++ (validateTaintsField startupTaints existing).1.
End taint_checks.

(** ** Pods *)

Inductive pod_error :=
| KarpenterManagedLabelDoesNotExist
| MatchFieldsUnsupported
| PodRequirementError (e : requirement_error)
| PodVolumeError (e : pvc_error).

Section pod_checks.
  Context `{LR : LabelRegistry} `{NS : NameSyntax} `{KV : KnownValues} `{US : UnsupportedStorage}.
  (** The volumes of a pod, and whether a required node affinity term has matchFields. *)
  Context (api : VolumeApi) (spec_Volumes : Pod → list Volume) (spec_MatchFields : Pod → list bool).

(** [None] is a panic while the pod's requirements are built. *)
Definition validateKarpenterManagedLabelCanExist (p : Pod) : option (list pod_error) :=
  reqs ← NewPodRequirements p;
  Some (match reqs !! NodePoolLabelKey with
        | Some req => if bool_decide (Operator req = OpDoesNotExist) then [KarpenterManagedLabelDoesNotExist] else []
        | None => []
        end).

Definition validateNodeSelectorTerm (term : list CoreNodeSelectorRequirement) (matchFields : bool) : list pod_error :=
  (if matchFields then [MatchFieldsUnsupported] else []) ++
  (PodRequirementError <$> (term ≫= λ r, ValidateRequirement (mkNSR (cnsr_Key r) (cnsr_Operator r) (cnsr_Values r) None))).

Definition validateNodeSelector (p : Pod) : list pod_error :=
  map_to_list (pod_NodeSelector p) ≫= λ '(k, v), validateNodeSelectorTerm [mkCoreNSR k OpIn [v]] false.

Definition required_terms (p : Pod) : list (list CoreNodeSelectorRequirement) :=
  match pod_Affinity p ≫= NodeAffinity with Some na => default [] (RequiredTerms na) | None => [] end.

Definition validateAffinity (p : Pod) : list pod_error :=
  imap (λ i term, validateNodeSelectorTerm term (default false (spec_MatchFields p !! i))) (required_terms p) ≫= id.

Definition Validate (p : Pod) : option (list pod_error) :=
  managed ← validateKarpenterManagedLabelCanExist p;
  Some (managed ++ validateNodeSelector p ++ validateAffinity p ++
        option_list (PodVolumeError <$> ValidatePersistentVolumeClaims api p (spec_Volumes p))).
End pod_checks.

(** ** What validation guarantees *)

Section requirement_properties.
  Context `{LR : LabelRegistry} `{NS : NameSyntax} `{KV : KnownValues}.

(** C38: a requirement without errors can be turned into a scheduling requirement without a
    panic, names no restricted label, has values where its operator needs them and a
    non-negative integer bound where its operator is an order. *)
Theorem ValidateRequirement_sound r : ValidateRequirement r = [] →
  is_Some (NewRequirementWithFlexibility (nsr_Key r) (nsr_Operator r) (nsr_MinValues r) (nsr_Values r)) ∧
  IsRestrictedLabel (normalize_key (nsr_Key r)) = false ∧
  Forall (λ v, IsValidLabelValue v = true) (nsr_Values r) ∧
  (nsr_Operator r = OpIn → nsr_Values r ≠ [] ∧
     (∀ m, nsr_MinValues r = Some m → (m ≤ Z.of_nat (length (nsr_Values r)))%Z) ∧
     (∀ known, normalize_key (nsr_Key r) ∈ WellKnownLabels →
        WellKnownValuesForRequirements !! normalize_key (nsr_Key r) = Some known →
        ∃ v, v ∈ nsr_Values r ∧ v ∈ known)) ∧
  (is_ordered (nsr_Operator r) = true → ∃ v b, nsr_Values r = [v] ∧ Atoi v = (b, None) ∧ (0 ≤ b)%Z).
Proof.
  destruct r as [key op vals mv]. unfold ValidateRequirement. cbn [nsr_Key nsr_Operator nsr_MinValues nsr_Values].
  rewrite !app_nil. intros (Hr & Hk & _ & Hv & Hin & Hmv & Ho).
  assert (is_ordered op = true → ∃ v b, vals = [v] ∧ Atoi v = (b, None) ∧ (0 ≤ b)%Z) as Hord.
  { intros Eo. rewrite Eo in Ho. destruct (one_integer vals) eqn:E1; [|done]. unfold one_integer in E1.
    destruct vals as [|v [|? ?]]; try done. destruct (Atoi v) as [b [?|]] eqn:Ea; [done|]. exists v, b. by rewrite Z.leb_le in E1. }
  split_and!.
  - apply (NewRequirementWithFlexibility_total (mkCoreNSR key op vals) mv). unfold operand_given. cbn.
    destruct op; try done; destruct (Hord eq_refl) as (v & b & -> & _); done.
  - by destruct (IsRestrictedLabel _).
  - apply fmap_nil_inv in Hv. apply Forall_forall. intros v Hin'. destruct (IsValidLabelValue v) eqn:E; [done|].
    assert (v ∈ filter (λ v, IsValidLabelValue v = false) vals) as Hf by by apply list_elem_of_filter.
    rewrite Hv in Hf. by apply elem_of_nil in Hf.
  - intros ->. rewrite bool_decide_true in Hin, Hmv by done. split_and!.
    + by destruct vals.
    + intros m ->. cbn in Hmv. destruct (Z.ltb_spec (Z.of_nat (length vals)) m); [done|lia].
    + intros known Hwk Hknown. unfold validateWellKnownValues in Hk. rewrite bool_decide_true, Hknown in Hk by done. cbn in Hk.
      destruct (filter (λ val, val ∈ known) vals) as [|v l] eqn:Ef; [done|]. exists v.
      assert (v ∈ filter (λ val, val ∈ known) vals) as [? ?]%list_elem_of_filter by (rewrite Ef; by left). done.
  - done.
Qed.

(** Validation lets the bound 0 of [Lt] pass, which no value satisfies: its upper bound is -1. *)
Lemma Lt_zero_validated key : normalize_key key = key → IsRestrictedLabel key = false → IsQualifiedName key = true →
  IsValidLabelValue "0" = true → ValidateRequirement (mkNSR key OpLt ["0"%string] None) = [].
Proof.
  intros Hk Hr Hq Hv. assert (one_integer ["0"%string] = true) as H0 by (vm_compute; reflexivity).
  unfold ValidateRequirement, validateWellKnownValues. cbn [nsr_Key nsr_Operator nsr_Values nsr_MinValues].
  rewrite Hk, Hr, Hq, H0, filter_cons_False by congruence. rewrite (bool_decide_false (OpLt = OpIn)) by done. by rewrite orb_true_r.
Qed.
End requirement_properties.

(** ** Taints of a template are unique *)

Section taint_properties.
  Context `{NS : NameSyntax}.

Lemma validate_taints_loop taints errs existing :
  let st := foldl validate_taint (errs, existing) taints in
  st.2 = rev ((λ t, (taint_Key t, taint_Effect t)) <$> taints) ++ existing ∧
  (st.1 = [] ↔ errs = [] ∧
     Forall (λ t, taint_Key t ≠ EmptyString ∧ IsQualifiedName (taint_Key t) = true ∧
                  (taint_Value t = EmptyString ∨ IsQualifiedName (taint_Value t) = true)) taints ∧
     NoDup ((λ t, (taint_Key t, taint_Effect t)) <$> taints) ∧
     ∀ t, t ∈ taints → (taint_Key t, taint_Effect t) ∉ existing).
Proof.
  revert errs existing. induction taints as [|t ts IH]; intros errs existing; cbn [foldl].
  { split; [done|]. split; [|by intros [? _]]. intros H. split_and!; [done|constructor|constructor|]. by intros ? ?%elem_of_nil. }
  destruct (validate_taint (errs, existing) t) as [errs' existing'] eqn:Et. unfold validate_taint in Et. injection Et as <- <-.
  cbn zeta in *. match goal with |- context [foldl validate_taint (?e, ?x) ts] => destruct (IH e x) as [IH1 IH2] end. split.
  - rewrite IH1. cbn. by rewrite <-app_assoc.
  - rewrite IH2. clear IH IH1 IH2. rewrite !app_nil, fmap_cons, NoDup_cons, Forall_cons.
    setoid_rewrite elem_of_cons. rewrite list_elem_of_fmap.
    assert (∀ (b : bool) (x : taint_error), (if b then [x] else []) = [] ↔ b = false) as Hb by by intros [].
    assert (∀ (b : bool) (x : taint_error), (if b then [] else [x]) = [] ↔ b = true) as Hb' by by intros [].
    rewrite !Hb, !Hb', orb_true_iff, !bool_decide_eq_false, bool_decide_eq_true. split.
    + intros ((-> & ? & ? & ? & Hne) & ? & ? & Hex). split_and!; try done.
      * intros (t0 & E & Ht0). destruct (Hex t0 Ht0). by left.
      * intros t0 [->|Ht0]; [done|]. intros Hin. destruct (Hex t0 Ht0). by right.
    + intros (-> & [(? & ? & ?) ?] & [Hno ?] & Hex). split_and!; try done; [apply Hex; by left|].
      intros t0 Ht0 [E|Hin]; [destruct Hno; by exists t0|]. eapply Hex; [by right|done].
Qed.

(** The taints and startup taints of a template pass validation exactly when keys are
    non-empty qualified names, values are empty or qualified, and no pair of key and effect
    occurs twice in the two lists together. *)
Theorem validateTaints_spec taints startupTaints :
  validateTaints taints startupTaints = [] ↔
  Forall (λ t, taint_Key t ≠ EmptyString ∧ IsQualifiedName (taint_Key t) = true ∧
               (taint_Value t = EmptyString ∨ IsQualifiedName (taint_Value t) = true)) (taints ++ startupTaints) ∧
  NoDup ((λ t, (taint_Key t, taint_Effect t)) <$> taints ++ startupTaints).
Proof.
  unfold validateTaints, validateTaintsField. pose proof (validate_taints_loop taints [] []) as [H1 H2]. cbn zeta in H1, H2.
  destruct (foldl validate_taint ([], []) taints) as [errs existing]. cbn [fst snd] in *. subst existing.
  rewrite app_nil, H2, app_nil_r.
  pose proof (validate_taints_loop startupTaints [] (rev ((λ t, (taint_Key t, taint_Effect t)) <$> taints))) as [_ ->].
  rewrite Forall_app, fmap_app, NoDup_app. setoid_rewrite list_elem_of_In. setoid_rewrite <-in_rev.
  setoid_rewrite <-list_elem_of_In. setoid_rewrite list_elem_of_fmap. split.
  - intros ((_ & ? & ? & _) & _ & ? & ? & Hd). split_and!; [done..| |done].
    intros x (t & -> & Ht) (t' & Et & Ht'). by destruct (Hd t'); [done|]; exists t.
  - intros ((? & ?) & ? & Hd & ?). split_and!; [done..| | | | |]; try done.
    + by intros ? ? ?%elem_of_nil.
    + intros t Ht (t' & Et & Ht'). by eapply Hd; [exists t'|exists t].
Qed.
End taint_properties.
