(* ===== verification/InstanceTypes.v ===== *)
(** * InstanceTypes: instance types and offerings (pkg/cloudprovider/types.go,
    pkg/cloudprovider/capacitytype.go)

    Prices are finite float64 values.  The code modelled here only compares
    them, so a price is its exact integer multiple of the smallest positive
    float64, an order embedding of the finite floats into [Z]. *)

From Stdlib Require Import Ascii DecimalString.
From S2P Require Import Prelude Float64 Labels Requirement Objects Requirements Resources.

(** ** Data *)

Record InstanceTypeOverhead := mkOverhead {
  KubeReserved : ResourceList;
  SystemReserved : ResourceList;
  EvictionThreshold : ResourceList;
}.

#[export] Instance InstanceTypeOverhead_eq_dec : EqDecision InstanceTypeOverhead.
Proof. solve_decision. Defined.

Definition Overhead_Total (o : InstanceTypeOverhead) : ResourceList :=
  Merge [KubeReserved o; SystemReserved o; EvictionThreshold o].

Record Offering := mkOffering {
  of_Requirements : Requirements;
  Price : Z;
  Available : bool;
  ReservationCapacity : Z;
  CapacityOverride : ResourceList;
  OverheadOverride : option InstanceTypeOverhead;
  priceOverlayApplied : bool;
}.

#[export] Instance Offering_eq_dec : EqDecision Offering.
Proof. solve_decision. Defined.

Record InstanceType := mkInstanceType {
  it_Name : string;
  it_Requirements : Requirements;
  Offerings : list Offering;
  Capacity : ResourceList;
  VolumeAttachmentLimits : gmap string Z;
  Overhead : InstanceTypeOverhead;
  capacityOverlayApplied : bool;
}.

#[export] Instance InstanceType_eq_dec : EqDecision InstanceType.
Proof. solve_decision. Defined.

Record AllocatableOfferings := mkAllocatableOfferings {
  Allocatable_ : ResourceList;
  ao_Offerings : list Offering;
}.

(** [lo.Assign]: later maps override earlier ones. *)
Definition lo_Assign {V} (a b : gmap string V) : gmap string V := b ∪ a.

(** [corev1.ResourceHugePagesPrefix]. *)
Definition ResourceHugePagesPrefix : string := "hugepages-".

(** ** Allocatable resources *)

(** The loop of [computeAllocatable] over a capacity. *)
Definition reserve_hugepages (allocatable capacity : ResourceList) : ResourceList :=
  map_fold (λ name quantity allocatable,
    if HasPrefix name ResourceHugePagesPrefix then
      let current := (qty allocatable ResourceMemory - quantity)%Z in
      <[ResourceMemory := if (current <? 0)%Z then 0%Z else current]> allocatable
    else allocatable) allocatable capacity.

Definition computeAllocatable (i : InstanceType) (capacityOverride : ResourceList)
    (overheadOverride : option InstanceTypeOverhead) : ResourceList :=
  let capacity := if (0 <? size capacityOverride)%nat
                  then lo_Assign (Capacity i) capacityOverride else Capacity i in
  let overhead := Overhead_Total (Overhead i) in
  let overhead := match overheadOverride with
                  | Some o => lo_Assign overhead (Overhead_Total o)
                  | None => overhead
                  end in
  reserve_hugepages (Subtract capacity overhead) capacity.

Definition Offerings_Available (ofs : list Offering) : list Offering :=
  filter (λ o, Available o = true) ofs.

(** Whether an offering overrides capacity or overhead. *)
Definition has_override (o : Offering) : bool :=
  (0 <? size (CapacityOverride o))%nat || bool_decide (is_Some (OverheadOverride o)).

Section grouping.
  (** The text [fmt.Sprintf("%v", ...)] of the two overrides, the key of a group. *)
  Context (override_text : ResourceList → option InstanceTypeOverhead → string).

Definition override_key (o : Offering) : option string :=
  if has_override o then Some (override_text (CapacityOverride o) (OverheadOverride o)) else None.

  (** [groups] and [order] together: the groups in order of creation, the base
      group ([None]) first. *)
Fixpoint add_to_group (key : option string) (o : Offering)
    (groups : list (option string * list Offering)) : list (option string * list Offering) :=
  match groups with
  | [] => [(key, [o])]
  | (k, ofs) :: rest =>
      if decide (k = key) then (k, ofs ++ [o]) :: rest else (k, ofs) :: add_to_group key o rest
  end.

Definition group_offerings (ofs : list Offering) : list (option string * list Offering) :=
  foldl (λ groups o, if Available o then add_to_group (override_key o) o groups else groups)
    [(None, [])] ofs.

Definition groupOfferingsByOverride (i : InstanceType) : list AllocatableOfferings :=
  (λ kg, mkAllocatableOfferings
           match kg.1, kg.2 with
           | Some _, o :: _ => computeAllocatable i (CapacityOverride o) (OverheadOverride o)
           | _, _ => computeAllocatable i ∅ None
           end kg.2) <$> group_offerings (Offerings i).

Definition precompute (i : InstanceType) : list AllocatableOfferings :=
  if negb (existsb has_override (Offerings i)) then
    [mkAllocatableOfferings (computeAllocatable i ∅ None) (Offerings_Available (Offerings i))]
  else groupOfferingsByOverride i.

  (** [once.Do] makes the result a function of the instance type. *)
Definition AllocatableOfferingsList (i : InstanceType) : list AllocatableOfferings := precompute i.

Definition Allocatable (i : InstanceType) : ResourceList :=
  match AllocatableOfferingsList i with
  | g :: _ => Allocatable_ g
  | [] => ∅
  end.
End grouping.

Definition IsPricingOverlayApplied (i : InstanceType) : bool :=
  existsb priceOverlayApplied (Offerings i).

Definition ApplyCapacityOverlay (i : InstanceType) (updatedCapacity : ResourceList) : InstanceType :=
  mkInstanceType (it_Name i) (it_Requirements i) (Offerings i)
    (lo_Assign (Capacity i) updatedCapacity) (VolumeAttachmentLimits i) (Overhead i) true.

(** ** Offerings *)

Section offerings.
  Context `{LR : LabelRegistry}.

Definition Offering_Launchable (o : Offering) : bool :=
  if negb (Available o) then false
  else match of_Requirements o !! CapacityTypeLabelKey with
       | None => true
       | Some req => negb (Has req CapacityTypeReserved) || (ReservationCapacity o >? 0)%Z
       end.

Definition Offerings_Launchable (ofs : list Offering) : list Offering :=
  filter (λ o, Offering_Launchable o = true) ofs.

Definition Offerings_Compatible (ofs : list Offering) (reqs : Requirements) : list Offering :=
  filter (λ o, IsCompatible reqs (of_Requirements o) WellKnownLabels = true) ofs.

Definition Offerings_HasCompatible (ofs : list Offering) (reqs : Requirements) : bool :=
  existsb (λ o, IsCompatible reqs (of_Requirements o) WellKnownLabels) ofs.

  (** [lo.MinBy] and [lo.MaxBy] keep the first extremal element. *)
Definition pick_by (better : Offering → Offering → bool) (ofs : list Offering) : option Offering :=
  match ofs with
  | [] => None
  | o :: rest => Some (foldl (λ best item, if better item best then item else best) o rest)
  end.

Definition Cheapest (ofs : list Offering) : option Offering :=
  pick_by (λ a b, (Price a <? Price b)%Z) ofs.

Definition MostExpensive (ofs : list Offering) : option Offering :=
  pick_by (λ a b, (Price a >? Price b)%Z) ofs.
End offerings.

(** ** Instance types *)

Section instance_types.
  Context `{LR : LabelRegistry}.

Definition cheapest_compatible_price (reqs : Requirements) (it : InstanceType) : Z :=
  foldl (λ price o,
    if Offering_Launchable o && IsCompatible reqs (of_Requirements o) WellKnownLabels
       && (Price o <? price)%Z then Price o else price) MaxFloat64 (Offerings it).

Definition OrderByPrice (its : list InstanceType) (reqs : Requirements) : list InstanceType :=
  (sort_by (λ a b, (a.2 <? b.2)%Z)
     ((λ it, (it, cheapest_compatible_price reqs it)) <$> its)).*1.

Definition InstanceTypes_Compatible (its : list InstanceType) (requirements : Requirements)
    : list InstanceType :=
  filter (λ it, Offerings_HasCompatible (Offerings_Available (Offerings it)) requirements = true) its.

  (** The values an instance type contributes to a requirement that has minValues. *)
Definition allowed_values (req : Requirement) (it : InstanceType) : gset string :=
  filter (λ value, Has req value = true) (values (Get (it_Requirements it) (Key req))).

Definition count_values (requirements : Requirements) (valuesForKey : gmap string (gset string))
    (it : InstanceType) : gmap string (gset string) :=
  map_fold (λ _ req acc,
    match minValues req with
    | Some _ => <[Key req := default ∅ (acc !! Key req) ∪ allowed_values req it]> acc
    | None => acc
    end) valuesForKey requirements.

Definition incompatible_keys (requirements : Requirements) (valuesForKey : gmap string (gset string))
    (incompatibleKeys : gmap string Z) : gmap string Z :=
  map_fold (λ k v acc,
    if (Z.of_nat (size v) <? default 0%Z (minValues (Get requirements k)))%Z
    then <[k := Z.of_nat (size v)]> acc else delete k acc) incompatibleKeys valuesForKey.

Fixpoint SatisfiesMinValues_loop (requirements : Requirements) (i : nat)
    (valuesForKey : gmap string (gset string)) (incompatibleKeys : gmap string Z)
    (its : list InstanceType) : nat * gmap string Z :=
  match its with
  | [] => (i, incompatibleKeys)
  | it :: rest =>
      let valuesForKey := count_values requirements valuesForKey it in
      let incompatibleKeys := incompatible_keys requirements valuesForKey incompatibleKeys in
      if (size incompatibleKeys =? 0)%nat then (S i, ∅)
      else SatisfiesMinValues_loop requirements (S i) valuesForKey incompatibleKeys rest
  end.

  (** The number of instance types needed, and the unsatisfied keys: the error is
      nil exactly when there are none. *)
Definition SatisfiesMinValues (its : list InstanceType) (requirements : Requirements)
    : nat * gmap string Z :=
  if negb (HasMinValues requirements) then (0, ∅)
  else SatisfiesMinValues_loop requirements 0 ∅ ∅ its.

Inductive MinValuesPolicy := MinValuesPolicyStrict | MinValuesPolicyBestEffort.

#[export] Instance MinValuesPolicy_eq_dec : EqDecision MinValuesPolicy.
Proof. solve_decision. Defined.

  (** [OrderByPrice] sorts the receiver in place, so on an error the caller gets
      the sorted, untruncated list back. *)
Definition Truncate (policy : MinValuesPolicy) (its : list InstanceType)
    (requirements : Requirements) (maxItems : nat) : result (gmap string Z) (list InstanceType) :=
  let truncated := take maxItems (OrderByPrice its requirements) in
  if HasMinValues requirements && negb (bool_decide (policy = MinValuesPolicyBestEffort)) then
    let unsatisfied := (SatisfiesMinValues truncated requirements).2 in
    if (size unsatisfied =? 0)%nat then Ok truncated else Err unsatisfied
  else Ok truncated.
End instance_types.

(** ** Minimum values *)

Section min_values.
  Context `{LR : LabelRegistry}.

(** Requirements are filed under their own key. *)
Definition keyed (r : Requirements) : Prop := ∀ k req, r !! k = Some req → Key req = k.

Lemma requirements_wf_keyed r : requirements_wf r → keyed r.
Proof. intros Hr k req Hk. by apply Hr in Hk as [? _]. Qed.

(** The distinct values the instance types offer for a requirement and that it allows. *)
Definition distinct_values (req : Requirement) (its : list InstanceType) : gset string :=
  ⋃ (allowed_values req <$> its).

(** The contract: every requirement with minValues sees that many distinct values. *)
Definition min_values_met (r : Requirements) (its : list InstanceType) : Prop :=
  ∀ k req n, r !! k = Some req → minValues req = Some n →
    (n ≤ Z.of_nat (size (distinct_values req its)))%Z.

Lemma count_values_lookup r vfk it k :
  keyed r →
  count_values r vfk it !! k =
    match r !! k with
    | Some req => if minValues req is Some _
                  then Some (default ∅ (vfk !! k) ∪ allowed_values req it) else vfk !! k
    | None => vfk !! k
    end.
Proof.
  intros Hr. unfold count_values. revert k. revert Hr.
  refine (map_fold_weak_ind (λ (acc : gmap string (gset string)) (m : Requirements), keyed m → ∀ k, acc !! k = match m !! k with
    | Some req => if minValues req is Some _ then Some (default ∅ (vfk !! k) ∪ allowed_values req it) else vfk !! k
    | None => vfk !! k end) _ _ _ _ r).
  - intros _ k. by rewrite lookup_empty.
  - intros i req m acc Hi IH Hkeyed k.
    assert (Key req = i) as HK by (apply Hkeyed; by rewrite lookup_insert_eq).
    assert (keyed m) as Hm.
    { intros k' q Hq. apply Hkeyed. rewrite lookup_insert_ne; [done|congruence]. }
    specialize (IH Hm). rewrite HK.
    destruct (decide (i = k)) as [<-|Hne].
    + rewrite lookup_insert_eq. destruct (minValues req); [|by rewrite IH, Hi].
      rewrite lookup_insert_eq, IH, Hi. done.
    + rewrite (lookup_insert_ne m) by done.
      destruct (minValues req); [by rewrite lookup_insert_ne|done].
Qed.

Lemma incompatible_keys_lookup r vfk inc k :
  incompatible_keys r vfk inc !! k =
    match vfk !! k with
    | Some v => if (Z.of_nat (size v) <? default 0%Z (minValues (Get r k)))%Z
                then Some (Z.of_nat (size v)) else None
    | None => inc !! k
    end.
Proof.
  unfold incompatible_keys. revert k.
  refine (map_fold_weak_ind (λ (acc : gmap string Z) (m : gmap string (gset string)), ∀ k, acc !! k = match m !! k with
    | Some v => if (Z.of_nat (size v) <? default 0%Z (minValues (Get r k)))%Z
                then Some (Z.of_nat (size v)) else None
    | None => inc !! k end) _ _ _ _ vfk).
  - intros k. by rewrite lookup_empty.
  - intros i v m acc Hi IH k. destruct (decide (i = k)) as [<-|Hne].
    + rewrite lookup_insert_eq.
      destruct (_ <? _)%Z; [by rewrite lookup_insert_eq|by rewrite lookup_delete_eq].
    + rewrite (lookup_insert_ne m) by done.
      destruct (_ <? _)%Z; [by rewrite lookup_insert_ne|by rewrite lookup_delete_ne].
Qed.

(** The loop's state after a non-empty prefix of the list. *)
Definition counted (r : Requirements) (prefix : list InstanceType)
    (vfk : gmap string (gset string)) : Prop :=
  ∀ k, vfk !! k = match r !! k with
                  | Some req => if minValues req is Some _
                                then Some (distinct_values req prefix) else None
                  | None => None
                  end.

Definition unsatisfied (r : Requirements) (prefix : list InstanceType) (inc : gmap string Z) : Prop :=
  ∀ k, inc !! k = match r !! k with
                  | Some req =>
                      match minValues req with
                      | Some n => let c := Z.of_nat (size (distinct_values req prefix)) in
                                  if (c <? n)%Z then Some c else None
                      | None => None
                      end
                  | None => None
                  end.

Lemma distinct_values_snoc req prefix it :
  distinct_values req (prefix ++ [it]) = distinct_values req prefix ∪ allowed_values req it.
Proof.
  unfold distinct_values. rewrite fmap_app, union_list_app_L. csimpl. set_solver.
Qed.

Lemma counted_snoc r prefix it vfk :
  keyed r → (prefix = [] ∧ vfk = ∅) ∨ counted r prefix vfk →
  counted r (prefix ++ [it]) (count_values r vfk it).
Proof.
  intros Hk Hc k. rewrite count_values_lookup by done.
  destruct (r !! k) as [req|] eqn:E.
  - destruct (minValues req) eqn:Em.
    + rewrite distinct_values_snoc. do 2 f_equal.
      destruct Hc as [[-> ->]|Hc]; [by rewrite lookup_empty|]. by rewrite Hc, E, Em.
    + destruct Hc as [[-> ->]|Hc]; [by rewrite lookup_empty|]. by rewrite Hc, E, Em.
  - destruct Hc as [[-> ->]|Hc]; [by rewrite lookup_empty|]. by rewrite Hc, E.
Qed.

Lemma unsatisfied_of_counted r prefix vfk inc :
  counted r prefix vfk → (∀ k, vfk !! k = None → inc !! k = None) →
  unsatisfied r prefix (incompatible_keys r vfk inc).
Proof.
  intros Hc Hinc k. rewrite incompatible_keys_lookup. pose proof (Hc k) as Hk.
  destruct (vfk !! k) as [v|] eqn:E.
  - destruct (r !! k) as [req|] eqn:Er; [|done]. destruct (minValues req) as [n|] eqn:En; [|done].
    injection Hk as ->. unfold Get. by rewrite Er, En.
  - rewrite Hinc by done. destruct (r !! k) as [req|]; [|done]. by destruct (minValues req).
Qed.

Lemma unsatisfied_empty r prefix inc :
  unsatisfied r prefix inc → (size inc =? 0)%nat = true ↔ min_values_met r prefix.
Proof.
  intros Hu. rewrite Nat.eqb_eq, map_size_empty_iff. split.
  - intros -> k req n Hk Hn. specialize (Hu k). rewrite lookup_empty, Hk, Hn in Hu. simpl in Hu.
    destruct (Z.ltb_spec (Z.of_nat (size (distinct_values req prefix))) n); [done|lia].
  - intros Hm. apply map_eq. intros k. rewrite lookup_empty, Hu.
    destruct (r !! k) as [req|] eqn:E; [|done]. destruct (minValues req) as [n|] eqn:En; [|done].
    specialize (Hm k req n E En). simpl.
    destruct (Z.ltb_spec (Z.of_nat (size (distinct_values req prefix))) n); [lia|done].
Qed.

Lemma SatisfiesMinValues_loop_spec r prefix its vfk inc :
  keyed r →
  ((prefix = [] ∧ vfk = ∅ ∧ inc = ∅) ∨
   (counted r prefix vfk ∧ unsatisfied r prefix inc ∧ ¬ min_values_met r prefix)) →
  let '(n, bad) := SatisfiesMinValues_loop r (length prefix) vfk inc its in
  (bad = ∅ ∧ (length prefix < n ≤ length (prefix ++ its))%nat ∧
     min_values_met r (take n (prefix ++ its)) ∧
     ∀ m, (length prefix < m < n)%nat → ¬ min_values_met r (take m (prefix ++ its))) ∨
  (n = length (prefix ++ its) ∧ (its = [] → bad = inc) ∧
     (its ≠ [] → bad ≠ ∅ ∧ unsatisfied r (prefix ++ its) bad) ∧
     ∀ m, (length prefix < m ≤ n)%nat → ¬ min_values_met r (take m (prefix ++ its))).
Proof.
  intros Hk. revert prefix vfk inc. induction its as [|it its IH]; intros prefix vfk inc Hst; simpl.
  { right. rewrite app_nil_r. split_and!; try done. intros m Hm. lia. }
  set (vfk' := count_values r vfk it). set (inc' := incompatible_keys r vfk' inc).
  assert (counted r (prefix ++ [it]) vfk') as Hc.
  { apply counted_snoc; [done|]. destruct Hst as [(? & ? & ?)|(? & ? & ?)]; auto. }
  assert (unsatisfied r (prefix ++ [it]) inc') as Hu.
  { apply unsatisfied_of_counted; [done|]. intros k Hn.
    destruct Hst as [(-> & -> & ->)|(Hc0 & Hu0 & _)]; [by rewrite lookup_empty|].
    specialize (Hc k). rewrite Hu0. destruct (r !! k) as [req|]; [|done].
    destruct (minValues req); [congruence|done]. }
  assert (take (S (length prefix)) (prefix ++ it :: its) = prefix ++ [it]) as Htk.
  { rewrite (cons_middle it), app_assoc.
    replace (S (length prefix)) with (length (prefix ++ [it])) by (rewrite length_app; simpl; lia).
    apply take_app_length. }
  destruct (size inc' =? 0)%nat eqn:Hs.
  - left. apply (unsatisfied_empty _ _ _ Hu) in Hs. split_and!; [done|lia| |by rewrite Htk|].
    + rewrite length_app; simpl; lia.
    + intros m Hm. lia.
  - assert (¬ min_values_met r (prefix ++ [it])) as Hnm.
    { intros Hm. apply (unsatisfied_empty _ _ _ Hu) in Hm. congruence. }
    specialize (IH (prefix ++ [it]) vfk' inc' ltac:(auto)).
    rewrite length_app, Nat.add_1_r in IH. rewrite <-!app_assoc in IH. simpl in IH.
    destruct (SatisfiesMinValues_loop _ _ _ _ its) as [n bad].
    assert (∀ m, (length prefix < m)%nat → (S (length prefix) < m → ¬ min_values_met r (take m (prefix ++ it :: its)))%nat →
      ¬ min_values_met r (take m (prefix ++ it :: its))) as Hstep.
    { intros m Hm Hgt. destruct (decide (m = S (length prefix))) as [->|]; [by rewrite Htk|].
      apply Hgt. lia. }
    destruct IH as [(-> & Hn & Hmet & Hmin)|(-> & Hb0 & Hb & Hmin)].
    + left. split_and!; [done|lia|lia|done|]. intros m Hm. apply Hstep; [lia|]. intros. apply Hmin. lia.
    + right. split_and!; [done|done| |].
      * intros _. destruct its as [|it' its].
        -- rewrite Hb0 by done. split; [|exact Hu].
           intros He. rewrite He, map_size_empty in Hs. done.
        -- by apply Hb.
      * intros m Hm. apply Hstep; [lia|]. intros. apply Hmin. lia.
Qed.
End min_values.

Section min_values_theorems.
  Context `{LR : LabelRegistry}.

Lemma min_values_met_mono r l1 l2 : min_values_met r l1 → min_values_met r (l1 ++ l2).
Proof.
  intros Hm k req n Hk Hn. specialize (Hm k req n Hk Hn).
  assert (distinct_values req l1 ⊆ distinct_values req (l1 ++ l2)) as Hsub.
  { unfold distinct_values. rewrite fmap_app, union_list_app_L. set_solver. }
  apply subseteq_size in Hsub. lia.
Qed.

Lemma min_values_met_take r n its : min_values_met r (take n its) → min_values_met r its.
Proof. intros Hm. rewrite <-(take_drop n its). by apply min_values_met_mono. Qed.

Lemma SatisfiesMinValues_cases r its :
  keyed r → its ≠ [] → HasMinValues r = true →
  let '(n, bad) := SatisfiesMinValues its r in
  (bad = ∅ ∧ (0 < n ≤ length its)%nat ∧ min_values_met r (take n its) ∧
     ∀ m, (0 < m < n)%nat → ¬ min_values_met r (take m its)) ∨
  (n = length its ∧ bad ≠ ∅ ∧ unsatisfied r its bad).
Proof.
  intros Hk Hne Hhas. unfold SatisfiesMinValues. rewrite Hhas. simpl.
  pose proof (SatisfiesMinValues_loop_spec r [] its ∅ ∅ Hk ltac:(auto)) as Hsp. simpl in Hsp.
  destruct (SatisfiesMinValues_loop r 0 ∅ ∅ its) as [n bad].
  destruct Hsp as [?|(-> & _ & Hb & _)]; [by left|right]. by destruct (Hb Hne).
Qed.

(** [SatisfiesMinValues] on a non-empty list reports no unsatisfied key
    exactly when every requirement with minValues is offered that many distinct
    allowed values; the count it then returns is the length of the shortest
    non-empty prefix that already suffices, and otherwise the reported keys are
    exactly the unsatisfied ones with the number of values found. *)
Theorem SatisfiesMinValues_spec r its :
  keyed r → its ≠ [] → HasMinValues r = true →
  let '(n, bad) := SatisfiesMinValues its r in
  (bad = ∅ ↔ min_values_met r its) ∧
  (bad = ∅ → (0 < n ≤ length its)%nat ∧ min_values_met r (take n its) ∧
     ∀ m, (0 < m < n)%nat → ¬ min_values_met r (take m its)) ∧
  (bad ≠ ∅ → n = length its ∧ unsatisfied r its bad).
Proof.
  intros Hk Hne Hhas. pose proof (SatisfiesMinValues_cases r its Hk Hne Hhas) as Hc.
  destruct (SatisfiesMinValues its r) as [n bad].
  destruct Hc as [(-> & Hn & Hmet & Hmin)|(-> & Hbad & Hu)].
  - split_and!; [|done|done]. split; [intros _|done]. by eapply min_values_met_take.
  - split_and!; [|done|done]. split; [done|]. intros Hm.
    apply (unsatisfied_empty _ _ _ Hu), Nat.eqb_eq, map_size_empty_iff in Hm. done.
Qed.

(** ** Ordering by price and truncation *)

Definition price_less (a b : InstanceType * Z) : bool := (a.2 <? b.2)%Z.

Lemma OrderByPrice_Permutation its reqs : OrderByPrice its reqs ≡ₚ its.
Proof.
  unfold OrderByPrice. rewrite sort_by_Permutation.
  rewrite <-list_fmap_compose. by rewrite list_fmap_id.
Qed.

Lemma price_less_asym x y : price_less x y = true → price_less y x = false.
Proof. unfold price_less. intros ?%Z.ltb_lt. apply Z.ltb_ge. lia. Qed.

Lemma price_less_trans x y z :
  not_after price_less x y → not_after price_less y z → not_after price_less x z.
Proof. unfold not_after, price_less. rewrite !Z.ltb_ge. lia. Qed.

Lemma StronglySorted_fmap {A B} (f : A → B) (R : relation A) (S : relation B) l :
  (∀ x y, x ∈ l → y ∈ l → R x y → S (f x) (f y)) → StronglySorted R l → StronglySorted S (f <$> l).
Proof.
  intros HRS Hs. induction Hs as [|x l Hs IH Hall]; csimpl; constructor.
  - apply IH. intros. apply HRS; set_solver.
  - apply Forall_fmap, Forall_forall. intros y Hy. rewrite Forall_forall in Hall.
    apply HRS; [set_solver..|by apply Hall].
Qed.

Lemma OrderByPrice_sorted its reqs :
  StronglySorted (λ a b, cheapest_compatible_price reqs a ≤ cheapest_compatible_price reqs b)%Z
    (OrderByPrice its reqs).
Proof.
  unfold OrderByPrice.
  assert (∀ x, x ∈ sort_by price_less ((λ it, (it, cheapest_compatible_price reqs it)) <$> its) →
    x.2 = cheapest_compatible_price reqs x.1) as Hp.
  { intros x. rewrite sort_by_Permutation, list_elem_of_fmap. by intros (it & -> & _). }
  eapply StronglySorted_fmap; [|apply (sort_by_StronglySorted price_less)];
    [|apply price_less_asym|apply price_less_trans].
  intros x y Hx Hy. unfold not_after, price_less. rewrite Z.ltb_ge.
  by rewrite (Hp x Hx), (Hp y Hy).
Qed.

Lemma StronglySorted_app_inv {A} (R : relation A) l1 l2 x y :
  StronglySorted R (l1 ++ l2) → x ∈ l1 → y ∈ l2 → R x y.
Proof.
  induction l1 as [|z l1 IH]; simpl; [by intros _ ?%not_elem_of_nil|].
  intros [Hs Hall]%StronglySorted_inv [->|Hx]%elem_of_cons Hy; [|by apply IH].
  rewrite Forall_forall in Hall. apply Hall, elem_of_app. by right.
Qed.

(** [Truncate] keeps at most maxItems of the given instance types, no type it
    drops has a cheaper launchable compatible offering than a type it keeps, and
    under the strict policy what it returns still meets every minValues
    requirement. *)
Theorem Truncate_spec policy its r maxItems kept :
  keyed r → (0 < maxItems)%nat → its ≠ [] →
  Truncate policy its r maxItems = Ok kept →
  (length kept ≤ maxItems)%nat ∧
  (∃ dropped, its ≡ₚ kept ++ dropped ∧
     ∀ a b, a ∈ kept → b ∈ dropped →
       (cheapest_compatible_price r a ≤ cheapest_compatible_price r b)%Z) ∧
  (policy = MinValuesPolicyStrict → min_values_met r kept).
Proof.
  intros Hk Hmax Hne HT. unfold Truncate in HT.
  set (sorted := OrderByPrice its r) in *.
  assert (kept = take maxItems sorted) as Hkept.
  { repeat case_match; congruence. }
  split_and!.
  - rewrite Hkept, length_take. lia.
  - exists (drop maxItems sorted). rewrite Hkept, take_drop. split.
    + unfold sorted. by rewrite OrderByPrice_Permutation.
    + intros a b Ha Hb. eapply (StronglySorted_app_inv (λ a b, cheapest_compatible_price r a ≤
        cheapest_compatible_price r b)%Z); [|exact Ha|exact Hb].
      rewrite take_drop. apply OrderByPrice_sorted.
  - intros ->. rewrite bool_decide_eq_false_2, andb_true_r in HT by done.
    destruct (HasMinValues r) eqn:Hhas.
    + assert (kept ≠ []) as Hkne.
      { rewrite Hkept. pose proof (OrderByPrice_Permutation its r) as HP. fold sorted in HP.
        destruct sorted as [|x l]; [by apply Permutation_nil_l in HP; subst|].
        destruct maxItems; [lia|done]. }
      pose proof (SatisfiesMinValues_cases r kept Hk Hkne Hhas) as Hc.
      rewrite <-Hkept in HT.
      destruct (SatisfiesMinValues kept r) as [n bad]; simpl in HT.
      destruct (size bad =? 0)%nat eqn:Hs; [|done].
      apply Nat.eqb_eq, map_size_empty_iff in Hs as ->.
      destruct Hc as [(_ & _ & Hm & _)|(_ & ? & _)]; [|done]. by eapply min_values_met_take.
    + intros k req n Hr Hn. exfalso.
      assert (HasMinValues r = true); [|congruence].
      apply map_existsb_spec. exists k, req. by rewrite Hn, bool_decide_eq_true_2.
Qed.
End min_values_theorems.

(** ** Cheapest and most expensive offerings *)

Lemma pick_by_spec (better : Offering → Offering → bool) ofs o :
  (∀ x, better x x = false) →
  (∀ x y z, better z x = true → better y x = false → better y z = false) →
  pick_by better ofs = Some o → o ∈ ofs ∧ ∀ x, x ∈ ofs → better x o = false.
Proof.
  intros Hirr Htr. destruct ofs as [|o0 rest]; [done|]. intros [= <-].
  assert (∀ best seen, best ∈ seen → (∀ x, x ∈ seen → better x best = false) →
    foldl (λ best item, if better item best then item else best) best rest ∈ seen ++ rest ∧
    ∀ x, x ∈ seen ++ rest →
      better x (foldl (λ best item, if better item best then item else best) best rest) = false) as Hgen.
  { induction rest as [|item rest IH]; intros best seen Hin Hbest; simpl.
    - rewrite app_nil_r. done.
    - destruct (better item best) eqn:E.
      + destruct (IH item (seen ++ [item])) as [H1 H2]; [set_solver| |].
        { intros x [Hx|Hx]%elem_of_app; [by apply (Htr best), Hbest|].
          apply list_elem_of_singleton in Hx as ->. apply Hirr. }
        rewrite <-app_assoc in *. done.
      + destruct (IH best (seen ++ [item])) as [H1 H2]; [set_solver| |].
        { intros x [Hx|Hx]%elem_of_app; [by apply Hbest|].
          by apply list_elem_of_singleton in Hx as ->. }
        rewrite <-app_assoc in *. done. }
  destruct (Hgen o0 [o0]) as [H1 H2]; [set_solver|..].
  { intros x ->%list_elem_of_singleton. apply Hirr. }
  done.
Qed.

(** [Cheapest] and [MostExpensive] return offerings of the list with the least
    and the greatest price, and nothing only for an empty list. *)
Theorem extremal_offerings ofs :
  (∀ o, Cheapest ofs = Some o → o ∈ ofs ∧ ∀ x, x ∈ ofs → (Price o ≤ Price x)%Z) ∧
  (∀ o, MostExpensive ofs = Some o → o ∈ ofs ∧ ∀ x, x ∈ ofs → (Price x ≤ Price o)%Z) ∧
  (ofs ≠ [] → is_Some (Cheapest ofs) ∧ is_Some (MostExpensive ofs)).
Proof.
  split_and!.
  - intros o Ho. apply pick_by_spec in Ho as [? Hx].
    + split; [done|]. intros x Hin. specialize (Hx x Hin). simpl in Hx. by apply Z.ltb_ge.
    + intros x. apply Z.ltb_irrefl.
    + intros x y z. rewrite !Z.ltb_ge, !Z.ltb_lt. lia.
  - intros o Ho. apply pick_by_spec in Ho as [? Hx].
    + split; [done|]. intros x Hin. specialize (Hx x Hin). simpl in Hx.
      rewrite Z.gtb_ltb in Hx. by apply Z.ltb_ge.
    + intros x. rewrite Z.gtb_ltb. apply Z.ltb_irrefl.
    + intros x y z. rewrite !Z.gtb_ltb, !Z.ltb_ge, !Z.ltb_lt. lia.
  - destruct ofs; [done|]. intros _. split; unfold Cheapest, MostExpensive, pick_by; eauto.
Qed.

(** ** Grouping offerings by override *)

Section grouping_facts.
  Context (override_text : ResourceList → option InstanceTypeOverhead → string).

Lemma add_to_group_elem key o groups k ofs :
  (k, ofs) ∈ add_to_group key o groups →
  (k, ofs) ∈ groups ∨
  (k = key ∧ ∃ before, ofs = before ++ [o] ∧ ((k, before) ∈ groups ∨ before = [])).
Proof.
  induction groups as [|[k' ofs'] groups IH]; simpl.
  - intros [= -> ->]%list_elem_of_singleton. right. split; [done|]. exists []. auto.
  - case_decide as Hd.
    + intros [[= -> ->]|Hin]%elem_of_cons; [right|left; by right].
      split; [done|]. exists ofs'. split; [done|left; by left].
    + intros [[= -> ->]|Hin]%elem_of_cons; [left; by left|].
      destruct (IH Hin) as [?|(-> & before & -> & [?|?])]; [left; by right|right..];
        (split; [done|]; exists before; split; [done|]); [left; by right|by right].
Qed.

Lemma add_to_group_concat key o groups :
  concat (add_to_group key o groups).*2 ≡ₚ concat groups.*2 ++ [o].
Proof.
  induction groups as [|[k ofs] groups IH]; simpl; [done|]. case_decide; simpl.
  - rewrite <-!app_assoc. apply Permutation_app_head, Permutation_app_comm.
  - rewrite <-app_assoc. by apply Permutation_app_head.
Qed.

Lemma add_to_group_head key o k ofs rest :
  ∃ ofs' rest', add_to_group key o ((k, ofs) :: rest) = (k, ofs') :: rest'.
Proof. simpl. case_decide; eauto. Qed.

(** What holds of the groups while the loop runs. *)
Definition groups_ok (seen : list Offering) (groups : list (option string * list Offering)) : Prop :=
  (∃ ofs rest, groups = (None, ofs) :: rest) ∧
  (∀ k ofs o, (k, ofs) ∈ groups → o ∈ ofs → override_key override_text o = k) ∧
  (∀ t, (Some t, []) ∉ groups) ∧
  concat groups.*2 ≡ₚ Offerings_Available seen.

Lemma group_offerings_ok ofs : groups_ok ofs (group_offerings override_text ofs).
Proof.
  unfold group_offerings.
  assert (∀ groups seen, groups_ok seen groups → groups_ok (seen ++ ofs)
    (foldl (λ groups o, if Available o then add_to_group (override_key override_text o) o groups
                        else groups) groups ofs)) as Hgen.
  { induction ofs as [|o ofs IH]; intros groups seen Hok; simpl; [by rewrite app_nil_r|].
    rewrite (cons_middle o seen ofs), app_assoc. apply IH.
    destruct Hok as ((base & rest & ->) & Hkey & Hne & Hperm).
    assert (Offerings_Available (seen ++ [o]) =
      Offerings_Available seen ++ (if Available o then [o] else [])) as Hav.
    { unfold Offerings_Available. rewrite filter_app. f_equal. rewrite filter_cons, filter_nil.
      by destruct (Available o). }
    destruct (Available o) eqn:Ea.
    - split_and!.
      + apply add_to_group_head.
      + intros k l o' Hin Ho'. apply add_to_group_elem in Hin as [Hin|(-> & before & -> & Hb)].
        * by eapply Hkey.
        * apply elem_of_app in Ho' as [Ho'|Ho'%list_elem_of_singleton]; [|by subst].
          destruct Hb as [Hb| ->]; [by eapply Hkey|by apply not_elem_of_nil in Ho'].
      + intros t Hin. apply add_to_group_elem in Hin as [Hin|(_ & before & Hb & _)]; [by eapply Hne|].
        by destruct before.
      + rewrite add_to_group_concat, Hperm, Hav. done.
    - rewrite app_nil_r in Hav. rewrite <-Hav in Hperm. split_and!; eauto. }
  apply (Hgen [(None, [])] []). split_and!; [eauto| | |done].
  - intros k l o [= -> ->]%list_elem_of_singleton Ho. by apply not_elem_of_nil in Ho.
  - intros t ?%list_elem_of_singleton. done.
Qed.

Lemma override_key_none o : override_key override_text o = None →
  CapacityOverride o = ∅ ∧ OverheadOverride o = None.
Proof.
  unfold override_key, has_override.
  destruct (Nat.ltb_spec 0 (size (CapacityOverride o))) as [|Hs]; simpl; [done|].
  destruct (OverheadOverride o); simpl; [done|].
  intros _. split; [|done]. apply map_size_empty_iff. lia.
Qed.

Lemma no_overrides_one_group ofs :
  existsb has_override ofs = false →
  group_offerings override_text ofs = [(None, Offerings_Available ofs)].
Proof.
  unfold group_offerings. change [(None, [])] with [(None : option string, Offerings_Available [])].
  intros Hno. rewrite <-(app_nil_l ofs) at 2. generalize (@nil Offering) as seen.
  revert Hno. induction ofs as [|o ofs IH]; simpl; intros Hno seen; [by rewrite app_nil_r|].
  apply orb_false_iff in Hno as [Ho Hno]. rewrite (cons_middle o seen ofs), app_assoc.
  rewrite <-IH by done. f_equal. unfold override_key. rewrite Ho. rewrite decide_True by done.
  unfold Offerings_Available. rewrite filter_app, filter_cons, filter_nil.
  destruct (Available o); simpl; [done|by rewrite app_nil_r].
Qed.

Lemma precompute_grouped i :
  precompute override_text i = groupOfferingsByOverride override_text i.
Proof.
  unfold precompute. destruct (existsb has_override (Offerings i)) eqn:E; simpl; [done|].
  unfold groupOfferingsByOverride. rewrite no_overrides_one_group by done. done.
Qed.

(** The fast path of [precompute] for instance types without overrides
    returns what grouping the offerings by override returns. *)
Theorem precompute_fast_path i :
  precompute override_text i = groupOfferingsByOverride override_text i.
Proof. apply precompute_grouped. Qed.

(** The allocatable groups partition the available offerings, the first group
    is the base, and every offering sits in a group whose allocatable resources
    are computed from that offering's own overrides, provided distinct overrides
    print differently. *)
Theorem AllocatableOfferingsList_spec i :
  (∀ c h c' h', override_text c h = override_text c' h' → c = c' ∧ h = h') →
  let groups := AllocatableOfferingsList override_text i in
  Allocatable override_text i = computeAllocatable i ∅ None ∧
  concat (ao_Offerings <$> groups) ≡ₚ Offerings_Available (Offerings i) ∧
  ∀ g o, g ∈ groups → o ∈ ao_Offerings g →
    Allocatable_ g = computeAllocatable i (CapacityOverride o) (OverheadOverride o).
Proof.
  intros Hinj. unfold AllocatableOfferingsList, Allocatable.
  unfold AllocatableOfferingsList. rewrite precompute_grouped.
  destruct (group_offerings_ok (Offerings i)) as ((base & rest & Hg) & Hkey & Hne & Hperm).
  unfold groupOfferingsByOverride. split_and!.
  - rewrite Hg. simpl. done.
  - rewrite <-list_fmap_compose. exact Hperm.
  - intros g o ([k ofs] & -> & Hin)%list_elem_of_fmap Ho. simpl in *.
    pose proof (Hkey k ofs o Hin Ho) as Hk. destruct k as [t|].
    + destruct ofs as [|o' ofs]; [by apply not_elem_of_nil in Ho|].
      pose proof (Hkey _ _ o' Hin ltac:(by left)) as Hk'.
      unfold override_key in Hk, Hk'.
      destruct (has_override o), (has_override o'); try done.
      assert (override_text (CapacityOverride o) (OverheadOverride o) =
        override_text (CapacityOverride o') (OverheadOverride o')) as He by congruence.
      apply Hinj in He as [-> ->]. done.
    + apply override_key_none in Hk as [-> ->]. done.
Qed.
End grouping_facts.

(** ** Huge pages *)

Definition is_hugepage (kv : string * Z) : bool := HasPrefix kv.1 ResourceHugePagesPrefix.

Definition hugepages_total (capacity : ResourceList) : Z :=
  sumZ (filter (λ kv, is_hugepage kv = true) (map_to_list capacity)).*2.

Lemma hugepages_total_insert m i x :
  m !! i = None →
  hugepages_total (<[i:=x]> m) =
    ((if HasPrefix i ResourceHugePagesPrefix then x else 0) + hugepages_total m)%Z.
Proof.
  intros Hi. unfold hugepages_total.
  rewrite (sumZ_Permutation _ ((filter (λ kv, is_hugepage kv = true) ((i, x) :: map_to_list m)).*2)).
  - rewrite filter_cons. case_decide as Hd; unfold is_hugepage in Hd; simpl in Hd;
      [|apply not_true_iff_false in Hd]; by rewrite Hd.
  - by rewrite map_to_list_insert.
Qed.

(** Huge page reservations reduce allocatable memory by their total, never
    below zero and independently of the order in which the capacity map is
    iterated, and leave every other resource alone. *)
Theorem reserve_hugepages_spec allocatable capacity :
  (∀ k q, capacity !! k = Some q → 0 ≤ q)%Z →
  (∀ k, k ≠ ResourceMemory → reserve_hugepages allocatable capacity !! k = allocatable !! k) ∧
  qty (reserve_hugepages allocatable capacity) ResourceMemory =
    if existsb is_hugepage (map_to_list capacity)
    then Z.max 0 (qty allocatable ResourceMemory - hugepages_total capacity)
    else qty allocatable ResourceMemory.
Proof.
  intros Hpos.
  cut (0 ≤ hugepages_total capacity ∧
    (∀ k, k ≠ ResourceMemory → reserve_hugepages allocatable capacity !! k = allocatable !! k) ∧
    qty (reserve_hugepages allocatable capacity) ResourceMemory =
    if existsb is_hugepage (map_to_list capacity)
    then Z.max 0 (qty allocatable ResourceMemory - hugepages_total capacity)
    else qty allocatable ResourceMemory)%Z; [tauto|].
  revert Hpos. unfold reserve_hugepages.
  refine (map_fold_weak_ind (λ (r m : ResourceList), (∀ k q, m !! k = Some q → 0 ≤ q)%Z →
    0 ≤ hugepages_total m ∧ (∀ k, k ≠ ResourceMemory → r !! k = allocatable !! k) ∧
    qty r ResourceMemory = if existsb is_hugepage (map_to_list m)
    then Z.max 0 (qty allocatable ResourceMemory - hugepages_total m)
    else qty allocatable ResourceMemory)%Z _ _ _ _ capacity).
  { intros _. rewrite map_to_list_empty. done. }
  intros i x m r Hi IH Hpos.
  destruct IH as (H0 & Hother & Hmem).
  { intros k q Hk. apply (Hpos k). rewrite lookup_insert_ne; [done|congruence]. }
  assert (0 ≤ x)%Z as Hx by (apply (Hpos i); by rewrite lookup_insert_eq).
  rewrite hugepages_total_insert by done.
  assert (existsb is_hugepage (map_to_list (<[i:=x]> m)) =
    HasPrefix i ResourceHugePagesPrefix || existsb is_hugepage (map_to_list m)) as ->.
  { apply eq_true_iff_eq. rewrite orb_true_iff, !existsb_elem_of.
    setoid_rewrite (map_to_list_insert m i x Hi). setoid_rewrite elem_of_cons.
    unfold is_hugepage. split; [intros (kv & [->|?] & ?); eauto|].
    intros [?|(kv & ? & ?)]; [exists (i, x); auto|eauto]. }
  destruct (HasPrefix i ResourceHugePagesPrefix); simpl; [|by rewrite Z.add_0_l].
  split_and!; [lia| |].
  - intros k Hk. by rewrite lookup_insert_ne, Hother by done.
  - unfold qty at 1. rewrite lookup_insert_eq. simpl. rewrite Hmem.
    destruct (existsb is_hugepage (map_to_list m)) eqn:E.
    + destruct (Z.ltb_spec (Z.max 0 (qty allocatable ResourceMemory - hugepages_total m) - x) 0); lia.
    + assert (hugepages_total m = 0)%Z as Hz.
      { unfold hugepages_total. rewrite list_filter_none; [done|].
        intros kv Hin Hh. assert (existsb is_hugepage (map_to_list m) = true); [|congruence].
        apply existsb_elem_of. eauto. }
      rewrite Hz. destruct (Z.ltb_spec (qty allocatable ResourceMemory - x) 0); lia.
Qed.

(** ** Capacity type classes *)

Inductive CapacityTypeClass := ClassReserved | ClassSpot | ClassOnDemand.

#[export] Instance CapacityTypeClass_eq_dec : EqDecision CapacityTypeClass.
Proof. solve_decision. Defined.

Definition CapacityTypeClassPrecedence : list CapacityTypeClass :=
  [ClassReserved; ClassSpot; ClassOnDemand].

(** The interface [CapacityTypeClassResolver]. *)
Record CapacityTypeClassResolver := mkResolver {
  CapacityTypes : list string;
  Class_ : string → option CapacityTypeClass;
}.

Definition DefaultCapacityTypeClasses : gmap string CapacityTypeClass :=
  list_to_map [(CapacityTypeReserved, ClassReserved); (CapacityTypeSpot, ClassSpot);
               (CapacityTypeOnDemand, ClassOnDemand)].

(** A map as a resolver; [lo.Keys] is sorted. *)
Definition CapacityTypeClasses_resolver (c : gmap string CapacityTypeClass)
    : CapacityTypeClassResolver :=
  mkResolver (merge_sort String.le (map_to_list c).*1) (λ capacityType, c !! capacityType).

Inductive resolver_error :=
| MustResolveTo (capacityType : string) (class : CapacityTypeClass)
| NoClass (capacityType : string).

(** [capacityTypeClassState.byClass]. *)
Definition capacityTypeClassState : Type := CapacityTypeClass → list string.

Definition SetCapacityTypeClassResolver (resolver : CapacityTypeClassResolver)
    : result resolver_error capacityTypeClassState :=
  match List.find (λ kv, negb (bool_decide (Class_ resolver kv.1 = Some kv.2)))
          (map_to_list DefaultCapacityTypeClasses) with
  | Some (capacityType, class) => Err (MustResolveTo capacityType class)
  | None =>
      (fix loop (byClass : capacityTypeClassState) (capacityTypes : list string) :=
         match capacityTypes with
         | [] => Ok byClass
         | capacityType :: rest =>
             match Class_ resolver capacityType with
             | None => Err (NoClass capacityType)
             | Some class =>
                 if negb (bool_decide (is_Some (DefaultCapacityTypeClasses !! capacityType)))
                    && negb (bool_decide (class = ClassOnDemand))
                 then Err (MustResolveTo capacityType ClassOnDemand)
                 else loop (λ c, if decide (c = class) then byClass c ++ [capacityType] else byClass c)
                        rest
             end
         end) (λ _, []) (CapacityTypes resolver)
  end.

Section capacity_types.
  Context `{LR : LabelRegistry}.

  (** A class without capacity types has no entry in [state.requirements]. *)
Definition CapacityTypeClassRequirements (state : capacityTypeClassState) (class : CapacityTypeClass)
    : Requirements :=
  match state class with
  | [] => NewRequirements [simple_requirement CapacityTypeLabelKey OpDoesNotExist None]
  | capacityTypes =>
      let key := normalize_key CapacityTypeLabelKey in
      NewRequirements [mkRequirement key false (list_to_set (normalize_values key capacityTypes))
                         None None None None]
  end.

Definition HasCapacityTypeClass (state : capacityTypeClassState) (requirement : Requirement)
    (class : CapacityTypeClass) : bool := existsb (Has requirement) (state class).

Definition WorstLaunchPrice (state : capacityTypeClassState) (ofs : list Offering)
    (reqs : Requirements) : Z :=
  default MaxFloat64 (head (omap (λ class,
    Price <$> MostExpensive (Offerings_Compatible (Offerings_Compatible ofs reqs)
                               (CapacityTypeClassRequirements state class)))
    CapacityTypeClassPrecedence)).
End capacity_types.

(** A registered capacity type resolver keeps the built-in types in their own
    class and puts every other type in the on-demand class: each class lists
    exactly the resolver's types of that class, in the resolver's order. *)
Theorem SetCapacityTypeClassResolver_spec resolver state :
  SetCapacityTypeClassResolver resolver = Ok state →
  (∀ class, state class =
     filter (λ t, Class_ resolver t = Some class) (CapacityTypes resolver)) ∧
  (∀ t, t ∈ CapacityTypes resolver → Class_ resolver t = Some ClassOnDemand ∨
     Class_ resolver t = DefaultCapacityTypeClasses !! t).
Proof.
  unfold SetCapacityTypeClassResolver.
  destruct (List.find _ _) as [[? ?]|] eqn:Hf; [done|]. rewrite find_none in Hf.
  assert (∀ t c, DefaultCapacityTypeClasses !! t = Some c → Class_ resolver t = Some c) as Hdef.
  { intros t c Ht. apply elem_of_map_to_list, Hf in Ht. simpl in Ht.
    by apply negb_false_iff, bool_decide_eq_true in Ht. }
  set (loop := fix loop (byClass : capacityTypeClassState) (capacityTypes : list string) := _).
  assert (∀ l byClass, loop byClass l = Ok state →
    (∀ class, state class = byClass class ++ filter (λ t, Class_ resolver t = Some class) l) ∧
    (∀ t, t ∈ l → Class_ resolver t = Some ClassOnDemand ∨
       Class_ resolver t = DefaultCapacityTypeClasses !! t)) as Hloop.
  { induction l as [|t l IH]; intros byClass; simpl.
    - intros [= <-]. split; [intros; by rewrite app_nil_r|by intros t ?%not_elem_of_nil].
    - destruct (Class_ resolver t) as [c|] eqn:Hc; [|done].
      destruct (negb _ && negb _) eqn:Hb; [done|]. intros Hl. apply IH in Hl as [Hs Ht]. split.
      + intros class. rewrite Hs, filter_cons, Hc.
        destruct (decide (class = c)) as [->|Hne].
        * rewrite (decide_True _ _ (eq_refl (Some c))). by rewrite <-app_assoc.
        * rewrite (decide_False (P := Some c = Some class)) by congruence. done.
      + intros t' [->|Hin]%elem_of_cons; [|by apply Ht].
        apply andb_false_iff in Hb as [Hb|Hb]; apply negb_false_iff, bool_decide_eq_true in Hb.
        * destruct Hb as [c' Hc']. right. rewrite Hc'. by apply Hdef.
        * left. by rewrite Hc, Hb. }
  intros Hl. apply Hloop in Hl as [Hs Ht]. by split.
Qed.

(** ** Template pool names *)

Definition TemplatePoolName (pool : string) (setIndex : Z) : string :=
  pool +:+ "~" +:+ FormatInt setIndex.

(** Cut at the last separator. *)
Fixpoint cut_last (s : string) : option (string * string) :=
  match s with
  | EmptyString => None
  | String c rest =>
      match cut_last rest with
      | Some (before, after) => Some (String c before, after)
      | None => if Ascii.eqb c "~"%char then Some (EmptyString, rest) else None
      end
  end.

Definition ParseTemplatePoolName (name : string) : option (string * Z) :=
  match cut_last name with
  | None => None
  | Some (pool, digits) =>
      match Atoi digits with
      | (setIndex, None) => if (setIndex <? 0)%Z then None else Some (pool, setIndex)
      | (_, Some _) => None
      end
  end.

Lemma cut_last_app pool s : cut_last s = None →
  cut_last (pool +:+ String "~"%char s) = Some (pool, s).
Proof.
  intros Hs. induction pool as [|c pool IH].
  - change (EmptyString +:+ String "~"%char s) with (String "~"%char s). simpl. by rewrite Hs.
  - change (String c pool +:+ String "~"%char s) with (String c (pool +:+ String "~"%char s)).
    simpl. by rewrite IH.
Qed.

Lemma cut_last_digits d : cut_last (NilEmpty.string_of_uint d) = None.
Proof. induction d; simpl; try done; by rewrite IHd. Qed.

Lemma cut_last_FormatInt z : (0 ≤ z)%Z → cut_last (FormatInt z) = None.
Proof.
  intros Hz. unfold FormatInt. destruct z as [|p|p]; [done| |lia]. simpl.
  unfold NilZero.string_of_uint. pose proof (cut_last_digits (Pos.to_uint p)) as Hd.
  by destruct (Pos.to_uint p).
Qed.

(** Parsing a namespaced template pool name gives back the provider's pool
    name and the set index, even when the pool name itself contains the
    separator. *)
Theorem TemplatePoolName_roundtrip pool setIndex :
  (0 ≤ setIndex ≤ int64_max)%Z →
  ParseTemplatePoolName (TemplatePoolName pool setIndex) = Some (pool, setIndex).
Proof.
  intros Hi. unfold ParseTemplatePoolName, TemplatePoolName.
  change ("~" +:+ FormatInt setIndex) with (String "~"%char (FormatInt setIndex)).
  rewrite cut_last_app by (apply cut_last_FormatInt; lia).
  rewrite Atoi_FormatInt by (unfold in_int64, int64_min; lia).
  destruct (Z.ltb_spec setIndex 0); [lia|done].
Qed.
