(* ===== verification/Reservations.v ===== *)
(** * Reservations: capacity reservations during scheduling
    (pkg/controllers/provisioning/scheduling/reservationmanager.go)

    The manager maps hostnames to the reservation ids they hold and reservation
    ids to their remaining count.  A Go panic is [None]. *)

From S2P Require Import Prelude Labels Requirement Objects Requirements Resources InstanceTypes.

Record ReservationManager := mkRM {
  reservations : gmap string (gset string);
  rm_capacity : gmap string Z;
}.

Section reservations.
  Context `{LR : LabelRegistry}.
  (** [cloudprovider.ReservationIDLabel], set by the provider, and the random
      draws of [Requirement.Any]. *)
  Context (ReservationIDLabel : string) (draw : Z → Z).

(** [CapacityType()] and [ReservationID()] of an offering; [None] is the panic of [Any]. *)
Definition read_CapacityType (o : Offering) : option string := Any draw (Get (of_Requirements o) CapacityTypeLabelKey).
Definition read_ReservationID (o : Offering) : option string := Any draw (Get (of_Requirements o) ReservationIDLabel).

(** Their values, for offerings that have been read before. *)
Definition Offering_CapacityType (o : Offering) : string := default EmptyString (read_CapacityType o).
Definition ReservationID (o : Offering) : string := default EmptyString (read_ReservationID o).

Definition seed_capacity (capacity : gmap string Z) (o : Offering) : option (gmap string Z) :=
  capacityType ← read_CapacityType o;
  if negb (bool_decide (capacityType = CapacityTypeReserved)) then Some capacity
  else
    id ← read_ReservationID o;
    Some match capacity !! id with
         | Some current => if (current >? ReservationCapacity o)%Z then <[id := ReservationCapacity o]> capacity else capacity
         | None => <[id := ReservationCapacity o]> capacity
         end.

Definition NewReservationManager (instanceTypes : gmap string (list InstanceType))
    : option ReservationManager :=
  capacity ← foldl_opt seed_capacity ∅ (concat (Offerings <$> concat (map_to_list instanceTypes).*2));
  Some (mkRM ∅ capacity).

Definition holds (rm : ReservationManager) (hostname id : string) : bool :=
  bool_decide (id ∈ default ∅ (reservations rm !! hostname)).

Definition CanReserve (rm : ReservationManager) (hostname : string) (offering : Offering)
    : option bool :=
  id ← read_ReservationID offering;
  if holds rm hostname id then Some true
  else capacity ← rm_capacity rm !! id; Some (negb (capacity =? 0)%Z).

Definition Reserve1 (hostname : string) (rm : ReservationManager) (o : Offering)
    : option ReservationManager :=
  id ← read_ReservationID o;
  if holds rm hostname id then Some rm
  else
    let remaining := (default 0%Z (rm_capacity rm !! id) - 1)%Z in
    if (remaining <? 0)%Z then None
    else Some (mkRM (<[hostname := default ∅ (reservations rm !! hostname) ∪ {[id]}]> (reservations rm))
                    (<[id := remaining]> (rm_capacity rm))).

Definition Reserve (rm : ReservationManager) (hostname : string) (offerings : list Offering)
    : option ReservationManager := foldl_opt (Reserve1 hostname) rm offerings.

(** An offering that is released was reserved before, so that its id can be read.  The
    capacity is an [int] in the code; it never exceeds its initial value
    ([reservations_conserved]), so that the increment does not wrap. *)
Definition Release1 (hostname : string) (rm : ReservationManager) (o : Offering) : ReservationManager :=
  let id := ReservationID o in
  if holds rm hostname id
  then mkRM (<[hostname := default ∅ (reservations rm !! hostname) ∖ {[id]}]> (reservations rm))
            (<[id := (default 0%Z (rm_capacity rm !! id) + 1)%Z]> (rm_capacity rm))
  else rm.

Definition Release (rm : ReservationManager) (hostname : string) (offerings : list Offering)
    : ReservationManager := foldl (Release1 hostname) rm offerings.

Definition HasReservation (rm : ReservationManager) (hostname : string) (offering : Offering) : bool :=
  holds rm hostname (ReservationID offering).

Definition RemainingCapacity (rm : ReservationManager) (offering : Offering) : Z :=
  default 0%Z (rm_capacity rm !! ReservationID offering).

Definition Credit (rm : ReservationManager) (reservationID : string) (count : Z) : ReservationManager :=
  match rm_capacity rm !! reservationID with
  | Some c => mkRM (reservations rm) (<[reservationID := (c + count)%Z]> (rm_capacity rm))
  | None => rm
  end.

Lemma Reserve1_read h rm o rm' : Reserve1 h rm o = Some rm' → read_ReservationID o = Some (ReservationID o).
Proof. unfold Reserve1, ReservationID. by destruct (read_ReservationID o). Qed.

(** ** What the manager knows *)

(** Every offering of the instance types can be read, and the manager knows the reservations
    of those that are reserved. *)
Definition covered (rm : ReservationManager) (its : list InstanceType) : Prop :=
  ∀ it o, it ∈ its → o ∈ Offerings it → ∃ capacityType, read_CapacityType o = Some capacityType ∧
    (capacityType = CapacityTypeReserved → ∃ id, read_ReservationID o = Some id ∧ is_Some (rm_capacity rm !! id)).

Lemma covered_mono rm rm' its its' : covered rm its → dom (rm_capacity rm) ⊆ dom (rm_capacity rm') → (∀ it, it ∈ its' → it ∈ its) →
  covered rm' its'.
Proof.
  intros H Hd Hs it o Hit Ho. destruct (H it o (Hs it Hit) Ho) as (t & Ht & Hr). exists t. split; [done|]. intros Hc.
  destruct (Hr Hc) as (id & Hid & Hin). exists id. split; [done|]. apply elem_of_dom, Hd. by apply elem_of_dom.
Qed.

Lemma seed_capacity_covers os cap cap' : foldl_opt seed_capacity cap os = Some cap' → dom cap ⊆ dom cap' ∧
  ∀ o, o ∈ os → ∃ capacityType, read_CapacityType o = Some capacityType ∧
    (capacityType = CapacityTypeReserved → ∃ id, read_ReservationID o = Some id ∧ is_Some (cap' !! id)).
Proof.
  revert cap. induction os as [|o os IH]; intros cap; cbn [foldl_opt].
  { intros [= <-]. split; [done|by intros o ?%elem_of_nil]. }
  intros (cap1 & Hs & [Hd H]%IH)%bind_Some. unfold seed_capacity in Hs. apply bind_Some in Hs as (t & Ht & Hs).
  destruct (bool_decide_reflect (t = CapacityTypeReserved)) as [->|Hne]; cbn [negb] in Hs.
  - apply bind_Some in Hs as (id & Hid & Hs). injection Hs as Hs.
    assert (is_Some (cap1 !! id) ∧ dom cap ⊆ dom cap1) as [Hin Hd1].
    { revert Hs. destruct (cap !! id) as [v|] eqn:Ev; [destruct (v >? _)%Z|]; intros <-; [|split; [by exists v|reflexivity]|];
        rewrite lookup_insert_eq, dom_insert_L; (split; [eexists; reflexivity|apply union_subseteq_r]). }
    split; [by etrans|]. intros o' [->|Ho']%elem_of_cons; [|by apply H]. exists CapacityTypeReserved. split; [done|]. intros _. exists id. split; [done|].
    apply elem_of_dom, Hd. by apply elem_of_dom.
  - injection Hs as <-. split; [done|]. intros o' [->|Ho']%elem_of_cons; [|by apply H]. by exists t.
Qed.

(** The manager of a run covers the instance types it was made from. *)
Lemma NewReservationManager_covers instanceTypes rm pool its : NewReservationManager instanceTypes = Some rm →
  instanceTypes !! pool = Some its → covered rm its.
Proof.
  intros (cap & [_ H]%seed_capacity_covers & [= <-])%bind_Some Hp it o Hit Ho. apply H. apply list_elem_of_In, in_concat.
  exists (Offerings it). split; apply list_elem_of_In; [|done]. apply list_elem_of_fmap_2. apply list_elem_of_In, in_concat. exists its.
  split; apply list_elem_of_In; [|done]. apply list_elem_of_fmap. exists (pool, its). split; [done|]. by apply elem_of_map_to_list.
Qed.

Lemma CanReserve_covered rm h its it o : covered rm its → it ∈ its → o ∈ Offerings it → Offering_CapacityType o = CapacityTypeReserved →
  is_Some (CanReserve rm h o).
Proof.
  intros H Hit Ho Hc. destruct (H it o Hit Ho) as (t & Ht & Hr). unfold Offering_CapacityType in Hc. rewrite Ht in Hc. cbn in Hc.
  destruct (Hr Hc) as (id & Hid & [v Hv]). unfold CanReserve. rewrite Hid. cbn. rewrite Hv. by destruct (holds _ _ _).
Qed.

(** ** Conservation *)

(** The number of hosts that hold a reservation. *)
Definition holders (rm : ReservationManager) (id : string) : nat :=
  length (filter (λ kv : string * gset string, id ∈ kv.2) (map_to_list (reservations rm))).

Definition remaining (rm : ReservationManager) (id : string) : Z :=
  default 0%Z (rm_capacity rm !! id).

Lemma holders_insert (m : gmap string (gset string)) c h X id :
  holders (mkRM (<[h := X]> m) c) id =
    ((if decide (id ∈ X) then 1 else 0) + holders (mkRM (delete h m) c) id)%nat.
Proof.
  unfold holders; simpl. rewrite <-insert_delete_eq.
  rewrite (map_to_list_insert (delete h m)) by apply lookup_delete_eq.
  rewrite filter_cons. simpl. by destruct (decide (id ∈ X)).
Qed.

Lemma holders_split (rm : ReservationManager) h id :
  holders rm id = ((if holds rm h id then 1 else 0) +
                   holders (mkRM (delete h (reservations rm)) (rm_capacity rm)) id)%nat.
Proof.
  unfold holds. destruct rm as [m c]; simpl. destruct (m !! h) as [X|] eqn:E; simpl.
  - rewrite <-(insert_id m h X) at 1 by done. rewrite holders_insert.
    by destruct (decide (id ∈ X)); [rewrite bool_decide_eq_true_2|rewrite bool_decide_eq_false_2].
  - rewrite bool_decide_eq_false_2 by set_solver. by rewrite delete_id.
Qed.

Lemma holders_capacity m c c' id : holders (mkRM m c) id = holders (mkRM m c') id.
Proof. done. Qed.

Lemma Reserve1_conserves h rm o rm' id :
  Reserve1 h rm o = Some rm' →
  (remaining rm' id + Z.of_nat (holders rm' id) = remaining rm id + Z.of_nat (holders rm id))%Z.
Proof.
  intros HR. pose proof (Reserve1_read _ _ _ _ HR) as Hid. revert HR. unfold Reserve1. rewrite Hid. cbn [mbind option_bind]. destruct (holds rm h (ReservationID o)) eqn:Hh; [by intros [= <-]|].
  destruct (_ <? 0)%Z; [done|]. intros [= <-].
  rewrite holders_insert, (holders_split rm h id).
  rewrite (holders_capacity _ _ (rm_capacity rm)).
  unfold remaining at 1; simpl. unfold holds in *. rewrite lookup_insert.
  destruct (decide (ReservationID o = id)) as [<-|Hne].
  - rewrite decide_True by set_solver. rewrite Hh. unfold remaining. simpl. lia.
  - unfold remaining.
    destruct (decide (id ∈ default ∅ (reservations rm !! h))) as [Hin|Hin].
    + rewrite decide_True by set_solver. rewrite bool_decide_eq_true_2 by done. lia.
    + rewrite decide_False by set_solver. rewrite bool_decide_eq_false_2 by done. lia.
Qed.

Lemma Release1_conserves h rm o id :
  (remaining (Release1 h rm o) id + Z.of_nat (holders (Release1 h rm o) id)
   = remaining rm id + Z.of_nat (holders rm id))%Z.
Proof.
  unfold Release1. destruct (holds rm h (ReservationID o)) eqn:Hh; [|done].
  rewrite holders_insert, (holders_split rm h id).
  rewrite (holders_capacity _ _ (rm_capacity rm)).
  unfold remaining at 1; simpl. unfold holds in *. rewrite lookup_insert.
  destruct (decide (ReservationID o = id)) as [<-|Hne].
  - rewrite decide_False by set_solver. rewrite Hh. unfold remaining. simpl. lia.
  - unfold remaining.
    destruct (decide (id ∈ default ∅ (reservations rm !! h))) as [Hin|Hin].
    + rewrite decide_True by set_solver. rewrite bool_decide_eq_true_2 by done. lia.
    + rewrite decide_False by set_solver. rewrite bool_decide_eq_false_2 by done. lia.
Qed.

Lemma Reserve_conserves h rm os rm' id :
  Reserve rm h os = Some rm' →
  (remaining rm' id + Z.of_nat (holders rm' id) = remaining rm id + Z.of_nat (holders rm id))%Z.
Proof.
  unfold Reserve. revert rm. induction os as [|o os IH]; intros rm; simpl; [by intros [= <-]|].
  destruct (Reserve1 h rm o) as [rm1|] eqn:E; simpl; [|done].
  intros Hr. rewrite (IH _ Hr). by eapply Reserve1_conserves.
Qed.

Lemma Release_conserves h rm os id :
  (remaining (Release rm h os) id + Z.of_nat (holders (Release rm h os) id)
   = remaining rm id + Z.of_nat (holders rm id))%Z.
Proof.
  unfold Release. revert rm. induction os as [|o os IH]; intros rm; simpl; [done|].
  by rewrite IH, Release1_conserves.
Qed.

(** Remaining counts are never negative. *)
Definition rm_wf (rm : ReservationManager) : Prop := ∀ id, (0 ≤ remaining rm id)%Z.

Inductive reservation_step : ReservationManager → ReservationManager → Prop :=
| rstep_reserve rm h os rm' : Reserve rm h os = Some rm' → reservation_step rm rm'
| rstep_release rm h os : reservation_step rm (Release rm h os).

Lemma seed_capacity_nonneg os cap cap' : foldl_opt seed_capacity cap os = Some cap' →
  (∀ o, o ∈ os → (0 ≤ ReservationCapacity o)%Z) → (∀ id c, cap !! id = Some c → (0 ≤ c)%Z) → ∀ id c, cap' !! id = Some c → (0 ≤ c)%Z.
Proof.
  revert cap. induction os as [|o os IH]; intros cap; cbn [foldl_opt]; [by intros [= <-]|].
  intros (cap1 & Hs & Hf)%bind_Some Ho Hc. apply (IH cap1 Hf); [intros; apply Ho; by right|].
  specialize (Ho o (list_elem_of_here _ _)). unfold seed_capacity in Hs. apply bind_Some in Hs as (t & _ & Hs).
  destruct (negb _); [by injection Hs as <-|]. apply bind_Some in Hs as (i & _ & [= <-]). intros id c.
  repeat case_match; try apply Hc; (destruct (decide (i = id)) as [->|]; [rewrite lookup_insert_eq; by intros [= <-]|]);
    rewrite lookup_insert_ne by done; apply Hc.
Qed.

Lemma NewReservationManager_wf instanceTypes rm : NewReservationManager instanceTypes = Some rm →
  (∀ pool its it o, instanceTypes !! pool = Some its → it ∈ its → o ∈ Offerings it → (0 ≤ ReservationCapacity o)%Z) → rm_wf rm.
Proof.
  intros (cap & Hs & [= <-])%bind_Some Ho id. unfold remaining. simpl. destruct (cap !! id) as [c|] eqn:Ec; simpl; [|done].
  revert id c Ec. eapply seed_capacity_nonneg; [exact Hs| |by intros ? ? ?%lookup_empty_Some].
  intros o (os & Hos%list_elem_of_In & Hin%list_elem_of_In)%list_elem_of_In%in_concat. apply list_elem_of_fmap in Hos as (it & -> & Hit).
  apply list_elem_of_In, in_concat in Hit as (its & Hits%list_elem_of_In & Hit%list_elem_of_In).
  apply list_elem_of_fmap in Hits as ([pool its'] & -> & Hp%elem_of_map_to_list). by eapply Ho.
Qed.

Lemma Credit_dom rm id c : dom (rm_capacity (Credit rm id c)) = dom (rm_capacity rm).
Proof. unfold Credit. destruct (rm_capacity rm !! id) eqn:E; [|done]. simpl. rewrite dom_insert_L. apply elem_of_dom_2 in E. set_solver. Qed.

Lemma Credit_wf rm id c : (0 ≤ c)%Z → rm_wf rm → rm_wf (Credit rm id c).
Proof.
  intros Hc Hwf i. specialize (Hwf i). unfold remaining, Credit in *. destruct (rm_capacity rm !! id) as [v|] eqn:E; [|done]. simpl.
  destruct (decide (id = i)) as [->|]; [|by rewrite lookup_insert_ne]. rewrite lookup_insert_eq. rewrite E in Hwf. simpl in *. lia.
Qed.

Lemma Reserve1_wf h rm o rm' : Reserve1 h rm o = Some rm' → rm_wf rm → rm_wf rm'.
Proof.
  intros HR. pose proof (Reserve1_read _ _ _ _ HR) as Hid. revert HR. unfold Reserve1. rewrite Hid. cbn [mbind option_bind]. destruct (holds _ _ _); [by intros [= <-]|].
  destruct (Z.ltb_spec (default 0%Z (rm_capacity rm !! ReservationID o) - 1) 0); [done|].
  intros [= <-] Hwf id. unfold remaining; simpl. rewrite lookup_insert.
  case_decide; [simpl; lia|apply Hwf].
Qed.

Lemma reservation_step_wf rm rm' : reservation_step rm rm' → rm_wf rm → rm_wf rm'.
Proof.
  intros [rm0 h os rm1 Hr|rm0 h os] Hwf.
  - unfold Reserve in Hr. revert rm0 Hr Hwf.
    induction os as [|o os IH]; intros rm0; simpl; [by intros [= <-]|].
    destruct (Reserve1 h rm0 o) eqn:E; simpl; [|done]. eauto using Reserve1_wf.
  - unfold Release. revert rm0 Hwf. induction os as [|o os IH]; intros rm0 Hwf; simpl; [done|].
    apply IH. unfold Release1. destruct (holds _ _ _); [|done].
    intros id. unfold remaining; simpl. rewrite lookup_insert.
    case_decide; [subst; specialize (Hwf (ReservationID o)); unfold remaining in Hwf; simpl; lia
                 |apply Hwf].
Qed.

(** C35: reservations are conserved: through any sequence of reservations and
    releases the remaining capacity of a reservation plus the number of hosts
    holding it is constant and the remaining capacity is never negative, so a
    reservation of n slots is never held by more than n hosts. *)
Theorem reservations_conserved rm rm' id :
  rm_wf rm → rtc reservation_step rm rm' →
  (remaining rm' id + Z.of_nat (holders rm' id) = remaining rm id + Z.of_nat (holders rm id))%Z ∧
  (0 ≤ remaining rm' id)%Z ∧
  (Z.of_nat (holders rm' id) ≤ remaining rm id + Z.of_nat (holders rm id))%Z.
Proof.
  intros Hwf Hsteps.
  assert (rm_wf rm' ∧ (remaining rm' id + Z.of_nat (holders rm' id) =
    remaining rm id + Z.of_nat (holders rm id))%Z) as [Hwf' Heq].
  { induction Hsteps as [|a b c Hst _ IH]; [done|].
    pose proof (reservation_step_wf _ _ Hst Hwf) as Hwfb. destruct (IH Hwfb) as [Hc Hs].
    split; [done|]. rewrite Hs. destruct Hst as [? ? ? ? Hr|]; [by eapply Reserve_conserves|].
    apply Release_conserves. }
  split_and!; [done|apply Hwf'|]. specialize (Hwf' id). lia.
Qed.

Lemma Reserve_held h os rm :
  (∀ o, o ∈ os → is_Some (read_ReservationID o) ∧ holds rm h (ReservationID o) = true) → Reserve rm h os = Some rm.
Proof.
  unfold Reserve. induction os as [|o os IH]; intros Hh; simpl; [done|].
  assert (Reserve1 h rm o = Some rm) as ->.
  { destruct (Hh o (list_elem_of_here _ _)) as [[id Hid] Ho]. unfold Reserve1. unfold ReservationID in Ho. rewrite Hid in *. cbn in *. by rewrite Ho. }
  simpl. apply IH. intros o' Ho'. apply Hh. by right.
Qed.

(** A host can take a slot of a reservation it holds or that has one left. *)
Definition reservable (rm : ReservationManager) (h id : string) : Prop :=
  holds rm h id = true ∨ (0 < remaining rm id)%Z.

Abbreviation readable o := (is_Some (read_ReservationID o)).

Lemma read_ReservationID_eq o : readable o → read_ReservationID o = Some (ReservationID o).
Proof. intros [id H]. unfold ReservationID. by rewrite H. Qed.

Lemma Reserve1_progress h rm o :
  rm_wf rm → readable o → reservable rm h (ReservationID o) →
  ∃ rm1, Reserve1 h rm o = Some rm1 ∧ rm_wf rm1 ∧ holds rm1 h (ReservationID o) = true ∧
    (∀ id, holds rm h id = true → holds rm1 h id = true) ∧
    (∀ id, id ≠ ReservationID o → remaining rm1 id = remaining rm id).
Proof.
  intros Hwf Hid%read_ReservationID_eq Hc. destruct (holds rm h (ReservationID o)) eqn:Hh.
  { exists rm. unfold Reserve1. rewrite Hid. cbn. by rewrite Hh. }
  destruct Hc as [?|Hpos]; [congruence|].
  assert (Reserve1 h rm o = Some (mkRM
    (<[h := default ∅ (reservations rm !! h) ∪ {[ReservationID o]}]> (reservations rm))
    (<[ReservationID o := (remaining rm (ReservationID o) - 1)%Z]> (rm_capacity rm)))) as E.
  { unfold Reserve1. rewrite Hid. cbn [mbind option_bind]. rewrite Hh. unfold remaining in *.
    destruct (Z.ltb_spec (default 0%Z (rm_capacity rm !! ReservationID o) - 1) 0); [lia|done]. }
  eexists. split; [done|]. split_and!.
  - by eapply Reserve1_wf.
  - unfold holds; simpl. rewrite lookup_insert_eq. apply bool_decide_eq_true. simpl. set_solver.
  - intros id. unfold holds; simpl. rewrite lookup_insert_eq, !bool_decide_eq_true. simpl. set_solver.
  - intros id Hne. unfold remaining; simpl. by rewrite lookup_insert_ne.
Qed.

Lemma Reserve_progress h os rm :
  rm_wf rm → (∀ o, o ∈ os → readable o ∧ reservable rm h (ReservationID o)) →
  ∃ rm', Reserve rm h os = Some rm' ∧
    (∀ id, holds rm h id = true → holds rm' h id = true) ∧
    (∀ o, o ∈ os → holds rm' h (ReservationID o) = true).
Proof.
  unfold Reserve. revert rm. induction os as [|o os IH]; intros rm Hwf Hc; simpl.
  { exists rm. split_and!; [done|done|by intros o ?%not_elem_of_nil]. }
  destruct (Reserve1_progress h rm o Hwf) as (rm1 & -> & Hwf1 & Ho & Hmono & Hrem);
    [apply Hc; by left|apply Hc; by left|]. simpl.
  destruct (IH rm1 Hwf1) as (rm' & Hr & Hm' & Hall).
  { intros o' Ho'. split; [apply Hc; by right|]. destruct (decide (ReservationID o' = ReservationID o)) as [->|Hne]; [by left|].
    destruct (Hc o' ltac:(by right)) as [_ [?|?]]; [left; auto|right]. by rewrite Hrem. }
  exists rm'. split_and!; [done|auto|]. intros o' [->|Ho']%elem_of_cons; auto.
Qed.

Lemma CanReserve_reservable rm h o :
  rm_wf rm → CanReserve rm h o = Some true → readable o ∧ reservable rm h (ReservationID o).
Proof.
  intros Hwf Hcan. unfold CanReserve in Hcan. unfold ReservationID in *. destruct (read_ReservationID o) as [i|]; [|done]. split; [done|].
  cbn in Hcan |- *. unfold reservable.
  destruct (holds _ _ _); [by left|right].
  specialize (Hwf i). unfold remaining in *.
  destruct (rm_capacity rm !! i) as [c|]; [|done]. simpl in *.
  injection Hcan as Hc. apply negb_true_iff, Z.eqb_neq in Hc. lia.
Qed.

(** Reserving the offerings that [CanReserve] accepted never panics: when every
    offering can be reserved for a host, reserving them all succeeds, the host
    then holds each of them, and reserving them again changes nothing. *)
Theorem Reserve_after_CanReserve rm hostname os :
  rm_wf rm → (∀ o, o ∈ os → CanReserve rm hostname o = Some true) →
  ∃ rm', Reserve rm hostname os = Some rm' ∧
    (∀ o, o ∈ os → HasReservation rm' hostname o = true) ∧
    Reserve rm' hostname os = Some rm'.
Proof.
  intros Hwf Hcan.
  destruct (Reserve_progress hostname os rm Hwf) as (rm' & Hr & _ & Hall).
  { intros o Ho. by apply CanReserve_reservable, Hcan. }
  exists rm'. split_and!; [done|done|]. apply Reserve_held. intros o Ho. split; [|by apply Hall].
  by apply (CanReserve_reservable rm hostname o Hwf), Hcan.
Qed.
End reservations.
