(* ===== verification/PodState.v ===== *)
(** * PodState: what the controllers may do with a pod (pkg/utils/pod/scheduling.go)

    Predicates on the lifecycle of a pod.  [ParseDuration] is package time's parser;
    publishing events has no effect on the results and is left out. *)

From S2P Require Import Prelude Labels Objects Taints.

Definition DoNotDisruptAnnotationKey : string := Group +:+ "/do-not-disrupt".

(** [time.Minute] in nanoseconds. *)
Definition Minute : Z := 60000000000.

Definition FailedToSchedule (pod : Pod) : bool :=
  existsb (λ c, bool_decide (cond_Type c = "PodScheduled") && bool_decide (cond_Reason c = "Unschedulable"))
    (Conditions (pod_Status pod)).

Definition IsScheduled (pod : Pod) : bool := negb (bool_decide (pod_NodeName pod = EmptyString)).
Definition IsPreempting (pod : Pod) : bool :=
  negb (bool_decide (NominatedNodeName (pod_Status pod) = EmptyString)).
Definition IsPending (pod : Pod) : bool := bool_decide (Phase (pod_Status pod) = PodPending).
Definition IsTerminal (pod : Pod) : bool :=
  bool_decide (Phase (pod_Status pod) = PodFailed) || bool_decide (Phase (pod_Status pod) = PodSucceeded).
Definition IsTerminating (pod : Pod) : bool := bool_decide (is_Some (pod_DeletionTimestamp pod)).

Definition IsStuckTerminating (pod : Pod) (now : Z) : bool :=
  match pod_DeletionTimestamp pod with
  | Some t => (time_Sub now t >? Minute)%Z
  | None => false
  end.

(** A group-version-kind: the API version string and the kind. *)
Definition gvk : Type := string * string.

Definition pod_IsOwnedBy (pod : Pod) (gvks : list gvk) : bool :=
  existsb (λ ignoredOwner : gvk,
    existsb (λ owner, bool_decide (or_APIVersion owner = ignoredOwner.1) && bool_decide (or_Kind owner = ignoredOwner.2))
      (pod_OwnerReferences pod)) gvks.

Definition IsOwnedByStatefulSet (pod : Pod) : bool := pod_IsOwnedBy pod [("apps/v1", "StatefulSet")].
Definition IsOwnedByDaemonSet (pod : Pod) : bool := pod_IsOwnedBy pod [("apps/v1", "DaemonSet")].
Definition IsOwnedByNode (pod : Pod) : bool := pod_IsOwnedBy pod [("v1", "Node")].

(** [metav1.GetControllerOfNoCopy]: the first owner reference marked as controller. *)
Definition GetControllerOf (pod : Pod) : option OwnerReference :=
  List.find or_Controller (pod_OwnerReferences pod).

Definition IsControlledBy (pod : Pod) (gvks : list gvk) : bool :=
  match GetControllerOf pod with
  | None => false
  | Some owner => existsb (λ g : gvk, bool_decide (or_APIVersion owner = g.1) && bool_decide (or_Kind owner = g.2)) gvks
  end.

Definition IsControlledByReplicaSet (pod : Pod) : bool := IsControlledBy pod [("apps/v1", "ReplicaSet")].

Definition IsActive (pod : Pod) : bool := negb (IsTerminal pod) && negb (IsTerminating pod).

Definition IsReschedulable (pod : Pod) : bool :=
  (IsActive pod || (IsOwnedByStatefulSet pod && IsTerminating pod)) &&
  negb (IsOwnedByDaemonSet pod) && negb (IsOwnedByNode pod).

Definition IsProvisionable (pod : Pod) : bool :=
  FailedToSchedule pod && negb (IsScheduled pod) && negb (IsPreempting pod) &&
  negb (IsOwnedByDaemonSet pod) && negb (IsOwnedByNode pod).

Definition IsPodEligibleForForcedEviction (pod : Pod) (nodeGracePeriodExpirationTime : option Z) : bool :=
  match nodeGracePeriodExpirationTime, pod_DeletionTimestamp pod with
  | Some expiration, Some deletion => (expiration <? deletion)%Z
  | _, _ => false
  end.

Definition HasPodAntiAffinity (pod : Pod) : bool :=
  match pod_Affinity pod ≫= PodAntiAffinity with
  | Some anti => negb (length (pa_Required anti) =? 0)%nat || negb (length (pa_Preferred anti) =? 0)%nat
  | None => false
  end.

Definition HasRequiredPodAntiAffinity (pod : Pod) : bool :=
  HasPodAntiAffinity pod &&
  match pod_Affinity pod ≫= PodAntiAffinity with
  | Some anti => negb (length (pa_Required anti) =? 0)%nat
  | None => false
  end.

Definition HasDRARequirements (pod : Pod) : bool :=
  negb (length (pod_ResourceClaims pod) =? 0)%nat ||
  existsb (λ claims, negb (length claims =? 0)%nat) (pod_InitContainerClaims pod) ||
  existsb (λ claims, negb (length claims =? 0)%nat) (pod_ContainerClaims pod).

Section pod_state.
  Context `{TA : TaintApi} (ParseDuration : string → option Z).

Definition ToleratesDisruptedNoScheduleTaint (pod : Pod) : bool :=
  match ToleratesPod [DisruptedNoScheduleTaint] pod with [] => true | _ => false end.

Definition parseDoNotDisrupt (value : string) : option Z :=
  match ParseDuration value with
  | None => None
  | Some d => if (d <=? 0)%Z then None else Some d
  end.

Definition IsDoNotDisruptActive (pod : Pod) (now : Z) : bool :=
  match pod_Annotations pod !! DoNotDisruptAnnotationKey with
  | None => false
  | Some value =>
      if bool_decide (value = "true") then true
      else match parseDoNotDisrupt value with
           | None => false
           | Some duration =>
               match StartTime (pod_Status pod) with
               | None => true
               | Some start => (time_Sub now start <? duration)%Z
               end
           end
  end.

Definition IsEvictable (pod : Pod) (now : Z) : bool :=
  IsActive pod && negb (ToleratesDisruptedNoScheduleTaint pod) && negb (IsOwnedByNode pod) &&
  negb (IsDoNotDisruptActive pod now).

Definition IsDrainable (pod : Pod) (now : Z) : bool :=
  negb (ToleratesDisruptedNoScheduleTaint pod) && negb (IsStuckTerminating pod now) && negb (IsOwnedByNode pod).

Definition IsWaitingEviction (pod : Pod) (now : Z) : bool := negb (IsTerminal pod) && IsDrainable pod now.

Definition IsDisruptable (pod : Pod) (now : Z) : bool :=
  negb (IsActive pod) || negb (IsDoNotDisruptActive pod now).

(** ** Properties *)

(** Evicting, draining and disrupting agree: a pod that is evicted is one the
    drain waits for and one that may be disrupted, and an active pod the drain
    waits for that is not evictable is one protected from disruption. *)
Theorem evictable_consistent pod now :
  (IsEvictable pod now = true → IsWaitingEviction pod now = true ∧ IsDisruptable pod now = true) ∧
  (IsActive pod = true → IsWaitingEviction pod now = true → IsEvictable pod now = false →
   IsDisruptable pod now = false).
Proof.
  assert (IsTerminating pod = false → IsStuckTerminating pod now = false) as Hst.
  { unfold IsTerminating, IsStuckTerminating. rewrite bool_decide_eq_false. destruct (pod_DeletionTimestamp pod); [|done]. intros []; eauto. }
  unfold IsEvictable, IsWaitingEviction, IsDrainable, IsDisruptable, IsActive.
  destruct (IsTerminal pod), (IsTerminating pod), (ToleratesDisruptedNoScheduleTaint pod), (IsOwnedByNode pod),
    (IsDoNotDisruptActive pod now), (IsStuckTerminating pod now); simpl; naive_solver.
Qed.

Lemma time_Sub_mono now now' t : (now ≤ now')%Z → (time_Sub now t ≤ time_Sub now' t)%Z.
Proof. unfold time_Sub. lia. Qed.

(** Time only removes protection: once a pod can be evicted or disrupted it stays
    so as the clock advances, and a pod stuck terminating stays stuck. *)
Theorem protection_expires pod now now' :
  (now ≤ now')%Z →
  (IsDoNotDisruptActive pod now' = true → IsDoNotDisruptActive pod now = true) ∧
  (IsEvictable pod now = true → IsEvictable pod now' = true) ∧
  (IsDisruptable pod now = true → IsDisruptable pod now' = true) ∧
  (IsWaitingEviction pod now' = true → IsWaitingEviction pod now = true).
Proof.
  intros Hn.
  assert (IsDoNotDisruptActive pod now' = true → IsDoNotDisruptActive pod now = true) as H1.
  { unfold IsDoNotDisruptActive. repeat case_match; try done. rewrite !Z.ltb_lt. pose proof (time_Sub_mono now now' z0 Hn). lia. }
  assert (IsStuckTerminating pod now = true → IsStuckTerminating pod now' = true) as H2.
  { unfold IsStuckTerminating. case_match; [|done]. pose proof (time_Sub_mono now now' z Hn). rewrite !Z.gtb_lt. lia. }
  unfold IsEvictable, IsDisruptable, IsWaitingEviction, IsDrainable.
  destruct (IsDoNotDisruptActive pod now), (IsDoNotDisruptActive pod now'),
    (IsStuckTerminating pod now), (IsStuckTerminating pod now'); simpl;
  split_and!; try done; rewrite ?andb_true_iff, ?orb_true_iff; naive_solver.
Qed.
End pod_state.
