(* ===== verification/DisruptionCost.v ===== *)
(** * DisruptionCost: what it costs to move a node's pods
    (pkg/utils/disruption/disruption.go)

    Costs and prices are float64s; the parsing of the cost annotations is the
    one of package strconv. *)

From S2P Require Import Prelude Float64 Labels Requirement Objects Requirements Resources InstanceTypes Reservations.
From S2P Require Import PodState.

#[local] Open Scope Z_scope.

Definition DisruptionCostAnnotationKey : string := Group +:+ "/disruption-cost".

(** [corev1.PodDeletionCost]. *)
Definition PodDeletionCost : string := "controller.kubernetes.io/pod-deletion-cost".

(** An integer constant of the source. *)
Abbreviation fconst := float64_of_int.

Definition PerNodeBaseDisruptionCost : float64 := fconst 1.

(** [time.Duration.Seconds]. *)
Definition Seconds (d : Z) : float64 :=
  fadd (float64_of_int (d `quot` 1000000000))
       (fdiv (float64_of_int (d `rem` 1000000000)) (float64_of_int 1000000000)).

Section costs.
  (** The feature gate PodDeletionCostManagement. *)
  Context (PodDeletionCostManagement : bool).

(** The share of an annotation that parses as an int32; others are logged and skipped. *)
Definition annotated_cost (cost : float64) (value : string) : float64 :=
  match ParseInt32 value with
  | Some parsedCost => fadd cost (fdiv (float64_of_int parsedCost) (fconst (2 ^ 27)))
  | None => cost
  end.

Definition EvictionCost (p : Pod) : float64 :=
  let cost := fconst 1 in
  let cost := match pod_Annotations p !! DisruptionCostAnnotationKey with
              | Some costStr => annotated_cost cost costStr
              | None =>
                  if PodDeletionCostManagement then cost
                  else match pod_Annotations p !! PodDeletionCost with
                       | Some podDeletionCostStr => annotated_cost cost podDeletionCostStr
                       | None => cost
                       end
              end in
  let cost := match pod_Priority p with
              | Some priority => fadd cost (fdiv (float64_of_int priority) (fconst (2 ^ 25)))
              | None => cost
              end in
  fclamp cost (fconst (-10)) (fconst 10).

Definition ComputeRescheduleDisruptionCost (reschedulablePods : list Pod) : float64 :=
  foldl (λ cost p, fadd cost (fmax (fconst 0) (EvictionCost p))) PerNodeBaseDisruptionCost reschedulablePods.

Definition ReschedulingCost (pods : list Pod) : float64 := fsum (EvictionCost <$> pods).
End costs.

(** [None] is the panic on a zero denominator. *)
Definition SavingsRatio (price rescheduleDisruptionCost : float64) : option float64 :=
  if feqb rescheduleDisruptionCost (fconst 0) then None else Some (fdiv price rescheduleDisruptionCost).

Definition LifetimeRemaining (now : Z) (nodeClaim : v1NodeClaim) : float64 :=
  match claim_ExpireAfter nodeClaim with
  | Some expireAfter =>
      let ageInSeconds := Seconds (time_Sub now (claim_CreationTimestamp nodeClaim)) in
      let totalLifetimeSeconds := Seconds expireAfter in
      let lifetimeRemainingSeconds := fsub totalLifetimeSeconds ageInSeconds in
      fclamp (fdiv lifetimeRemainingSeconds totalLifetimeSeconds) (fconst 0) (fconst 1)
  | None => fconst 1
  end.

Section prices.
  (** The random source of [Requirement.Any], drawn when the zone or the capacity
      type of an offering is read. *)
  Context `{LR : LabelRegistry} (draw : Z → Z).

Definition Offering_Zone (o : Offering) : string :=
  default EmptyString (Any draw (Get (of_Requirements o) LabelTopologyZone)).

(** [Some] price of the first offering of the zone and capacity type. *)
Definition OfferingPrice (i : InstanceType) (zone capacityType : string) : option Z :=
  Price <$> List.find (λ o, bool_decide (Offering_Zone o = zone) &&
                            bool_decide (Offering_CapacityType draw o = capacityType)) (Offerings i).

(** Prices are finite, so the guard against NaN never applies. *)
Definition ResolveOfferingPrice (labels : gmap string string) (instanceType : option InstanceType) : Z :=
  match instanceType with
  | None => 0
  | Some it => default 0 (OfferingPrice it (default EmptyString (labels !! LabelTopologyZone))
                            (default EmptyString (labels !! CapacityTypeLabelKey)))
  end.
End prices.

(** ** Bounds *)

Lemma fconst_exact n : Z.abs n < 2 ^ 53 → fconst n = Fin (n * funit).
Proof. apply float64_of_int_exact. Qed.

Lemma representable_int n : Z.abs n < 2 ^ 53 → representable (n * funit).
Proof. intros Hn. exists n, 1074. split_and!; [lia|done|done]. Qed.

(** Dividing an int32 by a power of two is exact. *)
Lemma scaled_int32 n k : -2147483648 ≤ n ≤ 2147483647 → 0 ≤ k ≤ 31 →
  fdiv (float64_of_int n) (fconst (2 ^ k)) = Fin (n * 2 ^ (1074 - k)).
Proof.
  intros Hn Hk. pose proof funit_pos as Hu. assert (0 < 2 ^ k ≤ 2 ^ 31) as Hp.
  { split; [apply Z.pow_pos_nonneg; lia|apply Z.pow_le_mono_r; lia]. }
  rewrite !float64_of_int_exact by lia. unfold fdiv.
  destruct (Z.eqb_spec (2 ^ k * funit) 0); [nia|].
  rewrite Z.sgn_pos, Z.abs_eq, Z.mul_1_l by nia.
  replace (n * funit * funit) with (n * 2 ^ (1074 - k) * (2 ^ k * funit)).
  2: { transitivity (n * (2 ^ (1074 - k) * 2 ^ k) * funit); [lia|].
       rewrite <-Z.pow_add_r by lia. replace (1074 - k + k) with 1074 by lia. done. }
  rewrite to_float64_scale by nia. apply to_float64_Fin; [exists n, (1074 - k); split_and!; lia|].
  rewrite Z.abs_mul, (Z.abs_eq (2 ^ _)) by (apply Z.pow_nonneg; lia).
  apply (Z.le_lt_trans _ (2 ^ 31 * 2 ^ (1074 - k))); [apply Z.mul_le_mono_nonneg_r; [apply Z.pow_nonneg|]; lia|].
  rewrite <-Z.pow_add_r by lia. apply pow2_lt_foverflow. lia.
Qed.

(** Sums of three numbers below 2^1106 are finite. *)
Lemma fadd_finite a b k : 0 ≤ k < 2097 → Z.abs a ≤ 2 ^ k → Z.abs b ≤ 2 ^ k →
  ∃ z, fadd (Fin a) (Fin b) = Fin z ∧ Z.abs z ≤ 2 ^ (k + 1) ∧ representable z.
Proof.
  intros Hk Ha Hb. destruct (to_float64_bounded (a + b) 1 (k + 1)) as [E H];
    [lia..| |eexists; split_and!; [exact E|done|by apply round_div_is_representable]].
  rewrite Z.mul_1_r, Z.pow_add_r by lia. lia.
Qed.

Lemma scaled_bound n k : -2147483648 ≤ n ≤ 2147483647 → 0 ≤ k ≤ 31 → Z.abs (n * 2 ^ (1074 - k)) ≤ 2 ^ 1105.
Proof.
  intros Hn Hk. rewrite Z.abs_mul, (Z.abs_eq (2 ^ _)) by (apply Z.pow_nonneg; lia).
  transitivity (2 ^ 31 * 2 ^ (1074 - k)); [apply Z.mul_le_mono_nonneg_r; [apply Z.pow_nonneg|]; lia|].
  rewrite <-Z.pow_add_r by lia. apply Z.pow_le_mono_r; lia.
Qed.

Lemma funit_bound : Z.abs (1 * funit) ≤ 2 ^ 1105.
Proof.
  pose proof funit_pos. rewrite Z.mul_1_l, Z.abs_eq by lia. apply Z.pow_le_mono_r; lia.
Qed.

Lemma annotated_cost_finite value : ∃ z, annotated_cost (fconst 1) value = Fin z ∧ Z.abs z ≤ 2 ^ 1106 ∧ representable z.
Proof.
  unfold annotated_cost. rewrite (fconst_exact 1) by lia. destruct (ParseInt32 value) as [n|] eqn:E.
  - apply ParseInt32_range in E. rewrite scaled_int32 by lia.
    apply (fadd_finite _ _ 1105); [lia|apply funit_bound|apply scaled_bound; lia].
  - eexists. pose proof funit_bound. pose proof (Z.pow_le_mono_r 2 1105 1106).
    split_and!; [done|lia|by apply representable_int].
Qed.

Definition int32_priority (p : Pod) : Prop := ∀ n, pod_Priority p = Some n → -2147483648 ≤ n ≤ 2147483647.

Section bounds.
  Context (PodDeletionCostManagement : bool).

Lemma EvictionCost_range p : int32_priority p →
  ∃ z, EvictionCost PodDeletionCostManagement p = Fin z ∧ -10 * funit ≤ z ≤ 10 * funit ∧ representable z.
Proof.
  intros Hp. unfold EvictionCost.
  set (annotated := match pod_Annotations p !! DisruptionCostAnnotationKey with Some _ => _ | None => _ end).
  assert (∃ z, annotated = Fin z ∧ Z.abs z ≤ 2 ^ 1106 ∧ representable z) as (z & -> & Hz & Hr).
  { assert (∃ z, fconst 1 = Fin z ∧ Z.abs z ≤ 2 ^ 1106 ∧ representable z) as Hone by (apply (annotated_cost_finite "x")).
    subst annotated. destruct (pod_Annotations p !! DisruptionCostAnnotationKey) as [v|]; [apply annotated_cost_finite|].
    destruct PodDeletionCostManagement; [done|]. destruct (pod_Annotations p !! PodDeletionCost) as [v|]; [apply annotated_cost_finite|done]. }
  pose proof funit_pos. rewrite (fconst_exact (-10)), (fconst_exact 10) by lia. apply fclamp_representable;
    [|lia|by apply representable_int..].
  destruct (pod_Priority p) as [n|] eqn:En; [|by eexists]. specialize (Hp n En). rewrite scaled_int32 by lia.
  destruct (fadd_finite z (n * 2 ^ (1074 - 25)) 1106) as (w & -> & _ & Hw); [lia|done| |by eexists].
  transitivity (2 ^ 1105); [apply scaled_bound; lia|apply Z.pow_le_mono_r; lia].
Qed.

(** An eviction cost lies between -10 and 10, whatever the annotations of the pod
    contain and whatever its (32-bit) priority. *)
Theorem EvictionCost_bounds p : int32_priority p →
  fleb (fconst (-10)) (EvictionCost PodDeletionCostManagement p) = true ∧
  fleb (EvictionCost PodDeletionCostManagement p) (fconst 10) = true.
Proof.
  intros Hp. destruct (EvictionCost_range p Hp) as (z & -> & Hz & _). rewrite (fconst_exact (-10)), (fconst_exact 10) by lia. clear Hp.
  unfold fleb, feqb. simpl. split.
  - destruct (Z.ltb_spec (-10 * funit) z); [done|]. cbn [orb]. apply bool_decide_eq_true. f_equal. lia.
  - destruct (Z.ltb_spec z (10 * funit)); [done|]. cbn [orb]. apply bool_decide_eq_true. f_equal. lia.
Qed.
End bounds.

(** ** The cost of a node and its savings ratio *)

Section reschedule.
  Context (PodDeletionCostManagement : bool).

Lemma at_least_one : at_least funit PerNodeBaseDisruptionCost.
Proof.
  right. unfold PerNodeBaseDisruptionCost. rewrite fconst_exact by lia. pose proof funit_pos.
  eexists. split_and!; [done|lia|by apply representable_int|]. rewrite Z.mul_1_l, Z.abs_eq by lia.
  apply pow2_lt_foverflow. lia.
Qed.

Lemma clamped_cost p : int32_priority p → at_least 0 (fmax (fconst 0) (EvictionCost PodDeletionCostManagement p)).
Proof.
  intros Hp. destruct (EvictionCost_range PodDeletionCostManagement p Hp) as (z & -> & Hz & Hr).
  rewrite fconst_exact by lia. unfold fmax. rewrite !bool_decide_false by done. cbn [orb fltb].
  pose proof funit_pos. assert (10 * funit < foverflow).
  { apply (Z.lt_trans _ (2 ^ (4 + 1074))); [|apply pow2_lt_foverflow; lia]. rewrite Z.pow_add_r by lia.
    apply Z.mul_lt_mono_pos_r; [apply funit_pos|lia]. }
  right. destruct (Z.ltb_spec (0 * funit) z).
  - exists z. split_and!; [done|lia|done|lia].
  - exists (0 * funit). split_and!; [done|lia|by apply representable_int|lia].
Qed.

Lemma reschedule_cost_at_least pods cost : Forall int32_priority pods → at_least funit cost →
  at_least funit (foldl (λ cost p, fadd cost (fmax (fconst 0) (EvictionCost PodDeletionCostManagement p))) cost pods).
Proof.
  revert cost. induction pods as [|p pods IH]; intros cost Hp Hc; simpl; [done|].
  apply Forall_cons in Hp as [Hp Hps]. apply IH; [done|].
  apply fadd_at_least; [done|pose proof funit_pos; lia|by apply clamped_cost].
Qed.

(** A node costs at least 1 to disrupt, however cheap its pods: so the savings
    ratio of a node is never a division by zero. *)
Theorem reschedule_cost_positive pods price : Forall int32_priority pods →
  let cost := ComputeRescheduleDisruptionCost PodDeletionCostManagement pods in
  fleb (fconst 1) cost = true ∧ is_Some (SavingsRatio price cost).
Proof.
  intros Hp cost. pose proof (reschedule_cost_at_least pods _ Hp at_least_one) as H.
  change (at_least funit cost) in H. unfold SavingsRatio. rewrite !fconst_exact by lia. pose proof funit_pos.
  destruct H as [->|(z & -> & Hz & _ & _)]; [done|]. unfold fleb, feqb. cbn [fltb]. split.
  - destruct (Z.ltb_spec (1 * funit) z); [done|]. cbn [orb].
    assert (z = 1 * funit) as -> by lia. by rewrite bool_decide_false, bool_decide_true by done.
  - rewrite (bool_decide_false (Fin z = Fin (0 * funit))) by (intros [= E]; lia). by rewrite andb_false_r.
Qed.
End reschedule.

(** ** The remaining lifetime *)

Lemma quot_rem_bounds d : in_int64 d → Z.abs (d `quot` 1000000000) < 2 ^ 53 ∧ Z.abs (d `rem` 1000000000) < 1000000000.
Proof.
  unfold in_int64, int64_min, int64_max. intros Hd. pose proof (Z.rem_bound_abs d 1000000000 ltac:(lia)).
  pose proof (Z.quot_rem d 1000000000 ltac:(lia)). lia.
Qed.

Lemma quot_rem_positive d : 0 < d → 0 ≤ d `quot` 1000000000 ∧ 0 ≤ d `rem` 1000000000 ∧
  (0 < d `quot` 1000000000 ∨ 0 < d `rem` 1000000000).
Proof.
  intros Hd. pose proof (Z.quot_rem d 1000000000 ltac:(lia)). pose proof (Z.rem_bound_pos d 1000000000 ltac:(lia) ltac:(lia)).
  pose proof (Z.quot_pos d 1000000000 ltac:(lia) ltac:(lia)). lia.
Qed.

Lemma one_le_round n d : 0 < d → d ≤ n → 1 ≤ round_div n d.
Proof.
  intros Hd Hn. pose proof (round_div_mono (1 * d) n d Hd ltac:(lia)) as H. rewrite round_div_scale in H by done.
  rewrite round_div_representable in H; [lia|]. by apply (representable_pow2 0).
Qed.

Lemma round_nonneg n d : 0 < d → 0 ≤ n → 0 ≤ round_div n d.
Proof. intros Hd Hn. exact (round_div_mono 0 n d Hd Hn). Qed.

(** The fraction of a second. *)
Lemma fraction_finite r : Z.abs r < 1000000000 → ∃ z, fdiv (float64_of_int r) (float64_of_int 1000000000) = Fin z ∧
  Z.abs z ≤ funit ∧ (0 ≤ r → 0 ≤ z) ∧ (0 < r → 1 ≤ z).
Proof.
  intros Hr. pose proof funit_pos as Hu. rewrite !float64_of_int_exact by lia. unfold fdiv.
  destruct (Z.eqb_spec (1000000000 * funit) 0); [lia|]. rewrite Z.sgn_pos, (Z.abs_eq (_ * funit)), Z.mul_1_l by lia.
  destruct (to_float64_bounded (r * funit * funit) (1000000000 * funit) 1074) as [-> Hb]; [lia..| |].
  { change (2 ^ 1074) with funit. rewrite !Z.abs_mul, (Z.abs_eq funit) by lia. nia. }
  assert (1000000000 ≤ funit) by (unfold funit; transitivity (2 ^ 30); [lia|apply Z.pow_le_mono_r; lia]).
  eexists. split_and!; [done|done|intros; apply round_nonneg; nia|intros; apply one_le_round; nia].
Qed.

Lemma Seconds_finite d : in_int64 d → ∃ z, Seconds d = Fin z ∧ (0 < d → 0 < z).
Proof.
  intros Hd. unfold Seconds. destruct (quot_rem_bounds d Hd) as [Hq Hr]. pose proof funit_pos as Hu.
  destruct (fraction_finite _ Hr) as (f & -> & Hf & Hf0 & Hf1). rewrite float64_of_int_exact by done.
  destruct (to_float64_bounded (d `quot` 1000000000 * funit + f) 1 (54 + 1074)) as [E _]; [lia..| |].
  { rewrite Z.pow_add_r by lia. change (2 ^ 1074) with funit. change (2 ^ 54) with (2 * 2 ^ 53). nia. }
  eexists. split; [exact E|]. intros Hp. destruct (quot_rem_positive d Hp) as (Hq0 & Hr0 & Hor).
  apply (Z.lt_le_trans _ 1); [lia|]. apply one_le_round; [lia|]. destruct Hor; nia.
Qed.

Lemma fdiv_not_NaN x b : x ≠ NaN → b ≠ 0 → fdiv x (Fin b) ≠ NaN.
Proof.
  intros Hx Hb. destruct x as [a| | |]; simpl; [|by destruct (b <? 0)..|done].
  destruct (Z.eqb_spec b 0); [done|]. apply to_float64_not_NaN.
Qed.

(** The remaining lifetime of a node that expires is a fraction between 0 and 1. *)
Theorem LifetimeRemaining_bounds now nodeClaim d :
  claim_ExpireAfter nodeClaim = Some d → 0 < d → in_int64 d →
  ∃ z, LifetimeRemaining now nodeClaim = Fin z ∧ 0 ≤ z ≤ funit.
Proof.
  intros E Hp Hd. unfold LifetimeRemaining. rewrite E.
  destruct (Seconds_finite d Hd) as (t & -> & Ht). specialize (Ht Hp).
  assert (in_int64 (time_Sub now (claim_CreationTimestamp nodeClaim))) as Ha.
  { unfold in_int64, time_Sub, int64_min, int64_max. lia. }
  destruct (Seconds_finite _ Ha) as (a & -> & _). rewrite (fconst_exact 0), (fconst_exact 1) by lia.
  pose proof funit_pos. destruct (fclamp_bounds (fdiv (fsub (Fin t) (Fin a)) (Fin t)) (0 * funit) (1 * funit)) as (z & -> & Hz);
    [|lia|exists z; split; [done|lia]].
  apply fdiv_not_NaN; [|lia]. apply to_float64_not_NaN.
Qed.
