(* ===== verification/Preferences.v ===== *)
(** * Preferences: relaxing the soft constraints of a pod
    (pkg/controllers/provisioning/scheduling/preferences.go)

    A pod that does not fit is retried with one soft constraint fewer.  Each
    relaxation function returns the reason (the source renders it for the log)
    and the changed pod, or [None] when it does not apply. *)

From S2P Require Import Prelude Requirement Objects Requirements.

(** [corev1.Toleration.MatchToleration]: tolerations are unique by key, effect,
    operator and value. *)
Class TolerationApi := {
  MatchToleration : Toleration → Toleration → bool;
  MatchToleration_spec : ∀ t t', MatchToleration t t' = true ↔ t = t';
}.

#[export] Program Instance simple_toleration_api : TolerationApi := {
  MatchToleration t t' := bool_decide (t = t');
}.
Next Obligation. intros. apply bool_decide_eq_true. Qed.

Record Preferences := mkPreferences { ToleratePreferNoSchedule : bool }.

(** Why a pod was relaxed: the constraint that was removed or added. *)
Inductive relaxation :=
| RemovedRequiredNodeAffinity (term : list CoreNodeSelectorRequirement)
| RemovedPreferredPodAffinity (term : WeightedPodAffinityTerm)
| RemovedPreferredPodAntiAffinity (term : WeightedPodAffinityTerm)
| RemovedPreferredNodeAffinity (term : PreferredSchedulingTerm)
| RemovedTopologySpread (tsc : TopologySpreadConstraint)
| AddedToleration (t : Toleration).

Definition with_affinity (pod : Pod) (a : AffinityT) : Pod :=
  mkPod (pod_Namespace pod) (pod_Name pod) (pod_UID pod) (pod_Labels pod) (pod_Annotations pod)
    (pod_CreationTimestamp pod) (pod_NodeSelector pod) (Some a) (pod_Tolerations pod)
    (pod_TopologySpreadConstraints pod) (pod_Containers pod) (pod_Priority pod) (pod_NodeName pod)
    (pod_Status pod) (pod_DeletionTimestamp pod) (pod_OwnerReferences pod) (pod_ResourceClaims pod)
    (pod_InitContainerClaims pod) (pod_ContainerClaims pod).

Definition with_tolerations (pod : Pod) (ts : list Toleration) : Pod :=
  mkPod (pod_Namespace pod) (pod_Name pod) (pod_UID pod) (pod_Labels pod) (pod_Annotations pod)
    (pod_CreationTimestamp pod) (pod_NodeSelector pod) (pod_Affinity pod) ts
    (pod_TopologySpreadConstraints pod) (pod_Containers pod) (pod_Priority pod) (pod_NodeName pod)
    (pod_Status pod) (pod_DeletionTimestamp pod) (pod_OwnerReferences pod) (pod_ResourceClaims pod)
    (pod_InitContainerClaims pod) (pod_ContainerClaims pod).

Definition with_spreads (pod : Pod) (tscs : list TopologySpreadConstraint) : Pod :=
  mkPod (pod_Namespace pod) (pod_Name pod) (pod_UID pod) (pod_Labels pod) (pod_Annotations pod)
    (pod_CreationTimestamp pod) (pod_NodeSelector pod) (pod_Affinity pod) (pod_Tolerations pod)
    tscs (pod_Containers pod) (pod_Priority pod) (pod_NodeName pod)
    (pod_Status pod) (pod_DeletionTimestamp pod) (pod_OwnerReferences pod) (pod_ResourceClaims pod)
    (pod_InitContainerClaims pod) (pod_ContainerClaims pod).

(** [sort.SliceStable] by descending weight; [sort_by] inserts stably. *)
Definition by_weight_descending (terms : list WeightedPodAffinityTerm) : list WeightedPodAffinityTerm :=
  sort_by (λ x y, (wpat_Weight x >? wpat_Weight y)%Z) terms.

Definition preferred_by_weight_descending (terms : list PreferredSchedulingTerm) :=
  sort_by (λ x y, (Weight x >? Weight y)%Z) terms.

Definition removePreferredNodeAffinityTerm (pod : Pod) : option (relaxation * Pod) :=
  match pod_Affinity pod with
  | None => None
  | Some a =>
      match NodeAffinity a with
      | None => None
      | Some na =>
          match preferred_by_weight_descending (PreferredTerms na) with
          | [] => None
          | t :: rest =>
              Some (RemovedPreferredNodeAffinity t,
                    with_affinity pod (mkAffinity (Some (mkNodeAffinity (RequiredTerms na) rest))
                                         (PodAffinity a) (PodAntiAffinity a)))
          end
      end
  end.

Definition removeRequiredNodeAffinityTerm (pod : Pod) : option (relaxation * Pod) :=
  match pod_Affinity pod with
  | None => None
  | Some a =>
      match NodeAffinity a with
      | None => None
      | Some na =>
          match RequiredTerms na with
          | Some (t :: t' :: rest) =>
              Some (RemovedRequiredNodeAffinity t,
                    with_affinity pod (mkAffinity (Some (mkNodeAffinity (Some (t' :: rest)) (PreferredTerms na)))
                                         (PodAffinity a) (PodAntiAffinity a)))
          | _ => None
          end
      end
  end.

(** The element found is overwritten by the last one and the slice shortened. *)
Fixpoint replace_with_last {A} (i : nat) (l : list A) : list A :=
  match i, l with
  | _, [] => []
  | 0, x :: rest => match last rest with
                    | None => []
                    | Some z => z :: removelast rest
                    end
  | Datatypes.S i, x :: rest => x :: replace_with_last i rest
  end.

Definition removeTopologySpreadScheduleAnyway (pod : Pod) : option (relaxation * Pod) :=
  match list_find (λ tsc, WhenUnsatisfiable tsc = ScheduleAnyway) (pod_TopologySpreadConstraints pod) with
  | None => None
  | Some (i, tsc) =>
      Some (RemovedTopologySpread tsc,
            with_spreads pod (replace_with_last i (pod_TopologySpreadConstraints pod)))
  end.

Definition removePreferredPodAffinityTerm (pod : Pod) : option (relaxation * Pod) :=
  match pod_Affinity pod with
  | None => None
  | Some a =>
      match PodAffinity a with
      | None => None
      | Some pa =>
          match by_weight_descending (pa_Preferred pa) with
          | [] => None
          | t :: rest =>
              Some (RemovedPreferredPodAffinity t,
                    with_affinity pod (mkAffinity (NodeAffinity a) (Some (mkPodAffinity (pa_Required pa) rest))
                                         (PodAntiAffinity a)))
          end
      end
  end.

Definition removePreferredPodAntiAffinityTerm (pod : Pod) : option (relaxation * Pod) :=
  match pod_Affinity pod with
  | None => None
  | Some a =>
      match PodAntiAffinity a with
      | None => None
      | Some pa =>
          match by_weight_descending (pa_Preferred pa) with
          | [] => None
          | t :: rest =>
              Some (RemovedPreferredPodAntiAffinity t,
                    with_affinity pod (mkAffinity (NodeAffinity a) (PodAffinity a)
                                         (Some (mkPodAffinity (pa_Required pa) rest))))
          end
      end
  end.

Definition prefer_no_schedule_toleration : Toleration :=
  mkToleration EmptyString TolExists EmptyString (Some PreferNoSchedule).

Section relax.
Context `{TolerationApi}.

Definition toleratePreferNoScheduleTaints (pod : Pod) : option (relaxation * Pod) :=
  if existsb (λ t, MatchToleration t prefer_no_schedule_toleration) (pod_Tolerations pod) then None
  else Some (AddedToleration prefer_no_schedule_toleration,
             with_tolerations pod (pod_Tolerations pod ++ [prefer_no_schedule_toleration])).

Definition relaxations (p : Preferences) : list (Pod → option (relaxation * Pod)) :=
  [removeRequiredNodeAffinityTerm; removePreferredPodAffinityTerm; removePreferredPodAntiAffinityTerm;
   removePreferredNodeAffinityTerm; removeTopologySpreadScheduleAnyway] ++
  (if ToleratePreferNoSchedule p then [toleratePreferNoScheduleTaints] else []).

(** The first relaxation that applies. *)
Fixpoint first_relaxation (fs : list (Pod → option (relaxation * Pod))) (pod : Pod)
    : option (relaxation * Pod) :=
  match fs with
  | [] => None
  | f :: fs => match f pod with
               | Some r => Some r
               | None => first_relaxation fs pod
               end
  end.

Definition Relax (p : Preferences) (pod : Pod) : option (relaxation * Pod) :=
  first_relaxation (relaxations p) pod.

(** ** The soft constraints of a pod *)

Definition node_affinity (pod : Pod) : option NodeAffinityT := pod_Affinity pod ≫= NodeAffinity.

Definition required_terms (pod : Pod) : list (list CoreNodeSelectorRequirement) :=
  default [] (node_affinity pod ≫= RequiredTerms).

Definition preferred_node_terms (pod : Pod) : list PreferredSchedulingTerm :=
  default [] (PreferredTerms <$> node_affinity pod).

Definition preferred_pod_terms (pod : Pod) : list WeightedPodAffinityTerm :=
  default [] (pa_Preferred <$> (pod_Affinity pod ≫= PodAffinity)).

Definition preferred_anti_terms (pod : Pod) : list WeightedPodAffinityTerm :=
  default [] (pa_Preferred <$> (pod_Affinity pod ≫= PodAntiAffinity)).

Definition required_pod_terms (pod : Pod) : list PodAffinityTerm :=
  default [] (pa_Required <$> (pod_Affinity pod ≫= PodAffinity)).

Definition required_anti_terms (pod : Pod) : list PodAffinityTerm :=
  default [] (pa_Required <$> (pod_Affinity pod ≫= PodAntiAffinity)).

Definition soft_spreads (pod : Pod) : list TopologySpreadConstraint :=
  filter (λ t, WhenUnsatisfiable t = ScheduleAnyway) (pod_TopologySpreadConstraints pod).

Definition hard_spreads (pod : Pod) : list TopologySpreadConstraint :=
  filter (λ t, WhenUnsatisfiable t ≠ ScheduleAnyway) (pod_TopologySpreadConstraints pod).

(** How often a pod can be relaxed. *)
Definition soft_constraints (p : Preferences) (pod : Pod) : nat :=
  (length (required_terms pod) - 1) + length (preferred_pod_terms pod) + length (preferred_anti_terms pod)
  + length (preferred_node_terms pod) + length (soft_spreads pod)
  + (if ToleratePreferNoSchedule p && negb (bool_decide (prefer_no_schedule_toleration ∈ pod_Tolerations pod))
     then 1 else 0).

Lemma replace_with_last_Permutation {A} (l : list A) i x :
  l !! i = Some x → x :: replace_with_last i l ≡ₚ l.
Proof.
  revert i. induction l as [|y l IH]; intros [|i]; simpl; try done.
  - intros [= ->]. destruct (last l) as [z|] eqn:E.
    + apply last_Some in E as [l' ->]. rewrite removelast_last. by rewrite (Permutation_app_comm l' [z]).
    + by apply last_None in E as ->.
  - intros Hi. rewrite Permutation_swap. by rewrite IH.
Qed.

(** What one relaxation may change: everything the pod insists on stays. *)
Record relaxes (pod pod' : Pod) : Prop := {
  relaxes_identity : (pod_key pod', pod_UID pod', pod_Labels pod', pod_Annotations pod') =
                     (pod_key pod, pod_UID pod, pod_Labels pod, pod_Annotations pod);
  relaxes_selector : pod_NodeSelector pod' = pod_NodeSelector pod;
  relaxes_pod_affinity : required_pod_terms pod' = required_pod_terms pod;
  relaxes_anti_affinity : required_anti_terms pod' = required_anti_terms pod;
  relaxes_spread : hard_spreads pod' ≡ₚ hard_spreads pod;
  relaxes_required : required_terms pod' = required_terms pod ∨
    ∃ t, required_terms pod = t :: required_terms pod' ∧ required_terms pod' ≠ [];
  relaxes_tolerations : pod_Tolerations pod' = pod_Tolerations pod ∨
    pod_Tolerations pod' = pod_Tolerations pod ++ [prefer_no_schedule_toleration];
  relaxes_ports : pod_Containers pod' = pod_Containers pod;
}.

(** A relaxation removes exactly one soft constraint and nothing else. *)
Definition sound_relaxation (p : Preferences) (f : Pod → option (relaxation * Pod)) : Prop :=
  ∀ pod r pod', f pod = Some (r, pod') →
    relaxes pod pod' ∧ soft_constraints p pod = S (soft_constraints p pod').

Lemma by_weight_length terms t rest :
  by_weight_descending terms = t :: rest → length terms = S (length rest).
Proof.
  intros E. rewrite <-(length_cons t), <-E. apply Permutation_length. symmetry. apply sort_by_Permutation.
Qed.

Lemma preferred_by_weight_length terms t rest :
  preferred_by_weight_descending terms = t :: rest → length terms = S (length rest).
Proof.
  intros E. rewrite <-(length_cons t), <-E. apply Permutation_length. symmetry. apply sort_by_Permutation.
Qed.

(** Take the pod apart, run the relaxation on it, and compare the parts. *)
Ltac relax_cases :=
  intros pod r pod';
  destruct pod as [ns nm uid lb an ts sel [[[[[[|t0 [|t1 req]]|] pref]|] [[pareq papref]|] [[aareq aapref]|]]|] tol tsc cs pr nn st dt ow rc ic cc];
  simpl; repeat (case_match; try done); try done; intros [= <- <-].

Ltac relaxed :=
  split; [by constructor; unfold required_terms, node_affinity; csimpl; eauto|];
  unfold soft_constraints, required_terms, preferred_node_terms, preferred_pod_terms,
    preferred_anti_terms, soft_spreads, node_affinity; csimpl; lia.

Lemma removePreferredNodeAffinityTerm_sound p : sound_relaxation p removePreferredNodeAffinityTerm.
Proof.
  unfold removePreferredNodeAffinityTerm. relax_cases;
  match goal with E : preferred_by_weight_descending _ = _ |- _ => apply preferred_by_weight_length in E end; relaxed.
Qed.

Lemma removeRequiredNodeAffinityTerm_sound p : sound_relaxation p removeRequiredNodeAffinityTerm.
Proof. unfold removeRequiredNodeAffinityTerm. relax_cases; relaxed. Qed.

Lemma removeRequiredNodeAffinityTerm_shrinks pod r pod' :
  removeRequiredNodeAffinityTerm pod = Some (r, pod') →
  length (required_terms pod) = S (length (required_terms pod')) ∧ required_terms pod' ≠ [].
Proof.
  revert pod r pod'. unfold removeRequiredNodeAffinityTerm, required_terms, node_affinity. relax_cases; by csimpl.
Qed.

Lemma removePreferredPodAffinityTerm_sound p : sound_relaxation p removePreferredPodAffinityTerm.
Proof.
  unfold removePreferredPodAffinityTerm. relax_cases;
  match goal with E : by_weight_descending _ = _ |- _ => apply by_weight_length in E end; relaxed.
Qed.

Lemma removePreferredPodAntiAffinityTerm_sound p : sound_relaxation p removePreferredPodAntiAffinityTerm.
Proof.
  unfold removePreferredPodAntiAffinityTerm. relax_cases;
  match goal with E : by_weight_descending _ = _ |- _ => apply by_weight_length in E end; relaxed.
Qed.

Lemma removeTopologySpreadScheduleAnyway_sound p : sound_relaxation p removeTopologySpreadScheduleAnyway.
Proof.
  intros pod r pod'. unfold removeTopologySpreadScheduleAnyway.
  destruct (list_find _ _) as [[i tsc]|] eqn:E; [|done]. intros [= <- <-].
  apply list_find_Some in E as (Hi & Htsc & _).
  pose proof (replace_with_last_Permutation _ _ _ Hi) as HP. split.
  - constructor; try done; try (by left). unfold hard_spreads; simpl.
    apply (filter_Permutation (λ t, WhenUnsatisfiable t ≠ ScheduleAnyway)) in HP. rewrite <-HP.
    by rewrite filter_cons_False by (by intros ?).
  - assert (length (soft_spreads pod) = S (length (filter (λ t, WhenUnsatisfiable t = ScheduleAnyway)
      (replace_with_last i (pod_TopologySpreadConstraints pod))))) as Hlen.
    { unfold soft_spreads.
      apply (filter_Permutation (λ t, WhenUnsatisfiable t = ScheduleAnyway)), Permutation_length in HP.
      by rewrite <-HP, filter_cons_True. }
    unfold soft_constraints. rewrite Hlen. unfold soft_spreads at 1. simpl.
    unfold required_terms, preferred_pod_terms, preferred_anti_terms, preferred_node_terms, node_affinity; simpl. lia.
Qed.

Lemma existsb_MatchToleration ts t : existsb (λ t', MatchToleration t' t) ts = true ↔ t ∈ ts.
Proof.
  rewrite existsb_exists. setoid_rewrite MatchToleration_spec. setoid_rewrite <-list_elem_of_In. naive_solver.
Qed.

Lemma toleratePreferNoScheduleTaints_sound p :
  ToleratePreferNoSchedule p = true → sound_relaxation p toleratePreferNoScheduleTaints.
Proof.
  intros Hp pod r pod'. unfold toleratePreferNoScheduleTaints. destruct (existsb _ _) eqn:E; [done|].
  intros [= <- <-]. assert (prefer_no_schedule_toleration ∉ pod_Tolerations pod) as Hn.
  { rewrite <-existsb_MatchToleration. congruence. }
  split; [constructor; eauto|]. unfold soft_constraints. rewrite Hp; simpl.
  rewrite bool_decide_eq_false_2 by done. rewrite bool_decide_eq_true_2 by set_solver. simpl.
  unfold required_terms, preferred_pod_terms, preferred_anti_terms, preferred_node_terms, soft_spreads,
    node_affinity; simpl. lia.
Qed.

Lemma relaxations_sound p f : f ∈ relaxations p → sound_relaxation p f.
Proof.
  unfold relaxations. rewrite elem_of_app, !elem_of_cons. intros [Hf|Hf].
  - destruct Hf as [->|[->|[->|[->|[->|[]%not_elem_of_nil]]]]];
    auto using removeRequiredNodeAffinityTerm_sound, removePreferredPodAffinityTerm_sound,
      removePreferredPodAntiAffinityTerm_sound, removePreferredNodeAffinityTerm_sound,
      removeTopologySpreadScheduleAnyway_sound.
  - destruct (ToleratePreferNoSchedule p) eqn:E; [|by apply not_elem_of_nil in Hf].
    apply list_elem_of_singleton in Hf as ->. by apply toleratePreferNoScheduleTaints_sound.
Qed.

Lemma first_relaxation_Some fs pod x :
  first_relaxation fs pod = Some x → ∃ f, f ∈ fs ∧ f pod = Some x.
Proof.
  induction fs as [|f fs IH]; simpl; [done|]. destruct (f pod) eqn:E.
  - intros [= ->]. exists f. split; [by left|done].
  - intros (g & Hg & E')%IH. exists g. split; [by right|done].
Qed.

Lemma first_relaxation_None fs pod : first_relaxation fs pod = None ↔ ∀ f, f ∈ fs → f pod = None.
Proof.
  induction fs as [|f fs IH]; simpl; [split; [by intros _ f ?%not_elem_of_nil|done]|].
  destruct (f pod) eqn:E; [split; [done|]|rewrite IH].
  - intros Hf. by rewrite (Hf f) in E by (by left).
  - split; [|intros Hf g ?; apply Hf; by right]. intros Hf g [->|Hg]%elem_of_cons; auto.
Qed.

Lemma Relax_decreases p pod r pod' :
  Relax p pod = Some (r, pod') → soft_constraints p pod = S (soft_constraints p pod').
Proof. intros (f & Hf & E)%first_relaxation_Some. by apply (relaxations_sound p f Hf pod r pod'). Qed.

Lemma Relax_UID p pod r pod' : Relax p pod = Some (r, pod') → pod_UID pod' = pod_UID pod.
Proof.
  intros (f & Hf & E)%first_relaxation_Some. apply (relaxations_sound p f Hf) in E as [Hrel _].
  pose proof (relaxes_identity _ _ Hrel). congruence.
Qed.

(** Every relaxation step removes exactly one soft constraint and keeps all the
    pod insists on: its identity and node selector, its required pod affinity and
    anti-affinity, its DoNotSchedule spread constraints, and the alternatives of
    its required node affinity save the first, of which at least one is left. *)
Theorem Relax_sound p pod r pod' :
  Relax p pod = Some (r, pod') →
  relaxes pod pod' ∧ soft_constraints p pod = S (soft_constraints p pod').
Proof.
  intros (f & Hf & E)%first_relaxation_Some. by apply (relaxations_sound p f Hf pod r pod').
Qed.

Ltac relax_none :=
  intros pod;
  destruct pod as [ns nm uid lb an ts sel [[[[[[|t0 [|t1 req]]|] pref]|] [[pareq papref]|] [[aareq aapref]|]]|] tol tsc cs pr nn st dt ow rc ic cc];
  simpl; repeat case_match; try done.

Lemma removeRequiredNodeAffinityTerm_None pod :
  removeRequiredNodeAffinityTerm pod = None → length (required_terms pod) ≤ 1.
Proof.
  revert pod. unfold removeRequiredNodeAffinityTerm, required_terms, node_affinity. relax_none; csimpl; lia.
Qed.

Lemma by_weight_nil terms : by_weight_descending terms = [] → terms = [].
Proof. intros E. apply Permutation_nil. rewrite <-E. apply sort_by_Permutation. Qed.

Lemma preferred_by_weight_nil terms : preferred_by_weight_descending terms = [] → terms = [].
Proof. intros E. apply Permutation_nil. rewrite <-E. apply sort_by_Permutation. Qed.

Lemma removePreferredPodAffinityTerm_None pod :
  removePreferredPodAffinityTerm pod = None → preferred_pod_terms pod = [].
Proof.
  revert pod. unfold removePreferredPodAffinityTerm, preferred_pod_terms.
  relax_none; csimpl; auto using by_weight_nil.
Qed.

Lemma removePreferredPodAntiAffinityTerm_None pod :
  removePreferredPodAntiAffinityTerm pod = None → preferred_anti_terms pod = [].
Proof.
  revert pod. unfold removePreferredPodAntiAffinityTerm, preferred_anti_terms.
  relax_none; csimpl; auto using by_weight_nil.
Qed.

Lemma removePreferredNodeAffinityTerm_None pod :
  removePreferredNodeAffinityTerm pod = None → preferred_node_terms pod = [].
Proof.
  revert pod. unfold removePreferredNodeAffinityTerm, preferred_node_terms, node_affinity.
  relax_none; csimpl; auto using preferred_by_weight_nil.
Qed.

Lemma removeTopologySpreadScheduleAnyway_None pod :
  removeTopologySpreadScheduleAnyway pod = None → soft_spreads pod = [].
Proof.
  unfold removeTopologySpreadScheduleAnyway. destruct (list_find _ _) as [[i tsc]|] eqn:E; [done|].
  intros _. apply list_find_None in E. apply list_filter_none. by apply Forall_forall.
Qed.

Lemma Relax_none_iff p pod : Relax p pod = None ↔ soft_constraints p pod = 0.
Proof.
  split; intros HR.
  - unfold Relax in HR. rewrite first_relaxation_None in HR. unfold relaxations in HR. simpl in HR.
    pose proof (removeRequiredNodeAffinityTerm_None pod ltac:(apply HR; set_solver)).
    pose proof (removePreferredPodAffinityTerm_None pod ltac:(apply HR; set_solver)) as E1.
    pose proof (removePreferredPodAntiAffinityTerm_None pod ltac:(apply HR; set_solver)) as E2.
    pose proof (removePreferredNodeAffinityTerm_None pod ltac:(apply HR; set_solver)) as E3.
    pose proof (removeTopologySpreadScheduleAnyway_None pod ltac:(apply HR; set_solver)) as E4.
    unfold soft_constraints. rewrite E1, E2, E3, E4; simpl.
    destruct (ToleratePreferNoSchedule p) eqn:E; simpl; [|lia].
    assert (toleratePreferNoScheduleTaints pod = None) as Ht by (apply HR; set_solver).
    unfold toleratePreferNoScheduleTaints in Ht. destruct (existsb _ _) eqn:Ex; [|done].
    apply existsb_MatchToleration in Ex. rewrite bool_decide_eq_true_2 by done. simpl. lia.
  - destruct (Relax p pod) as [[r pod']|] eqn:E; [|done].
    apply first_relaxation_Some in E as (f & Hf & E). apply (relaxations_sound p f Hf) in E as [_ E]. lia.
Qed.

(** Relaxation is exhaustive: it gives up exactly when the pod has at most one
    alternative of required node affinity, no preferred term, no ScheduleAnyway
    spread constraint, and tolerates PreferNoSchedule taints where that is asked for. *)
Theorem Relax_exhaustive p pod :
  Relax p pod = None ↔
  length (required_terms pod) ≤ 1 ∧ preferred_pod_terms pod = [] ∧ preferred_anti_terms pod = [] ∧
  preferred_node_terms pod = [] ∧ soft_spreads pod = [] ∧
  (ToleratePreferNoSchedule p = true → prefer_no_schedule_toleration ∈ pod_Tolerations pod).
Proof.
  rewrite Relax_none_iff. unfold soft_constraints. rewrite <-!length_zero_iff_nil.
  destruct (ToleratePreferNoSchedule p); simpl; [|naive_solver lia].
  case_bool_decide; simpl; split; intros; split_and?; naive_solver lia.
Qed.

(** A relaxed pod is as valid as the pod it comes from. *)
Definition keeps_valid (f : Pod → option (relaxation * Pod)) : Prop :=
  ∀ pod r pod', f pod = Some (r, pod') → pod_valid pod = true → pod_valid pod' = true.

Lemma replace_with_last_forallb {A} (test : A → bool) (l : list A) i x :
  l !! i = Some x → forallb test l = true → forallb test (replace_with_last i l) = true.
Proof.
  intros Hi. rewrite !forallb_forall. setoid_rewrite <-list_elem_of_In.
  pose proof (replace_with_last_Permutation _ _ _ Hi) as HP. intros Ht y Hy. apply Ht. rewrite <-HP. by right.
Qed.

Lemma tail_forallb {A} (less : A → A → bool) (test : A → bool) l x rest :
  sort_by less l = x :: rest → forallb test l = true → forallb test rest = true.
Proof.
  intros Es. rewrite !forallb_forall. setoid_rewrite <-list_elem_of_In. intros Ht y Hy. apply Ht.
  rewrite <-(sort_by_Permutation less), Es. by right.
Qed.

Lemma relaxations_keep_valid p f : f ∈ relaxations p → keeps_valid f.
Proof.
  unfold relaxations. rewrite elem_of_app, !elem_of_cons. intros [Hf|Hf].
  - destruct Hf as [->|[->|[->|[->|[->|[]%not_elem_of_nil]]]]].
    + unfold keeps_valid, removeRequiredNodeAffinityTerm. relax_cases; unfold pod_valid, node_affinity_valid; csimpl;
      rewrite !andb_true_iff; tauto.
    + unfold keeps_valid, removePreferredPodAffinityTerm. by relax_cases.
    + unfold keeps_valid, removePreferredPodAntiAffinityTerm. by relax_cases.
    + unfold keeps_valid, removePreferredNodeAffinityTerm. relax_cases; unfold pod_valid, node_affinity_valid; csimpl;
      match goal with E : preferred_by_weight_descending _ = _ |- _ =>
        pose proof (tail_forallb _ (λ t, forallb operand_given (Preference t)) _ _ _ E) end;
      rewrite !andb_true_iff; tauto.
    + intros pod r pod'. unfold removeTopologySpreadScheduleAnyway, pod_valid.
      destruct (list_find _ _) as [[i tsc]|] eqn:E; [|done]. intros [= <- <-]. simpl.
      apply list_find_Some in E as (Hi & _ & _). rewrite !andb_true_iff. intros [? Hs]. split; [done|].
      by eapply replace_with_last_forallb.
  - destruct (ToleratePreferNoSchedule p); [|by apply not_elem_of_nil in Hf].
    apply list_elem_of_singleton in Hf as ->. intros pod r pod'. unfold toleratePreferNoScheduleTaints.
    destruct (existsb _ _); [done|]. by intros [= <- <-].
Qed.

Lemma Relax_valid p pod r pod' :
  Relax p pod = Some (r, pod') → pod_valid pod = true → pod_valid pod' = true.
Proof. intros (f & Hf & E)%first_relaxation_Some. by apply (relaxations_keep_valid p f Hf pod r pod'). Qed.

End relax.
