(* ===== verification/DefaultConstraints.v ===== *)
(** * DefaultConstraints: cluster-wide default spread constraints
    (pkg/controllers/provisioning/scheduling/defaultconstraints.go)

    A pod without spread constraints of its own gets the configured defaults, with a
    selector deduced from the Services that select it and from its controller. One pass
    over the pods caches its reads and its results. *)

From S2P Require Import Prelude Labels Objects Requirements Volumes InstanceTypes Preferences.

(** What the pass reads: the selectors of the Services of a namespace ([None] is an error
    of the list), the selectors of the three kinds of controllers, and three functions of
    the API machinery. *)
Record DefaultsApi := mkDefaultsApi {
  list_services : string → option (list (option (gmap string string)));
  get_replication_controller : NamespacedName → result api_error (gmap string string);
  get_replica_set : NamespacedName → result api_error (option LabelSelector);
  get_stateful_set : NamespacedName → result api_error (option LabelSelector);
  ParseGroupVersion : string → option (string * string);
  (** [labels.SelectorFromValidatedSet(s).Matches] *)
  set_matches : gmap string string → gmap string string → bool;
  (** [labels.Set.String] *)
  Set_String : gmap string string → string;
}.

Record ownerContribution := mkOwnerContribution {
  oc_matchLabels : gmap string string;
  oc_matchExpressions : list LabelSelectorRequirement;
}.

Abbreviation selectorCacheKey := (string * string * string)%type.

Record DefaultTopologySpreadInjector := mkInjector {
  servicesByNamespace : gmap string (list (option (gmap string string)));
  ownerContributionByUID : gmap string (option ownerContribution);
  selectorByPodShape : gmap selectorCacheKey (option LabelSelector);
}.

Definition NewDefaultTopologySpreadInjector : DefaultTopologySpreadInjector := mkInjector ∅ ∅ ∅.

(** [metav1.GetControllerOfNoCopy]. *)
Definition controller_of (p : Pod) : option OwnerReference := head (filter (λ r, or_Controller r = true) (pod_OwnerReferences p)).

Definition requirementsFrom (selector : option LabelSelector) : list LabelSelectorRequirement :=
  match selector with
  | None => []
  | Some selector => ((λ '(k, v), mkLSR k SelIn [v]) <$> map_to_list (MatchLabels selector)) ++ MatchExpressions selector
  end.

Section injector.
  Context (api : DefaultsApi).

Definition resolveOwnerContribution (namespace : string) (owner : OwnerReference) : result api_error (option ownerContribution) :=
  match ParseGroupVersion api (or_APIVersion owner) with
  | None => Ok None
  | Some (group, version) =>
      let key := (namespace, or_Name owner) in
      let gvk := (group, version, or_Kind owner) in
      let from_set get := match get key with
                          | Err e => Err e
                          | Ok selector => Ok (Some (mkOwnerContribution ∅ (requirementsFrom selector)))
                          end in
      if bool_decide (gvk = (EmptyString, "v1"%string, "ReplicationController"%string)) then
        match get_replication_controller api key with
        | Err e => Err e
        | Ok selector => Ok (if bool_decide (selector = ∅) then None else Some (mkOwnerContribution selector []))
        end
      else if bool_decide (gvk = ("apps"%string, "v1"%string, "ReplicaSet"%string)) then from_set (get_replica_set api)
      else if bool_decide (gvk = ("apps"%string, "v1"%string, "StatefulSet"%string)) then from_set (get_stateful_set api)
      else Ok None
  end.

Definition services (d : DefaultTopologySpreadInjector) (namespace : string)
    : DefaultTopologySpreadInjector * list (option (gmap string string)) :=
  match servicesByNamespace d !! namespace with
  | Some cached => (d, cached)
  | None =>
      let items := default [] (list_services api namespace) in
      (mkInjector (<[namespace := items]> (servicesByNamespace d)) (ownerContributionByUID d) (selectorByPodShape d), items)
  end.

Definition merge_services (labels : gmap string string) (svcs : list (option (gmap string string))) : gmap string string :=
  foldl (λ matchLabels svc,
    match svc with
    | None => matchLabels
    | Some selector => if set_matches api selector labels then lo_Assign matchLabels selector else matchLabels
    end) ∅ svcs.

Definition serviceMatchLabels (d : DefaultTopologySpreadInjector) (p : Pod) : DefaultTopologySpreadInjector * gmap string string :=
  let '(d, svcs) := services d (pod_Namespace p) in
  (d, merge_services (pod_Labels p) svcs).

Definition ownerContributionFor (d : DefaultTopologySpreadInjector) (p : Pod)
    : DefaultTopologySpreadInjector * option ownerContribution :=
  match controller_of p with
  | None => (d, None)
  | Some owner =>
      match ownerContributionByUID d !! or_UID owner with
      | Some cached => (d, cached)
      | None =>
          let resolved := match resolveOwnerContribution (pod_Namespace p) owner with Ok r => r | Err _ => None end in
          (mkInjector (servicesByNamespace d) (<[or_UID owner := resolved]> (ownerContributionByUID d)) (selectorByPodShape d),
           resolved)
      end
  end.

(** The selector of the labels of Services and the contribution of a controller. *)
Definition combine_selector (matchLabels : gmap string string) (owner : option ownerContribution) : option LabelSelector :=
  let '(matchLabels, matchExpressions) :=
    match owner with
    | None => (matchLabels, [])
    | Some owner => (lo_Assign matchLabels (oc_matchLabels owner), oc_matchExpressions owner)
    end in
  if bool_decide (matchLabels = ∅) && (length matchExpressions =? 0)%nat then None
  else Some (mkLabelSelector matchLabels matchExpressions).

Definition defaultSelector (d : DefaultTopologySpreadInjector) (p : Pod) : DefaultTopologySpreadInjector * option LabelSelector :=
  let '(d, matchLabels) := serviceMatchLabels d p in
  let '(d, owner) := ownerContributionFor d p in
  (d, combine_selector matchLabels owner).

Definition shape_key (p : Pod) : selectorCacheKey :=
  (pod_Namespace p, match controller_of p with Some owner => or_UID owner | None => EmptyString end, Set_String api (pod_Labels p)).

Definition getDefaultSelector (d : DefaultTopologySpreadInjector) (p : Pod) : DefaultTopologySpreadInjector * option LabelSelector :=
  match selectorByPodShape d !! shape_key p with
  | Some cached => (d, cached)
  | None =>
      let '(d, selector) := defaultSelector d p in
      (mkInjector (servicesByNamespace d) (ownerContributionByUID d) (<[shape_key p := selector]> (selectorByPodShape d)), selector)
  end.

Definition stamp (selector : LabelSelector) (tsc : TopologySpreadConstraint) : TopologySpreadConstraint :=
  mkTSC (MaxSkew tsc) (TopologyKey tsc) (WhenUnsatisfiable tsc) (Some selector) (MinDomains tsc) (NodeAffinityPolicy tsc)
    (NodeTaintsPolicy tsc) (MatchLabelKeys tsc).

Definition inject_selector (DefaultConstraints : list TopologySpreadConstraint) (p : Pod) (selector : option LabelSelector) : Pod :=
  match selector with
  | None => p
  | Some selector => with_spreads p (stamp selector <$> DefaultConstraints)
  end.

Definition inject_pod (DefaultConstraints : list TopologySpreadConstraint) (d : DefaultTopologySpreadInjector) (p : Pod)
    : DefaultTopologySpreadInjector * Pod :=
  if negb (length (pod_TopologySpreadConstraints p) =? 0)%nat then (d, p)
  else
    let '(d, selector) := getDefaultSelector d p in
    (d, inject_selector DefaultConstraints p selector).

Fixpoint inject_loop (DefaultConstraints : list TopologySpreadConstraint) (d : DefaultTopologySpreadInjector) (pods : list Pod)
    : list Pod :=
  match pods with
  | [] => []
  | p :: rest =>
      let '(d, p) := inject_pod DefaultConstraints d p in
      p :: inject_loop DefaultConstraints d rest
  end.

(** Without a configuration there are no constraints. *)
Definition Inject (DefaultConstraints : list TopologySpreadConstraint) (pods : list Pod) : list Pod :=
  if (length DefaultConstraints =? 0)%nat then pods
  else inject_loop DefaultConstraints NewDefaultTopologySpreadInjector pods.
End injector.

(** ** The caches change nothing *)

Section injector_properties.
  Context (api : DefaultsApi).

(** The pass without caches: every pod is looked at by itself. *)
Definition owner_of (p : Pod) : option ownerContribution :=
  owner ← controller_of p;
  match resolveOwnerContribution api (pod_Namespace p) owner with Ok r => r | Err _ => None end.

Definition selector_of (p : Pod) : option LabelSelector :=
  combine_selector (merge_services api (pod_Labels p) (default [] (list_services api (pod_Namespace p)))) (owner_of p).

Definition defaulted (DefaultConstraints : list TopologySpreadConstraint) (p : Pod) : Pod :=
  match pod_TopologySpreadConstraints p with
  | [] => inject_selector DefaultConstraints p (selector_of p)
  | _ => p
  end.

(** The pods of a cluster: a UID names one object, labels are printed apart, and no UID is empty. *)
Record pods_coherent (pods : list Pod) : Prop := {
  pods_owner p q r s : p ∈ pods → q ∈ pods → controller_of p = Some r → controller_of q = Some s → or_UID r = or_UID s →
    r = s ∧ pod_Namespace p = pod_Namespace q;
  pods_uid p r : p ∈ pods → controller_of p = Some r → or_UID r ≠ EmptyString;
  pods_labels p q : p ∈ pods → q ∈ pods → Set_String api (pod_Labels p) = Set_String api (pod_Labels q) → pod_Labels p = pod_Labels q;
}.

Record caches_ok (pods : list Pod) (d : DefaultTopologySpreadInjector) : Prop := {
  caches_services ns svcs : servicesByNamespace d !! ns = Some svcs → svcs = default [] (list_services api ns);
  caches_owner uid c p r : ownerContributionByUID d !! uid = Some c → p ∈ pods → controller_of p = Some r → or_UID r = uid →
    c = owner_of p;
  caches_selector key s p : selectorByPodShape d !! key = Some s → p ∈ pods → shape_key api p = key → s = selector_of p;
}.

Lemma owner_of_shape pods p q : pods_coherent pods → p ∈ pods → q ∈ pods →
  shape_key api p = shape_key api q → selector_of p = selector_of q.
Proof.
  intros C Hp Hq [= Hns Huid Hl]. apply (pods_labels pods C) in Hl; [|done..]. unfold selector_of, owner_of. rewrite Hns, Hl.
  do 2 f_equal. destruct (controller_of p) as [r|] eqn:Er, (controller_of q) as [s|] eqn:Es; [|exfalso..|done].
  - by destruct (pods_owner pods C p q r s) as [-> _].
  - by eapply (pods_uid pods C p).
  - by eapply (pods_uid pods C q).
Qed.

Lemma services_ok pods d ns d' svcs : caches_ok pods d → services api d ns = (d', svcs) →
  caches_ok pods d' ∧ svcs = default [] (list_services api ns).
Proof.
  intros [Hs Ho Hc]. unfold services. destruct (servicesByNamespace d !! ns) as [l|] eqn:El.
  - intros [= <- <-]. split; [by constructor|by apply Hs].
  - intros [= <- <-]. split; [|done]. constructor; cbn; [|done..].
    intros ns' l [[<- <-]|[? ?]]%lookup_insert_Some; eauto.
Qed.

Lemma ownerContributionFor_ok pods d p d' c : pods_coherent pods → caches_ok pods d → p ∈ pods →
  ownerContributionFor api d p = (d', c) → caches_ok pods d' ∧ c = owner_of p.
Proof.
  intros C [Hs Ho Hc] Hp. unfold ownerContributionFor. destruct (controller_of p) as [r|] eqn:Er.
  2: { intros [= <- <-]. split; [by constructor|]. unfold owner_of. by rewrite Er. }
  destruct (ownerContributionByUID d !! or_UID r) as [c'|] eqn:El.
  { intros [= <- <-]. split; [by constructor|]. by eapply Ho. }
  intros [= <- <-]. assert (owner_of p = match resolveOwnerContribution api (pod_Namespace p) r with Ok r => r | Err _ => None end) as Hp'.
  { unfold owner_of. by rewrite Er. }
  split; [|done]. constructor; cbn; [done| |done].
  intros uid c q t Hl Hq Et Huid. apply lookup_insert_Some in Hl as [[Hu <-]|[? ?]]; [|by eapply Ho].
  rewrite <-Hp'. destruct (pods_owner pods C p q r t) as [-> Hns]; [done..|congruence|].
  unfold owner_of. by rewrite Er, Et, Hns.
Qed.

Lemma getDefaultSelector_ok pods d p d' s : pods_coherent pods → caches_ok pods d → p ∈ pods →
  getDefaultSelector api d p = (d', s) → caches_ok pods d' ∧ s = selector_of p.
Proof.
  intros C Hd Hp. unfold getDefaultSelector. destruct (selectorByPodShape d !! _) as [cached|] eqn:E.
  { intros [= <- <-]. split; [done|by eapply (caches_selector pods d)]. }
  unfold defaultSelector, serviceMatchLabels.
  destruct (services api d (pod_Namespace p)) as [d1 svcs] eqn:E1. apply (services_ok pods) in E1 as [Hd1 ->]; [|done].
  destruct (ownerContributionFor api d1 p) as [d2 c] eqn:E2. apply (ownerContributionFor_ok pods) in E2 as [[Hs Ho Hc] ->]; [|done..].
  intros [= <- <-]. fold (selector_of p). split; [|done]. constructor; cbn; [done..|].
  intros key t q [[Hk <-]|[? ?]]%lookup_insert_Some Hq Hkq; [|by eapply Hc]. apply (owner_of_shape pods); congruence.
Qed.

(** Injecting the default constraints with the caches of one pass gives each pod what it
    would get by itself, when owner UIDs name one object each and different label sets are
    printed differently: pods with constraints of their own stay as they are, the others
    get the defaults stamped with the selector of their Services and controller. *)
Theorem Inject_reference DefaultConstraints pods : DefaultConstraints ≠ [] → pods_coherent pods →
  Inject api DefaultConstraints pods = defaulted DefaultConstraints <$> pods.
Proof.
  intros Hne C. unfold Inject. destruct (Nat.eqb_spec (length DefaultConstraints) 0) as [?%nil_length_inv|_]; [done|].
  assert (caches_ok pods NewDefaultTopologySpreadInjector) as Hc by (split; cbn; intros *; rewrite ?lookup_empty; done).
  assert (∀ l d, caches_ok pods d → (∀ p, p ∈ l → p ∈ pods) →
    inject_loop api DefaultConstraints d l = defaulted DefaultConstraints <$> l) as H; [|by apply H].
  clear Hc. induction l as [|p l IH]; intros d Hd Hl; [done|]. cbn [inject_loop]. rewrite fmap_cons.
  unfold inject_pod, defaulted at 1. destruct (pod_TopologySpreadConstraints p); cbn [length negb Nat.eqb].
  - destruct (getDefaultSelector api d p) as [d' s] eqn:E. apply (getDefaultSelector_ok pods) in E as [Hd' ->]; [|done|done|apply Hl; by left].
    f_equal. apply IH; [done|]. intros q Hq. apply Hl. by right.
  - f_equal. apply IH; [done|]. intros q Hq. apply Hl. by right.
Qed.

(** A stamped selector is never empty: an empty one would count every pod of the namespace. *)
Lemma selector_of_nonempty p s : selector_of p = Some s → MatchLabels s ≠ ∅ ∨ MatchExpressions s ≠ [].
Proof.
  unfold selector_of, combine_selector. destruct (match owner_of p with None => _ | Some _ => _ end) as [ml me].
  destruct (bool_decide_reflect (ml = ∅)), me; simpl; intros [= <-]; eauto.
Qed.
End injector_properties.
