(* ===== verification/Parallel.v ===== *)
(** * Parallel: evaluating candidates concurrently
    ([parallelizeUntil] and its callers in
    pkg/controllers/provisioning/scheduling/scheduler.go)

    Workers take candidate indices from a closed channel in order; a worker that
    finds a decisive candidate records it, unless an earlier one is recorded
    already, and stops; the others go on until the channel is empty.  The model
    is a step relation over all interleavings of the workers. *)

From S2P Require Import Prelude.

(** What the callback found for a candidate: one to skip, or one that decides the
    search (the pod fits, or a reserved-offering error forbids later candidates). *)
Section parallel.
  Context (pieces : nat) (decisive : nat → bool).

Record pool := mkPool {
  toProcess : list nat;
  inFlight : list nat;
  idle : nat;
  best : option nat;
}.

(** [if pieces < workers { workers = pieces }] *)
Definition parallelizeUntil_start (workers : nat) : pool :=
  mkPool (seq 0 pieces) [] (Nat.min workers pieces) None.

(** The critical section: [if i >= idx { return false }; ...; idx = i]. *)
Definition record_best (b : option nat) (i : nat) : option nat :=
  match b with
  | Some idx => if (idx <=? i)%nat then Some idx else Some i
  | None => Some i
  end.

Inductive pool_step : pool → pool → Prop :=
| step_fetch i rest fl k b :
    pool_step (mkPool (i :: rest) fl (S k) b) (mkPool rest (i :: fl) k b)
| step_continue q fl1 i fl2 k b :
    decisive i = false →
    pool_step (mkPool q (fl1 ++ i :: fl2) k b) (mkPool q (fl1 ++ fl2) (S k) b)
| step_stop q fl1 i fl2 k b :
    decisive i = true →
    pool_step (mkPool q (fl1 ++ i :: fl2) k b) (mkPool q (fl1 ++ fl2) k (record_best b i))
| step_exit fl k b :
    pool_step (mkPool [] fl (S k) b) (mkPool [] fl k b).

(** [wg.Wait()] returns: no worker is running. *)
Definition pool_done (p : pool) : Prop := inFlight p = [] ∧ idle p = 0.

(** ** Termination: every interleaving is finite *)

Definition pool_measure (p : pool) : nat := 3 * length (toProcess p) + 2 * length (inFlight p) + idle p.

Lemma pool_step_decreases p p' : pool_step p p' → pool_measure p' < pool_measure p.
Proof.
  intros [i rest fl k b|q fl1 i fl2 k b _|q fl1 i fl2 k b _|fl k b]; unfold pool_measure; simpl;
  rewrite ?length_app; simpl; rewrite ?length_app; lia.
Qed.

(** ** The outcome does not depend on the interleaving *)

(** Candidates below [k] were taken; those not in flight are accounted for in [best]. *)
Record pool_inv (workers : nat) (p : pool) (k : nat) (stopped : bool) : Prop := {
  inv_queue : toProcess p = seq k (pieces - k) ∧ k ≤ pieces;
  inv_flight : ∀ i, i ∈ inFlight p → i < k;
  inv_best : match best p with
             | Some b => stopped = true ∧ b < k ∧ decisive b = true
             | None => stopped = false
             end;
  inv_seen : ∀ i, i < k → i ∉ inFlight p → decisive i = true → ∃ b, best p = Some b ∧ b ≤ i;
  inv_workers : 0 < workers → stopped = true ∨ toProcess p = [] ∨ 0 < idle p + length (inFlight p);
}.

Lemma start_inv workers : pool_inv (Nat.min workers pieces) (parallelizeUntil_start workers) 0 false.
Proof.
  split; simpl.
  - split; [by rewrite Nat.sub_0_r|lia].
  - by intros i ?%not_elem_of_nil.
  - done.
  - lia.
  - intros. lia.
Qed.

Lemma record_best_spec b i :
  ∃ b', record_best b i = Some b' ∧ b' ≤ i ∧ (b' = i ∨ b = Some b') ∧ ∀ x, b = Some x → b' ≤ x.
Proof.
  unfold record_best. destruct b as [x|].
  - destruct (Nat.leb_spec x i); [exists x|exists i]; split_and!; try done; try lia; auto; intros y [= <-]; lia.
  - exists i. split_and!; auto; done.
Qed.

Lemma step_inv workers p p' k stopped :
  pool_step p p' → pool_inv workers p k stopped → ∃ k' stopped', pool_inv workers p' k' stopped'.
Proof.
  intros [i rest fl n b|q fl1 i fl2 n b Hd|q fl1 i fl2 n b Hd|fl n b] [Hq Hf Hb Hs Hw]; simpl in *.
  - destruct Hq as [Hq Hk]. assert (k < pieces) as Hlt.
    { destruct (decide (k < pieces)); [done|]. replace (pieces - k) with 0 in Hq by lia. done. }
    replace (pieces - k) with (S (pieces - S k)) in Hq by lia. simpl in Hq. injection Hq as -> ->.
    exists (S k), stopped. split; simpl.
    + split; [done|lia].
    + intros j [->|Hj]%elem_of_cons; [lia|]. specialize (Hf j Hj). lia.
    + destruct b; [naive_solver lia|done].
    + intros j Hj Hnf Hdj. apply Hs; [|set_solver|done]. assert (j ≠ k) by set_solver. lia.
    + intros. right; right. lia.
  - exists k, stopped. split; simpl; [done| |done| |].
    + intros j Hj. apply Hf. set_solver.
    + intros j Hj Hnf Hdj. apply Hs; [done| |done]. rewrite elem_of_app, elem_of_cons.
      intros [?|[->|?]]; [set_solver|congruence|set_solver].
    + intros Hp. destruct (Hw Hp) as [?|[?|?]]; [auto|auto|right; right; lia].
  - destruct (record_best_spec b i) as (b' & -> & Hle & Hor & Hmin). exists k, true. split; simpl; [done| | | |auto].
    + intros j Hj. apply Hf. set_solver.
    + split_and!; [done| |]; (destruct Hor as [->|Heq]; [|by destruct b; [destruct Hb as (_ & ? & ?); simplify_eq|]]); [apply Hf; set_solver|done].
    + intros j Hj Hnf Hdj. exists b'. split; [done|]. destruct (decide (j = i)) as [->|Hne]; [done|].
      destruct (Hs j Hj) as (x & Hx & Hxj); [set_solver|done|]. specialize (Hmin x Hx). lia.
  - exists k, stopped. split; simpl; auto.
Qed.

Lemma find_first (f : nat → bool) n b :
  b < n → f b = true → (∀ j, j < b → f j = false) → List.find f (seq 0 n) = Some b.
Proof.
  intros Hb Hf Hmin. assert (∀ m k, k ≤ b → b < k + m → List.find f (seq k m) = Some b) as Hg.
  { induction m as [|m IH]; intros k Hk Hbk; simpl; [lia|]. destruct (decide (k = b)) as [->|Hne]; [by rewrite Hf|].
    rewrite Hmin by lia. apply IH; lia. }
  apply Hg; lia.
Qed.

(** C34: [parallelizeUntil] is deterministic: however the workers interleave, when the
    last one has finished the recorded candidate is the first decisive one, as in a
    sequential scan, and nothing is recorded exactly when there is none. *)
Theorem parallelizeUntil_first workers p :
  0 < workers → rtc pool_step (parallelizeUntil_start workers) p → pool_done p →
  best p = List.find decisive (seq 0 pieces).
Proof.
  intros Hw Hr [Hf Hi].
  assert (∃ k stopped, pool_inv (Nat.min workers pieces) p k stopped) as (k & stopped & Hinv).
  { pose proof (start_inv workers) as H0. revert H0. generalize 0 false.
    induction Hr as [|p1 p2 p3 Hs _ IH]; intros k s H0; [eauto|].
    destruct (step_inv _ _ _ _ _ Hs H0) as (k' & s' & H1). eauto. }
  destruct Hinv as [[Hq Hk] _ Hb Hs Hpos]. rewrite Hf, Hi in *.
  assert (∀ i, i < k → decisive i = true → ∃ b, best p = Some b ∧ b ≤ i) as Hseen.
  { intros i Hlt. apply Hs; [done|by apply not_elem_of_nil]. }
  assert (best p = None → k = pieces) as Hall.
  { intros He. rewrite He in Hb. subst stopped. destruct (decide (pieces = 0)); [lia|].
    destruct Hpos as [?|[Hnil|?]]; [lia|done| |simpl in *; lia]. rewrite Hnil in Hq.
    destruct (pieces - k) eqn:Ep; [lia|done]. }
  destruct (best p) as [b|].
  - destruct Hb as (_ & Hbk & Hdb). symmetry. apply find_first; [lia|done|].
    intros j Hj. destruct (decisive j) eqn:Ej; [|done]. destruct (Hseen j) as (b' & [= <-] & ?); [lia|done|lia].
  - specialize (Hall eq_refl). subst k. symmetry. apply find_none. intros j Hj.
    destruct (decisive j) eqn:Ej; [|done]. apply elem_of_seq in Hj.
    by destruct (Hseen j) as (b' & ? & _); [lia|done|].
Qed.
End parallel.
