(* ===== verification/SchedQueue.v ===== *)
(** * SchedQueue: the pod queue and the scheduling loop
    (pkg/controllers/provisioning/scheduling/queue.go, and the loops of [Solve] and
    [trySchedule] in scheduler.go)

    The queue stops the loop when it has cycled through every remaining pod
    without scheduling one.  The loop is stated over an arbitrary scheduler
    state and attempt function, so that its termination does not depend on what
    an attempt does. *)

From S2P Require Import Prelude Objects Resources Preferences.

Record Queue := mkQueue {
  q_pods : list Pod;
  lastLen : gmap string nat;
}.

Section order.
  (** The [Requests] of the cached pod data, by pod UID. *)
  Context (podData : gmap string ResourceList).

Definition byCPUAndMemoryDescending (lhsPod rhsPod : Pod) : bool :=
  let lhs := default ∅ (podData !! pod_UID lhsPod) in
  let rhs := default ∅ (podData !! pod_UID rhsPod) in
  let cpuCmp := Cmp (qty lhs ResourceCPU) (qty rhs ResourceCPU) in
  if (cpuCmp <? 0)%Z then false
  else if (cpuCmp >? 0)%Z then true
  else
    let memCmp := Cmp (qty lhs ResourceMemory) (qty rhs ResourceMemory) in
    if (memCmp <? 0)%Z then false
    else if (memCmp >? 0)%Z then true
    else if negb (pod_CreationTimestamp lhsPod =? pod_CreationTimestamp rhsPod)%Z
    then (pod_CreationTimestamp lhsPod <? pod_CreationTimestamp rhsPod)%Z
    else String.ltb (pod_UID lhsPod) (pod_UID rhsPod).

Definition NewQueue (pods : list Pod) : Queue := mkQueue (sort_by byCPUAndMemoryDescending pods) ∅.
End order.

Definition last_len (q : Queue) (p : Pod) : nat := default 0 (lastLen q !! pod_UID p).

Definition Pop (q : Queue) : option (Pod * Queue) :=
  match q_pods q with
  | [] => None
  | p :: rest =>
      if (last_len q p =? length (q_pods q))%nat then None
      else Some (p, mkQueue rest (lastLen q))
  end.

Definition Push (q : Queue) (pod : Pod) : Queue :=
  let pods := q_pods q ++ [pod] in
  mkQueue pods (<[pod_UID pod := length pods]> (lastLen q)).

Section solve.
  Context `{TolerationApi} (preferences : Preferences).
  Context {S Er : Type}.
  (** [ctx.Err()], [Scheduler.add], and the topology and pod-data updates that follow
      a relaxation or a failure; any of them may change the scheduler's state. *)
  Context (ctxErr : S → option Er) (add : S → Pod → S * option Er) (updatePod : S → Pod → S).
  Context (IsReservedOfferingError IsDRAError IsDeadlineExceeded : Er → bool).

(** The retry loop of [trySchedule]; a pod with [budget] soft constraints is relaxed
    at most [budget] times, so the branch that runs out is never taken
    ([trySchedule_unfold]). *)
Fixpoint trySchedule_loop (budget : nat) (s : S) (p : Pod) : S * option Er :=
  match ctxErr s with
  | Some e => (s, Some e)
  | None =>
      match add s p with
      | (s', None) => (s', None)
      | (s', Some err) =>
          if IsReservedOfferingError err then (s', Some err)
          else if IsDRAError err then (s', Some err)
          else match Relax preferences p with
               | None => (s', Some err)
               | Some (_, p') =>
                   match budget with
                   | 0 => (s', Some err)
                   | Datatypes.S budget => trySchedule_loop budget (updatePod s' p') p'
                   end
               end
      end
  end.

Definition trySchedule (s : S) (p : Pod) : S * option Er :=
  trySchedule_loop (soft_constraints preferences p) s p.

Record loop_state := mkLoop {
  ls_queue : Queue;
  podErrors : gmap string Er;
  ls_state : S;
}.

(** One iteration: go on, or leave the loop because the queue is exhausted or the
    deadline has passed. *)
Inductive iteration :=
| Continue (st : loop_state)
| Break (timedOut : bool) (st : loop_state).

Definition Solve_step (st : loop_state) : iteration :=
  match Pop (ls_queue st) with
  | None => Break false st
  | Some (pod, q) =>
      match trySchedule (ls_state st) pod with
      | (s, Some err) =>
          if IsDeadlineExceeded err then Break true (mkLoop q (podErrors st) s)
          else Continue (mkLoop (Push q pod) (<[pod_UID pod := err]> (podErrors st)) (updatePod s pod))
      | (s, None) => Continue (mkLoop q (delete (pod_UID pod) (podErrors st)) s)
      end
  end.

Fixpoint Solve_loop (fuel : nat) (st : loop_state) : option (bool * loop_state) :=
  match fuel with
  | 0 => None
  | Datatypes.S fuel =>
      match Solve_step st with
      | Break timedOut st' => Some (timedOut, st')
      | Continue st' => Solve_loop fuel st'
      end
  end.

Definition Solve (fuel : nat) (podData : gmap string ResourceList) (pods : list Pod) (s : S)
    : option (bool * loop_state) :=
  Solve_loop fuel (mkLoop (NewQueue podData pods) ∅ s).

(** ** The retry loop *)

Lemma trySchedule_loop_budget b s p :
  soft_constraints preferences p ≤ b →
  trySchedule_loop b s p = trySchedule s p.
Proof.
  unfold trySchedule. revert s p. induction b as [b IH] using lt_wf_ind; intros s p Hb.
  destruct b as [|b]; simpl; [by replace (soft_constraints preferences p) with 0 by lia|].
  destruct (soft_constraints preferences p) as [|n] eqn:En; simpl;
    destruct (ctxErr s); try done; destruct (add s p) as [s' [err|]]; try done;
    destruct (IsReservedOfferingError err); try done; destruct (IsDRAError err); try done;
    destruct (Relax preferences p) as [[r p']|] eqn:ER; try done.
  - assert (Relax preferences p = None) as E by (by apply Relax_none_iff). congruence.
  - apply Relax_decreases in ER. assert (soft_constraints preferences p' = n) as <- by lia.
    apply IH; lia.
Qed.

(** Retrying a pod terminates, and is the loop of the source: a scheduled pod,
    a reserved-offering or DRA error, an expired context or a pod that cannot be
    relaxed any more ends it; otherwise the relaxed pod is tried again. *)
Theorem trySchedule_unfold s p :
  trySchedule s p =
  match ctxErr s with
  | Some e => (s, Some e)
  | None =>
      match add s p with
      | (s', None) => (s', None)
      | (s', Some err) =>
          if IsReservedOfferingError err || IsDRAError err then (s', Some err)
          else match Relax preferences p with
               | None => (s', Some err)
               | Some (_, p') => trySchedule (updatePod s' p') p'
               end
      end
  end.
Proof.
  rewrite <-(trySchedule_loop_budget (Datatypes.S (soft_constraints preferences p))) by lia. simpl.
  destruct (ctxErr s); [done|]. destruct (add s p) as [s' [err|]]; [|done].
  destruct (IsReservedOfferingError err); [done|]. destruct (IsDRAError err); [done|]. simpl.
  destruct (Relax preferences p) as [[r p']|] eqn:ER; [|done].
  apply trySchedule_loop_budget. apply Relax_decreases in ER. lia.
Qed.

(** ** Termination *)

(** Pods of the queue that may still be tried before the queue is stale. *)
Definition fresh_pods (q : Queue) : nat :=
  length (filter (λ p, last_len q p ≠ length (q_pods q)) (q_pods q)).

Definition queue_measure (q : Queue) : nat :=
  length (q_pods q) * (length (q_pods q) + 1) + fresh_pods q.

Lemma fresh_pods_le q : fresh_pods q ≤ length (q_pods q).
Proof. unfold fresh_pods. apply length_filter. Qed.

Lemma filter_length_mono {A} (P Q : A → Prop) `{∀ x, Decision (P x), ∀ x, Decision (Q x)} l :
  (∀ x, x ∈ l → P x → Q x) → length (filter P l) ≤ length (filter Q l).
Proof.
  induction l as [|x l IH]; intros HPQ; [done|]. rewrite !filter_cons.
  assert (length (filter P l) ≤ length (filter Q l)) by (apply IH; set_solver).
  destruct (decide (P x)) as [HP|HP], (decide (Q x)) as [HQ|HQ]; simpl; try lia.
  exfalso. apply HQ, HPQ; [by left|done].
Qed.

Lemma Pop_Push_fresh q p q' :
  Pop q = Some (p, q') → length (q_pods (Push q' p)) = length (q_pods q) ∧
    fresh_pods (Push q' p) < fresh_pods q.
Proof.
  unfold Pop. destruct q as [pods ll]; simpl. destruct pods as [|p0 rest]; [done|].
  destruct (_ =? _)%nat eqn:E; [done|]. intros [= <- <-].
  apply Nat.eqb_neq in E. simpl. rewrite length_app; simpl. split; [lia|].
  unfold fresh_pods, Push, last_len; simpl.
  rewrite filter_app, length_app, !length_app; simpl.
  rewrite (list_filter_none _ [p0]).
  2: { intros x ->%list_elem_of_singleton Hx. apply Hx. by rewrite lookup_insert_eq. }
  rewrite filter_cons_True by exact E.
  simpl. assert (length (filter (λ p, default 0 ((<[pod_UID p0:=length rest + 1]> ll) !! pod_UID p)
      ≠ length rest + 1) rest) ≤
    length (filter (λ p, default 0 (ll !! pod_UID p) ≠ Datatypes.S (length rest)) rest)) as Hle; [|lia].
  apply filter_length_mono. intros x _. rewrite lookup_insert. case_decide; simpl; lia.
Qed.

Lemma Solve_step_decreases st st' :
  Solve_step st = Continue st' → queue_measure (ls_queue st') < queue_measure (ls_queue st).
Proof.
  unfold Solve_step. destruct (Pop (ls_queue st)) as [[p q']|] eqn:E; [|done].
  destruct (trySchedule (ls_state st) p) as [s [err|]]; [destruct (IsDeadlineExceeded err); [done|]|]; intros [= <-]; simpl.
  - apply Pop_Push_fresh in E as [Hl Hf]. unfold queue_measure. rewrite Hl. lia.
  - pose proof (fresh_pods_le q'). unfold queue_measure.
    assert (length (q_pods (ls_queue st)) = Datatypes.S (length (q_pods q'))) as ->; [|nia].
    unfold Pop in E. destruct (q_pods (ls_queue st)); [done|].
    destruct (_ =? _)%nat; [done|]. by injection E as <- <-.
Qed.

Lemma Solve_finishes podData pods s fuel :
  length pods * (length pods + 2) < fuel → is_Some (Solve fuel podData pods s).
Proof.
  intros Hf. unfold Solve.
  assert (∀ fuel st, queue_measure (ls_queue st) < fuel → is_Some (Solve_loop fuel st)) as Hloop.
  { intros n. induction n as [|n IH]; intros st Hm; [lia|]. simpl.
    destruct (Solve_step st) as [st'|timedOut st'] eqn:E; [|by eexists].
    apply IH. apply Solve_step_decreases in E. lia. }
  apply Hloop. simpl. unfold queue_measure. pose proof (fresh_pods_le (NewQueue podData pods)) as Hfr.
  assert (length (q_pods (NewQueue podData pods)) = length pods) as Hl.
  { unfold NewQueue; simpl. by rewrite sort_by_Permutation. }
  rewrite Hl in *. nia.
Qed.

(** C32: the scheduling loop terminates: whatever scheduling attempts do, for n pods
    it ends within n * (n + 2) + 1 iterations, because each failed attempt uses
    up a pod that had not been tried at the current queue length. *)
Theorem Solve_terminates podData pods s fuel :
  length pods * (length pods + 2) < fuel → is_Some (Solve fuel podData pods s).
Proof. apply Solve_finishes. Qed.

(** ** What the loop reports *)

(** Untried pods are in front; every tried pod of the queue has an error. *)
Definition loop_inv (st : loop_state) : Prop :=
  NoDup (pod_UID <$> q_pods (ls_queue st)) ∧
  (∃ untried tried, q_pods (ls_queue st) = untried ++ tried ∧
    (∀ p, p ∈ untried → lastLen (ls_queue st) !! pod_UID p = None) ∧
    (∀ p, p ∈ tried → is_Some (podErrors st !! pod_UID p))) ∧
  (∀ uid, is_Some (podErrors st !! uid) → ∃ p, p ∈ q_pods (ls_queue st) ∧ pod_UID p = uid).

Lemma loop_inv_step st st' : loop_inv st → Solve_step st = Continue st' → loop_inv st'.
Proof.
  intros (Hnd & (untried & tried & Hq & Hun & Htr) & Herr). unfold Solve_step, Pop.
  destruct (ls_queue st) as [pods ll]; simpl in *. subst pods.
  destruct (untried ++ tried) as [|p rest] eqn:Hsplit; [done|].
  apply NoDup_cons in Hnd as [Hp Hnd].
  assert (∀ x, x ∈ rest → pod_UID x ≠ pod_UID p) as Hne.
  { intros x Hx E. apply Hp. rewrite <-E. by apply list_elem_of_fmap_2. }
  set (rest_tried := match untried with [] => drop 1 tried | _ => tried end).
  assert (∃ untried', rest = untried' ++ rest_tried ∧
    ∀ x, x ∈ untried' → x ∈ untried) as (untried' & Hrest & Hun').
  { subst rest_tried. destruct untried as [|u untried]; simpl in Hsplit.
    - subst tried. exists []. split; [done|by intros x ?%not_elem_of_nil].
    - injection Hsplit as -> Hs. exists untried. split; [done|]. intros x Hx. by right. }
  assert (∀ x, x ∈ rest_tried → x ∈ tried) as Htr'.
  { intros x. subst rest_tried. destruct untried; [|done]. destruct tried; [done|]. simpl. rewrite drop_0. by right. }
  destruct (_ =? _)%nat; [done|]. simpl.
  destruct (trySchedule (ls_state st) p) as [s [err|]]; [destruct (IsDeadlineExceeded err); [done|]|];
    intros [= <-]; unfold loop_inv; simpl.
  - split_and!.
    + rewrite fmap_app. apply NoDup_app. split_and!; [done| |apply NoDup_singleton].
      intros uid Hu Hu'. apply list_elem_of_singleton in Hu' as ->. done.
    + exists untried', (rest_tried ++ [p]).
      split_and!; [by rewrite Hrest, app_assoc| |].
      * intros x Hx. rewrite lookup_insert_ne; [by apply Hun, Hun'|].
        intros E. symmetry in E. revert E. apply Hne. rewrite Hrest. apply elem_of_app. by left.
      * intros x [Hx|Hx]%elem_of_app.
        -- rewrite lookup_insert. case_decide; [eauto|]. by apply Htr, Htr'.
        -- apply list_elem_of_singleton in Hx as ->. rewrite lookup_insert_eq. eauto.
    + intros uid [e He]. apply lookup_insert_Some in He as [[<- _]|[Hu He]].
      * exists p. split; [|done]. apply elem_of_app. right. by left.
      * destruct (Herr uid ltac:(eauto)) as (x & [->|Hx]%elem_of_cons & <-); [done|].
        exists x. split; [|done]. apply elem_of_app. by left.
  - split_and!; [done| |].
    + exists untried', rest_tried. split_and!; [done| |].
      * intros x Hx. by apply Hun, Hun'.
      * intros x Hx. rewrite lookup_delete_ne.
        -- by apply Htr, Htr'.
        -- intros E. symmetry in E. revert E. apply Hne. rewrite Hrest. apply elem_of_app. by right.
    + intros uid [e He]. apply lookup_delete_Some in He as [Hu He].
      destruct (Herr uid ltac:(eauto)) as (x & [->|Hx]%elem_of_cons & <-); [done|eauto].
Qed.

Lemma Solve_loop_inv fuel st0 st :
  loop_inv st0 → Solve_loop fuel st0 = Some (false, st) → Pop (ls_queue st) = None ∧ loop_inv st.
Proof.
  revert st0. induction fuel as [|n IH]; intros st0 Hi; simpl; [done|].
  destruct (Solve_step st0) as [st1|timedOut st1] eqn:E.
  - apply IH. by eapply loop_inv_step.
  - intros [= -> ->]. unfold Solve_step in E.
    destruct (Pop (ls_queue st0)) as [[p q]|] eqn:Hp; [|by injection E as ->].
    by destruct (trySchedule (ls_state st0) p) as [s [err|]]; [destruct (IsDeadlineExceeded err)|].
Qed.

Lemma Solve_leftovers podData pods s fuel st :
  NoDup (pod_UID <$> pods) → Solve fuel podData pods s = Some (false, st) →
  NoDup (pod_UID <$> q_pods (ls_queue st)) ∧
  ∀ uid, is_Some (podErrors st !! uid) ↔ ∃ p, p ∈ q_pods (ls_queue st) ∧ pod_UID p = uid.
Proof.
  intros Hnd Hs.
  apply Solve_loop_inv in Hs as (Hpop & Hnd' & (untried & tried & Hq & Hun & Htr) & Herr).
  2: { unfold loop_inv; simpl. split_and!.
       - by rewrite sort_by_Permutation.
       - exists (sort_by (byCPUAndMemoryDescending podData) pods), []. rewrite app_nil_r.
         split_and!; [done|by intros; rewrite lookup_empty|by intros p ?%not_elem_of_nil].
       - intros u [e He]. by rewrite lookup_empty in He. }
  split; [done|]. intros uid. split; [apply Herr|]. intros (p & Hp & <-). apply Htr.
  unfold Pop in Hpop. rewrite Hq in Hp, Hpop.
  destruct untried as [|u untried]; [done|]. exfalso. simpl in Hpop.
  unfold last_len in Hpop. rewrite (Hun u) in Hpop by (by left). done.
Qed.

(** When the loop stops because no progress is possible, the pods it reports
    errors for are exactly the pods still in the queue: every pod
    left over has the error of its last attempt, and no scheduled pod keeps one. *)
Theorem Solve_reports_leftovers podData pods s fuel st :
  NoDup (pod_UID <$> pods) → Solve fuel podData pods s = Some (false, st) →
  ∀ uid, is_Some (podErrors st !! uid) ↔ ∃ p, p ∈ q_pods (ls_queue st) ∧ pod_UID p = uid.
Proof. intros Hnd Hs. by apply (Solve_leftovers _ _ _ _ _ Hnd) in Hs as [_ ?]. Qed.

(** ** Reachable states *)

(** What a scheduling attempt or an update after a failure can do to the state. *)
Inductive attempt_step : S → S → Prop :=
| attempt_add s p : attempt_step s (add s p).1
| attempt_update s p : attempt_step s (updatePod s p).

Lemma trySchedule_loop_reachable b s p : rtc attempt_step s (trySchedule_loop b s p).1.
Proof.
  revert s p. induction b as [|b IH]; intros s p; simpl; (destruct (ctxErr s); [done|]);
    pose proof (attempt_add s p) as Ha; destruct (add s p) as [s' [err|]]; simpl in Ha; repeat case_match;
    try (by apply rtc_once); try (by constructor).
  eapply rtc_l; [done|]. eapply rtc_l; [apply attempt_update|apply IH].
Qed.

Lemma Solve_loop_reachable fuel st r :
  Solve_loop fuel st = Some r → rtc attempt_step (ls_state st) (ls_state r.2).
Proof.
  revert st. induction fuel as [|n IH]; intros st; simpl; [done|]. unfold Solve_step.
  destruct (Pop (ls_queue st)) as [[p q]|]; [|by intros [= <-]].
  pose proof (trySchedule_loop_reachable (soft_constraints preferences p) (ls_state st) p) as Ht.
  fold (trySchedule (ls_state st) p) in Ht.
  destruct (trySchedule (ls_state st) p) as [s [err|]]; simpl in Ht.
  - destruct (IsDeadlineExceeded err); [by intros [= <-]|]. intros Hr%IH; simpl in Hr.
    etrans; [done|]. eapply rtc_l; [apply attempt_update|done].
  - intros Hr%IH. by etrans.
Qed.

(** ** What every attempt on the pods of a run preserves *)

Section preservation.
  Context (valid : Pod → Prop) (inv : S → Prop).
  Context (relax_valid : ∀ p r p', Relax preferences p = Some (r, p') → valid p → valid p').
  Context (add_inv : ∀ s p, valid p → inv s → inv (add s p).1).
  Context (update_inv : ∀ s p, valid p → inv s → inv (updatePod s p)).

Lemma trySchedule_loop_preserves b s p : valid p → inv s → inv (trySchedule_loop b s p).1.
Proof using relax_valid add_inv update_inv.
  revert s p. induction b as [|b IH]; intros s p Hp Hs; simpl; (destruct (ctxErr s); [done|]);
    pose proof (add_inv s p Hp Hs) as Ha; destruct (add s p) as [s' [err|]]; simpl in Ha; try done;
    repeat case_match; simplify_eq/=; try done. apply IH, update_inv; eauto.
Qed.

Lemma Solve_preserves fuel podData pods s r :
  Solve fuel podData pods s = Some r → Forall valid pods → inv s → inv (ls_state r.2).
Proof using relax_valid add_inv update_inv.
  assert (∀ st, Solve_loop fuel st = Some r → Forall valid (q_pods (ls_queue st)) → inv (ls_state st) →
    inv (ls_state r.2)) as Hloop.
  { induction fuel as [|n IH]; intros st; simpl; [done|]. unfold Solve_step, Pop.
    destruct (ls_queue st) as [[|p rest] ll]; simpl; [by intros [= <-]|].
    destruct (_ =? _)%nat; [by intros [= <-]|]. intros Hr [Hp Hv]%Forall_cons Hi. revert Hr.
    pose proof (trySchedule_loop_preserves (soft_constraints preferences p) _ _ Hp Hi) as Ht.
    fold (trySchedule (ls_state st) p) in Ht. destruct (trySchedule (ls_state st) p) as [s' [err|]]; simpl in Ht.
    - destruct (IsDeadlineExceeded err); [by intros [= <-]|]. intros Hr. apply (IH _ Hr); simpl; [|auto].
      apply Forall_app. auto.
    - intros Hr. by apply (IH _ Hr). }
  intros Hs Hv Hi. apply (Hloop _ Hs); [|done]. simpl. by rewrite sort_by_Permutation.
Qed.
End preservation.

(** ** No pod is lost or placed twice

    [placed] lists the UIDs of the placed pods of a state; [alive] excludes the
    states after a run-time panic. *)

Section conservation.
  Context (alive : S → Prop) (placed : S → list string).
  Context (add_places : ∀ s p s' e, add s p = (s', e) → alive s' →
             alive s ∧ placed s' ≡ₚ (match e with Some _ => [] | None => [pod_UID p] end) ++ placed s).
  Context (update_places : ∀ s p, alive (updatePod s p) → alive s ∧ placed (updatePod s p) ≡ₚ placed s).

Lemma trySchedule_loop_places b s p s' e :
  trySchedule_loop b s p = (s', e) → alive s' →
  alive s ∧ placed s' ≡ₚ (match e with Some _ => [] | None => [pod_UID p] end) ++ placed s.
Proof using add_places update_places.
  revert s p. induction b as [|b IH]; intros s p; simpl; (destruct (ctxErr s); [by intros [= <- <-]|]);
    destruct (add s p) as [s1 [err|]] eqn:Ea; pose proof (add_places s p s1 _ Ea) as Ha; simpl in Ha;
    try (by intros [= <- <-]);
    (destruct (IsReservedOfferingError err); [by intros [= <- <-]|]);
    (destruct (IsDRAError err); [by intros [= <- <-]|]);
    destruct (Relax preferences p) as [[r p']|] eqn:ER; try (by intros [= <- <-]).
  intros Hl Hal. destruct (IH _ _ Hl Hal) as [Hu Hp]. destruct (update_places _ _ Hu) as [H1 H2].
  destruct (Ha H1) as [H3 H4]. split; [done|]. rewrite Hp, H2, H4. by rewrite (Relax_UID _ _ _ _ ER).
Qed.

(** A pod whose attempt ran into the deadline has left the queue without being placed. *)
Lemma Solve_loop_places fuel st timedOut st' :
  Solve_loop fuel st = Some (timedOut, st') → alive (ls_state st') →
  ∃ dropped, length dropped = (if timedOut then 1 else 0) ∧
    placed (ls_state st') ++ dropped ++ (pod_UID <$> q_pods (ls_queue st'))
      ≡ₚ placed (ls_state st) ++ (pod_UID <$> q_pods (ls_queue st)) ∧ alive (ls_state st).
Proof using add_places update_places.
  revert st. induction fuel as [|n IH]; intros st; simpl; [done|]. unfold Solve_step, Pop.
  destruct (ls_queue st) as [[|p rest] ll] eqn:Eq; simpl; [by intros [= <- <-] ?; exists []; rewrite Eq|].
  destruct (_ =? _)%nat; [by intros [= <- <-] ?; exists []; rewrite Eq|].
  destruct (trySchedule (ls_state st) p) as [s [err|]] eqn:Et;
    pose proof (trySchedule_loop_places _ _ _ _ _ Et) as Hp; simpl in Hp.
  - destruct (IsDeadlineExceeded err).
    + intros [= <- <-] Hal. simpl in *. destruct (Hp Hal) as [H1 H2]. exists [pod_UID p]. split_and!; [done| |done].
      by rewrite H2.
    + intros Hl Hal. destruct (IH _ Hl Hal) as (d & Hd & Hperm & Hst). simpl in *.
      destruct (update_places _ _ Hst) as [H1 H2]. destruct (Hp H1) as [H3 H4].
      exists d. split_and!; [done| |done]. rewrite Hperm, H2, H4, fmap_app. simpl. by rewrite (Permutation_app_comm _ [_]).
  - intros Hl Hal. destruct (IH _ Hl Hal) as (d & Hd & Hperm & Hst). simpl in *. destruct (Hp Hst) as [H3 H4].
    exists d. split_and!; [done| |done]. rewrite Hperm, H4. by apply Permutation_middle.
Qed.

Lemma Solve_places fuel podData pods s timedOut st' :
  Solve fuel podData pods s = Some (timedOut, st') → alive (ls_state st') →
  ∃ dropped, length dropped = (if timedOut then 1 else 0) ∧
    placed (ls_state st') ++ dropped ++ (pod_UID <$> q_pods (ls_queue st')) ≡ₚ placed s ++ (pod_UID <$> pods).
Proof using add_places update_places.
  intros Hs Hal. destruct (Solve_loop_places _ _ _ _ Hs Hal) as (d & Hd & Hp & _). exists d. split; [done|].
  rewrite Hp. simpl. by rewrite sort_by_Permutation.
Qed.
End conservation.
End solve.
