(* ===== verification/TopologyGroup.v ===== *)
(** * TopologyGroup: counting pods per topology domain
    (pkg/controllers/provisioning/scheduling/topologydomaingroup.go,
    topologynodefilter.go and topologygroup.go)

    A group counts the pods its selector matches by domain and answers, for a pod
    and a node under consideration, in which domains the pod may go.  The counts
    are [int32]; Go's map iteration order is a parameter ([IterationOrder]). *)

From S2P Require Import Prelude Labels Requirement Objects Requirements Taints.

(** ** Domain groups: the taints under which each domain is offered *)

Abbreviation TopologyDomainGroup := (gmap string (list (list Taint))).

Definition NewTopologyDomainGroup : TopologyDomainGroup := ∅.

(** [t[domain][0]] of an entry without taint sets would panic; no operation makes one
    ([domain_group_wf]), and the model treats it as tainted. *)
Definition DomainGroup_Insert (t : TopologyDomainGroup) (domain : string) (taints : list Taint)
    : TopologyDomainGroup :=
  match t !! domain with
  | None => <[domain := [taints]]> t
  | Some groups =>
      match taints with
      | [] => <[domain := [[]]]> t
      | _ => match groups with
             | [] :: _ => t
             | _ => <[domain := groups ++ [taints]]> t
             end
      end
  end.

Section domain_group.
  Context `{TA : TaintApi}.

(** The domains [f] is called on.  [None] is the zero value of the policy, which is
    not "Ignore" and therefore checks the taints. *)
Definition ForEachDomain (t : TopologyDomainGroup) (pod : Pod) (taintHonorPolicy : option NodeInclusionPolicy)
    : gset string :=
  list_to_set (fst <$> filter (λ kv : string * list (list Taint),
    taintHonorPolicy = Some PolicyIgnore ∨
    existsb (λ taints, match ToleratesPod taints pod with [] => true | _ => false end) kv.2 = true)
    (map_to_list t)).
End domain_group.

(** ** Node filters *)

Record TopologyNodeFilter := mkNodeFilter {
  nf_Requirements : list Requirements;
  nf_TaintPolicy : option NodeInclusionPolicy;
  nf_AffinityPolicy : option NodeInclusionPolicy;
  nf_Tolerations : list Toleration;
}.

(** The zero value. *)
Definition no_filter : TopologyNodeFilter := mkNodeFilter [] None None [].

Section node_filter.
  Context `{LR : LabelRegistry} `{TA : TaintApi}.

Definition MakeTopologyNodeFilter (p : Pod) (taintPolicy affinityPolicy : NodeInclusionPolicy)
    : option TopologyNodeFilter :=
  let nodeSelectorRequirements := NewLabelRequirements (pod_NodeSelector p) in
  match (pod_Affinity p ≫= NodeAffinity) ≫= RequiredTerms with
  | None => Some (mkNodeFilter [nodeSelectorRequirements] (Some taintPolicy) (Some affinityPolicy)
                    (pod_Tolerations p))
  | Some terms =>
      reqs ← mapM (λ term,
        termReqs ← NewNodeSelectorRequirements term;
        Some (Add (Add (NewRequirements []) (Values nodeSelectorRequirements)) (Values termReqs))) terms;
      Some (mkNodeFilter reqs (Some taintPolicy) (Some affinityPolicy) (pod_Tolerations p))
  end.

Definition matchesRequirements (t : TopologyNodeFilter) (requirements : Requirements)
    (allowUndefined : gset string) : bool :=
  match nf_Requirements t with
  | [] => true
  | reqs =>
      bool_decide (nf_AffinityPolicy t = Some PolicyIgnore)
      || existsb (λ req, IsCompatible requirements req allowUndefined) reqs
  end.

(** [Matches] accepts compatibility options but does not hand them on. *)
Definition NodeFilter_Matches (t : TopologyNodeFilter) (taints : list Taint) (requirements : Requirements)
    (allowUndefined : gset string) : bool :=
  let matchesAffinity :=
    if bool_decide (nf_AffinityPolicy t = Some PolicyHonor) then matchesRequirements t requirements ∅ else true in
  let matchesTaints :=
    if bool_decide (nf_TaintPolicy t = Some PolicyHonor)
    then match Tolerates taints (nf_Tolerations t) with [] => true | _ => false end else true in
  matchesAffinity && matchesTaints.
Lemma MakeTopologyNodeFilter_total p taintPolicy affinityPolicy :
  pod_valid p = true → is_Some (MakeTopologyNodeFilter p taintPolicy affinityPolicy).
Proof.
  unfold pod_valid, MakeTopologyNodeFilter. destruct (_ ≫= NodeAffinity) as [na|]; simpl; [|by eexists].
  intros [[Hr _]%andb_true_iff _]%andb_true_iff. destruct (RequiredTerms na) as [terms|]; simpl in *; [|by eexists].
  destruct (mapM _ terms) as [reqs|] eqn:Em; [by eexists|]. exfalso. apply mapM_None in Em.
  apply Exists_exists in Em as (term & Hin & Ht). rewrite forallb_forall in Hr.
  destruct (NewNodeSelectorRequirements_total term) as [rs Hrs]; [by apply Hr, list_elem_of_In|]. by rewrite Hrs in Ht.
Qed.
End node_filter.

(** ** Topology groups *)

Inductive TopologyType := TopologyTypeSpread | TopologyTypePodAffinity | TopologyTypePodAntiAffinity.

#[export] Instance TopologyType_eq_dec : EqDecision TopologyType.
Proof. solve_decision. Defined.

Definition TopologyType_String (t : TopologyType) : string :=
  match t with
  | TopologyTypeSpread => "topology spread"
  | TopologyTypePodAffinity => "pod affinity"
  | TopologyTypePodAntiAffinity => "pod anti-affinity"
  end.

(** A compiled [labels.Selector] is its [Matches]. *)
Definition Selector : Type := gmap string string → bool.

(** Package k8s.io/apimachinery/pkg/labels.  [metav1.LabelSelectorAsSelector]: a nil selector matches nothing, the empty
    selector everything. *)
Inductive SelectionOperator := SelectionEquals | SelectionOp (op : LabelSelectorOperator).

(** [labels.NewRequirement] compiles one expression, or fails. *)
Class SelectorApi := {
  LabelSelectorAsSelector : option LabelSelector → option Selector;
  LabelSelectorAsSelector_nil : ∃ s, LabelSelectorAsSelector None = Some s ∧ ∀ l, s l = false;
  labels_NewRequirement : string → SelectionOperator → list string → option Selector;
}.

Record TopologyGroup := mkTopologyGroup {
  tg_Key : string;
  tg_Type : TopologyType;
  maxSkew : Z;
  minDomains : option Z;
  namespaces : gset string;
  selector : Selector;
  rawSelector : option LabelSelector;
  nodeFilter : TopologyNodeFilter;
  owners : gset string;
  domains : gmap string Z;
  emptyDomains : gset string;
}.

Definition with_domains (t : TopologyGroup) (ds : gmap string Z) (es : gset string) : TopologyGroup :=
  mkTopologyGroup (tg_Key t) (tg_Type t) (maxSkew t) (minDomains t) (namespaces t) (selector t)
    (rawSelector t) (nodeFilter t) (owners t) ds es.

Definition with_owners (t : TopologyGroup) (os : gset string) : TopologyGroup :=
  mkTopologyGroup (tg_Key t) (tg_Type t) (maxSkew t) (minDomains t) (namespaces t) (selector t)
    (rawSelector t) (nodeFilter t) os (domains t) (emptyDomains t).

(** A Go map read: the zero value for an absent key. *)
Definition domain_count (t : TopologyGroup) (domain : string) : Z := default 0%Z (domains t !! domain).

Definition TopologyGroup_Record (t : TopologyGroup) (ds : list string) : TopologyGroup :=
  foldl (λ t domain, with_domains t (<[domain := wrap32 (domain_count t domain + 1)]> (domains t))
                       (emptyDomains t ∖ {[domain]})) t ds.

Definition TopologyGroup_Register (t : TopologyGroup) (ds : list string) : TopologyGroup :=
  foldl (λ t domain, match domains t !! domain with
                     | Some _ => t
                     | None => with_domains t (<[domain := 0%Z]> (domains t)) (emptyDomains t ∪ {[domain]})
                     end) t ds.

Definition TopologyGroup_Unregister (t : TopologyGroup) (ds : list string) : TopologyGroup :=
  foldl (λ t domain, with_domains t (delete domain (domains t)) (emptyDomains t ∖ {[domain]})) t ds.

Definition AddOwner (t : TopologyGroup) (key : string) : TopologyGroup := with_owners t (owners t ∪ {[key]}).
Definition RemoveOwner (t : TopologyGroup) (key : string) : TopologyGroup := with_owners t (owners t ∖ {[key]}).
Definition IsOwnedBy (t : TopologyGroup) (key : string) : bool := bool_decide (key ∈ owners t).

Definition selects (t : TopologyGroup) (pod : Pod) : bool :=
  bool_decide (pod_Namespace pod ∈ namespaces t) && selector t (pod_Labels pod).

(** [hashstructure.Hash] of each type that is hashed. *)
Class HashApi := {
  hash_expression : LabelSelectorRequirement → Z;
  hash_labels : gmap string string → Z;
  hash_selector : gset Z → Z → Z;
  hash_group : string → TopologyType → gset string → Z → TopologyNodeFilter → Z → Z;
}.

Section hash.
  Context `{HA : HashApi}.

(** The expression hashes are collected in a set, so repeats do not matter. *)
Definition hashSelector (s : option LabelSelector) : Z :=
  match s with
  | None => hash_selector ∅ 0
  | Some s => hash_selector (list_to_set (hash_expression <$> MatchExpressions s)) (hash_labels (MatchLabels s))
  end.

Definition Hash (t : TopologyGroup) : Z :=
  hash_group (tg_Key t) (tg_Type t) (namespaces t) (maxSkew t) (nodeFilter t) (hashSelector (rawSelector t)).
End hash.

Section group.
  Context `{LR : LabelRegistry} `{TA : TaintApi} `{SA : SelectorApi} `{IO : IterationOrder}.

Definition NewTopologyGroup (topologyType : TopologyType) (topologyKey : string) (pod : Pod)
    (nss : gset string) (labelSelector : option LabelSelector) (skew : Z) (minDoms : option Z)
    (taintPolicy affinityPolicy : option NodeInclusionPolicy) (domainGroup : TopologyDomainGroup)
    : option TopologyGroup :=
  filter ← (if bool_decide (topologyType = TopologyTypeSpread)
            then MakeTopologyNodeFilter pod (default PolicyIgnore taintPolicy) (default PolicyHonor affinityPolicy)
            else Some no_filter);
  let sel := default (λ _, false) (LabelSelectorAsSelector labelSelector) in
  let found := ForEachDomain domainGroup pod (nf_TaintPolicy filter) in
  Some (mkTopologyGroup topologyKey topologyType skew minDoms nss sel labelSelector filter ∅
          (gset_to_gmap 0%Z found) found).

Definition Counts (t : TopologyGroup) (pod : Pod) (taints : list Taint) (requirements : Requirements)
    (allowUndefined : gset string) : bool :=
  selects t pod && NodeFilter_Matches (nodeFilter t) taints requirements allowUndefined.

(** [NewRequirement(key, In, domain)] (see [requirement_In_eq]). *)
Definition requirement_In (key domain : string) : Requirement :=
  mkRequirement (normalize_key key) false
    (list_to_set (normalize_values (normalize_key key) [domain])) None None None None.

Definition requirement_DoesNotExist (key : string) : Requirement := simple_requirement key OpDoesNotExist None.

Definition domainMinCount (t : TopologyGroup) (podDomains : Requirement) : Z :=
  if bool_decide (tg_Key t = LabelHostname) then 0
  else
    let '(min, num) := foldl (λ '(min, num) domain,
      if Has podDomains domain
      then let count := domain_count t domain in
           (if (count <? min)%Z then count else min, wrap32 (num + 1))
      else (min, num)) (int32_max, 0%Z) (iter 0 (dom (domains t))) in
    match minDomains t with
    | Some m => if (num <? m)%Z then 0 else min
    | None => min
    end.

Definition single_value (r : Requirement) : option string :=
  match elements (values r) with [v] => Some v | _ => None end.

(** The special case of the hostname key when the node's hostname is known:
    [t.Key == corev1.LabelHostname && len(nodeDomains.Values()) == 1]. *)
Definition known_host (t : TopologyGroup) (nodeDomains : Requirement) : option string :=
  if bool_decide (tg_Key t = LabelHostname) then single_value nodeDomains else None.

(** The loop body both branches share: [count] pods are in [domain]. *)
Definition spread_visit (t : TopologyGroup) (selfSelecting : bool) (min : Z)
    (acc : string * Z * gset string) (domain : string) (count : Z) : string * Z * gset string :=
  let '(minDomain, minCount, validDomains) := acc in
  let count := if selfSelecting then wrap32 (count + 1) else count in
  if (wrap32 (count - min) <=? maxSkew t)%Z
  then if (count <? minCount)%Z then (domain, count, validDomains ∪ {[domain]})
       else (minDomain, minCount, validDomains ∪ {[domain]})
  else acc.

Definition nextDomainTopologySpread (t : TopologyGroup) (pod : Pod) (podDomains nodeDomains : Requirement)
    : Requirement * gset string :=
  let min := domainMinCount t podDomains in
  let selfSelecting := selects t pod in
  match known_host t nodeDomains with
  | Some hostName =>
      let count := domain_count t hostName in
      let count := if selfSelecting then wrap32 (count + 1) else count in
      if (count <=? maxSkew t)%Z then (requirement_In (tg_Key t) hostName, {[hostName]})
      else (requirement_DoesNotExist (tg_Key t), ∅)
  | None =>
      let start := (EmptyString, int32_max, ∅) in
      let '(minDomain, _, validDomains) :=
        if bool_decide (Operator nodeDomains = OpIn)
        then foldl (λ acc domain, match domains t !! domain with
                                  | Some count => spread_visit t selfSelecting min acc domain count
                                  | None => acc
                                  end) start (iter 1 (values nodeDomains))
        else foldl (λ acc domain, if Has nodeDomains domain
                                  then spread_visit t selfSelecting min acc domain (domain_count t domain)
                                  else acc) start (iter 2 (dom (domains t))) in
      if bool_decide (minDomain = EmptyString) then (requirement_DoesNotExist (tg_Key t), validDomains)
      else (requirement_In (tg_Key t) minDomain, validDomains)
  end.

Definition anyCompatiblePodDomain (t : TopologyGroup) (podDomains : Requirement) : bool :=
  existsb (λ domain, Has podDomains domain && (domain_count t domain >? 0)%Z) (iter 3 (dom (domains t))).

(** The pod may start a new domain: it selects itself, and no selected pod is
    anywhere it could go. *)
Definition may_bootstrap (t : TopologyGroup) (pod : Pod) (podDomains : Requirement) : bool :=
  selects t pod && ((size (domains t) =? size (emptyDomains t))%nat || negb (anyCompatiblePodDomain t podDomains)).

(** [for domain := range ... { if test { options.Insert(domain); break } }] *)
Definition insert_first (test : string → bool) (l : list string) (options : Requirement) : Requirement :=
  match List.find test l with Some d => Insert options [d] | None => options end.

(** The domains with selected pods that the pod and the node allow: over the node's
    explicit values, or over the group's domains. *)
Definition occupied_domains (t : TopologyGroup) (podDomains nodeDomains : Requirement) : Requirement :=
  let options := requirement_DoesNotExist (tg_Key t) in
  if bool_decide (Operator nodeDomains = OpIn)
  then foldl (λ options domain,
         match domains t !! domain with
         | Some count => if Has podDomains domain && (count >? 0)%Z then Insert options [domain] else options
         | None => options
         end) options (iter 4 (values nodeDomains))
  else foldl (λ options domain,
         if Has podDomains domain && (domain_count t domain >? 0)%Z && Has nodeDomains domain
         then Insert options [domain] else options) options (iter 5 (dom (domains t))).

Definition nextDomainAffinity (t : TopologyGroup) (pod : Pod) (podDomains nodeDomains : Requirement)
    : Requirement :=
  let options := requirement_DoesNotExist (tg_Key t) in
  match known_host t nodeDomains with
  | Some hostName =>
      if negb (Has podDomains hostName) then options
      else if (domain_count t hostName >? 0)%Z then Insert options [hostName]
      else if may_bootstrap t pod podDomains then Insert options [hostName]
      else options
  | None =>
      let options := occupied_domains t podDomains nodeDomains in
      if negb (Len options =? 0)%Z then options
      else if may_bootstrap t pod podDomains
      then let intersected := Intersection podDomains nodeDomains in
           insert_first (Has podDomains) (iter 7 (dom (domains t)))
             (insert_first (Has intersected) (iter 6 (dom (domains t))) options)
      else options
  end.

Definition nextDomainAntiAffinity (t : TopologyGroup) (podDomains nodeDomains : Requirement) : Requirement :=
  let options := requirement_DoesNotExist (tg_Key t) in
  match known_host t nodeDomains with
  | Some hostName => if (domain_count t hostName =? 0)%Z then Insert options [hostName] else options
  | None =>
      if bool_decide (Operator nodeDomains = OpIn) && (Len nodeDomains <? Z.of_nat (size (emptyDomains t)))%Z
      then foldl (λ options domain,
             if bool_decide (domain ∈ emptyDomains t) && Has podDomains domain
             then Insert options [domain] else options) options (iter 8 (values nodeDomains))
      else foldl (λ options domain,
             if Has nodeDomains domain && Has podDomains domain
             then Insert options [domain] else options) options (iter 9 (emptyDomains t))
  end.

(** Which domains the pod may use; the second component is only read for spreads. *)
Definition TopologyGroup_Get (t : TopologyGroup) (pod : Pod) (podDomains nodeDomains : Requirement)
    : Requirement * gset string :=
  match tg_Type t with
  | TopologyTypeSpread => nextDomainTopologySpread t pod podDomains nodeDomains
  | TopologyTypePodAffinity =>
      let req := nextDomainAffinity t pod podDomains nodeDomains in (req, values req)
  | TopologyTypePodAntiAffinity =>
      let req := nextDomainAntiAffinity t podDomains nodeDomains in (req, values req)
  end.

(** ** Domain groups *)

Definition domain_group_wf (t : TopologyDomainGroup) : Prop := map_Forall (λ _ groups, groups ≠ []) t.

Lemma tolerates_nothing pod : ToleratesPod [] pod = [].
Proof. done. Qed.

(** What the domain group stands for: every (domain, taints) pair ever inserted. *)
Definition inserted (history : list (string * list Taint)) : TopologyDomainGroup :=
  foldl (λ t kv, DomainGroup_Insert t kv.1 kv.2) NewTopologyDomainGroup history.

Definition tolerated (pod : Pod) (taints : list Taint) : bool :=
  match ToleratesPod taints pod with [] => true | _ => false end.

Lemma DomainGroup_Insert_lookup t domain taints d :
  is_Some (DomainGroup_Insert t domain taints !! d) ↔ is_Some (t !! d) ∨ d = domain.
Proof.
  unfold DomainGroup_Insert. repeat case_match; rewrite ?lookup_insert; try case_decide; naive_solver.
Qed.

Lemma DomainGroup_Insert_tolerated t domain taints d pod :
  (∃ groups, DomainGroup_Insert t domain taints !! d = Some groups ∧ existsb (tolerated pod) groups = true) ↔
  (∃ groups, t !! d = Some groups ∧ existsb (tolerated pod) groups = true) ∨
  (d = domain ∧ tolerated pod taints = true).
Proof.
  unfold DomainGroup_Insert. destruct (t !! domain) as [groups|] eqn:E.
  - destruct taints as [|tn taints]; [|destruct groups as [|[|t1 g1] groups]].
    + rewrite lookup_insert. case_decide as Hd; [subst|naive_solver]. split; [by right|]. intros _. eauto.
    + rewrite lookup_insert. case_decide as Hd; [subst|naive_solver]. rewrite E. simpl. split.
      * intros (? & [= <-] & Ht). simpl in Ht. rewrite orb_false_r in Ht. auto.
      * intros [(? & [= <-] & [=])|[_ Ht]]. eexists. split; [done|]. simpl. by rewrite Ht.
    + split; [by left|]. intros [?|[-> _]]; [done|]. eauto.
    + rewrite lookup_insert. case_decide as Hd; [subst|naive_solver]. rewrite E.
      split.
      * intros (? & [= <-] & Ht). simpl in Ht. rewrite existsb_app, !orb_true_iff in Ht. simpl in Ht.
        rewrite orb_false_r in Ht. destruct Ht as [Ht|[Ht|Ht]]; [left|left|by right];
        (eexists; split; [done|]); simpl; rewrite Ht; auto using orb_true_r.
      * intros [(? & [= <-] & Ht)|[_ Ht]]; eexists; (split; [done|]); simpl in *; rewrite existsb_app; simpl;
        rewrite !orb_true_iff in *; tauto.
  - rewrite lookup_insert. case_decide as Hd; [subst|naive_solver]. rewrite E. split.
    + intros (? & [= <-] & Ht). simpl in Ht. rewrite orb_false_r in Ht. auto.
    + intros [(? & [=] & _)|[_ Ht]]. eexists. split; [done|]. simpl. by rewrite Ht.
Qed.

Lemma elem_of_ForEachDomain t pod policy d :
  d ∈ ForEachDomain t pod policy ↔
  ∃ groups, t !! d = Some groups ∧ (policy = Some PolicyIgnore ∨ existsb (tolerated pod) groups = true).
Proof.
  unfold ForEachDomain. rewrite elem_of_list_to_set, list_elem_of_fmap. split.
  - intros ([d' groups] & -> & [Hp Hin]%list_elem_of_filter). exists groups. split; [|exact Hp].
    by apply elem_of_map_to_list.
  - intros (groups & Hl & Hp). exists (d, groups). split; [done|]. apply list_elem_of_filter. split; [exact Hp|].
    by apply elem_of_map_to_list.
Qed.

(** A domain group forgets only redundant taint sets: whatever was inserted, and
    in whatever order, a pod is offered a domain exactly when the domain was ever
    inserted (policy Ignore), or inserted with taints the pod tolerates (otherwise). *)
Theorem ForEachDomain_spec history pod policy d :
  d ∈ ForEachDomain (inserted history) pod policy ↔
  ∃ taints, (d, taints) ∈ history ∧ (policy = Some PolicyIgnore ∨ ToleratesPod taints pod = []).
Proof.
  rewrite elem_of_ForEachDomain. unfold inserted. induction history as [|[d' taints] history IH] using rev_ind.
  { simpl. unfold NewTopologyDomainGroup. setoid_rewrite lookup_empty. setoid_rewrite elem_of_nil. naive_solver. }
  rewrite foldl_snoc. simpl. set (t := foldl _ _ _) in *.
  setoid_rewrite elem_of_app. setoid_rewrite list_elem_of_singleton.
  destruct (decide (policy = Some PolicyIgnore)) as [->|Hp].
  - assert (is_Some (DomainGroup_Insert t d' taints !! d) ↔ is_Some (t !! d) ∨ d = d') as Hi
      by apply DomainGroup_Insert_lookup.
    unfold is_Some in Hi. split.
    + intros (g & Hg & _). destruct (proj1 Hi (ex_intro _ g Hg)) as [[x Hx]| ->]; [|eauto 6].
      destruct (proj1 IH) as (tn & ? & ?); [eauto|]. eauto.
    + intros (tn & [Hin|[= -> ->]] & _).
      * destruct (proj2 IH) as (g & Hg & _); [eauto|]. destruct (proj2 Hi) as [g' Hg']; [eauto|]. eauto.
      * destruct (proj2 Hi) as [g' Hg']; [by right|]. eauto.
  - assert (∀ tn, tolerated pod tn = true ↔ ToleratesPod tn pod = []) as Ht.
    { intros tn. unfold tolerated. by destruct (ToleratesPod tn pod). }
    pose proof (DomainGroup_Insert_tolerated t d' taints d pod) as Hi. rewrite Ht in Hi. split.
    + intros (g & Hg & [?|Hx]); [done|]. destruct (proj1 Hi) as [(g' & ? & ?)|[-> ?]]; [eauto| |eauto 6].
      destruct (proj1 IH) as (tn & ? & ?); [eauto|]. eauto.
    + intros (tn & [Hin|[= -> ->]] & [?|Hx]); try done.
      * destruct (proj2 IH) as (g & Hg & [?|Hx']); [eauto|done|].
        destruct (proj2 Hi) as (g' & ? & ?); [eauto|]. eauto.
      * destruct (proj2 Hi) as (g' & ? & ?); [by right|]. eauto.
Qed.

(** ** The state invariant of a group *)

Lemma requirement_In_eq key domain : NewRequirement key OpIn [domain] = Some (requirement_In key domain).
Proof. apply NewRequirement_In. Qed.

(** The empty domains are those with count zero, and no count is near overflow. *)
Record group_inv (t : TopologyGroup) : Prop := {
  inv_empty : ∀ d, d ∈ emptyDomains t ↔ domains t !! d = Some 0%Z;
  inv_count : ∀ d c, domains t !! d = Some c → (0 ≤ c < int32_max - 1)%Z;
}.

(** The operations on the domains of a group; a domain is only recorded while its
    count has room. *)
Inductive group_step : TopologyGroup → TopologyGroup → Prop :=
| step_Record t d : (domain_count t d + 1 < int32_max - 1)%Z → group_step t (TopologyGroup_Record t [d])
| step_Register t ds : group_step t (TopologyGroup_Register t ds)
| step_Unregister t ds : group_step t (TopologyGroup_Unregister t ds)
| step_AddOwner t k : group_step t (AddOwner t k)
| step_RemoveOwner t k : group_step t (RemoveOwner t k).

Lemma domain_count_nonneg t d : group_inv t → (0 ≤ domain_count t d)%Z.
Proof.
  intros Hi. unfold domain_count. destruct (domains t !! d) as [c|] eqn:E; simpl; [|lia].
  apply (inv_count t Hi) in E. lia.
Qed.

Lemma Record1_inv t d :
  group_inv t → (domain_count t d + 1 < int32_max - 1)%Z → group_inv (TopologyGroup_Record t [d]).
Proof.
  intros Hi Hd. pose proof (domain_count_nonneg t d Hi).
  assert (wrap32 (domain_count t d + 1) = domain_count t d + 1)%Z as Hw
    by (apply wrap32_id; unfold int32_max, int32_min in *; lia).
  simpl. split; simpl; rewrite Hw.
  - intros d'. rewrite elem_of_difference, elem_of_singleton, (inv_empty t Hi), lookup_insert.
    case_decide; [|naive_solver]. subst. split; [naive_solver|]. intros [= ?]. lia.
  - intros d' c. rewrite lookup_insert. case_decide; [intros [= <-]; lia|apply (inv_count t Hi)].
Qed.

(** Recording changes the domains only. *)
Lemma Record_domains_only t ds :
  TopologyGroup_Record t ds =
  with_domains t (domains (TopologyGroup_Record t ds)) (emptyDomains (TopologyGroup_Record t ds)).
Proof.
  unfold TopologyGroup_Record. revert t. induction ds as [|d ds IH]; intros t; simpl; [by destruct t|].
  rewrite IH at 1. done.
Qed.

Lemma Record_lookup t ds d : NoDup ds →
  domains (TopologyGroup_Record t ds) !! d =
  if decide (d ∈ ds) then Some (wrap32 (domain_count t d + 1)) else domains t !! d.
Proof.
  unfold TopologyGroup_Record. revert t. induction ds as [|d0 ds IH]; intros t Hnd; simpl; [done|].
  apply NoDup_cons in Hnd as [Hd0 Hnd]. rewrite IH by done. simpl. unfold domain_count at 1; simpl.
  destruct (decide (d ∈ ds)) as [Hin|Hin], (decide (d ∈ d0 :: ds)) as [Hin'|Hin']; try set_solver.
  - rewrite lookup_insert_ne by set_solver. done.
  - apply elem_of_cons in Hin' as [->|?]; [|done]. by rewrite lookup_insert_eq.
  - rewrite lookup_insert_ne by set_solver. done.
Qed.

Lemma Record_inv t ds : NoDup ds → (∀ d, d ∈ ds → (domain_count t d + 1 < int32_max - 1)%Z) →
  group_inv t → group_inv (TopologyGroup_Record t ds).
Proof.
  revert t. induction ds as [|d0 ds IH]; intros t Hnd Hroom Hi; [done|].
  apply NoDup_cons in Hnd as [Hd0 Hnd]. apply (IH (TopologyGroup_Record t [d0])); [done| |].
  - intros d Hd. unfold domain_count; simpl. rewrite lookup_insert_ne by set_solver. apply Hroom. by right.
  - apply Record1_inv; [done|]. apply Hroom. by left.
Qed.

Lemma Register_inv t ds : group_inv t → group_inv (TopologyGroup_Register t ds).
Proof.
  unfold TopologyGroup_Register. revert t. induction ds as [|d ds IH]; intros t Hi; simpl; [done|]. apply IH.
  destruct (domains t !! d) eqn:E; [done|]. split; simpl.
  - intros d'. rewrite elem_of_union, elem_of_singleton, (inv_empty t Hi), lookup_insert. case_decide; naive_solver.
  - intros d' c. rewrite lookup_insert. case_decide; [intros [= <-]; unfold int32_max; lia|apply (inv_count t Hi)].
Qed.

Lemma Unregister_inv t ds : group_inv t → group_inv (TopologyGroup_Unregister t ds).
Proof.
  unfold TopologyGroup_Unregister. revert t. induction ds as [|d ds IH]; intros t Hi; simpl; [done|]. apply IH.
  split; simpl.
  - intros d'. rewrite elem_of_difference, elem_of_singleton, (inv_empty t Hi), lookup_delete_Some. naive_solver.
  - intros d' c [_ Hc]%lookup_delete_Some. by apply (inv_count t Hi) in Hc.
Qed.

Lemma group_step_inv t t' : group_step t t' → group_inv t → group_inv t'.
Proof.
  intros [| | | |] Hi; auto using Record1_inv, Register_inv, Unregister_inv;
  (split; [apply (inv_empty _ Hi)|apply (inv_count _ Hi)]).
Qed.

Lemma NewTopologyGroup_inv ty key pod nss sel skew md tp ap dg t :
  NewTopologyGroup ty key pod nss sel skew md tp ap dg = Some t → group_inv t.
Proof.
  unfold NewTopologyGroup. intros (f & _ & [= <-])%bind_Some. split; simpl.
  - intros d. rewrite lookup_gset_to_gmap_Some. naive_solver.
  - intros d c [_ <-]%lookup_gset_to_gmap_Some. unfold int32_max. lia.
Qed.

(** The index of empty domains never goes stale: from a new group, after any
    sequence of recording, registering and unregistering domains, it holds exactly
    the domains whose count is zero. *)
Theorem emptyDomains_exact ty key pod nss sel skew md tp ap dg t t' :
  NewTopologyGroup ty key pod nss sel skew md tp ap dg = Some t → rtc group_step t t' →
  ∀ d, d ∈ emptyDomains t' ↔ domains t' !! d = Some 0%Z.
Proof.
  intros Hn Hr. apply NewTopologyGroup_inv in Hn. apply inv_empty.
  induction Hr as [|t t1 t2 Hs _ IH]; [done|]. eauto using group_step_inv.
Qed.

(** ** Anti-affinity and affinity *)

Lemma foldl_Insert (test : string → bool) l o :
  let r := foldl (λ o d, if test d then Insert o [d] else o) o l in
  complement r = complement o ∧ gte r = gte o ∧ lte r = lte o ∧
  ∀ d, d ∈ values r ↔ d ∈ values o ∨ (d ∈ l ∧ test d = true).
Proof.
  revert o. induction l as [|x l IH]; intros o; simpl; [set_solver|].
  destruct (IH (if test x then Insert o [x] else o)) as (E1 & E2 & E3 & Hv).
  rewrite E1, E2, E3. clear IH E1 E2 E3.
  split_and!; try (by destruct (test x)). intros d. rewrite Hv, elem_of_cons. clear Hv.
  destruct (test x) eqn:E; simpl.
  - rewrite elem_of_union, elem_of_union, elem_of_singleton, elem_of_empty.
    split; [|intros [?|[[->|?] ?]]; auto]. intros [[?|[->|[]]]|[? ?]]; auto.
  - split; [tauto|]. intros [?|[[->|?] ?]]; [auto|congruence|auto].
Qed.

(** Domains collected into an initially empty requirement. *)
Lemma foldl_Insert_Has (test : string → bool) l key d :
  Has (foldl (λ o d, if test d then Insert o [d] else o) (requirement_DoesNotExist key) l) d = true ↔
  d ∈ l ∧ test d = true.
Proof.
  destruct (foldl_Insert test l (requirement_DoesNotExist key)) as (E1 & E2 & E3 & Hv).
  unfold Has. rewrite E1, E2, E3; simpl. rewrite andb_true_r, bool_decide_eq_true, Hv. set_solver.
Qed.

(** An explicit node requirement lists exactly the values it allows. *)
Lemma In_values r d : requirement_wf r → Operator r = OpIn → d ∈ values r ↔ Has r d = true.
Proof.
  intros (_ & _ & Hc) Ho. unfold Operator in Ho. unfold Has. destruct (complement r).
  - by destruct (_ <? _)%Z.
  - destruct Hc as [-> ->]; [done|]. rewrite withinBounds_none, andb_true_r. by rewrite bool_decide_eq_true.
Qed.

Lemma known_host_Some t nodeDomains h :
  known_host t nodeDomains = Some h ↔ tg_Key t = LabelHostname ∧ values nodeDomains = {[h]}.
Proof.
  unfold known_host, single_value. case_bool_decide; [|naive_solver]. split.
  - destruct (elements (values nodeDomains)) as [|v [|]] eqn:Ev; [done| |done]. intros [= ->]. split; [done|].
    apply set_eq. intros x. by rewrite <-elem_of_elements, Ev, list_elem_of_singleton, elem_of_singleton.
  - intros [_ ->]. by rewrite elements_singleton.
Qed.

Lemma Insert_first_Has key h d : Has (Insert (requirement_DoesNotExist key) [h]) d = true ↔ d = h.
Proof. unfold Has. simpl. rewrite andb_true_r, bool_decide_eq_true. set_solver. Qed.

Lemma DoesNotExist_Has key d : Has (requirement_DoesNotExist key) d = false.
Proof. done. Qed.

Lemma anti_affinity_offers t podDomains nodeDomains d :
  group_inv t → requirement_wf nodeDomains →
  Has (nextDomainAntiAffinity t podDomains nodeDomains) d = true ↔
  match known_host t nodeDomains with
  | Some hostName => d = hostName ∧ domain_count t hostName = 0%Z
  | None => domains t !! d = Some 0%Z ∧ Has podDomains d = true ∧ Has nodeDomains d = true
  end.
Proof.
  intros Hi Hw. unfold nextDomainAntiAffinity. destruct (known_host t nodeDomains) as [h|].
  { destruct (Z.eqb_spec (domain_count t h) 0); [rewrite Insert_first_Has|rewrite DoesNotExist_Has]; naive_solver. }
  rewrite <-(inv_empty t Hi). destruct (bool_decide _ && _) eqn:Ho.
  - apply andb_true_iff in Ho as [Ho%bool_decide_eq_true _].
    rewrite (foldl_Insert_Has (λ d, bool_decide (d ∈ emptyDomains t) && Has podDomains d)).
    rewrite elem_of_iter, (In_values nodeDomains) by done. rewrite andb_true_iff, bool_decide_eq_true. tauto.
  - rewrite (foldl_Insert_Has (λ d, Has nodeDomains d && Has podDomains d)), elem_of_iter, andb_true_iff. tauto.
Qed.

(** Anti-affinity offers exactly the empty domains that both the pod and the
    node allow, whichever of the two loops is the shorter one to run.  For the
    hostname of a node whose name is known, it offers that name exactly when no
    selected pod is on the node, whether or not the name is registered yet. *)
Theorem nextDomainAntiAffinity_spec t podDomains nodeDomains d :
  group_inv t → requirement_wf nodeDomains →
  Has (nextDomainAntiAffinity t podDomains nodeDomains) d = true ↔
  match known_host t nodeDomains with
  | Some hostName => d = hostName ∧ domain_count t hostName = 0%Z
  | None => domains t !! d = Some 0%Z ∧ Has podDomains d = true ∧ Has nodeDomains d = true
  end.
Proof. apply anti_affinity_offers. Qed.

(** A domain that a selected pod is in, and that both the pod and the node allow. *)
Definition occupied (t : TopologyGroup) (podDomains nodeDomains : Requirement) (d : string) : Prop :=
  (∃ c, domains t !! d = Some c ∧ (0 < c)%Z) ∧ Has podDomains d = true ∧ Has nodeDomains d = true.

Lemma all_empty_spec t : group_inv t → size (domains t) = size (emptyDomains t) →
  ∀ d c, domains t !! d = Some c → c = 0%Z.
Proof.
  intros Hi Hs d c Hd. assert (emptyDomains t ≡ dom (domains t)) as He.
  { apply set_subseteq_size_equiv; [|by rewrite size_dom, Hs].
    intros x. rewrite (inv_empty t Hi). intros. by apply elem_of_dom_2 with 0%Z. }
  assert (d ∈ emptyDomains t) as Hx by (rewrite He; by eapply elem_of_dom_2).
  apply (inv_empty t Hi) in Hx. congruence.
Qed.

Lemma anyCompatiblePodDomain_spec t podDomains :
  anyCompatiblePodDomain t podDomains = true ↔
  ∃ d c, domains t !! d = Some c ∧ (0 < c)%Z ∧ Has podDomains d = true.
Proof.
  unfold anyCompatiblePodDomain, domain_count. rewrite existsb_exists. split.
  - intros (d & Hd%list_elem_of_In & [Hp Hc]%andb_true_iff). rewrite elem_of_iter in Hd.
    apply elem_of_dom in Hd as [c Hd]. rewrite Hd in Hc; simpl in Hc. exists d, c. split_and!; [done|lia|done].
  - intros (d & c & Hd & Hc & Hp). exists d. split.
    + apply list_elem_of_In. rewrite elem_of_iter. by eapply elem_of_dom_2.
    + rewrite Hd, Hp. simpl. lia.
Qed.

Lemma may_bootstrap_spec t pod podDomains : group_inv t →
  may_bootstrap t pod podDomains = true ↔
  selects t pod = true ∧ ∀ d c, domains t !! d = Some c → Has podDomains d = true → c = 0%Z.
Proof.
  intros Hi. unfold may_bootstrap. rewrite andb_true_iff, orb_true_iff, negb_true_iff, Nat.eqb_eq.
  split; intros [Hs H]; (split; [done|]).
  - intros d c Hd Hp. destruct H as [H|H]; [by eapply all_empty_spec|].
    destruct (decide (c = 0%Z)); [done|]. pose proof (inv_count t Hi d c Hd).
    assert (anyCompatiblePodDomain t podDomains = true); [|congruence].
    apply anyCompatiblePodDomain_spec. exists d, c. split_and!; [done|lia|done].
  - right. apply not_true_iff_false. rewrite anyCompatiblePodDomain_spec. intros (d & c & Hd & Hc & Hp).
    specialize (H d c Hd Hp). lia.
Qed.

Lemma insert_first_Has test l o d : complement o = false → gte o = None → lte o = None →
  Has (insert_first test l o) d = true ↔ Has o d = true ∨ List.find test l = Some d.
Proof.
  intros E1 E2 E3. unfold insert_first. destruct (List.find test l) as [x|].
  - unfold Has; simpl. rewrite E1, E2, E3; simpl. rewrite !andb_true_r, !bool_decide_eq_true. set_unfold. naive_solver.
  - naive_solver.
Qed.

Lemma find_some_iter n X test d : List.find test (iter n X) = Some d → d ∈ X ∧ test d = true.
Proof. intros [H1 H2]%List.find_some. by rewrite <-list_elem_of_In, elem_of_iter in H1. Qed.

Lemma match_if_ext t podDomains :
  ∀ (o : Requirement) (d : string),
  match domains t !! d with
  | Some count => if Has podDomains d && (count >? 0)%Z then Insert o [d] else o
  | None => o
  end = if match domains t !! d with Some c => Has podDomains d && (c >? 0)%Z | None => false end
        then Insert o [d] else o.
Proof. intros. by destruct (domains t !! d). Qed.

Lemma occupied_domains_plain t podDomains nodeDomains :
  ∃ test l, occupied_domains t podDomains nodeDomains =
    foldl (λ o d, if test d : bool then Insert o [d] else o) (requirement_DoesNotExist (tg_Key t)) l ∧
    (requirement_wf nodeDomains →
     ∀ d, d ∈ l ∧ test d = true ↔ occupied t podDomains nodeDomains d).
Proof.
  unfold occupied_domains, occupied. destruct (bool_decide _) eqn:Ho.
  - apply bool_decide_eq_true in Ho. eexists _, _. split; [apply foldl_ext; intros; apply match_if_ext|].
    intros Hw d. simpl. rewrite elem_of_iter, (In_values nodeDomains) by done.
    destruct (domains t !! d) as [c|]; [rewrite andb_true_iff, Z.gtb_lt|]; naive_solver.
  - eexists _, _. split; [reflexivity|]. intros _ d. simpl.
    rewrite elem_of_iter, elem_of_dom, !andb_true_iff, Z.gtb_lt. unfold domain_count, is_Some.
    destruct (domains t !! d) as [c|]; naive_solver.
Qed.

Lemma occupied_domains_spec t podDomains nodeDomains :
  requirement_wf nodeDomains →
  let r := occupied_domains t podDomains nodeDomains in
  complement r = false ∧ gte r = None ∧ lte r = None ∧
  ∀ d, Has r d = true ↔ occupied t podDomains nodeDomains d.
Proof.
  intros Hw. destruct (occupied_domains_plain t podDomains nodeDomains) as (test & l & -> & Ht). simpl.
  destruct (foldl_Insert test l (requirement_DoesNotExist (tg_Key t))) as (E1 & E2 & E3 & _).
  rewrite E1, E2, E3. split_and!; [done..|]. intros d. by rewrite foldl_Insert_Has, Ht.
Qed.

Lemma Len_zero_iff r : complement r = false → gte r = None → lte r = None →
  (Len r =? 0)%Z = true ↔ ∀ d, Has r d = false.
Proof.
  intros E1 E2 E3. unfold Len, Has. rewrite E1, E2, E3, Z.eqb_eq. simpl.
  setoid_rewrite andb_true_r. setoid_rewrite bool_decide_eq_false. split.
  - intros Hs d Hd. assert (values r ≡ ∅) as He by (apply size_empty_iff; lia). set_solver.
  - intros Hn. assert (values r = ∅) as -> by set_solver. by rewrite size_empty.
Qed.

Lemma find_iter_some n X (test : string → bool) d :
  d ∈ X → test d = true → ∃ d', List.find test (iter n X) = Some d'.
Proof.
  intros Hd Ht. destruct (List.find test (iter n X)) as [d'|] eqn:E; [eauto|].
  eapply List.find_none in E; [by rewrite Ht in E|]. apply list_elem_of_In. by rewrite elem_of_iter.
Qed.

(** Pod affinity.  If selected pods are in domains that both the pod and the node
    allow, those domains are offered, no more and no fewer.  Otherwise only a pod that
    selects itself, with no selected pod anywhere it may go, is offered a domain to
    start with: a known domain the pod allows, whenever there is one.  The
    hostname of a node whose name is known is offered under the same two conditions. *)
Theorem nextDomainAffinity_spec t pod podDomains nodeDomains :
  group_inv t → requirement_wf nodeDomains →
  let offered d := Has (nextDomainAffinity t pod podDomains nodeDomains) d = true in
  let fresh_start := selects t pod = true ∧
    ∀ d c, domains t !! d = Some c → Has podDomains d = true → c = 0%Z in
  match known_host t nodeDomains with
  | Some hostName => ∀ d, offered d ↔
      d = hostName ∧ Has podDomains hostName = true ∧ ((0 < domain_count t hostName)%Z ∨ fresh_start)
  | None =>
      ((∃ d, occupied t podDomains nodeDomains d) → ∀ d, offered d ↔ occupied t podDomains nodeDomains d) ∧
      (¬ (∃ d, occupied t podDomains nodeDomains d) →
        (∀ d, offered d → fresh_start ∧ is_Some (domains t !! d) ∧ Has podDomains d = true) ∧
        (fresh_start → ∀ d, is_Some (domains t !! d) → Has podDomains d = true → ∃ d', offered d'))
  end.
Proof.
  intros Hi Hw offered fresh_start. subst offered fresh_start. unfold nextDomainAffinity.
  pose proof (may_bootstrap_spec t pod podDomains Hi) as Hb. destruct (known_host t nodeDomains) as [h|].
  { intros d. rewrite <-Hb, <-Z.gtb_lt.
    destruct (Has podDomains h), (domain_count t h >? 0)%Z, (may_bootstrap t pod podDomains); simpl;
      rewrite ?Insert_first_Has, ?DoesNotExist_Has; naive_solver. }
  destruct (occupied_domains_spec t podDomains nodeDomains Hw) as (E1 & E2 & E3 & Hocc).
  set (options := occupied_domains t podDomains nodeDomains) in *. clearbody options.
  pose proof (Len_zero_iff options E1 E2 E3) as Hlen. setoid_rewrite <-Hocc.
  destruct (Len options =? 0)%Z; simpl.
  - destruct Hlen as [Hnone _]. specialize (Hnone eq_refl).
    split; [intros [d Hd]; by rewrite Hnone in Hd|]. intros _.
    destruct (may_bootstrap t pod podDomains); [|split; [intros d Hd; by rewrite Hnone in Hd|by intros Hf%Hb]].
    set (o1 := insert_first _ (iter 6 _) _).
    assert (complement o1 = false ∧ gte o1 = None ∧ lte o1 = None) as (F1 & F2 & F3).
    { subst o1. unfold insert_first. by destruct (List.find _ _). }
    split.
    + intros d. rewrite insert_first_Has by done. subst o1. rewrite insert_first_Has by done. rewrite Hnone.
      intros [[[=]|[Hd Hh]%find_some_iter]|[Hd Hh]%find_some_iter]; (split; [by apply Hb|]);
      apply elem_of_dom in Hd; [|done]. rewrite Intersection_allows in Hh. by apply andb_true_iff in Hh as [? _].
    + intros _ d Hd%elem_of_dom Hh. destruct (find_iter_some 7 _ (Has podDomains) d Hd Hh) as [d' Hf].
      exists d'. apply insert_first_Has; auto.
  - destruct Hlen as [_ Hlen]. split; [done|]. intros Hn. exfalso.
    assert (false = true); [|done]. apply Hlen. intros d. destruct (Has options d) eqn:E; [|done]. exfalso. eauto.
Qed.

(** ** Topology spread *)

Section scan.
  Context (t : TopologyGroup) (selfSelecting : bool) (min : Z) (cand : string → option Z).

Definition with_self (c : Z) : Z := if selfSelecting then wrap32 (c + 1) else c.
Definition within_skew (c : Z) : Prop := (wrap32 (with_self c - min) ≤ maxSkew t)%Z.

Definition spread_scan (l : list string) : string * Z * gset string :=
  foldl (λ acc d, match cand d with
                  | Some c => spread_visit t selfSelecting min acc d c
                  | None => acc
                  end) (EmptyString, int32_max, ∅) l.

Definition scan_good (l : list string) (res : string * Z * gset string) : Prop :=
  let '(md, mc, valid) := res in
  (∀ d, d ∈ valid ↔ d ∈ l ∧ ∃ c, cand d = Some c ∧ within_skew c) ∧
  (∀ d c, d ∈ valid → cand d = Some c → (mc ≤ with_self c)%Z) ∧
  (md = EmptyString ∧ mc = int32_max ∨ md ∈ valid ∧ ∃ c, cand md = Some c ∧ mc = with_self c).

Lemma spread_scan_good l :
  (∀ d c, d ∈ l → cand d = Some c → (with_self c < int32_max)%Z) → scan_good l (spread_scan l).
Proof.
  unfold spread_scan. induction l as [|d l IH] using rev_ind; intros Hb.
  { simpl. split_and!; [set_solver|set_solver|by left]. }
  rewrite foldl_snoc. assert (scan_good l (spread_scan l)) as Hg.
  { apply IH. intros d' c Hd'. apply Hb. apply elem_of_app. by left. }
  unfold spread_scan in Hg. destruct (foldl _ _ l) as [[md mc] valid]. destruct Hg as (Hv & Hm & Hs).
  destruct (cand d) as [c|] eqn:Hc; [unfold spread_visit; fold (with_self c)|].
  - destruct (Z.leb_spec (wrap32 (with_self c - min)) (maxSkew t)) as [Hk|Hk].
    + assert (∀ d', d' ∈ valid ∪ {[d]} ↔ d' ∈ l ++ [d] ∧ ∃ c, cand d' = Some c ∧ within_skew c) as Hv'.
      { intros d'. rewrite elem_of_union, elem_of_singleton, elem_of_app, list_elem_of_singleton, Hv.
        unfold within_skew. naive_solver. }
      destruct (Z.ltb_spec (with_self c) mc) as [Hl|Hl]; (split_and!; [exact Hv'|..]).
      * intros d' c' [Hd'| ->%elem_of_singleton]%elem_of_union E; [|assert (c' = c) as -> by congruence; lia].
        specialize (Hm d' c' Hd' E). lia.
      * right. split; [set_solver|eauto].
      * intros d' c' [Hd'| ->%elem_of_singleton]%elem_of_union E; [eauto|assert (c' = c) as -> by congruence; lia].
      * destruct Hs as [?|[? ?]]; [by left|right]. split; [set_solver|done].
    + split_and!; [|done|done]. intros d'. rewrite Hv, elem_of_app, list_elem_of_singleton. split; [naive_solver|].
      intros [[?| ->] (c' & E & Hk')]; [eauto|]. assert (c' = c) as -> by congruence. unfold within_skew in Hk'. lia.
  - split_and!; [|done|done]. intros d'. rewrite Hv, elem_of_app, list_elem_of_singleton. naive_solver.
Qed.
End scan.

(** Bounds under which the [int32] arithmetic of a spread group is exact. *)
Record spread_wf (t : TopologyGroup) : Prop := {
  spread_inv : group_inv t;
  spread_skew : (0 ≤ maxSkew t ≤ int32_max)%Z;
  spread_named : domains t !! EmptyString = None;
  spread_size : (Z.of_nat (size (domains t)) ≤ int32_max)%Z;
}.

Lemma domainMinCount_range t podDomains :
  group_inv t → (0 ≤ domainMinCount t podDomains ≤ int32_max)%Z.
Proof.
  intros Hi. unfold domainMinCount. case_match; [unfold int32_max; lia|].
  set (f := λ '(min, num) domain, _).
  assert (∀ l acc, (0 ≤ acc.1 ≤ int32_max)%Z → (0 ≤ (foldl f acc l).1 ≤ int32_max)%Z) as Hf.
  { intros l. induction l as [|d l IH]; intros [m n] Hm; simpl; [done|]. apply IH. simpl.
    destruct (Has podDomains d); [|done]. simpl. pose proof (domain_count_nonneg t d Hi).
    destruct (Z.ltb_spec (domain_count t d) m); simpl in *; lia. }
  specialize (Hf (iter 0 (dom (domains t))) (int32_max, 0%Z)). destruct (foldl f _ _) as [m n]. simpl in Hf.
  assert (0 ≤ m ≤ int32_max)%Z by (apply Hf; unfold int32_max; lia).
  repeat case_match; unfold int32_max in *; lia.
Qed.

(** The domains the pod may use, with their counts. *)
Definition supported (t : TopologyGroup) (podDomains : Requirement) : gmap string Z :=
  filter (λ kv, Has podDomains kv.1 = true) (domains t).

(** The global minimum of the Kubernetes documentation: the least count of a
    domain the pod may use, but zero if there are fewer such domains than
    minDomains, and zero for hostnames, since a new node can always be created. *)
Definition global_minimum (t : TopologyGroup) (podDomains : Requirement) (m : Z) : Prop :=
  if decide (tg_Key t = LabelHostname ∨ (Z.of_nat (size (supported t podDomains)) < default 0 (minDomains t))%Z)
  then m = 0%Z
  else (∀ d c, supported t podDomains !! d = Some c → m ≤ c)%Z ∧
       ((∃ d, supported t podDomains !! d = Some m) ∨ (supported t podDomains = ∅ ∧ m = int32_max)).

(** The counting loop, for any list of known domains. *)
Lemma min_loop_spec t podDomains l :
  group_inv t → (∀ d, d ∈ l → is_Some (domains t !! d)) → (Z.of_nat (length l) ≤ int32_max)%Z →
  let r := foldl (λ '(min, num) domain,
    if Has podDomains domain
    then let count := domain_count t domain in
         (if (count <? min)%Z then count else min, wrap32 (num + 1))
    else (min, num)) (int32_max, 0%Z) l in
  (∀ d, d ∈ l → Has podDomains d = true → r.1 ≤ domain_count t d)%Z ∧
  ((∃ d, d ∈ l ∧ Has podDomains d = true ∧ domain_count t d = r.1) ∨
   (r.1 = int32_max ∧ ∀ d, d ∈ l → Has podDomains d = false)) ∧
  r.2 = Z.of_nat (length (filter (λ d, Has podDomains d = true) l)).
Proof.
  intros Hi. induction l as [|d l IH] using rev_ind; intros Hl Hlen; simpl.
  { split_and!; [by intros d ?%not_elem_of_nil| |done]. right. split; [done|by intros d ?%not_elem_of_nil]. }
  rewrite length_app in Hlen. simpl in Hlen.
  destruct IH as (Hle & Hm & Hn); [intros; apply Hl, elem_of_app; by left|lia|].
  rewrite foldl_app, filter_app, length_app. simpl. destruct (foldl _ _ _) as [m n]. simpl in *. subst n.
  pose proof (length_filter (λ d, Has podDomains d = true) l) as Hfl.
  destruct (Hl d ltac:(set_solver)) as [c Hc]. pose proof (inv_count t Hi d c Hc) as Hcr.
  assert (domain_count t d = c) as Hdc by (unfold domain_count; by rewrite Hc). rewrite Hdc.
  rewrite filter_cons. destruct (Has podDomains d) eqn:Hd; simpl.
  - rewrite wrap32_id by (unfold int32_max, int32_min in *; lia). split_and!; [| |lia].
    + intros x [Hx| ->%list_elem_of_singleton]%elem_of_app Hp; [specialize (Hle x Hx Hp)|];
        destruct (Z.ltb_spec c m); lia.
    + left. destruct (Z.ltb_spec c m) as [|Hge]; [exists d; set_solver|].
      destruct Hm as [(x & Hx & Hp & He)|[-> _]]; [exists x; set_solver|lia].
  - split_and!; [| |lia].
    + intros x [Hx| ->%list_elem_of_singleton]%elem_of_app Hp; [auto|congruence].
    + destruct Hm as [(x & Hx & Hp & He)|[-> Hn]]; [left; exists x; set_solver|right]. split; [done|].
      intros x [Hx| ->%list_elem_of_singleton]%elem_of_app; auto.
Qed.

Lemma supported_size t podDomains l :
  l ≡ₚ elements (dom (domains t)) →
  length (filter (λ d, Has podDomains d = true) l) = size (supported t podDomains).
Proof.
  intros Hl. rewrite <-size_dom. unfold supported.
  assert (dom (filter (λ kv : string * Z, Has podDomains kv.1 = true) (domains t)) =
    filter (λ d, Has podDomains d = true) (dom (domains t))) as ->.
  { apply set_eq. intros d. rewrite elem_of_filter, !elem_of_dom. unfold is_Some.
    setoid_rewrite map_lookup_filter_Some. naive_solver. }
  rewrite Hl. apply Permutation_length, NoDup_Permutation; [apply NoDup_filter, NoDup_elements|apply NoDup_elements|].
  intros d. rewrite list_elem_of_filter, !elem_of_elements, elem_of_filter. done.
Qed.

Lemma domainMinCount_spec t podDomains : spread_wf t → global_minimum t podDomains (domainMinCount t podDomains).
Proof.
  intros [Hi _ _ Hsz]. unfold global_minimum, domainMinCount. case_bool_decide as Hk; [by rewrite decide_True by auto|].
  pose proof (iter_Permutation 0 (dom (domains t))) as Hp.
  destruct (min_loop_spec t podDomains (iter 0 (dom (domains t)))) as (Hle & Hm & Hn);
    [done|intros d; by rewrite elem_of_iter, elem_of_dom| |].
  { rewrite Hp. by rewrite <-size_dom in Hsz. }
  rewrite (supported_size _ _ _ Hp) in Hn. destruct (foldl _ _ _) as [m n]. simpl in Hle, Hm, Hn. subst n.
  assert (∀ d c, supported t podDomains !! d = Some c ↔ d ∈ iter 0 (dom (domains t)) ∧ Has podDomains d = true ∧
    domain_count t d = c) as Hs.
  { intros d c. unfold supported, domain_count. rewrite map_lookup_filter_Some, elem_of_iter, elem_of_dom. simpl.
    unfold is_Some. destruct (domains t !! d); simpl; naive_solver. }
  assert ((∀ d c, supported t podDomains !! d = Some c → m ≤ c)%Z ∧
    ((∃ d, supported t podDomains !! d = Some m) ∨ (supported t podDomains = ∅ ∧ m = int32_max))) as Hmin.
  { split; [intros d c (? & ? & <-)%Hs; auto|]. destruct Hm as [(d & ? & ? & ?)|[-> Hnone]].
    - left. exists d. by apply Hs.
    - right. split; [|done]. apply map_empty. intros d. apply eq_None_not_Some. intros [c (Hd & Hh & _)%Hs].
      by rewrite Hnone in Hh. }
  destruct (minDomains t) as [k|]; simpl.
  - destruct (Z.ltb_spec (Z.of_nat (size (supported t podDomains))) k); [by rewrite decide_True by auto|].
    rewrite decide_False; [done|intros [?|?]; [done|lia]].
  - rewrite decide_False; [done|intros [?|?]; [done|lia]].
Qed.

(** The domains where placing the pod keeps the skew: the count including the pod
    itself exceeds the global minimum by at most the maximum skew. *)
Definition eligible (t : TopologyGroup) (pod : Pod) (min : Z) (nodeDomains : Requirement) (d : string) : Prop :=
  ∃ c, domains t !! d = Some c ∧ Has nodeDomains d = true ∧
    (c + (if selects t pod then 1 else 0) - min ≤ maxSkew t)%Z.

Lemma within_skew_exact t self m c :
  (0 ≤ m ≤ int32_max)%Z → (0 ≤ c < int32_max - 1)%Z →
  with_self self c = (c + if self then 1 else 0)%Z ∧
  (within_skew t self m c ↔ (c + (if self then 1 else 0) - m ≤ maxSkew t)%Z).
Proof.
  intros Hm Hc. assert (with_self self c = c + if self then 1 else 0)%Z as E.
  { unfold with_self. destruct self; [apply wrap32_id; unfold int32_min, int32_max in *; lia|lia]. }
  split; [done|]. unfold within_skew. rewrite E, wrap32_id; [done|]. unfold int32_min, int32_max in *. destruct self; lia.
Qed.

(** Both loops of the source are one scan, over the same candidates. *)
Lemma spread_loops t pod podDomains nodeDomains :
  requirement_wf nodeDomains →
  let self := selects t pod in
  let min := domainMinCount t podDomains in
  ∃ cand l,
    (if bool_decide (Operator nodeDomains = OpIn)
     then foldl (λ acc domain, match domains t !! domain with
                               | Some count => spread_visit t self min acc domain count
                               | None => acc
                               end) (EmptyString, int32_max, ∅) (iter 1 (values nodeDomains))
     else foldl (λ acc domain, if Has nodeDomains domain
                               then spread_visit t self min acc domain (domain_count t domain)
                               else acc) (EmptyString, int32_max, ∅) (iter 2 (dom (domains t))))
    = spread_scan t self min cand l ∧
    (∀ d c, d ∈ l ∧ cand d = Some c ↔ domains t !! d = Some c ∧ Has nodeDomains d = true).
Proof.
  intros Hw self min. destruct (bool_decide _) eqn:Ho.
  - apply bool_decide_eq_true in Ho. exists (λ d, domains t !! d), (iter 1 (values nodeDomains)). split; [done|].
    intros d c. rewrite elem_of_iter, (In_values nodeDomains) by done. tauto.
  - exists (λ d, if Has nodeDomains d then Some (domain_count t d) else None), (iter 2 (dom (domains t))). split.
    + apply foldl_ext. intros acc d _. by destruct (Has nodeDomains d).
    + intros d c. rewrite elem_of_iter, elem_of_dom. unfold domain_count, is_Some.
      destruct (domains t !! d), (Has nodeDomains d); naive_solver.
Qed.

Lemma spread_offers t pod podDomains nodeDomains :
  spread_wf t → requirement_wf nodeDomains → known_host t nodeDomains = None →
  let '(req, valid) := nextDomainTopologySpread t pod podDomains nodeDomains in
  (∀ d, d ∈ valid ↔ eligible t pod (domainMinCount t podDomains) nodeDomains d) ∧
  ((valid = ∅ ∧ req = requirement_DoesNotExist (tg_Key t)) ∨
   ∃ d, d ∈ valid ∧ req = requirement_In (tg_Key t) d ∧
     ∀ d', d' ∈ valid → (domain_count t d ≤ domain_count t d')%Z).
Proof.
  intros [Hi Hsk Hne _] Hw Hk. unfold nextDomainTopologySpread. rewrite Hk.
  destruct (spread_loops t pod podDomains nodeDomains Hw) as (cand & l & -> & Hcand).
  pose proof (domainMinCount_range t podDomains Hi) as Hm.
  assert (∀ d c, d ∈ l ∧ cand d = Some c → (0 ≤ c < int32_max - 1)%Z) as Hr.
  { intros d c [Hd _]%Hcand. by apply (inv_count t Hi) in Hd. }
  assert (scan_good t (selects t pod) (domainMinCount t podDomains) cand l
    (spread_scan t (selects t pod) (domainMinCount t podDomains) cand l)) as Hg.
  { apply spread_scan_good. intros d c Hl Hd. specialize (Hr d c (conj Hl Hd)).
    destruct (within_skew_exact t (selects t pod) _ c Hm Hr) as [-> _]. destruct (selects t pod); lia. }
  destruct (spread_scan _ _ _ _ _) as [[md mc] valid]. destruct Hg as (Hv & Hmin & Hs).
  assert (∀ d, d ∈ valid ↔ eligible t pod (domainMinCount t podDomains) nodeDomains d) as Hval.
  { intros d. rewrite Hv. unfold eligible. split.
    - intros (Hl & c & Hd & Hk'). exists c. pose proof (Hr d c (conj Hl Hd)) as Hc.
      apply (within_skew_exact t (selects t pod) _ c Hm Hc) in Hk'. by destruct (proj1 (Hcand d c) (conj Hl Hd)).
    - intros (c & Hd & Hh & Hk'). destruct (proj2 (Hcand d c)) as [Hl Hx]; [done|]. split; [done|]. exists c.
      split; [done|]. by apply (within_skew_exact t (selects t pod) _ c Hm (Hr d c (conj Hl Hx))). }
  assert (∀ d, d ∈ valid → ∃ c, d ∈ l ∧ cand d = Some c ∧ domains t !! d = Some c ∧
    with_self (selects t pod) c = (c + if selects t pod then 1 else 0)%Z) as Hvc.
  { intros d (Hl & c & Hd & _)%Hv. exists c. destruct (proj1 (Hcand d c) (conj Hl Hd)) as [Hx _].
    split_and!; [done..|]. by apply (within_skew_exact t _ _ c Hm (Hr d c (conj Hl Hd))). }
  destruct Hs as [[-> ->]|[Hmd (c & Hc & ->)]].
  - rewrite bool_decide_eq_true_2 by done. split; [done|]. left. split; [|done].
    apply set_eq. intros d. split; [|set_solver]. intros Hd. destruct (Hvc d Hd) as (c & Hl & Hd' & _ & Hc).
    pose proof (Hmin d c Hd Hd') as Hle. pose proof (Hr d c (conj Hl Hd')). rewrite Hc in Hle.
    destruct (selects t pod); lia.
  - destruct (Hvc md Hmd) as (c0 & Hl0 & Hc0 & Hd0 & He0). assert (c0 = c) as -> by congruence.
    rewrite bool_decide_eq_false_2 by (intros ->; congruence). split; [done|]. right. exists md.
    split_and!; [done..|]. intros d' Hd'. destruct (Hvc d' Hd') as (c' & _ & Hc' & Hx' & He').
    unfold domain_count. rewrite Hd0, Hx'; simpl. specialize (Hmin d' c' Hd' Hc'). lia.
Qed.

Lemma spread_offers_host t pod podDomains nodeDomains hostName :
  spread_wf t → known_host t nodeDomains = Some hostName →
  nextDomainTopologySpread t pod podDomains nodeDomains =
    if decide (domain_count t hostName + (if selects t pod then 1 else 0) ≤ maxSkew t)%Z
    then (requirement_In (tg_Key t) hostName, {[hostName]})
    else (requirement_DoesNotExist (tg_Key t), ∅).
Proof.
  intros [Hi _ _ _] Hk. unfold nextDomainTopologySpread. rewrite Hk.
  assert (0 ≤ domain_count t hostName < int32_max - 1)%Z as Hc.
  { unfold domain_count. destruct (domains t !! hostName) as [c|] eqn:E; simpl; [by apply (inv_count t Hi) in E|].
    unfold int32_max. lia. }
  replace (if selects t pod then wrap32 (domain_count t hostName + 1) else domain_count t hostName)
    with (domain_count t hostName + (if selects t pod then 1 else 0))%Z.
  2: { destruct (selects t pod); [|lia]. rewrite wrap32_id; [done|]. unfold int32_max, int32_min in *. lia. }
  case_decide as Hd; [apply Z.leb_le in Hd|apply Z.leb_nle in Hd]; by rewrite Hd.
Qed.

(** Topology spread.  The valid domains are exactly those the node allows where
    the pod fits within the maximum skew of the global minimum (both iteration
    strategies agree), and if there are any, the requirement selects one of least
    count.  The hostname of a node whose name is known is offered exactly when the pod
    fits there within the maximum skew, registered or not. *)
Theorem nextDomainTopologySpread_spec t pod podDomains nodeDomains :
  spread_wf t → requirement_wf nodeDomains →
  let '(req, valid) := nextDomainTopologySpread t pod podDomains nodeDomains in
  match known_host t nodeDomains with
  | Some hostName =>
      (req, valid) = if decide (domain_count t hostName + (if selects t pod then 1 else 0) ≤ maxSkew t)%Z
                     then (requirement_In (tg_Key t) hostName, {[hostName]})
                     else (requirement_DoesNotExist (tg_Key t), ∅)
  | None =>
      ∃ min, global_minimum t podDomains min ∧
        (∀ d, d ∈ valid ↔ eligible t pod min nodeDomains d) ∧
        ((valid = ∅ ∧ req = requirement_DoesNotExist (tg_Key t)) ∨
         ∃ d, d ∈ valid ∧ req = requirement_In (tg_Key t) d ∧
           ∀ d', d' ∈ valid → (domain_count t d ≤ domain_count t d')%Z)
  end.
Proof.
  intros Hwf Hw. destruct (known_host t nodeDomains) as [h|] eqn:Hk.
  - rewrite (spread_offers_host _ _ _ _ _ Hwf Hk). by case_decide.
  - pose proof (spread_offers t pod podDomains nodeDomains Hwf Hw Hk) as Ho.
    destruct (nextDomainTopologySpread _ _ _ _). eexists. split; [by apply domainMinCount_spec|done].
Qed.

(** The loop of [domainMinCount] over two groups with the same domains. *)
Lemma min_loop_mono t t' podDomains l m m' n :
  (∀ d, (domain_count t d ≤ domain_count t' d)%Z) → (m ≤ m')%Z →
  let f t := λ '(min, num) domain,
    if Has podDomains domain
    then let count := domain_count t domain in
         (if (count <? min)%Z then count else min, wrap32 (num + 1))
    else (min, num) in
  ((foldl (f t) (m, n) l).1 ≤ (foldl (f t') (m', n) l).1)%Z ∧ (foldl (f t) (m, n) l).2 = (foldl (f t') (m', n) l).2.
Proof.
  intros Hle Hm f. revert m m' n Hm. induction l as [|d l IH]; intros m m' n Hm; simpl; [done|].
  destruct (Has podDomains d); [|by apply IH]. apply IH. specialize (Hle d).
  destruct (Z.ltb_spec (domain_count t d) m), (Z.ltb_spec (domain_count t' d) m'); lia.
Qed.

Lemma domainMinCount_mono t t' podDomains :
  group_inv t' → tg_Key t' = tg_Key t → minDomains t' = minDomains t → dom (domains t') = dom (domains t) →
  (∀ d, (domain_count t d ≤ domain_count t' d)%Z) →
  (domainMinCount t podDomains ≤ domainMinCount t' podDomains)%Z.
Proof.
  intros Hi Hk Hmd Hdom Hle. pose proof (domainMinCount_range t' podDomains Hi) as Hr. revert Hr.
  unfold domainMinCount. rewrite Hk, Hmd, Hdom. case_match; [lia|].
  destruct (min_loop_mono t t' podDomains (iter 0 (dom (domains t))) int32_max int32_max 0 Hle) as [H1 H2]; [done|].
  destruct (foldl _ _ _) as [m n] in *; destruct (foldl _ _ _) as [m' n'] in *. simpl in *. subst n'.
  repeat case_match; lia.
Qed.

(** Every domain the pod may use is within the maximum skew of the global minimum. *)
Definition skew_ok (podDomains : Requirement) (t : TopologyGroup) : Prop :=
  ∀ d c, domains t !! d = Some c → Has podDomains d = true →
    (c - domainMinCount t podDomains ≤ maxSkew t)%Z.

(** Placing one of the pods the spread constraint selects in a domain it is offered. *)
Inductive place (podDomains : Requirement) : TopologyGroup → TopologyGroup → Prop :=
| placed t pod nodeDomains d :
    spread_wf t → requirement_wf nodeDomains → selects t pod = true →
    (domain_count t d + 1 < int32_max - 1)%Z →
    d ∈ (nextDomainTopologySpread t pod podDomains nodeDomains).2 →
    place podDomains t (TopologyGroup_Record t [d]).

(** An offered domain is within the skew of the minimum, the pod itself counted. *)
Lemma offered_within_skew t pod podDomains nodeDomains d :
  spread_wf t → requirement_wf nodeDomains →
  d ∈ (nextDomainTopologySpread t pod podDomains nodeDomains).2 →
  (domain_count t d + (if selects t pod then 1 else 0) - domainMinCount t podDomains ≤ maxSkew t)%Z ∧
  (tg_Key t = LabelHostname ∨ is_Some (domains t !! d)).
Proof.
  intros Hwf Hw. destruct (known_host t nodeDomains) as [h|] eqn:Hk.
  - rewrite (spread_offers_host _ _ _ _ _ Hwf Hk). apply known_host_Some in Hk as [Hk _].
    case_decide; simpl; [|set_solver]. intros ->%elem_of_singleton. split; [|by left].
    unfold domainMinCount. rewrite bool_decide_eq_true_2 by done. lia.
  - pose proof (spread_offers t pod podDomains nodeDomains Hwf Hw Hk) as Hs.
    destruct (nextDomainTopologySpread _ _ _ _) as [req valid]. destruct Hs as [Hv _].
    intros (c & Hd & _ & Hsk)%Hv. unfold domain_count. rewrite Hd. eauto.
Qed.

Lemma place_skew_ok podDomains t t' : place podDomains t t' → skew_ok podDomains t → skew_ok podDomains t'.
Proof.
  intros [t0 pod nodeDomains d Hwf Hw Hself Hroom Hd] Hs.
  apply (offered_within_skew _ _ _ _ _ Hwf Hw) in Hd as [Hsk Hreg]. rewrite Hself in Hsk.
  pose proof (Record1_inv t0 d (spread_inv t0 Hwf) Hroom) as Hi'.
  assert (wrap32 (domain_count t0 d + 1) = domain_count t0 d + 1)%Z as Hwr.
  { pose proof (domain_count_nonneg t0 d (spread_inv t0 Hwf)). apply wrap32_id. unfold int32_max, int32_min in *. lia. }
  assert (domainMinCount t0 podDomains ≤ domainMinCount (TopologyGroup_Record t0 [d]) podDomains)%Z as Hmono.
  { destruct Hreg as [Hk|Hreg]; [unfold domainMinCount; simpl; rewrite bool_decide_eq_true_2 by done; done|].
    apply domainMinCount_mono; [done..| |].
    - simpl. rewrite dom_insert_L. apply elem_of_dom in Hreg. set_solver.
    - intros d'. unfold domain_count at 2. simpl. rewrite lookup_insert, Hwr.
      case_decide; [subst; simpl; lia|unfold domain_count; lia]. }
  intros d' c'. simpl in *. rewrite Hwr in *. rewrite lookup_insert. case_decide as E; [subst d'|].
  - intros [= <-] _. lia.
  - intros Hd' Hp. specialize (Hs d' c' Hd' Hp). lia.
Qed.

(** C11: spreading keeps the skew: if the counts of the domains the pods may use are
    within the maximum skew, they stay so however many of the pods are placed, in
    whichever of the offered domains. *)
Theorem spread_keeps_skew podDomains t t' :
  rtc (place podDomains) t t' → skew_ok podDomains t → skew_ok podDomains t'.
Proof. induction 1 as [|t t1 t2 Hp _ IH]; eauto using place_skew_ok. Qed.

Lemma NewTopologyGroup_total ty key pod nss sel skew minDoms taintPolicy affinityPolicy g :
  pod_valid pod = true ∨ ty ≠ TopologyTypeSpread →
  is_Some (NewTopologyGroup ty key pod nss sel skew minDoms taintPolicy affinityPolicy g).
Proof.
  unfold NewTopologyGroup. case_bool_decide; intros [Hv|]; try done; try (by eexists).
  destruct (MakeTopologyNodeFilter_total pod (default PolicyIgnore taintPolicy) (default PolicyHonor affinityPolicy) Hv)
    as [f ->]. by eexists.
Qed.
End group.

(** ** Starting a new affinity group *)

(** An order in which the last loop of [nextDomainAffinity] runs backwards. *)
Program Definition backwards_order : IterationOrder := {|
  iter n X := if (n =? 7)%nat then reverse (elements X) else elements X;
|}.
Next Obligation. intros n X. simpl. destruct (n =? 7)%nat; [by rewrite reverse_Permutation|done]. Qed.

Definition everything : Selector := λ _, true.

Definition two_zones : TopologyGroup :=
  mkTopologyGroup "topology.kubernetes.io/zone" TopologyTypePodAffinity int32_max None {["default"]} everything
    None no_filter ∅ {["zone-a" := 0%Z; "zone-b" := 0%Z]} {["zone-a"; "zone-b"]}.

Definition plain_pod (name : string) : Pod :=
  mkPod "default" name name ∅ ∅ 0 ∅ None [] [] [] None EmptyString
    (mkPodStatus PodPending [] EmptyString None) None [] [] [] [].

(** The comment in [nextDomainAffinity] says that a random viable domain is used
    only "if there are no node domains"; the loop runs always, so a pod that starts
    an affinity group can be offered two domains at once although the first
    loop already chose one that the node allows. *)
Theorem bootstrap_offers_two_domains :
  let _ := default_registry in
  ∃ order : IterationOrder,
    let any := simple_requirement (tg_Key two_zones) OpExists None in
    let r := nextDomainAffinity two_zones (plain_pod "first") any any in
    Has r "zone-a" = true ∧ Has r "zone-b" = true.
Proof. exists backwards_order. vm_compute. done. Qed.
