(* ===== verification/Topology.v ===== *)
(** * Topology: the topology constraints of a scheduling run
    (pkg/controllers/provisioning/scheduling/topology.go)

    [Topology] keeps one group per distinct constraint, shared by the pods that
    have it, and a second map of "inverse" groups for the anti-affinity of pods
    towards others.  The API server is the interface [KubeReader]. *)

From S2P Require Import Prelude Labels Requirement Objects Requirements Taints InstanceTypes PodState TopologyGroup.

Inductive PreferencePolicy := PreferencePolicyRespect | PreferencePolicyIgnore.

#[export] Instance PreferencePolicy_eq_dec : EqDecision PreferencePolicy.
Proof. solve_decision. Defined.

(** The reads of the API server; a node that is not found is [Ok None]. *)
Class KubeReader (E : Type) := {
  ListPods : string → Selector → result E (list Pod);
  ListNamespaces : Selector → result E (list string);
  GetNode : string → result E (option Node);
  GetNode_name : ∀ name node, GetNode name = Ok (Some node) → node_Name node = name;
}.

(** A [state.StateNode] as the topology reads it: its node and its [Labels()]. *)
Record StateNodeView := mkStateNodeView {
  sn_Node : option Node;
  sn_Labels : gmap string string;
}.

(** The template of a NodePool, as the domain groups read it. *)
Record NodePoolTemplate := mkNodePoolTemplate {
  np_Name : string;
  np_Requirements : list NodeSelectorRequirementWithMinValues;
  np_Labels : gmap string string;
  np_Taints : list Taint;
}.

(** An error of the API server, a selector that does not parse, an unsatisfiable
    constraint, or a run-time panic. *)
Inductive topology_error (E : Type) :=
| KubeError (e : E)
| SelectorError
| TopologyUnsatisfiable (ty : TopologyType) (key : string) (podDomains nodeDomains : Requirement)
| Panic.
Arguments KubeError {E} e.
Arguments SelectorError {E}.
Arguments TopologyUnsatisfiable {E} ty key podDomains nodeDomains.
Arguments Panic {E}.

Record Topology := mkTopology {
  preferencePolicy : PreferencePolicy;
  topologyGroups : gmap Z TopologyGroup;
  inverseTopologyGroups : gmap Z TopologyGroup;
  domainGroups : gmap string TopologyDomainGroup;
  excludedPods : gset string;
}.

Definition with_groups (t : Topology) (gs : gmap Z TopologyGroup) : Topology :=
  mkTopology (preferencePolicy t) gs (inverseTopologyGroups t) (domainGroups t) (excludedPods t).

Definition with_inverse (t : Topology) (gs : gmap Z TopologyGroup) : Topology :=
  mkTopology (preferencePolicy t) (topologyGroups t) gs (domainGroups t) (excludedPods t).

(** A loop over [l] that stops at the first error; the state keeps what was done. *)
Fixpoint run {S X E} (f : S → X → S * option E) (s : S) (l : list X) : S * option E :=
  match l with
  | [] => (s, None)
  | x :: l => match f s x with
              | (s', None) => run f s' l
              | (s', Some e) => (s', Some e)
              end
  end.

Definition mapOperator (op : LabelSelectorOperator) : SelectionOperator := SelectionOp op.

Definition Everything : Selector := λ _, true.
Definition Nothing : Selector := λ _, false.

Definition IgnoredForTopology (p : Pod) : bool := negb (IsScheduled p) || IsTerminal p || IsTerminating p.

Definition group_of (t : Topology) (key : string) : TopologyDomainGroup := default ∅ (domainGroups t !! key).

Section topology.
  Context `{LR : LabelRegistry} `{TA : TaintApi} `{SA : SelectorApi} `{IO : IterationOrder} `{HA : HashApi}.

(** [selector.Add] for each compiled requirement; one that fails selects nothing. *)
Fixpoint add_selectors (selector : Selector) (reqs : list (option Selector)) : Selector :=
  match reqs with
  | [] => selector
  | None :: _ => Nothing
  | Some r :: reqs => add_selectors (λ l, selector l && r l) reqs
  end.

(** The selector of the list options; the namespace is passed on as it is. *)
Definition TopologyListOptions (labelSelector : option LabelSelector) : Selector :=
  match labelSelector with
  | None => Everything
  | Some s =>
      add_selectors Everything
        (((λ kv : string * string, labels_NewRequirement kv.1 SelectionEquals [kv.2]) <$> map_to_list (MatchLabels s)) ++
         ((λ e, labels_NewRequirement (lsr_Key e) (mapOperator (lsr_Operator e)) (lsr_Values e)) <$> MatchExpressions s))
  end.

(** Insert a NodePool's domains for each of the given requirements. *)
Definition insert_domains (groups : gmap string TopologyDomainGroup) (key : string) (domains : list string)
    (taints : list Taint) : gmap string TopologyDomainGroup :=
  let group := default NewTopologyDomainGroup (groups !! key) in
  <[key := foldl (λ g domain, DomainGroup_Insert g domain taints) group domains]> groups.

Definition buildDomainGroups (nodePools : list NodePoolTemplate) (instanceTypes : gmap string (list InstanceType))
    : option (gmap string TopologyDomainGroup) :=
  foldl_opt (λ groups '(npName, its),
    np ← last (filter (λ np, np_Name np = npName) nodePools);
    base ← NewNodeSelectorRequirementsWithMinValues (np_Requirements np);
    let base := Add base (Values (NewLabelRequirements (np_Labels np))) in
    let groups := foldl (λ groups it,
      foldl (λ groups '(topologyKey, requirement),
        insert_domains groups topologyKey (elements (values requirement)) (np_Taints np))
        groups (map_to_list (Add base (Values (it_Requirements it))))) groups its in
    Some (foldl (λ groups '(key, requirement),
      if bool_decide (Operator requirement = OpIn)
      then insert_domains groups key (elements (values requirement)) (np_Taints np) else groups)
      groups (map_to_list base))) ∅ (map_to_list instanceTypes).

(** The matchLabelKeys requirements are added to a copy of the selector; adding one
    to a nil selector dereferences a nil pointer. *)
Definition spread_selector (p : Pod) (tsc : TopologySpreadConstraint) : option (option LabelSelector) :=
  let extra := omap (λ key, (λ value, mkLSR key SelIn [value]) <$> (pod_Labels p !! key)) (MatchLabelKeys tsc) in
  match extra, tsc_LabelSelector tsc with
  | [], sel => Some sel
  | _, None => None
  | _, Some sel => Some (Some (mkLabelSelector (MatchLabels sel) (MatchExpressions sel ++ extra)))
  end.

Definition newForTopologies (t : Topology) (p : Pod) : option (list TopologyGroup) :=
  mapM (λ tsc,
    selector ← spread_selector p tsc;
    NewTopologyGroup TopologyTypeSpread (TopologyKey tsc) p {[pod_Namespace p]} selector (MaxSkew tsc)
      (MinDomains tsc) (NodeTaintsPolicy tsc) (NodeAffinityPolicy tsc) (group_of t (TopologyKey tsc)))
    (filter (λ tsc, ¬ (preferencePolicy t = PreferencePolicyIgnore ∧ WhenUnsatisfiable tsc ≠ DoNotSchedule))
       (pod_TopologySpreadConstraints p)).

Definition getMatchingTopologies (t : Topology) (p : Pod) (taints : list Taint) (requirements : Requirements)
    (allowUndefined : gset string) : list TopologyGroup :=
  filter (λ tg, IsOwnedBy tg (pod_UID p) = true) (map_to_list (topologyGroups t)).*2 ++
  filter (λ tg, Counts tg p taints requirements allowUndefined = true) (map_to_list (inverseTopologyGroups t)).*2.

(** The domains of a key that requirements allow: all, if the key is absent. *)
Definition domains_for (requirements : Requirements) (key : string) : Requirement :=
  if Requirements_Has requirements key then Get requirements key else simple_requirement key OpExists None.

Definition AddRequirements {E} (t : Topology) (p : Pod) (taints : list Taint)
    (podRequirements nodeRequirements : Requirements) (allowUndefined : gset string)
    : result (topology_error E) Requirements :=
  foldl (λ acc tg,
    requirements ← acc;
    let podDomains := domains_for podRequirements (tg_Key tg) in
    let nodeDomains := domains_for nodeRequirements (tg_Key tg) in
    let domains := (TopologyGroup_Get tg p podDomains nodeDomains).1 in
    if (Len domains =? 0)%Z
    then Err (TopologyUnsatisfiable (tg_Type tg) (tg_Key tg) podDomains nodeDomains)
    else Ok (Add requirements [domains]))
    (Ok (NewRequirements (Values nodeRequirements)))
    (getMatchingTopologies t p taints nodeRequirements allowUndefined).

(** [None] for an unsatisfiable constraint; [Some None] when no constraint is on zones. *)
Definition GetTopologyZoneConstraints (t : Topology) (p : Pod) (podRequirements : Requirements)
    : option (option (gset string)) :=
  foldl_opt (λ result tg,
    if negb (IsOwnedBy tg (pod_UID p)) || negb (bool_decide (tg_Key tg = LabelTopologyZone)) then Some result
    else
      let validDomains := (TopologyGroup_Get tg p (domains_for podRequirements (tg_Key tg))
                             (simple_requirement (tg_Key tg) OpExists None)).2 in
      if bool_decide (validDomains = ∅) then None
      else match result with
           | None => Some (Some validDomains)
           | Some zones => Some (Some (filter (λ z, z ∈ validDomains) zones))
           end) None (map_to_list (topologyGroups t)).*2.

(** What a pod adds to a group that counts it: its only domain, or for anti-affinity
    every domain it could land in. *)
Definition recorded_domains (tg : TopologyGroup) (requirements : Requirements) : list string :=
  let domains := Get requirements (tg_Key tg) in
  if bool_decide (tg_Type tg = TopologyTypePodAntiAffinity) then elements (values domains)
  else if (Len domains =? 1)%Z then take 1 (elements (values domains)) else [].

Definition Topology_Record (t : Topology) (p : Pod) (taints : list Taint) (requirements : Requirements)
    (allowUndefined : gset string) : Topology :=
  let groups := (λ tg, if Counts tg p taints requirements allowUndefined
                       then TopologyGroup_Record tg (recorded_domains tg requirements) else tg) <$> topologyGroups t in
  let inverse := (λ tg, if IsOwnedBy tg (pod_UID p)
                        then TopologyGroup_Record tg (elements (values (Get requirements (tg_Key tg)))) else tg)
                 <$> inverseTopologyGroups t in
  with_inverse (with_groups t groups) inverse.

Definition Topology_Register (t : Topology) (topologyKey domain : string) : Topology :=
  let register tg := if bool_decide (tg_Key tg = topologyKey) then TopologyGroup_Register tg [domain] else tg in
  with_inverse (with_groups t (register <$> topologyGroups t)) (register <$> inverseTopologyGroups t).

Definition Topology_Unregister (t : Topology) (topologyKey domain : string) : Topology :=
  let unregister tg := if bool_decide (tg_Key tg = topologyKey) then TopologyGroup_Unregister tg [domain] else tg in
  with_inverse (with_groups t (unregister <$> topologyGroups t)) (unregister <$> inverseTopologyGroups t).

(** ** Adding requirements *)

Definition offered_domains (p : Pod) (podRequirements nodeRequirements : Requirements) (tg : TopologyGroup)
    : Requirement :=
  (TopologyGroup_Get tg p (domains_for podRequirements (tg_Key tg)) (domains_for nodeRequirements (tg_Key tg))).1.

(** The loop adds what every matching group offers, or fails if one offers nothing. *)
Lemma AddRequirements_Ok {E} t p taints podReqs nodeReqs au reqs :
  AddRequirements (E := E) t p taints podReqs nodeReqs au = Ok reqs ↔
  (∀ tg, tg ∈ getMatchingTopologies t p taints nodeReqs au → (Len (offered_domains p podReqs nodeReqs tg) ≠ 0)%Z) ∧
  reqs = Add (NewRequirements (Values nodeReqs))
           (offered_domains p podReqs nodeReqs <$> getMatchingTopologies t p taints nodeReqs au).
Proof.
  unfold AddRequirements. generalize (NewRequirements (Values nodeReqs)) as r0.
  generalize (getMatchingTopologies t p taints nodeReqs au) as l. intros l.
  set (f := λ (acc : result (topology_error E) Requirements) tg, _).
  assert (∀ l e, foldl f (Err e) l = Err e) as Herr by (intros l'; induction l'; intros; simpl; auto).
  induction l as [|tg l IH]; intros r0; csimpl.
  { split; [by intros [= <-]; split; [intros ? ?%not_elem_of_nil|]|by intros [_ ->]]. }
  fold (offered_domains p podReqs nodeReqs tg).
  destruct (Z.eqb_spec (Len (offered_domains p podReqs nodeReqs tg)) 0) as [H0|H0].
  - rewrite Herr. split; [done|]. intros [Hl _]. exfalso. apply (Hl tg); [by left|done].
  - rewrite IH. split; intros [Hl ->]; (split; [|done]); intros tg' Htg'; [|apply Hl; by right].
    apply elem_of_cons in Htg' as [->|?]; auto.
Qed.

Lemma requirement_In_Key key d : Key (requirement_In key d) = normalize_key key.
Proof. done. Qed.

Lemma foldl_Insert_Key (f : Requirement → string → Requirement) l o :
  (∀ o d, Key (f o d) = Key o) → Key (foldl f o l) = Key o.
Proof. intros Hf. revert o. induction l as [|x l IH]; intros o; simpl; [done|]. by rewrite IH, Hf. Qed.

Lemma TopologyGroup_Get_Key tg p podDomains nodeDomains :
  Key (TopologyGroup_Get tg p podDomains nodeDomains).1 = normalize_key (tg_Key tg).
Proof.
  unfold TopologyGroup_Get. destruct (tg_Type tg); simpl.
  - unfold nextDomainTopologySpread. by repeat case_match.
  - assert (Key (occupied_domains tg podDomains nodeDomains) = normalize_key (tg_Key tg)) as Hk.
    { unfold occupied_domains. destruct (bool_decide (Operator nodeDomains = OpIn)); apply foldl_Insert_Key;
      intros; by repeat case_match. }
    unfold nextDomainAffinity, insert_first. repeat case_match; simpl; congruence.
  - unfold nextDomainAntiAffinity.
    destruct (known_host tg nodeDomains); [by destruct (_ =? _)%Z|].
    destruct (_ && _); apply foldl_Insert_Key; intros; by repeat case_match.
Qed.

Lemma offered_Key p podReqs nodeReqs tg : Key (offered_domains p podReqs nodeReqs tg) = normalize_key (tg_Key tg).
Proof. apply TopologyGroup_Get_Key. Qed.

Lemma offered_key_normal `{!StableRegistry} p podReqs nodeReqs tg : key_normal (offered_domains p podReqs nodeReqs tg).
Proof.
  unfold key_normal. rewrite offered_Key. apply normalize_key_idemp.
Qed.

(** What a group offers is a plain list of domains. *)
Definition plain_requirement (r : Requirement) : Prop := complement r = false ∧ gte r = None ∧ lte r = None.

Lemma plain_requirement_wf r : plain_requirement r → requirement_wf r.
Proof. intros (E1 & E2 & E3). unfold requirement_wf, bounds_wf. rewrite E2, E3. by split_and!. Qed.

Lemma foldl_plain (f : Requirement → string → Requirement) l o :
  (∀ o d, plain_requirement o → plain_requirement (f o d)) → plain_requirement o → plain_requirement (foldl f o l).
Proof. intros Hf. revert o. induction l as [|x l IH]; intros o Ho; simpl; auto. Qed.

Lemma TopologyGroup_Get_plain tg p podDomains nodeDomains :
  plain_requirement (TopologyGroup_Get tg p podDomains nodeDomains).1.
Proof.
  unfold TopologyGroup_Get. destruct (tg_Type tg); simpl.
  - unfold nextDomainTopologySpread. by repeat case_match.
  - assert (plain_requirement (occupied_domains tg podDomains nodeDomains)) as Hk.
    { unfold occupied_domains. destruct (bool_decide (Operator nodeDomains = OpIn)); apply foldl_plain;
      intros; try by repeat case_match. }
    unfold nextDomainAffinity, insert_first. repeat case_match; simpl; done.
  - unfold nextDomainAntiAffinity.
    destruct (known_host tg nodeDomains); [by destruct (_ =? _)%Z|].
    destruct (_ && _); apply foldl_plain; intros; by repeat case_match.
Qed.

Lemma AddRequirements_wf `{!StableRegistry} {E} t p taints podReqs nodeReqs au reqs :
  requirements_wf nodeReqs → AddRequirements (E := E) t p taints podReqs nodeReqs au = Ok reqs → requirements_wf reqs.
Proof.
  intros Hw [_ ->]%AddRequirements_Ok. apply Add_wf; [| |by apply NewRequirements_wf];
  apply Forall_forall; intros ? (tg & -> & _)%list_elem_of_fmap; [apply offered_key_normal|].
  apply plain_requirement_wf, TopologyGroup_Get_plain.
Qed.

(** The tightened requirements.  For every label, exactly the values remain that
    the node allows and that every matching topology on that label offers; there is
    an error exactly when some matching topology offers none. *)
Theorem AddRequirements_spec `{!StableRegistry} {E} t p taints podReqs nodeReqs au :
  requirements_wf nodeReqs →
  let matching := getMatchingTopologies t p taints nodeReqs au in
  (is_ok (AddRequirements (E := E) t p taints podReqs nodeReqs au) = true ↔
   ∀ tg, tg ∈ matching → (Len (offered_domains p podReqs nodeReqs tg) ≠ 0)%Z) ∧
  ∀ reqs, AddRequirements (E := E) t p taints podReqs nodeReqs au = Ok reqs →
    ∀ k v, Has (Get reqs k) v = true ↔
      Has (Get nodeReqs k) v = true ∧
      ∀ tg, tg ∈ matching → normalize_key (tg_Key tg) = k → Has (offered_domains p podReqs nodeReqs tg) v = true.
Proof.
  intros Hw matching. split.
  - pose proof (AddRequirements_Ok (E := E) t p taints podReqs nodeReqs au) as Hok.
    destruct (AddRequirements _ _ _ _ _ _) as [reqs|e]; simpl.
    + specialize (Hok reqs). naive_solver.
    + split; [done|]. intros Hall. eassert (Err e = Ok _) as Hx by (apply Hok; eauto). done.
  - intros reqs [Hall ->]%AddRequirements_Ok k v.
    rewrite Add_Has; [|apply Forall_forall; intros ? (tg & -> & _)%list_elem_of_fmap; apply offered_key_normal].
    rewrite NewRequirements_Has, andb_true_iff, forallb_forall by done. setoid_rewrite <-list_elem_of_In.
    split; intros [H1 H2]; (split; [done|]).
    + intros tg Htg <-. specialize (H2 (offered_domains p podReqs nodeReqs tg)).
      rewrite offered_Key, bool_decide_eq_true_2 in H2 by done.
      apply H2. by apply list_elem_of_fmap_2.
    + intros q (tg & -> & Htg)%list_elem_of_fmap. rewrite offered_Key.
      destruct (bool_decide _) eqn:Ek; [|done]. apply bool_decide_eq_true in Ek. simpl. by apply H2.
Qed.

(** ** Anti-affinity works both ways *)

Lemma domains_for_wf reqs key : requirements_wf reqs → requirement_wf (domains_for reqs key).
Proof.
  intros Hw. unfold domains_for, Requirements_Has, Get. destruct (reqs !! key) as [req|] eqn:E.
  - rewrite bool_decide_eq_true_2 by eauto. apply (Hw _ _ E).
  - rewrite bool_decide_eq_false_2 by (intros []; done). apply simple_requirement_wf.
Qed.

Lemma matching_inverse t q taints nodeReqs au h tg :
  inverseTopologyGroups t !! h = Some tg → Counts tg q taints nodeReqs au = true →
  tg ∈ getMatchingTopologies t q taints nodeReqs au.
Proof.
  intros Hl Hc. unfold getMatchingTopologies. apply elem_of_app. right. apply list_elem_of_filter. split; [done|].
  apply list_elem_of_fmap. exists (h, tg). split; [done|]. by apply elem_of_map_to_list.
Qed.

(** A pod that an inverse group counts gets no domain in which the group has a pod. *)
Lemma occupied_domain_refused `{!StableRegistry} {E} t q taints podReqs nodeReqs au reqs h tg d :
  inverseTopologyGroups t !! h = Some tg → tg_Type tg = TopologyTypePodAntiAffinity → group_inv tg → (0 < domain_count tg d)%Z →
  requirements_wf nodeReqs → Counts tg q taints nodeReqs au = true →
  AddRequirements (E := E) t q taints podReqs nodeReqs au = Ok reqs → Has (Get reqs (normalize_key (tg_Key tg))) d = false.
Proof.
  intros Hl Hty Hi Hd Hw Hc [_ ->]%AddRequirements_Ok. pose proof (matching_inverse _ _ _ _ _ h _ Hl Hc) as Hm.
  apply not_true_iff_false. intros HH.
  rewrite Add_Has in HH; [|apply Forall_forall; intros ? (? & -> & _)%list_elem_of_fmap; apply offered_key_normal].
  apply andb_true_iff in HH as [_ HH]. rewrite forallb_forall in HH.
  specialize (HH (offered_domains q podReqs nodeReqs tg)). rewrite offered_Key, bool_decide_eq_true_2 in HH by done.
  simpl in HH. assert (Has (offered_domains q podReqs nodeReqs tg) d = true) as Hoff.
  { apply HH. apply list_elem_of_In. by apply list_elem_of_fmap_2. }
  unfold offered_domains, TopologyGroup_Get in Hoff. rewrite Hty in Hoff. simpl in Hoff.
  apply anti_affinity_offers in Hoff; [|done|by apply domains_for_wf].
  destruct (known_host _ _); [destruct Hoff as [-> Hz]; lia|]. destruct Hoff as [Hz _]. unfold domain_count in Hd.
  rewrite Hz in Hd. simpl in Hd. lia.
Qed.

End topology.

Section topology_kube.
  Context `{LR : LabelRegistry} `{TA : TaintApi} `{SA : SelectorApi} `{IO : IterationOrder} `{HA : HashApi}.
  Context {E : Type} `{KR : KubeReader E}.
  (** The nodes of the cluster state, and its pods with anti-affinity with the labels
      of their nodes ([Cluster.ForPodsWithAntiAffinity]). *)
  Context (stateNodes : list StateNodeView) (podsWithAntiAffinity : list (Pod * gmap string string)).

Definition buildNamespaceList (namespace : string) (nss : list string) (sel : option LabelSelector)
    : result (topology_error E) (gset string) :=
  match sel with
  | None => match nss with
            | [] => Ok {[namespace]}
            | _ => Ok (list_to_set nss)
            end
  | Some _ =>
      match LabelSelectorAsSelector sel with
      | None => Err SelectorError
      | Some s =>
          match ListNamespaces s with
          | Err e => Err (KubeError e)
          | Ok found => Ok (list_to_set found ∪ list_to_set nss)
          end
      end
  end.

(** The group of one affinity term; [math.MaxInt32] is its (unused) skew. *)
Definition affinity_group (t : Topology) (p : Pod) (ty : TopologyType) (term : PodAffinityTerm)
    : result (topology_error E) TopologyGroup :=
  nss ← buildNamespaceList (pod_Namespace p) (pat_Namespaces term) (pat_NamespaceSelector term);
  match NewTopologyGroup ty (pat_TopologyKey term) p nss (pat_LabelSelector term) int32_max None None None
          (group_of t (pat_TopologyKey term)) with
  | Some tg => Ok tg
  | None => Err Panic
  end.

Fixpoint traverse {X Y} (f : X → result (topology_error E) Y) (l : list X) : result (topology_error E) (list Y) :=
  match l with
  | [] => Ok []
  | x :: l => y ← f x; ys ← traverse f l; Ok (y :: ys)
  end.

(** The required terms, and the preferred ones if preferences are respected. *)
Definition affinity_terms (t : Topology) (a : option PodAffinityT) : list PodAffinityTerm :=
  match a with
  | None => []
  | Some pa => pa_Required pa ++
      (if bool_decide (preferencePolicy t = PreferencePolicyRespect) then wpat_Term <$> pa_Preferred pa else [])
  end.

(** Go visits the two types in either order; the groups are the same. *)
Definition newForAffinities (t : Topology) (p : Pod) : result (topology_error E) (list TopologyGroup) :=
  match pod_Affinity p with
  | None => Ok []
  | Some a =>
      affs ← traverse (affinity_group t p TopologyTypePodAffinity) (affinity_terms t (PodAffinity a));
      antis ← traverse (affinity_group t p TopologyTypePodAntiAffinity) (affinity_terms t (PodAntiAffinity a));
      Ok (affs ++ antis)
  end.

(** The pod's required anti-affinity terms; without one the source panics, and callers
    check first. *)
Definition updateInverseAntiAffinity (t : Topology) (pod : Pod) (domains : gmap string string)
    : Topology * option (topology_error E) :=
  match pod_Affinity pod ≫= PodAntiAffinity with
  | None => (t, Some Panic)
  | Some anti =>
      run (λ t term,
        match affinity_group t pod TopologyTypePodAntiAffinity term with
        | Err e => (t, Some e)
        | Ok tg =>
            let hash := Hash tg in
            let tg := default tg (inverseTopologyGroups t !! hash) in
            let tg := match domains !! tg_Key tg with
                      | Some domain => TopologyGroup_Record tg [domain]
                      | None => tg
                      end in
            (with_inverse t (<[hash := AddOwner tg (pod_UID pod)]> (inverseTopologyGroups t)), None)
        end) t (pa_Required anti)
  end.

(** Errors are collected, so every pod is visited; the model keeps the list. *)
Definition updateInverseAffinities (t : Topology) : Topology * list (topology_error E) :=
  foldl (λ '(t, errs) '(pod, labels),
    if bool_decide (pod_UID pod ∈ excludedPods t) then (t, errs)
    else match updateInverseAntiAffinity t pod labels with
         | (t, None) => (t, errs)
         | (t, Some e) => (t, errs ++ [e])
         end) (t, []) podsWithAntiAffinity.

(** The domains of existing nodes, before any pod is counted. *)
Definition register_node_domains (tg : TopologyGroup) : TopologyGroup :=
  foldl (λ tg n,
    match sn_Node n with
    | None => tg
    | Some node =>
        if NodeFilter_Matches (nodeFilter tg) (node_Taints node) (NewLabelRequirements (node_Labels node)) ∅
        then match sn_Labels n !! tg_Key tg with
             | Some domain => TopologyGroup_Register tg [domain]
             | None => tg
             end
        else tg
    end) tg stateNodes.

Definition list_pods (tg : TopologyGroup) : result (topology_error E) (list Pod) :=
  foldl (λ acc ns,
    pods ← acc;
    match ListPods ns (TopologyListOptions (rawSelector tg)) with
    | Err e => Err (KubeError e)
    | Ok found => Ok (pods ++ found)
    end) (Ok []) (iter 10 (namespaces tg)).

(** The domain of a node: its label, or its name for the hostname key. *)
Definition node_domain (tg : TopologyGroup) (node : Node) : option string :=
  match node_Labels node !! tg_Key tg with
  | Some domain => Some domain
  | None => if bool_decide (tg_Key tg = LabelHostname) then Some (node_Name node) else None
  end.

(** Count a pod on a known node. *)
Definition count_on_node (tg : TopologyGroup) (node : Node) (requirements : Requirements) : TopologyGroup :=
  match node_domain tg node with
  | None => tg
  | Some domain =>
      if NodeFilter_Matches (nodeFilter tg) (node_Taints node) requirements ∅
      then TopologyGroup_Record tg [domain] else tg
  end.

(** One iteration of the counting loop, with the node of the previous pod. *)
Definition count_pod (excluded : gset string) (st : TopologyGroup * option (Node * Requirements)) (p : Pod)
    : (TopologyGroup * option (Node * Requirements)) * option (topology_error E) :=
  let '(tg, previous) := st in
  if IgnoredForTopology p then (st, None)
  else if bool_decide (pod_UID p ∈ excluded) then (st, None)
  else
    match previous with
    | Some (node, requirements) =>
        if bool_decide (node_Name node = pod_NodeName p)
        then ((count_on_node tg node requirements, previous), None)
        else match GetNode (pod_NodeName p) with
             | Err e => (st, Some (KubeError e))
             | Ok None => (st, None)
             | Ok (Some node) =>
                 let requirements := NewLabelRequirements (node_Labels node) in
                 ((count_on_node tg node requirements, Some (node, requirements)), None)
             end
    | None =>
        match GetNode (pod_NodeName p) with
        | Err e => (st, Some (KubeError e))
        | Ok None => (st, None)
        | Ok (Some node) =>
            let requirements := NewLabelRequirements (node_Labels node) in
            ((count_on_node tg node requirements, Some (node, requirements)), None)
        end
    end.

Definition countDomains (t : Topology) (tg : TopologyGroup) : result (topology_error E) TopologyGroup :=
  pods ← list_pods tg;
  let sorted := sort_by (λ p q, String.ltb (pod_NodeName p) (pod_NodeName q)) pods in
  match run (count_pod (excludedPods t)) (register_node_domains tg, None) sorted with
  | ((tg, _), None) => Ok tg
  | (_, Some e) => Err e
  end.

(** A new group is counted and stored; one already known only gains the owner. *)
Definition adopt_group (p : Pod) (t : Topology) (tg : TopologyGroup) : Topology * option (topology_error E) :=
  let hash := Hash tg in
  match topologyGroups t !! hash with
  | Some existing => (with_groups t (<[hash := AddOwner existing (pod_UID p)]> (topologyGroups t)), None)
  | None =>
      match countDomains t tg with
      | Err e => (t, Some e)
      | Ok tg => (with_groups t (<[hash := AddOwner tg (pod_UID p)]> (topologyGroups t)), None)
      end
  end.

Definition Update (t : Topology) (p : Pod) : Topology * option (topology_error E) :=
  let t := with_groups t ((λ tg, RemoveOwner tg (pod_UID p)) <$> topologyGroups t) in
  let inverse :=
    if (bool_decide (preferencePolicy t = PreferencePolicyIgnore) && HasRequiredPodAntiAffinity p) ||
       (bool_decide (preferencePolicy t = PreferencePolicyRespect) && HasPodAntiAffinity p)
    then updateInverseAntiAffinity t p ∅ else (t, None) in
  match inverse with
  | (t, Some e) => (t, Some e)
  | (t, None) =>
      match newForTopologies t p with
      | None => (t, Some Panic)
      | Some topologies =>
          match newForAffinities t p with
          | Err e => (t, Some e)
          | Ok affinities => run (adopt_group p) t (topologies ++ affinities)
          end
      end
  end.

Definition NewTopology (policy : PreferencePolicy) (nodePools : list NodePoolTemplate)
    (instanceTypes : gmap string (list InstanceType)) (pods : list Pod)
    : result (list (topology_error E)) Topology :=
  match buildDomainGroups nodePools instanceTypes with
  | None => Err [Panic]
  | Some groups =>
      let t := mkTopology policy ∅ ∅ groups (list_to_set (pod_UID <$> pods)) in
      let '(t, errs) := updateInverseAffinities t in
      let '(t, errs) := foldl (λ '(t, errs) p,
        match Update t p with
        | (t, None) => (t, errs)
        | (t, Some e) => (t, errs ++ [e])
        end) (t, errs) pods in
      match errs with [] => Ok t | _ => Err errs end
  end.

(** ** Counting existing pods *)

(** Where a pod counts, looking its node up afresh. *)
Definition pod_domain (excluded : gset string) (tg : TopologyGroup) (p : Pod) : option string :=
  if IgnoredForTopology p || bool_decide (pod_UID p ∈ excluded) then None
  else match GetNode (pod_NodeName p) with
       | Ok (Some node) =>
           domain ← node_domain tg node;
           if NodeFilter_Matches (nodeFilter tg) (node_Taints node) (NewLabelRequirements (node_Labels node)) ∅
           then Some domain else None
       | _ => None
       end.

(** The node kept from the previous pod is the one the API server would return. *)
Definition node_cache_ok (previous : option (Node * Requirements)) : Prop :=
  match previous with
  | None => True
  | Some (node, reqs) => GetNode (node_Name node) = Ok (Some node) ∧ reqs = NewLabelRequirements (node_Labels node)
  end.

Lemma count_on_node_Record tg node :
  count_on_node tg node (NewLabelRequirements (node_Labels node)) =
  TopologyGroup_Record tg
    (match (domain ← node_domain tg node;
            if NodeFilter_Matches (nodeFilter tg) (node_Taints node) (NewLabelRequirements (node_Labels node)) ∅
            then Some domain else None) with
     | Some d => [d] | None => [] end).
Proof. unfold count_on_node. destruct (node_domain tg node); simpl; [|done]. by destruct (NodeFilter_Matches _ _ _ _). Qed.

Lemma count_pod_ok excluded tg previous p :
  node_cache_ok previous →
  (IgnoredForTopology p = false → pod_UID p ∉ excluded → is_ok (GetNode (pod_NodeName p)) = true) →
  ∃ previous', node_cache_ok previous' ∧
    count_pod excluded (tg, previous) p =
    ((TopologyGroup_Record tg (match pod_domain excluded tg p with Some d => [d] | None => [] end), previous'), None).
Proof.
  intros Hc Hok. unfold count_pod, pod_domain.
  destruct (IgnoredForTopology p); simpl; [by eauto|].
  destruct (bool_decide (pod_UID p ∈ excluded)) eqn:Ee; simpl; [by eauto|].
  apply bool_decide_eq_false in Ee. specialize (Hok eq_refl Ee).
  assert (∃ previous', node_cache_ok previous' ∧
    match GetNode (pod_NodeName p) with
    | Err e => ((tg, previous), Some (KubeError e))
    | Ok None => ((tg, previous), None)
    | Ok (Some node) =>
        ((count_on_node tg node (NewLabelRequirements (node_Labels node)), Some (node, NewLabelRequirements (node_Labels node))), None)
    end = ((TopologyGroup_Record tg (match (match GetNode (pod_NodeName p) with
       | Ok (Some node) =>
           domain ← node_domain tg node;
           if NodeFilter_Matches (nodeFilter tg) (node_Taints node) (NewLabelRequirements (node_Labels node)) ∅
           then Some domain else None
       | _ => None
       end) with Some d => [d] | None => [] end), previous'), None)) as Hfresh.
  { destruct (GetNode (pod_NodeName p)) as [[node|]|e] eqn:Eg; [| |done].
    - rewrite count_on_node_Record. eexists. split; [|done]. simpl. by rewrite (GetNode_name _ _ Eg).
    - by eauto. }
  destruct previous as [[node reqs]|]; [|exact Hfresh].
  destruct (bool_decide (node_Name node = pod_NodeName p)) eqn:En; [|exact Hfresh].
  apply bool_decide_eq_true in En. destruct Hc as [Hg ->]. exists (Some (node, NewLabelRequirements (node_Labels node))).
  split; [done|]. rewrite <-En, Hg. by rewrite count_on_node_Record.
Qed.

Lemma Record_app tg l1 l2 : TopologyGroup_Record tg (l1 ++ l2) = TopologyGroup_Record (TopologyGroup_Record tg l1) l2.
Proof. unfold TopologyGroup_Record. apply foldl_app. Qed.

Lemma pod_domain_static excluded tg ds p :
  pod_domain excluded (TopologyGroup_Record tg ds) p = pod_domain excluded tg p.
Proof. by rewrite Record_domains_only. Qed.

Lemma omap_ext_in {A B} (f g : A → option B) (l : list A) : (∀ x, f x = g x) → omap f l = omap g l.
Proof. intros Hfg. induction l as [|x l IH]; csimpl; [done|]. by rewrite Hfg, IH. Qed.

Lemma count_pods_ok excluded pods tg previous :
  node_cache_ok previous →
  (∀ p, p ∈ pods → IgnoredForTopology p = false → pod_UID p ∉ excluded → is_ok (GetNode (pod_NodeName p)) = true) →
  ∃ previous', run (count_pod excluded) (tg, previous) pods =
    ((TopologyGroup_Record tg (omap (pod_domain excluded tg) pods), previous'), None).
Proof.
  revert tg previous. induction pods as [|p pods IH]; intros tg previous Hc Hok; [by eauto|].
  cbn [run]. destruct (count_pod_ok excluded tg previous p Hc) as (previous' & Hc' & ->); [apply Hok; by left|].
  destruct (IH (TopologyGroup_Record tg (match pod_domain excluded tg p with Some d => [d] | None => [] end)) previous' Hc')
    as [previous'' ->]; [intros; apply Hok; [by right|done..]|].
  exists previous''. do 2 f_equal.
  rewrite (omap_ext_in _ (pod_domain excluded tg)) by (intros; apply pod_domain_static).
  simpl. by destruct (pod_domain excluded tg p).
Qed.

Lemma countDomains_counts t tg pods :
  list_pods tg = Ok pods →
  (∀ p, p ∈ pods → IgnoredForTopology p = false → pod_UID p ∉ excludedPods t → is_ok (GetNode (pod_NodeName p)) = true) →
  ∃ sorted, sorted ≡ₚ pods ∧
    countDomains t tg = Ok (TopologyGroup_Record (register_node_domains tg)
      (omap (pod_domain (excludedPods t) (register_node_domains tg)) sorted)).
Proof.
  intros Hl Hok. exists (sort_by (λ p q, String.ltb (pod_NodeName p) (pod_NodeName q)) pods).
  split; [apply sort_by_Permutation|]. unfold countDomains. rewrite Hl; simpl.
  edestruct (count_pods_ok (excludedPods t)) as [previous' ->]; [| |done]; [done|].
  intros p Hp. apply Hok. by rewrite sort_by_Permutation in Hp.
Qed.

(** C36: counting the pods of a new group, with the node of the previous pod reused,
    records for every listed pod exactly the domain a fresh lookup of its node
    gives; pods that are not running, excluded, or on a node that is gone, has no
    domain or is filtered out do not count. *)
Theorem countDomains_reference t tg pods :
  list_pods tg = Ok pods →
  (∀ p, p ∈ pods → IgnoredForTopology p = false → pod_UID p ∉ excludedPods t → is_ok (GetNode (pod_NodeName p)) = true) →
  ∃ sorted, sorted ≡ₚ pods ∧
    countDomains t tg = Ok (TopologyGroup_Record (register_node_domains tg)
      (omap (pod_domain (excludedPods t) (register_node_domains tg)) sorted)).
Proof. apply countDomains_counts. Qed.

(** ** Ownership *)

Lemma run_preserves {S X Er} (P : S → Prop) (f : S → X → S * option Er) l s :
  (∀ s x, P s → P (f s x).1) → P s → P (run f s l).1.
Proof.
  intros Hf. revert s. induction l as [|x l IH]; intros s Hs; simpl; [done|].
  specialize (Hf s x Hs). destruct (f s x) as [s' [e|]]; [done|]. by apply IH.
Qed.

Lemma updateInverse_groups t p ds :
  let t' := (updateInverseAntiAffinity t p ds).1 in
  topologyGroups t' = topologyGroups t ∧ domainGroups t' = domainGroups t ∧ preferencePolicy t' = preferencePolicy t.
Proof.
  unfold updateInverseAntiAffinity. destruct (pod_Affinity p ≫= PodAntiAffinity) as [anti|]; [|done].
  apply (run_preserves (λ t', topologyGroups t' = topologyGroups t ∧ domainGroups t' = domainGroups t ∧
    preferencePolicy t' = preferencePolicy t)); [|done].
  intros s x Hs. by destruct (affinity_group _ _ _ _).
Qed.

Lemma adopt_group_ok p t tg t' :
  adopt_group p t tg = (t', None) →
  ∃ tg', topologyGroups t' = <[Hash tg := AddOwner tg' (pod_UID p)]> (topologyGroups t).
Proof.
  unfold adopt_group. destruct (topologyGroups t !! Hash tg); [intros [= <-]; by eauto|].
  destruct (countDomains t tg); intros [= <-]. by eauto.
Qed.

Lemma IsOwnedBy_AddOwner tg k k' : IsOwnedBy (AddOwner tg k) k' = bool_decide (k' = k) || IsOwnedBy tg k'.
Proof. unfold IsOwnedBy; simpl. apply eq_true_iff_eq. rewrite orb_true_iff, !bool_decide_eq_true. set_solver. Qed.

(** Which groups a pod owns. *)
Definition owns (t : Topology) (p : Pod) (h : Z) : Prop :=
  ∃ tg, topologyGroups t !! h = Some tg ∧ IsOwnedBy tg (pod_UID p) = true.

Lemma adopt_groups_ok p l t t' :
  run (adopt_group p) t l = (t', None) → ∀ h, owns t' p h ↔ owns t p h ∨ h ∈ Hash <$> l.
Proof.
  revert t. induction l as [|tg l IH]; intros t; [intros [= <-] h; set_solver|].
  cbn [run]. destruct (adopt_group p t tg) as [t1 [e|]] eqn:Ea; [done|]. intros Hr h. rewrite (IH t1 Hr h).
  apply adopt_group_ok in Ea as [tg' Hg]. unfold owns. rewrite Hg, lookup_insert. csimpl. rewrite elem_of_cons.
  case_decide as Eh; [subst h|naive_solver]. split; [by auto|]. intros _. left. eexists. split; [done|].
  rewrite IsOwnedBy_AddOwner. by rewrite bool_decide_eq_true_2.
Qed.

Lemma new_groups_ext t t' p :
  domainGroups t' = domainGroups t → preferencePolicy t' = preferencePolicy t →
  newForTopologies t' p = newForTopologies t p ∧ newForAffinities t' p = newForAffinities t p.
Proof.
  intros Hd Hp. unfold newForTopologies, newForAffinities, affinity_terms.
  assert (affinity_group t' p = affinity_group t p) as -> by (unfold affinity_group, group_of; by rewrite Hd).
  rewrite Hp. unfold group_of. by rewrite Hd.
Qed.

(** Updating a pod rebuilds its ownership from its current spec: it owns exactly
    the groups of its present constraints, so a constraint that was relaxed away no
    longer influences it. *)
Theorem Update_ownership t p t' :
  Update t p = (t', None) →
  ∃ topologies affinities, newForTopologies t p = Some topologies ∧ newForAffinities t p = Ok affinities ∧
    ∀ h, owns t' p h ↔ h ∈ Hash <$> (topologies ++ affinities).
Proof.
  unfold Update. set (t0 := with_groups t _).
  set (antiAffine := (_ && _) || _).
  set (inverse := if antiAffine then updateInverseAntiAffinity t0 p ∅ else (t0, None)).
  assert (topologyGroups inverse.1 = topologyGroups t0 ∧ domainGroups inverse.1 = domainGroups t ∧
    preferencePolicy inverse.1 = preferencePolicy t) as (Hg & Hd & Hp).
  { unfold inverse. destruct antiAffine; [exact (updateInverse_groups t0 p ∅)|done]. }
  clearbody inverse. destruct inverse as [t1 [e|]]; [done|]. simpl in *.
  destruct (new_groups_ext t t1 p Hd Hp) as [-> ->].
  destruct (newForTopologies t p) as [topologies|]; [|done].
  destruct (newForAffinities t p) as [affinities|]; [|done]. intros Hr.
  exists topologies, affinities. split_and!; [done..|]. intros h. rewrite (adopt_groups_ok p _ _ _ Hr h).
  split; [|by right]. intros [(tg & Hl & Ho)|?]; [exfalso|done]. rewrite Hg in Hl. unfold t0 in Hl; simpl in Hl.
  rewrite lookup_fmap in Hl. destruct (topologyGroups t !! h); simplify_eq/=. unfold IsOwnedBy in Ho; simpl in Ho.
  apply bool_decide_eq_true in Ho. set_solver.
Qed.

(** ** Two constraints that differ in minDomains only *)

(** [minDomains] is listed among the hashed fields of a group but is not hashed:
    a pod whose spread constraint differs from a known one only in minDomains joins
    the known group, and its own minDomains is ignored. *)
Theorem minDomains_not_hashed t p tg md known :
  let tg' := mkTopologyGroup (tg_Key tg) (tg_Type tg) (maxSkew tg) md (namespaces tg) (selector tg)
               (rawSelector tg) (nodeFilter tg) (owners tg) (domains tg) (emptyDomains tg) in
  topologyGroups t !! Hash tg = Some known →
  ∃ t', adopt_group p t tg' = (t', None) ∧
    topologyGroups t' !! Hash tg' = Some (AddOwner known (pod_UID p)) ∧
    minDomains (AddOwner known (pod_UID p)) = minDomains known.
Proof.
  intros tg' Hl. unfold adopt_group. change (Hash tg') with (Hash tg). rewrite Hl.
  eexists. split_and!; [done| |done]. simpl. by rewrite lookup_insert_eq.
Qed.

(** ** Terms without a selector *)

Lemma nil_selector_lists_everything : TopologyListOptions None = Everything.
Proof. done. Qed.

(** A comment calls a term without a selector "a no-op".  Such a group selects no
    pod, and yet counting lists every pod of its namespaces: a running pod with a
    domain makes that domain non-empty, so an anti-affinity term without a selector
    excludes the domain. *)
Theorem nil_selector_still_counts t ty key pod ns md tp ap dg tg p d :
  NewTopologyGroup ty key pod {[ns]} None int32_max md tp ap dg = Some tg →
  ListPods ns Everything = Ok [p] →
  pod_domain (excludedPods t) (register_node_domains tg) p = Some d →
  (∀ q, selects tg q = false) ∧
  ∃ tg', countDomains t tg = Ok tg' ∧ domains tg' !! d = Some (wrap32 (domain_count (register_node_domains tg) d + 1)) ∧
         d ∉ emptyDomains tg'.
Proof.
  intros Hn Hlist Hd. unfold NewTopologyGroup in Hn. apply bind_Some in Hn as (f & _ & [= <-]).
  destruct LabelSelectorAsSelector_nil as (sel & Esel & Hsel). split.
  { intros q. unfold selects; simpl. rewrite Esel; simpl. rewrite Hsel. apply andb_false_r. }
  set (tg := mkTopologyGroup _ _ _ _ _ _ _ _ _ _ _) in *.
  assert (list_pods tg = Ok [p]) as Hl.
  { unfold list_pods. simpl.
    assert (iter 10 ({[ns]} : gset string) = [ns]) as ->.
    { apply Permutation_singleton_r. by rewrite iter_Permutation, elements_singleton. }
    simpl. change (TopologyListOptions None) with Everything. by rewrite Hlist. }
  destruct (countDomains_counts t tg [p] Hl) as (sorted & Hs & ->).
  { intros q ->%list_elem_of_singleton _ _. unfold pod_domain in Hd. destruct (_ || _); [done|].
    by destruct (GetNode _). }
  apply Permutation_singleton_r in Hs as ->. csimpl. rewrite Hd. eexists. split; [done|]. simpl.
  rewrite lookup_insert_eq. split; [done|]. set_solver.
Qed.


(** ** Updating the topology for a valid pod does not panic *)

Lemma newForTopologies_total t p : pod_valid p = true → is_Some (newForTopologies t p).
Proof.
  intros Hv. unfold newForTopologies. destruct (mapM _ _) as [gs|] eqn:Em; [by eexists|]. exfalso.
  apply mapM_None, Exists_exists in Em as (tsc & [_ Hin]%list_elem_of_filter & Ht).
  assert (is_Some (spread_selector p tsc)) as [sel Hsel].
  { unfold pod_valid in Hv. apply andb_true_iff in Hv as [_ Hv]. rewrite forallb_forall in Hv.
    apply list_elem_of_In, Hv in Hin. unfold spread_valid in Hin. unfold spread_selector.
    apply orb_true_iff in Hin as [Hk|Hs].
    - apply Nat.eqb_eq, length_zero_iff_nil in Hk as ->. simpl. by eexists.
    - apply bool_decide_eq_true in Hs as [s ->]. by destruct (omap _ _); eexists. }
  rewrite Hsel in Ht. simpl in Ht.
  destruct (NewTopologyGroup_total TopologyTypeSpread (TopologyKey tsc) p {[pod_Namespace p]} sel (MaxSkew tsc)
    (MinDomains tsc) (NodeTaintsPolicy tsc) (NodeAffinityPolicy tsc) (group_of t (TopologyKey tsc))) as [tg Htg];
    [by left|congruence].
Qed.

Lemma affinity_group_no_panic t p ty term :
  ty ≠ TopologyTypeSpread → affinity_group t p ty term ≠ Err Panic.
Proof.
  intros Hty. unfold affinity_group, buildNamespaceList.
  assert (∀ nss, is_Some (NewTopologyGroup ty (pat_TopologyKey term) p nss (pat_LabelSelector term) int32_max None
    None None (group_of t (pat_TopologyKey term)))) as Hg by (intros; apply NewTopologyGroup_total; by right).
  destruct (pat_NamespaceSelector term).
  - destruct (LabelSelectorAsSelector _) as [sel|]; [|done]. destruct (ListNamespaces sel); [|done]. cbn.
    match goal with |- context [NewTopologyGroup _ _ _ ?n _ _ _ _ _ _] => by destruct (Hg n) as [? ->] end.
  - destruct (pat_Namespaces term); cbn;
    match goal with |- context [NewTopologyGroup _ _ _ ?n _ _ _ _ _ _] => by destruct (Hg n) as [? ->] end.
Qed.

Lemma traverse_no_panic {X Y} (f : X → result (topology_error E) Y) l :
  (∀ x, f x ≠ Err Panic) → traverse f l ≠ Err Panic.
Proof.
  intros Hf. induction l as [|x l IH]; simpl; [done|]. specialize (Hf x).
  destruct (f x); cbn; [|congruence]. destruct (traverse f l); cbn; congruence.
Qed.

Lemma newForAffinities_no_panic t p : newForAffinities t p ≠ Err Panic.
Proof.
  unfold newForAffinities. destruct (pod_Affinity p) as [a|]; [|done].
  pose proof (traverse_no_panic (affinity_group t p TopologyTypePodAffinity) (affinity_terms t (PodAffinity a))
    ltac:(by intros; apply affinity_group_no_panic)).
  pose proof (traverse_no_panic (affinity_group t p TopologyTypePodAntiAffinity) (affinity_terms t (PodAntiAffinity a))
    ltac:(by intros; apply affinity_group_no_panic)).
  destruct (traverse _ (affinity_terms t (PodAffinity a))); cbn; [|congruence].
  destruct (traverse _ (affinity_terms t (PodAntiAffinity a))); cbn; congruence.
Qed.

Lemma run_no_panic {S X} (f : S → X → S * option (topology_error E)) s l :
  (∀ s x, (f s x).2 ≠ Some Panic) → (run f s l).2 ≠ Some Panic.
Proof.
  intros Hf. revert s. induction l as [|x l IH]; intros s; simpl; [done|].
  specialize (Hf s x). destruct (f s x) as [s' [e|]]; [done|apply IH].
Qed.

Lemma updateInverseAntiAffinity_no_panic t p domains :
  HasPodAntiAffinity p = true → (updateInverseAntiAffinity t p domains).2 ≠ Some Panic.
Proof.
  unfold HasPodAntiAffinity, updateInverseAntiAffinity. destruct (_ ≫= PodAntiAffinity) as [anti|]; [|done].
  intros _. apply run_no_panic. intros t' term.
  pose proof (affinity_group_no_panic t' p TopologyTypePodAntiAffinity term ltac:(done)).
  destruct (affinity_group _ _ _ _); simpl; congruence.
Qed.

Lemma list_pods_no_panic tg : list_pods tg ≠ Err Panic.
Proof.
  unfold list_pods. assert (Ok [] ≠ @Err (topology_error E) (list Pod) Panic) as H0 by done. revert H0.
  generalize (Ok [] : result (topology_error E) (list Pod)) as acc.
  induction (iter 10 (namespaces tg)) as [|ns l IH]; intros acc Ha; [done|]. simpl. apply IH.
  destruct acc; cbn; [by destruct (ListPods _ _)|congruence].
Qed.

Lemma countDomains_no_panic t tg : countDomains t tg ≠ Err Panic.
Proof.
  unfold countDomains. pose proof (list_pods_no_panic tg). destruct (list_pods tg) as [pods|]; cbn; [|congruence].
  match goal with |- context [run ?f ?s ?l] =>
    assert ((run f s l).2 ≠ Some Panic) as Hr; [|by destruct (run f s l) as [[? ?] [e|]]; simpl in *; congruence] end.
  apply run_no_panic. intros [g previous] p. unfold count_pod. by repeat case_match.
Qed.

Lemma Update_no_panic t p : pod_valid p = true → (Update t p).2 ≠ Some Panic.
Proof.
  intros Hv. unfold Update. set (t0 := with_groups t _).
  match goal with |- context [if ?c then updateInverseAntiAffinity _ _ _ else _] =>
    assert ((if c then updateInverseAntiAffinity t0 p ∅ else (t0, None)).2 ≠ Some Panic) as Hi;
    [destruct c eqn:Hc|] end.
  { apply updateInverseAntiAffinity_no_panic.
    unfold HasRequiredPodAntiAffinity in Hc. destruct (HasPodAntiAffinity p); [done|].
    by rewrite !andb_false_r in Hc. }
  { done. }
  destruct (if (_ : bool) then updateInverseAntiAffinity _ _ _ else _) as [t1 [e|]]; simpl in *; [done|].
  destruct (newForTopologies_total t1 p Hv) as [tops ->]. pose proof (newForAffinities_no_panic t1 p).
  destruct (newForAffinities t1 p) as [affs|]; simpl; [|congruence].
  apply run_no_panic. intros t' tg. unfold adopt_group. destruct (_ !! _); [done|].
  pose proof (countDomains_no_panic t' tg). destruct (countDomains t' tg); simpl; congruence.
Qed.
(** ** Anti-affinity through a whole run *)

(** No count is so high that one more pod would overflow it. *)
Definition counts_have_room (t : Topology) : Prop :=
  ∀ h tg d, inverseTopologyGroups t !! h = Some tg → (domain_count tg d + 1 < int32_max - 1)%Z.

(** What a scheduling run does to the topology: it records placed pods, registers the
    hostnames of new claims and updates pods that were relaxed. *)
Inductive topology_step : Topology → Topology → Prop :=
| topology_recorded t p taints reqs au : counts_have_room t → topology_step t (Topology_Record t p taints reqs au)
| topology_registered t key d : topology_step t (Topology_Register t key d)
| topology_updated t p : topology_step t (Update t p).1.

(** The group is still there under its hash, and counts a pod in the domain. *)
Definition occupied_at (h : Z) (tg : TopologyGroup) (d : string) (t : Topology) : Prop :=
  ∃ tg', inverseTopologyGroups t !! h = Some tg' ∧ tg_Key tg' = tg_Key tg ∧ tg_Type tg' = tg_Type tg ∧
    (∀ q taints reqs au, Counts tg' q taints reqs au = Counts tg q taints reqs au) ∧ group_inv tg' ∧ (0 < domain_count tg' d)%Z.

Lemma Record_occupies tg ds d :
  (∀ d, (domain_count tg d + 1 < int32_max - 1)%Z) → group_inv tg → NoDup ds → d ∈ ds ∨ (0 < domain_count tg d)%Z →
  let tg' := TopologyGroup_Record tg ds in
  tg_Key tg' = tg_Key tg ∧ tg_Type tg' = tg_Type tg ∧
  (∀ q taints reqs au, Counts tg' q taints reqs au = Counts tg q taints reqs au) ∧ group_inv tg' ∧ (0 < domain_count tg' d)%Z.
Proof.
  intros Hroom Hi Hnd Hd. cbn zeta. assert (group_inv (TopologyGroup_Record tg ds)) as Hi' by (apply Record_inv; auto).
  pose proof (Record_lookup tg ds d Hnd) as Hl. rewrite Record_domains_only. split_and!; [done..|by rewrite Record_domains_only in Hi'|].
  unfold domain_count. simpl. rewrite Hl. specialize (Hroom d). pose proof (domain_count_nonneg tg d Hi).
  case_decide; [|by destruct Hd]. simpl. rewrite wrap32_id; unfold int32_min, int32_max in *; lia.
Qed.

Lemma occupied_recorded h tg d t p taints reqs au :
  counts_have_room t → occupied_at h tg d t → occupied_at h tg d (Topology_Record t p taints reqs au).
Proof.
  intros Hroom (tg' & Hl & Hk & Hty & Hc & Hi & Hd). unfold occupied_at, Topology_Record. simpl. rewrite lookup_fmap, Hl. simpl.
  eexists. split; [done|]. destruct (IsOwnedBy tg' (pod_UID p)); [|done].
  destruct (Record_occupies tg' (elements (values (Get reqs (tg_Key tg')))) d) as (E1 & E2 & E3 & E4 & E5);
    [by intros; eapply Hroom|done|apply NoDup_elements|by right|].
  rewrite E1, E2. split_and!; [done..| |done|done]. intros. by rewrite E3.
Qed.

Lemma occupied_registered h tg d t key domain : occupied_at h tg d t → occupied_at h tg d (Topology_Register t key domain).
Proof.
  intros (tg' & Hl & Hk & Hty & Hc & Hi & Hd). unfold occupied_at, Topology_Register. simpl. rewrite lookup_fmap, Hl. simpl.
  eexists. split; [done|]. case_bool_decide; [|done]. unfold TopologyGroup_Register. simpl.
  pose proof (Register_inv tg' [domain] Hi) as Hi'. unfold TopologyGroup_Register in Hi'. simpl in Hi'.
  destruct (domains tg' !! domain) as [c|] eqn:Ed; [done|]. split_and!; [done..|].
  unfold domain_count in *. simpl. rewrite lookup_insert_ne; [done|]. intros <-. rewrite Ed in Hd. simpl in Hd. lia.
Qed.

Lemma occupied_with_groups h tg d t gs : occupied_at h tg d t → occupied_at h tg d (with_groups t gs).
Proof. done. Qed.

Lemma occupied_inverse h tg d t p : occupied_at h tg d t → occupied_at h tg d (updateInverseAntiAffinity t p ∅).1.
Proof.
  intros Ho. unfold updateInverseAntiAffinity. destruct (_ ≫= PodAntiAffinity) as [anti|]; [|done].
  apply run_preserves; [|done]. clear t Ho. intros t term (tg' & Hl & Hk & Hty & Hc & Hi & Hd).
  destruct (affinity_group _ _ _ _) as [g|e]; [|by exists tg']. rewrite lookup_empty. unfold occupied_at. simpl.
  destruct (decide (Hash g = h)) as [->|Hne]; [|rewrite lookup_insert_ne by done; by exists tg'].
  rewrite lookup_insert_eq, Hl. simpl. eexists. split; [done|]. split_and!; [done|done|done|by destruct Hi|done].
Qed.

Lemma occupied_updated h tg d t p : occupied_at h tg d t → occupied_at h tg d (Update t p).1.
Proof.
  intros Ho. unfold Update. set (t0 := with_groups t _).
  assert (occupied_at h tg d t0) as H0 by by apply occupied_with_groups.
  match goal with |- context [if ?c then updateInverseAntiAffinity _ _ _ else _] =>
    assert (occupied_at h tg d (if c then updateInverseAntiAffinity t0 p ∅ else (t0, None)).1) as H1;
    [destruct c; [by apply occupied_inverse|done]|] end.
  destruct (if (_ : bool) then updateInverseAntiAffinity _ _ _ else _) as [t1 [e|]]; [done|]. simpl in H1.
  destruct (newForTopologies t1 p); [|done]. destruct (newForAffinities t1 p); [|done].
  apply run_preserves; [|done]. intros t2 g H2. unfold adopt_group. destruct (_ !! _); [by apply occupied_with_groups|].
  destruct (countDomains t2 g); [by apply occupied_with_groups|done].
Qed.

(** C10: anti-affinity is enforced against the pods it is directed at, for the rest of a
    run.  After a pod [p] that owns an inverse anti-affinity group was recorded with
    requirements that list its possible domains (a requirement that excludes
    domains instead is not covered: the code records the excluded ones), and whatever
    is recorded, registered or updated afterwards while the counts are far from an
    int32, a pod [q] that the term counts is never given
    requirements that allow one of the domains where [p] may be. *)
Theorem inverse_anti_affinity_enforced `{!StableRegistry} t p q taints reqs au t' taints' podReqs nodeReqs au' reqs' h tg d :
  inverseTopologyGroups t !! h = Some tg → IsOwnedBy tg (pod_UID p) = true →
  tg_Type tg = TopologyTypePodAntiAffinity → group_inv tg → counts_have_room t →
  requirement_wf (Get reqs (tg_Key tg)) → complement (Get reqs (tg_Key tg)) = false →
  Has (Get reqs (tg_Key tg)) d = true →
  rtc topology_step (Topology_Record t p taints reqs au) t' →
  requirements_wf nodeReqs → Counts tg q taints' nodeReqs au' = true →
  AddRequirements (E := E) t' q taints' podReqs nodeReqs au' = Ok reqs' →
  Has (Get reqs' (normalize_key (tg_Key tg))) d = false.
Proof.
  intros Hl Ho Hty Hi Hroom Hrw Hcompl Hd Hrun Hw Hc Hadd.
  assert (occupied_at h tg d (Topology_Record t p taints reqs au)) as H0.
  { unfold occupied_at, Topology_Record. simpl. rewrite lookup_fmap, Hl. simpl. rewrite Ho. eexists. split; [done|].
    apply Record_occupies; [by intros; eapply Hroom|done|apply NoDup_elements|]. left. apply elem_of_elements.
    unfold Has in Hd. rewrite Hcompl in Hd. by apply andb_true_iff in Hd as [?%bool_decide_eq_true _]. }
  assert (occupied_at h tg d t') as (tg' & Hl' & Hk' & Hty' & Hc' & Hi' & Hd').
  { clear Hadd. induction Hrun as [t1|t1 t2 t3 Hstep _ IH]; [done|]. apply IH. clear IH.
    destruct Hstep; [by apply occupied_recorded|by apply occupied_registered|by apply occupied_updated]. }
  rewrite <-Hk'. eapply occupied_domain_refused; [exact Hl'|congruence|done|exact Hd'|exact Hw|by rewrite Hc'|exact Hadd].
Qed.
End topology_kube.
