(* ===== verification/NodeClaims.v ===== *)
(** * NodeClaims: nodes that are about to be created
    (pkg/controllers/provisioning/scheduling/nodeclaim.go)

    A scheduling node claim collects pods, narrows its requirements and keeps the
    instance types that still fit.  [CanAdd] only reads; [Add] updates the claim
    and the two objects all claims share, the topology and the reservation
    manager, which are passed explicitly. *)

From S2P Require Import Prelude Float64 Labels Requirement Objects Requirements Resources Taints HostPorts.
From S2P Require Import Volumes InstanceTypes Reservations TopologyGroup Topology.

(** What the scheduler takes from elsewhere: the key of an override group, the
    provider's reservation label, random draws, and [net.ParseIP]. *)
Class SchedulerEnv := {
  override_text : ResourceList → option InstanceTypeOverhead → string;
  ReservationIDLabel : string;
  draw : Z → Z;
  ParseIP : string → IP;
}.

Inductive ReservedOfferingMode := ReservedOfferingModeFallback | ReservedOfferingModeStrict.

#[export] Instance ReservedOfferingMode_eq_dec : EqDecision ReservedOfferingMode.
Proof. solve_decision. Defined.

Record DaemonOverheadGroup := mkDaemonOverheadGroup {
  dog_InstanceTypes : list InstanceType;
  DaemonOverhead : ResourceList;
  dog_HostPortUsage : HostPortUsage;
}.

(** [InstanceTypeFilterError]: which criteria some instance type met. *)
Record InstanceTypeFilterError := mkFilterError {
  requirementsMet : bool;
  fe_fits : bool;
  hasOffering : bool;
  requirementsAndFits : bool;
  requirementsAndOffering : bool;
  fitsAndOffering : bool;
  minValuesIncompatible : option (gmap string Z);
  fe_requirements : Requirements;
  podRequests : ResourceList;
  minDaemonRequests : ResourceList;
  maxDaemonRequests : ResourceList;
}.

Definition new_filter_error (requirements : Requirements) (requests : ResourceList) : InstanceTypeFilterError :=
  mkFilterError false false false false false false None requirements requests ∅ ∅.

Inductive add_error (E : Type) :=
| TaintsNotTolerated (taints : list Taint)
| VolumeLimitExceeded (driver : option string)
| HostPortConflict
| ExceedsNodeResources
| IncompatibleRequirements (errs : list compatible_error)
| IncompatibleVolumeRequirements (errs : list compatible_error)
| TopologyError (e : topology_error E)
| FilterError (e : InstanceTypeFilterError)
| ReservedOfferingErr
| ReservationsFull
| DRAErr
| AllocationErr
| NoInstanceTypeForDRA
| ReservationPanic.
Arguments TaintsNotTolerated {E} taints.
Arguments VolumeLimitExceeded {E} driver.
Arguments HostPortConflict {E}.
Arguments ExceedsNodeResources {E}.
Arguments IncompatibleRequirements {E} errs.
Arguments IncompatibleVolumeRequirements {E} errs.
Arguments TopologyError {E} e.
Arguments FilterError {E} e.
Arguments ReservedOfferingErr {E}.
Arguments ReservationsFull {E}.
Arguments DRAErr {E}.
Arguments AllocationErr {E}.
Arguments NoInstanceTypeForDRA {E}.
Arguments ReservationPanic {E}.

Definition IsReservedOfferingError {E} (e : add_error E) : bool :=
  match e with ReservedOfferingErr => true | _ => false end.

(** The cached data of a pod; [ResourceClaimErr] is the failed claim resolution. *)
Record PodData := mkPodData {
  Requests : ResourceList;
  pd_Requirements : Requirements;
  StrictRequirements : Requirements;
  HasResourceClaimRequests : bool;
  VolumeRequirements : list Requirements;
  pd_ResourceClaims : list string;
  ResourceClaimErr : bool;
}.

(** What the device allocator reports: the topology of the devices and the instance
    types that can supply them. *)
Record AllocationResult := mkAllocationResult {
  ar_Requirements : Requirements;
  ar_InstanceTypes : list string;
}.

(** The annotation map of a claim is the map of the template it was made from (the
    struct is copied, the map is not), until the claim is given a map of its own. *)
Inductive annotations_ref :=
| SharedWith (template : nat)
| Own (annotations : gmap string string).

Definition annotations_of (store : gmap nat (gmap string string)) (r : annotations_ref) : gmap string string :=
  match r with
  | SharedWith i => default ∅ (store !! i)
  | Own m => m
  end.

Record NodeClaim := mkNodeClaim {
  NodePoolName : string;
  nc_Taints : list Taint;
  nc_Annotations : annotations_ref;
  nc_Requirements : Requirements;
  InstanceTypeOptions : list InstanceType;
  nc_Requests : ResourceList;
  nc_Pods : list Pod;
  nc_volumes : Volumes;
  daemonOverheadGroups : list DaemonOverheadGroup;
  hostname : string;
  reservedOfferings : list Offering;
  reservedOfferingMode : ReservedOfferingMode;
  creditReservationCapacity : gmap string Z;
}.

Record NodeClaimTemplate := mkNodeClaimTemplate {
  nct_NodePoolName : string;
  nct_Taints : list Taint;
  nct_Requirements : Requirements;
  nct_InstanceTypeOptions : list InstanceType;
}.

Section nodeclaim.
  Context `{LR : LabelRegistry} `{TA : TaintApi} `{SA : SelectorApi} `{IO : IterationOrder} `{SE : SchedulerEnv}.
  Context {E : Type}.
  (** The feature gate for reserved capacity, and the DRA allocator, nil when DRA is
      disabled.  Its own state is not modelled: an allocation is a function of the
      host, the requirements and the claims. *)
  Context (ReservedCapacity : bool).
  Context (allocator : option (string → Requirements → list string → option AllocationResult)).

(** [hostname-placeholder-%04d] *)
Definition placeholder_hostname (id : Z) : string :=
  let digits := FormatInt id in
  "hostname-placeholder-" +:+ String.concat EmptyString (replicate (4 - String.length digits) "0") +:+ digits.

(** The claim of template number [template]; [nodeID.Add(1)] has returned [id].  The host port usage of a group is copied; in
    the model values are never shared. *)
Definition NewNodeClaim (template : nat) (nct : NodeClaimTemplate) (id : Z) (groups : list DaemonOverheadGroup)
    (instanceTypes : list InstanceType) (mode : ReservedOfferingMode) (credit : gmap string Z) : NodeClaim :=
  let host := placeholder_hostname id in
  mkNodeClaim (nct_NodePoolName nct) (nct_Taints nct) (SharedWith template)
    (Add (Add (NewRequirements []) (Values (nct_Requirements nct))) [requirement_In LabelHostname host])
    instanceTypes ∅ [] ∅ groups host [] mode credit.

(** ** Filtering instance types *)

Definition compatible (it : InstanceType) (requirements : Requirements) : bool :=
  match Intersects (it_Requirements it) requirements with [] => true | _ => false end.

(** The offerings of one group are scanned up to the first compatible one. *)
Fixpoint fits_groups (requests : ResourceList) (requirements : Requirements) (hasOffering : bool)
    (groups : list AllocatableOfferings) : bool * bool :=
  match groups with
  | [] => (false, hasOffering)
  | g :: rest =>
      if Offerings_HasCompatible (ao_Offerings g) requirements
      then if Fits requests (Allocatable_ g) then (true, true)
           else fits_groups requests requirements true rest
      else fits_groups requests requirements hasOffering rest
  end.

Definition fits (it : InstanceType) (requests : ResourceList) (requirements : Requirements) : bool * bool :=
  fits_groups requests requirements false (AllocatableOfferingsList override_text it).

Definition trackDaemonOverhead (e : InstanceTypeFilterError) (dr : ResourceList) : InstanceTypeFilterError :=
  let '(lo, hi) := if (size (maxDaemonRequests e) =? 0)%nat then (dr, dr)
                   else (MinResources [minDaemonRequests e; dr], MaxResources [maxDaemonRequests e; dr]) in
  mkFilterError (requirementsMet e) (fe_fits e) (hasOffering e) (requirementsAndFits e)
    (requirementsAndOffering e) (fitsAndOffering e) (minValuesIncompatible e)
    (fe_requirements e) (podRequests e) lo hi.

(** One instance type: the flags are updated, and it is kept if it meets all three. *)
Definition filter_one (requirements : Requirements) (total : ResourceList)
    (st : InstanceTypeFilterError * list InstanceType) (it : InstanceType)
    : InstanceTypeFilterError * list InstanceType :=
  let '(e, remaining) := st in
  let itCompat := compatible it requirements in
  let '(itFits, itHasOffering) := fits it total requirements in
  (mkFilterError (requirementsMet e || itCompat) (fe_fits e || itFits) (hasOffering e || itHasOffering)
     (requirementsAndFits e || (itCompat && itFits && negb itHasOffering))
     (requirementsAndOffering e || (itCompat && itHasOffering && negb itFits))
     (fitsAndOffering e || (itFits && itHasOffering && negb itCompat))
     (minValuesIncompatible e) (fe_requirements e) (podRequests e) (minDaemonRequests e) (maxDaemonRequests e),
   if itCompat && itFits && itHasOffering then remaining ++ [it] else remaining).

(** What the pods and the daemons of a group request together. *)
Definition total_with_daemons (group : DaemonOverheadGroup) (totalRequests : ResourceList) : ResourceList :=
  if (size (DaemonOverhead group) =? 0)%nat then totalRequests
  else MergeInto (Some (MergeInto None totalRequests)) (DaemonOverhead group).

Definition filter_group (instanceTypes : list InstanceType) (requirements : Requirements) (pod : Pod)
    (totalRequests : ResourceList) (st : InstanceTypeFilterError * list InstanceType)
    (group : DaemonOverheadGroup) : InstanceTypeFilterError * list InstanceType :=
  if HostPortUsage_Conflicts (dog_HostPortUsage group) (pod_key pod) (GetHostPorts ParseIP pod) then st
  else
    let '(e, remaining) := st in
    let e := if (size (DaemonOverhead group) =? 0)%nat then e else trackDaemonOverhead e (DaemonOverhead group) in
    foldl (filter_one requirements (total_with_daemons group totalRequests)) (e, remaining)
      (filter (λ it, it ∈ instanceTypes) (dog_InstanceTypes group)).

(** The instance types that remain, and the keys whose minValues are not met; with no
    instance type left the error says why. *)
Definition filterInstanceTypesByRequirements (instanceTypes : list InstanceType) (requirements : Requirements)
    (pod : Pod) (requests_of_pod : ResourceList) (groups : list DaemonOverheadGroup) (totalRequests : ResourceList)
    (relaxMinValues : bool)
    : result InstanceTypeFilterError (list InstanceType) * gmap string Z :=
  let '(e, remaining) :=
    foldl (filter_group instanceTypes requirements pod totalRequests)
      (new_filter_error requirements requests_of_pod, []) groups in
  let '(e, remaining, unsatisfiableKeys) :=
    if HasMinValues requirements then
      let keys := (SatisfiesMinValues remaining requirements).2 in
      if (size keys =? 0)%nat then (e, remaining, keys)
      else if relaxMinValues then (e, remaining, keys)
      else (mkFilterError (requirementsMet e) (fe_fits e) (hasOffering e) (requirementsAndFits e)
              (requirementsAndOffering e) (fitsAndOffering e) (Some keys) (fe_requirements e)
              (podRequests e) (minDaemonRequests e) (maxDaemonRequests e),
            [], keys)
    else (e, remaining, ∅) in
  (match remaining with [] => Err e | _ => Ok remaining end, unsatisfiableKeys).

Definition filterInstanceTypesByVolumeAttachmentLimits (instanceTypes : list InstanceType) (vols : Volumes)
    : list InstanceType :=
  filter (λ it, map_forallb (λ driver claims,
    match VolumeAttachmentLimits it !! driver with
    | Some limit => negb (Z.of_nat (size claims) >? limit)%Z
    | None => true
    end) vols = true) instanceTypes.

(** The driver whose limit every instance type exceeds, if there is one. *)
Definition volumeAttachmentLimitError (instanceTypes : list InstanceType) (vols : Volumes) : option string :=
  fst <$> List.find (λ kv : string * gset string,
    forallb (λ it, match VolumeAttachmentLimits it !! kv.1 with
                   | Some limit => (Z.of_nat (size kv.2) >? limit)%Z
                   | None => false
                   end) instanceTypes) (map_to_list vols).

(** ** Reserved offerings *)

Record reservation_scan := mkScan {
  reservedWithCapacity : bool;
  reservedFull : bool;
  hasUnreservedFallback : bool;
  scan_offerings : list Offering;
}.

Definition scan_offering (rm : ReservationManager) (n : NodeClaim) (requirements : Requirements)
    (st : reservation_scan) (o : Offering) : option reservation_scan :=
  if negb (Available o) then Some st
  else if negb (IsCompatible requirements (of_Requirements o) WellKnownLabels) then Some st
  else
    capacityType ← read_CapacityType draw o;
    if negb (bool_decide (capacityType = CapacityTypeReserved))
    then Some (mkScan (reservedWithCapacity st) (reservedFull st) true (scan_offerings st))
    else
    id ← read_ReservationID ReservationIDLabel draw o;
    if (ReservationCapacity o =? 0)%Z && (default 0%Z (creditReservationCapacity n !! id) =? 0)%Z
    then Some (mkScan (reservedWithCapacity st) true (hasUnreservedFallback st) (scan_offerings st))
    else
    can ← CanReserve ReservationIDLabel draw rm (hostname n) o;
    Some (mkScan true (reservedFull st) (hasUnreservedFallback st)
            (if can : bool then scan_offerings st ++ [o] else scan_offerings st)).

Definition offeringsToReserve (rm : ReservationManager) (n : NodeClaim) (instanceTypes : list InstanceType)
    (requirements : Requirements) : result (add_error E) (list Offering) :=
  if negb ReservedCapacity then Ok []
  else match foldl_opt (scan_offering rm n requirements) (mkScan false false false [])
               (concat (Offerings <$> instanceTypes)) with
       | None => Err ReservationPanic
       | Some scan =>
           let strict := bool_decide (reservedOfferingMode n = ReservedOfferingModeStrict) in
           let none := (length (scan_offerings scan) =? 0)%nat in
           if strict && reservedWithCapacity scan && none then Err ReservedOfferingErr
           else if reservedFull scan && negb (reservedWithCapacity scan) && negb (hasUnreservedFallback scan)
           then Err ReservationsFull
           else if strict && negb (length (reservedOfferings n) =? 0)%nat && none then Err ReservedOfferingErr
           else Ok (scan_offerings scan)
       end.

(** ** Adding a pod *)

Record addition := mkAddition {
  updatedRequirements : Requirements;
  updatedInstanceTypes : list InstanceType;
  toReserve : list Offering;
  allocationResult : option AllocationResult;
}.

Definition check (errs : list compatible_error) (wrap : list compatible_error → add_error E)
    : result (add_error E) unit :=
  match errs with [] => Ok () | _ => Err (wrap errs) end.

(** [nodeClaimRequirements.Get(key).SetMinValues(minValues)] changes the stored
    requirement; for an absent key it changes a temporary. *)
Definition relax_min_values (requirements : Requirements) (keys : gmap string Z) : Requirements :=
  map_fold (λ key mv reqs, alter (λ r, SetMinValues r mv) key reqs) requirements keys.

Definition allocate_devices (n : NodeClaim) (podData : PodData) (requirements : Requirements)
    : result (add_error E) (option AllocationResult) :=
  match allocator with
  | Some allocate =>
      if HasResourceClaimRequests podData then
        if ResourceClaimErr podData then Err DRAErr
        else match allocate (hostname n) requirements (pd_ResourceClaims podData) with
             | None => Err AllocationErr
             | Some r => Ok (Some r)
             end
      else Ok None
  | None => Ok None
  end.

Definition tryVolumeAlternative (t : Topology) (rm : ReservationManager) (n : NodeClaim) (pod : Pod)
    (podData : PodData) (instanceTypes : list InstanceType) (baseRequirements : Requirements)
    (volReqs : option Requirements) (relaxMinValues : bool) : result (add_error E) addition :=
  let reqs := NewRequirements (Values baseRequirements) in
  reqs ← match volReqs with
         | None => Ok reqs
         | Some v => _ ← check (Compatible reqs v WellKnownLabels) IncompatibleVolumeRequirements;
                     Ok (Add reqs (Values v))
         end;
  allocation ← allocate_devices n podData reqs;
  reqs ← match allocation with
         | None => Ok reqs
         | Some r => _ ← check (Compatible reqs (ar_Requirements r) WellKnownLabels) IncompatibleRequirements;
                     Ok (Add reqs (Values (ar_Requirements r)))
         end;
  match AddRequirements (E := E) t pod (nc_Taints n) (StrictRequirements podData) reqs WellKnownLabels with
  | Err e => Err (TopologyError e)
  | Ok topologyRequirements =>
      _ ← check (Compatible reqs topologyRequirements WellKnownLabels) IncompatibleRequirements;
      let reqs := Add reqs (Values topologyRequirements) in
      let requests := Merge [nc_Requests n; Requests podData] in
      let '(filtered, unsatisfiableKeys) :=
        filterInstanceTypesByRequirements instanceTypes reqs pod (Requests podData) (daemonOverheadGroups n)
          requests relaxMinValues in
      let reqs := if relaxMinValues then relax_min_values reqs unsatisfiableKeys else reqs in
      match filtered with
      | Err e => Err (FilterError e)
      | Ok remaining =>
          remaining ← match allocation with
                      | None => Ok remaining
                      | Some r => match filter (λ it, it_Name it ∈ ar_InstanceTypes r) remaining with
                                  | [] => Err NoInstanceTypeForDRA
                                  | its => Ok its
                                  end
                      end;
          ofs ← offeringsToReserve rm n remaining reqs;
          Ok (mkAddition reqs remaining ofs allocation)
      end
  end.

(** The first volume alternative that works, or the error of the last one tried; an
    error for which [final] holds ends the search. *)
Fixpoint first_alternative {A} (final : add_error E → bool)
    (attempt : option Requirements → result (add_error E) A)
    (volReqs : option Requirements) (rest : list Requirements) : result (add_error E) A :=
  match attempt volReqs with
  | Ok a => Ok a
  | Err e => if final e then Err e
             else match rest with
                  | [] => Err e
                  | v :: rest => first_alternative final attempt (Some v) rest
                  end
  end.

(** A pod without volume requirements has the one alternative without constraints. *)
Definition try_alternatives {A} (final : add_error E → bool)
    (attempt : option Requirements → result (add_error E) A) (podData : PodData) : result (add_error E) A :=
  match VolumeRequirements podData with
  | [] => first_alternative final attempt None []
  | v :: rest => first_alternative final attempt (Some v) rest
  end.

Definition NodeClaim_CanAdd (t : Topology) (rm : ReservationManager) (n : NodeClaim) (pod : Pod)
    (podData : PodData) (vols : Volumes) (relaxMinValues : bool) : result (add_error E) addition :=
  match ToleratesPod (nc_Taints n) pod with
  | _ :: _ as taints => Err (TaintsNotTolerated taints)
  | [] =>
      let prospective := Volumes_Union (nc_volumes n) vols in
      let instanceTypes := if (size vols =? 0)%nat then InstanceTypeOptions n
                           else filterInstanceTypesByVolumeAttachmentLimits (InstanceTypeOptions n) prospective in
      if negb (size vols =? 0)%nat && (length instanceTypes =? 0)%nat
      then Err (VolumeLimitExceeded (volumeAttachmentLimitError (InstanceTypeOptions n) prospective))
      else
        let baseRequirements := NewRequirements (Values (nc_Requirements n)) in
        _ ← check (Compatible baseRequirements (pd_Requirements podData) WellKnownLabels) IncompatibleRequirements;
        let baseRequirements := Add baseRequirements (Values (pd_Requirements podData)) in
        try_alternatives (λ e, match e with ReservationPanic => true | _ => false end) (λ volReqs,
          tryVolumeAlternative t rm n pod podData instanceTypes baseRequirements volReqs relaxMinValues) podData
  end.

Definition releaseReservedOfferings (rm : ReservationManager) (n : NodeClaim) (current updated : list Offering)
    : ReservationManager :=
  let id := ReservationID ReservationIDLabel draw in
  foldl (λ rm o, if bool_decide (id o ∈ id <$> updated) then rm
                 else Release ReservationIDLabel draw rm (hostname n) [o]) rm current.

(** [None] is the panic of [Reserve].  The error [ReservationPanic] of [CanAdd] is a panic as
    well, of [CanReserve] or of reading an offering, which the scheduler passes on.  The device allocation is committed by the
    allocator, outside the model. *)
Definition NodeClaim_Add (t : Topology) (rm : ReservationManager) (n : NodeClaim) (pod : Pod)
    (podData : PodData) (vols : Volumes) (a : addition) : option (Topology * ReservationManager * NodeClaim) :=
  let t := Topology_Register t LabelHostname (hostname n) in
  let t := Topology_Record t pod (nc_Taints n) (updatedRequirements a) WellKnownLabels in
  let ports := GetHostPorts ParseIP pod in
  let groups := (λ g, mkDaemonOverheadGroup (dog_InstanceTypes g) (DaemonOverhead g)
                        (HostPortUsage_Add (dog_HostPortUsage g) (pod_key pod) ports)) <$> daemonOverheadGroups n in
  rm ← Reserve ReservationIDLabel draw rm (hostname n) (toReserve a);
  let rm := releaseReservedOfferings rm n (reservedOfferings n) (toReserve a) in
  Some (t, rm, mkNodeClaim (NodePoolName n) (nc_Taints n) (nc_Annotations n) (updatedRequirements a)
    (updatedInstanceTypes a) (Merge [nc_Requests n; Requests podData]) (nc_Pods n ++ [pod])
    (Volumes_Insert (nc_volumes n) vols) groups (hostname n) (toReserve a) (reservedOfferingMode n)
    (creditReservationCapacity n)).

(** ** Finalizing *)

Definition addDaemonRequests (n : NodeClaim) : ResourceList :=
  let minOverhead := foldl (λ acc g,
    if existsb (λ it, bool_decide (it ∈ InstanceTypeOptions n)) (dog_InstanceTypes g)
    then if (size acc =? 0)%nat then DaemonOverhead g else MinResources [acc; DaemonOverhead g]
    else acc) ∅ (daemonOverheadGroups n) in
  if (0 <? size minOverhead)%nat then Merge [nc_Requests n; minOverhead] else nc_Requests n.

Definition DRADriversAnnotationKey : string := Group +:+ "/requested-dra-drivers".

Definition with_finalized (n : NodeClaim) (annotations : annotations_ref) (requirements : Requirements)
    (requests : ResourceList) : NodeClaim :=
  mkNodeClaim (NodePoolName n) (nc_Taints n) annotations requirements (InstanceTypeOptions n) requests (nc_Pods n)
    (nc_volumes n) (daemonOverheadGroups n) (hostname n) (reservedOfferings n) (reservedOfferingMode n)
    (creditReservationCapacity n).

Definition requirement_In_all (key : string) (vals : list string) : Requirement :=
  mkRequirement (normalize_key key) false (list_to_set (normalize_values (normalize_key key) vals)) None None None None.

(** Without the placeholder hostname, and narrowed to the reserved offerings if there are any. *)
Definition finalized_requirements (ofs : list Offering) (requirements : Requirements) : Requirements :=
  let reqs := delete LabelHostname requirements in
  match ofs with
  | [] => reqs
  | _ => Add (<[CapacityTypeLabelKey := requirement_In CapacityTypeLabelKey CapacityTypeReserved]> reqs)
           [requirement_In_all ReservationIDLabel (ReservationID ReservationIDLabel draw <$> ofs)]
  end.

Definition FinalizeScheduling (store : gmap nat (gmap string string)) (n : NodeClaim) (drivers : list string) : NodeClaim :=
  let annotations := match drivers with
                     | [] => nc_Annotations n
                     | _ => Own (<[DRADriversAnnotationKey := Join (merge_sort String.le drivers) ","]>
                                   (annotations_of store (nc_Annotations n)))
                     end in
  with_finalized n annotations (finalized_requirements (reservedOfferings n) (nc_Requirements n)) (addDaemonRequests n).

(** The claim's instance types are replaced even when the result is an error. *)
Definition RemoveInstanceTypeOptionsByPriceAndMinValues (classes : capacityTypeClassState) (n : NodeClaim)
    (reqs : Requirements) (maxPrice : float64) : NodeClaim * option (gmap string Z) :=
  let its := filter (λ it, fltb (Fin (WorstLaunchPrice classes (Offerings_Launchable (Offerings it)) reqs)) maxPrice = true)
               (InstanceTypeOptions n) in
  let n := mkNodeClaim (NodePoolName n) (nc_Taints n) (nc_Annotations n) (nc_Requirements n) its (nc_Requests n)
             (nc_Pods n) (nc_volumes n) (daemonOverheadGroups n) (hostname n) (reservedOfferings n)
             (reservedOfferingMode n) (creditReservationCapacity n) in
  let unsatisfied := (SatisfiesMinValues its reqs).2 in
  (n, if (size unsatisfied =? 0)%nat then None else Some unsatisfied).

(** ** What the filter keeps *)

(** An offering that can be had and whose allocatable resources cover the requests. *)
Definition room_for (it : InstanceType) (requests : ResourceList) (requirements : Requirements) : Prop :=
  ∃ g o, g ∈ AllocatableOfferingsList override_text it ∧ o ∈ ao_Offerings g ∧
    IsCompatible requirements (of_Requirements o) WellKnownLabels = true ∧
    Fits requests (Allocatable_ g) = true.

Lemma fits_groups_spec requests requirements b groups :
  let '(f, h) := fits_groups requests requirements b groups in
  (f = true ↔ ∃ g, g ∈ groups ∧ Offerings_HasCompatible (ao_Offerings g) requirements = true ∧
     Fits requests (Allocatable_ g) = true) ∧ (f = true → h = true).
Proof.
  revert b. induction groups as [|g groups IH]; intros b; simpl.
  { split; [split; [done|]|done]. intros (g & Hg & _). by apply not_elem_of_nil in Hg. }
  destruct (Offerings_HasCompatible (ao_Offerings g) requirements) eqn:Eo.
  - destruct (Fits requests (Allocatable_ g)) eqn:Ef.
    + split; [|done]. split; [|done]. intros _. exists g. split_and!; [by left|done..].
    + specialize (IH true). destruct (fits_groups requests requirements true groups) as [f h].
      destruct IH as [IH Hh]. split; [|done]. rewrite IH. setoid_rewrite elem_of_cons. split; [naive_solver|].
      intros (g' & [->|Hg'] & H1 & H2); [congruence|eauto].
  - specialize (IH b). destruct (fits_groups requests requirements b groups) as [f h].
    destruct IH as [IH Hh]. split; [|done]. rewrite IH. setoid_rewrite elem_of_cons. split; [naive_solver|].
    intros (g' & [->|Hg'] & H1 & H2); [congruence|eauto].
Qed.

Lemma fits_room it requests requirements :
  ((fits it requests requirements).1 = true ↔ room_for it requests requirements) ∧
  ((fits it requests requirements).1 = true → (fits it requests requirements).2 = true).
Proof.
  unfold fits. pose proof (fits_groups_spec requests requirements false (AllocatableOfferingsList override_text it)) as H.
  destruct (fits_groups _ _ _ _) as [f h]. destruct H as [H Hh]. simpl. split; [|done]. rewrite H.
  unfold room_for, Offerings_HasCompatible. setoid_rewrite existsb_exists. setoid_rewrite <-list_elem_of_In. naive_solver.
Qed.

(** An instance type the filter accepts for a pod, in a group of daemon overhead. *)
Definition acceptable (requirements : Requirements) (total : ResourceList) (it : InstanceType) : Prop :=
  compatible it requirements = true ∧ room_for it total requirements.

Lemma filter_one_spec requirements total its st it :
  it ∈ (foldl (filter_one requirements total) st its).2 ↔
  it ∈ st.2 ∨ (it ∈ its ∧ acceptable requirements total it).
Proof.
  revert st. induction its as [|x its IH]; intros [e rem]; simpl.
  { rewrite elem_of_nil. naive_solver. }
  rewrite IH. clear IH. unfold filter_one. pose proof (fits_room x total requirements) as [Hr Hh].
  destruct (fits x total requirements) as [f h]. simpl in *. unfold acceptable at 2. rewrite elem_of_cons.
  assert (compatible x requirements && f && h = true ↔ acceptable requirements total x) as Ha.
  { unfold acceptable. rewrite <-Hr, !andb_true_iff. tauto. }
  fold (acceptable requirements total it).
  destruct (compatible x requirements && f && h).
  - rewrite elem_of_app, list_elem_of_singleton. destruct Ha as [Ha _]. specialize (Ha eq_refl).
    split; [|naive_solver]. intros [[?| ->]|[? ?]]; auto.
  - split; [naive_solver|]. intros [?|[[->|?] Hx]]; auto. by apply Ha in Hx.
Qed.

(** No pod of the claim or daemon of the group uses one of the pod's host ports. *)
Definition ports_free (pod : Pod) (group : DaemonOverheadGroup) : Prop :=
  HostPortUsage_Conflicts (dog_HostPortUsage group) (pod_key pod) (GetHostPorts ParseIP pod) = false.

Definition survives (instanceTypes : list InstanceType) (requirements : Requirements) (pod : Pod)
    (groups : list DaemonOverheadGroup) (totalRequests : ResourceList) (it : InstanceType) : Prop :=
  it ∈ instanceTypes ∧ ∃ g, g ∈ groups ∧ it ∈ dog_InstanceTypes g ∧ ports_free pod g ∧
    acceptable requirements (total_with_daemons g totalRequests) it.

Lemma filter_groups_spec instanceTypes requirements pod total groups st it :
  it ∈ (foldl (filter_group instanceTypes requirements pod total) st groups).2 ↔
  it ∈ st.2 ∨ survives instanceTypes requirements pod groups total it.
Proof.
  revert st. induction groups as [|g groups IH]; intros [e rem]; simpl.
  { unfold survives. setoid_rewrite elem_of_nil. naive_solver. }
  rewrite IH. clear IH. unfold filter_group, survives, ports_free.
  destruct (HostPortUsage_Conflicts (dog_HostPortUsage g) _ _) eqn:Ec.
  - setoid_rewrite elem_of_cons. split; [naive_solver|].
    intros [?|(Hi & g' & [->|Hg'] & H1 & H2 & H3)]; [auto|congruence|eauto 8].
  - rewrite filter_one_spec. simpl. rewrite list_elem_of_filter. setoid_rewrite elem_of_cons. split.
    + intros [[?|((? & ?) & ?)]|?]; [auto| |naive_solver]. right. split; [done|]. exists g. auto.
    + intros [?|(Hi & g' & [->|Hg'] & H1 & H2 & H3)]; [auto| |]; [left; right; auto|right; eauto 8].
Qed.

Lemma filterInstanceTypes_Ok instanceTypes requirements pod requests groups total relax l :
  (filterInstanceTypesByRequirements instanceTypes requirements pod requests groups total relax).1 = Ok l →
  l ≠ [] ∧ (∀ it, it ∈ l ↔ survives instanceTypes requirements pod groups total it) ∧
  (relax = false → HasMinValues requirements = true → (SatisfiesMinValues l requirements).2 = ∅).
Proof.
  unfold filterInstanceTypesByRequirements.
  pose proof (filter_groups_spec instanceTypes requirements pod total groups (new_filter_error requirements requests, [])) as Hf.
  destruct (foldl _ _ groups) as [e rem]. simpl in Hf.
  assert (∀ it, it ∈ rem ↔ survives instanceTypes requirements pod groups total it) as Hs.
  { intros it. rewrite Hf, elem_of_nil. naive_solver. }
  clear Hf. destruct (HasMinValues requirements).
  - destruct (size (SatisfiesMinValues rem requirements).2 =? 0)%nat eqn:En.
    + simpl. destruct rem; [done|]. intros [= <-]. split_and!; [done..|].
      intros _ _. apply Nat.eqb_eq in En. by apply map_size_empty_inv in En.
    + destruct relax; simpl; [|done]. destruct rem; [done|]. intros [= <-]. split_and!; done.
  - simpl. destruct rem; [done|]. intros [= <-]. split_and!; done.
Qed.

(** ** Relaxing minValues does not change what is allowed *)

Definition relaxed_by (keys : gmap string Z) (k : string) (r : Requirement) : Requirement :=
  match keys !! k with Some mv => SetMinValues r mv | None => r end.

Lemma relax_min_values_lookup r keys k : relax_min_values r keys !! k = relaxed_by keys k <$> r !! k.
Proof.
  unfold relax_min_values, relaxed_by. revert k.
  refine (map_fold_weak_ind (λ (acc : Requirements) (m : gmap string Z), ∀ k, acc !! k =
    (λ x, match m !! k with Some mv => SetMinValues x mv | None => x end) <$> r !! k) _ _ _ _ keys).
  - intros k. rewrite lookup_empty. by destruct (r !! k).
  - intros i mv m acc Hi IH k. rewrite lookup_alter. rewrite IH, lookup_insert. case_decide as E'; [subst|done].
    rewrite Hi. by destruct (r !! k).
Qed.

Lemma relaxed_same keys k r q :
  HasIntersection (relaxed_by keys k r) q = HasIntersection r q ∧ HasIntersection q (relaxed_by keys k r) = HasIntersection q r ∧
  absent_ok (relaxed_by keys k r) = absent_ok r ∧ (∀ v, Has (relaxed_by keys k r) v = Has r v).
Proof. unfold relaxed_by. by destruct (keys !! k). Qed.

Lemma Intersects_relax_l r q keys : Intersects (relax_min_values r keys) q = [] ↔ Intersects r q = [].
Proof.
  rewrite !Intersects_nil. setoid_rewrite relax_min_values_lookup. split; intros HI k a b Ha Hb.
  - specialize (HI k (relaxed_by keys k a) b). rewrite Ha in HI. specialize (HI eq_refl Hb).
    by destruct (relaxed_same keys k a b) as (<- & _ & <- & _).
  - destruct (r !! k) as [a'|] eqn:Hr; [|done]. injection Ha as <-.
    destruct (relaxed_same keys k a' b) as (-> & _ & -> & _). eauto.
Qed.

Lemma Intersects_relax_r r q keys : Intersects q (relax_min_values r keys) = [] ↔ Intersects q r = [].
Proof.
  rewrite !Intersects_nil. setoid_rewrite relax_min_values_lookup. split; intros HI k a b Ha Hb.
  - specialize (HI k a (relaxed_by keys k b) Ha). rewrite Hb in HI. specialize (HI eq_refl).
    by destruct (relaxed_same keys k b a) as (_ & <- & <- & _).
  - destruct (r !! k) as [b'|] eqn:Hr; [|done]. injection Hb as <-.
    destruct (relaxed_same keys k b' a) as (_ & -> & -> & _). eauto.
Qed.

Lemma IsCompatible_relax r q keys au : IsCompatible (relax_min_values r keys) q au = IsCompatible r q au.
Proof.
  apply eq_true_iff_eq. rewrite !IsCompatible_iff, Intersects_relax_l. setoid_rewrite relax_min_values_lookup.
  setoid_rewrite fmap_is_Some. done.
Qed.

Lemma acceptable_relax r keys total it : acceptable (relax_min_values r keys) total it ↔ acceptable r total it.
Proof.
  unfold acceptable, compatible, room_for. setoid_rewrite IsCompatible_relax.
  pose proof (Intersects_relax_r r (it_Requirements it) keys) as HI.
  destruct (Intersects (it_Requirements it) (relax_min_values r keys)), (Intersects (it_Requirements it) r); naive_solver.
Qed.

(** ** What [CanAdd] guarantees *)

Lemma result_bind_Ok {Er A B} (f : A → result Er B) m b : (m ≫= f) = Ok b ↔ ∃ a, m = Ok a ∧ f a = Ok b.
Proof. destruct m; simpl; naive_solver. Qed.

Lemma check_Ok errs wrap : check errs wrap = Ok () ↔ errs = [].
Proof. by destruct errs. Qed.

(** The requirements before minValues are relaxed. *)
Definition relaxes_to (relax : bool) (reqs reqs' : Requirements) : Prop :=
  reqs' = reqs ∨ (relax = true ∧ ∃ keys, reqs' = relax_min_values reqs keys).

Definition narrower (r r' : Requirements) : Prop := ∀ k v, Has (Get r k) v = true → Has (Get r' k) v = true.

Lemma relaxes_to_narrower relax reqs reqs' : relaxes_to relax reqs reqs' → narrower reqs' reqs.
Proof.
  intros [->|(_ & keys & ->)] k v; [done|]. unfold Get. rewrite relax_min_values_lookup.
  destruct (reqs !! k) as [q|]; [|done]. simpl. by destruct (relaxed_same keys k q q) as (_ & _ & _ & ->).
Qed.

Lemma relaxes_to_acceptable relax reqs reqs' total it :
  relaxes_to relax reqs reqs' → acceptable reqs total it → acceptable reqs' total it.
Proof. intros [->|(_ & keys & ->)]; [done|]. apply acceptable_relax. Qed.

(** The allocator contributes well-formed requirements. *)
Definition allocator_wf : Prop :=
  ∀ f h r c res, allocator = Some f → f h r c = Some res → requirements_wf (ar_Requirements res).

Lemma narrower_Add r q : requirements_wf q → narrower (Add r (Values q)) r ∧ narrower (Add r (Values q)) q.
Proof. intros Hw. split; intros k v; rewrite Add_Values_Has, andb_true_iff by done; tauto. Qed.

Lemma narrower_trans r1 r2 r3 : narrower r1 r2 → narrower r2 r3 → narrower r1 r3.
Proof. unfold narrower. eauto. Qed.

(** The requirements after the volume alternative and the devices are merged in. *)
Lemma merge_alternatives n podData base v (r1 r2 : Requirements) allocation :
  allocator_wf → requirements_wf base → (∀ q, v = Some q → requirements_wf q) →
  match v with
  | None => Ok (NewRequirements (Values base))
  | Some q => _ ← check (Compatible (NewRequirements (Values base)) q WellKnownLabels) IncompatibleVolumeRequirements;
              Ok (Add (NewRequirements (Values base)) (Values q))
  end = Ok r1 →
  allocate_devices n podData r1 = Ok allocation →
  match allocation with
  | None => Ok r1
  | Some r => _ ← check (Compatible r1 (ar_Requirements r) WellKnownLabels) IncompatibleRequirements;
              Ok (Add r1 (Values (ar_Requirements r)))
  end = Ok r2 →
  requirements_wf r2 ∧ narrower r2 base ∧ (∀ q, v = Some q → narrower r2 q).
Proof.
  intros Hal Hb Hv E1 E2 E3.
  assert (requirements_wf r1 ∧ narrower r1 base ∧ (∀ q, v = Some q → narrower r1 q)) as (W1 & N1 & N1').
  { pose proof (NewRequirements_wf base Hb) as Hw.
    assert (narrower (NewRequirements (Values base)) base) as Hn by (intros k w; by rewrite NewRequirements_Has).
    destruct v as [q|]; [|injection E1 as <-; done].
    apply result_bind_Ok in E1 as ([] & _ & [= <-]). specialize (Hv q eq_refl).
    destruct (narrower_Add (NewRequirements (Values base)) q Hv) as [Ha Hq].
    split_and!; [by apply Add_Values_wf|by eauto using narrower_trans|by intros ? [= <-]]. }
  destruct allocation as [r|]; [|injection E3 as <-; done].
  apply result_bind_Ok in E3 as ([] & _ & [= <-]).
  assert (requirements_wf (ar_Requirements r)) as Wr.
  { unfold allocate_devices in E2. destruct allocator as [f|] eqn:Ea; [|done].
    destruct (HasResourceClaimRequests podData); [|done]. destruct (ResourceClaimErr podData); [done|].
    destruct (f _ _ _) eqn:Ef; [|done]. injection E2 as ->. eauto. }
  destruct (narrower_Add r1 (ar_Requirements r) Wr) as [Ha _].
  split_and!; [by apply Add_Values_wf|by eauto using narrower_trans|intros q Hq; eapply narrower_trans; eauto].
Qed.

Lemma tryVolumeAlternative_Ok t rm n pod podData its base v relax a :
  allocator_wf → requirements_wf base → (∀ q, v = Some q → requirements_wf q) →
  tryVolumeAlternative t rm n pod podData its base v relax = Ok a →
  ∃ r0 topo, let reqs := Add r0 (Values topo) in
    requirements_wf r0 ∧ narrower r0 base ∧ (∀ q, v = Some q → narrower r0 q) ∧
    AddRequirements (E := E) t pod (nc_Taints n) (StrictRequirements podData) r0 WellKnownLabels = Ok topo ∧
    relaxes_to relax reqs (updatedRequirements a) ∧ updatedInstanceTypes a ≠ [] ∧
    (∀ it, it ∈ updatedInstanceTypes a →
       survives its reqs pod (daemonOverheadGroups n) (Merge [nc_Requests n; Requests podData]) it) ∧
    offeringsToReserve rm n (updatedInstanceTypes a) (updatedRequirements a) = Ok (toReserve a).
Proof.
  intros Hal Hb Hv. unfold tryVolumeAlternative.
  intros (r1 & E1 & (allocation & E2 & (r2 & E3 & HR)%result_bind_Ok)%result_bind_Ok)%result_bind_Ok.
  destruct (merge_alternatives n podData base v r1 r2 allocation Hal Hb Hv E1 E2 E3) as (W2 & N2 & N2').
  destruct (AddRequirements _ _ _ _ _ _) as [topo|] eqn:Et; [|done].
  apply result_bind_Ok in HR as ([] & _ & HR). exists r2, topo.
  destruct (filterInstanceTypesByRequirements _ _ _ _ _ _ _) as [filtered keys] eqn:Ef.
  destruct filtered as [remaining|]; [|done].
  destruct (filterInstanceTypes_Ok _ _ _ _ _ _ _ remaining (f_equal fst Ef)) as (Hne & Hs & _).
  apply result_bind_Ok in HR as (kept & Ek & (ofs & Eo & [= <-])%result_bind_Ok). simpl.
  assert (kept ≠ [] ∧ ∀ it, it ∈ kept → it ∈ remaining) as [Hkne Hk].
  { destruct allocation as [r|]; [|by injection Ek as <-].
    destruct (filter _ remaining) as [|x l] eqn:Efil; [done|]. injection Ek as <-. split; [done|].
    intros it Hit. rewrite <-Efil in Hit. by apply list_elem_of_filter in Hit as [_ ?]. }
  split_and!; try done.
  - destruct relax; [right; eauto|by left].
  - intros it Hit. by apply Hs, Hk.
Qed.

Lemma try_alternatives_Ok {A} final (attempt : option Requirements → result (add_error E) A) podData a :
  try_alternatives final attempt podData = Ok a →
  ∃ v, attempt v = Ok a ∧ (∀ q, v = Some q → q ∈ VolumeRequirements podData) ∧
    (VolumeRequirements podData ≠ [] → is_Some v).
Proof.
  unfold try_alternatives.
  assert (∀ rest v, first_alternative final attempt v rest = Ok a →
    ∃ v', attempt v' = Ok a ∧ (v' = v ∨ ∃ q, q ∈ rest ∧ v' = Some q)) as Hf.
  { induction rest as [|q rest IH]; intros v; simpl; (destruct (attempt v) as [x|e] eqn:Ea;
      [intros [= ->]; eexists; split; [exact Ea|by left]|]); (destruct (final e); [done|]); [done|].
    intros (v' & Hv' & [->|(q' & Hq' & ->)])%IH; eexists; (split; [done|right]).
    - exists q. split; [by left|done].
    - exists q'. split; [by right|done]. }
  destruct (VolumeRequirements podData) as [|q rest].
  - intros (v & Hv & [->|(q & Hq & _)])%Hf; [|by apply not_elem_of_nil in Hq]. exists None. by split_and!.
  - intros (v & Hv & [->|(q' & Hq' & ->)])%Hf; eexists; (split_and!; [exact Hv| |by eauto]);
    intros ? [= <-]; [by left|by right].
Qed.

(** C33: a pod that [CanAdd] accepts is placed soundly.  The pod tolerates the claim's
    taints; the new requirements allow only what the claim, the pod, one of the
    pod's volume alternatives and the topology allow; and every instance type kept was
    an option of the claim and has a compatible available offering with room for
    all pods and the daemons of its group, with the pod's host ports free. *)
Theorem NodeClaim_CanAdd_sound `{!StableRegistry} t rm n pod podData vols relax a :
  allocator_wf → requirements_wf (nc_Requirements n) → requirements_wf (pd_Requirements podData) →
  Forall requirements_wf (VolumeRequirements podData) →
  NodeClaim_CanAdd t rm n pod podData vols relax = Ok a →
  ToleratesPod (nc_Taints n) pod = [] ∧
  narrower (updatedRequirements a) (nc_Requirements n) ∧
  narrower (updatedRequirements a) (pd_Requirements podData) ∧
  (VolumeRequirements podData ≠ [] → ∃ q, q ∈ VolumeRequirements podData ∧ narrower (updatedRequirements a) q) ∧
  (∃ r0 topo, AddRequirements (E := E) t pod (nc_Taints n) (StrictRequirements podData) r0 WellKnownLabels = Ok topo ∧
     narrower (updatedRequirements a) topo) ∧
  updatedInstanceTypes a ≠ [] ∧
  (∀ it, it ∈ updatedInstanceTypes a →
     it ∈ InstanceTypeOptions n ∧
     ∃ g, g ∈ daemonOverheadGroups n ∧ it ∈ dog_InstanceTypes g ∧ ports_free pod g ∧
       acceptable (updatedRequirements a) (total_with_daemons g (Merge [nc_Requests n; Requests podData])) it).
Proof.
  intros Hal Hn Hp Hvol. unfold NodeClaim_CanAdd. destruct (ToleratesPod (nc_Taints n) pod) as [|tn ts]; [|done].
  destruct (_ && _); [done|]. intros ([] & _ & HR)%result_bind_Ok.
  apply try_alternatives_Ok in HR as (v & HR & Hv & Hvs).
  set (base := Add (NewRequirements (Values (nc_Requirements n))) (Values (pd_Requirements podData))) in *.
  destruct (narrower_Add (NewRequirements (Values (nc_Requirements n))) (pd_Requirements podData) Hp) as [Hb1 Hb2].
  apply tryVolumeAlternative_Ok in HR as (r0 & topo & W0 & N0 & Nv & Et & Hrel & Hne & Hs & _); [|done| |].
  2: { apply Add_Values_wf; [by apply NewRequirements_wf|done]. }
  2: { intros q Hq. rewrite Forall_forall in Hvol. by apply Hvol, Hv. }
  pose proof (AddRequirements_wf _ _ _ _ _ _ _ W0 Et) as Wt.
  destruct (narrower_Add r0 topo Wt) as [Nr Nt]. pose proof (relaxes_to_narrower _ _ _ Hrel) as Nrel.
  assert (narrower (updatedRequirements a) base) as Nbase by (eauto using narrower_trans).
  split_and!; [done| |by eauto using narrower_trans| |by eauto using narrower_trans|done|].
  - eapply narrower_trans; [exact Nbase|]. eapply narrower_trans; [exact Hb1|]. intros k w. by rewrite NewRequirements_Has.
  - intros Hv0. destruct (Hvs Hv0) as [q ->]. exists q. split; [by apply Hv|]. eauto using narrower_trans.
  - intros it Hit. destruct (Hs it Hit) as (Hin & g & Hg & Hitg & Hpf & Hacc). split.
    + destruct (size vols =? 0)%nat; [done|]. by apply list_elem_of_filter in Hin as [_ ?].
    + exists g. split_and!; try done. by eapply relaxes_to_acceptable.
Qed.

(** ** A claim never overcommits its instance types *)

Lemma tryVolumeAlternative_types t rm n pod podData its base v relax a :
  tryVolumeAlternative t rm n pod podData its base v relax = Ok a →
  ∀ it, it ∈ updatedInstanceTypes a →
    it ∈ its ∧ ∃ g, g ∈ daemonOverheadGroups n ∧ it ∈ dog_InstanceTypes g ∧ ports_free pod g ∧
      acceptable (updatedRequirements a) (total_with_daemons g (Merge [nc_Requests n; Requests podData])) it.
Proof.
  unfold tryVolumeAlternative.
  intros (r1 & _ & (allocation & _ & (r2 & _ & HR)%result_bind_Ok)%result_bind_Ok)%result_bind_Ok.
  destruct (AddRequirements _ _ _ _ _ _) as [topo|]; [|done].
  apply result_bind_Ok in HR as ([] & _ & HR).
  destruct (filterInstanceTypesByRequirements _ _ _ _ _ _ _) as [filtered keys] eqn:Ef.
  destruct filtered as [remaining|]; [|done].
  destruct (filterInstanceTypes_Ok _ _ _ _ _ _ _ remaining (f_equal fst Ef)) as (_ & Hs & _).
  apply result_bind_Ok in HR as (kept & Ek & (ofs & _ & [= <-])%result_bind_Ok). simpl. intros it Hit.
  assert (it ∈ remaining) as Hrem.
  { destruct allocation as [r|]; [|by injection Ek as <-].
    destruct (filter _ remaining) as [|x l] eqn:Efil; [done|]. injection Ek as <-.
    rewrite <-Efil in Hit. by apply list_elem_of_filter in Hit as [_ ?]. }
  apply Hs in Hrem as (Hin & g & Hg & Hitg & Hpf & Hacc). split; [done|]. exists g. split_and!; try done.
  destruct relax; [by apply acceptable_relax|done].
Qed.

Lemma CanAdd_types t rm n pod podData vols relax a :
  NodeClaim_CanAdd t rm n pod podData vols relax = Ok a →
  ∀ it, it ∈ updatedInstanceTypes a →
    it ∈ InstanceTypeOptions n ∧ ∃ g, g ∈ daemonOverheadGroups n ∧ it ∈ dog_InstanceTypes g ∧ ports_free pod g ∧
      acceptable (updatedRequirements a) (total_with_daemons g (Merge [nc_Requests n; Requests podData])) it.
Proof.
  unfold NodeClaim_CanAdd. destruct (ToleratesPod (nc_Taints n) pod); [|done].
  destruct (_ && _); [done|]. intros ([] & _ & HR)%result_bind_Ok.
  apply try_alternatives_Ok in HR as (v & HR & _ & _). intros it Hit.
  destruct (tryVolumeAlternative_types _ _ _ _ _ _ _ _ _ _ HR it Hit) as (Hin & Hg). split; [|done].
  destruct (size vols =? 0)%nat; [done|]. by apply list_elem_of_filter in Hin as [_ ?].
Qed.

(** A pod is checked and then added; the topology and the reservations may have been
    changed by other claims in between steps. *)
Inductive claim_step : NodeClaim → PodData → NodeClaim → Prop :=
| claim_placed t rm n pod podData vols relax a t' rm' n' :
    NodeClaim_CanAdd t rm n pod podData vols relax = Ok a →
    NodeClaim_Add t rm n pod podData vols a = Some (t', rm', n') →
    claim_step n podData n'.

Inductive claim_run (n0 : NodeClaim) : list PodData → NodeClaim → Prop :=
| claim_run_nil : claim_run n0 [] n0
| claim_run_snoc l n podData n' :
    claim_run n0 l n → claim_step n podData n' → claim_run n0 (l ++ [podData]) n'.

Lemma total_with_daemons_qty g total k : qty (total_with_daemons g total) k = (qty total k + qty (DaemonOverhead g) k)%Z.
Proof.
  unfold total_with_daemons, MergeInto. destruct (size (DaemonOverhead g) =? 0)%nat eqn:Es.
  - apply Nat.eqb_eq, map_size_empty_inv in Es. rewrite Es. unfold qty at 3. rewrite lookup_empty. simpl. lia.
  - simpl. rewrite !add_into_qty. unfold qty at 1. rewrite lookup_empty. simpl. lia.
Qed.

Lemma claim_step_requests n podData n' k :
  claim_step n podData n' → qty (nc_Requests n') k = (qty (nc_Requests n) k + qty (Requests podData) k)%Z.
Proof.
  intros [t rm n1 pod pd vols relax a t' rm' n1' _ HA]. unfold NodeClaim_Add in HA.
  apply bind_Some in HA as (rm1 & _ & [= <- <- <-]). simpl. rewrite !add_into_qty. unfold qty at 1. rewrite lookup_empty. simpl. lia.
Qed.

(** A node claim never overcommits.  However many pods are added to it, and
    whatever happens to the topology and the reservations in between, each of its
    remaining instance types has an available offering, compatible with the claim's
    requirements, whose allocatable resources cover the requests of all the pods
    together with the daemons of the instance type's group. *)
Theorem nodeclaim_never_overcommits n0 l n :
  claim_run n0 l n → l ≠ [] →
  ∀ it, it ∈ InstanceTypeOptions n →
    ∃ g ag o, g ∈ daemonOverheadGroups n ∧ it ∈ dog_InstanceTypes g ∧
      ag ∈ AllocatableOfferingsList override_text it ∧ o ∈ ao_Offerings ag ∧
      IsCompatible (nc_Requirements n) (of_Requirements o) WellKnownLabels = true ∧
      ∀ k, (qty (nc_Requests n0) k + sumZ ((λ pd, qty (Requests pd) k) <$> l) + qty (DaemonOverhead g) k
            ≤ qty (Allocatable_ ag) k)%Z.
Proof.
  intros Hrun Hl it Hit.
  assert (∀ l n k, claim_run n0 l n → qty (nc_Requests n) k = (qty (nc_Requests n0) k + sumZ ((λ pd, qty (Requests pd) k) <$> l))%Z) as Hq.
  { intros l' n' k. induction 1 as [|l1 n1 pd n2 _ IH Hs]; [simpl; lia|].
    rewrite (claim_step_requests _ _ _ k Hs), IH, fmap_app, sumZ_app. csimpl. lia. }
  destruct Hrun as [|l' n1 podData n' Hrun Hs]; [done|]. pose proof (claim_run_snoc _ _ _ _ _ Hrun Hs) as Hrun'.
  pose proof (λ k, claim_step_requests _ _ _ k Hs) as Hreq. pose proof (λ k, Hq _ _ k Hrun') as Htot.
  destruct Hs as [t rm n1 pod pd vols relax a t' rm' n' HC HA].
  unfold NodeClaim_Add in HA. apply bind_Some in HA as (rm1 & _ & [= <- <- <-]).
  destruct (CanAdd_types _ _ _ _ _ _ _ _ HC it Hit) as (_ & g & Hg & Hitg & _ & _ & (ag & o & Hag & Ho & Hc & Hf)).
  exists (mkDaemonOverheadGroup (dog_InstanceTypes g) (DaemonOverhead g)
    (HostPortUsage_Add (dog_HostPortUsage g) (pod_key pod) (GetHostPorts ParseIP pod))), ag, o.
  split_and!; try done; [simpl; apply list_elem_of_fmap; eauto|].
  intros k. rewrite <-Htot. simpl. apply (Fits_qty _ _ k) in Hf. by rewrite total_with_daemons_qty in Hf.
Qed.

(** ** Reserved capacity *)

Abbreviation resID := (ReservationID ReservationIDLabel draw).

(** A reserved offering the claim could use, with capacity or a credited slot. *)
Definition reserved_candidate (n : NodeClaim) (requirements : Requirements) (o : Offering) : Prop :=
  Available o = true ∧ IsCompatible requirements (of_Requirements o) WellKnownLabels = true ∧
  Offering_CapacityType draw o = CapacityTypeReserved ∧
  ¬ (ReservationCapacity o = 0%Z ∧ default 0%Z (creditReservationCapacity n !! resID o) = 0%Z).

Lemma scan_offering_spec rm n requirements st o st' :
  scan_offering rm n requirements st o = Some st' →
  (∀ x, x ∈ scan_offerings st' ↔ x ∈ scan_offerings st ∨
     (x = o ∧ reserved_candidate n requirements o ∧ CanReserve ReservationIDLabel draw rm (hostname n) o = Some true)) ∧
  (reservedWithCapacity st' = true ↔ reservedWithCapacity st = true ∨ reserved_candidate n requirements o).
Proof.
  unfold scan_offering, reserved_candidate.
  destruct (Available o); simpl; [|intros [= <-]; naive_solver].
  destruct (IsCompatible requirements (of_Requirements o) WellKnownLabels); simpl; [|intros [= <-]; naive_solver].
  destruct (read_CapacityType draw o) as [ct|] eqn:Ect; [|done].
  assert (ct = Offering_CapacityType draw o) as -> by (unfold Offering_CapacityType; by rewrite Ect). clear Ect. cbn [mbind option_bind].
  destruct (bool_decide (Offering_CapacityType draw o = CapacityTypeReserved)) eqn:Ec; simpl.
  2: { apply bool_decide_eq_false in Ec. intros [= <-]; simpl. naive_solver. }
  apply bool_decide_eq_true in Ec. destruct (read_ReservationID ReservationIDLabel draw o) as [i|] eqn:Ei; [|done].
  assert (i = resID o) as -> by (unfold ReservationID; by rewrite Ei). clear Ei. cbn [mbind option_bind].
  destruct ((ReservationCapacity o =? 0)%Z && _) eqn:Ez.
  { apply andb_true_iff in Ez as [E1%Z.eqb_eq E2%Z.eqb_eq]. intros [= <-]; simpl. naive_solver. }
  assert (¬ (ReservationCapacity o = 0%Z ∧ default 0%Z (creditReservationCapacity n !! resID o) = 0%Z)) as Hz.
  { intros [E1 E2]. rewrite E1, E2 in Ez. done. }
  intros (can & Hcan & [= <-])%bind_Some; simpl. split; [|naive_solver].
  intros x. destruct can; [rewrite elem_of_app, list_elem_of_singleton|]; naive_solver.
Qed.

Lemma scan_offerings_spec rm n requirements ofs st st' :
  foldl_opt (scan_offering rm n requirements) st ofs = Some st' →
  (∀ x, x ∈ scan_offerings st' ↔ x ∈ scan_offerings st ∨
     (x ∈ ofs ∧ reserved_candidate n requirements x ∧ CanReserve ReservationIDLabel draw rm (hostname n) x = Some true)) ∧
  (reservedWithCapacity st' = true ↔
     reservedWithCapacity st = true ∨ ∃ x, x ∈ ofs ∧ reserved_candidate n requirements x).
Proof.
  revert st. induction ofs as [|o ofs IH]; intros st; simpl.
  { intros [= <-]. setoid_rewrite elem_of_nil. naive_solver. }
  intros (st1 & Hs & [H1 H2]%IH)%bind_Some. apply scan_offering_spec in Hs as [Hx Hr].
  setoid_rewrite elem_of_cons. split.
  - intros x. rewrite H1, Hx. naive_solver.
  - rewrite H2, Hr. naive_solver.
Qed.

Lemma offeringsToReserve_Ok rm n its requirements ofs :
  offeringsToReserve rm n its requirements = Ok ofs →
  (∀ o, o ∈ ofs → CanReserve ReservationIDLabel draw rm (hostname n) o = Some true) ∧
  (ReservedCapacity = true →
   (∀ o, o ∈ ofs ↔ o ∈ concat (Offerings <$> its) ∧ reserved_candidate n requirements o ∧
     CanReserve ReservationIDLabel draw rm (hostname n) o = Some true) ∧
   (reservedOfferingMode n = ReservedOfferingModeStrict →
    (∃ it o, it ∈ its ∧ o ∈ Offerings it ∧ reserved_candidate n requirements o) ∨ reservedOfferings n ≠ [] →
    ofs ≠ [])).
Proof.
  unfold offeringsToReserve. destruct ReservedCapacity; simpl; [|intros [= <-]; split; [by intros ? ?%not_elem_of_nil|done]].
  destruct (foldl_opt _ _ _) as [scan|] eqn:Es; [|done].
  apply scan_offerings_spec in Es as [Hs Hr]. simpl in *.
  assert (∀ o, o ∈ scan_offerings scan ↔ o ∈ concat (Offerings <$> its) ∧ reserved_candidate n requirements o ∧
     CanReserve ReservationIDLabel draw rm (hostname n) o = Some true) as Hs'.
  { intros o. rewrite Hs, elem_of_nil. naive_solver. }
  destruct (bool_decide _ && reservedWithCapacity scan && _) eqn:E1; [done|].
  destruct (reservedFull scan && _ && _) eqn:E2; [done|].
  destruct (bool_decide _ && negb (length (reservedOfferings n) =? 0)%nat && _) eqn:E3; [done|]. intros [= <-]. split; [naive_solver|]. intros _. split; [done|].
  intros Hm Hx He. rewrite bool_decide_eq_true_2 in E1, E3 by done. rewrite He in E1, E3. simpl in E1, E3.
  rewrite andb_true_r in E1, E3. destruct Hx as [(it & o & Hit & Ho & Hc)|Hx].
  - assert (reservedWithCapacity scan = true) as Hw; [|congruence]. apply Hr. right. exists o. split; [|done].
    apply list_elem_of_In, in_concat. exists (Offerings it). split; apply list_elem_of_In; [|done].
    by apply list_elem_of_fmap_2.
  - destruct (reservedOfferings n); [done|]. done.
Qed.

(** In strict mode a pod is never moved off reserved capacity: if the kept
    instance types have a compatible reserved offering with capacity or credit, or
    the claim already has reservations, then the pod is only accepted together
    with at least one reservation it can make; all reservations are of this kind. *)
Theorem strict_mode_reserves rm n its requirements ofs :
  ReservedCapacity = true → reservedOfferingMode n = ReservedOfferingModeStrict →
  offeringsToReserve rm n its requirements = Ok ofs →
  (∀ o, o ∈ ofs ↔ o ∈ concat (Offerings <$> its) ∧ reserved_candidate n requirements o ∧
     CanReserve ReservationIDLabel draw rm (hostname n) o = Some true) ∧
  ((∃ it o, it ∈ its ∧ o ∈ Offerings it ∧ reserved_candidate n requirements o) ∨ reservedOfferings n ≠ [] →
   ofs ≠ []).
Proof. intros Hc Hm [_ H]%offeringsToReserve_Ok. destruct (H Hc) as [H1 H2]. auto. Qed.

Lemma Release_other rm h o id : id ≠ resID o → holds (Release ReservationIDLabel draw rm h [o]) h id = holds rm h id.
Proof.
  intros Hne. unfold Release, Release1; simpl. destruct (holds rm h (resID o)); [|done].
  unfold holds; simpl. rewrite lookup_insert_eq; simpl. apply bool_decide_ext. set_solver.
Qed.

Lemma releaseReservedOfferings_keeps rm n current updated o :
  o ∈ updated → holds rm (hostname n) (resID o) = true →
  holds (releaseReservedOfferings rm n current updated) (hostname n) (resID o) = true.
Proof.
  intros Ho. unfold releaseReservedOfferings. revert rm.
  induction current as [|c current IH]; intros rm Hh; [done|]. cbn [foldl]. apply IH.
  destruct (bool_decide (resID c ∈ resID <$> updated)) eqn:Ec; [done|]. apply bool_decide_eq_false in Ec.
  rewrite Release_other; [done|]. intros Heq. apply Ec. rewrite <-Heq. by apply list_elem_of_fmap_2.
Qed.

Lemma CanAdd_reservable t rm n pod podData vols relax a :
  NodeClaim_CanAdd t rm n pod podData vols relax = Ok a →
  ∀ o, o ∈ toReserve a → CanReserve ReservationIDLabel draw rm (hostname n) o = Some true.
Proof.
  unfold NodeClaim_CanAdd. destruct (ToleratesPod (nc_Taints n) pod); [|done].
  destruct (_ && _); [done|]. intros ([] & _ & HR)%result_bind_Ok.
  apply try_alternatives_Ok in HR as (v & HR & _ & _). unfold tryVolumeAlternative in HR.
  apply result_bind_Ok in HR as (r1 & _ & (allocation & _ & (r2 & _ & HR)%result_bind_Ok)%result_bind_Ok).
  destruct (AddRequirements _ _ _ _ _ _) as [topo|]; [|done].
  apply result_bind_Ok in HR as ([] & _ & HR).
  destruct (filterInstanceTypesByRequirements _ _ _ _ _ _ _) as [[remaining|] keys]; [|done].
  apply result_bind_Ok in HR as (kept & _ & (ofs & Ho & [= <-])%result_bind_Ok). simpl.
  by apply offeringsToReserve_Ok in Ho as [? _].
Qed.

(** What is reserved are offerings of the remaining instance types that the claim can use. *)
Lemma CanAdd_reserves t rm n pod podData vols relax a :
  NodeClaim_CanAdd t rm n pod podData vols relax = Ok a →
  ∀ o, o ∈ toReserve a → ∃ it, it ∈ updatedInstanceTypes a ∧ o ∈ Offerings it ∧ reserved_candidate n (updatedRequirements a) o.
Proof.
  unfold NodeClaim_CanAdd. destruct (ToleratesPod (nc_Taints n) pod); [|done].
  destruct (_ && _); [done|]. intros ([] & _ & HR)%result_bind_Ok.
  apply try_alternatives_Ok in HR as (v & HR & _ & _). unfold tryVolumeAlternative in HR.
  apply result_bind_Ok in HR as (r1 & _ & (allocation & _ & (r2 & _ & HR)%result_bind_Ok)%result_bind_Ok).
  destruct (AddRequirements _ _ _ _ _ _) as [topo|]; [|done].
  apply result_bind_Ok in HR as ([] & _ & HR).
  destruct (filterInstanceTypesByRequirements _ _ _ _ _ _ _) as [[remaining|] keys]; [|done].
  apply result_bind_Ok in HR as (kept & _ & (ofs & Ho & [= <-])%result_bind_Ok). simpl. intros o Hin.
  destruct ReservedCapacity eqn:ER; [|unfold offeringsToReserve in Ho; rewrite ER in Ho; injection Ho as <-; by apply not_elem_of_nil in Hin].
  destruct (proj2 (offeringsToReserve_Ok _ _ _ _ _ Ho) ER) as [H _]. apply H in Hin as (Hc & Hr & _).
  apply list_elem_of_In, in_concat in Hc as (os & Hos%list_elem_of_In & Hoit%list_elem_of_In).
  apply list_elem_of_fmap in Hos as (it & -> & Hit). eauto.
Qed.

Lemma releaseReservedOfferings_wf rm n current updated :
  rm_wf rm → rm_wf (releaseReservedOfferings rm n current updated).
Proof.
  unfold releaseReservedOfferings. revert rm. induction current as [|c current IH]; intros rm Hwf; [done|]. cbn [foldl].
  apply IH. case_bool_decide; [done|]. eapply reservation_step_wf; [apply rstep_release|done].
Qed.

Lemma NodeClaim_Add_commits t rm n pod podData vols relax a :
  rm_wf rm → NodeClaim_CanAdd t rm n pod podData vols relax = Ok a →
  ∃ t' rm' n', NodeClaim_Add t rm n pod podData vols a = Some (t', rm', n') ∧
    nc_Pods n' = nc_Pods n ++ [pod] ∧ hostname n' = hostname n ∧ rm_wf rm' ∧
    ∀ o, o ∈ reservedOfferings n' → HasReservation ReservationIDLabel draw rm' (hostname n') o = true.
Proof.
  intros Hwf HC. pose proof (CanAdd_reservable _ _ _ _ _ _ _ _ HC) as Hcan.
  destruct (Reserve_progress ReservationIDLabel draw (hostname n) (toReserve a) rm Hwf) as (rm1 & Hr & _ & Hall).
  { intros o Ho. apply CanReserve_reservable; [done|]. by apply Hcan. }
  unfold NodeClaim_Add. rewrite Hr; simpl. eexists _, _, _. split_and!; [done..| |]; simpl.
  - apply releaseReservedOfferings_wf. by eapply reservation_step_wf; [eapply rstep_reserve|].
  - intros o Ho. unfold HasReservation. apply releaseReservedOfferings_keeps; auto.
Qed.

(** Committing what [CanAdd] returned cannot panic, and afterwards the remaining
    counts are not negative and the claim's host holds every reservation the claim lists. *)
Theorem NodeClaim_Add_total t rm n pod podData vols relax a :
  rm_wf rm → NodeClaim_CanAdd t rm n pod podData vols relax = Ok a →
  ∃ t' rm' n', NodeClaim_Add t rm n pod podData vols a = Some (t', rm', n') ∧
    nc_Pods n' = nc_Pods n ++ [pod] ∧ hostname n' = hostname n ∧ rm_wf rm' ∧
    ∀ o, o ∈ reservedOfferings n' → HasReservation ReservationIDLabel draw rm' (hostname n') o = true.
Proof. apply NodeClaim_Add_commits. Qed.

(** ** The manager knows every reservation that is looked up *)

Abbreviation known := (covered ReservationIDLabel draw).

Lemma scan_offering_covered rm n requirements st its it o : known rm its → it ∈ its → o ∈ Offerings it →
  is_Some (scan_offering rm n requirements st o).
Proof.
  intros Hk Hit Ho. unfold scan_offering. destruct (negb (Available o)); [done|]. destruct (negb (IsCompatible _ _ _)); [done|].
  destruct (Hk it o Hit Ho) as (ct & Hct & Hr). rewrite Hct. cbn [mbind option_bind].
  destruct (bool_decide_reflect (ct = CapacityTypeReserved)) as [->|]; cbn [negb]; [|done].
  destruct (Hr eq_refl) as (id & -> & _). cbn [mbind option_bind]. destruct (_ && _); [done|].
  destruct (CanReserve_covered ReservationIDLabel draw rm (hostname n) its it o Hk Hit Ho) as [can ->]; [|done].
  unfold Offering_CapacityType. by rewrite Hct.
Qed.

Lemma offeringsToReserve_no_panic rm n its requirements : known rm its → offeringsToReserve rm n its requirements ≠ Err ReservationPanic.
Proof.
  intros Hk. unfold offeringsToReserve. destruct (negb ReservedCapacity); [done|].
  assert (∀ ofs st, (∀ o, o ∈ ofs → ∃ it, it ∈ its ∧ o ∈ Offerings it) → is_Some (foldl_opt (scan_offering rm n requirements) st ofs)) as H.
  { induction ofs as [|o ofs IH]; intros st Hofs; cbn [foldl_opt]; [done|].
    destruct (Hofs o (list_elem_of_here _ _)) as (it & Hit & Ho). destruct (scan_offering_covered rm n requirements st its it o Hk Hit Ho) as [st' ->].
    cbn [mbind option_bind]. apply IH. intros o' Ho'. apply Hofs. by right. }
  destruct (H (concat (Offerings <$> its)) (mkScan false false false [])) as [scan ->].
  { intros o Ho%list_elem_of_In. apply in_concat in Ho as (l & Hl%list_elem_of_In & Ho%list_elem_of_In).
    apply list_elem_of_fmap in Hl as (it & -> & Hit). eauto. }
  by repeat case_match.
Qed.

Lemma tryVolumeAlternative_no_panic t rm n pod podData its base v relax : known rm its →
  tryVolumeAlternative t rm n pod podData its base v relax ≠ Err ReservationPanic.
Proof.
  intros Hk. unfold tryVolumeAlternative.
  assert (∀ errs w, (∀ e, w e ≠ ReservationPanic) → check errs w ≠ Err ReservationPanic) as Hcheck.
  { intros errs w Hw. unfold check. destruct errs; [done|]. intros [= He]. by destruct (Hw _ He). }
  assert (∀ A B (m : result (add_error E) A) (f : A → result (add_error E) B), m ≠ Err ReservationPanic →
    (∀ a, m = Ok a → f a ≠ Err ReservationPanic) → (m ≫= f) ≠ Err ReservationPanic) as Hbind.
  { intros A B [a|e] f Hm Hf; [by apply Hf|]. intros [= ->]. done. }
  apply Hbind. { destruct v; [|done]. apply Hbind; [by apply Hcheck|done]. }
  intros r1 _. apply Hbind. { unfold allocate_devices. by repeat case_match. }
  intros allocation _. apply Hbind. { destruct allocation; [|done]. apply Hbind; [by apply Hcheck|done]. }
  intros r2 _. destruct (AddRequirements _ _ _ _ _ _) as [topo|]; [|done]. apply Hbind; [by apply Hcheck|]. intros [] _.
  destruct (filterInstanceTypesByRequirements _ _ _ _ _ _ _) as [filtered keys] eqn:Ef. destruct filtered as [remaining|]; [|done].
  destruct (filterInstanceTypes_Ok _ _ _ _ _ _ _ remaining (f_equal fst Ef)) as (_ & Hs & _).
  apply Hbind. { destruct allocation; [|done]. by destruct (filter _ remaining). }
  intros kept Ek. apply Hbind; [|done]. apply offeringsToReserve_no_panic. eapply covered_mono; [exact Hk|done|]. intros it Hit.
  apply Hs. destruct allocation as [r|]; [|by injection Ek as <-]. destruct (filter _ remaining) as [|x l] eqn:Efil; [done|]. injection Ek as <-.
  rewrite <-Efil in Hit. by apply list_elem_of_filter in Hit as [_ ?].
Qed.

(** [CanAdd] does not panic when the manager covers the claim's instance types. *)
Lemma CanAdd_no_panic t rm n pod podData vols relax : known rm (InstanceTypeOptions n) →
  NodeClaim_CanAdd t rm n pod podData vols relax ≠ Err ReservationPanic.
Proof.
  intros Hk. unfold NodeClaim_CanAdd. destruct (ToleratesPod (nc_Taints n) pod); [|done]. destruct (_ && _); [done|].
  unfold check. destruct (Compatible _ _ _); cbn [mbind result_bind]; [|done]. unfold try_alternatives.
  set (its := if (size vols =? 0)%nat then _ else _). assert (known rm its) as Hk'.
  { eapply covered_mono; [exact Hk|done|]. intros it. unfold its. destruct (size vols =? 0)%nat; [done|]. by intros [_ ?]%list_elem_of_filter. }
  assert (∀ base rest v, first_alternative (λ e, match e with ReservationPanic => true | _ => false end)
    (λ volReqs, tryVolumeAlternative t rm n pod podData its base volReqs relax) v rest ≠ Err ReservationPanic) as H.
  { intros base. induction rest as [|q rest IH]; intros v; cbn [first_alternative];
      pose proof (tryVolumeAlternative_no_panic t rm n pod podData its base v relax Hk');
      destruct (tryVolumeAlternative _ _ _ _ _ _ _ v _) as [a|[]]; done || apply IH. }
  destruct (VolumeRequirements podData); apply H.
Qed.

Lemma Reserve_dom h os rm rm' : Reserve ReservationIDLabel draw rm h os = Some rm' → dom (rm_capacity rm) ⊆ dom (rm_capacity rm').
Proof.
  unfold Reserve. revert rm. induction os as [|o os IH]; intros rm; cbn [foldl_opt]; [by intros [= <-]|].
  intros (rm1 & H1 & H2%IH)%bind_Some. etrans; [|exact H2]. unfold Reserve1 in H1. apply bind_Some in H1 as (id & _ & H1).
  destruct (holds _ _ _); [by injection H1 as <-|]. destruct (_ <? 0)%Z; [done|]. injection H1 as <-. cbn. rewrite dom_insert_L. apply union_subseteq_r.
Qed.

Lemma release_dom rm n current updated : dom (rm_capacity rm) ⊆ dom (rm_capacity (releaseReservedOfferings rm n current updated)).
Proof.
  unfold releaseReservedOfferings. revert rm. induction current as [|o current IH]; intros rm; [done|]. cbn [foldl]. etrans; [|apply IH].
  case_bool_decide; [done|]. unfold Release, Release1. cbn. destruct (holds _ _ _); [|done]. cbn. rewrite dom_insert_L. apply union_subseteq_r.
Qed.

Lemma NodeClaim_Add_covered t rm n pod podData vols relax a t' rm' n' its : NodeClaim_CanAdd t rm n pod podData vols relax = Ok a →
  NodeClaim_Add t rm n pod podData vols a = Some (t', rm', n') →
  (known rm its → known rm' its) ∧ (known rm (InstanceTypeOptions n) → known rm' (InstanceTypeOptions n')).
Proof.
  intros HC (rm1 & Hr & [= <- <- <-])%bind_Some. set (rm' := releaseReservedOfferings _ _ _ _).
  assert (dom (rm_capacity rm) ⊆ dom (rm_capacity rm')) as Hd by (etrans; [by eapply Reserve_dom|apply release_dom]).
  split; intros Hk; (eapply covered_mono; [exact Hk|done|]); [done|]. intros it Hit.
  by destruct (CanAdd_types _ _ _ _ _ _ _ _ HC it Hit) as [? _].
Qed.

End nodeclaim.
