(* ===== verification/Budgets.v ===== *)
(** * Budgets: how many nodes of a NodePool may be disrupted at once
    (pkg/apis/v1/nodepool.go)

    A budget bounds the disruptions for its reasons while its schedule is active.
    The cron parser and the integer-or-percentage arithmetic are libraries the
    sources call: they are the classes [CronApi] and [IntStrApi].  The clock does not
    advance during an evaluation: it is the argument [now], in nanoseconds. *)

From S2P Require Import Prelude Objects Resources.

#[local] Open Scope Z_scope.

Record Budget := mkBudget {
  (** [None] is a nil list: the budget applies to every reason *)
  bd_Reasons : option (list string);
  bd_Nodes : string;
  bd_Schedule : option string;
  bd_Duration : option Z;
}.

Definition ConsolidationPolicyWhenEmpty : string := "WhenEmpty".
Definition ConsolidationPolicyWhenEmptyOrUnderutilized : string := "WhenEmptyOrUnderutilized".
Definition ConsolidationPolicyBalanced : string := "Balanced".
Definition BalancedK : Z := 2.
Definition IsBalanced (policy : string) : bool := bool_decide (policy = ConsolidationPolicyBalanced).

Definition DisruptionReasonUnderutilized : string := "Underutilized".
Definition DisruptionReasonEmpty : string := "Empty".
Definition DisruptionReasonDrifted : string := "Drifted".
Definition DisruptionReasonUnhealthy : string := "Unhealthy".

Definition MaxInt32 : Z := 2147483647.

(** The resource that is found over its limit; which one depends on the iteration
    order of the map. *)
Definition ExceededBy (l resources : ResourceList) : option (string * Z * Z) :=
  head (omap (λ '(name, usage), match l !! name with
                                | Some limit => if limit <? usage then Some (name, usage, limit) else None
                                | None => None
                                end) (map_to_list resources)).

(** Package cron: a schedule is its function [Next]. *)
Class CronApi := { ParseStandard : string → option (Z → Z) }.

(** Package intstr. *)
Class IntStrApi := {
  FromInt : Z → IntOrString;
  GetScaledValueFromIntOrPercent : IntOrString → Z → bool → option Z;
}.

Inductive budget_error := InvalidCron (expr : string) | InvalidNodes (value : string).

Section budgets.
  Context `{CA : CronApi} `{IS : IntStrApi}.

Definition GetIntStrFromValue (str : string) : IntOrString :=
  match Atoi str with
  | (intVal, None) => FromInt intVal
  | _ => StrVal str
  end.

Definition Budget_IsActive (b : Budget) (now : Z) : result budget_error bool :=
  match bd_Schedule b, bd_Duration b with
  | None, None => Ok true
  | _, _ =>
      let expr := "TZ=UTC " +:+ default EmptyString (bd_Schedule b) in
      match ParseStandard expr with
      | None => Err (InvalidCron expr)
      | Some schedule =>
          let checkPoint := now - default 0 (bd_Duration b) in
          let nextHit := schedule checkPoint in
          Ok (negb (now <? nextHit))
      end
  end.

(** The limit and the error are both returned. *)
Definition GetAllowedDisruptions (b : Budget) (now numNodes : Z) : Z * option budget_error :=
  match Budget_IsActive b now with
  | Err e => (0, Some e)
  | Ok false => (MaxInt32, None)
  | Ok true =>
      match GetScaledValueFromIntOrPercent (GetIntStrFromValue (bd_Nodes b)) numNodes true with
      | None => (0, Some (InvalidNodes (bd_Nodes b)))
      | Some res => (res, None)
      end
  end.

Definition applies_to (reason : string) (b : Budget) : bool :=
  match bd_Reasons b with
  | None => true
  | Some reasons => bool_decide (reason ∈ reasons)
  end.

Definition GetAllowedDisruptionsByReason (budgets : list Budget) (now numNodes : Z) (reason : string)
  : Z * list budget_error :=
  foldl (λ '(allowedNodes, multiErr) budget,
    let '(val, err) := GetAllowedDisruptions budget now numNodes in
    (if applies_to reason budget then allowedNodes `min` val else allowedNodes,
     multiErr ++ option_list err)) (MaxInt32, []) budgets.

Definition MustGetAllowedDisruptions (budgets : list Budget) (now numNodes : Z) (reason : string) : Z :=
  let '(allowedDisruptions, err) := GetAllowedDisruptionsByReason budgets now numNodes reason in
  match err with
  | [] => allowedDisruptions
  | _ => 0
  end.
End budgets.

(** ** What the libraries promise *)

(** 365 days, five times: [Next] looks for a hit up to the end of the fifth year after
    its argument and otherwise returns the zero time. *)
Definition five_years : Z := 5 * 365 * 86400 * 1000000000.

Definition next_hit_of (hits : Z → Prop) (Next : Z → Z) : Prop :=
  ∀ s, (hits (Next s) ∧ s < Next s ∧ ∀ t, hits t → s < t → Next s ≤ t) ∨
       (Next s = zero_time ∧ ∀ t, hits t → s < t → s + five_years < t).

(** Whole numbers stand for themselves, and percentages round up. *)
Class IntStrLaws `{IS : IntStrApi} := {
  FromInt_int32 : ∀ z, 0 ≤ z ≤ MaxInt32 → FromInt z = IntVal z;
  scaled_int : ∀ z total up, GetScaledValueFromIntOrPercent (IntVal z) total up = Some z;
  scaled_percent : ∀ p total, 0 ≤ p → 0 ≤ total →
    GetScaledValueFromIntOrPercent (StrVal (FormatInt p +:+ "%")) total true = Some ((p * total + 99) / 100);
}.

(** ** Theorems *)

Lemma ExceededBy_None l resources :
  ExceededBy l resources = None ↔ ∀ k usage limit, resources !! k = Some usage → l !! k = Some limit → usage ≤ limit.
Proof.
  unfold ExceededBy. rewrite head_None. split.
  - intros H k usage limit Hu Hl. apply elem_of_map_to_list in Hu. destruct (Z.ltb_spec limit usage) as [Hlt|]; [|done].
    exfalso. assert ((k, usage, limit) ∈ @nil (string * Z * Z)) as Hin; [|by apply not_elem_of_nil in Hin].
    rewrite <-H. apply list_elem_of_omap. exists (k, usage). split; [done|].
    rewrite Hl. by rewrite (proj2 (Z.ltb_lt _ _) Hlt).
  - intros H. destruct (omap _ _) as [|x xs] eqn:E; [done|]. exfalso.
    assert (x ∈ x :: xs) as Hx by left. rewrite <-E in Hx.
    apply list_elem_of_omap in Hx as ([k usage]&Hin&Hx). apply elem_of_map_to_list in Hin.
    destruct (l !! k) as [limit|] eqn:El; [|done]. pose proof (H _ _ _ Hin El).
    destruct (Z.ltb_spec limit usage); [lia|done].
Qed.

Section theorems.
  Context `{CA : CronApi} `{IS : IntStrApi}.

(** The budget is active while a hit of its schedule is less than its duration ago.
    A hit exactly the duration ago no longer counts, and a schedule without a hit in
    the next five years, whose [Next] is the zero time, keeps the budget active. *)
Theorem Budget_IsActive_spec b expr d hits Next now :
  bd_Schedule b = Some expr → bd_Duration b = Some d →
  ParseStandard ("TZ=UTC " +:+ expr) = Some Next → next_hit_of hits Next →
  zero_time ≤ now → d ≤ five_years →
  ((∃ t, hits t ∧ now - d < t ≤ now) → Budget_IsActive b now = Ok true) ∧
  ((∃ t, hits t ∧ now - d < t ≤ now - d + five_years) → (∀ t, hits t → ¬ (now - d < t ≤ now)) →
     Budget_IsActive b now = Ok false) ∧
  ((∀ t, ¬ hits t) → Budget_IsActive b now = Ok true).
Proof.
  intros Hs Hd Hp Hn Hz Hf. unfold Budget_IsActive. rewrite Hs, Hd. cbn [default from_option id].
  unfold default, from_option, id. rewrite Hp.
  destruct (Hn (now - d)) as [(H1&H2&H3)|[E H3]].
  - split_and!.
    + intros (t&Ht&?&?). specialize (H3 t Ht ltac:(lia)). by rewrite (proj2 (Z.ltb_ge _ _)) by lia.
    + intros _ Hno. destruct (Z.ltb_spec now (Next (now - d))); [done|]. exfalso. by apply (Hno _ H1).
    + intros Hno. by destruct (Hno _ H1).
  - rewrite E, (proj2 (Z.ltb_ge _ _)) by lia. split_and!; [done| |done].
    intros (t&Ht&?&?) _. specialize (H3 t Ht ltac:(lia)). lia.
Qed.

Lemma allowed_by_reason_foldl budgets now numNodes reason a errs :
  foldl (λ '(allowedNodes, multiErr) budget,
    let '(val, err) := GetAllowedDisruptions budget now numNodes in
    (if applies_to reason budget then allowedNodes `min` val else allowedNodes,
     multiErr ++ option_list err)) (a, errs) budgets =
  (foldl (λ acc b, acc `min` (GetAllowedDisruptions b now numNodes).1) a (filter (λ b, applies_to reason b = true) budgets),
   errs ++ omap (λ b, (GetAllowedDisruptions b now numNodes).2) budgets).
Proof.
  revert a errs. induction budgets as [|b bs IH]; intros a errs; [by rewrite app_nil_r|]. cbn [foldl].
  rewrite filter_cons. destruct (GetAllowedDisruptions b now numNodes) as [val err] eqn:E. rewrite IH.
  f_equal; [by destruct (applies_to reason b); [rewrite decide_True by done; cbn [foldl]; rewrite E|rewrite decide_False by done]|].
  rewrite <-app_assoc. f_equal. unfold omap; cbn [list_omap]. rewrite E. by destruct err.
Qed.

Lemma le_foldl_min {A} (f : A → Z) l a n :
  n ≤ foldl (λ acc x, acc `min` f x) a l ↔ n ≤ a ∧ ∀ x, x ∈ l → n ≤ f x.
Proof.
  revert a. induction l as [|x l IH]; intros a; cbn [foldl].
  - split; [intros; split; [done|by intros ? ?%not_elem_of_nil]|tauto].
  - rewrite IH, Z.min_glb_iff. setoid_rewrite elem_of_cons. naive_solver.
Qed.

(** What [MustGetAllowedDisruptions] allows is the minimum over the active budgets
    that apply to the reason, unbounded ([math.MaxInt32]) when there is none; when any
    budget of the NodePool, also one for other reasons, is misconfigured, nothing may
    be disrupted. *)
Theorem MustGetAllowedDisruptions_spec budgets now numNodes reason :
  let allowed := MustGetAllowedDisruptions budgets now numNodes reason in
  ((∀ b, b ∈ budgets → (GetAllowedDisruptions b now numNodes).2 = None) →
     ∀ n, n ≤ allowed ↔
       n ≤ MaxInt32 ∧ ∀ b, b ∈ budgets → applies_to reason b = true → Budget_IsActive b now = Ok true →
         ∃ limit, GetScaledValueFromIntOrPercent (GetIntStrFromValue (bd_Nodes b)) numNodes true = Some limit ∧ n ≤ limit) ∧
  ((∃ b e, b ∈ budgets ∧ (GetAllowedDisruptions b now numNodes).2 = Some e) → allowed = 0).
Proof.
  intros allowed. unfold allowed, MustGetAllowedDisruptions, GetAllowedDisruptionsByReason.
  rewrite allowed_by_reason_foldl. cbn [app]. split.
  - intros Hok n. replace (omap _ budgets) with (@nil budget_error).
    2: { symmetry. induction budgets as [|b bs IH]; [done|]. unfold omap; cbn [list_omap]. rewrite (Hok b) by left.
         apply IH. intros; apply Hok. by right. }
    rewrite le_foldl_min. setoid_rewrite list_elem_of_filter.
    split; intros [Hn H]; (split; [done|]).
    + intros b Hb Ha Hact. specialize (H b (conj Ha Hb)). specialize (Hok b Hb).
      unfold GetAllowedDisruptions in H, Hok. rewrite Hact in H, Hok.
      destruct (GetScaledValueFromIntOrPercent _ _ _) as [limit|]; [|done]. by exists limit.
    + intros b [Ha Hb]. specialize (H b Hb Ha). specialize (Hok b Hb).
      unfold GetAllowedDisruptions in Hok |- *. destruct (Budget_IsActive b now) as [[]|] eqn:Eact; [|done|done].
      destruct H as (limit&E&?); [done|]. by rewrite E.
  - intros (b&e&Hb&He). destruct (omap _ budgets) as [|x xs] eqn:E; [exfalso|done].
    apply (not_elem_of_nil e). rewrite <-E. apply list_elem_of_omap. by exists b.
Qed.
End theorems.
