(* ===== verification/Templates.v ===== *)
(** * Templates: from NodePools to node claims and back to the API
    (pkg/controllers/provisioning/scheduling/nodeclaimtemplate.go and
    [NodeClaimTemplate.ToNodeClaim] of pkg/apis/v1/nodepool.go)

    A NodePool becomes a template whose requirements include its labels; a claim
    that scheduling has filled with pods becomes a NodeClaim object that lists its
    cheapest instance types and gives custom labels a concrete value. *)

From S2P Require Import Prelude Labels Requirement Objects Requirements Resources Taints InstanceTypes.
From S2P Require Import Reservations TopologyGroup Topology NodeClaims Budgets.

(** The fields of a NodePool the controllers read beside its template. *)
Record NodePool := mkNodePool {
  np_template : NodePoolTemplate;
  np_UID : string;
  np_Annotations : gmap string string;
  np_NodeClassRef : string * string * string;
  np_Limits : ResourceList;
  np_ConsolidateAfter : option Z;
  np_ConsolidationPolicy : string;
  np_Budgets : list Budget;
  np_Weight : option Z;
  np_Replicas : option Z;
  np_TerminationGracePeriod : option Z;
  np_DeletionTimestamp : option Z;
  np_Conditions : list Condition;
}.

(** The parts of the embedded NodeClaim object that scheduling does not change. *)
Record TemplateMeta := mkTemplateMeta {
  tm_Labels : gmap string string;
  tm_Annotations : gmap string string;
  tm_NodePoolUUID : string;
  tm_IsStatic : bool;
  tm_TerminationGracePeriod : option Z;
}.

Definition NodePoolHashAnnotationKey : string := Group +:+ "/nodepool-hash".
Definition NodePoolHashVersionAnnotationKey : string := Group +:+ "/nodepool-hash-version".
Definition NodePoolHashVersion : string := "v3".
Definition PriceOverlayAppliedAnnotationKey : string := Group +:+ "/price-overlay-applied".
Definition CapacityOverlayAppliedAnnotationKey : string := Group +:+ "/capacity-overlay-applied".

(** Requirements that exist only for the simulation of daemon scheduling. *)
Definition schedulingSimulationKeys : gset string := {[NodeRegisteredLabelKey; NodeInitializedLabelKey]}.

Definition MaxInstanceTypes : nat := 600.

(** The object that is created in the API. *)
Record ApiNodeClaim := mkApiNodeClaim {
  GenerateName : string;
  anc_Annotations : gmap string string;
  anc_Labels : gmap string string;
  anc_Owner : string * string;
  anc_Requirements : list NodeSelectorRequirementWithMinValues;
  anc_Taints : list Taint;
  anc_TerminationGracePeriod : option Z;
}.

Section templates.
  Context `{LR : LabelRegistry} `{SA : SelectorApi} `{IO : IterationOrder} `{SE : SchedulerEnv}.
  (** [NodePool.Hash], [strings.ToLower], and the provider's default grace period. *)
  Context (nodePool_Hash : NodePool → string) (ToLower : string → string)
          (DefaultTerminationGracePeriod : option Z).

Definition NodeClassLabelKey (group kind : string) : string := group +:+ "/" +:+ ToLower kind.

Definition template_labels (np : NodePool) : gmap string string :=
  let '(group, kind, name) := np_NodeClassRef np in
  lo_Assign (np_Labels (np_template np))
    (<[NodeClassLabelKey group kind := name]> {[NodePoolLabelKey := np_Name (np_template np)]}).

(** [None] is the panic of a Gt or Lt requirement without a value. *)
Definition NewNodeClaimTemplate (np : NodePool) : option (NodeClaimTemplate * TemplateMeta) :=
  let t := np_template np in
  let labels := template_labels np in
  let annotations := lo_Assign (np_Annotations np)
    (<[NodePoolHashAnnotationKey := nodePool_Hash np]> {[NodePoolHashVersionAnnotationKey := NodePoolHashVersion]}) in
  spec ← NewNodeSelectorRequirementsWithMinValues (np_Requirements t);
  let reqs := Add (NewRequirements []) (Values spec) in
  let reqs := Add reqs (Values (NewLabelRequirements labels)) in
  let reqs := Add reqs [requirement_In NodeRegisteredLabelKey "true"] in
  let reqs := Add reqs [requirement_In NodeInitializedLabelKey "true"] in
  Some (mkNodeClaimTemplate (np_Name t) (np_Taints t) reqs [],
        mkTemplateMeta labels annotations (np_UID np) (bool_decide (is_Some (np_Replicas np)))
          (np_TerminationGracePeriod np)).

(** The labels whose values the instance type does not determine. *)
Definition custom_label (key : string) : bool :=
  negb (bool_decide (key ∈ WellKnownLabels) || bool_decide (key ∈ RestrictedLabels) ||
        bool_decide (key ∈ schedulingSimulationKeys)).

(** [None] is the panic of [rand.Intn] in [Any]. *)
Definition resolveCustomLabelsFromRequirements (reqs : Requirements) : option (gmap string string) :=
  foldl_opt (λ labels '(key, requirement),
    if negb (custom_label key) then Some labels
    else value ← Any draw requirement;
         Some (if bool_decide (value = EmptyString) then labels else <[key := value]> labels))
    ∅ (map_to_list reqs).

(** [NewRequirementWithFlexibility(key, In, minValues, values...)] *)
Definition requirement_In_flexible (key : string) (mv : option Z) (vals : list string) : Requirement :=
  mkRequirement (normalize_key key) false (list_to_set (normalize_values (normalize_key key) vals)) None None mv None.

(** The instance types that are sent to the cloud provider. *)
Definition launch_options (n : NodeClaim) : list InstanceType :=
  take MaxInstanceTypes (OrderByPrice (InstanceTypeOptions n) (nc_Requirements n)).

Definition capacity_types (its : list InstanceType) (reqs : Requirements) : list string :=
  remove_dups (concat ((λ it, Offering_CapacityType draw <$>
    Offerings_Compatible (Offerings_Launchable (Offerings it)) reqs) <$> its)).

(** The requirements of a claim of a dynamic NodePool when it is launched. *)
Definition launch_requirements (n : NodeClaim) : Requirements :=
  let its := launch_options n in
  let reqs := Add (nc_Requirements n)
    [requirement_In_flexible LabelInstanceTypeStable (minValues (Get (nc_Requirements n) LabelInstanceTypeStable))
       (it_Name <$> its)] in
  match capacity_types its reqs with
  | [] => reqs
  | cts => Add reqs [requirement_In_flexible CapacityTypeLabelKey None cts]
  end.

Definition overlay_annotations (its : list InstanceType) (annotations : gmap string string) : gmap string string :=
  let annotations := if existsb IsPricingOverlayApplied its
                     then <[PriceOverlayAppliedAnnotationKey := "true"]> annotations else annotations in
  if existsb capacityOverlayApplied its then <[CapacityOverlayAppliedAnnotationKey := "true"]> annotations else annotations.

Definition ToNodeClaim (store : gmap nat (gmap string string)) (meta : TemplateMeta) (n : NodeClaim)
    : option ApiNodeClaim :=
  let annotations := annotations_of store (nc_Annotations n) in
  let '(reqs, annotations) :=
    if tm_IsStatic meta then (nc_Requirements n, annotations)
    else (launch_requirements n, overlay_annotations (launch_options n) annotations) in
  custom ← resolveCustomLabelsFromRequirements reqs;
  Some (mkApiNodeClaim (NodePoolName n +:+ "-") annotations (lo_Assign (tm_Labels meta) custom)
    (NodePoolName n, tm_NodePoolUUID meta)
    (NodeSelectorRequirements (NewRequirements (filter (λ req, Key req ∉ schedulingSimulationKeys) (Values reqs))))
    (nc_Taints n)
    (match tm_TerminationGracePeriod meta with None => DefaultTerminationGracePeriod | Some d => Some d end)).

(** ** Custom labels *)

(** [rand.Intn] returns a number below its argument. *)
Definition draw_ok : Prop := ∀ n, (0 < n → 0 ≤ draw n < n)%Z.

Lemma Any_in_bounds n g limit :
  draw_ok → in_int64 g → (g ≤ limit ≤ int64_max + 1)%Z → n = wrap64 (wrap64 limit - g) → (0 < n)%Z →
  (g ≤ wrap64 (draw n + g) < limit)%Z.
Proof.
  intros Hd Hg Hl -> Hn. specialize (Hd _ Hn). revert Hd Hn. generalize (draw (wrap64 (wrap64 limit - g))) as x.
  unfold in_int64, wrap64, int64_min, int64_max in *. intros x. Z.div_mod_to_equations. lia.
Qed.

(** The exclusive upper end of the range [Any] draws from. *)
Definition draw_limit (r : Requirement) : Z := match lte r with Some l => (l + 1)%Z | None => int64_max end.

Lemma Any_complement r :
  complement r = true →
  let n := wrap64 (wrap64 (draw_limit r) - default 0%Z (gte r)) in
  Any draw r = if (n <=? 0)%Z then None else Some (FormatInt (wrap64 (draw n + default 0%Z (gte r)))).
Proof.
  intros Hc. unfold Any, Operator, draw_limit. rewrite Hc.
  destruct (lte r); [|change (wrap64 int64_max) with int64_max]; by destruct (Len r <? int64_max)%Z.
Qed.

Lemma Any_complement_within r v :
  draw_ok → requirement_wf r → complement r = true → Any draw r = Some v → withinBounds v (gte r) (lte r) = true.
Proof.
  intros Hd ((Wg & Wl) & Hc & _) Ec. rewrite (Any_complement r Ec). destruct (_ <=? 0)%Z eqn:En; [done|].
  apply Z.leb_gt in En. intros [= <-]. unfold withinBounds. rewrite Atoi_FormatInt by apply wrap64_in_range.
  pose proof (λ n, Any_in_bounds n (default 0%Z (gte r)) (draw_limit r) Hd) as HB. revert HB En.
  unfold draw_limit, bounds_conflict, in_int64 in *.
  destruct (gte r) as [g|], (lte r) as [l|]; simpl in *; try done; intros HB En.
  - specialize (HB _ ltac:(lia) ltac:(lia) eq_refl En).
    destruct (Z.ltb_spec (wrap64 (draw (wrap64 (wrap64 (l + 1) - g)) + g)) g); [lia|].
    rewrite Z.gtb_ltb. destruct (Z.ltb_spec l (wrap64 (draw (wrap64 (wrap64 (l + 1) - g)) + g))); [lia|done].
  - specialize (HB _ ltac:(lia) ltac:(lia) eq_refl En).
    destruct (Z.ltb_spec (wrap64 (draw (wrap64 (wrap64 int64_max - g)) + g)) g); [lia|done].
  - assert (0 ≤ l)%Z as Hl0.
    { revert En. unfold wrap64, int64_min, int64_max in *. Z.div_mod_to_equations. lia. }
    specialize (HB _ ltac:(unfold int64_min, int64_max; lia) ltac:(lia) eq_refl En).
    rewrite Z.gtb_ltb. destruct (Z.ltb_spec l (wrap64 (draw (wrap64 (wrap64 (l + 1) - 0)) + 0))); [lia|done].
Qed.

Lemma Any_allowed r v :
  draw_ok → requirement_wf r → Any draw r = Some v → v ≠ EmptyString →
  Has r v = true ∨ (complement r = true ∧ v ∈ values r).
Proof.
  intros Hd Hwf HA Hv. unfold Has. destruct (complement r) eqn:Ec.
  - destruct (decide (v ∈ values r)) as [?|Hn]; [by auto|]. left. rewrite bool_decide_eq_false_2 by done.
    by rewrite (Any_complement_within r v).
  - left. destruct Hwf as (_ & _ & Hs). destruct (Hs Ec) as [-> ->]. rewrite withinBounds_none, andb_true_r.
    apply bool_decide_eq_true. unfold Any, Operator in HA. rewrite Ec in HA.
    destruct (Len r >? 0)%Z; [|congruence]. apply list_elem_of_lookup_2 in HA. by apply elem_of_elements.
Qed.

(** A custom label of a new node is given a value its requirement allows, in
    range of the bounds; a value the requirement excludes is the one exception,
    since the draw does not look at the exclusions. *)
Theorem resolved_labels_allowed reqs labels key v :
  draw_ok → requirements_wf reqs → resolveCustomLabelsFromRequirements reqs = Some labels →
  labels !! key = Some v →
  custom_label key = true ∧ ∃ r, reqs !! key = Some r ∧
    (Has r v = true ∨ (complement r = true ∧ v ∈ values r)).
Proof.
  intros Hd Hwf. unfold resolveCustomLabelsFromRequirements.
  assert (∀ l acc, (∀ k r, (k, r) ∈ l → reqs !! k = Some r) →
    (∀ k v, acc !! k = Some v → custom_label k = true ∧ ∃ r, reqs !! k = Some r ∧
      (Has r v = true ∨ (complement r = true ∧ v ∈ values r))) →
    foldl_opt (λ labels '(key, requirement), if negb (custom_label key) then Some labels
      else value ← Any draw requirement;
           Some (if bool_decide (value = EmptyString) then labels else <[key := value]> labels)) acc l = Some labels →
    labels !! key = Some v → custom_label key = true ∧ ∃ r, reqs !! key = Some r ∧
      (Has r v = true ∨ (complement r = true ∧ v ∈ values r))) as Hg.
  { induction l as [|[k r] l IH]; intros acc Hl Hacc; simpl; [intros [= <-]; apply Hacc|].
    intros (acc' & Ha & Hrest)%bind_Some. eapply IH; [intros; apply Hl; by right| |exact Hrest].
    destruct (custom_label k) eqn:Ek; simpl in Ha; [|by injection Ha as <-].
    apply bind_Some in Ha as (w & Hw & [= <-]). case_bool_decide; [done|].
    intros k' v' [[<- <-]|[? ?]]%lookup_insert_Some; [|eauto]. split; [done|].
    assert (reqs !! k = Some r) as Hr by (apply Hl; by left). exists r. split; [done|].
    apply Any_allowed; try done. by destruct (Hwf _ _ Hr) as (_ & _ & ?). }
  apply Hg; [|by intros k v' ?%lookup_empty_Some]. intros k r. by rewrite elem_of_map_to_list.
Qed.

(** ** Instance types of the launch *)

Lemma requirement_In_flexible_wf key mv vals : requirement_wf (requirement_In_flexible key mv vals).
Proof. split_and!; [split|..]; done. Qed.

Lemma requirement_In_flexible_Has key mv vals v :
  Has (requirement_In_flexible key mv vals) v = bool_decide (v ∈ normalize_values (normalize_key key) vals).
Proof.
  unfold Has, requirement_In_flexible. cbn [complement values gte lte]. rewrite withinBounds_none, andb_true_r.
  apply bool_decide_ext. by rewrite elem_of_list_to_set.
Qed.

(** A claim is launched with the cheapest of its instance types only: the
    instance-type requirement allows exactly the names the claim allowed that belong
    to the at most 600 options, and every option left out is no cheaper. *)
Theorem launch_options_cheapest `{!StableRegistry} n v :
  normalize_key LabelInstanceTypeStable = LabelInstanceTypeStable →
  normalize_key CapacityTypeLabelKey = CapacityTypeLabelKey →
  NormalizedLabelValues !! LabelInstanceTypeStable = None →
  (Has (Get (launch_requirements n) LabelInstanceTypeStable) v = true ↔
   Has (Get (nc_Requirements n) LabelInstanceTypeStable) v = true ∧ ∃ it, it ∈ launch_options n ∧ it_Name it = v) ∧
  (length (launch_options n) ≤ 600)%nat ∧
  ∃ dropped, InstanceTypeOptions n ≡ₚ launch_options n ++ dropped ∧
    ∀ a b, a ∈ launch_options n → b ∈ dropped →
      (cheapest_compatible_price (nc_Requirements n) a ≤ cheapest_compatible_price (nc_Requirements n) b)%Z.
Proof using Type.
  clear ToLower. intros Hk Hc Hv. split_and!.
  - assert (∀ key mv vals, key_normal (requirement_In_flexible key mv vals)) as Hn.
    { intros key mv vals. unfold key_normal, requirement_In_flexible; simpl. apply normalize_key_idemp. }
    assert (Has (Get (launch_requirements n) LabelInstanceTypeStable) v =
      Has (Get (Add (nc_Requirements n) [requirement_In_flexible LabelInstanceTypeStable
        (minValues (Get (nc_Requirements n) LabelInstanceTypeStable)) (it_Name <$> launch_options n)])
        LabelInstanceTypeStable) v) as ->.
    { unfold launch_requirements. destruct (capacity_types _ _) as [|ct cts]; [done|].
      rewrite Add_Has by (by repeat constructor). simpl. rewrite Hc.
      by rewrite bool_decide_eq_false_2, orb_true_l, !andb_true_r by done. }
    rewrite Add_Has by (by repeat constructor). simpl. rewrite Hk, bool_decide_eq_true_2, andb_true_r, andb_true_iff by done.
    simpl. rewrite requirement_In_flexible_Has, bool_decide_eq_true, Hk. unfold normalize_values. rewrite Hv.
    rewrite list_elem_of_fmap. naive_solver.
  - unfold launch_options. rewrite length_take. unfold MaxInstanceTypes. lia.
  - exists (drop MaxInstanceTypes (OrderByPrice (InstanceTypeOptions n) (nc_Requirements n))).
    unfold launch_options. rewrite take_drop, OrderByPrice_Permutation. split; [done|]. intros a b Ha Hb.
    eapply (StronglySorted_app_inv (λ a b, cheapest_compatible_price (nc_Requirements n) a ≤
      cheapest_compatible_price (nc_Requirements n) b)%Z); [|exact Ha|exact Hb].
    rewrite take_drop. apply OrderByPrice_sorted.
Qed.
(** ** When the creation of a node panics *)

(** The least and the greatest number [Any] may draw. *)
Definition draw_least (r : Requirement) : Z := default 0%Z (gte r).
Definition draw_greatest (r : Requirement) : Z := match lte r with Some l => l | None => (int64_max - 1)%Z end.

(** The range is not empty and its length fits an int. *)
Definition drawable (r : Requirement) : Prop :=
  (draw_least r ≤ draw_greatest r)%Z ∧ (draw_greatest r - draw_least r < int64_max)%Z.

Lemma Any_None r : requirement_wf r → Any draw r = None ↔ complement r = true ∧ ¬ drawable r.
Proof using Type.
  intros ((Wg & Wl) & Hb & _). destruct (complement r) eqn:Ec.
  - rewrite (Any_complement r Ec). cbn zeta.
    assert ((0 < wrap64 (wrap64 (draw_limit r) - default 0 (gte r)))%Z ↔ drawable r) as Hd.
    { unfold drawable, draw_least, draw_greatest, draw_limit. unfold bounds_conflict, in_int64 in *.
      destruct (gte r) as [g|], (lte r) as [l|]; simpl in *; unfold wrap64, int64_min, int64_max in *;
        try apply Z.ltb_ge in Hb; Z.div_mod_to_equations; lia. }
    destruct (Z.leb_spec (wrap64 (wrap64 (draw_limit r) - default 0%Z (gte r))) 0); split; try done; [|naive_solver].
    intros _. split; [done|]. rewrite <-Hd. lia.
  - split; [|by intros [? _]]. unfold Any, Operator, Len. rewrite Ec.
    destruct (Z.of_nat (size (values r)) >? 0)%Z eqn:El; [|done]. intros Hn.
    destruct (elements (values r)) as [|v l] eqn:Ee; [|done]. unfold size, set_size in El. simpl in El. by rewrite Ee in El.
Qed.

Lemma resolve_None reqs : resolveCustomLabelsFromRequirements reqs = None ↔
  ∃ key r, reqs !! key = Some r ∧ custom_label key = true ∧ Any draw r = None.
Proof using Type.
  unfold resolveCustomLabelsFromRequirements. setoid_rewrite <-elem_of_map_to_list. generalize (∅ : gmap string string).
  induction (map_to_list reqs) as [|[k r] l IH]; intros labels; cbn [foldl_opt].
  { split; [done|]. intros (key & r & Hin & _). by apply not_elem_of_nil in Hin. }
  setoid_rewrite elem_of_cons. destruct (custom_label k) eqn:Ek; cbn [negb]; [destruct (Any draw r) as [v|] eqn:Ea|]; cbn [mbind option_bind].
  - rewrite IH. split; [intros (key & q & ? & ?); exists key, q; auto|].
    intros (key & q & [[= -> ->]|?] & ? & ?); [congruence|by exists key, q].
  - split; [|done]. intros _. exists k, r. auto.
  - rewrite IH. split; [intros (key & q & ? & ?); exists key, q; auto|].
    intros (key & q & [[= -> ->]|?] & ? & ?); [congruence|by exists key, q].
Qed.

(** What is added for the launch concerns two labels that are not custom. *)
Lemma launch_requirements_custom `{!StableRegistry} n key :
  LabelInstanceTypeStable ∈ WellKnownLabels → CapacityTypeLabelKey ∈ WellKnownLabels →
  normalize_key LabelInstanceTypeStable = LabelInstanceTypeStable → normalize_key CapacityTypeLabelKey = CapacityTypeLabelKey →
  custom_label key = true → launch_requirements n !! key = nc_Requirements n !! key.
Proof using Type.
  intros Hi Hc Hni Hnc Hk.
  assert (∀ k mv vals, key_normal (requirement_In_flexible k mv vals)) as Hn.
  { intros k mv vals. unfold key_normal, requirement_In_flexible; simpl. apply normalize_key_idemp. }
  assert (key ≠ LabelInstanceTypeStable ∧ key ≠ CapacityTypeLabelKey) as [H1 H2].
  { unfold custom_label in Hk. apply negb_true_iff, orb_false_iff in Hk as [Hk _]. apply orb_false_iff in Hk as [Hk _].
    apply bool_decide_eq_false in Hk. split; intros ->; done. }
  unfold launch_requirements. destruct (capacity_types _ _) as [|ct cts]; cbn [Add foldl]; rewrite !Add1_lookup by apply Hn; cbn.
  - rewrite Hni. by rewrite decide_False.
  - rewrite Hni, Hnc. by rewrite !decide_False.
Qed.

Lemma ToNodeClaim_None_iff `{!StableRegistry} store meta n :
  LabelInstanceTypeStable ∈ WellKnownLabels → CapacityTypeLabelKey ∈ WellKnownLabels →
  normalize_key LabelInstanceTypeStable = LabelInstanceTypeStable → normalize_key CapacityTypeLabelKey = CapacityTypeLabelKey →
  requirements_wf (nc_Requirements n) →
  ToNodeClaim store meta n = None ↔
  ∃ key r, nc_Requirements n !! key = Some r ∧ custom_label key = true ∧ complement r = true ∧ ¬ drawable r.
Proof using Type.
  intros Hi Hc Hni Hnc Hw. etrans.
  - assert (ToNodeClaim store meta n = None ↔
      resolveCustomLabelsFromRequirements (if tm_IsStatic meta then nc_Requirements n else launch_requirements n) = None) as ->; [|apply resolve_None].
    unfold ToNodeClaim. destruct (tm_IsStatic meta); by destruct (resolveCustomLabelsFromRequirements _).
  - split; intros (key & r & Hr & Hk & HA); exists key, r.
    + assert (nc_Requirements n !! key = Some r) as Hr' by (destruct (tm_IsStatic meta); [done|by rewrite <-(launch_requirements_custom n key)]).
      apply Any_None in HA; [done|]. apply (Hw _ _ Hr').
    + split_and!; [|done|apply Any_None; [apply (Hw _ _ Hr)|done]]. destruct (tm_IsStatic meta); [done|by rewrite launch_requirements_custom].
Qed.
(** C40: exactly when building the API object of a new claim panics.  It does when a label
    that instance types do not determine is required to be outside of some set or only to exist, and the
    numbers between the bounds of the requirement (zero and the largest int by
    default) are none, or more than an int counts: [Any] draws with [rand.Intn],
    which panics on a range that is not positive.  A pod that asks for a value below zero of a label
    the NodePool leaves open is such a case ([negative_bound_panics]). *)
Theorem ToNodeClaim_panics_iff `{!StableRegistry} store meta n :
  LabelInstanceTypeStable ∈ WellKnownLabels → CapacityTypeLabelKey ∈ WellKnownLabels →
  normalize_key LabelInstanceTypeStable = LabelInstanceTypeStable → normalize_key CapacityTypeLabelKey = CapacityTypeLabelKey →
  requirements_wf (nc_Requirements n) →
  ToNodeClaim store meta n = None ↔
  ∃ key r, nc_Requirements n !! key = Some r ∧ custom_label key = true ∧ complement r = true ∧ ¬ drawable r.
Proof using Type. apply ToNodeClaim_None_iff. Qed.
End templates.

(** A pod can make the creation of its node panic.  A NodePool whose custom label
    may have any value is compatible with a pod that asks for a value below zero, but
    resolving the label then draws from an empty range, and the run-time error of
    [rand.Intn] takes the place of the new claim. *)
Theorem negative_bound_panics `{SchedulerEnv} :
  let _ := default_registry in
  ∃ anything below_zero,
    NewRequirement "example.com/n" OpExists [] = Some anything ∧
    NewRequirement "example.com/n" OpLt ["0"] = Some below_zero ∧
    Compatible (NewRequirements [anything]) (NewRequirements [below_zero]) ∅ = [] ∧
    Has below_zero "-1" = true ∧
    resolveCustomLabelsFromRequirements (Add (NewRequirements [anything]) [below_zero]) = None.
Proof. eexists _, _. split_and!; [reflexivity|reflexivity|vm_compute; reflexivity..]. Qed.
