(* ===== verification/NodePools.v ===== *)
(** * NodePools: which pools take part, and in which order
    (pkg/utils/nodepool/nodepool.go, and the selection of pools and instance types in
    [Provisioner.NewScheduler] of pkg/controllers/provisioning/provisioner.go) *)

From S2P Require Import Prelude Labels Objects InstanceTypes Topology Templates.
From Stdlib Require Import Sorting.Sorted.

Section node_pools.
  (** [cloudProvider.GetSupportedNodeClasses]: the groups and kinds. *)
  Context (GetSupportedNodeClasses : list (string * string)).

Definition IsManaged (nodePool : NodePool) : bool :=
  let '(group, kind, _) := np_NodeClassRef nodePool in bool_decide ((group, kind) ∈ GetSupportedNodeClasses).

Definition IsStatic (np : NodePool) : bool := bool_decide (is_Some (np_Replicas np)).

Definition ListManaged {E} (listed : result E (list NodePool)) : result E (list NodePool) :=
  match listed with
  | Err e => Err e
  | Ok nodePools => Ok (filter (λ np, IsManaged np = true) nodePools)
  end.
End node_pools.

(** The comparison of [OrderByWeight]: a larger weight first, then the later name. *)
Definition weight_before (a b : NodePool) : bool :=
  let weightA := default 0%Z (np_Weight a) in
  let weightB := default 0%Z (np_Weight b) in
  if (weightA =? weightB)%Z then String.ltb (np_Name (np_template b)) (np_Name (np_template a))
  else (weightA >? weightB)%Z.

Definition OrderByWeight (nps : list NodePool) : list NodePool := sort_by weight_before nps.

Definition ConditionReady : string := "Ready".

(** The pools a scheduler is built for: dynamic, ready, not being deleted. *)
Definition schedulable_pool (np : NodePool) : bool :=
  negb (IsStatic np) && condition_true ConditionReady (np_Conditions np) && bool_decide (np_DeletionTimestamp np = None).

Inductive instance_types_error := UnevaluatedNodePool | InstanceTypesDeadline | InstanceTypesFailed.

(** [None] is an exceeded deadline; pools without instance types are skipped. *)
Fixpoint resolve_instance_types (GetInstanceTypes : NodePool → result instance_types_error (list InstanceType))
    (nodePools : list NodePool) : option (gmap string (list InstanceType)) :=
  match nodePools with
  | [] => Some ∅
  | np :: rest =>
      match GetInstanceTypes np with
      | Err InstanceTypesDeadline => None
      | Err _ | Ok [] => resolve_instance_types GetInstanceTypes rest
      | Ok its => m ← resolve_instance_types GetInstanceTypes rest;
                  Some (match m !! np_Name (np_template np) with
                        | Some _ => m
                        | None => <[np_Name (np_template np) := its]> m
                        end)
      end
  end.

(** ** The order does not depend on how it is sorted *)

Lemma weight_before_asym x y : weight_before x y = true → weight_before y x = false.
Proof.
  unfold weight_before. destruct (Z.eqb_spec (default 0%Z (np_Weight x)) (default 0%Z (np_Weight y))) as [->|Hne].
  - rewrite Z.eqb_refl. apply ltb_asym.
  - rewrite (proj2 (Z.eqb_neq _ _)) by lia. rewrite !Z.gtb_ltb, Z.ltb_lt, Z.ltb_ge. lia.
Qed.

Lemma not_after_weight x y : not_after weight_before x y ↔
  (default 0 (np_Weight y) < default 0 (np_Weight x))%Z ∨
  default 0%Z (np_Weight y) = default 0%Z (np_Weight x) ∧ String.le (np_Name (np_template y)) (np_Name (np_template x)).
Proof.
  unfold not_after, weight_before. destruct (Z.eqb_spec (default 0%Z (np_Weight y)) (default 0%Z (np_Weight x))) as [E|E].
  - rewrite ltb_false_le. naive_solver lia.
  - rewrite Z.gtb_ltb, Z.ltb_ge. naive_solver lia.
Qed.

Lemma weight_before_trans x y z : not_after weight_before x y → not_after weight_before y z → not_after weight_before x z.
Proof.
  rewrite !not_after_weight. intros [?|[? ?]] [?|[? ?]]; [left; lia..|]. right. split; [lia|by etrans].
Qed.

(** [OrderByWeight] returns the same pools, heavier ones first and, among equal weights,
    the later name first; when names are distinct there is only one such order, so the
    result does not depend on the sorting algorithm or on the order of the input. *)
Theorem OrderByWeight_canonical nps nps' : NoDup ((λ np, np_Name (np_template np)) <$> nps) →
  nps' ≡ₚ nps → StronglySorted (not_after weight_before) nps' →
  OrderByWeight nps = nps' ∧ OrderByWeight nps' = nps'.
Proof.
  intros Hnd Hp Hs.
  assert (∀ l l' : list NodePool, NoDup ((λ np, np_Name (np_template np)) <$> l) → l ≡ₚ l' →
    StronglySorted (not_after weight_before) l → StronglySorted (not_after weight_before) l' → l = l') as Huniq.
  { clear. intros l l' Hnd Hp Hl Hl'. eapply (StronglySorted_unique_strong (not_after weight_before)); [|done..].
    intros x y Hx Hy. rewrite !not_after_weight. intros [?|[? H1]] [?|[? H2]]; try lia.
    assert (np_Name (np_template x) = np_Name (np_template y)) as En by by apply (anti_symm String.le).
    apply list_elem_of_lookup in Hx as [i Hi]. rewrite <-Hp in Hy. apply list_elem_of_lookup in Hy as [j Hj].
    assert (i = j) as ->; [|congruence]. eapply (NoDup_lookup _ i j _ Hnd); rewrite list_lookup_fmap, ?Hi, ?Hj; [done|by rewrite En]. }
  pose proof (λ l, sort_by_StronglySorted weight_before weight_before_asym weight_before_trans l) as Hsort.
  unfold OrderByWeight. split; apply Huniq; try apply Hsort; try done.
  - by rewrite sort_by_Permutation.
  - by rewrite sort_by_Permutation.
  - by rewrite sort_by_Permutation, Hp.
  - by rewrite sort_by_Permutation.
Qed.

(** What a scheduler knows of a pool's instance types is what the provider returned. *)
Lemma resolve_sound GetInstanceTypes nodePools m name its :
  resolve_instance_types GetInstanceTypes nodePools = Some m → m !! name = Some its →
  its ≠ [] ∧ ∃ np, np ∈ nodePools ∧ np_Name (np_template np) = name ∧ GetInstanceTypes np = Ok its.
Proof.
  revert m. induction nodePools as [|np pools IH]; intros m; cbn [resolve_instance_types].
  { intros [= <-]. by rewrite lookup_empty. }
  assert (∀ m, resolve_instance_types GetInstanceTypes pools = Some m → m !! name = Some its →
    its ≠ [] ∧ ∃ q, q ∈ np :: pools ∧ np_Name (np_template q) = name ∧ GetInstanceTypes q = Ok its) as Hskip.
  { intros m' Hm Hl. destruct (IH m' Hm Hl) as (? & q & ? & ?). split; [done|]. exists q. split; [by right|done]. }
  destruct (GetInstanceTypes np) as [[|it its']|[]] eqn:Eg; try done; try apply Hskip.
  destruct (resolve_instance_types GetInstanceTypes pools) as [m'|]; [|done]. cbn [mbind option_bind]. intros [= <-].
  destruct (m' !! np_Name (np_template np)); [by apply Hskip|].
  intros [[<- <-]|[? ?]]%lookup_insert_Some; [|by eapply Hskip]. split; [done|]. exists np. split_and!; [by left|done..].
Qed.

Lemma resolve_complete GetInstanceTypes nodePools m np its :
  NoDup ((λ np, np_Name (np_template np)) <$> nodePools) →
  resolve_instance_types GetInstanceTypes nodePools = Some m → np ∈ nodePools → GetInstanceTypes np = Ok its → its ≠ [] →
  m !! np_Name (np_template np) = Some its.
Proof.
  revert m. induction nodePools as [|q pools IH]; intros m; [by intros _ _ ?%elem_of_nil|].
  rewrite fmap_cons, NoDup_cons, elem_of_cons. intros [Hnew Hnd]. cbn [resolve_instance_types]. intros Hm Hin Hg Hne.
  destruct Hin as [->|Hin].
  - rewrite Hg in Hm. destruct its as [|it its]; [done|].
    destruct (resolve_instance_types GetInstanceTypes pools) as [m'|] eqn:Em; [|done]. cbn [mbind option_bind] in Hm. injection Hm as <-.
    destruct (m' !! np_Name (np_template q)) as [l|] eqn:El; [|by rewrite lookup_insert_eq]. destruct Hnew.
    destruct (resolve_sound _ _ _ _ _ Em El) as (_ & r & ? & ? & _). apply list_elem_of_fmap. by exists r.
  - destruct (GetInstanceTypes q) as [[|it its']|[]]; try done; try by eapply IH.
    destruct (resolve_instance_types GetInstanceTypes pools) as [m'|] eqn:Em; [|done]. cbn [mbind option_bind] in Hm. injection Hm as <-.
    pose proof (IH m' Hnd eq_refl Hin Hg Hne) as Hl.
    destruct (m' !! np_Name (np_template q)) eqn:El; [done|]. rewrite lookup_insert_ne; [done|congruence].
Qed.
