(* ===== verification/ExistingNodes.v ===== *)
(** * ExistingNodes: scheduling onto nodes of the cluster
    (pkg/controllers/provisioning/scheduling/existingnode.go)

    An existing node has fixed labels and shrinking resources.  The parts of the
    state node it embeds that the code reads or changes (host ports, volumes) are
    fields of the record. *)

From S2P Require Import Prelude Labels Requirement Objects Requirements Resources Taints HostPorts.
From S2P Require Import Volumes InstanceTypes Reservations TopologyGroup Topology NodeClaims.

Record ExistingNode := mkExistingNode {
  en_Name : string;
  en_Initialized : bool;
  cachedTaints : list Taint;
  en_HostPortUsage : HostPortUsage;
  en_VolumeUsage : VolumeUsage;
  en_Pods : list Pod;
  remainingResources : ResourceList;
  en_requirements : Requirements;
  isUnderConsolidateAfter : bool;
}.

(** What the scheduler reads of a state node: [Labels()], [Taints()], [HostName()],
    [Capacity()], [Available()], [DaemonSetRequests()], host ports, volumes and NodeClaim. *)
Record StateNodeSnapshot := mkStateNodeSnapshot {
  s_Name : string;
  s_Initialized : bool;
  s_Labels : gmap string string;
  s_HostName : string;
  s_Available : ResourceList;
  s_DaemonSetRequests : ResourceList;
  s_HostPortUsage : HostPortUsage;
  s_VolumeUsage : VolumeUsage;
  s_Taints : list Taint;
  s_Capacity : ResourceList;
  s_NodeClaim : option v1NodeClaim;
}.

Section existing_node.
  Context `{LR : LabelRegistry} `{TA : TaintApi} `{SA : SelectorApi} `{IO : IterationOrder} `{SE : SchedulerEnv}.
  Context {E : Type}.
  Context (allocator : option (string → Requirements → list string → option AllocationResult)).

(** The daemons still to come: what is expected less what runs already, not below zero. *)
Definition remaining_daemon_resources (daemonResources running : ResourceList) : ResourceList :=
  (λ q, if (q <? 0)%Z then 0%Z else q) <$> default ∅ (SubtractFrom (Some daemonResources) running).

Definition NewExistingNode (n : StateNodeSnapshot) (t : Topology) (taints : list Taint) (daemonResources : ResourceList)
    (instanceType : option InstanceType) (underConsolidateAfter : bool) : ExistingNode * Topology :=
  let usage := match instanceType with
               | None => s_VolumeUsage n
               | Some it => map_fold (λ driver limit u, AddFallbackLimit u driver limit) (s_VolumeUsage n)
                              (VolumeAttachmentLimits it)
               end in
  (mkExistingNode (s_Name n) (s_Initialized n) taints (s_HostPortUsage n) usage []
     (Subtract (s_Available n) (remaining_daemon_resources daemonResources (s_DaemonSetRequests n)))
     (Add (NewLabelRequirements (s_Labels n)) [requirement_In LabelHostname (s_HostName n)])
     underConsolidateAfter,
   Topology_Register t LabelHostname (s_HostName n)).

Definition existing_tryVolumeAlternative (t : Topology) (n : ExistingNode) (pod : Pod) (podData : PodData)
    (baseRequirements : Requirements) (volReqs : option Requirements) : result (add_error E) Requirements :=
  let reqs := NewRequirements (Values baseRequirements) in
  reqs ← match volReqs with
         | None => Ok reqs
         | Some v => _ ← check (Compatible reqs v ∅) IncompatibleVolumeRequirements; Ok (Add reqs (Values v))
         end;
  match AddRequirements (E := E) t pod (cachedTaints n) (StrictRequirements podData) reqs ∅ with
  | Err e => Err (TopologyError e)
  | Ok topologyRequirements =>
      _ ← check (Compatible reqs topologyRequirements ∅) IncompatibleRequirements;
      Ok (Add reqs (Values topologyRequirements))
  end.

(** A failed claim resolution ends the search, a failed allocation only this
    alternative. *)
Definition existing_attempt (t : Topology) (n : ExistingNode) (pod : Pod) (podData : PodData)
    (baseRequirements : Requirements) (volReqs : option Requirements)
    : result (add_error E) (Requirements * option AllocationResult) :=
  reqs ← existing_tryVolumeAlternative t n pod podData baseRequirements volReqs;
  match allocator with
  | Some allocate =>
      if HasResourceClaimRequests podData then
        if ResourceClaimErr podData then Err DRAErr
        else match allocate (en_Name n) (en_requirements n) (pd_ResourceClaims podData) with
             | None => Err AllocationErr
             | Some r => Ok (reqs, Some r)
             end
      else Ok (reqs, None)
  | None => Ok (reqs, None)
  end.

Definition ExistingNode_CanAdd (t : Topology) (n : ExistingNode) (pod : Pod) (podData : PodData) (vols : Volumes)
    : result (add_error E) (Requirements * option AllocationResult) :=
  match ToleratesPod (cachedTaints n) pod with
  | _ :: _ as taints => Err (TaintsNotTolerated taints)
  | [] =>
      if ExceedsLimits (en_VolumeUsage n) vols then Err (VolumeLimitExceeded None)
      else if HostPortUsage_Conflicts (en_HostPortUsage n) (pod_key pod) (GetHostPorts ParseIP pod)
      then Err HostPortConflict
      else if negb (Fits (Requests podData) (remainingResources n)) then Err ExceedsNodeResources
      else
        _ ← check (Compatible (en_requirements n) (pd_Requirements podData) ∅) IncompatibleRequirements;
        let base := Add (NewRequirements (Values (en_requirements n))) (Values (pd_Requirements podData)) in
        try_alternatives (λ e, match e with DRAErr => true | _ => false end)
          (existing_attempt t n pod podData base) podData
  end.

Definition ExistingNode_Add (t : Topology) (n : ExistingNode) (pod : Pod) (podData : PodData)
    (nodeRequirements : Requirements) (vols : Volumes) : Topology * ExistingNode :=
  (Topology_Record t pod (cachedTaints n) nodeRequirements ∅,
   mkExistingNode (en_Name n) (en_Initialized n) (cachedTaints n)
     (HostPortUsage_Add (en_HostPortUsage n) (pod_key pod) (GetHostPorts ParseIP pod))
     (VolumeUsage_Add (en_VolumeUsage n) (pod_key pod) vols) (en_Pods n ++ [pod])
     (default ∅ (SubtractFrom (Some (remainingResources n)) (Requests podData)))
     nodeRequirements (isUnderConsolidateAfter n)).

(** ** An existing node never overcommits *)

Inductive existing_step : ExistingNode → PodData → ExistingNode → Prop :=
| existing_placed t n pod podData vols reqs result t' n' :
    ExistingNode_CanAdd t n pod podData vols = Ok (reqs, result) →
    ExistingNode_Add t n pod podData reqs vols = (t', n') →
    existing_step n podData n'.

Inductive existing_run (n0 : ExistingNode) : list PodData → ExistingNode → Prop :=
| existing_run_nil : existing_run n0 [] n0
| existing_run_snoc l n podData n' :
    existing_run n0 l n → existing_step n podData n' → existing_run n0 (l ++ [podData]) n'.

(** Volumes of the node respect every driver's limit. *)
Definition volumes_within (v : VolumeUsage) : Prop :=
  ∀ driver limit, limits v !! driver = Some limit →
    (Z.of_nat (size (claims_of (vu_volumes v) driver)) ≤ limit ∨ claims_of (vu_volumes v) driver = ∅)%Z.

Lemma ExceedsLimits_false v vols driver limit :
  ExceedsLimits v vols = false → limits v !! driver = Some limit →
  (Z.of_nat (size (claims_of (Volumes_Union (vu_volumes v) vols) driver)) ≤ limit ∨
   claims_of (Volumes_Union (vu_volumes v) vols) driver = ∅)%Z.
Proof.
  intros He Hl. unfold ExceedsLimits in He. unfold claims_of.
  destruct (Volumes_Union (vu_volumes v) vols !! driver) as [c|] eqn:Ed; [left|by right]. simpl.
  destruct (Z.leb_spec (Z.of_nat (size c)) limit) as [?|Hgt]; [done|]. exfalso.
  assert (map_existsb (λ k volumes, match limits v !! k with
    | Some limit => (Z.of_nat (size volumes) >? limit)%Z | None => false end)
    (Volumes_Union (vu_volumes v) vols) = true) as Ht; [|congruence].
  apply map_existsb_spec. exists driver, c. split; [done|]. rewrite Hl. lia.
Qed.

Lemma existing_step_sound n podData n' :
  existing_step n podData n' →
  (∀ k, (qty (remainingResources n') k = qty (remainingResources n) k - qty (Requests podData) k)%Z) ∧
  (∀ k, (0 ≤ qty (remainingResources n') k)%Z) ∧
  volumes_within (en_VolumeUsage n').
Proof.
  intros [t n1 pod pd vols reqs r t' n1' HC HA]. unfold ExistingNode_CanAdd in HC.
  destruct (ToleratesPod (cachedTaints n1) pod); [|done].
  destruct (ExceedsLimits (en_VolumeUsage n1) vols) eqn:Ev; [done|].
  destruct (HostPortUsage_Conflicts _ _ _); [done|].
  destruct (Fits (Requests pd) (remainingResources n1)) eqn:Ef; [|done]. clear HC.
  injection HA as <- <-. cbn [remainingResources en_VolumeUsage].
  split_and!.
  - intros k. by apply SubtractFrom_qty.
  - intros k. rewrite (SubtractFrom_qty (remainingResources n1) (Requests pd) k) by done.
    pose proof (Fits_qty _ _ k Ef). lia.
  - intros driver limit Hl. simpl in Hl. simpl. by apply ExceedsLimits_false.
Qed.

(** An existing node never overcommits: after any number of pods has been added,
    their requests together are at most what was available at the start, for every
    resource, and the volumes mounted are within the limit of every driver. *)
Theorem existing_node_never_overcommits n0 l n :
  existing_run n0 l n → l ≠ [] →
  (∀ k, (sumZ ((λ pd, qty (Requests pd) k) <$> l) ≤ qty (remainingResources n0) k)%Z) ∧
  (∀ k, (qty (remainingResources n) k =
         qty (remainingResources n0) k - sumZ ((λ pd, qty (Requests pd) k) <$> l))%Z) ∧
  volumes_within (en_VolumeUsage n).
Proof.
  intros Hrun Hl.
  assert (∀ l n, existing_run n0 l n → ∀ k, (qty (remainingResources n) k =
    qty (remainingResources n0) k - sumZ ((λ pd, qty (Requests pd) k) <$> l))%Z) as Hq.
  { intros l' n'. induction 1 as [|l1 n1 pd n2 _ IH Hs]; intros k; [simpl; lia|].
    destruct (existing_step_sound _ _ _ Hs) as (Hr & _). rewrite Hr, IH, fmap_app, sumZ_app. csimpl. lia. }
  pose proof (Hq l n Hrun) as Htot. split_and!; [|done|].
  - intros k. specialize (Htot k). destruct Hrun as [|l' n1 pd n' Hrun Hs]; [done|].
    destruct (existing_step_sound _ _ _ Hs) as (_ & Hpos & _). specialize (Hpos k). lia.
  - destruct Hrun as [|l' n1 pd n' Hrun Hs]; [done|]. by destruct (existing_step_sound _ _ _ Hs) as (_ & _ & ?).
Qed.
End existing_node.
