(* ===== verification/Evictions.v ===== *)
(** * Evictions: pods of a node and the budgets that protect them
    (pkg/utils/pdb/pdb.go, pkg/utils/node/node.go)

    Reads of the API server are the fields of [NodeApi]. *)

From S2P Require Import Prelude Labels Requirement Objects Requirements Taints Volumes PodState TopologyGroup.

(** [policyv1.PodDisruptionBudget]. *)
Record PodDisruptionBudget := mkPDB {
  pdb_key : NamespacedName;
  pdb_Selector : option LabelSelector;
  pdb_MaxUnavailable : option IntOrString;
  pdb_MinAvailable : option IntOrString;
  pdb_UnhealthyPodEvictionPolicy : option string;
  pdb_DisruptionsAllowed : Z;
}.

Record NodeApi := mkNodeApi {
  (** the pods whose spec.nodeName is the given name *)
  list_pods_on : string → result api_error (list Pod);
  list_pdbs : result api_error (list PodDisruptionBudget);
  (** the NodeClaims whose status.providerID is the given one *)
  list_claims_by_provider_id : string → result api_error (list v1NodeClaim);
}.

Inductive evictionBlocker := zeroDisruptions | fullyBlockingPDBs.

Record pdbItem := mkPdbItem {
  pi_key : NamespacedName;
  pi_selector : Selector;
  pi_disruptionsAllowed : Z;
  pi_isFullyBlocking : bool;
  pi_canAlwaysEvictUnhealthyPods : bool;
}.

Section evictions.
  Context `{SA : SelectorApi} `{TA : TaintApi} (ParseDuration : string → option Z).

(** [None] is the error of an invalid selector. *)
Definition newPdb (pdb : PodDisruptionBudget) : option pdbItem :=
  selector ← LabelSelectorAsSelector (pdb_Selector pdb);
  Some (mkPdbItem (pdb_key pdb) selector (pdb_DisruptionsAllowed pdb)
    (bool_decide (pdb_MaxUnavailable pdb = Some (IntVal 0)) || bool_decide (pdb_MaxUnavailable pdb = Some (StrVal "0%")) ||
     bool_decide (pdb_MinAvailable pdb = Some (StrVal "100%")))
    (bool_decide (pdb_UnhealthyPodEvictionPolicy pdb = Some "AlwaysAllow"))).

Inductive limits_error := ListFailed (e : api_error) | InvalidSelector.

Definition NewLimits (api : NodeApi) : result limits_error (list pdbItem) :=
  match list_pdbs api with
  | Err e => Err (ListFailed e)
  | Ok pdbs => match mapM newPdb pdbs with Some items => Ok items | None => Err InvalidSelector end
  end.

Definition unready (pod : Pod) : bool :=
  existsb (λ c, bool_decide (cond_Type c = "Ready") && bool_decide (cond_Status c = ConditionFalse))
    (Conditions (pod_Status pod)).

(** The keys of the budgets that block the eviction, if any. *)
Fixpoint first_blocker (pod : Pod) (blocker : evictionBlocker) (matchingPDBs : list pdbItem)
    : list NamespacedName * bool :=
  match matchingPDBs with
  | [] => ([], true)
  | pdb :: rest =>
      if pi_canAlwaysEvictUnhealthyPods pdb && unready pod then ([], true)
      else if match blocker with
              | zeroDisruptions => (pi_disruptionsAllowed pdb =? 0)%Z
              | fullyBlockingPDBs => pi_isFullyBlocking pdb
              end then ([pi_key pdb], false)
      else first_blocker pod blocker rest
  end.

Definition pdb_matches (pod : Pod) (pdb : pdbItem) : bool :=
  bool_decide ((pi_key pdb).1 = pod_Namespace pod) && pi_selector pdb (pod_Labels pod).

Definition isEvictable (l : list pdbItem) (pod : Pod) (now : Z) (blocker : evictionBlocker) : list NamespacedName * bool :=
  if negb (IsEvictable ParseDuration pod now) then ([], true)
  else
    let matchingPDBs := filter (λ pdb, pdb_matches pod pdb = true) l in
    if (1 <? length matchingPDBs)%nat then (pi_key <$> matchingPDBs, false)
    else first_blocker pod blocker matchingPDBs.

Fixpoint CanEvictPods (l : list pdbItem) (pods : list Pod) (now : Z) : list NamespacedName * bool :=
  match pods with
  | [] => ([], true)
  | pod :: rest =>
      let '(pdbs, evictable) := isEvictable l pod now zeroDisruptions in
      if evictable : bool then CanEvictPods l rest now else (pdbs, false)
  end.

Definition isFullyBlocked (l : list pdbItem) (pod : Pod) (now : Z) : list NamespacedName * bool :=
  let '(pdbs, evictable) := isEvictable l pod now fullyBlockingPDBs in
  if evictable : bool then ([], false) else (pdbs, true).

Definition IsCurrentlyReschedulable (l : list pdbItem) (pod : Pod) (now : Z) : bool :=
  let '(_, blocked) := isFullyBlocked l pod now in
  IsReschedulable pod && IsDisruptable ParseDuration pod now && negb blocked.

(** ** The pods of nodes *)

Fixpoint GetPods (api : NodeApi) (nodeNames : list string) : result api_error (list Pod) :=
  match nodeNames with
  | [] => Ok []
  | nodeName :: rest =>
      if bool_decide (nodeName = EmptyString) then GetPods api rest
      else pods ← list_pods_on api nodeName; others ← GetPods api rest; Ok (pods ++ others)
  end.

Definition ReschedulablePods (api : NodeApi) (nodeNames : list string) : result api_error (list Pod) :=
  pods ← GetPods api nodeNames; Ok (filter (λ p, IsReschedulable p = true) pods).

Definition GetCurrentlyReschedulablePods (api : NodeApi) (now : Z) (nodes : list Node) : result limits_error (list Pod) :=
  match GetPods api (node_Name <$> nodes) with
  | Err e => Err (ListFailed e)
  | Ok pods => pdbs ← NewLimits api; Ok (filter (λ p, IsCurrentlyReschedulable pdbs p now = true) pods)
  end.

Definition GetProvisionablePods (api : NodeApi) : result api_error (list Pod) :=
  pods ← list_pods_on api EmptyString; Ok (filter (λ p, IsProvisionable p = true) pods).

(** ** The NodeClaim of a node *)

Definition GetNodeClaims (api : NodeApi) (node : Node) : result api_error (list v1NodeClaim) :=
  if bool_decide (node_ProviderID node = EmptyString) then Ok []
  else list_claims_by_provider_id api (node_ProviderID node).

Inductive claim_error := ClaimListFailed (e : api_error) | DuplicateNodeClaim (providerID : string) | NodeClaimNotFound (providerID : string).

Definition NodeClaimForNode (api : NodeApi) (node : Node) : result claim_error v1NodeClaim :=
  match GetNodeClaims api node with
  | Err e => Err (ClaimListFailed e)
  | Ok [nodeClaim] => Ok nodeClaim
  | Ok [] => Err (NodeClaimNotFound (node_ProviderID node))
  | Ok _ => Err (DuplicateNodeClaim (node_ProviderID node))
  end.

(** [GetCondition]: Go returns the zero condition when there is none. *)
Definition GetCondition (n : Node) (type : string) : Condition :=
  default (mkCondition EmptyString EmptyString EmptyString EmptyString zero_time) (get_condition type (node_Conditions n)).

(** ** Properties *)

(** What protects a pod: two budgets, or one that allows no disruption unless it
    lets an unready pod go. *)
Definition blocked_by_budget (l : list pdbItem) (pod : Pod) (blocks : pdbItem → bool) : Prop :=
  match filter (λ pdb, pdb_matches pod pdb = true) l with
  | [] => False
  | [pdb] => blocks pdb = true ∧ (pi_canAlwaysEvictUnhealthyPods pdb && unready pod) = false
  | _ => True
  end.

Definition blocks_with (blocker : evictionBlocker) (pdb : pdbItem) : bool :=
  match blocker with zeroDisruptions => (pi_disruptionsAllowed pdb =? 0)%Z | fullyBlockingPDBs => pi_isFullyBlocking pdb end.

Lemma isEvictable_spec l pod now blocker :
  (isEvictable l pod now blocker).2 = false ↔
  IsEvictable ParseDuration pod now = true ∧ blocked_by_budget l pod (blocks_with blocker).
Proof.
  unfold isEvictable, blocked_by_budget, blocks_with. destruct (IsEvictable ParseDuration pod now); simpl; [|naive_solver].
  destruct (filter _ l) as [|pdb [|pdb' rest]]; simpl; [naive_solver| |naive_solver].
  destruct (pi_canAlwaysEvictUnhealthyPods pdb && unready pod); simpl; [naive_solver|].
  destruct blocker; [destruct (_ =? _)%Z|destruct (pi_isFullyBlocking pdb)]; simpl; naive_solver.
Qed.

(** The pods of a node can be evicted exactly when no pod that would be evicted is
    protected: by two budgets, or by one that allows no disruption (unless it lets
    unready pods go and the pod is unready). *)
Theorem CanEvictPods_spec l pods now :
  (CanEvictPods l pods now).2 = true ↔
  ∀ pod, pod ∈ pods → IsEvictable ParseDuration pod now = true → ¬ blocked_by_budget l pod (blocks_with zeroDisruptions).
Proof.
  induction pods as [|pod pods IH]; simpl.
  { split; [|done]. intros _ pod ?%not_elem_of_nil. done. }
  pose proof (isEvictable_spec l pod now zeroDisruptions) as Hp. destruct (isEvictable l pod now zeroDisruptions) as [keys ev].
  simpl in Hp. destruct ev.
  - rewrite IH. split.
    + intros H p [->|Hin]%elem_of_cons He Hb; [|by eapply H]. by destruct Hp as [_ Hp]; specialize (Hp (conj He Hb)).
    + intros H p Hin. apply H. by right.
  - split; [done|]. intros H. destruct Hp as [Hp _]. destruct (Hp eq_refl) as [He Hb]. exfalso. apply (H pod); [by left|done..].
Qed.

(** A pod that is to be rescheduled now is one that may be disrupted and, when it
    would be evicted, is not behind a budget that blocks every eviction. *)
Theorem IsCurrentlyReschedulable_spec l pod now :
  IsCurrentlyReschedulable l pod now = true ↔
  IsReschedulable pod = true ∧ IsDisruptable ParseDuration pod now = true ∧
  ¬ (IsEvictable ParseDuration pod now = true ∧ blocked_by_budget l pod (blocks_with fullyBlockingPDBs)).
Proof.
  unfold IsCurrentlyReschedulable, isFullyBlocked. rewrite <-isEvictable_spec.
  destruct (isEvictable l pod now fullyBlockingPDBs) as [keys []]; simpl;
    destruct (IsReschedulable pod), (IsDisruptable ParseDuration pod now); simpl; naive_solver.
Qed.
End evictions.
