(* ===== verification/NodePoolHealth.v ===== *)
(** * NodePoolHealth: whether the nodes of a NodePool register
    (pkg/state/nodepoolhealth/tracker.go, pkg/utils/ringbuffer/buffer.go)

    A ring buffer keeps the outcome of the last registrations of a NodePool. *)

From S2P Require Import Prelude Float64.

(** ** The ring buffer *)

Record RingBuffer (T : Type) := mkRingBuffer {
  rb_capacity : nat;
  rb_values : list T;
  rb_head : nat;
}.
Arguments mkRingBuffer {T} _ _ _.
Arguments rb_capacity {T} _.
Arguments rb_values {T} _.
Arguments rb_head {T} _.

Section ring_buffer.
  Context {T : Type}.

Definition RingBuffer_New (capacity : nat) : RingBuffer T := mkRingBuffer capacity [] 0.

(** [None] is the panic of an insertion into a buffer of capacity zero. *)
Definition RingBuffer_Insert (b : RingBuffer T) (value : T) : option (RingBuffer T) :=
  if (length (rb_values b) <? rb_capacity b)%nat then
    Some (mkRingBuffer (rb_capacity b) (rb_values b ++ [value]) (rb_head b))
  else if (rb_head b <? length (rb_values b))%nat then
    Some (mkRingBuffer (rb_capacity b) (<[rb_head b := value]> (rb_values b)) (S (rb_head b) `mod` rb_capacity b))
  else None.

Definition RingBuffer_Len (b : RingBuffer T) : nat := length (rb_values b).
Definition RingBuffer_Reset (b : RingBuffer T) : RingBuffer T := mkRingBuffer (rb_capacity b) [] 0.
Definition RingBuffer_Items (b : RingBuffer T) : list T := rb_values b.

(** The values from the oldest to the newest. *)
Definition in_order (b : RingBuffer T) : list T := drop (rb_head b) (rb_values b) ++ take (rb_head b) (rb_values b).

Definition ring_wf (b : RingBuffer T) : Prop :=
  (0 < rb_capacity b)%nat ∧ (length (rb_values b) ≤ rb_capacity b)%nat ∧ (rb_head b < rb_capacity b)%nat ∧
  ((length (rb_values b) < rb_capacity b)%nat → rb_head b = 0%nat).

(** The last [n] elements of a list. *)
Definition last_n (n : nat) (l : list T) : list T := drop (length l - n) l.

Lemma rotate_replace (l : list T) i x : (i < length l)%nat →
  drop (S i) (<[i := x]> l) ++ take (S i) (<[i := x]> l) = drop 1 (drop i l ++ take i l) ++ [x].
Proof.
  intros Hi. destruct (lookup_lt_is_Some_2 _ _ Hi) as [y Hy].
  rewrite drop_insert_lt by lia. rewrite (take_S_r _ _ x) by (by apply list_lookup_insert_eq).
  rewrite take_insert_ge by lia. rewrite (drop_S l y i) by done. simpl. by rewrite drop_0, app_assoc.
Qed.

Lemma RingBuffer_Insert_spec b value : ring_wf b → ∃ b', RingBuffer_Insert b value = Some b' ∧ ring_wf b' ∧
  rb_capacity b' = rb_capacity b ∧ in_order b' = last_n (rb_capacity b) (in_order b ++ [value]).
Proof.
  intros (Hc & Hl & Hh & H0). unfold RingBuffer_Insert.
  destruct (Nat.ltb_spec (length (rb_values b)) (rb_capacity b)) as [Hlt|Hge].
  - eexists. split; [done|]. specialize (H0 Hlt). unfold ring_wf, in_order, last_n. simpl. rewrite H0, !drop_0, !take_0, !app_nil_r.
    rewrite length_app. simpl. split_and!; try lia. replace (length (rb_values b) + 1 - rb_capacity b)%nat with 0%nat by lia. done.
  - assert (length (rb_values b) = rb_capacity b) as El by lia.
    destruct (Nat.ltb_spec (rb_head b) (length (rb_values b))); [|lia]. eexists. split; [done|]. split; [|split; [done|]].
    { unfold ring_wf. simpl. rewrite length_insert. pose proof (Nat.mod_upper_bound (S (rb_head b)) (rb_capacity b)). lia. }
    unfold last_n, in_order at 2 3. rewrite !length_app, length_drop, length_take. simpl length.
    replace (_ - rb_capacity b)%nat with 1%nat by lia.
    rewrite drop_app_le by (rewrite length_app, length_drop, length_take; lia).
    rewrite <-rotate_replace by done. unfold in_order. simpl.
    destruct (decide (S (rb_head b) = rb_capacity b)) as [E|Hne].
    + rewrite E, Nat.Div0.mod_same, drop_0, take_0, app_nil_r.
      rewrite drop_ge, take_ge by (rewrite length_insert; lia). done.
    + by rewrite Nat.mod_small by lia.
Qed.
End ring_buffer.

(** The buffer after a sequence of insertions. *)
Definition insert_all {T} (b : RingBuffer T) (l : list T) : option (RingBuffer T) :=
  foldl_opt RingBuffer_Insert b l.

Lemma last_n_last_n {T} n (l k : list T) : last_n n (last_n n l ++ k) = last_n n (l ++ k).
Proof.
  unfold last_n. rewrite !length_app, length_drop. set (a := (length l - n)%nat).
  assert (l ++ k = take a l ++ (drop a l ++ k)) as -> by (by rewrite app_assoc, take_drop).
  rewrite (drop_app_ge (take a l)) by (rewrite length_take; lia). f_equal. rewrite length_take. lia.
Qed.

Lemma insert_all_spec {T} (b : RingBuffer T) l : ring_wf b → ∃ b', insert_all b l = Some b' ∧ ring_wf b' ∧
  rb_capacity b' = rb_capacity b ∧ last_n (rb_capacity b) (in_order b') = last_n (rb_capacity b) (in_order b ++ l).
Proof.
  revert b. induction l as [|x l IH]; intros b Hb.
  { exists b. by rewrite app_nil_r. }
  unfold insert_all. simpl. destruct (RingBuffer_Insert_spec b x Hb) as (b' & -> & Hb' & Hc & Ho). simpl.
  destruct (IH b' Hb') as (b'' & E & Hb'' & Hc' & Ho'). unfold insert_all in E. rewrite E. exists b''. rewrite Hc in Ho', Hc'. split_and!; [done..|].
  rewrite Ho', Ho. rewrite last_n_last_n. by rewrite <-app_assoc.
Qed.

Lemma in_order_length {T} (b : RingBuffer T) : ring_wf b → (length (in_order b) ≤ rb_capacity b)%nat.
Proof. intros (_ & Hl & _ & _). unfold in_order. rewrite length_app, length_drop, length_take. lia. Qed.

Lemma last_n_all {T} n (l : list T) : (length l ≤ n)%nat → last_n n l = l.
Proof. intros Hl. unfold last_n. replace (length l - n)%nat with 0%nat by lia. done. Qed.

(** A ring buffer holds exactly the last insertions, as many as its capacity. *)
Theorem ring_buffer_keeps_last {T} capacity (l : list T) : (0 < capacity)%nat →
  ∃ b, insert_all (RingBuffer_New capacity) l = Some b ∧ in_order b = last_n capacity l.
Proof.
  intros Hc. destruct (insert_all_spec (RingBuffer_New capacity) l) as (b & Hi & Hb & Ec & Ho).
  { unfold ring_wf. simpl. lia. }
  exists b. split; [done|]. simpl in Ho, Ec. rewrite <-Ho. symmetry. apply last_n_all. rewrite <-Ec. by apply in_order_length.
Qed.

(** ** Trackers *)

Definition BufferSize : nat := 4.

(** 0.5, in units of 2^-1074. *)
Definition ThresholdFalse : float64 := Fin (2 ^ 1073).

Inductive Status := StatusUnknown | StatusHealthy | StatusUnhealthy.

#[export] Instance Status_eq_dec : EqDecision Status.
Proof. solve_decision. Defined.

Abbreviation Tracker := (RingBuffer bool).

Definition NewTracker (capacity : nat) : Tracker := RingBuffer_New capacity.

Definition Tracker_Update (t : Tracker) (success : bool) : option Tracker := RingBuffer_Insert t success.
Definition Tracker_Reset (t : Tracker) : Tracker := RingBuffer_Reset t.

Definition unhealthyCount (items : list bool) : nat := length (filter (λ v, v = false) items).

Definition Tracker_Status (t : Tracker) : Status :=
  if (RingBuffer_Len t =? 0)%nat then StatusUnknown
  else if fleb ThresholdFalse (fdiv (float64_of_int (Z.of_nat (unhealthyCount (RingBuffer_Items t))))
                                    (float64_of_int (Z.of_nat BufferSize)))
  then StatusUnhealthy else StatusHealthy.

Definition Tracker_SetStatus (t : Tracker) (status : Status) : option Tracker :=
  match status with
  | StatusUnknown => Some (RingBuffer_Reset t)
  | StatusHealthy => RingBuffer_Insert (RingBuffer_Reset t) true
  | StatusUnhealthy => insert_all (RingBuffer_Reset t) (replicate 2 false)
  end.

(** The trackers per NodePool UID; an unknown NodePool gets a new one. *)
Abbreviation HealthState := (gmap string Tracker).

Definition nodePoolNodeRegistration (s : HealthState) (nodePoolUID : string) : HealthState * Tracker :=
  match s !! nodePoolUID with
  | Some tracker => (s, tracker)
  | None => (<[nodePoolUID := NewTracker BufferSize]> s, NewTracker BufferSize)
  end.

Definition State_Status (s : HealthState) (nodePoolUID : string) : HealthState * Status :=
  let '(s, tracker) := nodePoolNodeRegistration s nodePoolUID in (s, Tracker_Status tracker).

Definition State_Update (s : HealthState) (nodePoolUID : string) (launchStatus : bool) : option HealthState :=
  let '(s, tracker) := nodePoolNodeRegistration s nodePoolUID in
  tracker ← Tracker_Update tracker launchStatus; Some (<[nodePoolUID := tracker]> s).

Definition State_SetStatus (s : HealthState) (nodePoolUID : string) (status : Status) : option HealthState :=
  let '(s, tracker) := nodePoolNodeRegistration s nodePoolUID in
  tracker ← Tracker_SetStatus tracker status; Some (<[nodePoolUID := tracker]> s).

Definition State_DryRun (s : HealthState) (nodePoolUID : string) (launchStatus : bool) : option Tracker :=
  let '(_, originalTracker) := nodePoolNodeRegistration s nodePoolUID in
  trackerCopy ← insert_all (NewTracker BufferSize) (RingBuffer_Items originalTracker);
  Tracker_Update trackerCopy launchStatus.

(** ** Properties *)

Lemma fdiv_quarter n : (0 ≤ n < 2 ^ 53)%Z → fdiv (float64_of_int n) (float64_of_int 4) = Fin (n * 2 ^ 1072).
Proof.
  intros Hn. pose proof funit_pos as Hu. rewrite !float64_of_int_exact by lia. unfold fdiv.
  destruct (Z.eqb_spec (4 * funit) 0); [lia|]. rewrite Z.sgn_pos, Z.abs_eq, Z.mul_1_l by lia.
  replace (n * funit * funit)%Z with (n * 2 ^ 1072 * (4 * funit))%Z.
  2: { transitivity (n * (2 ^ 1072 * 2 ^ 2) * funit)%Z; [lia|]. rewrite <-Z.pow_add_r by lia. done. }
  rewrite to_float64_scale by lia. assert (0 < 2 ^ 1072)%Z by (apply Z.pow_pos_nonneg; lia).
  apply to_float64_Fin; [exists n, 1072%Z; split_and!; lia|]. rewrite Z.abs_eq by nia.
  apply (Z.lt_trans _ (2 ^ (53 + 1072))%Z); [|apply pow2_lt_foverflow; lia].
  rewrite Z.pow_add_r by lia. apply Z.mul_lt_mono_pos_r; lia.
Qed.

(** A NodePool with some outcome is unhealthy exactly when at least two of the
    outcomes kept (at most four) are failures. *)
Theorem Tracker_Status_spec t : (0 < RingBuffer_Len t)%nat → (RingBuffer_Len t ≤ BufferSize)%nat →
  Tracker_Status t = StatusUnhealthy ↔ (2 ≤ unhealthyCount (RingBuffer_Items t))%nat.
Proof.
  intros Hpos Hle. unfold Tracker_Status. destruct (Nat.eqb_spec (RingBuffer_Len t) 0); [lia|].
  assert (unhealthyCount (RingBuffer_Items t) ≤ 4)%nat as Hc.
  { unfold unhealthyCount, RingBuffer_Items, RingBuffer_Len, BufferSize in *. pose proof (length_filter (λ v, v = false) (rb_values t)). lia. }
  set (u := unhealthyCount _) in *. change (Z.of_nat BufferSize) with 4%Z. rewrite fdiv_quarter by lia.
  unfold ThresholdFalse, fleb, feqb. cbn [fltb]. assert (2 ^ 1073 = 2 * 2 ^ 1072)%Z as Hp by (exact (Z.pow_succ_r 2 1072 ltac:(lia))).
  assert (0 < 2 ^ 1072)%Z by (apply Z.pow_pos_nonneg; lia). rewrite Hp.
  rewrite (bool_decide_false (_ = NaN)) by done. cbn [negb andb].
  destruct (Z.ltb_spec (2 * 2 ^ 1072) (Z.of_nat u * 2 ^ 1072)); cbn [orb]; [split; [nia|done]|].
  case_bool_decide as E; [injection E as E; split; [nia|done]|]. split; [done|]. intros Hu. destruct E. f_equal. nia.
Qed.

(** The status set is the status read. *)
Theorem SetStatus_roundtrip status t :
  Tracker_Status <$> Tracker_SetStatus (mkRingBuffer BufferSize t 0) status = Some status.
Proof. destruct status; vm_compute; reflexivity. Qed.

(** A dry run predicts the status an update leads to as long as the buffer has not
    wrapped around. *)
Theorem DryRun_before_wraparound s uid launched t : s !! uid = Some t → ring_wf t → rb_capacity t = BufferSize → rb_head t = 0%nat →
  Tracker_Status <$> State_DryRun s uid launched = Tracker_Status <$> Tracker_Update t launched.
Proof.
  intros Hs Hwf Hc Hh. unfold State_DryRun, nodePoolNodeRegistration. rewrite Hs. unfold RingBuffer_Items.
  destruct Hwf as (_ & Hl & _ & _). destruct t as [cap vals head]. simpl in *. subst cap head. unfold BufferSize in Hl.
  assert (insert_all (NewTracker BufferSize) vals = Some (mkRingBuffer BufferSize vals 0)) as ->; [|done].
  destruct vals as [|a [|b [|c [|d [|e vals]]]]]; try done. simpl in Hl. lia.
Qed.

(** After a wraparound it may not: the copy lists the outcomes in the order they are
    stored and forgets which is the oldest, so the dry run replaces the newest. *)
Theorem DryRun_after_wraparound : ∃ history t,
  insert_all (NewTracker BufferSize) history = Some t ∧
  Tracker_Status <$> State_DryRun {["pool" := t]} "pool" true = Some StatusHealthy ∧
  Tracker_Status <$> Tracker_Update t true = Some StatusUnhealthy.
Proof. exists [true; true; false; true; false]. eexists. split; [reflexivity|]. by vm_compute. Qed.
