(* ===== verification/NodePoolState.v ===== *)
(** * NodePoolState: the NodeClaims of every NodePool and what is reserved of its
    limit (pkg/controllers/state/statenodepool.go)

    Every exported method holds the mutex for its whole body, so the
    compare-and-swap loops succeed at once. *)

From S2P Require Import Prelude Labels Requirement Objects.

Record NodeClaimState := mkNodeClaimState {
  ncs_Active : gset string;
  ncs_PendingDisruption : gset string;
  ncs_Deleting : gset string;
}.

Record NodePoolState := mkNodePoolState {
  nodePoolNameToNodeClaimState : gmap string NodeClaimState;
  nodeClaimNameToNodePoolName : gmap string string;
  nodePoolNameToNodePoolLimit : gmap string Z;
}.

Definition NewNodePoolState : NodePoolState := mkNodePoolState ∅ ∅ ∅.

Definition NodePoolState_Reset (_ : NodePoolState) : NodePoolState := mkNodePoolState ∅ ∅ ∅.

Definition empty_claims : NodeClaimState := mkNodeClaimState ∅ ∅ ∅.

Definition ensureNodePoolEntry (n : NodePoolState) (np : string) : NodePoolState :=
  mkNodePoolState
    (match nodePoolNameToNodeClaimState n !! np with
     | Some _ => nodePoolNameToNodeClaimState n
     | None => <[np := empty_claims]> (nodePoolNameToNodeClaimState n) end)
    (nodeClaimNameToNodePoolName n)
    (match nodePoolNameToNodePoolLimit n !! np with
     | Some _ => nodePoolNameToNodePoolLimit n
     | None => <[np := 0%Z]> (nodePoolNameToNodePoolLimit n) end).

Definition SetNodeClaimMapping (n : NodePoolState) (npName ncName : string) : NodePoolState :=
  if bool_decide (npName = EmptyString) || bool_decide (ncName = EmptyString) then n
  else let n := ensureNodePoolEntry n npName in
       mkNodePoolState (nodePoolNameToNodeClaimState n) (<[ncName := npName]> (nodeClaimNameToNodePoolName n))
         (nodePoolNameToNodePoolLimit n).

(** Move a claim of the pool into one of the three sets. *)
Definition mark_claim (f : NodeClaimState → NodeClaimState) (n : NodePoolState) (npName : string) : NodePoolState :=
  let n := ensureNodePoolEntry n npName in
  mkNodePoolState (alter f npName (nodePoolNameToNodeClaimState n)) (nodeClaimNameToNodePoolName n)
    (nodePoolNameToNodePoolLimit n).

Definition MarkNodeClaimActive (n : NodePoolState) (npName ncName : string) : NodePoolState :=
  mark_claim (λ st, mkNodeClaimState (ncs_Active st ∪ {[ncName]}) (ncs_PendingDisruption st ∖ {[ncName]})
                      (ncs_Deleting st ∖ {[ncName]})) n npName.

Definition MarkNodeClaimDeleting (n : NodePoolState) (npName ncName : string) : NodePoolState :=
  mark_claim (λ st, mkNodeClaimState (ncs_Active st ∖ {[ncName]}) (ncs_PendingDisruption st ∖ {[ncName]})
                      (ncs_Deleting st ∪ {[ncName]})) n npName.

Definition MarkNodeClaimPendingDisruption (n : NodePoolState) (npName ncName : string) : NodePoolState :=
  mark_claim (λ st, mkNodeClaimState (ncs_Active st ∖ {[ncName]}) (ncs_PendingDisruption st ∪ {[ncName]})
                      (ncs_Deleting st ∖ {[ncName]})) n npName.

Definition NodePoolState_Cleanup (n : NodePoolState) (ncName : string) : NodePoolState :=
  let npName := default EmptyString (nodeClaimNameToNodePoolName n !! ncName) in
  let '(states, lims) :=
    match nodePoolNameToNodeClaimState n !! npName with
    | Some st =>
        let st := mkNodeClaimState (ncs_Active st ∖ {[ncName]}) (ncs_PendingDisruption st ∖ {[ncName]})
                    (ncs_Deleting st ∖ {[ncName]}) in
        if (size (ncs_Active st) =? 0)%nat && (size (ncs_Deleting st) =? 0)%nat
        then (delete npName (nodePoolNameToNodeClaimState n), delete npName (nodePoolNameToNodePoolLimit n))
        else (<[npName := st]> (nodePoolNameToNodeClaimState n), nodePoolNameToNodePoolLimit n)
    | None => (nodePoolNameToNodeClaimState n, nodePoolNameToNodePoolLimit n)
    end in
  mkNodePoolState states (delete ncName (nodeClaimNameToNodePoolName n)) lims.

(** The numbers of active, deleting and pending claims. *)
Definition nodeCounts (n : NodePoolState) (npName : string) : Z * Z * Z :=
  match nodePoolNameToNodeClaimState n !! npName with
  | Some st => (Z.of_nat (size (ncs_Active st)), Z.of_nat (size (ncs_Deleting st)), Z.of_nat (size (ncs_PendingDisruption st)))
  | None => (0, 0, 0)%Z
  end.

Definition GetNodeCount (n : NodePoolState) (npName : string) : Z * Z * Z := nodeCounts n npName.

Definition node_total (n : NodePoolState) (npName : string) : Z :=
  let '(active, deleting, pendingdisruption) := nodeCounts n npName in (active + deleting + pendingdisruption)%Z.

Definition reserved (n : NodePoolState) (npName : string) : Z := default 0%Z (nodePoolNameToNodePoolLimit n !! npName).

(** The granted part of the wanted nodes, in 64-bit arithmetic. *)
Definition ReserveNodeCount (n : NodePoolState) (np : string) (limit wantedLimit : Z) : NodePoolState * Z :=
  let n := ensureNodePoolEntry n np in
  let currentlyReserved := reserved n np in
  let remainingLimit := wrap64 (wrap64 (limit - node_total n np) - currentlyReserved) in
  if (remainingLimit <? 0)%Z then (n, 0%Z)
  else
    let grantedLimit := if (wantedLimit >? remainingLimit)%Z then remainingLimit else wantedLimit in
    (mkNodePoolState (nodePoolNameToNodeClaimState n) (nodeClaimNameToNodePoolName n)
       (<[np := wrap64 (currentlyReserved + grantedLimit)]> (nodePoolNameToNodePoolLimit n)), grantedLimit).

Definition ReleaseNodeCount (n : NodePoolState) (npName : string) (count : Z) : NodePoolState :=
  match nodePoolNameToNodePoolLimit n !! npName with
  | None => n
  | Some currentlyReserved =>
      let left := wrap64 (currentlyReserved - count) in
      mkNodePoolState (nodePoolNameToNodeClaimState n) (nodeClaimNameToNodePoolName n)
        (<[npName := if (left <? 0)%Z then 0%Z else left]> (nodePoolNameToNodePoolLimit n))
  end.

Definition NodePoolState_UpdateNodeClaim (n : NodePoolState) (nodeClaim : v1NodeClaim) (markedForDeletion : bool) : NodePoolState :=
  let npName := default EmptyString (claim_Labels nodeClaim !! NodePoolLabelKey) in
  if bool_decide (npName = EmptyString) then n
  else let n := SetNodeClaimMapping n npName (claim_Name nodeClaim) in
       if markedForDeletion then MarkNodeClaimDeleting n npName (claim_Name nodeClaim)
       else MarkNodeClaimActive n npName (claim_Name nodeClaim).

(** ** Properties *)

(** Every operation of the component, as one step. *)
Inductive pool_step : NodePoolState → NodePoolState → Prop :=
| pool_map n np nc : pool_step n (SetNodeClaimMapping n np nc)
| pool_active n np nc : pool_step n (MarkNodeClaimActive n np nc)
| pool_deleting n np nc : pool_step n (MarkNodeClaimDeleting n np nc)
| pool_pending n np nc : pool_step n (MarkNodeClaimPendingDisruption n np nc)
| pool_cleanup n nc : pool_step n (NodePoolState_Cleanup n nc)
| pool_reserve n np limit wanted : pool_step n (ReserveNodeCount n np limit wanted).1
| pool_release n np count : pool_step n (ReleaseNodeCount n np count)
| pool_update n nc marked : pool_step n (NodePoolState_UpdateNodeClaim n nc marked)
| pool_reset n : pool_step n (NodePoolState_Reset n).

(** A claim of a pool is in one state. *)
Definition disjoint_claims (st : NodeClaimState) : Prop :=
  ncs_Active st ## ncs_PendingDisruption st ∧ ncs_Active st ## ncs_Deleting st ∧ ncs_PendingDisruption st ## ncs_Deleting st.

Definition claims_disjoint (n : NodePoolState) : Prop :=
  map_Forall (λ _, disjoint_claims) (nodePoolNameToNodeClaimState n).

Lemma ensure_disjoint n np : claims_disjoint n → claims_disjoint (ensureNodePoolEntry n np).
Proof.
  unfold claims_disjoint, ensureNodePoolEntry. simpl. intros H. destruct (_ !! np); [done|].
  apply map_Forall_insert_2; [|done]. unfold disjoint_claims. simpl. set_solver.
Qed.

Lemma mark_claim_disjoint f n np : (∀ st, disjoint_claims st → disjoint_claims (f st)) →
  claims_disjoint n → claims_disjoint (mark_claim f n np).
Proof.
  intros Hf Hn%(ensure_disjoint _ np). unfold mark_claim, claims_disjoint. cbn [nodePoolNameToNodeClaimState].
  intros k st [[-> (st' & Hst & ->)]|[Hne Hst]]%lookup_alter_Some; [apply Hf; by eapply Hn|by eapply Hn].
Qed.

Lemma mark_active_disjoint st nc : disjoint_claims st → disjoint_claims (mkNodeClaimState (ncs_Active st ∪ {[nc]})
  (ncs_PendingDisruption st ∖ {[nc]}) (ncs_Deleting st ∖ {[nc]})).
Proof. unfold disjoint_claims. simpl. set_solver. Qed.

Lemma mark_deleting_disjoint st nc : disjoint_claims st → disjoint_claims (mkNodeClaimState (ncs_Active st ∖ {[nc]})
  (ncs_PendingDisruption st ∖ {[nc]}) (ncs_Deleting st ∪ {[nc]})).
Proof. unfold disjoint_claims. simpl. set_solver. Qed.

Lemma mark_pending_disjoint st nc : disjoint_claims st → disjoint_claims (mkNodeClaimState (ncs_Active st ∖ {[nc]})
  (ncs_PendingDisruption st ∪ {[nc]}) (ncs_Deleting st ∖ {[nc]})).
Proof. unfold disjoint_claims. simpl. set_solver. Qed.

Lemma set_mapping_disjoint n np nc : claims_disjoint n → claims_disjoint (SetNodeClaimMapping n np nc).
Proof. intros Hn. unfold SetNodeClaimMapping. destruct (_ || _); [done|]. by apply ensure_disjoint. Qed.

Lemma cleanup_disjoint n nc : claims_disjoint n → claims_disjoint (NodePoolState_Cleanup n nc).
Proof.
  intros Hn. unfold NodePoolState_Cleanup. set (np := default EmptyString _).
  destruct (nodePoolNameToNodeClaimState n !! np) as [st|] eqn:E; [|done].
  destruct (_ && _); unfold claims_disjoint; cbn [nodePoolNameToNodeClaimState].
  - by apply map_Forall_delete.
  - apply map_Forall_insert_2; [|done]. specialize (Hn _ _ E). unfold disjoint_claims in *. simpl. set_solver.
Qed.

Lemma pool_step_disjoint n n' : pool_step n n' → claims_disjoint n → claims_disjoint n'.
Proof.
  intros [] Hn; try by (apply set_mapping_disjoint || apply cleanup_disjoint).
  - by apply mark_claim_disjoint; [intros; apply mark_active_disjoint|].
  - by apply mark_claim_disjoint; [intros; apply mark_deleting_disjoint|].
  - by apply mark_claim_disjoint; [intros; apply mark_pending_disjoint|].
  - unfold ReserveNodeCount. destruct (_ <? 0)%Z; by apply ensure_disjoint.
  - unfold ReleaseNodeCount. by destruct (_ !! np).
  - unfold NodePoolState_UpdateNodeClaim. case_bool_decide; [done|].
    destruct marked; (apply mark_claim_disjoint; [intros|by apply set_mapping_disjoint]);
      [by apply mark_deleting_disjoint|by apply mark_active_disjoint].
  - intros k st Hk. simpl in Hk. by rewrite lookup_empty in Hk.
Qed.

(** In every reachable state a NodeClaim of a NodePool is active, pending disruption
    or deleting, never two at once: so the counts add up. *)
Theorem claim_states_disjoint n : rtc pool_step NewNodePoolState n → claims_disjoint n.
Proof.
  intros H. refine (rtc_ind_r claims_disjoint _ _ _ _ H).
  - intros k st Hk. simpl in Hk. by rewrite lookup_empty in Hk.
  - intros x y _ Hs Hx. by eapply pool_step_disjoint.
Qed.

(** Ensuring an entry changes no count and no reservation. *)
Lemma ensure_same n np k : node_total (ensureNodePoolEntry n np) k = node_total n k ∧
  reserved (ensureNodePoolEntry n np) k = reserved n k.
Proof.
  unfold node_total, nodeCounts, reserved, ensureNodePoolEntry. simpl. split.
  - destruct (nodePoolNameToNodeClaimState n !! np) eqn:E; [done|]. destruct (decide (k = np)) as [->|Hne].
    + by rewrite lookup_insert_eq, E.
    + by rewrite lookup_insert_ne.
  - destruct (nodePoolNameToNodePoolLimit n !! np) eqn:E; [done|]. destruct (decide (k = np)) as [->|Hne].
    + by rewrite lookup_insert_eq, E.
    + by rewrite lookup_insert_ne.
Qed.

Lemma reserve_grants n np limit wanted n' granted :
  ReserveNodeCount n np limit wanted = (n', granted) →
  (0 ≤ wanted)%Z → (0 ≤ limit ≤ int64_max)%Z → (0 ≤ reserved n np)%Z → (node_total n np + reserved n np ≤ int64_max)%Z →
  (0 ≤ granted ≤ wanted)%Z ∧ reserved n' np = (reserved n np + granted)%Z ∧
  (0 < granted → node_total n' np + reserved n' np ≤ limit)%Z ∧
  (granted < wanted → limit ≤ node_total n' np + reserved n' np)%Z ∧
  node_total n' np = node_total n np ∧ ∀ k, k ≠ np → reserved n' k = reserved n k.
Proof.
  unfold ReserveNodeCount. pose proof (ensure_same n np) as Hs. revert Hs. generalize (ensureNodePoolEntry n np) as m.
  intros m Hs. destruct (Hs np) as [Ht Hr]. rewrite Ht, Hr. intros H Hw Hl Hres Hsum.
  assert (0 ≤ node_total n np)%Z by (unfold node_total, nodeCounts; destruct (_ !! np); lia).
  rewrite (wrap64_id (limit - _)) in H by (unfold in_int64, int64_min, int64_max in *; lia).
  rewrite (wrap64_id (limit - _ - _)) in H by (unfold in_int64, int64_min, int64_max in *; lia).
  destruct (Z.ltb_spec (limit - node_total n np - reserved n np) 0) as [Hneg|Hpos].
  { injection H as <- <-. rewrite Ht, Hr. split_and!; try lia. intros k Hk. apply Hs. }
  injection H as <- Hg. set (m' := mkNodePoolState _ _ _).
  assert (node_total m' np = node_total n np) as -> by exact Ht.
  assert (granted = wanted `min` (limit - node_total n np - reserved n np))%Z as Eg.
  { rewrite <-Hg. destruct (Z.gtb_spec wanted (limit - node_total n np - reserved n np)); lia. }
  assert (reserved m' np = (reserved n np + granted)%Z) as ->.
  { unfold m', reserved at 1. cbn [nodePoolNameToNodePoolLimit]. rewrite lookup_insert_eq, Hg. simpl.
    apply wrap64_id. unfold in_int64, int64_min, int64_max in *. lia. }
  split_and!; try lia. intros k Hk. unfold m', reserved at 1. cbn [nodePoolNameToNodePoolLimit].
  rewrite lookup_insert_ne by done. apply (Hs k).
Qed.

(** A reservation grants no more than is wanted, never takes the pool beyond its
    limit, and grants less than is wanted only when the limit is then used up; other
    pools keep what they have reserved. *)
Theorem ReserveNodeCount_spec n np limit wanted n' granted :
  ReserveNodeCount n np limit wanted = (n', granted) →
  (0 ≤ wanted)%Z → (0 ≤ limit ≤ int64_max)%Z → (0 ≤ reserved n np)%Z → (node_total n np + reserved n np ≤ int64_max)%Z →
  (0 ≤ granted ≤ wanted)%Z ∧ reserved n' np = (reserved n np + granted)%Z ∧
  (0 < granted → node_total n' np + reserved n' np ≤ limit)%Z ∧
  (granted < wanted → limit ≤ node_total n' np + reserved n' np)%Z ∧
  node_total n' np = node_total n np ∧ ∀ k, k ≠ np → reserved n' k = reserved n k.
Proof. apply reserve_grants. Qed.

(** A release never leaves a negative reservation, and undoes a reservation of the
    same size. *)
Theorem ReleaseNodeCount_spec n np count : (0 ≤ reserved n np ≤ int64_max)%Z → (0 ≤ count ≤ int64_max)%Z →
  reserved (ReleaseNodeCount n np count) np = (0 `max` (reserved n np - count))%Z.
Proof.
  unfold ReleaseNodeCount, reserved. intros Hr Hc. destruct (nodePoolNameToNodePoolLimit n !! np) as [r|] eqn:E; simpl in *.
  - rewrite lookup_insert_eq. simpl. rewrite wrap64_id by (unfold in_int64, int64_min, int64_max in *; lia).
    destruct (Z.ltb_spec (r - count) 0); lia.
  - rewrite E. simpl. lia.
Qed.

(** The entry of a pool goes with its last active or deleting claim even when claims
    are pending disruption: they are then no longer counted, and a reservation may
    take the pool beyond its limit. *)
Theorem Cleanup_forgets_pending : ∃ n,
  rtc pool_step NewNodePoolState n ∧ GetNodeCount n "pool" = (1, 0, 1)%Z ∧
  GetNodeCount (NodePoolState_Cleanup n "a") "pool" = (0, 0, 0)%Z ∧
  (ReserveNodeCount (NodePoolState_Cleanup n "a") "pool" 1 1).2 = 1%Z.
Proof.
  exists (MarkNodeClaimPendingDisruption (MarkNodeClaimActive (SetNodeClaimMapping (MarkNodeClaimActive
    (SetNodeClaimMapping NewNodePoolState "pool" "a") "pool" "a") "pool" "b") "pool" "b") "pool" "b").
  split; [|by vm_compute].
  eapply rtc_r; [|apply pool_pending]. eapply rtc_r; [|apply pool_active]. eapply rtc_r; [|apply pool_map].
  eapply rtc_r; [|apply pool_active]. eapply rtc_r; [|apply pool_map]. done.
Qed.
