(* ===== verification/StateNodes.v ===== *)
(** * StateNodes: the cached view of one node
    (pkg/controllers/state/statenode.go)

    A state node joins a Node and a NodeClaim, either of which may be missing, with
    the usage of the pods bound to it.  An operation that would dereference nil
    when both are missing returns [None]. *)

From S2P Require Import Prelude Float64 Labels Requirement Objects RepairPolicy Requirements Resources.
From S2P Require Import Taints HostPorts Volumes InstanceTypes PodState DisruptionCost TopologyGroup.
From S2P Require Import Topology NodeClaims ExistingNodes Evictions.

Definition RebootReasonSucceeded : string := "RebootSucceeded".

Record StateNode := mkStateNode {
  st_Node : option Node;
  st_NodeClaim : option v1NodeClaim;
  daemonSetRequests : gmap NamespacedName ResourceList;
  daemonSetLimits : gmap NamespacedName ResourceList;
  podRequests : gmap NamespacedName ResourceList;
  podLimits : gmap NamespacedName ResourceList;
  podDisruptionCosts : gmap NamespacedName float64;
  hostPortUsage : HostPortUsage;
  volumeUsage : VolumeUsage;
  markedForDeletion : bool;
  nominatedUntil : Z;
  repairPolicyMatches : list RepairPolicyMatch;
}.

Definition NewNode : StateNode :=
  mkStateNode None None ∅ ∅ ∅ ∅ ∅ NewHostPortUsage NewVolumeUsage false zero_time [].

(** A node and its state: at least one of the two objects is there. *)
Definition has_object (n : StateNode) : Prop := is_Some (st_Node n) ∨ is_Some (st_NodeClaim n).

(** ** Status *)

Definition Managed (n : StateNode) : bool := bool_decide (is_Some (st_NodeClaim n)).

Definition labelled_true (key : string) (n : StateNode) : bool :=
  if Managed n then
    match st_Node n with Some node => bool_decide (node_Labels node !! key = Some "true") | None => false end
  else true.

Definition Registered : StateNode → bool := labelled_true NodeRegisteredLabelKey.
Definition Initialized : StateNode → bool := labelled_true NodeInitializedLabelKey.

(** The value of the object that describes the node: of the NodeClaim until the
    node is registered. *)
Definition of_objects {A} (from_node : Node → A) (from_claim : v1NodeClaim → A) (n : StateNode) : option A :=
  match st_Node n, st_NodeClaim n with
  | None, None => None
  | None, Some c => Some (from_claim c)
  | Some node, None => Some (from_node node)
  | Some node, Some c => Some (if negb (Registered n) then from_claim c else from_node node)
  end.

Definition Name : StateNode → option string := of_objects node_Name claim_Name.
Definition Annotations : StateNode → option (gmap string string) := of_objects node_Annotations claim_Annotations.
Definition st_Labels : StateNode → option (gmap string string) := of_objects node_Labels claim_Labels.

Definition ProviderID (n : StateNode) : option string :=
  match st_Node n with
  | Some node => Some (node_ProviderID node)
  | None => claim_ProviderID <$> st_NodeClaim n
  end.

Definition HostName (n : StateNode) : option string :=
  labels ← st_Labels n;
  if bool_decide (default EmptyString (labels !! LabelHostname) = EmptyString) then Name n
  else labels !! LabelHostname.

Definition claim_condition_has (status type : string) (n : StateNode) : bool :=
  match st_NodeClaim n with Some c => condition_has status type (claim_Conditions c) | None => false end.

Definition RebootInProgress : StateNode → bool := claim_condition_has ConditionTrue ConditionTypeRebooting.

Definition RebootReinitializing (n : StateNode) : bool :=
  match st_NodeClaim n with
  | None => false
  | Some c =>
      if Initialized n then false
      else match get_condition ConditionTypeRebooting (claim_Conditions c) with
           | Some cond => bool_decide (cond_Status cond = ConditionFalse) &&
                          bool_decide (cond_Reason cond = RebootReasonSucceeded)
           | None => false
           end
  end.

Definition Deleted (n : StateNode) : bool :=
  match st_NodeClaim n with
  | Some c => bool_decide (is_Some (claim_DeletionTimestamp c)) ||
              condition_true ConditionTypeInstanceTerminating (claim_Conditions c)
  | None => match st_Node n with
            | Some node => bool_decide (is_Some (node_DeletionTimestamp node))
            | None => false
            end
  end.

Definition MarkedForDeletion (n : StateNode) : bool := markedForDeletion n || Deleted n.

Definition Active (nodes : list StateNode) : list StateNode := filter (λ n, MarkedForDeletion n = false) nodes.
Definition Deleting (nodes : list StateNode) : list StateNode := filter (λ n, MarkedForDeletion n = true) nodes.

(** Nomination windows: twice the batching time, at least ten seconds. *)
Definition nominationWindow (BatchMaxDuration : Z) : Z := (2 * BatchMaxDuration) `max` 10000000000.

Definition Nominate (BatchMaxDuration now : Z) (n : StateNode) : StateNode :=
  mkStateNode (st_Node n) (st_NodeClaim n) (daemonSetRequests n) (daemonSetLimits n) (podRequests n) (podLimits n)
    (podDisruptionCosts n) (hostPortUsage n) (volumeUsage n) (markedForDeletion n)
    (now + nominationWindow BatchMaxDuration) (repairPolicyMatches n).

Definition Nominated (now : Z) (n : StateNode) : bool := (now <? nominatedUntil n)%Z.

(** ** Taints and resources *)

Section taints.
  Context `{TA : TaintApi}.

Definition transient_taint (startupTaints : list Taint) (taint : Taint) : bool :=
  IsKnownEphemeralTaint (Some taint) || MatchTaint taint RebootingNoScheduleTaint ||
  existsb (λ t, MatchTaint t taint) startupTaints.

Definition st_Taints (n : StateNode) : option (list Taint) :=
  taints ← match st_Node n with
           | Some node => if negb (Registered n) && Managed n then claim_Taints <$> st_NodeClaim n
                          else Some (node_Taints node)
           | None => claim_Taints <$> st_NodeClaim n
           end;
  Some match st_NodeClaim n with
       | Some c => if negb (Initialized n) || RebootInProgress n
                   then filter (λ t, transient_taint (claim_StartupTaints c) t = false) taints
                   else taints
       | None => taints
       end.
End taints.

(** Zero quantities of the node are filled in from the NodeClaim. *)
Definition override_zeros (node claim : ResourceList) : ResourceList :=
  map_fold (λ name quantity acc,
    partial_alter (λ current, if IsZero (default 0%Z current) then Some quantity else current) name acc) node claim.

Definition reported (from_node : Node → ResourceList) (from_claim : v1NodeClaim → ResourceList) (n : StateNode)
    : option ResourceList :=
  match st_NodeClaim n, st_Node n with
  | Some c, Some node => Some (if negb (Initialized n) then override_zeros (from_node node) (from_claim c) else from_node node)
  | Some c, None => Some (from_claim c)
  | None, Some node => Some (from_node node)
  | None, None => None
  end.

(** A state node always counts as one node. *)
Definition st_Capacity (n : StateNode) : option ResourceList :=
  (λ l, <[ResourceNodes := unit_quantity]> l) <$> reported node_Capacity claim_Capacity n.

Definition Allocatable : StateNode → option ResourceList := reported node_Allocatable claim_Allocatable.

Definition PodRequests (n : StateNode) : ResourceList := map_fold (λ _ r acc, add_into acc r) ∅ (podRequests n).
Definition PodLimits (n : StateNode) : ResourceList := Merge ((map_to_list (podLimits n)).*2).
Definition DaemonSetRequests (n : StateNode) : ResourceList := Merge ((map_to_list (daemonSetRequests n)).*2).
Definition DaemonSetLimits (n : StateNode) : ResourceList := Merge ((map_to_list (daemonSetLimits n)).*2).

Definition Available (n : StateNode) : option ResourceList :=
  (λ allocatable, Subtract allocatable (PodRequests n)) <$> Allocatable n.

(** The sum over the pods in the order [order] in which the map is visited. *)
Definition DisruptionCost (order : list NamespacedName) (n : StateNode) : float64 :=
  foldl (λ cost k, fadd cost (default (Fin 0) (podDisruptionCosts n !! k))) PerNodeBaseDisruptionCost order.

(** ** Pods *)

Section pods.
  Context `{SE : SchedulerEnv}.
  (** The limits and requests of a pod, its volumes, the API they are resolved with,
      and the feature gate of the eviction cost. *)
  Context (RequestsOf LimitsOf : Pod → ResourceList) (spec_Volumes : Pod → list Volume) (vapi : VolumeApi)
          (PodDeletionCostManagement : bool).

Definition updateForPod (n : StateNode) (pod : Pod) : result api_error StateNode :=
  let podKey := pod_key pod in
  let hostPorts := GetHostPorts ParseIP pod in
  volumes ← GetVolumes vapi pod (spec_Volumes pod);
  let requests := RequestsForPods RequestsOf [pod] in
  let lim := LimitsForPods LimitsOf [pod] in
  let daemon := IsOwnedByDaemonSet pod in
  let evictionCost := EvictionCost PodDeletionCostManagement pod in
  Ok (mkStateNode (st_Node n) (st_NodeClaim n)
        (if daemon then <[podKey := requests]> (daemonSetRequests n) else daemonSetRequests n)
        (if daemon then <[podKey := lim]> (daemonSetLimits n) else daemonSetLimits n)
        (<[podKey := requests]> (podRequests n)) (<[podKey := lim]> (podLimits n))
        (if daemon then podDisruptionCosts n
         else if fltb (Fin 0) evictionCost then <[podKey := evictionCost]> (podDisruptionCosts n)
         else delete podKey (podDisruptionCosts n))
        (HostPortUsage_Add (hostPortUsage n) podKey hostPorts)
        (VolumeUsage_Add (volumeUsage n) podKey volumes)
        (markedForDeletion n) (nominatedUntil n) (repairPolicyMatches n)).

Definition cleanupForPod (n : StateNode) (podKey : NamespacedName) : StateNode :=
  mkStateNode (st_Node n) (st_NodeClaim n) (delete podKey (daemonSetRequests n)) (delete podKey (daemonSetLimits n))
    (delete podKey (podRequests n)) (delete podKey (podLimits n)) (delete podKey (podDisruptionCosts n))
    (HostPortUsage_DeletePod (hostPortUsage n) podKey) (VolumeUsage_DeletePod (volumeUsage n) podKey)
    (markedForDeletion n) (nominatedUntil n) (repairPolicyMatches n).
End pods.

(** ** Repair and disruption *)

(** The decision from the matches kept for the node; [None] is a panic. *)
Definition GetRepairResult (now : Z) (n : StateNode) : option RepairResult :=
  match st_Node n with
  | None => Some empty_result
  | Some _ =>
      let rebootFinishedAt :=
        match st_NodeClaim n with
        | Some c => match get_condition ConditionTypeRebooting (claim_Conditions c) with
                    | Some rebooting => if bool_decide (cond_Status rebooting = ConditionFalse)
                                        then cond_LastTransitionTime rebooting else zero_time
                    | None => zero_time
                    end
        | None => zero_time
        end in
      Resolve (repairPolicyMatches n) now rebootFinishedAt
  end.

Inductive disruptable_error :=
| NotManaged | NoNode | Rebooting | Deletingness | NotRegistered
| NodeUninitializedError | NominatedForPod | NodeDoNotDisruptError | NoNodePoolLabel.

(** [None] is no error; an error of the code is the reason it names. *)
Definition ValidateNodeDisruptable (now : Z) (n : StateNode) : option disruptable_error :=
  match st_NodeClaim n, st_Node n with
  | None, _ => Some NotManaged
  | Some _, None => Some NoNode
  | Some _, Some _ =>
      if RebootInProgress n then Some Rebooting
      else if MarkedForDeletion n then Some Deletingness
      else if negb (Initialized n) then
        if negb (Registered n) then Some NotRegistered else Some NodeUninitializedError
      else if Nominated now n then Some NominatedForPod
      else if bool_decide ((Annotations n ≫= lookup DoNotDisruptAnnotationKey) = Some "true") then Some NodeDoNotDisruptError
      else match st_Labels n ≫= lookup NodePoolLabelKey with
           | None => Some NoNodePoolLabel
           | Some _ => None
           end
  end.

Definition IgnoreNodeDoNotDisruptError (e : option disruptable_error) : option disruptable_error :=
  match e with Some NodeDoNotDisruptError => None | _ => e end.

Definition IgnoreNodeUninitializedError (e : option disruptable_error) : option disruptable_error :=
  match e with Some NodeUninitializedError => None | _ => e end.

Inductive pods_error :=
| PodsListFailed (e : api_error)
| PodDoNotDisrupt (pod : NamespacedName)
| MultiplePDBs (pdbs : list NamespacedName)
| PDBPreventsEviction (pdbs : list NamespacedName).

(** The errors that are [PodBlockEvictionError]s. *)
Definition IsPodBlockEvictionError (e : pods_error) : bool :=
  match e with PodsListFailed _ => false | _ => true end.

Definition IgnorePodBlockEvictionError (e : option pods_error) : option pods_error :=
  match e with Some e' => if IsPodBlockEvictionError e' then None else e | None => None end.

Section disruption.
  Context `{SA : SelectorApi} `{TA : TaintApi} (ParseDuration : string → option Z) (api : NodeApi).

(** [StateNode.Pods]. *)
Definition st_Pods (n : StateNode) : result api_error (list Pod) :=
  match st_Node n with
  | None => Ok []
  | Some node => GetPods api [node_Name node]
  end.

(** The pods are returned with the error of the first check that fails. *)
Definition ValidatePodsDisruptable (pdbs : list pdbItem) (now : Z) (n : StateNode) : list Pod * option pods_error :=
  match st_Pods n with
  | Err e => ([], Some (PodsListFailed e))
  | Ok pods =>
      match List.find (λ po, negb (IsDisruptable ParseDuration po now)) pods with
      | Some po => (pods, Some (PodDoNotDisrupt (pod_key po)))
      | None =>
          let '(pdbKeys, ok) := CanEvictPods ParseDuration pdbs pods now in
          if ok : bool then (pods, None)
          else if (1 <? length pdbKeys)%nat then (pods, Some (MultiplePDBs pdbKeys))
          else (pods, Some (PDBPreventsEviction pdbKeys))
      end
  end.

Definition CurrentlyReschedulablePods (now : Z) (n : StateNode) : result limits_error (list Pod) :=
  match st_Node n with
  | None => Ok []
  | Some node => GetCurrentlyReschedulablePods ParseDuration api now [node]
  end.

(** The same for a list of nodes: the first error ends the loop. *)
Fixpoint StateNodes_Pods (nodes : list StateNode) : result api_error (list Pod) :=
  match nodes with
  | [] => Ok []
  | node :: rest => p ← st_Pods node; pods ← StateNodes_Pods rest; Ok (p ++ pods)
  end.

Fixpoint StateNodes_CurrentlyReschedulablePods (now : Z) (nodes : list StateNode) : result limits_error (list Pod) :=
  match nodes with
  | [] => Ok []
  | node :: rest => p ← CurrentlyReschedulablePods now node;
                    pods ← StateNodes_CurrentlyReschedulablePods now rest; Ok (p ++ pods)
  end.

(** One attempt of [RequireNoScheduleTaint] on the Node read from the API server:
    the taints it leaves, and whether it sends a patch. *)
Definition require_taint (addTaint : bool) (node : Node) : list Taint * bool :=
  let hasTaint := existsb (λ t, MatchTaint t DisruptedNoScheduleTaint) (node_Taints node) in
  if hasTaint && bool_decide (is_Some (node_DeletionTimestamp node)) then (node_Taints node, false)
  else
    let without := filter (λ t, MatchTaint t DisruptedNoScheduleTaint = false) (node_Taints node) in
    let taints := if negb addTaint then without
                  else if negb hasTaint then without ++ [DisruptedNoScheduleTaint]
                  else node_Taints node in
    (taints, negb (bool_decide (taints = node_Taints node))).
End disruption.

(** ** What the scheduler reads *)

Section snapshot.
  Context `{TA : TaintApi}.

Definition snapshot (n : StateNode) : option StateNodeSnapshot :=
  name ← Name n; labels ← st_Labels n; host ← HostName n; available ← Available n; taints ← st_Taints n; capacity ← st_Capacity n;
  Some (mkStateNodeSnapshot name (Initialized n) labels host available (DaemonSetRequests n) (hostPortUsage n)
          (volumeUsage n) taints capacity (st_NodeClaim n)).
End snapshot.

(** ** Properties *)

#[local] Arguments fltb : simpl never.

Lemma of_objects_total {A} (f : Node → A) g n : has_object n → is_Some (of_objects f g n).
Proof. unfold has_object, of_objects. intros [[x ->]|[x ->]]; [|destruct (st_Node n)]; repeat case_match; eauto. Qed.

Lemma reported_total f g n : has_object n → is_Some (reported f g n).
Proof. unfold has_object, reported. intros [[x ->]|[x ->]]; [|destruct (st_Node n)]; repeat case_match; eauto. Qed.

Lemma HostName_total n : has_object n → is_Some (HostName n).
Proof.
  intros Hn. unfold HostName. destruct (of_objects_total node_Labels claim_Labels n Hn) as [l El].
  change (st_Labels n) with (of_objects node_Labels claim_Labels n). rewrite El. simpl.
  case_bool_decide as E; [by apply of_objects_total|]. by destruct (l !! LabelHostname).
Qed.

Lemma st_Taints_total `{TA : TaintApi} n : has_object n → is_Some (st_Taints n).
Proof.
  unfold has_object, st_Taints, Managed. destruct (st_Node n), (st_NodeClaim n); simpl; intros [[? ?]|[? ?]]; try done;
    rewrite ?andb_false_r; repeat first [case_match | progress simpl]; eauto.
Qed.

(** A state node with one of its objects is described without a nil dereference. *)
Theorem snapshot_total `{TA : TaintApi} n : has_object n → is_Some (snapshot n).
Proof.
  intros Hn. unfold snapshot, Available, st_Capacity.
  destruct (of_objects_total node_Name claim_Name n Hn) as [? E1], (of_objects_total node_Labels claim_Labels n Hn) as [? E2],
    (HostName_total n Hn) as [? E3], (reported_total node_Allocatable claim_Allocatable n Hn) as [? E4],
    (st_Taints_total n Hn) as [? E5], (reported_total node_Capacity claim_Capacity n Hn) as [? E6].
  unfold Name, st_Labels, Allocatable. rewrite E1, E2, E3, E4, E5, E6. simpl. eauto.
Qed.

(** What a state node tracks of pods: the same pods everywhere, the daemons and the
    costs among them, every cost positive, and their volumes counted. *)
Record usage_consistent (n : StateNode) : Prop := {
  uc_limits : dom (podLimits n) = dom (podRequests n);
  uc_ports : dom (hostPortUsage n) = dom (podRequests n);
  uc_volumes : dom (podVolumes (volumeUsage n)) = dom (podRequests n);
  uc_daemons : dom (daemonSetRequests n) ⊆ dom (podRequests n) ∧ dom (daemonSetLimits n) = dom (daemonSetRequests n);
  uc_costs : dom (podDisruptionCosts n) ⊆ dom (podRequests n);
  uc_positive : ∀ k c, podDisruptionCosts n !! k = Some c → fltb (Fin 0) c = true;
  uc_cover : volumes_cover (volumeUsage n);
}.

Lemma NewNode_consistent : usage_consistent NewNode.
Proof.
  split; simpl; try set_solver.
  intros d c (k & v & Hk & _). simpl in Hk. by rewrite lookup_empty in Hk.
Qed.

Section tracking.
  Context `{SE : SchedulerEnv}.
  Context (RequestsOf LimitsOf : Pod → ResourceList) (spec_Volumes : Pod → list Volume) (vapi : VolumeApi)
          (PodDeletionCostManagement : bool).
  #[local] Abbreviation update := (updateForPod RequestsOf LimitsOf spec_Volumes vapi PodDeletionCostManagement).

Lemma updateForPod_consistent n pod n' : update n pod = Ok n' → usage_consistent n → usage_consistent n'.
Proof.
  unfold updateForPod. intros H [Hl Hp Hv [Hd Hdl] Hc Hpos Hcov].
  destruct (GetVolumes vapi pod (spec_Volumes pod)) as [vols|]; [|done]. cbn [mbind result_bind] in H. injection H as <-.
  assert (∀ k : NamespacedName, dom (podRequests n) ⊆ {[k]} ∪ dom (podRequests n)) as Hu by (intros; apply union_subseteq_r).
  split; cbn [podLimits podRequests hostPortUsage volumeUsage daemonSetRequests daemonSetLimits podDisruptionCosts
              podVolumes VolumeUsage_Add].
  - by rewrite !dom_insert_L, Hl.
  - unfold HostPortUsage_Add. by rewrite !dom_insert_L, Hp.
  - by rewrite !dom_insert_L, Hv.
  - rewrite !dom_insert_L. destruct (IsOwnedByDaemonSet pod); [|split; [by etrans|done]].
    rewrite !dom_insert_L, Hdl. split; [by apply union_mono_l|done].
  - rewrite dom_insert_L. destruct (IsOwnedByDaemonSet pod); [by etrans|].
    destruct (fltb (Fin 0) (EvictionCost PodDeletionCostManagement pod)); [rewrite dom_insert_L; by apply union_mono_l|].
    rewrite dom_delete_L. etrans; [apply subseteq_difference_l, Hc|done].
  - intros k c. destruct (IsOwnedByDaemonSet pod); [apply Hpos|].
    destruct (fltb (Fin 0) (EvictionCost PodDeletionCostManagement pod)) eqn:E.
    + intros [[<- <-]|[_ Hk]]%lookup_insert_Some; [done|by eapply Hpos].
    + intros [_ Hk]%lookup_delete_Some. by eapply Hpos.
  - eapply volume_step_cover; [constructor|done].
Qed.

Lemma cleanupForPod_consistent n key : usage_consistent n → usage_consistent (cleanupForPod n key).
Proof.
  intros [Hl Hp Hv [Hd Hdl] Hc Hpos Hcov].
  split; cbn [podLimits podRequests hostPortUsage volumeUsage daemonSetRequests daemonSetLimits podDisruptionCosts
              podVolumes VolumeUsage_DeletePod cleanupForPod]; unfold HostPortUsage_DeletePod; rewrite ?dom_delete_L.
  - by rewrite Hl.
  - by rewrite Hp.
  - by rewrite Hv.
  - rewrite Hdl. split; [by apply difference_mono_r|done].
  - by apply difference_mono_r.
  - intros k c [_ Hk]%lookup_delete_Some. by eapply Hpos.
  - eapply volume_step_cover; [constructor|done].
Qed.

(** C28: removing a pod undoes adding it.  Of a pod that was not tracked before, no requests, limits,
    costs, host ports or volumes are left, and nothing of any other pod is lost; and the
    claims that count against the volume limits of each driver are again exactly
    those of the pods tracked before, under the same limits. *)
Theorem cleanup_undoes_update n pod n' : update n pod = Ok n' → usage_consistent n → pod_key pod ∉ dom (podRequests n) →
  let n'' := cleanupForPod n' (pod_key pod) in
  podRequests n'' = podRequests n ∧ podLimits n'' = podLimits n ∧ daemonSetRequests n'' = daemonSetRequests n ∧
  daemonSetLimits n'' = daemonSetLimits n ∧ podDisruptionCosts n'' = podDisruptionCosts n ∧
  hostPortUsage n'' = hostPortUsage n ∧ podVolumes (volumeUsage n'') = podVolumes (volumeUsage n) ∧
  limits (volumeUsage n'') = limits (volumeUsage n) ∧ publishedDrivers (volumeUsage n'') = publishedDrivers (volumeUsage n) ∧
  ∀ d c, c ∈ claims_of (vu_volumes (volumeUsage n'')) d ↔ pods_claim (podVolumes (volumeUsage n)) d c.
Proof.
  unfold updateForPod. intros H [Hl Hp Hv [Hd Hdl] Hc _ _] Hk.
  destruct (GetVolumes vapi pod (spec_Volumes pod)) as [vols|]; [|done]. cbn [mbind result_bind] in H. injection H as <-.
  cbn [cleanupForPod podRequests podLimits daemonSetRequests daemonSetLimits podDisruptionCosts hostPortUsage volumeUsage
       podVolumes vu_volumes limits publishedDrivers VolumeUsage_Add VolumeUsage_DeletePod].
  unfold HostPortUsage_Add, HostPortUsage_DeletePod. rewrite !delete_insert_id by (apply not_elem_of_dom; congruence).
  assert (pod_key pod ∉ dom (daemonSetRequests n)) by (intros ?%Hd; done).
  assert (pod_key pod ∉ dom (podDisruptionCosts n)) by (intros ?%Hc; done).
  assert (∀ d c, c ∈ claims_of (map_fold (λ _ c acc, Volumes_Insert acc c) ∅ (podVolumes (volumeUsage n))) d ↔
    pods_claim (podVolumes (volumeUsage n)) d c) as Hr by apply rebuild_claims.
  destruct (IsOwnedByDaemonSet pod); [|destruct (fltb (Fin 0) (EvictionCost PodDeletionCostManagement pod)) eqn:E];
    rewrite ?delete_insert_id, ?delete_delete_eq, ?delete_id by (apply not_elem_of_dom; congruence); done.
Qed.
End tracking.

(** The disruption cost of a node is at least 1, in whatever order it is summed. *)
Theorem DisruptionCost_at_least_one n order : usage_consistent n →
  (∀ k c, podDisruptionCosts n !! k = Some c → ∃ z, c = Fin z ∧ representable z ∧ (Z.abs z < foverflow)%Z) →
  at_least funit (DisruptionCost order n).
Proof.
  intros Hn Hfin. unfold DisruptionCost. pose proof at_least_one as Hc.
  revert Hc. generalize PerNodeBaseDisruptionCost. induction order as [|k order IH]; intros cost Hc; simpl; [done|].
  apply IH. apply fadd_at_least; [done|pose proof funit_pos; lia|].
  destruct (podDisruptionCosts n !! k) as [c|] eqn:E; simpl.
  - destruct (Hfin k c E) as (z & -> & Hr & Ho). pose proof (uc_positive n Hn k _ E) as Hp. unfold fltb in Hp. breflect.
    right. exists z. split_and!; [done|lia|done..].
  - right. exists 0%Z. split_and!; [done|lia|by exists 0%Z, 0%Z|]. by apply (pow2_lt_foverflow 0).
Qed.

(** A node may be disrupted exactly when it is a registered and initialized node of
    a NodePool, not rebooting, not going away, not nominated and not annotated. *)
Theorem ValidateNodeDisruptable_spec now n :
  ValidateNodeDisruptable now n = None ↔
  ∃ node c, st_Node n = Some node ∧ st_NodeClaim n = Some c ∧ RebootInProgress n = false ∧ MarkedForDeletion n = false ∧
    Initialized n = true ∧ Nominated now n = false ∧
    (Annotations n ≫= lookup DoNotDisruptAnnotationKey) ≠ Some "true" ∧
    is_Some (st_Labels n ≫= lookup NodePoolLabelKey).
Proof.
  unfold ValidateNodeDisruptable. destruct (st_NodeClaim n) as [c|], (st_Node n) as [node|]; try naive_solver.
  destruct (RebootInProgress n); [naive_solver|]. destruct (MarkedForDeletion n); [naive_solver|].
  destruct (Initialized n); simpl; [|destruct (Registered n); naive_solver].
  destruct (Nominated now n); [naive_solver|]. case_bool_decide; [naive_solver|].
  destruct (st_Labels n ≫= lookup NodePoolLabelKey); split; try done; [|by intros (? & ? & ? & ? & ? & ? & ? & ? & ? & [? ?])].
  intros _. exists node, c. split_and!; naive_solver.
Qed.

(** ** The disruption taint *)

Section taint.
  Context `{TA : TaintApi}.

Lemma existsb_match_filter (ts : list Taint) :
  existsb (λ t, MatchTaint t DisruptedNoScheduleTaint) (filter (λ t, MatchTaint t DisruptedNoScheduleTaint = false) ts) = false.
Proof.
  apply not_true_iff_false. intros (t & [Hf Hin]%list_elem_of_filter & Ht)%existsb_elem_of. congruence.
Qed.

Lemma filter_id_of_none (ts : list Taint) : existsb (λ t, MatchTaint t DisruptedNoScheduleTaint) ts = false →
  filter (λ t, MatchTaint t DisruptedNoScheduleTaint = false) ts = ts.
Proof.
  intros H. apply list_filter_all. intros t Ht. destruct (MatchTaint t DisruptedNoScheduleTaint) eqn:E; [|done].
  rewrite <-not_true_iff_false, existsb_elem_of in H. destruct H. eauto.
Qed.

Lemma MatchTaint_refl (t : Taint) : MatchTaint t t = true.
Proof. by apply MatchTaint_spec. Qed.

(** Requiring the disruption taint: it is then there (or gone, unless the node is
    being deleted with it), every other taint is kept in order, and a repeated
    request changes nothing. *)
Theorem require_taint_spec addTaint node :
  let taints := (require_taint addTaint node).1 in
  let node' := mkNode (node_Name node) (node_Labels node) (node_Annotations node) (node_CreationTimestamp node)
    (node_DeletionTimestamp node) taints (node_ProviderID node) (node_Capacity node) (node_Allocatable node) (node_Conditions node) in
  (addTaint = true → existsb (λ t, MatchTaint t DisruptedNoScheduleTaint) taints = true) ∧
  (addTaint = false → node_DeletionTimestamp node = None → existsb (λ t, MatchTaint t DisruptedNoScheduleTaint) taints = false) ∧
  filter (λ t, MatchTaint t DisruptedNoScheduleTaint = false) taints =
    filter (λ t, MatchTaint t DisruptedNoScheduleTaint = false) (node_Taints node) ∧
  require_taint addTaint node' = (taints, false).
Proof.
  simpl. unfold require_taint. simpl.
  destruct (existsb (λ t, MatchTaint t DisruptedNoScheduleTaint) (node_Taints node)) eqn:Eh; simpl.
  - case_bool_decide as Hd; simpl.
    + rewrite Eh. simpl. split_and!; try done. intros _ E. rewrite E in Hd. by destruct Hd.
    + destruct addTaint; simpl.
      * rewrite Eh. simpl. rewrite bool_decide_true by done. done.
      * rewrite existsb_match_filter. simpl. rewrite list_filter_filter_l by done.
        rewrite bool_decide_true by done. done.
  - destruct addTaint; simpl.
    + rewrite filter_id_of_none by done. rewrite existsb_app, Eh. simpl. rewrite MatchTaint_refl. simpl.
      rewrite filter_app, filter_id_of_none by done. rewrite filter_cons_False by (by rewrite MatchTaint_refl).
      rewrite app_nil_r. split_and!; try done. case_bool_decide; [done|]. rewrite bool_decide_true by done. done.
    + rewrite filter_id_of_none by done. rewrite Eh. simpl. rewrite filter_id_of_none by done.
      by rewrite bool_decide_true.
Qed.

(** A taint of the disruption key with another effect stays: the removal matches by
    key and effect. *)
Theorem other_effect_kept node : node_Taints node = [mkTaint DisruptedTaintKey EmptyString NoExecute] →
  (require_taint true node).1 = [mkTaint DisruptedTaintKey EmptyString NoExecute; DisruptedNoScheduleTaint].
Proof.
  intros E. unfold require_taint. rewrite E. simpl.
  assert (MatchTaint (mkTaint DisruptedTaintKey "" NoExecute) DisruptedNoScheduleTaint = false) as Hf.
  { apply not_true_iff_false. rewrite MatchTaint_spec. by intros [_ ?]. }
  rewrite Hf. simpl. by rewrite filter_cons_True.
Qed.
End taint.
