(* ===== verification/Cluster.v ===== *)
(** * Cluster: the in-memory view of the cluster
    (pkg/controllers/state/cluster.go)

    Informers feed NodeClaims, Nodes and pods into the maps of [Cluster].  Each
    exported method runs under the mutex, so a method is one function on the state.
    [None] is a nil dereference or the write to a nil map.  The clock is the argument
    [now]; reads of the API server are fields of [ClusterApi]. *)

From S2P Require Import Prelude Float64 Labels Requirement Objects RepairPolicy Requirements Resources.
From S2P Require Import Taints HostPorts Volumes PodState NodeClaims Evictions NodePoolState StateNodes.

Record Cluster := mkCluster {
  hasSynced : bool;
  nodes : gmap string StateNode;
  bindings : gmap NamespacedName string;
  nodeNameToProviderID : gmap string string;
  nodeClaimNameToProviderID : gmap string string;
  nodePoolResources : gmap string ResourceList;
  daemonSetPods : gmap NamespacedName Pod;
  nodePoolState : NodePoolState;
  podAcks : gmap NamespacedName Z;
  podsSchedulingAttempted : gmap NamespacedName Z;
  podsSchedulableTimes : gmap NamespacedName Z;
  podHealthyNodePoolScheduledTime : gmap NamespacedName Z;
  podToNodeClaim : gmap NamespacedName string;
  clusterState : Z;
  unsyncedStartTime : Z;
  lastUnsyncedLogTime : Z;
  antiAffinityPods : gmap NamespacedName Pod;
  bufferPodCounts : gmap string Z;
}.

(** Assignments to one field. *)
Definition set_hasSynced (c : Cluster) (v : bool) : Cluster :=
  mkCluster v (nodes c) (bindings c) (nodeNameToProviderID c) (nodeClaimNameToProviderID c) (nodePoolResources
    c) (daemonSetPods c) (nodePoolState c) (podAcks c) (podsSchedulingAttempted c) (podsSchedulableTimes c)
    (podHealthyNodePoolScheduledTime c) (podToNodeClaim c) (clusterState c) (unsyncedStartTime c)
    (lastUnsyncedLogTime c) (antiAffinityPods c) (bufferPodCounts c).

Definition set_nodes (c : Cluster) (v : gmap string StateNode) : Cluster :=
  mkCluster (hasSynced c) v (bindings c) (nodeNameToProviderID c) (nodeClaimNameToProviderID c)
    (nodePoolResources c) (daemonSetPods c) (nodePoolState c) (podAcks c) (podsSchedulingAttempted c)
    (podsSchedulableTimes c) (podHealthyNodePoolScheduledTime c) (podToNodeClaim c) (clusterState c)
    (unsyncedStartTime c) (lastUnsyncedLogTime c) (antiAffinityPods c) (bufferPodCounts c).

Definition set_bindings (c : Cluster) (v : gmap NamespacedName string) : Cluster :=
  mkCluster (hasSynced c) (nodes c) v (nodeNameToProviderID c) (nodeClaimNameToProviderID c) (nodePoolResources
    c) (daemonSetPods c) (nodePoolState c) (podAcks c) (podsSchedulingAttempted c) (podsSchedulableTimes c)
    (podHealthyNodePoolScheduledTime c) (podToNodeClaim c) (clusterState c) (unsyncedStartTime c)
    (lastUnsyncedLogTime c) (antiAffinityPods c) (bufferPodCounts c).

Definition set_nodeNameToProviderID (c : Cluster) (v : gmap string string) : Cluster :=
  mkCluster (hasSynced c) (nodes c) (bindings c) v (nodeClaimNameToProviderID c) (nodePoolResources c)
    (daemonSetPods c) (nodePoolState c) (podAcks c) (podsSchedulingAttempted c) (podsSchedulableTimes c)
    (podHealthyNodePoolScheduledTime c) (podToNodeClaim c) (clusterState c) (unsyncedStartTime c)
    (lastUnsyncedLogTime c) (antiAffinityPods c) (bufferPodCounts c).

Definition set_nodeClaimNameToProviderID (c : Cluster) (v : gmap string string) : Cluster :=
  mkCluster (hasSynced c) (nodes c) (bindings c) (nodeNameToProviderID c) v (nodePoolResources c) (daemonSetPods
    c) (nodePoolState c) (podAcks c) (podsSchedulingAttempted c) (podsSchedulableTimes c)
    (podHealthyNodePoolScheduledTime c) (podToNodeClaim c) (clusterState c) (unsyncedStartTime c)
    (lastUnsyncedLogTime c) (antiAffinityPods c) (bufferPodCounts c).

Definition set_nodePoolResources (c : Cluster) (v : gmap string ResourceList) : Cluster :=
  mkCluster (hasSynced c) (nodes c) (bindings c) (nodeNameToProviderID c) (nodeClaimNameToProviderID c) v
    (daemonSetPods c) (nodePoolState c) (podAcks c) (podsSchedulingAttempted c) (podsSchedulableTimes c)
    (podHealthyNodePoolScheduledTime c) (podToNodeClaim c) (clusterState c) (unsyncedStartTime c)
    (lastUnsyncedLogTime c) (antiAffinityPods c) (bufferPodCounts c).

Definition set_daemonSetPods (c : Cluster) (v : gmap NamespacedName Pod) : Cluster :=
  mkCluster (hasSynced c) (nodes c) (bindings c) (nodeNameToProviderID c) (nodeClaimNameToProviderID c)
    (nodePoolResources c) v (nodePoolState c) (podAcks c) (podsSchedulingAttempted c) (podsSchedulableTimes c)
    (podHealthyNodePoolScheduledTime c) (podToNodeClaim c) (clusterState c) (unsyncedStartTime c)
    (lastUnsyncedLogTime c) (antiAffinityPods c) (bufferPodCounts c).

Definition set_nodePoolState (c : Cluster) (v : NodePoolState) : Cluster :=
  mkCluster (hasSynced c) (nodes c) (bindings c) (nodeNameToProviderID c) (nodeClaimNameToProviderID c)
    (nodePoolResources c) (daemonSetPods c) v (podAcks c) (podsSchedulingAttempted c) (podsSchedulableTimes c)
    (podHealthyNodePoolScheduledTime c) (podToNodeClaim c) (clusterState c) (unsyncedStartTime c)
    (lastUnsyncedLogTime c) (antiAffinityPods c) (bufferPodCounts c).

Definition set_podAcks (c : Cluster) (v : gmap NamespacedName Z) : Cluster :=
  mkCluster (hasSynced c) (nodes c) (bindings c) (nodeNameToProviderID c) (nodeClaimNameToProviderID c)
    (nodePoolResources c) (daemonSetPods c) (nodePoolState c) v (podsSchedulingAttempted c) (podsSchedulableTimes
    c) (podHealthyNodePoolScheduledTime c) (podToNodeClaim c) (clusterState c) (unsyncedStartTime c)
    (lastUnsyncedLogTime c) (antiAffinityPods c) (bufferPodCounts c).

Definition set_podsSchedulingAttempted (c : Cluster) (v : gmap NamespacedName Z) : Cluster :=
  mkCluster (hasSynced c) (nodes c) (bindings c) (nodeNameToProviderID c) (nodeClaimNameToProviderID c)
    (nodePoolResources c) (daemonSetPods c) (nodePoolState c) (podAcks c) v (podsSchedulableTimes c)
    (podHealthyNodePoolScheduledTime c) (podToNodeClaim c) (clusterState c) (unsyncedStartTime c)
    (lastUnsyncedLogTime c) (antiAffinityPods c) (bufferPodCounts c).

Definition set_podsSchedulableTimes (c : Cluster) (v : gmap NamespacedName Z) : Cluster :=
  mkCluster (hasSynced c) (nodes c) (bindings c) (nodeNameToProviderID c) (nodeClaimNameToProviderID c)
    (nodePoolResources c) (daemonSetPods c) (nodePoolState c) (podAcks c) (podsSchedulingAttempted c) v
    (podHealthyNodePoolScheduledTime c) (podToNodeClaim c) (clusterState c) (unsyncedStartTime c)
    (lastUnsyncedLogTime c) (antiAffinityPods c) (bufferPodCounts c).

Definition set_podHealthyNodePoolScheduledTime (c : Cluster) (v : gmap NamespacedName Z) : Cluster :=
  mkCluster (hasSynced c) (nodes c) (bindings c) (nodeNameToProviderID c) (nodeClaimNameToProviderID c)
    (nodePoolResources c) (daemonSetPods c) (nodePoolState c) (podAcks c) (podsSchedulingAttempted c)
    (podsSchedulableTimes c) v (podToNodeClaim c) (clusterState c) (unsyncedStartTime c) (lastUnsyncedLogTime c)
    (antiAffinityPods c) (bufferPodCounts c).

Definition set_podToNodeClaim (c : Cluster) (v : gmap NamespacedName string) : Cluster :=
  mkCluster (hasSynced c) (nodes c) (bindings c) (nodeNameToProviderID c) (nodeClaimNameToProviderID c)
    (nodePoolResources c) (daemonSetPods c) (nodePoolState c) (podAcks c) (podsSchedulingAttempted c)
    (podsSchedulableTimes c) (podHealthyNodePoolScheduledTime c) v (clusterState c) (unsyncedStartTime c)
    (lastUnsyncedLogTime c) (antiAffinityPods c) (bufferPodCounts c).

Definition set_clusterState (c : Cluster) (v : Z) : Cluster :=
  mkCluster (hasSynced c) (nodes c) (bindings c) (nodeNameToProviderID c) (nodeClaimNameToProviderID c)
    (nodePoolResources c) (daemonSetPods c) (nodePoolState c) (podAcks c) (podsSchedulingAttempted c)
    (podsSchedulableTimes c) (podHealthyNodePoolScheduledTime c) (podToNodeClaim c) v (unsyncedStartTime c)
    (lastUnsyncedLogTime c) (antiAffinityPods c) (bufferPodCounts c).

Definition set_unsyncedStartTime (c : Cluster) (v : Z) : Cluster :=
  mkCluster (hasSynced c) (nodes c) (bindings c) (nodeNameToProviderID c) (nodeClaimNameToProviderID c)
    (nodePoolResources c) (daemonSetPods c) (nodePoolState c) (podAcks c) (podsSchedulingAttempted c)
    (podsSchedulableTimes c) (podHealthyNodePoolScheduledTime c) (podToNodeClaim c) (clusterState c) v
    (lastUnsyncedLogTime c) (antiAffinityPods c) (bufferPodCounts c).

Definition set_lastUnsyncedLogTime (c : Cluster) (v : Z) : Cluster :=
  mkCluster (hasSynced c) (nodes c) (bindings c) (nodeNameToProviderID c) (nodeClaimNameToProviderID c)
    (nodePoolResources c) (daemonSetPods c) (nodePoolState c) (podAcks c) (podsSchedulingAttempted c)
    (podsSchedulableTimes c) (podHealthyNodePoolScheduledTime c) (podToNodeClaim c) (clusterState c)
    (unsyncedStartTime c) v (antiAffinityPods c) (bufferPodCounts c).

Definition set_antiAffinityPods (c : Cluster) (v : gmap NamespacedName Pod) : Cluster :=
  mkCluster (hasSynced c) (nodes c) (bindings c) (nodeNameToProviderID c) (nodeClaimNameToProviderID c)
    (nodePoolResources c) (daemonSetPods c) (nodePoolState c) (podAcks c) (podsSchedulingAttempted c)
    (podsSchedulableTimes c) (podHealthyNodePoolScheduledTime c) (podToNodeClaim c) (clusterState c)
    (unsyncedStartTime c) (lastUnsyncedLogTime c) v (bufferPodCounts c).

Definition set_bufferPodCounts (c : Cluster) (v : gmap string Z) : Cluster :=
  mkCluster (hasSynced c) (nodes c) (bindings c) (nodeNameToProviderID c) (nodeClaimNameToProviderID c)
    (nodePoolResources c) (daemonSetPods c) (nodePoolState c) (podAcks c) (podsSchedulingAttempted c)
    (podsSchedulableTimes c) (podHealthyNodePoolScheduledTime c) (podToNodeClaim c) (clusterState c)
    (unsyncedStartTime c) (lastUnsyncedLogTime c) (antiAffinityPods c) v.


Definition NewCluster : Cluster :=
  mkCluster false ∅ ∅ ∅ ∅ ∅ ∅ NewNodePoolState ∅ ∅ ∅ ∅ ∅ zero_time zero_time zero_time ∅ ∅.

(** [Reset] keeps the times pods were scheduled to healthy NodePools. *)
Definition Cluster_Reset (c : Cluster) : Cluster :=
  mkCluster false ∅ ∅ ∅ ∅ ∅ ∅ (NodePoolState_Reset (nodePoolState c)) ∅ ∅ ∅ (podHealthyNodePoolScheduledTime c) ∅
    zero_time zero_time zero_time ∅ ∅.

(** The reads of the API server. *)
Record ClusterApi := mkClusterApi {
  ca_pods_on : string → result api_error (list Pod);
  (** the drivers of a CSINode with their allocatable counts *)
  ca_csinode : string → result api_error (list (string * option Z));
  ca_managed_claims : result api_error (list string);
  ca_nodes : result api_error (list string);
  (** whether a NodePool can be read and its nodes register *)
  ca_pool_healthy : string → bool;
  ca_pods_in_namespace : string → result api_error (list Pod);
}.

(** ** Consolidation state *)

Definition MarkUnconsolidated (now : Z) (c : Cluster) : Cluster := set_clusterState c now.

(** The recorded time, renewed after five minutes. *)
Definition ConsolidationState (now : Z) (c : Cluster) : Cluster * Z :=
  if (time_Sub now (clusterState c) <? 300000000000)%Z then (c, clusterState c)
  else (MarkUnconsolidated now c, now).

Definition object_presentb (n : StateNode) : bool :=
  bool_decide (is_Some (st_Node n)) || bool_decide (is_Some (st_NodeClaim n)).

Definition triggerConsolidationOnChange (now : Z) (old new : StateNode) (c : Cluster) : Cluster :=
  if negb (object_presentb old) || negb (object_presentb new) then MarkUnconsolidated now c
  else if negb (Bool.eqb (Initialized old) (Initialized new)) then MarkUnconsolidated now c
  else if negb (Bool.eqb (MarkedForDeletion old) (MarkedForDeletion new)) then MarkUnconsolidated now c
  else c.

(** ** Resources per NodePool *)

(** The NodePool of a state node and the resources it counts for. *)
Definition pool_resources (n : option StateNode) : option (string * ResourceList) :=
  match n with
  | Some n =>
      if object_presentb n then
        labels ← st_Labels n; capacity ← st_Capacity n;
        let resources := if MarkedForDeletion n then ∅ else capacity in
        Some (default EmptyString (labels !! NodePoolLabelKey),
              if decide (resources = ∅) then ∅ else <[ResourceNodes := unit_quantity]> resources)
      else Some (EmptyString, ∅)
  | None => Some (EmptyString, ∅)
  end.

(** The loop over [resources] writes into the entry of the pool. *)
Definition update_pool (f : ResourceList → ResourceList) (name : string) (resources : ResourceList)
    (pools : gmap string ResourceList) : option (gmap string ResourceList) :=
  if bool_decide (name = EmptyString) || bool_decide (resources = ∅) then Some pools
  else entry ← pools !! name; Some (<[name := f entry]> pools).

Definition collect_pool (pools : gmap string ResourceList) (name : string) : gmap string ResourceList :=
  if map_forallb (λ _ v, IsZero v) (default ∅ (pools !! name)) then delete name pools else pools.

Definition updateNodePoolResources (c : Cluster) (oldNode newNode : option StateNode) : option Cluster :=
  old ← pool_resources oldNode; new ← pool_resources newNode;
  let '(oldName, oldResources) := old in
  let '(newName, newResources) := new in
  let pools := nodePoolResources c in
  let pools := match pools !! newName with
               | None => if bool_decide (newName = EmptyString) then pools else <[newName := ∅]> pools
               | Some _ => pools
               end in
  pools ← update_pool (λ entry, default ∅ (SubtractFrom (Some entry) oldResources)) oldName oldResources pools;
  pools ← update_pool (λ entry, add_into entry newResources) newName newResources pools;
  Some (set_nodePoolResources c (collect_pool (collect_pool pools oldName) newName)).

Definition NodePoolResourcesFor (c : Cluster) (nodePoolName : string) : ResourceList :=
  default ∅ (nodePoolResources c !! nodePoolName).

(** ** NodeClaims *)

Definition with_objects (n : StateNode) (node : option Node) (claim : option v1NodeClaim) : StateNode :=
  mkStateNode node claim (daemonSetRequests n) (daemonSetLimits n) (podRequests n) (podLimits n) (podDisruptionCosts n)
    (hostPortUsage n) (volumeUsage n) (markedForDeletion n) (nominatedUntil n) (repairPolicyMatches n).

Definition with_mark (n : StateNode) (marked : bool) : StateNode :=
  mkStateNode (st_Node n) (st_NodeClaim n) (daemonSetRequests n) (daemonSetLimits n) (podRequests n) (podLimits n)
    (podDisruptionCosts n) (hostPortUsage n) (volumeUsage n) marked (nominatedUntil n) (repairPolicyMatches n).

Definition cleanupNodeClaim (now : Z) (c : Cluster) (name : string) : option Cluster :=
  let id := default EmptyString (nodeClaimNameToProviderID c !! name) in
  c ← (if bool_decide (id = EmptyString) then Some c
       else
         n ← nodes c !! id;
         c ← match st_Node n with
             | None => c ← updateNodePoolResources c (Some n) None; Some (set_nodes c (delete id (nodes c)))
             | Some _ =>
                 let n' := with_objects n (st_Node n) None in
                 c ← updateNodePoolResources c (Some n) (Some n'); Some (set_nodes c (<[id := n']> (nodes c)))
             end;
         Some (MarkUnconsolidated now c));
  let c := set_nodeClaimNameToProviderID c (delete name (nodeClaimNameToProviderID c)) in
  Some (set_nodePoolState c (NodePoolState_Cleanup (nodePoolState c) name)).

(** The costs of the pods are not among the fields taken over. *)
Definition newStateFromNodeClaim (now : Z) (c : Cluster) (nodeClaim : v1NodeClaim) (oldNode : option StateNode)
    : option (Cluster * StateNode) :=
  let oldNode := default NewNode oldNode in
  let n := mkStateNode (st_Node oldNode) (Some nodeClaim) (daemonSetRequests oldNode) (daemonSetLimits oldNode)
             (podRequests oldNode) (podLimits oldNode) ∅ (hostPortUsage oldNode) (volumeUsage oldNode)
             (markedForDeletion oldNode) (nominatedUntil oldNode) (repairPolicyMatches oldNode) in
  c ← match nodeClaimNameToProviderID c !! claim_Name nodeClaim with
      | Some id => if negb (bool_decide (id = claim_ProviderID nodeClaim))
                   then cleanupNodeClaim now c (claim_Name nodeClaim) else Some c
      | None => Some c
      end;
  c ← updateNodePoolResources c (Some oldNode) (Some n);
  Some (triggerConsolidationOnChange now oldNode n c, n).

Definition UpdateNodeClaim (now : Z) (c : Cluster) (nodeClaim : v1NodeClaim) : option Cluster :=
  let id := claim_ProviderID nodeClaim in
  c ← (if bool_decide (id = EmptyString) then Some c
       else r ← newStateFromNodeClaim now c nodeClaim (nodes c !! id);
            let '(c, n) := r in Some (set_nodes c (<[id := n]> (nodes c))));
  let markedForDel := match nodes c !! id with Some n => MarkedForDeletion n | None => false end in
  let c := set_nodePoolState c (NodePoolState_UpdateNodeClaim (nodePoolState c) nodeClaim markedForDel) in
  Some (set_nodeClaimNameToProviderID c (<[claim_Name nodeClaim := id]> (nodeClaimNameToProviderID c))).

Definition DeleteNodeClaim (now : Z) (c : Cluster) (name : string) : option Cluster := cleanupNodeClaim now c name.

Definition NodeClaimExists (c : Cluster) (nodeClaimName : string) : bool :=
  bool_decide (is_Some (nodeClaimNameToProviderID c !! nodeClaimName)).

Definition UnlaunchedNodeClaimExists (c : Cluster) (nodeClaimName : string) : bool :=
  bool_decide (nodeClaimNameToProviderID c !! nodeClaimName = Some EmptyString).

(** ** Deletion marks and nominations *)

Definition claim_pool (nodeClaim : v1NodeClaim) : string := default EmptyString (claim_Labels nodeClaim !! NodePoolLabelKey).

Definition unmark_one (c : Cluster) (id : string) : option Cluster :=
  match nodes c !! id with
  | None => Some c
  | Some n =>
      let n' := with_mark n false in
      c ← updateNodePoolResources c (Some n) (Some n');
      let c := set_nodes c (<[id := n']> (nodes c)) in
      Some match st_NodeClaim n' with
           | Some nc => if bool_decide (claim_DeletionTimestamp nc = None)
                        then set_nodePoolState c (MarkNodeClaimActive (nodePoolState c) (claim_pool nc) (claim_Name nc))
                        else c
           | None => c
           end
  end.

Definition UnmarkForDeletion (c : Cluster) (providerIDs : list string) : option Cluster := foldl_opt unmark_one c providerIDs.

Definition mark_one (c : Cluster) (id : string) : option Cluster :=
  match nodes c !! id with
  | None => Some c
  | Some n =>
      let n' := with_mark n true in
      c ← updateNodePoolResources c (Some n) (Some n');
      let c := set_nodes c (<[id := n']> (nodes c)) in
      Some match st_NodeClaim n' with
           | Some nc => set_nodePoolState c (MarkNodeClaimDeleting (nodePoolState c) (claim_pool nc) (claim_Name nc))
           | None => c
           end
  end.

Definition MarkForDeletion (c : Cluster) (providerIDs : list string) : option Cluster := foldl_opt mark_one c providerIDs.

Definition IsNodeNominated (now : Z) (c : Cluster) (providerID : string) : bool :=
  match nodes c !! providerID with Some n => Nominated now n | None => false end.

Definition NominateNodeForPod (BatchMaxDuration now : Z) (c : Cluster) (providerID : string) : Cluster :=
  match nodes c !! providerID with
  | Some n => set_nodes c (<[providerID := Nominate BatchMaxDuration now n]> (nodes c))
  | None => c
  end.

Definition UpdateBufferPodCounts (c : Cluster) (counts : gmap string Z) : Cluster := set_bufferPodCounts c counts.
Definition BufferPodCount (c : Cluster) (providerID : string) : Z := default 0%Z (bufferPodCounts c !! providerID).
Definition HasBufferPods (c : Cluster) (providerID : string) : bool := (BufferPodCount c providerID >? 0)%Z.

(** ** Nodes and pods *)

Inductive cluster_error :=
| ListingPods (e : api_error)
| TrackingVolumes (e : api_error)
| GettingCSINode (e : api_error)
| NodeNotFound (nodeName : string).

Section cluster.
  Context `{SE : SchedulerEnv}.
  Context (RequestsOf LimitsOf : Pod → ResourceList) (spec_Volumes : Pod → list Volume) (vapi : VolumeApi)
          (PodDeletionCostManagement : bool).
  Context (api : ClusterApi) (repairPolicyMatcher : option RepairPolicyMatcher).
  #[local] Abbreviation update_for_pod := (updateForPod RequestsOf LimitsOf spec_Volumes vapi PodDeletionCostManagement).

Definition cleanupNode (now : Z) (c : Cluster) (name : string) : option Cluster :=
  let id := default EmptyString (nodeNameToProviderID c !! name) in
  if bool_decide (id = EmptyString) then Some c
  else
    n ← nodes c !! id;
    c ← match st_NodeClaim n with
        | None => c ← updateNodePoolResources c (Some n) None; Some (set_nodes c (delete id (nodes c)))
        | Some _ =>
            let n' := with_objects n None (st_NodeClaim n) in
            c ← updateNodePoolResources c (Some n) (Some n'); Some (set_nodes c (<[id := n']> (nodes c)))
        end;
    let c := set_nodeNameToProviderID c (delete name (nodeNameToProviderID c)) in
    Some (MarkUnconsolidated now c).

(** [None] is a panic while matching. *)
Definition matchRepairPolicies (node : Node) (oldNode : StateNode) : option (list RepairPolicyMatch) :=
  match repairPolicyMatcher with
  | None => Some []
  | Some matcher =>
      match st_Node oldNode with
      | Some old => if MatchInputsEqual old node then Some (repairPolicyMatches oldNode) else Match matcher node
      | None => Match matcher node
      end
  end.

Definition limit_driver (u : VolumeUsage) (driver : string * option Z) : VolumeUsage :=
  match driver.2 with None => AddUnbounded u driver.1 | Some count => AddLimit u driver.1 count end.

Definition populate_limits (n : StateNode) (drivers : list (string * option Z)) : StateNode :=
  let usage := foldl limit_driver (volumeUsage n) drivers in
  mkStateNode (st_Node n) (st_NodeClaim n) (daemonSetRequests n) (daemonSetLimits n) (podRequests n) (podLimits n)
    (podDisruptionCosts n) (hostPortUsage n) usage (markedForDeletion n) (nominatedUntil n) (repairPolicyMatches n).

Definition populateVolumeLimits (n : StateNode) (nodeName : string) : StateNode * option cluster_error :=
  match ca_csinode api nodeName with
  | Err NotFound => (n, None)
  | Err e => (n, Some (GettingCSINode e))
  | Ok drivers => (populate_limits n drivers, None)
  end.

Definition cleanupOldBindings (now : Z) (c : Cluster) (pod : Pod) : Cluster :=
  match bindings c !! pod_key pod with
  | Some oldNodeName =>
      if bool_decide (oldNodeName = pod_NodeName pod) then c
      else
        let id := default EmptyString (nodeNameToProviderID c !! oldNodeName) in
        let c := match nodes c !! id with
                 | Some oldNode =>
                     let c := set_nodes c (<[id := cleanupForPod oldNode (pod_key pod)]> (nodes c)) in
                     set_bindings c (delete (pod_key pod) (bindings c))
                 | None => c
                 end in
        MarkUnconsolidated now c
  | None => MarkUnconsolidated now c
  end.

Definition bind_pod (now : Z) (c : Cluster) (pod : Pod) : Cluster :=
  let c := cleanupOldBindings now c pod in
  set_bindings c (<[pod_key pod := pod_NodeName pod]> (bindings c)).

Fixpoint populate_pods (now : Z) (c : Cluster) (n : StateNode) (pods : list Pod) : Cluster * StateNode * option cluster_error :=
  match pods with
  | [] => (c, n, None)
  | pod :: rest =>
      if IsTerminal pod then populate_pods now c n rest
      else match update_for_pod n pod with
           | Err e => (c, n, Some (TrackingVolumes e))
           | Ok n => populate_pods now (bind_pod now c pod) n rest
           end
  end.

Definition populateResourceRequests (now : Z) (c : Cluster) (n : StateNode) (nodeName : string)
    : Cluster * StateNode * option cluster_error :=
  match ca_pods_on api nodeName with
  | Err e => (c, n, Some (ListingPods e))
  | Ok pods => populate_pods now c n pods
  end.

(** Both populating calls run before their errors are combined; what the first has
    done to the bindings stays when they fail. *)
Definition newStateFromNode (now : Z) (c : Cluster) (node : Node) (oldNode : option StateNode)
    : option (Cluster * result (list cluster_error) StateNode) :=
  let oldNode := default NewNode oldNode in
  matches ← matchRepairPolicies node oldNode;
  let n := mkStateNode (Some node) (st_NodeClaim oldNode) ∅ ∅ ∅ ∅ ∅ NewHostPortUsage NewVolumeUsage
             (markedForDeletion oldNode) (nominatedUntil oldNode) matches in
  let '(c, n, e1) := populateResourceRequests now c n (node_Name node) in
  let '(n, e2) := populateVolumeLimits n (node_Name node) in
  match option_list e1 ++ option_list e2 with
  | _ :: _ as errs => Some (c, Err errs)
  | [] =>
      c ← match nodeNameToProviderID c !! node_Name node with
          | Some id => if negb (bool_decide (id = node_ProviderID node)) then cleanupNode now c (node_Name node) else Some c
          | None => Some c
          end;
      c ← updateNodePoolResources c (Some oldNode) (Some n);
      Some (triggerConsolidationOnChange now oldNode n c, Ok n)
  end.

Definition label_set (key : string) (node : Node) : bool :=
  negb (bool_decide (default EmptyString (node_Labels node !! key) = EmptyString)).

Definition with_provider_id (node : Node) (id : string) : Node :=
  mkNode (node_Name node) (node_Labels node) (node_Annotations node) (node_CreationTimestamp node)
    (node_DeletionTimestamp node) (node_Taints node) id (node_Capacity node) (node_Allocatable node) (node_Conditions node).

Definition UpdateNode (now : Z) (c : Cluster) (node : Node) : option (Cluster * list cluster_error) :=
  let managed := label_set NodePoolLabelKey node in
  let initialized := label_set NodeInitializedLabelKey node in
  if bool_decide (node_ProviderID node = EmptyString) && managed then Some (c, [])
  else
    let node := if bool_decide (node_ProviderID node = EmptyString) then with_provider_id node (node_Name node) else node in
    if managed && negb (label_set LabelInstanceTypeStable node) && negb initialized then Some (c, [])
    else
      r ← newStateFromNode now c node (nodes c !! node_ProviderID node);
      match r with
      | (c, Err errs) => Some (c, errs)
      | (c, Ok n) =>
          let c := set_nodes c (<[node_ProviderID node := n]> (nodes c)) in
          Some (set_nodeNameToProviderID c (<[node_Name node := node_ProviderID node]> (nodeNameToProviderID c)), [])
      end.

Definition DeleteNode (now : Z) (c : Cluster) (name : string) : option Cluster := cleanupNode now c name.

Definition updateNodeUsageFromPod (now : Z) (c : Cluster) (pod : Pod) : Cluster * option cluster_error :=
  if bool_decide (pod_NodeName pod = EmptyString) then (c, None)
  else
    let id := default EmptyString (nodeNameToProviderID c !! pod_NodeName pod) in
    match nodes c !! id with
    | None => (c, Some (NodeNotFound (pod_NodeName pod)))
    | Some n => match update_for_pod n pod with
                | Err e => (c, Some (TrackingVolumes e))
                | Ok n => (bind_pod now (set_nodes c (<[id := n]> (nodes c))) pod, None)
                end
    end.

Definition updateNodeUsageFromPodCompletion (c : Cluster) (podKey : NamespacedName) : Cluster :=
  match bindings c !! podKey with
  | None => c
  | Some nodeName =>
      let c := set_bindings c (delete podKey (bindings c)) in
      let id := default EmptyString (nodeNameToProviderID c !! nodeName) in
      match nodes c !! id with
      | None => c
      | Some n => set_nodes c (<[id := cleanupForPod n podKey]> (nodes c))
      end
  end.

Definition updatePodAntiAffinities (c : Cluster) (pod : Pod) : Cluster :=
  set_antiAffinityPods c (if HasRequiredPodAntiAffinity pod then <[pod_key pod := pod]> (antiAffinityPods c)
                          else delete (pod_key pod) (antiAffinityPods c)).

Definition UpdatePod (now : Z) (c : Cluster) (pod : Pod) : Cluster * option cluster_error :=
  let '(c, err) := if IsTerminal pod then (updateNodeUsageFromPodCompletion c (pod_key pod), None)
                   else updateNodeUsageFromPod now c pod in
  (updatePodAntiAffinities c pod, err).

Definition ClearPodSchedulingMappings (c : Cluster) (podKey : NamespacedName) : Cluster :=
  let c := set_podAcks c (delete podKey (podAcks c)) in
  let c := set_podsSchedulableTimes c (delete podKey (podsSchedulableTimes c)) in
  let c := set_podsSchedulingAttempted c (delete podKey (podsSchedulingAttempted c)) in
  let c := set_podHealthyNodePoolScheduledTime c (delete podKey (podHealthyNodePoolScheduledTime c)) in
  set_podToNodeClaim c (delete podKey (podToNodeClaim c)).

Definition DeletePod (now : Z) (c : Cluster) (podKey : NamespacedName) : Cluster :=
  let c := set_antiAffinityPods c (delete podKey (antiAffinityPods c)) in
  MarkUnconsolidated now (ClearPodSchedulingMappings (updateNodeUsageFromPodCompletion c podKey) podKey).

(** The pods with required anti-affinity on a node that is known. *)
Definition ForPodsWithAntiAffinity (c : Cluster) : list (Pod * Node) :=
  omap (λ kp : NamespacedName * Pod,
    nodeName ← bindings c !! pod_key kp.2;
    n ← nodes c !! default EmptyString (nodeNameToProviderID c !! nodeName);
    node ← st_Node n; Some (kp.2, node)) (map_to_list (antiAffinityPods c)).

(** ** Scheduling decisions *)

Definition load_or_store {V} (m : gmap NamespacedName V) (k : NamespacedName) (v : V) : gmap NamespacedName V :=
  match m !! k with Some _ => m | None => <[k := v]> m end.

Definition AckPods (now : Z) (c : Cluster) (pods : list Pod) : Cluster :=
  set_podAcks c (foldl (λ m p, load_or_store m (pod_key p) now) (podAcks c) pods).

Definition time_of (m : gmap NamespacedName Z) (k : NamespacedName) : Z := default zero_time (m !! k).

Definition PodAckTime (c : Cluster) (podKey : NamespacedName) : Z := time_of (podAcks c) podKey.
Definition PodSchedulingDecisionTime (c : Cluster) (podKey : NamespacedName) : Z := time_of (podsSchedulingAttempted c) podKey.
Definition PodSchedulingSuccessTime (c : Cluster) (podKey : NamespacedName) : Z := time_of (podsSchedulableTimes c) podKey.
Definition PodSchedulingSuccessTimeRegistrationHealthyCheck (c : Cluster) (podKey : NamespacedName) : Z :=
  time_of (podHealthyNodePoolScheduledTime c) podKey.

Definition PodNodeClaimMapping (c : Cluster) (podKey : NamespacedName) : string := default EmptyString (podToNodeClaim c !! podKey).

Definition PodsMappedToNodeClaim (c : Cluster) (nodeClaimName : string) : list NamespacedName :=
  (filter (λ kv, kv.2 = nodeClaimName) (map_to_list (podToNodeClaim c))).*1.

Definition UpdatePodToNodeClaimMapping (c : Cluster) (ncPods : list (string * list Pod)) : Cluster :=
  set_podToNodeClaim c (foldl (λ m (e : string * list Pod), foldl (λ m p, <[pod_key p := e.1]> m) m e.2) (podToNodeClaim c) ncPods).

Definition mark_failed (now : Z) (c : Cluster) (nn : NamespacedName) : Cluster :=
  let c := set_podsSchedulableTimes c (delete nn (podsSchedulableTimes c)) in
  let c := set_podsSchedulingAttempted c (load_or_store (podsSchedulingAttempted c) nn now) in
  let c := set_podHealthyNodePoolScheduledTime c (delete nn (podHealthyNodePoolScheduledTime c)) in
  set_podToNodeClaim c (delete nn (podToNodeClaim c)).

Definition mark_scheduled (now : Z) (nodePoolName : string) (c : Cluster) (p : Pod) : Cluster :=
  let nn := pod_key p in
  if IsScheduled p then c
  else
    let c := set_podsSchedulableTimes c (load_or_store (podsSchedulableTimes c) nn now) in
    let c := set_podsSchedulingAttempted c (load_or_store (podsSchedulingAttempted c) nn now) in
    set_podHealthyNodePoolScheduledTime c
      (if negb (bool_decide (nodePoolName = EmptyString)) && ca_pool_healthy api nodePoolName
       then load_or_store (podHealthyNodePoolScheduledTime c) nn now
       else delete nn (podHealthyNodePoolScheduledTime c)).

(** Go visits the three maps in some order: here that of the lists. *)
Definition MarkPodSchedulingDecisions (now : Z) (c : Cluster) (podErrors : list Pod) (npPods ncPods : list (string * list Pod)) : Cluster :=
  let c := foldl (λ c p, mark_failed now c (pod_key p)) c podErrors in
  let c := foldl (λ c (e : string * list Pod), foldl (mark_scheduled now e.1) c e.2) c npPods in
  UpdatePodToNodeClaimMapping c ncPods.

(** ** Daemon sets *)

(** The youngest pod of the daemon set is kept as its template. *)
Definition UpdateDaemonSet (c : Cluster) (daemonset : NamespacedName) (IsControlledBy : Pod → bool)
    : result api_error Cluster :=
  pods ← ca_pods_in_namespace api daemonset.1;
  let youngest := foldl (λ pod p,
    if IsControlledBy p && match pod with None => true | Some q => (pod_CreationTimestamp q <? pod_CreationTimestamp p)%Z end
    then Some p else pod) None pods in
  Ok match youngest with Some pod => set_daemonSetPods c (<[daemonset := pod]> (daemonSetPods c)) | None => c end.

Definition GetDaemonSetPod (c : Cluster) (daemonset : NamespacedName) : option Pod := daemonSetPods c !! daemonset.
Definition DeleteDaemonSet (c : Cluster) (key : NamespacedName) : Cluster := set_daemonSetPods c (delete key (daemonSetPods c)).

(** ** Synchronization *)

Definition unlaunched (c : Cluster) : bool := map_existsb (λ _ id, bool_decide (id = EmptyString)) (nodeClaimNameToProviderID c).

Definition compute_synced (c : Cluster) : bool * bool :=
  if hasSynced c then (negb (unlaunched c), true)
  else
    match ca_managed_claims api, ca_nodes api with
    | Ok nodeClaims, Ok nodeList =>
        if unlaunched c then (false, false)
        else
          let synced := bool_decide ((list_to_set nodeClaims : gset string) ⊆ dom (nodeClaimNameToProviderID c)) &&
                        bool_decide ((list_to_set nodeList : gset string) ⊆ dom (nodeNameToProviderID c)) in
          (synced, synced)
    | _, _ => (false, false)
    end.

(** The result, and the times since when and until when the cluster is not synced. *)
Definition Synced (now : Z) (c : Cluster) : Cluster * bool :=
  let '(synced, stored) := compute_synced c in
  let c := set_hasSynced c stored in
  if synced then (set_lastUnsyncedLogTime (set_unsyncedStartTime c zero_time) zero_time, true)
  else
    let c := if bool_decide (unsyncedStartTime c = zero_time) then set_unsyncedStartTime c now else c in
    (if (time_Sub now (unsyncedStartTime c) >? 30000000000)%Z && (time_Sub now (lastUnsyncedLogTime c) >? 10000000000)%Z
     then set_lastUnsyncedLogTime c now else c, false).

Definition HasSynced (c : Cluster) : bool := hasSynced c.
Definition SetSynced (c : Cluster) (state : bool) : Cluster := set_hasSynced c state.
End cluster.
