(* ===== verification/ClusterInv.v ===== *)
(** * ClusterInv: the view of the cluster stays consistent
    (invariants of pkg/controllers/state/cluster.go)

    The maps of [Cluster] refer to each other: names to provider ids, ids to state
    nodes, pods to node names, NodePools to the resources of their nodes.  Each
    operation keeps them consistent and never dereferences nil, as long as a
    provider id belongs to one NodeClaim and one Node. *)

From S2P Require Import Prelude Float64 Labels Requirement Objects RepairPolicy Requirements Resources.
From S2P Require Import Taints HostPorts Volumes PodState NodeClaims Evictions NodePoolState StateNodes Cluster.

(** ** What a node counts for *)

Definition contribution (pool r : string) (n : StateNode) : Z :=
  match pool_resources (Some n) with
  | Some (name, resources) => if bool_decide (name = pool) then qty resources r else 0%Z
  | None => 0%Z
  end.

(** The same for a pointer that may be nil. *)
Definition contribution_of (pool r : string) (o : option StateNode) : Z := from_option (contribution pool r) 0%Z o.

Lemma object_presentb_spec n : object_presentb n = true ↔ has_object n.
Proof. unfold object_presentb, has_object. by rewrite orb_true_iff, !bool_decide_eq_true. Qed.

Lemma pool_resources_total o : ∃ name resources, pool_resources o = Some (name, resources) ∧
  (resources = ∅ ∨ qty resources ResourceNodes = unit_quantity).
Proof.
  destruct o as [n|]; simpl; [|by eexists _, _; split; [|left]].
  destruct (object_presentb n) eqn:E; [|by eexists _, _; split; [|left]].
  apply object_presentb_spec in E. unfold st_Capacity.
  destruct (of_objects_total node_Labels claim_Labels n E) as [l El], (reported_total node_Capacity claim_Capacity n E) as [cap Ec].
  unfold st_Labels. rewrite El, Ec. simpl. eexists _, _. split; [done|]. case_decide; [by left|right].
  unfold qty. by rewrite lookup_insert_eq.
Qed.

Lemma contribution_nodes_nonneg pool n : (0 ≤ contribution pool ResourceNodes n)%Z.
Proof.
  unfold contribution. destruct (pool_resources_total (Some n)) as (name & res & -> & [->|H]); case_bool_decide; try done.
  by rewrite H.
Qed.

(** Usage does not matter. *)
Lemma contribution_same pool r n n' :
  st_Node n = st_Node n' → st_NodeClaim n = st_NodeClaim n' → markedForDeletion n = markedForDeletion n' →
  contribution pool r n = contribution pool r n'.
Proof.
  intros E1 E2 E3. unfold contribution, pool_resources, object_presentb, st_Labels, st_Capacity, of_objects, reported,
    MarkedForDeletion, Deleted, Registered, Initialized, labelled_true, Managed. by rewrite E1, E2, E3.
Qed.

Lemma contribution_NewNode pool r : contribution pool r NewNode = 0%Z.
Proof. unfold contribution. simpl. by case_bool_decide. Qed.

(** ** Updating the resources of the pools *)

Definition pool_qty (pools : gmap string ResourceList) (pool r : string) : Z := qty (default ∅ (pools !! pool)) r.

Lemma collect_pool_qty pools name pool r : pool_qty (collect_pool pools name) pool r = pool_qty pools pool r.
Proof.
  unfold collect_pool, pool_qty. destruct (map_forallb _ _) eqn:E; [|done].
  destruct (decide (pool = name)) as [->|Hne]; [|by rewrite lookup_delete_ne].
  rewrite lookup_delete_eq. simpl. unfold qty at 1. rewrite lookup_empty. simpl. symmetry. unfold qty.
  rewrite map_forallb_spec in E. destruct (default ∅ (pools !! name) !! r) as [q|] eqn:Eq; [|done].
  specialize (E _ _ Eq). unfold IsZero in E. simpl. by apply Z.eqb_eq.
Qed.

Lemma update_pool_spec f sgn name res pools :
  (∀ entry r, qty (f entry) r = (qty entry r + sgn * qty res r)%Z) →
  (name ≠ EmptyString → res ≠ ∅ → is_Some (pools !! name)) →
  ∃ pools', update_pool f name res pools = Some pools' ∧
    (∀ k, is_Some (pools !! k) → is_Some (pools' !! k)) ∧
    ∀ pool r, pool ≠ EmptyString →
      pool_qty pools' pool r = (pool_qty pools pool r + sgn * if bool_decide (name = pool) then qty res r else 0)%Z.
Proof.
  intros Hf Hp. unfold update_pool. case_bool_decide as E1; simpl.
  { exists pools. split_and!; [done..|]. intros pool r Hne. rewrite bool_decide_false by congruence. lia. }
  case_bool_decide as E2; simpl.
  { exists pools. split_and!; [done..|]. intros pool r Hne. subst res. change (qty ∅ r) with 0%Z. case_bool_decide; lia. }
  destruct (pools !! name) as [entry|] eqn:Ee; [|by destruct (Hp E1 E2)]. simpl. eexists. split_and!; [done|..].
  - intros k Hk. destruct (decide (name = k)) as [->|]; [rewrite lookup_insert_eq; eauto|by rewrite lookup_insert_ne].
  - intros pool r _. unfold pool_qty. destruct (decide (name = pool)) as [<-|Hne].
    + rewrite lookup_insert_eq, bool_decide_true, Ee by done. apply Hf.
    + rewrite lookup_insert_ne, bool_decide_false by done. lia.
Qed.

(** Updating takes off what the old node counted and adds what the new one counts,
    and is a nil-map write only if the old node counted for an unknown pool. *)
Lemma updateNodePoolResources_spec c old new :
  (∀ name res, pool_resources old = Some (name, res) → name ≠ EmptyString → res ≠ ∅ → is_Some (nodePoolResources c !! name)) →
  ∃ pools, updateNodePoolResources c old new = Some (set_nodePoolResources c pools) ∧
    ∀ pool r, pool ≠ EmptyString →
      pool_qty pools pool r = (pool_qty (nodePoolResources c) pool r - contribution_of pool r old + contribution_of pool r new)%Z.
Proof.
  intros Hp. unfold updateNodePoolResources.
  destruct (pool_resources_total old) as (on & or & Eo & _), (pool_resources_total new) as (nn & nr & En & _).
  rewrite Eo, En. cbn [mbind option_bind]. set (pools0 := match nodePoolResources c !! nn with Some _ => _ | None => _ end).
  assert (∀ pool r, pool_qty pools0 pool r = pool_qty (nodePoolResources c) pool r) as H0.
  { intros pool r. subst pools0. destruct (nodePoolResources c !! nn) eqn:E; [done|]. case_bool_decide; [done|]. unfold pool_qty.
    destruct (decide (nn = pool)) as [<-|]; [by rewrite lookup_insert_eq, E|by rewrite lookup_insert_ne]. }
  assert (∀ k, is_Some (nodePoolResources c !! k) → is_Some (pools0 !! k)) as Hs0.
  { intros k Hk. subst pools0. destruct (nodePoolResources c !! nn); [done|]. case_bool_decide; [done|].
    destruct (decide (nn = k)) as [<-|]; [rewrite lookup_insert_eq; eauto|by rewrite lookup_insert_ne]. }
  assert (nn ≠ EmptyString → is_Some (pools0 !! nn)) as Hn0.
  { intros Hne. subst pools0. destruct (nodePoolResources c !! nn) eqn:E; [eauto|]. rewrite bool_decide_false by done.
    rewrite lookup_insert_eq. eauto. }
  destruct (update_pool_spec (λ entry, default ∅ (SubtractFrom (Some entry) or)) (-1) on or pools0) as (p1 & -> & Hs1 & Hq1).
  { intros entry r. destruct (SubtractFrom (Some entry) or) as [g|] eqn:E; [|done].
    change (default ∅ (Some g)) with g. rewrite (SubtractFrom_qty _ _ r _ E). lia. }
  { intros Hne Hre. apply Hs0. by eapply Hp. }
  cbn [mbind option_bind]. destruct (update_pool_spec (λ entry, add_into entry nr) 1 nn nr p1) as (p2 & -> & Hs2 & Hq2).
  { intros entry r. rewrite add_into_qty. lia. }
  { intros Hne _. by apply Hs1, Hn0. }
  simpl. eexists. split; [done|]. intros pool r Hne. rewrite !collect_pool_qty, Hq2, Hq1, H0 by done.
  assert (∀ o name res, pool_resources o = Some (name, res) →
    contribution_of pool r o = if bool_decide (name = pool) then qty res r else 0%Z) as Hc.
  { intros [n|] name res E; simpl.
    - unfold contribution. by rewrite E.
    - simpl in E. injection E as <- <-. by case_bool_decide. }
  rewrite (Hc _ _ _ Eo), (Hc _ _ _ En). lia.
Qed.

(** ** The invariant *)

Record maps_wf (ns : gmap string StateNode) (bs : gmap NamespacedName string) (names claims : gmap string string)
    (pools : gmap string ResourceList) : Prop := {
  wf_objects : ∀ id n, ns !! id = Some n → has_object n ∧ id ≠ EmptyString ∧ usage_consistent n;
  wf_claim_names : ∀ name id, claims !! name = Some id → id ≠ EmptyString →
    ∃ n nc, ns !! id = Some n ∧ st_NodeClaim n = Some nc ∧ claim_Name nc = name;
  wf_claims : ∀ id n nc, ns !! id = Some n → st_NodeClaim n = Some nc → claims !! claim_Name nc = Some id;
  wf_node_names : ∀ name id, names !! name = Some id →
    ∃ n node, ns !! id = Some n ∧ st_Node n = Some node ∧ node_Name node = name;
  wf_nodes : ∀ id n node, ns !! id = Some n → st_Node n = Some node → names !! node_Name node = Some id;
  wf_pools : ∀ pool r, pool ≠ EmptyString → pool_qty pools pool r = map_sum (contribution pool r) ns;
  wf_bound : ∀ id n node k, ns !! id = Some n → st_Node n = Some node → k ∈ dom (podRequests n) →
    bs !! k = Some (node_Name node);
}.

Definition cluster_wf (c : Cluster) : Prop :=
  maps_wf (nodes c) (bindings c) (nodeNameToProviderID c) (nodeClaimNameToProviderID c) (nodePoolResources c).

(** A node that counts has its pool among the pools. *)
Lemma counted_pool_present ns bs names claims pools id n name res :
  maps_wf ns bs names claims pools → ns !! id = Some n → pool_resources (Some n) = Some (name, res) →
  name ≠ EmptyString → res ≠ ∅ → is_Some (pools !! name).
Proof.
  intros Hwf Hn Hp Hne Hres. pose proof (wf_pools _ _ _ _ _ Hwf name ResourceNodes Hne) as Hq.
  assert (contribution name ResourceNodes n ≤ map_sum (contribution name ResourceNodes) ns)%Z as Hge.
  { eapply map_sum_ge; [|done]. intros. apply contribution_nodes_nonneg. }
  destruct (pool_resources_total (Some n)) as (name' & res' & Hp' & Hor). rewrite Hp in Hp'. injection Hp' as <- <-.
  destruct Hor as [?|Hu]; [done|].
  assert (contribution name ResourceNodes n = unit_quantity) as Ec.
  { unfold contribution. by rewrite Hp, bool_decide_true. }
  destruct (pools !! name) eqn:E; [eauto|]. unfold pool_qty in Hq. rewrite E in Hq. change (qty (default ∅ None) ResourceNodes) with 0%Z in Hq.
  unfold unit_quantity in *. lia.
Qed.

(** The resources after a node is replaced (or removed). *)
Lemma replace_node_pools c id old new : cluster_wf c → nodes c !! id = Some old →
  ∃ pools, updateNodePoolResources c (Some old) new = Some (set_nodePoolResources c pools) ∧
    ∀ pool r, pool ≠ EmptyString →
      pool_qty pools pool r = map_sum (contribution pool r) (partial_alter (λ _, new) id (nodes c)).
Proof.
  intros Hwf Hn. destruct (updateNodePoolResources_spec c (Some old) new) as (pools & -> & Hq).
  { intros name res E Hne Hres. by eapply counted_pool_present. }
  exists pools. split; [done|]. intros pool r Hne. rewrite Hq, (wf_pools _ _ _ _ _ Hwf) by done.
  destruct new as [n|]; simpl.
  - change (partial_alter _ id (nodes c)) with (<[id := n]> (nodes c)). by rewrite map_sum_insert, Hn.
  - change (partial_alter _ id (nodes c)) with (delete id (nodes c)). rewrite map_sum_delete, Hn. simpl. lia.
Qed.

(** The resources after a node is added. *)
Lemma add_node_pools c id n : cluster_wf c → nodes c !! id = None →
  ∃ pools, updateNodePoolResources c (Some NewNode) (Some n) = Some (set_nodePoolResources c pools) ∧
    ∀ pool r, pool ≠ EmptyString → pool_qty pools pool r = map_sum (contribution pool r) (<[id := n]> (nodes c)).
Proof.
  intros Hwf Hn. destruct (updateNodePoolResources_spec c (Some NewNode) (Some n)) as (pools & -> & Hq); [by intros ?? [= <- <-]|].
  exists pools. split; [done|]. intros pool r Hne. rewrite Hq, (wf_pools _ _ _ _ _ Hwf), map_sum_insert, Hn by done.
  simpl. rewrite contribution_NewNode. lia.
Qed.

Lemma with_objects_consistent n node claim : usage_consistent n → usage_consistent (with_objects n node claim).
Proof. intros [????? ??]. by split. Qed.

(** Distinct entries have distinct names. *)
Lemma claim_names_inj ns bs names claims pools id id' n n' nc nc' : maps_wf ns bs names claims pools →
  ns !! id = Some n → ns !! id' = Some n' → st_NodeClaim n = Some nc → st_NodeClaim n' = Some nc' →
  claim_Name nc = claim_Name nc' → id = id'.
Proof.
  intros Hwf Hn Hn' Hc Hc' E. pose proof (wf_claims _ _ _ _ _ Hwf _ _ _ Hn Hc) as H1.
  pose proof (wf_claims _ _ _ _ _ Hwf _ _ _ Hn' Hc') as H2. rewrite E in H1. congruence.
Qed.

Lemma node_names_inj ns bs names claims pools id id' n n' node node' : maps_wf ns bs names claims pools →
  ns !! id = Some n → ns !! id' = Some n' → st_Node n = Some node → st_Node n' = Some node' →
  node_Name node = node_Name node' → id = id'.
Proof.
  intros Hwf Hn Hn' Hc Hc' E. pose proof (wf_nodes _ _ _ _ _ Hwf _ _ _ Hn Hc) as H1.
  pose proof (wf_nodes _ _ _ _ _ Hwf _ _ _ Hn' Hc') as H2. rewrite E in H1. congruence.
Qed.

(** Looking up an entry after one entry was replaced or removed. *)
Lemma lookup_replaced {V} (m : gmap string V) id o k v :
  partial_alter (λ _, o) id m !! k = Some v ↔ (k = id ∧ o = Some v) ∨ (k ≠ id ∧ m !! k = Some v).
Proof.
  destruct (decide (k = id)) as [->|Hne].
  - rewrite lookup_partial_alter_eq. naive_solver.
  - rewrite lookup_partial_alter_ne by done. naive_solver.
Qed.

(** Taking the NodeClaim off a state node. *)
Lemma remove_claim_wf ns bs names claims pools pools' id n nc :
  maps_wf ns bs names claims pools → ns !! id = Some n → st_NodeClaim n = Some nc →
  let new := match st_Node n with None => None | Some _ => Some (with_objects n (st_Node n) None) end in
  (∀ pool r, pool ≠ EmptyString → pool_qty pools' pool r = map_sum (contribution pool r) (partial_alter (λ _, new) id ns)) →
  maps_wf (partial_alter (λ _, new) id ns) bs names (delete (claim_Name nc) claims) pools'.
Proof.
  intros Hwf Hn Hc new Hp.
  assert (∀ n', new = Some n' → ∃ node, st_Node n = Some node ∧ n' = with_objects n (Some node) None) as Hnew.
  { intros n'. unfold new. destruct (st_Node n) as [node|]; [|done]. intros [= <-]. by exists node. }
  split; [..|exact Hp|].
  - intros k v [[-> Hv]|[_ Hk]]%lookup_replaced; [|by eapply wf_objects].
    destruct (Hnew v Hv) as (node & En & ->). destruct (wf_objects _ _ _ _ _ Hwf _ _ Hn) as (_ & ? & Hu).
    split_and!; [left; by eexists|done|by apply with_objects_consistent].
  - intros name k [Hname Hk]%lookup_delete_Some Hne. destruct (wf_claim_names _ _ _ _ _ Hwf _ _ Hk Hne) as (n' & nc' & Hn' & Hc' & <-).
    exists n', nc'. split_and!; [|done..]. apply lookup_replaced. right. split; [|done]. intros ->. congruence.
  - intros k v nc' [[-> Hv]|[Hne Hk]]%lookup_replaced Hc'.
    { destruct (Hnew v Hv) as (node & En & ->). done. }
    rewrite lookup_delete_ne; [by eapply wf_claims|]. intros E. apply Hne. by eapply claim_names_inj.
  - intros name k Hk. destruct (wf_node_names _ _ _ _ _ Hwf _ _ Hk) as (n' & node & Hn' & Hnode & <-).
    destruct (decide (k = id)) as [->|Hne].
    + rewrite Hn in Hn'. injection Hn' as <-. exists (with_objects n (Some node) None), node. split_and!; [|done..].
      apply lookup_replaced. left. split; [done|]. unfold new. by rewrite Hnode.
    + exists n', node. split_and!; [|done..]. apply lookup_replaced. by right.
  - intros k v node [[-> Hv]|[_ Hk]]%lookup_replaced Hnode; [|by eapply wf_nodes].
    destruct (Hnew v Hv) as (node' & En & ->). simpl in Hnode. injection Hnode as <-. by eapply wf_nodes.
  - intros k v node key [[-> Hv]|[_ Hk]]%lookup_replaced Hnode Hkey; [|by eapply wf_bound].
    destruct (Hnew v Hv) as (node' & En & ->). simpl in *. injection Hnode as <-. by eapply wf_bound.
Qed.

(** Taking the Node off a state node. *)
Lemma remove_node_wf ns bs names claims pools pools' id n node :
  maps_wf ns bs names claims pools → ns !! id = Some n → st_Node n = Some node →
  let new := match st_NodeClaim n with None => None | Some _ => Some (with_objects n None (st_NodeClaim n)) end in
  (∀ pool r, pool ≠ EmptyString → pool_qty pools' pool r = map_sum (contribution pool r) (partial_alter (λ _, new) id ns)) →
  maps_wf (partial_alter (λ _, new) id ns) bs (delete (node_Name node) names) claims pools'.
Proof.
  intros Hwf Hn Hc new Hp.
  assert (∀ n', new = Some n' → ∃ nc, st_NodeClaim n = Some nc ∧ n' = with_objects n None (Some nc)) as Hnew.
  { intros n'. unfold new. destruct (st_NodeClaim n) as [nc|]; [|done]. intros [= <-]. by exists nc. }
  split; [..|exact Hp|].
  - intros k v [[-> Hv]|[_ Hk]]%lookup_replaced; [|by eapply wf_objects].
    destruct (Hnew v Hv) as (nc & En & ->). destruct (wf_objects _ _ _ _ _ Hwf _ _ Hn) as (_ & ? & Hu).
    split_and!; [right; by eexists|done|by apply with_objects_consistent].
  - intros name k Hk Hne. destruct (wf_claim_names _ _ _ _ _ Hwf _ _ Hk Hne) as (n' & nc & Hn' & Hc' & <-).
    destruct (decide (k = id)) as [->|Hne'].
    + rewrite Hn in Hn'. injection Hn' as <-. exists (with_objects n None (Some nc)), nc. split_and!; [|done..].
      apply lookup_replaced. left. split; [done|]. unfold new. by rewrite Hc'.
    + exists n', nc. split_and!; [|done..]. apply lookup_replaced. by right.
  - intros k v nc [[-> Hv]|[_ Hk]]%lookup_replaced Hc'; [|by eapply wf_claims].
    destruct (Hnew v Hv) as (nc' & En & ->). simpl in Hc'. injection Hc' as <-. by eapply wf_claims.
  - intros name k [Hname Hk]%lookup_delete_Some. destruct (wf_node_names _ _ _ _ _ Hwf _ _ Hk) as (n' & node' & Hn' & Hc' & <-).
    exists n', node'. split_and!; [|done..]. apply lookup_replaced. right. split; [|done]. intros ->. congruence.
  - intros k v node' [[-> Hv]|[Hne Hk]]%lookup_replaced Hc'.
    { destruct (Hnew v Hv) as (nc & En & ->). done. }
    rewrite lookup_delete_ne; [by eapply wf_nodes|]. intros E. apply Hne. by eapply node_names_inj.
  - intros k v node' key [[-> Hv]|[_ Hk]]%lookup_replaced Hnode Hkey; [|by eapply wf_bound].
    destruct (Hnew v Hv) as (nc & En & ->). done.
Qed.

(** A state node for a NodeClaim: it takes over the Node and the usage of the entry. *)
Lemma put_claim_wf ns bs names claims pools pools' id n nc :
  maps_wf ns bs names claims pools → id ≠ EmptyString → st_NodeClaim n = Some nc → usage_consistent n →
  (claims !! claim_Name nc = None ∨ claims !! claim_Name nc = Some EmptyString ∨ claims !! claim_Name nc = Some id) →
  match ns !! id with
  | Some old => st_Node n = st_Node old ∧ podRequests n = podRequests old ∧
                ∀ nc', st_NodeClaim old = Some nc' → claim_Name nc' = claim_Name nc
  | None => st_Node n = None
  end →
  (∀ pool r, pool ≠ EmptyString → pool_qty pools' pool r = map_sum (contribution pool r) (<[id := n]> ns)) →
  maps_wf (<[id := n]> ns) bs names (<[claim_Name nc := id]> claims) pools'.
Proof.
  intros Hwf Hid Hc Hu Hfree Hold Hp. split; [..|exact Hp|].
  - intros k v [[<- <-]|[_ Hk]]%lookup_insert_Some; [|by eapply wf_objects]. split_and!; [right; by eexists|done..].
  - intros name k [[<- <-]|[Hne Hk]]%lookup_insert_Some Hke.
    { exists n, nc. by rewrite lookup_insert_eq. }
    destruct (wf_claim_names _ _ _ _ _ Hwf _ _ Hk Hke) as (n' & nc' & Hn' & Hc' & <-).
    exists n', nc'. split_and!; [|done..]. rewrite lookup_insert_ne; [done|]. intros <-. rewrite Hn' in Hold.
    destruct Hold as (_ & _ & H). apply Hne. by rewrite (H _ Hc').
  - intros k v nc' [[<- <-]|[Hne Hk]]%lookup_insert_Some Hc'.
    { rewrite Hc in Hc'. injection Hc' as <-. apply lookup_insert_eq. }
    rewrite lookup_insert_ne; [by eapply wf_claims|]. intros E. pose proof (wf_claims _ _ _ _ _ Hwf _ _ _ Hk Hc') as H1.
    rewrite <-E in H1. destruct (wf_objects _ _ _ _ _ Hwf _ _ Hk) as (_ & ? & _). destruct Hfree as [?|[?|?]]; congruence.
  - intros name k Hk. destruct (wf_node_names _ _ _ _ _ Hwf _ _ Hk) as (n' & node & Hn' & Hnode & <-).
    destruct (decide (id = k)) as [<-|Hne].
    + rewrite Hn' in Hold. destruct Hold as (E & _). exists n, node. rewrite lookup_insert_eq, E. done.
    + exists n', node. by rewrite lookup_insert_ne.
  - intros k v node [[<- <-]|[_ Hk]]%lookup_insert_Some Hnode; [|by eapply wf_nodes].
    destruct (ns !! id) as [old|] eqn:E; [|congruence]. destruct Hold as (E' & _). eapply wf_nodes; [done..|]. congruence.
  - intros k v node key [[<- <-]|[_ Hk]]%lookup_insert_Some Hnode Hkey; [|by eapply wf_bound].
    destruct (ns !! id) as [old|] eqn:E; [|congruence]. destruct Hold as (E' & Er & _).
    eapply wf_bound; [done..| |]; congruence.
Qed.

(** A state node for a Node: it takes over the NodeClaim of the entry. *)
Lemma put_node_wf ns bs names claims pools pools' id n node :
  maps_wf ns bs names claims pools → id ≠ EmptyString → st_Node n = Some node → usage_consistent n →
  (names !! node_Name node = None ∨ names !! node_Name node = Some id) →
  match ns !! id with
  | Some old => st_NodeClaim n = st_NodeClaim old ∧ ∀ node', st_Node old = Some node' → node_Name node' = node_Name node
  | None => st_NodeClaim n = None
  end →
  (∀ k, k ∈ dom (podRequests n) → bs !! k = Some (node_Name node)) →
  (∀ pool r, pool ≠ EmptyString → pool_qty pools' pool r = map_sum (contribution pool r) (<[id := n]> ns)) →
  maps_wf (<[id := n]> ns) bs (<[node_Name node := id]> names) claims pools'.
Proof.
  intros Hwf Hid Hc Hu Hfree Hold Hb Hp. split; [..|exact Hp|].
  - intros k v [[<- <-]|[_ Hk]]%lookup_insert_Some; [|by eapply wf_objects]. split_and!; [left; by eexists|done..].
  - intros name k Hk Hke. destruct (wf_claim_names _ _ _ _ _ Hwf _ _ Hk Hke) as (n' & nc & Hn' & Hnc & <-).
    destruct (decide (id = k)) as [<-|Hne].
    + rewrite Hn' in Hold. destruct Hold as (E & _). exists n, nc. rewrite lookup_insert_eq, E. done.
    + exists n', nc. by rewrite lookup_insert_ne.
  - intros k v nc [[<- <-]|[_ Hk]]%lookup_insert_Some Hnc; [|by eapply wf_claims].
    destruct (ns !! id) as [old|] eqn:E; [|congruence]. destruct Hold as (E' & _). eapply wf_claims; [done..|]. congruence.
  - intros name k [[<- <-]|[Hne Hk]]%lookup_insert_Some.
    { exists n, node. by rewrite lookup_insert_eq. }
    destruct (wf_node_names _ _ _ _ _ Hwf _ _ Hk) as (n' & node' & Hn' & Hc' & <-).
    exists n', node'. split_and!; [|done..]. rewrite lookup_insert_ne; [done|]. intros <-. rewrite Hn' in Hold.
    destruct Hold as (_ & H). apply Hne. by rewrite (H _ Hc').
  - intros k v node' [[<- <-]|[Hne Hk]]%lookup_insert_Some Hc'.
    { rewrite Hc in Hc'. injection Hc' as <-. apply lookup_insert_eq. }
    rewrite lookup_insert_ne; [by eapply wf_nodes|]. intros E. pose proof (wf_nodes _ _ _ _ _ Hwf _ _ _ Hk Hc') as H1.
    rewrite <-E in H1. destruct Hfree as [?|?]; congruence.
  - intros k v node' key [[<- <-]|[_ Hk]]%lookup_insert_Some Hnode Hkey; [|by eapply wf_bound].
    rewrite Hc in Hnode. injection Hnode as <-. by apply Hb.
Qed.

(** The same objects and mark, with another usage. *)
Definition same_objects (n n' : StateNode) : Prop :=
  st_Node n' = st_Node n ∧ st_NodeClaim n' = st_NodeClaim n ∧ markedForDeletion n' = markedForDeletion n.

Lemma put_same_wf ns bs bs' names claims pools pools' id n n' :
  maps_wf ns bs names claims pools → ns !! id = Some n → st_Node n' = st_Node n → st_NodeClaim n' = st_NodeClaim n →
  usage_consistent n' →
  (∀ k v node key, <[id := n']> ns !! k = Some v → st_Node v = Some node → key ∈ dom (podRequests v) → bs' !! key = Some (node_Name node)) →
  (∀ pool r, pool ≠ EmptyString → pool_qty pools' pool r = map_sum (contribution pool r) (<[id := n']> ns)) →
  maps_wf (<[id := n']> ns) bs' names claims pools'.
Proof.
  intros Hwf Hn E1 E2 Hu Hb Hp. split; [..|exact Hp|exact Hb].
  - intros k v [[<- <-]|[_ Hk]]%lookup_insert_Some; [|by eapply wf_objects].
    destruct (wf_objects _ _ _ _ _ Hwf _ _ Hn) as (Ho & ? & _). split_and!; [|done..]. unfold has_object. by rewrite E1, E2.
  - intros name k Hk Hke. destruct (wf_claim_names _ _ _ _ _ Hwf _ _ Hk Hke) as (m & nc & Hm & Hnc & <-).
    destruct (decide (id = k)) as [<-|Hne]; [exists n', nc; rewrite lookup_insert_eq|exists m, nc; by rewrite lookup_insert_ne].
    rewrite Hn in Hm. injection Hm as <-. by rewrite E2.
  - intros k v nc [[<- <-]|[_ Hk]]%lookup_insert_Some Hnc; [|by eapply wf_claims]. eapply wf_claims; [done..|congruence].
  - intros name k Hk. destruct (wf_node_names _ _ _ _ _ Hwf _ _ Hk) as (m & node & Hm & Hnode & <-).
    destruct (decide (id = k)) as [<-|Hne]; [exists n', node; rewrite lookup_insert_eq|exists m, node; by rewrite lookup_insert_ne].
    rewrite Hn in Hm. injection Hm as <-. by rewrite E1.
  - intros k v node [[<- <-]|[_ Hk]]%lookup_insert_Some Hnode; [|by eapply wf_nodes]. eapply wf_nodes; [done..|congruence].
Qed.

Lemma put_usage_wf ns bs bs' names claims pools id n n' :
  maps_wf ns bs names claims pools → ns !! id = Some n → same_objects n n' → usage_consistent n' →
  (∀ k v node key, <[id := n']> ns !! k = Some v → st_Node v = Some node → key ∈ dom (podRequests v) → bs' !! key = Some (node_Name node)) →
  maps_wf (<[id := n']> ns) bs' names claims pools.
Proof.
  intros Hwf Hn (E1 & E2 & E3) Hu Hb. eapply put_same_wf; [done..|].
  intros pool r Hne. rewrite (wf_pools _ _ _ _ _ Hwf), map_sum_insert, Hn by done. simpl.
  rewrite (contribution_same pool r n' n) by done. lia.
Qed.

(** ** NodeClaims *)

Lemma cleanupNodeClaim_wf now c name : cluster_wf c → ∃ c', cleanupNodeClaim now c name = Some c' ∧ cluster_wf c' ∧
  nodeClaimNameToProviderID c' = delete name (nodeClaimNameToProviderID c) ∧
  (∀ id, nodeClaimNameToProviderID c !! name ≠ Some id → nodes c' !! id = nodes c !! id).
Proof.
  intros Hwf. unfold cleanupNodeClaim. set (id := default EmptyString (nodeClaimNameToProviderID c !! name)).
  case_bool_decide as Hid.
  - eexists. split; [done|]. split_and!; [|done..]. unfold cluster_wf. simpl. destruct Hwf as [H1 H2 H3 H4 H5 H6 H7]. split; try done.
    + intros nm k [_ Hk]%lookup_delete_Some Hne. by apply H2.
    + intros k n nc Hn Hc. rewrite lookup_delete_ne; [by eapply H3|]. intros E.
      pose proof (H3 _ _ _ Hn Hc) as Hm. rewrite <-E in Hm. destruct (H1 _ _ Hn) as (_ & Hne & _).
      unfold id in Hid. rewrite Hm in Hid. done.
  - destruct (nodeClaimNameToProviderID c !! name) as [id'|] eqn:Em; [|done]. change id with id' in *. clear id. simpl in Hid.
    destruct (wf_claim_names _ _ _ _ _ Hwf _ _ Em Hid) as (n & nc & Hn & Hc & <-). change (default EmptyString (Some id')) with id'.
    rewrite Hn. cbn [mbind option_bind].
    set (new := match st_Node n with None => None | Some _ => Some (with_objects n (st_Node n) None) end).
    destruct (replace_node_pools c id' n new Hwf Hn) as (pools & Eu & Hp).
    pose proof (remove_claim_wf _ _ _ _ _ pools id' n nc Hwf Hn Hc Hp) as Hwf'. fold new in Hwf'.
    assert (∀ k, Some id' ≠ Some k → partial_alter (λ _, new) id' (nodes c) !! k = nodes c !! k) as Hk
      by (intros k Hk; apply lookup_partial_alter_ne; congruence).
    subst new. destruct (st_Node n) as [node|]; rewrite Eu; cbn [mbind option_bind]; eexists; (split; [done|split_and!; [exact Hwf'|done|exact Hk]]).
Qed.

(** Provider ids belong to one NodeClaim, and once set do not vanish. *)
Definition claim_update_ok (c : Cluster) (nc : v1NodeClaim) : Prop :=
  if bool_decide (claim_ProviderID nc = EmptyString)
  then default EmptyString (nodeClaimNameToProviderID c !! claim_Name nc) = EmptyString
  else ∀ n nc', nodes c !! claim_ProviderID nc = Some n → st_NodeClaim n = Some nc' → claim_Name nc' = claim_Name nc.

Lemma trigger_same now old new c : let c' := triggerConsolidationOnChange now old new c in
  nodes c' = nodes c ∧ bindings c' = bindings c ∧ nodeNameToProviderID c' = nodeNameToProviderID c ∧
  nodeClaimNameToProviderID c' = nodeClaimNameToProviderID c ∧ nodePoolResources c' = nodePoolResources c.
Proof. simpl. unfold triggerConsolidationOnChange. by repeat case_match. Qed.

(** Replacing or adding an entry, whichever the case is. *)
Lemma put_node_pools c id n : cluster_wf c →
  ∃ pools, updateNodePoolResources c (Some (default NewNode (nodes c !! id))) (Some n) = Some (set_nodePoolResources c pools) ∧
    ∀ pool r, pool ≠ EmptyString → pool_qty pools pool r = map_sum (contribution pool r) (<[id := n]> (nodes c)).
Proof.
  intros Hwf. destruct (nodes c !! id) as [old|] eqn:E; simpl.
  - apply (replace_node_pools c id old (Some n) Hwf E).
  - by apply add_node_pools.
Qed.

Lemma UpdateNodeClaim_wf now c nc : cluster_wf c → claim_update_ok c nc →
  ∃ c', UpdateNodeClaim now c nc = Some c' ∧ cluster_wf c'.
Proof.
  intros Hwf Hok. unfold UpdateNodeClaim, claim_update_ok in *. set (id := claim_ProviderID nc) in *. case_bool_decide as Hid.
  - cbn [mbind option_bind]. eexists. split; [done|]. unfold cluster_wf. simpl. rewrite Hid. destruct Hwf as [H1 H2 H3 H4 H5 H6 H7]. split; try done.
    + intros nm k [[<- <-]|[_ Hk]]%lookup_insert_Some Hne; [done|by apply H2].
    + intros k n nc' Hn Hc. rewrite lookup_insert_ne; [by eapply H3|]. intros E. pose proof (H3 _ _ _ Hn Hc) as Hm.
      rewrite <-E in Hm. rewrite Hm in Hok. simpl in Hok. destruct (H1 _ _ Hn) as (_ & ? & _). done.
  - unfold newStateFromNodeClaim. fold id. set (old := default NewNode (nodes c !! id)). set (n := mkStateNode (st_Node old) (Some nc) _ _ _ _ _ _ _ _ _ _).
    assert (usage_consistent n) as Hu.
    { assert (usage_consistent old) as [Hl Hp Hv Hd Hc Hpos Hcov].
      { subst old. destruct (nodes c !! id) as [o|] eqn:E; [by eapply wf_objects|apply NewNode_consistent]. }
      by split. }
    assert (∃ c0, match nodeClaimNameToProviderID c !! claim_Name nc with
       | Some id' => if negb (bool_decide (id' = id)) then cleanupNodeClaim now c (claim_Name nc) else Some c
       | None => Some c end = Some c0 ∧ cluster_wf c0 ∧ nodes c0 !! id = nodes c !! id ∧
       (nodeClaimNameToProviderID c0 !! claim_Name nc = None ∨ nodeClaimNameToProviderID c0 !! claim_Name nc = Some id))
      as (c0 & -> & Hwf0 & Hsame & Hfree).
    { destruct (nodeClaimNameToProviderID c !! claim_Name nc) as [id'|] eqn:Em; [|by exists c; eauto].
      case_bool_decide as E; simpl; [subst id'; by exists c; eauto|].
      destruct (cleanupNodeClaim_wf now c (claim_Name nc) Hwf) as (c0 & -> & Hwf0 & Hd & Hk). exists c0. split_and!; [done..| |].
      - apply Hk. congruence.
      - left. rewrite Hd. apply lookup_delete_eq. }
    cbn [mbind option_bind]. destruct (put_node_pools c0 id n Hwf0) as (pools & Eu & Hp). rewrite Hsame in Eu. fold old in Eu. rewrite Eu.
    cbn [mbind option_bind]. destruct (trigger_same now old n (set_nodePoolResources c0 pools)) as (E1 & E2 & E3 & E4 & E5).
    eexists. split; [done|]. unfold cluster_wf. simpl. rewrite E1, E2, E3, E4, E5. simpl.
    eapply put_claim_wf; [exact Hwf0|done..|tauto| |exact Hp]. rewrite Hsame. subst old n.
    destruct (nodes c !! id) as [o|] eqn:E; simpl; [|done]. split_and!; [done..|]. intros nc' Hc'. by eapply Hok.
Qed.

(** ** Deletion marks *)

Lemma with_mark_wf c id n m : cluster_wf c → nodes c !! id = Some n →
  ∃ pools, updateNodePoolResources c (Some n) (Some (with_mark n m)) = Some (set_nodePoolResources c pools) ∧
    maps_wf (<[id := with_mark n m]> (nodes c)) (bindings c) (nodeNameToProviderID c) (nodeClaimNameToProviderID c) pools.
Proof.
  intros Hwf Hn. destruct (replace_node_pools c id n (Some (with_mark n m)) Hwf Hn) as (pools & -> & Hp).
  exists pools. split; [done|]. eapply put_same_wf; [exact Hwf|done..| | |exact Hp].
  - destruct (wf_objects _ _ _ _ _ Hwf _ _ Hn) as (_ & _ & [????? ??]). by split.
  - intros k v node key [[<- <-]|[_ Hk]]%lookup_insert_Some Hnode Hkey; by eapply wf_bound.
Qed.

Lemma mark_one_wf c id : cluster_wf c → ∃ c', mark_one c id = Some c' ∧ cluster_wf c'.
Proof.
  intros Hwf. unfold mark_one. destruct (nodes c !! id) as [n|] eqn:Hn; [|by exists c].
  destruct (with_mark_wf c id n true Hwf Hn) as (pools & -> & H). cbn [mbind option_bind].
  eexists. split; [done|]. by destruct (st_NodeClaim (with_mark n true)).
Qed.

Lemma unmark_one_wf c id : cluster_wf c → ∃ c', unmark_one c id = Some c' ∧ cluster_wf c'.
Proof.
  intros Hwf. unfold unmark_one. destruct (nodes c !! id) as [n|] eqn:Hn; [|by exists c].
  destruct (with_mark_wf c id n false Hwf Hn) as (pools & -> & H). cbn [mbind option_bind].
  eexists. split; [done|]. destruct (st_NodeClaim (with_mark n false)); [|done]. by case_bool_decide.
Qed.

Lemma foldl_opt_wf (f : Cluster → string → option Cluster) ids c :
  (∀ c id, cluster_wf c → ∃ c', f c id = Some c' ∧ cluster_wf c') → cluster_wf c →
  ∃ c', foldl_opt f c ids = Some c' ∧ cluster_wf c'.
Proof.
  intros Hf. revert c. induction ids as [|id ids IH]; intros c Hwf; simpl; [by exists c|].
  destruct (Hf c id Hwf) as (c' & -> & Hwf'). simpl. by apply IH.
Qed.

Lemma Nominate_wf BatchMaxDuration now c id : cluster_wf c → cluster_wf (NominateNodeForPod BatchMaxDuration now c id).
Proof.
  intros Hwf. unfold NominateNodeForPod. destruct (nodes c !! id) as [n|] eqn:Hn; [|done].
  unfold cluster_wf. simpl. eapply put_usage_wf; [exact Hwf|done|done| |].
  - destruct (wf_objects _ _ _ _ _ Hwf _ _ Hn) as (_ & _ & [????? ??]). by split.
  - intros k v node key [[<- <-]|[_ Hk]]%lookup_insert_Some Hnode Hkey; by eapply wf_bound.
Qed.

(** ** Pods *)

Lemma cleanup_same_objects n key : same_objects n (cleanupForPod n key).
Proof. done. Qed.

Lemma cleanup_tracked n key k : k ∈ dom (podRequests (cleanupForPod n key)) ↔ k ≠ key ∧ k ∈ dom (podRequests n).
Proof. simpl. rewrite dom_delete, elem_of_difference, elem_of_singleton. naive_solver. Qed.

(** Deleting a binding whose node, if it is known, is cleaned up. *)
Lemma unbind_wf c key name : cluster_wf c → bindings c !! key = Some name →
  match nodes c !! default EmptyString (nodeNameToProviderID c !! name) with
  | Some n => maps_wf (<[default EmptyString (nodeNameToProviderID c !! name) := cleanupForPod n key]> (nodes c))
                (delete key (bindings c)) (nodeNameToProviderID c) (nodeClaimNameToProviderID c) (nodePoolResources c)
  | None => maps_wf (nodes c) (delete key (bindings c)) (nodeNameToProviderID c) (nodeClaimNameToProviderID c) (nodePoolResources c)
  end ∧
  (∀ id n node, nodes c !! id = Some n → st_Node n = Some node → key ∈ dom (podRequests n) →
     id = default EmptyString (nodeNameToProviderID c !! name)).
Proof.
  intros Hwf Hb. set (id0 := default EmptyString (nodeNameToProviderID c !! name)).
  assert (∀ id n node, nodes c !! id = Some n → st_Node n = Some node → key ∈ dom (podRequests n) → id = id0) as Huniq.
  { intros id n node Hn Hnode Hkey. pose proof (wf_bound _ _ _ _ _ Hwf _ _ _ _ Hn Hnode Hkey) as E. rewrite Hb in E.
    injection E as ->. unfold id0. by rewrite (wf_nodes _ _ _ _ _ Hwf _ _ _ Hn Hnode). }
  split; [|done]. destruct (nodes c !! id0) as [n|] eqn:Hn.
  - eapply put_usage_wf; [exact Hwf|done|apply cleanup_same_objects| |].
    + apply cleanupForPod_consistent. by eapply wf_objects.
    + intros k v node key' [[<- <-]|[Hne Hk]]%lookup_insert_Some Hnode Hkey.
      * apply cleanup_tracked in Hkey as [Hne Hkey]. rewrite lookup_delete_ne by done. by eapply wf_bound.
      * rewrite lookup_delete_ne; [by eapply wf_bound|]. intros <-. apply Hne. symmetry. by eapply Huniq.
  - destruct Hwf as [H1 H2 H3 H4 H5 H6 H7]. split; try done. intros id v node key' Hv Hnode Hkey.
    rewrite lookup_delete_ne; [by eapply H7|]. intros <-. pose proof (Huniq _ _ _ Hv Hnode Hkey) as ->. congruence.
Qed.

Lemma completion_wf c key : cluster_wf c → cluster_wf (updateNodeUsageFromPodCompletion c key).
Proof.
  intros Hwf. unfold updateNodeUsageFromPodCompletion. destruct (bindings c !! key) as [name|] eqn:Hb; [|done].
  destruct (unbind_wf c key name Hwf Hb) as [H _]. simpl.
  by destruct (nodes c !! default EmptyString (nodeNameToProviderID c !! name)).
Qed.

(** After the old binding is cleaned up, the pod is tracked on no other node. *)
Lemma cleanupOldBindings_spec now c pod : cluster_wf c → let c' := cleanupOldBindings now c pod in
  cluster_wf c' ∧ nodeNameToProviderID c' = nodeNameToProviderID c ∧
  nodeClaimNameToProviderID c' = nodeClaimNameToProviderID c ∧ nodePoolResources c' = nodePoolResources c ∧
  (∀ k, k ≠ pod_key pod → bindings c' !! k = bindings c !! k) ∧
  (∀ id n node, nodes c' !! id = Some n → st_Node n = Some node → pod_key pod ∈ dom (podRequests n) →
     node_Name node = pod_NodeName pod) ∧
  (∀ id, (∀ n node, nodes c !! id = Some n → st_Node n = Some node → node_Name node = pod_NodeName pod) →
     nodes c' !! id = nodes c !! id).
Proof.
  intros Hwf. simpl. unfold cleanupOldBindings. destruct (bindings c !! pod_key pod) as [old|] eqn:Hb.
  - case_bool_decide as E.
    { split_and!; try done. intros id n node Hn Hnode Hkey. pose proof (wf_bound _ _ _ _ _ Hwf _ _ _ _ Hn Hnode Hkey). congruence. }
    destruct (unbind_wf c (pod_key pod) old Hwf Hb) as [H Huniq]. set (id0 := default EmptyString (nodeNameToProviderID c !! old)) in *.
    destruct (nodes c !! id0) as [n0|] eqn:Hn0.
    + split_and!; try done.
      * intros k Hk. simpl. by rewrite lookup_delete_ne.
      * simpl. intros id n node [[<- <-]|[Hne Hn]]%lookup_insert_Some Hnode Hkey.
        { apply cleanup_tracked in Hkey as [? _]. done. }
        exfalso. apply Hne. symmetry. by eapply Huniq.
      * simpl. intros id Hid. rewrite lookup_insert_ne; [done|]. intros <-.
        unfold id0 in *. destruct (nodeNameToProviderID c !! old) as [x|] eqn:Ex; simpl in *.
        -- destruct (wf_node_names _ _ _ _ _ Hwf _ _ Ex) as (m' & node' & Hm' & Hnode' & Hname'). apply E.
           rewrite <-Hname'. by eapply Hid.
        -- destruct (wf_objects _ _ _ _ _ Hwf _ _ Hn0) as (_ & ? & _). done.
    + split_and!; try done. simpl. intros id n node Hn Hnode Hkey. pose proof (Huniq _ _ _ Hn Hnode Hkey) as ->. congruence.
  - split_and!; try done. simpl. intros id n node Hn Hnode Hkey.
    pose proof (wf_bound _ _ _ _ _ Hwf _ _ _ _ Hn Hnode Hkey). congruence.
Qed.

Lemma bind_pod_wf now c pod : cluster_wf c → cluster_wf (bind_pod now c pod) ∧
  ∀ k, bindings (bind_pod now c pod) !! k = if decide (k = pod_key pod) then Some (pod_NodeName pod) else bindings c !! k.
Proof.
  intros Hwf. destruct (cleanupOldBindings_spec now c pod Hwf) as (Hwf' & E1 & E2 & E3 & Hk & Ht & _).
  unfold bind_pod. split.
  - unfold cluster_wf. simpl. destruct Hwf' as [H1 H2 H3 H4 H5 H6 H7]. split; try done.
    intros id n node k Hn Hnode Hkey. destruct (decide (k = pod_key pod)) as [->|Hne].
    + rewrite lookup_insert_eq. f_equal. symmetry. by eapply Ht.
    + rewrite lookup_insert_ne by done. by eapply H7.
  - intros k. simpl. case_decide as E; [subst k; apply lookup_insert_eq|]. rewrite lookup_insert_ne by done. by apply Hk.
Qed.

Section operations.
  Context `{SE : SchedulerEnv}.
  Context (RequestsOf LimitsOf : Pod → ResourceList) (spec_Volumes : Pod → list Volume) (vapi : VolumeApi)
          (PodDeletionCostManagement : bool) (api : ClusterApi) (repairPolicyMatcher : option RepairPolicyMatcher).
  #[local] Abbreviation update_for_pod := (updateForPod RequestsOf LimitsOf spec_Volumes vapi PodDeletionCostManagement).
  #[local] Abbreviation update_usage := (updateNodeUsageFromPod RequestsOf LimitsOf spec_Volumes vapi PodDeletionCostManagement).
  #[local] Abbreviation update_pod := (UpdatePod RequestsOf LimitsOf spec_Volumes vapi PodDeletionCostManagement).
  #[local] Abbreviation update_node :=
    (UpdateNode RequestsOf LimitsOf spec_Volumes vapi PodDeletionCostManagement api repairPolicyMatcher).
  (** The field selector of the API server, and the matcher was built from valid policies. *)
  Hypothesis pods_on_node : ∀ name pods p, ca_pods_on api name = Ok pods → p ∈ pods → pod_NodeName p = name.
  Hypothesis matcher_valid : ∀ m, repairPolicyMatcher = Some m → valid_matcher m.

Lemma updateForPod_objects n pod n' : update_for_pod n pod = Ok n' →
  same_objects n n' ∧ dom (podRequests n') = {[pod_key pod]} ∪ dom (podRequests n).
Proof.
  unfold updateForPod. destruct (GetVolumes _ _ _) as [v|]; [|done]. cbn [mbind result_bind]. intros [= <-]. split; [done|].
  cbn [podRequests]. apply dom_insert_L.
Qed.

(** Binding commutes with storing the node the pod is bound to. *)
Lemma bind_pod_store now c pod id n : cluster_wf c → nodeNameToProviderID c !! pod_NodeName pod = Some id →
  let c1 := bind_pod now (set_nodes c (<[id := n]> (nodes c))) pod in
  let c2 := bind_pod now c pod in
  nodes c1 = <[id := n]> (nodes c2) ∧ bindings c1 = bindings c2 ∧ nodeNameToProviderID c1 = nodeNameToProviderID c2 ∧
  nodeClaimNameToProviderID c1 = nodeClaimNameToProviderID c2 ∧ nodePoolResources c1 = nodePoolResources c2.
Proof.
  intros Hwf Hid. simpl. unfold bind_pod, cleanupOldBindings. simpl.
  destruct (bindings c !! pod_key pod) as [old|]; [|done]. case_bool_decide as E; [done|].
  set (id0 := default EmptyString (nodeNameToProviderID c !! old)).
  assert (id ≠ id0) as Hne.
  { intros ->. destruct (wf_node_names _ _ _ _ _ Hwf _ _ Hid) as (m & node & Hm & Hnode & Hname).
    destruct (nodeNameToProviderID c !! old) as [x|] eqn:Ex; unfold id0 in *; simpl in *.
    - destruct (wf_node_names _ _ _ _ _ Hwf _ _ Ex) as (m' & node' & Hm' & Hnode' & Hname'). congruence.
    - destruct (wf_objects _ _ _ _ _ Hwf _ _ Hm) as (_ & ? & _). done. }
  rewrite lookup_insert_ne by done. destruct (nodes c !! id0); [|done]. simpl. by rewrite insert_insert_ne.
Qed.

Lemma update_usage_wf now c pod : cluster_wf c → cluster_wf (update_usage now c pod).1.
Proof.
  intros Hwf. unfold updateNodeUsageFromPod. case_bool_decide as E; [done|].
  destruct (nodeNameToProviderID c !! pod_NodeName pod) as [id|] eqn:Hid; simpl.
  2: { destruct (nodes c !! EmptyString) as [n|] eqn:Hn; [|done]. by destruct (wf_objects _ _ _ _ _ Hwf _ _ Hn) as (_ & ? & _). }
  destruct (wf_node_names _ _ _ _ _ Hwf _ _ Hid) as (n & node & Hn & Hnode & Hname). rewrite Hn.
  destruct (update_for_pod n pod) as [n'|] eqn:Eu; [|done]. simpl.
  destruct (bind_pod_store now c pod id n' Hwf Hid) as (E1 & E2 & E3 & E4 & E5). unfold cluster_wf. rewrite E1, E2, E3, E4, E5.
  destruct (cleanupOldBindings_spec now c pod Hwf) as (_ & _ & _ & _ & _ & _ & Hsame).
  destruct (bind_pod_wf now c pod Hwf) as [Hwf' Hb].
  assert (nodes (bind_pod now c pod) !! id = Some n) as Hn' by (simpl; rewrite Hsame; [done|]; intros; congruence).
  destruct (updateForPod_objects _ _ _ Eu) as [Hso Hdom].
  eapply put_usage_wf; [exact Hwf'|exact Hn'|exact Hso| |].
  - eapply updateForPod_consistent; [exact Eu|]. by eapply wf_objects.
  - intros k v node' key [[<- <-]|[_ Hk]]%lookup_insert_Some Hnode' Hkey; [|by eapply wf_bound].
    destruct Hso as (Es & _). rewrite Es, Hnode in Hnode'. injection Hnode' as <-.
    rewrite Hdom in Hkey. apply elem_of_union in Hkey as [->%elem_of_singleton|Hkey].
    + rewrite Hb. by rewrite decide_True, Hname.
    + by eapply wf_bound.
Qed.

Lemma update_pod_wf now c pod : cluster_wf c → cluster_wf (update_pod now c pod).1.
Proof.
  intros Hwf. unfold UpdatePod. destruct (IsTerminal pod).
  - simpl. by apply completion_wf.
  - pose proof (update_usage_wf now c pod Hwf) as H. by destruct (update_usage now c pod).
Qed.

Lemma delete_pod_wf now c key : cluster_wf c → cluster_wf (DeletePod now c key).
Proof.
  intros Hwf. apply (completion_wf (set_antiAffinityPods c (delete key (antiAffinityPods c))) key). exact Hwf.
Qed.

(** ** Nodes *)

Lemma cleanupNode_wf now c name : cluster_wf c → ∃ c', cleanupNode now c name = Some c' ∧ cluster_wf c' ∧
  nodeNameToProviderID c' = delete name (nodeNameToProviderID c) ∧ bindings c' = bindings c ∧
  (∀ id, nodeNameToProviderID c !! name ≠ Some id → nodes c' !! id = nodes c !! id).
Proof.
  intros Hwf. unfold cleanupNode. destruct (nodeNameToProviderID c !! name) as [id|] eqn:Em; simpl.
  2: { exists c. split_and!; try done. by rewrite delete_id. }
  destruct (wf_node_names _ _ _ _ _ Hwf _ _ Em) as (n & node & Hn & Hc & <-).
  destruct (wf_objects _ _ _ _ _ Hwf _ _ Hn) as (_ & Hid & _). rewrite bool_decide_false by done.
  rewrite Hn. cbn [mbind option_bind].
  set (new := match st_NodeClaim n with None => None | Some _ => Some (with_objects n None (st_NodeClaim n)) end).
  destruct (replace_node_pools c id n new Hwf Hn) as (pools & Eu & Hp).
  pose proof (remove_node_wf _ _ _ _ _ pools id n node Hwf Hn Hc Hp) as Hwf'. fold new in Hwf'.
  assert (∀ k, Some id ≠ Some k → partial_alter (λ _, new) id (nodes c) !! k = nodes c !! k) as Hk
    by (intros k Hk; apply lookup_partial_alter_ne; congruence).
  subst new. destruct (st_NodeClaim n) as [nc|]; rewrite Eu; cbn [mbind option_bind]; eexists;
    (split; [done|split_and!; [exact Hwf'|done|done|exact Hk]]).
Qed.

(** What is known of a state node while its pods are added. *)
Definition building (c : Cluster) (name : string) (n0 n : StateNode) : Prop :=
  same_objects n0 n ∧ usage_consistent n ∧ ∀ k, k ∈ dom (podRequests n) → bindings c !! k = Some name.

Lemma populate_pods_wf now name n0 pods c n c' n' e : (∀ p, p ∈ pods → pod_NodeName p = name) →
  populate_pods RequestsOf LimitsOf spec_Volumes vapi PodDeletionCostManagement now c n pods = (c', n', e) →
  cluster_wf c → building c name n0 n →
  cluster_wf c' ∧ building c' name n0 n' ∧ 
  (∀ id, (∀ n node, nodes c !! id = Some n → st_Node n = Some node → node_Name node = name) → nodes c' !! id = nodes c !! id) ∧
  nodeNameToProviderID c' = nodeNameToProviderID c.
Proof.
  revert c n. induction pods as [|pod pods IH]; intros c n Hp H Hwf Hb; simpl in H; [by simplify_eq|].
  destruct (IsTerminal pod); [apply (IH c n); try done; intros; apply Hp; by right|].
  destruct (update_for_pod n pod) as [n1|] eqn:Eu; [|by simplify_eq].
  assert (pod_NodeName pod = name) as Hname by (apply Hp; by left).
  destruct (bind_pod_wf now c pod Hwf) as [Hwf1 Hb1]. destruct Hb as (Hs & Hu & Hbd).
  destruct (updateForPod_objects _ _ _ Eu) as [Hso Hdom].
  destruct (cleanupOldBindings_spec now c pod Hwf) as (_ & En & _ & _ & _ & _ & Hsame).
  destruct (IH (bind_pod now c pod) n1) as (H1 & H2 & H3 & H4); [intros; apply Hp; by right|done|done| |].
  - destruct Hs as (A1 & A2 & A3), Hso as (B1 & B2 & B3). split_and!; [by split_and!; congruence| |].
    + by eapply updateForPod_consistent.
    + intros k Hk. rewrite Hb1. case_decide as E; [by rewrite Hname|]. apply Hbd. rewrite Hdom in Hk.
      apply elem_of_union in Hk as [->%elem_of_singleton|Hk]; done.
  - split_and!; [done|done| |by rewrite H4].
    intros id Hid. assert (nodes (bind_pod now c pod) !! id = nodes c !! id) as E1 by (apply Hsame; by rewrite Hname).
    rewrite H3; [done|]. rewrite E1. done.
Qed.

Lemma limit_drivers_usage drivers u : volumes_cover u →
  podVolumes (foldl limit_driver u drivers) = podVolumes u ∧ volumes_cover (foldl limit_driver u drivers).
Proof.
  revert u. induction drivers as [|[d [k|]] drivers IH]; intros u Hu; simpl; [done|..];
    (edestruct IH as [E H]; [|split; [rewrite E|exact H]; done]).
  - eapply volume_step_cover; [apply vstep_limit|done].
  - eapply volume_step_cover; [apply vstep_unbounded|done].
Qed.

Lemma populate_limits_building c name n0 n drivers : building c name n0 n → building c name n0 (populate_limits n drivers).
Proof.
  intros (Hs & [Hl Hp Hv Hd Hc Hpos Hcov] & Hb). split_and!; [done| |done].
  destruct (limit_drivers_usage drivers _ Hcov) as [E1 E2]. split; try done. simpl. by rewrite E1.
Qed.

Lemma matchRepairPolicies_total node old : is_Some (matchRepairPolicies repairPolicyMatcher node old).
Proof.
  unfold matchRepairPolicies. destruct repairPolicyMatcher as [m|] eqn:E; [|done].
  assert (is_Some (Match m node)) as HM.
  { destruct (match_conditions_total m (matchCreated node) (newMatchCondition <$> node_Conditions node) (matcher_valid m eq_refl)) as (ms & H & _).
    unfold Match. rewrite H. eauto. }
  destruct (st_Node old); [|done]. by destruct (MatchInputsEqual n node); [eauto|].
Qed.

(** The provider id a Node is stored under. *)
Definition effective_id (node : Node) : string :=
  if bool_decide (node_ProviderID node = EmptyString) then node_Name node else node_ProviderID node.

(** Provider ids belong to one Node, and Nodes have names. *)
Definition node_update_ok (c : Cluster) (node : Node) : Prop :=
  node_Name node ≠ EmptyString ∧
  ∀ n node', nodes c !! effective_id node = Some n → st_Node n = Some node' → node_Name node' = node_Name node.

Lemma populated now c node n0 c1 n1 e1 n2 e2 :
  populateResourceRequests RequestsOf LimitsOf spec_Volumes vapi PodDeletionCostManagement api now c n0 (node_Name node) = (c1, n1, e1) →
  populateVolumeLimits api n1 (node_Name node) = (n2, e2) → cluster_wf c → usage_consistent n0 → podRequests n0 = ∅ →
  cluster_wf c1 ∧ building c1 (node_Name node) n0 n2 ∧ nodeNameToProviderID c1 = nodeNameToProviderID c ∧
  ∀ id, (∀ n node', nodes c !! id = Some n → st_Node n = Some node' → node_Name node' = node_Name node) → nodes c1 !! id = nodes c !! id.
Proof.
  intros E1 E2 Hwf Hu Hempty.
  assert (building c (node_Name node) n0 n0) as Hb.
  { split_and!; [done..|]. rewrite Hempty. intros k Hk. by apply elem_of_dom in Hk as [? ?%lookup_empty_Some]. }
  assert (cluster_wf c1 ∧ building c1 (node_Name node) n0 n1 ∧ nodeNameToProviderID c1 = nodeNameToProviderID c ∧
    ∀ id, (∀ n node', nodes c !! id = Some n → st_Node n = Some node' → node_Name node' = node_Name node) → nodes c1 !! id = nodes c !! id)
    as (H1 & H2 & H3 & H4).
  { unfold populateResourceRequests in E1. destruct (ca_pods_on api (node_Name node)) as [pods|] eqn:El; [|by simplify_eq].
    destruct (populate_pods_wf now (node_Name node) n0 pods c n0 c1 n1 e1) as (A & B & C & D); try done.
    intros p Hp. by eapply pods_on_node. }
  split_and!; try done. unfold populateVolumeLimits in E2. destruct (ca_csinode api (node_Name node)) as [ds|[]]; simplify_eq; [|done..].
  by apply populate_limits_building.
Qed.

Lemma UpdateNode_wf now c node : cluster_wf c → node_update_ok c node →
  ∃ c' errs, update_node now c node = Some (c', errs) ∧ cluster_wf c'.
Proof.
  intros Hwf [Hname Hok]. unfold UpdateNode. destruct (_ && label_set NodePoolLabelKey node) eqn:Em; [by exists c, []|].
  set (node1 := if bool_decide (node_ProviderID node = EmptyString) then _ else node).
  assert (node_Name node1 = node_Name node ∧ node_ProviderID node1 = effective_id node) as [En Eid].
  { unfold node1, effective_id. by case_bool_decide. }
  clearbody node1.
  assert (effective_id node ≠ EmptyString) as Hid by (unfold effective_id; by case_bool_decide).
  destruct (_ && negb _); [by exists c, []|]. rewrite Eid. set (id := effective_id node) in *.
  unfold newStateFromNode. set (old := default NewNode (nodes c !! id)).
  destruct (matchRepairPolicies_total node1 old) as [ms ->]. cbn [mbind option_bind].
  set (n0 := mkStateNode (Some node1) (st_NodeClaim old) ∅ ∅ ∅ ∅ ∅ NewHostPortUsage NewVolumeUsage _ _ ms).
  destruct (populateResourceRequests _ _ _ _ _ api now c n0 (node_Name node1)) as [[c1 n1] e1] eqn:E1.
  destruct (populateVolumeLimits api n1 (node_Name node1)) as [n2 e2] eqn:E2.
  destruct (populated now c node1 n0 c1 n1 e1 n2 e2 E1 E2 Hwf) as (Hwf1 & ((Hs1 & Hs2 & _) & Hu2 & Hb2) & Hnm & Hsame); [|done|].
  { destruct NewNode_consistent. by split. }
  assert (nodes c1 !! id = nodes c !! id) as Hc1 by (apply Hsame; rewrite En; apply Hok).
  destruct (option_list e1 ++ option_list e2) as [|err errs]; [|cbn [mbind option_bind]; by eexists _, _].
  assert (∃ c2, match nodeNameToProviderID c1 !! node_Name node1 with
     | Some id' => if negb (bool_decide (id' = node_ProviderID node1)) then cleanupNode now c1 (node_Name node1) else Some c1
     | None => Some c1 end = Some c2 ∧ cluster_wf c2 ∧ nodes c2 !! id = nodes c !! id ∧ bindings c2 = bindings c1 ∧
     (nodeNameToProviderID c2 !! node_Name node1 = None ∨ nodeNameToProviderID c2 !! node_Name node1 = Some id))
    as (c2 & -> & Hwf2 & Hc2 & Hbs & Hfree).
  { destruct (nodeNameToProviderID c1 !! node_Name node1) as [id'|] eqn:Emap; [|exists c1; split_and!; [done..|by left]].
    rewrite Eid. destruct (bool_decide_reflect (id' = id)) as [E|E]; simpl; [exists c1; split_and!; [done..|right; congruence]|].
    destruct (cleanupNode_wf now c1 (node_Name node1) Hwf1) as (c2 & -> & Hwf2 & Hd & Hbs & Hk). exists c2. split_and!; [done..| |done|].
    - rewrite Hk; [done|congruence].
    - left. rewrite Hd. apply lookup_delete_eq. }
  cbn [mbind option_bind]. destruct (put_node_pools c2 id n2 Hwf2) as (pools & Eu & Hp). rewrite Hc2 in Eu. fold old in Eu. rewrite Eu.
  cbn [mbind option_bind]. destruct (trigger_same now old n2 (set_nodePoolResources c2 pools)) as (F1 & F2 & F3 & F4 & F5).
  eexists _, _. split; [done|]. unfold cluster_wf. simpl. rewrite F1, F2, F3, F4, F5. simpl.
  eapply put_node_wf; [exact Hwf2|done|exact Hs1|done|done| | |exact Hp].
  - rewrite Hc2, Hs2. subst old. destruct (nodes c !! id) as [o|] eqn:Eo; simpl; [|done]. split; [done|].
    intros node' Hnode'. rewrite En. by eapply Hok.
  - intros k Hk. rewrite Hbs. by apply Hb2.
Qed.

(** ** Every reachable state *)

(** The operations of the informers and controllers; a panic is no step. *)
Inductive cluster_step : Cluster → Cluster → Prop :=
| step_update_claim now c nc c' : claim_update_ok c nc → UpdateNodeClaim now c nc = Some c' → cluster_step c c'
| step_delete_claim now c name c' : DeleteNodeClaim now c name = Some c' → cluster_step c c'
| step_update_node now c node c' errs : node_update_ok c node → update_node now c node = Some (c', errs) → cluster_step c c'
| step_delete_node now c name c' : DeleteNode now c name = Some c' → cluster_step c c'
| step_update_pod now c pod : cluster_step c (update_pod now c pod).1
| step_delete_pod now c key : cluster_step c (DeletePod now c key)
| step_mark c ids c' : MarkForDeletion c ids = Some c' → cluster_step c c'
| step_unmark c ids c' : UnmarkForDeletion c ids = Some c' → cluster_step c c'
| step_nominate batch now c id : cluster_step c (NominateNodeForPod batch now c id).

Lemma cluster_step_wf c c' : cluster_step c c' → cluster_wf c → cluster_wf c'.
Proof.
  intros [] Hwf.
  - destruct (UpdateNodeClaim_wf now c0 nc Hwf H) as (c2 & E & ?). congruence.
  - destruct (cleanupNodeClaim_wf now c0 name Hwf) as (c2 & E & ? & _). unfold DeleteNodeClaim in H. congruence.
  - destruct (UpdateNode_wf now c0 node Hwf H) as (c2 & errs' & E & ?). congruence.
  - destruct (cleanupNode_wf now c0 name Hwf) as (c2 & E & ? & _). unfold DeleteNode in H. congruence.
  - by apply update_pod_wf.
  - by apply delete_pod_wf.
  - destruct (foldl_opt_wf mark_one ids c0 mark_one_wf Hwf) as (c2 & E & ?). unfold MarkForDeletion in H. congruence.
  - destruct (foldl_opt_wf unmark_one ids c0 unmark_one_wf Hwf) as (c2 & E & ?). unfold UnmarkForDeletion in H. congruence.
  - by apply Nominate_wf.
Qed.

Lemma NewCluster_wf : cluster_wf NewCluster.
Proof. split; try (intros *; simpl; by rewrite lookup_empty). done. Qed.

Lemma reachable_wf c : rtc cluster_step NewCluster c → cluster_wf c.
Proof.
  intros H. refine (rtc_ind_r cluster_wf _ _ _ _ H); [apply NewCluster_wf|]. intros x y _ Hs Hx. by eapply cluster_step_wf.
Qed.

(** Two NodeClaims with one provider id are more than the state can hold: once one of them is
    deleted while no Node has joined, deleting the other one dereferences the entry that is
    gone. *)
Theorem shared_provider_id_panics now c pid name1 name2 n c1 :
  nodeClaimNameToProviderID c !! name1 = Some pid → nodeClaimNameToProviderID c !! name2 = Some pid → name1 ≠ name2 →
  pid ≠ EmptyString → nodes c !! pid = Some n → st_Node n = None →
  DeleteNodeClaim now c name1 = Some c1 → DeleteNodeClaim now c1 name2 = None.
Proof.
  intros H1 H2 Hne Hid Hn Hnode. unfold DeleteNodeClaim, cleanupNodeClaim at 1. rewrite H1. cbn [default from_option id].
  rewrite bool_decide_eq_false_2, Hn by done. cbn [mbind option_bind]. rewrite Hnode.
  intros (c2 & (c3 & (c4 & Hu & [= <-])%bind_Some & [= <-])%bind_Some & [= <-])%bind_Some.
  assert (nodes c4 = nodes c ∧ nodeClaimNameToProviderID c4 = nodeClaimNameToProviderID c) as [E1 E2].
  { revert Hu. unfold updateNodePoolResources. intros ([on or] & _ & ([nn nr] & _ & (p1 & _ & (p2 & _ & [= <-])%bind_Some)%bind_Some)%bind_Some)%bind_Some.
    done. }
  unfold cleanupNodeClaim. cbn. rewrite E2, lookup_delete_ne, H2 by done. cbn. rewrite bool_decide_eq_false_2 by done.
  by rewrite E1, lookup_delete_eq.
Qed.

(** C26: in every state reached by informer events and controller calls, in whatever
    order, each operation runs without a nil dereference or a write to a nil map, as long as
    the objects are what the state is built for: no two NodeClaims and no two
    Nodes share a provider id, a provider id once set does not vanish, and Nodes have
    names.  Without this it does panic ([shared_provider_id_panics]). *)
Theorem cluster_never_panics now c name nc node ids : rtc cluster_step NewCluster c →
  is_Some (DeleteNodeClaim now c name) ∧ is_Some (DeleteNode now c name) ∧
  is_Some (MarkForDeletion c ids) ∧ is_Some (UnmarkForDeletion c ids) ∧
  (claim_update_ok c nc → is_Some (UpdateNodeClaim now c nc)) ∧
  (node_update_ok c node → is_Some (update_node now c node)).
Proof.
  intros Hwf%reachable_wf. split_and!.
  - destruct (cleanupNodeClaim_wf now c name Hwf) as (c2 & E & _). by eexists.
  - destruct (cleanupNode_wf now c name Hwf) as (c2 & E & _). by eexists.
  - destruct (foldl_opt_wf mark_one ids c mark_one_wf Hwf) as (c2 & E & _). by eexists.
  - destruct (foldl_opt_wf unmark_one ids c unmark_one_wf Hwf) as (c2 & E & _). by eexists.
  - intros Hok. destruct (UpdateNodeClaim_wf now c nc Hwf Hok) as (c2 & E & _). by eexists.
  - intros Hok. destruct (UpdateNode_wf now c node Hwf Hok) as (c2 & errs & E & _). by eexists.
Qed.

(** C27: the resources kept per NodePool, updated by differences as nodes come, change and
    go, always equal the sum over the NodePool's nodes that are not marked for
    deletion, each counting as one node. *)
Theorem pool_resources_recomputed c pool r : rtc cluster_step NewCluster c → pool ≠ EmptyString →
  qty (NodePoolResourcesFor c pool) r =
  map_sum (λ n, match st_Labels n, st_Capacity n with
    | Some labels, Some capacity =>
        if bool_decide (default EmptyString (labels !! NodePoolLabelKey) = pool) && negb (MarkedForDeletion n)
        then qty (<[ResourceNodes := unit_quantity]> capacity) r else 0%Z
    | _, _ => 0%Z end) (nodes c).
Proof.
  intros Hwf%reachable_wf Hne. unfold NodePoolResourcesFor. change (qty (default ∅ _) r) with (pool_qty (nodePoolResources c) pool r).
  rewrite (wf_pools _ _ _ _ _ Hwf) by done. apply map_sum_ext. intros id n Hn.
  destruct (wf_objects _ _ _ _ _ Hwf _ _ Hn) as (Ho & _ & _). unfold contribution, pool_resources.
  rewrite (proj2 (object_presentb_spec n)) by done.
  destruct (st_Labels n) as [l|]; simpl; [|done]. unfold st_Capacity. destruct (reported _ _ n) as [cap|]; simpl; [|done].
  destruct (MarkedForDeletion n); simpl.
  - rewrite decide_True, andb_false_r by done. by case_bool_decide.
  - rewrite decide_False by apply insert_non_empty. rewrite andb_true_r. done.
Qed.

(** A pod's requests are counted on at most one Node, the one it is bound to. *)
Theorem pod_counted_once c key id id' n n' node node' : rtc cluster_step NewCluster c →
  nodes c !! id = Some n → nodes c !! id' = Some n' → st_Node n = Some node → st_Node n' = Some node' →
  key ∈ dom (podRequests n) → key ∈ dom (podRequests n') → id = id' ∧ bindings c !! key = Some (node_Name node).
Proof.
  intros Hwf%reachable_wf Hn Hn' Hnode Hnode' Hk Hk'.
  pose proof (wf_bound _ _ _ _ _ Hwf _ _ _ _ Hn Hnode Hk) as H1.
  pose proof (wf_bound _ _ _ _ _ Hwf _ _ _ _ Hn' Hnode' Hk') as H2.
  split; [|done]. eapply node_names_inj; [exact Hwf|done..|]. congruence.
Qed.

(** The name of a launched NodeClaim, and of a Node, leads to its state node. *)
Theorem names_lead_to_nodes c : rtc cluster_step NewCluster c →
  (∀ name id, nodeClaimNameToProviderID c !! name = Some id → id ≠ EmptyString →
     ∃ n nc, nodes c !! id = Some n ∧ st_NodeClaim n = Some nc ∧ claim_Name nc = name) ∧
  (∀ name id, nodeNameToProviderID c !! name = Some id →
     ∃ n node, nodes c !! id = Some n ∧ st_Node n = Some node ∧ node_Name node = name) ∧
  (∀ id n, nodes c !! id = Some n → has_object n).
Proof.
  intros Hwf%reachable_wf. split_and!; [by eapply wf_claim_names|by eapply wf_node_names|]. intros id n Hn. by eapply wf_objects.
Qed.
End operations.

(** An update of a NodeClaim forgets the disruption costs of the pods of its node:
    the cost of the node falls to the base cost. *)
Theorem UpdateNodeClaim_forgets_costs now c nc c' n order : claim_ProviderID nc ≠ EmptyString →
  UpdateNodeClaim now c nc = Some c' → nodes c' !! claim_ProviderID nc = Some n →
  order ≡ₚ elements (dom (podDisruptionCosts n)) → DisruptionCost order n = DisruptionCost.PerNodeBaseDisruptionCost.
Proof.
  intros Hid H Hn Ho. unfold UpdateNodeClaim in H. rewrite bool_decide_false in H by done.
  destruct (newStateFromNodeClaim now c nc (nodes c !! claim_ProviderID nc)) as [[c1 n1]|] eqn:E; [|done].
  cbn [mbind option_bind] in H. injection H as <-. simpl in Hn. rewrite lookup_insert_eq in Hn. injection Hn as <-.
  assert (podDisruptionCosts n1 = ∅) as Ec; [|rewrite Ec, dom_empty_L, elements_empty in Ho; by apply Permutation_nil_r in Ho as ->].
  unfold newStateFromNodeClaim in E. destruct (match nodeClaimNameToProviderID c !! claim_Name nc with Some _ => _ | None => _ end) as [c2|]; [|done].
  cbn [mbind option_bind] in E. destruct (updateNodePoolResources c2 _ _) as [c3|]; [|done]. cbn [mbind option_bind] in E. by injection E as _ <-.
Qed.
