(* ===== verification/Scheduler.v ===== *)
(** * Scheduler: placing pods (pkg/controllers/provisioning/scheduling/scheduler.go)

    A pod is tried on the existing nodes, then on the node claims of this run, then
    on a new claim of each template.  The candidates of each stage are evaluated
    in parallel; by [Parallel] the outcome is that of a sequential scan, which is
    what is modelled.  NodePool limits, daemon overhead and the cache of pod data are
    part of the state. *)

From S2P Require Import Prelude Labels Requirement Objects Requirements Resources Taints HostPorts.
From S2P Require Import Volumes InstanceTypes Reservations PodState Preferences TopologyGroup Topology NodeClaims.
From S2P Require Import ExistingNodes SchedQueue.

(** ** NodePool limits *)

(** [cp.Sub(itResources[k])] for every limited resource [k]. *)
Definition subtractMax (remaining : ResourceList) (instanceTypes : list InstanceType) : ResourceList :=
  match instanceTypes with
  | [] => remaining
  | _ => let itResources := MaxResources (Capacity <$> instanceTypes) in
         map_imap (λ k v, Some (v - qty itResources k)%Z) remaining
  end.

Definition filterByRemainingResources (instanceTypes : list InstanceType) (remaining : ResourceList)
    : list InstanceType :=
  filter (λ it, map_forallb (λ resourceName remainingQuantity,
    negb (Cmp (qty (Capacity it) resourceName) remainingQuantity >? 0)%Z) remaining = true) instanceTypes.

(** The running maximum of one resource. *)
Definition max_step (k : string) (acc : option Z) (r : ResourceList) : option Z :=
  match r !! k with
  | Some q => Some (match acc with Some v => if (q >? v)%Z then q else v | None => q end)
  | None => acc
  end.

Lemma MaxResources_lookup l k : MaxResources l !! k = foldl (max_step k) None l.
Proof.
  unfold MaxResources. rewrite <-(lookup_empty k (A := Z) (M := gmap string)). generalize (∅ : ResourceList) as acc.
  induction l as [|r l IH]; intros acc; simpl; [done|]. rewrite IH. f_equal.
  rewrite (map_fold_update_lookup (λ _ quantity value, match value with
    | Some v => if (quantity >? v)%Z then Some quantity else Some v | None => Some quantity end)).
  unfold max_step. destruct (r !! k) as [q|]; [|done]. destruct (acc !! k); [|done]. by destruct (_ >? _)%Z.
Qed.

Lemma max_step_ge k l acc r q :
  (∃ m, acc = Some m ∧ (q ≤ m)%Z) ∨ (r ∈ l ∧ r !! k = Some q) →
  ∃ m, foldl (max_step k) acc l = Some m ∧ (q ≤ m)%Z.
Proof.
  revert acc. induction l as [|x l IH]; intros acc Hx; simpl.
  { destruct Hx as [?|[?%not_elem_of_nil _]]; done. }
  apply IH. unfold max_step. destruct Hx as [(m & -> & Hm)|[[->|Hx]%elem_of_cons Hq]]; [left|left|by right].
  - destruct (x !! k) as [qx|]; [|eauto]. eexists. split; [done|]. destruct (Z.gtb_spec qx m); lia.
  - rewrite Hq. eexists. split; [done|]. destruct acc as [v|]; [destruct (Z.gtb_spec q v)|]; lia.
Qed.

Lemma MaxResources_ge l r k q : r ∈ l → r !! k = Some q → ∃ m, MaxResources l !! k = Some m ∧ (q ≤ m)%Z.
Proof. intros. rewrite MaxResources_lookup. eapply max_step_ge; eauto. Qed.

(** The maximum is one of the quantities. *)
Lemma MaxResources_attained l k m : MaxResources l !! k = Some m → ∃ r, r ∈ l ∧ r !! k = Some m.
Proof.
  rewrite MaxResources_lookup. assert (∀ acc, foldl (max_step k) acc l = Some m → acc = Some m ∨ ∃ r, r ∈ l ∧ r !! k = Some m) as Hg.
  { induction l as [|x l IH]; intros acc; simpl; [by left|]. intros [Hx|(r & Hr & Hm)]%IH.
    - unfold max_step in Hx. destruct (x !! k) as [q|] eqn:Ex; [|by left]. injection Hx as Hx. destruct acc as [v|].
      + destruct (q >? v)%Z; subst; [right; exists x; split; [by left|done]|by left].
      + subst. right. exists x. split; [by left|done].
    - right. exists r. split; [by right|done]. }
  intros [?|?]%Hg; done.
Qed.

Definition capacity_wf (it : InstanceType) : Prop := ∀ k q, Capacity it !! k = Some q → (0 ≤ q)%Z.

(** Choosing, for each new claim of a pool, any of its instance types. *)
Inductive launches (limits : ResourceList) : ResourceList → list InstanceType → Prop :=
| launches_nil : launches limits limits []
| launches_claim remaining chosen options kept it :
    launches limits remaining chosen → Forall capacity_wf kept →
    (∀ x, x ∈ kept → x ∈ filterByRemainingResources options remaining) → it ∈ kept →
    launches limits (subtractMax remaining kept) (chosen ++ [it]).

Lemma filterByRemainingResources_spec options remaining it :
  it ∈ filterByRemainingResources options remaining ↔
  it ∈ options ∧ ∀ k q, remaining !! k = Some q → (qty (Capacity it) k ≤ q)%Z.
Proof.
  unfold filterByRemainingResources. rewrite list_elem_of_filter, map_forallb_spec.
  setoid_rewrite negb_true_iff. setoid_rewrite Cmp_gt. setoid_rewrite Z.ltb_ge. tauto.
Qed.

Lemma subtractMax_lookup remaining its k :
  its ≠ [] → subtractMax remaining its !! k =
    (λ v, (v - qty (MaxResources (Capacity <$> its)) k)%Z) <$> remaining !! k.
Proof. intros Hn. destruct its; [done|]. unfold subtractMax. rewrite map_lookup_imap. by destruct (remaining !! k). Qed.

Lemma max_bounds kept it k q :
  Forall capacity_wf kept → it ∈ kept → (∀ x, x ∈ kept → (qty (Capacity x) k ≤ q)%Z) → (0 ≤ q)%Z →
  (qty (Capacity it) k ≤ qty (MaxResources (Capacity <$> kept)) k ≤ q)%Z.
Proof.
  intros Hwf Hit Hle Hq. rewrite Forall_forall in Hwf. unfold qty at 2 3.
  destruct (MaxResources (Capacity <$> kept) !! k) as [m|] eqn:Em; simpl.
  - apply MaxResources_attained in Em as Hatt. destruct Hatt as (r & (x & -> & Hx)%list_elem_of_fmap & Hr).
    pose proof (Hle x Hx) as Hxq. unfold qty in Hxq. rewrite Hr in Hxq. simpl in Hxq. split; [|done].
    unfold qty. destruct (Capacity it !! k) as [c|] eqn:Ec; simpl; [|by eapply (Hwf x)].
    destruct (MaxResources_ge (Capacity <$> kept) (Capacity it) k c) as (m' & Hm' & ?); [by apply list_elem_of_fmap_2|done|].
    congruence.
  - split; [|done]. unfold qty. destruct (Capacity it !! k) as [c|] eqn:Ec; simpl; [|done].
    destruct (MaxResources_ge (Capacity <$> kept) (Capacity it) k c) as (m' & Hm' & ?); [by apply list_elem_of_fmap_2|done|].
    congruence.
Qed.

(** NodePool limits hold for a whole scheduling run: with instance types filtered
    by what remains and the largest option subtracted for every new claim, the
    capacity launched never exceeds a limit, whichever of its options each claim
    ends up with. *)
Theorem limits_respected limits remaining chosen k limit :
  launches limits remaining chosen → limits !! k = Some limit → (0 ≤ limit)%Z →
  (sumZ ((λ it, qty (Capacity it) k) <$> chosen) ≤ limit)%Z.
Proof.
  intros Hl Hk Hlim.
  assert (∃ q, remaining !! k = Some q ∧ (0 ≤ q)%Z ∧ (sumZ ((λ it, qty (Capacity it) k) <$> chosen) + q ≤ limit)%Z)
    as (q & _ & ? & ?); [|lia].
  induction Hl as [|remaining chosen options kept it Hl IH Hwf Hkept Hit].
  { exists limit. simpl. split_and!; [done|done|lia]. }
  destruct IH as (q & Hq & Hq0 & Hsum).
  rewrite subtractMax_lookup, Hq by (intros ->; by apply not_elem_of_nil in Hit). simpl. eexists. split; [done|].
  destruct (max_bounds kept it k q Hwf Hit) as [Hm Hmq].
  { intros x Hx. apply Hkept, filterByRemainingResources_spec in Hx as [_ Hx]. by apply Hx. }
  { done. }
  rewrite fmap_app, sumZ_app. csimpl. lia.
Qed.

(** The node limit of a pool is only reduced by instance types that list "nodes"
    in their capacity: the claims created in one run do not count against it, although
    the code says each of them consumes one node. *)
Theorem node_limit_not_reduced remaining its :
  (∀ it, it ∈ its → Capacity it !! ResourceNodes = None) →
  subtractMax remaining its !! ResourceNodes = remaining !! ResourceNodes.
Proof.
  intros Hn. destruct its as [|it its]; [done|]. rewrite subtractMax_lookup by done.
  unfold qty. destruct (MaxResources (Capacity <$> it :: its) !! ResourceNodes) as [m|] eqn:Em.
  - apply MaxResources_attained in Em as (r & (x & -> & Hx)%list_elem_of_fmap & Hr). by rewrite Hn in Hr.
  - simpl. destruct (remaining !! ResourceNodes); simpl; [|done]. f_equal. lia.
Qed.

(** ** Daemon overhead

    The daemon pods are shared: the relaxations [isDaemonPodCompatible] makes stay
    on the pod for the instance types and templates that are looked at later.  The
    functions return the changed pods. *)

Section daemons.
  Context `{LR : LabelRegistry} `{TA : TaintApi} `{TL : TolerationApi} `{SE : SchedulerEnv}.
  (** [resourcehelper.PodRequests], or the prediction store. *)
  Context (PodRequests : Pod → ResourceList) (IgnoreDRARequests : bool).

(** Relax required node affinity terms until one is compatible; [None] is a panic. *)
Fixpoint daemon_compatible_loop (fuel : nat) (nct : NodeClaimTemplate) (it : InstanceType) (pod : Pod)
    : option (bool * Pod) :=
  podRequirements ← NewStrictPodRequirements pod;
  if IsCompatible (nct_Requirements nct) podRequirements WellKnownLabels &&
     match Intersects (it_Requirements it) podRequirements with [] => true | _ => false end
  then Some (true, pod)
  else match removeRequiredNodeAffinityTerm pod with
       | None => Some (false, pod)
       | Some (_, pod) => match fuel with
                          | 0 => Some (false, pod)
                          | S fuel => daemon_compatible_loop fuel nct it pod
                          end
       end.

Definition isDaemonPodCompatible (nct : NodeClaimTemplate) (it : InstanceType) (pod : Pod) : option (bool * Pod) :=
  let pod := match toleratePreferNoScheduleTaints pod with Some (_, p) => p | None => pod end in
  match ToleratesPod (nct_Taints nct) pod with
  | _ :: _ => Some (false, pod)
  | [] => daemon_compatible_loop (length (required_terms pod)) nct it pod
  end.

(** [lo.Filter] over the shared pods: the compatible ones, and all of them as changed. *)
Fixpoint compatible_daemons (nct : NodeClaimTemplate) (it : InstanceType) (pods : list Pod)
    : option (list Pod * list Pod) :=
  match pods with
  | [] => Some ([], [])
  | p :: rest =>
      checked ← (if HasDRARequirements p && IgnoreDRARequests then Some (false, p)
                 else isDaemonPodCompatible nct it p);
      others ← compatible_daemons nct it rest;
      Some (if checked.1 : bool then checked.2 :: others.1 else others.1, checked.2 :: others.2)
  end.

Definition podSetKey (pods : list Pod) : string :=
  Join (merge_sort String.le ((λ p, pod_Namespace p +:+ "/" +:+ pod_Name p) <$> pods)) ",".

Definition add_to_daemon_group (groups : gmap string DaemonOverheadGroup) (it : InstanceType) (daemons : list Pod)
    : gmap string DaemonOverheadGroup :=
  let key := podSetKey daemons in
  match groups !! key with
  | Some g => <[key := mkDaemonOverheadGroup (dog_InstanceTypes g ++ [it]) (DaemonOverhead g) (dog_HostPortUsage g)]> groups
  | None =>
      let overhead := match daemons with [] => ∅ | _ => RequestsForPods PodRequests daemons end in
      let usage := foldl (λ u p, HostPortUsage_Add u (pod_key p) (GetHostPorts ParseIP p)) NewHostPortUsage daemons in
      <[key := mkDaemonOverheadGroup [it] overhead usage]> groups
  end.

(** The groups of one template, and the daemon pods as they are afterwards. *)
Definition template_daemon_groups (nct : NodeClaimTemplate) (pods : list Pod)
    : option (list DaemonOverheadGroup * list Pod) :=
  st ← foldl_opt (λ (st : gmap string DaemonOverheadGroup * list Pod) it,
         r ← compatible_daemons nct it st.2;
         Some (add_to_daemon_group st.1 it r.1, r.2)) (∅, pods) (nct_InstanceTypeOptions nct);
  Some ((map_to_list st.1).*2, st.2).

Definition buildDaemonOverheadGroups (templates : list NodeClaimTemplate) (pods : list Pod)
    : option (list (list DaemonOverheadGroup) * list Pod) :=
  foldl_opt (λ (st : list (list DaemonOverheadGroup) * list Pod) nct,
    r ← template_daemon_groups nct st.2;
    Some (st.1 ++ [r.1], r.2)) ([], pods) templates.

Lemma daemon_loop_S fuel nct it pod :
  daemon_compatible_loop (S fuel) nct it pod =
  (podRequirements ← NewStrictPodRequirements pod;
   if IsCompatible (nct_Requirements nct) podRequirements WellKnownLabels &&
      match Intersects (it_Requirements it) podRequirements with [] => true | _ => false end
   then Some (true, pod)
   else match removeRequiredNodeAffinityTerm pod with
        | None => Some (false, pod)
        | Some (_, pod) => daemon_compatible_loop fuel nct it pod
        end).
Proof. done. Qed.

(** The relaxation loop stops by itself: the fuel suffices. *)
Lemma daemon_loop_fuel fuel nct it pod :
  length (required_terms pod) ≤ fuel →
  daemon_compatible_loop (S fuel) nct it pod = daemon_compatible_loop fuel nct it pod.
Proof.
  revert pod. induction fuel as [|fuel IH]; intros pod Hf.
  - simpl. destruct (NewStrictPodRequirements pod) as [r|]; simpl; [|done].
    destruct (_ && _); [done|]. destruct (removeRequiredNodeAffinityTerm pod) as [[x p']|] eqn:Er; [|done].
    apply removeRequiredNodeAffinityTerm_shrinks in Er as [? _]. lia.
  - rewrite (daemon_loop_S (S fuel)), (daemon_loop_S fuel nct it pod).
    destruct (NewStrictPodRequirements pod) as [r|]; [|done]. cbn [mbind option_bind].
    destruct (_ && _); [done|]. destruct (removeRequiredNodeAffinityTerm pod) as [[x p']|] eqn:Er; [|done].
    apply IH. apply removeRequiredNodeAffinityTerm_shrinks in Er as [? _]. lia.
Qed.
End daemons.

(** A daemon that may run in zone a or in zone b, and templates for one zone each. *)
Definition zone_term (zone : string) : list CoreNodeSelectorRequirement :=
  [mkCoreNSR LabelTopologyZone OpIn [zone]].

Definition two_zone_daemon : Pod :=
  with_affinity (plain_pod "daemon")
    (mkAffinity (Some (mkNodeAffinity (Some [zone_term "zone-a"; zone_term "zone-b"]) [])) None None).

Definition zone_template (zone : string) : NodeClaimTemplate :=
  let _ := default_registry in
  mkNodeClaimTemplate zone [] (NewLabelRequirements {[LabelTopologyZone := zone]}) [].

Definition plain_instance_type : InstanceType :=
  mkInstanceType "small" ∅ [] ∅ ∅ (mkOverhead ∅ ∅ ∅) false.

(** The relaxations made while grouping daemons leak.  A daemon that may run in
    zone a or zone b is compatible with a template for zone a; but once a template
    for zone b has been looked at, the shared pod has lost its zone a alternative and
    the same template is reported incompatible, so the overhead of the daemon is
    left out there. *)
Theorem daemon_relaxation_leaks :
  let _ := default_registry in
  let _ := simple_taint_api in
  let compatible zone pod := isDaemonPodCompatible (zone_template zone) plain_instance_type pod in
  fst <$> compatible "zone-a" two_zone_daemon = Some true ∧
  (r ← compatible "zone-b" two_zone_daemon; fst <$> compatible "zone-a" r.2) = Some false.
Proof. split; vm_compute; reflexivity. Qed.

(** ** The scheduler *)

Record SchedulerConfig := mkConfig {
  nodeClaimTemplates : list NodeClaimTemplate;
  template_groups : list (list DaemonOverheadGroup);
  c_preferences : Preferences;
  c_preferencePolicy : PreferencePolicy;
  c_minValuesPolicy : MinValuesPolicy;
  c_reservedOfferingMode : ReservedOfferingMode;
  c_creditReservationCapacity : gmap string Z;
  c_IgnoreDRARequests : bool;
  deletingNodeNames : gset string;
  volumeReqsByPod : gmap string (list Requirements);
}.

Record Scheduler := mkScheduler {
  newNodeClaims : list NodeClaim;
  existingNodes : list ExistingNode;
  pool_remaining : gmap string ResourceList;
  cachedPodData : gmap string PodData;
  topology : Topology;
  reservationManager : ReservationManager;
  nodeID : Z;
  template_annotations : gmap nat (gmap string string);
}.

(** Why a template was not used. *)
Inductive template_error (E : Type) :=
| NodeLimitExhausted
| ExceedLimits
| CannotAdd (e : add_error E).
Arguments NodeLimitExhausted {E}.
Arguments ExceedLimits {E}.
Arguments CannotAdd {E} e.

Inductive schedule_error (E : Type) :=
| ContextError (deadline : bool)
| DRAError
| ClaimResolutionError
| VolumesError (e : api_error)
| NoTemplates
| TemplateErrors (errs : list (template_error E)).
Arguments ContextError {E} deadline.
Arguments DRAError {E}.
Arguments ClaimResolutionError {E}.
Arguments VolumesError {E} e.
Arguments NoTemplates {E}.
Arguments TemplateErrors {E} errs.

Definition is_reserved_error {E} (e : template_error E) : bool :=
  match e with CannotAdd e => IsReservedOfferingError e | _ => false end.

(** [errors.As] looks through the combined errors. *)
Definition schedule_IsReservedOfferingError {E} (e : schedule_error E) : bool :=
  match e with TemplateErrors errs => existsb is_reserved_error errs | _ => false end.

Definition schedule_IsDRAError {E} (e : schedule_error E) : bool := match e with DRAError => true | _ => false end.
Definition schedule_IsDeadlineExceeded {E} (e : schedule_error E) : bool :=
  match e with ContextError d => d | _ => false end.

(** The first candidate the test accepts: the outcome of [parallelizeUntil]. *)
Fixpoint first_success {A B} (test : nat → A → option B) (i : nat) (l : list A) : option (nat * B) :=
  match l with
  | [] => None
  | x :: rest => match test i x with
                 | Some b => Some (i, b)
                 | None => first_success test (S i) rest
                 end
  end.

Section scheduler.
  Context `{LR : LabelRegistry} `{TA : TaintApi} `{TL : TolerationApi} `{SA : SelectorApi} `{IO : IterationOrder}
          `{SE : SchedulerEnv} `{HA : HashApi}.
  Context {E : Type} `{KR : KubeReader E}.
  Context (config : SchedulerConfig) (ReservedCapacity : bool).
  Context (allocator : option (string → Requirements → list string → option AllocationResult)).
  Context (stateNodes : list StateNodeView).
  (** Requests of a pod (its own, or the predicted ones), the volumes it mounts, and the
      resolution of its resource claims. *)
  Context (requests_of : Pod → ResourceList) (GetVolumes_of : Pod → result api_error Volumes)
          (resolvePodClaims : Pod → option (list string)).

Definition pod_data (s : Scheduler) (p : Pod) : PodData :=
  default (mkPodData ∅ ∅ ∅ false [] [] false) (cachedPodData s !! pod_UID p).

Definition updateCachedPodData (s : Scheduler) (p : Pod) : option Scheduler :=
  requirements ← (if bool_decide (c_preferencePolicy config = PreferencePolicyIgnore)
                  then NewStrictPodRequirements p else NewPodRequirements p);
  strict ← (if HasPreferredNodeAffinity (Some p) then NewStrictPodRequirements p else Some requirements);
  let hasClaims := HasDRARequirements p in
  let '(claims, claimErr) :=
    if hasClaims && bool_decide (is_Some allocator)
    then match resolvePodClaims p with Some cs => (cs, false) | None => ([], true) end else ([], false) in
  Some (mkScheduler (newNodeClaims s) (existingNodes s) (pool_remaining s)
    (<[pod_UID p := mkPodData (requests_of p) requirements strict hasClaims
                      (default [] (volumeReqsByPod config !! pod_UID p)) claims claimErr]> (cachedPodData s))
    (topology s) (reservationManager s) (nodeID s) (template_annotations s)).

(** Pods of candidate nodes are not moved to nodes that wait to be consolidated. *)
Definition skips_node (p : Pod) (n : ExistingNode) : bool :=
  isUnderConsolidateAfter n &&
  (negb (IsPending p) && negb (bool_decide (pod_NodeName p ∈ deletingNodeNames config))).

Definition addToExistingNode (s : Scheduler) (p : Pod) (vols : Volumes) : option Scheduler :=
  found ← first_success (λ _ n,
    if skips_node p n then None
    else match ExistingNode_CanAdd (E := E) allocator (topology s) n p (pod_data s p) vols with
         | Ok r => Some (n, r.1)
         | Err _ => None
         end) 0 (existingNodes s);
  let '(i, (n, reqs)) := found in
  let '(t, n) := ExistingNode_Add (topology s) n p (pod_data s p) reqs vols in
  Some (mkScheduler (newNodeClaims s) (<[i := n]> (existingNodes s)) (pool_remaining s) (cachedPodData s) t
          (reservationManager s) (nodeID s) (template_annotations s)).

(** [Some None] is a panic, of [CanAdd] or of [Add]. *)
Definition addToInflightNode (s : Scheduler) (p : Pod) (vols : Volumes) : option (option Scheduler) :=
  match first_success (λ _ n,
          match NodeClaim_CanAdd (E := E) ReservedCapacity allocator (topology s) (reservationManager s) n p
                  (pod_data s p) vols false with
          | Ok a => Some (Some (n, a))
          | Err ReservationPanic => Some None
          | Err _ => None
          end) 0 (newNodeClaims s) with
  | None => None
  | Some (_, None) => Some None
  | Some (i, Some (n, a)) =>
      Some (r ← NodeClaim_Add (topology s) (reservationManager s) n p (pod_data s p) vols a;
            let '(t, rm, n) := r in
            Some (mkScheduler (<[i := n]> (newNodeClaims s)) (existingNodes s) (pool_remaining s) (cachedPodData s) t
                    rm (nodeID s) (template_annotations s)))
  end.

(** The instance types of a template within the limits of its pool. *)
Definition limited_types (s : Scheduler) (nct : NodeClaimTemplate) : result (template_error E) (list InstanceType) :=
  match pool_remaining s !! nct_NodePoolName nct with
  | None => Ok (nct_InstanceTypeOptions nct)
  | Some remaining =>
      if match remaining !! ResourceNodes with Some q => IsZero q | None => false end
      then Err NodeLimitExhausted
      else match filterByRemainingResources (nct_InstanceTypeOptions nct) remaining with
           | [] => Err ExceedLimits
           | its => Ok its
           end
  end.

Definition try_template (s : Scheduler) (p : Pod) (vols : Volumes) (i : nat) (nct : NodeClaimTemplate)
    : result (template_error E) (NodeClaim * addition) :=
  its ← limited_types s nct;
  let n := NewNodeClaim i nct (nodeID s + 1 + Z.of_nat i) (default [] (template_groups config !! i)) its
             (c_reservedOfferingMode config) (c_creditReservationCapacity config) in
  match NodeClaim_CanAdd (E := E) ReservedCapacity allocator (topology s) (reservationManager s) n p (pod_data s p) vols
          (bool_decide (c_minValuesPolicy config = MinValuesPolicyBestEffort)) with
  | Ok a => Ok (n, a)
  | Err e => Err (CannotAdd e)
  end.

Definition is_panic (e : template_error E) : bool := match e with CannotAdd ReservationPanic => true | _ => false end.

(** Decisive for the search: the pod fits, or must wait for reserved capacity, or the
    evaluation panics. *)
Definition template_decides (s : Scheduler) (p : Pod) (vols : Volumes) (i : nat) (nct : NodeClaimTemplate)
    : option (result (template_error E) (NodeClaim * addition)) :=
  match try_template s p vols i nct with
  | Ok r => Some (Ok r)
  | Err e => if is_reserved_error e || is_panic e then Some (Err e) else None
  end.

(** The errors of the templates up to the decisive one. *)
Definition template_errors (s : Scheduler) (p : Pod) (vols : Volumes) (count : nat) : list (template_error E) :=
  omap (λ '(i, nct), match try_template s p vols i nct with Err e => Some e | Ok _ => None end)
    (take count (imap (λ i nct, (i, nct)) (nodeClaimTemplates config))).

Definition NodeClaimMinValuesRelaxedAnnotationKey : string := Group +:+ "/nodeclaim-min-values-relaxed".

Definition minValuesRelaxed (original updated : Requirements) : bool :=
  set_existsb (λ k, match minValues (Get original k), minValues (Get updated k) with
                    | Some o, Some u => (u <? o)%Z
                    | _, _ => false
                    end) (Keys original).

(** [Ok None] is a panic. *)
Definition addToNewNodeClaim (s : Scheduler) (p : Pod) (vols : Volumes)
    : result (schedule_error E) (option Scheduler) :=
  match first_success (template_decides s p vols) 0 (nodeClaimTemplates config) with
  | None => Err (TemplateErrors (template_errors s p vols (length (nodeClaimTemplates config))))
  | Some (i, Err e) => if is_panic e then Ok None else Err (TemplateErrors (template_errors s p vols (S i)))
  | Some (i, Ok (n, a)) =>
      let relaxed := if minValuesRelaxed (nc_Requirements n) (updatedRequirements a) then "true" else "false" in
      let annotations := <[i := <[NodeClaimMinValuesRelaxedAnnotationKey := relaxed]>
                                  (default ∅ (template_annotations s !! i))]> (template_annotations s) in
      Ok (r ← NodeClaim_Add (topology s) (reservationManager s) n p (pod_data s p) vols a;
          let '(t, rm, n) := r in
          Some (mkScheduler (newNodeClaims s ++ [n]) (existingNodes s)
                  (<[NodePoolName n := subtractMax (default ∅ (pool_remaining s !! NodePoolName n)) (InstanceTypeOptions n)]>
                     (pool_remaining s))
                  (cachedPodData s) t rm (nodeID s + Z.of_nat (length (nodeClaimTemplates config))) annotations))
  end.

Definition by_pod_count (a b : NodeClaim) : bool := (length (nc_Pods a) <? length (nc_Pods b))%nat.

Definition with_sorted_claims (s : Scheduler) : Scheduler :=
  mkScheduler (sort_by by_pod_count (newNodeClaims s)) (existingNodes s) (pool_remaining s) (cachedPodData s)
    (topology s) (reservationManager s) (nodeID s) (template_annotations s).

(** [None] in the first component is a panic. *)
Definition add (s : Scheduler) (p : Pod) : option Scheduler * option (schedule_error E) :=
  let data := pod_data s p in
  if HasResourceClaimRequests data && c_IgnoreDRARequests config then (Some s, Some DRAError)
  else if ResourceClaimErr data then (Some s, Some ClaimResolutionError)
  else match GetVolumes_of p with
       | Err e => (Some s, Some (VolumesError e))
       | Ok vols =>
           match addToExistingNode s p vols with
           | Some s => (Some s, None)
           | None =>
               let s := with_sorted_claims s in
               match addToInflightNode s p vols with
               | Some r => (r, None)
               | None =>
                   match nodeClaimTemplates config with
                   | [] => (Some s, Some NoTemplates)
                   | _ => match addToNewNodeClaim s p vols with
                          | Ok r => (r, None)
                          | Err e => (Some s, Some e)
                          end
                   end
               end
           end
       end.

End scheduler.
