(* ===== verification/SchedulerSetup.v ===== *)
(** * SchedulerSetup: building a scheduler
    ([NewScheduler] and [calculateExistingNodeClaims] of
    pkg/controllers/provisioning/scheduling/scheduler.go, [instanceTypeForNode] of
    dra.go and [IsUnderConsolidateAfter] of pkg/utils/disruption/disruption.go)

    NodePools become templates with the instance types that can serve them, the
    nodes of the cluster become existing nodes, and what those nodes use is taken off
    the limits of their pools. *)

From S2P Require Import Prelude Labels Requirement Objects Requirements Resources Taints HostPorts.
From S2P Require Import Volumes InstanceTypes Reservations PodState Preferences TopologyGroup Topology NodeClaims.
From S2P Require Import Templates ExistingNodes SchedQueue Scheduler.

Definition IsUnderConsolidateAfter (np : option NodePool) (claim : option v1NodeClaim) (now : Z) : bool :=
  match np ≫= np_ConsolidateAfter, claim with
  | Some after, Some nodeClaim =>
      if (after =? 0)%Z then false
      else if negb (condition_true ConditionTypeInitialized (claim_Conditions nodeClaim)) then false
      else match get_condition ConditionTypeInitialized (claim_Conditions nodeClaim) with
           | None => false
           | Some initialized =>
               let timeToCheck := default (cond_LastTransitionTime initialized) (claim_LastPodEventTime nodeClaim) in
               (time_Sub now timeToCheck <? after)%Z
           end
  | _, _ => false
  end.

(** Initialized nodes first, then by name. *)
Definition node_before (a b : ExistingNode) : bool :=
  if en_Initialized a && negb (en_Initialized b) then true
  else if negb (en_Initialized a) && en_Initialized b then false
  else String.ltb (en_Name a) (en_Name b).

Definition sortExistingNodes (nodes : list ExistingNode) : list ExistingNode := sort_by node_before nodes.

Definition instanceTypeForNode (instanceTypes : gmap string (list InstanceType)) (n : StateNodeSnapshot) : option InstanceType :=
  let itName := default EmptyString (s_Labels n !! LabelInstanceTypeStable) in
  let nodePoolName := default EmptyString (s_Labels n !! NodePoolLabelKey) in
  if bool_decide (itName = EmptyString) || bool_decide (nodePoolName = EmptyString) then None
  else List.find (λ it, bool_decide (it_Name it = itName)) (default [] (instanceTypes !! nodePoolName)).

Definition updateRemainingResources (remaining : gmap string ResourceList) (n : StateNodeSnapshot) : gmap string ResourceList :=
  let pool := default EmptyString (s_Labels n !! NodePoolLabelKey) in
  match remaining !! pool with
  | Some r => <[pool := Subtract r (s_Capacity n)]> remaining
  | None => remaining
  end.

Lemma node_before_asym x y : node_before x y = true → node_before y x = false.
Proof.
  unfold node_before. destruct (en_Initialized x), (en_Initialized y); simpl; try done; unfold String.ltb;
    rewrite (String.compare_antisym (en_Name x) (en_Name y)); by destruct (String.compare (en_Name y) (en_Name x)).
Qed.

Lemma node_before_trans x y z :
  not_after node_before x y → not_after node_before y z → not_after node_before x z.
Proof.
  unfold not_after, node_before. destruct (en_Initialized x), (en_Initialized y), (en_Initialized z); simpl; try done;
    rewrite !ltb_false_le; intros; by etrans.
Qed.

Section setup.
  Context `{LR : LabelRegistry} `{TA : TaintApi} `{TL : TolerationApi} `{SA : SelectorApi} `{IO : IterationOrder}
          `{SE : SchedulerEnv}.
  Context (nodePool_Hash : NodePool → string) (ToLower : string → string).
  (** The requests of a pod, and those of a daemon for new nodes (which may be predicted). *)
  Context (PodRequests DaemonRequests : Pod → ResourceList) (IgnoreDRARequests : bool) (now : Z).

(** [None] is a panic while reading the pod's requirements. *)
Definition isDaemonPodCompatibleWithNode (p : Pod) (taints : list Taint) (nodeLabels : gmap string string) : option bool :=
  match ToleratesPod taints p with
  | _ :: _ => Some false
  | [] => reqs ← NewStrictPodRequirements p;
          Some (match Compatible (NewLabelRequirements nodeLabels) reqs ∅ with [] => true | _ => false end)
  end.

Definition shouldSkipDaemonPod (p : Pod) : bool := HasDRARequirements p && IgnoreDRARequests.

Definition getCompatibleDaemonPods (n : StateNodeSnapshot) (taints : list Taint) (daemonSetPods : list Pod) : option (list Pod) :=
  foldl_opt (λ daemons p,
    if shouldSkipDaemonPod p then Some daemons
    else ok ← isDaemonPodCompatibleWithNode p taints (s_Labels n);
         Some (if ok : bool then daemons ++ [p] else daemons)) [] daemonSetPods.

(** One state node: the existing node is appended, its domain registered, and its
    capacity taken off the pool's limits. *)
Definition add_existing_node (instanceTypes : gmap string (list InstanceType)) (daemonSetPods : list Pod)
    (nodePoolOf : string → option NodePool) (enforceConsolidateAfter : bool)
    (st : list ExistingNode * Topology * gmap string ResourceList) (n : StateNodeSnapshot)
    : option (list ExistingNode * Topology * gmap string ResourceList) :=
  let '(nodes, t, remaining) := st in
  daemons ← getCompatibleDaemonPods n (s_Taints n) daemonSetPods;
  let under := enforceConsolidateAfter && IsUnderConsolidateAfter (nodePoolOf (s_Name n)) (s_NodeClaim n) now in
  let '(en, t) := NewExistingNode n t (s_Taints n) (RequestsForPods PodRequests daemons)
                    (instanceTypeForNode instanceTypes n) under in
  Some (nodes ++ [en], t, updateRemainingResources remaining n).

Definition calculateExistingNodeClaims (instanceTypes : gmap string (list InstanceType)) (daemonSetPods : list Pod)
    (nodePoolOf : string → option NodePool) (enforceConsolidateAfter : bool) (stateNodes : list StateNodeSnapshot)
    (t : Topology) (remaining : gmap string ResourceList)
    : option (list ExistingNode * Topology * gmap string ResourceList) :=
  st ← foldl_opt (add_existing_node instanceTypes daemonSetPods nodePoolOf enforceConsolidateAfter)
         ([], t, remaining) stateNodes;
  let '(nodes, t, remaining) := st in
  Some (sortExistingNodes nodes, t, remaining).

(** A map from a slice: the last entry of a key wins. *)
Definition slice_to_map {A V} (f : A → string * V) (l : list A) : gmap string V :=
  foldl (λ m x, <[(f x).1 := (f x).2]> m) ∅ l.

(** The templates whose requirements leave some instance type. *)
Definition prefilter_template (instanceTypes : gmap string (list InstanceType)) (policy : MinValuesPolicy) (np : NodePool)
    : option (list (NodeClaimTemplate * TemplateMeta)) :=
  made ← NewNodeClaimTemplate nodePool_Hash ToLower np;
  let '(nct, meta) := made in
  let its := default [] (instanceTypes !! np_Name (np_template np)) in
  Some match (filterInstanceTypesByRequirements its (nct_Requirements nct) (plain_pod EmptyString) ∅
                [mkDaemonOverheadGroup its ∅ NewHostPortUsage] ∅
                (bool_decide (policy = MinValuesPolicyBestEffort))).1 with
       | Ok kept => [(mkNodeClaimTemplate (nct_NodePoolName nct) (nct_Taints nct) (nct_Requirements nct) kept, meta)]
       | Err _ => []
       end.

Record SchedulerOptions := mkSchedulerOptions {
  o_reservedOfferingMode : ReservedOfferingMode;
  o_preferencePolicy : PreferencePolicy;
  o_minValuesPolicy : MinValuesPolicy;
  o_enforceConsolidateAfter : bool;
  o_creditReservationCapacity : gmap string Z;
}.

Definition NewScheduler (nodePools : list NodePool) (stateNodes : list StateNodeSnapshot) (markedForDeletion : gset string)
    (t : Topology) (instanceTypes : gmap string (list InstanceType)) (daemonSetPods : list Pod)
    (volumeReqs : gmap string (list Requirements)) (resolved : SchedulerOptions)
    : option (SchedulerConfig * list TemplateMeta * Scheduler) :=
  seeded ← NewReservationManager ReservationIDLabel draw instanceTypes;
  let reservationManager := map_fold (λ id count rm, Credit rm id count) seeded (o_creditReservationCapacity resolved) in
  let tolerate := existsb (λ np, existsb (λ taint,
    bool_decide (taint_Effect taint = PreferNoSchedule)) (np_Taints (np_template np))) nodePools in
  made ← mapM (prefilter_template instanceTypes (o_minValuesPolicy resolved)) nodePools;
  let templates := (concat made).*1 in
  groups ← buildDaemonOverheadGroups DaemonRequests IgnoreDRARequests templates daemonSetPods;
  let '(groups, daemonSetPods) := groups in
  let npByName := slice_to_map (λ np, (np_Name (np_template np), np)) nodePools in
  let nodeToNodePool := slice_to_map (λ n, (s_Name n, npByName !! default EmptyString (s_Labels n !! NodePoolLabelKey))) stateNodes in
  existing ← calculateExistingNodeClaims instanceTypes daemonSetPods (λ name, mjoin (nodeToNodePool !! name))
    (o_enforceConsolidateAfter resolved) stateNodes t
    (slice_to_map (λ np, (np_Name (np_template np), np_Limits np)) nodePools);
  let '(nodes, t, remaining) := existing in
  Some (mkConfig templates groups (mkPreferences tolerate) (o_preferencePolicy resolved) (o_minValuesPolicy resolved)
          (o_reservedOfferingMode resolved) (o_creditReservationCapacity resolved) IgnoreDRARequests
          markedForDeletion volumeReqs,
        (concat made).*2,
        mkScheduler [] nodes remaining ∅ t reservationManager 0
          (map_seq 0 (tm_Annotations <$> (concat made).*2))).

(** ** What the setup establishes *)

Definition pool_of_node (n : StateNodeSnapshot) : string := default EmptyString (s_Labels n !! NodePoolLabelKey).

(** The capacity the nodes of a pool have of a resource. *)
Definition pool_capacity (stateNodes : list StateNodeSnapshot) (pool k : string) : Z :=
  sumZ ((λ n, qty (s_Capacity n) k) <$> filter (λ n, pool_of_node n = pool) stateNodes).

Lemma updateRemainingResources_spec remaining n pool k :
  (updateRemainingResources remaining n !! pool) ≫= (.!! k) =
  (λ q, (q - pool_capacity [n] pool k)%Z) <$> (remaining !! pool ≫= (.!! k)).
Proof.
  unfold updateRemainingResources, pool_capacity. fold (pool_of_node n). rewrite filter_cons, filter_nil.
  destruct (remaining !! pool_of_node n) as [r|] eqn:Er.
  - destruct (decide (pool_of_node n = pool)) as [<-|Hne].
    + rewrite lookup_insert_eq, Er. simpl. rewrite Subtract_lookup. destruct (r !! k); simpl; [|done]. f_equal. csimpl. lia.
    + rewrite lookup_insert_ne by done. destruct (remaining !! pool ≫= _); simpl; [|done]. f_equal. csimpl. lia.
  - destruct (decide (pool_of_node n = pool)) as [<-|Hne]; [by rewrite Er|].
    destruct (remaining !! pool ≫= _); simpl; [|done]. f_equal. csimpl. lia.
Qed.

Lemma pool_capacity_app l l' pool k : pool_capacity (l ++ l') pool k = (pool_capacity l pool k + pool_capacity l' pool k)%Z.
Proof. unfold pool_capacity. by rewrite filter_app, fmap_app, sumZ_app. Qed.

Lemma existing_nodes_fold its daemons poolOf enforce stateNodes nodes0 t0 r0 nodes t r :
  foldl_opt (add_existing_node its daemons poolOf enforce) (nodes0, t0, r0) stateNodes = Some (nodes, t, r) →
  en_Name <$> nodes = (en_Name <$> nodes0) ++ (s_Name <$> stateNodes) ∧
  ∀ pool k, (r !! pool) ≫= (.!! k) = (λ q, (q - pool_capacity stateNodes pool k)%Z) <$> (r0 !! pool ≫= (.!! k)).
Proof.
  revert nodes0 t0 r0. induction stateNodes as [|n l IH]; intros nodes0 t0 r0; simpl.
  { intros [= <- <- <-]. split; [by rewrite app_nil_r|]. intros pool k. unfold pool_capacity.
    destruct (r0 !! pool ≫= _); simpl; [|done]. f_equal. lia. }
  intros (st & Ha & Hr)%bind_Some. unfold add_existing_node in Ha.
  apply bind_Some in Ha as (ds & _ & Ha). simpl in Ha.
  injection Ha as <-. destruct (IH _ _ _ Hr) as [H1 H2]. split.
  - rewrite H1, fmap_app. csimpl. by rewrite <-app_assoc.
  - intros pool k. rewrite H2, updateRemainingResources_spec. change (n :: l) with ([n] ++ l). rewrite pool_capacity_app.
    destruct (r0 !! pool ≫= _); simpl; [|done]. f_equal. lia.
Qed.

(** The nodes of the cluster all become existing nodes, initialized ones first and
    each kind by name; and for every pool and limited resource, what remains is the
    limit less the capacity of the pool's nodes. *)
Theorem existing_nodes_accounted its daemons poolOf enforce stateNodes t0 limits nodes t remaining :
  calculateExistingNodeClaims its daemons poolOf enforce stateNodes t0 limits = Some (nodes, t, remaining) →
  (en_Name <$> nodes ≡ₚ s_Name <$> stateNodes) ∧
  StronglySorted (λ a b, node_before b a = false) nodes ∧
  ∀ pool k, (remaining !! pool) ≫= (.!! k) =
    (λ limit, (limit - pool_capacity stateNodes pool k)%Z) <$> (limits !! pool ≫= (.!! k)).
Proof.
  intros ([[nodes1 t1] r1] & Hf & [= <- <- <-])%bind_Some. destruct (existing_nodes_fold _ _ _ _ _ _ _ _ _ _ _ Hf) as [H1 H2].
  split_and!; [|apply sort_by_StronglySorted; [apply node_before_asym|apply node_before_trans]|done].
  unfold sortExistingNodes. by rewrite sort_by_Permutation, H1.
Qed.
(** The credited manager covers what the seeded one covers. *)
Lemma credited (credits : gmap string Z) rm :
  let rm' := map_fold (λ id count rm, Credit rm id count) rm credits in
  dom (rm_capacity rm') = dom (rm_capacity rm) ∧ ((∀ id c, credits !! id = Some c → (0 ≤ c)%Z) → rm_wf rm → rm_wf rm').
Proof.
  simpl. apply (map_fold_weak_ind (λ (rm' : ReservationManager) (m : gmap string Z), dom (rm_capacity rm') = dom (rm_capacity rm) ∧
    ((∀ id c, m !! id = Some c → (0 ≤ c)%Z) → rm_wf rm → rm_wf rm'))); [done|].
  intros id c m rm' Hm [Hd Hwf]. split; [by rewrite Credit_dom|]. intros Hc Hrm. apply Credit_wf; [apply (Hc id); apply lookup_insert_eq|].
  apply Hwf; [|done]. intros i v Hi. apply (Hc i). rewrite lookup_insert_ne; [done|]. intros ->. congruence.
Qed.

(** The reservation manager of a new scheduler knows the reserved offerings of every template,
    and its counts are not negative if those of the offerings and the credits are not. *)
Theorem NewScheduler_reservations_ok nodePools stateNodes marked t instanceTypes daemons volumeReqs options config metas s :
  NewScheduler nodePools stateNodes marked t instanceTypes daemons volumeReqs options = Some (config, metas, s) →
  newNodeClaims s = [] ∧
  (∀ nct, nct ∈ nodeClaimTemplates config → covered ReservationIDLabel draw (reservationManager s) (nct_InstanceTypeOptions nct)) ∧
  ((∀ pool its it o, instanceTypes !! pool = Some its → it ∈ its → o ∈ Offerings it → (0 ≤ ReservationCapacity o)%Z) →
   (∀ id c, o_creditReservationCapacity options !! id = Some c → (0 ≤ c)%Z) → rm_wf (reservationManager s)).
Proof.
  unfold NewScheduler. intros (seeded & Hseed & (made & Hmade & ([groups ds] & _ & Hs)%bind_Some)%bind_Some)%bind_Some.
  apply bind_Some in Hs as ([[nodes t'] remaining] & _ & [= <- _ <-]). simpl.
  destruct (credited (o_creditReservationCapacity options) seeded) as [Hd Hwf]. split; [done|]. split.
  - intros nct Hn. apply list_elem_of_fmap in Hn as ([nct' meta] & -> & Hin). simpl.
    apply list_elem_of_In, in_concat in Hin as (l & Hl%list_elem_of_In & Hin%list_elem_of_In).
    apply mapM_Some_1 in Hmade. apply list_elem_of_lookup in Hl as [i Hi].
    destruct (Forall2_lookup_r _ _ _ _ _ Hmade Hi) as (np & _ & Hp). unfold prefilter_template in Hp.
    apply bind_Some in Hp as ([nct0 meta0] & _ & Hp). injection Hp as <-.
    destruct (filterInstanceTypesByRequirements _ _ _ _ _ _ _).1 as [kept|] eqn:Ef; [|by apply not_elem_of_nil in Hin].
    apply list_elem_of_singleton in Hin as [= -> ->]. simpl. apply filterInstanceTypes_Ok in Ef as (_ & Hk & _).
    destruct (instanceTypes !! np_Name (np_template np)) as [its|] eqn:Eits; simpl in Hk.
    + eapply covered_mono; [by eapply NewReservationManager_covers|by rewrite Hd|]. intros it Hit%Hk. by destruct Hit.
    + intros it o Hit%Hk. destruct Hit as [Hit _]. by apply not_elem_of_nil in Hit.
  - intros Ho Hc. apply Hwf; [done|]. by eapply NewReservationManager_wf.
Qed.
End setup.
