(* ===== verification/Solver.v ===== *)
(** * Solver: a whole scheduling run
    ([Scheduler.Solve], [Results] and the zone metric of
    pkg/controllers/provisioning/scheduling/scheduler.go)

    The loops of [SchedQueue] are instantiated with the scheduler's [add] and the
    updates that follow a relaxation, and the invariants of the components are
    carried through every reachable state of a run. *)

From S2P Require Import Prelude Labels Requirement Objects Requirements Resources Taints HostPorts.
From S2P Require Import Volumes InstanceTypes Reservations PodState Preferences SchedQueue TopologyGroup Topology.
From S2P Require Import NodeClaims ExistingNodes Scheduler.

(** The scheduler, or [None] after a panic, and the number of times the context was
    consulted. *)
Record run_state := mkRun {
  r_scheduler : option Scheduler;
  r_attempts : nat;
}.

Inductive pod_failure (E : Type) :=
| SchedulingFailed (e : schedule_error E)
| MinValuesNotMet (pool : string) (unsatisfied : gmap string Z)
| UninitializedNodeError (node : string).
Arguments SchedulingFailed {E} e.
Arguments UninitializedNodeError {E} node.
Arguments MinValuesNotMet {E} pool unsatisfied.

Record Results (E : Type) := mkResults {
  NewNodeClaims : list NodeClaim;
  ExistingNodes : list ExistingNode;
  PodErrors : gmap string (pod_failure E);
}.
Arguments mkResults {E} _ _ _.
Arguments NewNodeClaims {E} _.
Arguments ExistingNodes {E} _.
Arguments PodErrors {E} _.

(** ** The zone a pending pod is bound to, for the metric *)

Definition zone_allowed (zoneReq : Requirement) (volZoneReq : option Requirement) (tsc : gset string) (zone : string)
    : bool :=
  Has zoneReq zone &&
  match volZoneReq with Some r => Has r zone | None => true end &&
  (bool_decide (tsc = ∅) || bool_decide (zone ∈ tsc)).

Section zone.
  Context `{LR : LabelRegistry} `{IO : IterationOrder}.

(** The union of the zones of all volume alternatives; [None] if they do not constrain. *)
Fixpoint merge_zones (merged : option Requirement) (rest : list Requirements) : option Requirement :=
  match rest with
  | [] => merged
  | vol :: rest =>
      let req := Get vol LabelTopologyZone in
      if bool_decide (Operator req = OpIn)
      then merge_zones (Some match merged with
                             | None => requirement_In_all LabelTopologyZone (elements (values req))
                             | Some m => Insert m (elements (values req))
                             end) rest
      else None
  end.

Definition volumeZoneReq (volumeReqs : list Requirements) : option Requirement :=
  match volumeReqs with
  | [] => None
  | [vol] => let req := Get vol LabelTopologyZone in if bool_decide (Operator req = OpIn) then Some req else None
  | _ => merge_zones None volumeReqs
  end.

Definition computeEffectiveZoneFromPod (t : Topology) (podData : PodData) (pod : Pod) : string :=
  match GetTopologyZoneConstraints t pod (pd_Requirements podData) with
  | None => "none"
  | Some constraints =>
      let tsc := default ∅ constraints in
      let zoneReq := Get (StrictRequirements podData) LabelTopologyZone in
      let volZoneReq := volumeZoneReq (VolumeRequirements podData) in
      let verdict zones :=
        match filter (λ z, zone_allowed zoneReq volZoneReq tsc z = true) zones with
        | [] => "none"
        | [zone] => zone
        | _ => "flexible"
        end in
      if bool_decide (Operator zoneReq = OpIn) then verdict (elements (values zoneReq))
      else match volZoneReq with
           | Some r => verdict (elements (values r))
           | None => if bool_decide (tsc = ∅) then "flexible" else verdict (sets_List tsc)
           end
  end.
End zone.

Section solver.
  Context `{LR : LabelRegistry} `{TA : TaintApi} `{TL : TolerationApi} `{SA : SelectorApi} `{IO : IterationOrder}
          `{SE : SchedulerEnv} `{HA : HashApi}.
  Context {E : Type} `{KR : KubeReader E}.
  Context (config : SchedulerConfig) (ReservedCapacity : bool).
  Context (allocator : option (string → Requirements → list string → option AllocationResult)).
  Context (stateNodes : list StateNodeView).
  Context (requests_of : Pod → ResourceList) (GetVolumes_of : Pod → result api_error Volumes)
          (resolvePodClaims : Pod → option (list string)).
  (** [ctx.Err()] when it is read for the n-th time (true for an exceeded deadline), the
      DRA drivers of a claim, and the options of the run. *)
  Context (ctx : nat → option bool) (draDriversForNodeClaim : NodeClaim → list string).

Definition run_ctxErr (st : run_state) : option (schedule_error E) := ContextError <$> ctx (r_attempts st).

Definition run_add (st : run_state) (p : Pod) : run_state * option (schedule_error E) :=
  match r_scheduler st with
  | None => (st, Some NoTemplates)
  | Some s => let '(s, err) := add config ReservedCapacity allocator GetVolumes_of s p in
              (mkRun s (S (r_attempts st)), err)
  end.

Definition with_topology (s : Scheduler) (t : Topology) : Scheduler :=
  mkScheduler (newNodeClaims s) (existingNodes s) (pool_remaining s) (cachedPodData s) t (reservationManager s)
    (nodeID s) (template_annotations s).

(** [topology.Update], whose error is only logged, and [updateCachedPodData]. *)
Definition run_update (st : run_state) (p : Pod) : run_state :=
  mkRun (s ← r_scheduler st;
         match Update stateNodes (topology s) p with
         | (_, Some Panic) => None
         | (t, _) => updateCachedPodData config allocator requests_of resolvePodClaims (with_topology s t) p
         end) (r_attempts st).

(** The claims are finalized in place. *)
Definition finalized (s : Scheduler) : Scheduler :=
  mkScheduler ((λ n, FinalizeScheduling (template_annotations s) n (draDriversForNodeClaim n)) <$> newNodeClaims s)
    (existingNodes s) (pool_remaining s) (cachedPodData s) (topology s) (reservationManager s) (nodeID s)
    (template_annotations s).

Definition solve_fuel (pods : list Pod) : nat := S (length pods * (length pods + 2)).

(** [None] is a panic: the fuel suffices, and valid pods cause none
    ([Solve_never_panics]).  The error is the context's. *)
Definition Scheduler_Solve (s : Scheduler) (pods : list Pod) : option (Scheduler * Results E * option bool) :=
  s ← foldl_opt (updateCachedPodData config allocator requests_of resolvePodClaims) s pods;
  final ← Solve (c_preferences config) run_ctxErr run_add run_update schedule_IsReservedOfferingError
    schedule_IsDRAError schedule_IsDeadlineExceeded (solve_fuel pods) (Requests <$> cachedPodData s) pods
    (mkRun (Some s) 0);
  s ← finalized <$> r_scheduler (ls_state final.2);
  Some (s, mkResults (newNodeClaims s) (existingNodes s) (SchedulingFailed <$> podErrors final.2),
        ctx (r_attempts (ls_state final.2))).

(** ** Results *)

Definition with_options (n : NodeClaim) (its : list InstanceType) : NodeClaim :=
  mkNodeClaim (NodePoolName n) (nc_Taints n) (nc_Annotations n) (nc_Requirements n) its (nc_Requests n) (nc_Pods n)
    (nc_volumes n) (daemonOverheadGroups n) (hostname n) (reservedOfferings n) (reservedOfferingMode n)
    (creditReservationCapacity n).

Definition TruncateInstanceTypes (r : Results E) (policy : MinValuesPolicy) (maxInstanceTypes : nat) : Results E :=
  foldl (λ acc n,
    match Truncate policy (InstanceTypeOptions n) (nc_Requirements n) maxInstanceTypes with
    | Ok its => mkResults (NewNodeClaims acc ++ [with_options n its]) (ExistingNodes acc) (PodErrors acc)
    | Err unsatisfied =>
        mkResults (NewNodeClaims acc) (ExistingNodes acc)
          (foldl (λ errs p, <[pod_UID p := MinValuesNotMet (NodePoolName n) unsatisfied]> errs) (PodErrors acc) (nc_Pods n))
    end) (mkResults [] (ExistingNodes r) (PodErrors r)) (NewNodeClaims r).

Definition AllNonPendingPodsScheduled (r : Results E) (pods : list Pod) : bool :=
  forallb (λ p, negb (bool_decide (is_Some (PodErrors r !! pod_UID p))) || IsProvisionable p) pods.

(** ** What an attempt does *)

Abbreviation CanAdd := (NodeClaim_CanAdd (E := E) ReservedCapacity allocator).

(** The three ways of placing a pod. *)
Inductive placement (s : Scheduler) (p : Pod) : Scheduler → Prop :=
| placed_existing i n vols reqs r t n' :
    existingNodes s !! i = Some n →
    ExistingNode_CanAdd (E := E) allocator (topology s) n p (pod_data s p) vols = Ok (reqs, r) →
    ExistingNode_Add (topology s) n p (pod_data s p) reqs vols = (t, n') →
    placement s p (mkScheduler (newNodeClaims s) (<[i := n']> (existingNodes s)) (pool_remaining s)
                     (cachedPodData s) t (reservationManager s) (nodeID s) (template_annotations s))
| placed_inflight i n vols a t rm n' :
    newNodeClaims s !! i = Some n →
    CanAdd (topology s) (reservationManager s) n p (pod_data s p) vols false = Ok a →
    NodeClaim_Add (topology s) (reservationManager s) n p (pod_data s p) vols a = Some (t, rm, n') →
    placement s p (mkScheduler (<[i := n']> (newNodeClaims s)) (existingNodes s) (pool_remaining s)
                     (cachedPodData s) t rm (nodeID s) (template_annotations s))
| placed_new i nct vols relax n a t rm n' id annotations :
    nodeClaimTemplates config !! i = Some nct →
    try_template (E := E) config ReservedCapacity allocator s p vols i nct = Ok (n, a) →
    CanAdd (topology s) (reservationManager s) n p (pod_data s p) vols relax = Ok a →
    NodeClaim_Add (topology s) (reservationManager s) n p (pod_data s p) vols a = Some (t, rm, n') →
    placement s p (mkScheduler (newNodeClaims s ++ [n']) (existingNodes s)
                     (<[NodePoolName n' := subtractMax (default ∅ (pool_remaining s !! NodePoolName n'))
                                             (InstanceTypeOptions n')]> (pool_remaining s))
                     (cachedPodData s) t rm id annotations).

Lemma first_success_Some {A B} (test : nat → A → option B) k l i b :
  first_success test k l = Some (i, b) → ∃ j x, i = k + j ∧ l !! j = Some x ∧ test i x = Some b.
Proof.
  revert k. induction l as [|x l IH]; intros k; simpl; [done|]. destruct (test k x) eqn:Et.
  - intros [= <- <-]. exists 0, x. split_and!; [lia|done|done].
  - intros (j & y & -> & Hj & Ht)%IH. exists (S j), y. split_and!; [lia|done|done].
Qed.

Lemma addToExistingNode_placed s p vols s' :
  addToExistingNode (E := E) config allocator s p vols = Some s' → placement s p s'.
Proof.
  unfold addToExistingNode. intros ([i [n reqs]] & Hf & Hadd)%bind_Some.
  apply first_success_Some in Hf as (j & x & -> & Hj & Ht). destruct (skips_node config p x); [done|].
  destruct (ExistingNode_CanAdd _ _ _ _ _ _) as [[reqs' r]|] eqn:Ec; [|done]. injection Ht as -> <-.
  destruct (ExistingNode_Add _ _ _ _ _ _) as [t n'] eqn:Ea. injection Hadd as <-. by eapply placed_existing.
Qed.

Lemma addToInflightNode_placed s p vols s' :
  addToInflightNode (E := E) ReservedCapacity allocator s p vols = Some (Some s') → placement s p s'.
Proof.
  unfold addToInflightNode. destruct (first_success _ _ _) as [[i [[n a]|]]|] eqn:Hf; [|done..].
  apply first_success_Some in Hf as (j & x & -> & Hj & Ht).
  destruct (NodeClaim_CanAdd _ _ _ _ _ _ _ _ _) as [a'|e] eqn:Ec; [|by destruct e]. injection Ht as -> ->.
  intros [= Hadd]. apply bind_Some in Hadd as ([[t rm] n'] & Hadd & [= <-]). by eapply placed_inflight.
Qed.

Lemma try_template_Ok s p vols i nct n a :
  try_template (E := E) config ReservedCapacity allocator s p vols i nct = Ok (n, a) →
  ∃ its, limited_types (E := E) s nct = Ok its ∧
    n = NewNodeClaim i nct (nodeID s + 1 + Z.of_nat i) (default [] (template_groups config !! i)) its
          (c_reservedOfferingMode config) (c_creditReservationCapacity config) ∧
    CanAdd (topology s) (reservationManager s) n p (pod_data s p) vols
      (bool_decide (c_minValuesPolicy config = MinValuesPolicyBestEffort)) = Ok a.
Proof.
  unfold try_template. intros (its & Hl & Ht)%result_bind_Ok. exists its.
  destruct (NodeClaim_CanAdd _ _ _ _ _ _ _ _ _) as [a'|] eqn:Ec; [|done]. injection Ht as <- <-. done.
Qed.

Lemma template_decides_Some s p vols i nct r :
  template_decides (E := E) config ReservedCapacity allocator s p vols i nct = Some r →
  try_template (E := E) config ReservedCapacity allocator s p vols i nct = r ∧
  match r with Err e => is_reserved_error e || is_panic e = true | Ok _ => True end.
Proof.
  unfold template_decides. destruct (try_template _ _ _ _ _ _ _ _) as [na|e]; [by intros [= <-]|].
  destruct (is_reserved_error e || is_panic e) eqn:Ee; [|done]. by intros [= <-].
Qed.


Lemma addToNewNodeClaim_placed s p vols s' :
  addToNewNodeClaim (E := E) config ReservedCapacity allocator s p vols = Ok (Some s') → placement s p s'.
Proof.
  unfold addToNewNodeClaim. destruct (first_success _ _ _) as [[i [[n a]|e]]|] eqn:Hf; [|by destruct (is_panic e)|done].
  apply first_success_Some in Hf as (j & nct & -> & Hj & Ht). change (0 + j) with j in *. apply template_decides_Some in Ht as [Et _].
  destruct (try_template_Ok _ _ _ _ _ _ _ Et) as (its & _ & _ & Ec).
  intros [= Hadd]. apply bind_Some in Hadd as ([[t rm] n'] & Hadd & [= <-]). by eapply placed_new.
Qed.

(** [add] places the pod on top of the possibly reordered claims, or changes nothing
    but that order. *)
Lemma add_cases s p s' e :
  add (E := E) config ReservedCapacity allocator GetVolumes_of s p = (Some s', e) →
  ∃ base, (base = s ∨ base = with_sorted_claims s) ∧
    match e with None => placement base p s' | Some _ => s' = base end.
Proof.
  unfold add. destruct (_ && _); [intros [= <- <-]; eauto|].
  destruct (ResourceClaimErr _); [intros [= <- <-]; eauto|].
  destruct (GetVolumes_of p) as [vols|]; [|intros [= <- <-]; eauto].
  destruct (addToExistingNode _ _ _ _ _) as [s1|] eqn:E1.
  { intros [= <- <-]. apply addToExistingNode_placed in E1. eauto. }
  destruct (addToInflightNode _ _ _ _ _) as [r1|] eqn:E2.
  { intros [= -> <-]. apply addToInflightNode_placed in E2. eauto. }
  destruct (nodeClaimTemplates config) eqn:En; [intros [= <- <-]; eauto|].
  destruct (addToNewNodeClaim _ _ _ _ _ _) as [r1|] eqn:E3.
  - intros [= -> <-]. apply addToNewNodeClaim_placed in E3. eauto.
  - intros [= <- <-]. eauto.
Qed.

(** ** Reservations stay sound, and nothing panics *)

Abbreviation known := (covered ReservationIDLabel draw).









(** ** No pod is lost or placed twice *)

Definition placed_uids (s : Scheduler) : list string :=
  pod_UID <$> (concat (en_Pods <$> existingNodes s) ++ concat (nc_Pods <$> newNodeClaims s)).

Lemma concat_insert_snoc {A} (f : A → list Pod) l i x y p :
  l !! i = Some x → f y = f x ++ [p] → concat (f <$> <[i := y]> l) ≡ₚ p :: concat (f <$> l).
Proof.
  revert i. induction l as [|z l IH]; intros [|i] Hi Hf; simplify_eq/=.
  - rewrite Hf. by rewrite <-Permutation_cons_append.
  - rewrite (IH i) by done. by rewrite Permutation_middle.
Qed.

Lemma NodeClaim_Add_fields t rm n p podData vols a t' rm' n' :
  NodeClaim_Add t rm n p podData vols a = Some (t', rm', n') →
  nc_Pods n' = nc_Pods n ++ [p] ∧ InstanceTypeOptions n' = updatedInstanceTypes a ∧ NodePoolName n' = NodePoolName n ∧
  nc_Requests n' = Merge [nc_Requests n; Requests podData] ∧ nc_Requirements n' = updatedRequirements a ∧
  daemonOverheadGroups n' = (λ g, mkDaemonOverheadGroup (dog_InstanceTypes g) (DaemonOverhead g)
    (HostPortUsage_Add (dog_HostPortUsage g) (pod_key p) (GetHostPorts ParseIP p))) <$> daemonOverheadGroups n.
Proof. intros (rm1 & _ & [= <- <- <-])%bind_Some. done. Qed.

Lemma sorted_claims_uids s : placed_uids (with_sorted_claims s) ≡ₚ placed_uids s.
Proof. unfold placed_uids; simpl. by rewrite sort_by_Permutation. Qed.

Lemma placement_uids s p s' : placement s p s' → placed_uids s' ≡ₚ pod_UID p :: placed_uids s.
Proof.
  intros [i n vols reqs r t n' Hi _ Ha|i n vols a t rm n' Hi _ Ha|i nct vols relax n a t rm n' id ann _ Ht _ Ha];
    unfold placed_uids; simpl.
  - injection Ha as <- <-. by rewrite (concat_insert_snoc en_Pods _ _ _ _ p Hi).
  - apply NodeClaim_Add_fields in Ha as [Ha _]. rewrite (concat_insert_snoc nc_Pods _ _ _ _ p Hi Ha).
    rewrite <-Permutation_middle. done.
  - apply NodeClaim_Add_fields in Ha as [Ha _]. apply try_template_Ok in Ht as (its & _ & -> & _). simpl in Ha.
    rewrite (fmap_app nc_Pods), concat_app. simpl. rewrite Ha. simpl. rewrite app_assoc, <-Permutation_cons_append. done.
Qed.

Lemma run_add_places st p st' e :
  run_add st p = (st', e) → is_Some (r_scheduler st') →
  is_Some (r_scheduler st) ∧
  default [] (placed_uids <$> r_scheduler st') ≡ₚ
    (match e with Some _ => [] | None => [pod_UID p] end) ++ default [] (placed_uids <$> r_scheduler st).
Proof.
  unfold run_add. destruct (r_scheduler st) as [s|] eqn:Es; [|by intros [= <- <-]; rewrite Es].
  destruct (add _ _ _ _ _ _) as [r e'] eqn:Ea. intros [= <- <-] [s' Hs']. simpl in Hs'. subst r. split; [done|]. simpl.
  apply add_cases in Ea as (base & Hb & Hs). assert (placed_uids base ≡ₚ placed_uids s) as Hu.
  { destruct Hb as [-> | ->]; [done|apply sorted_claims_uids]. }
  destruct e'; [by subst|]. apply placement_uids in Hs. by rewrite Hs, Hu.
Qed.

Lemma run_update_places st p :
  is_Some (r_scheduler (run_update st p)) →
  is_Some (r_scheduler st) ∧
  default [] (placed_uids <$> r_scheduler (run_update st p)) ≡ₚ default [] (placed_uids <$> r_scheduler st).
Proof.
  unfold run_update. simpl. destruct (r_scheduler st) as [s|]; simpl; [|by intros [? ?]].
  destruct (Update _ _ _) as [t o]. intros [s' Hs']. split; [done|].
  assert (updateCachedPodData config allocator requests_of resolvePodClaims (with_topology s t) p = Some s') as Hu.
  { by destruct o as [[]|]. }
  rewrite Hs'. unfold updateCachedPodData in Hu. apply bind_Some in Hu as (r1 & _ & (r2 & _ & Hu)%bind_Some).
  destruct (if _ && _ then _ else _) as [cs ce]. injection Hu as <-. done.
Qed.

Lemma cached_data_uids s pods s' :
  foldl_opt (updateCachedPodData config allocator requests_of resolvePodClaims) s pods = Some s' →
  newNodeClaims s' = newNodeClaims s ∧ existingNodes s' = existingNodes s ∧ pool_remaining s' = pool_remaining s ∧
  reservationManager s' = reservationManager s.
Proof.
  revert s. induction pods as [|p pods IH]; intros s; simpl; [by intros [= <-]|].
  intros (s1 & Hu & Hr)%bind_Some. apply IH in Hr as (-> & -> & -> & ->). unfold updateCachedPodData in Hu.
  apply bind_Some in Hu as (r1 & _ & (r2 & _ & Hu)%bind_Some).
  destruct (if _ && _ then _ else _) as [cs ce]. by injection Hu as <-.
Qed.

(** Only the context reports an exceeded deadline. *)
Lemma add_no_deadline s p r e :
  add (E := E) config ReservedCapacity allocator GetVolumes_of s p = (r, Some e) → schedule_IsDeadlineExceeded e = false.
Proof.
  unfold add, addToNewNodeClaim. destruct (_ && _); [by intros [= _ <-]|].
  destruct (ResourceClaimErr _); [by intros [= _ <-]|]. destruct (GetVolumes_of p) as [vols|]; [|by intros [= _ <-]].
  destruct (addToExistingNode _ _ _ _ _); [done|]. destruct (addToInflightNode _ _ _ _ _); [done|].
  destruct (nodeClaimTemplates config) as [|nct ncts]; [by intros [= _ <-]|].
  destruct (first_success _ _ _) as [[i [[n a]|e']]|]; [done| |by intros [= _ <-]].
  by destruct (is_panic e'); [|intros [= _ <-]].
Qed.

Abbreviation attempt_pod := (trySchedule_loop (c_preferences config) run_ctxErr run_add run_update
  schedule_IsReservedOfferingError schedule_IsDRAError).

Lemma attempt_deadline b st p st' e :
  attempt_pod b st p = (st', Some e) → schedule_IsDeadlineExceeded e = true → ctx (r_attempts st') = Some true.
Proof.
  revert st p. induction b as [|b IH]; intros st p; simpl;
    (destruct (run_ctxErr st) as [e0|] eqn:Ec;
      [intros [= <- <-]; unfold run_ctxErr in Ec; destruct (ctx _) as [[]|]; simpl in *; by simplify_eq|]);
    destruct (run_add st p) as [s1 [err|]] eqn:Ea; try done;
    (assert (schedule_IsDeadlineExceeded err = false) as Hd;
      [unfold run_add in Ea; destruct (r_scheduler st) as [s|]; [|by injection Ea as _ <-];
       destruct (add _ _ _ _ _ _) as [r e1] eqn:Eadd; injection Ea as _ ->; by eapply add_no_deadline|]);
    repeat case_match; try (intros [= <- <-]; congruence). apply IH.
Qed.

Abbreviation solve_run := (Solve (c_preferences config) run_ctxErr run_add run_update
  schedule_IsReservedOfferingError schedule_IsDRAError schedule_IsDeadlineExceeded).

Lemma solve_deadline fuel podData pods st st' :
  solve_run fuel podData pods st = Some (true, st') → ctx (r_attempts (ls_state st')) = Some true.
Proof.
  unfold Solve. generalize (mkLoop (NewQueue podData pods) (∅ : gmap string (schedule_error E)) st) as l.
  induction fuel as [|n IH]; intros l; simpl; [done|]. unfold Solve_step.
  destruct (Pop (ls_queue l)) as [[p q]|]; [|done].
  destruct (trySchedule _ _ _ _ _ _ _ _) as [s1 [err|]] eqn:Et; [|apply IH].
  destruct (schedule_IsDeadlineExceeded err) eqn:Ed; [|apply IH]. intros [= <-]. simpl. by eapply attempt_deadline.
Qed.

Lemma Scheduler_Solve_inv s pods s' results err :
  Scheduler_Solve s pods = Some (s', results, err) →
  ∃ s0 timedOut final,
    foldl_opt (updateCachedPodData config allocator requests_of resolvePodClaims) s pods = Some s0 ∧
    solve_run (solve_fuel pods) (Requests <$> cachedPodData s0) pods (mkRun (Some s0) 0) = Some (timedOut, final) ∧
    finalized <$> r_scheduler (ls_state final) = Some s' ∧ err = ctx (r_attempts (ls_state final)) ∧
    results = mkResults (newNodeClaims s') (existingNodes s') (SchedulingFailed <$> podErrors final).
Proof.
  unfold Scheduler_Solve. intros (s0 & H0 & ([timedOut final] & H1 & (s1 & H2 & [= <- <- <-])%bind_Some)%bind_Some)%bind_Some.
  exists s0, timedOut, final. done.
Qed.

Lemma finalized_uids s : placed_uids (finalized s) = placed_uids s.
Proof. unfold placed_uids, finalized. simpl. by rewrite <-list_fmap_compose. Qed.

Lemma Scheduler_Solve_places s pods s' results :
  NoDup (pod_UID <$> pods) → Scheduler_Solve s pods = Some (s', results, None) →
  ∃ leftover, NoDup leftover ∧ (∀ uid, is_Some (PodErrors results !! uid) ↔ uid ∈ leftover) ∧
    placed_uids s' ++ leftover ≡ₚ placed_uids s ++ (pod_UID <$> pods).
Proof.
  intros Hnd (s0 & timedOut & final & Hc & Hs & (s1 & Hf & ->)%fmap_Some & He & ->)%Scheduler_Solve_inv.
  destruct timedOut; [apply solve_deadline in Hs; congruence|].
  apply cached_data_uids in Hc as (Hn & Hx & _).
  exists (pod_UID <$> q_pods (ls_queue final)).
  pose proof Hs as Hq. apply Solve_leftovers in Hq as [Hndq Hq]; [|done].
  pose proof Hs as Hp.
  apply (Solve_places _ _ _ _ _ _ _ (λ st, is_Some (r_scheduler st)) (λ st, default [] (placed_uids <$> r_scheduler st))) in Hp
    as (dropped & Hd & Hperm); [|apply run_add_places|apply run_update_places|by rewrite Hf].
  destruct dropped; [|done]. rewrite Hf in Hperm. simpl in Hperm.
  assert (placed_uids s0 = placed_uids s) as Hu by (unfold placed_uids; congruence). rewrite Hu in Hperm.
  rewrite finalized_uids. split_and!; [done| |done]. intros uid.
  simpl. rewrite lookup_fmap, fmap_is_Some, Hq, list_elem_of_fmap. naive_solver.
Qed.

(** C4: a scheduling run neither loses a pod nor places one twice: when it ends
    without a context error, the pods on nodes afterwards are those that were there
    before and the pods of the run, except exactly the ones that are
    reported with an error. *)
Theorem Solve_places_once s pods s' results :
  NoDup (pod_UID <$> pods) → Scheduler_Solve s pods = Some (s', results, None) →
  ∃ leftover, NoDup leftover ∧ (∀ uid, is_Some (PodErrors results !! uid) ↔ uid ∈ leftover) ∧
    placed_uids s' ++ leftover ≡ₚ placed_uids s ++ (pod_UID <$> pods).
Proof. apply Scheduler_Solve_places. Qed.

(** ** A run on valid pods returns *)


(** The parts of the state that placing pods changes. *)
Definition same_nodes (s s' : Scheduler) : Prop :=
  newNodeClaims s' = newNodeClaims s ∧ existingNodes s' = existingNodes s ∧ pool_remaining s' = pool_remaining s ∧
  reservationManager s' = reservationManager s.







(** ** Invariants of a run *)

Record run_invariant (P : Scheduler → Prop) : Prop := {
  inv_same : ∀ s s', same_nodes s s' → P s → P s';
  inv_sorted : ∀ s, P s → P (with_sorted_claims s);
  inv_placed : ∀ s p s', P s → placement s p s' → P s';
}.

Lemma run_update_same st p s s' :
  r_scheduler st = Some s → r_scheduler (run_update st p) = Some s' → same_nodes s s'.
Proof.
  unfold run_update. intros Hs. rewrite Hs. simpl. destruct (Update _ _ _) as [t o]. intros Hs'.
  assert (updateCachedPodData config allocator requests_of resolvePodClaims (with_topology s t) p = Some s') as Hu.
  { by destruct o as [[]|]. }
  apply (cached_data_uids (with_topology s t) [p]). simpl. by rewrite Hu.
Qed.

Lemma run_invariant_step P st st' :
  run_invariant P → attempt_step run_add run_update st st' →
  (∀ s, r_scheduler st = Some s → P s) → ∀ s', r_scheduler st' = Some s' → P s'.
Proof.
  intros HP [st0 p|st0 p] Hst s'.
  - unfold run_add. destruct (r_scheduler st0) as [s|] eqn:Es; [|simpl; congruence].
    destruct (add _ _ _ _ _ _) as [r e] eqn:Ea. simpl. intros ->. apply add_cases in Ea as (base & Hb & He).
    assert (P base) by (destruct Hb as [-> | ->]; [|apply inv_sorted]; eauto).
    destruct e; [by subst|]. eapply inv_placed; eauto.
  - intros Hs'. destruct (r_scheduler st0) as [s|] eqn:Es.
    + eapply inv_same; [done|exact (run_update_same st0 p s s' Es Hs')|eauto].
    + unfold run_update in Hs'. by rewrite Es in Hs'.
Qed.

Lemma Solve_invariant P s pods s' results err :
  run_invariant P → Scheduler_Solve s pods = Some (s', results, err) → P s → ∃ s1, P s1 ∧ s' = finalized s1.
Proof.
  intros HP (s0 & timedOut & final & Hc & Hs & (s1 & Hf & ->)%fmap_Some & _)%Scheduler_Solve_inv Hi.
  exists s1. split; [|done].
  apply cached_data_uids in Hc. assert (P s0) as H0 by (by eapply inv_same). unfold Solve in Hs.
  apply Solve_loop_reachable in Hs. simpl in Hs.
  assert (∀ s, r_scheduler (mkRun (Some s0) 0) = Some s → P s) as Hst by (by intros ? [= <-]).
  clear Hi Hc. revert s1 Hf. induction Hs as [st|st st1 st2 Hstep _ IH]; [eauto|].
  apply IH. by eapply run_invariant_step.
Qed.

(** ** Nothing is overcommitted *)

(** What pods request together of a resource. *)
Definition requested (pods : list Pod) (k : string) : Z := sumZ ((λ p, qty (requests_of p) k) <$> pods).

(** Every instance type has room for the pods and for the daemons of its group on an offering
    that is compatible with the requirements, and what is reserved is
    compatible with them too. *)
Definition room_for_pods (reqs : Requirements) (n : NodeClaim) : Prop :=
  (∀ it, it ∈ InstanceTypeOptions n →
    ∃ g ag o, g ∈ daemonOverheadGroups n ∧ it ∈ dog_InstanceTypes g ∧
      ag ∈ AllocatableOfferingsList override_text it ∧ o ∈ ao_Offerings ag ∧
      IsCompatible reqs (of_Requirements o) WellKnownLabels = true ∧
      ∀ k, (requested (nc_Pods n) k + qty (DaemonOverhead g) k ≤ qty (Allocatable_ ag) k)%Z) ∧
  (∀ o, o ∈ reservedOfferings n → Offering_CapacityType draw o = CapacityTypeReserved ∧
    IsCompatible reqs (of_Requirements o) WellKnownLabels = true ∧ ∃ it, it ∈ InstanceTypeOptions n ∧ o ∈ Offerings it).

Definition claim_has_room (n : NodeClaim) : Prop :=
  ∃ reqs, nc_Requirements n = finalized_requirements (reservedOfferings n) reqs ∧ room_for_pods reqs n.

(** What a node had left before the run covers the pods that were placed on it. *)
Definition existing_within (before n : ExistingNode) : Prop :=
  (∀ k, (requested (en_Pods n) k ≤ qty (remainingResources before) k)%Z) ∧ volumes_within (en_VolumeUsage n).

Section overcommit.
  Context (pods : list Pod) (initial : list ExistingNode).

Definition known_pod (p : Pod) : Prop := ∃ p0, p0 ∈ pods ∧ pod_UID p = pod_UID p0 ∧ requests_of p = requests_of p0.

Record within (s : Scheduler) : Prop := {
  within_data : ∀ p, p ∈ pods → Requests (pod_data s p) = requests_of p;
  within_claims : Forall (λ n, (∀ k, qty (nc_Requests n) k = requested (nc_Pods n) k) ∧ room_for_pods (nc_Requirements n) n)
                    (newNodeClaims s);
  within_nodes : Forall2 (λ before n,
    (∀ k, qty (remainingResources n) k = qty (remainingResources before) k - requested (en_Pods n) k)%Z ∧
    (en_Pods n = [] ∨ (∀ k, (0 ≤ qty (remainingResources n) k)%Z) ∧ volumes_within (en_VolumeUsage n)))
    initial (existingNodes s);
}.

Lemma requested_snoc l p k : requested (l ++ [p]) k = (requested l k + qty (requests_of p) k)%Z.
Proof. unfold requested. rewrite fmap_app, sumZ_app. csimpl. lia. Qed.

Lemma known_pod_requests s p : within s → known_pod p → Requests (pod_data s p) = requests_of p.
Proof. intros [H _ _] (p0 & Hp & Hu & ->). rewrite <-(H p0 Hp). unfold pod_data. by rewrite Hu. Qed.

Lemma added_claim_within t rm n p podData vols relax a t' rm' n' :
  (∀ k, qty (nc_Requests n) k = requested (nc_Pods n) k) → Requests podData = requests_of p →
  CanAdd t rm n p podData vols relax = Ok a → NodeClaim_Add t rm n p podData vols a = Some (t', rm', n') →
  (∀ k, qty (nc_Requests n') k = requested (nc_Pods n') k) ∧ room_for_pods (nc_Requirements n') n'.
Proof.
  intros Hn Hp Hc Ha. pose proof Ha as (Hpods & Hi & _ & Hq & Hr & Hg)%NodeClaim_Add_fields.
  assert (∀ k, qty (nc_Requests n') k = requested (nc_Pods n') k) as Hn'.
  { intros k. rewrite Hq, Hpods, requested_snoc, <-Hn, Merge_sum, Hp. csimpl. lia. }
  split; [done|]. split.
  - intros it. rewrite Hi, Hr, Hg. intros Hit.
    destruct (CanAdd_types _ _ _ _ _ _ _ _ _ _ Hc it Hit) as (_ & g & Hgin & Hitg & _ & _ & (ag & o & Hag & Ho & Hcomp & Hf)).
    eexists _, ag, o. split_and!; [apply list_elem_of_fmap; eauto|done..|]. intros k. simpl. rewrite <-Hn', Hq.
    apply (Fits_qty _ _ k) in Hf. by rewrite total_with_daemons_qty in Hf.
  - apply bind_Some in Ha as (rm1 & _ & [= _ _ <-]). simpl. intros o Ho.
    destruct (CanAdd_reserves _ _ _ _ _ _ _ _ _ _ Hc o Ho) as (it & Hit & Hoit & (_ & ? & ? & _)). eauto.
Qed.

Lemma within_placed s p s' : known_pod p → within s → placement s p s' → within s'.
Proof.
  intros Hk Hw Hpl. pose proof (known_pod_requests s p Hw Hk) as Hp. destruct Hw as [Hd Hc He].
  destruct Hpl as [i n vols reqs r t n' Hi HC Ha|i n vols a t rm n' Hi HC Ha|i nct vols relax n a t rm n' id ann _ Ht HC Ha];
    split; simpl; try done.
  - destruct (Forall2_lookup_r _ _ _ _ _ He Hi) as (n0 & Hn0 & Hq & _).
    rewrite <-(list_insert_id initial i n0) by done. apply Forall2_insert; [done|].
    destruct (existing_step_sound (E := E) allocator n (pod_data s p) n') as (Hr & ? & ?); [by econstructor|].
    split; [|by right]. injection Ha as <- <-. intros k. rewrite Hr, Hq. simpl. rewrite requested_snoc, Hp. lia.
  - apply Forall_insert; [done|]. eapply added_claim_within; [|exact Hp|exact HC|exact Ha].
    rewrite Forall_forall in Hc. by destruct (Hc n (list_elem_of_lookup_2 _ _ _ Hi)).
  - apply Forall_app. split; [done|]. constructor; [|done]. eapply added_claim_within; [|exact Hp|exact HC|exact Ha].
    apply try_template_Ok in Ht as (its & _ & -> & _). simpl. intros k. unfold qty. by rewrite lookup_empty.
Qed.

Lemma within_sorted s : within s → within (with_sorted_claims s).
Proof. intros [Hd Hc He]. split; simpl; [done| |done]. by rewrite sort_by_Permutation. Qed.

Lemma updateCachedPodData_data s p s' :
  updateCachedPodData config allocator requests_of resolvePodClaims s p = Some s' →
  ∀ q, Requests (pod_data s' q) = if decide (pod_UID q = pod_UID p) then requests_of p else Requests (pod_data s q).
Proof.
  unfold updateCachedPodData. intros (r1 & _ & (r2 & _ & Hu)%bind_Some)%bind_Some q.
  destruct (if _ && _ then _ else _) as [cs ce]. injection Hu as <-. unfold pod_data. simpl. case_decide as Hq.
  - by rewrite Hq, lookup_insert_eq.
  - by rewrite lookup_insert_ne by done.
Qed.

Hypothesis pods_distinct : NoDup (pod_UID <$> pods).

Lemma within_cached s p s' :
  updateCachedPodData config allocator requests_of resolvePodClaims s p = Some s' → known_pod p → within s → within s'.
Proof using pods_distinct.
  intros Hu (p0 & Hp0 & Huid & Hreq) [Hd Hc He].
  pose proof (cached_data_uids s [p] s') as Hsame. simpl in Hsame. rewrite Hu in Hsame.
  destruct (Hsame eq_refl) as (H1 & H2 & _). split; [|by rewrite H1|by rewrite H2]. intros q Hq.
  rewrite (updateCachedPodData_data _ _ _ Hu). case_decide as Hqp; [|by apply Hd].
  assert (q = p0) as ->; [|done]. apply list_elem_of_lookup in Hq as [i Hi]. apply list_elem_of_lookup in Hp0 as [j Hj].
  assert (i = j) as ->; [|congruence].
  eapply (NoDup_lookup _ i j (pod_UID q) pods_distinct); rewrite list_lookup_fmap; [by rewrite Hi|rewrite Hj; simpl; congruence].
Qed.

Lemma initial_within s s0 :
  foldl_opt (updateCachedPodData config allocator requests_of resolvePodClaims) s pods = Some s0 →
  newNodeClaims s = [] → existingNodes s = initial → (∀ n, n ∈ initial → en_Pods n = []) → within s0.
Proof using pods_distinct.
  intros Hf Hn He Hempty. pose proof (cached_data_uids _ _ _ Hf) as (H1 & H2 & _).
  split; [|by rewrite H1, Hn|].
  - intros p Hp. apply list_elem_of_split in Hp as (l1 & l2 & Hpods). pose proof pods_distinct as Hnd. rewrite Hpods in Hf, Hnd. clear H1 H2 Hpods.
    revert s Hf Hn He. induction l1 as [|q l1 IH]; intros s Hf Hn He; simpl in Hf; apply bind_Some in Hf as (s1 & Hu & Hf).
    + simpl in Hnd. apply NoDup_cons in Hnd as [Hnin _].
      assert (Requests (pod_data s1 p) = requests_of p) as Hp.
      { rewrite (updateCachedPodData_data _ _ _ Hu). by rewrite decide_True. }
      clear Hu. revert s1 Hf Hp. induction l2 as [|q l2 IH]; intros s1 Hf Hp; simpl in Hf; [by injection Hf as <-|].
      apply bind_Some in Hf as (s2 & Hu & Hf). rewrite fmap_cons, not_elem_of_cons in Hnin. destruct Hnin as [Hne Hnin].
      apply (IH Hnin s2 Hf). rewrite (updateCachedPodData_data _ _ _ Hu). by rewrite decide_False.
    + pose proof (cached_data_uids s [q] s1) as Hsame. simpl in Hsame. rewrite Hu in Hsame.
      destruct (Hsame eq_refl) as (H1 & H2 & _). simpl in Hnd.
      apply NoDup_cons in Hnd as [_ Hnd]. eapply IH; [exact Hnd|exact Hf|congruence..].
  - rewrite H2, He. clear -Hempty. induction initial as [|n l IH]; [constructor|]. constructor.
    + rewrite Hempty by by left. split; [|by left]. intros k. unfold requested. simpl. lia.
    + apply IH. intros m Hm. apply Hempty. by right.
Qed.
End overcommit.

(** C1: a scheduling run overcommits nothing.  When it ends, the pods placed on a new
    claim and the daemons fit, by the sum of what each pod requests, into every
    instance type the claim may be launched with, on an offering compatible with the
    claim's requirements as they were before [FinalizeScheduling] dropped the placeholder
    hostname and narrowed them to the reserved offerings the claim holds, which
    belong to these instance types and are compatible too.  On an
    existing node that got pods, the sum of what they request is within what
    the node had left before the run, and no driver has more volumes than its limit.
    Relaxing a pod's preferences is taken not to change what it requests. *)
Theorem Solve_overcommits_nothing s pods s' results err :
  NoDup (pod_UID <$> pods) →
  (∀ p r p', Relax (c_preferences config) p = Some (r, p') → requests_of p' = requests_of p) →
  newNodeClaims s = [] → (∀ n, n ∈ existingNodes s → en_Pods n = []) →
  Scheduler_Solve s pods = Some (s', results, err) →
  NewNodeClaims results = newNodeClaims s' ∧ ExistingNodes results = existingNodes s' ∧
  (∀ n, n ∈ NewNodeClaims results → claim_has_room n) ∧
  (∀ i n, ExistingNodes results !! i = Some n → en_Pods n ≠ [] →
     ∃ before, existingNodes s !! i = Some before ∧ existing_within before n).
Proof.
  intros Hnd Hrelax Hn He (s0 & timedOut & final & Hc & Hs & (s1 & Hf & ->)%fmap_Some & _ & ->)%Scheduler_Solve_inv.
  split; [done|]. split; [done|].
  assert (∀ s2, r_scheduler (ls_state (timedOut, final).2) = Some s2 → within pods (existingNodes s) s2) as Hw.
  { eapply (Solve_preserves _ _ _ _ _ _ _ (known_pod pods) (λ st, ∀ s2, r_scheduler st = Some s2 → within pods (existingNodes s) s2));
      [| | |exact Hs| |].
    - intros p r p' HR (p0 & Hp0 & Hu & Hq). exists p0. rewrite (Relax_UID _ _ _ _ HR), (Hrelax _ _ _ HR). done.
    - intros st p Hk Hin s2. unfold run_add. destruct (r_scheduler st) as [s3|] eqn:Es; [|simpl; congruence].
      destruct (add _ _ _ _ _ _) as [r e] eqn:Ea. simpl. intros ->. apply add_cases in Ea as (base & Hb & Hcase).
      assert (within pods (existingNodes s) base) by (destruct Hb as [-> | ->]; [|apply within_sorted]; eauto).
      destruct e; [by subst|]. by eapply within_placed.
    - intros st p Hk Hin s2. unfold run_update. simpl. destruct (r_scheduler st) as [s3|] eqn:Es; simpl; [|done].
      destruct (Update _ _ _) as [t o]. intros Hu. apply (within_cached pods _ Hnd (with_topology s3 t) p s2); [by destruct o as [[]|]|done|].
      destruct (Hin s3 eq_refl) as [Ha Hb Hd]. by split.
    - apply Forall_forall. intros p Hp. by exists p.
    - intros s2 [= <-]. by eapply initial_within. }
  destruct (Hw s1 Hf) as [_ Hcl Hex]. simpl. split.
  - intros n (m & -> & Hm)%list_elem_of_fmap. rewrite Forall_forall in Hcl. destruct (Hcl m Hm) as [_ Hroom].
    by exists (nc_Requirements m).
  - intros i n Hi Hp. destruct (Forall2_lookup_r _ _ _ _ _ Hex Hi) as (before & Hb & Hq & [?|[Hpos Hv]]); [done|].
    exists before. split; [done|]. split; [|done]. intros k. specialize (Hq k). specialize (Hpos k). lia.
Qed.

(** ** NodePool limits *)

Section limits.
  Context (pool k : string) (limit : Z).
  Hypothesis template_capacities : ∀ nct, nct ∈ nodeClaimTemplates config → Forall capacity_wf (nct_InstanceTypeOptions nct).

Definition max_capacity (its : list InstanceType) : Z := qty (MaxResources (Capacity <$> its)) k.

(** What a claim can use of the pool's resource. *)
Definition claim_weight (n : NodeClaim) : Z :=
  if decide (NodePoolName n = pool) then max_capacity (InstanceTypeOptions n) else 0%Z.

Definition within_limit (s : Scheduler) : Prop :=
  Forall (λ n, Forall capacity_wf (InstanceTypeOptions n)) (newNodeClaims s) ∧
  ∃ q, pool_remaining s !! pool ≫= (.!! k) = Some q ∧ (0 ≤ q)%Z ∧
    (sumZ (claim_weight <$> newNodeClaims s) + q ≤ limit)%Z.

Lemma max_capacity_nonneg its : Forall capacity_wf its → (0 ≤ max_capacity its)%Z.
Proof.
  intros Hwf. unfold max_capacity, qty. destruct (_ !! k) as [m|] eqn:Em; simpl; [|done].
  apply MaxResources_attained in Em as (r & (x & -> & Hx)%list_elem_of_fmap & Hr).
  rewrite Forall_forall in Hwf. by eapply Hwf.
Qed.

(** The maximum is at most any bound of all the options. *)
Lemma max_capacity_le its q :
  Forall capacity_wf its → (∀ x, x ∈ its → (qty (Capacity x) k ≤ q)%Z) → (0 ≤ q)%Z → (max_capacity its ≤ q)%Z.
Proof.
  intros Hwf Hle Hq. unfold max_capacity, qty. destruct (_ !! k) as [m|] eqn:Em; simpl; [|done].
  apply MaxResources_attained in Em as (r & (x & -> & Hx)%list_elem_of_fmap & Hr).
  specialize (Hle x Hx). unfold qty in Hle. by rewrite Hr in Hle.
Qed.

Lemma max_capacity_ge its it : Forall capacity_wf its → it ∈ its → (qty (Capacity it) k ≤ max_capacity its)%Z.
Proof.
  intros Hwf Hit. apply (max_bounds its it k (max_capacity its `max` foldr Z.max 0%Z ((λ x, qty (Capacity x) k) <$> its))%Z);
    [done|done| |].
  - intros x Hx. assert (qty (Capacity x) k ≤ foldr Z.max 0 ((λ x, qty (Capacity x) k) <$> its))%Z; [|lia].
    clear Hwf Hit. induction its as [|y its IH]; [by apply not_elem_of_nil in Hx|]. csimpl.
    apply elem_of_cons in Hx as [->|Hx]; [lia|]. specialize (IH Hx). lia.
  - pose proof (max_capacity_nonneg its Hwf). lia.
Qed.

Lemma max_capacity_mono its its' :
  Forall capacity_wf its → (∀ x, x ∈ its' → x ∈ its) → Forall capacity_wf its' ∧ (max_capacity its' ≤ max_capacity its)%Z.
Proof.
  intros Hwf Hsub. rewrite Forall_forall in Hwf.
  assert (Forall capacity_wf its') as Hwf' by (apply Forall_forall; auto). split; [done|].
  rewrite <-Forall_forall in Hwf. apply max_capacity_le; [done| |by apply max_capacity_nonneg].
  intros x Hx. apply max_capacity_ge; auto.
Qed.

Lemma sumZ_insert_le {A} (w : A → Z) l i x y :
  l !! i = Some x → (w y ≤ w x)%Z → (sumZ (w <$> <[i := y]> l) ≤ sumZ (w <$> l))%Z.
Proof.
  revert i. induction l as [|z l IH]; intros [|i] Hi Hw; simplify_eq/=; csimpl; [lia|]. specialize (IH i Hi Hw). csimpl. lia.
Qed.

(** The options of a new claim are options of its template within what remains. *)
Lemma limited_types_spec s nct its it :
  limited_types (E := E) s nct = Ok its → it ∈ its →
  it ∈ nct_InstanceTypeOptions nct ∧
  ∀ remaining q, pool_remaining s !! nct_NodePoolName nct = Some remaining → remaining !! k = Some q →
    (qty (Capacity it) k ≤ q)%Z.
Proof.
  unfold limited_types. destruct (pool_remaining s !! nct_NodePoolName nct) as [remaining|]; [|intros [= <-]; naive_solver].
  destruct (match remaining !! ResourceNodes with Some q => IsZero q | None => false end); [done|].
  destruct (filterByRemainingResources _ _) as [|x l] eqn:Ef; [done|]. intros [= <-]. rewrite <-Ef.
  rewrite filterByRemainingResources_spec. intros [H1 H2]. split; [done|]. intros r q [= <-]. apply H2.
Qed.

Lemma claim_weight_step n n' a t rm p podData vols relax t' rm' :
  Forall capacity_wf (InstanceTypeOptions n) → CanAdd t rm n p podData vols relax = Ok a →
  NodeClaim_Add t rm n p podData vols a = Some (t', rm', n') →
  Forall capacity_wf (InstanceTypeOptions n') ∧ (claim_weight n' ≤ claim_weight n)%Z.
Proof.
  intros Hwf Hc (_ & Hi & Hp & _)%NodeClaim_Add_fields. unfold claim_weight. rewrite Hi, Hp.
  destruct (max_capacity_mono (InstanceTypeOptions n) (updatedInstanceTypes a) Hwf) as [H1 H2].
  { intros x Hx. by destruct (CanAdd_types _ _ _ _ _ _ _ _ _ _ Hc x Hx). }
  split; [done|]. case_decide; [done|lia].
Qed.

Lemma within_limit_new s p i nct vols relax n a t rm n' id ann :
  within_limit s → nodeClaimTemplates config !! i = Some nct →
  try_template (E := E) config ReservedCapacity allocator s p vols i nct = Ok (n, a) →
  CanAdd (topology s) (reservationManager s) n p (pod_data s p) vols relax = Ok a →
  NodeClaim_Add (topology s) (reservationManager s) n p (pod_data s p) vols a = Some (t, rm, n') →
  within_limit (mkScheduler (newNodeClaims s ++ [n']) (existingNodes s)
    (<[NodePoolName n' := subtractMax (default ∅ (pool_remaining s !! NodePoolName n')) (InstanceTypeOptions n')]>
       (pool_remaining s)) (cachedPodData s) t rm id ann).
Proof using template_capacities.
  intros [Hwf (q & Hq & Hq0 & Hsum)] Hi Ht HC Ha. pose proof Ha as (_ & Hits & Hp & _)%NodeClaim_Add_fields.
  destruct (try_template_Ok _ _ _ _ _ _ _ Ht) as (its & Hl & Hn & _).
  assert (∀ x, x ∈ InstanceTypeOptions n' → x ∈ its) as Hsub.
  { rewrite Hits. intros x Hx. destruct (CanAdd_types _ _ _ _ _ _ _ _ _ _ HC x Hx) as [Hin _]. by rewrite Hn in Hin. }
  assert (Forall capacity_wf (InstanceTypeOptions n')) as Hwf'.
  { apply Forall_forall. intros x Hx%Hsub. destruct (limited_types_spec s nct its x Hl Hx) as [Hx' _].
    pose proof (template_capacities nct (list_elem_of_lookup_2 _ _ _ Hi)) as Hall. rewrite Forall_forall in Hall. auto. }
  assert (NodePoolName n' = nct_NodePoolName nct) as Hname by (rewrite Hp, Hn; done).
  split; [simpl; apply Forall_app; auto|]. simpl. rewrite fmap_app, sumZ_app. csimpl. unfold claim_weight at 2.
  destruct (decide (NodePoolName n' = pool)) as [Hpool|Hpool].
  - rewrite <-Hpool in Hq |- *. rewrite lookup_insert_eq. simpl.
    destruct (pool_remaining s !! NodePoolName n') as [r|] eqn:Er; simpl in Hq |- *; [|done].
    assert (max_capacity (InstanceTypeOptions n') ≤ q)%Z as Hmax.
    { apply max_capacity_le; [done| |done]. intros x Hx%Hsub.
      destruct (limited_types_spec s nct its x Hl Hx) as [_ Hx']. apply (Hx' r q); [by rewrite <-Hname|done]. }
    pose proof (max_capacity_nonneg _ Hwf').
    destruct (InstanceTypeOptions n') as [|x l] eqn:Eo.
    + exists q. split_and!; [done|done|]. change (max_capacity []) with 0%Z. lia.
    + rewrite subtractMax_lookup by done. rewrite Hq.
      exists (q - max_capacity (x :: l))%Z. split; [done|]. lia.
  - rewrite lookup_insert_ne by done. exists q. split_and!; [done|done|lia].
Qed.

Lemma within_limit_invariant : run_invariant within_limit.
Proof using template_capacities.
  split.
  - unfold within_limit. intros s s' (-> & _ & -> & _) ?. done.
  - intros s [Hwf (q & Hq & Hq0 & Hsum)]. split; simpl; [by rewrite sort_by_Permutation|].
    exists q. split_and!; [done|done|]. erewrite sumZ_Permutation; [exact Hsum|]. by rewrite sort_by_Permutation.
  - intros s p s' Hin [i n vols reqs r t n' Hi HC Ha|i n vols a t rm n' Hi HC Ha|i nct vols relax n a t rm n' id ann Hi Ht HC Ha].
    + exact Hin.
    + destruct Hin as [Hwf (q & Hq & Hq0 & Hsum)].
      assert (Forall capacity_wf (InstanceTypeOptions n)) as Hn.
      { rewrite Forall_forall in Hwf. apply Hwf. by eapply list_elem_of_lookup_2. }
      destruct (claim_weight_step _ _ _ _ _ _ _ _ _ _ _ Hn HC Ha) as [Hn' Hw].
      split; simpl; [by apply Forall_insert|]. exists q. split_and!; [done|done|].
      pose proof (sumZ_insert_le claim_weight _ _ _ _ Hi Hw). lia.
    + by eapply within_limit_new.
Qed.

Lemma picked_capacity (pick : NodeClaim → InstanceType) claims :
  Forall (λ n, Forall capacity_wf (InstanceTypeOptions n)) claims → (∀ n, n ∈ claims → pick n ∈ InstanceTypeOptions n) →
  (sumZ ((λ n, qty (Capacity (pick n)) k) <$> filter (λ n, NodePoolName n = pool) claims)
   ≤ sumZ (claim_weight <$> claims))%Z.
Proof.
  induction claims as [|n claims IH]; intros Hwf Hp; [done|]. apply Forall_cons in Hwf as [Hn Hwf].
  specialize (IH Hwf ltac:(intros; apply Hp; by right)). csimpl. rewrite filter_cons. unfold claim_weight at 1.
  destruct (decide (NodePoolName n = pool)); csimpl; [|lia].
  pose proof (max_capacity_ge _ (pick n) Hn ltac:(apply Hp; by left)). lia.
Qed.
End limits.

(** C8: NodePool limits hold for a whole run: whichever of its options each new
    claim of a pool is launched with, together the instance types' capacities have no more of a
    limited resource than was left of the limit when the run began.  The
    capacity is the instance type's own, as the code counts it, without the overrides of single
    offerings, and the limit on the number of nodes is left out: it is only
    compared with zero and a new claim takes nothing off it
    ([node_limit_not_reduced]). *)
Theorem Solve_respects_limits s pods s' results err pool k limit pick :
  k ≠ ResourceNodes →
  (∀ nct, nct ∈ nodeClaimTemplates config → Forall capacity_wf (nct_InstanceTypeOptions nct)) →
  newNodeClaims s = [] → pool_remaining s !! pool ≫= (.!! k) = Some limit → (0 ≤ limit)%Z →
  Scheduler_Solve s pods = Some (s', results, err) →
  (∀ n, n ∈ NewNodeClaims results → pick n ∈ InstanceTypeOptions n) →
  (sumZ ((λ n, qty (Capacity (pick n)) k) <$> filter (λ n, NodePoolName n = pool) (NewNodeClaims results)) ≤ limit)%Z.
Proof.
  intros _ Hcap Hn Hl Hl0 Hs Hp. pose proof Hs as (s0 & timedOut & final & _ & _ & _ & _ & Hr)%Scheduler_Solve_inv.
  rewrite Hr in Hp |- *. simpl in Hp |- *.
  apply (Solve_invariant _ _ _ _ _ _ (within_limit_invariant pool k limit Hcap)) in Hs as (s1 & [Hwf (q & _ & Hq0 & Hsum)] & Hs').
  - assert (Forall (λ n, Forall capacity_wf (InstanceTypeOptions n)) (newNodeClaims s') ∧
      sumZ (claim_weight pool k <$> newNodeClaims s') = sumZ (claim_weight pool k <$> newNodeClaims s1)) as [Hwf' Hsum'].
    { subst s'. simpl. rewrite Forall_fmap. split; [done|]. by rewrite <-list_fmap_compose. }
    pose proof (picked_capacity pool k pick _ Hwf' Hp). lia.
  - split; [by rewrite Hn|]. exists limit. rewrite Hn. simpl. split_and!; [done|done|lia].
Qed.

(** Whether minValues were relaxed is recorded in an annotation map that all
    claims of a template share: creating a claim rewrites the annotation of the
    earlier claims of its template with the verdict about the new one. *)
Theorem relaxed_annotation_overwritten s p vols s' :
  addToNewNodeClaim (E := E) config ReservedCapacity allocator s p vols = Ok (Some s') →
  ∃ i fresh n', nc_Annotations n' = SharedWith i ∧ newNodeClaims s' = newNodeClaims s ++ [n'] ∧
    ∀ n, n ∈ newNodeClaims s → nc_Annotations n = SharedWith i →
      annotations_of (template_annotations s') (nc_Annotations n) !! NodeClaimMinValuesRelaxedAnnotationKey =
      Some (if minValuesRelaxed (nc_Requirements fresh) (nc_Requirements n') then "true" else "false").
Proof.
  unfold addToNewNodeClaim. destruct (first_success _ _ _) as [[i [[n a]|e]]|] eqn:Hf; [|by destruct (is_panic e)|done].
  apply first_success_Some in Hf as (j & nct & -> & Hj & Ht). change (0 + j) with j in *. apply template_decides_Some in Ht as [Et _].
  destruct (try_template_Ok _ _ _ _ _ _ _ Et) as (its & _ & Hn & _).
  intros [= Hadd]. apply bind_Some in Hadd as ([[t rm] n'] & Hadd & [= <-]).
  apply bind_Some in Hadd as (rm1 & _ & [= <- <- <-]).
  exists j, n. eexists. split; cycle 1; [split; [reflexivity|]|by subst n].
  intros m _ ->. simpl. rewrite lookup_insert_eq. simpl. by rewrite lookup_insert_eq.
Qed.
End solver.
