(* ===== verification/Candidates.v ===== *)
(** * Candidates: the nodes a disruption method may act on, and its commands
    (pkg/controllers/disruption/types.go and helpers.go; [PriceNodeClaim] of
    pkg/cloudprovider/types.go)

    A candidate is a node of the cluster state whose NodePool and instance types are
    known, together with its price and what it costs to move its pods.  Events and
    metrics are not modelled. *)

From S2P Require Import Prelude Float64 Labels Requirement Objects RepairPolicy Requirements Resources.
From S2P Require Import Taints InstanceTypes Reservations PodState DisruptionCost TopologyGroup Topology NodeClaims.
From S2P Require Import Budgets Templates ExistingNodes Evictions StateNodes Scheduler Solver.

Definition GracefulDisruptionClass : string := "graceful".
Definition EventualDisruptionClass : string := "eventual".
Definition RepairDisruptionClass : string := "repair".

Record Candidate := mkCandidate {
  c_StateNode : StateNode;
  c_instanceType : option InstanceType;
  c_NodePool : NodePool;
  c_zone : string;
  c_capacityType : string;
  c_DisruptionCost : float64;
  c_reschedulablePods : list Pod;
  c_hasPodBlockers : bool;
  c_Price : float64;
  c_RescheduleDisruptionCost : float64;
  c_TerminationGracePeriod : option Z;
  c_RepairPolicyResult : RepairResult;
  c_RebootEscalated : bool;
}.

(** The methods promoted from the embedded state node: a candidate has a Node and a
    NodeClaim, so its name and labels exist. *)
Definition candidate_Name (c : Candidate) : string := default EmptyString (Name (c_StateNode c)).
Definition candidate_Labels (c : Candidate) : gmap string string := default ∅ (st_Labels (c_StateNode c)).
Definition candidate_ProviderID (c : Candidate) : string := default EmptyString (ProviderID (c_StateNode c)).
Definition candidate_pool (c : Candidate) : string := np_Name (np_template (c_NodePool c)).

(** [NodeClaim.StatusConditions().Get(type).IsTrue()] of a candidate. *)
Definition candidate_condition (type : string) (c : Candidate) : bool :=
  claim_condition_has ConditionTrue type (c_StateNode c).

Definition candidate_SavingsRatio (c : Candidate) : option float64 :=
  SavingsRatio (c_Price c) (c_RescheduleDisruptionCost c).

Definition OwnedByStaticNodePool (c : Candidate) : bool := bool_decide (is_Some (np_Replicas (c_NodePool c))).

Definition candidate_IsEmpty (c : Candidate) : bool := fleb (c_RescheduleDisruptionCost c) PerNodeBaseDisruptionCost.

(** ** Prices of launched NodeClaims *)

(** A provider returns a price and whether it is known. *)
Definition NodeClaimPriceProvider : Type := v1NodeClaim → option InstanceType → float64 * bool.

Definition DefaultNodeClaimPriceProvider `{LR : LabelRegistry} (draw : Z → Z) : NodeClaimPriceProvider := λ nodeClaim instanceType,
  match instanceType with
  | None => (Fin 0, false)
  | Some it =>
      match OfferingPrice draw it (default EmptyString (claim_Labels nodeClaim !! LabelTopologyZone))
              (default EmptyString (claim_Labels nodeClaim !! CapacityTypeLabelKey)) with
      | Some p => (Fin p, true)
      | None => (Fin 0, false)
      end
  end.

Definition PriceNodeClaim (provider : NodeClaimPriceProvider) (nodeClaim : v1NodeClaim) (instanceType : option InstanceType)
    : float64 * bool :=
  match provider nodeClaim instanceType with
  | (Fin p, true) => if (p <? 0)%Z then (Fin 0, false) else (Fin p, true)
  | _ => (Fin 0, false)
  end.

(** ** Constructing a candidate *)

Inductive candidate_error :=
| AlreadyDisrupted
| RepairNeedsNodePool
| NodeNotDisruptable (e : disruptable_error)
| NodePoolNotFound (name : string)
| PodsNotDisruptable (e : pods_error).

Section candidates.
  Context `{SA : SelectorApi} `{TA : TaintApi} (ParseDuration : string → option Z) (api : NodeApi).
  Context (PodDeletionCostManagement : bool) (priceProvider : NodeClaimPriceProvider).

(** What the class of the disruption ignores of the node's and of the pods' blockers. *)
Definition node_blocker (disruptionClass : string) (e : option disruptable_error) : option disruptable_error :=
  if bool_decide (disruptionClass = RepairDisruptionClass)
  then IgnoreNodeUninitializedError (IgnoreNodeDoNotDisruptError e) else e.

Definition pod_blocker (disruptionClass : string) (claim : v1NodeClaim) (e : option pods_error) : option pods_error :=
  if bool_decide (disruptionClass = RepairDisruptionClass) then IgnorePodBlockEvictionError e
  else if bool_decide (disruptionClass = EventualDisruptionClass) &&
          bool_decide (is_Some (claim_TerminationGracePeriod claim)) then IgnorePodBlockEvictionError e
  else e.

(** [None] is a nil dereference; [hasAny] is the queue's [HasAny]. *)
Definition NewCandidate (now : Z) (node : StateNode) (pdbs : list pdbItem) (nodePoolMap : gmap string NodePool)
    (nodePoolToInstanceTypesMap : gmap string (gmap string InstanceType)) (hasAny : string → bool)
    (disruptionClass : string) : option (result candidate_error Candidate) :=
  id ← ProviderID node;
  if hasAny id : bool then Some (Err AlreadyDisrupted) else
  labels ← st_Labels node;
  let nodePoolName := default EmptyString (labels !! NodePoolLabelKey) in
  if bool_decide (disruptionClass = RepairDisruptionClass) && bool_decide (is_Some (st_NodeClaim node)) &&
     bool_decide (nodePoolName = EmptyString) then Some (Err RepairNeedsNodePool) else
  match node_blocker disruptionClass (ValidateNodeDisruptable now node) with
  | Some e => Some (Err (NodeNotDisruptable e))
  | None =>
      claim ← st_NodeClaim node;
      match nodePoolMap !! nodePoolName, nodePoolToInstanceTypesMap !! nodePoolName with
      | Some nodePool, Some instanceTypeMap =>
          let instanceType := instanceTypeMap !! default EmptyString (labels !! LabelInstanceTypeStable) in
          let '(pods, err) := ValidatePodsDisruptable ParseDuration api pdbs now node in
          match pod_blocker disruptionClass claim err with
          | Some e => Some (Err (PodsNotDisruptable e))
          | None =>
              let reschedulable := filter (λ p, IsReschedulable p = true) pods in
              Some (Ok (mkCandidate node instanceType nodePool
                (default EmptyString (labels !! LabelTopologyZone)) (default EmptyString (labels !! CapacityTypeLabelKey))
                (fmul (ReschedulingCost PodDeletionCostManagement pods) (LifetimeRemaining now claim))
                reschedulable
                (bool_decide (disruptionClass = RepairDisruptionClass) && bool_decide (is_Some err))
                (PriceNodeClaim priceProvider claim instanceType).1
                (ComputeRescheduleDisruptionCost PodDeletionCostManagement reschedulable)
                None empty_result false))
          end
      | _, _ => Some (Err (NodePoolNotFound nodePoolName))
      end
  end.
End candidates.

(** ** Commands *)

(** The disruption methods of [NewMethods]. *)
Inductive Method := RepairMethod | EmptinessMethod | StaticDriftMethod | DriftMethod | MultiNodeMethod | SingleNodeMethod.

Definition Method_Reason (m : Method) : string :=
  match m with
  | RepairMethod => DisruptionReasonUnhealthy
  | EmptinessMethod => DisruptionReasonEmpty
  | StaticDriftMethod | DriftMethod => DisruptionReasonDrifted
  | MultiNodeMethod | SingleNodeMethod => DisruptionReasonUnderutilized
  end.

Definition Method_Class (m : Method) : string :=
  match m with
  | RepairMethod => RepairDisruptionClass
  | EmptinessMethod | MultiNodeMethod | SingleNodeMethod => GracefulDisruptionClass
  | StaticDriftMethod | DriftMethod => EventualDisruptionClass
  end.

Record Replacement := mkReplacement {
  rp_NodeClaim : NodeClaim;
  rp_IsStaticNodeClaim : bool;
  rp_Name : string;
  rp_Initialized : bool;
}.

Definition replacementsFromNodeClaims (IsStatic : bool) (newNodeClaims : list NodeClaim) : list Replacement :=
  (λ n, mkReplacement n IsStatic EmptyString false) <$> newNodeClaims.

Definition TerminateFirstNoReservedCapacity : string := "no-reserved-capacity".
Definition TerminateFirstStaticAtLimit : string := "static-at-limit".

Definition Explanation (r : string) : string :=
  if bool_decide (r = TerminateFirstNoReservedCapacity) then "its capacity reservation is full"
  else if bool_decide (r = TerminateFirstStaticAtLimit) then "its NodePool is at its node limit"
  else r.

Record Command (E : Type) := mkCommand {
  cmd_Results : Results E;
  cmd_Candidates : list Candidate;
  cmd_Replacements : list Replacement;
  cmd_PoolDisruptionCosts : option (gmap string float64);
  cmd_TerminateFirstReason : string;
  cmd_Reboot : bool;
}.
Arguments mkCommand {E} _ _ _ _ _ _.
Arguments cmd_Results {E} _.
Arguments cmd_Candidates {E} _.
Arguments cmd_Replacements {E} _.
Arguments cmd_PoolDisruptionCosts {E} _.
Arguments cmd_TerminateFirstReason {E} _.
Arguments cmd_Reboot {E} _.

Definition empty_results {E} : Results E := mkResults [] [] ∅.

(** [Command{}]. *)
Definition empty_command {E} : Command E := mkCommand empty_results [] [] None EmptyString false.

Inductive CommandDecision := NoOpDecision | ReplaceDecision | DeleteDecision | TerminateFirstDecision | RebootDecision.

#[export] Instance CommandDecision_eq_dec : EqDecision CommandDecision.
Proof. solve_decision. Defined.

Definition Command_Decision {E} (c : Command E) : CommandDecision :=
  match cmd_Candidates c with
  | [] => NoOpDecision
  | _ :: _ =>
      if cmd_Reboot c then RebootDecision
      else match cmd_Replacements c with
           | _ :: _ => ReplaceDecision
           | [] => if bool_decide (cmd_TerminateFirstReason c = EmptyString) then DeleteDecision
                   else TerminateFirstDecision
           end
  end.

(** A sum that starts at the zero value of a map. *)
Definition add_cost (costs : gmap string float64) (k : string) (x : float64) : gmap string float64 :=
  <[k := fadd (default (Fin 0) (costs !! k)) x]> costs.

Definition PoolDisruptionCost {E} (c : Command E) (poolName : string) : float64 :=
  match cmd_PoolDisruptionCosts c with
  | Some costs => default (Fin 0) (costs !! poolName)
  | None => foldl (λ cost cand, if bool_decide (candidate_pool cand = poolName)
                                then fadd cost (c_RescheduleDisruptionCost cand) else cost)
              (Fin 0) (cmd_Candidates c)
  end.

Definition computePoolDisruptionCosts (candidates : list Candidate) : option (gmap string float64) :=
  match candidates with
  | [] => None
  | _ => Some (foldl (λ costs c, add_cost costs (candidate_pool c) (c_RescheduleDisruptionCost c)) ∅ candidates)
  end.

Definition sumCandidatePrices (candidates : list Candidate) : float64 := fsum (c_Price <$> candidates).

Definition SourceCost {E} (c : Command E) : float64 := sumCandidatePrices (cmd_Candidates c).

Section savings.
  Context `{LR : LabelRegistry}.

(** The cheapest offering the first instance type of a claim can launch. *)
Definition destination_price (nodeClaim : NodeClaim) : option Z :=
  it ← head (InstanceTypeOptions nodeClaim);
  Price <$> Cheapest (Offerings_Compatible (Offerings_Launchable (Offerings it)) (nc_Requirements nodeClaim)).

Definition EstimatedSavings {E} (c : Command E) : float64 :=
  if cmd_Reboot c then Fin 0 else
  let sourcePrice := SourceCost c in
  match cmd_Replacements c with
  | [] => sourcePrice
  | _ =>
      let destPrice := foldl (λ dest n, match destination_price n with
                                        | Some p => fadd dest (Fin p)
                                        | None => dest
                                        end) (Fin 0) (NewNodeClaims (cmd_Results c)) in
      fsub sourcePrice destPrice
  end.
End savings.

(** ** Groups of candidates and NodePools *)

Section pools.
  (** [cloudProvider.GetInstanceTypes]: [None] is an error. *)
  Context (GetInstanceTypes : NodePool → option (list InstanceType)).

Definition pool_name (np : NodePool) : string := np_Name (np_template np).

Definition BuildNodePoolMap (nodePools : list NodePool) : gmap string NodePool * gmap string (gmap string InstanceType) :=
  foldl (λ '(nodePoolMap, types) np,
    (<[pool_name np := np]> nodePoolMap,
     match GetInstanceTypes np with
     | None | Some [] => types
     | Some its => <[pool_name np := foldl (λ m it, <[it_Name it := it]> m) ∅ its]> types
     end)) (∅, ∅) nodePools.
End pools.

Definition instanceTypesAreSubset (lhs rhs : list InstanceType) : bool :=
  let rhsNames : gset string := list_to_set (it_Name <$> rhs) in
  let lhsNames : gset string := list_to_set (it_Name <$> lhs) in
  (size (rhsNames ∩ lhsNames) =? size lhsNames)%nat.

Definition mapCandidates (proposed current : list Candidate) : list Candidate :=
  filter (λ c, candidate_Name c ∈ (list_to_set (candidate_Name <$> proposed) : gset string)) current.

(** ** How many nodes of a NodePool are being disrupted *)

Definition increment (m : gmap string Z) (k : string) : gmap string Z := <[k := (default 0 (m !! k) + 1)%Z]> m.

Definition counts_as_node (node : StateNode) : bool :=
  let rebootDisrupting := RebootInProgress node || RebootReinitializing node in
  Managed node && (Initialized node || rebootDisrupting) &&
  negb (claim_condition_has ConditionTrue ConditionTypeInstanceTerminating node).

Definition NodeReady : string := "Ready".

(** [None] is the nil dereference of a claim that is rebooting without a Node. *)
Definition counts_as_disrupting (reason : string) (node : StateNode) : option bool :=
  let rebootDisrupting := RebootInProgress node || RebootReinitializing node in
  n ← st_Node node;
  let notReady := negb (bool_decide (cond_Status (GetCondition n NodeReady) = ConditionTrue)) in
  Some (MarkedForDeletion node || rebootDisrupting || (notReady && negb (bool_decide (reason = DisruptionReasonUnhealthy)))).

Definition node_pool_label (node : StateNode) : string :=
  default EmptyString (st_Labels node ≫= lookup NodePoolLabelKey).

(** Nodes and disrupting nodes per NodePool. *)
Definition NodePoolStatsFromNodes (nodes : list StateNode) (reason : string) : option (gmap string Z * gmap string Z) :=
  foldl_opt (λ '(numNodes, disrupting) node,
    if negb (counts_as_node node) then Some (numNodes, disrupting) else
    let nodePool := node_pool_label node in
    isDisrupting ← counts_as_disrupting reason node;
    Some (increment numNodes nodePool,
          if isDisrupting : bool then increment disrupting nodePool else disrupting)) (∅, ∅) nodes.

Section budget_mapping.
  Context `{CA : CronApi} `{IS : IntStrApi}.

(** What is left of a NodePool's budget. *)
Definition remaining_budget (now : Z) (numNodes disrupting : gmap string Z) (reason : string) (np : NodePool) : Z :=
  let allowed := MustGetAllowedDisruptions (np_Budgets np) now (default 0%Z (numNodes !! pool_name np)) reason in
  ((allowed - default 0 (disrupting !! pool_name np)) `max` 0)%Z.

Definition NodePoolBudgetMap (now : Z) (nodePools : gmap string NodePool) (numNodes disrupting : gmap string Z)
    (reason : string) : gmap string Z :=
  map_imap (λ name np,
    let allowed := MustGetAllowedDisruptions (np_Budgets np) now (default 0%Z (numNodes !! name)) reason in
    let remaining := (allowed - default 0 (disrupting !! name))%Z in
    Some (if (remaining <? 0)%Z then 0%Z else remaining)) nodePools.

Definition BuildDisruptionBudgetMapping (now : Z) (nodes : list StateNode) (nodePools : list NodePool) (reason : string)
    : option (gmap string Z) :=
  '(numNodes, disrupting) ← NodePoolStatsFromNodes nodes reason;
  Some (foldl (λ mapping np, <[pool_name np := remaining_budget now numNodes disrupting reason np]> mapping) ∅ nodePools).
End budget_mapping.

(** ** Properties *)

Section properties.
  Context `{SA : SelectorApi} `{TA : TaintApi} (ParseDuration : string → option Z) (api : NodeApi).
  Context (PodDeletionCostManagement : bool) (priceProvider : NodeClaimPriceProvider).

Abbreviation new_candidate := (NewCandidate ParseDuration api PodDeletionCostManagement priceProvider).

Lemma ValidateNodeDisruptable_objects now node :
  node_blocker RepairDisruptionClass (ValidateNodeDisruptable now node) = None → is_Some (st_NodeClaim node) ∧ is_Some (st_Node node).
Proof.
  unfold ValidateNodeDisruptable, node_blocker. rewrite bool_decide_eq_true_2 by done.
  destruct (st_NodeClaim node), (st_Node node); by eauto.
Qed.

Lemma node_blocker_weaker class e : node_blocker class e = None → node_blocker RepairDisruptionClass e = None.
Proof.
  unfold node_blocker. rewrite (bool_decide_eq_true_2 (RepairDisruptionClass = _)) by done.
  case_bool_decide; [done|]. by intros ->.
Qed.

(** Constructing a candidate from a node of the cluster state never panics. *)
Lemma NewCandidate_total now node pdbs pools types hasAny class :
  has_object node → is_Some (new_candidate now node pdbs pools types hasAny class).
Proof.
  intros Ho. unfold NewCandidate.
  assert (is_Some (ProviderID node) ∧ is_Some (st_Labels node)) as [[id ->] [labels ->]].
  { revert Ho. unfold ProviderID, st_Labels, of_objects, has_object.
    destruct (st_Node node), (st_NodeClaim node); [by eauto..|]. by intros [[]|[]]. }
  cbn [mbind option_bind]. destruct (hasAny id); [by eauto|]. destruct (_ && _ && _); [by eauto|].
  destruct (node_blocker class _) eqn:E; [by eauto|].
  apply node_blocker_weaker, ValidateNodeDisruptable_objects in E as [[claim ->] _]. cbn [mbind option_bind].
  cbv zeta. destruct (pools !! _); [|by eauto]. destruct (types !! _); [|by eauto].
  destruct (ValidatePodsDisruptable _ _ _ _ _) as [pods err]. destruct (pod_blocker _ _ _); by eauto.
Qed.

Lemma PriceNodeClaim_known claim it : ∃ p, (PriceNodeClaim priceProvider claim it).1 = Fin p ∧ (0 ≤ p)%Z.
Proof.
  unfold PriceNodeClaim. destruct (priceProvider claim it) as [[p| | |] []]; try (by exists 0%Z).
  destruct (Z.ltb_spec p 0); [by exists 0%Z|by exists p].
Qed.

Lemma NewCandidate_inv now node pdbs pools types hasAny class c :
  new_candidate now node pdbs pools types hasAny class = Some (Ok c) →
  ∃ id claim its pods err, ProviderID node = Some id ∧ hasAny id = false ∧
    node_blocker class (ValidateNodeDisruptable now node) = None ∧ st_NodeClaim node = Some claim ∧
    pools !! node_pool_label node = Some (c_NodePool c) ∧ types !! node_pool_label node = Some its ∧
    ValidatePodsDisruptable ParseDuration api pdbs now node = (pods, err) ∧ pod_blocker class claim err = None ∧
    c_StateNode c = node ∧ c_reschedulablePods c = filter (λ p, IsReschedulable p = true) pods ∧
    c_Price c = (PriceNodeClaim priceProvider claim (c_instanceType c)).1 ∧
    c_RescheduleDisruptionCost c = ComputeRescheduleDisruptionCost PodDeletionCostManagement (c_reschedulablePods c).
Proof.
  unfold NewCandidate. destruct (ProviderID node) as [id|] eqn:Eid; [|done]. cbn [mbind option_bind].
  destruct (hasAny id) eqn:Eq; [done|]. unfold node_pool_label. destruct (st_Labels node) as [labels|] eqn:El; [|done].
  cbn [mbind option_bind]. destruct (_ && _ && _); [done|]. destruct (node_blocker class _) eqn:Eb; [done|].
  destruct (st_NodeClaim node) as [claim|] eqn:Ec; [|done]. cbn [mbind option_bind].
  destruct (pools !! _) as [np|] eqn:Ep; [|done]. destruct (types !! _) as [its|] eqn:Et; [|done].
  destruct (ValidatePodsDisruptable _ _ _ _ _) as [pods err] eqn:Ev. destruct (pod_blocker _ _ _) eqn:Epb; [done|].
  intros [= <-]. by exists id, claim, its, pods, err.
Qed.

(** Which nodes become candidates.  No candidate is already in the queue, going away,
    rebooting or unregistered, and its NodePool is known.  A graceful candidate is in
    addition initialized, neither nominated nor annotated do-not-disrupt, and all its
    pods may be evicted; repair ignores the annotation and the missing initialization. *)
Theorem NewCandidate_admits now node pdbs pools types hasAny class c :
  new_candidate now node pdbs pools types hasAny class = Some (Ok c) →
  (∃ id, ProviderID node = Some id ∧ hasAny id = false) ∧ pools !! node_pool_label node = Some (c_NodePool c) ∧
  RebootInProgress node = false ∧ MarkedForDeletion node = false ∧
  (Initialized node = true ∨ class = RepairDisruptionClass ∧ Registered node = true) ∧
  (class = GracefulDisruptionClass →
     Nominated now node = false ∧ (Annotations node ≫= lookup DoNotDisruptAnnotationKey) ≠ Some "true" ∧
     ∃ pods, ValidatePodsDisruptable ParseDuration api pdbs now node = (pods, None)).
Proof.
  intros (id & claim & its & pods & err & Hid & Hq & Hb & Hc & Hp & _ & Hv & Hpb & _)%NewCandidate_inv.
  split_and!; [by eauto|done|..]; revert Hb; unfold node_blocker, ValidateNodeDisruptable; rewrite Hc;
    destruct (st_Node node) as [n|]; try (by case_bool_decide).
  - destruct (RebootInProgress node); [|done]. by case_bool_decide.
  - destruct (RebootInProgress node); [by case_bool_decide|]. destruct (MarkedForDeletion node); [by case_bool_decide|done].
  - destruct (RebootInProgress node); [by case_bool_decide|]. destruct (MarkedForDeletion node); [by case_bool_decide|].
    destruct (Initialized node); [by left|]. destruct (Registered node); cbn [negb]; case_bool_decide; by auto.
  - intros Hb ->. rewrite bool_decide_eq_false_2 in Hb by done.
    destruct (RebootInProgress node), (MarkedForDeletion node), (Initialized node), (Registered node), (Nominated now node);
      try done; (split; [done|]); case_bool_decide; try done; (split; [done|]); exists pods; rewrite Hv;
      unfold pod_blocker in Hpb; rewrite !bool_decide_eq_false_2 in Hpb by done; cbn in Hpb; by subst err.
Qed.
End properties.

(** The replacement types are all among those the simulation allows. *)
Lemma instanceTypesAreSubset_spec lhs rhs :
  instanceTypesAreSubset lhs rhs = true ↔ ∀ it, it ∈ lhs → ∃ it', it' ∈ rhs ∧ it_Name it' = it_Name it.
Proof.
  unfold instanceTypesAreSubset. set (R := list_to_set (it_Name <$> rhs) : gset string).
  set (L := list_to_set (it_Name <$> lhs) : gset string). rewrite Nat.eqb_eq.
  transitivity (L ⊆ R).
  - split; [|intros; f_equal; set_solver].
    intros Hs. assert (R ∩ L = L) as E; [|set_solver].
    apply set_subseteq_size_eq; [set_solver|lia].
  - unfold L, R. split.
    + intros H it Hit. assert (it_Name it ∈ (list_to_set (it_Name <$> rhs) : gset string)) as Hr.
      { apply H, elem_of_list_to_set, list_elem_of_fmap. by exists it. }
      apply elem_of_list_to_set, list_elem_of_fmap in Hr as (it' & ? & ?). by exists it'.
    + intros H x. rewrite !elem_of_list_to_set, !list_elem_of_fmap. intros (it & -> & Hit).
      destruct (H it Hit) as (it' & ? & ?). by exists it'.
Qed.


(** ** The budget mapping *)

(** Nodes of a pool, and those that use up its budget. *)
Definition pool_nodes (pool : string) (nodes : list StateNode) : list StateNode :=
  filter (λ n, counts_as_node n = true ∧ node_pool_label n = pool) nodes.

Definition pool_disrupting (reason pool : string) (nodes : list StateNode) : list StateNode :=
  filter (λ n, counts_as_disrupting reason n = Some true) (pool_nodes pool nodes).

Lemma increment_lookup m k k' :
  default 0%Z (increment m k !! k') = (default 0 (m !! k') + if decide (k = k') then 1 else 0)%Z.
Proof.
  unfold increment. case_decide as Hk; [subst k'; by rewrite lookup_insert_eq|].
  rewrite lookup_insert_ne by done. lia.
Qed.

Lemma NodePoolStats_counts nodes reason numNodes disrupting pool :
  NodePoolStatsFromNodes nodes reason = Some (numNodes, disrupting) →
  default 0%Z (numNodes !! pool) = Z.of_nat (length (pool_nodes pool nodes)) ∧
  default 0%Z (disrupting !! pool) = Z.of_nat (length (pool_disrupting reason pool nodes)).
Proof.
  unfold NodePoolStatsFromNodes, pool_disrupting, pool_nodes.
  assert (∀ m d, foldl_opt (λ '(numNodes, disrupting) node,
    if negb (counts_as_node node) then Some (numNodes, disrupting) else
    let nodePool := node_pool_label node in
    isDisrupting ← counts_as_disrupting reason node;
    Some (increment numNodes nodePool,
          if isDisrupting : bool then increment disrupting nodePool else disrupting)) (m, d) nodes = Some (numNodes, disrupting) →
    default 0%Z (numNodes !! pool) = (default 0 (m !! pool) + Z.of_nat (length (pool_nodes pool nodes)))%Z ∧
    default 0%Z (disrupting !! pool) = (default 0 (d !! pool) + Z.of_nat (length (pool_disrupting reason pool nodes)))%Z) as H.
  { unfold pool_disrupting, pool_nodes. induction nodes as [|n nodes IH]; intros m d; cbn [foldl_opt].
    - intros [= -> ->]. cbn. lia.
    - destruct (counts_as_node n) eqn:Ec; cbn [negb].
      + destruct (counts_as_disrupting reason n) as [b|] eqn:Ed; [|done]. cbn [mbind option_bind].
        intros [E1 E2]%IH. rewrite E1, E2, filter_cons. rewrite increment_lookup. case_decide as Hp.
        * rewrite decide_True by done. rewrite filter_cons. destruct b.
          -- rewrite increment_lookup, decide_True by done. rewrite decide_True by done. cbn [length]. lia.
          -- rewrite decide_False by congruence. cbn [length]. lia.
        * rewrite decide_False by (intros [_ ?]; congruence). destruct b; [|lia]. rewrite increment_lookup, decide_False by done. lia.
      + cbn [mbind option_bind]. intros [E1 E2]%IH. rewrite E1, E2, filter_cons, decide_False by (intros [? _]; congruence). lia. }
  intros E. apply (H ∅ ∅) in E. rewrite !lookup_empty in E. exact E.
Qed.

Section budget_properties.
  Context `{CA : CronApi} `{IS : IntStrApi}.

(** The mapping gives every NodePool what its budget allows for its nodes, less the
    nodes that already use the budget up, and never less than zero; with the nodes
    that are disrupted already, no more are disrupted than allowed or already are. *)
Theorem budget_mapping_spec now nodes nodePools reason mapping np :
  BuildDisruptionBudgetMapping now nodes nodePools reason = Some mapping →
  NoDup (pool_name <$> nodePools) → np ∈ nodePools →
  let allowed := MustGetAllowedDisruptions (np_Budgets np) now (Z.of_nat (length (pool_nodes (pool_name np) nodes))) reason in
  let disrupting := Z.of_nat (length (pool_disrupting reason (pool_name np) nodes)) in
  ∃ remaining, mapping !! pool_name np = Some remaining ∧ (0 ≤ remaining)%Z ∧
    (remaining + disrupting = allowed `max` disrupting)%Z.
Proof.
  unfold BuildDisruptionBudgetMapping. destruct (NodePoolStatsFromNodes nodes reason) as [[numNodes disrupting]|] eqn:E; [|done].
  cbn [mbind option_bind]. intros [= <-] Hnd Hin. cbv zeta.
  exists (remaining_budget now numNodes disrupting reason np). split.
  - clear E. revert Hnd Hin. generalize (∅ : gmap string Z). induction nodePools as [|np' l IH]; [by intros ? ? ?%not_elem_of_nil|].
    intros m. rewrite fmap_cons, NoDup_cons. intros [Hn Hnd] [->|Hin]%elem_of_cons; cbn [foldl]; [|by apply IH].
    clear IH. assert (∀ m' : gmap string Z, m' !! pool_name np' = Some (remaining_budget now numNodes disrupting reason np') →
      foldl (λ mapping np, <[pool_name np := remaining_budget now numNodes disrupting reason np]> mapping) m' l !! pool_name np'
      = Some (remaining_budget now numNodes disrupting reason np')) as H; [|apply H; by rewrite lookup_insert_eq].
    clear Hnd. induction l as [|np'' l IH]; intros m' Hm; [done|]. cbn [foldl]. rewrite fmap_cons, not_elem_of_cons in Hn.
    apply IH; [by apply Hn|]. rewrite lookup_insert_ne; [done|]. intros Heq. by destruct Hn as [[] _].
  - unfold remaining_budget. destruct (NodePoolStats_counts _ _ _ _ (pool_name np) E) as [-> ->]. lia.
Qed.
End budget_properties.

(** A NodeClaim that is rebooting while its Node is gone makes the computation of every
    budget dereference a nil Node. *)
Theorem rebooting_claim_without_node_panics nodes reason n c :
  n ∈ nodes → st_Node n = None → st_NodeClaim n = Some c →
  condition_true ConditionTypeRebooting (claim_Conditions c) = true →
  condition_true ConditionTypeInstanceTerminating (claim_Conditions c) = false →
  NodePoolStatsFromNodes nodes reason = None.
Proof.
  intros Hin Hn Hc Hr Ht. assert (counts_as_node n = true) as Hcount.
  { unfold counts_as_node, Managed, RebootInProgress, claim_condition_has. rewrite Hc.
    change (condition_has ConditionTrue) with condition_true. rewrite Hr, Ht. rewrite bool_decide_eq_true_2 by by eauto.
    by rewrite orb_true_r. }
  unfold NodePoolStatsFromNodes. generalize (∅ : gmap string Z, ∅ : gmap string Z). induction nodes as [|n' nodes IH]; [by apply not_elem_of_nil in Hin|].
  intros [m d]. cbn [foldl_opt]. apply elem_of_cons in Hin as [<-|Hin].
  - rewrite Hcount. cbn [negb]. unfold counts_as_disrupting. by rewrite Hn.
  - destruct (negb _); [by apply IH|]. cbv zeta. destruct (counts_as_disrupting reason n'); [|done]. by apply IH.
Qed.
