(* ===== verification/Balanced.v ===== *)
(** * Balanced: scoring of consolidation moves
    (pkg/controllers/disruption/balanced.go, [ScoreResult] of types.go and
    [GetCandidatesWithTotals] of helpers.go)

    Under the Balanced policy a move passes when its share of the NodePool's cost is
    large enough against its share of the NodePool's disruption cost. *)

From S2P Require Import Prelude Float64 Labels Requirement Objects RepairPolicy Requirements Resources.
From S2P Require Import Taints Volumes InstanceTypes Reservations PodState DisruptionCost TopologyGroup Topology NodeClaims.
From S2P Require Import Budgets Templates ExistingNodes Evictions StateNodes Scheduler Solver Candidates.

Record NodePoolTotals := mkNodePoolTotals {
  TotalCost : float64;
  TotalDisruptionCost : float64;
}.

Record ScoreResult := mkScoreResult {
  SavingsFraction : float64;
  DisruptionFraction : float64;
  score_K : Z;
}.

Definition Score (r : ScoreResult) : float64 :=
  if fleb (SavingsFraction r) (Fin 0) then Fin 0
  else if feqb (DisruptionFraction r) (Fin 0) then PosInf
  else fdiv (SavingsFraction r) (DisruptionFraction r).

Definition Threshold (r : ScoreResult) : float64 := fdiv (fconst 1) (float64_of_int (score_K r)).

Definition Approved (r : ScoreResult) : bool := fleb (Threshold r) (Score r).

Definition ScoreMove (savings disruptionCost : float64) (totals : NodePoolTotals) (k : Z) : ScoreResult :=
  if fleb (TotalCost totals) (Fin 0) || fleb (TotalDisruptionCost totals) (Fin 0) then mkScoreResult (Fin 0) (Fin 0) k
  else mkScoreResult (fdiv savings (TotalCost totals)) (fdiv disruptionCost (TotalDisruptionCost totals)) k.

Definition ComputeMoveDisruptionCost (candidates : list Candidate) : float64 :=
  fsum (c_RescheduleDisruptionCost <$> candidates).

(** ** Totals of the NodePools *)

Section totals.
  (** The order in which the costs of a node's pods are summed, and the cost of a NodePool
      that the cluster cost tracker knows, when there is one. *)
  Context (cost_order : StateNode → list NamespacedName) (clusterCost : option (NodePool → float64)).

Definition disruption_by_pool (allCandidates : list Candidate) (allNodes : list StateNode) : gmap string float64 :=
  let candidateByName : gmap string Candidate := foldl (λ m c, <[candidate_Name c := c]> m) ∅ allCandidates in
  foldl (λ costs n,
    match st_Labels n ≫= lookup NodePoolLabelKey with
    | None => costs
    | Some poolName =>
        add_cost costs poolName
          match Name n ≫= λ name, candidateByName !! name with
          | Some c => c_RescheduleDisruptionCost c
          | None => DisruptionCost (cost_order n) n
          end
    end) ∅ allNodes.
(** The NodePool of the first candidate of a pool and the sum of the candidates' prices. *)
Definition pool_accum (allCandidates : list Candidate) : gmap string (NodePool * float64) :=
  foldl (λ accum c,
    let '(np, total) := default (c_NodePool c, Fin 0) (accum !! candidate_pool c) in
    <[candidate_pool c := (np, fadd total (c_Price c))]> accum) ∅ allCandidates.

Definition computeNodePoolTotals (allCandidates : list Candidate) (allNodes : list StateNode) : gmap string NodePoolTotals :=
  let disruptionByPool := disruption_by_pool allCandidates allNodes in
  map_imap (λ name '(np, totalCostFallback),
    let totalCost :=
      match clusterCost with
      | Some GetNodepoolCost => let cc := GetNodepoolCost np in if fltb (Fin 0) cc then cc else totalCostFallback
      | None => totalCostFallback
      end in
    Some (mkNodePoolTotals totalCost (default (Fin 0) (disruptionByPool !! name)))) (pool_accum allCandidates).
End totals.

(** ** Candidates of a method *)

Section get_candidates.
  Context `{SA : SelectorApi} `{TA : TaintApi} (ParseDuration : string → option Z) (api : NodeApi).
  Context (PodDeletionCostManagement : bool) (priceProvider : NodeClaimPriceProvider).
  Context (GetInstanceTypes : NodePool → option (list InstanceType)).
  Context (cost_order : StateNode → list NamespacedName).

(** The candidates [shouldDisrupt] keeps and the totals of all candidates; [None] is a
    panic.  Listing the NodePools and the budgets of pods may fail. *)
Definition GetCandidatesWithTotals (now : Z) (allNodes : list StateNode) (nodePools : result api_error (list NodePool))
    (clusterCost : option (NodePool → float64)) (shouldDisrupt : Candidate → bool) (disruptionClass : string)
    (hasAny : string → bool) : option (result limits_error (list Candidate * gmap string NodePoolTotals)) :=
  match nodePools with
  | Err e => Some (Err (ListFailed e))
  | Ok nps =>
      let '(nodePoolMap, types) := BuildNodePoolMap GetInstanceTypes nps in
      match NewLimits api with
      | Err e => Some (Err e)
      | Ok pdbs =>
          all ← mapM (λ n, NewCandidate ParseDuration api PodDeletionCostManagement priceProvider now n pdbs nodePoolMap types
                             hasAny disruptionClass) allNodes;
          let allCandidates := omap (λ r, match r with Ok c => Some c | Err _ => None end) all in
          Some (Ok (filter (λ c, shouldDisrupt c = true) allCandidates,
                    computeNodePoolTotals cost_order clusterCost allCandidates allNodes))
      end
  end.
End get_candidates.

(** ** Evaluators *)

Inductive Evaluator := noopEvaluator | balancedEvaluator (totals : gmap string NodePoolTotals).

Section evaluate.
  Context `{LR : LabelRegistry}.

Definition zero_totals : NodePoolTotals := mkNodePoolTotals (Fin 0) (Fin 0).

(** The score of one pool's share of the move; [None] for a pool that is not Balanced. *)
Definition pool_score {E} (cmd : Command E) (nodePoolTotals : gmap string NodePoolTotals)
    (byPool : gmap string (list Candidate)) (poolName : string) (poolCandidates : list Candidate) : option ScoreResult :=
  c ← head poolCandidates;
  if negb (IsBalanced (np_ConsolidationPolicy (c_NodePool c))) then None else
  let savings := EstimatedSavings cmd in
  let disruptionCost := PoolDisruptionCost cmd poolName in
  let totals := default zero_totals (nodePoolTotals !! poolName) in
  let poolCost := sumCandidatePrices poolCandidates in
  let totalCost := SourceCost cmd in
  let poolSavings := if fltb (Fin 0) totalCost && (1 <? size byPool)%nat then fmul savings (fdiv poolCost totalCost) else savings in
  Some (ScoreMove poolSavings disruptionCost totals BalancedK).

(** Every Balanced pool approves its share; the scores are returned with the verdict. *)
Definition EvaluateBalancedMove {E} (cmd : Command E) (nodePoolTotals : gmap string NodePoolTotals)
    : bool * option (gmap string ScoreResult) :=
  match cmd_Candidates cmd with
  | [] => (false, None)
  | candidates =>
      let byPool := group_by candidate_pool candidates in
      let perPool := map_imap (pool_score cmd nodePoolTotals byPool) byPool in
      (forallb (λ '(_, r), Approved r) (map_to_list perPool), Some perPool)
  end.

Definition ApproveCommand {E} (e : Evaluator) (cmd : Command E) : bool * option (gmap string ScoreResult) :=
  match e with
  | noopEvaluator => (true, None)
  | balancedEvaluator totals => EvaluateBalancedMove cmd totals
  end.

Definition CanPassThreshold (e : Evaluator) (c : Candidate) : bool :=
  match e with
  | noopEvaluator => true
  | balancedEvaluator totals =>
      if negb (IsBalanced (np_ConsolidationPolicy (c_NodePool c))) then true else
      match totals !! candidate_pool c with
      | None => true
      | Some t => if fleb (TotalCost t) (Fin 0) then true
                  else Approved (ScoreMove (c_Price c) (c_RescheduleDisruptionCost c) t BalancedK)
      end
  end.
End evaluate.

(** ** Properties *)

Lemma Threshold_value r : score_K r = BalancedK → Threshold r = Fin (2 ^ 1073).
Proof. intros E. unfold Threshold. rewrite E. apply (scaled_int32 1 1); lia. Qed.

(** Approval needs positive savings. *)
Lemma Approved_positive r : score_K r = BalancedK → Approved r = true → fleb (SavingsFraction r) (Fin 0) = false.
Proof.
  intros Hk. unfold Approved, Score. rewrite Threshold_value by done.
  destruct (fleb (SavingsFraction r) (Fin 0)); [|done]. rewrite fleb_Fin. intros H.
  assert (0 < 2 ^ 1073)%Z by (apply Z.pow_pos_nonneg; lia). lia.
Qed.

(** A larger saving of the same move scores no worse. *)
Lemma Approved_mono savings savings' cost totals t :
  TotalCost totals = Fin t → fleb savings savings' = true → at_least 0 (fdiv cost (TotalDisruptionCost totals)) →
  Approved (ScoreMove savings cost totals BalancedK) = true → Approved (ScoreMove savings' cost totals BalancedK) = true.
Proof.
  intros Ht Hle Hcost Ha.
  assert (score_K (ScoreMove savings cost totals BalancedK) = BalancedK) as Hk by (unfold ScoreMove; by case_match).
  pose proof (Approved_positive _ Hk Ha) as Hpos. revert Hpos Ha. unfold ScoreMove. rewrite Ht.
  destruct (fleb (Fin t) (Fin 0)) eqn:Et; [done|]. destruct (fleb (TotalDisruptionCost totals) (Fin 0)); [done|].
  apply not_true_iff_false in Et. rewrite fleb_Fin in Et.
  cbn [orb]. unfold Approved, Score. cbn [SavingsFraction DisruptionFraction]. rewrite !Threshold_value by done.
  intros Hpos. rewrite Hpos. pose proof (fdiv_mono savings savings' t ltac:(lia) Hle) as Hf.
  revert Hpos Hf. generalize (fdiv savings (Fin t)) (fdiv savings' (Fin t)). intros f f' Hpos Hf.
  destruct (fleb f' (Fin 0)) eqn:Hpos'; [by rewrite (fleb_trans f f') in Hpos|].
  destruct Hcost as [->|(z & -> & Hz & _)].
  - by destruct f.
  - unfold feqb. rewrite bool_decide_false by done. cbn [negb andb]. case_bool_decide as Hz0; [done|].
    intros Ha. eapply fleb_trans; [exact Ha|]. apply fdiv_mono; [|done]. destruct (decide (z = 0%Z)) as [->|]; [done|lia].
Qed.

(** What is left of a finite price after the replacements are paid for. *)
Definition sound_price (p : float64) : Prop := ∃ z, p = Fin z ∧ (0 ≤ z)%Z ∧ representable z ∧ (Z.abs z < foverflow)%Z.

Lemma sound_price_at_least p : sound_price p → at_least 0 p.
Proof. intros (z & -> & ? & ? & ?). right. by exists z. Qed.

Section evaluate_properties.
  Context `{LR : LabelRegistry}.

(** Offerings have prices. *)
Definition prices_sound (n : NodeClaim) : Prop :=
  ∀ it o, it ∈ InstanceTypeOptions n → o ∈ Offerings it → sound_price (Fin (Price o)).

Lemma destination_price_sound n p : prices_sound n → destination_price n = Some p → sound_price (Fin p).
Proof.
  intros Hs. unfold destination_price. destruct (InstanceTypeOptions n) as [|it its] eqn:Ei; [done|]. cbn [head mbind option_bind].
  intros (o & Ho & ->)%fmap_Some_1. apply extremal_offerings in Ho as [Ho _].
  unfold Offerings_Compatible, Offerings_Launchable in Ho. rewrite !list_elem_of_filter in Ho.
  apply (Hs it); [rewrite Ei; by left|by apply Ho].
Qed.

Lemma destination_sum_at_least claims acc : Forall prices_sound claims → at_least 0 acc →
  at_least 0 (foldl (λ dest n, match destination_price n with Some p => fadd dest (Fin p) | None => dest end) acc claims).
Proof.
  revert acc. induction claims as [|n claims IH]; intros acc Hs Ha; [done|]. apply Forall_cons in Hs as [Hn Hs]. cbn [foldl].
  apply IH; [done|]. destruct (destination_price n) as [p|] eqn:E; [|done].
  apply fadd_at_least; [done|lia|]. by apply sound_price_at_least, (destination_price_sound n).
Qed.

(** A command of one candidate saves at most the candidate's price. *)
Lemma EstimatedSavings_bounded {E} (cmd : Command E) c :
  cmd_Candidates cmd = [c] → sound_price (c_Price c) → Forall prices_sound (NewNodeClaims (cmd_Results cmd)) →
  fleb (EstimatedSavings cmd) (c_Price c) = true.
Proof.
  intros Hc (p & Hp & Hp0 & Hr & Ho) Hs. unfold EstimatedSavings, SourceCost, sumCandidatePrices, fsum. rewrite Hc, Hp.
  cbn [fmap list_fmap foldl]. rewrite Hp, fadd_0_l by (left; by exists p).
  destruct (cmd_Reboot cmd); [by apply fleb_Fin|]. destruct (cmd_Replacements cmd); [by apply fleb_Fin|].
  apply fsub_le; [done..|]. by apply destination_sum_at_least, at_least_0.
Qed.

(** Skipping the candidates that cannot pass the threshold loses nothing: whenever
    some command for a single candidate, a deletion or a replacement, would be
    approved, the candidate passes. *)
Theorem CanPassThreshold_sound {E} (e : Evaluator) (cmd : Command E) c :
  cmd_Candidates cmd = [c] → cmd_PoolDisruptionCosts cmd = computePoolDisruptionCosts [c] →
  sound_price (c_Price c) → Forall prices_sound (NewNodeClaims (cmd_Results cmd)) →
  at_least funit (c_RescheduleDisruptionCost c) →
  (∀ totals t, e = balancedEvaluator totals → totals !! candidate_pool c = Some t →
     (∃ z, TotalCost t = Fin z) ∧ at_least 0 (fdiv (c_RescheduleDisruptionCost c) (TotalDisruptionCost t))) →
  (ApproveCommand e cmd).1 = true → CanPassThreshold e c = true.
Proof.
  intros Hc Hcosts Hp Hs Hd Ht. destruct e as [|totals]; [done|]. cbn [ApproveCommand CanPassThreshold].
  destruct (IsBalanced _) eqn:Eb; cbn [negb]; [|done]. destruct (totals !! candidate_pool c) as [t|] eqn:Et; [|done].
  destruct (fleb (TotalCost t) (Fin 0)); [done|]. destruct (Ht totals t eq_refl Et) as [(z & Hz) Hf].
  unfold EvaluateBalancedMove. rewrite Hc. cbn [fst]. rewrite forallb_forall. intros Happ.
  assert (group_by candidate_pool [c] = {[candidate_pool c := [c]]}) as Hg by done. rewrite Hg in Happ.
  apply (Approved_mono (EstimatedSavings cmd) _ _ _ z); [done|by apply EstimatedSavings_bounded|done|].
  apply (Happ (candidate_pool c, _)), list_elem_of_In, elem_of_map_to_list. rewrite map_lookup_imap, lookup_singleton_eq.
  cbn [mbind option_bind]. unfold pool_score. cbn [head mbind option_bind]. rewrite Eb. cbn [negb].
  rewrite map_size_singleton, andb_false_r, Et. cbn [default from_option id].
  unfold PoolDisruptionCost. rewrite Hcosts. cbn [computePoolDisruptionCosts foldl]. unfold add_cost.
  rewrite lookup_insert_eq, lookup_empty. cbn [default from_option id]. by rewrite fadd_0_l by by eapply at_least_fin.
Qed.
End evaluate_properties.

(** ** The totals *)

Lemma sum_by_pool_at_least (label : StateNode → option string) (cost : StateNode → float64) nodes pool acc :
  (∀ n, n ∈ nodes → at_least funit (cost n)) → (∀ x, acc !! pool = Some x → at_least 0 x) →
  (∃ n, n ∈ nodes ∧ label n = Some pool) ∨ (∃ x, acc !! pool = Some x ∧ at_least funit x) →
  ∃ x, foldl (λ costs n, match label n with None => costs | Some p => add_cost costs p (cost n) end) acc nodes !! pool = Some x ∧
       at_least funit x.
Proof.
  pose proof funit_pos as Hu.
  revert acc. induction nodes as [|n nodes IH]; intros acc Hc Ha Hex; cbn [foldl].
  { destruct Hex as [(n & Hn & _)|?]; [by apply not_elem_of_nil in Hn|done]. }
  assert (∀ acc', (acc' !! pool = acc !! pool) → label n ≠ Some pool →
    ∃ x, foldl (λ costs n, match label n with None => costs | Some p => add_cost costs p (cost n) end) acc' nodes !! pool = Some x ∧
       at_least funit x) as Hsame.
  { intros acc' E Hl. apply IH; [intros; apply Hc; by right|by rewrite E|]. rewrite E.
    destruct Hex as [(n' & [->|?]%elem_of_cons & ?)|?]; [done|left; by eauto|by right]. }
  destruct (label n) as [p|] eqn:El; [|by apply Hsame]. destruct (decide (p = pool)) as [->|Hne].
  2: { apply Hsame; [|congruence]. unfold add_cost. by rewrite lookup_insert_ne. }
  pose proof (Hc n ltac:(by left)) as Hn.
  assert (at_least funit (fadd (default (Fin 0) (acc !! pool)) (cost n))) as Hsum.
  { rewrite fadd_comm. apply fadd_at_least; [done|lia|]. destruct (acc !! pool) as [x|] eqn:E; cbn; [by apply Ha|apply at_least_0]. }
  apply IH; [intros; apply Hc; by right|..]; unfold add_cost; rewrite lookup_insert_eq.
  - intros x [= <-]. apply (at_least_mono funit); [lia|done].
  - right. by eexists.
Qed.

(** Every NodePool with a candidate has totals, and its disruption cost is at least that
    of one node: scores never divide by a zero total. *)
Theorem totals_at_least_base cost_order clusterCost allCandidates allNodes c :
  c ∈ allCandidates → c_StateNode c ∈ allNodes →
  st_Labels (c_StateNode c) ≫= lookup NodePoolLabelKey = Some (candidate_pool c) →
  (∀ c', c' ∈ allCandidates → at_least funit (c_RescheduleDisruptionCost c')) →
  (∀ n, n ∈ allNodes → at_least funit (DisruptionCost (cost_order n) n)) →
  ∃ t, computeNodePoolTotals cost_order clusterCost allCandidates allNodes !! candidate_pool c = Some t ∧
       at_least funit (TotalDisruptionCost t).
Proof.
  intros Hc Hn Hl Hcand Hnodes.
  assert (∃ x, disruption_by_pool cost_order allCandidates allNodes !! candidate_pool c = Some x ∧ at_least funit x) as (x & Hx & Hxl).
  { unfold disruption_by_pool.
    assert (∀ l (acc : gmap string Candidate) (c' : Candidate) k, (∀ c'', c'' ∈ l → at_least funit (c_RescheduleDisruptionCost c'')) →
      (∀ k c'', acc !! k = Some c'' → at_least funit (c_RescheduleDisruptionCost c'')) →
      foldl (λ m c, <[candidate_Name c := c]> m) acc l !! k = Some c' → at_least funit (c_RescheduleDisruptionCost c')) as Hmap.
    { induction l as [|c0 l IH]; intros acc c' k Hl' Ha; cbn [foldl]; [by apply Ha|].
      apply IH; [intros; apply Hl'; by right|]. intros k' c''. rewrite lookup_insert_Some.
      intros [[_ <-]|[_ ?]]; [apply Hl'; by left|by eapply Ha]. }
    apply (sum_by_pool_at_least (λ n, st_Labels n ≫= lookup NodePoolLabelKey)); [|done|left; by eauto].
    intros n Hin. destruct (Name n ≫= _) as [c'|] eqn:E; [|by apply Hnodes].
    apply bind_Some in E as (name & _ & E). eapply Hmap; [exact Hcand| |exact E]. intros k c''. by rewrite lookup_empty. }
  assert (is_Some (pool_accum allCandidates !! candidate_pool c)) as [[np total] Ha].
  { unfold pool_accum. clear -Hc. assert (∀ l (acc : gmap string (NodePool * float64)), c ∈ l ∨ is_Some (acc !! candidate_pool c) →
      is_Some (foldl (λ accum c, let '(np, total) := default (c_NodePool c, Fin 0) (accum !! candidate_pool c) in
        <[candidate_pool c := (np, fadd total (c_Price c))]> accum) acc l !! candidate_pool c)) as H; [|apply H; by left].
    induction l as [|c0 l IH]; intros acc Hor; cbn [foldl].
    - destruct Hor as [Hin|?]; [by apply not_elem_of_nil in Hin|done].
    - apply IH. destruct (default _ _) as [np total]. destruct (decide (candidate_pool c0 = candidate_pool c)) as [E|Hne].
      + right. rewrite E, lookup_insert_eq. by eauto.
      + rewrite lookup_insert_ne by done. destruct Hor as [[->|?]%elem_of_cons|?]; [done|by left|by right]. }
  unfold computeNodePoolTotals. rewrite map_lookup_imap, Ha. cbn [mbind option_bind]. rewrite Hx. by eexists.
Qed.
