(* ===== verification/Simulation.v ===== *)
(** * Simulation: scheduling as if candidates were gone
    ([SimulateScheduling] and [SimulateSchedulingWithReservedFallback] of
    pkg/controllers/disruption/helpers.go)

    A disruption method asks where the pods of its candidates would go.  It relies on
    the scheduler through [SchedulerService] and on what [SchedulerPromise] states of
    it; [solver_service] shows that the scheduler of [Solver] keeps the promise. *)

From S2P Require Import Prelude Float64 Labels Requirement Objects RepairPolicy Requirements Resources.
From S2P Require Import Taints HostPorts Volumes InstanceTypes Reservations PodState Preferences SchedQueue.
From S2P Require Import TopologyGroup Topology NodeClaims Templates ExistingNodes Evictions StateNodes Scheduler.
From S2P Require Import Solver Candidates.

(** The options of a scheduler that a simulation sets. *)
Inductive SchedulerOption :=
| IgnorePreferencesOption
| MinValuesPolicyOption (policy : MinValuesPolicy)
| IsConsolidationSimulation
| DisableReservedCapacityFallback
| CreditReservationCapacity (reservationID : string) (slots : Z).

Inductive sim_error :=
| CandidateDeleting
| PendingPodsFailed
| PodBudgetsFailed (e : limits_error)
| DeletingPodsFailed (e : limits_error)
| SchedulerFailed (deadlineExceeded : bool)
| SolveFailed (deadlineExceeded : bool).

(** [errors.Is(err, context.DeadlineExceeded)] for the errors of building and running the scheduler; the
    errors of the reads before it do not say what they wrap. *)
Definition simulation_timed_out (e : sim_error) : bool :=
  match e with SchedulerFailed d | SolveFailed d => d | _ => false end.

(** [provisioner.NewScheduler] and [Solve] on the pods, with the state nodes and the UIDs
    of the pods that are leaving their nodes. *)
Class SchedulerService (E : Type) := {
  service_solve : list SchedulerOption → list Pod → list StateNode → gset string → result sim_error (Results E);
}.

(** Where a pod is placed by a result. *)
Definition placed_existing {E} (r : Results E) (uid : string) (n : ExistingNode) : Prop :=
  n ∈ ExistingNodes r ∧ uid ∈ pod_UID <$> en_Pods n.

Definition placed_new {E} (r : Results E) (uid : string) (n : NodeClaim) : Prop :=
  n ∈ NewNodeClaims r ∧ uid ∈ pod_UID <$> nc_Pods n.

Definition accounted {E} (r : Results E) (uid : string) : Prop :=
  is_Some (PodErrors r !! uid) ∨ (∃ n, placed_existing r uid n) ∨ (∃ n, placed_new r uid n).

Class SchedulerPromise (E : Type) `{SS : SchedulerService E} := {
  solve_accounts : ∀ opts pods nodes uids r, NoDup (pod_UID <$> pods) →
    service_solve opts pods nodes uids = Ok r → ∀ p, p ∈ pods → accounted r (pod_UID p);
}.

Section simulation.
  Context `{LR : LabelRegistry} `{SA : SelectorApi} `{TA : TaintApi} `{SE : SchedulerEnv}.
  Context (ParseDuration : string → option Z) (api : NodeApi).
  Context {E : Type} `{SS : SchedulerService E}.
  (** [provisioner.GetPendingPods], the options of the process, and the state of the cluster. *)
  Context (pendingPods : option (list Pod)) (preferencesIgnored : bool) (policy : MinValuesPolicy)
          (nodes : list StateNode).

Definition simulation_options (schedulerOpts : list SchedulerOption) : list SchedulerOption :=
  (if preferencesIgnored then [IgnorePreferencesOption] else []) ++ [MinValuesPolicyOption policy] ++ schedulerOpts.

(** State nodes have a name: they have a Node or a NodeClaim. *)
Definition node_name (n : StateNode) : string := default EmptyString (Name n).

(** The pods of the candidates that move. *)
Definition candidate_pods (now : Z) (IncludeBlockedCandidatePods : bool) (candidates : list Candidate)
    : result sim_error (list Pod) :=
  if IncludeBlockedCandidatePods then Ok (candidates ≫= c_reschedulablePods)
  else match NewLimits api with
       | Err e => Err (PodBudgetsFailed e)
       | Ok pdbs => Ok (candidates ≫= λ c,
           filter (λ p, IsCurrentlyReschedulable ParseDuration pdbs p now = true) (c_reschedulablePods c))
       end.

(** A pod that would move to a node that is not initialized counts as not placed, unless
    it comes from a node that is deleted already. *)
Definition flag_uninitialized (deletingNodePods : list Pod) (r : Results E) : Results E :=
  let deletingNodePodKeys := pod_key <$> deletingNodePods in
  mkResults (NewNodeClaims r) (ExistingNodes r)
    (foldl (λ errs n,
       if en_Initialized n then errs
       else foldl (λ errs p, if bool_decide (pod_key p ∈ deletingNodePodKeys) then errs
                             else <[pod_UID p := UninitializedNodeError (en_Name n)]> errs) errs (en_Pods n))
       (PodErrors r) (ExistingNodes r)).

(** The results and the pods they are about. *)
Definition SimulateScheduling (now : Z) (schedulerOpts : list SchedulerOption) (IncludeBlockedCandidatePods : bool)
    (candidates : list Candidate) : result sim_error (Results E * list Pod) :=
  let candidateNames : gset string := list_to_set (candidate_Name <$> candidates) in
  let deletingNodes := Deleting nodes in
  let stateNodes := filter (λ n, node_name n ∉ candidateNames) (Active nodes) in
  if existsb (λ n, bool_decide (node_name n ∈ candidateNames)) deletingNodes then Err CandidateDeleting else
  pending ← match pendingPods with None => Err PendingPodsFailed | Some pods => Ok pods end;
  candidatePods ← candidate_pods now IncludeBlockedCandidatePods candidates;
  deletingNodePods ← match StateNodes_CurrentlyReschedulablePods ParseDuration api now deletingNodes with
                     | Err e => Err (DeletingPodsFailed e)
                     | Ok pods => Ok pods
                     end;
  let pods := pending ++ candidatePods ++ deletingNodePods in
  let deletingPodUIDs := list_to_set (pod_UID <$> candidatePods ++ deletingNodePods) in
  results ← service_solve (simulation_options schedulerOpts) pods stateNodes deletingPodUIDs;
  Ok (flag_uninitialized deletingNodePods (TruncateInstanceTypes results policy MaxInstanceTypes), pods).

Definition all_scheduled (sim : Results E * list Pod) : bool := AllNonPendingPodsScheduled sim.1 sim.2.

Definition holds_reservation (c : Candidate) : bool :=
  bool_decide (c_capacityType c = CapacityTypeReserved) &&
  negb (bool_decide (default EmptyString (candidate_Labels c !! ReservationIDLabel) = EmptyString)).

(** The flag says that the candidate has to go before its replacement can be launched. *)
Definition SimulateSchedulingWithReservedFallback (now : Z) (candidate : Candidate) (terminateFirstEnabled : bool)
    (IncludeBlockedCandidatePods : bool) : result sim_error (Results E * list Pod * bool) :=
  results ← SimulateScheduling now [] IncludeBlockedCandidatePods [candidate];
  if all_scheduled results then Ok (results, false) else
  let reservationID := default EmptyString (candidate_Labels candidate !! ReservationIDLabel) in
  if negb terminateFirstEnabled || negb (holds_reservation candidate) then Ok (results, false) else
  tfResults ← SimulateScheduling now [DisableReservedCapacityFallback; CreditReservationCapacity reservationID 1]
                IncludeBlockedCandidatePods [candidate];
  if all_scheduled tfResults then Ok (tfResults, true) else Ok (results, false).
End simulation.

(** ** Every pod is accounted for *)

Section accounting.
  Context `{LR : LabelRegistry} `{SA : SelectorApi} `{TA : TaintApi} `{SE : SchedulerEnv}.
  Context {E : Type}.

Lemma insert_all_lookup {A} (f : A → pod_failure E) (key : A → string) (l : list A) (errs : gmap string (pod_failure E)) uid :
  is_Some (foldl (λ errs p, <[key p := f p]> errs) errs l !! uid) ↔ is_Some (errs !! uid) ∨ uid ∈ key <$> l.
Proof.
  revert errs. induction l as [|x l IH]; intros errs; cbn [foldl fmap list_fmap].
  - split; [by left|]. by intros [?|?%not_elem_of_nil].
  - rewrite IH, elem_of_cons. destruct (decide (key x = uid)) as [<-|Hne].
    + rewrite lookup_insert_eq. naive_solver.
    + rewrite lookup_insert_ne by done. naive_solver.
Qed.

(** Truncating the instance types of the claims drops a claim only with an error for its pods. *)
Lemma TruncateInstanceTypes_accounts (r : Results E) policy k uid :
  accounted r uid → accounted (TruncateInstanceTypes r policy k) uid.
Proof.
  unfold TruncateInstanceTypes.
  set (step := λ (acc : Results E) n, match Truncate policy (InstanceTypeOptions n) (nc_Requirements n) k with
    | Ok its => mkResults (NewNodeClaims acc ++ [with_options n its]) (ExistingNodes acc) (PodErrors acc)
    | Err unsatisfied => mkResults (NewNodeClaims acc) (ExistingNodes acc)
        (foldl (λ errs p, <[pod_UID p := MinValuesNotMet (NodePoolName n) unsatisfied]> errs) (PodErrors acc) (nc_Pods n)) end).
  assert (∀ claims acc, accounted acc uid ∨ (∃ n, n ∈ claims ∧ uid ∈ pod_UID <$> nc_Pods n) →
    accounted (foldl step acc claims) uid) as Hloop.
  { induction claims as [|n claims IH]; intros acc Hor; cbn [foldl].
    - destruct Hor as [?|(n & Hn & _)]; [done|by apply not_elem_of_nil in Hn].
    - apply IH. destruct Hor as [Ha|(n' & [->|Hn]%elem_of_cons & Hu)]; [left|left|right; by eauto].
      + unfold step. destruct (Truncate _ _ _ _) as [its|unsat].
        * destruct Ha as [?|[?|(n' & [Hn Hu])]]; [by left|by right; left|right; right].
          exists n'. split; [cbn; apply elem_of_app; by left|done].
        * destruct Ha as [?|[?|?]]; [|by right; left|by right; right].
          left. cbn. apply insert_all_lookup. by left.
      + unfold step. destruct (Truncate _ _ _ _) as [its|unsat].
        * right; right. exists (with_options n its). split; [cbn; apply elem_of_app; right; by left|done].
        * left. cbn. apply insert_all_lookup. by right. }
  intros Ha. apply Hloop. destruct Ha as [?|[?|(n & Hn & Hu)]]; [by left; left|left; by right; left|right; by eauto].
Qed.

(** Which pods the check of uninitialized nodes rejects. *)
Definition on_uninitialized (deleting : list Pod) (r : Results E) (uid : string) : Prop :=
  ∃ n p, n ∈ ExistingNodes r ∧ en_Initialized n = false ∧ p ∈ en_Pods n ∧ pod_UID p = uid ∧ pod_key p ∉ pod_key <$> deleting.

Lemma flag_uninitialized_spec deleting (r : Results E) uid :
  is_Some (PodErrors (flag_uninitialized deleting r) !! uid) ↔ is_Some (PodErrors r !! uid) ∨ on_uninitialized deleting r uid.
Proof.
  unfold flag_uninitialized, on_uninitialized. cbn [PodErrors]. generalize (PodErrors r) (ExistingNodes r). intros errs ns.
  assert (∀ name (pods : list Pod) (errs : gmap string (pod_failure E)),
    is_Some (foldl (λ errs p, if bool_decide (pod_key p ∈ pod_key <$> deleting) then errs
      else <[pod_UID p := UninitializedNodeError name]> errs) errs pods !! uid) ↔
    is_Some (errs !! uid) ∨ ∃ p, p ∈ pods ∧ pod_UID p = uid ∧ pod_key p ∉ pod_key <$> deleting) as Hinner.
  { intros name. induction pods as [|p pods IH]; intros e; cbn [foldl].
    - split; [by left|]. by intros [?|(p & ?%not_elem_of_nil & _)].
    - rewrite IH. clear IH. case_bool_decide as Hd; [|destruct (decide (pod_UID p = uid)) as [Hu|Hne]].
      + split; [intros [?|(q & ? & ?)]; [by left|right; exists q; split; [by right|done]]|].
        intros [?|(q & [->|?]%elem_of_cons & ? & ?)]; [by left|done|right; by exists q].
      + rewrite Hu, lookup_insert_eq. split; [intros _; right; exists p; split; [by left|done]|by left].
      + rewrite lookup_insert_ne by done.
        split; [intros [?|(q & ? & ?)]; [by left|right; exists q; split; [by right|done]]|].
        intros [?|(q & [->|?]%elem_of_cons & ? & ?)]; [by left|done|right; by exists q]. }
  revert errs. induction ns as [|n ns IH]; intros errs; cbn [foldl].
  - split; [by left|]. by intros [?|(n & p & ?%not_elem_of_nil & _)].
  - rewrite IH. clear IH. destruct (en_Initialized n) eqn:Ei; [|rewrite Hinner; clear Hinner].
    + split; [intros [?|(m & q & ? & ?)]; [by left|right; exists m, q; split; [by right|done]]|].
      intros [?|(m & q & [->|?]%elem_of_cons & ? & ?)]; [by left|congruence|right; by exists m, q].
    + split.
      * intros [[?|(q & ? & ?)]|(m & q & ? & ?)]; [by left|right; exists n, q; split; [by left|done]|].
        right. exists m, q. split; [by right|done].
      * intros [?|(m & q & [->|?]%elem_of_cons & ? & ?)]; [by left; left|left; right; by exists q|right; by exists m, q].
Qed.

Context `{SS : SchedulerService E}.
Context (ParseDuration : string → option Z) (api : NodeApi).

(** The candidate is terminated first only when that is what makes its pods fit: it
    holds a reservation, its pods do not all fit while it runs, and they all fit once
    its slot is free. *)
Lemma terminate_first_needed pending ignored policy nodes now c enabled blocked sim :
  SimulateSchedulingWithReservedFallback ParseDuration api pending ignored policy nodes now c enabled blocked = Ok (sim, true) →
  enabled = true ∧ holds_reservation c = true ∧ all_scheduled sim = true ∧
  ∃ first, SimulateScheduling ParseDuration api pending ignored policy nodes now [] blocked [c] = Ok first ∧ all_scheduled first = false.
Proof.
  unfold SimulateSchedulingWithReservedFallback.
  destruct (SimulateScheduling _ _ _ _ _ _ _ [] _ _) as [first|]; [|done]. cbn [mbind result_bind].
  destruct (all_scheduled first) eqn:Ef; [done|]. destruct enabled, (holds_reservation c) eqn:Eh; try done. cbn [negb orb].
  destruct (SimulateScheduling _ _ _ _ _ _ _ _ _ _) as [tf|]; [|done]. cbn [mbind result_bind].
  destruct (all_scheduled tf) eqn:Et; [|done]. intros [= <-]. split_and!; [done..|]. by exists first.
Qed.

Context `{SP : !SchedulerPromise E}.

(** C20: when a simulation schedules everything, each pod of a candidate that moves has a
    place: on a new node, or on a node that is initialized unless the pod is also on a
    node that is already deleted. *)
Theorem simulation_places_pods pending ignored policy nodes now opts blocked candidates r pods :
  SimulateScheduling ParseDuration api pending ignored policy nodes now opts blocked candidates = Ok (r, pods) →
  NoDup (pod_UID <$> pods) → AllNonPendingPodsScheduled r pods = true →
  ∃ moved deleting,
    candidate_pods ParseDuration api now blocked candidates = Ok moved ∧
    StateNodes_CurrentlyReschedulablePods ParseDuration api now (Deleting nodes) = Ok deleting ∧
    ∀ p, p ∈ moved → IsProvisionable p = false →
      (∃ n, placed_new r (pod_UID p) n) ∨
      (∃ n q, n ∈ ExistingNodes r ∧ q ∈ en_Pods n ∧ pod_UID q = pod_UID p ∧
              (en_Initialized n = true ∨ pod_key q ∈ pod_key <$> deleting)).
Proof.
  unfold SimulateScheduling. destruct (existsb _ _); [done|]. destruct pending as [pend|]; [|done]. cbn [mbind result_bind].
  destruct (candidate_pods _ _ _ _ _) as [moved|] eqn:Em; [|done]. cbn [mbind result_bind].
  destruct (StateNodes_CurrentlyReschedulablePods _ _ _ _) as [deleting|] eqn:Ed; [|done]. cbn [mbind result_bind].
  destruct (service_solve _ _ _ _) as [results|] eqn:Es; [|done]. cbn [mbind result_bind]. intros [= <- <-] Hnd Hall.
  exists moved, deleting. split_and!; [done..|]. intros p Hp Hprov.
  pose proof (solve_accounts _ _ _ _ _ Hnd Es p ltac:(apply elem_of_app; right; apply elem_of_app; by left)) as Ha.
  apply (TruncateInstanceTypes_accounts _ policy MaxInstanceTypes) in Ha.
  set (tr := TruncateInstanceTypes results policy MaxInstanceTypes) in *.
  assert (¬ is_Some (PodErrors (flag_uninitialized deleting tr) !! pod_UID p)) as Hno.
  { intros Herr. unfold AllNonPendingPodsScheduled in Hall. rewrite forallb_forall in Hall.
    specialize (Hall p). rewrite Hprov, orb_false_r, bool_decide_true in Hall by done. by discriminate Hall;
      apply list_elem_of_In, elem_of_app; right; apply elem_of_app; left. }
  rewrite flag_uninitialized_spec in Hno. destruct Ha as [?|[(n & Hn & Hu)|(n & Hn & Hu)]]; [by destruct Hno; left| |].
  - right. apply list_elem_of_fmap in Hu as (q & Hq & Hin). exists n, q. split_and!; [done..|].
    destruct (en_Initialized n) eqn:Ei; [by left|right]. destruct (decide (pod_key q ∈ pod_key <$> deleting)) as [|Hd]; [done|].
    destruct Hno. right. by exists n, q.
  - left. by exists n.
Qed.
End accounting.

(** ** The scheduler keeps the promise *)

Section solver_service.
  Context `{LR : LabelRegistry} `{TA : TaintApi} `{TL : TolerationApi} `{SA : SelectorApi} `{IO : IterationOrder}
          `{SE : SchedulerEnv} `{HA : HashApi}.
  Context {E : Type} `{KR : KubeReader E}.
  Context (ReservedCapacity : bool) (allocator : option (string → Requirements → list string → option AllocationResult)).
  Context (requests_of : Pod → ResourceList) (GetVolumes_of : Pod → result api_error Volumes)
          (resolvePodClaims : Pod → option (list string)).
  Context (ctx : nat → option bool) (draDriversForNodeClaim : NodeClaim → list string).
  (** [provisioner.NewScheduler]: the configuration, the views of the state nodes, the
      scheduler before it has placed anything, and the pods, whose spread constraints it
      may have set; the error says whether a deadline was exceeded. *)
  Context (new_scheduler : list SchedulerOption → list Pod → list StateNode → gset string →
                           result bool (SchedulerConfig * list StateNodeView * Scheduler * list Pod)).
  Context (new_scheduler_fresh : ∀ opts pods nodes uids config views s pods',
             new_scheduler opts pods nodes uids = Ok (config, views, s, pods') →
             placed_uids s = [] ∧ pod_UID <$> pods' = pod_UID <$> pods).

Definition solver_service : SchedulerService E := {|
  service_solve opts pods nodes uids :=
    match new_scheduler opts pods nodes uids with
    | Err deadline => Err (SchedulerFailed deadline)
    | Ok (config, views, s, pods) =>
        match Scheduler_Solve config ReservedCapacity allocator views requests_of GetVolumes_of resolvePodClaims ctx
                draDriversForNodeClaim s pods with
        | None => Err (SchedulerFailed false)
        | Some (_, _, Some deadline) => Err (SolveFailed deadline)
        | Some (_, r, None) => Ok r
        end
    end;
|}.

Lemma Scheduler_Solve_results config views s pods s' r err :
  Scheduler_Solve config ReservedCapacity allocator views requests_of GetVolumes_of resolvePodClaims ctx
    draDriversForNodeClaim s pods = Some (s', r, err) →
  nc_Pods <$> NewNodeClaims r = nc_Pods <$> newNodeClaims s' ∧ ExistingNodes r = existingNodes s'.
Proof.
  unfold Scheduler_Solve. intros (s0 & _ & ([timedOut final] & _ & (s1 & _ & [= <- <- <-])%bind_Some)%bind_Some)%bind_Some.
  done.
Qed.

(** A scheduler that has placed nothing and is not cut short accounts for every pod. *)
Lemma Scheduler_Solve_accounts config views s pods s' r : placed_uids s = [] → NoDup (pod_UID <$> pods) →
  Scheduler_Solve config ReservedCapacity allocator views requests_of GetVolumes_of resolvePodClaims ctx
    draDriversForNodeClaim s pods = Some (s', r, None) →
  ∀ p, p ∈ pods → accounted r (pod_UID p).
Proof.
  intros Hfresh Hnd Es p Hp. pose proof (Scheduler_Solve_results _ _ _ _ _ _ _ Es) as [Hclaims Hnodes].
  apply Scheduler_Solve_places in Es as (leftover & _ & Herr & Hperm); [|done].
  rewrite Hfresh in Hperm. cbn [app] in Hperm.
  assert (pod_UID p ∈ placed_uids s' ++ leftover) as [Hin|Hin]%elem_of_app.
  { rewrite Hperm. apply list_elem_of_fmap. by exists p. }
  - right. unfold placed_uids in Hin. rewrite fmap_app, elem_of_app in Hin.
    setoid_rewrite list_elem_of_fmap in Hin. setoid_rewrite list_elem_of_In in Hin. setoid_rewrite in_concat in Hin.
    setoid_rewrite <-list_elem_of_In in Hin.
    destruct Hin as [(q & Hq & l & Hl & Hq')|(q & Hq & l & Hl & Hq')].
    + left. apply list_elem_of_fmap in Hl as (n & -> & Hn). exists n. split; [by rewrite Hnodes|].
      rewrite Hq. apply list_elem_of_fmap. by exists q.
    + right. rewrite <-Hclaims in Hl. apply list_elem_of_fmap in Hl as (n & -> & Hn). exists n. split; [done|].
      rewrite Hq. apply list_elem_of_fmap. by exists q.
  - left. by apply Herr.
Qed.

(** A run that is not cut short by its context leaves no pod unaccounted for, so the
    theorems on simulations apply to the scheduler of this development. *)
Lemma solver_keeps_promise : @SchedulerPromise E solver_service.
Proof.
  constructor. intros opts pods nodes uids r Hnd. unfold service_solve, solver_service.
  destruct (new_scheduler opts pods nodes uids) as [[[[config views] s] pods']|] eqn:En; [|done].
  apply new_scheduler_fresh in En as [Hfresh Hsame].
  destruct (Scheduler_Solve _ _ _ _ _ _ _ _ _ s pods') as [[[s' r'] [deadline|]]|] eqn:Es; [done| |done]. intros [= <-] p Hp.
  assert (pod_UID p ∈ pod_UID <$> pods') as (q & -> & Hq)%list_elem_of_fmap by (rewrite Hsame; apply list_elem_of_fmap; by exists p).
  eapply Scheduler_Solve_accounts; [done|by rewrite Hsame|done..].
Qed.
End solver_service.
