(* ===== verification/Provisioner.v ===== *)
(** * Provisioner: from pending pods to NodeClaims
    (pkg/controllers/provisioning/provisioner.go and buffers.go)

    A pass collects the pods that need a node, builds a scheduler for them and creates the
    NodeClaims it asks for.  The annotations of templates live in a store, as in
    [Templates]; [None] is a run-time panic. *)

From S2P Require Import Prelude Labels Requirement Objects Requirements Resources Taints HostPorts.
From S2P Require Import Volumes VolumeTopology PodValidation InstanceTypes Reservations PodState Preferences DefaultConstraints.
From S2P Require Import TopologyGroup Topology NodeClaims Budgets Templates NodePools ExistingNodes Evictions.
From S2P Require Import NodePoolState StateNodes Cluster SchedQueue Scheduler SchedulerSetup Solver.
From S2P Require Import Simulation.

(** ** Launching NodeClaims *)

(** A claim of the scheduler with the rest of the template it embeds. *)
Record Launch := mkLaunch { l_NodeClaim : NodeClaim; l_Meta : TemplateMeta }.

Inductive create_error :=
| PoolNotRead (e : api_error)
| LimitsExceeded (resource : string) (usage limit : Z)
| CreateFailed (e : api_error).

(** What a batch of launches reads and writes: the NodePool, and the object the API server
    returns for the i-th creation. *)
Record LaunchApi := mkLaunchApi {
  get_pool : string → result api_error NodePool;
  create_claim : nat → ApiNodeClaim → result api_error v1NodeClaim;
}.

Section launch.
  Context `{LR : LabelRegistry} `{SE : SchedulerEnv}.
  Context (DefaultTerminationGracePeriod : option Z) (store : gmap nat (gmap string string)).
  Context (api : LaunchApi).

Definition Create (now : Z) (i : nat) (c : Cluster) (l : Launch) : option (Cluster * result create_error string) :=
  let n := l_NodeClaim l in
  match get_pool api (NodePoolName n) with
  | Err e => Some (c, Err (PoolNotRead e))
  | Ok latest =>
      match ExceededBy (np_Limits latest) (NodePoolResourcesFor c (NodePoolName n)) with
      | Some (resource, usage, limit) => Some (c, Err (LimitsExceeded resource usage limit))
      | None =>
          match ToNodeClaim DefaultTerminationGracePeriod store (l_Meta l) n with
          | None => None
          | Some object =>
              match create_claim api i object with
              | Err e => Some (c, Err (CreateFailed e))
              | Ok nodeClaim =>
                  let c := UpdatePodToNodeClaimMapping c [(claim_Name nodeClaim, nc_Pods n)] in
                  match UpdateNodeClaim now c nodeClaim with
                  | None => None
                  | Some c => Some (c, Ok (claim_Name nodeClaim))
                  end
              end
          end
      end
  end.

(** One worker: the claim is created, then the reservation of a static pool is released. *)
Definition create_one (now : Z) (nodeClaims : list Launch) (st : Cluster * gmap nat (result create_error string)) (i : nat)
    : option (Cluster * gmap nat (result create_error string)) :=
  let '(c, done) := st in
  match nodeClaims !! i with
  | None => Some st
  | Some l =>
      match Create now i c l with
      | None => None
      | Some (c, r) =>
          Some (if tm_IsStatic (l_Meta l)
                then set_nodePoolState c (ReleaseNodeCount (nodePoolState c) (NodePoolName (l_NodeClaim l)) 1) else c,
                <[i := r]> done)
      end
  end.

Definition name_of (r : option (result create_error string)) : string :=
  match r with Some (Ok name) => name | _ => EmptyString end.
Definition error_of (r : option (result create_error string)) : option create_error :=
  match r with Some (Err e) => Some e | _ => None end.

(** The workers run in some order, the results are stored by index. *)
Definition CreateNodeClaims (now : Z) (order : list nat) (c : Cluster) (nodeClaims : list Launch)
    : option (Cluster * list string * list create_error) :=
  match foldl_opt (create_one now nodeClaims) (c, ∅) order with
  | None => None
  | Some (c, done) =>
      let indices := seq 0 (length nodeClaims) in
      Some (c, (λ i, name_of (done !! i)) <$> indices, omap (λ i, error_of (done !! i)) indices)
  end.
End launch.

(** ** Capacity buffers *)

Definition FakePodAnnotationKey : string := Group +:+ "/capacity-buffer-fake-pod".
Definition FakePodAnnotationValue : string := "true".

Definition IsVirtualPod (pod : Pod) : bool :=
  bool_decide (default EmptyString (pod_Annotations pod !! FakePodAnnotationKey) = FakePodAnnotationValue).

Definition filterVirtualPodErrors {E} (pods : list Pod) (errors : gmap string (pod_failure E)) : list Pod :=
  filter (λ p, is_Some (errors !! pod_UID p) ∧ IsVirtualPod p = false) pods.

Definition filterVirtualPodMapping (m : list (string * list Pod)) : list (string * list Pod) :=
  filter (λ e, (0 < length e.2)%nat) (prod_map id (filter (λ p, IsVirtualPod p = false)) <$> m).

(** ** The daemons of the cluster *)

(** A DaemonSet, with the pod [PodForDaemonSet] makes of its template; the requests of
    that pod are those of [DaemonRequests] below. *)
Record DaemonSet := mkDaemonSet {
  ds_key : NamespacedName;
  ds_Pod : Pod;
  ds_RequiredTerms : option (list (list CoreNodeSelectorRequirement));
}.

Definition replace_required (pod : Pod) (terms : list (list CoreNodeSelectorRequirement)) : Pod :=
  let a := default (mkAffinity None None None) (pod_Affinity pod) in
  let na := default (mkNodeAffinity None []) (NodeAffinity a) in
  with_affinity pod (mkAffinity (Some (mkNodeAffinity (Some terms) (PreferredTerms na))) (PodAffinity a) (PodAntiAffinity a)).

Definition daemon_pod (c : Cluster) (d : DaemonSet) : Pod :=
  let pod := default (ds_Pod d) (GetDaemonSetPod c (ds_key d)) in
  match ds_RequiredTerms d with Some terms => replace_required pod terms | None => pod end.

Definition getDaemonSetPods {E} (c : Cluster) (listed : result E (list DaemonSet)) : result E (list Pod) :=
  match listed with Err e => Err e | Ok items => Ok (daemon_pod c <$> items) end.

(** ** The options of a scheduler *)

Definition apply_option (o : SchedulerOptions) (opt : SchedulerOption) : SchedulerOptions :=
  match opt with
  | IgnorePreferencesOption => mkSchedulerOptions (o_reservedOfferingMode o) PreferencePolicyIgnore (o_minValuesPolicy o)
      (o_enforceConsolidateAfter o) (o_creditReservationCapacity o)
  | MinValuesPolicyOption policy => mkSchedulerOptions (o_reservedOfferingMode o) (o_preferencePolicy o) policy
      (o_enforceConsolidateAfter o) (o_creditReservationCapacity o)
  | IsConsolidationSimulation => mkSchedulerOptions (o_reservedOfferingMode o) (o_preferencePolicy o) (o_minValuesPolicy o)
      true (o_creditReservationCapacity o)
  | DisableReservedCapacityFallback => mkSchedulerOptions ReservedOfferingModeStrict (o_preferencePolicy o) (o_minValuesPolicy o)
      (o_enforceConsolidateAfter o) (o_creditReservationCapacity o)
  | CreditReservationCapacity id slots => mkSchedulerOptions (o_reservedOfferingMode o) (o_preferencePolicy o) (o_minValuesPolicy o)
      (o_enforceConsolidateAfter o)
      (<[id := (default 0 (o_creditReservationCapacity o !! id) + slots)%Z]> (o_creditReservationCapacity o))
  end.

(** [option.Resolve] on the zero value of the options; the zero policy of minValues is no
    policy, and behaves as the strict one. *)
Definition resolve_options (opts : list SchedulerOption) : SchedulerOptions :=
  foldl apply_option (mkSchedulerOptions ReservedOfferingModeFallback PreferencePolicyRespect MinValuesPolicyStrict false ∅) opts.

(** ** A pass of the provisioner *)

Inductive provision_error (E : Type) :=
| ListPoolsFailed (e : api_error)
| NodePoolsNotFound
| InstanceTypesDeadlineExceeded
| VolumeTopologyDeadlineExceeded
| TopologyFailed (errs : list (topology_error E))
| DaemonSetsFailed (e : api_error)
| DevicesFailed
| ListPodsFailed (e : api_error)
| DeletingNodePodsFailed (e : limits_error)
| SolveAborted.
Arguments ListPoolsFailed {E} e.
Arguments NodePoolsNotFound {E}.
Arguments InstanceTypesDeadlineExceeded {E}.
Arguments VolumeTopologyDeadlineExceeded {E}.
Arguments TopologyFailed {E} errs.
Arguments DaemonSetsFailed {E} e.
Arguments DevicesFailed {E}.
Arguments ListPodsFailed {E} e.
Arguments DeletingNodePodsFailed {E} e.
Arguments SolveAborted {E}.

(** What a pass reads beside the interfaces of the components it calls. *)
Record ProvisionReads := mkProvisionReads {
  pr_NodePools : result api_error (list NodePool);
  pr_DaemonSets : result api_error (list DaemonSet);
  pr_InstanceTypes : NodePool → result instance_types_error (list InstanceType);
  (** gathering the devices and slices of the cluster for the allocator *)
  pr_DevicesFail : bool;
  (** whether a failed lookup of a pod's volumes was an exceeded deadline *)
  pr_VolumeDeadline : Pod → bool;
}.

Section provisioner.
  Context `{LR : LabelRegistry} `{NS : NameSyntax} `{KV : KnownValues} `{US : UnsupportedStorage}.
  Context `{TA : TaintApi} `{TL : TolerationApi} `{SA : SelectorApi} `{IO : IterationOrder} `{SE : SchedulerEnv} `{HA : HashApi}.
  Context {E : Type} `{KR : KubeReader E}.
  Context (GetSupportedNodeClasses : list (string * string)) (nodePool_Hash : NodePool → string) (ToLower : string → string).
  Context (PodRequests DaemonRequests : Pod → ResourceList) (IgnoreDRARequests ReservedCapacity : bool).
  Context (vapi : VolumeApi) (dapi : DefaultsApi) (napi : NodeApi) (capi : ClusterApi).
  Context (spec_Volumes : Pod → list Volume) (spec_MatchFields : Pod → list bool).
  Context (DefaultConstraints : list TopologySpreadConstraint) (ParseDuration : string → option Z).

(** *** Building the scheduler *)

(** The pods whose volumes could be looked up, and the alternatives of those that have any. *)
Fixpoint getVolumeTopologyRequirements (reads : ProvisionReads) (pods : list Pod)
    : option (result (provision_error E) (list Pod * gmap string (list Requirements))) :=
  match pods with
  | [] => Some (Ok ([], ∅))
  | pod :: rest =>
      match VolumeTopology_GetRequirements vapi pod (spec_Volumes pod) with
      | None => None
      | Some (Err _) => if pr_VolumeDeadline reads pod then Some (Err VolumeTopologyDeadlineExceeded)
                        else getVolumeTopologyRequirements reads rest
      | Some (Ok reqs) =>
          match getVolumeTopologyRequirements reads rest with
          | Some (Ok (schedulable, volumeReqs)) =>
              Some (Ok (pod :: schedulable,
                        if (length reqs =? 0)%nat then volumeReqs
                        else match volumeReqs !! pod_UID pod with
                             | Some _ => volumeReqs
                             | None => <[pod_UID pod := reqs]> volumeReqs
                             end))
          | r => r
          end
      end
  end.

(** Pods are shared: those that were given constraints are changed for the caller too. *)
Definition injected_pods (pods injected : list Pod) : list Pod :=
  let changed : gmap string Pod := list_to_map ((λ p, (pod_UID p, p)) <$> injected) in
  (λ p, default p (changed !! pod_UID p)) <$> pods.

Definition view_of (n : StateNode) : StateNodeView := mkStateNodeView (st_Node n) (default ∅ (st_Labels n)).

Definition node_antiaffinity (c : Cluster) : list (Pod * gmap string string) :=
  prod_map id node_Labels <$> ForPodsWithAntiAffinity c.

Definition deleting_names (c : Cluster) : gset string :=
  list_to_set (node_name <$> filter (λ n, MarkedForDeletion n = true) ((map_to_list (nodes c)).*2)).

Definition Provisioner_NewScheduler (reads : ProvisionReads) (now : Z) (c : Cluster) (opts : list SchedulerOption)
    (pods : list Pod) (stateNodes : list StateNode)
    : option (result (provision_error E) (SchedulerConfig * list StateNodeView * list TemplateMeta * Scheduler * list Pod)) :=
  match ListManaged GetSupportedNodeClasses (pr_NodePools reads) with
  | Err e => Some (Err (ListPoolsFailed e))
  | Ok managed =>
      let nodePools := filter (λ np, schedulable_pool np = true) managed in
      if (length nodePools =? 0)%nat then Some (Err NodePoolsNotFound) else
      let nodePools := OrderByWeight nodePools in
      match resolve_instance_types (pr_InstanceTypes reads) nodePools with
      | None => Some (Err InstanceTypesDeadlineExceeded)
      | Some instanceTypes =>
          match getVolumeTopologyRequirements reads pods with
          | None => None
          | Some (Err e) => Some (Err e)
          | Some (Ok (schedulable, volumeReqs)) =>
              let schedulable := Inject dapi DefaultConstraints schedulable in
              let resolved := resolve_options opts in
              let views := view_of <$> stateNodes in
              match NewTopology views (node_antiaffinity c) (o_preferencePolicy resolved)
                      (np_template <$> nodePools) instanceTypes schedulable with
              | Err errs => if existsb (λ e, match e with Panic => true | _ => false end) errs then None
                            else Some (Err (TopologyFailed errs))
              | Ok topology =>
                  match getDaemonSetPods c (pr_DaemonSets reads) with
                  | Err e => Some (Err (DaemonSetsFailed e))
                  | Ok daemonSetPods =>
                      if negb IgnoreDRARequests && pr_DevicesFail reads then Some (Err DevicesFailed) else
                      match mapM snapshot stateNodes with
                      | None => None
                      | Some snapshots =>
                          match NewScheduler nodePool_Hash ToLower PodRequests DaemonRequests IgnoreDRARequests now nodePools
                                  snapshots (deleting_names c) topology instanceTypes daemonSetPods volumeReqs resolved with
                          | None => None
                          | Some (config, metas, s) => Some (Ok (config, views, metas, s, injected_pods pods schedulable))
                          end
                      end
                  end
              end
          end
      end
  end.

(** *** Collecting pods *)

(** Rejected pods are marked as not schedulable. *)
Fixpoint validate_pods (now : Z) (c : Cluster) (pods : list Pod) : option (Cluster * list Pod) :=
  match pods with
  | [] => Some (c, [])
  | p :: rest =>
      match Validate vapi spec_Volumes spec_MatchFields p with
      | None => None
      | Some [] => match validate_pods now c rest with Some (c, kept) => Some (c, p :: kept) | None => None end
      | Some _ => validate_pods now (mark_failed now c (pod_key p)) rest
      end
  end.

Definition GetPendingPods (now : Z) (virtualPods : list Pod) (c : Cluster)
    : option (Cluster * result (provision_error E) (list Pod)) :=
  match GetProvisionablePods napi with
  | Err e => Some (c, Err (ListPodsFailed e))
  | Ok pods => match validate_pods now c pods with
               | None => None
               | Some (c, pods) => Some (c, Ok (pods ++ virtualPods))
               end
  end.

(** *** Recording results *)

Definition find_node (nodes : list StateNode) (name : string) : option StateNode :=
  List.find (λ n, bool_decide (node_name n = name)) nodes.

(** Nodes that get a real pod are nominated. *)
Definition Results_Record (BatchMaxDuration now : Z) (nodes : list StateNode) (r : Results E) (c : Cluster) : Cluster :=
  foldl (λ c existing,
    match filter (λ p, IsVirtualPod p = false) (en_Pods existing), find_node nodes (en_Name existing) with
    | _ :: _, Some n => NominateNodeForPod BatchMaxDuration now c (default EmptyString (ProviderID n))
    | _, _ => c
    end) c (ExistingNodes r).

(** Appends to the entry of a key, in the order of insertion. *)
Fixpoint append_to (key : string) (pods : list Pod) (m : list (string * list Pod)) : list (string * list Pod) :=
  match m with
  | [] => [(key, pods)]
  | (k, ps) :: rest => if bool_decide (k = key) then (k, ps ++ pods) :: rest else (k, ps) :: append_to key pods rest
  end.

Definition NodePoolToPodMapping (nodes : list StateNode) (r : Results E) : list (string * list Pod) :=
  let of_claims := foldl (λ m nc, append_to (NodePoolName nc) (nc_Pods nc) m) [] (NewNodeClaims r) in
  foldl (λ m en, append_to (match find_node nodes (en_Name en) with
                            | Some n => default EmptyString (default ∅ (st_Labels n) !! NodePoolLabelKey)
                            | None => EmptyString
                            end) (en_Pods en) m) of_claims (ExistingNodes r).

Definition ExistingNodeToPodMapping (nodes : list StateNode) (r : Results E) : list (string * list Pod) :=
  omap (λ en, match find_node nodes (en_Name en) with
              | Some n => (λ nc, (claim_Name nc, en_Pods en)) <$> st_NodeClaim n
              | None => None
              end) (ExistingNodes r).

Definition bufferPodCountsFromResults (nodes : list StateNode) (r : Results E) : gmap string Z :=
  foldl (λ counts en,
    foldl (λ counts p, if IsVirtualPod p
                       then let id := match find_node nodes (en_Name en) with
                                      | Some n => default EmptyString (ProviderID n)
                                      | None => EmptyString
                                      end in
                            <[id := (default 0 (counts !! id) + 1)%Z]> counts
                       else counts) counts (en_Pods en)) ∅ (ExistingNodes r).

(** *** Scheduling *)

Context (allocator : option (string → Requirements → list string → option AllocationResult)).
Context (requests_of : Pod → ResourceList) (GetVolumes_of : Pod → result api_error Volumes)
        (resolvePodClaims : Pod → option (list string)).
Context (draDriversForNodeClaim : NodeClaim → list string).

(** The options of the process that a pass reads. *)
Record ProvisionOptions := mkProvisionOptions {
  po_MinValuesPolicy : MinValuesPolicy;
  po_IgnorePreferences : bool;
  po_BatchMaxDuration : Z;
}.

Definition provision_options (o : ProvisionOptions) : list SchedulerOption :=
  [DisableReservedCapacityFallback; MinValuesPolicyOption (po_MinValuesPolicy o)] ++
  (if po_IgnorePreferences o then [IgnorePreferencesOption] else []).

(** What a pass decided: the results, and for the claims the rest of their templates (by
    NodePool) and the store of annotations they refer to. *)
Record Placement := mkPlacement {
  pl_Results : Results E;
  pl_Metas : gmap string TemplateMeta;
  pl_Store : gmap nat (gmap string string);
}.

Definition no_placement : Placement := mkPlacement (mkResults [] [] ∅) ∅ ∅.

Definition template_metas (config : SchedulerConfig) (metas : list TemplateMeta) : gmap string TemplateMeta :=
  list_to_map (zip (nct_NodePoolName <$> nodeClaimTemplates config) metas).

(** The outcome of [Solve]; an exceeded deadline keeps what was placed so far. *)
Definition Schedule (reads : ProvisionReads) (o : ProvisionOptions) (ctx : nat → option bool) (now : Z) (virtualPods : list Pod)
    (c : Cluster) : option (Cluster * result (provision_error E) Placement) :=
  let nodes := (map_to_list (nodes c)).*2 in
  match GetPendingPods now virtualPods c with
  | None => None
  | Some (c, Err e) => Some (c, Err e)
  | Some (c, Ok pendingPods) =>
      match StateNodes_CurrentlyReschedulablePods ParseDuration napi now (Deleting nodes) with
      | Err e => Some (c, Err (DeletingNodePodsFailed e))
      | Ok deletingNodePods =>
          let pods := pendingPods ++ deletingNodePods in
          if (length pods =? 0)%nat then Some (c, Ok no_placement) else
          match Provisioner_NewScheduler reads now c (provision_options o) pods (Active nodes) with
          | None => None
          | Some (Err NodePoolsNotFound) => Some (MarkPodSchedulingDecisions capi now c pods [] [], Ok no_placement)
          | Some (Err e) => Some (c, Err e)
          | Some (Ok (config, views, metas, s, pods)) =>
              match Scheduler_Solve config ReservedCapacity allocator views requests_of GetVolumes_of resolvePodClaims ctx
                      draDriversForNodeClaim s pods with
              | None => None
              | Some (_, _, Some false) => Some (c, Err SolveAborted)
              | Some (s', r, _) =>
                  let r := TruncateInstanceTypes r (po_MinValuesPolicy o) MaxInstanceTypes in
                  let c := MarkPodSchedulingDecisions capi now c (filterVirtualPodErrors pods (PodErrors r))
                             (filterVirtualPodMapping (NodePoolToPodMapping nodes r))
                             (filterVirtualPodMapping (ExistingNodeToPodMapping nodes r)) in
                  Some (Results_Record (po_BatchMaxDuration o) now nodes r c,
                        Ok (mkPlacement r (template_metas config metas) (template_annotations s')))
              end
          end
      end
  end.

(** *** The reconciler *)

Context (DefaultTerminationGracePeriod : option Z) (lapi : LaunchApi).

Inductive reconcile_outcome :=
| RequeueImmediately
| ScheduleError (e : provision_error E)
| CreateErrors (errs : list create_error).

(** The claims to create, with the rest of their template; a claim comes from a template. *)
Definition launches (p : Placement) : list Launch :=
  omap (λ n, mkLaunch n <$> pl_Metas p !! NodePoolName n) (NewNodeClaims (pl_Results p)).

(** [triggered] is the result of the batcher, [order] that of the workers. *)
Definition Provisioner_Reconcile (reads : ProvisionReads) (o : ProvisionOptions) (CapacityBuffer : bool) (ctx : nat → option bool)
    (now : Z) (virtualPods : list Pod) (order : list nat) (triggered : bool) (c : Cluster) : option (Cluster * reconcile_outcome) :=
  if negb triggered then Some (c, RequeueImmediately) else
  let '(c, synced) := Synced capi now c in
  if negb synced then Some (c, RequeueImmediately) else
  let nodes := (map_to_list (nodes c)).*2 in
  match Schedule reads o ctx now virtualPods c with
  | None => None
  | Some (c, Err e) => Some (c, ScheduleError e)
  | Some (c, Ok placement) =>
      let c := if CapacityBuffer then UpdateBufferPodCounts c (bufferPodCountsFromResults nodes (pl_Results placement)) else c in
      if (length (NewNodeClaims (pl_Results placement)) =? 0)%nat then Some (c, RequeueImmediately)
      else match CreateNodeClaims DefaultTerminationGracePeriod (pl_Store placement) lapi now order c (launches placement) with
           | None => None
           | Some (c, _, []) => Some (c, RequeueImmediately)
           | Some (c, _, errs) => Some (c, CreateErrors errs)
           end
  end.
End provisioner.
