(* ===== verification/ProvisionerProps.v ===== *)
(** * ProvisionerProps: what launching and scheduling guarantee *)

From S2P Require Import Prelude Labels Requirement Objects Requirements Resources Taints HostPorts.
From S2P Require Import Volumes VolumeTopology PodValidation InstanceTypes Reservations PodState Preferences DefaultConstraints.
From S2P Require Import TopologyGroup Topology NodeClaims Budgets Templates NodePools ExistingNodes Evictions.
From S2P Require Import NodePoolState StateNodes Cluster ClusterInv SchedQueue Scheduler SchedulerSetup Solver.
From S2P Require Import Simulation Provisioner.

(** ** Counts of a pool under updates *)

Lemma mark_active_counts n np nc k :
  reserved (MarkNodeClaimActive n np nc) k = reserved n k ∧
  (node_total (MarkNodeClaimActive n np nc) k ≤ node_total n k + (if decide (k = np) then 1 else 0))%Z.
Proof.
  destruct (ensure_same n np k) as [Ht Hr]. rewrite <-Ht, <-Hr. unfold MarkNodeClaimActive, mark_claim.
  generalize (ensureNodePoolEntry n np). intros m. split; [done|]. unfold node_total, nodeCounts. cbn [nodePoolNameToNodeClaimState].
  case_decide as E; [subst k; rewrite lookup_alter_eq|rewrite lookup_alter_ne by done; lia].
  destruct (nodePoolNameToNodeClaimState m !! np) as [st|]; cbn; [|lia].
  pose proof (size_union_alt (ncs_Active st) {[nc]}) as H1.
  pose proof (subseteq_size (ncs_Deleting st ∖ {[nc]}) (ncs_Deleting st) ltac:(set_solver)) as H2.
  pose proof (subseteq_size (ncs_PendingDisruption st ∖ {[nc]}) (ncs_PendingDisruption st) ltac:(set_solver)) as H3.
  pose proof (subseteq_size ({[nc]} ∖ ncs_Active st) ({[nc]} : gset string) ltac:(set_solver)) as H4. rewrite size_singleton in H4. lia.
Qed.

Lemma set_mapping_counts n np nc k :
  reserved (SetNodeClaimMapping n np nc) k = reserved n k ∧ node_total (SetNodeClaimMapping n np nc) k = node_total n k.
Proof. unfold SetNodeClaimMapping. destruct (_ || _); [done|]. destruct (ensure_same n np k). done. Qed.

(** A claim that is not marked for deletion adds at most one node to its pool. *)
Lemma update_claim_counts n nc k :
  reserved (NodePoolState_UpdateNodeClaim n nc false) k = reserved n k ∧
  (node_total (NodePoolState_UpdateNodeClaim n nc false) k ≤ node_total n k + (if decide (k = claim_pool nc) then 1 else 0))%Z.
Proof.
  unfold NodePoolState_UpdateNodeClaim. change (default EmptyString (claim_Labels nc !! NodePoolLabelKey)) with (claim_pool nc).
  case_bool_decide as E; [split; [done|]; destruct (decide _); lia|].
  destruct (set_mapping_counts n (claim_pool nc) (claim_Name nc) k) as [<- <-]. apply mark_active_counts.
Qed.

Lemma release_counts n np count k : (0 ≤ reserved n np ≤ int64_max)%Z → (0 ≤ count ≤ int64_max)%Z →
  node_total (ReleaseNodeCount n np count) k = node_total n k ∧
  reserved (ReleaseNodeCount n np count) k = if decide (k = np) then (0 `max` (reserved n np - count))%Z else reserved n k.
Proof.
  intros Hr Hc. unfold ReleaseNodeCount, reserved, node_total, nodeCounts in *.
  destruct (nodePoolNameToNodePoolLimit n !! np) as [r|] eqn:E; cbn in *.
  - split; [done|]. case_decide as Ek; [subst k; rewrite lookup_insert_eq; cbn|by rewrite lookup_insert_ne].
    rewrite wrap64_id by (unfold in_int64, int64_min, int64_max in *; lia). destruct (Z.ltb_spec (r - count) 0); lia.
  - split; [done|]. case_decide as Ek; [subst k; rewrite E; cbn; lia|done].
Qed.

(** ** Launching *)

Section launch_properties.
  Context `{LR : LabelRegistry} `{SE : SchedulerEnv}.
  Context (DefaultTerminationGracePeriod : option Z) (store : gmap nat (gmap string string)) (api : LaunchApi).

Abbreviation create := (Create DefaultTerminationGracePeriod store api).
Abbreviation create_all := (CreateNodeClaims DefaultTerminationGracePeriod store api).

(** The API server returns new objects: without a provider id, and under names the cluster
    does not know with one. *)
Definition creates_new (c : Cluster) (i : nat) : Prop := ∀ object nc, create_claim api i object = Ok nc →
  claim_ProviderID nc = EmptyString ∧ default EmptyString (nodeClaimNameToProviderID c !! claim_Name nc) = EmptyString.

(** Launches belong to their pool. *)
Definition creates_in_pool (i : nat) (l : Launch) : Prop := ∀ object nc, create_claim api i object = Ok nc →
  claim_pool nc = NodePoolName (l_NodeClaim l).

Definition launchable (l : Launch) : Prop :=
  is_Some (ToNodeClaim DefaultTerminationGracePeriod store (l_Meta l) (l_NodeClaim l)).

Record created_from (now : Z) (i : nat) (l : Launch) (c c' : Cluster) (r : result create_error string) : Prop := {
  cf_wf : cluster_wf c';
  cf_ids : ∀ name, default EmptyString (nodeClaimNameToProviderID c' !! name) = default EmptyString (nodeClaimNameToProviderID c !! name);
  cf_known : ∀ name, NodeClaimExists c name = true → NodeClaimExists c' name = true;
  cf_reserved : ∀ k, reserved (nodePoolState c') k = reserved (nodePoolState c) k;
  cf_total : ∀ k, (node_total (nodePoolState c') k ≤ node_total (nodePoolState c) k +
                   (if decide (k = NodePoolName (l_NodeClaim l)) then 1 else 0))%Z;
  cf_name : ∀ name, r = Ok name → NodeClaimExists c' name = true ∧
              ∃ object nc, create_claim api i object = Ok nc ∧ claim_Name nc = name;
}.

Lemma created_nothing now i l c e : cluster_wf c → created_from now i l c c (Err e).
Proof. intros. constructor; try done. intros k. destruct (decide _); lia. Qed.

Lemma Create_spec now i l c : cluster_wf c → launchable l → creates_new c i → creates_in_pool i l →
  ∃ c' r, create now i c l = Some (c', r) ∧ created_from now i l c c' r.
Proof.
  intros Hwf [object Hobj] Hnew Hpool. unfold Create.
  destruct (get_pool api (NodePoolName (l_NodeClaim l))) as [latest|e]; [|eauto using created_nothing].
  destruct (ExceededBy (np_Limits latest) _) as [[[? ?] ?]|]; [eauto using created_nothing|].
  rewrite Hobj. destruct (create_claim api i object) as [nc|e] eqn:Ec; [|eauto using created_nothing].
  destruct (Hnew _ _ Ec) as [Hid Hfree]. set (c0 := UpdatePodToNodeClaimMapping c _).
  assert (cluster_wf c0) as Hwf0 by done.
  destruct (UpdateNodeClaim_wf now c0 nc Hwf0) as (c' & Hu & Hwf').
  { unfold claim_update_ok. by rewrite bool_decide_true. }
  rewrite Hu. do 2 eexists. split; [done|]. revert Hu. unfold UpdateNodeClaim. rewrite Hid. cbn [mbind option_bind bool_decide].
  rewrite bool_decide_true by done. cbn [mbind option_bind].
  destruct (nodes c0 !! EmptyString) as [n|] eqn:En; [by destruct (wf_objects _ _ _ _ _ Hwf0 _ _ En) as (_ & ? & _)|].
  intros [= <-]. pose proof (update_claim_counts (nodePoolState c) nc) as Hcounts. rewrite (Hpool _ _ Ec) in Hcounts.
  constructor; try done; cbn.
  - intros name. destruct (decide (claim_Name nc = name)) as [<-|?]; [by rewrite lookup_insert_eq, Hfree|by rewrite lookup_insert_ne].
  - intros name. unfold NodeClaimExists. rewrite !bool_decide_eq_true. cbn. intros [id Hid'].
    destruct (decide (claim_Name nc = name)) as [<-|?]; [by rewrite lookup_insert_eq; eexists|by rewrite lookup_insert_ne].
  - intros k. apply Hcounts.
  - intros k. apply Hcounts.
  - intros name [= <-]. split; [|by eauto]. unfold NodeClaimExists. apply bool_decide_eq_true. cbn. by rewrite lookup_insert_eq; eexists.
Qed.

(** *** A batch *)

Definition pool_launches (pool : string) (ls : list Launch) : list Launch :=
  filter (λ l, NodePoolName (l_NodeClaim l) = pool) ls.
Definition static_launches (pool : string) (ls : list Launch) : list Launch :=
  filter (λ l, tm_IsStatic (l_Meta l) = true) (pool_launches pool ls).

Definition reservations_sane (c : Cluster) : Prop := ∀ k, (0 ≤ reserved (nodePoolState c) k ≤ int64_max)%Z.

Lemma create_one_spec now ls c finished i l : cluster_wf c → reservations_sane c →
  ls !! i = Some l → launchable l → creates_new c i → creates_in_pool i l →
  ∃ c' r, create_one DefaultTerminationGracePeriod store api now ls (c, finished) i = Some (c', <[i := r]> finished) ∧
    cluster_wf c' ∧ reservations_sane c' ∧
    (∀ name, default EmptyString (nodeClaimNameToProviderID c' !! name) = default EmptyString (nodeClaimNameToProviderID c !! name)) ∧
    (∀ name, NodeClaimExists c name = true → NodeClaimExists c' name = true) ∧
    (∀ k, reserved (nodePoolState c') k = 0 `max` (reserved (nodePoolState c) k - Z.of_nat (length (static_launches k [l]))))%Z ∧
    (∀ k, node_total (nodePoolState c') k ≤ node_total (nodePoolState c) k + Z.of_nat (length (pool_launches k [l])))%Z ∧
    (∀ name, r = Ok name → NodeClaimExists c' name = true ∧ ∃ object nc, create_claim api i object = Ok nc ∧ claim_Name nc = name).
Proof.
  intros Hwf Hs Hl Hla Hn Hp. destruct (Create_spec now i l c Hwf Hla Hn Hp) as (c1 & r & Hc & [H1 H2 H3 H4 H5 H6]).
  unfold create_one. cbv beta iota. rewrite Hl. cbv beta iota. rewrite Hc. unfold static_launches, pool_launches.
  assert (∀ k, (0 ≤ reserved (nodePoolState c1) k ≤ int64_max)%Z) as Hs1 by (intros k; rewrite H4; apply Hs).
  destruct (tm_IsStatic (l_Meta l)) eqn:Es.
  - eexists _, r. split; [done|]. cbn [nodePoolState set_nodePoolState].
    pose proof (λ k, release_counts (nodePoolState c1) (NodePoolName (l_NodeClaim l)) 1 k (Hs1 _) ltac:(unfold int64_max; lia)) as Hrel.
    split_and!; try done.
    + intros k. cbn. destruct (Hrel k) as [_ ->]. pose proof (Hs1 k). pose proof (Hs1 (NodePoolName (l_NodeClaim l))).
      destruct (decide _); unfold int64_max in *; lia.
    + intros k. destruct (Hrel k) as [_ ->]. rewrite filter_cons, filter_nil. destruct (decide (k = _)) as [->|Hk].
      * rewrite decide_True, filter_cons, filter_nil, decide_True by done. rewrite H4. cbn. lia.
      * rewrite decide_False by congruence. rewrite H4, filter_nil. cbn. pose proof (Hs k). lia.
    + intros k. destruct (Hrel k) as [-> _]. specialize (H5 k). rewrite filter_cons, filter_nil. cbn in H5 |- *.
      destruct (decide (k = _)) as [->|Hk]; [rewrite decide_True by done; cbn; lia|rewrite decide_False by congruence; cbn; lia].
  - eexists _, r. split; [done|]. split_and!; try done.
    + intros k. rewrite filter_cons, filter_nil. rewrite H4. pose proof (Hs k).
      destruct (decide _); [rewrite filter_cons, filter_nil, decide_False by congruence|rewrite filter_nil]; cbn; lia.
    + intros k. specialize (H5 k). rewrite filter_cons, filter_nil.
      destruct (decide (k = _)) as [->|Hk]; [rewrite decide_True by done; cbn; lia|rewrite decide_False by congruence; cbn; lia].
Qed.

Lemma create_loop_spec now ls order c finished : NoDup order → cluster_wf c → reservations_sane c →
  (∀ i l, i ∈ order → ls !! i = Some l → launchable l ∧ creates_new c i ∧ creates_in_pool i l) →
  ∃ c' finished', foldl_opt (create_one DefaultTerminationGracePeriod store api now ls) (c, finished) order = Some (c', finished') ∧
    cluster_wf c' ∧
    (∀ name, NodeClaimExists c name = true → NodeClaimExists c' name = true) ∧
    (∀ k, reserved (nodePoolState c') k =
          0 `max` (reserved (nodePoolState c) k - Z.of_nat (length (static_launches k (omap (λ i, ls !! i) order)))))%Z ∧
    (∀ k, node_total (nodePoolState c') k ≤
          node_total (nodePoolState c) k + Z.of_nat (length (pool_launches k (omap (λ i, ls !! i) order))))%Z ∧
    (∀ i, i ∉ order → finished' !! i = finished !! i) ∧
    (∀ i, i ∈ order → is_Some (ls !! i) → ∃ r, finished' !! i = Some r ∧ ∀ name, r = Ok name → NodeClaimExists c' name = true ∧
       ∃ object nc, create_claim api i object = Ok nc ∧ claim_Name nc = name).
Proof.
  revert c finished. induction order as [|i order IH]; intros c finished Hnd Hwf Hs Hok; cbn [foldl_opt omap list_omap].
  { exists c, finished. split; [done|]. split_and!; try done.
    - intros k. cbn. pose proof (Hs k). lia.
    - intros k. cbn. lia.
    - by intros i ?%elem_of_nil. }
  apply NoDup_cons in Hnd as [Hi Hnd]. destruct (ls !! i) as [l|] eqn:El.
  - destruct (Hok i l) as (Hla & Hn & Hp); [by left|done|].
    destruct (create_one_spec now ls c finished i l) as (c1 & r & -> & Hwf1 & Hs1 & Hid1 & Hk1 & Hr1 & Ht1 & Hn1); [done..|].
    cbn [mbind option_bind]. destruct (IH c1 (<[i := r]> finished)) as (c' & fin & -> & Hwf' & Hk' & Hr' & Ht' & Hout & Hin); [done..| |].
    { intros j l' Hj Hl'. destruct (Hok j l') as (? & Hn' & ?); [by right|done|]. split_and!; [done| |done].
      intros object nc Hcr. destruct (Hn' _ _ Hcr) as [? ?]. split; [done|]. by rewrite Hid1. }
    exists c', fin. split; [done|]. split_and!; [done|by eauto|..].
    + intros k. rewrite Hr', Hr1. unfold static_launches, pool_launches. rewrite !filter_cons, !filter_nil.
      repeat (case_decide; rewrite ?filter_cons, ?filter_nil); cbn [length]; pose proof (Hs k); lia.
    + intros k. rewrite Ht'. specialize (Ht1 k). revert Ht1. unfold pool_launches. rewrite !filter_cons, !filter_nil.
      case_decide; cbn [length]; lia.
    + intros j Hj. rewrite not_elem_of_cons in Hj. destruct Hj as [Hji Hj]. rewrite Hout by done. by rewrite lookup_insert_ne.
    + intros j [->|Hj]%elem_of_cons Hlj; [|by apply Hin]. exists r. rewrite Hout, lookup_insert_eq by done. split; [done|].
      intros name Hr. destruct (Hn1 name Hr) as [? ?]. split; [by apply Hk'|done].
  - assert (create_one DefaultTerminationGracePeriod store api now ls (c, finished) i = Some (c, finished)) as ->
      by (unfold create_one; by rewrite El).
    cbn [mbind option_bind].
    destruct (IH c finished) as (c' & fin & -> & Hwf' & Hk' & Hr' & Ht' & Hout & Hin); [done..| |].
    { intros j l' Hj Hl'. apply Hok; [by right|done]. }
    exists c', fin. split; [done|]. split_and!; try done.
    + intros j Hj. rewrite not_elem_of_cons in Hj. apply Hout, Hj.
    + intros j [->|Hj]%elem_of_cons Hlj; [by rewrite El in Hlj; destruct Hlj|by apply Hin].
Qed.

Lemma omap_lookup_seq {A} (l : list A) : omap (λ i, l !! i) (seq 0 (length l)) = l.
Proof.
  induction l as [|x l IH]; [done|]. cbn [length seq omap list_omap lookup list_lookup]. f_equal. rewrite <-fmap_S_seq.
  etrans; [|exact IH]. generalize (seq 0 (length l)). induction l0 as [|i l0 IH0]; [done|].
  cbn. destruct (l !! i); by rewrite IH0.
Qed.

Lemma order_launches (ls : list Launch) order : order ≡ₚ seq 0 (length ls) → omap (λ i, ls !! i) order ≡ₚ ls.
Proof. intros Hp. etrans; [by apply omap_Permutation|]. by rewrite omap_lookup_seq. Qed.

Lemma create_all_spec now order c ls : order ≡ₚ seq 0 (length ls) → cluster_wf c → reservations_sane c →
  (∀ i l, ls !! i = Some l → launchable l ∧ creates_new c i ∧ creates_in_pool i l) →
  ∃ c' names errs, create_all now order c ls = Some (c', names, errs) ∧ cluster_wf c' ∧ length names = length ls ∧
    (∀ k, reserved (nodePoolState c') k = 0 `max` (reserved (nodePoolState c) k - Z.of_nat (length (static_launches k ls))))%Z ∧
    (∀ k, node_total (nodePoolState c') k ≤ node_total (nodePoolState c) k + Z.of_nat (length (pool_launches k ls)))%Z ∧
    (∀ k, static_launches k ls = pool_launches k ls → (Z.of_nat (length (pool_launches k ls)) ≤ reserved (nodePoolState c) k)%Z →
       (node_total (nodePoolState c') k + reserved (nodePoolState c') k ≤
        node_total (nodePoolState c) k + reserved (nodePoolState c) k)%Z) ∧
    (errs = [] → ∀ i, (i < length ls)%nat → ∃ object nc, create_claim api i object = Ok nc ∧
       names !! i = Some (claim_Name nc) ∧ NodeClaimExists c' (claim_Name nc) = true).
Proof.
  intros Hp Hwf Hs Hok.
  destruct (create_loop_spec now ls order c ∅) as (c' & fin & Hc & Hwf' & _ & Hr & Ht & _ & Hin).
  { rewrite Hp. apply NoDup_seq. } { done. } { done. } { eauto. }
  unfold CreateNodeClaims. rewrite Hc. eexists c', _, _. split; [done|]. pose proof (order_launches ls order Hp) as Ho.
  assert (∀ k, reserved (nodePoolState c') k = 0 `max` (reserved (nodePoolState c) k - Z.of_nat (length (static_launches k ls))))%Z as Hr'.
  { intros k. rewrite Hr. unfold static_launches, pool_launches. by rewrite Ho. }
  assert (∀ k, node_total (nodePoolState c') k ≤ node_total (nodePoolState c) k + Z.of_nat (length (pool_launches k ls)))%Z as Ht'.
  { intros k. specialize (Ht k). unfold pool_launches in *. by rewrite Ho in Ht. }
  split_and!; [done|by rewrite length_fmap, length_seq|done..| |].
  - intros k Hst Hle. specialize (Ht' k). rewrite Hr', Hst. lia.
  - intros Herr i Hi. destruct (Hin i) as (r & Hfin & Hname).
    { rewrite Hp. apply elem_of_seq. lia. } { by apply lookup_lt_is_Some_2. }
    destruct r as [name|e].
    + destruct (Hname name eq_refl) as (? & object & nc & ? & <-). exists object, nc. split_and!; [done| |done].
      rewrite list_lookup_fmap, lookup_seq_lt by done. cbn. by rewrite Hfin.
    + exfalso. assert (e ∈ omap (λ i, error_of (fin !! i)) (seq 0 (length ls))) as Hne.
      { apply list_elem_of_omap. exists i. split; [apply elem_of_seq; lia|by rewrite Hfin]. }
      rewrite Herr in Hne. by apply elem_of_nil in Hne.
Qed.

(** A claim whose custom labels can all be given a value. *)
Definition creatable (l : Launch) : Prop :=
  requirements_wf (nc_Requirements (l_NodeClaim l)) ∧
  ∀ key r, nc_Requirements (l_NodeClaim l) !! key = Some r → custom_label key = true → complement r = true → drawable r.

(** The registry knows the labels of instance types and capacity types under their own names. *)
Definition launch_labels_known : Prop :=
  LabelInstanceTypeStable ∈ WellKnownLabels ∧ CapacityTypeLabelKey ∈ WellKnownLabels ∧
  normalize_key LabelInstanceTypeStable = LabelInstanceTypeStable ∧ normalize_key CapacityTypeLabelKey = CapacityTypeLabelKey.

Lemma creatable_launchable `{!StableRegistry} l : launch_labels_known → creatable l → launchable l.
Proof.
  intros (H1 & H2 & H3 & H4) [Hw Hd]. unfold launchable. apply not_eq_None_Some. intros Hn.
  apply (ToNodeClaim_None_iff _ _ _ _ H1 H2 H3 H4 Hw) in Hn as (key & r & Hr & Hk & Hc & Hnd). by eapply Hnd, Hd.
Qed.

(** C25: creating a batch of claims does not panic and keeps the cluster state consistent, in
    whatever order the workers run, when every custom label of the claims can be given
    a value (the exact condition under which building their objects does not panic) and the API server
    answers a creation with a new object of the claim's pool, without a provider id and
    with a name the cluster does not know with one.  Every reservation of a static pool is given back, one
    per claim of the batch, whether its creation succeeds or fails; the nodes of a pool grow
    by at most the claims of the batch, so a pool whose claims were all reserved stays
    within its limit. Without errors every claim has the name of a created object that the
    cluster state knows. *)
Theorem CreateNodeClaims_spec `{!StableRegistry} now order c ls :
  launch_labels_known → order ≡ₚ seq 0 (length ls) → cluster_wf c → reservations_sane c →
  (∀ i l, ls !! i = Some l → creatable l ∧ creates_new c i ∧ creates_in_pool i l) →
  ∃ c' names errs, create_all now order c ls = Some (c', names, errs) ∧ cluster_wf c' ∧ length names = length ls ∧
    (∀ k, reserved (nodePoolState c') k = 0 `max` (reserved (nodePoolState c) k - Z.of_nat (length (static_launches k ls))))%Z ∧
    (∀ k, node_total (nodePoolState c') k ≤ node_total (nodePoolState c) k + Z.of_nat (length (pool_launches k ls)))%Z ∧
    (∀ k, static_launches k ls = pool_launches k ls → (Z.of_nat (length (pool_launches k ls)) ≤ reserved (nodePoolState c) k)%Z →
       (node_total (nodePoolState c') k + reserved (nodePoolState c') k ≤
        node_total (nodePoolState c) k + reserved (nodePoolState c) k)%Z) ∧
    (errs = [] → ∀ i, (i < length ls)%nat → ∃ object nc, create_claim api i object = Ok nc ∧
       names !! i = Some (claim_Name nc) ∧ NodeClaimExists c' (claim_Name nc) = true).
Proof.
  intros Hk Hp Hwf Hs Hok. apply create_all_spec; [done..|]. intros i l Hl. destruct (Hok i l Hl) as (? & ? & ?).
  split_and!; [by apply creatable_launchable|done..].
Qed.
End launch_properties.

(** ** A new scheduler has placed nothing *)

Section new_scheduler_properties.
  Context `{LR : LabelRegistry} `{TA : TaintApi} `{TL : TolerationApi} `{SA : SelectorApi} `{IO : IterationOrder} `{SE : SchedulerEnv}.
  Context (nodePool_Hash : NodePool → string) (ToLower : string → string).
  Context (PodRequests DaemonRequests : Pod → ResourceList) (IgnoreDRARequests : bool) (now : Z).

Lemma existing_nodes_empty its daemons poolOf enforce stateNodes t limits existing t' remaining :
  calculateExistingNodeClaims PodRequests IgnoreDRARequests now its daemons poolOf enforce stateNodes t limits =
    Some (existing, t', remaining) → ∀ n, n ∈ existing → en_Pods n = [].
Proof.
  unfold calculateExistingNodeClaims.
  set (f := add_existing_node PodRequests IgnoreDRARequests now its daemons poolOf enforce).
  assert (∀ sns st st', foldl_opt f st sns = Some st' → (∀ n, n ∈ st.1.1 → en_Pods n = []) → ∀ n, n ∈ st'.1.1 → en_Pods n = []) as Hf.
  { induction sns as [|sn sns IH]; intros st st'; cbn [foldl_opt]; [by intros [= <-]|].
    destruct (f st sn) as [st1|] eqn:E; [|done]. cbn [mbind option_bind]. intros H Hst. apply (IH st1 st' H).
    revert E. unfold f, add_existing_node. destruct st as [[ns t0] r0]. destruct (getCompatibleDaemonPods _ _ _ _) as [ds|]; [|done].
    cbn [mbind option_bind]. unfold NewExistingNode. intros [= <-]. cbn. intros n [Hn|Hn]%elem_of_app; [by apply Hst|].
    apply list_elem_of_singleton in Hn as ->. done. }
  destruct (foldl_opt f _ stateNodes) as [[[ns t1] r1]|] eqn:E; [|done]. cbn [mbind option_bind]. intros [= <- <- <-] n.
  unfold sortExistingNodes. rewrite sort_by_Permutation. apply (Hf _ _ _ E). by intros m ?%elem_of_nil.
Qed.

Lemma NewScheduler_fresh nodePools sns marked t its daemons volumeReqs resolved config metas s :
  NewScheduler nodePool_Hash ToLower PodRequests DaemonRequests IgnoreDRARequests now nodePools sns marked t its daemons volumeReqs
    resolved = Some (config, metas, s) → placed_uids s = [] ∧ volumeReqsByPod config = volumeReqs.
Proof.
  unfold NewScheduler. destruct (NewReservationManager _ _ _) as [seeded|]; [|done]. cbn [mbind option_bind].
  destruct (mapM _ nodePools) as [made|]; [|done]. cbn [mbind option_bind].
  destruct (buildDaemonOverheadGroups _ _ _ _) as [[groups ds]|]; [|done]. cbn [mbind option_bind].
  destruct (calculateExistingNodeClaims _ _ _ _ _ _ _ _ _) as [[[existing t'] remaining]|] eqn:E; [|done].
  cbn [mbind option_bind]. intros [= <- <- <-]. split; [|done].
  pose proof (existing_nodes_empty _ _ _ _ _ _ _ _ _ _ E) as He. unfold placed_uids. cbn. rewrite app_nil_r.
  assert (concat (en_Pods <$> existing) = []) as ->; [|done]. clear E. induction existing as [|n ns IH]; [done|].
  cbn. rewrite (He n) by by left. apply IH. intros m Hm. apply He. by right.
Qed.
End new_scheduler_properties.

(** ** The pods of a pass *)

Lemma with_spreads_UID p tscs : pod_UID (with_spreads p tscs) = pod_UID p.
Proof. done. Qed.

Lemma Inject_UIDs dapi defaults pods : pod_UID <$> Inject dapi defaults pods = pod_UID <$> pods.
Proof.
  unfold Inject. destruct (_ =? _)%nat; [done|]. generalize NewDefaultTopologySpreadInjector.
  induction pods as [|p pods IH]; intros d; [done|]. cbn [inject_loop].
  assert (∃ d' s, inject_pod dapi defaults d p = (d', inject_selector defaults p s)) as (d' & s & ->).
  { unfold inject_pod. destruct (negb _); [by exists d, None|]. destruct (getDefaultSelector dapi d p) as [d' s]. eauto. }
  rewrite !fmap_cons, IH. by destruct s.
Qed.

Lemma injected_UIDs pods injected : pod_UID <$> injected_pods pods injected = pod_UID <$> pods.
Proof.
  unfold injected_pods. rewrite <-list_fmap_compose. apply list_fmap_ext. intros i p _. cbn.
  destruct (list_to_map ((λ p, (pod_UID p, p)) <$> injected) !! pod_UID p) as [q|] eqn:E; [|done]. cbn.
  apply elem_of_list_to_map_2, list_elem_of_fmap in E as (r & [= -> ->] & _). done.
Qed.

Section schedule_properties.
  Context `{LR : LabelRegistry} `{NS : NameSyntax} `{KV : KnownValues} `{US : UnsupportedStorage}.
  Context `{TA : TaintApi} `{TL : TolerationApi} `{SA : SelectorApi} `{IO : IterationOrder} `{SE : SchedulerEnv} `{HA : HashApi}.
  Context {E : Type} `{KR : KubeReader E}.
  Context (GetSupportedNodeClasses : list (string * string)) (nodePool_Hash : NodePool → string) (ToLower : string → string).
  Context (PodRequests DaemonRequests : Pod → ResourceList) (IgnoreDRARequests ReservedCapacity : bool).
  Context (vapi : VolumeApi) (dapi : DefaultsApi) (napi : NodeApi) (capi : ClusterApi).
  Context (spec_Volumes : Pod → list Volume) (spec_MatchFields : Pod → list bool).
  Context (DefaultConstraints : list TopologySpreadConstraint) (ParseDuration : string → option Z).

Abbreviation new_scheduler := (Provisioner_NewScheduler (E := E) GetSupportedNodeClasses nodePool_Hash ToLower PodRequests
  DaemonRequests IgnoreDRARequests vapi dapi spec_Volumes DefaultConstraints).

(** What the constructor keeps of its pods. *)
Lemma new_scheduler_inv reads now c opts pods stateNodes config views metas s pods' :
  new_scheduler reads now c opts pods stateNodes = Some (Ok (config, views, metas, s, pods')) →
  ∃ schedulable volumeReqs,
    getVolumeTopologyRequirements (E := E) vapi spec_Volumes reads pods = Some (Ok (schedulable, volumeReqs)) ∧
    pods' = injected_pods pods (Inject dapi DefaultConstraints schedulable) ∧
    placed_uids s = [] ∧ volumeReqsByPod config = volumeReqs.
Proof.
  unfold Provisioner_NewScheduler. destruct (ListManaged _ _) as [managed|]; [|done]. destruct (_ =? _)%nat; [done|].
  destruct (resolve_instance_types _ _) as [its|]; [|done].
  destruct (getVolumeTopologyRequirements _ _ _ _) as [[[schedulable vr]|]|]; [|done..].
  destruct (NewTopology _ _ _ _ _ _) as [t|errs]; [|by destruct (existsb _ errs)].
  destruct (getDaemonSetPods _ _) as [ds|]; [|done]. destruct (_ && _); [done|].
  destruct (mapM snapshot stateNodes) as [sns|]; [|done].
  destruct (NewScheduler _ _ _ _ _ _ _ _ _ _ _ _ _) as [[[config0 metas0] s0]|] eqn:En; [|done]. intros [= <- <- <- <- <-].
  apply NewScheduler_fresh in En as [? ?]. by exists schedulable, vr.
Qed.

(** The scheduler the provisioner builds, as the simulations of the disruption methods use it. *)
Definition provisioner_scheduler (reads : ProvisionReads) (now : Z) (c : Cluster) (opts : list SchedulerOption) (pods : list Pod)
    (stateNodes : list StateNode) (deletingPodUIDs : gset string)
    : result bool (SchedulerConfig * list StateNodeView * Scheduler * list Pod) :=
  match new_scheduler reads now c opts pods stateNodes with
  | Some (Ok (config, views, _, s, pods)) => Ok (config, views, s, pods)
  | Some (Err InstanceTypesDeadlineExceeded) | Some (Err VolumeTopologyDeadlineExceeded) => Err true
  | _ => Err false
  end.

Lemma provisioner_scheduler_fresh reads now c opts pods stateNodes uids config views s pods' :
  provisioner_scheduler reads now c opts pods stateNodes uids = Ok (config, views, s, pods') →
  placed_uids s = [] ∧ pod_UID <$> pods' = pod_UID <$> pods.
Proof.
  unfold provisioner_scheduler. destruct (new_scheduler reads now c opts pods stateNodes) as [[[[[[? ?] ?] ?] ?]|e]|] eqn:En; [|by destruct e|done].
  intros [= <- <- <- <-]. apply new_scheduler_inv in En as (schedulable & vr & _ & -> & ? & _). split; [done|]. apply injected_UIDs.
Qed.

Context (allocator : option (string → Requirements → list string → option AllocationResult)).
Context (requests_of : Pod → ResourceList) (GetVolumes_of : Pod → result api_error Volumes)
        (resolvePodClaims : Pod → option (list string)).
Context (draDriversForNodeClaim : NodeClaim → list string).

(** C21: the scheduler that the provisioner builds for a simulation keeps the promise the
    simulations rely on: when it returns results, every pod it was given is placed on a node,
    placed on a new claim, or reported with an error. *)
Theorem provisioner_keeps_promise reads now c ctx :
  @SchedulerPromise E (solver_service ReservedCapacity allocator requests_of GetVolumes_of resolvePodClaims ctx
    draDriversForNodeClaim (provisioner_scheduler reads now c)).
Proof. apply solver_keeps_promise. apply provisioner_scheduler_fresh. Qed.

Lemma volume_requirements_spec reads pods schedulable volumeReqs p e : NoDup (pod_UID <$> pods) →
  getVolumeTopologyRequirements (E := E) vapi spec_Volumes reads pods = Some (Ok (schedulable, volumeReqs)) →
  p ∈ pods → VolumeTopology_GetRequirements vapi p (spec_Volumes p) = Some (Err e) →
  (∀ q, q ∈ schedulable → q ∈ pods ∧ pod_UID q ≠ pod_UID p) ∧ volumeReqs !! pod_UID p = None.
Proof.
  intros Hnd H Hp He.
  assert (∀ l sch vr, getVolumeTopologyRequirements (E := E) vapi spec_Volumes reads l = Some (Ok (sch, vr)) →
    (∀ q, q ∈ sch → q ∈ l ∧ ∃ a, VolumeTopology_GetRequirements vapi q (spec_Volumes q) = Some (Ok a)) ∧
    (∀ uid, is_Some (vr !! uid) → ∃ q, q ∈ sch ∧ pod_UID q = uid)) as Hl.
  { induction l as [|q l IH]; intros sch vr; cbn [getVolumeTopologyRequirements].
    { intros [= <- <-]. split; [by intros ? ?%elem_of_nil|]. intros uid [? Hu]. by rewrite lookup_empty in Hu. }
    destruct (VolumeTopology_GetRequirements vapi q (spec_Volumes q)) as [[a|]|] eqn:Eq; [| |done].
    - destruct (getVolumeTopologyRequirements vapi spec_Volumes reads l) as [[[sch' vr']|]|]; [|done..]. intros [= <- <-].
      destruct (IH _ _ eq_refl) as [H1 H2]. split.
      + intros r [->|Hr]%elem_of_cons; [split; [by left|eauto]|]. destruct (H1 r Hr). split; [by right|done].
      + intros uid Hu. destruct (decide (uid = pod_UID q)) as [->|Hne]; [exists q; split; [by left|done]|].
        destruct (H2 uid) as (r & ? & ?); [|exists r; split; [by right|done]].
        destruct (length a =? 0)%nat; [done|]. destruct (vr' !! pod_UID q); [done|]. by rewrite lookup_insert_ne in Hu.
    - destruct (pr_VolumeDeadline reads q); [done|]. intros H'. destruct (IH _ _ H') as [H1 H2]. split; [|done].
      intros r Hr. destruct (H1 r Hr). split; [by right|done]. }
  destruct (Hl _ _ _ H) as [H1 H2].
  assert (∀ q, q ∈ schedulable → q ∈ pods ∧ pod_UID q ≠ pod_UID p) as Hs.
  { intros q Hq. destruct (H1 q Hq) as [Hin [a Ha]]. split; [done|]. intros Hu.
    apply list_elem_of_lookup in Hin as [i Hi]. apply list_elem_of_lookup in Hp as [j Hj].
    assert (i = j) as -> by (eapply (NoDup_lookup _ _ _ _ Hnd); rewrite list_lookup_fmap, ?Hi, ?Hj; [done|by rewrite Hu]).
    rewrite Hi in Hj. injection Hj as ->. congruence. }
  split; [done|]. destruct (volumeReqs !! pod_UID p) eqn:Ev; [|done].
  destruct (H2 (pod_UID p)) as (q & Hq & Hu); [by eexists|]. by destruct (Hs q Hq).
Qed.

(** A pod whose volumes could not be looked up is not left out of scheduling: the list that
    is solved still has it, and the scheduler has no volume requirements for it. *)
Theorem failed_lookup_still_scheduled reads now c opts pods stateNodes config views metas s pods' p e :
  new_scheduler reads now c opts pods stateNodes = Some (Ok (config, views, metas, s, pods')) → NoDup (pod_UID <$> pods) →
  p ∈ pods → VolumeTopology_GetRequirements vapi p (spec_Volumes p) = Some (Err e) →
  p ∈ pods' ∧ volumeReqsByPod config !! pod_UID p = None.
Proof.
  intros (schedulable & vr & Hv & -> & _ & ->)%new_scheduler_inv Hnd Hp He.
  destruct (volume_requirements_spec _ _ _ _ _ _ Hnd Hv Hp He) as [Hs Hn]. split; [|done].
  apply list_elem_of_fmap. exists p. split; [|done].
  destruct (list_to_map _ !! pod_UID p) as [q|] eqn:Eq; [|done]. exfalso.
  apply elem_of_list_to_map_2, list_elem_of_fmap in Eq as (r & [= Hu ->] & Hr).
  assert (pod_UID r ∈ pod_UID <$> Inject dapi DefaultConstraints schedulable) as Hin by (apply list_elem_of_fmap; by exists r).
  rewrite Inject_UIDs in Hin. apply list_elem_of_fmap in Hin as (q & Hq & Hqs). destruct (Hs q Hqs). congruence.
Qed.

(** *** A whole pass *)

Abbreviation schedule := (Schedule GetSupportedNodeClasses nodePool_Hash ToLower PodRequests DaemonRequests IgnoreDRARequests
  ReservedCapacity vapi dapi napi capi spec_Volumes spec_MatchFields DefaultConstraints ParseDuration allocator requests_of GetVolumes_of
  resolvePodClaims draDriversForNodeClaim).
Abbreviation pending_pods := (GetPendingPods (E := E) vapi napi spec_Volumes spec_MatchFields).

(** A pass that has a pool to schedule for and is not cut short leaves no pod behind: each
    pending pod that passed validation and each pod of a deleting node is placed on a node,
    placed on a claim that will be created, or has an error. *)
Theorem Schedule_accounts reads o ctx now virtual c c1 pending deleting c' placement :
  pending_pods now virtual c = Some (c1, Ok pending) →
  StateNodes_CurrentlyReschedulablePods ParseDuration napi now (Deleting (map_to_list (nodes c)).*2) = Ok deleting →
  NoDup (pod_UID <$> pending ++ deleting) → (∀ n, ctx n = None) →
  (∃ pools np, ListManaged GetSupportedNodeClasses (pr_NodePools reads) = Ok pools ∧ np ∈ pools ∧ schedulable_pool np = true) →
  schedule reads o ctx now virtual c = Some (c', Ok placement) →
  ∀ p, p ∈ pending ++ deleting → accounted (pl_Results placement) (pod_UID p).
Proof.
  intros Hpend Hdel Hnd Hctx (pools & np & Hpools & Hnp & Hok) Hs p Hp. revert Hs. unfold Schedule. rewrite Hpend, Hdel.
  destruct (Nat.eqb_spec (length (pending ++ deleting)) 0) as [Hz%nil_length_inv|_]; [rewrite Hz in Hp; by apply elem_of_nil in Hp|].
  destruct (Provisioner_NewScheduler _ _ _ _ _ _ _ _ _ _ _ _ _ _ _ _) as [[[[[[config views] metas] s] pods']|err]|] eqn:En; [| |done].
  - apply new_scheduler_inv in En as (schedulable & vr & _ & Hpods & Hfresh & _).
    destruct (Scheduler_Solve _ _ _ _ _ _ _ _ _ s pods') as [[[s' r] d]|] eqn:Es; [|done].
    assert (d = None) as ->.
    { revert Es. unfold Scheduler_Solve. intros (? & _ & (? & _ & (? & _ & [= <- <- <-])%bind_Some)%bind_Some)%bind_Some. apply Hctx. }
    intros [= <- <-]. cbn [pl_Results]. apply TruncateInstanceTypes_accounts.
    pose proof (injected_UIDs (pending ++ deleting) (Inject dapi DefaultConstraints schedulable)) as Hsame. rewrite <-Hpods in Hsame.
    assert (∀ q, q ∈ pods' → accounted r (pod_UID q)) as Ha
      by (eapply Scheduler_Solve_accounts; [exact Hfresh|by rewrite Hsame|exact Es]).
    assert (pod_UID p ∈ pod_UID <$> pods') as (q & -> & Hq)%list_elem_of_fmap by (rewrite Hsame; apply list_elem_of_fmap; by exists p).
    by apply Ha.
  - destruct err; try done. exfalso. revert En. unfold Provisioner_NewScheduler. rewrite Hpools.
    destruct (Nat.eqb_spec (length (filter (λ np, schedulable_pool np = true) pools)) 0) as [Hz%nil_length_inv|_].
    { assert (np ∈ filter (λ np, schedulable_pool np = true) pools) as Hin by by apply list_elem_of_filter.
      rewrite Hz in Hin. by apply elem_of_nil in Hin. }
    destruct (resolve_instance_types _ _); [|done]. destruct (getVolumeTopologyRequirements _ _ _ _) as [[[? ?]|e]|] eqn:Ev; [| |done].
    + destruct (NewTopology _ _ _ _ _ _) as [t|errs]; [|by destruct (existsb _ errs)].
      destruct (getDaemonSetPods _ _); [|done]. destruct (_ && _); [done|]. destruct (mapM snapshot _); [|done].
      by destruct (NewScheduler _ _ _ _ _ _ _ _ _ _ _ _ _) as [[[? ?] ?]|].
    + intros [= ->]. clear -Ev. induction (pending ++ deleting) as [|q l IH]; cbn [getVolumeTopologyRequirements] in Ev; [done|].
      destruct (VolumeTopology_GetRequirements _ _ _) as [[a|]|]; [| |done].
      * destruct (getVolumeTopologyRequirements _ _ _ _) as [[[? ?]|]|]; [done| |done]. by injection Ev as ->; apply IH.
      * destruct (pr_VolumeDeadline reads q); [done|]. by apply IH.
Qed.
End schedule_properties.
