(* ===== verification/Consolidation.v ===== *)
(** * Consolidation: replacing nodes by cheaper ones
    (pkg/controllers/disruption/consolidation.go, multinodeconsolidation.go,
    singlenodeconsolidation.go and emptiness.go)

    Candidates are removed when their pods fit elsewhere, or replaced by one node that
    is cheaper.  A method keeps the consolidation state it last found nothing for.
    Simulations are the function [simulate], read from a cluster that does not change
    while one method computes its commands. *)

From S2P Require Import Prelude Float64 Labels Requirement Objects RepairPolicy Requirements Resources.
From S2P Require Import Taints Volumes InstanceTypes Reservations PodState DisruptionCost TopologyGroup Topology NodeClaims.
From S2P Require Import Budgets Templates ExistingNodes Evictions StateNodes Scheduler Solver Candidates.
From S2P Require Import Balanced Simulation.

Definition MinInstanceTypesForSpotToSpotConsolidation : nat := 15.

(** Why a validator rejects a command; [UnexpectedError] is not a validation error. *)
Inductive validation_error :=
| BudgetValidationError
| SchedulingValidationError
| ChurnValidationError
| NoCandidatesError
| UnexpectedError.

#[export] Instance validation_error_eq_dec : EqDecision validation_error.
Proof. solve_decision. Defined.

Definition IsValidationError (e : validation_error) : bool := negb (bool_decide (e = UnexpectedError)).

Definition getValidationFailureReason (e : validation_error) : string :=
  match e with
  | BudgetValidationError => "budget"
  | SchedulingValidationError => "scheduling"
  | ChurnValidationError => "churn"
  | _ => "unknown"
  end.

Inductive method_error := SimulationFailed (e : sim_error) | ValidationFailed.

(** ** Which nodes *)

Definition consolidation_ShouldDisrupt (cn : Candidate) : bool :=
  if OwnedByStaticNodePool cn then false
  else if bool_decide (c_instanceType cn = None) then false
  else if bool_decide (candidate_Labels cn !! CapacityTypeLabelKey = None) then false
  else if bool_decide (candidate_Labels cn !! LabelTopologyZone = None) then false
  else if bool_decide (np_ConsolidateAfter (c_NodePool cn) = None) then false
  else if candidate_IsEmpty cn then false
  else if bool_decide (np_ConsolidationPolicy (c_NodePool cn) = ConsolidationPolicyWhenEmpty) then false
  else candidate_condition ConditionTypeConsolidatable cn.

(** [hasBufferPods] is [Cluster.HasBufferPods]. *)
Definition Emptiness_ShouldDisrupt (hasBufferPods : string → bool) (c : Candidate) : bool :=
  if OwnedByStaticNodePool c then false
  else if bool_decide (np_ConsolidateAfter (c_NodePool c) = None) then false
  else if hasBufferPods (candidate_ProviderID c) then false
  else candidate_IsEmpty c && candidate_condition ConditionTypeConsolidatable c.

(** Highest savings per unit of disruption first; [None] is the panic of a candidate
    whose disruption cost is zero, when candidates are compared. *)
Definition sortCandidates (candidates : list Candidate) : option (list Candidate) :=
  match candidates with
  | [] | [_] => Some candidates
  | _ =>
      ratios ← mapM (λ c, (λ r, (c, r)) <$> candidate_SavingsRatio c) candidates;
      Some (sort_by (λ a b, fltb b.2 a.2) ratios).*1
  end.

(** ** Budgets *)

(** The candidates whose NodePool has budget left, in order, whether one was skipped, and
    what is left of the budgets. *)
Fixpoint take_within_budget (budget : gmap string Z) (candidates : list Candidate)
    : list Candidate * bool * gmap string Z :=
  match candidates with
  | [] => ([], false, budget)
  | c :: rest =>
      let left := default 0%Z (budget !! candidate_pool c) in
      if (left =? 0)%Z then let '(taken, _, budget) := take_within_budget budget rest in (taken, true, budget)
      else let '(taken, constrained, budget) := take_within_budget (<[candidate_pool c := (left - 1)%Z]> budget) rest in
           (c :: taken, constrained, budget)
  end.

Section consolidation.
  Context `{LR : LabelRegistry} `{SE : SchedulerEnv} `{IO : IterationOrder} {E : Type}.
  (** The capacity types per class, the feature gate, and [SimulateScheduling]. *)
  Context (classes : capacityTypeClassState) (SpotToSpotConsolidation : bool).
  Context (simulate : list SchedulerOption → bool → list Candidate → result sim_error (Results E * list Pod)).

(** A command with one replacement; the command's results share the claim. *)
Definition replace_command (candidates : list Candidate) (results : Results E) (n : NodeClaim) : Command E :=
  mkCommand (mkResults [n] (ExistingNodes results) (PodErrors results)) candidates (replacementsFromNodeClaims false [n])
    (computePoolDisruptionCosts candidates) EmptyString false.

Definition with_requirements (n : NodeClaim) (reqs : Requirements) : NodeClaim :=
  with_finalized n (nc_Annotations n) reqs (nc_Requests n).

Definition require_spot (n : NodeClaim) : NodeClaim :=
  with_requirements n (Add (nc_Requirements n) [requirement_In CapacityTypeLabelKey CapacityTypeSpot]).

Definition hasSpotOffering (n : NodeClaim) : bool :=
  existsb (λ it, Offerings_HasCompatible (Offerings_Compatible (Offerings_Launchable (Offerings it)) (nc_Requirements n))
                   (CapacityTypeClassRequirements classes ClassSpot)) (InstanceTypeOptions n).

(** The claim with the types that launch below [price]; [None] when no command results. *)
Definition cheaper_claim (n : NodeClaim) (price : float64) : option NodeClaim :=
  match RemoveInstanceTypeOptionsByPriceAndMinValues classes n (nc_Requirements n) price with
  | (_, Some _) => None
  | (n, None) => match InstanceTypeOptions n with [] => None | _ => Some n end
  end.

Definition computeSpotToSpotConsolidation (candidates : list Candidate) (results : Results E) (n : NodeClaim)
    (candidatePrice : float64) : Command E :=
  if negb SpotToSpotConsolidation then empty_command else
  let n := require_spot n in
  let n := with_options n (InstanceTypes_Compatible (InstanceTypeOptions n) (nc_Requirements n)) in
  match cheaper_claim n candidatePrice with
  | None => empty_command
  | Some n =>
      if (1 <? length candidates)%nat then replace_command candidates results n
      else if (length (InstanceTypeOptions n) <? MinInstanceTypesForSpotToSpotConsolidation)%nat then empty_command
      else
        let kept := if HasMinValues (nc_Requirements n)
                    then MinInstanceTypesForSpotToSpotConsolidation `max`
                         (SatisfiesMinValues (InstanceTypeOptions n) (nc_Requirements n)).1
                    else MinInstanceTypesForSpotToSpotConsolidation in
        replace_command candidates results (with_options n (take kept (InstanceTypeOptions n)))
  end.

Definition computeConsolidation (candidates : list Candidate) : result sim_error (Command E) :=
  match simulate [IsConsolidationSimulation] false candidates with
  | Err CandidateDeleting => Ok empty_command
  | Err e => Err e
  | Ok sim =>
      if negb (all_scheduled sim) then Ok empty_command else
      let results := sim.1 in
      match NewNodeClaims results with
      | [] => Ok (mkCommand results candidates [] (computePoolDisruptionCosts candidates) EmptyString false)
      | [n] =>
          let candidatePrice := sumCandidatePrices candidates in
          let allExistingAreSpot := forallb (λ cn, bool_decide (c_capacityType cn = CapacityTypeSpot)) candidates in
          let n := with_options n (OrderByPrice (InstanceTypeOptions n) (nc_Requirements n)) in
          if allExistingAreSpot && Has (Get (nc_Requirements n) CapacityTypeLabelKey) CapacityTypeSpot
          then Ok (computeSpotToSpotConsolidation candidates results n candidatePrice)
          else match cheaper_claim n candidatePrice with
               | None => Ok empty_command
               | Some n =>
                   let ctReq := Get (nc_Requirements n) CapacityTypeLabelKey in
                   let n := if HasCapacityTypeClass classes ctReq ClassSpot && HasCapacityTypeClass classes ctReq ClassOnDemand &&
                               hasSpotOffering n then require_spot n else n in
                   Ok (replace_command candidates results n)
               end
      | _ => Ok empty_command
      end
  end.

(** ** Several nodes at once *)

Definition price_below (prices : gmap string float64) (name : string) (p : float64) : gmap string float64 :=
  if fltb p (default (Fin MaxFloat64) (prices !! name)) then <[name := p]> prices else prices.

(** The least known price of a consolidated node per instance type, and the types
    themselves; [None] is the nil dereference of a candidate without a type. *)
Fixpoint existing_prices (consolidate : list Candidate) (names : gset string) (prices : gmap string float64)
    : option (gset string * gmap string float64) :=
  match consolidate with
  | [] => Some (names, prices)
  | c :: rest =>
      it ← c_instanceType c;
      existing_prices rest ({[it_Name it]} ∪ names)
        (if fleb (c_Price c) (Fin 0) then prices else price_below prices (it_Name it) (c_Price c))
  end.

(** The price the replacement has to beat: an unknown price is zero. *)
Definition max_replacement_price (names : gset string) (prices : gmap string float64) (its : list InstanceType) : float64 :=
  foldl (λ maxPrice it,
    if bool_decide (it_Name it ∈ names) then
      let p := default (Fin 0) (prices !! it_Name it) in if fltb p maxPrice then p else maxPrice
    else maxPrice) (Fin MaxFloat64) its.

(** The filtered claim, or [Err] when minimum values are no longer met. *)
Definition filterOutSameInstanceType (n : NodeClaim) (consolidate : list Candidate)
    : option (result (gmap string Z) NodeClaim) :=
  '(names, prices) ← existing_prices consolidate ∅ ∅;
  let maxPrice := max_replacement_price names prices (InstanceTypeOptions n) in
  match RemoveInstanceTypeOptionsByPriceAndMinValues classes n (nc_Requirements n) maxPrice with
  | (_, Some unsatisfied) => Some (Err unsatisfied)
  | (n, None) => Some (Ok n)
  end.

(** A command that may be issued: a deletion, or a replacement that still has types after
    [filterOutSameInstanceType]. *)
Definition sensible (cmd : Command E) (candidates : list Candidate) : option (option (Command E)) :=
  match Command_Decision cmd, cmd_Replacements cmd with
  | DeleteDecision, _ => Some (Some cmd)
  | ReplaceDecision, r :: _ =>
      filtered ← filterOutSameInstanceType (rp_NodeClaim r) candidates;
      match filtered with
      | Ok n => match InstanceTypeOptions n with
                | [] => Some None
                | _ => Some (Some (replace_command (cmd_Candidates cmd) (cmd_Results cmd) n))
                end
      | Err _ => Some None
      end
  | _, _ => Some None
  end.

Definition search_result : Type := Command E * option (gmap string ScoreResult).

(** One round of the binary search: is there a command for the first [mid + 1] candidates? *)
Definition try_batch (evaluator : Evaluator) (candidates : list Candidate) (mid : nat)
    : option (result sim_error (option search_result)) :=
  let batch := take (mid + 1) candidates in
  match computeConsolidation batch with
  | Err e => Some (Err e)
  | Ok cmd =>
      valid ← sensible cmd batch;
      Some (Ok (match valid with
                | None => None
                | Some cmd => match ApproveCommand evaluator cmd with
                              | (true, perPool) => Some (cmd, perPool)
                              | (false, _) => None
                              end
                end))
  end.

(** [None] is a panic, or that the fuel ran out. *)
Fixpoint search_loop (fuel : nat) (evaluator : Evaluator) (candidates : list Candidate) (min max : nat)
    (saved : search_result) : option (result sim_error search_result) :=
  if (max <? min)%nat then Some (Ok saved) else
  match fuel with
  | O => None
  | S fuel =>
      let mid := ((min + max) / 2)%nat in
      attempt ← try_batch evaluator candidates mid;
      match attempt with
      | Err e =>
          if simulation_timed_out e
          then Some (Ok (match cmd_Candidates saved.1 with [] => (empty_command, None) | _ => saved end))
          else Some (Err e)
      | Ok (Some (cmd, perPool)) =>
          search_loop fuel evaluator candidates (mid + 1) max
            (cmd, match perPool with Some _ => perPool | None => saved.2 end)
      | Ok None => search_loop fuel evaluator candidates min (mid - 1) saved
      end
  end.

Definition firstNConsolidationOption (evaluator : Evaluator) (candidates : list Candidate) (max : nat)
    : option (result sim_error search_result) :=
  if (length candidates <? 2)%nat then Some (Ok (empty_command, None)) else
  let max := if (length candidates <=? max)%nat then (length candidates - 1)%nat else max in
  search_loop max evaluator candidates 1 max (empty_command, None).

(** The method's consolidation state, before and after. *)
Definition compute_result : Type := Z * result method_error (list (Command E)).

(** [Validator.Validate]. *)
Context (validate : Command E → result validation_error (Command E)).

(** [now_state] is the cluster's consolidation state when the method starts, [end_state]
    when it records that there is nothing to do. *)
Definition MultiNode_ComputeCommands (evaluator : Evaluator) (last now_state end_state : Z) (budget : gmap string Z)
    (candidates : list Candidate) : option compute_result :=
  if (last =? now_state)%Z then Some (last, Ok []) else
  sorted ← sortCandidates candidates;
  let '(disruptable, constrainedByBudgets, _) := take_within_budget budget sorted in
  let maxParallel := Nat.min (length disruptable) 100 in
  found ← firstNConsolidationOption evaluator disruptable maxParallel;
  match found with
  | Err e => Some (last, Err (SimulationFailed e))
  | Ok (cmd, _) =>
      if bool_decide (Command_Decision cmd = NoOpDecision)
      then Some (if constrainedByBudgets : bool then last else end_state, Ok [])
      else match validate cmd with
           | Ok cmd => Some (last, Ok [cmd])
           | Err e => Some (last, if IsValidationError e then Ok [] else Err ValidationFailed)
           end
  end.

(** ** One node at a time *)

(** NodePools that a previous run did not get to first, then the others; in each round
    one candidate of every NodePool. *)
Definition shuffleCandidates (previouslyUnseen : gset string) (nodePoolCandidates : gmap string (list Candidate))
    : list Candidate :=
  let sortedNodePools := iter 0 previouslyUnseen ++
    filter (λ name, name ∉ previouslyUnseen) (iter 1 (dom nodePoolCandidates)) in
  let rounds := map_fold (λ _ cs acc, length cs `max` acc) 0%nat nodePoolCandidates in
  seq 0 rounds ≫= λ i, sortedNodePools ≫= λ name, option_list (default [] (nodePoolCandidates !! name) !! i).

Definition SingleNode_SortCandidates (previouslyUnseen : gset string) (candidates : list Candidate) : option (list Candidate) :=
  sorted ← sortCandidates candidates;
  Some (shuffleCandidates previouslyUnseen (group_by candidate_pool sorted)).

Inductive single_outcome :=
| SingleTimeout (unseen : gset string)
| SingleCommand (cmd : Command E)
| SingleRejected (e : validation_error)
| SingleNothing (unseen : gset string) (constrainedByBudgets : bool).

(** [timedOut i] is whether the deadline has passed before the [i]-th candidate. *)
Fixpoint single_loop (evaluator : Evaluator) (timedOut : nat → bool) (budget : gmap string Z) (i : nat)
    (candidates : list Candidate) (unseen : gset string) (constrainedByBudgets : bool) : single_outcome :=
  match candidates with
  | [] => SingleNothing unseen constrainedByBudgets
  | c :: rest =>
      if timedOut i then SingleTimeout unseen else
      let unseen := unseen ∖ {[candidate_pool c]} in
      if (default 0 (budget !! candidate_pool c) =? 0)%Z then single_loop evaluator timedOut budget (S i) rest unseen true
      else if negb (CanPassThreshold evaluator c) then single_loop evaluator timedOut budget (S i) rest unseen constrainedByBudgets
      else match computeConsolidation [c] with
           | Err _ => single_loop evaluator timedOut budget (S i) rest unseen constrainedByBudgets
           | Ok cmd =>
               if bool_decide (Command_Decision cmd = NoOpDecision) || negb (ApproveCommand evaluator cmd).1
               then single_loop evaluator timedOut budget (S i) rest unseen constrainedByBudgets
               else match validate cmd with
                    | Ok _ => SingleCommand cmd
                    | Err e => SingleRejected e
                    end
           end
  end.

(** The consolidation state, the unseen NodePools, and the commands. *)
Definition SingleNode_ComputeCommands (evaluator : Evaluator) (timedOut : nat → bool) (last now_state end_state : Z)
    (previouslyUnseen : gset string) (budget : gmap string Z) (candidates : list Candidate)
    : option (gset string * compute_result) :=
  if (last =? now_state)%Z then Some (previouslyUnseen, (last, Ok [])) else
  sorted ← SingleNode_SortCandidates previouslyUnseen candidates;
  let unseen := list_to_set (candidate_pool <$> sorted) in
  Some (match single_loop evaluator timedOut budget 0 sorted unseen false with
        | SingleTimeout unseen => (unseen, (last, Ok []))
        | SingleCommand cmd => (previouslyUnseen, (last, Ok [cmd]))
        | SingleRejected e => (previouslyUnseen, (last, if IsValidationError e then Ok [] else Err ValidationFailed))
        | SingleNothing unseen constrained => (unseen, (if constrained then last else end_state, Ok []))
        end).

(** ** Empty nodes *)

Definition Emptiness_ComputeCommands (last now_state end_state : Z) (budget : gmap string Z) (candidates : list Candidate)
    : option compute_result :=
  if (last =? now_state)%Z then Some (last, Ok []) else
  sorted ← sortCandidates candidates;
  let '(empty, constrainedByBudgets, _) := take_within_budget budget (filter (λ c, candidate_IsEmpty c = true) sorted) in
  match empty with
  | [] => Some (if constrainedByBudgets : bool then last else end_state, Ok [])
  | _ =>
      match validate (mkCommand empty_results empty [] (computePoolDisruptionCosts empty) EmptyString false) with
      | Ok cmd => Some (last, Ok [cmd])
      | Err e => Some (last, if IsValidationError e then Ok [] else Err ValidationFailed)
      end
  end.
End consolidation.
