(* ===== verification/ConsolidationProps.v ===== *)
(** * ConsolidationProps: what consolidation guarantees

    Budgets are respected, the binary search ends and finds the largest batch, the
    shuffle only reorders, and a replacement launches below the price of what it
    replaces. *)

From S2P Require Import Prelude Float64 Labels Requirement Objects RepairPolicy Requirements Resources.
From S2P Require Import Taints Volumes InstanceTypes Reservations PodState DisruptionCost TopologyGroup Topology NodeClaims.
From S2P Require Import Budgets Templates ExistingNodes Evictions StateNodes Scheduler Solver Candidates.
From S2P Require Import Balanced Simulation Consolidation.

(** ** Budgets *)

(** The candidates of a NodePool. *)
Definition of_pool (pool : string) (cs : list Candidate) : list Candidate := filter (λ c, candidate_pool c = pool) cs.

Lemma take_within_budget_sublist budget cs : sublist (take_within_budget budget cs).1.1 cs.
Proof.
  revert budget. induction cs as [|c cs IH]; intros budget; [done|]. cbn [take_within_budget].
  destruct (_ =? 0)%Z.
  - specialize (IH budget). destruct (take_within_budget budget cs) as [[taken b] r]. cbn in *. by apply sublist_cons.
  - specialize (IH (<[candidate_pool c := (default 0 (budget !! candidate_pool c) - 1)%Z]> budget)).
    destruct (take_within_budget _ cs) as [[taken b] r]. cbn in *. by apply sublist_skip.
Qed.

Lemma take_within_budget_count budget cs pool : (∀ p z, budget !! p = Some z → (0 ≤ z)%Z) →
  let '(taken, constrained, rest) := take_within_budget budget cs in
  (Z.of_nat (length (of_pool pool taken)) + default 0 (rest !! pool) = default 0 (budget !! pool))%Z ∧
  (0 ≤ default 0 (rest !! pool))%Z ∧
  (constrained = false → taken = cs) ∧
  (length (of_pool pool taken) < length (of_pool pool cs) → default 0%Z (rest !! pool) = 0%Z).
Proof.
  unfold of_pool. revert budget. induction cs as [|c cs IH]; intros budget Hb; cbn [take_within_budget].
  { cbn. split_and!; [lia| |done|lia]. destruct (budget !! pool) eqn:E; cbn; [by eapply Hb|lia]. }
  destruct (Z.eqb_spec (default 0%Z (budget !! candidate_pool c)) 0) as [Hz|Hnz].
  - specialize (IH budget Hb). destruct (take_within_budget budget cs) as [[taken b] r]. destruct IH as (H1 & H2 & _ & H4).
    split_and!; [done..|]. rewrite filter_cons. case_decide as Hp; [|done]. intros _. rewrite Hp in Hz. lia.
  - set (left := default 0%Z (budget !! candidate_pool c)) in *.
    assert (0 ≤ left)%Z as Hl by (unfold left; destruct (budget !! candidate_pool c) eqn:E; cbn; [by eapply Hb|lia]).
    specialize (IH (<[candidate_pool c := (left - 1)%Z]> budget)).
    destruct (take_within_budget _ cs) as [[taken b] r]. destruct IH as (H1 & H2 & H3 & H4).
    { intros p z. rewrite lookup_insert_Some. intros [[_ <-]|[_ ?]]; [lia|by eapply Hb]. }
    rewrite !filter_cons. case_decide as Hp.
    + subst pool. rewrite lookup_insert_eq in H1. cbn [default from_option id] in H1. cbn [length].
      split_and!; [lia|done|intros Hc; f_equal; by apply H3|intros; apply H4; lia].
    + rewrite lookup_insert_ne in H1 by done. split_and!; [done..|intros Hc; f_equal; by apply H3|done].
Qed.

(** Filtering by the budgets keeps the order, takes at most the budget of each NodePool,
    skips a candidate only when the budget of its NodePool is used up, and reports
    whether it skipped any. *)
Theorem take_within_budget_spec budget cs pool : (∀ p z, budget !! p = Some z → (0 ≤ z)%Z) →
  let '(taken, constrained, rest) := take_within_budget budget cs in
  sublist taken cs ∧
  (Z.of_nat (length (of_pool pool taken)) ≤ default 0 (budget !! pool))%Z ∧
  (length (of_pool pool taken) < length (of_pool pool cs) →
     (Z.of_nat (length (of_pool pool taken)) = default 0 (budget !! pool))%Z) ∧
  (constrained = false → taken = cs).
Proof.
  intros Hb. pose proof (take_within_budget_sublist budget cs) as Hs. pose proof (take_within_budget_count budget cs pool Hb) as H.
  destruct (take_within_budget budget cs) as [[taken b] r]. destruct H as (H1 & H2 & H3 & H4).
  split_and!; [done|lia| |done]. intros Hlt. specialize (H4 Hlt). lia.
Qed.

(** ** Interleaving the NodePools *)

Lemma bind_snoc_swap {A B C} (f : A → B → list C) (xs : list A) (ys : list B) :
  (xs ≫= λ x, ys ≫= f x) ≡ₚ (ys ≫= λ y, xs ≫= λ x, f x y).
Proof.
  induction xs as [|x xs IH]; cbn [mbind list_bind].
  - induction ys as [|y ys IHy]; [done|]. cbn [mbind list_bind]. by rewrite <-IHy.
  - rewrite IH. clear IH. induction ys as [|y ys IHy]; [done|]. cbn [mbind list_bind]. rewrite <-IHy. solve_Permutation.
Qed.

Lemma seq_lookup_bind {A} (l : list A) n : (seq 0 n ≫= λ i, option_list (l !! i)) = take n l.
Proof.
  induction n as [|n IH]; [done|]. rewrite seq_S, bind_app, IH. cbn [mbind list_bind plus]. rewrite app_nil_r.
  destruct (l !! n) as [x|] eqn:E; cbn [option_list]; [by rewrite (take_S_r _ _ x)|].
  rewrite app_nil_r. apply lookup_ge_None in E. by rewrite !take_ge by lia.
Qed.

Lemma bind_filter_other {A} (f : A → string) x (cs : list A) l : f x ∉ l →
  (l ≫= λ k, filter (λ c, f c = k) (x :: cs)) = (l ≫= λ k, filter (λ c, f c = k) cs).
Proof.
  induction l as [|k l IH]; [done|]. rewrite not_elem_of_cons. intros [Hk Hl]. cbn [mbind list_bind].
  rewrite filter_cons, decide_False by done. f_equal. by apply IH.
Qed.

(** Collecting the groups gives back the elements. *)
Lemma bind_filter_Permutation {A} (f : A → string) (cs : list A) l :
  NoDup l → (∀ c, c ∈ cs → f c ∈ l) → (l ≫= λ k, filter (λ c, f c = k) cs) ≡ₚ cs.
Proof.
  intros Hnd. induction cs as [|x cs IH]; intros Hall.
  { clear. induction l as [|k l IH]; [done|]. cbn [mbind list_bind]. by rewrite IH. }
  pose proof (Hall x ltac:(by left)) as (l1 & l2 & Hl)%list_elem_of_split.
  assert ((f x ∉ l1) ∧ (f x ∉ l2)) as [H1 H2].
  { rewrite Hl in Hnd. apply NoDup_app in Hnd as (_ & Hd & [? _]%NoDup_cons). split; [|done].
    intros ?. apply (Hd (f x)); [done|by left]. }
  transitivity (x :: (l ≫= λ k, filter (λ c, f c = k) cs)); [|rewrite IH; [done|]; intros; apply Hall; by right].
  rewrite Hl, !bind_app. cbn [mbind list_bind].
  rewrite !(bind_filter_other _ _ _ l1), !(bind_filter_other _ _ _ l2) by done. rewrite filter_cons, decide_True by done.
  cbn [app]. by rewrite <-Permutation_middle.
Qed.

Section shuffle.
  Context `{IO : IterationOrder}.

(** Interleaving the NodePools loses and invents no candidate, whatever NodePools an
    earlier run did not get to. *)
Theorem shuffle_Permutation prev candidates :
  shuffleCandidates prev (group_by candidate_pool candidates) ≡ₚ candidates.
Proof.
  unfold shuffleCandidates. set (groups := group_by candidate_pool candidates). set (pools := iter 0 prev ++ _).
  set (rounds := map_fold _ _ groups). rewrite bind_snoc_swap.
  assert (∀ name, default [] (groups !! name) = filter (λ c, candidate_pool c = name) candidates) as Hg.
  { intros name. unfold groups. rewrite group_by_lookup. by destruct (filter _ candidates). }
  assert (∀ name, length (default [] (groups !! name)) ≤ rounds) as Hr.
  { intros name. destruct (groups !! name) as [g|] eqn:Eg; cbn; [|lia]. revert g Eg. unfold rounds.
    apply (map_fold_weak_ind (λ r m, ∀ g, m !! name = Some g → length g ≤ r)); [by intros ?; rewrite lookup_empty|].
    intros k x m r _ IH g. rewrite lookup_insert_Some. intros [[_ <-]|[_ Hm]]; [lia|]. specialize (IH g Hm). lia. }
  transitivity (pools ≫= λ name, filter (λ c, candidate_pool c = name) candidates).
  { apply reflexive_eq, list_bind_ext; [|done]. intros name. rewrite seq_lookup_bind, take_ge by apply Hr. apply Hg. }
  apply bind_filter_Permutation.
  - unfold pools. apply NoDup_app. split_and!.
    + rewrite iter_Permutation. apply NoDup_elements.
    + intros x Hx. rewrite elem_of_iter in Hx. rewrite list_elem_of_filter. tauto.
    + apply NoDup_filter. rewrite iter_Permutation. apply NoDup_elements.
  - intros c Hc. unfold pools. rewrite elem_of_app, list_elem_of_filter, !elem_of_iter.
    destruct (decide (candidate_pool c ∈ prev)) as [|Hn]; [by left|right; split; [done|]].
    apply elem_of_dom. unfold groups. rewrite group_by_lookup. destruct (filter _ candidates) as [|x xs] eqn:Ef; [|by eauto].
    exfalso. apply (not_elem_of_nil c). rewrite <-Ef. by apply list_elem_of_filter.
Qed.
End shuffle.

(** ** The binary search *)

Lemma midpoint a b : a ≤ b → a ≤ (a + b) / 2 ≤ b.
Proof. intros. pose proof (Nat.div_mod_eq (a + b) 2). pose proof (Nat.mod_upper_bound (a + b) 2 ltac:(done)). lia. Qed.

Section search.
  Context `{LR : LabelRegistry} `{SE : SchedulerEnv} {E : Type}.
  Context (classes : capacityTypeClassState) (SpotToSpotConsolidation : bool).
  Context (simulate : list SchedulerOption → bool → list Candidate → result sim_error (Results E * list Pod)).

Abbreviation compute := (computeConsolidation classes SpotToSpotConsolidation simulate).
Abbreviation try := (try_batch classes SpotToSpotConsolidation simulate).
Abbreviation search := (search_loop classes SpotToSpotConsolidation simulate).
Abbreviation firstN := (firstNConsolidationOption classes SpotToSpotConsolidation simulate).

(** Candidates for consolidation have an instance type. *)
Definition typed (cs : list Candidate) : Prop := ∀ c, c ∈ cs → is_Some (c_instanceType c).

Lemma existing_prices_total cs names prices : typed cs → is_Some (existing_prices cs names prices).
Proof.
  revert names prices. induction cs as [|c cs IH]; intros names prices Ht; [by eauto|]. cbn [existing_prices].
  destruct (Ht c ltac:(by left)) as [it ->]. cbn [mbind option_bind]. apply IH. intros c' Hc'. apply Ht. by right.
Qed.

Lemma try_batch_total e cs mid : typed cs → is_Some (try e cs mid).
Proof.
  intros Ht. unfold try_batch. destruct (compute _) as [cmd|err]; [|by eauto]. unfold sensible.
  assert (typed (take (mid + 1) cs)) as Ht'.
  { intros c Hc. apply Ht. by eapply elem_of_take in Hc as (i & Hc & _); eapply list_elem_of_lookup_2. }
  destruct (Command_Decision cmd); try (cbn; by eauto). destruct (cmd_Replacements cmd) as [|r rs]; [cbn; by eauto|].
  unfold filterOutSameInstanceType. destruct (existing_prices_total _ ∅ ∅ Ht') as [[names prices] ->]. cbn [mbind option_bind].
  destruct (RemoveInstanceTypeOptionsByPriceAndMinValues _ _ _ _) as [n []]; cbn [mbind option_bind]; [by eauto|].
  destruct (InstanceTypeOptions n); by eauto.
Qed.

(** The fuel is enough, however the rounds go: each halves the interval. *)
Lemma search_loop_total e cs fuel min max saved :
  typed cs → max + 1 ≤ fuel + min → 1 ≤ min → is_Some (search fuel e cs min max saved).
Proof.
  intros Ht. revert min max saved. induction fuel as [|fuel IH]; intros min max saved Hf Hm; cbn [search_loop].
  - destruct (Nat.ltb_spec max min); [by eauto|lia].
  - destruct (Nat.ltb_spec max min); [by eauto|]. destruct (try_batch_total e cs ((min + max) / 2) Ht) as [attempt ->].
    cbn [mbind option_bind].
    pose proof (midpoint min max ltac:(lia)) as Hmid.
    destruct attempt as [[[cmd perPool]|]|err]; [apply IH; lia..|]. destruct (simulation_timed_out err); by eauto.
Qed.

Definition succeeds (e : Evaluator) (cs : list Candidate) (k : nat) : Prop :=
  ∃ found, try e cs k = Some (Ok (Some found)).

(** What the search saved: nothing, or the command of a batch, which succeeded. *)
Definition saved_ok (e : Evaluator) (cs : list Candidate) (max : nat) (saved : search_result (E := E)) : Prop :=
  saved = (empty_command, None) ∨
  ∃ k perPool, 1 ≤ k ≤ max ∧ try e cs k = Some (Ok (Some (saved.1, perPool))).

Lemma search_loop_sound e cs top fuel min max saved found :
  max ≤ top → 1 ≤ min → saved_ok e cs top saved → search fuel e cs min max saved = Some (Ok found) → saved_ok e cs top found.
Proof.
  revert min max saved. induction fuel as [|fuel IH]; intros min max saved Hm Hmin Hs; cbn [search_loop].
  - destruct (Nat.ltb_spec max min); [by intros [= <-]|done].
  - destruct (Nat.ltb_spec max min); [by intros [= <-]|].
    pose proof (midpoint min max ltac:(lia)) as Hmid.
    destruct (try e cs _) as [[[[cmd perPool]|]|err]|] eqn:Et; cbn [mbind option_bind]; [|apply IH; [lia|done|done]| |done].
    + apply IH; [lia|lia|]. right. exists ((min + max) / 2), perPool. split; [lia|done].
    + destruct (simulation_timed_out err); [|done]. intros [= <-]. destruct (cmd_Candidates saved.1); [by left|done].
Qed.

(** When every part of a batch that succeeds succeeds as well, and the simulations do not
    fail, the search returns the largest batch that does. *)
Lemma search_loop_optimal e cs top fuel min max saved found :
  (∀ k, 1 ≤ k ≤ top → ∃ r, try e cs k = Some (Ok r)) →
  (∀ k k', 1 ≤ k ≤ k' → k' ≤ top → succeeds e cs k' → succeeds e cs k) →
  max ≤ top → 1 ≤ min →
  (min = 1 ∧ saved = (empty_command, None) ∨
   1 ≤ min - 1 ≤ top ∧ ∃ perPool, try e cs (min - 1) = Some (Ok (Some (saved.1, perPool)))) →
  (∀ k, max < k ≤ top → ¬ succeeds e cs k) →
  search fuel e cs min max saved = Some (Ok found) →
  (∃ k perPool, 1 ≤ k ≤ top ∧ try e cs k = Some (Ok (Some (found.1, perPool))) ∧ ∀ k', k < k' ≤ top → ¬ succeeds e cs k') ∨
  (found = (empty_command, None) ∧ ∀ k, 1 ≤ k ≤ top → ¬ succeeds e cs k).
Proof.
  intros Hok Hmono. revert min max saved.
  assert (∀ min max saved, max < min →
    (min = 1 ∧ saved = (empty_command, None) ∨
     1 ≤ min - 1 ≤ top ∧ ∃ perPool, try e cs (min - 1) = Some (Ok (Some (saved.1, perPool)))) →
    (∀ k, max < k ≤ top → ¬ succeeds e cs k) → saved = found →
    (∃ k perPool, 1 ≤ k ≤ top ∧ try e cs k = Some (Ok (Some (found.1, perPool))) ∧ ∀ k', k < k' ≤ top → ¬ succeeds e cs k') ∨
    (found = (empty_command, None) ∧ ∀ k, 1 ≤ k ≤ top → ¬ succeeds e cs k)) as Hend.
  { intros min max saved Hlt [[-> ->]|[H2 (perPool & Hp)]] Hfail <-.
    - right. split; [done|]. intros k ?. apply Hfail. lia.
    - left. exists (min - 1), perPool. split_and!; [lia..|done|]. intros k' ?. apply Hfail. lia. }
  induction fuel as [|fuel IH]; intros min max saved Hm Hmin Hs Hfail; cbn [search_loop];
    (destruct (Nat.ltb_spec max min); [by intros [= ?]; eapply Hend|]); [done|].
  pose proof (midpoint min max ltac:(lia)) as Hmid. set (mid := (min + max) / 2) in *.
  destruct (Hok mid ltac:(lia)) as [[[cmd perPool]|] Et]; rewrite Et; cbn [mbind option_bind].
  - apply IH; [lia|lia| |done]. right. replace (mid + 1 - 1) with mid by lia. split; [lia|]. by exists perPool.
  - apply IH; [lia|done|done|]. intros k Hk Hsucc. destruct (decide (k = mid)) as [->|Hne].
    + destruct Hsucc as [f Hf]. congruence.
    + destruct (Hmono mid k ltac:(lia) ltac:(lia) Hsucc) as [f Hf]. congruence.
Qed.

(** The largest index the search tries. *)
Definition search_top (cs : list Candidate) (max : nat) : nat := if length cs <=? max then length cs - 1 else max.

(** The search for the first N candidates to consolidate ends, and what it returns is
    nothing or the command of a batch that simulates, filters and scores well; when the
    success of a batch implies that of its parts, it is the largest such batch. *)
Theorem firstN_spec e cs max found : typed cs → 2 ≤ length cs →
  is_Some (firstN e cs max) ∧
  (firstN e cs max = Some (Ok found) →
   (found = (empty_command, None) ∨ ∃ k perPool, 1 ≤ k ≤ search_top cs max ∧ try e cs k = Some (Ok (Some (found.1, perPool)))) ∧
   ((∀ k, 1 ≤ k ≤ search_top cs max → ∃ r, try e cs k = Some (Ok r)) →
    (∀ k k', 1 ≤ k ≤ k' → k' ≤ search_top cs max → succeeds e cs k' → succeeds e cs k) →
    (∃ k perPool, 1 ≤ k ≤ search_top cs max ∧ try e cs k = Some (Ok (Some (found.1, perPool))) ∧
       ∀ k', k < k' ≤ search_top cs max → ¬ succeeds e cs k') ∨
    (found = (empty_command, None) ∧ ∀ k, 1 ≤ k ≤ search_top cs max → ¬ succeeds e cs k))).
Proof.
  intros Ht Hl. unfold firstNConsolidationOption. destruct (Nat.ltb_spec (length cs) 2); [lia|].
  change (if length cs <=? max then length cs - 1 else max) with (search_top cs max). split; [|intros Hs; split].
  - apply search_loop_total; [done|lia|done].
  - by apply (search_loop_sound e cs (search_top cs max)) in Hs; [|done|done|by left].
  - intros Hok Hmono. by apply (search_loop_optimal e cs (search_top cs max)) in Hs; [..|done|done|by left|intros; lia].
Qed.
End search.

(** The batch is meant to have at most 100 candidates, but when there are more than 100
    the search ends with the index 100, a batch of 101. *)
Theorem batch_exceeds_limit `{LR : LabelRegistry} `{SE : SchedulerEnv} {E : Type} classes spot cs :
  typed cs → 100 < length cs →
  ∃ cmd perPool, firstNConsolidationOption (E := E) classes spot (λ _ _ _, Ok (empty_results, [])) noopEvaluator cs
                   (Nat.min (length cs) 100) = Some (Ok (cmd, perPool)) ∧
    length (cmd_Candidates cmd) = 101.
Proof.
  intros Ht Hl. set (sim := λ (_ : list SchedulerOption) (_ : bool) (_ : list Candidate), Ok (empty_results (E := E), []) : result sim_error _).
  assert (∀ k, try_batch classes spot sim noopEvaluator cs k =
    Some (Ok (Some (mkCommand empty_results (take (k + 1) cs) [] (computePoolDisruptionCosts (take (k + 1) cs)) EmptyString false, None)))) as Hall.
  { intros k. unfold try_batch, computeConsolidation, sim. destruct cs as [|c cs]; [cbn in Hl; lia|].
    replace (k + 1) with (S k) by lia. done. }
  unfold firstNConsolidationOption. destruct (Nat.ltb_spec (length cs) 2); [lia|].
  assert ((if length cs <=? Nat.min (length cs) 100 then length cs - 1 else Nat.min (length cs) 100) = 100) as ->.
  { destruct (Nat.leb_spec (length cs) (Nat.min (length cs) 100)); lia. }
  destruct (search_loop_total (E := E) classes spot sim noopEvaluator cs 100 1 100 (empty_command, None) Ht) as [r Hr]; [lia..|].
  assert (∃ found, r = Ok found) as [[cmd perPool] ->].
  { clear -Hall Hr. revert Hr. generalize 100 at 1. generalize 1 100. generalize (empty_command (E := E), None : option (gmap string ScoreResult)).
    intros saved a b fuel. revert saved a b. induction fuel as [|fuel IH]; intros saved a b; cbn [search_loop];
      (destruct (b <? a); [by intros [= <-]; eauto|]); [done|]. rewrite Hall. cbn [mbind option_bind]. apply IH. }
  exists cmd, perPool. split; [exact Hr|].
  apply (search_loop_optimal (E := E) classes spot sim noopEvaluator cs 100) in Hr as [(k & pp & Hk & Hf & Hlast)|[_ Hnone]];
    [| |by intros k _; eexists; apply Hall|by intros k k' _ _ _; eexists; apply Hall|done|done|by left|intros; lia].
  - assert (k = 100) as ->.
    { destruct (decide (k = 100)); [done|]. destruct (Hlast 100 ltac:(lia)). eexists. apply Hall. }
    rewrite Hall in Hf. injection Hf as <-. cbn [cmd_Candidates]. rewrite length_take. lia.
  - destruct (Hnone 1 ltac:(lia)). eexists. apply Hall.
Qed.

(** ** Prices *)

Section prices.
  Context `{LR : LabelRegistry} `{SE : SchedulerEnv} {E : Type}.
  Context (classes : capacityTypeClassState) (SpotToSpotConsolidation : bool).
  Context (simulate : list SchedulerOption → bool → list Candidate → result sim_error (Results E * list Pod)).

(** What an instance type costs at most when it launches for the requirements. *)
Definition launch_price (it : InstanceType) (reqs : Requirements) : float64 :=
  Fin (WorstLaunchPrice classes (Offerings_Launchable (Offerings it)) reqs).

Lemma RemoveInstanceTypeOptions_spec n reqs price n' err :
  RemoveInstanceTypeOptionsByPriceAndMinValues classes n reqs price = (n', err) →
  nc_Requirements n' = nc_Requirements n ∧ sublist (InstanceTypeOptions n') (InstanceTypeOptions n) ∧
  ∀ it, it ∈ InstanceTypeOptions n' → fltb (launch_price it reqs) price = true.
Proof.
  unfold RemoveInstanceTypeOptionsByPriceAndMinValues. intros [= <- _]. cbn. split_and!; [done|apply sublist_filter|].
  intros it. rewrite list_elem_of_filter. by intros [? _].
Qed.

Lemma cheaper_claim_spec n price n' : cheaper_claim classes n price = Some n' →
  InstanceTypeOptions n' ≠ [] ∧ nc_Requirements n' = nc_Requirements n ∧
  sublist (InstanceTypeOptions n') (InstanceTypeOptions n) ∧
  ∀ it, it ∈ InstanceTypeOptions n' → fltb (launch_price it (nc_Requirements n)) price = true.
Proof.
  unfold cheaper_claim. destruct (RemoveInstanceTypeOptionsByPriceAndMinValues _ _ _ _) as [n1 [u|]] eqn:Er; [done|].
  apply RemoveInstanceTypeOptions_spec in Er as (H1 & H2 & H3).
  destruct (InstanceTypeOptions n1) as [|it its] eqn:Ei; [done|]. intros [= <-]. by rewrite Ei.
Qed.

(** *** Offerings and their capacity types *)

(** The label of capacity types is well known and not rewritten, no capacity type is in two
    classes, and spot is the only one of its class. *)
Record capacity_types_ok : Prop := {
  ct_known : CapacityTypeLabelKey ∈ WellKnownLabels;
  ct_key : normalize_key CapacityTypeLabelKey = CapacityTypeLabelKey;
  ct_values : NormalizedLabelValues !! CapacityTypeLabelKey = None;
  ct_disjoint : ∀ t c c', t ∈ classes c → t ∈ classes c' → c = c';
  ct_spot : classes ClassSpot = [CapacityTypeSpot];
}.

(** An offering with well-known labels and one capacity type, of a class. *)
Record offering_of (o : Offering) (t : string) (c : CapacityTypeClass) : Prop := {
  oo_type : ∃ req, of_Requirements o !! CapacityTypeLabelKey = Some req ∧ complement req = false ∧ values req = {[t]} ∧
              gte req = None ∧ lte req = None;
  oo_known : ∀ k b, of_Requirements o !! k = Some b → k ∈ WellKnownLabels;
  oo_class : t ∈ classes c;
}.

Definition typed_offerings (n : NodeClaim) : Prop :=
  ∀ it o, it ∈ InstanceTypeOptions n → o ∈ Offerings it → requirements_wf (of_Requirements o) ∧ ∃ t c, offering_of o t c.

(** The offerings a type may be launched with for the requirements. *)
Definition usable (it : InstanceType) (reqs : Requirements) : list Offering :=
  Offerings_Compatible (Offerings_Launchable (Offerings it)) reqs.

Context (HC : capacity_types_ok).
#[local] Set Default Proof Using "HC".

Lemma of_type_Has req t v : complement req = false → values req = {[t]} → gte req = None → lte req = None →
  Has req v = true ↔ v = t.
Proof. intros H1 H2 H3 H4. unfold Has. rewrite H1, H2, H3, H4. cbn. rewrite andb_true_r, bool_decide_eq_true. apply elem_of_singleton. Qed.

Lemma compatible_type reqs o t c : requirements_wf reqs → requirements_wf (of_Requirements o) → offering_of o t c →
  IsCompatible reqs (of_Requirements o) WellKnownLabels = true ↔
  Has (Get reqs CapacityTypeLabelKey) t = true ∧
  ∀ k a b, k ≠ CapacityTypeLabelKey → reqs !! k = Some a → of_Requirements o !! k = Some b →
    HasIntersection a b = true ∨ absent_ok a = true ∧ absent_ok b = true.
Proof.
  intros Hr Ho [(req & Hreq & H1 & H2 & H3 & H4) Hknown _]. rewrite IsCompatible_iff, Intersects_nil. unfold Get.
  assert (absent_ok req = false) as Habs.
  { unfold absent_ok, Operator, Len. rewrite H1, H2, size_singleton. cbn. done. }
  split.
  - intros [_ Hi]. split; [|intros k a b _; apply Hi].
    destruct (reqs !! CapacityTypeLabelKey) as [a|] eqn:Ea; [|apply Has_Exists].
    destruct (Hi _ _ _ Ea Hreq) as [Hint|[_ ?]]; [|congruence].
    apply HasIntersection_inhabited in Hint as (v & Hv & ->%(of_type_Has req t v H1 H2 H3 H4)); [done|apply (Hr _ _ Ea)|apply (Ho _ _ Hreq)].
  - intros [Ht Hi]. split; [intros k b Hb; left; by eapply Hknown|]. intros k a b Ha Hb.
    destruct (decide (k = CapacityTypeLabelKey)) as [->|Hne]; [|by eapply Hi]. left. rewrite Ha in Ht.
    assert (b = req) as -> by congruence. apply HasIntersection_inhabited; [apply (Hr _ _ Ha)|apply (Ho _ _ Hreq)|].
    exists t. split; [done|]. by apply (of_type_Has req t t).
Qed.

Lemma class_requirement_wf c : requirements_wf (CapacityTypeClassRequirements classes c) ∧
  ∀ t, Has (Get (CapacityTypeClassRequirements classes c) CapacityTypeLabelKey) t = true ↔ t ∈ classes c.
Proof.
  destruct HC as [_ Hk Hv _ _]. unfold CapacityTypeClassRequirements.
  assert (∀ req, Key req = CapacityTypeLabelKey → requirement_wf req → requirements_wf (NewRequirements [req]) ∧
    ∀ t, Has (Get (NewRequirements [req]) CapacityTypeLabelKey) t = Has req t) as Hone.
  { intros req Hkey Hw. assert (Forall key_normal [req]) as Hn by (repeat constructor; unfold key_normal; by rewrite Hkey).
    split; [apply Add_wf; [done|by apply Forall_singleton|intros k q; by rewrite lookup_empty]|]. intros t. unfold NewRequirements.
    rewrite Add_Has by done. cbn [forallb]. rewrite Hkey, bool_decide_eq_true_2 by done. cbn [negb orb].
    assert (Get (∅ : Requirements) CapacityTypeLabelKey = simple_requirement CapacityTypeLabelKey OpExists None) as -> by done.
    rewrite Has_Exists, andb_true_r. done. }
  destruct (classes c) as [|t0 ts] eqn:Ec.
  - destruct (Hone (simple_requirement CapacityTypeLabelKey OpDoesNotExist None)) as [Hw Hh].
    { cbn. by rewrite Hk. } { apply simple_requirement_wf. }
    split; [done|]. intros t. rewrite Hh. cbn. split; [|by intros ?%elem_of_nil]. unfold Has. cbn. done.
  - set (req := mkRequirement _ _ _ _ _ _ _). destruct (Hone req) as [Hw Hh]; [done|by split; [|split]|]. split; [done|].
    intros t. rewrite Hh. unfold req, Has. cbn [complement values gte lte]. rewrite Hk. unfold normalize_values. rewrite Hv.
    cbn [withinBounds]. rewrite andb_true_r, bool_decide_eq_true, elem_of_list_to_set. done.
Qed.

Lemma in_class reqs it o t c c' : offering_of o t c → requirements_wf (of_Requirements o) → o ∈ usable it reqs →
  o ∈ Offerings_Compatible (usable it reqs) (CapacityTypeClassRequirements classes c') ↔ c' = c.
Proof.
  intros Ho Hw Hin. pose proof (class_requirement_wf c') as [Hcw Hch]. unfold Offerings_Compatible at 1.
  rewrite list_elem_of_filter, (compatible_type _ _ _ _ Hcw Hw Ho), Hch. destruct Ho as [_ Hknown Hc]. split.
  - intros [[Ht _] _]. by eapply (ct_disjoint HC).
  - intros ->. split; [|done]. split; [done|]. intros k a b Hne Ha. exfalso. unfold CapacityTypeClassRequirements in Ha.
    destruct (classes c) as [|x xs]; [by apply elem_of_nil in Hc|]. unfold NewRequirements in Ha.
    assert (k ∈ dom (Add ∅ [mkRequirement (normalize_key CapacityTypeLabelKey) false
      (list_to_set (normalize_values (normalize_key CapacityTypeLabelKey) (x :: xs))) None None None None])) as Hd by by eapply elem_of_dom_2.
    rewrite Add_dom in Hd; [|repeat constructor; unfold key_normal; cbn; by rewrite !(ct_key HC)]. cbn in Hd. rewrite (ct_key HC) in Hd. set_solver.
Qed.

(** *** The price of the first class that has an offering bounds its offerings *)

Definition before (c' c : CapacityTypeClass) : bool :=
  match c', c with ClassReserved, (ClassSpot | ClassOnDemand) | ClassSpot, ClassOnDemand => true | _, _ => false end.

Lemma worst_price_bounds it reqs o c :
  o ∈ Offerings_Compatible (usable it reqs) (CapacityTypeClassRequirements classes c) →
  (∀ c', before c' c = true → Offerings_Compatible (usable it reqs) (CapacityTypeClassRequirements classes c') = []) →
  (Price o ≤ WorstLaunchPrice classes (Offerings_Launchable (Offerings it)) reqs)%Z.
Proof.
  intros Ho Hbefore. set (l := Offerings_Compatible _ _) in Ho.
  destruct (extremal_offerings l) as (_ & Hmax & Hsome). destruct Hsome as [_ [m Hm]]; [by intros El; rewrite El in Ho; apply elem_of_nil in Ho|].
  destruct (Hmax m Hm) as [_ Hle]. specialize (Hle o Ho). unfold WorstLaunchPrice, CapacityTypeClassPrecedence.
  fold (usable it reqs). cbn [omap list_omap].
  destruct c; [|rewrite (Hbefore ClassReserved) by done|rewrite (Hbefore ClassReserved), (Hbefore ClassSpot) by done];
    fold l; rewrite Hm; exact Hle.
Qed.

Lemma fltb_le_trans a b x : (a ≤ b)%Z → fltb (Fin b) x = true → fltb (Fin a) x = true.
Proof. intros Hab. destruct x as [y| | |]; cbn; [|done..]. rewrite !Z.ltb_lt. lia. Qed.

(** Every offering the type may be launched with for the final requirements costs less than
    [price]; when there is a reserved offering for the requirements of the scheduler, which
    narrows a claim to its reservations itself, this is said of reserved offerings only. *)
Definition below_price (price : float64) (scheduled final : Requirements) (it : InstanceType) : Prop :=
  ∀ o t c, o ∈ usable it final → offering_of o t c →
    (c ≠ ClassReserved → ∀ o' t', o' ∈ usable it scheduled → ¬ offering_of o' t' ClassReserved) →
    fltb (Fin (Price o)) price = true.

Section claim.
  Context (n : NodeClaim) (Hw : requirements_wf (nc_Requirements n)) (Ht : typed_offerings n).

Lemma usable_typed it o reqs : it ∈ InstanceTypeOptions n → o ∈ usable it reqs →
  requirements_wf (of_Requirements o) ∧ ∃ t c, offering_of o t c.
Proof using Ht. intros Hit [_ [_ Ho]%list_elem_of_filter]%list_elem_of_filter. by apply (Ht it). Qed.

Lemma class_empty it reqs c : it ∈ InstanceTypeOptions n → (∀ o t, o ∈ usable it reqs → ¬ offering_of o t c) →
  Offerings_Compatible (usable it reqs) (CapacityTypeClassRequirements classes c) = [].
Proof using HC Ht.
  intros Hit Hno. destruct (Offerings_Compatible _ _) as [|o l] eqn:El; [done|]. exfalso.
  assert (o ∈ Offerings_Compatible (usable it reqs) (CapacityTypeClassRequirements classes c)) as Ho by (rewrite El; by left).
  assert (o ∈ usable it reqs) as Hu by by apply list_elem_of_filter in Ho as [_ ?].
  destruct (usable_typed it o reqs Hit Hu) as (How & t & c' & Hof). apply (in_class _ _ _ _ _ _ Hof How Hu) in Ho as ->. by eapply Hno.
Qed.

Lemma priced_offering it reqs price o t c : it ∈ InstanceTypeOptions n → fltb (launch_price it reqs) price = true →
  o ∈ usable it reqs → offering_of o t c →
  (∀ c', before c' c = true → ∀ o' t', o' ∈ usable it reqs → ¬ offering_of o' t' c') → fltb (Fin (Price o)) price = true.
Proof using HC Ht.
  intros Hit Hp Hu Ho Hno. destruct (usable_typed it o reqs Hit Hu) as [How _].
  eapply fltb_le_trans; [|exact Hp]. eapply worst_price_bounds; [by apply (in_class _ _ _ _ _ c Ho How Hu)|].
  intros c' Hc'. apply class_empty; [done|]. by apply Hno.
Qed.

Definition spot_only : Requirements := Add (nc_Requirements n) [requirement_In CapacityTypeLabelKey CapacityTypeSpot].

Lemma spot_requirement_Has v : Has (requirement_In CapacityTypeLabelKey CapacityTypeSpot) v = true ↔ v = CapacityTypeSpot.
Proof.
  unfold Has, requirement_In. cbn [complement values gte lte withinBounds]. rewrite andb_true_r, bool_decide_eq_true, elem_of_list_to_set, (ct_key HC).
  unfold normalize_values. rewrite (ct_values HC). apply list_elem_of_singleton.
Qed.

Lemma spot_requirement_normal : Forall key_normal [requirement_In CapacityTypeLabelKey CapacityTypeSpot].
Proof. repeat constructor. unfold key_normal. cbn. by rewrite !(ct_key HC). Qed.

Lemma spot_only_wf : requirements_wf spot_only.
Proof using HC Hw. apply Add_wf; [apply spot_requirement_normal|apply Forall_singleton; by split|done]. Qed.

(** What can be used under the spot requirement is spot, and could be used without it. *)
Lemma spot_only_usable it o t c : it ∈ InstanceTypeOptions n → o ∈ usable it spot_only → offering_of o t c →
  c = ClassSpot ∧ o ∈ usable it (nc_Requirements n).
Proof using HC Hw Ht.
  intros Hit Hu Ho. destruct (usable_typed it o _ Hit Hu) as [How _]. apply list_elem_of_filter in Hu as [Hc Hl].
  apply (compatible_type _ _ _ _ spot_only_wf How Ho) in Hc as [Htype Hrest]. unfold spot_only in Htype.
  rewrite Add_Has in Htype by apply spot_requirement_normal. apply andb_true_iff in Htype as [Hin Hspot]. cbn [forallb] in Hspot.
  rewrite andb_true_r in Hspot. cbn [requirement_In Key] in Hspot. rewrite (ct_key HC), bool_decide_eq_true_2 in Hspot by done. cbn [negb orb] in Hspot.
  apply spot_requirement_Has in Hspot as ->. split.
  - apply (ct_disjoint HC CapacityTypeSpot); [apply (oo_class _ _ _ Ho)|]. rewrite (ct_spot HC). by left.
  - apply list_elem_of_filter. split; [|done]. apply (compatible_type _ _ _ _ Hw How Ho). split; [done|].
    intros k a b Hne Ha Hb. apply (Hrest k a b Hne); [|done]. unfold spot_only. cbn [Add foldl].
    rewrite Add1_lookup by (pose proof spot_requirement_normal as Hn; by inversion Hn). rewrite decide_False; [done|].
    cbn. by rewrite (ct_key HC).
Qed.

Lemma type_in_class it o t c reqs : requirements_wf reqs → it ∈ InstanceTypeOptions n → o ∈ usable it reqs → offering_of o t c →
  HasCapacityTypeClass classes (Get reqs CapacityTypeLabelKey) c = true.
Proof using HC Ht.
  intros Hr Hit Hu Ho. destruct (usable_typed it o _ Hit Hu) as [How _]. apply list_elem_of_filter in Hu as [Hc _].
  apply (compatible_type _ _ _ _ Hr How Ho) in Hc as [Htype _]. apply existsb_exists. exists t. split; [|done].
  apply list_elem_of_In, (oo_class _ _ _ Ho).
Qed.

(** The three ways in which a replacement is priced. *)
Lemma spot_to_spot_below it price : it ∈ InstanceTypeOptions n → fltb (launch_price it spot_only) price = true →
  below_price price (nc_Requirements n) spot_only it.
Proof using HC Hw Ht.
  intros Hit Hp o t c Hu Ho _. eapply priced_offering; [done|exact Hp|exact Hu|exact Ho|]. intros c' Hb o' t' Hu' Ho'.
  destruct (spot_only_usable it o t c Hit Hu Ho) as [-> _]. destruct (spot_only_usable it o' t' c' Hit Hu' Ho') as [-> _]. done.
Qed.

Lemma narrowed_to_spot_below it price : it ∈ InstanceTypeOptions n → fltb (launch_price it (nc_Requirements n)) price = true →
  below_price price (nc_Requirements n) spot_only it.
Proof using HC Hw Ht.
  intros Hit Hp o t c Hu Ho Hres. destruct (spot_only_usable it o t c Hit Hu Ho) as [-> HuR].
  eapply priced_offering; [done|exact Hp|exact HuR|exact Ho|]. intros c' Hb. destruct c'; [|done..]. by apply Hres.
Qed.

Lemma not_narrowed_below its it price :
  (∀ x, x ∈ its → x ∈ InstanceTypeOptions n) → it ∈ its → fltb (launch_price it (nc_Requirements n)) price = true →
  HasCapacityTypeClass classes (Get (nc_Requirements n) CapacityTypeLabelKey) ClassSpot &&
  HasCapacityTypeClass classes (Get (nc_Requirements n) CapacityTypeLabelKey) ClassOnDemand &&
  hasSpotOffering classes (with_options n its) = false → below_price price (nc_Requirements n) (nc_Requirements n) it.
Proof using HC Hw Ht.
  intros Hsub Hin Hp Hguard o t c Hu Ho Hres. pose proof (Hsub it Hin) as Hit.
  eapply priced_offering; [done|exact Hp|exact Hu|exact Ho|]. intros c' Hb o' t' Hu' Ho'.
  destruct c'; [eapply Hres; [by intros ->|exact Hu'|exact Ho']| |done].
  destruct c; [done..|]. rewrite (type_in_class it o' t' ClassSpot _ Hw Hit Hu' Ho'), (type_in_class it o t ClassOnDemand _ Hw Hit Hu Ho) in Hguard.
  cbn [andb] in Hguard. unfold hasSpotOffering in Hguard. apply not_true_iff_false in Hguard. apply Hguard. apply existsb_exists.
  exists it. split; [by apply list_elem_of_In|]. unfold Offerings_HasCompatible. apply existsb_exists. exists o'.
  destruct (usable_typed it o' _ Hit Hu') as [How' _]. split; [by apply list_elem_of_In|].
  pose proof (proj2 (in_class (nc_Requirements n) it o' t' ClassSpot ClassSpot Ho' How' Hu') eq_refl) as Hc.
  by apply list_elem_of_filter in Hc as [? _].
Qed.
End claim.

(** The replacement claim [n'] for the simulated claim [n]. *)
Definition cheaper_replacement (price : float64) (n n' : NodeClaim) : Prop :=
  InstanceTypeOptions n' ≠ [] ∧
  ∀ it, it ∈ InstanceTypeOptions n' → it ∈ InstanceTypeOptions n ∧ below_price price (nc_Requirements n) (nc_Requirements n') it.

Lemma spot_to_spot_cheaper candidates (results : Results E) n its price r :
  requirements_wf (nc_Requirements n) → typed_offerings n → its ≡ₚ InstanceTypeOptions n →
  r ∈ cmd_Replacements (computeSpotToSpotConsolidation classes SpotToSpotConsolidation candidates results (with_options n its) price) →
  cheaper_replacement price n (rp_NodeClaim r).
Proof.
  intros Hw Ht Hits. unfold computeSpotToSpotConsolidation. destruct (negb _); [by intros ?%not_elem_of_nil|].
  destruct (cheaper_claim _ _ _) as [n'|] eqn:Ec; [|by intros ?%not_elem_of_nil].
  apply cheaper_claim_spec in Ec as (Hne & Hr & Hsub & Hp).
  assert (nc_Requirements n' = spot_only n) as Hr' by exact Hr.
  assert (∀ it, it ∈ InstanceTypeOptions n' → it ∈ InstanceTypeOptions n ∧ below_price price (nc_Requirements n) (nc_Requirements n') it) as Hall.
  { intros it Hit. assert (it ∈ InstanceTypeOptions n) as Hin.
    { pose proof (elem_of_sublist _ _ _ Hit Hsub) as Hx. cbn in Hx. apply list_elem_of_filter in Hx as [_ Hx]. by rewrite Hits in Hx. }
    split; [done|]. rewrite Hr'. apply spot_to_spot_below; [done..|]. by apply Hp. }
  destruct (1 <? length candidates); [by intros ->%list_elem_of_singleton|].
  destruct (_ <? _) eqn:Elen; [by intros ?%not_elem_of_nil|]. apply Nat.ltb_ge in Elen.
  intros ->%list_elem_of_singleton. split.
  - cbn. destruct (InstanceTypeOptions n') as [|it its']; [done|].
    destruct (HasMinValues _); [|done].
    by destruct (MinInstanceTypesForSpotToSpotConsolidation `max` _)%nat eqn:Em; [unfold MinInstanceTypesForSpotToSpotConsolidation in Em; lia|].
  - intros it Hit. cbn in Hit |- *. apply Hall. apply elem_of_take in Hit as (i & Hi & _). by eapply list_elem_of_lookup_2.
Qed.

(** C24: consolidation does not replace nodes by something more expensive.  Whatever instance types
    the replacement of a command may launch as, there is one, each is an option of the simulated
    claim, and every offering of it that can be launched for the replacement's
    final requirements costs less than the candidates together; so a launch
    that had been priced on spot cannot fall back to a dearer on-demand offering.  Where the type has a
    reserved offering for the simulated claim, only its reserved offerings are
    bounded: the scheduler narrows a claim that holds reservations itself.
    Offerings are taken to have well-known labels and one capacity
    type, of one class, and spot to be the only type of its class. *)
Theorem replacement_is_cheaper candidates sim cmd r :
  simulate [IsConsolidationSimulation] false candidates = Ok sim →
  (∀ n, n ∈ NewNodeClaims sim.1 → requirements_wf (nc_Requirements n) ∧ typed_offerings n) →
  computeConsolidation classes SpotToSpotConsolidation simulate candidates = Ok cmd →
  r ∈ cmd_Replacements cmd →
  cmd_Candidates cmd = candidates ∧
  ∃ n, NewNodeClaims sim.1 = [n] ∧ cheaper_replacement (sumCandidatePrices candidates) n (rp_NodeClaim r).
Proof.
  intros Hsim Hclaims. assert (cmd_Replacements (empty_command (E := E)) = []) as Hempty by done.
  unfold computeConsolidation. rewrite Hsim.
  destruct (negb _); [intros [= <-]; by intros ?%not_elem_of_nil|].
  destruct (NewNodeClaims sim.1) as [|n [|n2 ns]]; [intros [= <-]; by intros ?%not_elem_of_nil| |intros [= <-]; by intros ?%not_elem_of_nil].
  destruct (Hclaims n (list_elem_of_here _ _)) as [Hw Ht].
  pose proof (OrderByPrice_Permutation (InstanceTypeOptions n) (nc_Requirements n)) as Hperm.
  set (its := OrderByPrice _ _) in *. destruct (forallb _ _ && _).
  - intros [= <-] Hr. split; [|exists n; split; [done|]; by eapply spot_to_spot_cheaper]. revert Hr. unfold computeSpotToSpotConsolidation.
    destruct (negb _); [by intros ?%not_elem_of_nil|]. destruct (cheaper_claim _ _ _); [|by intros ?%not_elem_of_nil].
    destruct (1 <? _); [done|]. destruct (_ <? _); [by intros ?%not_elem_of_nil|done].
  - destruct (cheaper_claim _ _ _) as [n'|] eqn:Ec; [|intros [= <-]; by intros ?%not_elem_of_nil].
    pose proof Ec as Ec'. apply cheaper_claim_spec in Ec as (Hne & Hr & Hsub & Hp).
    assert (∀ it, it ∈ InstanceTypeOptions n' → it ∈ InstanceTypeOptions n) as Hin.
    { intros it Hit. pose proof (elem_of_sublist _ _ _ Hit Hsub) as Hx. cbn in Hx. by rewrite Hperm in Hx. }
    assert (nc_Requirements n' = nc_Requirements n) as Hr' by exact Hr.
    intros [= <-] ->%list_elem_of_singleton. split; [done|]. exists n. split; [done|]. cbn [rp_NodeClaim].
    destruct (_ && _ && _) eqn:Eg.
    + split; [done|]. intros it Hit. split; [by apply Hin|]. cbn. rewrite Hr'. apply narrowed_to_spot_below; [done|done|by apply Hin|by apply Hp].
    + split; [done|]. intros it Hit. split; [by apply Hin|]. rewrite Hr'. eapply not_narrowed_below; [done|done|exact Hin|exact Hit|by apply Hp|].
      rewrite Hr' in Eg. rewrite <-Eg. f_equal. unfold hasSpotOffering. cbn. by rewrite Hr'.
Qed.

(** A command is issued only when the simulation finds a place for every pod. *)
Lemma consolidation_simulated candidates cmd :
  computeConsolidation classes SpotToSpotConsolidation simulate candidates = Ok cmd → Command_Decision cmd ≠ NoOpDecision →
  ∃ sim, simulate [IsConsolidationSimulation] false candidates = Ok sim ∧ all_scheduled sim = true.
Proof using Type.
  unfold computeConsolidation. destruct (simulate _ _ _) as [sim|err]; [|by destruct err; intros [= <-]].
  destruct (all_scheduled sim) eqn:Ea; [by exists sim|]. by intros [= <-].
Qed.
End prices.

(** ** Replacing several nodes by one of their own types *)

Section same_type.
  Context `{LR : LabelRegistry} (classes : capacityTypeClassState).

Definition finite_prices (prices : gmap string float64) : Prop := ∀ k p, prices !! k = Some p → ∃ y, p = Fin y.

(** The price kept for a type is at most [z]. *)
Definition kept_below (prices : gmap string float64) (name : string) (z : Z) : Prop :=
  match prices !! name with Some (Fin y) => (y ≤ z)%Z | Some _ => False | None => (MaxFloat64 ≤ z)%Z end.

Lemma price_below_finite prices name p : finite_prices prices → finite_prices (price_below prices name (Fin p)).
Proof.
  unfold price_below. intros Hf. destruct (fltb _ _); [|done]. intros k q. rewrite lookup_insert_Some.
  intros [[_ <-]|[_ ?]]; [by eexists|by eapply Hf].
Qed.

Lemma price_below_kept prices name name' p z :
  finite_prices prices → kept_below prices name z → kept_below (price_below prices name' (Fin p)) name z.
Proof.
  unfold price_below, kept_below. intros Hf Hk. destruct (fltb _ _) eqn:El; [|done].
  destruct (decide (name' = name)) as [->|Hne]; [|by rewrite lookup_insert_ne]. rewrite lookup_insert_eq.
  destruct (prices !! name) as [q|] eqn:Eq; cbn in El.
  - destruct (Hf _ _ Eq) as [y ->]. cbn in El. apply Z.ltb_lt in El. lia.
  - apply Z.ltb_lt in El. lia.
Qed.

Lemma price_below_new prices name p : finite_prices prices → kept_below (price_below prices name (Fin p)) name p.
Proof.
  unfold price_below, kept_below. intros Hf. destruct (fltb _ _) eqn:El; [by rewrite lookup_insert_eq|].
  destruct (prices !! name) as [q|] eqn:Eq; cbn in El; [|by apply Z.ltb_ge in El].
  destruct (Hf _ _ Eq) as [y ->]. cbn in El. by apply Z.ltb_ge in El.
Qed.

Lemma existing_prices_spec cs names prices names' prices' :
  (∀ c, c ∈ cs → ∃ z, c_Price c = Fin z) → finite_prices prices → existing_prices cs names prices = Some (names', prices') →
  finite_prices prices' ∧ names ⊆ names' ∧ (∀ name z, kept_below prices name z → kept_below prices' name z) ∧
  ∀ c it z, c ∈ cs → c_instanceType c = Some it → c_Price c = Fin z →
    it_Name it ∈ names' ∧ ((0 < z)%Z → kept_below prices' (it_Name it) z).
Proof.
  revert names prices. induction cs as [|c cs IH]; intros names prices Hc Hf; cbn [existing_prices].
  { intros [= <- <-]. split_and!; [done..|]. by intros c it z ?%not_elem_of_nil. }
  destruct (c_instanceType c) as [it|] eqn:Ei; [|done]. cbn [mbind option_bind]. destruct (Hc c ltac:(by left)) as [p Hp].
  rewrite Hp. intros He. apply IH in He as (H1 & H2 & H3 & H4); [|intros; apply Hc; by right|].
  2: { destruct (fleb _ _); [done|by apply price_below_finite]. }
  split_and!; [done|set_solver| |].
  - intros name z Hk. apply H3. destruct (fleb _ _); [done|by apply price_below_kept].
  - intros c' it' z [->|Hin]%elem_of_cons Hi Hz; [|by eapply H4].
    rewrite Ei in Hi. injection Hi as <-. rewrite Hp in Hz. injection Hz as <-.
    split; [set_solver|]. intros Hpos. apply H3. destruct (fleb (Fin p) (Fin 0)) eqn:El; [|by apply price_below_new].
    apply fleb_Fin in El. lia.
Qed.

Lemma max_replacement_price_spec names prices its it : finite_prices prices → it ∈ its → it_Name it ∈ names →
  ∃ r y, max_replacement_price names prices its = Fin r ∧ default (Fin 0) (prices !! it_Name it) = Fin y ∧ (r ≤ y)%Z.
Proof.
  intros Hf Hit Hn.
  assert (∀ name, ∃ y, default (Fin 0) (prices !! name) = Fin y) as Hd.
  { intros name. destruct (prices !! name) as [q|] eqn:E; cbn; [by eapply Hf|by exists 0%Z]. }
  destruct (Hd (it_Name it)) as [y Hy]. unfold max_replacement_price.
  assert (∀ l a, ∃ r, foldl (λ maxPrice it, if bool_decide (it_Name it ∈ names) then
      let p := default (Fin 0) (prices !! it_Name it) in if fltb p maxPrice then p else maxPrice else maxPrice) (Fin a) l = Fin r ∧
      (r ≤ a)%Z ∧ (it ∈ l → (r ≤ y)%Z)) as Hloop.
  { induction l as [|x l IH]; intros a; cbn [foldl]; [exists a; split_and!; [done|lia|by intros ?%not_elem_of_nil]|].
    case_bool_decide as Hx.
    - cbv zeta. destruct (Hd (it_Name x)) as [b Hb]. rewrite Hb. cbn [fltb].
      destruct (Z.ltb_spec b a).
      + destruct (IH b) as (r & Hr & Hle & Hin). exists r. split_and!; [done|lia|].
        intros [->|?]%elem_of_cons; [|by apply Hin]. rewrite Hy in Hb. injection Hb as ->. done.
      + destruct (IH a) as (r & Hr & Hle & Hin). exists r. split_and!; [done|lia|].
        intros [->|?]%elem_of_cons; [|by apply Hin]. rewrite Hy in Hb. injection Hb as ->. lia.
    - destruct (IH a) as (r & Hr & Hle & Hin). exists r. split_and!; [done|lia|].
      intros [->|?]%elem_of_cons; [done|by apply Hin]. }
  destruct (Hloop its MaxFloat64) as (r & Hr & _ & Hle). exists r, y. split_and!; [done..|by apply Hle].
Qed.

(** Several nodes are replaced by one only when that beats keeping one of them: when a
    node's own type is among the replacement's, all types that remain launch below that
    node's price. *)
Theorem filterOutSameInstanceType_spec n consolidate n' c it it0 it' z :
  (∀ c, c ∈ consolidate → ∃ z, c_Price c = Fin z) →
  filterOutSameInstanceType classes n consolidate = Some (Ok n') →
  c ∈ consolidate → c_instanceType c = Some it0 → c_Price c = Fin z → (0 < z)%Z →
  it ∈ InstanceTypeOptions n → it_Name it = it_Name it0 →
  it' ∈ InstanceTypeOptions n' → fltb (launch_price classes it' (nc_Requirements n)) (c_Price c) = true.
Proof.
  intros Hfin Hf Hc Hi Hz Hpos Hit Hname Hit'. unfold filterOutSameInstanceType in Hf.
  destruct (existing_prices consolidate ∅ ∅) as [[names prices]|] eqn:Ee; [|done]. cbn [mbind option_bind] in Hf.
  apply existing_prices_spec in Ee as (H1 & _ & _ & H4); [|done|by intros ? ?; rewrite lookup_empty].
  destruct (RemoveInstanceTypeOptionsByPriceAndMinValues _ _ _ _) as [n1 [u|]] eqn:Er; [done|]. injection Hf as <-.
  apply RemoveInstanceTypeOptions_spec in Er as (_ & _ & Hp). specialize (Hp it' Hit').
  destruct (H4 c it0 z Hc Hi Hz) as [Hn Hk]. specialize (Hk Hpos). rewrite <-Hname in Hn, Hk.
  destruct (max_replacement_price_spec names prices _ it H1 Hit Hn) as (r & y & Hr & Hy & Hle). rewrite Hr in Hp.
  rewrite Hz. unfold launch_price in *. cbn [fltb] in *. apply Z.ltb_lt. apply Z.ltb_lt in Hp.
  assert (y ≤ z)%Z; [|lia]. unfold kept_below in Hk. destruct (prices !! it_Name it) as [q|]; cbn in Hy.
  - subst q. done.
  - injection Hy as <-. lia.
Qed.
End same_type.

(** ** Commands stay within the budgets *)

Lemma of_pool_sublist pool l1 l2 : sublist l1 l2 → length (of_pool pool l1) ≤ length (of_pool pool l2).
Proof.
  unfold of_pool. induction 1 as [|x l1 l2 _ IH|x l1 l2 _ IH]; [done|..]; rewrite !filter_cons; case_decide; cbn; lia.
Qed.

Section within_budget.
  Context `{LR : LabelRegistry} `{SE : SchedulerEnv} `{IO : IterationOrder} {E : Type}.
  Context (classes : capacityTypeClassState) (SpotToSpotConsolidation : bool).
  Context (simulate : list SchedulerOption → bool → list Candidate → result sim_error (Results E * list Pod)).
  Context (validate : Command E → result validation_error (Command E)).

Lemma computeConsolidation_candidates cs cmd :
  computeConsolidation classes SpotToSpotConsolidation simulate cs = Ok cmd → cmd_Candidates cmd = [] ∨ cmd_Candidates cmd = cs.
Proof.
  unfold computeConsolidation. destruct (simulate _ _ _) as [sim|err]; [|by destruct err; intros [= <-]; left].
  destruct (negb _); [intros [= <-]; by left|]. destruct (NewNodeClaims sim.1) as [|n [|? ?]]; [intros [= <-]; by right| |intros [= <-]; by left].
  destruct (forallb _ _ && _).
  - intros [= <-]. unfold computeSpotToSpotConsolidation. destruct (negb _); [by left|].
    destruct (cheaper_claim _ _ _); [|by left]. destruct (1 <? _); [by right|]. destruct (_ <? _); [by left|by right].
  - destruct (cheaper_claim _ _ _); intros [= <-]; [by right|by left].
Qed.

Lemma try_batch_candidates e cs k cmd perPool :
  try_batch classes SpotToSpotConsolidation simulate e cs k = Some (Ok (Some (cmd, perPool))) → cmd_Candidates cmd = take (k + 1) cs.
Proof.
  unfold try_batch. destruct (computeConsolidation _ _ _ _) as [cmd1|] eqn:Ec; [|done].
  destruct (sensible _ cmd1 _) as [[cmd2|]|] eqn:Es; [|done|done]. cbn [mbind option_bind].
  destruct (ApproveCommand e cmd2) as [[] pp]; [|done]. intros [= <- <-].
  assert (cmd_Candidates cmd2 = cmd_Candidates cmd1 ∧ Command_Decision cmd1 ≠ NoOpDecision) as [-> Hd].
  { revert Es. unfold sensible. destruct (Command_Decision cmd1); try done; [|by intros [= <-]].
    destruct (cmd_Replacements cmd1) as [|r rs]; [done|].
    destruct (filterOutSameInstanceType _ _ _) as [[n|]|]; [|done|done]. cbn [mbind option_bind].
    destruct (InstanceTypeOptions n); [done|]. by intros [= <-]. }
  apply computeConsolidation_candidates in Ec as [Ec|Ec]; [|done]. unfold Command_Decision in Hd. by rewrite Ec in Hd.
Qed.

(** C23: multi-node consolidation disrupts, of every NodePool, no more nodes than its budget
    allows, and at least two in all. *)
Theorem multinode_within_budget e last now_state end_state budget candidates st cmds cmd pool :
  (∀ p z, budget !! p = Some z → (0 ≤ z)%Z) → (∀ cmd cmd', validate cmd = Ok cmd' → cmd' = cmd) →
  MultiNode_ComputeCommands classes SpotToSpotConsolidation simulate validate e last now_state end_state budget candidates
    = Some (st, Ok cmds) → cmd ∈ cmds →
  2 ≤ length (cmd_Candidates cmd) ∧ (Z.of_nat (length (of_pool pool (cmd_Candidates cmd))) ≤ default 0 (budget !! pool))%Z.
Proof.
  intros Hb Hv. unfold MultiNode_ComputeCommands. destruct (_ =? _)%Z; [intros [= _ <-]; by intros ?%not_elem_of_nil|].
  destruct (sortCandidates candidates) as [sorted|]; [|done]. cbn [mbind option_bind].
  pose proof (take_within_budget_count budget sorted pool Hb) as Hcount.
  destruct (take_within_budget budget sorted) as [[taken constrained] rest]. destruct Hcount as (H1 & H2 & _).
  destruct (firstNConsolidationOption _ _ _ _ _ _) as [[found|]|] eqn:Ef; [|done|done]. cbn [mbind option_bind]. destruct found as [cmd1 pp].
  case_bool_decide as Hd; [intros [= _ <-]; by intros ?%not_elem_of_nil|].
  destruct (validate cmd1) as [cmd2|err] eqn:Ev; [apply Hv in Ev as ->|destruct (IsValidationError err); intros [= _ <-]; by intros ?%not_elem_of_nil].
  intros [= _ <-] ->%list_elem_of_singleton. unfold firstNConsolidationOption in Ef.
  destruct (Nat.ltb_spec (length taken) 2) as [Hlt|Hge]; [by injection Ef as <- <-|].
  set (top := if _ <=? _ then _ else _) in Ef.
  apply (search_loop_sound classes SpotToSpotConsolidation simulate e taken top) in Ef as [[= -> ->]|(k & perPool & Hk & Ht)]; [done| |done|done|by left].
  apply try_batch_candidates in Ht. cbn [fst] in Ht. rewrite Ht, length_take. split; [lia|].
  pose proof (of_pool_sublist pool (take (k + 1) taken) taken (sublist_take _ _)). lia.
Qed.

End within_budget.
