(* ===== verification/Validation.v ===== *)
(** * Validation: is a command still right after the waiting time?
    (pkg/controllers/disruption/validation.go)

    Between computing a command and starting it the cluster changes.  A validator reads
    the candidates, the nominations and the budgets again; the second check of
    [isValid] reads them once more, after the simulation. *)

From S2P Require Import Prelude Float64 Labels Requirement Objects RepairPolicy Requirements Resources.
From S2P Require Import Taints Volumes InstanceTypes Reservations PodState DisruptionCost TopologyGroup Topology NodeClaims.
From S2P Require Import Budgets Templates ExistingNodes Evictions StateNodes Scheduler Solver Candidates.
From S2P Require Import Balanced Simulation Consolidation ConsolidationProps.

(** What is read: the current candidates of the method and the budgets ([None] is an
    error of the API server), and the nominated nodes. *)
Record ValidationReads := mkValidationReads {
  v_candidates : option (list Candidate);
  v_nominated : string → bool;
  v_budget : option (gmap string Z);
}.

Definition Emptiness_validateCandidates (reads : ValidationReads) (candidates : list Candidate)
    : result validation_error (list Candidate) :=
  match v_candidates reads with
  | None => Err UnexpectedError
  | Some current =>
      match mapCandidates candidates current with
      | [] => Err ChurnValidationError
      | validated =>
          match v_budget reads with
          | None => Err UnexpectedError
          | Some budget =>
              match (take_within_budget budget (filter (λ cn, v_nominated reads (candidate_ProviderID cn) = false) validated)).1.1 with
              | [] => Err BudgetValidationError
              | valid => Ok valid
              end
          end
      end
  end.

(** The first candidate that is nominated or out of budget rejects the command. *)
Fixpoint all_disruptable (nominated : string → bool) (budget : gmap string Z) (candidates : list Candidate) : bool :=
  match candidates with
  | [] => true
  | vc :: rest =>
      if nominated (candidate_ProviderID vc) then false else
      let left := default 0%Z (budget !! candidate_pool vc) in
      if (left =? 0)%Z then false else all_disruptable nominated (<[candidate_pool vc := (left - 1)%Z]> budget) rest
  end.

Definition Consolidation_validateCandidates (reads : ValidationReads) (candidates : list Candidate)
    : result validation_error (list Candidate) :=
  match v_candidates reads with
  | None => Err UnexpectedError
  | Some current =>
      let validated := mapCandidates candidates current in
      if negb (length validated =? length candidates)%nat then Err ChurnValidationError else
      match v_budget reads with
      | None => Err UnexpectedError
      | Some budget => if all_disruptable (v_nominated reads) budget validated then Ok validated else Err BudgetValidationError
      end
  end.

Section validators.
  Context {E : Type}.
  Context (simulate : list SchedulerOption → bool → list Candidate → result sim_error (Results E * list Pod)).
  (** The wait was cut short by the context. *)
  Context (interrupted : bool).

(** The candidates become their current representations. *)
Definition EmptinessValidator_Validate (reads : ValidationReads) (cmd : Command E) : result validation_error (Command E) :=
  if interrupted then Err UnexpectedError else
  match Emptiness_validateCandidates reads (cmd_Candidates cmd) with
  | Err e => Err e
  | Ok valid => Ok (mkCommand (cmd_Results cmd) valid (cmd_Replacements cmd) (cmd_PoolDisruptionCosts cmd)
                      (cmd_TerminateFirstReason cmd) (cmd_Reboot cmd))
  end.

(** [None] is a valid command. *)
Definition validateCommand (cmd : Command E) (candidates : list Candidate) : option validation_error :=
  match candidates with
  | [] => Some NoCandidatesError
  | _ =>
      match simulate [IsConsolidationSimulation] false candidates with
      | Err _ => Some UnexpectedError
      | Ok sim =>
          if negb (all_scheduled sim) then Some SchedulingValidationError else
          match NewNodeClaims sim.1, cmd_Replacements cmd with
          | [], [] => None
          | [], _ :: _ => Some SchedulingValidationError
          | _ :: _ :: _, _ => Some SchedulingValidationError
          | [_], [] => Some SchedulingValidationError
          | [n], r :: _ => if instanceTypesAreSubset (InstanceTypeOptions (rp_NodeClaim r)) (InstanceTypeOptions n)
                           then None else Some SchedulingValidationError
          end
      end
  end.

Definition isValid (reads rereads : ValidationReads) (cmd : Command E) : option validation_error :=
  if interrupted then Some UnexpectedError else
  match Consolidation_validateCandidates reads (cmd_Candidates cmd) with
  | Err e => Some e
  | Ok validated =>
      match validateCommand cmd validated with
      | Some e => Some e
      | None => match Consolidation_validateCandidates rereads validated with
                | Err e => Some e
                | Ok _ => None
                end
      end
  end.

Definition ConsolidationValidator_Validate (reads rereads : ValidationReads) (cmd : Command E)
    : result validation_error (Command E) :=
  match isValid reads rereads cmd with Some e => Err e | None => Ok cmd end.

(** ** Properties *)

Lemma all_disruptable_spec nominated budget cs pool : (∀ p z, budget !! p = Some z → (0 ≤ z)%Z) →
  all_disruptable nominated budget cs = true →
  Forall (λ c, nominated (candidate_ProviderID c) = false) cs ∧
  (Z.of_nat (length (of_pool pool cs)) ≤ default 0 (budget !! pool))%Z.
Proof.
  unfold of_pool. revert budget. induction cs as [|c cs IH]; intros budget Hb; cbn [all_disruptable].
  { intros _. split; [done|]. cbn. destruct (budget !! pool) eqn:Eb; cbn; [by eapply Hb|lia]. }
  destruct (nominated _) eqn:En; [done|]. set (left := default 0%Z (budget !! candidate_pool c)).
  assert (0 ≤ left)%Z by (unfold left; destruct (budget !! candidate_pool c) eqn:Eb; cbn; [by eapply Hb|lia]).
  destruct (Z.eqb_spec left 0); [done|]. intros [H1 H2]%IH.
  2: { intros p z. rewrite lookup_insert_Some. intros [[_ <-]|[_ ?]]; [lia|by eapply Hb]. }
  split; [by constructor|]. rewrite filter_cons. case_decide as Hp.
  - subst pool. rewrite lookup_insert_eq in H2. cbn [default from_option id] in H2. cbn [length]. fold left. lia.
  - by rewrite lookup_insert_ne in H2 by done.
Qed.

Lemma mapCandidates_spec proposed current c :
  c ∈ mapCandidates proposed current ↔ c ∈ current ∧ candidate_Name c ∈ candidate_Name <$> proposed.
Proof. unfold mapCandidates. rewrite list_elem_of_filter, elem_of_list_to_set. tauto. Qed.

(** What a validator reads is sensible: no two candidates share a name and no budget is negative. *)
Record reads_ok (reads : ValidationReads) : Prop := {
  ok_names current : v_candidates reads = Some current → NoDup (candidate_Name <$> current);
  ok_budget budget pool z : v_budget reads = Some budget → budget !! pool = Some z → (0 ≤ z)%Z;
}.

(** [validated] are the current candidates with the names of the proposed ones, one for each; none is
    nominated, and each pool's budget covers its own. *)
Record still_disruptable (reads : ValidationReads) (proposed validated : list Candidate) : Prop := {
  sd_current : ∃ current, v_candidates reads = Some current ∧ ∀ c, c ∈ validated → c ∈ current;
  sd_names : candidate_Name <$> validated ≡ₚ candidate_Name <$> proposed;
  sd_nominated : ∀ c, c ∈ validated → v_nominated reads (candidate_ProviderID c) = false;
  sd_budget : ∃ budget, v_budget reads = Some budget ∧
    ∀ pool, (Z.of_nat (length (of_pool pool validated)) ≤ default 0 (budget !! pool))%Z;
}.

Lemma mapCandidates_names proposed current :
  NoDup (candidate_Name <$> current) → length (mapCandidates proposed current) = length proposed →
  candidate_Name <$> mapCandidates proposed current ≡ₚ candidate_Name <$> proposed.
Proof.
  intros Hnd Hl. apply NoDup_Permutation_bis.
  - apply NoDup_ListNoDup. eapply sublist_NoDup; [exact Hnd|]. apply fmap_sublist. apply sublist_filter.
  - by rewrite !length_fmap, Hl.
  - intros x. rewrite <-!list_elem_of_In. intros (c & -> & [_ Hc]%mapCandidates_spec)%list_elem_of_fmap. done.
Qed.

Lemma Consolidation_validateCandidates_Ok reads proposed validated : reads_ok reads →
  Consolidation_validateCandidates reads proposed = Ok validated → still_disruptable reads proposed validated.
Proof.
  intros [Hnames Hbudget]. unfold Consolidation_validateCandidates. destruct (v_candidates reads) as [current|] eqn:Ecur; [|done].
  destruct (_ =? _)%nat eqn:El; [|done]. apply Nat.eqb_eq in El. cbn [negb].
  destruct (v_budget reads) as [budget|] eqn:Eb; [|done]. destruct (all_disruptable _ _ _) eqn:Ed; [|done]. intros [= <-].
  assert (∀ pool, _) as H by (intros pool; exact (all_disruptable_spec _ _ _ pool (λ p z, Hbudget budget p z eq_refl) Ed)). split.
  - exists current. split; [done|]. by intros c [? _]%mapCandidates_spec.
  - apply mapCandidates_names; auto.
  - apply Forall_forall. by destruct (H EmptyString).
  - exists budget. split; [done|]. intros pool. by destruct (H pool).
Qed.

(** C22: a consolidation command that passes validation is still right.  After the wait
    its candidates are read again and each is still a candidate, not nominated, within its
    pool's budget of that time; a simulation without these candidates gives no error to any
    pod that was not pending before, and wants a new node exactly when
    the command has a replacement, all of whose instance types it allows by name; and after
    the simulation the same candidates pass these checks once more, against a second
    read.  The reads are taken to give distinct names and budgets that are not negative. *)
Theorem validated_command_holds reads rereads cmd cmd' :
  reads_ok reads → reads_ok rereads → ConsolidationValidator_Validate reads rereads cmd = Ok cmd' →
  cmd' = cmd ∧ cmd_Candidates cmd ≠ [] ∧
  ∃ validated sim again, still_disruptable reads (cmd_Candidates cmd) validated ∧
    simulate [IsConsolidationSimulation] false validated = Ok sim ∧
    (∀ p, p ∈ sim.2 → IsProvisionable p = false → PodErrors sim.1 !! pod_UID p = None) ∧
    match cmd_Replacements cmd with
    | [] => NewNodeClaims sim.1 = []
    | r :: _ => ∃ n, NewNodeClaims sim.1 = [n] ∧
        ∀ it, it ∈ InstanceTypeOptions (rp_NodeClaim r) → ∃ it', it' ∈ InstanceTypeOptions n ∧ it_Name it' = it_Name it
    end ∧
    still_disruptable rereads (cmd_Candidates cmd) again.
Proof.
  intros Hr Hrr. unfold ConsolidationValidator_Validate, isValid. destruct interrupted; [done|].
  destruct (Consolidation_validateCandidates reads _) as [validated|] eqn:Ev; [|done].
  destruct (validateCommand cmd validated) eqn:Ec; [done|].
  destruct (Consolidation_validateCandidates rereads validated) as [again|] eqn:Ea; [|done]. intros [= <-]. split; [done|].
  apply (Consolidation_validateCandidates_Ok _ _ _ Hr) in Ev. apply (Consolidation_validateCandidates_Ok _ _ _ Hrr) in Ea.
  unfold validateCommand in Ec. destruct validated as [|v0 vs] eqn:Evs; [done|]. split.
  { intros E0. pose proof (sd_names _ _ _ Ev) as Hp. rewrite E0 in Hp. by apply Permutation_nil_r in Hp. }
  destruct (simulate _ _ _) as [sim|] eqn:Es; [|done]. destruct (all_scheduled sim) eqn:Eall; [|done]. cbn [negb] in Ec.
  exists (v0 :: vs), sim, again. split; [done|]. split; [done|]. split; [|split].
  - intros p Hp Hn. unfold all_scheduled, AllNonPendingPodsScheduled in Eall. rewrite forallb_forall in Eall.
    apply list_elem_of_In, Eall, orb_true_iff in Hp as [Hp|?]; [|congruence]. apply negb_true_iff, bool_decide_eq_false in Hp.
    by apply eq_None_not_Some.
  - destruct (NewNodeClaims sim.1) as [|n [|? ?]], (cmd_Replacements cmd) as [|r rs]; try done.
    exists n. split; [done|]. apply instanceTypesAreSubset_spec. by destruct (instanceTypesAreSubset _ _).
  - destruct Ea as [H1 H2 H3 H4]. split; [done| |done|done]. etrans; [exact H2|]. apply (sd_names _ _ _ Ev).
Qed.

(** The empty nodes that are deleted after validation are current candidates that were
    proposed, are not nominated, and fit into the budgets read at that time. *)
Theorem validated_empties_hold reads cmd cmd' budget pool :
  EmptinessValidator_Validate reads cmd = Ok cmd' →
  v_budget reads = Some budget → (∀ p z, budget !! p = Some z → (0 ≤ z)%Z) →
  cmd_Candidates cmd' ≠ [] ∧
  (Z.of_nat (length (of_pool pool (cmd_Candidates cmd'))) ≤ default 0 (budget !! pool))%Z ∧
  ∃ current, v_candidates reads = Some current ∧
    ∀ c, c ∈ cmd_Candidates cmd' → c ∈ current ∧ candidate_Name c ∈ candidate_Name <$> cmd_Candidates cmd ∧
      v_nominated reads (candidate_ProviderID c) = false.
Proof.
  unfold EmptinessValidator_Validate. destruct interrupted; [done|].
  destruct (Emptiness_validateCandidates reads _) as [valid|] eqn:Ev; [|done]. intros [= <-] Hbud Hb. cbn [cmd_Candidates].
  unfold Emptiness_validateCandidates in Ev. destruct (v_candidates reads) as [current|]; [|done].
  pose proof (mapCandidates_spec (cmd_Candidates cmd) current) as Hm.
  destruct (mapCandidates (cmd_Candidates cmd) current) as [|v0 vs]; [done|]. rewrite Hbud in Ev.
  set (l := filter _ _) in Ev. pose proof (take_within_budget_count budget l pool Hb) as Hcount.
  pose proof (take_within_budget_sublist budget l) as Hsub.
  destruct (take_within_budget budget l) as [[taken constrained] rest]. destruct Hcount as (H1 & H2 & _). cbn in Hsub, Ev.
  destruct taken as [|t0 ts]; [done|]. injection Ev as <-. split_and!; [done|lia|]. exists current. split; [done|].
  intros c Hc. assert (c ∈ l) as Hl by by eapply elem_of_sublist. unfold l in Hl. rewrite list_elem_of_filter in Hl.
  destruct Hl as [Hn [Hcur Hname]%Hm]. done.
Qed.
End validators.
