(* ===== verification/Drift.v ===== *)
(** * Drift: replacing nodes that no longer match their NodePool
    (pkg/controllers/disruption/drift.go, staticdrift.go and the reservation helpers of
    helpers.go)

    Drift replaces one node at a time, empty nodes first.  The nodes of a static NodePool
    are not rescheduled: their replacements come from the template, within the node limit
    that the NodePool state reserves. *)

From S2P Require Import Prelude Float64 Labels Requirement Objects RepairPolicy Requirements Resources.
From S2P Require Import Taints Volumes InstanceTypes Reservations PodState DisruptionCost TopologyGroup Topology NodeClaims.
From S2P Require Import Budgets Templates ExistingNodes Evictions NodePoolState StateNodes Scheduler Solver.
From S2P Require Import Candidates Simulation.

#[local] Open Scope Z_scope.

(** ** Drift *)

Definition Drift_ShouldDisrupt (c : Candidate) : bool :=
  negb (OwnedByStaticNodePool c) && candidate_condition DisruptionReasonDrifted c.

Definition StaticDrift_ShouldDisrupt (c : Candidate) : bool :=
  OwnedByStaticNodePool c && candidate_condition ConditionTypeDrifted c.

(** When the candidate drifted; [None] is the nil dereference of a missing condition. *)
Definition drifted_at (c : Candidate) : option Z :=
  claim ← st_NodeClaim (c_StateNode c);
  cond_LastTransitionTime <$> get_condition DisruptionReasonDrifted (claim_Conditions claim).

(** Oldest first. *)
Definition sort_by_drift (candidates : list Candidate) : option (list Candidate) :=
  match candidates with
  | [] | [_] => Some candidates
  | _ => timed ← mapM (λ c, (λ t, (c, t)) <$> drifted_at c) candidates;
         Some (sort_by (λ a b, a.2 <? b.2) timed).*1
  end.

Section drift.
  Context {E : Type}.
  (** [SimulateSchedulingWithReservedFallback], and the feature gate. *)
  Context (simulateFallback : Candidate → bool → bool → result sim_error (Results E * list Pod * bool)).
  Context (TerminateFirstDrift : bool).

(** The command for one candidate, from its simulation. *)
Definition command_of (candidate : Candidate) (results : Results E) (replacements : list Replacement) (reason : string) : Command E :=
  mkCommand results [candidate] replacements (computePoolDisruptionCosts [candidate]) reason false.

Fixpoint drift_loop (budget : gmap string Z) (candidates : list Candidate) : result sim_error (list (Command E)) :=
  match candidates with
  | [] => Ok []
  | candidate :: rest =>
      if default 0 (budget !! candidate_pool candidate) =? 0 then drift_loop budget rest else
      match simulateFallback candidate TerminateFirstDrift false with
      | Err CandidateDeleting => drift_loop budget rest
      | Err e => Err e
      | Ok (sim, true) => Ok [command_of candidate sim.1 [] TerminateFirstNoReservedCapacity]
      | Ok (sim, false) =>
          if all_scheduled sim
          then Ok [command_of candidate sim.1 (replacementsFromNodeClaims false (NewNodeClaims sim.1)) EmptyString]
          else drift_loop budget rest
      end
  end.

Definition no_reschedulable (c : Candidate) : bool := bool_decide (c_reschedulablePods c = []).

Definition Drift_ComputeCommands (budget : gmap string Z) (candidates : list Candidate)
    : option (result sim_error (list (Command E))) :=
  sorted ← sort_by_drift candidates;
  let emptyCandidates := filter (λ c, no_reschedulable c = true) sorted in
  let nonEmptyCandidates := filter (λ c, no_reschedulable c = false) sorted in
  Some (drift_loop budget (emptyCandidates ++ nonEmptyCandidates)).
End drift.

(** ** Static NodePools *)

Section static.
  Context `{LR : LabelRegistry} `{SE : SchedulerEnv}.
  (** [cloudProvider.GetInstanceTypes]: [None] is an error. *)
  Context (GetInstanceTypes : NodePool → option (list InstanceType)).
  Context (nodePool_Hash : NodePool → string) (ToLower : string → string).

(** The offerings a replacement could launch with. *)
Definition template_offerings (nct : NodeClaimTemplate) (its : list InstanceType) : list Offering :=
  filter (λ it, IsCompatible (nct_Requirements nct) (it_Requirements it) WellKnownLabels = true) its ≫= λ it,
    Offerings_Compatible (Offerings it) (nct_Requirements nct).

(** Whether only full reservations are left, and the ones that are still offered. *)
Definition staticReservations (np : NodePool) (nct : NodeClaimTemplate) : option (bool * gset string) :=
  its ← GetInstanceTypes np;
  let offerings := template_offerings nct its in
  if existsb (λ o, negb (bool_decide (Offering_CapacityType draw o = CapacityTypeReserved)) || Offering_Launchable o) offerings
  then Some (false, ∅)
  else Some (true, list_to_set (ReservationID ReservationIDLabel draw <$> filter (λ o, InstanceTypes.Available o = true) offerings)).

Definition holdsOfferedReservation (c : Candidate) (offered : gset string) : bool :=
  bool_decide (c_capacityType c = CapacityTypeReserved) &&
  bool_decide (default EmptyString (candidate_Labels c !! ReservationIDLabel) ∈ offered).

(** The claim of a replacement that is only the template. *)
Definition static_claim (nct : NodeClaimTemplate) (meta : TemplateMeta) : NodeClaim :=
  mkNodeClaim (nct_NodePoolName nct) (nct_Taints nct) (Own (tm_Annotations meta)) (nct_Requirements nct)
    (nct_InstanceTypeOptions nct) ∅ [] ∅ [] EmptyString [] ReservedOfferingModeFallback ∅.

(** [resource.Quantity.Value]: quantities are in the unit of [ResourceList]; [None] when
    there is no limit is [math.MaxInt64]. *)
Context (quantity_Value : Z → Z).

Definition node_limit (np : NodePool) : Z :=
  match np_Limits np !! ResourceNodes with Some limit => quantity_Value limit | None => int64_max end.

(** Static provisioning refills only a NodePool that is ready and not being deleted. *)
Definition refillable (np : NodePool) : bool :=
  condition_true "Ready" (np_Conditions np) && bool_decide (np_DeletionTimestamp np = None).

Context {E : Type} (TerminateFirstDrift : bool).

Definition unreplaceableCommands (np : NodePool) (candidates : list Candidate) (canTerminateFirst : Candidate → bool)
    (reason : string) : list (Command E) :=
  let terminateFirst := TerminateFirstDrift && refillable np in
  omap (λ c, if terminateFirst && canTerminateFirst c then Some (command_of c empty_results [] reason) else None) candidates.

(** The candidates of one NodePool; [None] is a panic. *)
Definition static_drift_pool (state : NodePoolState) (budget : gmap string Z) (npName : string) (npCandidates : list Candidate)
    : option (NodePoolState * list (Command E)) :=
  np ← c_NodePool <$> head npCandidates;
  let allowed := default 0 (budget !! npName) in
  if allowed =? 0 then Some (state, []) else
  let '(runningNodes, _, nodesPendingDisruptionCount) := GetNodeCount state npName in
  if default 0 (np_Replicas np) <? runningNodes + nodesPendingDisruptionCount then Some (state, []) else
  let maxDrifts := Z.min (default 0 (budget !! pool_name np)) (Z.of_nat (length npCandidates)) in
  '(nct, meta) ← NewNodeClaimTemplate nodePool_Hash ToLower np;
  let reservations := if TerminateFirstDrift then staticReservations np nct else Some (false, ∅) in
  match reservations with
  | None => Some (state, [])
  | Some (true, offered) =>
      let eligible := filter (λ c, holdsOfferedReservation c offered = true) npCandidates in
      let rest := filter (λ c, holdsOfferedReservation c offered = false) npCandidates in
      Some (state, unreplaceableCommands np (take (Z.to_nat maxDrifts) (eligible ++ rest))
                     (λ c, holdsOfferedReservation c offered) TerminateFirstNoReservedCapacity)
  | Some (false, _) =>
      let '(state, maxAllowedDrifts) := ReserveNodeCount state npName (node_limit np) maxDrifts in
      if maxAllowedDrifts =? 0
      then Some (state, unreplaceableCommands np (take (Z.to_nat maxDrifts) npCandidates) (λ _, true) TerminateFirstStaticAtLimit)
      else
        let claim := static_claim nct meta in
        Some (state, (λ c, command_of c (mkResults [claim] [] ∅) (replacementsFromNodeClaims (tm_IsStatic meta) [claim]) EmptyString)
                     <$> take (Z.to_nat maxAllowedDrifts) npCandidates)
  end.

(** The NodePools in the order in which the map is visited. *)
Definition StaticDrift_ComputeCommands `{IO : IterationOrder} (state : NodePoolState) (budget : gmap string Z)
    (candidates : list Candidate) : option (NodePoolState * list (Command E)) :=
  let byPool := group_by candidate_pool candidates in
  foldl_opt (λ '(state, cmds) npName,
    '(state, more) ← static_drift_pool state budget npName (default [] (byPool !! npName));
    Some (state, cmds ++ more)) (state, []) (iter 0 (dom byPool)).
End static.

(** ** Properties *)

Section drift_properties.
  Context {E : Type}.
  Context (simulateFallback : Candidate → bool → bool → result sim_error (Results E * list Pod * bool)).
  Context (TerminateFirstDrift : bool).

(** Why a drifted node is passed over. *)
Definition drift_skipped (budget : gmap string Z) (b : Candidate) : Prop :=
  default 0 (budget !! candidate_pool b) = 0 ∨ simulateFallback b TerminateFirstDrift false = Err CandidateDeleting ∨
  ∃ s, simulateFallback b TerminateFirstDrift false = Ok (s, false) ∧ all_scheduled s = false.

(** The command for a node whose pods have a place, or whose reservation has to be freed. *)
Definition drift_command (budget : gmap string Z) (c : Candidate) (cmd : Command E) : Prop :=
  cmd_Candidates cmd = [c] ∧ default 0 (budget !! candidate_pool c) ≠ 0 ∧
  ∃ sim terminateFirst, simulateFallback c TerminateFirstDrift false = Ok (sim, terminateFirst) ∧
    (terminateFirst = true ∧ Command_Decision cmd = TerminateFirstDecision ∨
     terminateFirst = false ∧ all_scheduled sim = true ∧ rp_NodeClaim <$> cmd_Replacements cmd = NewNodeClaims sim.1).

Lemma drift_loop_spec budget cs cmds :
  drift_loop simulateFallback TerminateFirstDrift budget cs = Ok cmds →
  cmds = [] ∨ ∃ before c after cmd, cs = before ++ c :: after ∧ cmds = [cmd] ∧ drift_command budget c cmd ∧
    ∀ b, b ∈ before → drift_skipped budget b.
Proof.
  induction cs as [|c cs IH]; cbn [drift_loop]; [by intros [= <-]; left|].
  assert (drift_skipped budget c → drift_loop simulateFallback TerminateFirstDrift budget cs = Ok cmds →
    cmds = [] ∨ ∃ before c' after cmd, c :: cs = before ++ c' :: after ∧ cmds = [cmd] ∧ drift_command budget c' cmd ∧
      ∀ b, b ∈ before → drift_skipped budget b) as Hskip.
  { intros Hc [Hn|(before & c' & after & cmd & -> & H1 & H2 & H3)]%IH; [by left|right].
    exists (c :: before), c', after, cmd. split_and!; [done..|]. intros b [->|Hb]%elem_of_cons; [exact Hc|by apply H3]. }
  clear IH. destruct (Z.eqb_spec (default 0 (budget !! candidate_pool c)) 0) as [Hz|Hnz]; [apply Hskip; by left|].
  destruct (simulateFallback c TerminateFirstDrift false) as [[sim []]|err] eqn:Es.
  - intros [= <-]. right. eexists [], c, cs, _. split_and!; [done..| |by intros b ?%not_elem_of_nil].
    split_and!; [done..|]. exists sim, true. split; [done|by left].
  - destruct (all_scheduled sim) eqn:Ea.
    + intros [= <-]. right. eexists [], c, cs, _. split_and!; [done..| |by intros b ?%not_elem_of_nil].
      split_and!; [done..|]. exists sim, false. split; [done|]. right. split_and!; [done..|]. cbn. unfold replacementsFromNodeClaims. rewrite <-list_fmap_compose.
      rewrite <-(list_fmap_id (NewNodeClaims sim.1)) at 2. by apply list_fmap_ext.
    + apply Hskip. right; right. by exists sim.
  - destruct err; try done. apply Hskip. right; by left.
Qed.

(** Drift disrupts at most one node, of a NodePool with budget, and only when every pod
    of it has a place or its reservation has to be freed first.  A node with pods to move
    is disrupted only when no drifted node without any could be. *)
Theorem drift_one_at_a_time budget candidates cmds :
  Drift_ComputeCommands simulateFallback TerminateFirstDrift budget candidates = Some (Ok cmds) →
  cmds = [] ∨ ∃ cmd c, cmds = [cmd] ∧ c ∈ candidates ∧ drift_command budget c cmd ∧
    (c_reschedulablePods c ≠ [] → ∀ b, b ∈ candidates → c_reschedulablePods b = [] → drift_skipped budget b).
Proof.
  unfold Drift_ComputeCommands. destruct (sort_by_drift candidates) as [sorted|] eqn:Esort; [|done]. cbn [mbind option_bind].
  assert (∀ c, c ∈ sorted ↔ c ∈ candidates) as Hmem.
  { intros c. revert Esort. unfold sort_by_drift. destruct candidates as [|c1 [|c2 cs]]; [by intros [= <-]..|].
    set (l := c1 :: c2 :: cs). destruct (mapM _ l) as [timed|] eqn:Em; [|done]. cbn [mbind option_bind]. intros [= <-].
    rewrite sort_by_Permutation. assert (timed.*1 = l) as ->; [|done].
    apply mapM_Some in Em. clear -Em. induction Em as [|x y l k Hxy _ IH]; [done|]. cbn. rewrite IH.
    by destruct (drifted_at x); simplify_eq/=. }
  intros [= H]. apply drift_loop_spec in H as [->|(before & c & after & cmd & Hl & -> & Hcmd & Hskip)]; [by left|right].
  exists cmd, c.
  assert (c ∈ filter (λ c, no_reschedulable c = true) sorted ++ filter (λ c, no_reschedulable c = false) sorted) as Hin.
  { rewrite Hl. apply elem_of_app. right. by left. }
  split_and!; [done| |done|].
  - rewrite <-Hmem. apply elem_of_app in Hin as [[_ ?]%list_elem_of_filter|[_ ?]%list_elem_of_filter]; done.
  - intros Hne b Hbc Hbe. apply Hskip.
    assert (b ∈ filter (λ c, no_reschedulable c = true) sorted) as Hbin.
    { apply list_elem_of_filter. split; [|by apply Hmem]. unfold no_reschedulable. by apply bool_decide_true. }
    assert (c ∉ filter (λ c, no_reschedulable c = true) sorted) as Hcnot.
    { rewrite list_elem_of_filter. intros [Hx _]. unfold no_reschedulable in Hx. by apply bool_decide_eq_true in Hx. }
    apply app_eq_inv in Hl as [(k & Hk1 & Hk2)|(k & Hk1 & Hk2)].
    + destruct k as [|x k]; [|injection Hk2 as <- Hk2; exfalso; apply Hcnot; rewrite Hk1; apply elem_of_app; right; by left].
      rewrite Hk1, app_nil_r in Hbin. done.
    + rewrite Hk1. apply elem_of_app. by left.
Qed.
End drift_properties.

Section static_properties.
  Context `{LR : LabelRegistry} `{SE : SchedulerEnv} {E : Type}.
  Context (GetInstanceTypes : NodePool → option (list InstanceType)).
  Context (nodePool_Hash : NodePool → string) (ToLower : string → string) (quantity_Value : Z → Z).
  Context (TerminateFirstDrift : bool).

(** The nodes that commands take away, and the nodes they bring. *)
Definition disrupted_nodes (cmds : list (Command E)) : list Candidate := concat (cmd_Candidates <$> cmds).
Definition replacements_of (cmds : list (Command E)) : list Replacement := concat (cmd_Replacements <$> cmds).

Definition one_for_one (cmd : Command E) : Prop :=
  (length (cmd_Candidates cmd) = 1 ∧ length (cmd_Replacements cmd) ≤ 1)%nat.

Lemma unreplaceable_spec np cs can reason :
  let cmds := unreplaceableCommands TerminateFirstDrift np cs can reason in
  replacements_of cmds = [] ∧ sublist (disrupted_nodes cmds) cs ∧ Forall one_for_one cmds.
Proof.
  cbn zeta. unfold unreplaceableCommands, replacements_of, disrupted_nodes. induction cs as [|c cs (IH1 & IH2 & IH3)]; [by split_and!|].
  cbn [omap list_omap]. destruct (_ && can c); cbn; split_and!; try done.
  - by apply sublist_skip.
  - constructor; [split; cbn; lia|done].
  - by apply sublist_cons.
Qed.

Lemma replaceable_spec results r cs : (length r = 1)%nat →
  let cmds := (λ c, command_of c results r EmptyString) <$> cs in
  length (replacements_of cmds) = length cs ∧ disrupted_nodes cmds = cs ∧ Forall one_for_one cmds.
Proof.
  intros Hr. cbn zeta. unfold replacements_of, disrupted_nodes. induction cs as [|c cs (IH1 & IH2 & IH3)]; [done|].
  cbn. rewrite length_app, Hr. unfold fmap in *. rewrite IH1, IH2. split_and!; [done..|]. constructor; [|done]. split; cbn; [done|]. by rewrite Hr.
Qed.

(** C29: static drift takes away different nodes of the NodePool, one per command, and no more than
    its budget allows, brings at most one replacement per node, and reserves exactly one node for every
    replacement.  Whenever it brings any, the nodes of the NodePool that its state
    tracks, with all reservations, stay within the node limit; at the limit it terminates
    first or does nothing. *)
Theorem static_drift_within_limits state budget npName cs np rest state' cmds :
  static_drift_pool GetInstanceTypes nodePool_Hash ToLower quantity_Value TerminateFirstDrift state budget npName cs
    = Some (state', cmds) →
  cs = np :: rest → candidate_pool np = npName → 0 ≤ default 0 (budget !! npName) →
  0 ≤ node_limit quantity_Value (c_NodePool np) ≤ int64_max → 0 ≤ reserved state npName →
  node_total state npName + reserved state npName ≤ int64_max →
  disrupted_nodes cmds ⊆+ cs ∧ Z.of_nat (length (disrupted_nodes cmds)) ≤ default 0 (budget !! npName) ∧
  Forall one_for_one cmds ∧
  reserved state' npName = reserved state npName + Z.of_nat (length (replacements_of cmds)) ∧
  (replacements_of cmds ≠ [] →
     node_total state' npName + reserved state' npName ≤ node_limit quantity_Value (c_NodePool np)).
Proof.
  intros H -> Hname Hb Hlim Hres Htot. unfold static_drift_pool in H. cbn [head fmap option_fmap option_map mbind option_bind] in H.
  assert (∀ (cs : list Candidate), disrupted_nodes [] ⊆+ cs ∧ Z.of_nat (length (disrupted_nodes [])) ≤ default 0 (budget !! npName) ∧
    Forall one_for_one [] ∧ reserved state npName = reserved state npName + Z.of_nat (length (replacements_of [])) ∧
    (replacements_of [] ≠ [] → node_total state npName + reserved state npName ≤ node_limit quantity_Value (c_NodePool np))) as Hnone.
  { intros cs. cbn. split_and!; [apply submseteq_nil_l|lia|constructor|lia|done]. }
  revert H. destruct (Z.eqb_spec (default 0 (budget !! npName)) 0) as [Hz|Hnz]; [intros [= <- <-]; apply Hnone|].
  destruct (GetNodeCount state npName) as [[running deleting] pending].
  destruct (_ <? _); [intros [= <- <-]; apply Hnone|].
  change (pool_name (c_NodePool np)) with (candidate_pool np). rewrite Hname.
  set (maxDrifts := Z.min _ _). assert (0 ≤ maxDrifts ≤ default 0 (budget !! npName)) as Hmd by (unfold maxDrifts; lia).
  assert (maxDrifts ≤ Z.of_nat (length (np :: rest))) as Hlen by (unfold maxDrifts; lia).
  destruct (NewNodeClaimTemplate _ _ _) as [[nct meta]|]; [|done]. cbn [mbind option_bind].
  assert (∀ l can reason, l ≡ₚ np :: rest →
    let cmds := unreplaceableCommands (E := E) TerminateFirstDrift (c_NodePool np) (take (Z.to_nat maxDrifts) l) can reason in
    disrupted_nodes cmds ⊆+ np :: rest ∧ Z.of_nat (length (disrupted_nodes cmds)) ≤ default 0 (budget !! npName) ∧
    Forall one_for_one cmds ∧ replacements_of cmds = []) as Hun.
  { intros l can reason Hl cmds0. destruct (unreplaceable_spec (c_NodePool np) (take (Z.to_nat maxDrifts) l) can reason) as (H1 & H2 & H3).
    fold cmds0 in H1, H2, H3. split_and!; [| |done|done].
    - rewrite <-Hl. etrans; [by apply sublist_submseteq|]. apply sublist_submseteq, sublist_take.
    - apply sublist_length in H2. rewrite length_take in H2. lia. }
  destruct (if TerminateFirstDrift then _ else _) as [[[] offered]|]; [| |intros [= <- <-]; apply Hnone].
  - intros [= <- <-]. destruct (Hun (filter (λ c, holdsOfferedReservation c offered = true) (np :: rest) ++
      filter (λ c, holdsOfferedReservation c offered = false) (np :: rest)) (λ c, holdsOfferedReservation c offered)
      TerminateFirstNoReservedCapacity) as (H1 & H2 & H3 & H4).
    { generalize (np :: rest). clear. induction l as [|c l IH]; [done|]. rewrite !filter_cons.
      destruct (holdsOfferedReservation c offered); [rewrite decide_True, decide_False by done|rewrite decide_False, decide_True by done].
      - cbn. by rewrite IH.
      - rewrite <-Permutation_middle. by rewrite IH. }
    rewrite H4. cbn [length]. split_and!; [done..|lia|done].
  - destruct (ReserveNodeCount state npName _ maxDrifts) as [state1 granted] eqn:Er.
    apply reserve_grants in Er as (Hg & Hr & Hgl & _ & Ht & _); [|lia..].
    destruct (Z.eqb_spec granted 0) as [->|Hgnz]; intros [= <- <-].
    + destruct (Hun (np :: rest) (λ _, true) TerminateFirstStaticAtLimit) as (H1 & H2 & H3 & H4); [done|]. rewrite H4. cbn [length].
      split_and!; [done..|lia|done].
    + destruct (replaceable_spec (mkResults [static_claim nct meta] [] ∅) [mkReplacement (static_claim nct meta) (tm_IsStatic meta) EmptyString false]
        (take (Z.to_nat granted) (np :: rest))) as (H1 & H2 & H3); [done|].
      rewrite H1, H2, length_take. split_and!; [apply sublist_submseteq, sublist_take|lia|done|lia|]. intros _. apply Hgl. lia.
Qed.
End static_properties.
