(* ===== verification/Repair.v ===== *)
(** * Repair: replacing or rebooting unhealthy nodes
    (pkg/controllers/disruption/repair.go and repair_history.go)

    The node to repair is the one with the highest score.  A NodePool with too many
    unhealthy nodes is left alone, and a node that was rebooted twice within a day is
    replaced instead.  The cache of the reboot history keeps an entry for as long as a
    reboot of it can be recent, so it is a map. *)

From S2P Require Import Prelude Float64 Labels Requirement Objects RepairPolicy Requirements Resources.
From S2P Require Import Taints Volumes InstanceTypes Reservations PodState DisruptionCost TopologyGroup Topology NodeClaims.
From S2P Require Import Budgets Templates ExistingNodes Evictions NodePoolState StateNodes Scheduler Solver.
From S2P Require Import Candidates Simulation Drift.

#[local] Open Scope Z_scope.

(** ** The reboot history *)

Definition rebootHistoryWindow : Z := 24 * 3600 * 1000000000.
Definition rebootsBeforeReplacement : nat := 2.

(** The times of the recent reboots of a NodeClaim, by its UID. *)
Abbreviation RebootHistory := (gmap string (list Z)).

Definition recentReboots (h : RebootHistory) (uid : string) (now : Z) : list Z :=
  filter (λ t, now - rebootHistoryWindow < t) (default [] (h !! uid)).

Definition RecordCommittedReboot (h : RebootHistory) (uid : string) (now : Z) : RebootHistory :=
  let entry := recentReboots h uid now in
  if (rebootsBeforeReplacement <=? length entry)%nat then h else <[uid := entry ++ [now]]> h.

Definition with_repair (c : Candidate) (r : RepairResult) (escalated : bool) : Candidate :=
  mkCandidate (c_StateNode c) (c_instanceType c) (c_NodePool c) (c_zone c) (c_capacityType c) (c_DisruptionCost c)
    (c_reschedulablePods c) (c_hasPodBlockers c) (c_Price c) (c_RescheduleDisruptionCost c) (c_TerminationGracePeriod c)
    r escalated.

Definition with_action (r : RepairResult) (action : string) : RepairResult :=
  mkRepairResult action (r_Condition r) (r_ConditionStatus r) (r_Reason r) (r_ReasonRegex r) (r_Fallback r)
    (r_SelectedEligibleAt r) (r_TerminationGracePeriod r) (r_TerminationGracePeriodCondition r) (r_selectedPriority r)
    (r_terminationGracePeriodEligibleAt r) (r_scoreRank r) (r_scoreEligibleAt r).

(** The candidate with its decision, and whether it still has an action. *)
Definition History_Resolve (h : RebootHistory) (now : Z) (uid : string) (c : Candidate) : Candidate * bool :=
  let r := c_RepairPolicyResult c in
  if bool_decide (r_Action r = EmptyString) then (with_repair c r false, false)
  else if bool_decide (r_Action r = RebootNode) && (rebootsBeforeReplacement <=? length (recentReboots h uid now))%nat
  then (with_repair c (with_action r ReplaceNode) true, true)
  else (with_repair c r false, true).

(** ** Which nodes *)

Definition DoNotRepairAnnotationKey : string := Group +:+ "/do-not-repair".
Definition RebootTerminationGracePeriodAnnotationKey : string := Group +:+ "/reboot-termination-grace-period".
Definition RebootReasonRequested : string := "RebootRequested".

Definition candidate_claim (c : Candidate) : option v1NodeClaim := st_NodeClaim (c_StateNode c).

(** [None] is a panic; [enabled] is the feature gate without the legacy controller. *)
Definition Repair_ShouldDisrupt (enabled : bool) (h : RebootHistory) (now : Z) (c : Candidate) : option (Candidate * bool) :=
  if negb enabled then Some (c, false) else
  _ ← st_Node (c_StateNode c);
  claim ← candidate_claim c;
  result ← GetRepairResult now (c_StateNode c);
  let '(c, actionable) := History_Resolve h now (claim_UID claim) (with_repair c result (c_RebootEscalated c)) in
  if negb actionable then Some (c, false)
  else if bool_decide ((Annotations (c_StateNode c) ≫= lookup DoNotRepairAnnotationKey) = Some "true") then Some (c, false)
  else if c_hasPodBlockers c && bool_decide (r_TerminationGracePeriod (c_RepairPolicyResult c) = None) &&
          bool_decide (claim_TerminationGracePeriod claim = None) then Some (c, false)
  else Some (c, true).

(** ** The order of repair *)

Definition repair_before (now : Z) (a b : Candidate) : bool :=
  let sa := ScoreAt (c_RepairPolicyResult a) now in
  let sb := ScoreAt (c_RepairPolicyResult b) now in
  if negb (feqb sa sb) then fltb sb sa
  else if negb (feqb (c_DisruptionCost a) (c_DisruptionCost b)) then fltb (c_DisruptionCost a) (c_DisruptionCost b)
  else String.ltb (candidate_Name a) (candidate_Name b).

(** ** The breaker *)

Definition repairUnhealthyThreshold : string := "20%".

Definition repair_pool (node : Node) : string := default EmptyString (node_Labels node !! NodePoolLabelKey).

Section breaker.
  Context `{IS : IntStrApi} (policyMatcher : RepairPolicyMatcher).

Definition unhealthy (node : Node) : bool := existsb (Matches policyMatcher) (node_Conditions node).

(** Nodes and unhealthy nodes per NodePool. *)
Definition repair_counts (nodes : list Node) : gmap string Z * gmap string Z :=
  foldl (λ '(total, bad) node,
    let nodePool := repair_pool node in
    if bool_decide (nodePool = EmptyString) then (total, bad)
    else (increment total nodePool, if unhealthy node then increment bad nodePool else bad)) (∅, ∅) nodes.

(** The NodePools that are left alone; [None] is the panic of [lo.Must]. *)
Definition breakerTrippedPools (nodes : list Node) : option (gset string) :=
  let '(total, bad) := repair_counts nodes in
  foldl_opt (λ tripped '(nodePool, count),
    threshold ← GetScaledValueFromIntOrPercent (StrVal repairUnhealthyThreshold) count true;
    Some (if threshold <? default 0 (bad !! nodePool) then {[nodePool]} ∪ tripped else tripped)) ∅ (map_to_list total).
End breaker.

(** ** Drain bounds and reboots *)

Definition effectiveDrainBound (claim : v1NodeClaim) (result : RepairResult) : option Z :=
  match r_TerminationGracePeriod result with
  | None => None
  | Some effective =>
      match claim_TerminationGracePeriod claim with
      | Some ncTGP => Some (if ncTGP <? effective then ncTGP else effective)
      | None => Some effective
      end
  end.

Definition with_drain_bound (c : Candidate) (bound : option Z) : Candidate :=
  mkCandidate (c_StateNode c) (c_instanceType c) (c_NodePool c) (c_zone c) (c_capacityType c) (c_DisruptionCost c)
    (c_reschedulablePods c) (c_hasPodBlockers c) (c_Price c) (c_RescheduleDisruptionCost c) bound
    (c_RepairPolicyResult c) (c_RebootEscalated c).

(** What a reboot asks of the API server: the current NodeClaim, and whether the patches of
    the object and of its status fail. *)
Record RebootApi := mkRebootApi {
  get_claim : string → result api_error v1NodeClaim;
  patch_claim : option api_error;
  patch_status : option api_error;
}.

Section repair.
  Context `{LR : LabelRegistry} `{SE : SchedulerEnv} `{IS : IntStrApi} {E : Type}.
  Context (policyMatcher : RepairPolicyMatcher) (rapi : RebootApi).
  (** [time.Duration.String], and the status package's [SetTrueWithReason]. *)
  Context (Duration_String : Z → string)
          (SetTrueWithReason : Z → string → string → string → list Condition → list Condition).
  Context (simulateFallback : Candidate → bool → bool → result sim_error (Results E * list Pod * bool)).
  Context (TerminateFirstRepair : bool) (GetInstanceTypes : NodePool → option (list InstanceType)).
  Context (nodePool_Hash : NodePool → string) (ToLower : string → string) (quantity_Value : Z → Z).

Definition with_reboot (nc : v1NodeClaim) (annotations : gmap string string) (conditions : list Condition) : v1NodeClaim :=
  mkv1NodeClaim (claim_Name nc) (claim_UID nc) (claim_Labels nc) annotations (claim_CreationTimestamp nc)
    (claim_DeletionTimestamp nc) (claim_Taints nc) (claim_StartupTaints nc) (claim_TerminationGracePeriod nc)
    (claim_ExpireAfter nc) (claim_ProviderID nc) (claim_NodeName nc) (claim_Capacity nc) (claim_Allocatable nc) conditions
    (claim_LastPodEventTime nc).

Definition reboot_annotations (c : Candidate) (nc : v1NodeClaim) : gmap string string :=
  match (match c_TerminationGracePeriod c with Some t => Some t | None => claim_TerminationGracePeriod nc end) with
  | Some tgp => <[RebootTerminationGracePeriodAnnotationKey := Duration_String tgp]> (claim_Annotations nc)
  | None => delete RebootTerminationGracePeriodAnnotationKey (claim_Annotations nc)
  end.

Definition reboot_conditions (now : Z) (c : Candidate) (nc : v1NodeClaim) : list Condition :=
  let r := c_RepairPolicyResult c in
  SetTrueWithReason now ConditionTypeRebooting RebootReasonRequested
    ("rebooting for " +:+ r_Condition r +:+ "/" +:+ r_Reason r)
    (SetTrueWithReason now ConditionTypeDisruptionReason DisruptionReasonUnhealthy DisruptionReasonUnhealthy (claim_Conditions nc)).

(** The claim that is handed to the reboot controller; [Ok None] when the candidate is gone,
    deleting or already rebooting.  The caller stores it in the cluster state and in
    the history ([record_reboot]). *)
Definition commitReboot (now : Z) (claim : v1NodeClaim) (candidate : Candidate) : result api_error (option v1NodeClaim) :=
  match get_claim rapi (claim_Name claim) with
  | Err NotFound => Ok None
  | Err e => Err e
  | Ok nc =>
      if condition_true ConditionTypeRebooting (claim_Conditions nc) || bool_decide (is_Some (claim_DeletionTimestamp nc))
      then Ok None
      else
        let annotations := reboot_annotations candidate nc in
        match (if bool_decide (annotations = claim_Annotations nc) then None else patch_claim rapi) with
        | Some e => Err e
        | None =>
            match patch_status rapi with
            | Some e => Err e
            | None => Ok (Some (with_reboot nc annotations (reboot_conditions now candidate nc)))
            end
        end
  end.

Inductive repair_error := RepairApiError (e : api_error) | RepairSimulation (e : sim_error).

(** What one pass does: its commands, the NodePool state, and the claim of a reboot. *)
Record repair_outcome := mkRepairOutcome {
  ro_commands : list (Command E);
  ro_state : NodePoolState;
  ro_rebooted : option v1NodeClaim;
}.

(** The history after a pass, which records a committed reboot at once. *)
Definition record_reboot (h : RebootHistory) (now : Z) (outcome : repair_outcome) : RebootHistory :=
  match ro_rebooted outcome with
  | Some nc => RecordCommittedReboot h (claim_UID nc) now
  | None => h
  end.

(** A replacement for a node of a static NodePool; [Ok None] passes to the next candidate. *)
Definition repair_static (state : NodePoolState) (candidate : Candidate)
    : option (NodePoolState * option (Command E)) :=
  let np := c_NodePool candidate in
  let '(active, _, pendingDisruption) := GetNodeCount state (pool_name np) in
  if default 0 (np_Replicas np) <? active + pendingDisruption then Some (state, None) else
  '(nct, meta) ← NewNodeClaimTemplate nodePool_Hash ToLower np;
  let reservations := if TerminateFirstRepair then staticReservations GetInstanceTypes np nct else Some (false, ∅) in
  match reservations with
  | None => Some (state, None)
  | Some (full, offered) =>
      if full && negb (holdsOfferedReservation candidate offered) then Some (state, None) else
      let '(state, granted) := if full then (state, 0) else ReserveNodeCount state (pool_name np) (node_limit quantity_Value np) 1 in
      if granted =? 0 then
        Some (state, if TerminateFirstRepair && refillable np
                     then Some (command_of candidate empty_results []
                                  (if full then TerminateFirstNoReservedCapacity else TerminateFirstStaticAtLimit))
                     else None)
      else
        let claim := static_claim nct meta in
        Some (state, Some (command_of candidate (mkResults [claim] [] ∅) (replacementsFromNodeClaims (tm_IsStatic meta) [claim]) EmptyString))
  end.

Definition reboot_command (candidate : Candidate) : Command E :=
  mkCommand empty_results [candidate] [] (computePoolDisruptionCosts [candidate]) EmptyString true.

(** [None] is a panic. *)
Fixpoint repair_loop (now : Z) (tripped : gset string) (budget : gmap string Z) (state : NodePoolState)
    (candidates : list Candidate) : option (result repair_error repair_outcome) :=
  match candidates with
  | [] => Some (Ok (mkRepairOutcome [] state None))
  | candidate :: rest =>
      if bool_decide (candidate_pool candidate ∈ tripped) then repair_loop now tripped budget state rest
      else if Initialized (c_StateNode candidate) && (default 0 (budget !! candidate_pool candidate) =? 0)
      then repair_loop now tripped budget state rest
      else
        claim ← candidate_claim candidate;
        let candidate := with_drain_bound candidate (effectiveDrainBound claim (c_RepairPolicyResult candidate)) in
        if bool_decide (r_Action (c_RepairPolicyResult candidate) = RebootNode) then
          match commitReboot now claim candidate with
          | Err e => Some (Err (RepairApiError e))
          | Ok None => repair_loop now tripped budget state rest
          | Ok (Some nc) => Some (Ok (mkRepairOutcome [reboot_command candidate] state (Some nc)))
          end
        else if OwnedByStaticNodePool candidate then
          '(state, cmd) ← repair_static state candidate;
          match cmd with
          | Some cmd => Some (Ok (mkRepairOutcome [cmd] state None))
          | None => repair_loop now tripped budget state rest
          end
        else
          match simulateFallback candidate TerminateFirstRepair true with
          | Err CandidateDeleting => repair_loop now tripped budget state rest
          | Err e => Some (Err (RepairSimulation e))
          | Ok (sim, true) => Some (Ok (mkRepairOutcome [command_of candidate sim.1 [] TerminateFirstNoReservedCapacity] state None))
          | Ok (sim, false) =>
              if all_scheduled sim
              then Some (Ok (mkRepairOutcome [command_of candidate sim.1 (replacementsFromNodeClaims false (NewNodeClaims sim.1)) EmptyString] state None))
              else repair_loop now tripped budget state rest
          end
  end.

(** [nodes] is the list of Nodes the API server returns. *)
Definition Repair_ComputeCommands (now : Z) (nodes : result api_error (list Node)) (budget : gmap string Z) (state : NodePoolState)
    (candidates : list Candidate) : option (result repair_error repair_outcome) :=
  match nodes with
  | Err e => Some (Err (RepairApiError e))
  | Ok nodes =>
      tripped ← breakerTrippedPools policyMatcher nodes;
      repair_loop now tripped budget state (sort_by (repair_before now) candidates)
  end.
End repair.

(** ** A node is rebooted at most twice a day *)

Section reboot_runs.
  Context `{LR : LabelRegistry} `{SE : SchedulerEnv} `{IS : IntStrApi} {E : Type}.
  Context (policyMatcher : RepairPolicyMatcher) (Duration_String : Z → string)
          (SetTrueWithReason : Z → string → string → string → list Condition → list Condition).
  Context (enabled TerminateFirstRepair : bool) (nodePool_Hash : NodePool → string) (ToLower : string → string)
          (quantity_Value : Z → Z).

(** A candidate that [ShouldDisrupt] let through with the history [h], between the two times. *)
Definition admitted_by (h : RebootHistory) (t0 t1 : Z) (c : Candidate) : Prop :=
  ∃ before t, t0 ≤ t ≤ t1 ∧ Repair_ShouldDisrupt enabled h t before = Some (c, true).

(** Reading a candidate's NodeClaim again by its name finds the same object. *)
Definition same_claims (rapi : RebootApi) (candidates : list Candidate) : Prop :=
  ∀ c claim nc, c ∈ candidates → candidate_claim c = Some claim →
    get_claim rapi (claim_Name claim) = Ok nc → claim_UID nc = claim_UID claim.

(** The reboot that a pass commits. *)
Definition committed (now : Z) (outcome : repair_outcome (E := E)) : list (string * Z) :=
  match ro_rebooted outcome with Some nc => [(claim_UID nc, now)] | None => [] end.

(** The passes of one process, with the UIDs and the times of the reboots they commit: the candidates are filtered from [t0] on, their commands are computed at [t1]
    and the reboot is recorded at [t2], by the same history.  The answers of the API server
    and of the simulation, the Nodes, the budgets and the candidates are any at every pass. *)
Inductive reboots : RebootHistory → list (string * Z) → Prop :=
| reboots_none : reboots ∅ []
| reboots_pass h log t0 t1 t2 rapi simulateFallback GetInstanceTypes nodes budget state candidates outcome :
    reboots h log → (∀ uid t, (uid, t) ∈ log → t ≤ t0) → t1 ≤ t2 →
    Forall (admitted_by h t0 t1) candidates → same_claims rapi candidates →
    Repair_ComputeCommands (E := E) policyMatcher rapi Duration_String SetTrueWithReason simulateFallback TerminateFirstRepair
      GetInstanceTypes nodePool_Hash ToLower quantity_Value t1 nodes budget state candidates = Some (Ok outcome) →
    reboots (record_reboot h t2 outcome) (log ++ committed t2 outcome).

Definition reboots_of (uid : string) (log : list (string * Z)) : list Z := (filter (λ e, e.1 = uid) log).*2.

(** A candidate that leaves [ShouldDisrupt] as a reboot has a reboot left. *)
Lemma ShouldDisrupt_reboot h now before c claim :
  Repair_ShouldDisrupt enabled h now before = Some (c, true) → r_Action (c_RepairPolicyResult c) = RebootNode →
  candidate_claim c = Some claim → (length (recentReboots h (claim_UID claim) now) < rebootsBeforeReplacement)%nat.
Proof.
  unfold Repair_ShouldDisrupt. intros H Hact Hcl. destruct enabled; [cbn [negb] in H|done].
  destruct (st_Node _); [cbn [mbind option_bind] in H|done].
  destruct (candidate_claim before) as [cl|] eqn:Hb; [cbn [mbind option_bind] in H|done].
  destruct (GetRepairResult _ _) as [r|]; [cbn [mbind option_bind] in H|done].
  unfold History_Resolve in H. cbn [with_repair c_RepairPolicyResult] in H.
  case_bool_decide; [by cbn in H|]. destruct (bool_decide (r_Action r = RebootNode)) eqn:Hr; cbn [andb] in H.
  - destruct (Nat.leb_spec rebootsBeforeReplacement (length (recentReboots h (claim_UID cl) now))) as [|Hlt]; cbn [negb] in H.
    + repeat case_match; simplify_eq; by cbn in Hact.
    + assert (candidate_claim c = candidate_claim before) as Hsame by (repeat case_match; by simplify_eq).
      by rewrite Hsame, Hb in Hcl; simplify_eq.
  - apply bool_decide_eq_false in Hr. cbn [negb] in H. repeat case_match; simplify_eq; by cbn in Hact.
Qed.

(** A pass commits a reboot only of a candidate whose decision is a reboot. *)
Lemma repair_loop_rebooted rapi simulateFallback GetInstanceTypes now tripped budget state candidates outcome nc :
  repair_loop (E := E) rapi Duration_String SetTrueWithReason simulateFallback TerminateFirstRepair
    GetInstanceTypes nodePool_Hash ToLower quantity_Value now tripped budget state candidates = Some (Ok outcome) →
  ro_rebooted outcome = Some nc →
  ∃ c claim read, c ∈ candidates ∧ candidate_claim c = Some claim ∧ r_Action (c_RepairPolicyResult c) = RebootNode ∧
    get_claim rapi (claim_Name claim) = Ok read ∧ claim_UID nc = claim_UID read.
Proof.
  intros H Hnc. revert state H. induction candidates as [|c rest IH]; intros state H; cbn [repair_loop] in H; [by simplify_eq|].
  assert (∀ state, repair_loop (E := E) rapi Duration_String SetTrueWithReason simulateFallback TerminateFirstRepair
    GetInstanceTypes nodePool_Hash ToLower quantity_Value now tripped budget state rest = Some (Ok outcome) →
    ∃ c0 claim read, c0 ∈ c :: rest ∧ candidate_claim c0 = Some claim ∧ r_Action (c_RepairPolicyResult c0) = RebootNode ∧
      get_claim rapi (claim_Name claim) = Ok read ∧ claim_UID nc = claim_UID read) as IH'.
  { intros state' (c0 & claim & read & Hc & ?)%IH. exists c0, claim, read. split; [by right|done]. }
  clear IH. case_bool_decide; [by eapply IH'|]. case_match; [by eapply IH'|].
  destruct (candidate_claim c) as [claim|] eqn:Hcl; [cbn [mbind option_bind] in H|done].
  cbn [with_drain_bound c_RepairPolicyResult] in H. case_bool_decide as Hact.
  - destruct (commitReboot _ _ _ _ _ _) as [[nc'|]|] eqn:Hcommit; [|by eapply IH'|done].
    injection H as <-. injection Hnc as <-. unfold commitReboot in Hcommit.
    destruct (get_claim rapi (claim_Name claim)) as [read|] eqn:Hget; [|by repeat case_match].
    exists c, claim, read. split_and!; [by left|done..|]. repeat case_match; by simplify_eq.
  - case_match.
    + destruct (repair_static _ _ _ _ _ _ _) as [[state' [cmd|]]|]; [by simplify_eq/=|by eapply IH'|done].
    + repeat case_match; simplify_eq/=; by eapply IH'.
Qed.

(** A committed reboot was due to a NodeClaim with a reboot left when it was decided. *)
Lemma pass_reboots h t0 t1 rapi simulateFallback GetInstanceTypes nodes budget state candidates outcome nc :
  Forall (admitted_by h t0 t1) candidates → same_claims rapi candidates →
  Repair_ComputeCommands (E := E) policyMatcher rapi Duration_String SetTrueWithReason simulateFallback TerminateFirstRepair
    GetInstanceTypes nodePool_Hash ToLower quantity_Value t1 nodes budget state candidates = Some (Ok outcome) →
  ro_rebooted outcome = Some nc →
  ∃ t, t0 ≤ t ≤ t1 ∧ (length (recentReboots h (claim_UID nc) t) < rebootsBeforeReplacement)%nat.
Proof.
  intros Hadm Hsame H Hnc. unfold Repair_ComputeCommands in H. destruct nodes as [nodes|]; [|done].
  destruct (breakerTrippedPools _ _) as [tripped|]; [cbn [mbind option_bind] in H|done].
  destruct (repair_loop_rebooted _ _ _ _ _ _ _ _ _ _ H Hnc) as (c & claim & read & Hc & Hcl & Hact & Hget & Huid).
  rewrite sort_by_Permutation in Hc. rewrite Huid, (Hsame c claim read Hc Hcl Hget).
  destruct (proj1 (Forall_forall _ _) Hadm c Hc) as (before & t & Ht & Hd). exists t. split; [done|].
  by eapply ShouldDisrupt_reboot.
Qed.

Lemma recent_later h uid t t' : t ≤ t' → (length (recentReboots h uid t') ≤ length (recentReboots h uid t))%nat.
Proof.
  intros Ht. unfold recentReboots. induction (default [] (h !! uid)) as [|x l IH]; [done|].
  rewrite !filter_cons. repeat case_decide; cbn [length]; lia.
Qed.

Lemma reboots_step t2 uid log uid' :
  reboots_of uid' (log ++ [(uid, t2)]) = reboots_of uid' log ++ (if decide (uid = uid') then [t2] else []).
Proof. unfold reboots_of. rewrite filter_app, fmap_app. f_equal. rewrite filter_cons. cbn [fst]. by destruct (decide (uid = uid')). Qed.

(** Rule induction on what a pass adds to the history and to the log. *)
Lemma reboots_invariant (P : RebootHistory → list (string * Z) → Prop) :
  P ∅ [] →
  (∀ h log uid t, reboots h log → P h log → (∀ uid' t', (uid', t') ∈ log → t' ≤ t) →
     (length (recentReboots h uid t) < rebootsBeforeReplacement)%nat →
     P (RecordCommittedReboot h uid t) (log ++ [(uid, t)])) →
  ∀ h log, reboots h log → P h log.
Proof.
  intros H0 Hs h log H. induction H as [|h log t0 t1 t2 rapi sf gi nodes budget state cs outcome H IH Hle Ht Hadm Hsame Hcc]; [done|].
  unfold record_reboot, committed. destruct (ro_rebooted outcome) as [nc|] eqn:Hnc; [|by rewrite app_nil_r].
  destruct (pass_reboots _ _ _ _ _ _ _ _ _ _ _ _ Hadm Hsame Hcc Hnc) as (t & Htt & Hlt).
  apply Hs; [done|done| |].
  - intros uid' t' Hin. specialize (Hle uid' t' Hin). lia.
  - eapply Nat.le_lt_trans; [apply (recent_later _ _ t); lia|done].
Qed.

Lemma elem_of_reboots_of uid log t : t ∈ reboots_of uid log ↔ (uid, t) ∈ log.
Proof.
  unfold reboots_of. rewrite list_elem_of_fmap. split.
  - intros ([u t'] & -> & [Hu Hin]%list_elem_of_filter). by cbn in Hu |- *; subst.
  - intros Hin. exists (uid, t). split; [done|]. by apply list_elem_of_filter.
Qed.

(** The entry of a NodeClaim lists the reboots that are still recent. *)
Lemma reboots_recent h log : reboots h log → ∀ uid cutoff, (∀ t, t ∈ reboots_of uid log → t - rebootHistoryWindow ≤ cutoff) →
  filter (λ t, cutoff < t) (default [] (h !! uid)) = filter (λ t, cutoff < t) (reboots_of uid log).
Proof.
  apply (reboots_invariant (λ h log, ∀ uid cutoff, (∀ t, t ∈ reboots_of uid log → t - rebootHistoryWindow ≤ cutoff) →
    filter (λ t, cutoff < t) (default [] (h !! uid)) = filter (λ t, cutoff < t) (reboots_of uid log))); [by intros; rewrite lookup_empty|].
  clear h log. intros h log uid' now _ IH Hle Hlt uid cutoff. rewrite reboots_step. intros Hc. unfold RecordCommittedReboot.
  destruct (Nat.leb_spec rebootsBeforeReplacement (length (recentReboots h uid' now))); [lia|].
  destruct (decide (uid' = uid)) as [->|Hne]; [|rewrite app_nil_r in *; rewrite lookup_insert_ne by done; by apply IH].
  rewrite lookup_insert_eq. cbn [default from_option id]. rewrite !filter_app. f_equal.
  assert (now - rebootHistoryWindow ≤ cutoff) as Hnow by (apply Hc, elem_of_app; right; by left).
  rewrite <-(IH uid cutoff) by (intros t Ht; apply Hc, elem_of_app; by left).
  unfold recentReboots. rewrite list_filter_filter_l; [done|]. intros t Ht. lia.
Qed.

Lemma reboots_sorted h log : reboots h log → ∀ uid, StronglySorted Z.le (reboots_of uid log).
Proof.
  apply (reboots_invariant (λ _ log, ∀ uid, StronglySorted Z.le (reboots_of uid log))); [constructor|].
  clear h log. intros h log uid' now _ IH Hle _ uid. rewrite reboots_step. case_decide; [|by rewrite app_nil_r].
  apply StronglySorted_app_2; [|done|repeat constructor]. intros t t' Ht ->%list_elem_of_singleton.
  by eapply Hle, elem_of_reboots_of.
Qed.

(** The last two of a sorted list, when the first of them passes a threshold. *)
Lemma last_two_recent (l : list Z) i t1 cutoff :
  StronglySorted Z.le l → l !! i = Some t1 → length l = (i + 2)%nat → cutoff < t1 →
  (2 ≤ length (filter (λ t, (cutoff < t)%Z) l))%nat.
Proof.
  intros Hs H1 Hlen Hlt. destruct (lookup_lt_is_Some_2 l (S i)) as [t2 H2]; [lia|].
  assert (t1 ≤ t2) as H12.
  { rewrite <-(take_drop_middle l i t1) in Hs by done. apply StronglySorted_app_1_r in Hs. apply StronglySorted_inv in Hs as [_ Hall].
    apply (proj1 (Forall_forall _ _) Hall). rewrite (drop_S _ t2) by done. by left. }
  rewrite <-(take_drop i l), (drop_S _ t1), (drop_S _ t2) by done.
  rewrite filter_app, !filter_cons, !decide_True, length_app by lia. cbn [length]. lia.
Qed.

(** C30: however the passes of the repair method follow one another within the life of a
    process (its reboot history is in memory and starts empty), with any candidates, API
    answers, budgets and simulations: a reboot is committed only by a pass whose candidates
    went through [ShouldDisrupt] with the history of the moment, and of any three reboots
    committed for the same NodeClaim the first and the third are at least a day apart.  The
    clock does not go back between the passes, and reading a candidate's NodeClaim by name
    finds the object of that UID. *)
Theorem at_most_two_reboots_a_day h log uid i t1 t3 :
  reboots h log → reboots_of uid log !! i = Some t1 → reboots_of uid log !! (i + 2)%nat = Some t3 →
  rebootHistoryWindow ≤ t3 - t1.
Proof.
  intros H. revert uid i t1 t3. revert h log H.
  apply (reboots_invariant (λ _ log, ∀ uid i t1 t3, reboots_of uid log !! i = Some t1 →
    reboots_of uid log !! (i + 2)%nat = Some t3 → rebootHistoryWindow ≤ t3 - t1)); [done|].
  intros h log uid' now H IH Hle Hlt uid i t1 t3. rewrite reboots_step.
  case_decide as Hu; [subst uid'|by rewrite app_nil_r; apply IH]. set (l := reboots_of uid log) in *. intros H1 H3.
  destruct (decide (i + 2 < length l)%nat) as [Hin|Hout].
  { rewrite lookup_app_l in H1, H3 by lia. by eapply IH. }
  apply lookup_app_Some in H3 as [H3%lookup_lt_Some|[Hge H3]]; [lia|]. apply list_lookup_singleton_Some in H3 as [Hi <-].
  rewrite lookup_app_l in H1 by lia. destruct (decide (rebootHistoryWindow ≤ now - t1)) as [|Hn]; [done|exfalso].
  unfold recentReboots in Hlt. rewrite (reboots_recent h log H uid (now - rebootHistoryWindow)) in Hlt.
  - pose proof (last_two_recent l i t1 (now - rebootHistoryWindow) (reboots_sorted h log H uid) H1) as H2.
    unfold rebootsBeforeReplacement in Hlt. subst l. lia.
  - intros t Ht. apply elem_of_reboots_of in Ht. specialize (Hle _ _ Ht). lia.
Qed.

End reboot_runs.

(** ** The drain bound *)

(** A policy's bound never extends the NodeClaim's own, and a policy without one inherits it. *)
Lemma effectiveDrainBound_spec claim result :
  match r_TerminationGracePeriod result with
  | None => effectiveDrainBound claim result = None
  | Some policy => ∃ bound, effectiveDrainBound claim result = Some bound ∧ bound ≤ policy ∧
      (∀ tgp, claim_TerminationGracePeriod claim = Some tgp → bound = Z.min policy tgp)
  end.
Proof.
  unfold effectiveDrainBound. destruct (r_TerminationGracePeriod result) as [p|]; [|done].
  destruct (claim_TerminationGracePeriod claim) as [t|]; [|by exists p].
  destruct (Z.ltb_spec t p); eexists; (split_and!; [done|lia|intros ? [= <-]; lia]).
Qed.

(** ** The breaker *)

Section breaker_properties.
  Context `{IS : IntStrApi} `{IL : !IntStrLaws} (policyMatcher : RepairPolicyMatcher).

Definition repair_nodes (pool : string) (nodes : list Node) : list Node := filter (λ n, repair_pool n = pool) nodes.
Definition repair_unhealthy (pool : string) (nodes : list Node) : list Node :=
  filter (λ n, unhealthy policyMatcher n = true) (repair_nodes pool nodes).

Lemma repair_counts_spec nodes total bad pool : repair_counts policyMatcher nodes = (total, bad) → pool ≠ EmptyString →
  (total !! pool = if decide (repair_nodes pool nodes = []) then None else Some (Z.of_nat (length (repair_nodes pool nodes)))) ∧
  default 0 (bad !! pool) = Z.of_nat (length (repair_unhealthy pool nodes)).
Proof.
  intros E Hp. unfold repair_unhealthy, repair_nodes.
  assert (∀ l m b, foldl (λ '(total, bad) node, let nodePool := repair_pool node in
    if bool_decide (nodePool = EmptyString) then (total, bad)
    else (increment total nodePool, if unhealthy policyMatcher node then increment bad nodePool else bad)) (m, b) l = (total, bad) →
    (total !! pool = if decide (repair_nodes pool l = []) then m !! pool else Some (default 0 (m !! pool) + Z.of_nat (length (repair_nodes pool l)))) ∧
    default 0 (bad !! pool) = default 0 (b !! pool) + Z.of_nat (length (repair_unhealthy pool l))) as H.
  { unfold repair_unhealthy, repair_nodes. induction l as [|n l IH]; intros m b; cbn [foldl].
    - intros [= <- <-]. cbn. split; [done|lia].
    - rewrite !filter_cons. case_bool_decide as Hn.
      + rewrite (decide_False (P := repair_pool n = pool)) by congruence. apply IH.
      + intros [-> ->]%IH. destruct (decide (repair_pool n = pool)) as [He|Hne].
        * rewrite (decide_False (P := _ :: _ = [])) by done. rewrite filter_cons. split.
          -- unfold increment. rewrite He, lookup_insert_eq. cbn [default from_option id length].
             case_decide as Hnil; [rewrite Hnil; cbn; f_equal; lia|]. f_equal. lia.
          -- destruct (unhealthy policyMatcher n); [|by rewrite decide_False by done].
             rewrite increment_lookup, decide_True, decide_True by done. cbn [length]. lia.
        * split.
          -- unfold increment. by rewrite lookup_insert_ne by done.
          -- destruct (unhealthy policyMatcher n); [|done]. rewrite increment_lookup, decide_False by done. lia. }
  apply H in E as [-> ->]. rewrite !lookup_empty. cbn [default from_option id]. by rewrite !Z.add_0_l.
Qed.

Lemma repair_counts_nonneg nodes total bad k z : repair_counts policyMatcher nodes = (total, bad) → total !! k = Some z → 0 ≤ z.
Proof.
  unfold repair_counts. assert (∀ m b, (∀ k z, m !! k = Some z → 0 ≤ z) → foldl (λ '(total, bad) node, let nodePool := repair_pool node in
    if bool_decide (nodePool = EmptyString) then (total, bad)
    else (increment total nodePool, if unhealthy policyMatcher node then increment bad nodePool else bad)) (m, b) nodes = (total, bad) →
    total !! k = Some z → 0 ≤ z) as H; [|apply H; intros ? ?; by rewrite lookup_empty].
  induction nodes as [|n nodes IH]; intros m b Hm; cbn [foldl]; [intros [= <- _]; apply Hm|].
  case_bool_decide; [by apply IH|]. apply IH. intros k' z'. unfold increment. rewrite lookup_insert_Some.
  intros [[_ <-]|[_ ?]]; [|by eapply Hm]. destruct (m !! repair_pool n) eqn:Em; cbn; [apply Hm in Em|]; lia.
Qed.

(** Repair leaves a NodePool alone exactly when more than a fifth of its nodes, rounded up,
    have a condition that matches a policy: so a single unhealthy node never trips it. *)
Theorem breaker_spec nodes : ∃ tripped, breakerTrippedPools policyMatcher nodes = Some tripped ∧
  ∀ pool, pool ≠ EmptyString →
    (pool ∈ tripped ↔
     (20 * Z.of_nat (length (repair_nodes pool nodes)) + 99) / 100 < Z.of_nat (length (repair_unhealthy pool nodes))).
Proof.
  unfold breakerTrippedPools. destruct (repair_counts policyMatcher nodes) as [total bad] eqn:E.
  assert (∀ l (acc : gset string), (∀ k z, (k, z) ∈ l → 0 ≤ z) → ∃ tripped, foldl_opt (λ tripped '(nodePool, count),
      threshold ← GetScaledValueFromIntOrPercent (StrVal repairUnhealthyThreshold) count true;
      Some (if threshold <? default 0 (bad !! nodePool) then {[nodePool]} ∪ tripped else tripped)) acc l = Some tripped ∧
      ∀ pool, pool ∈ tripped ↔ pool ∈ acc ∨ ∃ count, (pool, count) ∈ l ∧ (20 * count + 99) / 100 < default 0 (bad !! pool)) as Hloop.
  { induction l as [|[k z] l IH]; intros acc Hpos; cbn [foldl_opt].
    - exists acc. split; [done|]. intros pool. split; [by left|]. by intros [?|(? & ?%not_elem_of_nil & _)].
    - change repairUnhealthyThreshold with (FormatInt 20 +:+ "%"). rewrite scaled_percent by (done || (eapply Hpos; by left)).
      cbn [mbind option_bind]. destruct (IH (if (20 * z + 99) / 100 <? default 0 (bad !! k) then {[k]} ∪ acc else acc)) as (tripped & Ht & Hs).
      { intros k' z' Hin. eapply Hpos. by right. }
      exists tripped. split; [exact Ht|]. intros pool. rewrite Hs. clear Ht Hs IH. setoid_rewrite elem_of_cons.
      destruct (Z.ltb_spec ((20 * z + 99) / 100) (default 0 (bad !! k))) as [Hlt|Hge].
      + rewrite elem_of_union, elem_of_singleton. split.
        * intros [[->|?]|(count & ? & ?)]; [right; exists z; split; [by left|done]|by left|right; exists count; split; [by right|done]].
        * intros [?|(count & [[= -> ->]|?] & ?)]; [by left; right|by left; left|right; by exists count].
      + split; [intros [?|(count & ? & ?)]; [by left|right; exists count; split; [by right|done]]|].
        intros [?|(count & [[= -> ->]|?] & ?)]; [by left|lia|right; by exists count]. }
  destruct (Hloop (map_to_list total) ∅) as (tripped & Ht & Hs).
  { intros k z Hin%elem_of_map_to_list. by eapply repair_counts_nonneg. }
  exists tripped. split; [done|]. intros pool Hp. rewrite Hs. setoid_rewrite elem_of_map_to_list.
  destruct (repair_counts_spec nodes total bad pool E Hp) as [-> ->]. split.
  - intros [?%not_elem_of_empty|(count & Hc & Hlt)]; [done|]. case_decide; [done|]. by injection Hc as <-.
  - intros Hlt. right. case_decide as Hnil; [|by eexists].
    unfold repair_unhealthy in Hlt. rewrite Hnil in Hlt. done.
Qed.
End breaker_properties.

(** ** One repair at a time *)

Section repair_properties.
  Context `{LR : LabelRegistry} `{SE : SchedulerEnv} `{IS : IntStrApi} {E : Type}.
  Context (policyMatcher : RepairPolicyMatcher) (rapi : RebootApi).
  Context (Duration_String : Z → string)
          (SetTrueWithReason : Z → string → string → string → list Condition → list Condition).
  Context (simulateFallback : Candidate → bool → bool → result sim_error (Results E * list Pod * bool)).
  Context (TerminateFirstRepair : bool) (GetInstanceTypes : NodePool → option (list InstanceType)).
  Context (nodePool_Hash : NodePool → string) (ToLower : string → string) (quantity_Value : Z → Z).

Abbreviation loop := (repair_loop rapi Duration_String SetTrueWithReason simulateFallback TerminateFirstRepair
  GetInstanceTypes nodePool_Hash ToLower quantity_Value).
Abbreviation commands := (Repair_ComputeCommands policyMatcher rapi Duration_String SetTrueWithReason simulateFallback
  TerminateFirstRepair GetInstanceTypes nodePool_Hash ToLower quantity_Value).

(** A command that repairs [c]: it carries the drain bound, a reboot is committed, and a
    node of a dynamic NodePool goes only when its pods have a place or its reservation
    has to be freed. *)
Definition repairs (tripped : gset string) (budget : gmap string Z) (c : Candidate) (cmd : Command E)
    (rebooted : option v1NodeClaim) : Prop :=
  (candidate_pool c ∉ tripped) ∧ (Initialized (c_StateNode c) = true → default 0 (budget !! candidate_pool c) ≠ 0) ∧
  ∃ claim, candidate_claim c = Some claim ∧
    let c' := with_drain_bound c (effectiveDrainBound claim (c_RepairPolicyResult c)) in
    cmd_Candidates cmd = [c'] ∧
    (r_Action (c_RepairPolicyResult c) = RebootNode → is_Some rebooted ∧ Command_Decision cmd = RebootDecision) ∧
    (r_Action (c_RepairPolicyResult c) ≠ RebootNode → OwnedByStaticNodePool c = false →
       ∃ sim terminateFirst, simulateFallback c' TerminateFirstRepair true = Ok (sim, terminateFirst) ∧
         (terminateFirst = true ∨ all_scheduled sim = true)).

Lemma repair_loop_spec now tripped budget state cs out :
  loop now tripped budget state cs = Some (Ok out) →
  ro_commands out = [] ∨
  ∃ c cmd, c ∈ cs ∧ ro_commands out = [cmd] ∧ repairs tripped budget c cmd (ro_rebooted out).
Proof.
  revert state. induction cs as [|c cs IH]; intros state; cbn [repair_loop]; [intros [= <-]; by left|].
  assert (∀ state', loop now tripped budget state' cs = Some (Ok out) → ro_commands out = [] ∨
    ∃ c' cmd, c' ∈ c :: cs ∧ ro_commands out = [cmd] ∧ repairs tripped budget c' cmd (ro_rebooted out)) as Hskip.
  { intros state' [?|(c' & cmd & ? & ?)]%IH; [by left|right; exists c', cmd; split; [by right|done]]. }
  case_bool_decide as Ht; [apply Hskip|].
  destruct (Initialized (c_StateNode c) && _) eqn:Eb; [apply Hskip|].
  assert (Initialized (c_StateNode c) = true → default 0 (budget !! candidate_pool c) ≠ 0) as Hbud.
  { intros Hi. rewrite Hi in Eb. by apply Z.eqb_neq in Eb. }
  destruct (candidate_claim c) as [claim|] eqn:Ec; [|done]. cbn [mbind option_bind].
  set (c' := with_drain_bound c _). change (c_RepairPolicyResult c') with (c_RepairPolicyResult c).
  case_bool_decide as Ha.
  - destruct (commitReboot _ _ _ _ _ _) as [[nc|]|]; [|apply Hskip|done]. intros [= <-]. right. exists c, (reboot_command c').
    split_and!; [by left|done|]. split_and!; [done..|]. exists claim. cbv zeta. repeat split; [done|by eexists|done].
  - change (OwnedByStaticNodePool c') with (OwnedByStaticNodePool c). destruct (OwnedByStaticNodePool c) eqn:Eo.
    + destruct (repair_static _ _ _ _ _ state c') as [[state' [cmd|]]|] eqn:Er; [|apply Hskip|done]. intros [= <-]. right.
      exists c, cmd. split_and!; [by left|done|]. split_and!; [done..|]. exists claim. cbv zeta.
      split_and!; [done| |done|congruence].
      revert Er. unfold repair_static. destruct (GetNodeCount _ _) as [[? ?] ?]. destruct (_ <? _); [done|].
      destruct (NewNodeClaimTemplate _ _ _) as [[nct meta]|]; [|done]. cbn [mbind option_bind].
      destruct (if TerminateFirstRepair then _ else _) as [[full offered]|]; [|done]. destruct (full && _); [done|].
      destruct (if full then _ else _) as [st granted]. destruct (granted =? 0); [destruct (_ && refillable _)|]; by intros [= <- <-].
    + destruct (simulateFallback c' TerminateFirstRepair true) as [[sim []]|err] eqn:Es.
      * intros [= <-]. right. eexists c, _. split_and!; [by left|done|]. split_and!; [done..|]. exists claim. cbv zeta.
        split_and!; [done..|]. intros _ _. exists sim, true. split; [done|by left].
      * destruct (all_scheduled sim) eqn:Ea; [|apply Hskip]. intros [= <-]. right. eexists c, _. split_and!; [by left|done|].
        split_and!; [done..|]. exists claim. cbv zeta.
        split_and!; [done..|]. intros _ _. exists sim, false. split; [done|by right].
      * destruct err; try done. apply Hskip.
Qed.

(** A repair pass disrupts at most one node, of a NodePool whose breaker has not tripped
    and that has budget left unless the node is not initialized. *)
Theorem repair_one_at_a_time now nodes budget state candidates out tripped :
  commands now (Ok nodes) budget state candidates = Some (Ok out) → breakerTrippedPools policyMatcher nodes = Some tripped →
  ro_commands out = [] ∨
  ∃ c cmd, c ∈ candidates ∧ ro_commands out = [cmd] ∧ repairs tripped budget c cmd (ro_rebooted out).
Proof.
  unfold Repair_ComputeCommands. intros H Ht. rewrite Ht in H. cbn [mbind option_bind] in H.
  apply repair_loop_spec in H as [?|(c & cmd & Hc & H)]; [by left|right]. exists c, cmd.
  by rewrite sort_by_Permutation in Hc.
Qed.
End repair_properties.
