(* ===== verification/DisruptionQueue.v ===== *)
(** * DisruptionQueue: carrying out disruption commands
    (pkg/controllers/disruption/queue.go, the taint and condition helpers of
    pkg/controllers/state/statenode.go, [TightenTerminationTimestampAnnotation] of
    pkg/utils/nodeclaim/nodeclaim.go)

    A command is started by tainting its candidates and launching their replacements; its
    candidates are deleted once the replacements are initialized, or it fails.  Commands are
    shared through pointers, so they live in a store and the queue maps provider ids to
    addresses.  Every call of an operation sees one [KubeApi]: what the API server answers
    while it runs, where a call that is retried stands for its last attempt.  The writes
    that are sent are collected in order.  [None] is a run-time panic. *)

From S2P Require Import Prelude Float64 Labels Requirement Objects RepairPolicy Requirements Resources.
From S2P Require Import Taints Volumes InstanceTypes PodState DisruptionCost Topology NodeClaims Templates.
From S2P Require Import ExistingNodes Evictions NodePoolState StateNodes Cluster ClusterInv Solver Candidates.
From S2P Require Import Simulation Provisioner Repair.

#[local] Open Scope Z_scope.

Definition second : Z := 1000000000.
Definition queueBaseDelay : Z := second.
Definition minRetryDuration : Z := 600 * second.
Definition maxRetryDuration : Z := 3600 * second.
Definition retryDurationScale : Z := 80000000.

(** ** What is asked of the API server *)

Inductive kube_write :=
| PatchTaints (node : string) (taints : list Taint)
| PatchStatus (claim : string) (conditions : list Condition)
| PatchDeadline (claim : string) (deadline : string)
| DeleteClaim (claim : string).

Record KubeApi := mkKubeApi {
  kube_node : string → result api_error Node;
  kube_claim : string → result api_error v1NodeClaim;
  kube_serve : kube_write → option api_error;
}.

(** The condition sets of operatorpkg, and times as RFC3339. *)
Record ConditionApi := mkConditionApi {
  SetTrueWithReason : Z → string → string → string → list Condition → list Condition;
  ClearCondition : Z → string → list Condition → list Condition;
  ParseTime : string → option Z;
  FormatTime : Z → string;
}.

Definition IgnoreNotFound (e : option api_error) : option api_error :=
  match e with Some NotFound => None | e => e end.

(** [multierr.Combine]: whether there is an error. *)
Definition any_error (errs : list (option api_error)) : bool := existsb (λ e, bool_decide (is_Some e)) errs.

Section node_writes.
  Context `{TA : TaintApi} (capi : ConditionApi) (kube : KubeApi).

Definition require_one (addTaint : bool) (n : StateNode) : list kube_write * option api_error :=
  match st_Node n, st_NodeClaim n with
  | Some node, Some _ =>
      match kube_node kube (node_Name node) with
      | Err e => ([], IgnoreNotFound (Some e))
      | Ok node =>
          let '(taints, changed) := require_taint addTaint node in
          if changed : bool
          then let w := PatchTaints (node_Name node) taints in ([w], IgnoreNotFound (kube_serve kube w))
          else ([], None)
      end
  | _, _ => ([], None)
  end.

Definition RequireNoScheduleTaint (addTaint : bool) (nodes : list StateNode) : list kube_write * bool :=
  let rs := require_one addTaint <$> nodes in (mjoin rs.*1, any_error rs.*2).

Definition clear_one (now : Z) (conditionType : string) (n : StateNode) : list kube_write * option api_error :=
  match st_NodeClaim n with
  | None => ([], None)
  | Some claim =>
      if negb (Initialized n) then ([], None)
      else match kube_claim kube (claim_Name claim) with
           | Err e => ([], IgnoreNotFound (Some e))
           | Ok stored =>
               let conditions := ClearCondition capi now conditionType (claim_Conditions stored) in
               if bool_decide (conditions = claim_Conditions stored) then ([], None)
               else let w := PatchStatus (claim_Name stored) conditions in ([w], IgnoreNotFound (kube_serve kube w))
           end
  end.

Definition ClearNodeClaimsCondition (now : Z) (conditionType : string) (nodes : list StateNode) : list kube_write * bool :=
  let rs := clear_one now conditionType <$> nodes in (mjoin rs.*1, any_error rs.*2).

Definition NodeClaimTerminationTimestampAnnotationKey : string := Group +:+ "/nodeclaim-termination-timestamp".

(** The value to write, [None] when the deadline in place is not later. *)
Definition tightened_deadline (nodeClaim : v1NodeClaim) (terminationTime : Z) : option string :=
  match claim_Annotations nodeClaim !! NodeClaimTerminationTimestampAnnotationKey ≫= ParseTime capi with
  | Some existing => if terminationTime <? existing then Some (FormatTime capi terminationTime) else None
  | None => Some (FormatTime capi terminationTime)
  end.

Definition with_annotation (nc : v1NodeClaim) (k v : string) : v1NodeClaim :=
  mkv1NodeClaim (claim_Name nc) (claim_UID nc) (claim_Labels nc) (<[k := v]> (claim_Annotations nc)) (claim_CreationTimestamp nc)
    (claim_DeletionTimestamp nc) (claim_Taints nc) (claim_StartupTaints nc) (claim_TerminationGracePeriod nc) (claim_ExpireAfter nc)
    (claim_ProviderID nc) (claim_NodeName nc) (claim_Capacity nc) (claim_Allocatable nc) (claim_Conditions nc)
    (claim_LastPodEventTime nc).

(** The patched claim, or the error. *)
Definition TightenTerminationTimestampAnnotation (nodeClaim : v1NodeClaim) (terminationTime : Z)
    : list kube_write * result api_error v1NodeClaim :=
  match tightened_deadline nodeClaim terminationTime with
  | None => ([], Ok nodeClaim)
  | Some value =>
      let w := PatchDeadline (claim_Name nodeClaim) value in
      ([w], match kube_serve kube w with
            | Some e => Err e
            | None => Ok (with_annotation nodeClaim NodeClaimTerminationTimestampAnnotationKey value)
            end)
  end.
End node_writes.

(** ** The queue *)

Record QueuedCommand (E : Type) := mkQueued {
  qc_Command : Command E;
  qc_Method : Method;
  qc_CreationTimestamp : Z;
  qc_Succeeded : bool;
}.
Arguments mkQueued {E} _ _ _ _.
Arguments qc_Command {E} _.
Arguments qc_Method {E} _.
Arguments qc_CreationTimestamp {E} _.
Arguments qc_Succeeded {E} _.

Record Queue (E : Type) := mkDisruptionQueue {
  ProviderIDToCommand : gmap string nat;
  q_commands : gmap nat (QueuedCommand E);
  q_source : list string;
}.
Arguments mkDisruptionQueue {E} _ _ _.
Arguments ProviderIDToCommand {E} _.
Arguments q_commands {E} _.
Arguments q_source {E} _.

Section commands.
  Context {E : Type}.

Definition NewDisruptionQueue : Queue E := mkDisruptionQueue ∅ ∅ [].

Definition GetMaxRetryDuration (q : Queue E) : Z :=
  let retryDuration := retryDurationScale * Z.of_nat (size (ProviderIDToCommand q)) in
  if retryDuration <? minRetryDuration then minRetryDuration
  else if maxRetryDuration <? retryDuration then maxRetryDuration
  else retryDuration.

Definition HasAny (q : Queue E) (ids : list string) : bool :=
  existsb (λ id, bool_decide (is_Some (ProviderIDToCommand q !! id))) ids.

Definition Queue_IsEmpty (q : Queue E) : bool := bool_decide (ProviderIDToCommand q = ∅).

Definition command_ids (cmd : Command E) : list string := candidate_ProviderID <$> cmd_Candidates cmd.

Definition with_candidates (cmd : Command E) (cs : list Candidate) : Command E :=
  mkCommand (cmd_Results cmd) cs (cmd_Replacements cmd) (cmd_PoolDisruptionCosts cmd) (cmd_TerminateFirstReason cmd) (cmd_Reboot cmd).
Definition with_replacements (cmd : Command E) (rs : list Replacement) : Command E :=
  mkCommand (cmd_Results cmd) (cmd_Candidates cmd) rs (cmd_PoolDisruptionCosts cmd) (cmd_TerminateFirstReason cmd) (cmd_Reboot cmd).
Definition update_command (qc : QueuedCommand E) (cmd : Command E) (succeeded : bool) : QueuedCommand E :=
  mkQueued cmd (qc_Method qc) (qc_CreationTimestamp qc) succeeded.

(** The queue, the cluster state and the writes so far. *)
Record QueueState := mkQueueState {
  qs_queue : Queue E;
  qs_cluster : Cluster;
  qs_writes : list kube_write;
}.

Definition with_cluster (s : QueueState) (c : Cluster) : QueueState := mkQueueState (qs_queue s) c (qs_writes s).
Definition add_writes (s : QueueState) (ws : list kube_write) : QueueState :=
  mkQueueState (qs_queue s) (qs_cluster s) (qs_writes s ++ ws).
Definition with_queue (s : QueueState) (q : Queue E) : QueueState := mkQueueState q (qs_cluster s) (qs_writes s).
End commands.
Arguments QueueState E : clear implicits.

(** ** Starting a command *)

(** What the queue needs of the provisioner: [CreateNodeClaims] on the claims of the
    replacements, [None] for a panic. *)
Class Launcher := launch_replacements : Z → Cluster → list Replacement → option (Cluster * list string * list create_error).

Inductive start_error :=
| AlreadyDisrupting
| MarkingFailed
| LaunchingFailed (errs : list create_error)
| CountMismatch.

(** The number of replacements of static pools, by pool. *)
Definition static_counts (rs : list Replacement) : gmap string Z :=
  foldl (λ m r, if rp_IsStaticNodeClaim r
                then let pool := NodePoolName (rp_NodeClaim r) in <[pool := default 0 (m !! pool) + 1]> m
                else m) ∅ rs.

Definition release_static (n : NodePoolState) (rs : list Replacement) : NodePoolState :=
  map_fold (λ pool count n, ReleaseNodeCount n pool count) n (static_counts rs).

Definition set_replacement_name (r : Replacement) (name : string) : Replacement :=
  mkReplacement (rp_NodeClaim r) (rp_IsStaticNodeClaim r) name (rp_Initialized r).

Section start.
  Context `{TA : TaintApi} (capi : ConditionApi) (kube : KubeApi) `{LA : Launcher} {E : Type}.
  Context (BatchMaxDuration : Z).

(** One worker of [markDisrupted]: whether it failed. *)
Definition mark_candidate (now : Z) (reason : string) (c : Candidate) : option (list kube_write * bool) :=
  let '(ws, failed) := RequireNoScheduleTaint kube true [c_StateNode c] in
  if failed : bool then Some (ws, true)
  else match st_NodeClaim (c_StateNode c) with
       | None => None
       | Some claim =>
           match kube_claim kube (claim_Name claim) with
           | Err e => Some (ws, bool_decide (is_Some (IgnoreNotFound (Some e))))
           | Ok nodeClaim =>
               let w := PatchStatus (claim_Name nodeClaim)
                          (SetTrueWithReason capi now ConditionTypeDisruptionReason reason reason (claim_Conditions nodeClaim)) in
               Some (ws ++ [w], bool_decide (is_Some (IgnoreNotFound (kube_serve kube w))))
           end
       end.

Definition claim_name_of (c : Candidate) : string :=
  match st_NodeClaim (c_StateNode c) with Some nc => claim_Name nc | None => EmptyString end.

Definition mark_pending (c : Cluster) (cand : Candidate) : Cluster :=
  if OwnedByStaticNodePool cand
  then set_nodePoolState c (MarkNodeClaimPendingDisruption (nodePoolState c) (candidate_pool cand) (claim_name_of cand))
  else c.

(** The candidates that were marked, and whether any was not. *)
Definition markDisrupted (now : Z) (reason : string) (c : Cluster) (cands : list Candidate)
    : option (Cluster * list kube_write * list Candidate * bool) :=
  match mapM (mark_candidate now reason) cands with
  | None => None
  | Some results =>
      let marked := (zip cands results.*2) ≫= λ '(cand, failed), if failed : bool then [] else [cand] in
      Some (foldl mark_pending c marked, mjoin results.*1, marked, existsb id results.*2)
  end.

(** The replacements under the names they were created with. *)
Definition createReplacementNodeClaims (now : Z) (c : Cluster) (rs : list Replacement)
    : option (Cluster * result start_error (list Replacement)) :=
  match launch_replacements now c rs with
  | None => None
  | Some (c, names, errs) =>
      Some (c, match errs with
               | _ :: _ => Err (LaunchingFailed errs)
               | [] => if negb (bool_decide (length names = length rs)) then Err CountMismatch
                       else Ok (zip_with set_replacement_name rs names)
               end)
  end.

Definition enqueue (q : Queue E) (qc : QueuedCommand E) : option (Queue E) :=
  match cmd_Candidates (qc_Command qc) with
  | [] => None
  | first :: _ =>
      let a := fresh (dom (q_commands q)) in
      Some (mkDisruptionQueue (foldl (λ m id, <[id := a]> m) (ProviderIDToCommand q) (command_ids (qc_Command qc)))
              (<[a := qc]> (q_commands q)) (q_source q ++ [claim_name_of first]))
  end.

(** The deferred release of the reservations, while they are still the queue's. *)
Definition release_reservations (s : QueueState E) (rs : list Replacement) : QueueState E :=
  with_cluster s (set_nodePoolState (qs_cluster s) (release_static (nodePoolState (qs_cluster s)) rs)).

(** The handler of a command once its candidates are marked. *)
Definition launch_and_enqueue (now : Z) (nodes : list StateNode) (s : QueueState E) (qc : QueuedCommand E)
    : option (QueueState E * option start_error) :=
  let cmd := qc_Command qc in
  match createReplacementNodeClaims now (qs_cluster s) (cmd_Replacements cmd) with
  | None => None
  | Some (c, Err e) => Some (with_cluster s c, Some e)
  | Some (c, Ok rs) =>
      match MarkForDeletion c (command_ids cmd) with
      | None => None
      | Some c =>
          let c := Results_Record BatchMaxDuration now nodes (cmd_Results cmd) c in
          match enqueue (qs_queue s) (update_command qc (with_replacements cmd rs) (qc_Succeeded qc)) with
          | None => None
          | Some q => Some (with_queue (with_cluster s c) q, None)
          end
      end
  end.

(** What follows the check that no candidate is in the queue.  The check holds the read lock
    and the insertion at the end the write lock, with the API calls between them. *)
Definition StartCommand_checked (now : Z) (nodes : list StateNode) (s : QueueState E) (qc : QueuedCommand E)
    : option (QueueState E * option start_error) :=
  let cmd := qc_Command qc in
  if bool_decide (Command_Decision cmd = RebootDecision)
  then Some (release_reservations s (cmd_Replacements cmd), None)
  else match markDisrupted now (Method_Reason (qc_Method qc)) (qs_cluster s) (cmd_Candidates cmd) with
       | None => None
       | Some (c, ws, marked, failed) =>
           let s := add_writes (with_cluster s c) ws in
           if failed && (negb (bool_decide (cmd_Replacements cmd = [])) || bool_decide (marked = []))
           then Some (release_reservations s (cmd_Replacements cmd), Some MarkingFailed)
           else launch_and_enqueue now nodes s (update_command qc (with_candidates cmd marked) (qc_Succeeded qc))
       end.

(** A start that no other one runs beside. *)
Definition StartCommand (now : Z) (nodes : list StateNode) (s : QueueState E) (qc : QueuedCommand E)
    : option (QueueState E * option start_error) :=
  if HasAny (qs_queue s) (command_ids (qc_Command qc))
  then Some (release_reservations s (cmd_Replacements (qc_Command qc)), Some AlreadyDisrupting)
  else StartCommand_checked now nodes s qc.
End start.

(** ** Waiting and terminating *)

Inductive wait_result := ReplacementDeleted | StillWaiting | AllInitialized.
Inductive wait_error := Recoverable | Unrecoverable.

#[export] Instance wait_result_eq_dec : EqDecision wait_result.
Proof. solve_decision. Defined.
#[export] Instance wait_error_eq_dec : EqDecision wait_error.
Proof. solve_decision. Defined.

Definition set_Initialized (r : Replacement) : Replacement :=
  mkReplacement (rp_NodeClaim r) (rp_IsStaticNodeClaim r) (rp_Name r) true.

(** A replacement that is not ready: the loop goes on, and only ends early for one that is gone. *)
Definition still_waiting (w : wait_result) : wait_result :=
  match w with ReplacementDeleted => ReplacementDeleted | _ => StillWaiting end.

(** The state node of a candidate after its claim was read again. *)
Definition with_claim (c : Candidate) (nc : v1NodeClaim) : Candidate :=
  let n := c_StateNode c in
  mkCandidate
    (mkStateNode (st_Node n) (Some nc) (daemonSetRequests n) (daemonSetLimits n) (podRequests n) (podLimits n)
       (podDisruptionCosts n) (hostPortUsage n) (volumeUsage n) (markedForDeletion n) (nominatedUntil n) (repairPolicyMatches n))
    (c_instanceType c) (c_NodePool c) (c_zone c) (c_capacityType c) (c_DisruptionCost c) (c_reschedulablePods c)
    (c_hasPodBlockers c) (c_Price c) (c_RescheduleDisruptionCost c) (c_TerminationGracePeriod c) (c_RepairPolicyResult c)
    (c_RebootEscalated c).

Section reconcile.
  Context `{TA : TaintApi} (capi : ConditionApi) (kube : KubeApi) {E : Type}.

Fixpoint check_replacements (c : Cluster) (rs : list Replacement) : list Replacement * wait_result :=
  match rs with
  | [] => ([], AllInitialized)
  | r :: rs' =>
      if rp_Initialized r then let '(rest, w) := check_replacements c rs' in (r :: rest, w)
      else match kube_claim kube (rp_Name r) with
           | Err e =>
               if bool_decide (e = NotFound) && negb (NodeClaimExists c (rp_Name r)) then (r :: rs', ReplacementDeleted)
               else let '(rest, w) := check_replacements c rs' in (r :: rest, still_waiting w)
           | Ok nodeClaim =>
               if condition_true ConditionTypeInitialized (claim_Conditions nodeClaim)
               then let '(rest, w) := check_replacements c rs' in (set_Initialized r :: rest, w)
               else let '(rest, w) := check_replacements c rs' in (r :: rest, still_waiting w)
           end
  end.

(** The drain bound of a candidate becomes a deadline: the candidate afterwards, or the error. *)
Definition stamp_deadline (now : Z) (cand : Candidate) (claim : v1NodeClaim) : list kube_write * result api_error Candidate :=
  match c_TerminationGracePeriod cand with
  | None => ([], Ok cand)
  | Some tgp =>
      match kube_claim kube (claim_Name claim) with
      | Err e => ([], match IgnoreNotFound (Some e) with Some e => Err e | None => Ok cand end)
      | Ok stored =>
          let '(ws, r) := TightenTerminationTimestampAnnotation capi kube stored (now + tgp) in
          (ws, match r with Ok stored => Ok (with_claim cand stored) | Err e => Err e end)
      end
  end.

(** One worker of the termination: whether it failed. *)
Definition terminate_candidate (now : Z) (cand : Candidate) : option (Candidate * list kube_write * bool) :=
  match st_NodeClaim (c_StateNode cand) with
  | None => None
  | Some claim =>
      let '(ws, r) := stamp_deadline now cand claim in
      match r with
      | Err _ => Some (cand, ws, true)
      | Ok cand =>
          let w := DeleteClaim (claim_name_of cand) in
          Some (cand, ws ++ [w], bool_decide (is_Some (IgnoreNotFound (kube_serve kube w))))
      end
  end.

(** [waitOrTerminate] without its deferred check. *)
Definition wait_or_terminate (now : Z) (c : Cluster) (cmd : Command E) : option (Command E * list kube_write * option wait_error) :=
  let '(rs, w) := check_replacements c (cmd_Replacements cmd) in
  let cmd := with_replacements cmd rs in
  match w with
  | ReplacementDeleted => Some (cmd, [], Some Unrecoverable)
  | StillWaiting => Some (cmd, [], Some Recoverable)
  | AllInitialized =>
      match mapM (terminate_candidate now) (cmd_Candidates cmd) with
      | None => None
      | Some results =>
          Some (with_candidates cmd results.*1.*1, mjoin results.*1.*2,
                if existsb id results.*2 then Some Recoverable else None)
      end
  end.

(** [later] is the time when it returns. *)
Definition waitOrTerminate (now later : Z) (s : QueueState E) (qc : QueuedCommand E)
    : option (Command E * list kube_write * option wait_error) :=
  let retryDuration := GetMaxRetryDuration (qs_queue s) in
  match wait_or_terminate now (qs_cluster s) (qc_Command qc) with
  | None => None
  | Some (cmd, ws, err) =>
      Some (cmd, ws, if retryDuration <? later - qc_CreationTimestamp qc then Some Unrecoverable else err)
  end.

Definition set_queued (q : Queue E) (a : nat) (qc : QueuedCommand E) : Queue E :=
  mkDisruptionQueue (ProviderIDToCommand q) (<[a := qc]> (q_commands q)) (q_source q).

Definition CompleteCommand (s : QueueState E) (qc : QueuedCommand E) : option (QueueState E) :=
  let ids := command_ids (qc_Command qc) in
  match (if qc_Succeeded qc then Some (qs_cluster s) else UnmarkForDeletion (qs_cluster s) ids) with
  | None => None
  | Some c =>
      let q := qs_queue s in
      Some (mkQueueState (mkDisruptionQueue (foldl (λ m id, delete id m) (ProviderIDToCommand q) ids) (q_commands q) (q_source q))
              c (qs_writes s))
  end.

Definition candidate_nodes (cmd : Command E) : list StateNode := c_StateNode <$> cmd_Candidates cmd.

(** The requests a failed command ends with. *)
Definition give_up_writes (now : Z) (cmd : Command E) : list kube_write :=
  (RequireNoScheduleTaint kube false (candidate_nodes cmd)).1 ++
  (ClearNodeClaimsCondition capi kube now ConditionTypeDisruptionReason (candidate_nodes cmd)).1.

(** The delay after which the claim is reconciled again, if it is. *)
Definition Queue_Reconcile (now later : Z) (s : QueueState E) (nodeClaim : v1NodeClaim) : option (QueueState E * option Z) :=
  match ProviderIDToCommand (qs_queue s) !! claim_ProviderID nodeClaim with
  | None => Some (s, None)
  | Some a =>
      match q_commands (qs_queue s) !! a with
      | None => None
      | Some qc =>
          match waitOrTerminate now later s qc with
          | None => None
          | Some (cmd, ws, err) =>
              let store s succeeded := with_queue s (set_queued (qs_queue s) a (update_command qc cmd succeeded)) in
              let s := add_writes s ws in
              match err with
              | Some Recoverable => Some (store s (qc_Succeeded qc), Some queueBaseDelay)
              | Some Unrecoverable =>
                  let s := store (add_writes s (give_up_writes later cmd)) (qc_Succeeded qc) in
                  match CompleteCommand s (update_command qc cmd (qc_Succeeded qc)) with
                  | None => None
                  | Some s => Some (s, None)
                  end
              | None =>
                  let s := store s true in
                  match CompleteCommand s (update_command qc cmd true) with
                  | None => None
                  | Some s => Some (s, None)
                  end
              end
          end
      end
  end.
End reconcile.
