(* ===== verification/DisruptionQueueProps.v ===== *)
(** * DisruptionQueueProps: what the disruption queue guarantees

    Starting a command never panics and gives back the reservations of its static
    replacements on every path; a NodeClaim is deleted only after every replacement of its
    command was seen initialized; a candidate is in one command at a time; a command past its
    timeout leaves the queue when it is next reconciled.  The last two also show how a command
    can be lost, and how a late success is recorded as a failure. *)

From S2P Require Import Prelude Float64 Labels Requirement Objects RepairPolicy Requirements Resources.
From S2P Require Import Taints Volumes InstanceTypes PodState DisruptionCost Topology NodeClaims Templates.
From S2P Require Import ExistingNodes Evictions NodePoolState StateNodes Cluster ClusterInv Solver Candidates.
From S2P Require Import Simulation Provisioner ProvisionerProps Repair DisruptionQueue.

#[local] Open Scope Z_scope.

(** ** Reservations *)

Definition static_for (pool : string) (rs : list Replacement) : list Replacement :=
  filter (λ r, rp_IsStaticNodeClaim r = true ∧ NodePoolName (rp_NodeClaim r) = pool) rs.

Lemma static_counts_spec rs k : default 0 (static_counts rs !! k) = Z.of_nat (length (static_for k rs)).
Proof.
  induction rs as [|r rs IH] using rev_ind; [done|]. unfold static_counts, static_for in *.
  rewrite foldl_snoc, filter_app, length_app, Nat2Z.inj_add, <-IH, filter_cons, filter_nil. clear IH.
  destruct (rp_IsStaticNodeClaim r) eqn:Es; cbv zeta.
  - destruct (decide (NodePoolName (rp_NodeClaim r) = k)) as [<-|Hk].
    + rewrite lookup_insert_eq, decide_True by done. done.
    + rewrite lookup_insert_ne, decide_False by naive_solver. cbn. lia.
  - rewrite decide_False by naive_solver. cbn. lia.
Qed.

Lemma static_for_length k rs : (length (static_for k rs) ≤ length rs)%nat.
Proof. apply length_filter. Qed.

Lemma release_static_spec n rs k : (∀ k, 0 ≤ reserved n k ≤ int64_max) → Z.of_nat (length rs) ≤ int64_max →
  reserved (release_static n rs) k = 0 `max` (reserved n k - Z.of_nat (length (static_for k rs))) ∧
  node_total (release_static n rs) k = node_total n k.
Proof.
  intros Hn Hlen. rewrite <-static_counts_spec. unfold release_static.
  assert (∀ k v, static_counts rs !! k = Some v → 0 ≤ v ≤ int64_max) as Hv.
  { intros k' v Hv. pose proof (static_counts_spec rs k') as H. rewrite Hv in H. cbn in H.
    pose proof (static_for_length k' rs). lia. }
  revert k Hv. generalize (static_counts rs) as m. clear Hlen.
  refine (map_fold_weak_ind (λ acc m, ∀ k, (∀ k v, m !! k = Some v → 0 ≤ v ≤ int64_max) →
    reserved acc k = 0 `max` (reserved n k - default 0 (m !! k)) ∧ node_total acc k = node_total n k) _ _ _ _).
  - intros k _. rewrite lookup_empty. cbn. specialize (Hn k). split; [lia|done].
  - intros i x m acc Hi IH k Hv.
    assert (∀ k v, m !! k = Some v → 0 ≤ v ≤ int64_max) as Hm.
    { intros k' v Hk'. apply (Hv k'). rewrite lookup_insert_ne; congruence. }
    destruct (IH i Hm) as [Hri _]. rewrite Hi in Hri. cbn in Hri. pose proof (Hn i) as Hni. pose proof (Hv i x (lookup_insert_eq _ _ _)) as Hx.
    destruct (release_counts acc i x k ltac:(lia) Hx) as [Ht Hr]. destruct (IH k Hm) as [Hrk Htk]. rewrite Hr, Ht.
    split; [|done]. case_decide as Ek.
    + subst k. rewrite lookup_insert_eq. cbn. lia.
    + by rewrite lookup_insert_ne by done.
Qed.

Lemma mark_deleting_reserved n np nc k : reserved (MarkNodeClaimDeleting n np nc) k = reserved n k.
Proof. unfold MarkNodeClaimDeleting, mark_claim. apply ensure_same. Qed.

Lemma mark_pending_reserved c cand k : reserved (nodePoolState (mark_pending c cand)) k = reserved (nodePoolState c) k.
Proof.
  unfold mark_pending. destruct (OwnedByStaticNodePool cand); [|done]. unfold MarkNodeClaimPendingDisruption, mark_claim. apply ensure_same.
Qed.

(** Marking changes the NodePool state alone. *)
Lemma mark_pendings_same cands c : let c' := foldl mark_pending c cands in
  (∀ k, reserved (nodePoolState c') k = reserved (nodePoolState c) k) ∧ (cluster_wf c → cluster_wf c') ∧
  nodeClaimNameToProviderID c' = nodeClaimNameToProviderID c.
Proof.
  revert c. induction cands as [|cand cands IH]; intros c; [done|]. cbn. destruct (IH (mark_pending c cand)) as (Hr & Hw & Hn).
  assert (cluster_wf c → cluster_wf (mark_pending c cand)) by (unfold mark_pending; by destruct (OwnedByStaticNodePool cand)).
  assert (nodeClaimNameToProviderID (mark_pending c cand) = nodeClaimNameToProviderID c) as <-
    by (unfold mark_pending; by destruct (OwnedByStaticNodePool cand)).
  split_and!; [|by auto|done]. intros k. by rewrite Hr, mark_pending_reserved.
Qed.

Lemma update_pool_resources_state c old new c' : updateNodePoolResources c old new = Some c' → nodePoolState c' = nodePoolState c.
Proof.
  unfold updateNodePoolResources. destruct (pool_resources old) as [[]|]; [|done]. destruct (pool_resources new) as [[]|]; [|done].
  cbn [mbind option_bind]. cbv zeta. destruct (update_pool _ _ _ _) as [p1|]; [|done]. cbn [mbind option_bind].
  destruct (update_pool _ _ _ _) as [p2|]; [|done]. by intros [= <-].
Qed.

Lemma mark_one_reserved c id c' k : mark_one c id = Some c' → reserved (nodePoolState c') k = reserved (nodePoolState c) k.
Proof.
  unfold mark_one. destruct (nodes c !! id) as [n|]; [|by intros [= <-]].
  destruct (updateNodePoolResources _ _ _) as [c1|] eqn:Hu; cbn [mbind option_bind]; [|done]. intros [= <-].
  apply update_pool_resources_state in Hu. rewrite <-Hu. destruct (st_NodeClaim n); [|done].
  apply mark_deleting_reserved.
Qed.

Lemma MarkForDeletion_reserved c ids c' k : MarkForDeletion c ids = Some c' → reserved (nodePoolState c') k = reserved (nodePoolState c) k.
Proof.
  unfold MarkForDeletion. revert c. induction ids as [|id ids IH]; intros c; cbn; [by intros [= <-]|].
  destruct (mark_one c id) as [c1|] eqn:H1; cbn; [|done]. intros ->%IH. by eapply mark_one_reserved.
Qed.

Lemma Results_Record_same {E} batch now nodes (r : Results E) c : let c' := Results_Record batch now nodes r c in
  nodePoolState c' = nodePoolState c ∧ (cluster_wf c → cluster_wf c').
Proof.
  unfold Results_Record. generalize (ExistingNodes r) as es. intros es. revert c.
  induction es as [|e es IH]; intros c; [done|]. cbn [foldl]. cbv zeta. edestruct IH as [-> Hwf].
  destruct (filter _ (en_Pods e)), (find_node nodes (en_Name e)) as [n|]; try done. split.
  - unfold NominateNodeForPod. by case_match.
  - intros Hc. apply Hwf. by apply Nominate_wf.
Qed.

(** ** What the provisioner promises the queue *)

(** [launch_ready names rs]: the API server answers the creations of [rs] with new objects. *)
Class LauncherLaws `{LA : Launcher} (launch_ready : gmap string string → list Replacement → Prop) : Prop := {
  launch_total now c rs : cluster_wf c → reservations_sane c → launch_ready (nodeClaimNameToProviderID c) rs →
    ∃ c' names errs, launch_replacements now c rs = Some (c', names, errs) ∧ cluster_wf c' ∧ length names = length rs ∧
      (∀ k, reserved (nodePoolState c') k = 0 `max` (reserved (nodePoolState c) k - Z.of_nat (length (static_for k rs)))) ∧
      (errs = [] → ∀ i name, names !! i = Some name → NodeClaimExists c' name = true);
}.

Section provisioner_launcher.
  Context `{LR : LabelRegistry} `{SE : SchedulerEnv}.
  Context (DefaultTerminationGracePeriod : option Z) (store : gmap nat (gmap string string)) (api : LaunchApi).
  Context (order : nat → list nat) (launch_of : Replacement → Launch).

(** The claim a replacement points to, with its template. *)
Definition launches_itself (r : Replacement) : Prop :=
  l_NodeClaim (launch_of r) = rp_NodeClaim r ∧ tm_IsStatic (l_Meta (launch_of r)) = rp_IsStaticNodeClaim r.

#[local] Instance provisioner_launcher : Launcher := λ now c rs,
  CreateNodeClaims DefaultTerminationGracePeriod store api now (order (length rs)) c (launch_of <$> rs).

Definition provisioner_ready (names : gmap string string) (rs : list Replacement) : Prop :=
  ∀ i r, rs !! i = Some r → launches_itself r ∧ launchable DefaultTerminationGracePeriod store (launch_of r) ∧
    creates_in_pool api i (launch_of r) ∧
    ∀ object nc, create_claim api i object = Ok nc →
      claim_ProviderID nc = EmptyString ∧ default EmptyString (names !! claim_Name nc) = EmptyString.

Lemma static_launches_of k rs : (∀ r, r ∈ rs → launches_itself r) →
  length (static_launches k (launch_of <$> rs)) = length (static_for k rs).
Proof.
  intros H. unfold static_launches, pool_launches, static_for. induction rs as [|r rs IH]; [done|].
  rewrite fmap_cons. destruct (H r) as [H1 H2]; [by left|]. assert (∀ r, r ∈ rs → launches_itself r) as Hrs by (intros; apply H; by right).
  rewrite (filter_cons _ r). rewrite filter_cons, H1. destruct (decide (NodePoolName (rp_NodeClaim r) = k)) as [Ek|Ek].
  - rewrite filter_cons, H2. destruct (decide (rp_IsStaticNodeClaim r = true)) as [Es|Es].
    + rewrite decide_True by done. cbn. f_equal. by apply IH.
    + rewrite decide_False by naive_solver. by apply IH.
  - rewrite decide_False by naive_solver. by apply IH.
Qed.

(** The provisioner keeps the promise, whatever order its workers run in. *)
Lemma provisioner_launcher_laws : (∀ n, order n ≡ₚ seq 0 n) → LauncherLaws provisioner_ready.
Proof.
  intros Horder. split. intros now c rs Hwf Hs Hready. unfold launch_replacements, provisioner_launcher.
  destruct (create_all_spec DefaultTerminationGracePeriod store api now (order (length rs)) c (launch_of <$> rs))
    as (c' & names & errs & E & Hwf' & Hlen & Hr & _ & _ & Hn); [|done|done| |].
  { by rewrite length_fmap. }
  { intros i l (r & -> & Hi)%list_lookup_fmap_Some. destruct (Hready i r Hi) as (_ & ? & ? & Hnew). done. }
  exists c', names, errs. rewrite length_fmap in Hlen. split_and!; [done..| |].
  - intros k. rewrite Hr, static_launches_of; [done|]. intros r [i Hi]%list_elem_of_lookup. by destruct (Hready i r Hi).
  - intros He i name Hi. destruct (Hn He i) as (object & nc & _ & Hi' & Hex).
    { rewrite length_fmap, <-Hlen. by eapply lookup_lt_Some. }
    congruence.
Qed.
End provisioner_launcher.

(** ** Starting a command *)

Definition has_claim (c : Candidate) : Prop := is_Some (st_NodeClaim (c_StateNode c)).
Definition is_delete (w : kube_write) : Prop := match w with DeleteClaim _ => True | _ => False end.

#[export] Instance is_delete_dec w : Decision (is_delete w).
Proof. destruct w; simpl; apply _. Defined.

Section start_properties.
  Context `{TA : TaintApi} (capi : ConditionApi) (kube : KubeApi) {E : Type} (BatchMaxDuration : Z).
  Context `{LL : LauncherLaws}.

Lemma require_no_delete add nodes w : w ∈ (RequireNoScheduleTaint kube add nodes).1 → ~ is_delete w.
Proof.
  unfold RequireNoScheduleTaint. cbn. intros (ws & Hw & Hws)%list_elem_of_join.
  apply list_elem_of_fmap in Hws as (r & -> & Hr). apply list_elem_of_fmap in Hr as (n & -> & _).
  revert Hw. unfold require_one. repeat case_match; cbn; rewrite ?list_elem_of_singleton, ?elem_of_nil; naive_solver.
Qed.

Lemma clear_no_delete now type nodes w : w ∈ (ClearNodeClaimsCondition capi kube now type nodes).1 → ~ is_delete w.
Proof.
  unfold ClearNodeClaimsCondition. cbn. intros (ws & Hw & Hws)%list_elem_of_join.
  apply list_elem_of_fmap in Hws as (r & -> & Hr). apply list_elem_of_fmap in Hr as (n & -> & _).
  revert Hw. unfold clear_one. repeat case_match; cbn; rewrite ?list_elem_of_singleton, ?elem_of_nil; naive_solver.
Qed.

Lemma mark_candidate_spec now reason c : has_claim c → ∃ ws failed, mark_candidate capi kube now reason c = Some (ws, failed) ∧
  ∀ w, w ∈ ws → ~ is_delete w.
Proof.
  intros [nc Hnc]. unfold mark_candidate. pose proof (require_no_delete true [c_StateNode c]) as Hr.
  destruct (RequireNoScheduleTaint kube true [c_StateNode c]) as [ws failed]. cbn [fst] in Hr. rewrite Hnc.
  destruct failed; [by eexists _, _|]. destruct (kube_claim kube (claim_Name nc)); [|by eexists _, _].
  eexists _, _. split; [done|]. intros w [Hw| ->%list_elem_of_singleton]%elem_of_app; [by apply Hr|by intros []].
Qed.

Lemma mark_candidates_total now reason cands : Forall has_claim cands →
  ∃ results, mapM (mark_candidate capi kube now reason) cands = Some results ∧ length results = length cands ∧
    ∀ w, w ∈ mjoin results.*1 → ~ is_delete w.
Proof.
  induction 1 as [|c cands Hc _ (rs & Hrs & Hl & Hd)]; [exists []; split_and!; [done..|]; intros w []%elem_of_nil|].
  destruct (mark_candidate_spec now reason c Hc) as (ws & failed & Hm & Hw). exists ((ws, failed) :: rs).
  cbn [mapM]. rewrite Hm. cbn [mbind option_bind]. rewrite Hrs. split_and!; [done|by cbn; rewrite Hl|].
  cbn [fmap list_fmap mjoin list_join fst]. intros w [?|?]%elem_of_app; [by apply Hw|by apply Hd].
Qed.

Abbreviation unfailed := (λ '(cand, failed), if failed : bool then [] else [cand : Candidate]).

Lemma unfailed_spec (cands : list Candidate) fs : length fs = length cands → (zip cands fs ≫= unfailed) `sublist_of` cands ∧
  (existsb id fs = false → (zip cands fs ≫= unfailed) = cands).
Proof.
  revert fs. induction cands as [|c cands IH]; intros [|f fs] Hl; try done. destruct (IH fs) as [Hs He]; [cbn in Hl; lia|].
  cbn. destruct f; cbn.
  - split; [by apply sublist_cons|done].
  - split; [by apply sublist_skip|]. intros H. f_equal. by apply He.
Qed.

(** Whether marking the candidate succeeds: the node is tainted and its claim gets the
    reason, or either of them is gone. *)
Definition marks (now : Z) (reason : string) (c : Candidate) : bool :=
  match mark_candidate capi kube now reason c with Some (_, failed) => negb failed | None => false end.
Abbreviation marked_of now reason cands := (filter (λ c, marks now reason c = true) cands).

Lemma unfailed_marked now reason cands rs : mapM (mark_candidate capi kube now reason) cands = Some rs →
  zip cands rs.*2 ≫= unfailed = marked_of now reason cands.
Proof.
  intros H%mapM_Some. induction H as [|c [ws f] cands rs Hm _ IH]; [done|]. rewrite filter_cons. cbn [fmap list_fmap snd zip zip_with mbind list_bind].
  rewrite <-IH. unfold marks. rewrite Hm. by destruct f.
Qed.

Lemma markDisrupted_spec now reason c cands : Forall has_claim cands → ∃ ws failed, let marked := marked_of now reason cands in
  markDisrupted capi kube now reason c cands = Some (foldl mark_pending c marked, ws, marked, failed) ∧
  (failed = false → marked = cands) ∧ ∀ w, w ∈ ws → ~ is_delete w.
Proof.
  intros H. destruct (mark_candidates_total now reason cands H) as (rs & Hrs & Hl & Hd). unfold markDisrupted. rewrite Hrs.
  destruct (unfailed_spec cands rs.*2) as [_ He]; [by rewrite length_fmap|]. rewrite (unfailed_marked now reason) in He |- * by done.
  eexists _, _. by split_and!.
Qed.

Lemma HasAny_false (q : Queue E) ids : HasAny q ids = false → ∀ id, id ∈ ids → ProviderIDToCommand q !! id = None.
Proof.
  unfold HasAny. intros H id Hid. destruct (ProviderIDToCommand q !! id) as [a|] eqn:Ha; [|done].
  assert (existsb (λ id, bool_decide (is_Some (ProviderIDToCommand q !! id))) ids = true); [|congruence].
  apply existsb_exists. exists id. rewrite Ha, bool_decide_eq_true_2 by done. split; [by apply list_elem_of_In|done].
Qed.

Lemma foldl_insert_lookup {A} (ids : list string) (a : A) m id :
  foldl (λ m id, <[id := a]> m) m ids !! id = if decide (id ∈ ids) then Some a else (m : gmap string A) !! id.
Proof.
  induction ids as [|i ids IH] using rev_ind; cbn.
  - by rewrite decide_False by (intros []%elem_of_nil).
  - rewrite foldl_snoc. destruct (decide (i = id)) as [->|Hi].
    + by rewrite lookup_insert_eq, decide_True by (apply elem_of_app; right; by left).
    + rewrite lookup_insert_ne, IH by done. apply decide_ext. rewrite elem_of_app, list_elem_of_singleton. naive_solver.
Qed.

Lemma foldl_delete_lookup {A} (ids : list string) (m : gmap string A) id :
  foldl (λ m id, delete id m) m ids !! id = if decide (id ∈ ids) then None else m !! id.
Proof.
  induction ids as [|i ids IH] using rev_ind; cbn.
  - by rewrite decide_False by (intros []%elem_of_nil).
  - rewrite foldl_snoc. destruct (decide (i = id)) as [->|Hi].
    + by rewrite lookup_delete_eq, decide_True by (apply elem_of_app; right; by left).
    + rewrite lookup_delete_ne, IH by done. apply decide_ext. rewrite elem_of_app, list_elem_of_singleton. naive_solver.
Qed.

(** The queue after a command was added. *)
Definition enqueued (q : Queue E) (qc : QueuedCommand E) (q' : Queue E) : Prop :=
  let a := fresh (dom (q_commands q)) in
  q_commands q' = <[a := qc]> (q_commands q) ∧
  (∃ first rest, cmd_Candidates (qc_Command qc) = first :: rest ∧ q_source q' = q_source q ++ [claim_name_of first]) ∧
  ∀ id, ProviderIDToCommand q' !! id =
    if decide (id ∈ command_ids (qc_Command qc)) then Some a else ProviderIDToCommand q !! id.

Lemma enqueue_spec (q : Queue E) qc : cmd_Candidates (qc_Command qc) ≠ [] → ∃ q', enqueue q qc = Some q' ∧ enqueued q qc q'.
Proof.
  unfold enqueue, enqueued. destruct (cmd_Candidates (qc_Command qc)) as [|first rest] eqn:Ec; [done|]. intros _.
  eexists. split; [done|]. split; [done|]. split; [by eexists _, _|]. intros id. apply foldl_insert_lookup.
Qed.

Lemma launch_and_enqueue_spec now nodes (s : QueueState E) qc : let cmd := qc_Command qc in
  cluster_wf (qs_cluster s) → reservations_sane (qs_cluster s) →
  launch_ready (nodeClaimNameToProviderID (qs_cluster s)) (cmd_Replacements cmd) → cmd_Candidates cmd ≠ [] →
  ∃ s' err, launch_and_enqueue BatchMaxDuration now nodes s qc = Some (s', err) ∧ cluster_wf (qs_cluster s') ∧
    (∀ k, reserved (nodePoolState (qs_cluster s')) k =
       0 `max` (reserved (nodePoolState (qs_cluster s)) k - Z.of_nat (length (static_for k (cmd_Replacements cmd))))) ∧
    qs_writes s' = qs_writes s ∧
    match err with
    | Some _ => qs_queue s' = qs_queue s
    | None => ∃ c names, launch_replacements now (qs_cluster s) (cmd_Replacements cmd) = Some (c, names, []) ∧
        length names = length (cmd_Replacements cmd) ∧
        enqueued (qs_queue s) (update_command qc (with_replacements cmd (zip_with set_replacement_name (cmd_Replacements cmd) names))
                                 (qc_Succeeded qc)) (qs_queue s')
    end.
Proof.
  cbv zeta. intros Hwf Hs Hready Hne. unfold launch_and_enqueue, createReplacementNodeClaims.
  destruct (launch_total now (qs_cluster s) _ Hwf Hs Hready) as (c' & names & errs & El & Hwf' & Hlen & Hr & _). rewrite El.
  destruct errs as [|e errs]; [|by eexists _, _]. rewrite bool_decide_eq_true_2 by done. cbn [negb].
  destruct (foldl_opt_wf mark_one (command_ids (qc_Command qc)) c' mark_one_wf Hwf') as (c2 & E2 & Hwf2).
  unfold MarkForDeletion. rewrite E2. destruct (Results_Record_same BatchMaxDuration now nodes (cmd_Results (qc_Command qc)) c2) as [Hst Hwf3].
  edestruct (enqueue_spec (qs_queue s)) as (q' & -> & Hq); [|eexists _, _; split; [done|]]; [done|].
  split_and!; [by apply Hwf3| |done|by eexists _, _]. intros k. cbn -[reserved]. rewrite Hst, <-Hr. by eapply MarkForDeletion_reserved.
Qed.

(** The command as it is queued: the candidates that were marked, the replacements under
    their names. *)
Definition queued_as (qc : QueuedCommand E) (marked : list Candidate) (names : list string) : QueuedCommand E :=
  update_command qc (with_replacements (with_candidates (qc_Command qc) marked)
    (zip_with set_replacement_name (cmd_Replacements (qc_Command qc)) names)) (qc_Succeeded qc).

Lemma release_reservations_spec (s : QueueState E) rs : cluster_wf (qs_cluster s) → reservations_sane (qs_cluster s) →
  Z.of_nat (length rs) ≤ int64_max → let s' := release_reservations s rs in
  cluster_wf (qs_cluster s') ∧ ∀ k, reserved (nodePoolState (qs_cluster s')) k =
       0 `max` (reserved (nodePoolState (qs_cluster s)) k - Z.of_nat (length (static_for k rs))).
Proof. intros Hwf Hs Hl. split; [done|]. intros k. by apply release_static_spec. Qed.

(** C12: starting a command on candidates that have their claims, in a consistent cluster state
    whose node reservations are below the largest int64, with a provisioner that satisfies the
    laws of [LauncherLaws] (it returns, names one claim per replacement, and keeps the state
    consistent), never panics and keeps that state consistent. On every path, those that
    fail, those that only reboot and those that launch, the reservations its static
    replacements hold are given back exactly once. No NodeClaim is deleted by it. A command
    that fails leaves the queue as it was. One that succeeds is queued with exactly the
    candidates whose marking succeeded, all of them when it has replacements; its replacements
    were launched after that marking, without an error, and each is queued under the name that
    this launch returned for it. *)
Theorem StartCommand_spec now nodes (s : QueueState E) qc : let cmd := qc_Command qc in
  let marked := marked_of now (Method_Reason (qc_Method qc)) (cmd_Candidates cmd) in
  cluster_wf (qs_cluster s) → reservations_sane (qs_cluster s) →
  launch_ready (nodeClaimNameToProviderID (qs_cluster s)) (cmd_Replacements cmd) →
  Z.of_nat (length (cmd_Replacements cmd)) ≤ int64_max → cmd_Candidates cmd ≠ [] → Forall has_claim (cmd_Candidates cmd) →
  ∃ s' err ws, StartCommand capi kube BatchMaxDuration now nodes s qc = Some (s', err) ∧ cluster_wf (qs_cluster s') ∧
    (∀ k, reserved (nodePoolState (qs_cluster s')) k =
       0 `max` (reserved (nodePoolState (qs_cluster s)) k - Z.of_nat (length (static_for k (cmd_Replacements cmd))))) ∧
    qs_writes s' = qs_writes s ++ ws ∧ (∀ w, w ∈ ws → ~ is_delete w) ∧
    match err with
    | Some _ => qs_queue s' = qs_queue s
    | None => Command_Decision cmd = RebootDecision ∧ qs_queue s' = qs_queue s ∨
        (cmd_Replacements cmd ≠ [] → marked = cmd_Candidates cmd) ∧
        ∃ c names, launch_replacements now (foldl mark_pending (qs_cluster s) marked) (cmd_Replacements cmd) = Some (c, names, []) ∧
          length names = length (cmd_Replacements cmd) ∧ enqueued (qs_queue s) (queued_as qc marked names) (qs_queue s')
    end.
Proof.
  cbv zeta. intros Hwf Hs Hready Hlen Hne Hclaims. unfold StartCommand, StartCommand_checked.
  assert (∀ s' : QueueState E, qs_writes s' = qs_writes s' ++ [] ∧ ∀ w, w ∈ ([] : list kube_write) → ~ is_delete w) as Hnil.
  { intros s'. split; [by rewrite app_nil_r|]. intros w []%elem_of_nil. }
  destruct (release_reservations_spec s (cmd_Replacements (qc_Command qc)) Hwf Hs Hlen) as [Hw1 Hr1].
  destruct (HasAny _ _); [eexists _, _, []; split; [done|]; by split_and!; [..|apply (Hnil s)|apply (Hnil s)|]|].
  case_bool_decide as Hb; [eexists _, _, []; split; [done|]; split_and!; [done|done|apply (Hnil s)|apply (Hnil s)|by left]|].
  destruct (markDisrupted_spec now (Method_Reason (qc_Method qc)) (qs_cluster s) _ Hclaims) as (ws & failed & -> & Hall & Hd).
  set (marked := marked_of now _ _) in *. set (c' := foldl mark_pending (qs_cluster s) marked).
  destruct (mark_pendings_same marked (qs_cluster s)) as (Hres & Hmw & Hnames). fold c' in Hres, Hmw, Hnames.
  destruct (failed && _) eqn:Ef.
  - edestruct (release_reservations_spec (add_writes (with_cluster s c') ws)) as [Hw2 Hr2]; [by apply Hmw| |exact Hlen|].
    { intros k. cbn -[reserved]. by rewrite Hres. }
    eexists _, _, ws. split; [done|]. split_and!; [done| |done..]. intros k. rewrite Hr2. cbn -[reserved]. by rewrite Hres.
  - edestruct (launch_and_enqueue_spec now nodes (add_writes (with_cluster s c') ws)
      (update_command qc (with_candidates (qc_Command qc) marked) (qc_Succeeded qc))) as (s' & err & -> & Hwf' & Hr & Hws & He).
    { by apply Hmw. } { intros k. cbn -[reserved]. by rewrite Hres. } { cbn. by rewrite Hnames. }
    { cbn. intros E0. destruct failed; [|by rewrite Hall in E0]. rewrite (bool_decide_eq_true_2 (marked = [])), orb_true_r in Ef by done. done. }
    exists s', err, ws. split_and!; [done..| |by rewrite Hws|done|].
    { intros k. rewrite Hr. cbn -[reserved]. by rewrite Hres. }
    destruct err as [e|]; [done|]. right. split; [|exact He]. intros Hrs. destruct failed; [|by apply Hall].
    rewrite bool_decide_eq_false_2 in Ef by done. done.
Qed.
End start_properties.

(** ** Runs of the queue *)

Section runs.
  Context `{TA : TaintApi} (capi : ConditionApi) {E : Type} (BatchMaxDuration : Z).
  (** The provider id of a NodeClaim, which it keeps once it has it. *)
  Context (pid : string → string).

Record kube_ok (kube : KubeApi) : Prop := {
  ko_name name nc : kube_claim kube name = Ok nc → claim_Name nc = name;
  ko_pid name nc : kube_claim kube name = Ok nc → claim_ProviderID nc = pid name;
}.

Definition candidate_ok (c : Candidate) : Prop := ∃ node nc, st_Node (c_StateNode c) = Some node ∧
  st_NodeClaim (c_StateNode c) = Some nc ∧ node_ProviderID node = pid (claim_Name nc).

Lemma candidate_ok_id c : candidate_ok c → candidate_ProviderID c = pid (claim_name_of c).
Proof. intros (node & nc & Hn & Hc & Hp). unfold candidate_ProviderID, claim_name_of, ProviderID. by rewrite Hn, Hc. Qed.

(** A command as the methods make it. *)
Record new_command (qc : QueuedCommand E) : Prop := {
  nw_failed : qc_Succeeded qc = false;
  nw_candidates : Forall candidate_ok (cmd_Candidates (qc_Command qc));
  nw_replacements : Forall (λ r, rp_Initialized r = false) (cmd_Replacements (qc_Command qc));
}.

Definition take_event (s : QueueState E) (source : list string) : QueueState E :=
  with_queue s (mkDisruptionQueue (ProviderIDToCommand (qs_queue s)) (q_commands (qs_queue s)) source).

(** Two commands without a common candidate. *)
Definition disjoint_commands (qc qc' : QueuedCommand E) : Prop :=
  ∀ id, id ∈ command_ids (qc_Command qc) → id ∉ command_ids (qc_Command qc').

(** A run: the API servers it saw, the commands that were checked and are being started, and
    the state.  The workers that start the commands of one pass of the loop run beside each
    other: a command is checked in one step and marked, launched and queued in a later one,
    with other checks, starts, reconciliations and changes of the cluster state between them.
    What the loop provides is that the commands of a pass have no common candidates.  A claim
    waits in the source until it is reconciled; it stays there when its reconciliation asks
    for another, and the reconciler drops a claim that no longer exists. *)
Inductive queue_step : list KubeApi * list (QueuedCommand E) * QueueState E → list KubeApi * list (QueuedCommand E) * QueueState E → Prop :=
| step_check h p s qc : new_command qc → HasAny (qs_queue s) (command_ids (qc_Command qc)) = false →
    (∀ qc', qc' ∈ p → disjoint_commands qc qc') → queue_step (h, p, s) (h, p ++ [qc], s)
| step_refused h p s (qc : QueuedCommand E) : HasAny (qs_queue s) (command_ids (qc_Command qc)) = true →
    queue_step (h, p, s) (h, p, release_reservations s (cmd_Replacements (qc_Command qc)))
| step_start (LA : Launcher) kube now nodes h p1 qc p2 s s' err : kube_ok kube →
    StartCommand_checked capi kube BatchMaxDuration now nodes s qc = Some (s', err) →
    queue_step (h, p1 ++ qc :: p2, s) (h ++ [kube], p1 ++ p2, s')
| step_reconcile kube now later h p s l1 name l2 nc s' requeue : kube_ok kube → q_source (qs_queue s) = l1 ++ name :: l2 →
    kube_claim kube name = Ok nc → Queue_Reconcile capi kube now later s nc = Some (s', requeue) →
    queue_step (h, p, s) (h ++ [kube], p, take_event s' (if requeue is Some _ then l1 ++ name :: l2 else l1 ++ l2))
| step_gone kube h p s l1 name l2 : q_source (qs_queue s) = l1 ++ name :: l2 → kube_claim kube name = Err NotFound →
    queue_step (h, p, s) (h ++ [kube], p, take_event s (l1 ++ l2))
| step_cluster h p s c : queue_step (h, p, s) (h, p, with_cluster s c)
| step_sweep h p s ws : (∀ w, w ∈ ws → ~ is_delete w) → queue_step (h, p, s) (h, p, add_writes s ws).

Definition seen_initialized (h : list KubeApi) (name : string) : Prop := ∃ kube nc, kube ∈ h ∧ kube_claim kube name = Ok nc ∧
  condition_true ConditionTypeInitialized (claim_Conditions nc) = true.

Definition gone (h : list KubeApi) (name : string) : Prop := ∃ kube, kube ∈ h ∧ kube_claim kube name = Err NotFound.

(** The same candidate, perhaps with its claim read again. *)
Definition same_candidate (c c' : Candidate) : Prop := candidate_ok c' ∧ claim_name_of c' = claim_name_of c.

Lemma same_candidate_id c c' : candidate_ok c → same_candidate c c' → candidate_ProviderID c' = candidate_ProviderID c.
Proof. intros H [H' Hn]. rewrite !candidate_ok_id by done. by rewrite Hn. Qed.

Lemma same_candidates_ids (cs cs' : list Candidate) : Forall candidate_ok cs → Forall2 same_candidate cs cs' →
  candidate_ProviderID <$> cs' = candidate_ProviderID <$> cs.
Proof.
  intros Hok H. induction H as [|c c' cs cs' Hs _ IH]; [done|]. apply Forall_cons in Hok as [Hc Hok].
  rewrite !fmap_cons, IH by done. f_equal. by apply same_candidate_id.
Qed.

Lemma tighten_spec kube nc t ws r : TightenTerminationTimestampAnnotation capi kube nc t = (ws, r) →
  (∀ w, w ∈ ws → ~ is_delete w) ∧ ∀ nc', r = Ok nc' → claim_Name nc' = claim_Name nc.
Proof.
  unfold TightenTerminationTimestampAnnotation. destruct (tightened_deadline capi nc t) as [v|]; intros [= <- <-].
  - split; [by intros w ->%list_elem_of_singleton []|]. intros nc'. by destruct (kube_serve kube _); intros [= <-].
  - split; [by intros w []%elem_of_nil|]. by intros nc' [= <-].
Qed.

Lemma stamp_deadline_spec kube now c nc ws r : kube_ok kube → candidate_ok c → st_NodeClaim (c_StateNode c) = Some nc →
  stamp_deadline capi kube now c nc = (ws, r) →
  (∀ w, w ∈ ws → ~ is_delete w) ∧ ∀ c', r = Ok c' → same_candidate c c'.
Proof.
  intros Hk Hok Hc. unfold stamp_deadline. assert (∀ w, w ∈ ([] : list kube_write) → ~ is_delete w) as Hnil by (by intros w []%elem_of_nil).
  destruct (c_TerminationGracePeriod c) as [tgp|]; [|intros [= <- <-]; split; [done|]; by intros c' [= <-]].
  destruct (kube_claim kube (claim_Name nc)) as [stored|e] eqn:Hs.
  - destruct (TightenTerminationTimestampAnnotation capi kube stored (now + tgp)) as [ws' r'] eqn:Ht.
    apply tighten_spec in Ht as [Hd Hn]. intros [= <- <-]. split; [done|]. intros c'. destruct r' as [stored'|]; [|done]. intros [= <-].
    specialize (Hn _ eq_refl). apply (ko_name _ Hk) in Hs. destruct Hok as (node & nc0 & H1 & H2 & H3). assert (nc0 = nc) as -> by congruence.
    split.
    + exists node, stored'. split_and!; [done|done|]. rewrite H3. by rewrite Hn, Hs.
    + unfold claim_name_of. cbn. rewrite Hc. congruence.
  - intros [= <- <-]. split; [done|]. intros c'. destruct e; cbn; by intros [= <-].
Qed.

Lemma terminate_candidate_spec kube now c c' ws f : kube_ok kube → candidate_ok c →
  terminate_candidate capi kube now c = Some (c', ws, f) → same_candidate c c' ∧ ∀ n, DeleteClaim n ∈ ws → n = claim_name_of c.
Proof.
  intros Hk Hok. pose proof Hok as (node & nc & H1 & H2 & H3). unfold terminate_candidate. rewrite H2.
  destruct (stamp_deadline capi kube now c nc) as [ws' r] eqn:Hs. apply stamp_deadline_spec in Hs as [Hd Hsame]; [|done..].
  destruct r as [c1|e]; intros [= <- <- <-].
  - specialize (Hsame _ eq_refl). split; [done|]. intros n [Hn|Hn%list_elem_of_singleton]%elem_of_app; [by destruct (Hd _ Hn)|].
    injection Hn as ->. apply Hsame.
  - split; [done|]. intros n Hn. by destruct (Hd _ Hn).
Qed.

Lemma terminate_all kube now cands results : kube_ok kube → Forall candidate_ok cands →
  mapM (terminate_candidate capi kube now) cands = Some results →
  Forall2 same_candidate cands results.*1.*1 ∧
  ∀ n, DeleteClaim n ∈ mjoin results.*1.*2 → ∃ c', c' ∈ results.*1.*1 ∧ claim_name_of c' = n.
Proof.
  intros Hk Hok H%mapM_Some. induction H as [|c [[c' ws] f] cands results Ht _ IH]; [by split; [|intros n []%elem_of_nil]|].
  apply Forall_cons in Hok as [Hc Hok]. apply terminate_candidate_spec in Ht as [Hs Hd]; [|done..]. destruct (IH Hok) as [IH1 IH2].
  cbn. split; [by constructor|]. intros n [Hn|Hn]%elem_of_app.
  - exists c'. rewrite (Hd n Hn). split; [by left|apply Hs].
  - destruct (IH2 n Hn) as (c2 & ? & ?). exists c2. split; [by right|done].
Qed.

Lemma terminate_total kube now cands : Forall candidate_ok cands → is_Some (mapM (terminate_candidate capi kube now) cands).
Proof.
  intros H. apply mapM_is_Some. eapply Forall_impl; [exact H|]. intros c (node & nc & H1 & H2 & H3).
  change (is_Some (terminate_candidate capi kube now c)). unfold terminate_candidate. rewrite H2.
  destruct (stamp_deadline capi kube now c nc) as [ws []]; by eexists.
Qed.

(** What a replacement becomes: its flag is only set when the claim is seen initialized. *)
Definition rechecked (kube : KubeApi) (r r' : Replacement) : Prop := rp_Name r' = rp_Name r ∧
  (rp_Initialized r = true → rp_Initialized r' = true) ∧
  (rp_Initialized r' = true → rp_Initialized r = true ∨ seen_initialized [kube] (rp_Name r)).

Lemma check_replacements_spec kube c rs rs' w : check_replacements kube c rs = (rs', w) →
  Forall2 (rechecked kube) rs rs' ∧ (w = AllInitialized → Forall (λ r, rp_Initialized r = true) rs').
Proof.
  assert (∀ r, rechecked kube r r) as Hrefl by (intros r; split_and!; auto).
  revert rs' w. induction rs as [|r rs IH]; intros rs' w; cbn [check_replacements]; [by intros [= <- <-]|].
  destruct (check_replacements kube c rs) as [rest w1]. destruct (IH rest w1 eq_refl) as [IH1 IH2].
  assert (still_waiting w1 ≠ AllInitialized) as Hsw by (by destruct w1).
  destruct (rp_Initialized r) eqn:Er; [intros [= <- <-]; split; [by constructor|]; intros Hw; by constructor; [|apply IH2]|].
  destruct (kube_claim kube (rp_Name r)) as [nc|e] eqn:Hk.
  - destruct (condition_true ConditionTypeInitialized (claim_Conditions nc)) eqn:Hi; intros [= <- <-]; [|split; [by constructor|done]].
    split; [constructor; [|done]|intros Hw; constructor; [done|by apply IH2]]. split_and!; [done|done|]. intros _. right.
    exists kube, nc. split_and!; [by left|done|done].
  - destruct (bool_decide (e = NotFound) && _); intros [= <- <-]; (split; [|done]); constructor; [done| |done|done].
    clear -Hrefl. induction rs; by constructor.
Qed.

Lemma wait_or_terminate_spec kube now c cmd cmd' ws err : kube_ok kube → Forall candidate_ok (cmd_Candidates cmd) →
  wait_or_terminate capi kube now c cmd = Some (cmd', ws, err) →
  Forall2 same_candidate (cmd_Candidates cmd) (cmd_Candidates cmd') ∧
  Forall2 (rechecked kube) (cmd_Replacements cmd) (cmd_Replacements (cmd' : Command E)) ∧
  ∀ n, DeleteClaim n ∈ ws → Forall (λ r, rp_Initialized r = true) (cmd_Replacements cmd') ∧
    ∃ c', c' ∈ cmd_Candidates cmd' ∧ claim_name_of c' = n.
Proof.
  intros Hk Hok. unfold wait_or_terminate. destruct (check_replacements kube c (cmd_Replacements cmd)) as [rs w] eqn:Hc.
  apply check_replacements_spec in Hc as [Hrs Hall].
  assert (Forall2 same_candidate (cmd_Candidates cmd) (cmd_Candidates cmd)) as Hrefl.
  { induction Hok; by constructor. }
  destruct w; [by intros [= <- <- <-]; split_and!; [..|intros n []%elem_of_nil]|by intros [= <- <- <-]; split_and!; [..|intros n []%elem_of_nil]|].
  cbn [cmd_Candidates with_replacements]. destruct (mapM _ _) as [results|] eqn:Hm; [|done]. intros [= <- <- <-].
  destruct (terminate_all kube now _ results Hk Hok Hm) as [Hs Hd]. split_and!; [done..|]. intros n Hn. split; [by apply Hall|by apply Hd].
Qed.

(** What a reconciliation did: nothing, or it rechecked the command [a] of the claim and
    either keeps it or takes its candidates out. *)
Record reconciled (kube : KubeApi) (s : QueueState E) (a : nat) (qc : QueuedCommand E) (s' : QueueState E) (done : bool) : Prop := {
  rc_source : q_source (qs_queue s') = q_source (qs_queue s);
  rc_command : ∃ cmd' succeeded, q_commands (qs_queue s') = <[a := update_command qc cmd' succeeded]> (q_commands (qs_queue s)) ∧
    (done = false → succeeded = qc_Succeeded qc) ∧
    Forall2 same_candidate (cmd_Candidates (qc_Command qc)) (cmd_Candidates cmd') ∧
    Forall2 (rechecked kube) (cmd_Replacements (qc_Command qc)) (cmd_Replacements cmd') ∧
    ∃ ws, qs_writes s' = qs_writes s ++ ws ∧ ∀ n, DeleteClaim n ∈ ws →
      Forall (λ r, rp_Initialized r = true) (cmd_Replacements cmd') ∧ ∃ c', c' ∈ cmd_Candidates cmd' ∧ claim_name_of c' = n;
  rc_ids id : ProviderIDToCommand (qs_queue s') !! id =
    if decide (done = true ∧ id ∈ command_ids (qc_Command qc)) then None else ProviderIDToCommand (qs_queue s) !! id;
}.

Lemma give_up_no_delete kube now (cmd : Command E) w : w ∈ give_up_writes capi kube now cmd → ~ is_delete w.
Proof. intros [?|?]%elem_of_app; [by eapply require_no_delete|by eapply clear_no_delete]. Qed.

Lemma CompleteCommand_spec (s : QueueState E) qc s' : CompleteCommand s qc = Some s' →
  q_commands (qs_queue s') = q_commands (qs_queue s) ∧ q_source (qs_queue s') = q_source (qs_queue s) ∧ qs_writes s' = qs_writes s ∧
  ∀ id, ProviderIDToCommand (qs_queue s') !! id =
    if decide (id ∈ command_ids (qc_Command qc)) then None else ProviderIDToCommand (qs_queue s) !! id.
Proof.
  unfold CompleteCommand. destruct (if qc_Succeeded qc then _ else _); [|done]. intros [= <-]. split_and!; [done..|].
  intros id. apply foldl_delete_lookup.
Qed.

Lemma Queue_Reconcile_spec kube now later (s : QueueState E) nc s' requeue a qc : kube_ok kube →
  Queue_Reconcile capi kube now later s nc = Some (s', requeue) →
  ProviderIDToCommand (qs_queue s) !! claim_ProviderID nc = Some a → q_commands (qs_queue s) !! a = Some qc →
  Forall candidate_ok (cmd_Candidates (qc_Command qc)) →
  reconciled kube s a qc s' (if requeue is Some _ then false else true).
Proof.
  intros Hk. unfold Queue_Reconcile. intros H Ha Hqc Hok. rewrite Ha, Hqc in H. unfold waitOrTerminate in H.
  destruct (wait_or_terminate capi kube now (qs_cluster s) (qc_Command qc)) as [[[cmd' ws] err]|] eqn:Hw; [|done].
  destruct (wait_or_terminate_spec kube now _ _ _ _ _ Hk Hok Hw) as (Hs & Hr & Hd).
  pose proof (same_candidates_ids _ _ Hok Hs) as Hids. change (command_ids cmd' = command_ids (qc_Command qc)) in Hids.
  assert (∀ now n, DeleteClaim n ∈ ws ++ give_up_writes capi kube now cmd' →
    Forall (λ r, rp_Initialized r = true) (cmd_Replacements cmd') ∧ ∃ c', c' ∈ cmd_Candidates cmd' ∧ claim_name_of c' = n) as Hd'.
  { intros now' n [?|Hg]%elem_of_app; [by apply Hd|]. by destruct (give_up_no_delete _ _ _ _ Hg). }
  destruct (if _ <? _ then _ else _) as [[|]|].
  - injection H as <- <-. split; [done| |].
    + eexists _, _; split_and!; [done..|by exists ws].
    + intros id. by rewrite decide_False by naive_solver.
  - destruct (CompleteCommand _ _) as [s2|] eqn:Hc; [|done]. injection H as <- <-.
    apply CompleteCommand_spec in Hc as (Hc1 & Hc2 & Hc3 & Hc4). split; [done|eexists _, _; split_and!; [exact Hc1|done..|]|].
    + eexists (ws ++ give_up_writes capi kube later cmd'). split; [rewrite Hc3; symmetry; apply app_assoc|apply Hd'].
    + intros id. rewrite Hc4. cbn [qc_Command update_command]. rewrite Hids. apply decide_ext. naive_solver.
  - destruct (CompleteCommand _ _) as [s2|] eqn:Hc; [|done]. injection H as <- <-.
    apply CompleteCommand_spec in Hc as (Hc1 & Hc2 & Hc3 & Hc4). split; [done|eexists _, _; split_and!; [exact Hc1|done..|]|].
    + eexists ws. rewrite Hc3. done.
    + intros id. rewrite Hc4. cbn [qc_Command update_command]. rewrite Hids. apply decide_ext. naive_solver.
Qed.

Lemma enqueue_Some (q : Queue E) qc q' : enqueue q qc = Some q' → enqueued q qc q'.
Proof.
  intros H. destruct (decide (cmd_Candidates (qc_Command qc) = [])) as [Hn|Hn]; [by unfold enqueue in H; rewrite Hn in H|].
  destruct (enqueue_spec q qc Hn) as (q2 & H2 & ?). congruence.
Qed.

Lemma StartCommand_checked_cases `{LA : Launcher} kube now nodes (s : QueueState E) qc s' err : new_command qc →
  StartCommand_checked capi kube BatchMaxDuration now nodes s qc = Some (s', err) →
  ∃ ws, qs_writes s' = qs_writes s ++ ws ∧ (∀ w, w ∈ ws → ~ is_delete w) ∧
    (qs_queue s' = qs_queue s ∨
      ∃ marked names, marked `sublist_of` cmd_Candidates (qc_Command qc) ∧
        enqueued (qs_queue s) (queued_as qc marked names) (qs_queue s')).
Proof.
  intros Hnew. unfold StartCommand_checked. assert (∀ w, w ∈ ([] : list kube_write) → ~ is_delete w) as Hnil by (by intros w []%elem_of_nil).
  case_bool_decide; [intros [= <- <-]; exists []; rewrite app_nil_r; by auto|].
  destruct (markDisrupted_spec capi kube now (Method_Reason (qc_Method qc)) (qs_cluster s) (cmd_Candidates (qc_Command qc)))
    as (ws & failed & -> & _ & Hd).
  { eapply Forall_impl; [apply Hnew|]. intros c (node & nc & _ & Hc & _). by eexists. }
  destruct (failed && _); [intros [= <- <-]; exists ws; by auto|]. unfold launch_and_enqueue.
  destruct (createReplacementNodeClaims _ _ _) as [[c1 [rs|e]]|] eqn:Hc; [|intros [= <- <-]; exists ws; by auto|done].
  destruct (MarkForDeletion _ _) as [c2|]; [|done]. destruct (enqueue _ _) as [q'|] eqn:Hq; [|done]. intros [= <- <-].
  exists ws. split_and!; [done..|]. right. apply enqueue_Some in Hq.
  unfold createReplacementNodeClaims in Hc. destruct (launch_replacements _ _ _) as [[[c3 names] errs]|]; [|done].
  destruct errs; [|done]. destruct (negb _); [done|]. injection Hc as <- <-. eexists _, names. split; [|exact Hq]. apply sublist_filter.
Qed.

(** *** The invariant *)

Record queue_inv (h : list KubeApi) (s : QueueState E) : Prop := {
  qi_stored id a : ProviderIDToCommand (qs_queue s) !! id = Some a →
    ∃ qc, q_commands (qs_queue s) !! a = Some qc ∧ id ∈ command_ids (qc_Command qc) ∧ qc_Succeeded qc = false;
  qi_whole id a qc : ProviderIDToCommand (qs_queue s) !! id = Some a → q_commands (qs_queue s) !! a = Some qc →
    ∀ id', id' ∈ command_ids (qc_Command qc) → ProviderIDToCommand (qs_queue s) !! id' = Some a;
  qi_pending id a qc : ProviderIDToCommand (qs_queue s) !! id = Some a → q_commands (qs_queue s) !! a = Some qc →
    ∃ first rest, cmd_Candidates (qc_Command qc) = first :: rest ∧
      (claim_name_of first ∈ q_source (qs_queue s) ∨ gone h (claim_name_of first));
  qi_candidates a qc : q_commands (qs_queue s) !! a = Some qc → Forall candidate_ok (cmd_Candidates (qc_Command qc));
  qi_initialized a qc r : q_commands (qs_queue s) !! a = Some qc → r ∈ cmd_Replacements (qc_Command qc) →
    rp_Initialized r = true → seen_initialized h (rp_Name r);
  qi_deletes n : DeleteClaim n ∈ qs_writes s → ∃ a qc c, q_commands (qs_queue s) !! a = Some qc ∧
    c ∈ cmd_Candidates (qc_Command qc) ∧ claim_name_of c = n ∧ Forall (λ r, rp_Initialized r = true) (cmd_Replacements (qc_Command qc));
}.

Lemma seen_mono h h' name : seen_initialized h name → seen_initialized (h ++ h') name.
Proof. intros (k & nc & ? & ?). exists k, nc. split; [apply elem_of_app; by left|done]. Qed.
Lemma gone_mono h h' name : gone h name → gone (h ++ h') name.
Proof. intros (k & ? & ?). exists k. split; [apply elem_of_app; by left|done]. Qed.
#[local] Hint Resolve seen_mono gone_mono : core.

(** The invariant reads the queue and the writes, and only grows with the history. *)
Lemma queue_inv_same h h' s s' : queue_inv h s → qs_queue s' = qs_queue s → 
  (∀ n, DeleteClaim n ∈ qs_writes s' → DeleteClaim n ∈ qs_writes s) → queue_inv (h ++ h') s'.
Proof.
  intros [H1 H2 H3 H4 H5 H6] Hq Hw. split; rewrite ?Hq; eauto.
  intros id a qc Ha Hqc. destruct (H3 id a qc Ha Hqc) as (f & r & ? & [?|?]); eauto 6.
Qed.

Lemma command_ids_elem (cmd : Command E) c : c ∈ cmd_Candidates cmd → candidate_ProviderID c ∈ command_ids cmd.
Proof. intros. by apply list_elem_of_fmap_2. Qed.

Lemma sublist_ids (qc : QueuedCommand E) marked names id : marked `sublist_of` cmd_Candidates (qc_Command qc) →
  id ∈ command_ids (qc_Command (queued_as qc marked names)) → id ∈ command_ids (qc_Command qc).
Proof.
  intros Hs Hid. apply list_elem_of_fmap in Hid as (c & -> & Hc). apply command_ids_elem. by eapply elem_of_sublist.
Qed.

Lemma queued_as_uninitialized (qc : QueuedCommand E) marked names r : new_command qc →
  r ∈ cmd_Replacements (qc_Command (queued_as qc marked names)) → rp_Initialized r = false.
Proof.
  intros [_ _ H] Hr. cbn in Hr. apply elem_of_lookup_zip_with in Hr as (i & r0 & name & -> & Hi & _).
  rewrite Forall_lookup in H. exact (H i r0 Hi).
Qed.

Lemma enqueue_inv h kube s s' qc marked names ws : queue_inv h s → new_command qc →
  (∀ id, id ∈ command_ids (qc_Command qc) → ProviderIDToCommand (qs_queue s) !! id = None) → marked `sublist_of` cmd_Candidates (qc_Command qc) →
  enqueued (qs_queue s) (queued_as qc marked names) (qs_queue s') → qs_writes s' = qs_writes s ++ ws → (∀ w, w ∈ ws → ~ is_delete w) →
  queue_inv (h ++ [kube]) s'.
Proof.
  intros [H1 H2 H3 H4 H5 H6] Hnew Hfree Hsub (Hcmds & (first & rest & Hfirst & Hsrc) & Hmap) Hw Hd.
  set (a0 := fresh (dom (q_commands (qs_queue s)))) in *. set (qc' := queued_as qc marked names) in *.
  assert (q_commands (qs_queue s) !! a0 = None) as Ha0 by (apply not_elem_of_dom, is_fresh).
  assert (∀ id a, ProviderIDToCommand (qs_queue s) !! id = Some a → a ≠ a0) as Hne.
  { intros id a (qc1 & Hqc & _)%H1 ->. congruence. }
  assert (∀ a qc1, q_commands (qs_queue s') !! a = Some qc1 → a = a0 ∧ qc1 = qc' ∨ a ≠ a0 ∧ q_commands (qs_queue s) !! a = Some qc1) as Hlook.
  { intros a qc1. rewrite Hcmds. intros [[<- <-]|[? ?]]%lookup_insert_Some; auto. }
  assert (∀ a qc1, q_commands (qs_queue s) !! a = Some qc1 → q_commands (qs_queue s') !! a = Some qc1) as Hkeep.
  { intros a qc1 Ha. rewrite Hcmds, lookup_insert_ne; [done|]. congruence. }
  assert (Forall candidate_ok (cmd_Candidates (qc_Command qc'))) as Hok.
  { apply Forall_forall. intros c Hc. destruct Hnew as [_ Hn _]. rewrite Forall_forall in Hn. apply Hn. by eapply elem_of_sublist. }
  split.
  - intros id a. rewrite Hmap. case_decide as Hid; [intros [= <-]|intros (qc1 & ? & ?)%H1; by eauto].
    exists qc'. rewrite Hcmds, lookup_insert_eq. split_and!; [done..|]. apply Hnew.
  - intros id a qc1 Ha Hqc1 id' Hid'. rewrite Hmap in Ha |- *. destruct (Hlook _ _ Hqc1) as [[-> ->]|[Hna Hqc]].
    + by rewrite decide_True.
    + case_decide as Hid; [congruence|]. pose proof (H2 _ _ _ Ha Hqc _ Hid') as Hm.
      rewrite decide_False; [done|]. intros Hin%sublist_ids; [|done]. rewrite Hfree in Hm by done. done.
  - intros id a qc1 Ha Hqc1. destruct (Hlook _ _ Hqc1) as [[-> ->]|[Hna Hqc]].
    + exists first, rest. split; [done|]. left. rewrite Hsrc. apply elem_of_app. right. by left.
    + rewrite Hmap in Ha. case_decide as Hid; [congruence|]. destruct (H3 _ _ _ Ha Hqc) as (f & r & ? & [?|?]); eexists _, _; split; eauto.
      left. rewrite Hsrc. apply elem_of_app. by left.
  - intros a qc1 Hqc1. destruct (Hlook _ _ Hqc1) as [[-> ->]|[_ Hqc]]; eauto.
  - intros a qc1 r Hqc1 Hr Hi. destruct (Hlook _ _ Hqc1) as [[-> ->]|[_ Hqc]]; [|eauto].
    by rewrite (queued_as_uninitialized qc marked names r) in Hi.
  - intros n. rewrite Hw. intros [Hn|Hn]%elem_of_app; [|by destruct (Hd _ Hn)].
    destruct (H6 n Hn) as (a & qc1 & c & Hqc & ?). exists a, qc1, c. split; [by apply Hkeep|done].
Qed.

Lemma pending_id h s id a qc first rest : queue_inv h s → ProviderIDToCommand (qs_queue s) !! id = Some a →
  q_commands (qs_queue s) !! a = Some qc → cmd_Candidates (qc_Command qc) = first :: rest →
  ProviderIDToCommand (qs_queue s) !! pid (claim_name_of first) = Some a.
Proof.
  intros Hinv Ha Hqc Hf. pose proof (qi_candidates _ _ Hinv _ _ Hqc) as Hok. rewrite Hf in Hok. apply Forall_cons in Hok as [Hok _].
  eapply (qi_whole _ _ Hinv); [done..|]. rewrite <-candidate_ok_id by done. apply command_ids_elem. rewrite Hf. by left.
Qed.

Lemma same_candidates_first cs cs' first rest : Forall2 same_candidate cs cs' → cs = first :: rest →
  ∃ first' rest', cs' = first' :: rest' ∧ claim_name_of first' = claim_name_of first.
Proof. intros H ->. inversion H as [|? y ? ? [_ Hn]]; subst. by eexists _, _. Qed.

Lemma same_candidates_ok cs cs' : Forall2 same_candidate cs cs' → Forall candidate_ok cs'.
Proof. induction 1 as [|? ? ? ? [? _]]; by constructor. Qed.

Lemma rechecked_seen kube h rs rs' : Forall2 (rechecked kube) rs rs' →
  (∀ r, r ∈ rs → rp_Initialized r = true → seen_initialized h (rp_Name r)) →
  ∀ r, r ∈ rs' → rp_Initialized r = true → seen_initialized (h ++ [kube]) (rp_Name r).
Proof.
  intros H Hseen r Hr Hi. apply list_elem_of_lookup in Hr as [i Hr]. destruct (Forall2_lookup_r _ _ _ _ _ H Hr) as (r0 & Hr0 & Hn & _ & Hrc).
  rewrite Hn. destruct (Hrc Hi) as [H0|(k & nc & Hk & ?)].
  - apply seen_mono, Hseen; [by eapply list_elem_of_lookup_2|done].
  - exists k, nc. split; [|done]. apply elem_of_app. by right.
Qed.

Lemma rechecked_all kube rs rs' : Forall2 (rechecked kube) rs rs' →
  Forall (λ r, rp_Initialized r = true) rs → Forall (λ r, rp_Initialized r = true) rs'.
Proof. induction 1 as [|? ? ? ? (_ & Hr & _) _ IH]; [done|]. intros [? ?]%Forall_cons. constructor; auto. Qed.

Lemma reconcile_inv h kube s s' l1 name l2 a qc fin : queue_inv h s → q_source (qs_queue s) = l1 ++ name :: l2 →
  ProviderIDToCommand (qs_queue s) !! pid name = Some a → q_commands (qs_queue s) !! a = Some qc → reconciled kube s a qc s' fin →
  queue_inv (h ++ [kube]) (take_event s' (if fin then l1 ++ l2 else l1 ++ name :: l2)).
Proof.
  intros Hinv Hsrc Ha Hqc [Hs' (cmd' & succ & Hcmds & Hsucc & Hcs & Hrs & ws & Hw & Hd) Hids].
  pose proof Hinv as [H1 H2 H3 H4 H5 H6]. pose proof (H4 _ _ Hqc) as Hok.
  pose proof (same_candidates_ids _ _ Hok Hcs) as Hsame. change (command_ids cmd' = command_ids (qc_Command qc)) in Hsame.
  set (qc' := update_command qc cmd' succ) in *.
  assert (∀ b qc1, q_commands (qs_queue s') !! b = Some qc1 → b = a ∧ qc1 = qc' ∨ b ≠ a ∧ q_commands (qs_queue s) !! b = Some qc1) as Hlook.
  { intros b qc1. rewrite Hcmds. intros [[<- <-]|[? ?]]%lookup_insert_Some; auto. }
  assert (∀ id b, ProviderIDToCommand (qs_queue s') !! id = Some b → ProviderIDToCommand (qs_queue s) !! id = Some b ∧ (fin = true → b ≠ a)) as Hold.
  { intros id b. rewrite Hids. destruct (decide _) as [Hi|Hi]; [done|]. intros Hb. split; [done|]. intros -> ->. apply Hi. split; [done|].
    destruct (H1 _ _ Hb) as (qc1 & ? & ? & _). congruence. }
  split; cbn [take_event with_queue qs_queue qs_writes ProviderIDToCommand q_commands q_source].
  - intros id b [Hb Hfin]%Hold. destruct (H1 _ _ Hb) as (qc1 & Hqc1 & Hin & Hf). destruct (decide (b = a)) as [->|Hne].
    + rewrite Hcmds, lookup_insert_eq. exists qc'. assert (qc1 = qc) as -> by congruence. split_and!; [done|by cbn; rewrite Hsame|].
      destruct fin; [by destruct (Hfin eq_refl)|]. cbn. by rewrite Hsucc.
    + rewrite Hcmds, lookup_insert_ne by done. eauto.
  - intros id b qc1 [Hb Hfin]%Hold Hqc1 id' Hid'. rewrite Hids. destruct (Hlook _ _ Hqc1) as [[-> ->]|[Hne Hqc2]].
    + destruct fin; [by destruct (Hfin eq_refl)|]. rewrite decide_False by naive_solver. cbn in Hid'. rewrite Hsame in Hid'. eauto.
    + pose proof (H2 _ _ _ Hb Hqc2 _ Hid') as Hm. rewrite decide_False; [done|]. intros [_ Hin]. apply Hne.
      pose proof (H2 _ _ _ Ha Hqc _ Hin). congruence.
  - intros id b qc1 [Hb Hfin]%Hold Hqc1. destruct (Hlook _ _ Hqc1) as [[-> ->]|[Hne Hqc2]].
    + destruct fin; [by destruct (Hfin eq_refl)|]. destruct (H3 _ _ _ Hb Hqc) as (f & r & Hf & Hp).
      destruct (same_candidates_first _ _ _ _ Hcs Hf) as (f' & r' & Hf' & Hn). exists f', r'. split; [done|]. rewrite Hn, <-Hsrc.
      destruct Hp; auto.
    + destruct (H3 _ _ _ Hb Hqc2) as (f & r & Hf & Hp). exists f, r. split; [done|]. destruct Hp as [Hp|?]; [left|auto].
      destruct fin; [|by rewrite <-Hsrc]. rewrite Hsrc in Hp. apply elem_of_app in Hp as [?|[Hx|?]%elem_of_cons]; [by apply elem_of_app; left| |by apply elem_of_app; right].
      exfalso. apply Hne. pose proof (pending_id _ _ _ _ _ _ _ Hinv Hb Hqc2 Hf) as Hpid. rewrite Hx in Hpid. congruence.
  - intros b qc1 Hqc1. destruct (Hlook _ _ Hqc1) as [[-> ->]|[_ Hqc2]]; [by eapply same_candidates_ok|eauto].
  - intros b qc1 r Hqc1 Hr Hi. destruct (Hlook _ _ Hqc1) as [[-> ->]|[_ Hqc2]]; [|eauto].
    eapply rechecked_seen; [exact Hrs| |exact Hr|done]. intros r0 ? ?. by eapply H5.
  - intros n. rewrite Hw. intros [Hn|Hn]%elem_of_app.
    + destruct (H6 n Hn) as (b & qc1 & c & Hqc1 & Hc & Hcn & Hall). rewrite Hcmds. destruct (decide (b = a)) as [->|Hne].
      * assert (qc1 = qc) as -> by congruence. apply list_elem_of_lookup in Hc as [i Hc].
        destruct (Forall2_lookup_l _ _ _ _ _ Hcs Hc) as (c' & Hc' & _ & Hn'). exists a, qc', c'. rewrite lookup_insert_eq.
        split_and!; [done|by eapply list_elem_of_lookup_2|congruence|by eapply rechecked_all].
      * exists b, qc1, c. by rewrite lookup_insert_ne.
    + destruct (Hd n Hn) as (Hall & c' & Hc' & Hn'). exists a, qc', c'. by rewrite Hcmds, lookup_insert_eq.
Qed.

Lemma drop_inv h kube s l1 name l2 : queue_inv h s → q_source (qs_queue s) = l1 ++ name :: l2 →
  (kube_claim kube name = Err NotFound ∨ ProviderIDToCommand (qs_queue s) !! pid name = None) →
  queue_inv (h ++ [kube]) (take_event s (l1 ++ l2)).
Proof.
  intros Hinv Hsrc Hgone. pose proof Hinv as [H1 H2 H3 H4 H5 H6]. split; cbn; eauto.
  intros id a qc Ha Hqc. destruct (H3 _ _ _ Ha Hqc) as (f & r & Hf & Hp). exists f, r. split; [done|]. destruct Hp as [Hp|?]; [|auto].
  rewrite Hsrc in Hp. apply elem_of_app in Hp as [?|[Hx|?]%elem_of_cons]; [left; by apply elem_of_app; left| |left; by apply elem_of_app; right].
  destruct Hgone as [Hk|Hn]; [right; exists kube; rewrite Hx; split; [apply elem_of_app; right; by left|done]|].
  pose proof (pending_id _ _ _ _ _ _ _ Hinv Ha Hqc Hf) as Hpid. rewrite Hx in Hpid. congruence.
Qed.

(** The commands that are being started are new, not in the queue and without common
    candidates. *)
Record starts_inv (p : list (QueuedCommand E)) (s : QueueState E) : Prop := {
  si_new : Forall new_command p;
  si_free qc id : qc ∈ p → id ∈ command_ids (qc_Command qc) → ProviderIDToCommand (qs_queue s) !! id = None;
  si_disjoint p1 qc p2 qc' : p = p1 ++ qc :: p2 → qc' ∈ p1 ++ p2 → disjoint_commands qc qc';
}.

Lemma starts_inv_same p s s' : starts_inv p s →
  (∀ id, ProviderIDToCommand (qs_queue s) !! id = None → ProviderIDToCommand (qs_queue s') !! id = None) → starts_inv p s'.
Proof. intros [H1 H2 H3] Hq. split; eauto. Qed.

Lemma disjoint_commands_sym qc qc' : disjoint_commands qc qc' → disjoint_commands qc' qc.
Proof. intros H id H1 H2. exact (H id H2 H1). Qed.

Lemma starts_inv_check p s qc : starts_inv p s → new_command qc → HasAny (qs_queue s) (command_ids (qc_Command qc)) = false →
  (∀ qc', qc' ∈ p → disjoint_commands qc qc') → starts_inv (p ++ [qc]) s.
Proof.
  intros [H1 H2 H3] Hn Hf Hd. split.
  - by apply Forall_app_2; [|constructor].
  - intros qc' id [?| ->%list_elem_of_singleton]%elem_of_app; [by eapply H2|by eapply HasAny_false].
  - intros p1 qc1 p2 qc2 Heq Hin. destruct p2 as [|x p2 _] using rev_ind.
    + apply app_inj_tail in Heq as [-> ->]. rewrite app_nil_r in Hin. by apply Hd.
    + rewrite app_comm_cons, app_assoc in Heq. apply app_inj_tail in Heq as [-> ->]. rewrite app_assoc in Hin.
      apply elem_of_app in Hin as [Hin| ->%list_elem_of_singleton]; [by eapply H3|]. apply disjoint_commands_sym, Hd.
      apply elem_of_app. right. by left.
Qed.

Lemma starts_inv_drop p1 qc p2 s : starts_inv (p1 ++ qc :: p2) s → starts_inv (p1 ++ p2) s.
Proof.
  assert (∀ x, x ∈ p1 ++ p2 → x ∈ p1 ++ qc :: p2) as Hin by (intros x; rewrite !elem_of_app, elem_of_cons; naive_solver).
  intros [H1 H2 H3]. split; [rewrite Forall_forall in H1 |- *; auto|eauto|].
  intros q1 qc1 q2 qc' Heq Hqc'. apply app_eq_inv in Heq as [(k & E1 & E2)|(k & E1 & E2)]; subst.
  - destruct k as [|y k]; cbn in E2.
    + rewrite app_nil_r in *. subst p2. eapply (H3 (q1 ++ [qc]) qc1 q2); [by rewrite <-app_assoc|]. rewrite !elem_of_app in *. naive_solver.
    + injection E2 as <- ->. eapply (H3 q1 qc1 (k ++ qc :: p2)); [by rewrite <-app_assoc|].
      rewrite !elem_of_app in *. rewrite !elem_of_cons. naive_solver.
  - eapply (H3 (p1 ++ qc :: k) qc1 q2); [by rewrite <-app_assoc|]. rewrite !elem_of_app in *. rewrite !elem_of_cons. naive_solver.
Qed.

Lemma starts_inv_enqueued p1 qc p2 s s' marked names : starts_inv (p1 ++ qc :: p2) s → marked `sublist_of` cmd_Candidates (qc_Command qc) →
  enqueued (qs_queue s) (queued_as qc marked names) (qs_queue s') → starts_inv (p1 ++ p2) s'.
Proof.
  intros Hs Hsub (_ & _ & Hmap). pose proof (starts_inv_drop _ _ _ _ Hs) as [H1 H2 H3]. split; [done| |done].
  intros qc' id Hqc' Hid. rewrite Hmap, decide_False; [by eapply H2|]. intros Hin%sublist_ids; [|done].
  exact (si_disjoint _ _ Hs p1 qc p2 qc' eq_refl Hqc' id Hin Hid).
Qed.

Lemma being_started p1 qc p2 s : starts_inv (p1 ++ qc :: p2) s → new_command qc ∧
  ∀ id, id ∈ command_ids (qc_Command qc) → ProviderIDToCommand (qs_queue s) !! id = None.
Proof.
  intros [H1 H2 _]. split; [rewrite Forall_forall in H1; apply H1|intros id; apply H2]; rewrite elem_of_app; right; by left.
Qed.

Definition run_inv_at (r : list KubeApi * list (QueuedCommand E) * QueueState E) : Prop := queue_inv r.1.1 r.2 ∧ starts_inv r.1.2 r.2.

Lemma queue_step_inv r r' : queue_step r r' → run_inv_at r → run_inv_at r'.
Proof.
  intros Hstep [Hinv Hsi]. destruct Hstep as [h p s qc Hnew Hany Hd|h p s qc Hany|LA kube now nodes h p1 qc p2 s s' err Hk Hst
    |kube now later h p s l1 name l2 nc s1 requeue Hk Hsrc Hnc Hr|kube h p s l1 name l2 Hsrc Hnc|h p s c|h p s ws Hd]; cbn [fst snd] in *; unfold run_inv_at; cbn [fst snd].
  - split; [done|by apply starts_inv_check].
  - split; [rewrite <-(app_nil_r h); by eapply queue_inv_same|by eapply starts_inv_same].
  - destruct (being_started _ _ _ _ Hsi) as [Hnew Hfree].
    destruct (StartCommand_checked_cases kube now nodes s qc s' err Hnew Hst) as (ws & Hw & Hd & [Hq|(marked & names & Hsub & Hq)]).
    + split; [|eapply starts_inv_same; [by eapply starts_inv_drop|by rewrite Hq]].
      eapply queue_inv_same; [done..|]. intros n. rewrite Hw. intros [?|Hn]%elem_of_app; [done|]. by destruct (Hd _ Hn).
    + split; [by eapply enqueue_inv|by eapply starts_inv_enqueued].
  - pose proof (ko_pid _ Hk _ _ Hnc) as Hp. destruct (ProviderIDToCommand (qs_queue s) !! pid name) as [a|] eqn:Ha.
    + destruct (qi_stored _ _ Hinv _ _ Ha) as (qc & Hqc & _).
      pose proof (Queue_Reconcile_spec kube now later s nc s1 requeue a qc Hk Hr ltac:(by rewrite Hp) Hqc (qi_candidates _ _ Hinv _ _ Hqc)) as Hrec.
      split; [pose proof (reconcile_inv h kube s s1 l1 name l2 a qc _ Hinv Hsrc Ha Hqc Hrec) as HH; by destruct requeue|].
      eapply starts_inv_same; [done|]. intros id Hid. cbn. rewrite (rc_ids _ _ _ _ _ _ Hrec). by destruct (decide _).
    + unfold Queue_Reconcile in Hr. rewrite Hp, Ha in Hr. injection Hr as <- <-. split; [eapply drop_inv; eauto|by eapply starts_inv_same].
  - split; [eapply drop_inv; eauto|by eapply starts_inv_same].
  - split; [rewrite <-(app_nil_r h); by eapply queue_inv_same|by eapply starts_inv_same].
  - split; [|by eapply starts_inv_same]. rewrite <-(app_nil_r h). eapply queue_inv_same; [done..|]. intros n [?|Hn]%elem_of_app; [done|]. by destruct (Hd _ Hn).
Qed.

(** An idle queue. *)
Definition idle (c : Cluster) : QueueState E := mkQueueState NewDisruptionQueue c [].

Lemma idle_inv c : queue_inv [] (idle c).
Proof. split; cbn; try (intros *; by rewrite lookup_empty). intros n []%elem_of_nil. Qed.

Lemma idle_run c : run_inv_at ([], [], idle c).
Proof. split; [apply idle_inv|]. split; [done|intros qc id []%elem_of_nil|]. by intros [|] qc p2 qc' H. Qed.

Lemma run_inv c h p s : rtc queue_step ([], [], idle c) (h, p, s) → queue_inv h s.
Proof.
  intros H. apply (rtc_ind_r run_inv_at ([], [], idle c)) in H as [H _]; [done|apply idle_run|].
  intros r r' _ Hs Hi. by eapply queue_step_inv.
Qed.

(** C2: in every run, a NodeClaim is asked to be deleted only for a command whose candidate it
    is, after each of the command's replacements was read from the API server as initialized
    at some point of the run. *)
Theorem deletes_follow_replacements c h p s n : rtc queue_step ([], [], idle c) (h, p, s) → DeleteClaim n ∈ qs_writes s →
  ∃ a qc cand, q_commands (qs_queue s) !! a = Some qc ∧ cand ∈ cmd_Candidates (qc_Command qc) ∧ claim_name_of cand = n ∧
    ∀ r, r ∈ cmd_Replacements (qc_Command qc) → seen_initialized h (rp_Name r).
Proof.
  intros Hinv%run_inv (a & qc & cand & Hqc & Hc & Hn & Hall)%(qi_deletes _ _ Hinv). exists a, qc, cand. split_and!; [done..|].
  intros r Hr. rewrite Forall_forall in Hall. by eapply (qi_initialized _ _ Hinv); [| |apply Hall].
Qed.

(** C5: in every run, a candidate is being disrupted by at most one command, although a start
    checks the queue in one step and inserts its command in a later one, with other starts and
    reconciliations between the two: as long as commands that are being started beside each
    other share no candidate (they are the commands of one pass), commands that are queued
    share none, all candidates of a queued command are queued with it, and the claim of its
    first candidate is waiting to be reconciled unless it was found gone. *)
Theorem one_command_per_candidate c h p s id a qc : rtc queue_step ([], [], idle c) (h, p, s) →
  ProviderIDToCommand (qs_queue s) !! id = Some a → q_commands (qs_queue s) !! a = Some qc →
  (∀ id', id' ∈ command_ids (qc_Command qc) → ProviderIDToCommand (qs_queue s) !! id' = Some a) ∧
  (∀ id' b qc', ProviderIDToCommand (qs_queue s) !! id' = Some b → q_commands (qs_queue s) !! b = Some qc' → b ≠ a →
    ∀ i, i ∈ command_ids (qc_Command qc) → i ∉ command_ids (qc_Command qc')) ∧
  ∃ first rest, cmd_Candidates (qc_Command qc) = first :: rest ∧
    (claim_name_of first ∈ q_source (qs_queue s) ∨ gone h (claim_name_of first)).
Proof.
  intros Hinv%run_inv Ha Hqc. split_and!.
  - by eapply (qi_whole _ _ Hinv).
  - intros id' b qc' Hb Hqc' Hne i Hi Hi'. apply Hne.
    pose proof (qi_whole _ _ Hinv _ _ _ Ha Hqc _ Hi). pose proof (qi_whole _ _ Hinv _ _ _ Hb Hqc' _ Hi'). congruence.
  - by eapply (qi_pending _ _ Hinv).
Qed.

Lemma retry_bounds (q : Queue E) : minRetryDuration ≤ GetMaxRetryDuration q ≤ maxRetryDuration.
Proof.
  unfold GetMaxRetryDuration, minRetryDuration, maxRetryDuration, second. cbv zeta.
  destruct (Z.ltb_spec (retryDurationScale * Z.of_nat (size (ProviderIDToCommand q))) (600 * 1000000000)); [lia|].
  destruct (Z.ltb_spec (3600 * 1000000000) (retryDurationScale * Z.of_nat (size (ProviderIDToCommand q)))); lia.
Qed.

(** The reconciliation of a command that is past its time: it ends as a failure, whatever
    the API server answers. *)
Lemma late_reconcile kube now later (s : QueueState E) nc a qc : cluster_wf (qs_cluster s) → Forall candidate_ok (cmd_Candidates (qc_Command qc)) →
  ProviderIDToCommand (qs_queue s) !! claim_ProviderID nc = Some a → q_commands (qs_queue s) !! a = Some qc →
  qc_Succeeded qc = false → maxRetryDuration < later - qc_CreationTimestamp qc →
  ∃ cmd' ws err c', wait_or_terminate capi kube now (qs_cluster s) (qc_Command qc) = Some (cmd', ws, err) ∧
    UnmarkForDeletion (qs_cluster s) (command_ids cmd') = Some c' ∧ cluster_wf c' ∧
    Queue_Reconcile capi kube now later s nc = Some (mkQueueState
      (mkDisruptionQueue (foldl (λ m id, delete id m) (ProviderIDToCommand (qs_queue s)) (command_ids cmd'))
         (<[a := update_command qc cmd' false]> (q_commands (qs_queue s))) (q_source (qs_queue s)))
      c' (qs_writes s ++ ws ++ give_up_writes capi kube later cmd'), None).
Proof.
  intros Hwf Hok Ha Hqc Hf Hlate.
  assert (is_Some (wait_or_terminate capi kube now (qs_cluster s) (qc_Command qc))) as [[[cmd' ws] err] Hw].
  { unfold wait_or_terminate. destruct (check_replacements _ _ _) as [rs []]; [by eexists..|].
    cbn [cmd_Candidates with_replacements]. destruct (terminate_total kube now _ Hok) as [rs' ->]. by eexists. }
  destruct (foldl_opt_wf unmark_one (command_ids cmd') (qs_cluster s) unmark_one_wf Hwf) as (c' & Hu & Hwf').
  exists cmd', ws, err, c'. split_and!; [done|exact Hu|done|]. unfold Queue_Reconcile, waitOrTerminate. rewrite Ha, Hqc, Hw.
  assert ((GetMaxRetryDuration (qs_queue s) <? later - qc_CreationTimestamp qc) = true) as ->.
  { apply Z.ltb_lt. pose proof (retry_bounds (qs_queue s)). lia. }
  rewrite Hf. unfold CompleteCommand. cbn [qc_Succeeded update_command with_queue add_writes qs_cluster qc_Command].
  unfold UnmarkForDeletion. rewrite Hu. cbn. by rewrite <-app_assoc.
Qed.

(** C13: a queued command does not stay forever. In every run, while the claim of its first
    candidate has not been found gone, that claim waits to be reconciled; and a
    reconciliation of it that ends more than an hour after the command was created takes
    the command out, whatever the API server and the cluster state say: none of its
    candidates is queued any more and those of other commands still are. *)
Theorem late_command_ends c h p s id a qc kube now later first rest nc : rtc queue_step ([], [], idle c) (h, p, s) →
  ProviderIDToCommand (qs_queue s) !! id = Some a → q_commands (qs_queue s) !! a = Some qc →
  cmd_Candidates (qc_Command qc) = first :: rest → ¬ gone h (claim_name_of first) →
  kube_ok kube → kube_claim kube (claim_name_of first) = Ok nc → cluster_wf (qs_cluster s) →
  maxRetryDuration < later - qc_CreationTimestamp qc →
  claim_name_of first ∈ q_source (qs_queue s) ∧
  ∃ s', Queue_Reconcile capi kube now later s nc = Some (s', None) ∧ cluster_wf (qs_cluster s') ∧
    ∀ id', ProviderIDToCommand (qs_queue s') !! id' =
      if decide (id' ∈ command_ids (qc_Command qc)) then None else ProviderIDToCommand (qs_queue s) !! id'.
Proof.
  intros Hinv%run_inv Ha Hqc Hf Hng Hk Hnc Hwf Hlate. split.
  { destruct (qi_pending _ _ Hinv _ _ _ Ha Hqc) as (f & r & Hf' & [?|?]); congruence. }
  pose proof (qi_candidates _ _ Hinv _ _ Hqc) as Hok. pose proof (pending_id _ _ _ _ _ _ _ Hinv Ha Hqc Hf) as Hp.
  rewrite <-(ko_pid _ Hk _ _ Hnc) in Hp. destruct (qi_stored _ _ Hinv _ _ Ha) as (qc1 & Hqc1 & _ & Hs). assert (qc1 = qc) as -> by congruence.
  destruct (late_reconcile kube now later s nc a qc Hwf Hok Hp Hqc Hs Hlate) as (cmd' & ws & err & c' & Hw & Hu & Hwf' & ->).
  eexists. split; [done|]. split; [done|]. intros id'. cbn [qs_queue ProviderIDToCommand]. rewrite foldl_delete_lookup.
  destruct (wait_or_terminate_spec kube now _ _ _ _ _ Hk Hok Hw) as (Hsame & _).
  change (command_ids cmd') with (candidate_ProviderID <$> cmd_Candidates cmd'). by rewrite (same_candidates_ids _ _ Hok Hsame).
Qed.

Lemma terminated_deletes kube now cands results : mapM (terminate_candidate capi kube now) cands = Some results →
  existsb id results.*2 = false → ∀ c', c' ∈ results.*1.*1 → DeleteClaim (claim_name_of c') ∈ mjoin results.*1.*2.
Proof.
  intros H%mapM_Some. induction H as [|c [[c' ws] f] cands results Ht _ IH]; [by intros _ c' []%elem_of_nil|].
  cbn. intros [Hf Hall]%orb_false_iff c2 [->|Hc2]%elem_of_cons; apply elem_of_app; [left|right; by apply IH].
  unfold terminate_candidate in Ht. destruct (st_NodeClaim (c_StateNode c)); [|done]. destruct (stamp_deadline _ _ _ _ _) as [ws' [c1|e]].
  - injection Ht as <- <- _. apply elem_of_app. right. by left.
  - injection Ht as _ _ <-. done.
Qed.

(** A deletion that succeeds late is recorded as a failure. When every replacement is ready
    and every delete request of a command is served, but the handler returns after the
    timeout, the command still ends as failed: the candidates it has just asked to delete are
    untainted, lose their DisruptionReason and are unmarked in the cluster state. *)
Theorem late_success_is_undone kube now later (s : QueueState E) nc a qc cmd' ws : cluster_wf (qs_cluster s) →
  Forall candidate_ok (cmd_Candidates (qc_Command qc)) →
  ProviderIDToCommand (qs_queue s) !! claim_ProviderID nc = Some a → q_commands (qs_queue s) !! a = Some qc →
  qc_Succeeded qc = false → maxRetryDuration < later - qc_CreationTimestamp qc →
  wait_or_terminate capi kube now (qs_cluster s) (qc_Command qc) = Some (cmd', ws, None) →
  (∀ cand, cand ∈ cmd_Candidates cmd' → DeleteClaim (claim_name_of cand) ∈ ws) ∧
  ∃ s', Queue_Reconcile capi kube now later s nc = Some (s', None) ∧
    qs_writes s' = qs_writes s ++ ws ++ give_up_writes capi kube later cmd' ∧
    UnmarkForDeletion (qs_cluster s) (command_ids cmd') = Some (qs_cluster s') ∧
    q_commands (qs_queue s') !! a = Some (update_command qc cmd' false).
Proof.
  intros Hwf Hok Ha Hqc Hf Hlate Hw. split.
  - unfold wait_or_terminate in Hw. destruct (check_replacements _ _ _) as [rs []]; [done..|]. cbn [cmd_Candidates with_replacements] in Hw.
    destruct (mapM _ _) as [results|] eqn:Hm; [|done]. injection Hw as <- <- He. cbn. apply (terminated_deletes kube now _ _ Hm).
    by destruct (existsb _ _).
  - destruct (late_reconcile kube now later s nc a qc Hwf Hok Ha Hqc Hf Hlate) as (cmd2 & ws2 & err & c' & Hw2 & Hu & _ & ->).
    rewrite Hw in Hw2. injection Hw2 as <- <- _. eexists. split; [done|]. split_and!; [done..|]. cbn. apply lookup_insert_eq.
Qed.

(** *** Commands that are lost *)

(** No claim that waits belongs to the command [a]. *)
Definition unattended (s : QueueState E) (a : nat) : Prop := ∀ name, name ∈ q_source (qs_queue s) →
  ProviderIDToCommand (qs_queue s) !! pid name ≠ Some a.

Lemma unattended_step r r' id a : run_inv_at r → queue_step r r' → unattended r.2 a →
  ProviderIDToCommand (qs_queue r.2) !! id = Some a → unattended r'.2 a ∧ ProviderIDToCommand (qs_queue r'.2) !! id = Some a.
Proof.
  intros [Hinv Hsi] Hstep Hun Ha. destruct Hstep as [h p s qc _ _ _|h p s qc _|LA kube now nodes h p1 qc p2 s s' err Hk Hst
    |kube now later h p s l1 name l2 nc s1 requeue Hk Hsrc Hnc Hr|kube h p s l1 name l2 Hsrc Hnc|h p s c|h p s ws Hd]; cbn [fst snd] in *; [done|done| | | |done|done].
  - destruct (being_started _ _ _ _ Hsi) as [Hnew Hfree].
    destruct (StartCommand_checked_cases kube now nodes s qc s' err Hnew Hst) as (ws & _ & _ & [Hq|(marked & names & Hsub & Hq)]).
    { unfold unattended. by rewrite Hq. }
    destruct Hq as (_ & (first & rest & Hfirst & Hsrc) & Hmap). destruct (qi_stored _ _ Hinv _ _ Ha) as (qa & Hqa & _).
    assert (fresh (dom (q_commands (qs_queue s))) ≠ a) as Hfr.
    { intros <-. assert (q_commands (qs_queue s) !! fresh (dom (q_commands (qs_queue s))) = None) by (apply not_elem_of_dom, is_fresh). congruence. }
    split.
    + intros name Hname. rewrite Hmap. destruct (decide _) as [|Hni]; [congruence|]. rewrite Hsrc in Hname.
      apply elem_of_app in Hname as [?| ->%list_elem_of_singleton]; [by apply Hun|]. destruct Hni.
      rewrite <-candidate_ok_id; [apply command_ids_elem; rewrite Hfirst; by left|].
      destruct Hnew as [_ Hn _]. rewrite Forall_forall in Hn. apply Hn. eapply elem_of_sublist; [|exact Hsub].
      change (first ∈ cmd_Candidates (qc_Command (queued_as qc marked names))). rewrite Hfirst. by left.
    + rewrite Hmap, decide_False; [done|]. intros Hin%sublist_ids; [|done]. by rewrite (Hfree _ Hin) in Ha.
  - pose proof (ko_pid _ Hk _ _ Hnc) as Hp.
    assert (∀ n, n ∈ (if requeue is Some _ then l1 ++ name :: l2 else l1 ++ l2) → n ∈ q_source (qs_queue s)) as Hsub.
    { intros n. rewrite Hsrc, !elem_of_app. destruct requeue; rewrite !elem_of_app, ?elem_of_cons; naive_solver. }
    destruct (ProviderIDToCommand (qs_queue s) !! pid name) as [b|] eqn:Hb.
    + assert (b ≠ a) as Hba. { intros ->. apply (Hun name); [rewrite Hsrc; apply elem_of_app; right; by left|done]. }
      destruct (qi_stored _ _ Hinv _ _ Hb) as (qb & Hqb & _).
      pose proof (Queue_Reconcile_spec kube now later s nc s1 requeue b qb Hk Hr ltac:(by rewrite Hp) Hqb (qi_candidates _ _ Hinv _ _ Hqb)) as [_ _ Hids].
      split.
      * intros n Hn. cbn. rewrite Hids. destruct (decide _); [done|]. by apply Hun, Hsub.
      * cbn. rewrite Hids, decide_False; [done|]. intros [_ Hin]. pose proof (qi_whole _ _ Hinv _ _ _ Hb Hqb _ Hin). congruence.
    + unfold Queue_Reconcile in Hr. rewrite Hp, Hb in Hr. injection Hr as <- <-. split; [|done]. intros n Hn. cbn. apply Hun, Hsub, Hn.
  - split; [|done]. intros n Hn. cbn in *. apply Hun. rewrite Hsrc. rewrite elem_of_app in Hn. rewrite elem_of_app, elem_of_cons. naive_solver.
Qed.

(** A command is lost when the claim that stands for it is gone. The reconciler drops a
    waiting claim that no longer exists; from then on, in every continuation, whatever is
    started, reconciled and learned, the candidates of its command stay in the queue, so
    that they can never be disrupted again while the process runs. *)
Theorem gone_claim_loses_command c h p s kube l1 name l2 a id h' p' s' : rtc queue_step ([], [], idle c) (h, p, s) →
  q_source (qs_queue s) = l1 ++ name :: l2 → kube_claim kube name = Err NotFound →
  (∀ n, n ∈ l1 ++ l2 → ProviderIDToCommand (qs_queue s) !! pid n ≠ Some a) →
  ProviderIDToCommand (qs_queue s) !! id = Some a →
  rtc queue_step (h ++ [kube], p, take_event s (l1 ++ l2)) (h', p', s') → ProviderIDToCommand (qs_queue s') !! id = Some a.
Proof.
  intros Hrun0 Hsrc Hk Hun Ha Hrun. assert (run_inv_at (h ++ [kube], p, take_event s (l1 ++ l2))) as Hinv1.
  { eapply (queue_step_inv (h, p, s)); [by eapply step_gone|]. refine (rtc_ind_r run_inv_at ([], [], idle c) _ _ _ Hrun0); [apply idle_run|].
    intros r r' _ Hs Hi. by eapply queue_step_inv. }
  refine (proj2 (proj2 (rtc_ind_r (λ r, run_inv_at r ∧ unattended r.2 a ∧ ProviderIDToCommand (qs_queue r.2) !! id = Some a)
    _ _ _ (h', p', s') Hrun))); [by split_and!|].
  intros r1 r2 _ Hs (Hi & Hu & Hid). split; [by eapply queue_step_inv|]. by eapply unattended_step.
Qed.
End runs.

(** ** Deadlines *)

Definition deadline_of (capi : ConditionApi) (nc : v1NodeClaim) : option Z :=
  claim_Annotations nc !! NodeClaimTerminationTimestampAnnotationKey ≫= ParseTime capi.

(** A stamped claim has a deadline that is not after the requested time and not after the
    one it had: the bound of a candidate may tighten a deadline and never extends it.
    Formatting a time rounds it down to a second. *)
Theorem tighten_never_extends capi kube nodeClaim t ws nc : (∀ t, ∃ t', ParseTime capi (FormatTime capi t) = Some t' ∧ t' ≤ t) →
  TightenTerminationTimestampAnnotation capi kube nodeClaim t = (ws, Ok nc) →
  ∃ d, deadline_of capi nc = Some d ∧ d ≤ t ∧ ∀ old, deadline_of capi nodeClaim = Some old → d ≤ old.
Proof.
  intros Hfmt. unfold TightenTerminationTimestampAnnotation, tightened_deadline. fold (deadline_of capi nodeClaim).
  destruct (Hfmt t) as (t' & Ht' & Hle).
  assert (∀ v, deadline_of capi (with_annotation nodeClaim NodeClaimTerminationTimestampAnnotationKey v) = ParseTime capi v) as Hset.
  { intros v. unfold deadline_of. cbn. by rewrite lookup_insert_eq. }
  destruct (deadline_of capi nodeClaim) as [old|] eqn:Hold.
  - destruct (Z.ltb_spec t old) as [Hlt|Hge].
    + destruct (kube_serve kube _); [done|]. intros [= <- <-]. exists t'. rewrite Hset. split_and!; [done..|]. intros ? [= <-]. lia.
    + intros [= <- <-]. exists old. split_and!; [done..|]. by intros ? [= <-].
  - destruct (kube_serve kube _); [done|]. intros [= <- <-]. exists t'. rewrite Hset. by split_and!.
Qed.
