(* ===== verification/DisruptionController.v ===== *)
(** * DisruptionController: the disruption loop (pkg/controllers/disruption/controller.go)

    The loop cleans up the marks of nodes that are no longer being disrupted and then runs
    the methods in order until one of them acts.  A method is the interface of the code: how
    it finds its candidates, its budgets and its commands; the methods themselves are in
    Consolidation, Drift and Repair.  [None] is a run-time panic.  A conflict and any other
    error of the API server both end the loop and have it retried. *)

From S2P Require Import Prelude Float64 Labels Requirement Objects RepairPolicy Requirements Resources.
From S2P Require Import Taints Volumes InstanceTypes PodState DisruptionCost Topology NodeClaims Templates.
From S2P Require Import ExistingNodes Evictions NodePoolState StateNodes Cluster ClusterInv Solver Candidates.
From S2P Require Import Simulation Provisioner ProvisionerProps Repair DisruptionQueue DisruptionQueueProps.

#[local] Open Scope Z_scope.

Definition pollingPeriod : Z := 10 * second.

Inductive loop_error :=
| RemovingTaint
| RemovingCondition
| FindingCandidates (m : Method)
| BuildingBudgets (m : Method)
| ComputingCommands (m : Method)
| StartingCommands (m : Method).

Inductive loop_result := RequeueImmediately | RequeueAfter (delay : Z) | LoopError (e : loop_error).

(** The [Method] interface with what [disrupt] hands it.  Computing commands can reserve
    nodes of static pools, so it returns the NodePool state. *)
Record MethodImpl (E : Type) := mkMethodImpl {
  mi_Method : Method;
  mi_Candidates : Cluster → (string → bool) → option (result api_error (list Candidate));
  mi_Budgets : Cluster → option (result api_error (gmap string Z));
  mi_ComputeCommands : Cluster → gmap string Z → list Candidate → option (NodePoolState * result api_error (list (Command E)));
}.
Arguments mkMethodImpl {E} _ _ _ _.
Arguments mi_Method {E} _.
Arguments mi_Candidates {E} _ _ _.
Arguments mi_Budgets {E} _ _.
Arguments mi_ComputeCommands {E} _ _ _ _.

(** The order of [NewMethods]. *)
Definition NewMethods (NodeRepair LegacyNodeRepair : bool) : list Method :=
  (if NodeRepair && negb LegacyNodeRepair then [RepairMethod] else []) ++
  [EmptinessMethod; StaticDriftMethod; DriftMethod; MultiNodeMethod; SingleNodeMethod].

Section controller.
  Context `{TA : TaintApi} (capi : ConditionApi) (kube : KubeApi) `{LA : Launcher} {E : Type}.
  Context (BatchMaxDuration : Z) (clapi : ClusterApi).

Definition is_act (cmd : Command E) : bool := negb (bool_decide (Command_Decision cmd = NoOpDecision)).

(** The commands of a method are started by parallel workers, in some order. *)
Definition start_one (now : Z) (nodes : list StateNode) (m : Method) (cmds : list (Command E)) (st : QueueState E * bool) (i : nat)
    : option (QueueState E * bool) :=
  let '(s, failed) := st in
  match cmds !! i with
  | None => Some st
  | Some cmd =>
      match StartCommand capi kube BatchMaxDuration now nodes s (mkQueued cmd m now false) with
      | None => None
      | Some (s, err) => Some (s, failed || bool_decide (is_Some err))
      end
  end.

Definition disrupt (now : Z) (order : nat → list nat) (nodes : list StateNode) (s : QueueState E) (m : MethodImpl E)
    : option (QueueState E * result loop_error bool) :=
  match mi_Candidates m (qs_cluster s) (λ id, HasAny (qs_queue s) [id]) with
  | None => None
  | Some (Err _) => Some (s, Err (FindingCandidates (mi_Method m)))
  | Some (Ok []) => Some (s, Ok false)
  | Some (Ok candidates) =>
      match mi_Budgets m (qs_cluster s) with
      | None => None
      | Some (Err _) => Some (s, Err (BuildingBudgets (mi_Method m)))
      | Some (Ok budgets) =>
          match mi_ComputeCommands m (qs_cluster s) budgets candidates with
          | None => None
          | Some (pools, r) =>
              let s := with_cluster s (set_nodePoolState (qs_cluster s) pools) in
              match r with
              | Err _ => Some (s, Err (ComputingCommands (mi_Method m)))
              | Ok cmds =>
                  let cmds := filter (λ cmd, is_act cmd = true) cmds in
                  if bool_decide (cmds = []) then Some (s, Ok false)
                  else match foldl_opt (start_one now nodes (mi_Method m) cmds) (s, false) (order (length cmds)) with
                       | None => None
                       | Some (s, failed) =>
                           Some (s, if failed : bool then Err (StartingCommands (mi_Method m)) else Ok true)
                       end
              end
          end
      end
  end.

(** The methods in order, until one acts or fails. *)
Fixpoint run_methods (now : Z) (order : nat → list nat) (nodes : list StateNode) (s : QueueState E) (ms : list (MethodImpl E))
    : option (QueueState E * loop_result) :=
  match ms with
  | [] => Some (s, RequeueAfter pollingPeriod)
  | m :: ms =>
      match disrupt now order nodes s m with
      | None => None
      | Some (s, Err e) => Some (s, LoopError e)
      | Some (s, Ok true) => Some (s, RequeueImmediately)
      | Some (s, Ok false) => run_methods now order nodes s ms
      end
  end.

(** Nodes that carry no disruption in progress; [None] when a node has no object at all. *)
Definition is_outdated (q : Queue E) (n : StateNode) : option bool :=
  match ProviderID n with
  | None => None
  | Some id => Some (negb (HasAny q [id] || MarkedForDeletion n || RebootInProgress n))
  end.

Definition outdated_nodes (q : Queue E) (nodes : list StateNode) : option (list StateNode) :=
  match mapM (is_outdated q) nodes with
  | None => None
  | Some flags => Some (zip nodes flags ≫= λ '(n, b), if b : bool then [n] else [])
  end.

(** Removes the taint and the reason from nodes that are not being disrupted. *)
Definition sweep (now : Z) (nodes : list StateNode) (s : QueueState E) : option (QueueState E * option loop_error) :=
  match outdated_nodes (qs_queue s) nodes with
  | None => None
  | Some outdated =>
      let '(ws, failed) := RequireNoScheduleTaint kube false outdated in
      let s := add_writes s ws in
      if failed : bool then Some (s, Some RemovingTaint)
      else
        let '(ws, failed) := ClearNodeClaimsCondition capi kube now ConditionTypeDisruptionReason outdated in
        Some (add_writes s ws, if failed : bool then Some RemovingCondition else None)
  end.

(** [nodes] is the copy of the state nodes the loop takes; [hydrated] is false while the
    predictions are enabled and not loaded. *)
Definition Controller_Reconcile (now : Z) (order : nat → list nat) (nodes : list StateNode) (hydrated : bool) (s : QueueState E)
    (ms : list (MethodImpl E)) : option (QueueState E * loop_result) :=
  let '(c, synced) := Synced clapi now (qs_cluster s) in
  let s := with_cluster s c in
  if negb synced then Some (s, RequeueAfter second)
  else match sweep now nodes s with
       | None => None
       | Some (s, Some e) => Some (s, LoopError e)
       | Some (s, None) =>
           if negb hydrated then Some (s, RequeueAfter second)
           else run_methods now order nodes s ms
       end.
End controller.

(** ** Properties *)

Section controller_properties.
  Context `{TA : TaintApi} (capi : ConditionApi) `{LA : Launcher} {E : Type} (BatchMaxDuration : Z) (clapi : ClusterApi).
  Context (pid : string → string).

Abbreviation steps := (rtc (queue_step (E := E) capi BatchMaxDuration pid)).

(** The commands a method computes are acts on candidates that have their objects. *)
Definition method_ok (m : MethodImpl E) : Prop := ∀ c budgets cands pools cmds cmd,
  mi_ComputeCommands m c budgets cands = Some (pools, Ok cmds) → cmd ∈ cmds →
  Forall (candidate_ok pid) (cmd_Candidates cmd) ∧ Forall (λ r, rp_Initialized r = false) (cmd_Replacements cmd).

Lemma start_loop kube now nodes m cmds order h s failed s' failed' : kube_ok pid kube →
  (∀ cmd, cmd ∈ cmds → Forall (candidate_ok pid) (cmd_Candidates cmd) ∧ Forall (λ r, rp_Initialized r = false) (cmd_Replacements cmd)) →
  foldl_opt (start_one capi kube BatchMaxDuration now nodes m cmds) (s, failed) order = Some (s', failed') →
  ∃ h', steps (h, [], s) (h', [], s').
Proof.
  intros Hk Hok. revert h s failed. induction order as [|i order IH]; intros h s failed; cbn [foldl_opt].
  - intros [= <- <-]. exists h. apply rtc_refl.
  - destruct (start_one _ _ _ _ _ _ _ (s, failed) i) as [[s1 f1]|] eqn:H1; [|done]. cbn [mbind option_bind]. unfold start_one in H1.
    destruct (cmds !! i) as [cmd|] eqn:Hi; [|injection H1 as <- <-; apply (IH h)].
    destruct (StartCommand _ _ _ _ _ _ _) as [[s2 err]|] eqn:Hs; [|done]. injection H1 as <- <-. unfold StartCommand in Hs.
    destruct (HasAny _ _) eqn:Hany.
    + injection Hs as <- <-. intros H. destruct (IH h _ _ H) as [h' Hh']. exists h'. eapply rtc_l; [by eapply step_refused|exact Hh'].
    + intros H. destruct (IH (h ++ [kube]) _ _ H) as [h' Hh']. exists h'.
      eapply rtc_l; [eapply step_check; [|exact Hany|intros qc' []%elem_of_nil]|].
      { destruct (Hok cmd) as [? ?]; [by eapply list_elem_of_lookup_2|]. by split. }
      eapply rtc_l; [|exact Hh']. by eapply (step_start _ _ _ _ _ _ _ _ [] _ []).
Qed.

(** What one method did: nothing to the queue and the API server when it did not act. *)
Lemma disrupt_steps kube now order nodes h s m s' r : kube_ok pid kube → method_ok m →
  disrupt capi kube BatchMaxDuration now order nodes s m = Some (s', r) →
  (∃ h', steps (h, [], s) (h', [], s')) ∧ (r = Ok false → qs_queue s' = qs_queue s ∧ qs_writes s' = qs_writes s).
Proof.
  intros Hk Hm. unfold disrupt. assert (∃ h', steps (h, [], s) (h', [], s)) as Hrefl by (exists h; apply rtc_refl).
  destruct (mi_Candidates m _ _) as [[[|cand cands]|e]|]; [by intros [= <- <-]| |by intros [= <- <-]|done].
  destruct (mi_Budgets m _) as [[budgets|e]|]; [|by intros [= <- <-]|done].
  destruct (mi_ComputeCommands m _ _ _) as [[pools [cmds|e]]|] eqn:Hc; [| |done].
  - case_bool_decide as Hn.
    + intros [= <- <-]. split; [|done]. exists h. apply rtc_once, step_cluster.
    + destruct (foldl_opt _ _ _) as [[s1 failed]|] eqn:Hf; [|done]. intros [= <- <-]. split; [|by destruct failed].
      eapply start_loop in Hf as [h' Hh']; [|done|].
      * exists h'. eapply rtc_l; [apply step_cluster|exact Hh'].
      * intros cmd [_ Hin]%list_elem_of_filter. by eapply Hm.
  - intros [= <- <-]. split; [|done]. exists h. apply rtc_once, step_cluster.
Qed.

(** The methods of a list that were tried in vain, from one state to the next. *)
Inductive in_vain (kube : KubeApi) (now : Z) (order : nat → list nat) (nodes : list StateNode)
    : list (MethodImpl E) → QueueState E → QueueState E → Prop :=
| vain_nil s : in_vain kube now order nodes [] s s
| vain_cons m ms s s1 s2 : disrupt capi kube BatchMaxDuration now order nodes s m = Some (s1, Ok false) →
    in_vain kube now order nodes ms s1 s2 → in_vain kube now order nodes (m :: ms) s s2.

Lemma run_methods_spec kube now order nodes h s ms s' r : kube_ok pid kube → Forall method_ok ms →
  run_methods capi kube BatchMaxDuration now order nodes s ms = Some (s', r) →
  (∃ h', steps (h, [], s) (h', [], s')) ∧
  ∃ before after s1, ms = before ++ after ∧ in_vain kube now order nodes before s s1 ∧
    qs_queue s1 = qs_queue s ∧ qs_writes s1 = qs_writes s ∧
    match after with
    | [] => s' = s1 ∧ r = RequeueAfter pollingPeriod
    | m :: _ => ∃ b, disrupt capi kube BatchMaxDuration now order nodes s1 m = Some (s', b) ∧ b ≠ Ok false ∧
        r = match b with Ok _ => RequeueImmediately | Err e => LoopError e end
    end.
Proof.
  intros Hk Hms. revert h s. induction Hms as [|m ms Hm _ IH]; intros h s; cbn [run_methods].
  - intros [= <- <-]. split; [exists h; apply rtc_refl|]. exists [], [], s. split_and!; [done|constructor|done..].
  - destruct (disrupt _ _ _ _ _ _ _ _) as [[s1 [[|]|e]]|] eqn:Hd; [| | |done].
    + intros [= <- <-]. destruct (disrupt_steps kube now order nodes h s m s1 _ Hk Hm Hd) as [Hs _]. split; [done|].
      exists [], (m :: ms), s. split_and!; [done|constructor|done..|]. by exists (Ok true).
    + intros H. destruct (disrupt_steps kube now order nodes h s m s1 _ Hk Hm Hd) as [[h1 Hs] Hsame]. destruct (Hsame eq_refl) as [Hq Hw].
      destruct (IH h1 s1 H) as [[h' Hs'] (before & after & s2 & -> & Hv & Hq2 & Hw2 & Ha)]. split; [exists h'; by etrans|].
      exists (m :: before), after, s2. split_and!; [done|by econstructor|congruence|congruence|done].
    + intros [= <- <-]. destruct (disrupt_steps kube now order nodes h s m s1 _ Hk Hm Hd) as [Hs _]. split; [done|].
      exists [], (m :: ms), s. split_and!; [done|constructor|done..|]. by exists (Err e).
Qed.

(** A node without a disruption in progress. *)
Definition undisturbed (q : Queue E) (n : StateNode) : Prop := ∃ id, ProviderID n = Some id ∧ ProviderIDToCommand q !! id = None ∧
  MarkedForDeletion n = false ∧ RebootInProgress n = false.

Lemma is_outdated_true (q : Queue E) n : is_outdated q n = Some true → undisturbed q n.
Proof.
  unfold is_outdated. destruct (ProviderID n) as [id|] eqn:Hid; [|done]. intros [= H]. apply negb_true_iff in H.
  apply orb_false_iff in H as [[Hq Hm]%orb_false_iff Hr]. exists id. split_and!; [done| |done|done].
  apply (HasAny_false q [id] Hq). by left.
Qed.

Lemma outdated_nodes_spec (q : Queue E) nodes outdated n : outdated_nodes q nodes = Some outdated → n ∈ outdated →
  n ∈ nodes ∧ undisturbed q n.
Proof.
  unfold outdated_nodes. destruct (mapM (is_outdated q) nodes) as [flags|] eqn:Hm; [|done]. intros [= <-].
  apply mapM_Some in Hm. induction Hm as [|n0 b nodes flags Hb _ IH]; [by intros []%elem_of_nil|].
  cbn. intros [Hn|Hn]%elem_of_app; [|destruct (IH Hn); split; [by right|done]].
  destruct b; [|by apply elem_of_nil in Hn]. apply list_elem_of_singleton in Hn as ->. split; [by left|by apply is_outdated_true].
Qed.

(** The patch of a node drops the disruption taint from its stored taints and nothing else;
    the patch of a claim clears the reason from its stored conditions. *)
Definition swept (kube : KubeApi) (now : Z) (n : StateNode) (w : kube_write) : Prop :=
  match w with
  | PatchTaints name taints => ∃ node stored, st_Node n = Some node ∧ kube_node kube (node_Name node) = Ok stored ∧
      name = node_Name stored ∧ taints = filter (λ t, MatchTaint t DisruptedNoScheduleTaint = false) (node_Taints stored)
  | PatchStatus name conditions => ∃ nc stored, st_NodeClaim n = Some nc ∧ kube_claim kube (claim_Name nc) = Ok stored ∧
      name = claim_Name stored ∧ conditions = ClearCondition capi now ConditionTypeDisruptionReason (claim_Conditions stored)
  | _ => False
  end.

Lemma require_swept kube now nodes w : w ∈ (RequireNoScheduleTaint kube false nodes).1 → ∃ n, n ∈ nodes ∧ swept kube now n w.
Proof.
  unfold RequireNoScheduleTaint. cbn. intros (ws & Hw & Hws)%list_elem_of_join.
  apply list_elem_of_fmap in Hws as (r & -> & Hr). apply list_elem_of_fmap in Hr as (n & -> & Hn). exists n. split; [done|].
  revert Hw. unfold require_one. destruct (st_Node n) as [node|] eqn:Hnode; [|by intros []%elem_of_nil].
  destruct (st_NodeClaim n); [|by intros []%elem_of_nil]. destruct (kube_node kube (node_Name node)) as [stored|] eqn:Hk; [|by intros []%elem_of_nil].
  unfold require_taint. cbv zeta. destruct (_ && _); [by intros []%elem_of_nil|]. cbn [negb].
  destruct (negb (bool_decide _)); [|by intros []%elem_of_nil]. intros ->%list_elem_of_singleton. by exists node, stored.
Qed.

Lemma clear_swept kube now nodes w : w ∈ (ClearNodeClaimsCondition capi kube now ConditionTypeDisruptionReason nodes).1 →
  ∃ n, n ∈ nodes ∧ swept kube now n w.
Proof.
  unfold ClearNodeClaimsCondition. cbn. intros (ws & Hw & Hws)%list_elem_of_join.
  apply list_elem_of_fmap in Hws as (r & -> & Hr). apply list_elem_of_fmap in Hr as (n & -> & Hn). exists n. split; [done|].
  revert Hw. unfold clear_one. destruct (st_NodeClaim n) as [nc|] eqn:Hnc; [|by intros []%elem_of_nil].
  destruct (negb (Initialized n)); [by intros []%elem_of_nil|]. destruct (kube_claim kube (claim_Name nc)) as [stored|] eqn:Hk; [|by intros []%elem_of_nil].
  destruct (bool_decide _); [by intros []%elem_of_nil|]. intros ->%list_elem_of_singleton. by exists nc, stored.
Qed.

(** C14: the clean-up at the start of a pass never interferes with a disruption in progress: every
    write it makes takes the disruption taint off a node, or the reason off its claim, where
    the node is one of those the pass has read, is not in the queue at that point, and is
    neither marked for deletion nor rebooting as it was read; other taints are kept. *)
Theorem sweep_spares_disrupting kube now nodes (s s' : QueueState E) err :
  sweep capi kube now nodes s = Some (s', err) → ∃ ws, s' = add_writes s ws ∧
    ∀ w, w ∈ ws → ∃ n, n ∈ nodes ∧ undisturbed (qs_queue s) n ∧ swept kube now n w.
Proof.
  unfold sweep. destruct (outdated_nodes (qs_queue s) nodes) as [outdated|] eqn:Ho; [|done].
  destruct (RequireNoScheduleTaint kube false outdated) as [ws1 failed] eqn:H1. pose proof (require_swept kube now outdated) as Hr. rewrite H1 in Hr.
  assert (∀ w, w ∈ ws1 → ∃ n, n ∈ nodes ∧ undisturbed (qs_queue s) n ∧ swept kube now n w) as Hw1.
  { intros w Hw. destruct (Hr w Hw) as (n & Hn & Hs). exists n. by destruct (outdated_nodes_spec _ _ _ _ Ho Hn). }
  destruct failed; [intros [= <- <-]; by exists ws1|].
  destruct (ClearNodeClaimsCondition _ _ _ _ _) as [ws2 failed] eqn:H2. pose proof (clear_swept kube now outdated) as Hc. rewrite H2 in Hc.
  intros [= <- <-]. exists (ws1 ++ ws2). split.
  - unfold add_writes. cbn. by rewrite app_assoc.
  - intros w [Hw|Hw]%elem_of_app; [by apply Hw1|]. destruct (Hc w Hw) as (n & Hn & Hs). exists n. by destruct (outdated_nodes_spec _ _ _ _ Ho Hn).
Qed.

Lemma sweep_steps kube now nodes h (s s' : QueueState E) err : sweep capi kube now nodes s = Some (s', err) → steps (h, [], s) (h, [], s').
Proof.
  unfold sweep. destruct (outdated_nodes _ _) as [outdated|]; [|done]. pose proof (require_no_delete kube false outdated) as H1.
  destruct (RequireNoScheduleTaint kube false outdated) as [ws1 failed]. destruct failed; [intros [= <- <-]; by apply rtc_once, step_sweep|].
  pose proof (clear_no_delete capi kube now ConditionTypeDisruptionReason outdated) as H2.
  destruct (ClearNodeClaimsCondition _ _ _ _ _) as [ws2 failed]. intros [= <- <-].
  eapply rtc_l; [apply (step_sweep _ _ _ _ _ _ ws1 H1)|]. apply rtc_once, (step_sweep _ _ _ _ _ _ ws2 H2).
Qed.

(** A pass of the disruption loop whose workers start the commands one after another is a run
    of the queue, as long as the methods compute commands on candidates that have their
    objects and with fresh replacements. In a pass at most one method acts, and those after
    it are not asked. *)
Theorem loop_refines_queue kube now order nodes hydrated h (s s' : QueueState E) ms r : kube_ok pid kube → Forall method_ok ms →
  Controller_Reconcile capi kube BatchMaxDuration clapi now order nodes hydrated s ms = Some (s', r) →
  (∃ h', steps (h, [], s) (h', [], s')) ∧
  (r = RequeueImmediately → ∃ before m after s0 s1, ms = before ++ m :: after ∧ in_vain kube now order nodes before s0 s1 ∧
     qs_queue s1 = qs_queue s ∧ qs_writes s1 = qs_writes s0 ∧
     disrupt capi kube BatchMaxDuration now order nodes s1 m = Some (s', Ok true)) ∧
  (r = RequeueAfter pollingPeriod → qs_queue s' = qs_queue s).
Proof.
  intros Hk Hms. unfold Controller_Reconcile. destruct (Synced clapi now (qs_cluster s)) as [c synced].
  assert (steps (h, [], s) (h, [], with_cluster s c)) as Hc by apply rtc_once, step_cluster.
  destruct synced; cbn [negb]; [|intros [= <- <-]; split_and!; [by exists h|done|done]].
  destruct (sweep _ _ _ _ _) as [[s0 err]|] eqn:Hsw; [|done]. pose proof (sweep_steps kube now nodes h _ _ _ Hsw) as Hs0.
  assert (qs_queue s0 = qs_queue s) as Hq0.
  { unfold sweep in Hsw. destruct (outdated_nodes _ _); [|done]. destruct (RequireNoScheduleTaint _ _ _) as [? []]; [by injection Hsw as <- _|].
    destruct (ClearNodeClaimsCondition _ _ _ _ _). by injection Hsw as <- _. }
  assert (steps (h, [], s) (h, [], s0)) as Hs by (by etrans).
  destruct err as [e|]; [intros [= <- <-]; split_and!; [by exists h|done|done]|].
  destruct hydrated; cbn [negb]; [|intros [= <- <-]; split_and!; [by exists h|done|done]].
  intros H. destruct (run_methods_spec kube now order nodes h s0 ms s' r Hk Hms H) as [[h' Hh'] (before & after & s1 & -> & Hv & Hq & Hw & Ha)].
  split_and!; [exists h'; by etrans| |].
  - intros ->. destruct after as [|m after]; [by destruct Ha|]. destruct Ha as (b & Hd & Hb & Hr). destruct b as [[|]|]; [|done|done].
    exists before, m, after, s0, s1. split_and!; [done..|congruence|done|done].
  - intros ->. destruct after as [|m after]; [destruct Ha as [-> _]; congruence|]. destruct Ha as (b & _ & _ & Hr). by destruct b.
Qed.
End controller_properties.
