(* ===== verification/Lifecycle.v ===== *)
(** * Lifecycle: from a NodeClaim to an initialized node, and back
    (pkg/controllers/nodeclaim/lifecycle: controller.go, launch.go, registration.go,
    initialization.go, liveness.go; the helpers of pkg/utils/nodeclaim and pkg/utils/result)

    One reconciliation runs the four sub-reconcilers on the same object and writes it back;
    a claim that is being deleted is finalized instead.  What the API server and the cloud
    provider answer during a reconciliation is a [LifecycleApi]; the requests are collected in
    order.  A claim carries the fields of [v1NodeClaim] and those only this controller reads.
    The observed generation of conditions is not modelled.  [None] is a run-time panic. *)

From Stdlib Require Import Ascii.
From S2P Require Import Prelude Float64 Labels Requirement Objects Resources Taints Volumes Templates NodePoolHealth.

#[local] Open Scope Z_scope.

(** ** Objects *)

Record Claim := mkClaim {
  lc_base : v1NodeClaim;
  lc_Finalizers : list string;
  lc_OwnerReferences : list OwnerReference;
  lc_NodeClass : string * string;
  lc_ImageID : string;
  lc_Requests : ResourceList;
}.

Record NodeObject := mkNodeObject {
  no_Node : Node;
  no_Finalizers : list string;
  no_OwnerReferences : list OwnerReference;
}.

(** The part of a NodePool that registration reads. *)
Record PoolObject := mkPoolObject { po_UID : string; po_Conditions : list Condition }.

Record ResourceSlice := mkResourceSlice {
  rs_NodeName : option string;
  rs_OwnerReferences : list OwnerReference;
  rs_Driver : string;
  rs_Pool : string;
  rs_Generation : Z;
  rs_ResourceSliceCount : Z;
}.

#[export] Instance OwnerReference_eq_dec : EqDecision OwnerReference.
Proof. solve_decision. Defined.
#[export] Instance Claim_eq_dec : EqDecision Claim.
Proof. solve_decision. Defined.
#[export] Instance NodeObject_eq_dec : EqDecision NodeObject.
Proof. solve_decision. Defined.

Abbreviation lc_Name c := (claim_Name (lc_base c)).
Abbreviation lc_UID c := (claim_UID (lc_base c)).
Abbreviation lc_Conditions c := (claim_Conditions (lc_base c)).
Abbreviation lc_ProviderID c := (claim_ProviderID (lc_base c)).

Definition with_base (c : Claim) (b : v1NodeClaim) : Claim :=
  mkClaim b (lc_Finalizers c) (lc_OwnerReferences c) (lc_NodeClass c) (lc_ImageID c) (lc_Requests c).
Definition with_Finalizers (c : Claim) (fs : list string) : Claim :=
  mkClaim (lc_base c) fs (lc_OwnerReferences c) (lc_NodeClass c) (lc_ImageID c) (lc_Requests c).

Definition base_with (b : v1NodeClaim) (labels annotations : gmap string string) (providerID nodeName : string)
    (capacity allocatable : gmap string Z) (conditions : list Condition) : v1NodeClaim :=
  mkv1NodeClaim (claim_Name b) (claim_UID b) labels annotations (claim_CreationTimestamp b) (claim_DeletionTimestamp b)
    (claim_Taints b) (claim_StartupTaints b) (claim_TerminationGracePeriod b) (claim_ExpireAfter b) providerID nodeName
    capacity allocatable conditions (claim_LastPodEventTime b).

Definition with_Conditions (c : Claim) (cs : list Condition) : Claim :=
  let b := lc_base c in
  with_base c (base_with b (claim_Labels b) (claim_Annotations b) (claim_ProviderID b) (claim_NodeName b) (claim_Capacity b)
                 (claim_Allocatable b) cs).
Definition with_NodeName (c : Claim) (name : string) : Claim :=
  let b := lc_base c in
  with_base c (base_with b (claim_Labels b) (claim_Annotations b) (claim_ProviderID b) name (claim_Capacity b)
                 (claim_Allocatable b) (claim_Conditions b)).
Definition with_Annotations (c : Claim) (annotations : gmap string string) : Claim :=
  let b := lc_base c in
  with_base c (base_with b (claim_Labels b) annotations (claim_ProviderID b) (claim_NodeName b) (claim_Capacity b)
                 (claim_Allocatable b) (claim_Conditions b)).

Definition node_with (n : NodeObject) (labels annotations : gmap string string) (taints : list Taint) : NodeObject :=
  let b := no_Node n in
  mkNodeObject (mkNode (node_Name b) labels annotations (node_CreationTimestamp b) (node_DeletionTimestamp b) taints
    (node_ProviderID b) (node_Capacity b) (node_Allocatable b) (node_Conditions b)) (no_Finalizers n) (no_OwnerReferences n).

(** ** Status conditions

    The condition sets of operatorpkg: setting a condition gives it the status, keeps the
    time of its last transition when the status does not change, and leaves the other
    conditions alone, except the root condition that sums them up.  The transition time of
    a dependent of the root condition that was absent is left open (operatorpkg takes the
    object's creation); any other condition that was absent gets the clock's. *)
Definition ConditionReady : string := "Ready".
Definition dependent_conditions : list string := [ConditionTypeLaunched; ConditionTypeRegistered; ConditionTypeInitialized].

Class ConditionSets := {
  set_condition : Z → string → string → string → string → list Condition → list Condition;
  set_condition_same now type status reason message cs : ∃ c, get_condition type (set_condition now type status reason message cs) = Some c ∧
    cond_Status c = status ∧ cond_Reason c = reason ∧
    match get_condition type cs with
    | Some old => cond_LastTransitionTime c = if bool_decide (cond_Status old = status) then cond_LastTransitionTime old else now
    | None => type ∉ dependent_conditions → cond_LastTransitionTime c = now
    end;
  set_condition_other now type status reason message cs type' : type' ≠ type → type' ≠ ConditionReady →
    get_condition type' (set_condition now type status reason message cs) = get_condition type' cs;
}.

Definition ConditionUnknown : string := "Unknown".

(** A condition is unknown when it is absent, or neither true nor false. *)
Definition is_unknown (type : string) (cs : list Condition) : bool := negb (condition_true type cs) && negb (condition_false type cs).

Section conditions.
  Context `{CS : ConditionSets}.

(** [SetTrue] gives the reason the name of the condition. *)
Definition SetTrue (now : Z) (type : string) (c : Claim) : Claim :=
  with_Conditions c (set_condition now type ConditionTrue type EmptyString (lc_Conditions c)).
Definition SetUnknownWithReason (now : Z) (type reason message : string) (c : Claim) : Claim :=
  with_Conditions c (set_condition now type ConditionUnknown reason message (lc_Conditions c)).
Definition SetFalse (now : Z) (type reason message : string) (c : Claim) : Claim :=
  with_Conditions c (set_condition now type ConditionFalse reason message (lc_Conditions c)).
End conditions.

(** ** Requests and answers *)

Inductive action :=
| CallCreate (c : Claim)
| CallDelete (c : Claim)
| PatchFinalizers (claim : string) (finalizers : list string)
| PatchTermination (claim : string) (terminationTime : Z)
| PatchClaim (c : Claim)
| PatchClaimStatus (c : Claim)
| DeleteNodeClaim (claim : string)
| PatchNode (n : NodeObject)
| DeleteNode (node : string)
| PatchPoolStatus (pool : string) (conditions : list Condition).

Inductive create_answer :=
| Created (c : Claim)
| InsufficientCapacity
| NodeClassNotReady
| CreateError (reason message : string)
| CreateOtherError (message : string).

Inductive delete_answer := DeleteAccepted | InstanceNotFound | DeleteFailed.

#[export] Instance delete_answer_eq_dec : EqDecision delete_answer.
Proof. solve_decision. Defined.

(** [reconcile.Result]. *)
Record Result := mkResult { res_Requeue : bool; res_RequeueAfter : Z }.

#[export] Instance Result_eq_dec : EqDecision Result.
Proof. solve_decision. Defined.

Definition no_requeue : Result := mkResult false 0.
Definition requeue : Result := mkResult true 0.
Definition requeue_after (d : Z) : Result := mkResult false d.
Definition IsZero (r : Result) : bool := bool_decide (r = no_requeue).

(** A hook may change the claim while it runs. *)
Record Hook := mkHook {
  hook_Name : string;
  hook_Registered : Claim → Claim * result unit Result;
}.

Record LifecycleApi := mkLifecycleApi {
  la_nodes : string → result api_error (list NodeObject);
  la_pool : string → result api_error PoolObject;
  la_slices : result api_error (list ResourceSlice);
  la_create : Claim → create_answer;
  la_delete : Claim → delete_answer;
  la_serve : action → option api_error;
}.

(** The cache of launched claims by UID with the time they expire, and the health of the
    NodePools. *)
Record LifecycleState := mkLifecycleState {
  ls_cache : gmap string (Claim * Z);
  ls_health : HealthState;
}.

(** An error is one of the API server's, possibly wrapped, or any other. *)
Inductive failure := ApiFailure (e : api_error) | OtherFailure.

#[export] Instance failure_eq_dec : EqDecision failure.
Proof. solve_decision. Defined.

(** What a sub-reconciler leaves: the claim it worked on, its requests, its result and its
    error. *)
Record Sub := mkSub {
  sub_state : LifecycleState;
  sub_claim : Claim;
  sub_actions : list action;
  sub_result : Result;
  sub_error : option failure;
}.

Definition ignore_not_found (e : option api_error) : option api_error :=
  match e with Some NotFound => None | e => e end.

(** [result.Min]; a result that only asks for a requeue counts as zero delay. *)
Definition Result_Min (results : list Result) : Result :=
  (foldl (λ '(min, result) r,
     if IsZero r then (min, result)
     else if res_RequeueAfter r <? min then (res_RequeueAfter r, mkResult true (res_RequeueAfter r)) else (min, result))
     (int64_max, no_requeue) results).2.

(** ** Nodes of a claim *)

Inductive node_error := NodeNotFound | DuplicateNode | ListingNodes (e : api_error).

Section lookups.
  Context (api : LifecycleApi).

Definition AllNodesForNodeClaim (c : Claim) : result api_error (list NodeObject) :=
  if bool_decide (lc_ProviderID c = EmptyString) then Ok [] else la_nodes api (lc_ProviderID c).

Definition NodeForNodeClaim (c : Claim) : result node_error NodeObject :=
  match AllNodesForNodeClaim c with
  | Err e => Err (ListingNodes e)
  | Ok [] => Err NodeNotFound
  | Ok [n] => Ok n
  | Ok _ => Err DuplicateNode
  end.
End lookups.

(** ** Launch *)

Definition maxEventMessageLength : nat := 1024.

Definition truncateMessage (msg : string) : string :=
  if (String.length msg <=? maxEventMessageLength)%nat then msg
  else String.substring 0 (maxEventMessageLength - 3) msg +:+ "...".

(** [lo.Assign]: later maps win. *)
Definition assign (m1 m2 : gmap string string) : gmap string string := m2 ∪ m1.

Definition PopulateNodeClaimDetails (c retrieved : Claim) : Claim :=
  let b := lc_base c in
  let r := lc_base retrieved in
  mkClaim (base_with b (assign (claim_Labels r) (claim_Labels b)) (assign (claim_Annotations b) (claim_Annotations r))
             (claim_ProviderID r) (claim_NodeName b) (claim_Capacity r) (claim_Allocatable r) (claim_Conditions b))
    (lc_Finalizers c) (lc_OwnerReferences c) (lc_NodeClass c) (lc_ImageID retrieved) (lc_Requests c).

Definition minute : Z := 60000000000.

(** The cache of claims: an entry lives for an hour. *)
Definition cache_get (now : Z) (uid : string) (cache : gmap string (Claim * Z)) : option Claim :=
  match cache !! uid with
  | Some (created, expires) => if expires <? now then None else Some created
  | None => None
  end.

Definition cache_set (now : Z) (uid : string) (created : Claim) (cache : gmap string (Claim * Z)) : gmap string (Claim * Z) :=
  <[uid := (created, now + 60 * minute)]> cache.

Section reconcilers.
  Context `{CS : ConditionSets} `{TA : TaintApi} `{IO : IterationOrder} (api : LifecycleApi).

(** Deletes the claim; the error unless it is gone. *)
Definition delete_claim (c : Claim) : action * option failure :=
  let w := DeleteNodeClaim (lc_Name c) in (w, ApiFailure <$> ignore_not_found (la_serve api w)).

Definition launchNodeClaim (now : Z) (c : Claim) : Claim * list action * option Claim * option failure :=
  match la_create api c with
  | Created created => (c, [CallCreate c], Some created, None)
  | InsufficientCapacity | NodeClassNotReady =>
      let '(w, e) := delete_claim c in (c, [CallCreate c; w], None, e)
  | CreateError reason message => (SetUnknownWithReason now ConditionTypeLaunched reason message c, [CallCreate c], None, Some OtherFailure)
  | CreateOtherError message =>
      (SetUnknownWithReason now ConditionTypeLaunched "LaunchFailed" (truncateMessage message) c, [CallCreate c], None, Some OtherFailure)
  end.

Definition Launch_Reconcile (now : Z) (st : LifecycleState) (c : Claim) : Sub :=
  if negb (is_unknown ConditionTypeLaunched (lc_Conditions c)) then
    let cache := if condition_true ConditionTypeLaunched (lc_Conditions c) then delete (lc_UID c) (ls_cache st) else ls_cache st in
    mkSub (mkLifecycleState cache (ls_health st)) c [] no_requeue None
  else
    let '(c, ws, created, e) := match cache_get now (lc_UID c) (ls_cache st) with
                                | Some created => (c, [], Some created, None)
                                | None => launchNodeClaim now c
                                end in
    match created with
    | None => mkSub st c ws no_requeue e
    | Some created =>
        mkSub (mkLifecycleState (cache_set now (lc_UID c) created (ls_cache st)) (ls_health st))
          (SetTrue now ConditionTypeLaunched (PopulateNodeClaimDetails c created)) ws no_requeue None
    end.

(** ** Registration *)

Definition TerminationFinalizer : string := Group +:+ "/termination".
Definition NodeClaimAPIVersion : string := Group +:+ "/v1".

Definition AddFinalizer (fs : list string) (f : string) : list string := if bool_decide (f ∈ fs) then fs else fs ++ [f].
Definition RemoveFinalizer (fs : list string) (f : string) : list string := filter (λ g, g ≠ f) fs.

Definition UpdateNodeOwnerReferences (c : Claim) (owners : list OwnerReference) : list OwnerReference :=
  if existsb (λ o, bool_decide (or_APIVersion o = NodeClaimAPIVersion) && bool_decide (or_Kind o = "NodeClaim") &&
                   bool_decide (or_UID o = lc_UID c)) owners then owners
  else owners ++ [mkOwnerReference NodeClaimAPIVersion "NodeClaim" false (lc_Name c) (lc_UID c)].

Definition syncNode (c : Claim) (n : NodeObject) : NodeObject :=
  let node := no_Node n in
  let taints := if bool_decide (node_Labels node !! NodeDoNotSyncTaintsLabelKey = Some "true") then node_Taints node
                else Taints_Merge (Taints_Merge (node_Taints node) (claim_Taints (lc_base c))) (claim_StartupTaints (lc_base c)) in
  node_with (mkNodeObject node (AddFinalizer (no_Finalizers n) TerminationFinalizer) (UpdateNodeOwnerReferences c (no_OwnerReferences n)))
    (assign (node_Labels node) (claim_Labels (lc_base c))) (assign (node_Annotations node) (claim_Annotations (lc_base c))) taints.

(** The end of registration: the taint goes and the label comes. *)
Definition mark_registered (n : NodeObject) : NodeObject :=
  let node := no_Node n in
  node_with n (<[NodeRegisteredLabelKey := "true"]> (node_Labels node)) (node_Annotations node)
    (filter (λ t, MatchTaint t UnregisteredNoExecuteTaint = false) (node_Taints node)).

Definition merge_hook_result (merged r : Result) : Result :=
  mkResult (res_Requeue merged || res_Requeue r)
    (if (res_RequeueAfter merged =? 0) || ((0 <? res_RequeueAfter r) && (res_RequeueAfter r <? res_RequeueAfter merged))
     then res_RequeueAfter r else res_RequeueAfter merged).

(** The hooks one after the other: the claim, the pending ones, the merged result and
    whether one failed. *)
Fixpoint run_hooks (hooks : list Hook) (c : Claim) (merged : Result) : Claim * list string * Result * bool :=
  match hooks with
  | [] => (c, [], merged, false)
  | h :: hooks =>
      let '(c, r) := hook_Registered h c in
      match r with
      | Err _ => let '(c, pending, merged, _) := run_hooks hooks c merged in (c, hook_Name h :: pending, merged, true)
      | Ok r =>
          if IsZero r then run_hooks hooks c merged
          else let '(c, pending, merged, failed) := run_hooks hooks c (merge_hook_result merged r) in
               (c, hook_Name h :: pending, merged, failed)
      end
  end.

Definition checkRegistrationHooks (now : Z) (hooks : list Hook) (c : Claim) : Claim * Result * bool :=
  let '(c, pending, merged, failed) := run_hooks hooks c no_requeue in
  match pending with
  | [] => (c, no_requeue, false)
  | _ => (SetUnknownWithReason now ConditionTypeRegistered "RegistrationHookPending" (Join pending ", ") c, merged, failed)
  end.

Definition ConditionTypeNodeRegistrationHealthy : string := "NodeRegistrationHealthy".

(** The pool of a claim that also owns it. *)
Definition owning_pool (c : Claim) (pool : PoolObject) : bool :=
  existsb (λ o, bool_decide (or_Kind o = "NodePool") && bool_decide (or_UID o = po_UID pool)) (lc_OwnerReferences c).

(** [updateNodePoolRegistrationHealth] of both: a result is recorded once its patch, if there
    is one, went through; [patch] gives the conditions to write. *)
Definition record_health (success : bool) (patch : PoolObject → Tracker → option (list Condition)) (st : LifecycleState) (c : Claim)
    : option (LifecycleState * list action * option api_error) :=
  let poolName := default EmptyString (claim_Labels (lc_base c) !! NodePoolLabelKey) in
  if bool_decide (poolName = EmptyString) then Some (st, [], None)
  else match la_pool api poolName with
       | Err e => Some (st, [], Some e)
       | Ok pool =>
           if negb (owning_pool c pool) then Some (st, [], None)
           else match State_DryRun (ls_health st) (po_UID pool) success with
                | None => None
                | Some tracker =>
                    let update ws := match State_Update (ls_health st) (po_UID pool) success with
                                     | None => None
                                     | Some health => Some (mkLifecycleState (ls_cache st) health, ws, None)
                                     end in
                    match patch pool tracker with
                    | None => update []
                    | Some conditions =>
                        let w := PatchPoolStatus poolName conditions in
                        match ignore_not_found (la_serve api w) with
                        | Some e => Some (st, [w], Some e)
                        | None => update [w]
                        end
                    end
                end
       end.

(** [SetTrue] on the pool changed something. *)
Definition healthy_patch (now : Z) (pool : PoolObject) (tracker : Tracker) : option (list Condition) :=
  if bool_decide (Tracker_Status tracker = StatusHealthy) then
    let cs := set_condition now ConditionTypeNodeRegistrationHealthy ConditionTrue ConditionTypeNodeRegistrationHealthy EmptyString
                (po_Conditions pool) in
    if bool_decide (cs = po_Conditions pool) then None else Some cs
  else None.

Definition unhealthy_patch (now : Z) (c : Claim) (pool : PoolObject) (tracker : Tracker) : option (list Condition) :=
  if bool_decide (Tracker_Status tracker = StatusUnhealthy) &&
     negb (condition_false ConditionTypeNodeRegistrationHealthy (po_Conditions pool)) then
    let '(reason, message) :=
      if condition_true ConditionTypeLaunched (lc_Conditions c) then ("RegistrationFailed", "Failed to register node")
      else match get_condition ConditionTypeLaunched (lc_Conditions c) with
           | Some launched => (cond_Reason launched, cond_Message launched)
           | None => (EmptyString, EmptyString)
           end in
    Some (set_condition now ConditionTypeNodeRegistrationHealthy ConditionFalse reason message (po_Conditions pool))
  else None.

(** The outcome of a failed call on an object other than the claim. *)
Definition conflict_result (st : LifecycleState) (c : Claim) (ws : list action) (e : api_error) : Sub :=
  if bool_decide (e = Conflict) then mkSub st c ws requeue None else mkSub st c ws no_requeue (Some (ApiFailure e)).

Definition Registration_Reconcile (now : Z) (hooks : list Hook) (st : LifecycleState) (c : Claim) : option Sub :=
  if negb (is_unknown ConditionTypeRegistered (lc_Conditions c)) then Some (mkSub st c [] no_requeue None)
  else match NodeForNodeClaim api c with
       | Err NodeNotFound =>
           Some (mkSub st (SetUnknownWithReason now ConditionTypeRegistered "NodeNotFound" "Node not registered with cluster" c) [] no_requeue None)
       | Err DuplicateNode =>
           Some (mkSub st (SetFalse now ConditionTypeRegistered "MultipleNodesFound" "Invariant violated, matched multiple nodes" c) []
                   no_requeue None)
       | Err (ListingNodes e) => Some (mkSub st c [] no_requeue (Some (ApiFailure e)))
       | Ok stored =>
           let node := syncNode c stored in
           let '(c, hooksResult, hookFailed) := checkRegistrationHooks now hooks c in
           let ready := IsZero hooksResult && negb hookFailed in
           let node := if ready then mark_registered (syncNode c node) else node in
           let ws := if bool_decide (stored = node) then [] else [PatchNode node] in
           match ws ≫= λ w, option_list (la_serve api w) with
           | e :: _ => Some (conflict_result st c ws e)
           | [] =>
               if negb ready then Some (mkSub st c ws hooksResult (if hookFailed then Some OtherFailure else None))
               else
                 let c := with_NodeName (SetTrue now ConditionTypeRegistered c) (node_Name (no_Node node)) in
                 match record_health true (healthy_patch now) st c with
                 | None => None
                 | Some (st, ws', e) =>
                     Some match ignore_not_found e with
                          | Some e => conflict_result st c (ws ++ ws') e
                          | None => mkSub st c (ws ++ ws') no_requeue None
                          end
                 end
           end
       end.

(** ** Initialization *)

Definition KnownEphemeralTaintsRemoved (n : Node) : option Taint := List.find (λ t, IsKnownEphemeralTaint (Some t)) (node_Taints n).

(** The first taint of the node that a startup taint of the claim matches. *)
Definition StartupTaintsRemoved (n : Node) (c : Claim) : option Taint :=
  head (claim_StartupTaints (lc_base c) ≫= λ startup, option_list (List.find (λ t, MatchTaint startup t) (node_Taints n))).

(** A requested resource that the node does not offer yet. *)
Definition RequestedResourcesRegistered (n : Node) (c : Claim) : option string :=
  List.find (λ r, negb (qty (lc_Requests c) r =? 0) && (qty (node_Allocatable n) r =? 0)) (iter 0 (dom (lc_Requests c))).

Definition sliceBelongsToNode (slice : ResourceSlice) (nodeName : string) : bool :=
  bool_decide (default EmptyString (rs_NodeName slice) = nodeName) ||
  existsb (λ o, bool_decide (or_Kind o = "Node") && bool_decide (or_Name o = nodeName)) (rs_OwnerReferences slice).

Record poolObservation := mkPoolObservation { ob_generation : Z; ob_count : Z; ob_observed : Z }.

Definition observe (pools : gmap (string * string) poolObservation) (s : ResourceSlice) : gmap (string * string) poolObservation :=
  let key := (rs_Driver s, rs_Pool s) in
  let gen := rs_Generation s in
  match pools !! key with
  | None => <[key := mkPoolObservation gen (rs_ResourceSliceCount s) 1]> pools
  | Some obs =>
      if ob_generation obs <? gen then <[key := mkPoolObservation gen (rs_ResourceSliceCount s) 1]> pools
      else if gen =? ob_generation obs
      then <[key := mkPoolObservation (ob_generation obs) (ob_count obs) (ob_observed obs + 1)]> pools
      else pools
  end.

Definition completePoolDrivers (slices : list ResourceSlice) : gset string :=
  list_to_set (omap (λ '(key, obs), if (0 <? ob_count obs) && (ob_observed obs =? ob_count obs) then Some key.1 else None)
    (map_to_list (foldl observe ∅ slices))).

(** [strings.TrimSpace] and [strings.Split] on a comma; the annotation holds ASCII names. *)
Definition is_space (a : ascii) : bool :=
  let n := nat_of_ascii a in (n =? 32)%nat || ((9 <=? n)%nat && (n <=? 13)%nat).

Fixpoint trim_left (s : string) : string :=
  match s with
  | String a s' => if is_space a then trim_left s' else s
  | EmptyString => EmptyString
  end.

Fixpoint trim_right (s : string) : string :=
  match s with
  | String a s' => match trim_right s' with
                   | EmptyString => if is_space a then EmptyString else String a EmptyString
                   | t => String a t
                   end
  | EmptyString => EmptyString
  end.

Definition TrimSpace (s : string) : string := trim_right (trim_left s).

Fixpoint split_comma (s : string) : list string :=
  match s with
  | EmptyString => [EmptyString]
  | String a s' =>
      if bool_decide (a = ","%char) then EmptyString :: split_comma s'
      else match split_comma s' with
           | first :: rest => String a first :: rest
           | [] => [String a EmptyString]
           end
  end.

Definition DRADriversAnnotationKey : string := Group +:+ "/requested-dra-drivers".

Definition requested_drivers (c : Claim) : list string :=
  let annotation := TrimSpace (default EmptyString (claim_Annotations (lc_base c) !! DRADriversAnnotationKey)) in
  if bool_decide (annotation = EmptyString) then []
  else filter (λ d, d ≠ EmptyString) (TrimSpace <$> split_comma annotation).

(** The first requested driver without a complete pool. *)
Definition DRADriversPublished (c : Claim) (slices : list ResourceSlice) : option string :=
  let complete := completePoolDrivers slices in
  List.find (λ d, negb (bool_decide (d ∈ complete))) (requested_drivers c).

Definition draDriverPoolsPublished (IgnoreDRARequests : bool) (n : Node) (c : Claim) : result api_error (option string) :=
  if IgnoreDRARequests then Ok None
  else if negb (bool_decide (is_Some (claim_Annotations (lc_base c) !! DRADriversAnnotationKey))) then Ok None
  else match la_slices api with
       | Err e => Err e
       | Ok slices => Ok (DRADriversPublished c (filter (λ s, sliceBelongsToNode s (node_Name n) = true) slices))
       end.

(** Why a node is not initialized. *)
Inductive uninitialized :=
| NotFoundYet | NotReady | StartupTaint (t : Taint) | EphemeralTaint (t : Taint) | ResourceMissing (r : string) | DriverMissing (d : string).

Definition formatTaint (effect_name : TaintEffect → string) (t : Taint) : string :=
  if bool_decide (taint_Value t = EmptyString) then taint_Key t +:+ ":" +:+ effect_name (taint_Effect t)
  else taint_Key t +:+ "=" +:+ taint_Value t +:+ ":" +:+ effect_name (taint_Effect t).

Definition uninitialized_reason (u : uninitialized) : string :=
  match u with
  | NotFoundYet => "NodeNotFound"
  | NotReady => "NodeNotReady"
  | StartupTaint _ => "StartupTaintsExist"
  | EphemeralTaint _ => "KnownEphemeralTaintsExist"
  | ResourceMissing _ => "ResourceNotRegistered"
  | DriverMissing _ => "DRADriverPoolsNotPublished"
  end.

(** The checks in order. *)
Definition initialization_blocker (IgnoreDRARequests : bool) (n : Node) (c : Claim) : result api_error (option uninitialized) :=
  if negb (condition_true "Ready" (node_Conditions n)) then Ok (Some NotReady)
  else match StartupTaintsRemoved n c, KnownEphemeralTaintsRemoved n, RequestedResourcesRegistered n c with
       | Some t, _, _ => Ok (Some (StartupTaint t))
       | None, Some t, _ => Ok (Some (EphemeralTaint t))
       | None, None, Some r => Ok (Some (ResourceMissing r))
       | None, None, None =>
           match draDriverPoolsPublished IgnoreDRARequests n c with
           | Err e => Err e
           | Ok d => Ok (DriverMissing <$> d)
           end
       end.

(** [describe] is the text of the message. *)
Definition Initialization_Reconcile (now : Z) (describe : uninitialized → string) (IgnoreDRARequests : bool) (st : LifecycleState) (c : Claim)
    : Sub :=
  let wait u := mkSub st (SetUnknownWithReason now ConditionTypeInitialized (uninitialized_reason u) (describe u) c) [] no_requeue None in
  if negb (is_unknown ConditionTypeInitialized (lc_Conditions c)) then mkSub st c [] no_requeue None
  else if condition_true ConditionTypeRebooting (lc_Conditions c) then mkSub st c [] no_requeue None
  else if negb (condition_true ConditionTypeRegistered (lc_Conditions c)) then mkSub st c [] no_requeue None
  else match NodeForNodeClaim api c with
       | Err _ => wait NotFoundYet
       | Ok stored =>
           match initialization_blocker IgnoreDRARequests (no_Node stored) c with
           | Err e => mkSub st c [] no_requeue (Some (ApiFailure e))
           | Ok (Some u) => wait u
           | Ok None =>
               let n := no_Node stored in
               let node := node_with stored (<[NodeInitializedLabelKey := "true"]> (node_Labels n)) (node_Annotations n) (node_Taints n) in
               let ws := if bool_decide (stored = node) then [] else [PatchNode node] in
               match ws ≫= λ w, option_list (la_serve api w) with
               | e :: _ => mkSub st c ws no_requeue (Some (ApiFailure e))
               | [] => mkSub st (SetTrue now ConditionTypeInitialized c) ws no_requeue None
               end
           end
       end.

(** ** Liveness *)

Definition registrationTimeout : Z := 15 * minute.
Definition LaunchTimeout : Z := 5 * minute.

(** [updateNodePoolRegistrationHealth] and [deleteNodeClaimForTimeout], as both timeouts use
    them: the state, the requests and what the handler returns if it does. *)
Definition time_out (now : Z) (st : LifecycleState) (c : Claim) : option (LifecycleState * list action * option Sub) :=
  match record_health false (unhealthy_patch now c) st c with
  | None => None
  | Some (st, ws, e) =>
      match ignore_not_found e with
      | Some e => Some (st, ws, Some (conflict_result st c ws e))
      | None =>
          let w := DeleteNodeClaim (lc_Name c) in
          let ws := ws ++ [w] in
          Some (st, ws, match la_serve api w with
                        | Some e => Some (mkSub st c ws no_requeue (ApiFailure <$> ignore_not_found (Some e)))
                        | None => None
                        end)
      end
  end.

Definition Liveness_Reconcile (now : Z) (st : LifecycleState) (c : Claim) : option Sub :=
  let cs := lc_Conditions c in
  if condition_true ConditionTypeRegistered cs then Some (mkSub st c [] no_requeue None)
  else match get_condition ConditionTypeLaunched cs with
       | None => Some (mkSub st c [] requeue None)
       | Some launched =>
           (** what the launch timeout leads to: a return, or the requests so far *)
           let launch := if condition_true ConditionTypeLaunched cs then Some (inr (st, []))
                         else let left := wrap64 (LaunchTimeout - time_Sub now (cond_LastTransitionTime launched)) in
                              if 0 <? left then Some (inl (mkSub st c [] (requeue_after left) None))
                              else match time_out now st c with
                                   | None => None
                                   | Some (_, _, Some sub) => Some (inl sub)
                                   | Some (st, ws, None) => Some (inr (st, ws))
                                   end in
           match launch with
           | None => None
           | Some (inl sub) => Some sub
           | Some (inr (st, ws)) =>
               match get_condition ConditionTypeRegistered cs with
               | None => Some (mkSub st c ws requeue None)
               | Some registered =>
                   let left := wrap64 (registrationTimeout - time_Sub now (cond_LastTransitionTime registered)) in
                   if 0 <? left then Some (mkSub st c ws (requeue_after left) None)
                   else match time_out now st c with
                        | None => None
                        | Some (_, _, Some sub) =>
                            Some (mkSub (sub_state sub) (sub_claim sub) (ws ++ sub_actions sub) (sub_result sub) (sub_error sub))
                        | Some (st, ws', None) => Some (mkSub st c (ws ++ ws') no_requeue None)
                        end
               end
           end
       end.

(** ** Finalization *)

(** The patch of the annotation: the claim, the requests, and the error it ends with. *)
Definition ensureTerminationGracePeriodTerminationTimeAnnotation (FormatTime : Z → string) (key : string) (c : Claim)
    : Claim * list action * option api_error :=
  let b := lc_base c in
  match claim_Annotations b !! key, claim_TerminationGracePeriod b, claim_DeletionTimestamp b with
  | None, Some tgp, Some deleted =>
      let w := PatchTermination (lc_Name c) (deleted + tgp) in
      (with_Annotations c (<[key := FormatTime (deleted + tgp)]> (claim_Annotations b)), [w], ignore_not_found (la_serve api w))
  | _, _, _ => (c, [], None)
  end.

(** Deletes the nodes that are not being deleted yet, until a request fails. *)
Fixpoint delete_nodes (nodes : list NodeObject) : list action * bool :=
  match nodes with
  | [] => ([], false)
  | n :: nodes =>
      match node_DeletionTimestamp (no_Node n) with
      | Some _ => delete_nodes nodes
      | None =>
          let w := DeleteNode (node_Name (no_Node n)) in
          if bool_decide (is_Some (ignore_not_found (la_serve api w))) then ([w], true)
          else let '(ws, failed) := delete_nodes nodes in (w :: ws, failed)
      end
  end.

(** The requests, the result and whether it failed. *)
Definition Outcome : Type := list action * Result * bool.

(** An optimistically locked patch that failed. *)
Definition patch_failed (ws : list action) (e : api_error) : Outcome :=
  if bool_decide (e = Conflict) then (ws, requeue, false)
  else (ws, no_requeue, bool_decide (is_Some (ignore_not_found (Some e)))).

Definition remove_finalizer (ws : list action) (c : Claim) : Outcome :=
  let fs := RemoveFinalizer (lc_Finalizers c) TerminationFinalizer in
  if bool_decide (fs = lc_Finalizers c) then (ws, no_requeue, false)
  else let w := PatchFinalizers (lc_Name c) fs in
       match la_serve api w with
       | Some e => patch_failed (ws ++ [w]) e
       | None => (ws ++ [w], no_requeue, false)
       end.

(** The instance is terminated before the finalizer goes. *)
Definition terminate_instance (now : Z) (ws : list action) (c : Claim) : Outcome :=
  if bool_decide (lc_ProviderID c = EmptyString) then remove_finalizer ws c
  else
    let answer := la_delete api c in
    let ws := ws ++ [CallDelete c] in
    match answer with
    | DeleteFailed => (ws, no_requeue, true)
    | _ =>
        let c' := SetTrue now ConditionTypeInstanceTerminating c in
        let patches := if bool_decide (c' = c) then [] else [PatchClaimStatus c'] in
        match patches ≫= λ w, option_list (la_serve api w) with
        | e :: _ => patch_failed (ws ++ patches) e
        | [] => if bool_decide (answer = InstanceNotFound) then remove_finalizer (ws ++ patches) c'
                else (ws ++ patches, requeue_after (5000000000), false)
        end
    end.

Definition finalize (now : Z) (FormatTime : Z → string) (key : string) (c : Claim) : Outcome :=
  if negb (bool_decide (TerminationFinalizer ∈ lc_Finalizers c)) then ([], no_requeue, false)
  else
    let '(c, ws, e) := ensureTerminationGracePeriodTerminationTimeAnnotation FormatTime key c in
    match e with
    | Some e => if bool_decide (e = Conflict) then (ws, requeue, false) else (ws, no_requeue, true)
    | None =>
        if condition_true ConditionTypeRegistered (lc_Conditions c) then
          match AllNodesForNodeClaim api c with
          | Err _ => (ws, no_requeue, true)
          | Ok nodes =>
              let '(ws', failed) := delete_nodes nodes in
              if failed : bool then (ws ++ ws', no_requeue, true)
              else match nodes with
                   | [] => terminate_instance now (ws ++ ws') c
                   | _ => (ws ++ ws', no_requeue, false)
                   end
          end
        else terminate_instance now ws c
    end.

(** ** The controller *)

Definition IsManaged (supported : list (string * string)) (c : Claim) : bool := bool_decide (lc_NodeClass c ∈ supported).

(** The four sub-reconcilers on the same claim; errors do not stop them. *)
Definition run_subs (now : Z) (hooks : list Hook) (describe : uninitialized → string) (IgnoreDRARequests : bool) (st : LifecycleState)
    (c : Claim) : option (LifecycleState * Claim * list action * list Result * list failure) :=
  let s1 := Launch_Reconcile now st c in
  match Registration_Reconcile now hooks (sub_state s1) (sub_claim s1) with
  | None => None
  | Some s2 =>
      let s3 := Initialization_Reconcile now describe IgnoreDRARequests (sub_state s2) (sub_claim s2) in
      match Liveness_Reconcile now (sub_state s3) (sub_claim s3) with
      | None => None
      | Some s4 =>
          Some (sub_state s4, sub_claim s4, sub_actions s1 ++ sub_actions s2 ++ sub_actions s3 ++ sub_actions s4,
                [sub_result s1; sub_result s2; sub_result s3; sub_result s4],
                [sub_error s1; sub_error s2; sub_error s3; sub_error s4] ≫= option_list)
      end
  end.

(** The two patches of a changed claim, the second only after the first. *)
Definition write_back (stored c : Claim) : list action * option api_error :=
  if bool_decide (stored = c) then ([], None)
  else match la_serve api (PatchClaim c) with
       | Some e => ([PatchClaim c], Some e)
       | None => ([PatchClaim c; PatchClaimStatus c], la_serve api (PatchClaimStatus c))
       end.

(** [client.IgnoreNotFound] of several errors looks at the first that the API server gave. *)
Definition ignore_not_found_errors (errs : list failure) : list failure :=
  match omap (λ f, match f with ApiFailure e => Some e | OtherFailure => None end) errs with
  | NotFound :: _ => []
  | _ => errs
  end.

(** [c] is the claim as it was read; the claim is returned as the patches leave it. *)
Definition Lifecycle_Reconcile (now : Z) (supported : list (string * string)) (hooks : list Hook) (describe : uninitialized → string)
    (IgnoreDRARequests : bool) (FormatTime : Z → string) (key : string) (st : LifecycleState) (c : Claim)
    : option (LifecycleState * Claim * Outcome) :=
  if negb (IsManaged supported c) then Some (st, c, ([], no_requeue, false))
  else if bool_decide (is_Some (claim_DeletionTimestamp (lc_base c))) then Some (st, c, finalize now FormatTime key c)
  else
    let fs := AddFinalizer (lc_Finalizers c) TerminationFinalizer in
    let ws := if bool_decide (fs = lc_Finalizers c) then [] else [PatchFinalizers (lc_Name c) fs] in
    match ws ≫= λ w, option_list (la_serve api w) with
    | e :: _ => Some (st, c, patch_failed ws e)
    | [] =>
        let c := with_Finalizers c fs in
        match run_subs now hooks describe IgnoreDRARequests st c with
        | None => None
        | Some (st, c', ws', results, errs) =>
            let '(ws'', e) := write_back c c' in
            let '(res, errs) := match e with
                                | Some e => (no_requeue, ignore_not_found_errors (errs ++ [ApiFailure e]))
                                | None => (match errs with [] => Result_Min results | _ => no_requeue end, errs)
                                end in
            Some (st, c', (ws ++ ws' ++ ws'', res, negb (bool_decide (errs = []))))
        end
    end.
End reconcilers.
