(* ===== verification/LifecycleProps.v ===== *)
(** * LifecycleProps: what the lifecycle controller guarantees

    The phases of a NodeClaim follow each other; an instance is launched only under the
    finalizer and once; the finalizer goes only when nodes and instance are gone; a node is
    initialized exactly when it is ready; a claim that does not register in time is
    deleted. *)

From S2P Require Import Prelude Float64 Labels Requirement Objects Resources Taints Volumes Templates NodePoolHealth Lifecycle.

#[local] Open Scope Z_scope.

(** ** Conditions *)

Section condition_lemmas.
  Context `{CS : ConditionSets}.

Lemma condition_true_get type cs : condition_true type cs = true ↔ ∃ c, get_condition type cs = Some c ∧ cond_Status c = ConditionTrue.
Proof.
  unfold condition_has. destruct (get_condition type cs) as [c|]; [|naive_solver].
  rewrite bool_decide_eq_true. naive_solver.
Qed.

Lemma set_same_true now type status reason message cs :
  condition_true type (set_condition now type status reason message cs) = bool_decide (status = ConditionTrue).
Proof.
  unfold condition_has. destruct (set_condition_same now type status reason message cs) as (c & -> & -> & _). done.
Qed.

Lemma set_other_has st now type status reason message cs type' : type' ≠ type → type' ≠ ConditionReady →
  condition_has st type' (set_condition now type status reason message cs) = condition_has st type' cs.
Proof. intros. unfold condition_has. by rewrite set_condition_other. Qed.

Lemma unknown_not_true type cs : is_unknown type cs = true → condition_true type cs = false.
Proof. unfold is_unknown. intros [H _]%andb_true_iff. by apply negb_true_iff in H. Qed.
End condition_lemmas.

Lemma with_Conditions_conditions c cs : lc_Conditions (with_Conditions c cs) = cs.
Proof. done. Qed.

(** ** Initialization *)

Section initialization.
  Context `{CS : ConditionSets} `{TA : TaintApi} `{IO : IterationOrder} (api : LifecycleApi).

(** A node that can run the pods of its claim. *)
Record node_usable (IgnoreDRARequests : bool) (n : Node) (c : Claim) : Prop := {
  nu_ready : condition_true "Ready" (node_Conditions n) = true;
  nu_startup s t : s ∈ claim_StartupTaints (lc_base c) → t ∈ node_Taints n → MatchTaint s t = false;
  nu_ephemeral t : t ∈ node_Taints n → IsKnownEphemeralTaint (Some t) = false;
  nu_resources r : qty (lc_Requests c) r ≠ 0 → qty (node_Allocatable n) r ≠ 0;
  nu_drivers : IgnoreDRARequests = false → is_Some (claim_Annotations (lc_base c) !! DRADriversAnnotationKey) →
    ∃ slices, la_slices api = Ok slices ∧ ∀ d, d ∈ requested_drivers c →
      d ∈ completePoolDrivers (filter (λ s, sliceBelongsToNode s (node_Name n) = true) slices);
}.

Lemma StartupTaintsRemoved_None n c : StartupTaintsRemoved n c = None ↔
  ∀ s t, s ∈ claim_StartupTaints (lc_base c) → t ∈ node_Taints n → MatchTaint s t = false.
Proof.
  unfold StartupTaintsRemoved. rewrite head_None. induction (claim_StartupTaints (lc_base c)) as [|s l IH]; cbn.
  - split; [by intros _ s t ?%elem_of_nil|done].
  - rewrite app_nil, IH. assert (option_list (List.find (λ t, MatchTaint s t) (node_Taints n)) = [] ↔
      List.find (λ t, MatchTaint s t) (node_Taints n) = None) as -> by (destruct (List.find _ _); naive_solver).
    rewrite find_none. split; [|intros H; split; intros; apply H; auto; by constructor].
    by intros [H1 H2] s' t [->|Hs]%elem_of_cons Ht; [apply H1|eapply H2].
Qed.

Lemma RequestedResourcesRegistered_None n c : RequestedResourcesRegistered n c = None ↔
  ∀ r, qty (lc_Requests c) r ≠ 0 → qty (node_Allocatable n) r ≠ 0.
Proof.
  unfold RequestedResourcesRegistered. rewrite find_none. split.
  - intros H r Hr Hn. specialize (H r). rewrite elem_of_iter, elem_of_dom in H.
    rewrite Hn, (proj2 (Z.eqb_neq _ _) Hr) in H. discriminate H. unfold qty in Hr. by destruct (lc_Requests c !! r).
  - intros H r _. specialize (H r). destruct (qty (lc_Requests c) r =? 0) eqn:E; [done|]. apply Z.eqb_neq in E. cbn.
    by apply Z.eqb_neq, H.
Qed.

Lemma drivers_published IgnoreDRARequests n c : draDriverPoolsPublished api IgnoreDRARequests n c = Ok None ↔
  (IgnoreDRARequests = false → is_Some (claim_Annotations (lc_base c) !! DRADriversAnnotationKey) →
    ∃ slices, la_slices api = Ok slices ∧ ∀ d, d ∈ requested_drivers c →
      d ∈ completePoolDrivers (filter (λ s, sliceBelongsToNode s (node_Name n) = true) slices)).
Proof.
  unfold draDriverPoolsPublished. destruct IgnoreDRARequests; [naive_solver|].
  destruct (bool_decide_reflect (is_Some (claim_Annotations (lc_base c) !! DRADriversAnnotationKey))); cbn; [|naive_solver].
  destruct (la_slices api) as [slices|e]; [|naive_solver]. unfold DRADriversPublished. split.
  - intros [= H] _ _. rewrite find_none in H. exists slices. split; [done|]. intros d Hd. specialize (H d Hd).
    by apply negb_false_iff, bool_decide_eq_true in H.
  - intros H. destruct H as (? & [= <-] & H); [done..|]. f_equal. apply find_none. intros d Hd.
    apply negb_false_iff, bool_decide_eq_true. by apply H.
Qed.

Lemma blocker_None IgnoreDRARequests n c :
  initialization_blocker api IgnoreDRARequests n c = Ok None ↔ node_usable IgnoreDRARequests n c.
Proof.
  unfold initialization_blocker. split.
  - intros H. destruct (condition_true "Ready" (node_Conditions n)) eqn:E1; [|done]. cbn in H.
    destruct (StartupTaintsRemoved n c) eqn:E2; [done|]. destruct (KnownEphemeralTaintsRemoved n) eqn:E3; [done|].
    destruct (RequestedResourcesRegistered n c) eqn:E4; [done|].
    destruct (draDriverPoolsPublished api IgnoreDRARequests n c) as [[d|]|] eqn:E5; try done.
    split; [done|by apply StartupTaintsRemoved_None|by apply (find_none (λ t, IsKnownEphemeralTaint (Some t)))|
      by apply RequestedResourcesRegistered_None|by apply drivers_published].
  - intros [-> H2 H3 H4 H5]. cbn. rewrite (proj2 (StartupTaintsRemoved_None n c)) by done.
    unfold KnownEphemeralTaintsRemoved. rewrite (proj2 (find_none _ _)) by done.
    rewrite (proj2 (RequestedResourcesRegistered_None n c)) by done. by rewrite (proj2 (drivers_published _ n c)).
Qed.

(** The node as initialization leaves it. *)
Definition initialized_node (n : NodeObject) : NodeObject :=
  node_with n (<[NodeInitializedLabelKey := "true"]> (node_Labels (no_Node n))) (node_Annotations (no_Node n)) (node_Taints (no_Node n)).

(** A claim that waits for initialization becomes initialized in a reconciliation exactly when
    its one node is ready, rid of startup and ephemeral taints, reports every requested
    resource and every requested driver, and carries the label or can be patched. *)
Theorem Initialization_spec now describe IgnoreDRARequests st c :
  is_unknown ConditionTypeInitialized (lc_Conditions c) = true →
  condition_true ConditionTypeRegistered (lc_Conditions c) = true →
  condition_true ConditionTypeRebooting (lc_Conditions c) = false →
  condition_true ConditionTypeInitialized (lc_Conditions (sub_claim (Initialization_Reconcile api now describe IgnoreDRARequests st c))) = true ↔
  ∃ n, NodeForNodeClaim api c = Ok n ∧ node_usable IgnoreDRARequests (no_Node n) c ∧
    (initialized_node n = n ∨ la_serve api (PatchNode (initialized_node n)) = None).
Proof.
  intros Hu Hr Hb. pose proof (unknown_not_true _ _ Hu) as Hf.
  unfold Initialization_Reconcile. rewrite Hu, Hb, Hr. cbn [negb].
  destruct (NodeForNodeClaim api c) as [n|e].
  2: { cbn. rewrite set_same_true. split; [done|naive_solver]. }
  fold (initialized_node n). setoid_rewrite <-blocker_None.
  destruct (initialization_blocker api IgnoreDRARequests (no_Node n) c) as [[u|]|e] eqn:Eb; cbn.
  - rewrite set_same_true. split; [done|]. intros (? & [= <-] & H & _). congruence.
  - destruct (bool_decide_reflect (n = initialized_node n)) as [E|E]; cbn.
    + rewrite set_same_true. split; [|done]. intros _. exists n. eauto.
    + destruct (la_serve api (PatchNode (initialized_node n))) eqn:Es; cbn.
      * rewrite Hf. split; [done|]. intros (? & [= <-] & _ & [H|H]); congruence.
      * rewrite set_same_true. split; [|done]. intros _. exists n. eauto.
  - rewrite Hf. split; [done|]. intros (? & [= <-] & H & _). congruence.
Qed.
End initialization.

(** ** What the other sub-reconcilers leave alone *)

Section frames.
  Context `{CS : ConditionSets} `{TA : TaintApi} `{IO : IterationOrder} (api : LifecycleApi).

(** The requests of registration, initialization and liveness. *)
Definition side_request (w : action) : Prop :=
  match w with PatchNode _ | PatchPoolStatus _ _ | DeleteNodeClaim _ => True | _ => False end.

(** The cache survives and the requests concern nodes, pools and the deletion of claims. *)
Definition framed (st st' : LifecycleState) (ws : list action) : Prop := ls_cache st' = ls_cache st ∧ Forall side_request ws.

Lemma record_health_framed success patch st c st' ws e :
  record_health api success patch st c = Some (st', ws, e) → framed st st' ws.
Proof.
  unfold record_health, framed. intros H. repeat (case_match; simplify_eq/=; try done); split; try done; by repeat constructor.
Qed.

Lemma conflict_framed st st' c ws e : framed st st' ws → framed st (sub_state (conflict_result st' c ws e)) (sub_actions (conflict_result st' c ws e)).
Proof. unfold conflict_result. by case_match. Qed.

Lemma conditional_patch_framed (b : bool) n : Forall side_request (if b then [] else [PatchNode n]).
Proof. destruct b; by repeat constructor. Qed.

Lemma framed_app st st1 st2 ws1 ws2 : framed st st1 ws1 → framed st1 st2 ws2 → framed st st2 (ws1 ++ ws2).
Proof. intros [E1 H1] [E2 H2]. split; [congruence|by apply Forall_app]. Qed.

Lemma Registration_framed now hooks st c s : Registration_Reconcile api now hooks st c = Some s → framed st (sub_state s) (sub_actions s).
Proof.
  unfold Registration_Reconcile. intros H. case_match; [by simplify_eq/=|].
  destruct (NodeForNodeClaim api c) as [n|[]]; simplify_eq/=; try done.
  destruct (checkRegistrationHooks now hooks c) as [[c' r] failed].
  set (ready := IsZero r && negb failed) in H. set (node := if ready then _ else _) in H.
  pose proof (conditional_patch_framed (bool_decide (n = node)) node) as Hp.
  set (ws := if bool_decide (n = node) then _ else _) in H, Hp. assert (framed st st ws) as Hf by done.
  destruct (ws ≫= _) as [|e es]; [|by simplify_eq; apply conflict_framed].
  destruct (negb ready); [by simplify_eq/=|].
  destruct (record_health _ _ _ _ _) as [[[st' ws'] e]|] eqn:Eh; [|done]. apply record_health_framed in Eh. simplify_eq.
  pose proof (framed_app _ _ _ _ _ Hf Eh). destruct (ignore_not_found e); [by apply conflict_framed|done].
Qed.

Lemma Initialization_framed now describe IgnoreDRARequests st c :
  framed st (sub_state (Initialization_Reconcile api now describe IgnoreDRARequests st c))
    (sub_actions (Initialization_Reconcile api now describe IgnoreDRARequests st c)).
Proof.
  unfold Initialization_Reconcile. repeat (case_match; try done); split; try done; by repeat constructor.
Qed.

Lemma time_out_framed now st c st' ws r : time_out api now st c = Some (st', ws, r) →
  framed st st' ws ∧ ∀ sub, r = Some sub → framed st (sub_state sub) (sub_actions sub).
Proof.
  unfold time_out. intros H. destruct (record_health _ _ _ _ _) as [[[st1 ws1] e]|] eqn:Eh; [|done].
  apply record_health_framed in Eh as Hf. destruct (ignore_not_found e) as [e'|].
  - simplify_eq. split; [done|]. intros sub [= <-]. by apply conflict_framed.
  - assert (framed st st1 (ws1 ++ [DeleteNodeClaim (lc_Name c)])) as Hf'
      by (eapply framed_app; [done|split; [done|by repeat constructor]]).
    destruct (la_serve api _); simplify_eq; (split; [done|]); [|done]. by intros sub [= <-].
Qed.

Lemma Liveness_framed now st c s : Liveness_Reconcile api now st c = Some s → framed st (sub_state s) (sub_actions s).
Proof.
  unfold Liveness_Reconcile. intros H. destruct (condition_true _ _); [by simplify_eq/=|].
  destruct (get_condition ConditionTypeLaunched _) as [launched|]; [|by simplify_eq/=].
  match type of H with match ?e with _ => _ end = _ => destruct e as [[sub|[st1 ws1]]|] eqn:El; [| |done] end.
  - simplify_eq. repeat (case_match; simplify_eq/=; try done). by eapply time_out_framed.
  - assert (framed st st1 ws1) as Hf.
    { clear H. repeat (case_match; simplify_eq/=; try done). by eapply time_out_framed. }
    destruct (get_condition ConditionTypeRegistered _) as [registered|]; [|by simplify_eq/=].
    case_match; [by simplify_eq/=|]. destruct (time_out api now st1 c) as [[[st2 ws2] [sub|]]|] eqn:Et; [| |done]; simplify_eq/=.
    + eapply framed_app; [done|]. by eapply time_out_framed.
    + eapply framed_app; [done|]. by eapply time_out_framed.
Qed.
End frames.

(** ** A reconciliation, taken apart *)

Definition is_create (w : action) : bool := match w with CallCreate _ => true | _ => false end.

Lemma filter_is_create_nil ws : Forall (λ w, is_create w = false) ws → filter (λ w, is_create w = true) ws = [].
Proof. intros H. apply list_filter_none. intros w Hw. rewrite Forall_forall in H. by rewrite (H w Hw). Qed.

Lemma side_requests_no_create ws : Forall side_request ws → Forall (λ w, is_create w = false) ws.
Proof. intros H. eapply Forall_impl; [exact H|]. by intros []. Qed.

Section anatomy.
  Context `{CS : ConditionSets} `{TA : TaintApi} `{IO : IterationOrder} (api : LifecycleApi).

Lemma delete_nodes_requests nodes : Forall (λ w, ∃ n, w = DeleteNode n) (delete_nodes api nodes).1.
Proof.
  induction nodes as [|n nodes IH]; cbn [delete_nodes]; [done|]. destruct (node_DeletionTimestamp (no_Node n)); [done|].
  case_match; [repeat constructor; eauto|]. destruct (delete_nodes api nodes). cbn in *. constructor; eauto.
Qed.

Lemma ensure_requests FormatTime key c c' ws e :
  ensureTerminationGracePeriodTerminationTimeAnnotation api FormatTime key c = (c', ws, e) →
  Forall (λ w, ∃ n t, w = PatchTermination n t) ws ∧ lc_Finalizers c' = lc_Finalizers c ∧ lc_Name c' = lc_Name c ∧
  lc_ProviderID c' = lc_ProviderID c ∧ lc_Conditions c' = lc_Conditions c.
Proof.
  unfold ensureTerminationGracePeriodTerminationTimeAnnotation. intros H.
  repeat case_match; simplify_eq/=; repeat split; try done; repeat constructor; eauto.
Qed.

(** The requests that end with the removal of the finalizer. *)
Lemma remove_finalizer_requests ws c : ∃ ws', (remove_finalizer api ws c).1.1 = ws ++ ws' ∧
  (ws' = [] ∨ ws' = [PatchFinalizers (lc_Name c) (RemoveFinalizer (lc_Finalizers c) TerminationFinalizer)]).
Proof.
  unfold remove_finalizer, patch_failed. repeat case_match; cbn; eauto; exists []; rewrite app_nil_r; eauto.
Qed.

(** The instance of the claim is known to be gone. *)
Definition instance_gone (c : Claim) (ws : list action) : Prop :=
  lc_ProviderID c = EmptyString ∨ CallDelete c ∈ ws ∧ la_delete api c = InstanceNotFound.

Lemma patch_failed_requests ws e : (patch_failed ws e).1.1 = ws.
Proof. unfold patch_failed. by case_match. Qed.

Lemma terminate_instance_requests now ws c : ∃ ws', (terminate_instance api now ws c).1.1 = ws ++ ws' ∧
  (∀ w, w ∈ ws' → w = CallDelete c ∨ (∃ c', w = PatchClaimStatus c') ∨
     w = PatchFinalizers (lc_Name c) (RemoveFinalizer (lc_Finalizers c) TerminationFinalizer) ∧ instance_gone c ws').
Proof.
  unfold terminate_instance. destruct (bool_decide_reflect (lc_ProviderID c = EmptyString)) as [Hp|Hp].
  { destruct (remove_finalizer_requests ws c) as (ws' & -> & H). exists ws'. split; [done|]. intros w Hw.
    destruct H as [->| ->]; [by apply elem_of_nil in Hw|]. apply list_elem_of_singleton in Hw as ->. right. right. split; [done|]. by left. }
  set (c' := SetTrue now ConditionTypeInstanceTerminating c). set (patches := if bool_decide (c' = c) then [] else [PatchClaimStatus c']).
  assert (∀ w, w ∈ patches → ∃ c', w = PatchClaimStatus c') as Hpatch.
  { subst patches. case_match; [by intros w ?%elem_of_nil|]. intros w ->%list_elem_of_singleton. eauto. }
  destruct (la_delete api c) eqn:Ed.
  - exists (CallDelete c :: patches).
    destruct (patches ≫= _); [|rewrite patch_failed_requests]; cbn; rewrite <-?app_assoc; (split; [done|]);
      intros w [->|Hw]%elem_of_cons; eauto.
  - destruct (patches ≫= _) eqn:Es.
    + rewrite bool_decide_eq_true_2 by done. destruct (remove_finalizer_requests ((ws ++ [CallDelete c]) ++ patches) c') as (ws' & -> & H).
      exists (CallDelete c :: patches ++ ws'). split; [by rewrite <-!app_assoc|].
      intros w [->|[Hw|Hw]%elem_of_app]%elem_of_cons; eauto. right. right. split.
      * destruct H as [->| ->]; [by apply elem_of_nil in Hw|]. by apply list_elem_of_singleton in Hw as ->.
      * right. split; [by left|done].
    + exists (CallDelete c :: patches). rewrite patch_failed_requests, <-!app_assoc. split; [done|].
      intros w [->|Hw]%elem_of_cons; eauto.
  - exists [CallDelete c]. split; [done|]. intros w ->%list_elem_of_singleton. eauto.
Qed.

(** A request of [ws] launches nothing, and it takes the finalizer off only when the nodes and
    the instance of the claim are gone. *)
Definition guarded (c : Claim) (ws : list action) (w : action) : Prop :=
  is_create w = false ∧
  ∀ n fs, w = PatchFinalizers n fs → fs = RemoveFinalizer (lc_Finalizers c) TerminationFinalizer ∧
    (condition_true ConditionTypeRegistered (lc_Conditions c) = true → AllNodesForNodeClaim api c = Ok []) ∧
    (lc_ProviderID c = EmptyString ∨
     ∃ x, CallDelete x ∈ ws ∧ lc_ProviderID x = lc_ProviderID c ∧ la_delete api x = InstanceNotFound).

Lemma guarded_other c ws w : is_create w = false → (∀ n fs, w ≠ PatchFinalizers n fs) → guarded c ws w.
Proof. intros H Hn. split; [done|]. intros n fs ->. by destruct (Hn n fs). Qed.

Lemma terminate_guarded now ws c c1 : lc_Finalizers c1 = lc_Finalizers c → lc_ProviderID c1 = lc_ProviderID c →
  (∀ w, w ∈ ws → is_create w = false ∧ ∀ n fs, w ≠ PatchFinalizers n fs) →
  (condition_true ConditionTypeRegistered (lc_Conditions c) = true → AllNodesForNodeClaim api c = Ok []) →
  ∀ w, w ∈ (terminate_instance api now ws c1).1.1 → guarded c (terminate_instance api now ws c1).1.1 w.
Proof.
  intros Hf Hp H1 Hnodes w. destruct (terminate_instance_requests now ws c1) as (ws' & -> & H').
  intros [Hw|Hw]%elem_of_app; [by apply guarded_other; apply H1|].
  destruct (H' w Hw) as [->|[[x ->]|[-> Hg]]]; [by apply guarded_other..|]. split; [done|]. intros n fs [= <- <-]. rewrite Hf.
  split; [done|]. split; [done|]. destruct Hg as [Hg|[Hd Hg]]; [left; congruence|]. right. exists c1. rewrite elem_of_app. auto.
Qed.

Lemma finalize_requests now FormatTime key c w : w ∈ (finalize api now FormatTime key c).1.1 →
  guarded c (finalize api now FormatTime key c).1.1 w.
Proof.
  unfold finalize. case_match; [by intros ?%elem_of_nil|].
  destruct (ensureTerminationGracePeriodTerminationTimeAnnotation api FormatTime key c) as [[c1 ws] e] eqn:He.
  apply ensure_requests in He as (Hws & Hf & Hn & Hp & Hc). rewrite Forall_forall in Hws.
  assert (∀ w, w ∈ ws → is_create w = false ∧ ∀ n fs, w ≠ PatchFinalizers n fs) as Hws' by (by intros w' (? & ? & ->)%Hws).
  assert (∀ ws0, w ∈ ws → guarded c ws0 w) as Hg by (intros; apply guarded_other; by apply Hws').
  assert (AllNodesForNodeClaim api c1 = AllNodesForNodeClaim api c) as -> by (unfold AllNodesForNodeClaim; by rewrite Hp).
  rewrite Hc. destruct e; [case_match; apply Hg|].
  destruct (condition_true _ _) eqn:Er; [|by apply terminate_guarded; [..|rewrite Er]].
  destruct (AllNodesForNodeClaim api c) as [nodes|] eqn:En; [|apply Hg].
  pose proof (delete_nodes_requests nodes) as Hd. destruct (delete_nodes api nodes) as [ws' failed]. rewrite Forall_forall in Hd. cbn in Hd.
  assert (∀ w, w ∈ ws ++ ws' → is_create w = false ∧ ∀ n fs, w ≠ PatchFinalizers n fs) as Hws2.
  { intros w' [Hw|[n ->]%Hd]%elem_of_app; [by apply Hws'|done]. }
  destruct failed; [intros Hw; by apply guarded_other; apply Hws2|].
  destruct nodes; [by apply terminate_guarded|]. intros Hw. by apply guarded_other; apply Hws2.
Qed.

(** What follows the launch: other requests, and the claim is written back. *)
Definition follow_up (w : action) : Prop := side_request w ∨ (∃ c, w = PatchClaim c) ∨ (∃ c, w = PatchClaimStatus c).

Context (now : Z) (supported : list (string * string)) (hooks : list Hook) (describe : uninitialized → string).
Context (IgnoreDRARequests : bool) (FormatTime : Z → string) (key : string).

Definition finalized_claim (c : Claim) : Claim := with_Finalizers c (AddFinalizer (lc_Finalizers c) TerminationFinalizer).

(** The finalizer is on the claim, or a patch that puts it there went through. *)
Definition finalizer_secured (c : Claim) (ws : list action) : Prop :=
  ws = [] ∧ TerminationFinalizer ∈ lc_Finalizers c ∨
  ws = [PatchFinalizers (lc_Name c) (AddFinalizer (lc_Finalizers c) TerminationFinalizer)] ∧
  la_serve api (PatchFinalizers (lc_Name c) (AddFinalizer (lc_Finalizers c) TerminationFinalizer)) = None.

Lemma AddFinalizer_elem fs f : f ∈ AddFinalizer fs f.
Proof. unfold AddFinalizer. case_bool_decide; [done|]. apply elem_of_app. right. by left. Qed.

Lemma AddFinalizer_same fs f : AddFinalizer fs f = fs → f ∈ fs.
Proof. intros <-. apply AddFinalizer_elem. Qed.

Lemma run_subs_launch st c st' c' ws results errs : run_subs api now hooks describe IgnoreDRARequests st c = Some (st', c', ws, results, errs) →
  ∃ ws', ws = sub_actions (Launch_Reconcile api now st c) ++ ws' ∧ framed (sub_state (Launch_Reconcile api now st c)) st' ws'.
Proof.
  unfold run_subs. intros H. destruct (Registration_Reconcile _ _ _ _ _) as [s2|] eqn:E2; [|done].
  destruct (Liveness_Reconcile _ _ _ _) as [s4|] eqn:E4; [|done]. simplify_eq. eexists. split; [done|].
  apply Registration_framed in E2. apply Liveness_framed in E4. eapply framed_app; [done|]. eapply framed_app; [|done].
  apply Initialization_framed.
Qed.

Lemma write_back_requests stored c : Forall follow_up (write_back api stored c).1.
Proof. unfold write_back, follow_up. repeat case_match; repeat (apply Forall_cons; split); eauto 10; by apply Forall_nil. Qed.

Lemma Reconcile_cases st c st' c' ws res failed :
  Lifecycle_Reconcile api now supported hooks describe IgnoreDRARequests FormatTime key st c = Some (st', c', (ws, res, failed)) →
  st' = st ∧ (ws = [] ∨ is_Some (claim_DeletionTimestamp (lc_base c)) ∧ ws = (finalize api now FormatTime key c).1.1 ∨
              ws = [PatchFinalizers (lc_Name c) (AddFinalizer (lc_Finalizers c) TerminationFinalizer)]) ∨
  claim_DeletionTimestamp (lc_base c) = None ∧ ∃ ws0 ws2,
    ws = ws0 ++ sub_actions (Launch_Reconcile api now st (finalized_claim c)) ++ ws2 ∧ finalizer_secured c ws0 ∧
    ls_cache st' = ls_cache (sub_state (Launch_Reconcile api now st (finalized_claim c))) ∧ Forall follow_up ws2.
Proof.
  unfold Lifecycle_Reconcile. destruct (negb (IsManaged supported c)); [intros [= <- <- <- <- <-]; eauto|].
  case_bool_decide as Hd; [intros [= <- <- Hf]; left; rewrite Hf; eauto|].
  apply eq_None_not_Some in Hd. fold (finalized_claim c).
  set (ws0 := if bool_decide _ then _ else _). intros H.
  destruct (ws0 ≫= _) as [|e es] eqn:Es.
  - right. split; [done|]. destruct (run_subs _ _ _ _ _ _ _) as [[[[[st1 c1] ws1] results] errs]|] eqn:Er; [|done].
    apply run_subs_launch in Er as (ws2 & -> & Hc & Hs). pose proof (write_back_requests (finalized_claim c) c1) as Hw.
    destruct (write_back api (finalized_claim c) c1) as [ws3 e]. destruct (match e with Some _ => _ | None => _ end) as [r0 errs0].
    injection H as <- <- <- <- <-. exists ws0, (ws2 ++ ws3). rewrite <-!app_assoc. split; [done|]. split; [|split; [done|]].
    + subst ws0. unfold finalizer_secured. case_bool_decide as Hb; [left; eauto using AddFinalizer_same|right]. cbn in Es. split; [done|].
      by destruct (la_serve api _).
    + apply Forall_app. split; [|done]. eapply Forall_impl; [done|]. by left.
  - left. subst ws0. case_bool_decide; [done|]. unfold patch_failed in H. case_match; simplify_eq; eauto.
Qed.
End anatomy.

(** ** The finalizer guards the instance *)

Section finalizer.
  Context `{CS : ConditionSets} `{TA : TaintApi} `{IO : IterationOrder} (api : LifecycleApi).
  Context (now : Z) (supported : list (string * string)) (hooks : list Hook) (describe : uninitialized → string).
  Context (IgnoreDRARequests : bool) (FormatTime : Z → string) (key : string).

(** What launching does to the cache, and its requests. *)
Inductive launch_outcome (st : LifecycleState) (c : Claim) : gmap string (Claim * Z) → list action → Prop :=
| outcome_known : is_unknown ConditionTypeLaunched (lc_Conditions c) = false → launch_outcome st c (ls_cache st) []
| outcome_done : is_unknown ConditionTypeLaunched (lc_Conditions c) = false → launch_outcome st c (delete (lc_UID c) (ls_cache st)) []
| outcome_cached created : is_unknown ConditionTypeLaunched (lc_Conditions c) = true → cache_get now (lc_UID c) (ls_cache st) = Some created →
    launch_outcome st c (cache_set now (lc_UID c) created (ls_cache st)) []
| outcome_created created : is_unknown ConditionTypeLaunched (lc_Conditions c) = true → cache_get now (lc_UID c) (ls_cache st) = None →
    la_create api c = Created created → launch_outcome st c (cache_set now (lc_UID c) created (ls_cache st)) [CallCreate c]
| outcome_failed ws : is_unknown ConditionTypeLaunched (lc_Conditions c) = true → cache_get now (lc_UID c) (ls_cache st) = None →
    (∀ created, la_create api c ≠ Created created) → ws = [] ∨ ws = [DeleteNodeClaim (lc_Name c)] →
    launch_outcome st c (ls_cache st) (CallCreate c :: ws).

Lemma Launch_cases st c : launch_outcome st c (ls_cache (sub_state (Launch_Reconcile api now st c))) (sub_actions (Launch_Reconcile api now st c)).
Proof.
  unfold Launch_Reconcile. destruct (is_unknown _ _) eqn:Eu; cbn [negb].
  - destruct (cache_get now (lc_UID c) (ls_cache st)) as [created|] eqn:Ec; [by apply outcome_cached|].
    unfold launchNodeClaim, delete_claim. destruct (la_create api c) as [created| | | |] eqn:El; cbn;
      [by apply outcome_created|apply outcome_failed; eauto; congruence..].
  - case_match; cbn; by constructor.
Qed.

Lemma Launch_creates st c x : CallCreate x ∈ sub_actions (Launch_Reconcile api now st c) → x = c ∧ ∃ ws, sub_actions (Launch_Reconcile api now st c) = CallCreate c :: ws.
Proof.
  destruct (Launch_cases st c) as [| | | |ws ??? [->| ->]]; intros Hx; repeat (apply elem_of_cons in Hx as [Hx|Hx]); simplify_eq/=; eauto;
    by apply elem_of_nil in Hx.
Qed.

Lemma Launch_no_finalizers st c n fs : PatchFinalizers n fs ∉ sub_actions (Launch_Reconcile api now st c).
Proof. destruct (Launch_cases st c) as [| | | |ws ??? [->| ->]]; intros Hx; repeat (apply elem_of_cons in Hx as [Hx|Hx]); try done; by apply elem_of_nil in Hx. Qed.

Lemma follow_up_not ws w : Forall follow_up ws → w ∈ ws → is_create w = false ∧ ∀ n fs, w ≠ PatchFinalizers n fs.
Proof. intros H Hw. rewrite Forall_forall in H. destruct (H w Hw) as [Hs|[[c ->]|[c ->]]]; [|done..]. by destruct w. Qed.

Lemma secured_finalizer c ws : finalizer_secured api c ws →
  (∀ w, w ∈ ws → w = PatchFinalizers (lc_Name c) (AddFinalizer (lc_Finalizers c) TerminationFinalizer)).
Proof. intros [[-> _]|[-> _]] w; [by intros ?%elem_of_nil|by intros ->%list_elem_of_singleton]. Qed.

(** C3: in a reconciliation of a claim an instance is only launched while the claim is not being
    deleted and after the finalizer is on the stored claim, and the finalizer is only taken
    off a claim that is being deleted, once no node of a registered claim is left and the
    cloud provider said that the instance is gone, unless none was recorded. *)
Theorem finalizer_guards_instance st c st' c' ws res failed :
  Lifecycle_Reconcile api now supported hooks describe IgnoreDRARequests FormatTime key st c = Some (st', c', (ws, res, failed)) →
  (∀ x, CallCreate x ∈ ws → claim_DeletionTimestamp (lc_base c) = None ∧ TerminationFinalizer ∈ lc_Finalizers x ∧
     ∃ ws1 ws2, ws = ws1 ++ CallCreate x :: ws2 ∧ finalizer_secured api c ws1) ∧
  (∀ n fs, PatchFinalizers n fs ∈ ws → TerminationFinalizer ∉ fs → is_Some (claim_DeletionTimestamp (lc_base c)) ∧
     (condition_true ConditionTypeRegistered (lc_Conditions c) = true → AllNodesForNodeClaim api c = Ok []) ∧
     (lc_ProviderID c = EmptyString ∨
      ∃ x, CallDelete x ∈ ws ∧ lc_ProviderID x = lc_ProviderID c ∧ la_delete api x = InstanceNotFound)).
Proof.
  intros [[-> Hws]|(Hd & ws0 & ws2 & -> & Hs & _ & Hf)]%Reconcile_cases.
  - destruct Hws as [->|[[Hd ->]| ->]].
    + split; by intros ? ?%elem_of_nil || intros ?? ?%elem_of_nil.
    + split; [by intros x [? _]%finalize_requests|]. intros n fs [_ Hg]%finalize_requests _.
      destruct (Hg n fs eq_refl) as (_ & Hn & Hi). done.
    + split; [by intros x Hx%list_elem_of_singleton|]. intros n fs [= -> ->]%list_elem_of_singleton Hx. by destruct Hx; apply AddFinalizer_elem.
  - split.
    + intros x Hx. split; [done|]. rewrite !elem_of_app in Hx.
      destruct Hx as [Hx|[Hx|[? _]%(follow_up_not _ _ Hf)]]; [by apply secured_finalizer with (1 := Hs) in Hx| |done].
      apply Launch_creates in Hx as [-> [ws ->]]. split; [apply AddFinalizer_elem|]. eauto.
    + intros n fs Hx Hn. rewrite !elem_of_app in Hx. destruct Hx as [Hx|[Hx|Hx]].
      * apply secured_finalizer with (1 := Hs) in Hx as [= -> ->]. by destruct Hn; apply AddFinalizer_elem.
      * by apply Launch_no_finalizers in Hx.
      * destruct (follow_up_not _ _ Hf Hx) as [_ Hne]. by destruct (Hne n fs).
Qed.

(** An instance that was launched but never recorded on its claim is not terminated with the
    claim: the finalizer goes without a call to the cloud provider. *)
Theorem unrecorded_instance_left st c : is_Some (claim_DeletionTimestamp (lc_base c)) → IsManaged supported c = true →
  TerminationFinalizer ∈ lc_Finalizers c → lc_ProviderID c = EmptyString → claim_TerminationGracePeriod (lc_base c) = None →
  ∃ r failed, Lifecycle_Reconcile api now supported hooks describe IgnoreDRARequests FormatTime key st c =
    Some (st, c, ([PatchFinalizers (lc_Name c) (RemoveFinalizer (lc_Finalizers c) TerminationFinalizer)], r, failed)).
Proof.
  intros Hd Hm Hf Hp Ht. unfold Lifecycle_Reconcile. rewrite Hm, bool_decide_eq_true_2 by done. cbn [negb].
  unfold finalize. rewrite bool_decide_eq_true_2 by done. cbn [negb].
  assert (ensureTerminationGracePeriodTerminationTimeAnnotation api FormatTime key c = (c, [], None)) as ->
    by (unfold ensureTerminationGracePeriodTerminationTimeAnnotation; rewrite Ht; by case_match).
  assert (AllNodesForNodeClaim api c = Ok []) as -> by (unfold AllNodesForNodeClaim; by rewrite bool_decide_eq_true_2).
  assert (∀ ws, ∃ r failed, terminate_instance api now ws c = (ws ++ [PatchFinalizers (lc_Name c) (RemoveFinalizer (lc_Finalizers c) TerminationFinalizer)], r, failed)) as Hterm.
  { intros ws. unfold terminate_instance, remove_finalizer, patch_failed. rewrite bool_decide_eq_true_2 by done.
    rewrite bool_decide_eq_false_2. { repeat case_match; eauto. }
    intros E. assert (TerminationFinalizer ∈ RemoveFinalizer (lc_Finalizers c) TerminationFinalizer) as Hin by (by rewrite E).
    by apply list_elem_of_filter in Hin as [? _]. }
  destruct (Hterm []) as (r & failed & E). exists r, failed. cbn [app] in *. by destruct (condition_true _ _); cbn; rewrite E.
Qed.
End finalizer.

(** ** One launch per claim *)

(** A visit of the controller: when, what the outside answers, and the claim as it was read. *)
Record Visit := mkVisit {
  v_now : Z;
  v_api : LifecycleApi;
  v_hooks : list Hook;
  v_claim : Claim;
}.

Section launches.
  Context `{CS : ConditionSets} `{TA : TaintApi} `{IO : IterationOrder}.
  Context (supported : list (string * string)) (describe : uninitialized → string).
  Context (IgnoreDRARequests : bool) (FormatTime : Z → string) (key : string).

(** The visits of a run of the controller, to all claims, each with its requests. *)
Inductive history : LifecycleState → list (Visit * list action) → LifecycleState → Prop :=
| history_nil st : history st [] st
| history_cons st v c' ws res failed st1 tr st2 :
    Lifecycle_Reconcile (v_api v) (v_now v) supported (v_hooks v) describe IgnoreDRARequests FormatTime key st (v_claim v) =
      Some (st1, c', (ws, res, failed)) →
    history st1 tr st2 → history st ((v, ws) :: tr) st2.

(** A request launched an instance for a UID. *)
Definition launches_for (u : string) (api : LifecycleApi) (w : action) : bool :=
  match w with
  | CallCreate c => bool_decide (lc_UID c = u) && (match la_create api c with Created _ => true | _ => false end)
  | _ => false
  end.

Definition launched_by (u : string) (p : Visit * list action) : nat := length (filter (λ w, launches_for u (v_api p.1) w = true) p.2).

Definition launched (u : string) (tr : list (Visit * list action)) : nat := sum_list (launched_by u <$> tr).

Lemma launched_cons u p tr : launched u (p :: tr) = (launched_by u p + launched u tr)%nat.
Proof. done. Qed.

(** Once a read showed the outcome of the launch, later reads do too. *)
Definition reads_monotone (u : string) (tr : list (Visit * list action)) : Prop :=
  ∀ i j p q, (i < j)%nat → tr !! i = Some p → tr !! j = Some q → lc_UID (v_claim p.1) = u → lc_UID (v_claim q.1) = u →
    is_unknown ConditionTypeLaunched (lc_Conditions (v_claim p.1)) = false →
    is_unknown ConditionTypeLaunched (lc_Conditions (v_claim q.1)) = false.

(** The visits to a claim fall within an hour. *)
Definition within_hour (u : string) (t0 : Z) (tr : list (Visit * list action)) : Prop :=
  ∀ p, p ∈ tr → lc_UID (v_claim p.1) = u → t0 ≤ v_now p.1 ≤ t0 + 60 * minute.

Lemma reads_monotone_tail u p tr : reads_monotone u (p :: tr) → reads_monotone u tr.
Proof. intros H i j q r Hij Hq Hr. apply (H (S i) (S j) q r); [lia|done..]. Qed.

Lemma within_hour_tail u t0 p tr : within_hour u t0 (p :: tr) → within_hour u t0 tr.
Proof. intros H q Hq. apply H. by right. Qed.

(** One visit: nothing happens to the entry of another claim; a cached or settled claim is
    not launched; a launch leaves an entry. *)
Inductive visited (u : string) (st : LifecycleState) (v : Visit) (st1 : LifecycleState) : nat → Prop :=
| visited_idle : ls_cache st1 !! u = ls_cache st !! u → visited u st v st1 0
| visited_settled : lc_UID (v_claim v) = u → is_unknown ConditionTypeLaunched (lc_Conditions (v_claim v)) = false →
    ls_cache st1 !! u = None → visited u st v st1 0
| visited_cached created expires : lc_UID (v_claim v) = u → ls_cache st !! u = Some (created, expires) →
    ls_cache st1 !! u = Some (created, v_now v + 60 * minute) → visited u st v st1 0
| visited_launched created : lc_UID (v_claim v) = u → cache_get (v_now v) u (ls_cache st) = None →
    is_unknown ConditionTypeLaunched (lc_Conditions (v_claim v)) = true →
    ls_cache st1 !! u = Some (created, v_now v + 60 * minute) → visited u st v st1 1.

Lemma launched_by_none u v ws : (∀ w, w ∈ ws → is_create w = false) → launched_by u (v, ws) = 0%nat.
Proof.
  intros H. unfold launched_by. cbn. rewrite list_filter_none; [done|]. intros w Hw. specialize (H w Hw). by destruct w.
Qed.

Lemma launched_by_cons u v w ws : launched_by u (v, w :: ws) = ((if launches_for u (v_api v) w then 1 else 0) + launched_by u (v, ws))%nat.
Proof.
  unfold launched_by. cbn [fst snd]. destruct (launches_for u (v_api v) w) eqn:E; [by rewrite filter_cons_True|].
  rewrite filter_cons_False; [done|by rewrite E].
Qed.

Lemma launched_by_app u v ws1 ws2 : launched_by u (v, ws1 ++ ws2) = (launched_by u (v, ws1) + launched_by u (v, ws2))%nat.
Proof. unfold launched_by. cbn. by rewrite filter_app, length_app. Qed.

Lemma cache_get_Some now u cache created : cache_get now u cache = Some created → ∃ expires, cache !! u = Some (created, expires).
Proof. unfold cache_get. repeat case_match; intros; simplify_eq; eauto. Qed.

Lemma launch_visited u v st st1 : let s := Launch_Reconcile (v_api v) (v_now v) st (finalized_claim (v_claim v)) in
  ls_cache st1 = ls_cache (sub_state s) → visited u st v st1 (launched_by u (v, sub_actions s)).
Proof.
  intros s Hc. subst s. set (c := finalized_claim (v_claim v)) in *.
  assert (lc_UID c = lc_UID (v_claim v)) as Hu by done. assert (lc_Conditions c = lc_Conditions (v_claim v)) as Hcs by done.
  assert (∀ ws, (∀ created, la_create (v_api v) c ≠ Created created) → ws = [] ∨ ws = [DeleteNodeClaim (lc_Name c)] →
    launched_by u (v, CallCreate c :: ws) = 0%nat) as Hno.
  { intros ws Hl Hws. rewrite launched_by_cons. cbn [launches_for].
    destruct (la_create (v_api v) c) eqn:El; [by destruct (Hl c0)|rewrite andb_false_r; by destruct Hws as [->| ->]..]. }
  destruct (Launch_cases (v_api v) (v_now v) st c) as [Hk|Hk|created Hk Hg|created Hk Hg Hl|ws Hk Hg Hl Hws];
    rewrite ?Hu in *; rewrite ?Hcs in *; destruct (decide (lc_UID (v_claim v) = u)) as [E|E].
  - by apply visited_idle; rewrite Hc.
  - by apply visited_idle; rewrite Hc.
  - apply visited_settled; [done..|]. by rewrite Hc, <-E, lookup_delete_eq.
  - apply visited_idle. by rewrite Hc, lookup_delete_ne.
  - apply cache_get_Some in Hg as [expires Hg]. rewrite E in *. apply (visited_cached _ _ _ _ created expires); [done..|].
    unfold cache_set in Hc. by rewrite Hc, lookup_insert_eq.
  - apply visited_idle. unfold cache_set in Hc. by rewrite Hc, lookup_insert_ne.
  - rewrite launched_by_cons. cbn [launches_for]. rewrite Hu, Hl, bool_decide_eq_true_2 by done. rewrite E in *.
    eapply (visited_launched _ _ _ _ created); try done. unfold cache_set in Hc. by rewrite Hc, lookup_insert_eq.
  - rewrite launched_by_cons. cbn [launches_for]. rewrite Hu, bool_decide_eq_false_2 by done. apply visited_idle.
    unfold cache_set in Hc. by rewrite Hc, lookup_insert_ne.
  - rewrite Hno by done. by apply visited_idle; rewrite Hc.
  - rewrite Hno by done. by apply visited_idle; rewrite Hc.
Qed.

Lemma visit_visited u v st st1 c' ws res failed :
  Lifecycle_Reconcile (v_api v) (v_now v) supported (v_hooks v) describe IgnoreDRARequests FormatTime key st (v_claim v) =
    Some (st1, c', (ws, res, failed)) → visited u st v st1 (launched_by u (v, ws)).
Proof.
  intros [[-> Hws]|(_ & ws0 & ws2 & -> & Hs & Hc & Hf)]%Reconcile_cases.
  - rewrite launched_by_none; [by apply visited_idle|]. intros w Hw. destruct Hws as [->|[[Hd ->]| ->]].
    + by apply elem_of_nil in Hw.
    + by apply finalize_requests in Hw as [? _].
    + by apply list_elem_of_singleton in Hw as ->.
  - rewrite !launched_by_app, (launched_by_none u v ws0), (launched_by_none u v ws2).
    + rewrite Nat.add_0_r. by apply launch_visited.
    + intros w Hw. by apply (follow_up_not _ _ Hf).
    + intros w ->%(secured_finalizer _ _ _ Hs). done.
Qed.

(** The claim has its instance: the cache will know for the rest of the hour, or every later
    read shows it. *)
Definition launch_known (u : string) (t0 : Z) (st : LifecycleState) (tr : list (Visit * list action)) : Prop :=
  (∃ created expires, ls_cache st !! u = Some (created, expires) ∧ t0 + 60 * minute ≤ expires) ∨
  ls_cache st !! u = None ∧
    ∀ p, p ∈ tr → lc_UID (v_claim p.1) = u → is_unknown ConditionTypeLaunched (lc_Conditions (v_claim p.1)) = false.

Lemma settled_later u p tr : reads_monotone u (p :: tr) → lc_UID (v_claim p.1) = u →
  is_unknown ConditionTypeLaunched (lc_Conditions (v_claim p.1)) = false →
  ∀ q, q ∈ tr → lc_UID (v_claim q.1) = u → is_unknown ConditionTypeLaunched (lc_Conditions (v_claim q.1)) = false.
Proof. intros Hm Hu Hk q [j Hj]%list_elem_of_lookup_1 Hq. eapply (Hm 0%nat (S j) p q); [lia|done..]. Qed.

Lemma no_second_launch u t0 st tr st' : history st tr st' → reads_monotone u tr → within_hour u t0 tr → launch_known u t0 st tr → launched u tr = 0%nat.
Proof.
  intros Hh. induction Hh as [|st v c' ws res failed st1 tr st2 Hr Hh IH]; intros Hm Hw Hk; [done|].
  apply (visit_visited u) in Hr. rewrite launched_cons.
  assert (launch_known u t0 st1 tr → launched u tr = 0%nat) as Hnext
    by (intros Hk1; apply IH; [by eapply reads_monotone_tail|by eapply within_hour_tail|done]).
  assert (lc_UID (v_claim v) = u → t0 ≤ v_now v ≤ t0 + 60 * minute) as Ht by (apply (Hw (v, ws)); by left).
  remember (launched_by u (v, ws)) as n eqn:En. destruct Hr as [Hc|Hu Hs Hc|created expires Hu Hc Hc1|created Hu Hg Hs Hc].
  - apply Hnext. destruct Hk as [(created & expires & E & He)|[E Hk]]; [left; exists created, expires; by rewrite Hc|].
    right. rewrite Hc. split; [done|]. intros q Hq. apply Hk. by right.
  - apply Hnext. right. split; [done|]. by apply (settled_later u (v, ws) tr).
  - apply Hnext. left. exists created, (v_now v + 60 * minute). split; [done|]. specialize (Ht Hu). lia.
  - exfalso. specialize (Ht Hu). destruct Hk as [(created' & expires & E & He)|[E Hk]].
    + unfold cache_get in Hg. rewrite E in Hg. case_match eqn:Ex; [|done]. apply Z.ltb_lt in Ex. lia.
    + specialize (Hk (v, ws) ltac:(by left) Hu). cbn in Hk. congruence.
Qed.

(** C7: however reconciliations of all claims follow each other, whatever the API server and the
    cloud provider answer and however stale the reads, at most one instance is launched for a
    claim within an hour, as long as reads of the claim do not forget the outcome of its
    launch. *)
Theorem launched_at_most_once u t0 st tr st' : history st tr st' → ls_cache st !! u = None →
  reads_monotone u tr → within_hour u t0 tr → (launched u tr ≤ 1)%nat.
Proof.
  intros Hh. induction Hh as [|st v c' ws res failed st1 tr st2 Hr Hh IH]; intros Hn Hm Hw; [cbn; lia|].
  apply (visit_visited u) in Hr. rewrite launched_cons.
  assert (reads_monotone u tr) as Hm' by (by eapply reads_monotone_tail). assert (within_hour u t0 tr) as Hw' by (by eapply within_hour_tail).
  remember (launched_by u (v, ws)) as n eqn:En. destruct Hr as [Hc|Hu Hs Hc|created expires Hu Hc Hc1|created Hu Hg Hs Hc].
  - rewrite Hc in IH. by apply IH.
  - by apply IH.
  - congruence.
  - rewrite (no_second_launch u t0 st1 tr st2); [lia|done..|]. left. exists created, (v_now v + 60 * minute). split; [done|].
    assert (t0 ≤ v_now v ≤ t0 + 60 * minute) by (apply (Hw (v, ws)); [by left|done]). lia.
Qed.
End launches.

(** ** Registration *)

(** A hook works on metadata: it leaves the conditions and the identity of the claim alone. *)
Definition hook_keeps_status (h : Hook) : Prop := ∀ c,
  lc_Conditions (hook_Registered h c).1 = lc_Conditions c ∧ lc_ProviderID (hook_Registered h c).1 = lc_ProviderID c.

(** The hooks are all ready, each for the claim as the hooks before it left it. *)
Inductive hooks_ready : list Hook → Claim → Claim → Prop :=
| no_hooks c : hooks_ready [] c c
| hook_ready h hooks c c1 c' : hook_Registered h c = (c1, Ok no_requeue) → hooks_ready hooks c1 c' → hooks_ready (h :: hooks) c c'.

(** A node that joined the cluster for a claim: [c] is the claim before the
    registration and [c'] after it, [stored] the node as it was. *)
Record joined `{TaintApi} (c c' : Claim) (stored node : NodeObject) : Prop := {
  jn_finalizer : TerminationFinalizer ∈ no_Finalizers node;
  jn_owner : ∃ o, o ∈ no_OwnerReferences node ∧ or_APIVersion o = NodeClaimAPIVersion ∧ or_Kind o = "NodeClaim" ∧ or_UID o = lc_UID c';
  jn_registered : node_Labels (no_Node node) !! NodeRegisteredLabelKey = Some "true";
  jn_labels k v : claim_Labels (lc_base c') !! k = Some v → k ≠ NodeRegisteredLabelKey → node_Labels (no_Node node) !! k = Some v;
  jn_annotations k v : claim_Annotations (lc_base c') !! k = Some v → node_Annotations (no_Node node) !! k = Some v;
  jn_taints t : node_Labels (no_Node stored) !! NodeDoNotSyncTaintsLabelKey ≠ Some "true" →
    t ∈ claim_Taints (lc_base c) ++ claim_StartupTaints (lc_base c) → MatchTaint t UnregisteredNoExecuteTaint = false →
    ∃ t', t' ∈ node_Taints (no_Node node) ∧ MatchTaint t t' = true;
  jn_untainted t : t ∈ node_Taints (no_Node node) → MatchTaint t UnregisteredNoExecuteTaint = false;
}.

Section registration.
  Context `{CS : ConditionSets} `{TA : TaintApi} `{IO : IterationOrder} (api : LifecycleApi).

Lemma run_hooks_ready hooks c merged c' merged' failed :
  run_hooks hooks c merged = (c', [], merged', failed) → hooks_ready hooks c c'.
Proof.
  revert c. induction hooks as [|h hooks IH]; intros c; cbn [run_hooks]; [intros [= -> _ _]; constructor|].
  destruct (hook_Registered h c) as [c1 [r|]] eqn:Eh; [|by destruct (run_hooks hooks c1 merged) as [[[??]?]?]].
  destruct (IsZero r) eqn:Er; [|by destruct (run_hooks hooks c1 (merge_hook_result merged r)) as [[[??]?]?]].
  apply bool_decide_eq_true in Er as ->. intros H. econstructor; [exact Eh|by eapply IH].
Qed.

Lemma run_hooks_status hooks c merged : Forall hook_keeps_status hooks →
  let c' := (run_hooks hooks c merged).1.1.1 in lc_Conditions c' = lc_Conditions c ∧ lc_ProviderID c' = lc_ProviderID c.
Proof.
  revert c merged. induction hooks as [|h hooks IH]; intros c merged Hs; [done|]. inversion_clear Hs as [|?? Hh Hs'].
  cbn [run_hooks]. destruct (hook_Registered h c) as [c1 r] eqn:Eh. destruct (Hh c) as [<- <-]. rewrite Eh. cbn [fst].
  destruct r as [r|]; [destruct (IsZero r); [by apply IH|]|].
  - specialize (IH c1 (merge_hook_result merged r) Hs'). by destruct (run_hooks hooks c1 _) as [[[??]?]?].
  - specialize (IH c1 merged Hs'). by destruct (run_hooks hooks c1 _) as [[[??]?]?].
Qed.

Lemma UpdateNodeOwnerReferences_owner c owners : ∃ o, o ∈ UpdateNodeOwnerReferences c owners ∧ or_APIVersion o = NodeClaimAPIVersion ∧
  or_Kind o = "NodeClaim" ∧ or_UID o = lc_UID c.
Proof.
  unfold UpdateNodeOwnerReferences. case_match eqn:E.
  - apply existsb_elem_of in E as (o & Ho & [[H1 H2]%andb_true_iff H3]%andb_true_iff). exists o. by rewrite !bool_decide_eq_true in *.
  - eexists. rewrite elem_of_app. split; [right; by left|done].
Qed.

(** The taints of the claim are on the node after the first synchronisation, and the second
    one does not take any away. *)
Lemma syncNode_taints c n t : node_Labels (no_Node n) !! NodeDoNotSyncTaintsLabelKey ≠ Some "true" →
  t ∈ claim_Taints (lc_base c) ++ claim_StartupTaints (lc_base c) → ∃ t', t' ∈ node_Taints (no_Node (syncNode c n)) ∧ MatchTaint t t' = true.
Proof.
  intros Hl Ht. cbn. rewrite bool_decide_eq_false_2 by done.
  destruct (Taints_Merge_spec (node_Taints (no_Node n)) (claim_Taints (lc_base c))) as (_ & H1 & _).
  destruct (Taints_Merge_spec (Taints_Merge (node_Taints (no_Node n)) (claim_Taints (lc_base c))) (claim_StartupTaints (lc_base c)))
    as ((added & -> & _) & H2 & _).
  apply elem_of_app in Ht as [(t' & ? & ?)%H1|Ht]; [|by apply H2]. exists t'. rewrite elem_of_app. auto.
Qed.

Lemma syncNode_keeps_taints c n t : t ∈ node_Taints (no_Node n) → t ∈ node_Taints (no_Node (syncNode c n)).
Proof.
  intros Ht. cbn. case_match; [done|].
  destruct (Taints_Merge_spec (node_Taints (no_Node n)) (claim_Taints (lc_base c))) as ((a1 & E1 & _) & _).
  destruct (Taints_Merge_spec (Taints_Merge (node_Taints (no_Node n)) (claim_Taints (lc_base c))) (claim_StartupTaints (lc_base c)))
    as ((a2 & -> & _) & _). rewrite E1, !elem_of_app. auto.
Qed.

Lemma assign_wins m1 m2 (k : string) (v : string) : m2 !! k = Some v → assign m1 m2 !! k = Some v.
Proof. unfold assign. apply lookup_union_Some_l. Qed.

Lemma match_taint_trans t t' u : MatchTaint t t' = true → MatchTaint t' u = true → MatchTaint t u = true.
Proof. rewrite !MatchTaint_spec. naive_solver congruence. Qed.

Lemma registered_joined c c' n : joined c c' n (mark_registered (syncNode c' (syncNode c n))).
Proof.
  split.
  - cbn. apply AddFinalizer_elem.
  - apply UpdateNodeOwnerReferences_owner.
  - cbn. by rewrite lookup_insert_eq.
  - intros k v Hk Hne. cbn. rewrite lookup_insert_ne by done. by apply assign_wins.
  - intros k v Hk. cbn. by apply assign_wins.
  - intros t Hl Ht Hu. destruct (syncNode_taints c n t Hl Ht) as (t' & Hin & Hm). exists t'. split; [|done].
    apply list_elem_of_filter. split; [|by apply syncNode_keeps_taints].
    destruct (MatchTaint t' UnregisteredNoExecuteTaint) eqn:E; [|done]. by rewrite (match_taint_trans _ _ _ Hm E) in Hu.
  - intros t Ht. by apply list_elem_of_filter in Ht as [? _].
Qed.

Lemma conflict_claim st c ws e : sub_claim (conflict_result st c ws e) = c ∧ sub_actions (conflict_result st c ws e) = ws.
Proof. unfold conflict_result. by case_match. Qed.

Lemma hooks_status now hooks c : Forall hook_keeps_status hooks → let '(c', _, _) := checkRegistrationHooks now hooks c in
  lc_ProviderID c' = lc_ProviderID c ∧
  (condition_true ConditionTypeRegistered (lc_Conditions c) = false → condition_true ConditionTypeRegistered (lc_Conditions c') = false) ∧
  ∀ type, type ≠ ConditionTypeRegistered → type ≠ ConditionReady → condition_true type (lc_Conditions c') = condition_true type (lc_Conditions c).
Proof.
  intros Hs. unfold checkRegistrationHooks. pose proof (run_hooks_status hooks c no_requeue Hs) as H.
  destruct (run_hooks hooks c no_requeue) as [[[c' pending] merged] failed]. cbn in H. destruct H as [Hc Hp].
  destruct pending; [by rewrite Hc|]. cbn. rewrite set_same_true, Hc. split; [done|]. split; [done|].
  intros type H1 H2. by rewrite set_other_has.
Qed.

Lemma IsZero_false r : IsZero r = false ↔ res_Requeue r = true ∨ res_RequeueAfter r ≠ 0.
Proof.
  unfold IsZero. rewrite bool_decide_eq_false. destruct r as [[] d]; cbn; [naive_solver|].
  unfold no_requeue. split; [|naive_solver]. intros H. right. by intros ->.
Qed.

Lemma merge_hook_result_pending merged r : IsZero merged = false ∨ IsZero r = false → IsZero (merge_hook_result merged r) = false.
Proof.
  rewrite !IsZero_false. destruct merged as [m d], r as [q e]. cbn. intros H.
  destruct m, q; cbn; [by left..|]. right. destruct (Z.eqb_spec d 0); cbn; [destruct H as [[]|[]]; naive_solver|].
  destruct ((0 <? e) && (e <? d)) eqn:E; [|done]. apply andb_true_iff in E as [E _]. apply Z.ltb_lt in E. lia.
Qed.

(** A hook that is pending without an error leaves a result to wait for. *)
Lemma run_hooks_pending hooks c merged c' pending merged' :
  run_hooks hooks c merged = (c', pending, merged', false) → IsZero merged = false ∨ pending ≠ [] → IsZero merged' = false.
Proof.
  revert c merged pending. induction hooks as [|h hooks IH]; intros c merged pending; cbn [run_hooks].
  { intros [= <- <- <-]. naive_solver. }
  destruct (hook_Registered h c) as [c1 [r|]]; [|by destruct (run_hooks hooks c1 merged) as [[[??]?]?]].
  destruct (IsZero r) eqn:Er; [by apply IH|].
  destruct (run_hooks hooks c1 (merge_hook_result merged r)) as [[[c2 p2] m2] f2] eqn:E. intros [= -> <- -> ->] _.
  eapply IH; [exact E|]. left. apply merge_hook_result_pending. auto.
Qed.

Lemma ready_hooks now hooks c c' r failed : checkRegistrationHooks now hooks c = (c', r, failed) → IsZero r && negb failed = true →
  ∃ merged failed', run_hooks hooks c no_requeue = (c', [], merged, failed').
Proof.
  unfold checkRegistrationHooks. destruct (run_hooks hooks c no_requeue) as [[[c1 pending] merged] failed1] eqn:E.
  destruct pending; [intros [= <- <- <-]; eauto|]. intros [= <- <- <-] [Hz ->%negb_true_iff]%andb_true_iff.
  rewrite (run_hooks_pending _ _ _ _ _ _ E) in Hz; [done|]. by right.
Qed.

(** C17: a claim becomes registered only with exactly one node, once every hook is ready (each for
    the claim as the hooks before it left it), and the node, as it was stored or as it was
    patched, is then joined to the cluster for that claim: it has the finalizer, the owner
    reference, the labels and annotations the registered claim has, the
    taints the claim had when the registration began unless the node opted out of them, and not the taint
    that held it back.  The hooks, which are the cloud provider's, are
    taken to leave the conditions and the provider id alone. *)
Theorem registration_joins_node now hooks st c s : Forall hook_keeps_status hooks →
  condition_true ConditionTypeRegistered (lc_Conditions c) = false → Registration_Reconcile api now hooks st c = Some s →
  condition_true ConditionTypeRegistered (lc_Conditions (sub_claim s)) = true →
  ∃ stored node c', NodeForNodeClaim api c = Ok stored ∧ hooks_ready hooks c c' ∧
    sub_claim s = with_NodeName (SetTrue now ConditionTypeRegistered c') (node_Name (no_Node node)) ∧
    joined c (sub_claim s) stored node ∧
    (stored = node ∨ PatchNode node ∈ sub_actions s ∧ la_serve api (PatchNode node) = None).
Proof.
  intros Hs Hf H Ht. unfold Registration_Reconcile in H. case_match; [simplify_eq/=; congruence|].
  destruct (NodeForNodeClaim api c) as [stored|[]]; simplify_eq/=; [|by rewrite set_same_true in Ht..|congruence].
  pose proof (hooks_status now hooks c Hs) as Hh. destruct (checkRegistrationHooks now hooks c) as [[c' r] failed] eqn:Eh.
  destruct Hh as (_ & Hr & _). specialize (Hr Hf).
  destruct (IsZero r && negb failed) eqn:Eready; cbn [negb] in H.
  2: { destruct (_ ≫= _); simplify_eq; [cbn in Ht|rewrite (proj1 (conflict_claim _ _ _ _)) in Ht]; congruence. }
  destruct (ready_hooks _ _ _ _ _ _ Eh Eready) as (merged & failed' & Er).
  set (node := mark_registered _) in H. exists stored, node, c'. split; [done|]. split; [by eapply run_hooks_ready|].
  set (ws := if bool_decide (stored = node) then _ else _) in H.
  destruct (ws ≫= _) as [|e es] eqn:Ews; [|simplify_eq; rewrite (proj1 (conflict_claim _ _ _ _)) in Ht; congruence].
  destruct (record_health _ _ _ _ _) as [[[st' ws'] e]|]; [|done].
  assert (sub_claim s = with_NodeName (SetTrue now ConditionTypeRegistered c') (node_Name (no_Node node)) ∧ sub_actions s = ws ++ ws') as [-> ->].
  { destruct (ignore_not_found e); simplify_eq; [apply conflict_claim|done]. }
  split; [done|]. split; [by destruct (registered_joined c c' stored); split|].
  subst ws. case_bool_decide; [by left|]. right. split; [by left|].
  cbn in Ews. by destruct (la_serve api (PatchNode node)).
Qed.
End registration.

(** ** Phases *)

(** The phases of a claim follow each other: it has an instance exactly when it is launched,
    and it is launched before it registers, and registered before it is initialized. *)
Record phases (c : Claim) : Prop := {
  ph_launched : condition_true ConditionTypeLaunched (lc_Conditions c) = true ↔ lc_ProviderID c ≠ EmptyString;
  ph_registered : condition_true ConditionTypeRegistered (lc_Conditions c) = true → condition_true ConditionTypeLaunched (lc_Conditions c) = true;
  ph_initialized : condition_true ConditionTypeInitialized (lc_Conditions c) = true → condition_true ConditionTypeRegistered (lc_Conditions c) = true;
}.

(** Launched instances have an identity, the cached ones too. *)
Definition cache_identified (st : LifecycleState) : Prop :=
  ∀ u created expires, ls_cache st !! u = Some (created, expires) → lc_ProviderID created ≠ EmptyString.

Section phases.
  Context `{CS : ConditionSets} `{TA : TaintApi} `{IO : IterationOrder} (api : LifecycleApi).
  Context (Hcreated : ∀ c created, la_create api c = Created created → lc_ProviderID created ≠ EmptyString).

(** A step that touches one condition only. *)
Lemma phases_set now type status reason message c : type ∈ [ConditionTypeLaunched; ConditionTypeRegistered; ConditionTypeInitialized] →
  (∀ type', type' ∈ [ConditionTypeLaunched; ConditionTypeRegistered; ConditionTypeInitialized] →
     condition_true type' (lc_Conditions (with_Conditions c (set_condition now type status reason message (lc_Conditions c)))) =
     if bool_decide (type' = type) then bool_decide (status = ConditionTrue) else condition_true type' (lc_Conditions c)).
Proof.
  intros Ht type' Ht'. rewrite with_Conditions_conditions. case_bool_decide as E; [rewrite E; apply set_same_true|].
  apply set_other_has; [done|]. intros ->. by repeat (apply elem_of_cons in Ht' as [?|Ht']); try by apply elem_of_nil in Ht'.
Qed.

Lemma Launch_phases now st c : cache_identified st → phases c →
  phases (sub_claim (Launch_Reconcile api now st c)) ∧ cache_identified (sub_state (Launch_Reconcile api now st c)).
Proof.
  intros Hc Hp. unfold Launch_Reconcile. destruct (is_unknown _ _) eqn:Eu; cbn [negb].
  2: { split; [done|]. intros u created expires. cbn [sub_state ls_cache]. case_match; [|apply Hc]. intros [_ Hl]%lookup_delete_Some. by eapply Hc. }
  apply unknown_not_true in Eu. destruct Hp as [H1 H2 H3].
  assert (condition_true ConditionTypeRegistered (lc_Conditions c) = false) as Hr by (destruct (condition_true ConditionTypeRegistered _); naive_solver congruence).
  assert (condition_true ConditionTypeInitialized (lc_Conditions c) = false) as Hi by (destruct (condition_true ConditionTypeInitialized _); naive_solver congruence).
  assert (lc_ProviderID c = EmptyString) as Hid by (destruct (decide (lc_ProviderID c = EmptyString)); [done|naive_solver congruence]).
  assert (∀ created, lc_ProviderID created ≠ EmptyString → phases (SetTrue now ConditionTypeLaunched (PopulateNodeClaimDetails c created)) ∧
    cache_identified (mkLifecycleState (cache_set now (lc_UID c) created (ls_cache st)) (ls_health st))) as Hcase.
  { intros created Hne. split.
    - split; unfold SetTrue; rewrite ?(phases_set now ConditionTypeLaunched) by set_solver; cbn [bool_decide]; cbn; naive_solver congruence.
    - intros u x e. cbn. unfold cache_set. intros [[_ [= <- <-]]|[_ H]]%lookup_insert_Some; [done|by eapply Hc]. }
  assert (∀ reason message, phases (SetUnknownWithReason now ConditionTypeLaunched reason message c)) as Hfail.
  { intros. split; unfold SetUnknownWithReason; rewrite ?(phases_set now ConditionTypeLaunched) by set_solver; cbn; naive_solver congruence. }
  destruct (cache_get now (lc_UID c) (ls_cache st)) as [created|] eqn:Ec.
  { apply cache_get_Some in Ec as [e Ec]. apply Hcase. by eapply Hc. }
  unfold launchNodeClaim, delete_claim. destruct (la_create api c) as [created| | | |] eqn:El; cbn; [apply Hcase; by eapply Hcreated|split; [by split|done]..| |].
  - split; [apply Hfail|done].
  - split; [apply Hfail|done].
Qed.

Lemma NodeForNodeClaim_provider c n : NodeForNodeClaim api c = Ok n → lc_ProviderID c ≠ EmptyString.
Proof. unfold NodeForNodeClaim, AllNodesForNodeClaim. intros H Hp. by rewrite bool_decide_eq_true_2 in H. Qed.

Lemma phases_same c c' : lc_ProviderID c' = lc_ProviderID c →
  (∀ type, type ∈ [ConditionTypeLaunched; ConditionTypeRegistered; ConditionTypeInitialized] →
     condition_true type (lc_Conditions c') = condition_true type (lc_Conditions c)) → phases c → phases c'.
Proof. intros Hp Hc [H1 H2 H3]. split; rewrite !Hc by set_solver; by rewrite ?Hp. Qed.

Lemma hooks_phases now hooks c : Forall hook_keeps_status hooks → condition_true ConditionTypeRegistered (lc_Conditions c) = false →
  phases c → let '(c', _, _) := checkRegistrationHooks now hooks c in phases c' ∧ lc_ProviderID c' = lc_ProviderID c.
Proof.
  intros Hs Hf Hp. pose proof (hooks_status now hooks c Hs) as H. destruct (checkRegistrationHooks now hooks c) as [[c' r] failed].
  destruct H as (Hid & Hr & Ho). split; [|done]. apply (phases_same c); [done| |done].
  intros type Ht. destruct (decide (type = ConditionTypeRegistered)) as [->|Hne]; [rewrite Hf; by apply Hr|].
  apply Ho; [done|]. intros ->. by repeat (apply elem_of_cons in Ht as [?|Ht]); try by apply elem_of_nil in Ht.
Qed.

(** Registered only changes while it is unknown, and then nothing depends on it yet. *)
Lemma Registered_set_phases now status reason message c : condition_true ConditionTypeRegistered (lc_Conditions c) = false →
  (status = ConditionTrue → lc_ProviderID c ≠ EmptyString) → phases c →
  phases (with_Conditions c (set_condition now ConditionTypeRegistered status reason message (lc_Conditions c))).
Proof.
  intros Hf Hs [H1 H2 H3].
  assert (condition_true ConditionTypeInitialized (lc_Conditions c) = false) as Hi by (destruct (condition_true ConditionTypeInitialized _); naive_solver congruence).
  split; rewrite ?(phases_set now ConditionTypeRegistered) by set_solver; [done| |by rewrite Hi].
  intros ?%bool_decide_eq_true. by apply H1, Hs.
Qed.

Lemma Registration_phases now hooks st c s : Forall hook_keeps_status hooks → phases c →
  Registration_Reconcile api now hooks st c = Some s → phases (sub_claim s).
Proof.
  intros Hs Hp H. unfold Registration_Reconcile in H. destruct (is_unknown _ _) eqn:Eu; cbn [negb] in H; [|by simplify_eq/=].
  apply unknown_not_true in Eu.
  destruct (NodeForNodeClaim api c) as [stored|[]] eqn:En; [|simplify_eq/=; try done; by apply Registered_set_phases..].
  apply NodeForNodeClaim_provider in En.
  pose proof (hooks_phases now hooks c Hs Eu Hp) as Hh. pose proof (hooks_status now hooks c Hs) as Hst.
  destruct (checkRegistrationHooks now hooks c) as [[c' r] failed]. destruct Hh as [Hp' Hid]. destruct Hst as (_ & Hr & _).
  set (ready := IsZero r && negb failed) in H. set (ws := if bool_decide _ then _ else _) in H.
  destruct (ws ≫= _) as [|e es]; [|simplify_eq; by rewrite (proj1 (conflict_claim _ _ _ _))].
  destruct (negb ready); [by simplify_eq/=|]. destruct (record_health _ _ _ _ _) as [[[st' ws'] e]|]; [|done].
  set (c1 := with_NodeName _ _) in H.
  assert (phases c1).
  { apply (phases_same (SetTrue now ConditionTypeRegistered c')); [done..|]. apply Registered_set_phases; [by apply Hr|congruence|done]. }
  simplify_eq. destruct (ignore_not_found e); [by rewrite (proj1 (conflict_claim _ _ _ _))|done].
Qed.

Lemma Initialized_set_phases now status reason message c : condition_true ConditionTypeRegistered (lc_Conditions c) = true → phases c →
  phases (with_Conditions c (set_condition now ConditionTypeInitialized status reason message (lc_Conditions c))).
Proof.
  intros Hr [H1 H2 H3]. split; rewrite ?(phases_set now ConditionTypeInitialized) by set_solver; cbn; done.
Qed.

Lemma Initialization_phases now describe IgnoreDRARequests st c : phases c →
  phases (sub_claim (Initialization_Reconcile api now describe IgnoreDRARequests st c)).
Proof.
  intros Hp. unfold Initialization_Reconcile. repeat case_match; try done;
    (apply Initialized_set_phases; [|done]; by apply negb_false_iff).
Qed.

Lemma time_out_claim now st c st' ws r : time_out api now st c = Some (st', ws, Some r) → sub_claim r = c.
Proof.
  unfold time_out. intros H. repeat (case_match; simplify_eq); try done. apply conflict_claim.
Qed.

Lemma Liveness_claim now st c s : Liveness_Reconcile api now st c = Some s → sub_claim s = c.
Proof.
  unfold Liveness_Reconcile. intros H. repeat (case_match; simplify_eq/=); try done; by eapply time_out_claim.
Qed.

(** C15: in every reconciliation the phases of the claim stay in order, provided the cloud provider
    identifies the instances it launches and hooks leave the status alone. *)
Theorem phases_ordered now supported hooks describe IgnoreDRARequests FormatTime key st c st' c' out :
  Forall hook_keeps_status hooks → cache_identified st → phases c →
  Lifecycle_Reconcile api now supported hooks describe IgnoreDRARequests FormatTime key st c = Some (st', c', out) →
  phases c' ∧ cache_identified st'.
Proof.
  intros Hs Hc Hp. unfold Lifecycle_Reconcile. case_match; [by intros [= <- <- <-]|]. case_match; [by intros [= <- <- _]|].
  destruct (_ ≫= _); [|by intros [= <- <- _]]. fold (finalized_claim c).
  assert (phases (finalized_claim c)) as Hp0 by (by apply (phases_same c)).
  unfold run_subs. destruct (Launch_phases now st (finalized_claim c) Hc Hp0) as [Hp1 Hc1].
  destruct (Registration_Reconcile _ _ _ _ _) as [s2|] eqn:E2; [|done].
  apply Registration_framed in E2 as F2. apply Registration_phases in E2; [|done..].
  pose proof (Initialization_phases now describe IgnoreDRARequests (sub_state s2) _ E2) as E3.
  destruct (Initialization_framed api now describe IgnoreDRARequests (sub_state s2) (sub_claim s2)) as [F3 _].
  destruct (Liveness_Reconcile _ _ _ _) as [s4|] eqn:E4; [|done]. apply Liveness_framed in E4 as F4. apply Liveness_claim in E4.
  destruct (write_back _ _ _). destruct (match _ with Some _ => _ | None => _ end). intros [= <- <- <-]. rewrite E4. split; [done|].
  unfold cache_identified. destruct F2 as [F2 _], F4 as [F4 _]. by rewrite F4, F3, F2.
Qed.
End phases.

(** ** Pools of dynamic resources *)

Section pools.

Definition slice_key (s : ResourceSlice) : string * string := (rs_Driver s, rs_Pool s).

(** The slices of a pool at its newest generation. *)
Definition newest_slices (k : string * string) (slices : list ResourceSlice) : list ResourceSlice :=
  filter (λ s, slice_key s = k ∧ Forall (λ s', slice_key s' = k → rs_Generation s' ≤ rs_Generation s) slices) slices.

Lemma elem_of_newest k slices s : s ∈ newest_slices k slices ↔
  s ∈ slices ∧ slice_key s = k ∧ ∀ s', s' ∈ slices → slice_key s' = k → rs_Generation s' ≤ rs_Generation s.
Proof. unfold newest_slices. rewrite list_elem_of_filter, Forall_forall. naive_solver. Qed.

Lemma filter_same {A} (P Q : A → Prop) `{∀ x, Decision (P x)} `{∀ x, Decision (Q x)} (l : list A) : (∀ x, x ∈ l → P x ↔ Q x) → filter P l = filter Q l.
Proof.
  induction l as [|x l IH]; intros Hpq; [done|]. assert (P x ↔ Q x) by (apply Hpq; by left). rewrite !filter_cons, IH by (intros; apply Hpq; by right).
  destruct (decide (P x)), (decide (Q x)); naive_solver.
Qed.

Lemma newest_snoc k l a : newest_slices k (l ++ [a]) =
  filter (λ s, (slice_key s = k ∧ Forall (λ s', slice_key s' = k → rs_Generation s' ≤ rs_Generation s) l) ∧
               (slice_key a = k → rs_Generation a ≤ rs_Generation s)) l ++
  (if decide (slice_key a = k ∧ Forall (λ s', slice_key s' = k → rs_Generation s' ≤ rs_Generation a) l) then [a] else []).
Proof.
  unfold newest_slices. rewrite filter_app. f_equal.
  - apply filter_same. intros x _. rewrite Forall_app, Forall_singleton. naive_solver.
  - rewrite filter_cons, filter_nil. destruct (decide _) as [Hd|Hd], (decide _) as [He|He]; [done| | |done].
    + destruct He. destruct Hd as [? [? _]%Forall_app]. done.
    + destruct Hd. destruct He as [??]. rewrite Forall_app, Forall_singleton. naive_solver lia.
Qed.

Lemma newest_other k l a : slice_key a ≠ k → newest_slices k (l ++ [a]) = newest_slices k l.
Proof.
  intros Ha. rewrite newest_snoc, decide_False, app_nil_r by naive_solver. apply filter_same. naive_solver.
Qed.

Lemma newest_gen k l first rest s : newest_slices k l = first :: rest → s ∈ l → slice_key s = k → rs_Generation s ≤ rs_Generation first.
Proof. intros E. assert (first ∈ newest_slices k l) as Hf by (rewrite E; by left). apply elem_of_newest in Hf as (_ & _ & H). apply H. Qed.

(** The observations of a pool are the slices of its newest generation: how many there are and
    how many the first of them announces. *)
Lemma observe_reference k slices : foldl observe ∅ slices !! k =
  match newest_slices k slices with
  | [] => None
  | first :: rest => Some (mkPoolObservation (rs_Generation first) (rs_ResourceSliceCount first) (Z.of_nat (length (first :: rest))))
  end ∧ (newest_slices k slices = [] → ∀ s, s ∈ slices → slice_key s ≠ k).
Proof.
  induction slices as [|a l [IH IHn]] using rev_ind; [split; [done|by intros _ s ?%elem_of_nil]|].
  rewrite foldl_app. cbn [foldl]. destruct (decide (slice_key a = k)) as [<-|Ha].
  2: { rewrite newest_other by done. unfold observe at 1. fold (slice_key a).
       split; [rewrite <-IH; repeat case_match; by rewrite ?lookup_insert_ne|].
       intros E s [Hs| ->%list_elem_of_singleton]%elem_of_app; [by apply IHn|done]. }
  unfold observe at 1. fold (slice_key a). rewrite IH, newest_snoc. destruct (newest_slices (slice_key a) l) as [|first rest] eqn:E.
  - specialize (IHn eq_refl). rewrite list_filter_none by (intros x Hx [[? _] _]; by apply (IHn x)).
    rewrite decide_True by (split; [done|]; apply Forall_forall; intros s Hs ?; by destruct (IHn s Hs)). split; [by rewrite lookup_insert_eq|done].
  - pose proof (λ s, newest_gen _ _ _ _ s E) as Hg. cbn [ob_generation ob_count ob_observed].
    assert (first ∈ newest_slices (slice_key a) l) as Hf by (rewrite E; by left). apply elem_of_newest in Hf as (Hf1 & Hf2 & Hf3).
    destruct (Z.ltb_spec (rs_Generation first) (rs_Generation a)) as [Hlt|Hge].
    + rewrite list_filter_none. 2: { intros x Hx [[Hk _] Hle]. specialize (Hg x Hx Hk). specialize (Hle eq_refl). lia. }
      rewrite decide_True by (split; [done|]; apply Forall_forall; intros s Hs Hk; specialize (Hg s Hs Hk); lia). split; [by rewrite lookup_insert_eq|done].
    + assert (filter (λ s, (slice_key s = slice_key a ∧ Forall (λ s', slice_key s' = slice_key a → rs_Generation s' ≤ rs_Generation s) l) ∧
        (slice_key a = slice_key a → rs_Generation a ≤ rs_Generation s)) l = first :: rest) as ->.
      { rewrite <-E. unfold newest_slices. apply filter_same. intros x Hx. rewrite Forall_forall. split; [naive_solver|]. intros [Hk Hm].
        split; [done|]. intros _. specialize (Hm first Hf1 Hf2). lia. }
      destruct (Z.eqb_spec (rs_Generation a) (rs_Generation first)) as [Heq|Hne].
      * rewrite decide_True by (split; [done|]; apply Forall_forall; intros s Hs Hk; specialize (Hg s Hs Hk); lia).
        split; [|done]. rewrite lookup_insert_eq. cbn [app]. do 2 f_equal. cbn. rewrite length_app. cbn. lia.
      * rewrite decide_False, app_nil_r by (intros [_ Hm]; rewrite Forall_forall in Hm; specialize (Hm first Hf1 Hf2); lia). done.
Qed.

(** The drivers with a complete pool are those of which some pool has as many slices at its
    newest generation as the first of those announces, whatever older slices are left. *)
Theorem completePoolDrivers_reference slices d : d ∈ completePoolDrivers slices ↔
  ∃ pool first rest, newest_slices (d, pool) slices = first :: rest ∧ rs_ResourceSliceCount first = Z.of_nat (length (first :: rest)).
Proof.
  unfold completePoolDrivers. rewrite elem_of_list_to_set, list_elem_of_omap. split.
  - intros ([[d' pool] obs] & Hin & H). apply elem_of_map_to_list in Hin. rewrite (proj1 (observe_reference _ _)) in Hin.
    case_match eqn:E; [|done]. simplify_eq/=. apply andb_true_iff in E as [_ E%Z.eqb_eq].
    destruct (newest_slices (d, pool) slices) as [|first rest] eqn:En; [done|]. simplify_eq/=. eauto 10.
  - intros (pool & first & rest & E & Hc). exists ((d, pool), mkPoolObservation (rs_Generation first) (rs_ResourceSliceCount first) (Z.of_nat (length (first :: rest)))).
    split; [apply elem_of_map_to_list; by rewrite (proj1 (observe_reference _ _)), E|]. cbn [ob_count ob_observed]. rewrite Hc, Z.eqb_refl.
    rewrite (proj2 (Z.ltb_lt _ _)); [done|]. cbn. lia.
Qed.
End pools.

(** ** Liveness *)

Section liveness.
  Context `{CS : ConditionSets} (api : LifecycleApi).

(** How long the launch, or after it the registration, of a claim has left. *)
Definition time_left (now : Z) (c : Claim) (launched registered : Condition) : Z :=
  if condition_true ConditionTypeLaunched (lc_Conditions c) then wrap64 (registrationTimeout - time_Sub now (cond_LastTransitionTime registered))
  else wrap64 (LaunchTimeout - time_Sub now (cond_LastTransitionTime launched)).

(** The failure is recorded with the pool, and then the claim deleted; an error of the first ends
    the handler. *)
Lemma time_out_cases now st c st' ws r : time_out api now st c = Some (st', ws, r) →
  ∃ ws1 e, record_health api false (unhealthy_patch now c) st c = Some (st', ws1, e) ∧
    match ignore_not_found e with
    | Some e => r = Some (conflict_result st' c ws1 e)
    | None => DeleteNodeClaim (lc_Name c) ∈ ws ∧ ∀ sub, r = Some sub → sub_actions sub = ws
    end.
Proof.
  unfold time_out. destruct (record_health _ _ _ _ _) as [[[st1 ws1] e]|] eqn:Eh; [|done]. intros H.
  destruct (ignore_not_found e) as [e'|] eqn:Ee; [injection H as <- <- <-; exists ws1, e; by rewrite Ee|].
  injection H as <- <- <-. exists ws1, e. rewrite Ee. split; [done|]. split; [apply elem_of_app; right; by left|].
  intros sub. destruct (la_serve api _); [by intros [= <-]|done].
Qed.

(** What the handler does when the time is up. *)
Definition timed_out (now : Z) (st : LifecycleState) (c : Claim) (s : Sub) : Prop :=
  ∃ st' ws e, record_health api false (unhealthy_patch now c) st c = Some (st', ws, e) ∧
    match ignore_not_found e with
    | Some e => s = conflict_result st' c ws e
    | None => DeleteNodeClaim (lc_Name c) ∈ sub_actions s
    end.

(** C18: a claim that is not registered waits until exactly the moment its launch, or once it is
    launched its registration, times out.  From that moment on a reconciliation first records
    the failure with the claim's pool.  If the pool is there to be read and patched, or is gone,
    the claim is deleted; if reading or patching it fails in another way,
    the reconciliation ends there and is repeated, at once after a conflict
    and with an error otherwise. *)
Theorem liveness_deadline now st c launched registered s :
  condition_true ConditionTypeRegistered (lc_Conditions c) = false →
  get_condition ConditionTypeLaunched (lc_Conditions c) = Some launched →
  get_condition ConditionTypeRegistered (lc_Conditions c) = Some registered →
  Liveness_Reconcile api now st c = Some s →
  (0 < time_left now c launched registered → s = mkSub st c [] (requeue_after (time_left now c launched registered)) None) ∧
  (time_left now c launched registered ≤ 0 → timed_out now st c s).
Proof.
  intros Hr El Er. unfold Liveness_Reconcile, time_left. rewrite Hr, El, Er.
  destruct (condition_true ConditionTypeLaunched (lc_Conditions c)) eqn:Et.
  - case_match eqn:Ex; [intros [= <-]; split; [done|apply Z.ltb_lt in Ex; lia]|]. apply Z.ltb_ge in Ex.
    intros H. split; [lia|]. intros _.
    destruct (time_out api now st c) as [[[st1 ws] r]|] eqn:Eo; [|by destruct (_ : option _)].
    apply time_out_cases in Eo as (ws1 & e & Hh & Hc). exists st1, ws1, e. split; [done|].
    destruct (ignore_not_found e) as [e'|]; [subst r; injection H as <-; by destruct (conflict_result st1 c ws1 e')|].
    destruct Hc as [Hd Hs]. destruct r as [sub|]; injection H as <-; [|done]. cbn. by rewrite (Hs sub).
  - destruct (0 <? wrap64 (LaunchTimeout - _)) eqn:Ex; [intros [= <-]; split; [done|apply Z.ltb_lt in Ex; lia]|]. apply Z.ltb_ge in Ex.
    intros H. split; [lia|]. intros _.
    destruct (time_out api now st c) as [[[st1 ws] r]|] eqn:Eo; [|done].
    apply time_out_cases in Eo as (ws1 & e & Hh & Hc). exists st1, ws1, e. split; [done|].
    destruct (ignore_not_found e) as [e'|]; [subst r; by injection H as <-|].
    destruct Hc as [Hd Hs]. destruct r as [sub|]; [injection H as <-; by rewrite (Hs sub)|].
    revert H. case_match; [by intros [= <-]|].
    destruct (time_out api now st1 c) as [[[st2 ws2] [sub|]]|]; [..|done]; intros [= <-]; cbn; apply elem_of_app; by left.
Qed.

(** When both timeouts have passed, a claim that was never launched is counted as two failures of
    its pool and deleted twice: the handler goes on after the first deletion. *)
Theorem launch_timeout_handled_twice now st c launched registered s st1 ws1 :
  condition_true ConditionTypeRegistered (lc_Conditions c) = false → condition_true ConditionTypeLaunched (lc_Conditions c) = false →
  get_condition ConditionTypeLaunched (lc_Conditions c) = Some launched →
  get_condition ConditionTypeRegistered (lc_Conditions c) = Some registered →
  wrap64 (LaunchTimeout - time_Sub now (cond_LastTransitionTime launched)) ≤ 0 →
  wrap64 (registrationTimeout - time_Sub now (cond_LastTransitionTime registered)) ≤ 0 →
  time_out api now st c = Some (st1, ws1, None) → Liveness_Reconcile api now st c = Some s →
  ∃ st2 ws2 r, time_out api now st1 c = Some (st2, ws2, r) ∧ sub_actions s = ws1 ++ match r with Some sub => sub_actions sub | None => ws2 end.
Proof.
  intros Hr Hl El Er H1 H2 Eo. unfold Liveness_Reconcile. rewrite Hr, Hl, El, Er, Eo.
  rewrite !(proj2 (Z.ltb_ge _ _)) by lia. destruct (time_out api now st1 c) as [[[st2 ws2] [sub|]]|]; [..|done]; intros [= <-];
    exists st2, ws2; [exists (Some sub)|exists None]; done.
Qed.
End liveness.
