(* ===== verification/Terminator.v ===== *)
(** * Terminator: draining a node
    (pkg/controllers/node/termination/terminator: eviction.go, terminator.go)

    The eviction queue maps each pod that has to leave its node to a deadline; [Drain] fills
    it tier by tier and the queue evicts pods, or deletes those that would not be gone by the
    deadline.  The channel that wakes the queue is the list of pods that were sent, in order;
    the goroutine blocks on a full channel, which is not modelled.  Events, logs and metrics
    are left out. *)

From S2P Require Import Prelude Labels Requirement Objects Resources Taints Volumes PodState Templates NodePoolHealth Lifecycle.

#[local] Open Scope Z_scope.

(** ** The queue *)

(** A pod with the fields of its spec that only termination reads. *)
Record DrainPod := mkDrainPod {
  dp_Pod : Pod;
  dp_PriorityClassName : string;
  dp_TerminationGracePeriodSeconds : option Z;
  dp_Volumes : list Volume;
}.

Definition QueueKey : Type := (string * string) * string.

Definition NewQueueKey (pod : DrainPod) : QueueKey := ((pod_Namespace (dp_Pod pod), pod_Name (dp_Pod pod)), pod_UID (dp_Pod pod)).

Record queueItem := mkQueueItem { deadline : option Z; timeout : bool }.

#[export] Instance queueItem_eq_dec : EqDecision queueItem.
Proof. solve_decision. Defined.

(** The items, and the pods sent to the channel. *)
Record EvictionQueue := mkEvictionQueue {
  eq_items : gmap QueueKey queueItem;
  eq_source : list DrainPod;
}.

Definition NewEvictionQueue : EvictionQueue := mkEvictionQueue ∅ [].

(** [nil] is no deadline. *)
Definition earlier (a b : option Z) : option Z :=
  match a, b with
  | None, b => b
  | a, None => a
  | Some a, Some b => if a <? b then Some a else Some b
  end.

Definition merge (existing : option queueItem) (item : queueItem) : queueItem :=
  match existing with
  | None => item
  | Some existing =>
      if negb (eqb (timeout existing) (timeout item)) then (if timeout item then existing else item)
      else mkQueueItem (earlier (deadline existing) (deadline item)) (timeout item)
  end.

Definition add_one (item : queueItem) (q : EvictionQueue) (pod : DrainPod) : EvictionQueue :=
  let existing := eq_items q !! NewQueueKey pod in
  mkEvictionQueue (<[NewQueueKey pod := merge existing item]> (eq_items q))
    (match existing with None => eq_source q ++ [pod] | Some _ => eq_source q end).

Definition queue_add (item : queueItem) (q : EvictionQueue) (pods : list DrainPod) : EvictionQueue := foldl (add_one item) q pods.

Definition queue_Add (nodeTerminationTime : option Z) : EvictionQueue → list DrainPod → EvictionQueue :=
  queue_add (mkQueueItem nodeTerminationTime false).
Definition queue_AddWithTimeout (t : Z) : EvictionQueue → list DrainPod → EvictionQueue := queue_add (mkQueueItem (Some t) true).

Definition queue_Has (q : EvictionQueue) (pod : DrainPod) : bool := bool_decide (is_Some (eq_items q !! NewQueueKey pod)).

Definition complete (q : EvictionQueue) (pod : DrainPod) : EvictionQueue :=
  mkEvictionQueue (delete (NewQueueKey pod) (eq_items q)) (eq_source q).

Definition Second : Z := 1000000000.

(** The grace period in nanoseconds is computed in 64 bits. *)
Definition needsDeleteByDeadline (pod : DrainPod) (nodeTerminationTime : option Z) (now : Z) : bool :=
  match nodeTerminationTime with
  | None => false
  | Some t =>
      if IsTerminating (dp_Pod pod) then IsPodEligibleForForcedEviction (dp_Pod pod) nodeTerminationTime
      else match dp_TerminationGracePeriodSeconds pod with
           | None => false
           | Some seconds => t + wrap64 (wrap64 (seconds * Second) * -1) <? now
           end
  end.

(** ** Requests *)

Inductive pod_request :=
| EvictPod (key : QueueKey)
| DeletePod (key : QueueKey) (gracePeriodSeconds : Z).

(** An error of the eviction request: its reason and its message. *)
Inductive evict_reason := EvictNotFound | EvictConflict | TooManyRequests | EvictOther.

#[export] Instance evict_reason_eq_dec : EqDecision evict_reason.
Proof. solve_decision. Defined.

Definition multiplePodDisruptionBudgetsError : string :=
  "This pod has more than one PodDisruptionBudget, which the eviction subresource does not support.".

Record EvictionApi := mkEvictionApi {
  (** [None] is success *)
  ea_evict : DrainPod → option (evict_reason * string);
  ea_delete : DrainPod → Z → option api_error;
  ea_node : string → option api_error;
}.

Section queue.
  Context `{TA : TaintApi} (ParseDuration : string → option Z) (api : EvictionApi).

(** The queue, the requests, the result and whether it failed. *)
Definition queue_result : Type := EvictionQueue * list pod_request * Result * bool.

Definition evict (q : EvictionQueue) (pod : DrainPod) : queue_result :=
  let ws := [EvictPod (NewQueueKey pod)] in
  match ea_evict api pod with
  | None => (complete q pod, ws, no_requeue, false)
  | Some (reason, message) =>
      if bool_decide (reason = EvictNotFound) || bool_decide (reason = EvictConflict) then (complete q pod, ws, no_requeue, false)
      else if bool_decide (reason = TooManyRequests) || bool_decide (message = multiplePodDisruptionBudgetsError) then
        match ea_node api (pod_NodeName (dp_Pod pod)) with
        | Some NotFound => (q, ws, no_requeue, false)
        | Some _ => (q, ws, no_requeue, true)
        | None => (q, ws, requeue, false)
        end
      else (q, ws, no_requeue, true)
  end.

(** The whole seconds left until the deadline, at least one. *)
Definition clamped_grace (nodeTerminationTime : option Z) (now : Z) : Z :=
  Z.max (Z.quot (time_Sub (default zero_time nodeTerminationTime) now) Second) 1.

Definition deleteByDeadline (q : EvictionQueue) (pod : DrainPod) (nodeTerminationTime : option Z) (now : Z) : queue_result :=
  let gracePeriodSeconds := clamped_grace nodeTerminationTime now in
  let ws := [DeletePod (NewQueueKey pod) gracePeriodSeconds] in
  match ea_delete api pod gracePeriodSeconds with
  | Some NotFound => (complete q pod, ws, no_requeue, false)
  | Some _ => (q, ws, no_requeue, true)
  | None => (complete q pod, ws, no_requeue, false)
  end.

(** [None] is a run-time panic: a timeout without a deadline. *)
Definition EvictionQueue_Reconcile (q : EvictionQueue) (pod : DrainPod) (now : Z) : option queue_result :=
  match eq_items q !! NewQueueKey pod with
  | None => Some (q, [], no_requeue, false)
  | Some item =>
      match (if timeout item then match deadline item with Some t => Some (t <? now) | None => None end else Some false) with
      | None => None
      | Some true => Some (complete q pod, [], no_requeue, false)
      | Some false =>
          Some (if negb (timeout item) && needsDeleteByDeadline pod (deadline item) now then deleteByDeadline q pod (deadline item) now
                else if negb (IsActive (dp_Pod pod)) then (complete q pod, [], no_requeue, false)
                else if negb (IsEvictable ParseDuration (dp_Pod pod) now) then (q, [], requeue, false)
                else evict q pod)
      end
  end.

(** ** Draining *)

Definition is_critical (pod : DrainPod) : bool :=
  bool_decide (dp_PriorityClassName pod = "system-cluster-critical") || bool_decide (dp_PriorityClassName pod = "system-node-critical").

Definition tier (critical daemon : bool) (pods : list DrainPod) : list DrainPod :=
  filter (λ p, is_critical p = critical ∧ IsOwnedByDaemonSet (dp_Pod p) = daemon) pods.

Definition groupPodsByPriority (pods : list DrainPod) : list (list DrainPod) :=
  [tier false false pods; tier false true pods; tier true false pods; tier true true pods].

Record drainOptions := mkDrainOptions { leaveResidualPods : bool; skipDaemonSets : bool }.

Inductive drain_result := Drained | DrainWaiting (pods : nat) | DrainFailed.

Definition waiting_pods (o : drainOptions) (now : Z) (pods : list DrainPod) : list DrainPod :=
  filter (λ p, IsWaitingEviction (dp_Pod p) now && (negb (skipDaemonSets o) || negb (IsOwnedByDaemonSet (dp_Pod p))) = true) pods.

Definition delete_eligible (o : drainOptions) (t : option Z) (now : Z) (p : DrainPod) : bool :=
  negb (leaveResidualPods o) && needsDeleteByDeadline p t now.

(** [pods] are the pods of the node; [None] when they could not be listed. *)
Definition Drain (o : drainOptions) (nodeGracePeriodExpirationTime : option Z) (now : Z) (q : EvictionQueue) (pods : option (list DrainPod))
    : EvictionQueue * drain_result :=
  match pods with
  | None => (q, DrainFailed)
  | Some pods =>
      let waiting := waiting_pods o now pods in
      let deleteEligible := filter (λ p, delete_eligible o nodeGracePeriodExpirationTime now p = true) waiting in
      let gracefulCandidates := filter (λ p, delete_eligible o nodeGracePeriodExpirationTime now p = false) waiting in
      let q := match deleteEligible with [] => q | _ => queue_Add nodeGracePeriodExpirationTime q deleteEligible end in
      match List.find (λ group, match group with [] => false | _ => true end) (groupPodsByPriority gracefulCandidates) with
      | Some group =>
          (match leaveResidualPods o, nodeGracePeriodExpirationTime with
           | true, Some t => queue_AddWithTimeout t q group
           | _, _ => queue_Add nodeGracePeriodExpirationTime q group
           end, DrainWaiting (length waiting))
      | None => (q, match deleteEligible with [] => Drained | _ => DrainWaiting (length waiting) end)
      end
  end.
End queue.

(** ** Tainting *)

Definition LabelNodeExcludeBalancers : string := "node.kubernetes.io/exclude-from-external-load-balancers".

Definition tainted `{TaintApi} (taint : Taint) (n : NodeObject) : NodeObject :=
  let node := no_Node n in
  node_with n (assign (node_Labels node) {[LabelNodeExcludeBalancers := "karpenter"]}) (node_Annotations node)
    (if existsb (λ t, MatchTaint t taint) (node_Taints node) then node_Taints node
     else filter (λ t, taint_Key t ≠ taint_Key taint) (node_Taints node) ++ [taint]).

(** The node, the requests and the error; [serve] is the answer of the API server. *)
Definition Terminator_Taint `{TaintApi} (serve : NodeObject → option api_error) (taint : Taint) (n : NodeObject)
    : NodeObject * list NodeObject * option api_error :=
  let n' := tainted taint n in
  if bool_decide (n' = n) then (n', [], None) else (n', [n'], serve n').

(** ** Properties of the queue *)

(** What two requests for the same pod come to does not depend on their order. *)
Lemma earlier_min a b : earlier (Some a) (Some b) = Some (Z.min a b).
Proof. cbn. destruct (Z.ltb_spec a b); f_equal; lia. Qed.

Lemma earlier_assoc a b c : earlier a (earlier b c) = earlier (earlier a b) c.
Proof.
  destruct a as [a|], b as [b|], c as [c|]; cbn [earlier]; try done; try (by case_match).
  change (earlier (Some a) (earlier (Some b) (Some c)) = earlier (earlier (Some a) (Some b)) (Some c)). by rewrite !earlier_min, Z.min_assoc.
Qed.

Lemma earlier_idem a : earlier a a = a.
Proof. destruct a; cbn; [by rewrite Z.ltb_irrefl|done]. Qed.

Definition combine (a b : queueItem) : queueItem := merge (Some a) b.

Lemma combine_assoc a b c : combine a (combine b c) = combine (combine a b) c.
Proof. destruct a as [d []], b as [e []], c as [f []]; cbn; try done; by rewrite earlier_assoc. Qed.

Lemma combine_idem a : combine a a = a.
Proof. destruct a as [d []]; cbn; by rewrite earlier_idem. Qed.

(** Deadlines as points in time, where no deadline is never. *)
Definition no_later (b a : option Z) : Prop :=
  match a, b with
  | None, _ => True
  | Some _, None => False
  | Some a, Some b => b ≤ a
  end.

#[export] Instance no_later_preorder : PreOrder no_later.
Proof. split; [intros [t|]; cbn; lia|]. intros [c|] [b|] [a|]; cbn; try done. lia. Qed.

(** [b] is at least as strict as [a]: a pod to be deleted stays one, with a deadline that is not
    later, and among the pods that are only evicted the deadline is not later either. *)
Definition tighter (b a : queueItem) : Prop :=
  (timeout a = false → timeout b = false) ∧ (timeout a = timeout b → no_later (deadline b) (deadline a)).

#[export] Instance tighter_preorder : PreOrder tighter.
Proof.
  split; [by intros a|]. intros c b a [H1 H2] [H3 H4]. split; [auto|]. intros E.
  assert (timeout a = timeout b) as Eab by (destruct (timeout a), (timeout b), (timeout c); naive_solver).
  etrans; [apply H2; congruence|by apply H4].
Qed.

Lemma earlier_no_later a b : no_later (earlier a b) a.
Proof. destruct a as [a|], b as [b|]; cbn; [|done..]. destruct (Z.ltb_spec a b); cbn; lia. Qed.

Lemma merge_tighter a item : tighter (merge (Some a) item) a.
Proof.
  destruct a as [d []], item as [e []]; cbn; (split; [done|]); cbn; try done; intros _; apply earlier_no_later.
Qed.

(** Adding a pod twice is adding it once. *)
Lemma queue_add_lookup item q pods k : eq_items (queue_add item q pods) !! k =
  if bool_decide (k ∈ NewQueueKey <$> pods) then Some (merge (eq_items q !! k) item) else eq_items q !! k.
Proof.
  unfold queue_add. revert q. induction pods as [|p pods IH]; intros q; [done|]. cbn [foldl fmap list_fmap]. rewrite IH.
  cbn [add_one eq_items]. destruct (decide (k = NewQueueKey p)) as [->|Hne].
  - rewrite lookup_insert_eq, (bool_decide_eq_true_2 (_ ∈ _ :: _)) by (by left). case_match; [|done]. f_equal.
    destruct (eq_items q !! NewQueueKey p) as [a|]; [|apply (combine_idem item)].
    fold (merge (Some a) item). fold (combine a item). fold (combine (combine a item) item). by rewrite <-combine_assoc, combine_idem.
  - rewrite lookup_insert_ne by done.
    assert (bool_decide (k ∈ NewQueueKey p :: (NewQueueKey <$> pods)) = bool_decide (k ∈ NewQueueKey <$> pods)) as ->; [|done].
    apply bool_decide_ext. rewrite elem_of_cons. naive_solver.
Qed.

Lemma queue_Has_add item q pods p : queue_Has (queue_add item q pods) p = queue_Has q p || bool_decide (NewQueueKey p ∈ NewQueueKey <$> pods).
Proof.
  unfold queue_Has. rewrite queue_add_lookup. destruct (bool_decide_reflect (NewQueueKey p ∈ NewQueueKey <$> pods)).
  - by rewrite orb_true_r, bool_decide_eq_true_2.
  - by rewrite orb_false_r.
Qed.

(** ** Runs of the queue *)

Section runs.
  Context `{TA : TaintApi} (ParseDuration : string → option Z).

(** Pods are added by drains and reconciled when they are woken, in any order and with any
    answers of the API server. *)
Inductive queue_step : EvictionQueue → list pod_request → EvictionQueue → Prop :=
| step_Add q t pods : queue_step q [] (queue_Add t q pods)
| step_AddWithTimeout q t pods : queue_step q [] (queue_AddWithTimeout t q pods)
| step_Reconcile api q pod now q' ws r failed :
    EvictionQueue_Reconcile ParseDuration api q pod now = Some (q', ws, r, failed) → queue_step q ws q'.

Inductive queue_reachable : EvictionQueue → Prop :=
| reachable_new : queue_reachable NewEvictionQueue
| reachable_step q ws q' : queue_reachable q → queue_step q ws q' → queue_reachable q'.

(** Only reconciling takes a pod out, and it leaves the others alone. *)
Lemma evict_items api q pod : let q' := (evict api q pod).1.1.1 in q' = q ∨ q' = complete q pod.
Proof. unfold evict. repeat case_match; eauto. Qed.

Lemma deleteByDeadline_items api q pod t now : let q' := (deleteByDeadline api q pod t now).1.1.1 in q' = q ∨ q' = complete q pod.
Proof. unfold deleteByDeadline. repeat case_match; eauto. Qed.

Lemma Reconcile_items api q pod now q' ws r failed : EvictionQueue_Reconcile ParseDuration api q pod now = Some (q', ws, r, failed) →
  q' = q ∨ q' = complete q pod.
Proof.
  unfold EvictionQueue_Reconcile. intros H. destruct (eq_items q !! NewQueueKey pod) as [item|]; [|simplify_eq; by left].
  destruct (if timeout item then _ else _) as [[]|]; [simplify_eq; by right| |done]. injection H as H.
  destruct (negb (timeout item) && _). { destruct (deleteByDeadline_items api q pod (deadline item) now) as [E|E]; rewrite H in E; auto. }
  destruct (negb (IsActive _)); [simplify_eq; by right|]. destruct (negb (IsEvictable _ _ _)); [simplify_eq; by left|].
  destruct (evict_items api q pod) as [E|E]; rewrite H in E; auto.
Qed.

Lemma complete_lookup q pod k item : eq_items (complete q pod) !! k = Some item → eq_items q !! k = Some item.
Proof. cbn. by intros [_ ?]%lookup_delete_Some. Qed.

Lemma queue_step_tighter q ws q' k a b : queue_step q ws q' → eq_items q !! k = Some a → eq_items q' !! k = Some b → tighter b a.
Proof.
  intros Hs Ha Hb. destruct Hs as [q t pods|q t pods|api q pod now q' ws r failed Hr].
  1, 2: unfold queue_Add, queue_AddWithTimeout in Hb; rewrite queue_add_lookup, Ha in Hb; case_match; simplify_eq; [by apply merge_tighter|reflexivity].
  apply Reconcile_items in Hr as [->| ->]; [|apply complete_lookup in Hb]; simplify_eq; reflexivity.
Qed.

(** Steps that leave a pod in the queue. *)
Definition stays_queued (k : QueueKey) (q q' : EvictionQueue) : Prop := (∃ ws, queue_step q ws q') ∧ is_Some (eq_items q' !! k).

(** C19: as long as a pod stays in the queue, however drains and reconciliations interleave, a
    deadline by which it is deleted is neither moved out nor dropped, nor does the pod become one that is
    only evicted; and as long as it is only evicted, until a time limit, that limit is not moved out
    or dropped either.  When a drain takes over a pod that was only to be
    evicted, the drain's own deadline replaces the limit, even by none
    ([Add_clears_timeout]). *)
Theorem deadlines_only_tighten q q' k a b :
  rtc (stays_queued k) q q' → eq_items q !! k = Some a → eq_items q' !! k = Some b → tighter b a.
Proof.
  intros Hs. revert a. induction Hs as [q|q q1 q2 [[ws Hstep] [c Hc]] _ IH]; intros a Ha Hb; [simplify_eq; reflexivity|].
  etrans; [by apply IH|]. by eapply queue_step_tighter.
Qed.

(** Adding a pod without a deadline clears the time limit of a pod that was only to be evicted,
    although the comment of [Add] says that a later [Add] never clears a deadline. *)
Theorem Add_clears_timeout q pod t : eq_items q !! NewQueueKey pod = Some (mkQueueItem (Some t) true) →
  eq_items (queue_Add None q [pod]) !! NewQueueKey pod = Some (mkQueueItem None false).
Proof. intros H. cbn. by rewrite lookup_insert_eq, H. Qed.

(** A pod that is only to be evicted has a time limit. *)
Definition timeouts_limited (q : EvictionQueue) : Prop := ∀ k item, eq_items q !! k = Some item → timeout item = true → is_Some (deadline item).

Lemma merge_limited existing item : (∀ a, existing = Some a → timeout a = true → is_Some (deadline a)) →
  (timeout item = true → is_Some (deadline item)) → timeout (merge existing item) = true → is_Some (deadline (merge existing item)).
Proof.
  intros He Hi. destruct existing as [[d []]|], item as [e []]; cbn in *; try done; auto.
  specialize (He _ eq_refl eq_refl) as [d' He]. destruct (Hi eq_refl) as [e' Hi']. cbn in He. subst. cbn. case_match; eauto.
Qed.

Lemma queue_reachable_limited q : queue_reachable q → timeouts_limited q.
Proof.
  induction 1 as [|q ws q' _ IH Hs]; [intros k item Hk; cbn in Hk; by rewrite lookup_empty in Hk|].
  destruct Hs as [q t pods|q t pods|api q pod now q' ws r failed Hr]; intros k item Hk.
  1, 2: unfold queue_Add, queue_AddWithTimeout in Hk; rewrite queue_add_lookup in Hk; case_match; [|by apply (IH k)]; injection Hk as <-;
    apply merge_limited; [by intros a ?; apply (IH k)|done || eauto].
  apply Reconcile_items in Hr as [->| ->]; [|apply complete_lookup in Hk]; by apply (IH k).
Qed.

(** However drains and reconciliations interleave, a reconciliation does not panic. *)
Theorem eviction_never_panics api q pod now : queue_reachable q → is_Some (EvictionQueue_Reconcile ParseDuration api q pod now).
Proof.
  intros Hr%queue_reachable_limited. unfold EvictionQueue_Reconcile. destruct (eq_items q !! NewQueueKey pod) as [item|] eqn:E; [|done].
  destruct (timeout item) eqn:Et; [|done]. destruct (Hr _ _ E Et) as [t ->]. by case_match.
Qed.

(** Every request is justified.  A pod is evicted only when it is active, may be evicted and
    is still the one that was queued; it is deleted only when it was queued to be gone by a
    deadline that its grace period would miss, and what it gets instead is at least a second
    and ends by the deadline when that is a second away. *)
Theorem eviction_requests_justified api q pod now q' ws r failed w :
  EvictionQueue_Reconcile ParseDuration api q pod now = Some (q', ws, r, failed) → w ∈ ws →
  (∃ item, eq_items q !! NewQueueKey pod = Some item ∧
     (w = EvictPod (NewQueueKey pod) ∧ IsActive (dp_Pod pod) = true ∧ IsEvictable ParseDuration (dp_Pod pod) now = true ∧
        (timeout item = true → ∃ t, deadline item = Some t ∧ now ≤ t) ∧ (timeout item = false → needsDeleteByDeadline pod (deadline item) now = false) ∨
      ∃ t g, w = DeletePod (NewQueueKey pod) g ∧ timeout item = false ∧ deadline item = Some t ∧ needsDeleteByDeadline pod (Some t) now = true ∧
        1 ≤ g ∧ (now + Second ≤ t → now + g * Second ≤ t))).
Proof.
  unfold EvictionQueue_Reconcile. intros H Hw. destruct (eq_items q !! NewQueueKey pod) as [item|] eqn:Ei; [|simplify_eq; by apply elem_of_nil in Hw].
  exists item. split; [done|]. destruct (if timeout item then _ else _) as [[]|] eqn:Ex; [simplify_eq; by apply elem_of_nil in Hw| |done]. injection H as H.
  destruct (negb (timeout item) && needsDeleteByDeadline pod (deadline item) now) eqn:Ed.
  { apply andb_true_iff in Ed as [Et%negb_true_iff Ed]. right. unfold deleteByDeadline in H.
    assert (w = DeletePod (NewQueueKey pod) (clamped_grace (deadline item) now)) as ->
      by (repeat case_match; simplify_eq; by apply list_elem_of_singleton in Hw).
    destruct (deadline item) as [t|]; [|done]. exists t, (clamped_grace (Some t) now). split_and!; try done; unfold clamped_grace; [lia|].
    cbn. intros Hs. unfold time_Sub, Second in *. assert (int64_min ≤ 0 ∧ 0 ≤ int64_max) by done. assert (1000000000 ≤ int64_max) by done.
    pose proof (Z.mul_quot_le ((int64_min `max` (t - now)) `min` int64_max) 1000000000). lia. }
  destruct (IsActive (dp_Pod pod)) eqn:Ea; cbn [negb] in H; [|simplify_eq; by apply elem_of_nil in Hw].
  destruct (IsEvictable ParseDuration (dp_Pod pod) now) eqn:Ee; cbn [negb] in H; [|simplify_eq; by apply elem_of_nil in Hw].
  left. unfold evict in H. assert (w = EvictPod (NewQueueKey pod)) as -> by (repeat case_match; simplify_eq; by apply list_elem_of_singleton in Hw).
  split_and!; try done.
  - intros Et. rewrite Et in Ex. destruct (deadline item) as [t|]; [|done]. injection Ex as Ex%Z.ltb_ge. eauto.
  - intros Et. by rewrite Et in Ed.
Qed.
End runs.

(** ** Draining in order *)

Section draining.
  Context `{TA : TaintApi} (ParseDuration : string → option Z).

(** Ordinary pods go first, then those of daemons, then critical ones. *)
Definition tier_rank (p : DrainPod) : Z := (if is_critical p then 2 else 0) + (if IsOwnedByDaemonSet (dp_Pod p) then 1 else 0).

Lemma elem_of_tier critical daemon pods p : p ∈ tier critical daemon pods ↔
  p ∈ pods ∧ tier_rank p = (if critical then 2 else 0) + (if daemon : bool then 1 else 0).
Proof.
  unfold tier, tier_rank. rewrite list_elem_of_filter. destruct (is_critical p), (IsOwnedByDaemonSet (dp_Pod p)), critical, daemon; naive_solver lia.
Qed.

(** The group that is queued is the lowest tier that has pods. *)
Lemma first_group pods : match List.find (λ group : list DrainPod, match group with [] => false | _ => true end) (groupPodsByPriority pods) with
  | Some group => group ≠ [] ∧ ∀ p, p ∈ group ↔ p ∈ pods ∧ ∀ p', p' ∈ pods → tier_rank p ≤ tier_rank p'
  | None => pods = []
  end.
Proof.
  assert (∀ c d p, tier c d pods = [] → p ∈ pods → tier_rank p ≠ (if c : bool then 2 else 0) + (if d : bool then 1 else 0)) as Hnone.
  { intros c d p E Hp Hr. assert (p ∈ tier c d pods) as Hin by (by apply elem_of_tier). rewrite E in Hin. by apply elem_of_nil in Hin. }
  assert (∀ p, 0 ≤ tier_rank p ≤ 3) as Hrange by (intros p; unfold tier_rank; repeat case_match; lia).
  assert (∀ c d, tier c d pods ≠ [] → (∀ p', p' ∈ pods → (if c : bool then 2 else 0) + (if d : bool then 1 else 0) ≤ tier_rank p') →
    tier c d pods ≠ [] ∧ ∀ p, p ∈ tier c d pods ↔ p ∈ pods ∧ ∀ p', p' ∈ pods → tier_rank p ≤ tier_rank p') as Hfirst.
  { intros c d Hne Hmin. split; [done|]. intros p. rewrite elem_of_tier. split; [intros [? ->]; eauto|]. intros [Hp Hle]. split; [done|].
    destruct (tier c d pods) as [|x l] eqn:E; [done|]. assert (x ∈ tier c d pods) as Hx by (rewrite E; by left).
    apply elem_of_tier in Hx as [Hx Hxr]. specialize (Hle x Hx). specialize (Hmin p Hp). lia. }
  pose proof (Hnone false false) as N0. pose proof (Hnone false true) as N1. pose proof (Hnone true false) as N2. pose proof (Hnone true true) as N3.
  cbn [Z.add] in N0, N1, N2, N3. unfold groupPodsByPriority. cbn [List.find].
  destruct (tier false false pods) eqn:E0; [|rewrite <-E0; apply Hfirst; [by rewrite E0|]; intros p' _; apply Hrange].
  destruct (tier false true pods) eqn:E1; [|rewrite <-E1; apply Hfirst; [by rewrite E1|]; intros p' Hp'; specialize (N0 p' eq_refl Hp'); specialize (Hrange p'); lia].
  destruct (tier true false pods) eqn:E2.
  2: { rewrite <-E2. apply Hfirst; [by rewrite E2|]. intros p' Hp'. specialize (N0 p' eq_refl Hp'). specialize (N1 p' eq_refl Hp'). specialize (Hrange p'). lia. }
  destruct (tier true true pods) eqn:E3.
  2: { rewrite <-E3. apply Hfirst; [by rewrite E3|]. intros p' Hp'. specialize (N0 p' eq_refl Hp'). specialize (N1 p' eq_refl Hp').
       specialize (N2 p' eq_refl Hp'). specialize (Hrange p'). lia. }
  destruct pods as [|p pods]; [done|]. assert (p ∈ p :: pods) as Hp by (by left). specialize (N0 p eq_refl Hp). specialize (N1 p eq_refl Hp).
  specialize (N2 p eq_refl Hp). specialize (N3 p eq_refl Hp). specialize (Hrange p). lia.
Qed.

(** A waiting pod that a drain queues now: one past its deadline, or one of the lowest tier of
    the others. *)
Definition drained_now (o : drainOptions) (t : option Z) (now : Z) (pods : list DrainPod) (p : DrainPod) : Prop :=
  p ∈ waiting_pods o now pods ∧
  (delete_eligible o t now p = true ∨
   delete_eligible o t now p = false ∧
     ∀ p', p' ∈ waiting_pods o now pods → delete_eligible o t now p' = false → tier_rank p ≤ tier_rank p').

Lemma queue_Has_keys q item (P : DrainPod → Prop) l p : (∀ x, x ∈ l ↔ P x) →
  queue_Has (queue_add item q l) p = true ↔ queue_Has q p = true ∨ ∃ x, P x ∧ NewQueueKey x = NewQueueKey p.
Proof.
  intros Hl. rewrite queue_Has_add, orb_true_iff, bool_decide_eq_true, list_elem_of_fmap. setoid_rewrite Hl.
  split; (intros [?|(x & ? & ?)]; [by left|right; by exists x]).
Qed.

Lemma Drain_outcome o t now q pods q' r : Drain o t now q (Some pods) = (q', r) →
  (r = Drained ↔ waiting_pods o now pods = []) ∧
  ∀ p, queue_Has q' p = true ↔ queue_Has q p = true ∨ ∃ x, drained_now o t now pods x ∧ NewQueueKey x = NewQueueKey p.
Proof.
  unfold Drain. set (waiting := waiting_pods o now pods).
  set (eligible := filter (λ p, delete_eligible o t now p = true) waiting). set (graceful := filter (λ p, delete_eligible o t now p = false) waiting).
  set (q1 := match eligible with [] => q | _ => queue_Add t q eligible end).
  assert (∀ p, queue_Has q1 p = true ↔ queue_Has q p = true ∨ ∃ x, (x ∈ waiting ∧ delete_eligible o t now x = true) ∧ NewQueueKey x = NewQueueKey p) as H1.
  { intros p. subst q1. destruct eligible as [|e l] eqn:E.
    - split; [by left|]. intros [?|(x & Hx & _)]; [done|]. assert (x ∈ eligible) as Hin by (apply list_elem_of_filter; naive_solver). rewrite E in Hin. by apply elem_of_nil in Hin.
    - unfold queue_Add. rewrite <-E. apply queue_Has_keys. intros x. subst eligible. rewrite list_elem_of_filter. naive_solver. }
  assert (graceful = [] → eligible = [] → waiting = []) as Hempty.
  { intros E1 E2. destruct waiting as [|x l]; [done|]. subst graceful eligible. rewrite filter_cons in E1. rewrite filter_cons in E2.
    destruct (delete_eligible o t now x); repeat case_match; done. }
  pose proof (first_group graceful) as Hg. unfold drained_now. fold waiting.
  destruct (List.find _ _) as [group|]; intros [= <- <-].
  - destruct Hg as [Hne Hg]. split.
    { split; [done|]. intros E. subst graceful. rewrite E in Hg. destruct group as [|x l]; [done|]. assert (x ∈ x :: l) as Hx by (by left).
      apply Hg in Hx as [Hx _]. by apply elem_of_nil in Hx. }
    intros p. assert (∃ item, (match leaveResidualPods o, t with true, Some t => queue_AddWithTimeout t q1 group | _, _ => queue_Add t q1 group end) = queue_add item q1 group) as [item ->].
    { unfold queue_AddWithTimeout, queue_Add. repeat case_match; eauto. }
    rewrite (queue_Has_keys _ _ _ _ _ Hg), H1. subst graceful. setoid_rewrite list_elem_of_filter. split.
    + intros [[?|(x & [??] & ?)]|(x & [[??] Hm] & ?)]; [by left|right; exists x; auto|right; exists x; split; [|done]].
      split; [done|]. right. split; [done|]. intros p' ??. by apply Hm.
    + intros [?|(x & [? [?|[? Hm]]] & ?)]; [by left; left|left; right; exists x; auto|right; exists x; split; [|done]].
      split; [done|]. intros p' [??]. by apply Hm.
  - split.
    + subst graceful. destruct eligible as [|e l] eqn:E; [by rewrite (Hempty Hg eq_refl)|]. split; [done|]. intros Ew.
      assert (e ∈ eligible) as He by (rewrite E; by left). subst eligible. rewrite Ew in He. by apply elem_of_nil in He.
    + intros p. rewrite H1. assert (∀ x, x ∈ waiting → delete_eligible o t now x = false → False) as Hno.
      { intros x Hx Hd. assert (x ∈ graceful) as Hin by (by apply list_elem_of_filter). rewrite Hg in Hin. by apply elem_of_nil in Hin. }
      split; (intros [?|(x & [? Hd] & ?)]; [by left|]); [right; exists x; auto|]. destruct Hd as [Hd|[Hd _]]; [right; exists x; auto|by destruct (Hno x)].
Qed.
(** C16: a drain is finished exactly when no pod of the node waits.  Otherwise it queues the pods
    past their deadline, whatever their tier, and of the others exactly those of the lowest
    tier, so that ordinary pods leave before daemons and critical pods. *)
Theorem Drain_in_order o t now q pods q' r : Drain o t now q (Some pods) = (q', r) →
  (r = Drained ↔ waiting_pods o now pods = []) ∧
  ∀ p, queue_Has q' p = true ↔ queue_Has q p = true ∨ ∃ x, drained_now o t now pods x ∧ NewQueueKey x = NewQueueKey p.
Proof. apply Drain_outcome. Qed.
End draining.

(** ** Where the queue falls short *)

Section shortcomings.
  Context `{TA : TaintApi} (ParseDuration : string → option Z) (api : EvictionApi).

(** A pod whose eviction a budget forbids while its node cannot be found stays in the queue
    but is neither retried nor woken again: adding it anew sends nothing. *)
Theorem blocked_pod_never_woken q pod now message :
  eq_items q !! NewQueueKey pod = Some (mkQueueItem None false) → IsActive (dp_Pod pod) = true → IsEvictable ParseDuration (dp_Pod pod) now = true →
  ea_evict api pod = Some (TooManyRequests, message) → ea_node api (pod_NodeName (dp_Pod pod)) = Some NotFound →
  EvictionQueue_Reconcile ParseDuration api q pod now = Some (q, [EvictPod (NewQueueKey pod)], no_requeue, false) ∧
  ∀ t, eq_source (queue_Add t q [pod]) = eq_source q.
Proof.
  intros Hi Ha He Hev Hn. unfold EvictionQueue_Reconcile, evict. rewrite Hi, Ha, He, Hev, Hn. split; [done|]. intros t. cbn. by rewrite Hi.
Qed.

(** A grace period of ten thousand million seconds overflows: the pod is not deleted when the
    time of its node has run out, nor for centuries after. *)
Theorem long_grace_period_overflows pod t now : pod_DeletionTimestamp (dp_Pod pod) = None →
  dp_TerminationGracePeriodSeconds pod = Some 10000000000 → now ≤ t + 8000000000 * Second → needsDeleteByDeadline pod (Some t) now = false.
Proof.
  intros Hd Hg Hn. unfold needsDeleteByDeadline, IsTerminating. rewrite Hd, Hg. cbn [bool_decide].
  rewrite bool_decide_eq_false_2 by (by intros [? ?]). change (wrap64 (wrap64 (10000000000 * Second) * -1)) with 8446744073709551616.
  unfold Second in Hn. apply Z.ltb_ge. lia.
Qed.

(** Tainting a node twice is tainting it once, and afterwards it carries the taint. *)
Theorem tainted_idempotent taint n : tainted taint (tainted taint n) = tainted taint n ∧
  ∃ t, t ∈ node_Taints (no_Node (tainted taint n)) ∧ MatchTaint t taint = true.
Proof.
  assert (MatchTaint taint taint = true) as Hm by (by apply MatchTaint_spec).
  assert (existsb (λ t, MatchTaint t taint) (node_Taints (no_Node (tainted taint n))) = true) as He.
  { cbn. case_match eqn:E; [done|]. apply existsb_elem_of. exists taint. rewrite elem_of_app. split; [right; by left|done]. }
  split; [|by apply existsb_elem_of in He].
  assert (node_Labels (no_Node (tainted taint n)) !! LabelNodeExcludeBalancers = Some "karpenter") as Hl
    by (apply lookup_union_Some_l, lookup_singleton_eq).
  unfold tainted at 1. rewrite He. clear He. revert Hl. generalize (tainted taint n). intros [[a1 a2 a3 a4 a5 a6 a7 a8 a9 a10] fs os] Hl.
  unfold node_with. cbn [no_Node node_Labels node_Name node_Annotations node_CreationTimestamp node_DeletionTimestamp node_Taints
    node_ProviderID node_Capacity node_Allocatable node_Conditions no_Finalizers no_OwnerReferences] in *. do 2 f_equal.
  unfold assign. apply map_eq. intros k. destruct (decide (k = LabelNodeExcludeBalancers)) as [->|Hne].
  - rewrite Hl. by apply lookup_union_Some_l, lookup_singleton_eq.
  - by rewrite lookup_union_r by (by apply lookup_singleton_ne).
Qed.
End shortcomings.
