(* ===== verification/Termination.v ===== *)
(** * Termination: from a deleted node to a terminated instance
    (pkg/controllers/node/termination/controller.go)

    A node that is being deleted is tainted, drained, waits for its volumes and then for its
    instance, and only then loses its finalizer.  The NodeClaim may be missing; what the API
    server and the cloud provider answer is a [TerminationApi].  Events, logs and metrics are
    left out. *)

From S2P Require Import Prelude Labels Requirement Objects Resources Taints Volumes PodState Templates NodePoolHealth Lifecycle Terminator.

#[local] Open Scope Z_scope.

Record VolumeAttachment := mkVolumeAttachment { va_Name : string; va_PersistentVolumeName : option string }.

Inductive instance_answer := InstanceFound | InstanceMissing | InstanceError.

Record TerminationApi := mkTerminationApi {
  (** the NodeClaims with the given provider id *)
  ta_claims : string → result api_error (list Claim);
  ta_get : string → instance_answer;
  ta_delete : Claim → delete_answer;
  ta_serve : action → option api_error;
  ta_pods : string → result api_error (list DrainPod);
  ta_attachments : string → result api_error (list VolumeAttachment);
  ta_volumes : VolumeApi;
}.

Definition MinDrainTime : Z := 5 * Second.

Section termination.
  Context `{CS : ConditionSets} `{TA : TaintApi} (ParseTime : string → option Z) (key : string) (api : TerminationApi).

(** A node carries the label of a supported node class. *)
Definition IsManagedNode (supported : list string) (n : Node) : bool := existsb (λ k, bool_decide (is_Some (node_Labels n !! k))) supported.

(** [NodeClaimForNode]; no claim, or several, is none. *)
Definition claim_of_node (n : Node) : result api_error (option Claim) :=
  if bool_decide (node_ProviderID n = EmptyString) then Ok None
  else match ta_claims api (node_ProviderID n) with
       | Err e => Err e
       | Ok [c] => Ok (Some c)
       | Ok _ => Ok None
       end.

Definition pods_of_node (n : Node) : result api_error (list DrainPod) :=
  if bool_decide (node_Name n = EmptyString) then Ok [] else ta_pods api (node_Name n).

(** [None] is an annotation that does not parse. *)
Definition nodeTerminationTime (c : option Claim) : option (option Z) :=
  match c ≫= λ c, claim_Annotations (lc_base c) !! key with
  | None => Some None
  | Some s => match ParseTime s with Some t => Some (Some t) | None => None end
  end.

Definition hasTerminationGracePeriodElapsed (now : Z) (t : option Z) : bool :=
  match t with None => false | Some t => t <? now end.

(** ** Waiting for volumes *)

Section volumes.
  Context (pod : DrainPod).
(** The volumes of the claims of a pod; [Err] when one cannot be read. *)
Fixpoint pod_volumes (volumes : list Volume) : result api_error (list string) :=
  match volumes with
  | [] => Ok []
  | v :: volumes =>
      match GetPersistentVolumeClaim (ta_volumes api) (dp_Pod pod) v with
      | Err NotFound => pod_volumes volumes
      | Err e => Err e
      | Ok pvc => names ← pod_volumes volumes; Ok (match pvc with Some pvc => pvc_VolumeName pvc :: names | None => names end)
      end
  end.
End volumes.

Fixpoint undrainable_volumes (pods : list DrainPod) : result api_error (list string) :=
  match pods with
  | [] => Ok []
  | p :: pods => names ← pod_volumes p (dp_Volumes p); others ← undrainable_volumes pods; Ok (names ++ others)
  end.

Definition filterVolumeAttachments (now : Z) (n : Node) (volumeAttachments : list VolumeAttachment) : result api_error (list VolumeAttachment) :=
  match volumeAttachments with
  | [] => Ok []
  | _ =>
      pods ← pods_of_node n;
      shouldFilterOutVolume ← undrainable_volumes (filter (λ p, IsDrainable (dp_Pod p) now = false) pods);
      Ok (filter (λ v, match va_PersistentVolumeName v with None => false | Some pv => negb (bool_decide (pv ∈ shouldFilterOutVolume)) end = true)
            volumeAttachments)
  end.

Definition pendingVolumeAttachments (now : Z) (n : Node) : result api_error (list VolumeAttachment) :=
  volumeAttachments ← ta_attachments api (node_Name n); filterVolumeAttachments now n volumeAttachments.

(** ** The three waits *)

(** The claim, the queue, the requests, the result and whether it failed. *)
Record Await := mkAwait {
  aw_claim : option Claim;
  aw_queue : EvictionQueue;
  aw_actions : list action;
  aw_result : Result;
  aw_failed : bool;
}.

Definition retry_second : Result := requeue_after Second.

Definition awaitDrain (now : Z) (t : option Z) (n : Node) (q : EvictionQueue) (c : option Claim) : Await :=
  let c := (λ c, match get_condition ConditionTypeDrained (lc_Conditions c) with
                 | None => SetUnknownWithReason now ConditionTypeDrained "Draining" "Draining" c
                 | Some _ => c
                 end) <$> c in
  let '(q, drained) := Drain (mkDrainOptions false false) t now q (match pods_of_node n with Ok pods => Some pods | Err _ => None end) in
  match drained with
  | DrainFailed => mkAwait c q [] no_requeue true
  | DrainWaiting _ => mkAwait c q [] retry_second false
  | Drained =>
      let early := match c with
                   | None => false
                   | Some c => match get_condition ConditionTypeDrained (lc_Conditions c) with
                               | None => true
                               | Some cond => is_unknown ConditionTypeDrained (lc_Conditions c) &&
                                   (time_Sub now (cond_LastTransitionTime cond) <? MinDrainTime)
                               end
                   end in
      if early then mkAwait c q [] retry_second false
      else mkAwait (SetTrue now ConditionTypeDrained <$> c) q [] no_requeue false
  end.

Definition awaitVolumeDetachment (now : Z) (t : option Z) (n : Node) (q : EvictionQueue) (c : option Claim) : Await :=
  match pendingVolumeAttachments now n with
  | Err _ => mkAwait c q [] no_requeue true
  | Ok [] => mkAwait (SetTrue now ConditionTypeVolumesDetached <$> c) q [] no_requeue false
  | Ok _ =>
      if negb (hasTerminationGracePeriodElapsed now t) then
        mkAwait (SetUnknownWithReason now ConditionTypeVolumesDetached "AwaitingVolumeDetachment" "AwaitingVolumeDetachment" <$> c) q []
          retry_second false
      else mkAwait (SetFalse now ConditionTypeVolumesDetached "TerminationGracePeriodElapsed" "TerminationGracePeriodElapsed" <$> c) q []
             no_requeue false
  end.

Definition awaitInstanceTermination (now : Z) (q : EvictionQueue) (c : option Claim) : Await :=
  match c with
  | None => mkAwait None q [] no_requeue false
  | Some c =>
      match ta_delete api c with
      | DeleteFailed => mkAwait (Some c) q [CallDelete c] no_requeue true
      | answer => mkAwait (Some (SetTrue now ConditionTypeInstanceTerminating c)) q [CallDelete c]
                    (if bool_decide (answer = InstanceNotFound) then no_requeue else requeue_after (5 * Second)) false
      end
  end.

Definition go_on (a : Await) : bool := IsZero (aw_result a) && negb (aw_failed a).

Definition await_all (now : Z) (t : option Z) (n : Node) (q : EvictionQueue) (c : option Claim) : Await :=
  let a := awaitDrain now t n q c in
  if go_on a then
    let b := awaitVolumeDetachment now t n (aw_queue a) (aw_claim a) in
    if go_on b then
      let d := awaitInstanceTermination now (aw_queue b) (aw_claim b) in
      mkAwait (aw_claim d) (aw_queue d) (aw_actions a ++ aw_actions b ++ aw_actions d) (aw_result d) (aw_failed d)
    else mkAwait (aw_claim b) (aw_queue b) (aw_actions a ++ aw_actions b) (aw_result b) (aw_failed b)
  else a.

(** ** The handler *)

(** The requests and whether it failed. *)
Definition removeNodeFinalizer (n : NodeObject) : list action * bool :=
  let n' := mkNodeObject (no_Node n) (RemoveFinalizer (no_Finalizers n) TerminationFinalizer) (no_OwnerReferences n) in
  if bool_decide (n' = n) then ([], false)
  else ([PatchNode n'], bool_decide (is_Some (ignore_not_found (ta_serve api (PatchNode n'))))).

(** The patch of the claim, if it changed, and its error. *)
Definition patch_claim (stored c : option Claim) : list action * option api_error :=
  match stored, c with
  | Some stored, Some c => if bool_decide (stored = c) then ([], None) else ([PatchClaimStatus c], ta_serve api (PatchClaimStatus c))
  | _, _ => ([], None)
  end.

(** From the taint on. *)
Definition terminate_node (now : Z) (n : NodeObject) (q : EvictionQueue) (c : option Claim) (ws : list action) : EvictionQueue * Outcome :=
  match nodeTerminationTime c with
  | None => (q, (ws, no_requeue, true))
  | Some t =>
      let '(n, patches, e) := Terminator_Taint (λ n, ta_serve api (PatchNode n)) DisruptedNoScheduleTaint n in
      let ws := ws ++ (PatchNode <$> patches) in
      match e with
      | Some e => if bool_decide (e = Conflict) then (q, (ws, requeue, false)) else (q, (ws, no_requeue, true))
      | None =>
          let a := await_all now t (no_Node n) q c in
          let '(patch, e) := patch_claim c (aw_claim a) in
          let ws := ws ++ aw_actions a ++ patch in
          (aw_queue a,
           match ignore_not_found e with
           | Some e => if bool_decide (e = Conflict) then (ws, requeue, false) else (ws, no_requeue, true)
           | None => if aw_failed a then (ws, no_requeue, true)
                     else if negb (IsZero (aw_result a)) then (ws, aw_result a, false)
                     else let '(ws', failed) := removeNodeFinalizer n in (ws ++ ws', no_requeue, failed)
           end)
      end
  end.

Definition node_finalize (now : Z) (supported : list string) (n : NodeObject) (q : EvictionQueue) : EvictionQueue * Outcome :=
  if negb (bool_decide (TerminationFinalizer ∈ no_Finalizers n)) then (q, ([], no_requeue, false))
  else if negb (IsManagedNode supported (no_Node n)) then (q, ([], no_requeue, false))
  else match claim_of_node (no_Node n) with
       | Err _ => (q, ([], no_requeue, true))
       | Ok c =>
           let ws := match c with
                     | Some c => match claim_DeletionTimestamp (lc_base c) with None => [DeleteNodeClaim (lc_Name c)] | Some _ => [] end
                     | None => []
                     end in
           if bool_decide (is_Some (head (ws ≫= λ w, option_list (ignore_not_found (ta_serve api w))))) then (q, (ws, no_requeue, true))
           else if negb (condition_true "Ready" (node_Conditions (no_Node n))) then
             match ta_get api (node_ProviderID (no_Node n)) with
             | InstanceMissing => let '(ws', failed) := removeNodeFinalizer n in (q, (ws ++ ws', no_requeue, failed))
             | InstanceError => (q, (ws, no_requeue, true))
             | InstanceFound => terminate_node now n q c ws
             end
           else terminate_node now n q c ws
       end.

Definition Termination_Reconcile (now : Z) (supported : list string) (n : NodeObject) (q : EvictionQueue) : EvictionQueue * Outcome :=
  match node_DeletionTimestamp (no_Node n) with
  | Some _ => node_finalize now supported n q
  | None => (q, ([], no_requeue, false))
  end.
End termination.

(** ** Properties *)

Section guarantees.
  Context `{CS : ConditionSets} `{TA : TaintApi} (ParseTime : string → option Z) (key : string) (api : TerminationApi).

(** Nothing is left on the node: no pod waits, volumes are detached or the time is up, and the
    instance of the claim, if there is one, is gone. *)
Record vacated (now : Z) (n : Node) (c : option Claim) (ws : list action) : Prop := {
  vc_drained : ∃ pods, pods_of_node api n = Ok pods ∧ waiting_pods (mkDrainOptions false false) now pods = [];
  vc_volumes : pendingVolumeAttachments api now n = Ok [] ∨ ∃ t, nodeTerminationTime ParseTime key c = Some (Some t) ∧ t < now;
  vc_settled c0 : c = Some c0 → ∃ cond, get_condition ConditionTypeDrained (lc_Conditions c0) = Some cond ∧
    (is_unknown ConditionTypeDrained (lc_Conditions c0) = true → MinDrainTime ≤ time_Sub now (cond_LastTransitionTime cond));
  vc_instance c0 : c = Some c0 → ∃ x, CallDelete x ∈ ws ∧ lc_ProviderID x = lc_ProviderID c0 ∧ ta_delete api x = InstanceNotFound;
}.

Lemma go_on_spec a : go_on a = true ↔ aw_result a = no_requeue ∧ aw_failed a = false.
Proof. unfold go_on, IsZero. by rewrite andb_true_iff, bool_decide_eq_true, negb_true_iff. Qed.

Definition provider_of (c : option Claim) : option string := match c with Some c => Some (lc_ProviderID c) | None => None end.

(** What a drain that lets the handler go on has seen. *)
Lemma awaitDrain_done now t n q c : go_on (awaitDrain api now t n q c) = true →
  (∃ pods, pods_of_node api n = Ok pods ∧ waiting_pods (mkDrainOptions false false) now pods = []) ∧
  aw_actions (awaitDrain api now t n q c) = [] ∧
  provider_of (aw_claim (awaitDrain api now t n q c)) = provider_of c ∧
  ∀ c0, c = Some c0 → ∃ cond, get_condition ConditionTypeDrained (lc_Conditions c0) = Some cond ∧
    (is_unknown ConditionTypeDrained (lc_Conditions c0) = true → MinDrainTime ≤ time_Sub now (cond_LastTransitionTime cond)).
Proof.
  rewrite go_on_spec. unfold awaitDrain. set (c1 := _ <$> c).
  destruct (Drain _ t now q _) as [q' r] eqn:Ed.
  destruct r; cbn [aw_result aw_failed]; [|by intros [? ?]..]. intros [Hr _].
  assert (∃ pods, pods_of_node api n = Ok pods ∧ waiting_pods (mkDrainOptions false false) now pods = []) as Hw.
  { destruct (pods_of_node api n) as [pods|e]; [|done]. exists pods. split; [done|]. by apply Drain_outcome in Ed as [H _]; apply H. }
  destruct c as [c0|]; subst c1; cbn [fmap option_fmap option_map] in *; [|done].
  destruct (get_condition ConditionTypeDrained (lc_Conditions c0)) as [cond|] eqn:Ec.
  - rewrite Ec in *. destruct (is_unknown _ _ && _) eqn:Ee; [done|]. split_and!; try done. intros ? [= <-]. exists cond. split; [done|].
    intros Hu. rewrite Hu in Ee. cbn in Ee. by apply Z.ltb_ge in Ee.
  - exfalso. change (lc_Conditions (SetUnknownWithReason now ConditionTypeDrained "Draining" "Draining" c0)) with
      (set_condition now ConditionTypeDrained ConditionUnknown "Draining" "Draining" (lc_Conditions c0)) in Hr.
    destruct (set_condition_same now ConditionTypeDrained ConditionUnknown "Draining" "Draining" (lc_Conditions c0)) as (cond & Es & Hst & _ & Ht).
    rewrite Ec in Ht. rewrite Es, Ht in Hr by (apply (bool_decide_unpack _); exact I).
    assert (is_unknown ConditionTypeDrained (set_condition now ConditionTypeDrained ConditionUnknown "Draining" "Draining" (lc_Conditions c0)) = true) as Hu.
    { unfold is_unknown, condition_has. by rewrite Es, Hst. }
    rewrite Hu in Hr. unfold time_Sub in Hr. rewrite Z.sub_diag in Hr. done.
Qed.

Lemma awaitVolumes_done now t n q c : let a := awaitVolumeDetachment api now t n q c in go_on a = true →
  (pendingVolumeAttachments api now n = Ok [] ∨ ∃ t0, t = Some t0 ∧ t0 < now) ∧ aw_actions a = [] ∧ provider_of (aw_claim a) = provider_of c.
Proof.
  cbn zeta. rewrite go_on_spec. unfold awaitVolumeDetachment, hasTerminationGracePeriodElapsed. intros [H1 H2].
  destruct (pendingVolumeAttachments api now n) as [[|v l]|]; [|destruct t as [t|]; [destruct (Z.ltb_spec t now)|]|]; cbn in *; try done;
    (split; [eauto|]); by destruct c.
Qed.

Lemma awaitInstance_done now q c : let a := awaitInstanceTermination api now q c in go_on a = true →
  ∀ c0, c = Some c0 → aw_actions a = [CallDelete c0] ∧ ta_delete api c0 = InstanceNotFound.
Proof.
  cbn zeta. rewrite go_on_spec. unfold awaitInstanceTermination. intros [H H'] c0 ->. destruct (ta_delete api c0); [vm_compute in H|..]; done.
Qed.

Lemma await_all_done now t n q c ws : nodeTerminationTime ParseTime key c = Some t → go_on (await_all api now t n q c) = true →
  vacated now n c (ws ++ aw_actions (await_all api now t n q c)).
Proof.
  intros Ht H. unfold await_all in *. set (a := awaitDrain api now t n q c) in *. destruct (go_on a) eqn:Ea; [|congruence].
  set (b := awaitVolumeDetachment api now t n (aw_queue a) (aw_claim a)) in *. destruct (go_on b) eqn:Eb.
  2: { unfold go_on in *. cbn in H. congruence. }
  set (d := awaitInstanceTermination api now (aw_queue b) (aw_claim b)) in *. assert (go_on d = true) as Hd by exact H.
  apply awaitDrain_done in Ea as (Hw & _ & Ep & Hc). apply awaitVolumes_done in Eb as (Hv & _ & Ep').
  split; [done| |done|].
  - destruct Hv as [Hv|(t0 & -> & Hlt)]; [by left|]. right. by exists t0.
  - intros c0 ->. fold a in Ep. fold b in Ep'. rewrite Ep in Ep'. destruct (aw_claim b) as [x|] eqn:Ex; [|done]. cbn in Ep'. injection Ep' as Ep'.
    destruct (awaitInstance_done now (aw_queue b) (Some x) Hd x eq_refl) as [Hact Hdel].
    exists x. split; [|done]. change (CallDelete x ∈ ws ++ aw_actions a ++ aw_actions b ++ aw_actions d).
    assert (aw_actions d = [CallDelete x]) as -> by exact Hact. rewrite !elem_of_app. right. right. right. by left.
Qed.

(** A request that takes the finalizer off the node. *)
Definition removes_finalizer (w : action) : Prop := ∃ m, w = PatchNode m ∧ TerminationFinalizer ∉ no_Finalizers m.

Lemma Taint_keeps_finalizers serve taint n n' patches e : Terminator_Taint serve taint n = (n', patches, e) →
  no_Finalizers n' = no_Finalizers n ∧ node_Name (no_Node n') = node_Name (no_Node n) ∧ ∀ m, m ∈ patches → no_Finalizers m = no_Finalizers n.
Proof.
  unfold Terminator_Taint. case_match; intros [= <- <- <-]; (split; [done|]); (split; [done|]); [by intros m ?%elem_of_nil|by intros m ->%list_elem_of_singleton].
Qed.

Lemma patch_claim_requests stored c w : w ∈ (patch_claim api stored c).1 → ∃ x, w = PatchClaimStatus x.
Proof. unfold patch_claim. repeat case_match; cbn; try by intros ?%elem_of_nil. intros ->%list_elem_of_singleton. eauto. Qed.

Lemma await_all_requests now t n q c w : w ∈ aw_actions (await_all api now t n q c) → ∃ x, w = CallDelete x.
Proof.
  assert (aw_actions (awaitDrain api now t n q c) = []) as Ha.
  { unfold awaitDrain. destruct (Drain _ _ _ _ _) as [q' []]; [|done..]. by destruct (match _ with None => _ | Some _ => _ end). }
  assert (∀ q' c', aw_actions (awaitVolumeDetachment api now t n q' c') = []) as Hb by (intros; unfold awaitVolumeDetachment; by repeat case_match).
  assert (∀ q' c', w ∈ aw_actions (awaitInstanceTermination api now q' c') → ∃ x, w = CallDelete x) as Hd.
  { intros q' [c'|]; cbn; [|by intros ?%elem_of_nil]. destruct (ta_delete api c'); cbn; intros ->%list_elem_of_singleton; eauto. }
  unfold await_all. repeat case_match; cbn; rewrite ?Ha, ?Hb; [apply Hd|by intros ?%elem_of_nil|by intros ?%elem_of_nil].
Qed.

Lemma vacated_same_name now n n' c ws : node_Name n' = node_Name n → vacated now n' c ws → vacated now n c ws.
Proof.
  intros E. assert (pods_of_node api n' = pods_of_node api n) as E1 by (unfold pods_of_node; by rewrite E).
  assert (pendingVolumeAttachments api now n' = pendingVolumeAttachments api now n) as E2
    by (unfold pendingVolumeAttachments, filterVolumeAttachments; by rewrite E, E1).
  intros [H1 H2 H3 H4]. split; [by rewrite <-E1|by rewrite <-E2|done..].
Qed.

Lemma vacated_more now n c ws ws' : vacated now n c ws → vacated now n c (ws ++ ws').
Proof. intros [H1 H2 H3 H4]. split; try done. intros c0 Hc. destruct (H4 c0 Hc) as (x & ? & ?). exists x. rewrite elem_of_app. auto. Qed.

Lemma terminate_node_guarded now n q c ws q' out : TerminationFinalizer ∈ no_Finalizers n → (∀ w, w ∈ ws → ¬ removes_finalizer w) →
  terminate_node ParseTime key api now n q c ws = (q', out) → ∀ w, w ∈ out.1.1 → removes_finalizer w → vacated now (no_Node n) c out.1.1.
Proof.
  intros Hf Hws. unfold terminate_node. destruct (nodeTerminationTime ParseTime key c) as [t|] eqn:Et; [|intros [= <- <-] w Hw Hr; by destruct (Hws w Hw)].
  destruct (Terminator_Taint _ _ _) as [[n1 patches] e] eqn:En. apply Taint_keeps_finalizers in En as (Hf1 & Hname & Hp).
  assert (∀ w, w ∈ ws ++ (PatchNode <$> patches) → ¬ removes_finalizer w) as Hws1.
  { intros w [Hw|(m & -> & Hm)%list_elem_of_fmap]%elem_of_app; [by apply Hws|]. intros (m' & [= <-] & Hn). by rewrite (Hp m Hm) in Hn. }
  destruct e as [e|]; [case_match; intros [= <- <-] w Hw Hr; by destruct (Hws1 w Hw)|].
  set (a := await_all api now t (no_Node n1) q c). destruct (patch_claim api c (aw_claim a)) as [patch e] eqn:Ep.
  assert (∀ w, w ∈ (ws ++ (PatchNode <$> patches)) ++ aw_actions a ++ patch → ¬ removes_finalizer w) as Hws2.
  { intros w [Hw|[[x ->]%await_all_requests|Hw]%elem_of_app]%elem_of_app; [by apply Hws1|by intros (? & ? & ?)|].
    destruct (patch_claim_requests c (aw_claim a) w) as [x ->]; [by rewrite Ep|]. by intros (? & ? & ?). }
  intros [= <- <-]. destruct (ignore_not_found e) as [e'|]; [case_match; intros w Hw Hr; by destruct (Hws2 w Hw)|].
  destruct (aw_failed a) eqn:Ef; [intros w Hw Hr; by destruct (Hws2 w Hw)|].
  destruct (IsZero (aw_result a)) eqn:Ez; cbn [negb]; [|intros w Hw Hr; by destruct (Hws2 w Hw)].
  destruct (removeNodeFinalizer api n1) as [ws' failed]. intros w Hw Hr. cbn. apply (vacated_same_name now _ _ _ _ Hname), vacated_more.
  rewrite (app_assoc _ (aw_actions a)). apply vacated_more. apply await_all_done; [done|]. unfold go_on. fold a. by rewrite Ez, Ef.
Qed.

(** C6: a reconciliation takes the finalizer off a node only in two situations.  Either the kubelet
    does not report ready and the cloud provider has no instance for the node; or
    the listed pods of the node contain none the drain waits for, no volume
    attachment it has to wait for is left or the termination time of its claim has passed,
    and, when the node has a claim, the claim's condition Drained was
    already set when the reconciliation began, for at least the minimum drain time if it was still
    unknown (the time since the drain began, not since a pod last waited), and
    the cloud provider answered a Delete of the claim's instance with NotFound.  For a node
    without a claim, or with several, nothing is known of the drain's
    start or of the instance. *)
Theorem node_finalizer_guards_drain now supported n q q' ws r failed w :
  Termination_Reconcile ParseTime key api now supported n q = (q', (ws, r, failed)) → w ∈ ws → removes_finalizer w →
  ta_get api (node_ProviderID (no_Node n)) = InstanceMissing ∧ condition_true "Ready" (node_Conditions (no_Node n)) = false ∨
  ∃ c, claim_of_node api (no_Node n) = Ok c ∧ vacated now (no_Node n) c ws.
Proof.
  unfold Termination_Reconcile, node_finalize. destruct (node_DeletionTimestamp (no_Node n)); [|by intros [= <- <- <- <-] ?%elem_of_nil].
  destruct (bool_decide_reflect (TerminationFinalizer ∈ no_Finalizers n)) as [Hf|Hf]; cbn [negb]; [|by intros [= <- <- <- <-] ?%elem_of_nil].
  case_match; [by intros [= <- <- <- <-] ?%elem_of_nil|].
  destruct (claim_of_node api (no_Node n)) as [c|e]; [|by intros [= <- <- <- <-] ?%elem_of_nil].
  set (ws0 := match c with Some c => _ | None => [] end).
  assert (∀ w, w ∈ ws0 → ¬ removes_finalizer w) as Hws.
  { intros w'. subst ws0. repeat case_match; try by intros ?%elem_of_nil. intros ->%list_elem_of_singleton. by intros (? & ? & ?). }
  case_match; [intros [= <- <- <- <-] Hw Hr; by destruct (Hws w Hw)|].
  assert (terminate_node ParseTime key api now n q c ws0 = (q', (ws, r, failed)) → w ∈ ws → removes_finalizer w →
    ∃ c', Ok (E := api_error) c = Ok c' ∧ vacated now (no_Node n) c' ws) as Hgo.
  { intros H1 Hw Hr. exists c. split; [done|]. by apply (terminate_node_guarded _ _ _ _ _ _ _ Hf Hws H1 w). }
  destruct (condition_true "Ready" _); cbn [negb]; [intros; by right; apply Hgo|].
  destruct (ta_get api _); [intros; by right; apply Hgo|by left|]. intros [= <- <- <- <-] Hw Hr. by destruct (Hws w Hw).
Qed.
End guarantees.
