(* ===== verification/ClaimControllers.v ===== *)
(** * ClaimControllers: the controllers around the lifecycle of a NodeClaim
    (pkg/controllers/nodeclaim: disruption/controller.go, drift.go and consolidation.go,
    expiration, garbagecollection, podevents and consistency)

    They mark claims as drifted or consolidatable, delete claims that expired or lost their
    instance, and note pod events and inconsistent nodes.  Caches keep the time an entry
    expires.  Events, logs and metrics are left out. *)

From S2P Require Import Prelude Float64 Labels Requirement Objects Requirements Resources Taints Volumes InstanceTypes PodState.
From S2P Require Import TopologyGroup Topology Templates SchedulerSetup NodePoolHealth Lifecycle.

#[local] Open Scope Z_scope.

(** [Clear] removes a condition and leaves the others alone, except the root condition. *)
Class ConditionClear := {
  clear_condition : Z → string → list Condition → list Condition;
  clear_condition_same now type cs : type ≠ ConditionReady → get_condition type (clear_condition now type cs) = None;
  clear_condition_other now type cs type' : type' ≠ type → type' ≠ ConditionReady → get_condition type' (clear_condition now type cs) = get_condition type' cs;
}.

Definition seconds : Z := 1000000000.

(** The claim, its error if any and the result. *)
Record Marked := mkMarked { mk_claim : Claim; mk_result : Result; mk_failed : bool }.

Section claims.
  Context `{LR : LabelRegistry} `{CS : ConditionSets} `{CC : ConditionClear}.

Definition Clear (now : Z) (type : string) (c : Claim) : Claim := with_Conditions c (clear_condition now type (lc_Conditions c)).
Definition SetTrueWithReason (now : Z) (type reason message : string) (c : Claim) : Claim :=
  with_Conditions c (set_condition now type ConditionTrue reason message (lc_Conditions c)).
Definition has_condition (type : string) (c : Claim) : bool := bool_decide (is_Some (get_condition type (lc_Conditions c))).

(** ** Drift *)

Definition NodePoolDrifted : string := "NodePoolDrifted".
Definition RequirementsDrifted : string := "RequirementsDrifted".
Definition InstanceTypeNotFound : string := "InstanceTypeNotFound".

Definition areStaticFieldsDrifted (np : NodePool) (c : Claim) : string :=
  let annotations := claim_Annotations (lc_base c) in
  match np_Annotations np !! NodePoolHashAnnotationKey, np_Annotations np !! NodePoolHashVersionAnnotationKey,
        annotations !! NodePoolHashAnnotationKey, annotations !! NodePoolHashVersionAnnotationKey with
  | Some poolHash, Some poolVersion, Some claimHash, Some claimVersion =>
      if negb (bool_decide (poolVersion = claimVersion)) then EmptyString
      else if negb (bool_decide (poolHash = claimHash)) then NodePoolDrifted else EmptyString
  | _, _, _, _ => EmptyString
  end.

(** [None] is a run-time panic: a requirement of the pool that is not valid. *)
Definition areRequirementsDrifted (np : NodePool) (c : Claim) : option string :=
  nodepoolReq ← NewNodeSelectorRequirementsWithMinValues (np_Requirements (np_template np));
  Some (match Compatible (NewLabelRequirements (claim_Labels (lc_base c))) nodepoolReq ∅ with [] => EmptyString | _ => RequirementsDrifted end).

(** The requirements of the labels; a reserved claim may have become an on-demand one. *)
Definition offering_requirements (ReservedCapacityLabels : gset string) (c : Claim) : Requirements :=
  let labels := claim_Labels (lc_base c) in
  let reqs := NewLabelRequirements labels in
  if bool_decide (default EmptyString (labels !! CapacityTypeLabelKey) = CapacityTypeReserved) then
    filter (λ kr, kr.1 ∉ ReservedCapacityLabels)
      (<[CapacityTypeLabelKey := mkRequirement CapacityTypeLabelKey false {[CapacityTypeReserved; CapacityTypeOnDemand]} None None None None]> reqs)
  else reqs.

Definition instanceTypeNotFound (ReservedCapacityLabels : gset string) (its : list InstanceType) (c : Claim) : string :=
  match List.find (λ it, bool_decide (it_Name it = default EmptyString (claim_Labels (lc_base c) !! LabelInstanceTypeStable))) its with
  | None => InstanceTypeNotFound
  | Some it => if Offerings_HasCompatible (Offerings it) (offering_requirements ReservedCapacityLabels c) then EmptyString
               else InstanceTypeNotFound
  end.

(** What the cloud provider answers: [DriftGone] is a claim it does not know. *)
Inductive drift_answer := DriftIs (reason : string) | DriftGone | DriftError.

Record DriftApi := mkDriftApi {
  da_instance_types : option (list InstanceType);
  da_drifted : Claim → drift_answer;
  da_reserved_labels : gset string;
}.

(** The UIDs whose instance type was seen, until when. *)
Definition TypeCache : Type := gmap string Z.
Definition recently_checked (now : Z) (uid : string) (cache : TypeCache) : bool :=
  match cache !! uid with Some expires => negb (expires <? now) | None => false end.

Definition Hour : Z := 60 * minute.

Definition isDrifted (api : DriftApi) (now : Z) (cache : TypeCache) (np : NodePool) (c : Claim) : option (TypeCache * drift_answer) :=
  requirements ← areRequirementsDrifted np c;
  let static := areStaticFieldsDrifted np c in
  if negb (bool_decide (static = EmptyString)) then Some (cache, DriftIs static)
  else if negb (bool_decide (requirements = EmptyString)) then Some (cache, DriftIs requirements)
  else if negb (recently_checked now (lc_UID c) cache) && (Hour <? time_Sub now (claim_CreationTimestamp (lc_base c))) then
    match da_instance_types api with
    | None => Some (cache, DriftError)
    | Some its =>
        let reason := instanceTypeNotFound (da_reserved_labels api) its c in
        if negb (bool_decide (reason = EmptyString)) then Some (cache, DriftIs reason)
        else Some (<[lc_UID c := now + 30 * minute]> cache, da_drifted api c)
    end
  else Some (cache, da_drifted api c).

Definition Drift_Reconcile (api : DriftApi) (now : Z) (cache : TypeCache) (np : NodePool) (c : Claim) : option (TypeCache * Marked) :=
  if negb (condition_true ConditionTypeLaunched (lc_Conditions c)) then
    Some (cache, mkMarked (Clear now ConditionTypeDrifted c) no_requeue false)
  else
    '(cache, answer) ← isDrifted api now cache np c;
    Some (cache, match answer with
                 | DriftGone => mkMarked c no_requeue false
                 | DriftError => mkMarked c no_requeue true
                 | DriftIs reason =>
                     mkMarked (if bool_decide (reason = EmptyString) then
                                 (if has_condition ConditionTypeDrifted c then Clear now ConditionTypeDrifted c else c)
                               else SetTrueWithReason now ConditionTypeDrifted reason reason c) (requeue_after (5 * minute)) false
                 end).

(** ** Consolidation *)

Definition Consolidatable_Reconcile (now : Z) (np : NodePool) (c : Claim) : Marked :=
  let cleared := if has_condition ConditionTypeConsolidatable c then Clear now ConditionTypeConsolidatable c else c in
  match np_ConsolidateAfter np with
  | None => mkMarked cleared no_requeue false
  | Some after =>
      match get_condition ConditionTypeInitialized (lc_Conditions c) with
      | None => mkMarked cleared no_requeue false
      | Some initialized =>
          if negb (condition_true ConditionTypeInitialized (lc_Conditions c)) then mkMarked cleared no_requeue false
          else if IsUnderConsolidateAfter (Some np) (Some (lc_base c)) now then
            let timeToCheck := default (cond_LastTransitionTime initialized) (claim_LastPodEventTime (lc_base c)) in
            mkMarked cleared (requeue_after (time_Sub (timeToCheck + after) now)) false
          else mkMarked (SetTrue now ConditionTypeConsolidatable c) no_requeue false
      end
  end.

(** ** The controller of both *)

Definition runReconcilers (api : DriftApi) (now : Z) (cache : TypeCache) (np : NodePool) (c : Claim)
    : option (TypeCache * Claim * list Result * bool) :=
  '(cache, d) ← Drift_Reconcile api now cache np c;
  Some match np_Replicas np with
       | Some _ => (cache, mk_claim d, [mk_result d], mk_failed d)
       | None => let k := Consolidatable_Reconcile now np (mk_claim d) in
                 (cache, mk_claim k, [mk_result d; mk_result k], mk_failed d || mk_failed k)
       end.

(** The cache, the claim and the outcome; [pool] reads a NodePool. *)
Definition ClaimDisruption_Reconcile (serve : action → option api_error) (pool : string → result api_error NodePool) (supported : list (string * string))
    (api : DriftApi) (now : Z) (cache : TypeCache) (c : Claim) : option (TypeCache * Claim * Outcome) :=
  let idle := (cache, c, ([], no_requeue, false)) in
  if negb (IsManaged supported c) || bool_decide (is_Some (claim_DeletionTimestamp (lc_base c))) then Some idle
  else match claim_Labels (lc_base c) !! NodePoolLabelKey with
       | None => Some idle
       | Some name =>
           match pool name with
           | Err e => Some (cache, c, ([], no_requeue, bool_decide (is_Some (ignore_not_found (Some e)))))
           | Ok np =>
               match runReconcilers api now cache np c with
               | None => None
               | Some (cache, c', results, failed) =>
                   let ws := if bool_decide (c = c') then [] else [PatchClaimStatus c'] in
                   Some (cache, c', match ws ≫= λ w, option_list (serve w) with
                                    | e :: _ => patch_failed ws e
                                    | [] => if failed : bool then (ws, no_requeue, true) else (ws, Result_Min results, false)
                                    end)
               end
           end
       end.

(** ** Expiration *)

Definition Expiration_Reconcile (serve : action → option api_error) (supported : list (string * string)) (now : Z) (c : Claim) : Outcome :=
  let b := lc_base c in
  if negb (IsManaged supported c) || bool_decide (is_Some (claim_DeletionTimestamp b)) then ([], no_requeue, false)
  else match claim_ExpireAfter b with
       | None => ([], no_requeue, false)
       | Some expireAfter =>
           let expirationTime := claim_CreationTimestamp b + expireAfter in
           if now <? expirationTime then ([], requeue_after (time_Sub expirationTime now), false)
           else let w := DeleteNodeClaim (lc_Name c) in ([w], no_requeue, bool_decide (is_Some (ignore_not_found (serve w))))
       end.

(** ** Garbage collection *)

(** What is read: the claims, the instances as claims, and the nodes of a claim. *)
Record GarbageApi := mkGarbageApi {
  ga_claims : result api_error (list Claim);
  ga_instances : result api_error (list Claim);
  ga_lifecycle : LifecycleApi;
}.

Definition collectable (supported : list (string * string)) (instances : list Claim) (c : Claim) : bool :=
  IsManaged supported c && condition_true ConditionTypeRegistered (lc_Conditions c) &&
  negb (bool_decide (is_Some (claim_DeletionTimestamp (lc_base c)))) &&
  negb (existsb (λ i, negb (bool_decide (is_Some (claim_DeletionTimestamp (lc_base i)))) && bool_decide (lc_ProviderID i = lc_ProviderID c)) instances).

(** One claim: the requests and whether it failed.  An error of the lookup is kept, but it
    does not end the work. *)
Definition collect (api : GarbageApi) (c : Claim) : list action * bool :=
  let node := NodeForNodeClaim (ga_lifecycle api) c in
  let read_failed := match node with Err (ListingNodes _) => true | _ => false end in
  if (match node with Ok n => condition_true "Ready" (node_Conditions (no_Node n)) | Err _ => false end) then ([], read_failed)
  else let w := DeleteNodeClaim (lc_Name c) in
       ([w], match la_serve (ga_lifecycle api) w with
             | Some e => bool_decide (is_Some (ignore_not_found (Some e)))
             | None => read_failed
             end).

Definition GarbageCollection_Reconcile (api : GarbageApi) (supported : list (string * string)) : Outcome :=
  match ga_claims api, ga_instances api with
  | Ok claims, Ok instances =>
      let outcomes := collect api <$> filter (λ c, collectable supported instances c = true) claims in
      let ws := outcomes ≫= fst in
      if existsb snd outcomes then (ws, no_requeue, true) else (ws, requeue_after (2 * minute), false)
  | _, _ => ([], no_requeue, true)
  end.

(** ** Pod events *)

Definition dedupeTimeout : Z := 10 * seconds.

Definition with_LastPodEventTime (c : Claim) (t : Z) : Claim :=
  let b := lc_base c in
  with_base c (mkv1NodeClaim (claim_Name b) (claim_UID b) (claim_Labels b) (claim_Annotations b) (claim_CreationTimestamp b)
    (claim_DeletionTimestamp b) (claim_Taints b) (claim_StartupTaints b) (claim_TerminationGracePeriod b) (claim_ExpireAfter b) (claim_ProviderID b)
    (claim_NodeName b) (claim_Capacity b) (claim_Allocatable b) (claim_Conditions b) (Some t)).

(** [node] reads a node and [claims] the claims of a provider id. *)
Definition PodEvents_Reconcile (serve : action → option api_error) (node : string → result api_error Node)
    (claims : string → result api_error (list Claim)) (supported : list (string * string)) (now : Z) (pod : Pod) : Outcome :=
  if bool_decide (pod_NodeName pod = EmptyString) || IsOwnedByDaemonSet pod then ([], no_requeue, false)
  else match node (pod_NodeName pod) with
       | Err e => ([], no_requeue, bool_decide (is_Some (ignore_not_found (Some e))))
       | Ok n =>
           match (if bool_decide (node_ProviderID n = EmptyString) then Ok [] else claims (node_ProviderID n)) with
           | Err _ => ([], no_requeue, true)
           | Ok [c] =>
               if negb (IsManaged supported c) then ([], no_requeue, false)
               else if (match claim_LastPodEventTime (lc_base c) with Some t => time_Sub now t <? dedupeTimeout | None => false end) then ([], no_requeue, false)
               else
                 let c' := with_LastPodEventTime c now in
                 if bool_decide (c' = c) then ([], no_requeue, false)
                 else ([PatchClaimStatus c'], no_requeue, bool_decide (is_Some (ignore_not_found (serve (PatchClaimStatus c')))))
           | Ok _ => ([], no_requeue, false)
           end
       end.

(** ** Consistency *)

Definition scanPeriod : Z := 10 * minute.

(** The resources of which a node has less than nine tenths of what its claim says;
    [approx] is [AsApproximateFloat64] and [ninety] the constant 0.90. *)
Definition NodeShape_Check (approx : Z → float64) (ninety : float64) (n : Node) (c : Claim) : list string :=
  if bool_decide (is_Some (claim_DeletionTimestamp (lc_base c))) then []
  else if negb (condition_true ConditionTypeInitialized (lc_Conditions c)) then []
  else filter (λ r, (qty (lc_Requests c) r ≠ 0 ∧ qty (claim_Capacity (lc_base c)) r ≠ 0) ∧
                    fltb (fdiv (approx (qty (node_Capacity n) r)) (approx (qty (claim_Capacity (lc_base c)) r))) ninety = true)
         (map_to_list (lc_Requests c)).*1.

Definition checkConsistency (approx : Z → float64) (ninety : float64) (now : Z) (n : Node) (c : Claim) : Claim :=
  match NodeShape_Check approx ninety n c with
  | [] => if condition_true ConditionTypeConsistentStateFound (lc_Conditions c) then c else SetTrue now ConditionTypeConsistentStateFound c
  | _ => SetFalse now ConditionTypeConsistentStateFound "ConsistencyCheckFailed" "Consistency Check Failed" c
  end.

(** The cache holds when a claim was scanned and until when the entry lives. *)
Definition Consistency_Reconcile (approx : Z → float64) (ninety : float64) (api : LifecycleApi) (supported : list (string * string)) (now : Z)
    (cache : gmap string (Z * Z)) (c : Claim) : gmap string (Z * Z) * Outcome :=
  if negb (IsManaged supported c) || bool_decide (lc_ProviderID c = EmptyString) then (cache, ([], no_requeue, false))
  else match (match cache !! lc_UID c with Some (t, expires) => if expires <? now then None else Some t | None => None end) with
       | Some t => (cache, ([], requeue_after (scanPeriod - time_Sub now t), false))
       | None =>
           (<[lc_UID c := (now, now + scanPeriod)]> cache,
            match NodeForNodeClaim api c with
            | Err (ListingNodes _) => ([], no_requeue, true)
            | Err _ => ([], no_requeue, false)
            | Ok n =>
                let c' := checkConsistency approx ninety now (no_Node n) c in
                let ws := if bool_decide (c = c') then [] else [PatchClaimStatus c'] in
                match ws ≫= λ w, option_list (ignore_not_found (la_serve api w)) with
                | e :: _ => if bool_decide (e = Conflict) then (ws, requeue, false) else (ws, no_requeue, true)
                | [] => (ws, requeue_after scanPeriod, false)
                end
            end)
       end.
End claims.

(** ** Properties *)

Section properties.
  Context `{LR : LabelRegistry} `{CS : ConditionSets} `{CC : ConditionClear}.

Lemma condition_true_set now type status reason message cs :
  condition_true type (set_condition now type status reason message cs) = bool_decide (status = ConditionTrue).
Proof. unfold condition_has. destruct (set_condition_same now type status reason message cs) as (c & -> & -> & _). done. Qed.

Lemma condition_true_clear now type cs : type ≠ ConditionReady → condition_true type (clear_condition now type cs) = false.
Proof. intros H. unfold condition_has. by rewrite clear_condition_same. Qed.

Lemma no_condition_not_true type c : has_condition type c = false → condition_true type (lc_Conditions c) = false.
Proof. unfold has_condition, condition_has. rewrite bool_decide_eq_false. destruct (get_condition _ _); [|done]. intros []; eauto. Qed.

(** A launched claim has drifted when the hash of its pool, of the same version, is another
    one, when its labels no longer meet the requirements of the pool, when its instance type
    is not offered any more (looked up for old claims, twice an hour), or when the cloud
    provider says so. *)
Definition has_drifted (api : DriftApi) (now : Z) (cache : TypeCache) (np : NodePool) (c : Claim) : Prop :=
  areStaticFieldsDrifted np c ≠ EmptyString ∨ areRequirementsDrifted np c = Some RequirementsDrifted ∨
  (recently_checked now (lc_UID c) cache = false ∧ Hour < time_Sub now (claim_CreationTimestamp (lc_base c)) ∧
     ∃ its, da_instance_types api = Some its ∧ instanceTypeNotFound (da_reserved_labels api) its c ≠ EmptyString) ∨
  ∃ reason, da_drifted api c = DriftIs reason ∧ reason ≠ EmptyString.

Lemma areRequirementsDrifted_cases np c r : areRequirementsDrifted np c = Some r → r = EmptyString ∨ r = RequirementsDrifted.
Proof. unfold areRequirementsDrifted. intros (reqs & _ & [= <-])%bind_Some. case_match; auto. Qed.

Lemma isDrifted_spec api now cache np c cache' reason : isDrifted api now cache np c = Some (cache', DriftIs reason) →
  reason ≠ EmptyString ↔ has_drifted api now cache np c.
Proof.
  unfold isDrifted, has_drifted. intros (r & Hr & H)%bind_Some. apply areRequirementsDrifted_cases in Hr as Hcases. rewrite Hr.
  destruct (bool_decide_reflect (areStaticFieldsDrifted np c = EmptyString)) as [Es|Es]; cbn [negb] in H; [|simplify_eq; naive_solver].
  destruct (bool_decide_reflect (r = EmptyString)) as [->|En]; cbn [negb] in H.
  2: { simplify_eq. destruct Hcases as [->| ->]; naive_solver. }
  destruct (recently_checked now (lc_UID c) cache) eqn:Ec; cbn [negb andb] in H.
  { injection H as -> Ha. rewrite Ha. split; [eauto 10|]. intros [?|[[=]|[[[=] _]|(? & [= ->] & ?)]]]; done. }
  destruct (Z.ltb_spec Hour (time_Sub now (claim_CreationTimestamp (lc_base c)))) as [Hh|Hh].
  2: { injection H as -> Ha. rewrite Ha. split; [eauto 10|]. intros [?|[[=]|[(_ & ? & _)|(? & [= ->] & ?)]]]; [done|lia|done]. }
  destruct (da_instance_types api) as [its|] eqn:Ei; [|done].
  destruct (bool_decide_reflect (instanceTypeNotFound (da_reserved_labels api) its c = EmptyString)) as [Et|Et]; cbn [negb] in H.
  - injection H as <- Ha. rewrite Ha. split; [eauto 10|]. intros [?|[[=]|[(_ & _ & ? & [= <-] & ?)|(? & [= ->] & ?)]]]; done.
  - simplify_eq. split; [eauto 10|done].
Qed.

(** After a check of a launched claim that got its answers, the claim is marked as drifted
    exactly when it has drifted. *)
Theorem drift_marked_exactly api now cache np c cache' m : condition_true ConditionTypeLaunched (lc_Conditions c) = true →
  (∀ x, da_drifted api x ≠ DriftGone) → Drift_Reconcile api now cache np c = Some (cache', m) → mk_failed m = false →
  condition_true ConditionTypeDrifted (lc_Conditions (mk_claim m)) = true ↔ has_drifted api now cache np c.
Proof.
  intros Hl Hg H Hf. unfold Drift_Reconcile in H. rewrite Hl in H. cbn [negb] in H. apply bind_Some in H as ([cache1 answer] & Hd & [= <- <-]).
  destruct answer as [reason| |]; [|exfalso|done].
  - rewrite <-(isDrifted_spec _ _ _ _ _ _ _ Hd). cbn [mk_claim]. destruct (bool_decide_reflect (reason = EmptyString)) as [Er|Er].
    + split; [|done]. intros Ht. exfalso. destruct (has_condition ConditionTypeDrifted c) eqn:Ec.
      * unfold Clear in Ht. cbn in Ht. by rewrite condition_true_clear in Ht.
      * by rewrite no_condition_not_true in Ht.
    + split; [done|]. intros _. unfold SetTrueWithReason. cbn. by rewrite condition_true_set, bool_decide_eq_true_2.
  - unfold isDrifted in Hd. apply bind_Some in Hd as (r & _ & Hd). repeat case_match; simplify_eq; by eapply Hg.
Qed.

(** A claim is marked as consolidatable exactly when its pool consolidates, it is initialized
    and nothing has happened on it for as long as the pool demands. *)
Theorem consolidatable_exactly now np c :
  condition_true ConditionTypeConsolidatable (lc_Conditions (mk_claim (Consolidatable_Reconcile now np c))) = true ↔
  ∃ after initialized, np_ConsolidateAfter np = Some after ∧ get_condition ConditionTypeInitialized (lc_Conditions c) = Some initialized ∧
    cond_Status initialized = ConditionTrue ∧
    (after = 0 ∨ after ≤ time_Sub now (default (cond_LastTransitionTime initialized) (claim_LastPodEventTime (lc_base c)))).
Proof.
  assert (condition_true ConditionTypeConsolidatable (lc_Conditions (if has_condition ConditionTypeConsolidatable c then Clear now ConditionTypeConsolidatable c else c)) = false) as Hcl.
  { destruct (has_condition ConditionTypeConsolidatable c) eqn:E; [|by apply no_condition_not_true]. unfold Clear. cbn. by apply condition_true_clear. }
  unfold Consolidatable_Reconcile, IsUnderConsolidateAfter. destruct (np_ConsolidateAfter np) as [after|] eqn:Ea; cbn [mk_claim].
  2: { rewrite Hcl. naive_solver. }
  destruct (get_condition ConditionTypeInitialized (lc_Conditions c)) as [i|] eqn:Ei; cbn [mk_claim]; [|rewrite Hcl; naive_solver].
  assert (condition_true ConditionTypeInitialized (lc_Conditions c) = bool_decide (cond_Status i = ConditionTrue)) as Ht by (unfold condition_has; by rewrite Ei).
  rewrite Ht. destruct (bool_decide_reflect (cond_Status i = ConditionTrue)) as [Es|Es]; cbn [negb mk_claim]; [|rewrite Hcl; naive_solver].
  cbn [mbind option_bind]. rewrite Ea. cbn [negb].
  destruct (Z.eqb_spec after 0) as [->|Hne]; cbn [mk_claim].
  - unfold SetTrue. cbn. rewrite condition_true_set. split; [eauto 10|done].
  - destruct (Z.ltb_spec (time_Sub now (default (cond_LastTransitionTime i) (claim_LastPodEventTime (lc_base c)))) after); cbn [mk_claim].
    + rewrite Hcl. split; [done|]. intros (? & ? & [= <-] & [= <-] & _ & [?|?]); lia.
    + unfold SetTrue. cbn. rewrite condition_true_set. split; [eauto 10|done].
Qed.

(** A claim expires exactly at its time: until then the controller waits for as long as is
    left, from then on it deletes the claim. *)
Theorem expires_on_time serve supported now c expireAfter : IsManaged supported c = true → claim_DeletionTimestamp (lc_base c) = None →
  claim_ExpireAfter (lc_base c) = Some expireAfter →
  let left := claim_CreationTimestamp (lc_base c) + expireAfter - now in
  (left ≤ 0 → (Expiration_Reconcile serve supported now c).1.1 = [DeleteNodeClaim (lc_Name c)]) ∧
  (0 < left ≤ int64_max → Expiration_Reconcile serve supported now c = ([], requeue_after left, false)).
Proof.
  intros Hm Hd He left. unfold Expiration_Reconcile. rewrite Hm, Hd, He. cbn [negb orb]. rewrite bool_decide_eq_false_2 by (by intros []).
  subst left. split; intros Hl.
  - by rewrite (proj2 (Z.ltb_ge _ _)) by lia.
  - rewrite (proj2 (Z.ltb_lt _ _)) by lia. unfold time_Sub. do 3 f_equal. unfold int64_min. lia.
Qed.

(** Exactly those registered claims are collected that have no instance and whose node does
    not report ready. *)
Theorem garbage_collected api supported claims instances n : ga_claims api = Ok claims → ga_instances api = Ok instances →
  DeleteNodeClaim n ∈ (GarbageCollection_Reconcile api supported).1.1 ↔
  ∃ c, c ∈ claims ∧ lc_Name c = n ∧ collectable supported instances c = true ∧
    ¬ ∃ node, NodeForNodeClaim (ga_lifecycle api) c = Ok node ∧ condition_true "Ready" (node_Conditions (no_Node node)) = true.
Proof.
  intros Hc Hi. unfold GarbageCollection_Reconcile. rewrite Hc, Hi.
  set (outcomes := collect api <$> _). assert (∀ w r f, w ∈ (if existsb snd outcomes then (outcomes ≫= fst, no_requeue, true) else (outcomes ≫= fst, r, f : bool)).1.1 ↔ w ∈ outcomes ≫= fst) as E
    by (intros; by case_match).
  rewrite E. subst outcomes. rewrite list_elem_of_bind. setoid_rewrite list_elem_of_fmap. setoid_rewrite list_elem_of_filter. split.
  - intros (o & Hw & c & -> & Hcol & Hin). exists c. unfold collect in Hw. destruct (match NodeForNodeClaim _ _ with Ok _ => _ | Err _ => _ end) eqn:Er; cbn in Hw; [by apply elem_of_nil in Hw|].
    apply list_elem_of_singleton in Hw as [= <-]. split_and!; try done. intros (node & Hn & Ht). rewrite Hn in Er. congruence.
  - intros (c & Hin & <- & Hcol & Hn). exists (collect api c). split; [|eauto]. unfold collect.
    destruct (match NodeForNodeClaim _ _ with Ok _ => _ | Err _ => _ end) eqn:Er; [|by left].
    destruct (NodeForNodeClaim _ c) as [node|] eqn:En; [|done]. destruct Hn. eauto.
Qed.

(** A claim whose node cannot be read is collected although the read failed. *)
Theorem collected_despite_read_error api c e : la_nodes (ga_lifecycle api) (lc_ProviderID c) = Err e → lc_ProviderID c ≠ EmptyString →
  (collect api c).1 = [DeleteNodeClaim (lc_Name c)].
Proof.
  intros He Hp. unfold collect, NodeForNodeClaim, AllNodesForNodeClaim. by rewrite bool_decide_eq_false_2, He.
Qed.

(** A conflict while the outcome of a scan is written loses it: the requeued reconciliation
    finds the claim scanned and waits for the next period. *)
Theorem conflicting_scan_lost approx ninety api supported now cache c cache' ws now' :
  Consistency_Reconcile approx ninety api supported now cache c = (cache', (ws, requeue, false)) → now ≤ now' ≤ now + scanPeriod →
  ∃ d, Consistency_Reconcile approx ninety api supported now' cache' c = (cache', ([], requeue_after d, false)).
Proof.
  unfold Consistency_Reconcile. destruct (negb (IsManaged supported c) || bool_decide (lc_ProviderID c = EmptyString)); [by intros [= <- <-]|].
  destruct (match cache !! lc_UID c with Some _ => _ | None => _ end); [by intros [= <- <-]|]. intros [= <- H] Hn. rewrite lookup_insert_eq.
  rewrite (proj2 (Z.ltb_ge _ _)) by lia. eauto.
Qed.
End properties.
