(* ===== verification/StaticPools.v ===== *)
(** * StaticPools: keeping the replicas of a static NodePool
    (pkg/controllers/static/provisioning and pkg/controllers/static/deprovisioning)

    A static NodePool has a number of replicas and no pods to schedule.  One controller
    creates the claims that are missing, within the node limit that the NodePool state
    reserves; the other deletes claims beyond the replicas, those that cost least first.
    Workers run in the order of their index; a request that is retried is its last attempt. *)

From S2P Require Import Prelude Float64 Labels Requirement Objects RepairPolicy Requirements Resources Taints Volumes InstanceTypes PodState.
From S2P Require Import DisruptionCost TopologyGroup Topology NodeClaims Templates Evictions NodePools SchedulerSetup NodePoolHealth NodePoolState StateNodes.
From S2P Require Import Scheduler Cluster ClusterInv Provisioner ProvisionerProps Lifecycle ClaimControllers Drift.
From Stdlib Require Import Sorting.Sorted.

#[local] Open Scope Z_scope.

(** ** Provisioning *)

Section provisioning.
  Context `{LR : LabelRegistry} `{SE : SchedulerEnv}.
  Context (GetSupportedNodeClasses : list (string * string)) (nodePool_Hash : NodePool → string) (ToLower : string → string).
  Context (quantity_Value : Z → Z) (DefaultTerminationGracePeriod : option Z) (api : LaunchApi) (capi : ClusterApi).

Definition template_launch (np : NodePool) : option Launch :=
  '(nct, meta) ← NewNodeClaimTemplate nodePool_Hash ToLower np;
  Some (mkLaunch (static_claim nct meta) meta).

(** The nodes that are missing. *)
Definition missing_replicas (c : Cluster) (np : NodePool) : Z :=
  let '(running, _, _) := GetNodeCount (nodePoolState c) (np_Name (np_template np)) in
  wrap64 (default 0 (np_Replicas np) - running).

(** The cluster, the errors of the claims that were not created, and the result; [order n]
    is the order in which n workers run.  [None] is a run-time panic. *)
Definition StaticProvisioning_Reconcile (now : Z) (order : nat → list nat) (c : Cluster) (np : NodePool)
    : option (Cluster * list create_error * Result) :=
  if negb (NodePools.IsManaged GetSupportedNodeClasses np) || negb (condition_true ConditionReady (np_Conditions np)) ||
     bool_decide (np_Replicas np = None) || bool_decide (is_Some (np_DeletionTimestamp np))
  then Some (c, [], no_requeue)
  else
    let '(c, synced) := if HasSynced c then (c, true) else Synced capi now c in
    if negb synced then Some (c, [], requeue_after seconds)
    else
      let name := np_Name (np_template np) in
      let '(running, _, pendingDisruption) := GetNodeCount (nodePoolState c) name in
      let desiredReplicas := default 0 (np_Replicas np) in
      if wrap64 (running + pendingDisruption) >=? desiredReplicas then Some (c, [], requeue_after minute)
      else
        let '(state, count) := ReserveNodeCount (nodePoolState c) name (node_limit quantity_Value np) (missing_replicas c np) in
        let c := set_nodePoolState c state in
        if count <=? 0 then Some (c, [], requeue_after (30 * seconds))
        else
          launch ← template_launch np;
          '(c, _, errs) ← CreateNodeClaims DefaultTerminationGracePeriod ∅ api now (order (Z.to_nat count)) c
                            (replicate (Z.to_nat count) launch);
          Some (c, errs, match errs with [] => requeue_after minute | _ => no_requeue end).

(** The predicate on updates of a NodePool. *)
Definition is_ready (np : NodePool) : bool :=
  match List.find (λ cond, bool_decide (cond_Type cond = ConditionReady)) (np_Conditions np) with
  | Some cond => bool_decide (cond_Status cond = ConditionTrue)
  | None => false
  end.

Definition HasNodePoolReplicaOrStatusChanged (oldNP newNP : NodePool) : bool :=
  negb (bool_decide (default 0 (np_Replicas oldNP) = default 0 (np_Replicas newNP))) || negb (is_ready oldNP) && is_ready newNP.
End provisioning.

(** ** Deprovisioning *)

(** [cmp.Compare] of floats is negative: a NaN is below all others. *)
Definition compare_less (x y : float64) : bool := (bool_decide (x = NaN) && negb (bool_decide (y = NaN))) || fltb x y.

Record NonEmptyNode := mkNonEmptyNode { ne_claim : v1NodeClaim; ne_pods : list Pod; ne_hasDoNotDisrupt : bool }.

Section deprovisioning.
  Context `{TA : TaintApi}.
  Context (GetSupportedNodeClasses : list (string * string)) (PodDeletionCostManagement : bool) (ParseDuration : string → option Z).
  (** The NodeClaims of the API server, its answer to a delete request, and pods. *)
  Context (claims : result api_error (list Claim)) (serve : action → option api_error) (api : NodeApi).

(** Claims without an instance. *)
Definition unresolvedDeprovisioningCandidates (pool : string) (count : nat) : list v1NodeClaim :=
  match claims with
  | Err _ => []
  | Ok listed =>
      take count (lc_base <$> filter (λ c, (IsManaged GetSupportedNodeClasses c = true ∧ claim_Labels (lc_base c) !! NodePoolLabelKey = Some pool) ∧
                                           lc_ProviderID c = EmptyString ∧ claim_DeletionTimestamp (lc_base c) = None) listed)
  end.

(** A node of the pool that may be deleted, with its claim; [None] is the panic on a state
    node without objects. *)
Definition deprovisionable (pool : string) (n : StateNode) : option (option (StateNode * v1NodeClaim)) :=
  labels ← st_Labels n;
  Some (if bool_decide (default EmptyString (labels !! NodePoolLabelKey) = pool) && negb (MarkedForDeletion n)
        then (λ nc, (n, nc)) <$> st_NodeClaim n else None).

Definition has_do_not_disrupt (now : Z) (pods : list Pod) : bool := existsb (λ p, IsDoNotDisruptActive ParseDuration p now) pods.

Definition empty_node (now : Z) (n : StateNode) : bool :=
  match st_Pods api n with
  | Err _ => false
  | Ok pods => bool_decide (pods = []) || forallb IsOwnedByDaemonSet pods && negb (has_do_not_disrupt now pods)
  end.

Definition deprovisioning_cost (now : Z) (n : NonEmptyNode) : float64 :=
  fmul (ReschedulingCost PodDeletionCostManagement (ne_pods n)) (LifetimeRemaining now (ne_claim n)).

(** Nodes with pods that must not be disrupted last, then by cost. *)
Definition deprovisioned_before (now : Z) (i j : NonEmptyNode) : bool :=
  if negb (Bool.eqb (ne_hasDoNotDisrupt i) (ne_hasDoNotDisrupt j)) then negb (ne_hasDoNotDisrupt i)
  else compare_less (deprovisioning_cost now i) (deprovisioning_cost now j).

Definition nonempty_node (now : Z) (n : StateNode * v1NodeClaim) : option NonEmptyNode :=
  if empty_node now n.1 then None
  else match st_Pods api n.1 with
       | Err _ => None
       | Ok pods => Some (mkNonEmptyNode n.2 pods (has_do_not_disrupt now pods))
       end.

Definition resolvedDeprovisioningCandidates (now : Z) (nodes : list (StateNode * v1NodeClaim)) (count : nat) : list v1NodeClaim :=
  let emptyNodes := filter (λ n, empty_node now n.1 = true) nodes in
  let candidates := (take count emptyNodes).*2 in
  let remaining := (count - length candidates)%nat in
  candidates ++ (ne_claim <$> take remaining (sort_by (deprovisioned_before now) (omap (nonempty_node now) nodes))).

Definition getDeprovisioningCandidates (now : Z) (c : Cluster) (pool : string) (count : nat) : option (list v1NodeClaim) :=
  let unresolved := unresolvedDeprovisioningCandidates pool count in
  let remaining := (count - length unresolved)%nat in
  if (remaining =? 0)%nat then Some unresolved
  else
    nodes ← mapM (deprovisionable pool) (map_to_list (nodes c)).*2;
    Some (unresolved ++ resolvedDeprovisioningCandidates now (omap id nodes) remaining).

(** One worker: the request, and the mark when it was served or the claim is gone. *)
Definition deprovision (pool : string) (st : Cluster * bool) (nc : v1NodeClaim) : Cluster * bool :=
  match ignore_not_found (serve (DeleteNodeClaim (claim_Name nc))) with
  | Some _ => (st.1, true)
  | None => (set_nodePoolState st.1 (MarkNodeClaimDeleting (nodePoolState st.1) pool (claim_Name nc)), st.2)
  end.

Definition StaticDeprovisioning_Reconcile (now : Z) (c : Cluster) (np : NodePool) : option (Cluster * Outcome) :=
  if negb (NodePools.IsManaged GetSupportedNodeClasses np) || bool_decide (np_Replicas np = None) || bool_decide (is_Some (np_DeletionTimestamp np))
  then Some (c, ([], no_requeue, false))
  else
    let name := np_Name (np_template np) in
    let '(running, _, _) := GetNodeCount (nodePoolState c) name in
    let nodeClaimsToDeprovision := wrap64 (running - default 0 (np_Replicas np)) in
    if nodeClaimsToDeprovision <=? 0 then Some (c, ([], requeue_after minute, false))
    else
      candidates ← getDeprovisioningCandidates now c name (Z.to_nat nodeClaimsToDeprovision);
      let '(c, failed) := foldl (deprovision name) (c, false) candidates in
      let ws := (λ nc, DeleteNodeClaim (claim_Name nc)) <$> candidates in
      Some (c, (ws, if failed : bool then no_requeue else requeue_after minute, failed)).

Definition HasNodePoolReplicaCountChanged (oldNP newNP : NodePool) : bool :=
  negb (bool_decide (default 0 (np_Replicas oldNP) = default 0 (np_Replicas newNP))).
End deprovisioning.

(** ** Properties of provisioning *)

Section provisioning_properties.
  Context `{LR : LabelRegistry} `{SE : SchedulerEnv}.
  Context (GetSupportedNodeClasses : list (string * string)) (nodePool_Hash : NodePool → string) (ToLower : string → string).
  Context (quantity_Value : Z → Z) (DefaultTerminationGracePeriod : option Z) (api : LaunchApi) (capi : ClusterApi).

Abbreviation pool_key np := (np_Name (np_template np)).

(** Looking whether the cluster is synced changes no node and no count. *)
Lemma Synced_keeps now c : cluster_wf c → let c' := (if HasSynced c then (c, true) else Synced capi now c).1 in
  cluster_wf c' ∧ nodePoolState c' = nodePoolState c ∧ nodeClaimNameToProviderID c' = nodeClaimNameToProviderID c.
Proof.
  intros Hwf. cbn zeta. destruct (HasSynced c); [done|]. unfold Synced. destruct (compute_synced capi c) as [synced stored].
  destruct synced; cbn [fst]; [done|]. repeat case_match; done.
Qed.

Lemma template_launch_spec np l : template_launch nodePool_Hash ToLower np = Some l → is_Some (np_Replicas np) →
  NodePoolName (l_NodeClaim l) = pool_key np ∧ tm_IsStatic (l_Meta l) = true.
Proof.
  unfold template_launch, NewNodeClaimTemplate. intros ([nct meta] & (spec & _ & [= <- <-])%bind_Some & [= <-])%bind_Some Hr.
  split; [done|]. cbn. by apply bool_decide_eq_true_2.
Qed.

Lemma pool_launches_replicate n l k :
  pool_launches k (replicate n l) = if bool_decide (NodePoolName (l_NodeClaim l) = k) then replicate n l else [].
Proof.
  unfold pool_launches. case_bool_decide; induction n as [|n IH]; cbn; try done.
  - rewrite decide_True by done. by f_equal.
  - by rewrite decide_False.
Qed.

Lemma static_launches_replicate n l k : tm_IsStatic (l_Meta l) = true → static_launches k (replicate n l) = pool_launches k (replicate n l).
Proof.
  intros Hs. unfold static_launches. rewrite pool_launches_replicate. case_bool_decide; [|done].
  induction n as [|n IH]; cbn; [done|]. rewrite decide_True by done. by f_equal.
Qed.

(** What a pass relies on: its replicas and its limit are counts, the NodePool makes a claim,
    and the API server returns new objects of the pool. *)
Record refill_ready (c : Cluster) (np : NodePool) (launch : Launch) : Prop := {
  rr_wf : cluster_wf c;
  rr_sane : reservations_sane c;
  rr_replicas : 0 ≤ default 0 (np_Replicas np) ≤ int64_max;
  rr_limit : 0 ≤ node_limit quantity_Value np ≤ int64_max;
  rr_counts : node_total (nodePoolState c) (pool_key np) + reserved (nodePoolState c) (pool_key np) ≤ int64_max;
  rr_template : template_launch nodePool_Hash ToLower np = Some launch;
  rr_launchable : launchable DefaultTerminationGracePeriod ∅ launch;
  rr_creates : ∀ i, creates_new api c i ∧ creates_in_pool api i launch;
}.

Lemma missing_bounds c np : 0 ≤ default 0 (np_Replicas np) ≤ int64_max →
  node_total (nodePoolState c) (pool_key np) + reserved (nodePoolState c) (pool_key np) ≤ int64_max → 0 ≤ reserved (nodePoolState c) (pool_key np) →
  ∀ running deleting pending, GetNodeCount (nodePoolState c) (pool_key np) = (running, deleting, pending) →
  0 ≤ running ∧ 0 ≤ pending ∧ wrap64 (running + pending) = running + pending ∧ missing_replicas c np = default 0 (np_Replicas np) - running.
Proof.
  unfold missing_replicas, GetNodeCount, node_total. intros Hd Ht Hr running deleting pending E. rewrite E in *.
  assert (0 ≤ running ∧ 0 ≤ deleting ∧ 0 ≤ pending) as (? & ? & ?).
  { unfold nodeCounts in E. destruct (_ !! _); injection E as <- <- <-; lia. }
  split_and!; [done..| |]; apply wrap64_id; unfold in_int64, int64_min, int64_max in *; lia.
Qed.

Lemma refill_cases now order c np launch : (∀ n, order n ≡ₚ seq 0 n) → refill_ready c np launch → is_Some (np_Replicas np) →
  let name := pool_key np in
  let '(state, count) := ReserveNodeCount (nodePoolState c) name (node_limit quantity_Value np) (missing_replicas c np) in
  0 ≤ missing_replicas c np → 0 < count →
  ∃ c' names errs, CreateNodeClaims DefaultTerminationGracePeriod ∅ api now (order (Z.to_nat count)) (set_nodePoolState c state)
                     (replicate (Z.to_nat count) launch) = Some (c', names, errs) ∧ cluster_wf c' ∧
    (∀ k, reserved (nodePoolState c') k = reserved (nodePoolState c) k) ∧
    (node_total (nodePoolState c') name ≤ node_total (nodePoolState c) name + missing_replicas c np) ∧
    (node_total (nodePoolState c') name + reserved (nodePoolState c') name ≤ node_limit quantity_Value np).
Proof.
  intros Hord [Hwf Hsane Hrep Hlim Hcnt Htpl Hla Hcr] Hsome. cbn zeta. destruct (ReserveNodeCount _ _ _ _) as [state count] eqn:E. intros Hmiss Hpos.
  pose proof (Hsane (pool_key np)) as Hr0.
  apply reserve_grants in E as (Hg & Hres & Hl & _ & Htot & Hoth); [|lia..]. specialize (Hl Hpos).
  destruct (template_launch_spec _ _ Htpl Hsome) as [Hname Hstatic].
  assert (Z.of_nat (length (pool_launches (pool_key np) (replicate (Z.to_nat count) launch))) = count) as Hlen.
  { rewrite pool_launches_replicate, bool_decide_eq_true_2, length_replicate by done. lia. }
  destruct (create_all_spec DefaultTerminationGracePeriod ∅ api now (order (Z.to_nat count)) (set_nodePoolState c state) (replicate (Z.to_nat count) launch))
    as (c' & names & errs & Hc & Hwf' & _ & Hr' & Ht' & Hsum & _).
  - by rewrite length_replicate.
  - exact Hwf.
  - intros k. cbn. destruct (decide (k = pool_key np)) as [->|Hk]; [|rewrite Hoth by done; apply Hsane].
    rewrite Hres. pose proof (Hsane (pool_key np)). rewrite Htot, Hres in Hl.
    assert (0 ≤ node_total (nodePoolState c) (pool_key np)) by (unfold node_total, nodeCounts; destruct (_ !! _); lia). lia.
  - intros i l [-> _]%lookup_replicate. split; [done|]. exact (Hcr i).
  - exists c', names, errs. split; [done|]. split; [done|].
    assert (∀ k, reserved (nodePoolState c') k = reserved (nodePoolState c) k) as Heq.
    { intros k. rewrite Hr', static_launches_replicate by done. cbn [nodePoolState set_nodePoolState].
      destruct (decide (k = pool_key np)) as [->|Hk]; [rewrite Hres, Hlen; lia|].
      rewrite Hoth, pool_launches_replicate, bool_decide_eq_false_2 by congruence. pose proof (Hsane k). cbn. lia. }
    split_and!; [done| |].
    + specialize (Ht' (pool_key np)). cbn [nodePoolState set_nodePoolState] in Ht'. lia.
    + specialize (Hsum (pool_key np)). cbn [nodePoolState set_nodePoolState] in Hsum.
      etransitivity; [apply Hsum|done]; [by apply static_launches_replicate|]. lia.
Qed.

(** Provisioning returns; it creates no more claims than replicas are missing, takes the pool
    at most to its node limit, and gives every reservation back. *)
Theorem static_provisioning_within_limit now order c np launch : (∀ n, order n ≡ₚ seq 0 n) → refill_ready c np launch →
  ∃ c' errs res, StaticProvisioning_Reconcile GetSupportedNodeClasses nodePool_Hash ToLower quantity_Value DefaultTerminationGracePeriod api capi now order c np
                   = Some (c', errs, res) ∧ cluster_wf c' ∧
    (∀ k, reserved (nodePoolState c') k = reserved (nodePoolState c) k) ∧
    node_total (nodePoolState c') (pool_key np) ≤ node_total (nodePoolState c) (pool_key np) + Z.max 0 (missing_replicas c np) ∧
    node_total (nodePoolState c') (pool_key np) + reserved (nodePoolState c') (pool_key np) ≤
      Z.max (node_limit quantity_Value np) (node_total (nodePoolState c) (pool_key np) + reserved (nodePoolState c) (pool_key np)).
Proof.
  intros Hord Hready. unfold StaticProvisioning_Reconcile.
  destruct (_ || bool_decide (is_Some (np_DeletionTimestamp np))) eqn:Eg.
  { eexists c, [], _. split; [done|]. split_and!; [apply Hready|done|lia..]. }
  assert (is_Some (np_Replicas np)) as Hsome.
  { apply orb_false_iff in Eg as [[_ Eg]%orb_false_iff _]. apply bool_decide_eq_false in Eg. by apply not_eq_None_Some. }
  pose proof (Synced_keeps now c (rr_wf _ _ _ Hready)) as Hkeep. destruct (if HasSynced c then _ else _) as [c1 synced] eqn:Es. cbn [fst] in Hkeep.
  destruct Hkeep as (Hwf1 & Hst1 & Hids1). cbn [negb]. destruct synced; cbn [negb].
  2: { eexists c1, [], _. split; [done|]. rewrite Hst1. split_and!; [done|done|lia..]. }
  assert (refill_ready c1 np launch) as Hready1.
  { destruct Hready. split; try done; rewrite ?Hst1; try done.
    - intros k. rewrite Hst1. apply rr_sane0.
    - intros i. unfold creates_new. rewrite Hids1. apply rr_creates0. }
  assert (missing_replicas c np = missing_replicas c1 np) as -> by (unfold missing_replicas; by rewrite Hst1).
  rewrite <-Hst1. clear dependent c. rename c1 into c.
  destruct (GetNodeCount (nodePoolState c) (pool_key np)) as [[running deleting] pending] eqn:Ec.
  destruct (missing_bounds c np (rr_replicas _ _ _ Hready1) (rr_counts _ _ _ Hready1) (proj1 (rr_sane _ _ _ Hready1 _)) _ _ _ Ec) as (? & ? & Hw & Hm).
  rewrite Hw. destruct (Z.geb_spec (running + pending) (default 0 (np_Replicas np))) as [Hge|Hlt].
  { eexists c, [], _. split; [done|]. split_and!; [done|done|lia..]. }
  pose proof (refill_cases now order c np launch Hord Hready1 Hsome) as Hrc. cbn zeta in Hrc.
  destruct (ReserveNodeCount _ _ _ _) as [state count] eqn:E. destruct (Z.leb_spec count 0) as [Hle|Hpos].
  - apply reserve_grants in E as (Hg & Hres & _ & _ & Htot & Hoth);
      [|lia|apply Hready1|apply (rr_sane _ _ _ Hready1)|apply Hready1].
    eexists _, [], _. split; [done|]. cbn [nodePoolState set_nodePoolState]. rewrite Htot, Hres. split_and!; [done| |lia..].
    intros k. destruct (decide (k = pool_key np)) as [->|]; [lia|by apply Hoth].
  - destruct (Hrc ltac:(lia) Hpos) as (c' & names & errs & Hc & Hwf' & Hr & Ht & Hl). rewrite (rr_template _ _ _ Hready1). cbn [mbind option_bind].
    rewrite Hc. cbn [mbind option_bind]. eexists c', errs, _. split; [done|]. split_and!; [done..|lia|lia].
Qed.

(** The nodes that are being replaced count when the controller decides whether replicas are
    missing, but not when it decides how many: without a limit, active nodes, nodes under
    replacement and new ones exceed the replicas by those under replacement. *)
Theorem overprovisions_while_disrupting c np running deleting pending : reservations_sane c → np_Limits np !! ResourceNodes = None →
  0 ≤ default 0 (np_Replicas np) ≤ int64_max → GetNodeCount (nodePoolState c) (pool_key np) = (running, deleting, pending) →
  node_total (nodePoolState c) (pool_key np) + reserved (nodePoolState c) (pool_key np) + default 0 (np_Replicas np) ≤ int64_max →
  running + pending < default 0 (np_Replicas np) →
  running + pending + (ReserveNodeCount (nodePoolState c) (pool_key np) (node_limit quantity_Value np) (missing_replicas c np)).2
    = default 0 (np_Replicas np) + pending.
Proof.
  intros Hs Hlim Hd Hc Ht Hlt. pose proof (Hs (pool_key np)) as Hr0.
  destruct (missing_bounds c np Hd ltac:(lia) (proj1 (Hs _)) _ _ _ Hc) as (? & ? & _ & Hm).
  unfold node_limit. rewrite Hlim. destruct (ReserveNodeCount _ _ _ _) as [state count] eqn:E. cbn [snd].
  apply reserve_grants in E as (Hg & Hres & _ & Hless & Htot & _); [|unfold int64_max in *; lia..].
  rewrite Hres, Htot in Hless. lia.
Qed.
End provisioning_properties.

(** ** Properties of deprovisioning *)

Section deprovisioning_properties.
  Context `{TA : TaintApi}.
  Context (GetSupportedNodeClasses : list (string * string)) (PodDeletionCostManagement : bool) (ParseDuration : string → option Z).
  Context (claims : result api_error (list Claim)) (serve : action → option api_error) (api : NodeApi).

Abbreviation candidates_of := (getDeprovisioningCandidates GetSupportedNodeClasses PodDeletionCostManagement ParseDuration claims api).
Abbreviation before now := (deprovisioned_before PodDeletionCostManagement now).

Definition active_count (c : Cluster) (pool : string) : Z := (GetNodeCount (nodePoolState c) pool).1.1.

Lemma mark_deleting_active n pool nc :
  (GetNodeCount n pool).1.1 - 1 ≤ (GetNodeCount (MarkNodeClaimDeleting n pool nc) pool).1.1.
Proof.
  unfold GetNodeCount, nodeCounts, MarkNodeClaimDeleting, mark_claim, ensureNodePoolEntry. cbn [nodePoolNameToNodeClaimState].
  destruct (nodePoolNameToNodeClaimState n !! pool) as [st|] eqn:E.
  - rewrite lookup_alter_eq, E. cbn. destruct (decide (nc ∈ ncs_Active st)) as [Hin|Hn].
    + rewrite size_difference by set_solver. rewrite size_singleton. lia.
    + replace (ncs_Active st ∖ {[nc]}) with (ncs_Active st) by set_solver. lia.
  - rewrite lookup_alter_eq, lookup_insert_eq. cbn. lia.
Qed.

Lemma deprovision_active pool l : ∀ st, active_count st.1 pool - Z.of_nat (length l) ≤ active_count (foldl (deprovision serve pool) st l).1 pool.
Proof.
  induction l as [|nc l IH]; intros st; cbn [foldl length]; [lia|]. specialize (IH (deprovision serve pool st nc)).
  assert (active_count st.1 pool - 1 ≤ active_count (deprovision serve pool st nc).1 pool); [|lia].
  unfold deprovision. destruct (ignore_not_found _); cbn [fst]; [lia|]. apply mark_deleting_active.
Qed.

Lemma resolved_length now nodes count :
  (length (resolvedDeprovisioningCandidates PodDeletionCostManagement ParseDuration api now nodes count) ≤ count)%nat.
Proof. unfold resolvedDeprovisioningCandidates. rewrite length_app, !length_fmap, !length_take. lia. Qed.

Lemma candidates_length now c pool count l : candidates_of now c pool count = Some l → (length l ≤ count)%nat.
Proof.
  unfold getDeprovisioningCandidates. set (u := unresolvedDeprovisioningCandidates _ _ _ _).
  assert (length u ≤ count)%nat as Hu.
  { unfold u, unresolvedDeprovisioningCandidates. destruct claims; [|cbn; lia]. rewrite length_take. lia. }
  destruct (_ =? 0)%nat; [by intros [= <-]|]. intros (nodes & _ & [= <-])%bind_Some. rewrite length_app.
  pose proof (resolved_length now (omap id nodes) (count - length u)). lia.
Qed.

(** Scaling down never goes below the replicas: it asks to delete at most as many claims as
    there are active ones beyond them. *)
Theorem scale_down_keeps_replicas now c np c' ws res failed : 0 ≤ default 0 (np_Replicas np) ≤ int64_max →
  active_count c (np_Name (np_template np)) ≤ int64_max →
  StaticDeprovisioning_Reconcile GetSupportedNodeClasses PodDeletionCostManagement ParseDuration claims serve api now c np = Some (c', (ws, res, failed)) →
  Z.of_nat (length ws) ≤ Z.max 0 (active_count c (np_Name (np_template np)) - default 0 (np_Replicas np)) ∧
  Z.min (default 0 (np_Replicas np)) (active_count c (np_Name (np_template np))) ≤ active_count c' (np_Name (np_template np)).
Proof.
  unfold StaticDeprovisioning_Reconcile. intros Hd Hmax. destruct (_ || bool_decide (is_Some _)); [intros [= <- <- _ _]; cbn [length]; lia|].
  destruct (GetNodeCount (nodePoolState c) _) as [[running deleting] pending] eqn:Ec.
  assert (active_count c (np_Name (np_template np)) = running) as Ea by (unfold active_count; by rewrite Ec). rewrite Ea in *.
  assert (0 ≤ running). { unfold GetNodeCount, nodeCounts in Ec. destruct (_ !! _); injection Ec as <- _ _; lia. }
  rewrite wrap64_id by (unfold in_int64, int64_min, int64_max in *; lia).
  destruct (Z.leb_spec (running - default 0 (np_Replicas np)) 0) as [Hle|Hgt]; [intros [= <- <- _ _]; rewrite ?Ea; cbn [length]; lia|].
  intros (l & Hl%candidates_length & Hf)%bind_Some. pose proof (deprovision_active (np_Name (np_template np)) l (c, false)) as Ha.
  destruct (foldl _ (c, false) l) as [c1 failed1]. cbn [fst] in Ha. rewrite Ea in Ha. injection Hf as <- <- _ _. rewrite length_fmap. lia.
Qed.

Lemma compare_less_asym x y : compare_less x y = true → compare_less y x = false.
Proof. unfold compare_less. destruct x, y; repeat case_bool_decide; cbn; try done. lia. Qed.

Lemma compare_less_trans x y z : compare_less y x = false → compare_less z y = false → compare_less z x = false.
Proof. unfold compare_less. destruct x, y, z; repeat case_bool_decide; cbn; try done. lia. Qed.

Lemma before_asym now i j : before now i j = true → before now j i = false.
Proof.
  unfold deprovisioned_before. destruct (ne_hasDoNotDisrupt i), (ne_hasDoNotDisrupt j); cbn; try done; apply compare_less_asym.
Qed.

Lemma before_trans now i j k : not_after (before now) i j → not_after (before now) j k → not_after (before now) i k.
Proof.
  unfold not_after, deprovisioned_before. destruct (ne_hasDoNotDisrupt i), (ne_hasDoNotDisrupt j), (ne_hasDoNotDisrupt k); cbn; try done; apply compare_less_trans.
Qed.

Lemma strongly_sorted_app {A} (R : A → A → Prop) l1 l2 x y : StronglySorted R (l1 ++ l2) → x ∈ l1 → y ∈ l2 → R x y.
Proof.
  induction l1 as [|z l1 IH]; cbn; intros Hs Hx Hy; [by apply elem_of_nil in Hx|]. apply StronglySorted_inv in Hs as [Hs Hall].
  apply elem_of_cons in Hx as [->|Hx]; [|by apply IH]. rewrite Forall_forall in Hall. apply Hall, elem_of_app. by right.
Qed.

(** Which claims with an instance are chosen: empty nodes first, others only when every
    empty one is chosen; among those, a node with pods that must not be disrupted only when
    all that are left have such pods, and otherwise by cost. *)
Theorem deprovisioning_order now nodes count :
  ∃ chosen left, resolvedDeprovisioningCandidates PodDeletionCostManagement ParseDuration api now nodes count =
      (take count (filter (λ n, empty_node ParseDuration api now n.1 = true) nodes)).*2 ++ (ne_claim <$> chosen) ∧
    chosen ++ left ≡ₚ omap (nonempty_node ParseDuration api now) nodes ∧
    (chosen ≠ [] → length (filter (λ n, empty_node ParseDuration api now n.1 = true) nodes) < count)%nat ∧
    (∀ i j, i ∈ chosen → j ∈ left → ne_hasDoNotDisrupt i = true → ne_hasDoNotDisrupt j = true) ∧
    (∀ i j, i ∈ chosen → j ∈ left → ne_hasDoNotDisrupt i = ne_hasDoNotDisrupt j →
       compare_less (deprovisioning_cost PodDeletionCostManagement now j) (deprovisioning_cost PodDeletionCostManagement now i) = false).
Proof.
  unfold resolvedDeprovisioningCandidates. set (empties := filter _ nodes). set (sorted := sort_by _ _). rewrite length_fmap, length_take.
  set (n := (count - _)%nat). exists (take n sorted), (drop n sorted). split; [done|].
  assert (∀ i j, i ∈ take n sorted → j ∈ drop n sorted → not_after (before now) i j) as Hs.
  { intros i j Hi Hj. apply (strongly_sorted_app _ (take n sorted) (drop n sorted)); [|done..]. rewrite take_drop. apply sort_by_StronglySorted; [apply before_asym|apply before_trans]. }
  split_and!.
  - rewrite take_drop. apply sort_by_Permutation.
  - unfold n. intros Hne. destruct (decide (length empties < count)%nat) as [|Hge]; [done|]. destruct Hne. by replace (count - count `min` length empties)%nat with 0%nat by lia.
  - intros i j Hi Hj Ht. specialize (Hs i j Hi Hj). unfold not_after, deprovisioned_before in Hs. rewrite Ht in Hs. by destruct (ne_hasDoNotDisrupt j).
  - intros i j Hi Hj Ht. specialize (Hs i j Hi Hj). unfold not_after, deprovisioned_before in Hs. by rewrite Ht, eqb_reflx in Hs.
Qed.
End deprovisioning_properties.
