(* ===== verification/Devices.v ===== *)
(** * Devices: devices, slices and pools for dynamic resources
    (pkg/scheduling/dynamicresources/types.go and pool.go, and the types of
    pkg/cloudprovider/dynamicresources.go)

    Slices that are published in the cluster and templates of slices that a node would
    publish are two types here; the code tells them apart with [Potential] and panics when
    a template reaches the pools.  A quantity is a number of nano-units.  The terms of a
    node selector are kept as the requirements that [NewNodeSelectorRequirements] makes of
    them. *)

From S2P Require Import Prelude Labels Requirement Objects Requirements Resources.

#[local] Open Scope Z_scope.

(** ** Devices *)

Record CapacityRange := mkCapacityRange { vr_Min : option Z; vr_Max : option Z; vr_Step : option Z }.

(** [rp_ValidValues] is [None] for a nil slice. *)
Record CapacityRequestPolicy := mkCapacityRequestPolicy {
  rp_Default : option Z;
  rp_ValidValues : option (list Z);
  rp_ValidRange : option CapacityRange;
}.

Record DeviceCapacity := mkDeviceCapacity { dc_Value : Z; dc_RequestPolicy : option CapacityRequestPolicy }.

Record DeviceAttribute := mkDeviceAttribute {
  StringValue : option string;
  IntValue : option Z;
  BoolValue : option bool;
  VersionValue : option string;
}.

(** Counter sets by name, then counters by name. *)
Abbreviation CounterSets := (gmap string (gmap string Z)).

Record Device := mkDevice {
  d_Name : string;
  d_Attributes : gmap string DeviceAttribute;
  d_Capacity : gmap string DeviceCapacity;
  d_AllowMultipleAllocations : bool;
  d_ConsumesCounters : list (string * gmap string Z);
}.

Abbreviation PoolKey := (string * string)%type.

(** Driver, pool and device, and whether it comes from a template. *)
Abbreviation cpDeviceID := (string * string * string)%type.
Abbreviation DeviceID := (string * string * string * bool)%type.
Definition id_Driver (id : DeviceID) : string := id.1.1.1.
Definition id_Pool (id : DeviceID) : string := id.1.1.2.
Definition id_Template (id : DeviceID) : bool := id.2.
Definition id_PoolKey (id : DeviceID) : PoolKey := id.1.1.

Record DeviceWithID := mkDeviceWithID {
  dw_Device : Device;
  dw_ID : DeviceID;
  dw_TopologyRequirements : option Requirements;
}.

(** ** Slices *)

(** A published slice.  [cs_SharedCounters] is [None] for a nil slice of counter sets. *)
Record ClusterSlice := mkClusterSlice {
  cs_Driver : string;
  cs_Pool : string;
  cs_Devices : list Device;
  cs_NodeName : string;
  cs_NodeSelector : option (list Requirements);
  cs_AllNodes : bool;
  cs_Generation : Z;
  cs_ResourceSliceCount : Z;
  cs_SharedCounters : option (list (string * gmap string Z));
}.

(** A template, with the requirements of the set it belongs to. *)
Record TemplateSlice := mkTemplateSlice {
  ts_Driver : string;
  ts_Pool : string;
  ts_Devices : list Device;
  ts_SharedCounters : list (string * gmap string Z);
  ts_Requirements : Requirements;
}.

Definition cs_key (s : ClusterSlice) : PoolKey := (cs_Driver s, cs_Pool s).
Definition ts_key (s : TemplateSlice) : PoolKey := (ts_Driver s, ts_Pool s).

Section pools.
  Context `{LR : LabelRegistry}.

(** The labels a NodeClaim that has not launched may leave undefined. *)
Definition compatibilityOptions (superposed : bool) : gset string := if superposed then WellKnownLabels else ∅.

Definition copyRequirements (reqs : Requirements) : Requirements := Add (NewRequirements []) (Values reqs).

(** The terms of a selector as the API server has them; [None] is the panic of an operator
    that misses its value. *)
Definition parseNodeSelector (terms : list (list CoreNodeSelectorRequirement)) : option (list Requirements) :=
  mapM NewNodeSelectorRequirements terms.

Definition termsRequirements (terms : list Requirements) : Requirements :=
  foldl (λ reqs term, Add reqs (Values term)) (NewRequirements []) terms.

Definition nodeSelectorsToRequirements (ns : option (list Requirements)) : option Requirements := termsRequirements <$> ns.

(** ** Matching slices *)

Definition nodeSelectorsMatch (terms : list Requirements) (requirements : Requirements) (superposed : bool) : bool :=
  existsb (λ termReqs, IsCompatible requirements termReqs (compatibilityOptions superposed)) terms.

Definition sliceMatchesRequirements (s : ClusterSlice) (requirements : Requirements) (nodeName : string) (superposed : bool) : bool :=
  if cs_AllNodes s then true
  else if bool_decide (is_Some (cs_SharedCounters s)) then true
  else if negb (bool_decide (cs_NodeName s = EmptyString)) then
    negb (bool_decide (nodeName = EmptyString)) && bool_decide (cs_NodeName s = nodeName)
  else match cs_NodeSelector s with
       | Some ns => nodeSelectorsMatch ns requirements superposed
       | None => false
       end.

Definition sliceTopologyRequirements (s : ClusterSlice) : option Requirements :=
  if cs_AllNodes s then None else nodeSelectorsToRequirements (cs_NodeSelector s).

(** ** Pools *)

Record Pool := mkPool {
  p_Key : PoolKey;
  p_Slices : list ClusterSlice;
  p_Devices : list DeviceWithID;
  p_NonTargetingDevices : list DeviceWithID;
  p_CounterSets : CounterSets;
  p_Incomplete : bool;
  p_Invalid : bool;
}.

Definition newDeviceWithID (key : PoolKey) (d : Device) (topoReqs : option Requirements) : DeviceWithID :=
  mkDeviceWithID d ((key, d_Name d), false) topoReqs.

Definition consumes_counters (d : Device) : bool := negb (bool_decide (d_ConsumesCounters d = [])).

(** The devices of a slice, as candidates or only as consumers of counters. *)
Definition slice_devices (key : PoolKey) (s : ClusterSlice) : list DeviceWithID :=
  (λ d, newDeviceWithID key d (sliceTopologyRequirements s)) <$> cs_Devices s.
Definition slice_consumers (key : PoolKey) (s : ClusterSlice) : list DeviceWithID :=
  (λ d, newDeviceWithID key d None) <$> filter (λ d, consumes_counters d = true) (cs_Devices s).

Definition filterPool (pool : Pool) (requirements : Requirements) (nodeName : string) (superposed : bool) : option Pool :=
  let matches s := sliceMatchesRequirements s requirements nodeName superposed in
  let slices := filter (λ s, matches s = true) (p_Slices pool) in
  let others := filter (λ s, matches s = false) (p_Slices pool) in
  let p := mkPool (p_Key pool) slices (slices ≫= slice_devices (p_Key pool))
             (p_NonTargetingDevices pool ++ (others ≫= slice_consumers (p_Key pool)))
             (p_CounterSets pool) (p_Incomplete pool) (p_Invalid pool) in
  if p_Invalid p then Some p
  else if bool_decide (p_Slices p = []) && bool_decide (p_Devices p = []) && bool_decide (p_NonTargetingDevices p = [])
  then None else Some p.

Definition FilterPools (pools : list Pool) (requirements : Requirements) (nodeName : string) (superposed : bool) : list Pool :=
  omap (λ pool, filterPool pool requirements nodeName superposed) pools.

(** ** Gathering *)

Record poolBuilder := mkPoolBuilder { pb_entries : list (ClusterSlice * bool); pb_generation : Z; pb_resourceSliceCount : Z }.

Definition emptyBuilder : poolBuilder := mkPoolBuilder [] 0 0.

Definition addSlice (b : poolBuilder) (s : ClusterSlice) (matched : bool) : poolBuilder :=
  let gen := cs_Generation s in
  match pb_entries b with
  | [] => mkPoolBuilder [(s, matched)] gen (cs_ResourceSliceCount s)
  | entries =>
      if gen <? pb_generation b then b
      else if gen >? pb_generation b then mkPoolBuilder [(s, matched)] gen (cs_ResourceSliceCount s)
      else mkPoolBuilder (entries ++ [(s, matched)]) (pb_generation b) (pb_resourceSliceCount b)
  end.

(** The counter sets, and whether no name is declared twice. *)
Definition getAndValidateCounterSets (slices : list ClusterSlice) : CounterSets * bool :=
  foldl (λ '(sets, valid) '(name, counters), (<[name := counters]> sets, valid && bool_decide (sets !! name = None)))
    (∅, true) (slices ≫= λ s, default [] (cs_SharedCounters s)).

Definition consumption_declared (counterSets : CounterSets) (consumption : string * gmap string Z) : bool :=
  match counterSets !! consumption.1 with
  | None => false
  | Some set => bool_decide (dom consumption.2 ⊆ dom set)
  end.

Definition validateDeviceCounterConsumption (counterSets : CounterSets) (slices : list ClusterSlice) : bool :=
  forallb (λ s, forallb (λ d, forallb (consumption_declared counterSets) (d_ConsumesCounters d)) (cs_Devices s)) slices.

Definition declares_counters (s : ClusterSlice) : bool := bool_decide (is_Some (cs_SharedCounters s)).

Definition build (b : poolBuilder) (key : PoolKey) : option Pool :=
  let incomplete := negb (Z.of_nat (length (pb_entries b)) =? pb_resourceSliceCount b) in
  let counterSetSlices := filter (λ s, declares_counters s = true) (pb_entries b).*1 in
  let slices := (filter (λ e, declares_counters e.1 = false ∧ e.2 = true) (pb_entries b)).*1 in
  let nonTargeting := (filter (λ e, declares_counters e.1 = false ∧ e.2 = false) (pb_entries b)).*1 in
  let devices := slices ≫= slice_devices key in
  let consumers := nonTargeting ≫= slice_consumers key in
  let '(counterSets, valid) := getAndValidateCounterSets counterSetSlices in
  let invalid := negb (bool_decide (NoDup (d_Name <$> (slices ≫= cs_Devices)))) || negb valid ||
                 negb (validateDeviceCounterConsumption counterSets slices) ||
                 negb (validateDeviceCounterConsumption counterSets nonTargeting) in
  if invalid then
    Some (mkPool key [] [] (consumers ++ filter (λ d, consumes_counters (dw_Device d) = true) devices) counterSets incomplete true)
  else if bool_decide (slices = []) && bool_decide (devices = []) && bool_decide (consumers = []) then None
  else Some (mkPool key slices devices consumers counterSets incomplete false).

(** [pool_order] is the order in which the map of builders is visited. *)
Definition gather_builders (inClusterSlices : list ClusterSlice) (matches : ClusterSlice → bool) : gmap PoolKey poolBuilder :=
  foldl (λ builders s, <[cs_key s := addSlice (default emptyBuilder (builders !! cs_key s)) s (matches s)]> builders) ∅ inClusterSlices.

Definition GatherPools (pool_order : gset PoolKey → list PoolKey) (inClusterSlices : list ClusterSlice) (requirements : Requirements)
    (nodeName : string) (superposed : bool) : list Pool :=
  let builders := gather_builders inClusterSlices (λ s, sliceMatchesRequirements s requirements nodeName superposed) in
  omap (λ key, b ← builders !! key; build b key) (pool_order (dom builders)).
End pools.

(** ** Properties *)

Section pool_properties.
  Context `{LR : LabelRegistry}.
  Context (pool_order : gset PoolKey → list PoolKey) (pool_order_elements : ∀ X, pool_order X ≡ₚ elements X).

Definition of_key (k : PoolKey) (slices : list ClusterSlice) : list ClusterSlice := filter (λ s, cs_key s = k) slices.

(** The slices of the newest generation. *)
Definition newest (slices : list ClusterSlice) (gen : Z) : Prop :=
  (∃ s, s ∈ slices ∧ cs_Generation s = gen) ∧ ∀ s, s ∈ slices → cs_Generation s ≤ gen.

Abbreviation build_from matches := (foldl (λ b s, addSlice b s (matches s)) emptyBuilder).

Lemma of_key_snoc k l s : of_key k (l ++ [s]) = of_key k l ++ (if decide (cs_key s = k) then [s] else []).
Proof. unfold of_key. by rewrite filter_app. Qed.

Lemma gather_builders_spec slices matches k :
  gather_builders slices matches !! k = if decide (of_key k slices = []) then None else Some (build_from matches (of_key k slices)).
Proof.
  unfold gather_builders. induction slices as [|s l IH] using rev_ind; [done|].
  rewrite foldl_app, of_key_snoc. cbn [foldl]. destruct (decide (cs_key s = k)) as [<-|Hne].
  - rewrite lookup_insert_eq, IH. destruct (decide (of_key (cs_key s) l ++ [s] = [])) as [[_ [=]]%app_eq_nil|_].
    rewrite foldl_app. cbn [foldl]. by destruct (decide (of_key _ l = [])) as [->|].
  - by rewrite lookup_insert_ne, IH, app_nil_r.
Qed.

Definition builder_ok (matches : ClusterSlice → bool) (l : list ClusterSlice) (b : poolBuilder) : Prop :=
  newest l (pb_generation b) ∧ pb_entries b = (λ s, (s, matches s)) <$> filter (λ s, cs_Generation s = pb_generation b) l.

Lemma build_from_spec matches l : l ≠ [] → builder_ok matches l (build_from matches l) ∧ pb_entries (build_from matches l) ≠ [].
Proof.
  induction l as [|s l IH] using rev_ind; [done|]. intros _. rewrite foldl_app. cbn [foldl].
  destruct (decide (l = [])) as [->|Hne].
  { cbn. unfold builder_ok, newest. cbn. rewrite decide_True by done. split; [|done]. split; [|done]. split; [set_solver|]. intros s'. set_solver. }
  specialize (IH Hne) as [[[(s0 & Hs0 & Hg0) Hmax] Hent] Hnil]. set (b := foldl _ _ l) in *. unfold addSlice.
  destruct (pb_entries b) as [|e es] eqn:Eb; [done|]. unfold builder_ok.
  destruct (Z.ltb_spec (cs_Generation s) (pb_generation b)) as [Hlt|Hge].
  { rewrite filter_app. cbn. rewrite decide_False, app_nil_r, Eb by lia. split; [|done]. split; [|done]. split; [set_solver|]. intros s' [?| ->%list_elem_of_singleton]%elem_of_app; [by apply Hmax|lia]. }
  destruct (Z.gtb_spec (cs_Generation s) (pb_generation b)) as [Hgt|Hle]; cbn [pb_generation pb_entries]; rewrite filter_app.
  - cbn. rewrite decide_True by done. split; [|done]. split; [split; [set_solver|]|].
    + intros s' [?| ->%list_elem_of_singleton]%elem_of_app; [|done]. transitivity (pb_generation b); [by apply Hmax|lia].
    + rewrite list_filter_none; [done|]. intros s' Hs' Hg. specialize (Hmax s' Hs'). lia.
  - cbn. rewrite decide_True, fmap_app by lia. split; [|done]. split; [split; [set_solver|]|].
    + intros s' [?| ->%list_elem_of_singleton]%elem_of_app; [by apply Hmax|lia].
    + by rewrite <-Hent.
Qed.

Lemma gathered pool slices reqs nodeName superposed : pool ∈ GatherPools pool_order slices reqs nodeName superposed →
  let matches s := sliceMatchesRequirements s reqs nodeName superposed in
  ∃ b, builder_ok matches (of_key (p_Key pool) slices) b ∧ build b (p_Key pool) = Some pool.
Proof.
  unfold GatherPools. intros (k & Hk & (b & Hb & Hbuild)%bind_Some)%list_elem_of_omap. cbn zeta.
  assert (p_Key pool = k) as Ekey. { unfold build in Hbuild. repeat (case_match; simplify_eq; try done). }
  rewrite Ekey. exists b. split; [|done]. rewrite gather_builders_spec in Hb. destruct (decide _) as [|Hne]; [done|].
  injection Hb as <-. by apply build_from_spec.
Qed.

(** The candidates of a valid pool are the devices of the slices of its newest generation
    that match the requirements and declare no counters, each under one id; an invalid
    pool offers none. *)
Theorem gathered_devices pool slices reqs nodeName superposed d : pool ∈ GatherPools pool_order slices reqs nodeName superposed →
  d ∈ p_Devices pool ↔ p_Invalid pool = false ∧
    ∃ s device gen, s ∈ slices ∧ cs_key s = p_Key pool ∧ newest (of_key (p_Key pool) slices) gen ∧ cs_Generation s = gen ∧
      sliceMatchesRequirements s reqs nodeName superposed = true ∧ cs_SharedCounters s = None ∧
      device ∈ cs_Devices s ∧ d = newDeviceWithID (p_Key pool) device (sliceTopologyRequirements s).
Proof.
  intros (b & [[Hex Hmax] Hent] & Hbuild)%gathered.
  assert (∀ gen, newest (of_key (p_Key pool) slices) gen → gen = pb_generation b) as Huniq.
  { intros gen [(s & Hs & <-) Hm]. destruct Hex as (s0 & Hs0 & Hg0). specialize (Hmax s Hs). specialize (Hm s0 Hs0). lia. }
  unfold build in Hbuild. set (chosen := filter (λ e, declares_counters e.1 = false ∧ e.2 = true) (pb_entries b)) in *.
  assert (∀ s, s ∈ chosen.*1 ↔ (s ∈ slices ∧ cs_key s = p_Key pool) ∧ cs_Generation s = pb_generation b ∧
    sliceMatchesRequirements s reqs nodeName superposed = true ∧ cs_SharedCounters s = None) as Hchosen.
  { intros s. unfold chosen. rewrite list_elem_of_fmap. setoid_rewrite list_elem_of_filter. rewrite Hent. setoid_rewrite list_elem_of_fmap.
    setoid_rewrite list_elem_of_filter. unfold of_key. setoid_rewrite list_elem_of_filter. unfold declares_counters. setoid_rewrite bool_decide_eq_false.
    setoid_rewrite <-eq_None_not_Some. split; [intros ([s' m] & -> & [? ?] & s'' & [= -> ->] & ? & ? & ?); cbn in *; naive_solver|].
    intros ([? ?] & ? & ? & ?). exists (s, sliceMatchesRequirements s reqs nodeName superposed). naive_solver. }
  destruct (getAndValidateCounterSets _) as [counterSets valid].
  destruct (_ || negb (validateDeviceCounterConsumption _ _)) eqn:Einv.
  { injection Hbuild as <-. cbn. split; [by intros ?%elem_of_nil|by intros [? _]]. }
  destruct (_ && bool_decide (_ ≫= slice_consumers _ = [])); [done|]. injection Hbuild as Hpool.
  pose proof (f_equal p_Devices Hpool) as Hds. pose proof (f_equal p_Invalid Hpool) as Hi. cbn [p_Devices p_Invalid] in Hds, Hi.
  rewrite <-Hds, <-Hi, list_elem_of_bind. split.
  - intros (s & (device & -> & Hdev)%list_elem_of_fmap & Hs%Hchosen). split; [done|].
    destruct Hs as ([? ?] & ? & ? & ?). exists s, device, (pb_generation b). split_and!; try done.
  - intros (_ & s & device & gen & Hs & Hk & Hn & Hg & Hm & Hc & Hd & ->). exists s. split.
    + apply list_elem_of_fmap. eauto.
    + apply Hchosen. apply Huniq in Hn as ->. done.
Qed.

(** ** Ids *)

Lemma slice_devices_ids key l : dw_ID <$> (l ≫= slice_devices key) = (λ n, ((key, n), false)) <$> (d_Name <$> (l ≫= cs_Devices)).
Proof.
  induction l as [|s l IH]; [done|]. rewrite !bind_cons, !fmap_app, IH. f_equal. unfold slice_devices. by rewrite <-!list_fmap_compose.
Qed.

Lemma build_ids b key pool : build b key = Some pool → NoDup (dw_ID <$> p_Devices pool) ∧ ∀ d, d ∈ p_Devices pool → dw_ID d = ((key, d_Name (dw_Device d)), false).
Proof.
  unfold build. destruct (getAndValidateCounterSets _) as [counterSets valid]. set (slices := (filter (λ e, declares_counters e.1 = false ∧ e.2 = true) _).*1).
  destruct (_ || negb (validateDeviceCounterConsumption _ _)) eqn:Einv.
  { intros [= <-]. cbn. split; [constructor|by intros d ?%elem_of_nil]. }
  destruct (_ && bool_decide (_ ≫= slice_consumers _ = [])); [done|]. intros [= <-]. cbn [p_Devices]. split.
  - rewrite slice_devices_ids. apply NoDup_fmap; [intros ? ? [= ->]; done|].
    apply orb_false_iff in Einv as [[[Einv _]%orb_false_iff _]%orb_false_iff _]. by apply negb_false_iff, bool_decide_eq_true in Einv.
  - intros d (s & (device & -> & _)%list_elem_of_fmap & _)%list_elem_of_bind. done.
Qed.

Lemma build_key b key pool : build b key = Some pool → p_Key pool = key.
Proof. unfold build. intros H. repeat (case_match; simplify_eq; try done). Qed.

Lemma list_omap_cons {A B} (f : A → option B) x l : omap f (x :: l) = match f x with Some y => y :: omap f l | None => omap f l end.
Proof. done. Qed.

(** No two candidates share an id. *)
Theorem gathered_ids_distinct slices reqs nodeName superposed : NoDup (dw_ID <$> (GatherPools pool_order slices reqs nodeName superposed ≫= p_Devices)).
Proof.
  unfold GatherPools. set (builders := gather_builders _ _). 
  assert (NoDup (pool_order (dom builders))) as Hnd by (rewrite pool_order_elements; apply NoDup_elements).
  induction Hnd as [|key keys Hin Hnd IH]; [constructor|]. rewrite list_omap_cons. destruct (builders !! key ≫= _) as [pool|] eqn:E; [|exact IH].
  rewrite bind_cons, fmap_app. apply bind_Some in E as (b & _ & Hb). destruct (build_ids _ _ _ Hb) as [Hn Hid]. apply NoDup_app. split; [done|]. split; [|exact IH].
  intros id (d & -> & Hd)%list_elem_of_fmap (d' & Heq & (p' & Hd' & (k' & Hk' & (b' & _ & Hb')%bind_Some)%list_elem_of_omap)%list_elem_of_bind)%list_elem_of_fmap.
  destruct (build_ids _ _ _ Hb') as [_ Hid']. rewrite (Hid _ Hd), (Hid' _ Hd') in Heq. injection Heq as -> _. done.
Qed.

Lemma sublist_bind {A B} (f : A → list B) l l' : l `sublist_of` l' → (l ≫= f) `sublist_of` (l' ≫= f).
Proof.
  induction 1; cbn; [done|by apply sublist_app|]. by apply sublist_inserts_l.
Qed.

(** ** Narrowing *)

Lemma build_valid b key pool : build b key = Some pool → p_Invalid pool = false →
  let slices := (filter (λ e, declares_counters e.1 = false ∧ e.2 = true) (pb_entries b)).*1 in
  p_Slices pool = slices ∧ p_Devices pool = slices ≫= slice_devices key.
Proof.
  unfold build. destruct (getAndValidateCounterSets _) as [counterSets valid]. cbn zeta. destruct (_ || negb (validateDeviceCounterConsumption _ _)); [by intros [= <-]|].
  destruct (_ && bool_decide (_ ≫= slice_consumers _ = [])); [done|]. by intros [= <-].
Qed.

Lemma chosen_slices (matches : ClusterSlice → bool) (l : list ClusterSlice) :
  (filter (λ e, declares_counters e.1 = false ∧ e.2 = true) ((λ s, (s, matches s)) <$> l)).*1 =
  filter (λ s, matches s = true) (filter (λ s, declares_counters s = false) l).
Proof.
  induction l as [|s l IH]; [done|]. rewrite fmap_cons, !filter_cons. cbn [fst snd].
  destruct (declares_counters s) eqn:E; rewrite ?(decide_False (P := true = false)) by done.
  - rewrite decide_False by naive_solver. exact IH.
  - rewrite (decide_True (P := false = false)), filter_cons by done. destruct (matches s) eqn:Em.
    + rewrite !decide_True by done. cbn. by f_equal.
    + rewrite !decide_False by naive_solver. exact IH.
Qed.

Lemma filter_implied {A} (f g : A → bool) (l : list A) : (∀ x, x ∈ l → g x = true → f x = true) →
  filter (λ x, g x = true) (filter (λ x, f x = true) l) = filter (λ x, g x = true) l.
Proof.
  induction l as [|x l IH]; intros H; [done|]. assert (∀ y, y ∈ l → g y = true → f y = true) as H' by (intros; apply H; [by right|done]).
  specialize (H x (list_elem_of_here _ _)). rewrite !filter_cons. destruct (decide (f x = true)) as [Ef|Ef], (decide (g x = true)) as [Eg|Eg].
  - rewrite filter_cons_True by done. by rewrite IH.
  - rewrite filter_cons_False by done. by apply IH.
  - by destruct Ef; apply H.
  - by apply IH.
Qed.

(** Narrowing the pools of an earlier search instead of gathering them again gives the same
    candidates, when what matches the new requirements matched the old ones. *)
Theorem cached_pools_agree slices r1 r2 nodeName superposed pool1 pool2 pool' :
  pool1 ∈ GatherPools pool_order slices r1 nodeName superposed → p_Invalid pool1 = false →
  (∀ s, s ∈ slices → sliceMatchesRequirements s r2 nodeName superposed = true → sliceMatchesRequirements s r1 nodeName superposed = true) →
  filterPool pool1 r2 nodeName superposed = Some pool' →
  pool2 ∈ GatherPools pool_order slices r2 nodeName superposed → p_Key pool2 = p_Key pool1 → p_Invalid pool2 = false →
  p_Slices pool' = p_Slices pool2 ∧ p_Devices pool' = p_Devices pool2.
Proof.
  intros (b1 & [Hn1 He1] & Hb1)%gathered Hv1 Hnarrow Hf (b2 & [Hn2 He2] & Hb2)%gathered Hkey Hv2. rewrite Hkey in *.
  assert (pb_generation b2 = pb_generation b1) as Hg.
  { destruct Hn1 as [(s1 & Hs1 & Hg1) Hm1], Hn2 as [(s2 & Hs2 & Hg2) Hm2]. specialize (Hm1 _ Hs2). specialize (Hm2 _ Hs1). lia. }
  destruct (build_valid _ _ _ Hb1 Hv1) as [Hs1 Hd1]. destruct (build_valid _ _ _ Hb2 Hv2) as [Hs2 Hd2]. cbn zeta in *.
  rewrite He1, chosen_slices in Hs1, Hd1. rewrite He2, Hg, chosen_slices in Hs2, Hd2.
  set (l := filter (λ s, declares_counters s = false) _) in *.
  assert (filter (λ s, sliceMatchesRequirements s r2 nodeName superposed = true) (p_Slices pool1) = p_Slices pool2) as Hsl.
  { rewrite Hs1, Hs2. apply filter_implied. intros s Hs Hm. apply Hnarrow; [|done]. unfold l, of_key in Hs. by do 3 (apply list_elem_of_filter in Hs as [_ Hs]). }
  unfold filterPool in Hf. rewrite Hsl in Hf.
  assert (p_Slices pool' = p_Slices pool2 ∧ p_Devices pool' = p_Slices pool2 ≫= slice_devices (p_Key pool1)) as [-> ->].
  { revert Hf. case_match; [by intros [= <-]|]. case_match; [done|by intros [= <-]]. }
  by rewrite Hd2, Hs2.
Qed.
End pool_properties.
