(* ===== verification/DeviceConstraints.v ===== *)
(** * DeviceConstraints: attributes that devices of a claim must share
    (pkg/scheduling/dynamicresources/constraint.go and attributebindings.go, and the
    dynamic resources of an instance type in pkg/cloudprovider/types.go)

    A constraint is pinned by the first device and checks those that follow; the search
    undoes an [Add] with [Remove].  Attributes that are known only at run time are matched
    with the bindings that the cloud provider declares, closed under transitivity. *)

From S2P Require Import Prelude Labels Requirement Objects Requirements Resources InstanceTypes Devices.

#[local] Open Scope Z_scope.

(** ** Attributes *)

Definition LookupAttribute (device : Device) (id : DeviceID) (attributeName : string) : option DeviceAttribute :=
  match d_Attributes device !! attributeName with
  | Some attr => Some attr
  | None =>
      let '(domain, name, found) := CutSlash attributeName in
      if found && bool_decide (domain = id_Driver id) then d_Attributes device !! name else None
  end.

Definition AttributeValuesEqual (a b : option DeviceAttribute) : bool :=
  match a, b with
  | Some a, Some b =>
      match StringValue a, StringValue b, IntValue a, IntValue b, BoolValue a, BoolValue b, VersionValue a, VersionValue b with
      | Some x, Some y, _, _, _, _, _, _ => bool_decide (x = y)
      | _, _, Some x, Some y, _, _, _, _ => bool_decide (x = y)
      | _, _, _, _, Some x, Some y, _, _ => bool_decide (x = y)
      | _, _, _, _, _, _, Some x, Some y => bool_decide (x = y)
      | _, _, _, _, _, _, _, _ => false
      end
  | _, _ => false
  end.

(** ** Attribute bindings *)

(** Who is bound to a device. *)
Abbreviation BindingGraph := (gmap cpDeviceID (gset cpDeviceID)).

(** By attribute, NodePool and instance type. *)
Abbreviation AttributeBindings := (gmap string (gmap string (gmap string BindingGraph))).

Definition binding_graph (ab : AttributeBindings) (nodePool instanceType attribute : string) : option BindingGraph :=
  attributeBindings ← ab !! attribute;
  nodePoolBindings ← attributeBindings !! nodePool;
  nodePoolBindings !! instanceType.

Definition HasBindings (ab : AttributeBindings) (nodePool instanceType attribute : string) (device : DeviceID) : bool :=
  match binding_graph ab nodePool instanceType attribute with
  | Some itBindings => bool_decide (is_Some (itBindings !! device.1))
  | None => false
  end.

Definition Bound (ab : AttributeBindings) (nodePool instanceType attribute : string) (deviceA deviceB : DeviceID) : bool :=
  match binding_graph ab nodePool instanceType attribute ≫= lookup deviceA.1 with
  | None => false
  | Some deviceBindings =>
      if bool_decide (deviceA.1 = deviceB.1) then negb (bool_decide (deviceBindings = ∅))
      else bool_decide (deviceB.1 ∈ deviceBindings)
  end.

Record AttributeBinding := mkAttributeBinding { ab_Devices : list cpDeviceID; ab_Attribute : string }.

(** Every device of a binding is bound to those at the other positions. *)
Definition bind_devices (g : BindingGraph) (devices : list cpDeviceID) : BindingGraph :=
  foldl (λ g i, match devices !! i with
                | None => g
                | Some d => <[d := default ∅ (g !! d) ∪ list_to_set (take i devices ++ drop (S i) devices)]> g
                end) g (seq 0 (length devices)).

Definition add_binding (nodePool instanceType : string) (bindings : AttributeBindings) (b : AttributeBinding) : AttributeBindings :=
  if (length (ab_Devices b) <? 2)%nat then bindings
  else
    let forAttribute := default ∅ (bindings !! ab_Attribute b) in
    let forNodePool := default ∅ (forAttribute !! nodePool) in
    let forInstanceType := default ∅ (forNodePool !! instanceType) in
    <[ab_Attribute b := <[nodePool := <[instanceType := bind_devices forInstanceType (ab_Devices b)]> forNodePool]> forAttribute]> bindings.

(** The breadth-first search from a device; each step takes one device from the queue. *)
Fixpoint bfs (fuel : nat) (g : BindingGraph) (visited : gset cpDeviceID) (queue : list cpDeviceID) : option (gset cpDeviceID) :=
  match queue with
  | [] => Some visited
  | curr :: rest =>
      match fuel with
      | O => None
      | S fuel =>
          if bool_decide (curr ∈ visited) then bfs fuel g visited rest
          else let visited := visited ∪ {[curr]} in
               bfs fuel g visited (rest ++ filter (λ n, n ∉ visited) (elements (default ∅ (g !! curr))))
      end
  end.

(** Enough steps: a device is taken from the queue for each edge that put it there. *)
Definition edge_count (g : BindingGraph) : nat := map_fold (λ _ s n, (size s + n)%nat) 0%nat g.

Definition closure_of (g : BindingGraph) (device : cpDeviceID) : gset cpDeviceID :=
  default ∅ (bfs (S (edge_count g)) g ∅ [device]) ∖ {[device]}.

Definition close (g : BindingGraph) : BindingGraph := map_imap (λ d _, Some (closure_of g d)) g.

(** The bindings of the instance types, by NodePool: the name and the bindings of each. *)
Definition BuildAttributeBindings (instanceTypesByNodePool : gmap string (list (string * list AttributeBinding))) : AttributeBindings :=
  let direct := map_fold (λ nodePool its bindings,
    foldl (λ bindings it, foldl (add_binding nodePool it.1) bindings it.2) bindings its) ∅ instanceTypesByNodePool in
  fmap (M := gmap string) (fmap (M := gmap string) (fmap (M := gmap string) close)) direct.

(** ** The dynamic resources of an instance type *)

Record ResourceSliceTemplate := mkResourceSliceTemplate {
  rt_Driver : string;
  rt_Pool : string;
  rt_Devices : list Device;
  rt_SharedCounters : list (string * gmap string Z);
}.

Record DynamicResources := mkDynamicResources { dr_Requirements : Requirements; dr_Templates : list ResourceSliceTemplate }.

Definition namespace_template (setIndex : nat) (t : ResourceSliceTemplate) : ResourceSliceTemplate :=
  mkResourceSliceTemplate (rt_Driver t) (TemplatePoolName (rt_Pool t) (Z.of_nat setIndex)) (rt_Devices t) (rt_SharedCounters t).

Definition AllDynamicResources (sets : list DynamicResources) : list DynamicResources :=
  imap (λ setIndex dr, mkDynamicResources (dr_Requirements dr) (namespace_template setIndex <$> dr_Templates dr)) sets.

(** The copies of a device, one per set that has it. *)
Definition namespaced (sets : list DynamicResources) (id : cpDeviceID) : list cpDeviceID :=
  mjoin (imap (λ setIndex dr, dr_Templates dr ≫= λ t, rt_Devices t ≫= λ d,
    if bool_decide (id = ((rt_Driver t, rt_Pool t), d_Name d))
    then [((rt_Driver t, rt_Pool (namespace_template setIndex t)), d_Name d)] else []) sets).

Definition ResolvedAttributeBindings (sets : list DynamicResources) (bindings : list AttributeBinding) : list AttributeBinding :=
  omap (λ b, if (length (remove_dups (ab_Devices b)) <? 2)%nat then None
             else Some (mkAttributeBinding (ab_Devices b ≫= λ id, match namespaced sets id with [] => [id] | ids => ids end) (ab_Attribute b))) bindings.

Section available.
  Context `{LR : LabelRegistry}.

Definition AvailableDynamicResources (offerings : list Offering) (sets : list DynamicResources) : list DynamicResources :=
  filter (λ dr, bool_decide (dr_Requirements dr = ∅) ||
                existsb (λ o, Available o && IsCompatible (dr_Requirements dr) (of_Requirements o) WellKnownLabels) offerings = true)
    (AllDynamicResources sets).

(** The templates of the sets, each with the requirements of its set. *)
Definition templateSlices (sets : list DynamicResources) : list TemplateSlice :=
  sets ≫= λ dr, (λ t, mkTemplateSlice (rt_Driver t) (rt_Pool t) (rt_Devices t) (rt_SharedCounters t) (dr_Requirements dr)) <$> dr_Templates dr.
End available.

(** ** Constraints *)

Record RequestName := mkRequestName { rn_Parent : string; rn_Sub : string }.

Definition RequestName_String (n : RequestName) : string :=
  if negb (bool_decide (rn_Sub n = EmptyString)) then rn_Parent n +:+ "/" +:+ rn_Sub n else rn_Parent n.

Record AttributeBindingFallback := mkAttributeBindingFallback { fb_Bindings : AttributeBindings; fb_NodePool : string; fb_InstanceTypeID : string }.

Record MatchAttributeConstraint := mkMatchAttributeConstraint {
  mac_RequestNames : gset string;
  mac_AttributeName : string;
  mac_AttributeValue : option DeviceAttribute;
  mac_AttributeBindingFallback : option AttributeBindingFallback;
  mac_UsedBinding : bool;
  mac_AllocatedDeviceIDs : list DeviceID;
}.

(** The three fields that change. *)
Definition pin (m : MatchAttributeConstraint) (value : option DeviceAttribute) (used : bool) (ids : list DeviceID) : MatchAttributeConstraint :=
  mkMatchAttributeConstraint (mac_RequestNames m) (mac_AttributeName m) value (mac_AttributeBindingFallback m) used ids.

Definition set_fallback (fb : option AttributeBindingFallback) (m : MatchAttributeConstraint) : MatchAttributeConstraint :=
  mkMatchAttributeConstraint (mac_RequestNames m) (mac_AttributeName m) (mac_AttributeValue m) fb (mac_UsedBinding m) (mac_AllocatedDeviceIDs m).

Definition appliesTo (m : MatchAttributeConstraint) (name : RequestName) : bool :=
  if bool_decide (mac_RequestNames m = ∅) then true
  else if bool_decide (rn_Parent name ∈ mac_RequestNames m) then true
  else if negb (bool_decide (rn_Sub name = EmptyString)) then bool_decide (RequestName_String name ∈ mac_RequestNames m)
  else false.

(** [None] when the constraint is violated. *)
Definition mac_Add (m : MatchAttributeConstraint) (name : RequestName) (device : Device) (id : DeviceID) : option MatchAttributeConstraint :=
  if negb (appliesTo m name) then Some m
  else
    let ids := mac_AllocatedDeviceIDs m in
    match LookupAttribute device id (mac_AttributeName m) with
    | Some attribute =>
        if mac_UsedBinding m then None
        else if bool_decide (ids = []) then Some (pin m (Some attribute) (mac_UsedBinding m) [id])
        else if negb (AttributeValuesEqual (mac_AttributeValue m) (Some attribute)) then None
        else Some (pin m (mac_AttributeValue m) (mac_UsedBinding m) (ids ++ [id]))
    | None =>
        if negb (bool_decide (ids = [])) && negb (mac_UsedBinding m) then None
        else match mac_AttributeBindingFallback m with
             | None => None
             | Some fb =>
                 if negb (HasBindings (fb_Bindings fb) (fb_NodePool fb) (fb_InstanceTypeID fb) (mac_AttributeName m) id) then None
                 else match ids with
                      | [] => Some (pin m (mac_AttributeValue m) true [id])
                      | first :: _ =>
                          if negb (Bound (fb_Bindings fb) (fb_NodePool fb) (fb_InstanceTypeID fb) (mac_AttributeName m) first id) then None
                          else Some (pin m (mac_AttributeValue m) (mac_UsedBinding m) (ids ++ [id]))
                      end
             end
    end.

Definition mac_Remove (m : MatchAttributeConstraint) (name : RequestName) : MatchAttributeConstraint :=
  if negb (appliesTo m name) then m
  else
    let ids := take (length (mac_AllocatedDeviceIDs m) - 1) (mac_AllocatedDeviceIDs m) in
    match ids with
    | [] => pin m None false []
    | _ => pin m (mac_AttributeValue m) (mac_UsedBinding m) ids
    end.

Definition mac_Reset (m : MatchAttributeConstraint) : MatchAttributeConstraint := pin m None false [].

(** ** The closure *)

Definition edge (g : BindingGraph) (x y : cpDeviceID) : Prop := y ∈ default ∅ (g !! x).

Lemma edge_count_delete g x s : g !! x = Some s → edge_count g = (size s + edge_count (delete x g))%nat.
Proof.
  intros H. unfold edge_count. by rewrite (map_fold_delete_L _ _ x s g) by (done || lia).
Qed.

(** The edges that may still be followed. *)
Definition pending (g : BindingGraph) (visited : gset cpDeviceID) : nat := edge_count (filter (λ kv, kv.1 ∉ visited) g).

Lemma pending_visit g visited x : x ∉ visited →
  pending g visited = (size (default ∅ (g !! x)) + pending g (visited ∪ {[x]}))%nat.
Proof.
  intros Hx. unfold pending. set (m := filter _ g).
  assert (filter (λ kv : cpDeviceID * gset cpDeviceID, kv.1 ∉ visited ∪ {[x]}) g = delete x m) as ->.
  { apply map_eq. intros y. destruct (decide (y = x)) as [->|Hne].
    - rewrite lookup_delete_eq. apply map_lookup_filter_None. right. intros s _. cbn. set_solver.
    - rewrite lookup_delete_ne by done. unfold m. apply option_eq. intros s. rewrite !map_lookup_filter_Some. cbn. set_solver. }
  destruct (g !! x) as [s|] eqn:E.
  - apply edge_count_delete. apply map_lookup_filter_Some. done.
  - cbn. rewrite delete_id; [by rewrite size_empty|]. apply map_lookup_filter_None. by left.
Qed.

Lemma bfs_terminates fuel g : ∀ visited queue, (length queue + pending g visited ≤ fuel)%nat → is_Some (bfs fuel g visited queue).
Proof.
  induction fuel as [|fuel IH]; intros visited [|curr queue] Hf; cbn in *; [done|lia|done|].
  case_bool_decide as Hc; [apply IH; lia|]. apply IH. rewrite length_app.
  rewrite (pending_visit g visited curr Hc) in Hf. pose proof (length_filter (λ n, n ∉ visited ∪ {[curr]}) (elements (default ∅ (g !! curr)))) as Hl.
  unfold size, set_size in Hf. cbn in Hf. lia.
Qed.

Lemma bfs_sound fuel g start : ∀ visited queue v, bfs fuel g visited queue = Some v →
  (∀ x, x ∈ visited ∨ x ∈ queue → rtc (edge g) start x) → ∀ x, x ∈ v → rtc (edge g) start x.
Proof.
  induction fuel as [|fuel IH]; intros visited [|curr queue] v; cbn; try done.
  1, 2: intros [= <-] H x Hx; apply H; by left.
  case_bool_decide as Hc; intros H Hr; eapply IH; try exact H; [set_solver|].
  intros x [Hx|[Hx|[Hn Hx%elem_of_elements]%list_elem_of_filter]%elem_of_app].
  - apply elem_of_union in Hx as [?| ->%elem_of_singleton]; apply Hr; set_solver.
  - apply Hr. set_solver.
  - eapply rtc_r; [apply Hr; right; by left|exact Hx].
Qed.

Lemma bfs_complete fuel g : ∀ visited queue v, bfs fuel g visited queue = Some v →
  (∀ x y, x ∈ visited → edge g x y → y ∈ visited ∨ y ∈ queue) →
  (∀ x, x ∈ visited ∨ x ∈ queue → x ∈ v) ∧ ∀ x y, x ∈ v → edge g x y → y ∈ v.
Proof.
  induction fuel as [|fuel IH]; intros visited [|curr queue] v; cbn; try done.
  1, 2: intros [= <-] H; split; [set_solver|intros x y Hx He; destruct (H _ _ Hx He); set_solver].
  case_bool_decide as Hc; intros H Hinv; apply IH in H as [Hin Hcl].
  - split; [|done]. set_solver.
  - intros x y Hx He. destruct (Hinv x y Hx He) as [?|[->|?]%elem_of_cons]; auto.
  - split; [|done]. set_solver.
  - intros x y [Hx| ->%elem_of_singleton]%elem_of_union He.
    + destruct (Hinv x y Hx He) as [?|[->|?]%elem_of_cons]; set_solver.
    + destruct (decide (y ∈ visited ∪ {[curr]})); [by left|right]. apply elem_of_app. right. apply list_elem_of_filter. split; [done|]. by apply elem_of_elements.
Qed.

(** The search ends, and a device is bound to exactly the others that a chain of declared
    bindings leads to. *)
Theorem closure_reference g d x : x ∈ closure_of g d ↔ x ≠ d ∧ rtc (edge g) d x.
Proof.
  unfold closure_of. destruct (bfs_terminates (S (edge_count g)) g ∅ [d]) as [v Hv].
  { cbn. unfold pending. rewrite map_filter_id; [done|]. intros. set_solver. }
  rewrite Hv. cbn. rewrite elem_of_difference, elem_of_singleton. split; intros [H1 H2]; split; try done.
  - eapply bfs_sound; [exact Hv| |done]. intros y [?|Hy]; [set_solver|]. apply list_elem_of_singleton in Hy as ->. constructor.
  - destruct (bfs_complete _ _ _ _ _ Hv) as [Hin Hcl]; [set_solver|]. clear H1. assert (d ∈ v) as Hd by (apply Hin; set_solver).
    clear Hin Hv. induction H2 as [|a b c Hab _ IH]; [done|]. apply IH. by eapply Hcl.
Qed.

(** ** Constraints *)

(** A constraint without devices is not pinned. *)
Definition mac_wf (m : MatchAttributeConstraint) : Prop :=
  mac_AllocatedDeviceIDs m = [] → mac_AttributeValue m = None ∧ mac_UsedBinding m = false.

Lemma mac_Add_wf m name device id m' : mac_wf m → mac_Add m name device id = Some m' → mac_wf m'.
Proof. unfold mac_Add, mac_wf. intros Hwf H. repeat (case_match; simplify_eq; try done); cbn; intros []%app_nil; done. Qed.

(** Removing the device that was added last gives the constraint back. *)
Theorem Remove_undoes_Add m name device id m' : mac_wf m → mac_Add m name device id = Some m' → mac_Remove m' name = m.
Proof.
  intros Hwf H. assert (appliesTo m' name = appliesTo m name) as Ea.
  { unfold mac_Add in H. repeat (case_match; simplify_eq; try done). }
  unfold mac_Remove. rewrite Ea. unfold mac_Add in H. destruct (appliesTo m name); cbn [negb] in *; [|by simplify_eq].
  assert (mac_AllocatedDeviceIDs m = [] ∧ mac_AllocatedDeviceIDs m' = [id] ∧ pin m' None false [] = m ∨
    mac_AllocatedDeviceIDs m ≠ [] ∧ m' = pin m (mac_AttributeValue m) (mac_UsedBinding m) (mac_AllocatedDeviceIDs m ++ [id])) as Hcases.
  { unfold mac_wf in Hwf. destruct m as [names attr value fb used ids]. cbn in *. destruct (LookupAttribute device id attr) as [a|].
    - destruct used; [done|]. destruct (bool_decide_reflect (ids = [])) as [->|Hne].
      + left. destruct (Hwf eq_refl) as [-> _]. by simplify_eq.
      + right. destruct (AttributeValuesEqual _ _); [|done]. injection H as <-. by split.
    - destruct (_ && negb used); [done|]. destruct fb as [fb|]; [|done]. destruct (HasBindings _ _ _ _ _); [|done]. cbn [negb] in H. destruct ids as [|first ids].
      + left. destruct (Hwf eq_refl) as [-> ->]. by simplify_eq.
      + right. destruct (Bound _ _ _ _ _ _); [|done]. injection H as <-. by split. }
  destruct Hcases as [(Hn & -> & Hp)|[Hne ->]]; [done|]. cbn [mac_AllocatedDeviceIDs pin]. rewrite length_app. cbn [length].
  replace (length (mac_AllocatedDeviceIDs m) + 1 - 1)%nat with (length (mac_AllocatedDeviceIDs m)) by lia. rewrite take_app_length.
  destruct m as [names attr value fb used ids]. cbn in *. by destruct ids.
Qed.

(** One device of a claim: the request it is for, the device and its id. *)
Definition pick : Type := RequestName * Device * DeviceID.

Section constraint_meaning.
  Context (names : gset string) (attr : string) (fallback : option AttributeBindingFallback).

Definition covered (x : pick) : bool := appliesTo (mkMatchAttributeConstraint names attr None fallback false []) x.1.1.
Definition attribute_of (x : pick) : option DeviceAttribute := LookupAttribute x.1.2 x.2 attr.
Definition bound_to (fb : AttributeBindingFallback) (first : DeviceID) (x : pick) : Prop :=
  HasBindings (fb_Bindings fb) (fb_NodePool fb) (fb_InstanceTypeID fb) attr x.2 = true ∧
  (x.2 = first ∨ Bound (fb_Bindings fb) (fb_NodePool fb) (fb_InstanceTypeID fb) attr first x.2 = true).

(** All devices have the value of the first, or none has the attribute and all are bound to
    the first. *)
Definition share_value (l : list pick) : Prop :=
  (∃ v, ∀ x, x ∈ l → attribute_of x = Some v ∨ AttributeValuesEqual (Some v) (attribute_of x) = true) ∨
  (∃ fb first, fallback = Some fb ∧ ∀ x, x ∈ l → attribute_of x = None ∧ bound_to fb first x).

(** The state of a constraint that the devices [l] were added to. *)
Record pinned_by (m : MatchAttributeConstraint) (l : list pick) : Prop := {
  pb_names : mac_RequestNames m = names;
  pb_attr : mac_AttributeName m = attr;
  pb_fallback : mac_AttributeBindingFallback m = fallback;
  pb_ids : mac_AllocatedDeviceIDs m = snd <$> l;
  pb_unpinned : l = [] → mac_AttributeValue m = None ∧ mac_UsedBinding m = false;
  pb_concrete : l ≠ [] → mac_UsedBinding m = false →
    ∃ v, mac_AttributeValue m = Some v ∧ ∀ x, x ∈ l → attribute_of x = Some v ∨ AttributeValuesEqual (Some v) (attribute_of x) = true;
  pb_bound : mac_UsedBinding m = true →
    ∃ fb first, fallback = Some fb ∧ head l = Some first ∧ ∀ x, x ∈ l → attribute_of x = None ∧ bound_to fb first.2 x;
}.

Lemma pinned_appliesTo m l name : pinned_by m l → appliesTo m name = covered (name, mkDevice EmptyString ∅ ∅ false [], (EmptyString, EmptyString, EmptyString, false)).
Proof. intros [Hn _ _ _ _ _ _]. unfold appliesTo, covered. cbn. unfold appliesTo. cbn. by rewrite Hn. Qed.

Lemma pinned_add m l name device id m' : pinned_by m l → mac_Add m name device id = Some m' →
  pinned_by m' (if covered (name, device, id) then l ++ [(name, device, id)] else l).
Proof.
  intros Hp H. pose proof (pinned_appliesTo m l name Hp) as Ha. unfold mac_Add in H. rewrite Ha in H. change (covered (name, device, id)) with (covered (name, mkDevice EmptyString ∅ ∅ false [], (EmptyString, EmptyString, EmptyString, false))).
  destruct (covered _); cbn [negb] in H; [|by simplify_eq]. destruct Hp as [Hn Hat Hfb Hids Hu Hc Hb]. rewrite Hat, Hfb, Hids in H.
  assert (bool_decide (l.*2 = []) = bool_decide (l = [])) as Enil by (apply bool_decide_ext; by destruct l).
  rewrite Enil in H. set (x := (name, device, id)). change (LookupAttribute device id attr) with (attribute_of x) in H. destruct (attribute_of x) as [a|] eqn:Eattr.
  - destruct (mac_UsedBinding m) eqn:Eu; [done|]. destruct (bool_decide_reflect (l = [])) as [->|Hne].
    + injection H as <-. split; cbn; try done. intros _ _. exists a. split; [done|]. intros y ->%list_elem_of_singleton. by left.
    + destruct (Hc Hne eq_refl) as (v & Hv & Hall). rewrite Hv in H. destruct (AttributeValuesEqual (Some v) (Some a)) eqn:Ev; [|done]. injection H as <-.
      split; cbn; try done; [by rewrite fmap_app|by intros []%app_nil|]. intros _ _. exists v. split; [done|].
      intros y [?| ->%list_elem_of_singleton]%elem_of_app; [by apply Hall|]. right. by rewrite Eattr.
  - destruct (negb (bool_decide (l = [])) && negb (mac_UsedBinding m)) eqn:Emix; [done|]. destruct fallback as [fb|] eqn:Ef; [|done].
    destruct (HasBindings _ _ _ _ _) eqn:Eh; [|done]. cbn [negb] in H. destruct l as [|y l].
    + cbn in H. injection H as <-. destruct (Hu eq_refl) as [-> _]. split; cbn; try done; [by rewrite Ef|]. intros _. exists fb, x. split_and!; [done..|].
      intros z ->%list_elem_of_singleton. split; [done|]. split; [done|by left].
    + rewrite fmap_cons in H. cbn [bool_decide negb andb] in Emix. rewrite bool_decide_eq_false_2 in Emix by done. cbn in Emix. apply negb_false_iff in Emix. rewrite Emix in *.
      destruct (Bound _ _ _ _ _ _) eqn:Eb; [|done]. cbn [negb] in H. injection H as <-. destruct (Hb eq_refl) as (fb' & first & [= <-] & [= <-] & Hall).
      split; cbn; try done; [by rewrite Ef|by rewrite fmap_app|]. intros _. exists fb, y. split_and!; [done..|].
      intros z [?| ->%list_elem_of_singleton]%(elem_of_app (y :: l)); [by apply Hall|]. split; [done|]. split; [done|by right].
Qed.

Lemma pinned_share m l : pinned_by m l → share_value l.
Proof.
  intros [_ _ _ _ Hu Hc Hb]. destruct l as [|x l]; [left; exists (mkDeviceAttribute None None None None); by intros y ?%elem_of_nil|].
  destruct (mac_UsedBinding m) eqn:E.
  - destruct (Hb eq_refl) as (fb & first & ? & _ & Hall). right. exists fb, first.2. eauto.
  - destruct (Hc ltac:(done) eq_refl) as (v & _ & Hall). left. eauto.
Qed.

Lemma pinned_reset m : mac_RequestNames m = names → mac_AttributeName m = attr → mac_AttributeBindingFallback m = fallback → pinned_by (mac_Reset m) [].
Proof. intros. by split. Qed.
End constraint_meaning.
