(* ===== verification/DeviceCapacity.v ===== *)
(** * DeviceCapacity: how much of a shared device a request consumes
    (pkg/scheduling/dynamicresources/consumable_capacity.go: the request policies)

    [None] is a run-time panic: a step of zero, or a step without a minimum. *)

From S2P Require Import Prelude Labels Requirement Objects Requirements Resources Devices.
From Stdlib Require Import ZArith.

#[local] Open Scope Z_scope.

(** [Quantity.Value]: whole units, rounded away from zero. *)
Definition Quantity_Value (q : Z) : Z := Z.sgn q * ((Z.abs q + (unit_quantity - 1)) / unit_quantity).
Definition NewQuantity (v : Z) : Z := v * unit_quantity.

Definition fillEmptyRequest (capacity : DeviceCapacity) : Z :=
  match dc_RequestPolicy capacity ≫= rp_Default with
  | Some d => d
  | None => dc_Value capacity
  end.

Definition roundUpRange (requestedVal min : Z) (validRange : CapacityRange) : option Z :=
  if requestedVal <? min then Some min
  else match vr_Step validRange with
       | None => Some requestedVal
       | Some stepQuantity =>
           let step := Quantity_Value stepQuantity in
           let added := wrap64 (Quantity_Value requestedVal - Quantity_Value min) in
           if step =? 0 then None
           else let n := wrap64 (added `quot` step) in
                let n := if added `rem` step =? 0 then n else wrap64 (n + 1) in
                Some (NewQuantity (wrap64 (Quantity_Value min + wrap64 (step * n))))
       end.

Definition roundUpValidValues (requestedVal : Z) (validValues : list Z) : Z :=
  match List.find (λ v, requestedVal <=? v) validValues with Some v => v | None => requestedVal end.

Definition calculateConsumedCapacity (requestedVal : option Z) (capacity : DeviceCapacity) : option Z :=
  match requestedVal with
  | None => Some (fillEmptyRequest capacity)
  | Some requested =>
      match dc_RequestPolicy capacity with
      | None => Some requested
      | Some policy =>
          match (r ← rp_ValidRange policy; m ← vr_Min r; Some (r, m)), rp_ValidValues policy with
          | Some (r, m), _ => roundUpRange requested m r
          | None, Some values => Some (roundUpValidValues requested values)
          | None, None => Some requested
          end
      end
  end.

Definition violateValidRange (val : Z) (r : CapacityRange) : option bool :=
  if (match vr_Max r with Some max => max <? val | None => false end) then Some true
  else match vr_Step r with
       | None => Some false
       | Some stepQuantity =>
           m ← vr_Min r;
           let step := Quantity_Value stepQuantity in
           if step =? 0 then None
           else Some (negb (wrap64 (Quantity_Value val - Quantity_Value m) `rem` step =? 0))
       end.

Definition violateValidValues (val : Z) (validValues : list Z) : bool := negb (bool_decide (val ∈ validValues)).

Definition violatesPolicy (consumedVal : Z) (policy : option CapacityRequestPolicy) : option bool :=
  match policy with
  | None => Some false
  | Some p =>
      if bool_decide (rp_Default p = Some consumedVal) then Some false
      else match rp_ValidRange p, rp_ValidValues p with
           | Some r, _ => violateValidRange consumedVal r
           | None, Some (v :: vs) => Some (violateValidValues consumedVal (v :: vs))
           | None, _ => Some false
           end
  end.

Definition requestsContainNonExistCapacity (capacityRequests : gmap string Z) (deviceCapacity : gmap string DeviceCapacity) : bool :=
  negb (bool_decide (dom capacityRequests ⊆ dom deviceCapacity)).

(** One dimension: [Some None] violates the policy. *)
Definition consumed_dimension (capacityRequests : gmap string Z) (name : string) (cap : DeviceCapacity) : option (option Z) :=
  c ← calculateConsumedCapacity (capacityRequests !! name) cap;
  violated ← violatesPolicy c (dc_RequestPolicy cap);
  Some (if violated : bool then None else Some c).

(** [Some None] is an error; a device without capacity consumes nothing (nil). *)
Definition computeConsumedCapacity (capacityRequests : gmap string Z) (deviceCapacity : gmap string DeviceCapacity)
    : option (option (gmap string Z)) :=
  dims ← mapM (λ '(name, cap), (λ r, (name, r)) <$> consumed_dimension capacityRequests name cap) (map_to_list deviceCapacity);
  Some (if existsb (λ d, bool_decide (d.2 = None)) dims then None
        else Some (list_to_map (omap (λ '(name, r), (λ q, (name, q)) <$> r) dims))).

(** ** Properties *)

Lemma Quantity_Value_whole n : Quantity_Value (n * unit_quantity) = n.
Proof.
  unfold Quantity_Value. assert (0 < unit_quantity) by done. rewrite Z.abs_mul, (Z.abs_eq unit_quantity) by lia.
  rewrite Z.add_comm, Z.div_add by lia. rewrite (Z.div_small (unit_quantity - 1)) by lia. rewrite Z.sgn_mul, (Z.sgn_pos unit_quantity) by lia. cbn. lia.
Qed.

Lemma Quantity_Value_mono p q : p ≤ q → Quantity_Value p ≤ Quantity_Value q.
Proof.
  unfold Quantity_Value. assert (unit_quantity = 1000000000) as -> by done. intros H.
  destruct (Z.sgn_spec p) as [[? ->]|[[? ->]|[? ->]]], (Z.sgn_spec q) as [[? ->]|[[? ->]|[? ->]]]; try lia;
    rewrite ?Z.abs_eq, ?Z.abs_neq by lia; Z.div_mod_to_equations; lia.
Qed.

(** Rounding up to a range of whole quantities gives the least value of the grid from the
    minimum that covers the request. *)
Theorem roundUpRange_least requested m step r : vr_Step r = Some (NewQuantity step) → 0 < step → 0 ≤ m → 0 ≤ requested →
  requested + step ≤ int64_max → m ≤ int64_max →
  ∃ v, roundUpRange (NewQuantity requested) (NewQuantity m) r = Some (NewQuantity v) ∧ requested ≤ v ∧ m ≤ v ∧
    (∃ n, 0 ≤ n ∧ v = m + n * step) ∧ ∀ n, 0 ≤ n → requested ≤ m + n * step → v ≤ m + n * step.
Proof.
  intros Hs Hstep Hm Hr Hmax Hmm. unfold roundUpRange. rewrite Hs. unfold NewQuantity. rewrite !Quantity_Value_whole. assert (0 < unit_quantity) by done.
  destruct (Z.ltb_spec (requested * unit_quantity) (m * unit_quantity)) as [Hlt|Hge].
  { exists m. split; [done|]. assert (requested < m) by nia. split_and!; [lia|lia|exists 0; lia|]. intros n Hn _. nia. }
  assert (m ≤ requested) by nia. rewrite (proj2 (Z.eqb_neq step 0)) by lia.
  rewrite (wrap64_id (requested - m)) by (unfold in_int64, int64_min, int64_max in *; lia).
  rewrite Z.quot_div_nonneg, Z.rem_mod_nonneg by lia. set (k := (requested - m) / step). set (d := (requested - m) mod step).
  assert (requested - m = step * k + d ∧ 0 ≤ d < step) as [Hdiv Hd]. { unfold k, d. split; [apply Z.div_mod; lia|apply Z.mod_pos_bound; lia]. }
  assert (0 ≤ k) as Hk by (unfold k; apply Z.div_pos; lia). assert (k ≤ requested) by nia.
  rewrite (wrap64_id k) by (unfold in_int64, int64_min, int64_max in *; lia).
  destruct (Z.eqb_spec d 0) as [Hz|Hnz].
  - rewrite (wrap64_id (step * k)) by (unfold in_int64, int64_min, int64_max in *; nia).
    rewrite wrap64_id by (unfold in_int64, int64_min, int64_max in *; nia).
    exists (m + step * k). split; [done|]. split_and!; [lia|nia|exists k; lia|]. intros n Hn Hcov. nia.
  - rewrite (wrap64_id (k + 1)) by (unfold in_int64, int64_min, int64_max in *; nia).
    rewrite (wrap64_id (step * (k + 1))) by (unfold in_int64, int64_min, int64_max in *; nia).
    rewrite wrap64_id by (unfold in_int64, int64_min, int64_max in *; nia).
    exists (m + step * (k + 1)). split; [done|]. split_and!; [nia|nia|exists (k + 1); lia|]. intros n Hn Hcov. assert (k < n) by nia. nia.
Qed.

(** Every dimension of the device is consumed, each as the policy of the device computes it
    from the request, and no consumption violates its policy. *)
Theorem consumed_obeys_policy reqs capacity consumed : computeConsumedCapacity reqs capacity = Some (Some consumed) →
  ∀ name, match capacity !! name with
          | None => consumed !! name = None
          | Some cap => ∃ c, consumed !! name = Some c ∧ calculateConsumedCapacity (reqs !! name) cap = Some c ∧
                             violatesPolicy c (dc_RequestPolicy cap) = Some false
          end.
Proof.
  unfold computeConsumedCapacity. intros (dims & Hdims & H)%bind_Some name. destruct (existsb _ dims) eqn:Ev; [done|]. injection H as <-.
  assert (Forall2 (λ nc d, d.1 = nc.1 ∧ consumed_dimension reqs nc.1 nc.2 = Some d.2) (map_to_list capacity) dims) as HF.
  { apply mapM_Some in Hdims. eapply Forall2_impl; [exact Hdims|]. intros [n cap] [n' r] (r' & Hr & [= <- <-])%fmap_Some. done. }
  assert (dims.*1 = (map_to_list capacity).*1) as Hkeys.
  { clear -HF. induction HF as [|x y l k [? _] _ IH]; [done|]. rewrite !fmap_cons, IH. by f_equal. }
  assert ((omap (λ '(n, r), (λ q : Z, (n, q)) <$> r) dims).*1 = dims.*1) as Hfst.
  { clear -Ev. induction dims as [|[n r] dims IH]; [done|]. cbn [existsb snd] in Ev. apply orb_false_iff in Ev as [Er Ev]. apply bool_decide_eq_false in Er.
    rewrite list_omap_cons. destruct r as [q|]; [|done]. cbn [fmap option_fmap option_map]. rewrite !fmap_cons, IH by done. done. }
  assert (NoDup (omap (λ '(n, r), (λ q : Z, (n, q)) <$> r) dims).*1) as Hnd by (rewrite Hfst, Hkeys; apply NoDup_fst_map_to_list).
  destruct (capacity !! name) as [cap|] eqn:Ec.
  - apply elem_of_map_to_list in Ec. apply list_elem_of_lookup_1 in Ec as [i Hi]. destruct (Forall2_lookup_l _ _ _ _ _ HF Hi) as ([n r] & Hd & Hn & Hr). cbn in Hn, Hr. subst n.
    destruct r as [c|].
    + exists c. split; [|unfold consumed_dimension in Hr; apply bind_Some in Hr as (c' & Hc & (v & Hv & Hr)%bind_Some); destruct v; [done|]; by injection Hr as ->].
      apply elem_of_list_to_map; [done|]. apply list_elem_of_omap. exists (name, Some c). split; [by eapply list_elem_of_lookup_2|done].
    + exfalso. apply not_true_iff_false in Ev. apply Ev, existsb_exists. exists (name, None). split; [|by apply bool_decide_eq_true_2].
      apply list_elem_of_In. by eapply list_elem_of_lookup_2.
  - apply not_elem_of_list_to_map_1. rewrite Hfst, Hkeys. intros ([n cap] & -> & Hin)%list_elem_of_fmap. apply elem_of_map_to_list in Hin. cbn in Ec. congruence.
Qed.
