(* ===== verification/DeviceTracker.v ===== *)
(** * DeviceTracker: what is allocated, per device, counter and capacity
    (pkg/scheduling/dynamicresources/allocationtracker.go, and the commits and releases of
    partitionable_devices.go and consumable_capacity.go)

    A NodeClaim that has not launched stands for all its instance types: a search allocates
    devices for each of them, and what counters and shared devices lose is the maximum over
    the instance types.  Releasing an instance type gives back what this maximum shrinks by.
    [None] is a run-time panic. *)

From S2P Require Import Prelude Labels Requirement Objects Requirements Resources Devices.

#[local] Open Scope Z_scope.

Abbreviation PoolCounters := (gmap PoolKey CounterSets).
Abbreviation DeviceQuantities := (gmap DeviceID (gmap string Z)).
Abbreviation InstanceDevices := (gmap string (gmap string (gset DeviceID))).

Record AllocationTracker := mkAllocationTracker {
  PreallocatedDevices : gset DeviceID;
  PreallocatedConsumedCapacity : DeviceQuantities;
  InflightClusterAllocations : gmap DeviceID (string * gset string);
  InflightClusterAllocationsByNodeClaim : InstanceDevices;
  InflightTemplateAllocations : InstanceDevices;
  InflightConsumedCapacity : DeviceQuantities;
  consumedCapacityByNodeClaimIT : gmap string (gmap string DeviceQuantities);
  templateConsumedCapacity : gmap string (gmap string DeviceQuantities);
  RemainingCounters : PoolCounters;
  countersByNodeClaimIT : gmap string (gmap string PoolCounters);
  templateRemainingCounters : gmap string (gmap string PoolCounters);
}.

Record AllocatedDeviceState := mkAllocatedDeviceState { ExclusiveDevices : gset cpDeviceID; ConsumedCapacity : gmap cpDeviceID (gmap string Z) }.

Definition NewAllocationTracker (s : AllocatedDeviceState) : AllocationTracker :=
  mkAllocationTracker (set_map (λ id, (id, false)) (ExclusiveDevices s)) (kmap (λ id, (id, false)) (ConsumedCapacity s))
    ∅ ∅ ∅ ∅ ∅ ∅ ∅ ∅ ∅.

(** Assignments to one field. *)
Definition set_allocations (at_ : AllocationTracker) (inflight : gmap DeviceID (string * gset string)) (byClaim templates : InstanceDevices) : AllocationTracker :=
  mkAllocationTracker (PreallocatedDevices at_) (PreallocatedConsumedCapacity at_) inflight byClaim templates (InflightConsumedCapacity at_)
    (consumedCapacityByNodeClaimIT at_) (templateConsumedCapacity at_) (RemainingCounters at_) (countersByNodeClaimIT at_) (templateRemainingCounters at_).
Definition set_capacity (at_ : AllocationTracker) (inflight : DeviceQuantities) (byClaim templates : gmap string (gmap string DeviceQuantities)) : AllocationTracker :=
  mkAllocationTracker (PreallocatedDevices at_) (PreallocatedConsumedCapacity at_) (InflightClusterAllocations at_) (InflightClusterAllocationsByNodeClaim at_)
    (InflightTemplateAllocations at_) inflight byClaim templates (RemainingCounters at_) (countersByNodeClaimIT at_) (templateRemainingCounters at_).
Definition set_counters (at_ : AllocationTracker) (remaining : PoolCounters) (byClaim templates : gmap string (gmap string PoolCounters)) : AllocationTracker :=
  mkAllocationTracker (PreallocatedDevices at_) (PreallocatedConsumedCapacity at_) (InflightClusterAllocations at_) (InflightClusterAllocationsByNodeClaim at_)
    (InflightTemplateAllocations at_) (InflightConsumedCapacity at_) (consumedCapacityByNodeClaimIT at_) (templateConsumedCapacity at_) remaining byClaim templates.

(** ** Sums, differences and maxima of maps *)

(** [dst[name] += q] and [dst[name] -= q] for the entries of [src]. *)
Definition add_qty : gmap string Z → gmap string Z → gmap string Z :=
  merge (λ d s, match s with None => d | Some q => Some (default 0 d + q) end).
Definition sub_qty : gmap string Z → gmap string Z → gmap string Z :=
  merge (λ d s, match s with None => d | Some q => Some (default 0 d - q) end).
Definition max_qty : gmap string Z → gmap string Z → gmap string Z := union_with (λ a b, Some (Z.max a b)).

(** Entry by entry; entries of only one side are kept. *)
Definition nested {K} `{Countable K} {A} (f : A → A → A) : gmap K A → gmap K A → gmap K A := union_with (λ a b, Some (f a b)).

Definition merge_counters : PoolCounters → PoolCounters → PoolCounters := nested (nested add_qty).
Definition max_counters : PoolCounters → PoolCounters → PoolCounters := nested (nested max_qty).
Definition merge_capacity : DeviceQuantities → DeviceQuantities → DeviceQuantities := nested add_qty.
Definition max_capacity : DeviceQuantities → DeviceQuantities → DeviceQuantities := nested max_qty.

(** The maximum over the instance types. *)
Definition pessimisticCounterMax (byIT : gmap string PoolCounters) : PoolCounters := map_fold (λ _ m acc, max_counters acc m) ∅ byIT.
Definition pessimisticCapacityMax (byIT : gmap string DeviceQuantities) : DeviceQuantities := map_fold (λ _ m acc, max_capacity acc m) ∅ byIT.

Definition getCounter (m : PoolCounters) (pool : PoolKey) (set name : string) : option Z :=
  sets ← m !! pool; counters ← sets !! set; counters !! name.

Definition counter_set (m : PoolCounters) (pool : PoolKey) (set : string) : gmap string Z := default ∅ (sets ← m !! pool; sets !! set).

Definition getCapacity (m : DeviceQuantities) (id : DeviceID) (name : string) : option Z := dims ← m !! id; dims !! name.

(** ** Counters *)

(** What is subtracted is the growth of the maximum, where it grows. *)
Definition subtractDeltaFromRemaining (remaining oldMax newMax : PoolCounters) : PoolCounters :=
  map_imap (λ pool sets, Some (map_imap (λ set counters, Some (map_imap (λ name v,
    match getCounter newMax pool set name with
    | None => Some v
    | Some new => let delta := new - default 0 (getCounter oldMax pool set name) in
                  Some (if 0 <? delta then v - delta else v)
    end) counters)) sets)) remaining.

Definition addDeltaToRemaining (remaining oldMax newMax : PoolCounters) : PoolCounters :=
  map_imap (λ pool sets, Some (map_imap (λ set counters,
    let deltas : gmap string Z := map_imap (λ name old, let delta := old - default 0 (getCounter newMax pool set name) in
                                        if 0 <? delta then Some delta else None) (counter_set oldMax pool set) in
    Some (add_qty counters deltas)) sets)) remaining.

Definition commitCounters (at_ : AllocationTracker) (nodeClaimID : string) (byIT : gmap string PoolCounters) : AllocationTracker :=
  if bool_decide (byIT = ∅) then at_
  else
    let stored := default ∅ (countersByNodeClaimIT at_ !! nodeClaimID) in
    let stored' := nested merge_counters stored byIT in
    set_counters at_ (subtractDeltaFromRemaining (RemainingCounters at_) (pessimisticCounterMax stored) (pessimisticCounterMax stored'))
      (<[nodeClaimID := stored']> (countersByNodeClaimIT at_)) (templateRemainingCounters at_).

(** Instance types are deleted from a map, and the map when it is empty. *)
Definition release {A} (releasedITs : list string) (byIT : gmap string A) : gmap string A := foldr delete byIT releasedITs.
Definition store {A} (nodeClaimID : string) (byIT : gmap string A) (m : gmap string (gmap string A)) : gmap string (gmap string A) :=
  if bool_decide (dom byIT = ∅) then delete nodeClaimID m else <[nodeClaimID := byIT]> m.

Definition releaseCounters (at_ : AllocationTracker) (nodeClaimID : string) (releasedITs : list string) : AllocationTracker :=
  match countersByNodeClaimIT at_ !! nodeClaimID with
  | None => at_
  | Some stored =>
      let stored' := release releasedITs stored in
      set_counters at_ (addDeltaToRemaining (RemainingCounters at_) (pessimisticCounterMax stored) (pessimisticCounterMax stored'))
        (store nodeClaimID stored' (countersByNodeClaimIT at_)) (templateRemainingCounters at_)
  end.

(** A device's consumption is taken from the counters that exist. *)
Definition deduct_one (sets : CounterSets) (consumption : string * gmap string Z) : CounterSets :=
  match sets !! consumption.1 with
  | None => sets
  | Some counters => <[consumption.1 := map_imap (λ name v, Some (v - default 0 (consumption.2 !! name))) counters]> sets
  end.
Definition deductFromCounters (sets : CounterSets) (device : Device) : CounterSets := foldl deduct_one sets (d_ConsumesCounters device).

Definition preallocated (at_ : AllocationTracker) (d : DeviceWithID) : bool :=
  bool_decide (dw_ID d ∈ PreallocatedDevices at_) || bool_decide (is_Some (PreallocatedConsumedCapacity at_ !! dw_ID d)).

Definition InitRemainingCounters (at_ : AllocationTracker) (pool : Pool) : AllocationTracker :=
  if bool_decide (is_Some (RemainingCounters at_ !! p_Key pool)) then at_
  else if bool_decide (p_CounterSets pool = ∅) then at_
  else
    let allocated := filter (λ d, preallocated at_ d = true) (p_Devices pool ++ p_NonTargetingDevices pool) in
    set_counters at_ (<[p_Key pool := foldl (λ sets d, deductFromCounters sets (dw_Device d)) (p_CounterSets pool) allocated]> (RemainingCounters at_))
      (countersByNodeClaimIT at_) (templateRemainingCounters at_).

(** ** Counters of templates *)

Definition InitTemplateRemainingCounters (at_ : AllocationTracker) (nodeClaimID itID : string) (totals : PoolCounters) : AllocationTracker :=
  let byIT := default ∅ (templateRemainingCounters at_ !! nodeClaimID) in
  set_counters at_ (RemainingCounters at_) (countersByNodeClaimIT at_)
    (<[nodeClaimID := match byIT !! itID with Some _ => byIT | None => <[itID := totals]> byIT end]> (templateRemainingCounters at_)).

Definition TemplateRemainingForIT (at_ : AllocationTracker) (nodeClaimID itID : string) : option PoolCounters :=
  byIT ← templateRemainingCounters at_ !! nodeClaimID; byIT !! itID.

(** [None] is the assignment to a nil map, for a pool or a set without a budget. *)
Definition has_budgets (remaining consumed : PoolCounters) : bool :=
  bool_decide (map_Forall (λ pool sets, map_Forall (λ set counters, counters = (∅ : gmap string Z) ∨ (remaining !! pool ≫= lookup set) ≠ (None : option (gmap string Z)))
    (sets : CounterSets)) consumed).
Definition subtract_sets (remaining consumed : CounterSets) : CounterSets :=
  map_imap (λ set counters, Some (sub_qty counters (default ∅ (consumed !! set)))) remaining.
Definition subtract_counters (remaining consumed : PoolCounters) : option PoolCounters :=
  if has_budgets remaining consumed
  then Some (map_imap (λ pool sets, Some (subtract_sets sets (default ∅ (consumed !! pool)))) remaining) else None.

Definition commit_template (remaining : gmap string PoolCounters) (entry : string * PoolCounters) : option (gmap string PoolCounters) :=
  match remaining !! entry.1 with
  | None => Some remaining
  | Some budget => (λ budget', <[entry.1 := budget']> remaining) <$> subtract_counters budget entry.2
  end.

Definition commitTemplateCounters (at_ : AllocationTracker) (nodeClaimID : string) (byIT : gmap string PoolCounters) : option AllocationTracker :=
  match templateRemainingCounters at_ !! nodeClaimID with
  | None => Some at_
  | Some remaining =>
      (λ remaining', set_counters at_ (RemainingCounters at_) (countersByNodeClaimIT at_) (<[nodeClaimID := remaining']> (templateRemainingCounters at_)))
      <$> foldl_opt commit_template remaining (map_to_list byIT)
  end.

Definition releaseTemplateCounters (at_ : AllocationTracker) (nodeClaimID : string) (releasedITs : list string) : AllocationTracker :=
  match templateRemainingCounters at_ !! nodeClaimID with
  | None => at_
  | Some byIT => set_counters at_ (RemainingCounters at_) (countersByNodeClaimIT at_) (store nodeClaimID (release releasedITs byIT) (templateRemainingCounters at_))
  end.

(** ** Capacity *)

Definition positive_deltas (news olds : gmap string Z) : gmap string Z :=
  map_imap (λ name new, let delta := new - default 0 (olds !! name) in if 0 <? delta then Some delta else None) news.

Definition commitCapacity (at_ : AllocationTracker) (nodeClaimID : string) (byIT : gmap string DeviceQuantities) : AllocationTracker :=
  if bool_decide (byIT = ∅) then at_
  else
    let stored := default ∅ (consumedCapacityByNodeClaimIT at_ !! nodeClaimID) in
    let stored' := nested merge_capacity stored byIT in
    let oldMax := pessimisticCapacityMax stored in
    let deltas := map_imap (λ id news, Some (positive_deltas news (default ∅ (oldMax !! id)))) (pessimisticCapacityMax stored') in
    set_capacity at_
      (merge (λ cur inc, match inc with
                         | None => cur
                         | Some inc => if bool_decide (inc = ∅) then cur else Some (add_qty (default ∅ cur) inc)
                         end) (InflightConsumedCapacity at_) deltas)
      (<[nodeClaimID := stored']> (consumedCapacityByNodeClaimIT at_)) (templateConsumedCapacity at_).

(** Dimensions that are used up disappear, and so do devices without dimensions. *)
Definition shrink (cur dec : gmap string Z) : gmap string Z :=
  merge (λ v d, match d with None => v | Some d => let left := default 0 v - d in if left <=? 0 then None else Some left end) cur dec.

Definition releaseCapacity (at_ : AllocationTracker) (nodeClaimID : string) (releasedITs : list string) : AllocationTracker :=
  match consumedCapacityByNodeClaimIT at_ !! nodeClaimID with
  | None => at_
  | Some stored =>
      let stored' := release releasedITs stored in
      let newMax := pessimisticCapacityMax stored' in
      let deltas := map_imap (λ id olds, Some (positive_deltas olds (default ∅ (newMax !! id)))) (pessimisticCapacityMax stored) in
      set_capacity at_
        (merge (λ cur dec, match cur, dec with
                           | Some cur, Some dec => if bool_decide (dec = ∅) then Some cur
                                                   else let left := shrink cur dec in if bool_decide (left = ∅) then None else Some left
                           | cur, _ => cur
                           end) (InflightConsumedCapacity at_) deltas)
        (store nodeClaimID stored' (consumedCapacityByNodeClaimIT at_)) (templateConsumedCapacity at_)
  end.

Definition commitTemplateCapacity (at_ : AllocationTracker) (nodeClaimID : string) (byIT : gmap string DeviceQuantities) : AllocationTracker :=
  if bool_decide (byIT = ∅) then at_
  else set_capacity at_ (InflightConsumedCapacity at_) (consumedCapacityByNodeClaimIT at_)
         (<[nodeClaimID := nested merge_capacity (default ∅ (templateConsumedCapacity at_ !! nodeClaimID)) byIT]> (templateConsumedCapacity at_)).

Definition releaseTemplateCapacity (at_ : AllocationTracker) (nodeClaimID : string) (releasedITs : list string) : AllocationTracker :=
  match templateConsumedCapacity at_ !! nodeClaimID with
  | None => at_
  | Some byIT => set_capacity at_ (InflightConsumedCapacity at_) (consumedCapacityByNodeClaimIT at_) (store nodeClaimID (release releasedITs byIT) (templateConsumedCapacity at_))
  end.

Definition TemplateConsumedCapacityForIT (at_ : AllocationTracker) (nodeClaimID itID : string) : option DeviceQuantities :=
  byIT ← templateConsumedCapacity at_ !! nodeClaimID; byIT !! itID.

(** ** Devices *)

Definition devices_of (m : InstanceDevices) (nodeClaimID it : string) : gset DeviceID := default ∅ (default ∅ (m !! nodeClaimID) !! it).

(** [None] when the device is already there. *)
Definition insertAllocation (m : InstanceDevices) (id : DeviceID) (nodeClaimID it : string) : option InstanceDevices :=
  let devices := devices_of m nodeClaimID it in
  if bool_decide (id ∈ devices) then None
  else Some (<[nodeClaimID := <[it := devices ∪ {[id]}]> (default ∅ (m !! nodeClaimID))]> m).

(** What a search found, by instance type. *)
Record allocation := mkallocation {
  al_nodeClaimID : string;
  al_deviceIDsByIT : gmap string (list DeviceID);
  al_counterConsumptionByIT : gmap string PoolCounters;
  al_templateCounterConsumptionByIT : gmap string PoolCounters;
  al_capacityConsumptionByIT : gmap string DeviceQuantities;
  al_templateCapacityConsumptionByIT : gmap string DeviceQuantities;
  al_templateCounterTotalsByIT : gmap string PoolCounters;
}.

Definition in_capacity (byIT : gmap string DeviceQuantities) (it : string) (id : DeviceID) : bool :=
  match byIT !! it with Some m => bool_decide (is_Some (m !! id)) | None => false end.

Definition commit_device (alloc : allocation) (it : string) (at_ : AllocationTracker) (id : DeviceID) : option AllocationTracker :=
  let nc := al_nodeClaimID alloc in
  if id_Template id then
    if in_capacity (al_templateCapacityConsumptionByIT alloc) it id then Some at_
    else templates ← insertAllocation (InflightTemplateAllocations at_) id nc it;
         Some (set_allocations at_ (InflightClusterAllocations at_) (InflightClusterAllocationsByNodeClaim at_) templates)
  else if in_capacity (al_capacityConsumptionByIT alloc) it id then Some at_
  else
    byClaim ← insertAllocation (InflightClusterAllocationsByNodeClaim at_) id nc it;
    match InflightClusterAllocations at_ !! id with
    | Some (owner, its) =>
        if negb (bool_decide (owner = nc)) || bool_decide (it ∈ its) then None
        else Some (set_allocations at_ (<[id := (owner, its ∪ {[it]})]> (InflightClusterAllocations at_)) byClaim (InflightTemplateAllocations at_))
    | None => Some (set_allocations at_ (<[id := (nc, {[it]})]> (InflightClusterAllocations at_)) byClaim (InflightTemplateAllocations at_))
    end.

Definition commit_devices (alloc : allocation) (at_ : AllocationTracker) (entry : string * list DeviceID) : option AllocationTracker :=
  foldl_opt (commit_device alloc entry.1) at_ entry.2.

Definition Tracker_Commit (at_ : AllocationTracker) (alloc : allocation) : option AllocationTracker :=
  let nc := al_nodeClaimID alloc in
  at_ ← foldl_opt (commit_devices alloc) at_ (map_to_list (al_deviceIDsByIT alloc));
  let at_ := commitCounters at_ nc (al_counterConsumptionByIT alloc) in
  let at_ := map_fold (λ it totals at_, InitTemplateRemainingCounters at_ nc it totals) at_ (al_templateCounterTotalsByIT alloc) in
  at_ ← commitTemplateCounters at_ nc (al_templateCounterConsumptionByIT alloc);
  let at_ := commitCapacity at_ nc (al_capacityConsumptionByIT alloc) in
  Some (commitTemplateCapacity at_ nc (al_templateCapacityConsumptionByIT alloc)).

Definition release_device (it : string) (inflight : gmap DeviceID (string * gset string)) (id : DeviceID) : option (gmap DeviceID (string * gset string)) :=
  match inflight !! id with
  | None => None
  | Some (owner, its) =>
      if negb (bool_decide (it ∈ its)) then None
      else let its' := its ∖ {[it]} in
           Some (if bool_decide (its' = ∅) then delete id inflight else <[id := (owner, its')]> inflight)
  end.

Definition release_instance_type (nodeClaim : string) (at_ : AllocationTracker) (it : string) : option AllocationTracker :=
  let devices := devices_of (InflightClusterAllocationsByNodeClaim at_) nodeClaim it in
  inflight ← foldl_opt (release_device it) (InflightClusterAllocations at_) (elements devices);
  Some (set_allocations at_ inflight (alter (delete it) nodeClaim (InflightClusterAllocationsByNodeClaim at_))
          (alter (delete it) nodeClaim (InflightTemplateAllocations at_))).

Definition ReleaseInstanceTypes (at_ : AllocationTracker) (nodeClaim : string) (instanceTypes : list string) : option AllocationTracker :=
  at_ ← foldl_opt (release_instance_type nodeClaim) at_ instanceTypes;
  let at_ := releaseCounters at_ nodeClaim instanceTypes in
  let at_ := releaseTemplateCounters at_ nodeClaim instanceTypes in
  let at_ := releaseCapacity at_ nodeClaim instanceTypes in
  Some (releaseTemplateCapacity at_ nodeClaim instanceTypes).

Definition IsAllocated (at_ : AllocationTracker) (id : DeviceID) (nodeClaimID instanceType : string) : bool :=
  if id_Template id then bool_decide (id ∈ devices_of (InflightTemplateAllocations at_) nodeClaimID instanceType)
  else if bool_decide (id ∈ PreallocatedDevices at_) then true
  else match InflightClusterAllocations at_ !! id with
       | Some (owner, its) => if negb (bool_decide (owner = nodeClaimID)) then true else bool_decide (instanceType ∈ its)
       | None => false
       end.
