(* ===== verification/DeviceTrackerProps.v ===== *)
(** * DeviceTrackerProps: devices, counters and capacity are conserved

    Committing what a search found and releasing instance types, in any order, keep the
    reference counts of devices exact, and counters and shared capacity lose exactly the
    maximum over the instance types of every NodeClaim. *)

From S2P Require Import Prelude Labels Requirement Objects Requirements Resources Devices DeviceTracker.

#[local] Open Scope Z_scope.

(** ** The maximum over instance types *)

Section peak.
  Context {A : Type} (value : A → Z).

Definition peak (m : gmap string A) : Z := map_fold (λ _ x acc, Z.max acc (value x)) 0 m.

Lemma peak_insert m it x : m !! it = None → peak (<[it := x]> m) = Z.max (peak m) (value x).
Proof. intros Hi. unfold peak. rewrite map_fold_insert_L; [done|intros; lia|done]. Qed.

Lemma peak_le m c : peak m ≤ c ↔ 0 ≤ c ∧ ∀ it x, m !! it = Some x → value x ≤ c.
Proof.
  induction m as [|it x m Hi IH] using map_ind.
  - unfold peak. rewrite map_fold_empty. setoid_rewrite lookup_empty. naive_solver.
  - rewrite peak_insert by done. rewrite Z.max_lub_iff, IH. split.
    + intros [[? H] ?]. split; [done|]. intros it' y [[<- <-]|[_ ?]]%lookup_insert_Some; [done|by eapply H].
    + intros [? H]. split; [split; [done|]|apply (H it); apply lookup_insert_eq].
      intros it' y Hy. apply (H it'). rewrite lookup_insert_ne; [done|congruence].
Qed.

Lemma peak_nonneg m : 0 ≤ peak m.
Proof. by apply (peak_le m (peak m)). Qed.

Lemma peak_ge m it x : m !! it = Some x → value x ≤ peak m.
Proof. intros H. by eapply (proj2 (proj1 (peak_le m (peak m)) ltac:(lia))). Qed.

Lemma peak_mono m m' : (∀ it x, m !! it = Some x → ∃ y, m' !! it = Some y ∧ value x ≤ value y) → peak m ≤ peak m'.
Proof.
  intros H. apply peak_le. split; [apply peak_nonneg|]. intros it x (y & Hy & Hle)%H. etransitivity; [exact Hle|by eapply peak_ge].
Qed.

Lemma peak_release its m : peak (release its m) ≤ peak m.
Proof.
  apply peak_mono. intros it x Hx. exists x. split; [|done]. revert Hx. unfold release. induction its as [|i its IH]; cbn; [done|].
  intros [_ ?]%lookup_delete_Some. by apply IH.
Qed.

Lemma peak_store nc m (stored : gmap string (gmap string A)) :
  map_sum peak (store nc m stored) = map_sum peak stored - from_option peak 0 (stored !! nc) + peak m.
Proof.
  unfold store. case_bool_decide as E.
  - apply dom_empty_inv_L in E as ->. assert (peak ∅ = 0) as -> by done. rewrite map_sum_delete. lia.
  - by rewrite map_sum_insert.
Qed.
End peak.

(** ** Reading sums and maxima *)

Lemma add_qty_lookup a b n : default 0 (add_qty a b !! n) = default 0 (a !! n) + default 0 (b !! n).
Proof. unfold add_qty. rewrite lookup_merge. destruct (a !! n), (b !! n); cbn; lia. Qed.

Lemma max_qty_lookup a b n : 0 ≤ default 0 (a !! n) → 0 ≤ default 0 (b !! n) →
  default 0 (max_qty a b !! n) = Z.max (default 0 (a !! n)) (default 0 (b !! n)).
Proof. unfold max_qty. rewrite lookup_union_with. destruct (a !! n), (b !! n); cbn; lia. Qed.

Abbreviation counter m pool set name := (default 0 (getCounter m pool set name)).
Abbreviation capacity m id name := (default 0 (getCapacity m id name)).

Lemma counter_set_lookup m pool set name : getCounter m pool set name = counter_set m pool set !! name.
Proof.
  unfold getCounter, counter_set. destruct (m !! pool) as [sets|]; cbn; [|by rewrite lookup_empty]. destruct (sets !! set); cbn; [done|by rewrite lookup_empty].
Qed.

Definition nonneg_counters (m : PoolCounters) : Prop := ∀ pool set name, 0 ≤ counter m pool set name.
Definition nonneg_capacity (m : DeviceQuantities) : Prop := ∀ id name, 0 ≤ capacity m id name.

Lemma merge_counters_spec a b pool set name : counter (merge_counters a b) pool set name = counter a pool set name + counter b pool set name.
Proof.
  unfold getCounter, merge_counters, nested. rewrite lookup_union_with. destruct (a !! pool) as [sa|], (b !! pool) as [sb|]; cbn; try lia.
  rewrite lookup_union_with. destruct (sa !! set), (sb !! set); cbn; try lia. apply add_qty_lookup.
Qed.

Lemma max_counters_spec a b pool set name : nonneg_counters a → nonneg_counters b →
  counter (max_counters a b) pool set name = Z.max (counter a pool set name) (counter b pool set name).
Proof.
  intros Ha Hb. specialize (Ha pool set name). specialize (Hb pool set name). revert Ha Hb. unfold getCounter, max_counters, nested.
  rewrite lookup_union_with. destruct (a !! pool) as [sa|], (b !! pool) as [sb|]; cbn; try lia.
  rewrite lookup_union_with. destruct (sa !! set), (sb !! set); cbn; try lia. apply max_qty_lookup.
Qed.

Lemma merge_capacity_spec a b id name : capacity (merge_capacity a b) id name = capacity a id name + capacity b id name.
Proof.
  unfold getCapacity, merge_capacity, nested. rewrite lookup_union_with. destruct (a !! id), (b !! id); cbn; try lia. apply add_qty_lookup.
Qed.

Lemma max_capacity_spec a b id name : nonneg_capacity a → nonneg_capacity b →
  capacity (max_capacity a b) id name = Z.max (capacity a id name) (capacity b id name).
Proof.
  intros Ha Hb. specialize (Ha id name). specialize (Hb id name). revert Ha Hb. unfold getCapacity, max_capacity, nested.
  rewrite lookup_union_with. destruct (a !! id), (b !! id); cbn; try lia. apply max_qty_lookup.
Qed.

(** The maximum that is kept is the maximum over the instance types. *)
Lemma pessimisticCounterMax_spec byIT : (∀ it m, byIT !! it = Some m → nonneg_counters m) →
  ∀ pool set name, counter (pessimisticCounterMax byIT) pool set name = peak (λ m, counter m pool set name) byIT.
Proof.
  intros Hn. assert (nonneg_counters (pessimisticCounterMax byIT) ∧
    ∀ pool set name, counter (pessimisticCounterMax byIT) pool set name = peak (λ m, counter m pool set name) byIT) as [_ H]; [|done]. revert Hn.
  unfold pessimisticCounterMax. apply (map_fold_weak_ind (λ r byIT, (∀ it m, byIT !! it = Some m → nonneg_counters m) →
    nonneg_counters r ∧ ∀ pool set name, counter r pool set name = peak (λ m, counter m pool set name) byIT)).
  - intros _. split; intros pool set name; unfold getCounter; rewrite lookup_empty; cbn; [lia|]. unfold peak. by rewrite map_fold_empty.
  - intros it m byIT' r Hi IH Hn. destruct IH as [Hr Hp]. { intros it' m' Hm. apply (Hn it'). rewrite lookup_insert_ne; [done|congruence]. }
    assert (nonneg_counters m) as Hm by (apply (Hn it); apply lookup_insert_eq). split; intros pool set name; rewrite max_counters_spec by done.
    + specialize (Hr pool set name). lia.
    + by rewrite peak_insert, Hp.
Qed.

Lemma pessimisticCapacityMax_spec byIT : (∀ it m, byIT !! it = Some m → nonneg_capacity m) →
  ∀ id name, capacity (pessimisticCapacityMax byIT) id name = peak (λ m, capacity m id name) byIT.
Proof.
  intros Hn. assert (nonneg_capacity (pessimisticCapacityMax byIT) ∧
    ∀ id name, capacity (pessimisticCapacityMax byIT) id name = peak (λ m, capacity m id name) byIT) as [_ H]; [|done]. revert Hn.
  unfold pessimisticCapacityMax. apply (map_fold_weak_ind (λ r byIT, (∀ it m, byIT !! it = Some m → nonneg_capacity m) →
    nonneg_capacity r ∧ ∀ id name, capacity r id name = peak (λ m, capacity m id name) byIT)).
  - intros _. split; intros id name; unfold getCapacity; rewrite lookup_empty; cbn; [lia|]. unfold peak. by rewrite map_fold_empty.
  - intros it m byIT' r Hi IH Hn. destruct IH as [Hr Hp]. { intros it' m' Hm. apply (Hn it'). rewrite lookup_insert_ne; [done|congruence]. }
    assert (nonneg_capacity m) as Hm by (apply (Hn it); apply lookup_insert_eq). split; intros id name; rewrite max_capacity_spec by done.
    + specialize (Hr id name). lia.
    + by rewrite peak_insert, Hp.
Qed.

(** ** What commits and releases change *)

Lemma subtractDelta_spec remaining oldMax newMax pool set name : nonneg_counters oldMax →
  getCounter (subtractDeltaFromRemaining remaining oldMax newMax) pool set name =
  (λ v, v - Z.max 0 (counter newMax pool set name - counter oldMax pool set name)) <$> getCounter remaining pool set name.
Proof.
  intros Ho. specialize (Ho pool set name). unfold getCounter at 1 4. unfold subtractDeltaFromRemaining. rewrite map_lookup_imap.
  destruct (remaining !! pool) as [sets|]; [|done]. cbn [mbind option_bind]. rewrite map_lookup_imap. destruct (sets !! set) as [counters|]; [|done].
  cbn [mbind option_bind]. rewrite map_lookup_imap. destruct (counters !! name) as [v|]; [|done]. cbn [mbind option_bind fmap option_fmap option_map].
  destruct (getCounter newMax pool set name) as [new|]; cbn in *; f_equal; [|lia]. destruct (Z.ltb_spec 0 (new - counter oldMax pool set name)); lia.
Qed.

Lemma addDelta_spec remaining oldMax newMax pool set name v : nonneg_counters newMax → getCounter remaining pool set name = Some v →
  getCounter (addDeltaToRemaining remaining oldMax newMax) pool set name =
  Some (v + Z.max 0 (counter oldMax pool set name - counter newMax pool set name)).
Proof.
  intros Hn. specialize (Hn pool set name). unfold getCounter at 1 2. unfold addDeltaToRemaining. rewrite map_lookup_imap.
  destruct (remaining !! pool) as [sets|]; [|done]. cbn [mbind option_bind]. rewrite map_lookup_imap. destruct (sets !! set) as [counters|]; [|done].
  cbn [mbind option_bind]. intros Hv. unfold add_qty. rewrite lookup_merge, Hv, map_lookup_imap, <-counter_set_lookup.
  destruct (getCounter oldMax pool set name) as [old|]; cbn in *; [|f_equal; lia].
  destruct (Z.ltb_spec 0 (old - counter newMax pool set name)); cbn; f_equal; lia.
Qed.

(** The maxima of an old and a merged map. *)
Lemma nested_merge_peak {A} (f : A → A → A) (value : A → Z) (stored byIT : gmap string A) :
  (∀ a b, value (f a b) = value a + value b) → (∀ it b, byIT !! it = Some b → 0 ≤ value b) →
  peak value stored ≤ peak value (nested f stored byIT).
Proof.
  intros Hf Hb. apply peak_mono. intros it x Hx. unfold nested. rewrite lookup_union_with, Hx. destruct (byIT !! it) as [b|] eqn:E; cbn; [|by exists x].
  exists (f x b). split; [done|]. rewrite Hf. specialize (Hb _ _ E). lia.
Qed.

Lemma nested_merge_lookup {A} (f : A → A → A) (stored byIT : gmap string A) it x : nested f stored byIT !! it = Some x →
  (∃ a b, stored !! it = Some a ∧ byIT !! it = Some b ∧ x = f a b) ∨ stored !! it = Some x ∨ byIT !! it = Some x.
Proof. unfold nested. rewrite lookup_union_with. destruct (stored !! it), (byIT !! it); cbn; naive_solver. Qed.

Lemma release_lookup {A} its (m : gmap string A) it x : release its m !! it = Some x → m !! it = Some x.
Proof. unfold release. induction its as [|i its IH]; cbn; [done|]. intros [_ ?]%lookup_delete_Some. by apply IH. Qed.

Lemma store_lookup {A} nc (m : gmap string A) stored nc' m' : store nc m stored !! nc' = Some m' →
  (nc' = nc ∧ m' = m) ∨ stored !! nc' = Some m'.
Proof. unfold store. case_bool_decide; [intros [_ ?]%lookup_delete_Some; by right|]. intros [[<- <-]|[_ ?]]%lookup_insert_Some; auto. Qed.

(** ** Conservation *)

(** Everything that is stored is not negative. *)
Definition stored_nonneg (at_ : AllocationTracker) : Prop :=
  (∀ nc byIT it m, countersByNodeClaimIT at_ !! nc = Some byIT → byIT !! it = Some m → nonneg_counters m) ∧
  (∀ nc byIT it m, consumedCapacityByNodeClaimIT at_ !! nc = Some byIT → byIT !! it = Some m → nonneg_capacity m).

(** A counter has lost the maximum over instance types of each NodeClaim. *)
Definition counters_conserved (budget : PoolCounters) (at_ : AllocationTracker) : Prop :=
  ∀ pool set name v, getCounter budget pool set name = Some v →
    getCounter (RemainingCounters at_) pool set name =
    Some (v - map_sum (peak (λ m, counter m pool set name)) (countersByNodeClaimIT at_)).

(** So has a shared device. *)
Definition capacity_conserved (at_ : AllocationTracker) : Prop :=
  ∀ id name, capacity (InflightConsumedCapacity at_) id name =
    map_sum (peak (λ m, capacity m id name)) (consumedCapacityByNodeClaimIT at_).

Lemma default_stored {A} (stored : gmap string (gmap string A)) nc (value : A → Z) :
  from_option (peak value) 0 (stored !! nc) = peak value (default ∅ (stored !! nc)).
Proof. by destruct (stored !! nc). Qed.

Lemma commitCounters_conserved budget at_ nc byIT : stored_nonneg at_ → (∀ it m, byIT !! it = Some m → nonneg_counters m) →
  counters_conserved budget at_ → counters_conserved budget (commitCounters at_ nc byIT) ∧ stored_nonneg (commitCounters at_ nc byIT).
Proof.
  intros [Hs Hsc] Hb Hc. unfold commitCounters. case_bool_decide; [done|]. set (stored := default ∅ (countersByNodeClaimIT at_ !! nc)).
  assert (∀ it m, stored !! it = Some m → nonneg_counters m) as Hst.
  { intros it m. unfold stored. destruct (countersByNodeClaimIT at_ !! nc) as [s|] eqn:E; cbn; [by eapply Hs|by rewrite lookup_empty]. }
  assert (∀ it m, nested merge_counters stored byIT !! it = Some m → nonneg_counters m) as Hst'.
  { intros it m [(a & b & Ha & Hbb & ->)|[?|?]]%nested_merge_lookup; [|by eapply Hst|by eapply Hb].
    intros pool set name. rewrite merge_counters_spec. specialize (Hst _ _ Ha pool set name). specialize (Hb _ _ Hbb pool set name). lia. }
  split; [|split; [|exact Hsc]].
  - intros pool set name v Hv. specialize (Hc pool set name v Hv). cbn [set_counters RemainingCounters countersByNodeClaimIT].
    rewrite subtractDelta_spec, Hc by (intros p s n; rewrite pessimisticCounterMax_spec by done; apply peak_nonneg).
    cbn [fmap option_fmap option_map]. f_equal. rewrite !pessimisticCounterMax_spec by done. rewrite map_sum_insert, default_stored. fold stored.
    pose proof (nested_merge_peak merge_counters (λ m, counter m pool set name) stored byIT) as Hp.
    rewrite Z.max_r; [lia|]. enough (peak (λ m, counter m pool set name) stored ≤ peak (λ m, counter m pool set name) (nested merge_counters stored byIT)) by lia.
    apply Hp; [intros; apply merge_counters_spec|]. intros it b Hbb. by eapply Hb.
  - intros nc' byIT' it m. cbn. intros [[<- <-]|[_ ?]]%lookup_insert_Some; [apply Hst'|by eapply Hs].
Qed.

Lemma releaseCounters_conserved budget at_ nc its : stored_nonneg at_ → counters_conserved budget at_ →
  counters_conserved budget (releaseCounters at_ nc its) ∧ stored_nonneg (releaseCounters at_ nc its).
Proof.
  intros [Hs Hsc] Hc. unfold releaseCounters. destruct (countersByNodeClaimIT at_ !! nc) as [stored|] eqn:E; [|done].
  assert (∀ it m, stored !! it = Some m → nonneg_counters m) as Hst by (intros; by eapply Hs).
  assert (∀ it m, release its stored !! it = Some m → nonneg_counters m) as Hst' by (intros it m ?%release_lookup; by eapply Hst).
  split; [|split; [|exact Hsc]].
  - intros pool set name v Hv. specialize (Hc pool set name v Hv). cbn [set_counters RemainingCounters countersByNodeClaimIT].
    erewrite addDelta_spec; [|intros p s n; rewrite pessimisticCounterMax_spec by done; apply peak_nonneg|exact Hc].
    f_equal. rewrite !pessimisticCounterMax_spec by done. rewrite peak_store, E. cbn [from_option].
    pose proof (peak_release (λ m, counter m pool set name) its stored). lia.
  - intros nc' byIT' it m. cbn. intros [[-> ->]|?]%store_lookup; [apply Hst'|by eapply Hs].
Qed.

(** Reduces defaults and merges of known options. *)
Ltac opt_simpl := cbn [mbind option_bind from_option Datatypes.id diag_None fmap option_fmap option_map] in *.

Lemma positive_deltas_lookup news olds name : 0 ≤ default 0 (olds !! name) →
  default 0 (positive_deltas news olds !! name) = Z.max 0 (default 0 (news !! name) - default 0 (olds !! name)).
Proof.
  intros Ho. unfold positive_deltas. rewrite map_lookup_imap. destruct (news !! name) as [new|]; cbn; [|lia].
  destruct (Z.ltb_spec 0 (new - default 0 (olds !! name))); cbn; lia.
Qed.

(** The capacities of a device, none when it has no entry. *)
Lemma capacity_dims m id name : capacity m id name = default 0 (default ∅ (m !! id) !! name).
Proof. unfold getCapacity. destruct (m !! id); cbn; [done|by rewrite lookup_empty]. Qed.

Lemma commitCapacity_conserved at_ nc byIT : stored_nonneg at_ → (∀ it m, byIT !! it = Some m → nonneg_capacity m) →
  capacity_conserved at_ → capacity_conserved (commitCapacity at_ nc byIT) ∧ stored_nonneg (commitCapacity at_ nc byIT).
Proof.
  intros [Hsc Hs] Hb Hc. unfold commitCapacity. case_bool_decide; [done|]. set (stored := default ∅ (consumedCapacityByNodeClaimIT at_ !! nc)).
  assert (∀ it m, stored !! it = Some m → nonneg_capacity m) as Hst.
  { intros it m. unfold stored. destruct (consumedCapacityByNodeClaimIT at_ !! nc) as [s|] eqn:E; cbn; [by eapply Hs|by rewrite lookup_empty]. }
  assert (∀ it m, nested merge_capacity stored byIT !! it = Some m → nonneg_capacity m) as Hst'.
  { intros it m [(a & b & Ha & Hbb & ->)|[?|?]]%nested_merge_lookup; [|by eapply Hst|by eapply Hb].
    intros id name. rewrite merge_capacity_spec. specialize (Hst _ _ Ha id name). specialize (Hb _ _ Hbb id name). lia. }
  split; [|split; [exact Hsc|]].
  2: { intros nc' byIT' it m. cbn. intros [[<- <-]|[_ ?]]%lookup_insert_Some; [apply Hst'|by eapply Hs]. }
  intros id name. cbn [set_capacity InflightConsumedCapacity consumedCapacityByNodeClaimIT]. rewrite map_sum_insert, default_stored. fold stored.
  specialize (Hc id name). pose proof (pessimisticCapacityMax_spec stored Hst id name) as Ho. pose proof (pessimisticCapacityMax_spec _ Hst' id name) as Hn.
  rewrite <-Hc, <-Ho, <-Hn. rewrite capacity_dims, lookup_merge, map_lookup_imap, !capacity_dims.
  assert (0 ≤ capacity (pessimisticCapacityMax stored) id name) as Hpos by (rewrite Ho; apply peak_nonneg). rewrite capacity_dims in Hpos.
  assert (capacity (pessimisticCapacityMax stored) id name ≤ capacity (pessimisticCapacityMax (nested merge_capacity stored byIT)) id name) as Hle.
  { rewrite Ho, Hn. apply nested_merge_peak; [intros; apply merge_capacity_spec|]. intros it b Hbb. by eapply Hb. }
  rewrite !capacity_dims in Hle. destruct (pessimisticCapacityMax (nested merge_capacity stored byIT) !! id) as [news|] eqn:En; opt_simpl.
  2: { rewrite lookup_empty in *. destruct (InflightConsumedCapacity at_ !! id); opt_simpl; rewrite ?lookup_empty; opt_simpl; lia. }
  pose proof (positive_deltas_lookup news (default ∅ (pessimisticCapacityMax stored !! id)) name Hpos) as Hd.
  set (deltas := positive_deltas _ _) in *. destruct (InflightConsumedCapacity at_ !! id) as [cur|]; opt_simpl;
    destruct (bool_decide_reflect (deltas = ∅)) as [E|E]; opt_simpl.
  - rewrite E, lookup_empty in Hd. opt_simpl. lia.
  - rewrite add_qty_lookup, Hd. lia.
  - rewrite E, lookup_empty in Hd. rewrite lookup_empty. opt_simpl. lia.
  - rewrite add_qty_lookup, Hd, lookup_empty. opt_simpl. lia.
Qed.

Lemma shrink_lookup cur dec name : 0 ≤ default 0 (cur !! name) - default 0 (dec !! name) → (∀ d, dec !! name = Some d → 0 < d) →
  default 0 (shrink cur dec !! name) = default 0 (cur !! name) - default 0 (dec !! name).
Proof.
  intros H Hd. unfold shrink. rewrite lookup_merge. destruct (cur !! name) as [v|] eqn:Ev, (dec !! name) as [d|] eqn:Ed; cbn in *; try lia.
  - destruct (Z.leb_spec (v - d) 0); cbn; lia.
  - specialize (Hd d eq_refl). lia.
Qed.

Lemma releaseCapacity_conserved at_ nc its : stored_nonneg at_ → capacity_conserved at_ →
  capacity_conserved (releaseCapacity at_ nc its) ∧ stored_nonneg (releaseCapacity at_ nc its).
Proof.
  intros [Hsc Hs] Hc. unfold releaseCapacity. destruct (consumedCapacityByNodeClaimIT at_ !! nc) as [stored|] eqn:E; [|done].
  assert (∀ it m, stored !! it = Some m → nonneg_capacity m) as Hst by (intros; by eapply Hs).
  assert (∀ it m, release its stored !! it = Some m → nonneg_capacity m) as Hst' by (intros it m ?%release_lookup; by eapply Hst).
  split; [|split; [exact Hsc|]].
  2: { intros nc' byIT' it m. cbn. intros [[-> ->]|?]%store_lookup; [apply Hst'|by eapply Hs]. }
  intros id name. cbn [set_capacity InflightConsumedCapacity consumedCapacityByNodeClaimIT]. specialize (Hc id name).
  pose proof (peak_store (λ m, capacity m id name) nc (release its stored) (consumedCapacityByNodeClaimIT at_)) as Hsum. rewrite E in Hsum. cbn [from_option] in Hsum.
  assert (0 ≤ map_sum (peak (λ m, capacity m id name)) (store nc (release its stored) (consumedCapacityByNodeClaimIT at_))) as Hge.
  { apply map_sum_nonneg. intros. apply peak_nonneg. }
  pose proof (pessimisticCapacityMax_spec stored Hst id name) as Ho. pose proof (pessimisticCapacityMax_spec _ Hst' id name) as Hn.
  pose proof (peak_release (λ m, capacity m id name) its stored) as Hle.
  assert (0 ≤ capacity (pessimisticCapacityMax (release its stored)) id name) as Hpos by (rewrite Hn; apply peak_nonneg).
  rewrite Hsum in *. clear Hsum. rewrite <-Hc, <-Ho, <-Hn in *. rewrite !capacity_dims in *. rewrite lookup_merge, map_lookup_imap.
  destruct (pessimisticCapacityMax stored !! id) as [olds|] eqn:En; opt_simpl.
  2: { rewrite lookup_empty in *. destruct (InflightConsumedCapacity at_ !! id); opt_simpl; rewrite ?lookup_empty in *; opt_simpl; lia. }
  pose proof (positive_deltas_lookup olds (default ∅ (pessimisticCapacityMax (release its stored) !! id)) name Hpos) as Hd.
  assert (∀ d, positive_deltas olds (default ∅ (pessimisticCapacityMax (release its stored) !! id)) !! name = Some d → 0 < d) as Hdp.
  { intros d. unfold positive_deltas. rewrite map_lookup_imap. destruct (olds !! name) as [o|]; opt_simpl; [|done]. case_match eqn:El; [|done]. intros [= <-]. lia. }
  set (deltas := positive_deltas _ _) in *. destruct (InflightConsumedCapacity at_ !! id) as [cur|]; opt_simpl.
  2: { rewrite !lookup_empty in *. opt_simpl. lia. }
  destruct (bool_decide_reflect (deltas = ∅)) as [Ee|Ee]; opt_simpl.
  { rewrite Ee, lookup_empty in Hd. opt_simpl. lia. }
  assert (default 0 (shrink cur deltas !! name) = default 0 (cur !! name) - default 0 (deltas !! name)) as Hsh by (apply shrink_lookup; [lia|done]).
  destruct (bool_decide_reflect (shrink cur deltas = ∅)) as [Es|Es]; opt_simpl; [|lia].
  rewrite Es, lookup_empty in Hsh. rewrite lookup_empty. opt_simpl. lia.
Qed.

(** ** References to devices *)

(** The two indexes of cluster devices agree, and no entry is left without instance types. *)
Definition refs_ok (at_ : AllocationTracker) : Prop :=
  (∀ id nc it, id ∈ devices_of (InflightClusterAllocationsByNodeClaim at_) nc it ↔
     ∃ its, InflightClusterAllocations at_ !! id = Some (nc, its) ∧ it ∈ its) ∧
  ∀ id nc its, InflightClusterAllocations at_ !! id = Some (nc, its) → its ≠ ∅.

Lemma devices_of_insert m nc it devices nc' it' :
  devices_of (<[nc := <[it := devices]> (default ∅ (m !! nc))]> m) nc' it' =
  if decide (nc' = nc ∧ it' = it) then devices else devices_of m nc' it'.
Proof.
  unfold devices_of. destruct (decide (nc' = nc)) as [->|Hne].
  - rewrite lookup_insert_eq. cbn [default from_option Datatypes.id]. destruct (decide (it' = it)) as [->|Hni].
    + rewrite lookup_insert_eq, decide_True by done. done.
    + rewrite lookup_insert_ne, decide_False by naive_solver. done.
  - rewrite lookup_insert_ne, decide_False by naive_solver. done.
Qed.

Lemma devices_of_release m nc it nc' it' :
  devices_of (alter (delete it) nc m) nc' it' = if decide (nc' = nc ∧ it' = it) then ∅ else devices_of m nc' it'.
Proof.
  unfold devices_of. destruct (decide (nc' = nc)) as [->|Hne].
  - rewrite lookup_alter_eq. destruct (m !! nc) as [byIT|]; cbn.
    + destruct (decide (it' = it)) as [->|Hni]; [rewrite lookup_delete_eq, decide_True by done; done|]. rewrite lookup_delete_ne, decide_False by naive_solver. done.
    + rewrite lookup_empty. by destruct (decide _).
  - rewrite lookup_alter_ne, decide_False by naive_solver. done.
Qed.

Lemma some_pair_in (a b : string) (X : gset string) i : (∃ its, Some (a, X) = Some (b, its) ∧ i ∈ its) ↔ a = b ∧ i ∈ X.
Proof. naive_solver. Qed.

(** Whether a device of an allocation is held alone; the others are accounted by capacity. *)
Definition exclusive (alloc : allocation) (it : string) (id : DeviceID) : bool :=
  negb (if id_Template id then in_capacity (al_templateCapacityConsumptionByIT alloc) it id else in_capacity (al_capacityConsumptionByIT alloc) it id).

(** The fields other than the allocated devices. *)
Definition same_ledgers (at_ at' : AllocationTracker) : Prop :=
  set_allocations at_ ∅ ∅ ∅ = set_allocations at' ∅ ∅ ∅.

Lemma commit_device_ok alloc it at_ id : refs_ok at_ → exclusive alloc it id = true → IsAllocated at_ id (al_nodeClaimID alloc) it = false →
  ∃ at', commit_device alloc it at_ id = Some at' ∧ refs_ok at' ∧ same_ledgers at_ at' ∧
    ∀ id' it', IsAllocated at' id' (al_nodeClaimID alloc) it' = true ↔
               IsAllocated at_ id' (al_nodeClaimID alloc) it' = true ∨ (id' = id ∧ it' = it).
Proof.
  set (nc := al_nodeClaimID alloc). intros [Hrefs Hne] He Ha. unfold commit_device, exclusive, IsAllocated in *. fold nc.
  destruct (id_Template id) eqn:Et.
  - apply negb_true_iff in He. rewrite He. apply bool_decide_eq_false in Ha. unfold insertAllocation. rewrite bool_decide_eq_false_2 by done. cbn [mbind option_bind].
    eexists. split; [done|]. split; [done|]. split; [done|]. intros id' it'. cbn [InflightTemplateAllocations InflightClusterAllocations PreallocatedDevices set_allocations].
    rewrite devices_of_insert. destruct (id_Template id') eqn:Et'.
    + rewrite !bool_decide_eq_true. destruct (decide (nc = nc ∧ it' = it)) as [[_ ->]|Hn]; set_solver.
    + split; [by left|]. intros [?|[-> _]]; [done|congruence].
  - apply negb_true_iff in He. rewrite He. destruct (bool_decide_reflect (id ∈ PreallocatedDevices at_)) as [|Hp]; [done|].
    assert (id ∉ devices_of (InflightClusterAllocationsByNodeClaim at_) nc it) as Hnd.
    { intros (its & Hi & Hin)%Hrefs. rewrite Hi in Ha. rewrite (bool_decide_eq_true_2 (nc = nc)) in Ha by done. cbn in Ha. by apply bool_decide_eq_false in Ha. }
    unfold insertAllocation. rewrite bool_decide_eq_false_2 by done. cbn [mbind option_bind].
    set (its' := default ∅ (snd <$> InflightClusterAllocations at_ !! id) ∪ {[it]}).
    assert (match InflightClusterAllocations at_ !! id with Some (owner, its) => owner = nc ∧ it ∉ its | None => True end) as Hold.
    { destruct (InflightClusterAllocations at_ !! id) as [[owner its]|]; [|done]. destruct (bool_decide_reflect (owner = nc)); [|done]. cbn in Ha. by apply bool_decide_eq_false in Ha. }
    eexists (set_allocations at_ (<[id := (nc, its')]> (InflightClusterAllocations at_)) _ (InflightTemplateAllocations at_)). split; [|split; [|split; [done|]]].
    + unfold its'. destruct (InflightClusterAllocations at_ !! id) as [[owner its]|]; cbn [fmap option_fmap option_map from_option Datatypes.id snd].
      * destruct Hold as [-> Hin]. rewrite (bool_decide_eq_true_2 (nc = nc)), (bool_decide_eq_false_2 (it ∈ its)) by done. done.
      * replace (∅ ∪ {[it]} : gset string) with ({[it]} : gset string) by set_solver. done.
    + split; cbn [InflightClusterAllocationsByNodeClaim InflightClusterAllocations set_allocations].
      * intros id' nc' it'. rewrite devices_of_insert. destruct (decide (id' = id)) as [->|Hni].
        -- rewrite lookup_insert_eq, some_pair_in. unfold its'. destruct (decide (nc' = nc ∧ it' = it)) as [[-> ->]|Hn]; [set_solver|]. rewrite Hrefs.
           destruct (InflightClusterAllocations at_ !! id) as [[owner its]|] eqn:Ei; cbn; [destruct Hold as [-> Hin]; rewrite some_pair_in; set_solver|].
           split; [by intros (? & ? & _)|]. intros [-> ?]. set_solver.
        -- rewrite lookup_insert_ne by done. destruct (decide (nc' = nc ∧ it' = it)) as [[-> ->]|Hn]; [|apply Hrefs]. rewrite elem_of_union, Hrefs. set_solver.
      * intros id' nc' its [[<- [= <- <-]]|[_ ?]]%lookup_insert_Some; [unfold its'; set_solver|by eapply Hne].
    + intros id' it'. cbn [InflightTemplateAllocations InflightClusterAllocations PreallocatedDevices set_allocations]. destruct (id_Template id') eqn:Et'.
      { split; [by left|]. intros [?|[-> _]]; [done|congruence]. }
      destruct (bool_decide_reflect (id' ∈ PreallocatedDevices at_)); [naive_solver|]. destruct (decide (id' = id)) as [->|Hni]; [|rewrite lookup_insert_ne by done; naive_solver].
      rewrite lookup_insert_eq, (bool_decide_eq_true_2 (nc = nc)) by done. cbn [negb]. rewrite bool_decide_eq_true. unfold its'.
      destruct (InflightClusterAllocations at_ !! id) as [[owner its]|]; cbn; [|set_solver]. destruct Hold as [-> Hin].
      rewrite (bool_decide_eq_true_2 (nc = nc)) by done. cbn [negb]. rewrite bool_decide_eq_true. set_solver.
Qed.

Lemma same_ledgers_trans a b c : same_ledgers a b → same_ledgers b c → same_ledgers a c.
Proof. unfold same_ledgers. congruence. Qed.

(** The devices that one instance type would hold alone: free, and each once. *)
Definition devices_free (alloc : allocation) (at_ : AllocationTracker) (it : string) (ids : list DeviceID) : Prop :=
  NoDup (filter (λ id, exclusive alloc it id = true) ids) ∧
  ∀ id, id ∈ ids → exclusive alloc it id = true → IsAllocated at_ id (al_nodeClaimID alloc) it = false.

Lemma commit_shared alloc it at_ id : exclusive alloc it id = false → commit_device alloc it at_ id = Some at_.
Proof. unfold exclusive, commit_device. intros H%negb_false_iff. destruct (id_Template id); by rewrite H. Qed.

Lemma commit_devices_ok alloc it ids : ∀ at_, refs_ok at_ → devices_free alloc at_ it ids →
  ∃ at', commit_devices alloc at_ (it, ids) = Some at' ∧ refs_ok at' ∧ same_ledgers at_ at' ∧
    ∀ id' it', IsAllocated at' id' (al_nodeClaimID alloc) it' = true ↔
               IsAllocated at_ id' (al_nodeClaimID alloc) it' = true ∨ (id' ∈ ids ∧ exclusive alloc it id' = true ∧ it' = it).
Proof.
  unfold commit_devices. cbn [fst snd]. induction ids as [|id ids IH]; intros at_ Hok [Hnd Hfree].
  { exists at_. split_and!; try done. intros id' it'. split; [by left|]. intros [?|[?%elem_of_nil _]]; done. }
  cbn [foldl_opt]. destruct (exclusive alloc it id) eqn:Ee.
  - rewrite filter_cons_True in Hnd by done. apply NoDup_cons in Hnd as [Hnin Hnd].
    destruct (commit_device_ok alloc it at_ id Hok Ee) as (at1 & Hc & Hok1 & Hl1 & Ha1); [apply Hfree; [by left|done]|].
    destruct (IH at1 Hok1) as (at' & Hf & Hok' & Hl' & Ha').
    { split; [done|]. intros id' Hin' He'. apply not_true_iff_false. rewrite Ha1. intros [Ht|[-> _]].
      - rewrite Hfree in Ht; [done|by right|done].
      - apply Hnin. by apply list_elem_of_filter. }
    exists at'. rewrite Hc. split; [done|]. split; [done|]. split; [by eapply same_ledgers_trans|]. intros id' it'. rewrite Ha', Ha1. set_solver.
  - rewrite filter_cons_False in Hnd by congruence. destruct (IH at_ Hok) as (at' & Hf & Hok' & Hl' & Ha').
    { split; [done|]. intros id' Hin'. apply Hfree. by right. }
    exists at'. rewrite commit_shared by done. split_and!; try done. intros id' it'. rewrite Ha'. split; [set_solver|].
    intros [?|([->|?]%elem_of_cons & ? & ->)]; [by left|congruence|]. right. done.
Qed.

Lemma commit_all_ok alloc entries : ∀ at_, refs_ok at_ → NoDup entries.*1 →
  (∀ it ids, (it, ids) ∈ entries → devices_free alloc at_ it ids) →
  ∃ at', foldl_opt (commit_devices alloc) at_ entries = Some at' ∧ refs_ok at' ∧ same_ledgers at_ at'.
Proof.
  induction entries as [|[it ids] entries IH]; intros at_ Hok Hnd Hfree; [by exists at_|]. cbn [foldl_opt]. rewrite fmap_cons in Hnd. apply NoDup_cons in Hnd as [Hnin Hnd].
  destruct (commit_devices_ok alloc it ids at_ Hok) as (at1 & Hc & Hok1 & Hl1 & Ha1); [apply Hfree; by left|]. rewrite Hc.
  destruct (IH at1 Hok1 Hnd) as (at' & Hf & Hok' & Hl'); [|exists at'; split_and!; [done..|by eapply same_ledgers_trans]].
  intros it' ids' Hin. destruct (Hfree it' ids') as [Hnd' Hf']; [by right|]. split; [done|]. intros id Hid He. apply not_true_iff_false. rewrite Ha1.
  intros [Ht|(_ & _ & ->)]; [by rewrite Hf' in Ht|]. apply Hnin. apply list_elem_of_fmap. by exists (it, ids').
Qed.

(** Releasing an instance type: all its references, and no others. *)
Lemma release_devices_ok nc it ids : ∀ inflight : gmap DeviceID (string * gset string), NoDup ids →
  (∀ id, id ∈ ids → ∃ its, inflight !! id = Some (nc, its) ∧ it ∈ its) →
  ∃ inflight', foldl_opt (release_device it) inflight ids = Some inflight' ∧
    (∀ id, id ∉ ids → inflight' !! id = inflight !! id) ∧
    (∀ id its, id ∈ ids → inflight !! id = Some (nc, its) →
       inflight' !! id = if bool_decide (its ∖ {[it]} = ∅) then None else Some (nc, its ∖ {[it]})).
Proof.
  induction ids as [|id ids IH]; intros inflight Hnd Hin; [exists inflight; split_and!; [done..|by intros ? ? ?%elem_of_nil]|]. apply NoDup_cons in Hnd as [Hnin Hnd].
  destruct (Hin id) as (its & Hi & Hit); [by left|].
  set (inflight1 := if bool_decide (its ∖ {[it]} = ∅) then delete id inflight else <[id := (nc, its ∖ {[it]})]> inflight).
  assert (release_device it inflight id = Some inflight1) as Hrel by (unfold release_device; by rewrite Hi, bool_decide_eq_true_2).
  cbn [foldl_opt]. rewrite Hrel.
  assert (∀ id', id' ≠ id → inflight1 !! id' = inflight !! id') as Hother.
  { intros id' Hne. unfold inflight1. case_bool_decide; [by rewrite lookup_delete_ne|by rewrite lookup_insert_ne]. }
  destruct (IH inflight1 Hnd) as (inflight' & Hf & Hout & Hins).
  { intros id' Hin'. rewrite Hother by congruence. apply Hin. by right. }
  exists inflight'. split; [done|]. split.
  - intros id' [Hne Hni]%not_elem_of_cons. by rewrite Hout, Hother.
  - intros id' its' [->|Hin']%elem_of_cons Hl.
    + rewrite Hout by done. rewrite Hi in Hl. injection Hl as <-. unfold inflight1. case_bool_decide; [by rewrite lookup_delete_eq|by rewrite lookup_insert_eq].
    + rewrite (Hins id' its') by (done || (rewrite Hother; [done|congruence])). done.
Qed.

Lemma release_instance_type_ok nc at_ it : refs_ok at_ → ∃ at', release_instance_type nc at_ it = Some at' ∧ refs_ok at' ∧ same_ledgers at_ at'.
Proof.
  intros [Hrefs Hne]. unfold release_instance_type. set (devices := devices_of _ nc it).
  destruct (release_devices_ok nc it (elements devices) (InflightClusterAllocations at_)) as (inflight' & Hf & Hout & Hin).
  { apply NoDup_elements. } { intros id Hid%elem_of_elements. by apply Hrefs. }
  rewrite Hf. cbn [mbind option_bind]. eexists. split; [done|]. split; [|done]. split; cbn [InflightClusterAllocationsByNodeClaim InflightClusterAllocations set_allocations].
  - intros id nc' it'. rewrite devices_of_release. destruct (decide (id ∈ devices)) as [Hd|Hd].
    + destruct (proj1 (Hrefs id nc it) Hd) as (its & Hi & Hit). rewrite (Hin id its) by (done || by apply elem_of_elements).
      destruct (decide (nc' = nc ∧ it' = it)) as [[-> ->]|Hn].
      * split; [set_solver|]. intros (its' & Heq & Hit'). case_bool_decide; [done|]. injection Heq as <-. set_solver.
      * rewrite Hrefs, Hi, some_pair_in. case_bool_decide as Es; [|rewrite some_pair_in; set_solver]. split; [|by intros (? & ? & _)]. intros [<- Hit']. exfalso. apply Hn. split; [done|]. set_solver.
    + rewrite (Hout id) by (by rewrite elem_of_elements). destruct (decide (nc' = nc ∧ it' = it)) as [[-> ->]|Hn]; [|apply Hrefs]. rewrite <-Hrefs. set_solver.
  - intros id nc' its Hi. destruct (decide (id ∈ devices)) as [Hd|Hd]; [|rewrite (Hout id) in Hi by (by rewrite elem_of_elements); by eapply Hne].
    destruct (proj1 (Hrefs id nc it) Hd) as (its0 & Hi0 & Hit). rewrite (Hin id its0) in Hi by (done || by apply elem_of_elements). case_bool_decide; [done|]. by injection Hi as <- <-.
Qed.

(** ** Steps of the tracker *)

(** The invariant: references agree, and nothing is lost. *)
Record tracker_ok (budget : PoolCounters) (at_ : AllocationTracker) : Prop := {
  to_refs : refs_ok at_;
  to_nonneg : stored_nonneg at_;
  to_counters : counters_conserved budget at_;
  to_capacity : capacity_conserved at_;
}.

(** What an allocation must be for this tracker: its devices are free, it consumes nothing
    negative, and what it takes from templates has a budget. *)
Record valid_allocation (at_ : AllocationTracker) (alloc : allocation) : Prop := {
  va_free : ∀ it ids, al_deviceIDsByIT alloc !! it = Some ids → devices_free alloc at_ it ids;
  va_counters : ∀ it m, al_counterConsumptionByIT alloc !! it = Some m → nonneg_counters m;
  va_capacity : ∀ it m, al_capacityConsumptionByIT alloc !! it = Some m → nonneg_capacity m;
  va_budgets : ∀ it consumed budget, al_templateCounterConsumptionByIT alloc !! it = Some consumed →
    match TemplateRemainingForIT at_ (al_nodeClaimID alloc) it with Some b => Some b | None => al_templateCounterTotalsByIT alloc !! it end = Some budget →
    has_budgets budget consumed = true;
}.

(** The fields the invariant speaks of. *)
Definition same_core (a b : AllocationTracker) : Prop :=
  InflightClusterAllocations a = InflightClusterAllocations b ∧ InflightClusterAllocationsByNodeClaim a = InflightClusterAllocationsByNodeClaim b ∧
  RemainingCounters a = RemainingCounters b ∧ countersByNodeClaimIT a = countersByNodeClaimIT b ∧
  InflightConsumedCapacity a = InflightConsumedCapacity b ∧ consumedCapacityByNodeClaimIT a = consumedCapacityByNodeClaimIT b.

Lemma tracker_ok_core budget a b : same_core a b → tracker_ok budget a → tracker_ok budget b.
Proof.
  intros (E1 & E2 & E3 & E4 & E5 & E6) [H1 H2 H3 H4]. unfold refs_ok, stored_nonneg, counters_conserved, capacity_conserved in *.
  rewrite E1, E2 in H1. rewrite E4, E6 in H2. rewrite E3, E4 in H3. rewrite E5, E6 in H4. by split.
Qed.

Lemma same_ledgers_fields a b : same_ledgers a b → RemainingCounters a = RemainingCounters b ∧ countersByNodeClaimIT a = countersByNodeClaimIT b ∧
  InflightConsumedCapacity a = InflightConsumedCapacity b ∧ consumedCapacityByNodeClaimIT a = consumedCapacityByNodeClaimIT b ∧
  templateRemainingCounters a = templateRemainingCounters b.
Proof. unfold same_ledgers, set_allocations. by intros [= _ _ ? ? _ ? ? ?]. Qed.

(** A tracker with the same ledgers and sound references keeps the invariant. *)
Lemma tracker_ok_ledgers budget a b : same_ledgers a b → refs_ok b → tracker_ok budget a → tracker_ok budget b.
Proof.
  intros (E3 & E4 & E5 & E6 & _)%same_ledgers_fields Hr [_ H2 H3 H4]. unfold stored_nonneg, counters_conserved, capacity_conserved in *.
  rewrite E4, E6 in H2. rewrite E3, E4 in H3. rewrite E5, E6 in H4. by split.
Qed.

Lemma refs_ok_set_counters at_ x y z : refs_ok (set_counters at_ x y z) ↔ refs_ok at_.
Proof. done. Qed.

Lemma commitCounters_ok budget at_ nc byIT : tracker_ok budget at_ → (∀ it m, byIT !! it = Some m → nonneg_counters m) →
  tracker_ok budget (commitCounters at_ nc byIT) ∧ templateRemainingCounters (commitCounters at_ nc byIT) = templateRemainingCounters at_.
Proof.
  intros [H1 H2 H3 H4] Hb. destruct (commitCounters_conserved budget at_ nc byIT H2 Hb H3) as [? ?]. split; [split; try done|];
    unfold commitCounters; by case_bool_decide.
Qed.

Lemma commitCapacity_ok budget at_ nc byIT : tracker_ok budget at_ → (∀ it m, byIT !! it = Some m → nonneg_capacity m) →
  tracker_ok budget (commitCapacity at_ nc byIT).
Proof.
  intros [H1 H2 H3 H4] Hb. destruct (commitCapacity_conserved at_ nc byIT H2 Hb H4) as [? ?]. split; try done; unfold commitCapacity; by case_bool_decide.
Qed.

Lemma init_templates_ok at_ nc totals :
  let at' := map_fold (λ it totals at_, InitTemplateRemainingCounters at_ nc it totals) at_ totals in
  same_core at_ at' ∧ ∀ it, TemplateRemainingForIT at' nc it = match TemplateRemainingForIT at_ nc it with Some b => Some b | None => totals !! it end.
Proof.
  cbn zeta. apply (map_fold_weak_ind (λ r totals, same_core at_ r ∧ ∀ it, TemplateRemainingForIT r nc it =
    match TemplateRemainingForIT at_ nc it with Some b => Some b | None => totals !! it end)).
  - split; [done|]. intros it. rewrite lookup_empty. by destruct (TemplateRemainingForIT _ _ _).
  - intros it tot totals' r Hi [Hc Ht]. split; [exact Hc|]. intros it'. specialize (Ht it'). revert Ht. unfold InitTemplateRemainingCounters, TemplateRemainingForIT at 1 3.
    cbn [templateRemainingCounters set_counters]. rewrite lookup_insert_eq. cbn [mbind option_bind].
    assert ((templateRemainingCounters r !! nc ≫= λ byIT, byIT !! it') = default ∅ (templateRemainingCounters r !! nc) !! it') as ->.
    { destruct (templateRemainingCounters r !! nc); cbn; [done|by rewrite lookup_empty]. }
    set (byIT := default ∅ (templateRemainingCounters r !! nc)). intros Ht. destruct (byIT !! it) as [x|] eqn:Ex.
    + rewrite Ht. destruct (TemplateRemainingForIT at_ nc it'); [done|]. destruct (decide (it' = it)) as [->|Hne]; [|by rewrite lookup_insert_ne]. congruence.
    + destruct (decide (it' = it)) as [->|Hne]; [|rewrite !lookup_insert_ne by done; by rewrite Ht].
      rewrite !lookup_insert_eq. rewrite Ex in Ht. destruct (TemplateRemainingForIT at_ nc it); [done|]. done.
Qed.

Lemma commit_template_all entries : ∀ remaining, NoDup entries.*1 →
  (∀ it consumed budget, (it, consumed) ∈ entries → remaining !! it = Some budget → has_budgets budget consumed = true) →
  is_Some (foldl_opt commit_template remaining entries).
Proof.
  induction entries as [|[it consumed] entries IH]; intros remaining Hnd Hb; [done|]. rewrite fmap_cons in Hnd. apply NoDup_cons in Hnd as [Hnin Hnd].
  assert (∃ r, commit_template remaining (it, consumed) = Some r ∧ ∀ it', it' ≠ it → r !! it' = remaining !! it') as (r & Hr & Hoth).
  { unfold commit_template. cbn [fst snd]. destruct (remaining !! it) as [budget|] eqn:E; [|by exists remaining].
    unfold subtract_counters. rewrite (Hb it consumed budget) by (done || by left). eexists. split; [done|]. intros it' Hne. by rewrite lookup_insert_ne. }
  cbn [foldl_opt]. rewrite Hr. apply IH; [done|]. intros it' consumed' budget' Hin. rewrite Hoth; [|intros ->; apply Hnin, list_elem_of_fmap; by exists (it, consumed')].
  apply Hb. by right.
Qed.

Lemma commitTemplateCounters_ok at_ nc byIT :
  (∀ it consumed budget, byIT !! it = Some consumed → TemplateRemainingForIT at_ nc it = Some budget → has_budgets budget consumed = true) →
  ∃ at', commitTemplateCounters at_ nc byIT = Some at' ∧ same_core at_ at'.
Proof.
  intros Hb. unfold commitTemplateCounters, TemplateRemainingForIT in *. destruct (templateRemainingCounters at_ !! nc) as [remaining|]; [|by exists at_].
  destruct (commit_template_all (map_to_list byIT) remaining) as [r Hr].
  { apply NoDup_fst_map_to_list. } { intros it consumed budget Hin%elem_of_map_to_list Hl. by eapply Hb. }
  rewrite Hr. eexists. split; [done|]. done.
Qed.

(** Committing a valid allocation succeeds and keeps the invariant. *)
Lemma commit_ok budget at_ alloc : tracker_ok budget at_ → valid_allocation at_ alloc →
  ∃ at', Tracker_Commit at_ alloc = Some at' ∧ tracker_ok budget at'.
Proof.
  intros Hok [Hfree Hcnt Hcap Hbud]. unfold Tracker_Commit.
  destruct (commit_all_ok alloc (map_to_list (al_deviceIDsByIT alloc)) at_ (to_refs _ _ Hok)) as (at1 & -> & Hr1 & Hl1).
  { apply NoDup_fst_map_to_list. } { intros it ids Hin%elem_of_map_to_list. by apply Hfree. }
  cbn [mbind option_bind]. pose proof (tracker_ok_ledgers budget at_ at1 Hl1 Hr1 Hok) as Hok1.
  destruct (commitCounters_ok budget at1 (al_nodeClaimID alloc) _ Hok1 Hcnt) as [Hok2 Ht2]. set (at2 := commitCounters at1 _ _) in *.
  destruct (init_templates_ok at2 (al_nodeClaimID alloc) (al_templateCounterTotalsByIT alloc)) as [Hc3 Ht3]. set (at3 := map_fold _ at2 _) in *.
  apply (tracker_ok_core budget) in Hc3 as Hok3; [|done].
  destruct (commitTemplateCounters_ok at3 (al_nodeClaimID alloc) (al_templateCounterConsumptionByIT alloc)) as (at4 & -> & Hc4).
  { intros it consumed b Hc Hb. eapply Hbud; [exact Hc|]. rewrite <-Hb, Ht3. unfold TemplateRemainingForIT. rewrite Ht2.
    by destruct (same_ledgers_fields _ _ Hl1) as (_ & _ & _ & _ & ->). }
  cbn [mbind option_bind]. eexists. split; [done|]. apply (tracker_ok_core budget) in Hc4 as Hok4; [|done].
  pose proof (commitCapacity_ok budget at4 (al_nodeClaimID alloc) _ Hok4 Hcap) as Hok5. eapply tracker_ok_core; [|exact Hok5].
  unfold commitTemplateCapacity. by case_bool_decide.
Qed.

Lemma release_types_ok nc its : ∀ at_, refs_ok at_ → ∃ at', foldl_opt (release_instance_type nc) at_ its = Some at' ∧ refs_ok at' ∧ same_ledgers at_ at'.
Proof.
  induction its as [|it its IH]; intros at_ Hok; [by exists at_|]. cbn [foldl_opt]. destruct (release_instance_type_ok nc at_ it Hok) as (at1 & -> & Hok1 & Hl1).
  destruct (IH at1 Hok1) as (at' & ? & ? & ?). exists at'. split_and!; [done..|by eapply same_ledgers_trans].
Qed.

Lemma release_ok budget at_ nc its : tracker_ok budget at_ → ∃ at', ReleaseInstanceTypes at_ nc its = Some at' ∧ tracker_ok budget at'.
Proof.
  intros Hok. unfold ReleaseInstanceTypes. destruct (release_types_ok nc its at_ (to_refs _ _ Hok)) as (at1 & -> & Hr1 & Hl1).
  cbn [mbind option_bind]. eexists. split; [done|]. apply (tracker_ok_ledgers budget) in Hl1 as [H1 H2 H3 H4]; [|done..].
  destruct (releaseCounters_conserved budget at1 nc its H2 H3) as [H3' H2'].
  assert (tracker_ok budget (releaseCounters at1 nc its)) as Hok2. { split; try done; unfold releaseCounters; by destruct (_ !! nc). }
  assert (tracker_ok budget (releaseTemplateCounters (releaseCounters at1 nc its) nc its)) as [H1b H2b H3b H4b].
  { eapply tracker_ok_core; [|exact Hok2]. unfold releaseTemplateCounters. by destruct (_ !! nc). }
  destruct (releaseCapacity_conserved _ nc its H2b H4b) as [H4c H2c]. set (at3 := releaseTemplateCounters _ nc its) in *.
  assert (tracker_ok budget (releaseCapacity at3 nc its)) as Hok4. { split; try done; unfold releaseCapacity; by destruct (_ !! nc). }
  eapply tracker_ok_core; [|exact Hok4]. unfold releaseTemplateCapacity. by destruct (_ !! nc).
Qed.

(** Commits of valid allocations and releases, in any order. *)
Inductive tracker_step : AllocationTracker → AllocationTracker → Prop :=
| step_commit at_ alloc at' : valid_allocation at_ alloc → Tracker_Commit at_ alloc = Some at' → tracker_step at_ at'
| step_release at_ nc its at' : ReleaseInstanceTypes at_ nc its = Some at' → tracker_step at_ at'.

(** A tracker before the first commit. *)
Definition fresh (at_ : AllocationTracker) : Prop :=
  InflightClusterAllocations at_ = ∅ ∧ InflightClusterAllocationsByNodeClaim at_ = ∅ ∧ countersByNodeClaimIT at_ = ∅ ∧
  InflightConsumedCapacity at_ = ∅ ∧ consumedCapacityByNodeClaimIT at_ = ∅.

Lemma fresh_ok at_ : fresh at_ → tracker_ok (RemainingCounters at_) at_.
Proof.
  intros (E1 & E2 & E3 & E4 & E5). split.
  - split; [|intros id nc its; by rewrite E1, lookup_empty]. intros id nc it. unfold devices_of. rewrite E1, E2, !lookup_empty. cbn. rewrite lookup_empty. cbn. set_solver.
  - split; intros nc byIT it m; [rewrite E3|rewrite E5]; by rewrite lookup_empty.
  - intros pool set name v Hv. rewrite E3, map_sum_empty, Hv. f_equal. lia.
  - intros id name. unfold getCapacity. by rewrite E4, E5, lookup_empty.
Qed.

Lemma reachable_ok at0 at_ : fresh at0 → rtc tracker_step at0 at_ → tracker_ok (RemainingCounters at0) at_.
Proof.
  intros H0 H. refine (rtc_ind_r (tracker_ok (RemainingCounters at0)) at0 _ _ _ H); [by apply fresh_ok|]. intros x y _ Hs Hx.
  destruct Hs as [? alloc ? Hv Hc|? nc its ? Hr]; [destruct (commit_ok _ _ _ Hx Hv) as (? & ? & ?)|destruct (release_ok _ _ nc its Hx) as (? & ? & ?)]; congruence.
Qed.

(** In every state that commits and releases lead to, a counter has lost, and a shared device
    has in use, the sum over NodeClaims of the maximum over their instance types: nothing is
    lost by releasing instance types in any order, and nothing is given back twice. *)
Theorem counters_and_capacity_conserved at0 at_ : fresh at0 → rtc tracker_step at0 at_ →
  (∀ pool set name v, getCounter (RemainingCounters at0) pool set name = Some v →
     getCounter (RemainingCounters at_) pool set name =
     Some (v - map_sum (peak (λ m, counter m pool set name)) (countersByNodeClaimIT at_))) ∧
  (∀ id name, capacity (InflightConsumedCapacity at_) id name =
     map_sum (peak (λ m, capacity m id name)) (consumedCapacityByNodeClaimIT at_)).
Proof. intros H0 H. destruct (reachable_ok at0 at_ H0 H) as [_ _ Hc Hq]. done. Qed.

(** In every such state neither a commit of a valid allocation nor a release panics. *)
Theorem tracker_never_panics at0 at_ alloc nc its : fresh at0 → rtc tracker_step at0 at_ → valid_allocation at_ alloc →
  is_Some (Tracker_Commit at_ alloc) ∧ is_Some (ReleaseInstanceTypes at_ nc its).
Proof.
  intros H0 H Hv. pose proof (reachable_ok at0 at_ H0 H) as Hok.
  destruct (commit_ok _ _ _ Hok Hv) as (? & -> & _). by destruct (release_ok _ _ nc its Hok) as (? & -> & _).
Qed.
