(* ===== verification/DeviceRequests.v ===== *)
(** * DeviceRequests: what a resource claim asks for
    (pkg/scheduling/dynamicresources/request.go)

    A claim is validated once per search: device classes and selectors are resolved, and
    requests for all devices are expanded.  Reading a device class and evaluating a CEL
    expression are parameters.  Texts of errors are left out. *)

From S2P Require Import Prelude Labels Requirement Objects Requirements Resources Devices DeviceConstraints.

#[local] Open Scope Z_scope.

(** ** Resource claims *)

(** A selector is a CEL expression; other kinds are [None]. *)
Abbreviation DeviceSelector := (option string).

(** What exact requests and alternatives have in common. *)
Record RequestSpec := mkRequestSpec {
  rq_DeviceClassName : string;
  rq_Selectors : list DeviceSelector;
  rq_AllocationMode : string;
  rq_Count : Z;
  rq_Capacity : option (gmap string Z);
}.

Record DeviceSubRequest := mkDeviceSubRequest { sub_Name : string; sub_Spec : RequestSpec }.

Record DeviceRequest := mkDeviceRequest {
  req_Name : string;
  req_Exactly : option RequestSpec;
  req_FirstAvailable : list DeviceSubRequest;
}.

Record DeviceConstraint := mkDeviceConstraint {
  dcon_Requests : list string;
  dcon_MatchAttribute : option string;
  dcon_DistinctAttribute : option string;
}.

Record ConsumerReference := mkConsumerReference { cr_APIGroup : string; cr_Resource : string; cr_UID : string }.

(** [rc_Allocation] is the allocation in the status, as its node selector. *)
Record ResourceClaim := mkResourceClaim {
  rc_Namespace : string;
  rc_Name : string;
  rc_Constraints : list DeviceConstraint;
  rc_Requests : list DeviceRequest;
  rc_Allocation : option (option (list Requirements));
  rc_ReservedFor : list ConsumerReference;
}.

Abbreviation ResourceClaimID := (string * string)%type.
Definition resourceClaimID (claim : ResourceClaim) : ResourceClaimID := (rc_Namespace claim, rc_Name claim).

Definition DeviceAllocationModeAll : string := "All".
Definition AllocationResultsMaxSize : Z := 32.

(** ** Parsed requests *)

Record RequestData := mkRequestData {
  rd_Name : RequestName;
  rd_NumDevices : Z;
  rd_All : bool;
  rd_AllDevices : list DeviceWithID;
  rd_AllTemplateDevicesByIT : gmap string (list DeviceWithID);
  rd_Selectors : list string;
  rd_CapacityRequests : gmap string Z;
}.

(** A request: exactly one of its kind, or alternatives in order of preference. *)
Inductive RequestTree := Exactly (rd : RequestData) | FirstAvailable (subs : list RequestData).

Record ClaimData := mkClaimData {
  cd_ID : ResourceClaimID;
  cd_Requests : list RequestTree;
  cd_Constraints : list MatchAttributeConstraint;
}.

Inductive request_error :=
| DeviceClassNotFound | UnsupportedSelector | CompileFailed | EvaluationFailed | PoolInvalid | PoolIncomplete
| DistinctAttributeUnsupported | UnsupportedConstraint | UnsupportedRequest | TooManyDevices | AllInstanceTypesPruned.

Section requests.
  (** The selectors of a device class, whether an expression compiles, and its value on a
      device of a driver ([None] is an error). *)
  Context (device_class : string → option (list DeviceSelector)) (cel_compiles : string → bool) (cel_matches : string → string → Device → option bool).

(** All selectors must match; the first that does not, or fails, decides. *)
Fixpoint DeviceMatchesSelectors (device : Device) (id : DeviceID) (selectors : list string) : option bool :=
  match selectors with
  | [] => Some true
  | s :: rest =>
      if negb (cel_compiles s) then None
      else match cel_matches s (id_Driver id) device with
           | None => None
           | Some false => Some false
           | Some true => DeviceMatchesSelectors device id rest
           end
  end.

Fixpoint collectAllModeFromDevices (selectors : list string) (devices : list DeviceWithID) : result request_error (list DeviceWithID) :=
  match devices with
  | [] => Ok []
  | d :: rest =>
      match DeviceMatchesSelectors (dw_Device d) (dw_ID d) selectors with
      | None => Err EvaluationFailed
      | Some ok => matched ← collectAllModeFromDevices selectors rest; Ok (if ok : bool then d :: matched else matched)
      end
  end.

Fixpoint collectAllModePoolDevices (selectors : list string) (pools : list Pool) : result request_error (list DeviceWithID) :=
  match pools with
  | [] => Ok []
  | pool :: rest =>
      if p_Invalid pool then Err PoolInvalid
      else if p_Incomplete pool then Err PoolIncomplete
      else matched ← collectAllModeFromDevices selectors (p_Devices pool);
           others ← collectAllModePoolDevices selectors rest;
           Ok (matched ++ others)
  end.

(** The matching template devices; an instance type without any is kept when there are
    devices in the cluster. *)
Fixpoint collectTemplates (selectors : list string) (inCluster : list DeviceWithID) (entries : list (string * list DeviceWithID))
    : result request_error (gmap string (list DeviceWithID)) :=
  match entries with
  | [] => Ok ∅
  | (itID, devices) :: rest =>
      matched ← collectAllModeFromDevices selectors devices;
      others ← collectTemplates selectors inCluster rest;
      Ok (if negb (bool_decide (matched = [])) || negb (bool_decide (inCluster = [])) then <[itID := matched]> others else others)
  end.

Definition buildRequestData (name : RequestName) (req : RequestSpec) (pools : list Pool) (templateDevicesByIT : gmap string (list DeviceWithID))
    : result request_error RequestData :=
  match device_class (rq_DeviceClassName req) with
  | None => Err DeviceClassNotFound
  | Some classSelectors =>
      match mapM id (classSelectors ++ rq_Selectors req) with
      | None => Err UnsupportedSelector
      | Some selectors =>
          if negb (forallb cel_compiles selectors) then Err CompileFailed
          else
            let capacity := default ∅ (rq_Capacity req) in
            if bool_decide (rq_AllocationMode req = DeviceAllocationModeAll) then
              inCluster ← collectAllModePoolDevices selectors pools;
              templates ← collectTemplates selectors inCluster (map_to_list templateDevicesByIT);
              Ok (mkRequestData name 0 true inCluster templates selectors capacity)
            else Ok (mkRequestData name (rq_Count req) false [] ∅ selectors capacity)
      end
  end.

Definition validateExactRequest (requestName : string) (req : RequestSpec) (pools : list Pool) (templates : gmap string (list DeviceWithID))
    : result request_error RequestTree :=
  rd ← buildRequestData (mkRequestName requestName EmptyString) req pools templates; Ok (Exactly rd).

Fixpoint validateFirstAvailableRequest (parentName : string) (subs : list DeviceSubRequest) (pools : list Pool) (templates : gmap string (list DeviceWithID))
    : result request_error (list RequestData) :=
  match subs with
  | [] => Ok []
  | sub :: rest =>
      rd ← buildRequestData (mkRequestName parentName (sub_Name sub)) (sub_Spec sub) pools templates;
      others ← validateFirstAvailableRequest parentName rest pools templates;
      Ok (rd :: others)
  end.

Fixpoint validateConstraints (constraints : list DeviceConstraint) : result request_error (list MatchAttributeConstraint) :=
  match constraints with
  | [] => Ok []
  | c :: rest =>
      match dcon_MatchAttribute c with
      | Some attribute =>
          others ← validateConstraints rest;
          Ok (mkMatchAttributeConstraint (list_to_set (dcon_Requests c)) attribute None None false [] :: others)
      | None => Err (if bool_decide (is_Some (dcon_DistinctAttribute c)) then DistinctAttributeUnsupported else UnsupportedConstraint)
      end
  end.

Fixpoint validateRequests (requests : list DeviceRequest) (pools : list Pool) (templates : gmap string (list DeviceWithID))
    : result request_error (list RequestTree) :=
  match requests with
  | [] => Ok []
  | req :: rest =>
      rd ← match req_Exactly req, req_FirstAvailable req with
           | Some spec, _ => validateExactRequest (req_Name req) spec pools templates
           | None, [] => Err UnsupportedRequest
           | None, subs => rds ← validateFirstAvailableRequest (req_Name req) subs pools templates; Ok (FirstAvailable rds)
           end;
      others ← validateRequests rest pools templates;
      Ok (rd :: others)
  end.

(** ** The limit on devices *)

Definition leaves (req : RequestTree) : list RequestData := match req with Exactly rd => [rd] | FirstAvailable subs => subs end.

Definition min_of (f : RequestData → Z) (subs : list RequestData) : Z := foldl (λ m rd, Z.min m (f rd)) int64_max subs.

(** The devices a request takes at least, whatever the instance type. *)
Definition base_devices (req : RequestTree) : Z :=
  match req with
  | Exactly rd => wrap64 (rd_NumDevices rd + Z.of_nat (length (rd_AllDevices rd)))
  | FirstAvailable subs => min_of (λ rd, wrap64 (rd_NumDevices rd + Z.of_nat (length (rd_AllDevices rd)))) subs
  end.

Definition templates_of (itID : string) (rd : RequestData) : list DeviceWithID := default [] (rd_AllTemplateDevicesByIT rd !! itID).

Definition template_devices (itID : string) (req : RequestTree) : Z :=
  match req with
  | Exactly rd => Z.of_nat (length (templates_of itID rd))
  | FirstAvailable subs => min_of (λ rd, Z.of_nat (length (templates_of itID rd))) subs
  end.

Definition total (f : RequestTree → Z) (requests : list RequestTree) : Z := foldl (λ acc req, wrap64 (acc + f req)) 0 requests.

Definition forget_templates (itID : string) (rd : RequestData) : RequestData :=
  mkRequestData (rd_Name rd) (rd_NumDevices rd) (rd_All rd) (rd_AllDevices rd) (delete itID (rd_AllTemplateDevicesByIT rd)) (rd_Selectors rd) (rd_CapacityRequests rd).

Definition map_leaves (f : RequestData → RequestData) (req : RequestTree) : RequestTree :=
  match req with Exactly rd => Exactly (f rd) | FirstAvailable subs => FirstAvailable (f <$> subs) end.

Definition allITs (requests : list RequestTree) : gset string :=
  ⋃ ((λ rd, dom (rd_AllTemplateDevicesByIT rd)) <$> (requests ≫= leaves)).

(** Whether the template devices of an instance type exceed the limit. *)
Definition over_limit (base : Z) (requests : list RequestTree) (itID : string) : bool :=
  AllocationResultsMaxSize <? wrap64 (base + total (template_devices itID) requests).

Definition ValidateClaimRequest (claim : ResourceClaim) (pools : list Pool) (templateDevicesByIT : gmap string (list DeviceWithID))
    : result request_error ClaimData :=
  constraints ← validateConstraints (rc_Constraints claim);
  requests ← validateRequests (rc_Requests claim) pools templateDevicesByIT;
  let base := total base_devices requests in
  if AllocationResultsMaxSize <? base then Err TooManyDevices
  else
    let its := allITs requests in
    let pruned := filter (λ itID, over_limit base requests itID = true) (elements its) in
    if negb (bool_decide (its = ∅)) && (length pruned =? size its)%nat then Err AllInstanceTypesPruned
    else Ok (mkClaimData (resourceClaimID claim) (foldl (λ reqs itID, map_leaves (forget_templates itID) <$> reqs) requests pruned) constraints).
End requests.

(** ** Properties *)

Section request_properties.
  Context (device_class : string → option (list DeviceSelector)) (cel_compiles : string → bool) (cel_matches : string → string → Device → option bool).

Abbreviation matches_selectors d ss := (DeviceMatchesSelectors cel_compiles cel_matches (dw_Device d) (dw_ID d) ss).

(** A device matches when every selector compiles and is true of it. *)
Theorem DeviceMatchesSelectors_spec device id selectors :
  DeviceMatchesSelectors cel_compiles cel_matches device id selectors = Some true ↔
  ∀ s, s ∈ selectors → cel_compiles s = true ∧ cel_matches s (id_Driver id) device = Some true.
Proof.
  induction selectors as [|s rest IH]; cbn [DeviceMatchesSelectors]; [split; [by intros _ s ?%elem_of_nil|done]|].
  setoid_rewrite elem_of_cons. destruct (cel_compiles s) eqn:Ec; cbn [negb].
  - destruct (cel_matches s (id_Driver id) device) as [[]|] eqn:Em; [|split; [done|]; intros H; destruct (H s); [by left|congruence]..].
    rewrite IH. naive_solver.
  - split; [done|]. intros H. destruct (H s); [by left|congruence].
Qed.

Lemma collect_spec selectors devices matched : collectAllModeFromDevices cel_compiles cel_matches selectors devices = Ok matched →
  matched = filter (λ d, matches_selectors d selectors = Some true) devices.
Proof.
  revert matched. induction devices as [|d rest IH]; intros matched; cbn [collectAllModeFromDevices]; [by intros [= <-]|].
  destruct (DeviceMatchesSelectors _ _ _ _ _) as [ok|] eqn:E; [|done].
  destruct (collectAllModeFromDevices _ _ selectors rest) as [others|]; [|done]. cbn [mbind result_bind]. intros [= <-]. rewrite filter_cons, E, (IH others) by done.
  destruct ok; [by rewrite decide_True|by rewrite decide_False].
Qed.

(** A request for all devices is expanded to exactly the matching devices of all pools, each
    of which must be valid and complete. *)
Theorem all_mode_devices selectors pools devices : collectAllModePoolDevices cel_compiles cel_matches selectors pools = Ok devices →
  (∀ pool, pool ∈ pools → p_Invalid pool = false ∧ p_Incomplete pool = false) ∧
  devices = filter (λ d, matches_selectors d selectors = Some true) (pools ≫= p_Devices).
Proof.
  revert devices. induction pools as [|pool pools IH]; intros devices; cbn [collectAllModePoolDevices].
  { intros [= <-]. split; [by intros p ?%elem_of_nil|done]. }
  destruct (p_Invalid pool) eqn:Ei; [done|]. destruct (p_Incomplete pool) eqn:Ec; [done|].
  destruct (collectAllModeFromDevices _ _ _ (p_Devices pool)) as [matched|] eqn:Em; [|done]. cbn [mbind result_bind].
  destruct (collectAllModePoolDevices _ _ _ pools) as [others|]; [|done]. cbn [mbind result_bind]. intros [= <-]. destruct (IH others eq_refl) as [Hp ->].
  split; [intros p [->|?]%elem_of_cons; auto|]. rewrite bind_cons, filter_app. f_equal. by apply collect_spec.
Qed.
End request_properties.
