(* ===== verification/DeviceAllocator.v ===== *)
(** * DeviceAllocator: the search for devices
    (pkg/scheduling/dynamicresources/allocator.go, the checks of partitionable_devices.go and
    consumable_capacity.go, and the adapters of
    pkg/controllers/provisioning/scheduling/dra.go)

    For every instance type a NodeClaim may still become, a depth-first search assigns
    devices to the requests of the claims, slot by slot, and undoes an assignment that leads
    nowhere.  The search is bounded in time: [expired n] tells whether the n-th look at the
    deadline finds it passed.  [None] is a run-time panic or a search that runs out of the
    depth it is given, which its users choose large enough. *)

From S2P Require Import Prelude Labels Requirement Objects Requirements Resources.
From S2P Require Import Devices DeviceConstraints DeviceCapacity DeviceTracker DeviceRequests.

#[local] Open Scope Z_scope.

(** ** What is searched for *)

(** The NodeClaim or node that the devices are for. *)
Record DraNode := mkDraNode {
  dn_ID : string;
  dn_NodeName : string;
  dn_NodePoolID : string;
  dn_Requirements : Requirements;
  dn_Superposed : bool;
  dn_InstanceTypes : list string;
  dn_ResourceSlices : gmap string (list TemplateSlice);
}.

Record DeviceAllocationResult := mkDeviceAllocationResult {
  dar_DeviceID : DeviceID;
  dar_ConsumedCapacity : option (gmap string Z);
  dar_RequestName : RequestName;
}.

Record ResourceClaimAllocationMetadata := mkClaimMetadata {
  rcm_NodeClaimID : string;
  rcm_ContributedRequirements : gmap string Requirements;
  rcm_TotalRequirements : Requirements;
  rcm_UsedTemplateDevices : bool;
  rcm_Devices : gmap string (list DeviceAllocationResult);
}.

Record Allocator := mkAllocator {
  a_tracker : AllocationTracker;
  a_attributeBindings : AttributeBindings;
  a_inClusterSlices : list ClusterSlice;
  a_poolCache : gmap string (list Pool);
  a_claims : gmap ResourceClaimID ResourceClaimAllocationMetadata;
  a_deletingPodUIDs : gset string;
}.

(** One assignment of the search. *)
Record deviceAllocationMetadata := mkAssignment {
  as_claimIndex : nat;
  as_device : DeviceWithID;
  as_consumedCapacity : option (gmap string Z);
  as_requestName : RequestName;
}.

Abbreviation matchKey := (DeviceID * nat * nat * option nat)%type.

(** What a search changes. *)
Record SearchState := mkSearchState {
  ss_allocatedDevices : gset DeviceID;
  ss_assignments : list deviceAllocationMetadata;
  ss_allocatingCounters : PoolCounters;
  ss_templateAllocatingCounters : PoolCounters;
  ss_allocatingCapacity : DeviceQuantities;
  ss_templateAllocatingCapacity : DeviceQuantities;
  ss_requirements : Requirements;
  ss_pools : list Pool;
  ss_snapshots : list (Requirements * list Pool);
  ss_constraints : list (list MatchAttributeConstraint);
  ss_matches : gmap matchKey bool;
  ss_looks : nat;
}.

Section search.
  Context `{LR : LabelRegistry}.
  Context (cel_compiles : string → bool) (cel_matches : string → string → Device → option bool).
  Context (expired : nat → bool).
  (** The tracker and the node do not change; the instance type, the claims, its template
      devices and their budget are those of one search. *)
  Context (tracker : AllocationTracker) (node : DraNode).
  Context (itID : string) (claimData : list ClaimData) (templateDevices : list DeviceWithID) (templateRemaining : option PoolCounters).

(** ** Counters *)

Definition allocating_counters (template : bool) (st : SearchState) : PoolCounters :=
  if template then ss_templateAllocatingCounters st else ss_allocatingCounters st.

Definition in_sets (sets : CounterSets) (set name : string) : option Z := counters ← sets !! set; counters !! name.

(** A counter of a pool is used up by what this search uses. *)
Definition used_up (remaining : CounterSets) (set : string) (entry : string * Z) : bool :=
  match in_sets remaining set entry.1 with
  | Some budget => wrap64 (Quantity_Value budget - Quantity_Value entry.2) <=? 0
  | None => false
  end.

(** Whether some counter of the pool that this search uses is used up. *)
Definition poolCountersExhausted (st : SearchState) (pool : Pool) : bool :=
  if bool_decide (p_CounterSets pool = ∅) then false
  else match RemainingCounters tracker !! p_Key pool, ss_allocatingCounters st !! p_Key pool with
       | Some remaining, Some allocating =>
           existsb (λ entry : string * gmap string Z, existsb (used_up remaining entry.1) (map_to_list entry.2)) (map_to_list allocating)
       | _, _ => false
       end.

(** What a device needs of one counter is left, beside what this search uses. *)
Definition counter_left (remaining allocating : CounterSets) (set : string) (entry : string * Z) : bool :=
  match in_sets remaining set entry.1 with
  | None => false
  | Some budget => let used := match in_sets allocating set entry.1 with Some v => Quantity_Value v | None => 0 end in
                   negb (wrap64 (Quantity_Value budget - used) <? Quantity_Value entry.2)
  end.

Definition checkCounters (st : SearchState) (device : Device) (key : PoolKey) (remaining : option CounterSets) (template : bool) : bool :=
  if negb (consumes_counters device) then true
  else match remaining with
       | None => false
       | Some remaining =>
           let allocating := default ∅ (allocating_counters template st !! key) in
           forallb (λ consumption : string * gmap string Z, bool_decide (is_Some (remaining !! consumption.1)) &&
             forallb (counter_left remaining allocating consumption.1) (map_to_list consumption.2)) (d_ConsumesCounters device)
       end.

(** The consumption of a device is added to, or taken back from, the counters in use. *)
Definition consume (sets : CounterSets) (consumption : string * gmap string Z) : CounterSets :=
  <[consumption.1 := add_qty (default ∅ (sets !! consumption.1)) consumption.2]> sets.
Definition deduct_counters (m : PoolCounters) (key : PoolKey) (device : Device) : PoolCounters :=
  if negb (consumes_counters device) then m
  else <[key := foldl consume (default ∅ (m !! key)) (d_ConsumesCounters device)]> m.
Definition restore_counters (m : PoolCounters) (key : PoolKey) (device : Device) : PoolCounters :=
  if negb (consumes_counters device) then m
  else match m !! key with
       | None => m
       | Some sets => <[key := foldl deduct_one sets (d_ConsumesCounters device)]> m
       end.

(** ** Capacity *)

Definition allocating_capacity (template : bool) (st : SearchState) : DeviceQuantities :=
  if template then ss_templateAllocatingCapacity st else ss_allocatingCapacity st.

(** What of a device is in use: before, by earlier pods, and in this search. *)
Definition capacity_sources (st : SearchState) (id : DeviceID) : list (gmap string Z) :=
  if id_Template id then
    [default ∅ (default ∅ (TemplateConsumedCapacityForIT tracker (dn_ID node) itID) !! id); default ∅ (ss_templateAllocatingCapacity st !! id)]
  else [default ∅ (PreallocatedConsumedCapacity tracker !! id); default ∅ (InflightConsumedCapacity tracker !! id); default ∅ (ss_allocatingCapacity st !! id)].

Definition in_use (st : SearchState) (id : DeviceID) (name : string) : Z :=
  foldr Z.add 0 ((λ src : gmap string Z, default 0 (src !! name)) <$> capacity_sources st id).

(** [Some None] when the device has too little left; a device without capacity consumes
    nothing ([Some (Some None)]). *)
Definition checkCapacity (st : SearchState) (dw : DeviceWithID) (rd : RequestData) : option (option (option (gmap string Z))) :=
  let device := dw_Device dw in
  if requestsContainNonExistCapacity (rd_CapacityRequests rd) (d_Capacity device) then Some None
  else if bool_decide (d_Capacity device = ∅) then Some (Some None)
  else
    consumed ← computeConsumedCapacity (rd_CapacityRequests rd) (d_Capacity device);
    Some (match consumed with
          | None => None
          | Some consumed =>
              if forallb (λ '(name, q), in_use st (dw_ID dw) name + q <=? default 0 (dc_Value <$> d_Capacity device !! name)) (map_to_list consumed)
              then Some (Some consumed) else None
          end).

(** The entry of a shared device exists even when nothing is consumed. *)
Definition deduct_capacity (m : DeviceQuantities) (id : DeviceID) (shared : bool) (consumed : option (gmap string Z)) : DeviceQuantities :=
  let m := if shared then <[id := default ∅ (m !! id)]> m else m in
  match consumed with
  | None => m
  | Some c => if bool_decide (c = ∅) then m else <[id := add_qty (default ∅ (m !! id)) c]> m
  end.
Definition restore_capacity (m : DeviceQuantities) (id : DeviceID) (consumed : option (gmap string Z)) : DeviceQuantities :=
  match consumed with
  | None => m
  | Some c => if bool_decide (c = ∅) then m else <[id := sub_qty (default ∅ (m !! id)) c]> m
  end.

(** ** Constraints *)

(** When one is violated, the ones before it take the device back. *)
Fixpoint add_constraints (cs : list MatchAttributeConstraint) (name : RequestName) (dw : DeviceWithID) : bool * list MatchAttributeConstraint :=
  match cs with
  | [] => (true, [])
  | m :: rest =>
      match mac_Add m name (dw_Device dw) (dw_ID dw) with
      | None => (false, m :: rest)
      | Some m' => match add_constraints rest name dw with
                   | (true, rest') => (true, m' :: rest')
                   | (false, rest') => (false, mac_Remove m' name :: rest')
                   end
      end
  end.

(** ** One device *)

Definition with_constraints (st : SearchState) (claimIdx : nat) (cs : list MatchAttributeConstraint) : SearchState :=
  mkSearchState (ss_allocatedDevices st) (ss_assignments st) (ss_allocatingCounters st) (ss_templateAllocatingCounters st) (ss_allocatingCapacity st)
    (ss_templateAllocatingCapacity st) (ss_requirements st) (ss_pools st) (ss_snapshots st) (<[claimIdx := cs]> (ss_constraints st)) (ss_matches st) (ss_looks st).
Definition with_matches (st : SearchState) (m : gmap matchKey bool) : SearchState :=
  mkSearchState (ss_allocatedDevices st) (ss_assignments st) (ss_allocatingCounters st) (ss_templateAllocatingCounters st) (ss_allocatingCapacity st)
    (ss_templateAllocatingCapacity st) (ss_requirements st) (ss_pools st) (ss_snapshots st) (ss_constraints st) m (ss_looks st).
Definition with_topology (st : SearchState) (reqs : Requirements) (pools : list Pool) (snapshots : list (Requirements * list Pool)) : SearchState :=
  mkSearchState (ss_allocatedDevices st) (ss_assignments st) (ss_allocatingCounters st) (ss_templateAllocatingCounters st) (ss_allocatingCapacity st)
    (ss_templateAllocatingCapacity st) reqs pools snapshots (ss_constraints st) (ss_matches st) (ss_looks st).
Definition look (st : SearchState) : SearchState :=
  mkSearchState (ss_allocatedDevices st) (ss_assignments st) (ss_allocatingCounters st) (ss_templateAllocatingCounters st) (ss_allocatingCapacity st)
    (ss_templateAllocatingCapacity st) (ss_requirements st) (ss_pools st) (ss_snapshots st) (ss_constraints st) (ss_matches st) (S (ss_looks st)).

Definition remove_constraints (st : SearchState) (claimIdx : nat) (name : RequestName) : SearchState :=
  with_constraints st claimIdx ((λ m, mac_Remove m name) <$> default [] (ss_constraints st !! claimIdx)).

(** The device is taken. *)
Definition record (st : SearchState) (claimIdx : nat) (rd : RequestData) (dw : DeviceWithID) (consumed : option (gmap string Z)) : SearchState :=
  let id := dw_ID dw in
  let t := id_Template id in
  let shared := d_AllowMultipleAllocations (dw_Device dw) in
  mkSearchState (ss_allocatedDevices st ∪ {[id]}) (ss_assignments st ++ [mkAssignment claimIdx dw consumed (rd_Name rd)])
    (if t then ss_allocatingCounters st else deduct_counters (ss_allocatingCounters st) (id_PoolKey id) (dw_Device dw))
    (if t then deduct_counters (ss_templateAllocatingCounters st) (id_PoolKey id) (dw_Device dw) else ss_templateAllocatingCounters st)
    (if t then ss_allocatingCapacity st else deduct_capacity (ss_allocatingCapacity st) id shared consumed)
    (if t then deduct_capacity (ss_templateAllocatingCapacity st) id shared consumed else ss_templateAllocatingCapacity st)
    (ss_requirements st) (ss_pools st) (ss_snapshots st) (ss_constraints st) (ss_matches st) (ss_looks st).

(** The device that was taken last is given back. *)
Definition unrecord (st : SearchState) (dw : DeviceWithID) (consumed : option (gmap string Z)) : SearchState :=
  let id := dw_ID dw in
  let t := id_Template id in
  mkSearchState (ss_allocatedDevices st ∖ {[id]}) (take (length (ss_assignments st) - 1) (ss_assignments st))
    (if t then ss_allocatingCounters st else restore_counters (ss_allocatingCounters st) (id_PoolKey id) (dw_Device dw))
    (if t then restore_counters (ss_templateAllocatingCounters st) (id_PoolKey id) (dw_Device dw) else ss_templateAllocatingCounters st)
    (if t then ss_allocatingCapacity st else restore_capacity (ss_allocatingCapacity st) id consumed)
    (if t then restore_capacity (ss_templateAllocatingCapacity st) id consumed else ss_templateAllocatingCapacity st)
    (ss_requirements st) (ss_pools st) (ss_snapshots st) (ss_constraints st) (ss_matches st) (ss_looks st).

(** Whether the device is free: by what is left of it when it is shared, else by who holds
    it.  [Some None] when it is not. *)
Definition available (st : SearchState) (dw : DeviceWithID) (rd : RequestData) : option (option (option (gmap string Z))) :=
  if d_AllowMultipleAllocations (dw_Device dw) then checkCapacity st dw rd
  else Some (if IsAllocated tracker (dw_ID dw) (dn_ID node) itID || bool_decide (dw_ID dw ∈ ss_allocatedDevices st) then None else Some None).

Definition counters_left (st : SearchState) (dw : DeviceWithID) : bool :=
  if negb (consumes_counters (dw_Device dw)) then true
  else
    let id := dw_ID dw in
    let key := id_PoolKey id in
    if id_Template id then checkCounters st (dw_Device dw) key (m ← templateRemaining; m !! key) true
    else if negb (existsb (λ p, bool_decide (p_Key p = key)) (ss_pools st)) then false
    else checkCounters st (dw_Device dw) key (RemainingCounters tracker !! key) false.

(** The selectors, with the cache of earlier answers; [None] is an error. *)
Definition device_matches (st : SearchState) (key : matchKey) (dw : DeviceWithID) (rd : RequestData) : option (bool * SearchState) :=
  match ss_matches st !! key with
  | Some m => Some (m, st)
  | None => (λ m, (m, with_matches st (<[key := m]> (ss_matches st)))) <$> DeviceMatchesSelectors cel_compiles cel_matches (dw_Device dw) (dw_ID dw) (rd_Selectors rd)
  end.

(** [next] goes on with the following slot. *)
Definition tryDevice (next : SearchState → option (bool * SearchState)) (claimIdx reqIdx : nat) (subIdx : option nat) (rd : RequestData) (dw : DeviceWithID)
    (st : SearchState) : option (bool * SearchState) :=
  match available st dw rd with
  | None => None
  | Some None => Some (false, st)
  | Some (Some consumed) =>
      if negb (counters_left st dw) then Some (false, st)
      else match device_matches st (dw_ID dw, claimIdx, reqIdx, subIdx) dw rd with
           | None => Some (false, st)
           | Some (false, st) => Some (false, st)
           | Some (true, st) =>
               let '(ok, cs) := add_constraints (default [] (ss_constraints st !! claimIdx)) (rd_Name rd) dw in
               let st := with_constraints st claimIdx cs in
               if negb ok then Some (false, st)
               else
                 let topology := dw_TopologyRequirements dw in
                 if negb (match topology with Some reqs => IsCompatible (ss_requirements st) reqs (compatibilityOptions (dn_Superposed node)) | None => true end)
                 then Some (false, remove_constraints st claimIdx (rd_Name rd))
                 else
                   let st := match topology with
                             | None => st
                             | Some reqs =>
                                 let requirements := Add (ss_requirements st) (Values reqs) in
                                 with_topology st requirements (FilterPools (ss_pools st) requirements (dn_NodeName node) (dn_Superposed node))
                                   ((copyRequirements (ss_requirements st), ss_pools st) :: ss_snapshots st)
                             end in
                   match next (record st claimIdx rd dw consumed) with
                   | None => None
                   | Some (true, st) => Some (true, st)
                   | Some (false, st) =>
                       let st := unrecord st dw consumed in
                       let st := match topology, ss_snapshots st with
                                 | Some _, (reqs, pools) :: rest => with_topology st reqs pools rest
                                 | _, _ => st
                                 end in
                       Some (false, remove_constraints st claimIdx (rd_Name rd))
                   end
           end
  end.

(** ** The search *)

(** The first alternative that succeeds; each starts from the state the one before left. *)
Fixpoint first_success {A} (f : A → SearchState → option (bool * SearchState)) (l : list A) (st : SearchState) : option (bool * SearchState) :=
  match l with
  | [] => Some (false, st)
  | x :: rest => match f x st with
                 | None => None
                 | Some (true, st) => Some (true, st)
                 | Some (false, st) => first_success f rest st
                 end
  end.

Definition numSlots (rd : RequestData) : Z :=
  if rd_All rd then Z.of_nat (length (rd_AllDevices rd) + length (templates_of itID rd)) else rd_NumDevices rd.

Definition claimDeviceCount (st : SearchState) (claimIdx : nat) : Z :=
  Z.of_nat (length (filter (λ a, as_claimIndex a = claimIdx) (ss_assignments st))).

(** One slot of a request for a number of devices: the pools, then the templates. *)
Definition dfsExactCount (try : DeviceWithID → SearchState → option (bool * SearchState)) (st : SearchState) : option (bool * SearchState) :=
  let in_pool pool st :=
    if p_Incomplete pool then Some (false, st)
    else let exhausted := poolCountersExhausted st pool in
         first_success (λ d st, if exhausted && consumes_counters (dw_Device d) then Some (false, st) else try d st) (p_Devices pool) st in
  match first_success in_pool (ss_pools st) st with
  | None => None
  | Some (true, st) => Some (true, st)
  | Some (false, st) => first_success try templateDevices st
  end.

(** One slot of a request for all devices: the device of this position. *)
Definition dfsAllMode (try : DeviceWithID → SearchState → option (bool * SearchState)) (rd : RequestData) (slotIdx : nat) (st : SearchState) : option (bool * SearchState) :=
  match (rd_AllDevices rd ++ templates_of itID rd) !! slotIdx with
  | Some d => try d st
  | None => Some (false, st)
  end.

Definition leaf (tree : RequestTree) (subIdx : option nat) : option RequestData :=
  match tree, subIdx with
  | Exactly rd, None => Some rd
  | FirstAvailable subs, Some i => subs !! i
  | _, _ => None
  end.

Fixpoint dfs (fuel claimIdx reqIdx : nat) (subIdx : option nat) (slotIdx : nat) (st : SearchState) : option (bool * SearchState) :=
  match fuel with
  | O => None
  | S fuel =>
      let timedOut := expired (ss_looks st) in
      let st := look st in
      if timedOut then Some (false, st)
      else match claimData !! claimIdx with
           | None => Some (true, st)
           | Some cd =>
               match cd_Requests cd !! reqIdx with
               | None => dfs fuel (S claimIdx) 0 None 0 st
               | Some tree =>
                   match tree, subIdx with
                   | FirstAvailable subs, None => first_success (λ i st, dfs fuel claimIdx reqIdx (Some i) 0 st) (seq 0 (length subs)) st
                   | _, _ =>
                       match leaf tree subIdx with
                       | None => None
                       | Some rd =>
                           let slots := numSlots rd in
                           if rd_All rd && (slots =? 0) then Some (false, st)
                           else if (slotIdx =? 0)%nat && (AllocationResultsMaxSize <? wrap64 (claimDeviceCount st claimIdx + slots)) then Some (false, st)
                           else if slots <=? Z.of_nat slotIdx then dfs fuel claimIdx (S reqIdx) None 0 st
                           else
                             let try d st := tryDevice (dfs fuel claimIdx reqIdx subIdx (S slotIdx)) claimIdx reqIdx subIdx rd d st in
                             if rd_All rd then dfsAllMode try rd slotIdx st else dfsExactCount try st
                       end
                   end
               end
           end
  end.

(** Deep enough for every path: a request has at most as many slots as the limit. *)
Definition search_depth : nat :=
  S (sum_list ((λ cd, S (35 * length (cd_Requests cd))) <$> claimData)).

(** ** Feasibility of counters *)

(** Taking a consumption from a copy of the budget; [None] when it does not fit. *)
Definition take_counter (counters : gmap string Z) (entry : string * Z) : option (gmap string Z) :=
  match counters !! entry.1 with
  | None => None
  | Some avail => if avail - entry.2 <? 0 then None else Some (<[entry.1 := avail - entry.2]> counters)
  end.
Definition take_consumption (sets : CounterSets) (consumption : string * gmap string Z) : option CounterSets :=
  match sets !! consumption.1 with
  | None => None
  | Some counters => (λ counters', <[consumption.1 := counters']> sets) <$> foldl_opt take_counter counters (map_to_list consumption.2)
  end.

(** The devices in order, with the copies of the budgets by pool and kind; a pool without a
    budget decides that the check is left to the search. *)
Fixpoint allModeFeasible (devices : list DeviceWithID) (shadow : gmap (PoolKey * bool) CounterSets) : bool :=
  match devices with
  | [] => true
  | d :: rest =>
      if negb (consumes_counters (dw_Device d)) then allModeFeasible rest shadow
      else
        let key := id_PoolKey (dw_ID d) in
        let t := id_Template (dw_ID d) in
        let budget := match shadow !! (key, t) with
                      | Some sets => Some sets
                      | None => if t then (m ← templateRemaining; m !! key) else RemainingCounters tracker !! key
                      end in
        match budget with
        | None => true
        | Some sets => match foldl_opt take_consumption sets (d_ConsumesCounters (dw_Device d)) with
                       | None => false
                       | Some sets' => allModeFeasible rest (<[(key, t) := sets']> shadow)
                       end
        end
  end.

Definition allModeCountersFeasible (rd : RequestData) : bool := allModeFeasible (rd_AllDevices rd ++ templates_of itID rd) ∅.

Definition countersFeasible : bool :=
  forallb (λ cd, forallb (λ tree, match tree with
    | FirstAvailable subs => bool_decide (subs = []) || existsb (λ rd, negb (rd_All rd) || allModeCountersFeasible rd) subs
    | Exactly rd => negb (rd_All rd) || allModeCountersFeasible rd
    end) (cd_Requests cd)) claimData.
End search.

(** ** All instance types *)

(** The devices of a template, with the requirements of its set. *)
Definition template_device (s : TemplateSlice) (d : Device) : DeviceWithID :=
  mkDeviceWithID d ((ts_key s, d_Name d), true) (if bool_decide (ts_Requirements s = ∅) then None else Some (ts_Requirements s)).

Definition templateDevicesByInstanceType (slices : gmap string (list TemplateSlice)) : gmap string (list DeviceWithID) :=
  map_imap (λ _ ss, let devices := ss ≫= λ s, template_device s <$> ts_Devices s in if bool_decide (devices = []) then None else Some devices) slices.

(** The budgets that templates declare; [None] when none does. *)
Definition add_totals (totals : PoolCounters) (s : TemplateSlice) : PoolCounters :=
  <[ts_key s := foldl (λ sets cs, <[cs.1 := cs.2 ∪ default ∅ (sets !! cs.1)]> sets) (default ∅ (totals !! ts_key s)) (ts_SharedCounters s)]> totals.
Definition computeTemplateTotals (slices : list TemplateSlice) : option PoolCounters :=
  match filter (λ s, ts_SharedCounters s ≠ []) slices with
  | [] => None
  | declaring => Some (foldl add_totals ∅ declaring)
  end.

Definition buildTemplateCounters (tracker : AllocationTracker) (node : DraNode) (itID : string) : option PoolCounters :=
  match TemplateRemainingForIT tracker (dn_ID node) itID with
  | Some remaining => Some remaining
  | None => slices ← dn_ResourceSlices node !! itID; computeTemplateTotals slices
  end.

(** What the searches of the instance types leave behind. *)
Record Progress := mkProgress {
  pr_requirements : Requirements;
  pr_matches : gmap matchKey bool;
  pr_looks : nat;
  pr_survivingITs : list string;
  pr_deviceIDsByIT : gmap string (list DeviceID);
  pr_counterConsumptionByIT : gmap string PoolCounters;
  pr_templateCounterConsumptionByIT : gmap string PoolCounters;
  pr_capacityConsumptionByIT : gmap string DeviceQuantities;
  pr_templateCapacityConsumptionByIT : gmap string DeviceQuantities;
  pr_templateCounterTotalsByIT : gmap string PoolCounters;
  pr_metas : list ResourceClaimAllocationMetadata;
}.

Section metadata.
  Context `{LR : LabelRegistry}.

(** One assignment is entered into the metadata of its claim. *)
Definition contribute (it : string) (a : deviceAllocationMetadata) (meta : ResourceClaimAllocationMetadata) : ResourceClaimAllocationMetadata :=
  let dw := as_device a in
  mkClaimMetadata (rcm_NodeClaimID meta)
    (match dw_TopologyRequirements dw with
     | Some reqs => <[it := Add (default (NewRequirements []) (rcm_ContributedRequirements meta !! it)) (Values reqs)]> (rcm_ContributedRequirements meta)
     | None => rcm_ContributedRequirements meta
     end)
    (rcm_TotalRequirements meta) (rcm_UsedTemplateDevices meta || id_Template (dw_ID dw))
    (<[it := default [] (rcm_Devices meta !! it) ++ [mkDeviceAllocationResult (dw_ID dw) (as_consumedCapacity a) (as_requestName a)]]> (rcm_Devices meta)).

(** The requirements that the devices of an instance type contribute. *)
Definition contributed (assignments : list deviceAllocationMetadata) : Requirements :=
  foldl (λ reqs a, match dw_TopologyRequirements (as_device a) with Some r => Add reqs (Values r) | None => reqs end) (NewRequirements []) assignments.

Definition with_total (meta : ResourceClaimAllocationMetadata) : ResourceClaimAllocationMetadata :=
  mkClaimMetadata (rcm_NodeClaimID meta) (rcm_ContributedRequirements meta)
    (Add (NewRequirements []) ((map_to_list (rcm_ContributedRequirements meta)).*2 ≫= Values))
    (rcm_UsedTemplateDevices meta) (rcm_Devices meta).

End metadata.

Inductive allocate_error :=
| IncompatibleAllocation | BoundToOtherNodeClaim | ClaimInvalid (e : request_error) | DeadlineExceeded | NoInstanceTypeSatisfies.

(** What is committed when the pod is placed. *)
Record FoundAllocation := mkFoundAllocation {
  fa_allocation : allocation;
  fa_filteredPools : list Pool;
  fa_claimMetadata : gmap ResourceClaimID ResourceClaimAllocationMetadata;
}.

Record AllocationResult := mkAllocationResult {
  ar_InstanceTypes : list string;
  ar_Requirements : Requirements;
  ar_Allocation : option FoundAllocation;
}.

Section allocator.
  Context `{LR : LabelRegistry}.
  Context (device_class : string → option (list DeviceSelector)) (cel_compiles : string → bool) (cel_matches : string → string → Device → option bool).
  Context (expired : nat → bool) (pool_order : gset PoolKey → list PoolKey).

Section instance_types.
  Context (a : Allocator) (node : DraNode) (claimData : list ClaimData) (templates : gmap string (list DeviceWithID)) (initialPools : list Pool).

(** A search starts with everything reset but the requirements and the cache of matches. *)
Definition restoreState (itID : string) (p : Progress) : SearchState :=
  let fallback := mkAttributeBindingFallback (a_attributeBindings a) (dn_NodePoolID node) itID in
  mkSearchState ∅ [] ∅ ∅ ∅ ∅ (pr_requirements p) initialPools []
    ((λ cd, (λ m, set_fallback (Some fallback) (mac_Reset m)) <$> cd_Constraints cd) <$> claimData) (pr_matches p) (pr_looks p).

(** A search that succeeded. *)
Definition succeeded (itID : string) (p : Progress) (templateRemaining : option PoolCounters) (st : SearchState) : Progress :=
  mkProgress (Add (ss_requirements st) (Values (contributed (ss_assignments st)))) (ss_matches st) (ss_looks st) (pr_survivingITs p ++ [itID])
    (<[itID := (λ x, dw_ID (as_device x)) <$> ss_assignments st]> (pr_deviceIDsByIT p))
    (<[itID := ss_allocatingCounters st]> (pr_counterConsumptionByIT p))
    (<[itID := ss_templateAllocatingCounters st]> (pr_templateCounterConsumptionByIT p))
    (<[itID := ss_allocatingCapacity st]> (pr_capacityConsumptionByIT p))
    (<[itID := ss_templateAllocatingCapacity st]> (pr_templateCapacityConsumptionByIT p))
    (match templateRemaining, TemplateRemainingForIT (a_tracker a) (dn_ID node) itID with
     | Some totals, None => <[itID := totals]> (pr_templateCounterTotalsByIT p)
     | _, _ => pr_templateCounterTotalsByIT p
     end)
    (foldl (λ metas x, alter (contribute itID x) (as_claimIndex x) metas) (pr_metas p) (ss_assignments st)).

Definition failed_search (p : Progress) (st : SearchState) : Progress :=
  mkProgress (ss_requirements st) (ss_matches st) (ss_looks st) (pr_survivingITs p) (pr_deviceIDsByIT p) (pr_counterConsumptionByIT p)
    (pr_templateCounterConsumptionByIT p) (pr_capacityConsumptionByIT p) (pr_templateCapacityConsumptionByIT p) (pr_templateCounterTotalsByIT p) (pr_metas p).

Definition with_look (p : Progress) : Progress :=
  mkProgress (pr_requirements p) (pr_matches p) (S (pr_looks p)) (pr_survivingITs p) (pr_deviceIDsByIT p) (pr_counterConsumptionByIT p)
    (pr_templateCounterConsumptionByIT p) (pr_capacityConsumptionByIT p) (pr_templateCapacityConsumptionByIT p) (pr_templateCounterTotalsByIT p) (pr_metas p).

Fixpoint allocate_all (instanceTypes : list string) (p : Progress) : option (result allocate_error Progress) :=
  match instanceTypes with
  | [] => Some (Ok p)
  | itID :: rest =>
      if expired (pr_looks p) then Some (Err DeadlineExceeded)
      else
        let p := with_look p in
        let templateRemaining := buildTemplateCounters (a_tracker a) node itID in
        if negb (countersFeasible (a_tracker a) itID claimData templateRemaining) then allocate_all rest p
        else match dfs cel_compiles cel_matches expired (a_tracker a) node itID claimData (default [] (templates !! itID)) templateRemaining
                     (search_depth claimData) 0 0 None 0 (restoreState itID p) with
             | None => None
             | Some (true, st) => allocate_all rest (succeeded itID p templateRemaining st)
             | Some (false, st) => allocate_all rest (failed_search p st)
             end
  end.

Definition start_progress (requirements : Requirements) : Progress :=
  mkProgress requirements ∅ 0 [] ∅ ∅ ∅ ∅ ∅ ∅ ((λ _, mkClaimMetadata (dn_ID node) ∅ (NewRequirements []) false ∅) <$> claimData).

Definition allocate (requirements : Requirements) (instanceTypes : list string) : option (result allocate_error AllocationResult) :=
  match allocate_all instanceTypes (start_progress requirements) with
  | None => None
  | Some (Err e) => Some (Err e)
  | Some (Ok p) =>
      if bool_decide (pr_survivingITs p = []) then Some (Err NoInstanceTypeSatisfies)
      else
        let metas := with_total <$> pr_metas p in
        Some (Ok (mkAllocationResult (pr_survivingITs p)
          (Add (NewRequirements []) (metas ≫= λ m, (map_to_list (rcm_ContributedRequirements m)).*2 ≫= Values))
          (Some (mkFoundAllocation
            (mkallocation (dn_ID node) (pr_deviceIDsByIT p) (pr_counterConsumptionByIT p) (pr_templateCounterConsumptionByIT p)
               (pr_capacityConsumptionByIT p) (pr_templateCapacityConsumptionByIT p) (pr_templateCounterTotalsByIT p))
            (FilterPools initialPools (pr_requirements p) (dn_NodeName node) (dn_Superposed node))
            (foldl (λ m '(cd, meta), <[cd_ID cd := meta]> m) ∅ (zip claimData metas))))))
  end.
End instance_types.

(** ** Classifying claims *)

Definition claimReservedEntirelyByDeletingPods (a : Allocator) (claim : ResourceClaim) : bool :=
  negb (bool_decide (rc_ReservedFor claim = [])) &&
  forallb (λ ref, bool_decide (cr_Resource ref = "pods") && bool_decide (cr_APIGroup ref = EmptyString) && bool_decide (cr_UID ref ∈ a_deletingPodUIDs a)) (rc_ReservedFor claim).

(** The claims to search for, and the requirements of those that are allocated. *)
Fixpoint classify (a : Allocator) (node : DraNode) (claims : list ResourceClaim) (requirements : Requirements)
    : result allocate_error (list ResourceClaim * Requirements) :=
  match claims with
  | [] => Ok ([], requirements)
  | claim :: rest =>
      let compatible reqs := IsCompatible requirements reqs (compatibilityOptions (dn_Superposed node)) in
      let unallocated := '(claims, reqs) ← classify a node rest requirements; Ok (claim :: claims, reqs) in
      let narrowed reqs := if compatible reqs then classify a node rest (Add requirements (Values reqs)) else Err IncompatibleAllocation in
      match rc_Allocation claim with
      | Some selector =>
          if claimReservedEntirelyByDeletingPods a claim then unallocated
          else match nodeSelectorsToRequirements selector with
               | Some reqs => narrowed reqs
               | None => classify a node rest requirements
               end
      | None =>
          match a_claims a !! resourceClaimID claim with
          | Some meta =>
              if rcm_UsedTemplateDevices meta then
                if negb (bool_decide (rcm_NodeClaimID meta = dn_ID node)) then Err BoundToOtherNodeClaim else classify a node rest requirements
              else if bool_decide (rcm_TotalRequirements meta = ∅) then classify a node rest requirements
              else narrowed (rcm_TotalRequirements meta)
          | None => unallocated
          end
      end
  end.

Definition ClassifyClaims (a : Allocator) (node : DraNode) (claims : list ResourceClaim) : result allocate_error (list ResourceClaim * Requirements) :=
  classify a node claims (copyRequirements (dn_Requirements node)).

Fixpoint validate_claims (claims : list ResourceClaim) (pools : list Pool) (templates : gmap string (list DeviceWithID)) : result allocate_error (list ClaimData) :=
  match claims with
  | [] => Ok []
  | claim :: rest =>
      match ValidateClaimRequest device_class cel_compiles cel_matches claim pools templates with
      | Err e => Err (ClaimInvalid e)
      | Ok cd => others ← validate_claims rest pools templates; Ok (cd :: others)
      end
  end.

Definition Allocate (a : Allocator) (node : DraNode) (claims : list ResourceClaim) : option (result allocate_error AllocationResult) :=
  if bool_decide (claims = []) then Some (Ok (mkAllocationResult (dn_InstanceTypes node) (NewRequirements []) None))
  else match ClassifyClaims a node claims with
       | Err e => Some (Err e)
       | Ok ([], requirements) => Some (Ok (mkAllocationResult (dn_InstanceTypes node) requirements None))
       | Ok (unallocated, requirements) =>
           let pools := match a_poolCache a !! dn_ID node with
                        | Some cached => FilterPools cached requirements (dn_NodeName node) (dn_Superposed node)
                        | None => GatherPools pool_order (a_inClusterSlices a) requirements (dn_NodeName node) (dn_Superposed node)
                        end in
           let templates := templateDevicesByInstanceType (dn_ResourceSlices node) in
           match validate_claims unallocated pools templates with
           | Err e => Some (Err e)
           | Ok claimData => allocate a node claimData templates pools requirements (dn_InstanceTypes node)
           end
       end.

(** ** The allocator's state *)

Definition NewAllocator (inClusterSlices : list ClusterSlice) (state : AllocatedDeviceState) (bindings : AttributeBindings) (deletingPodUIDs : gset string) : Allocator :=
  mkAllocator (foldl InitRemainingCounters (NewAllocationTracker state) (GatherPools pool_order inClusterSlices (NewRequirements []) EmptyString true))
    bindings inClusterSlices ∅ ∅ deletingPodUIDs.

Definition commit_claim (claims : gmap ResourceClaimID ResourceClaimAllocationMetadata) (entry : ResourceClaimID * ResourceClaimAllocationMetadata)
    : option (gmap ResourceClaimID ResourceClaimAllocationMetadata) :=
  match claims !! entry.1 with
  | Some _ => None
  | None => Some (<[entry.1 := entry.2]> claims)
  end.

Definition Commit (a : Allocator) (found : FoundAllocation) : option Allocator :=
  tracker ← Tracker_Commit (a_tracker a) (fa_allocation found);
  claims ← foldl_opt commit_claim (a_claims a) (map_to_list (fa_claimMetadata found));
  Some (mkAllocator tracker (a_attributeBindings a) (a_inClusterSlices a)
          (<[al_nodeClaimID (fa_allocation found) := fa_filteredPools found]> (a_poolCache a)) claims (a_deletingPodUIDs a)).

(** The total is computed again when a released instance type contributed to it. *)
Definition release_claim (nodeClaimID : string) (its : list string) (meta : ResourceClaimAllocationMetadata) : ResourceClaimAllocationMetadata :=
  if negb (bool_decide (rcm_NodeClaimID meta = nodeClaimID)) then meta
  else
    let needsRecomputation := existsb (λ it, negb (bool_decide (default ∅ (rcm_ContributedRequirements meta !! it) = (∅ : Requirements)))) its in
    let released := mkClaimMetadata (rcm_NodeClaimID meta) (release its (rcm_ContributedRequirements meta)) (rcm_TotalRequirements meta)
                      (rcm_UsedTemplateDevices meta) (release its (rcm_Devices meta)) in
    if needsRecomputation then with_total released else released.

Definition ReleaseInstanceType (a : Allocator) (nodeClaimID : string) (its : list string) : option Allocator :=
  tracker ← ReleaseInstanceTypes (a_tracker a) nodeClaimID its;
  Some (mkAllocator tracker (a_attributeBindings a) (a_inClusterSlices a) (a_poolCache a) (release_claim nodeClaimID its <$> a_claims a) (a_deletingPodUIDs a)).
End allocator.
