(* ===== verification/Examples.v ===== *)
(** * Examples: a small cluster

    Concrete instances of the interfaces the components are stated over, and for each
    theorem with hypotheses an input that meets them. *)

From stdpp Require Import pretty.
From S2P Require Import Prelude Labels Requirement Objects Requirements Resources Taints HostPorts.
From S2P Require Import Volumes InstanceTypes Reservations PodState Preferences Parallel SchedQueue TopologyGroup.
From S2P Require Import Topology NodeClaims Templates ExistingNodes Scheduler SchedulerSetup Solver.

(** ** Instances *)

#[local] Existing Instance default_registry.
#[local] Existing Instance default_registry_stable.
#[local] Existing Instance simple_taint_api.

Definition matches_expression (key : string) (op : LabelSelectorOperator) (vals : list string) : Selector :=
  λ labels, match op, labels !! key with
            | SelIn, Some v => bool_decide (v ∈ vals)
            | SelNotIn, Some v => negb (bool_decide (v ∈ vals))
            | SelNotIn, None | SelDoesNotExist, None | SelExists, Some _ => true
            | _, _ => false
            end.

Program Definition example_selector_api : SelectorApi := {|
  LabelSelectorAsSelector s := Some (λ labels,
    match s with
    | None => false
    | Some s => map_forallb (λ k v, bool_decide (labels !! k = Some v)) (MatchLabels s) &&
                forallb (λ e, matches_expression (lsr_Key e) (lsr_Operator e) (lsr_Values e) labels) (MatchExpressions s)
    end);
  labels_NewRequirement key op vals := Some
    match op with
    | SelectionEquals => matches_expression key SelIn vals
    | SelectionOp op => matches_expression key op vals
    end;
|}.
Next Obligation. eexists. by split. Qed.
#[local] Existing Instance example_selector_api.

Definition example_hash_api : HashApi := {|
  hash_expression e := Z.pos (encode (lsr_Key e));
  hash_labels m := Z.pos (encode m);
  hash_selector es l := (Z.of_nat (size es) + l)%Z;
  hash_group key ty ns skew _ sel :=
    Z.pos (encode (key, match ty with TopologyTypeSpread => 0 | TopologyTypePodAffinity => 1 | _ => 2 end, skew, sel));
|}.
#[local] Existing Instance example_hash_api.

Definition encode_override (capacity : ResourceList) (overhead : option InstanceTypeOverhead) : string :=
  pretty (N.pos (encode (capacity, (λ o, (KubeReserved o, SystemReserved o, EvictionThreshold o)) <$> overhead))).

Definition example_env : SchedulerEnv := {|
  override_text := encode_override;
  ReservationIDLabel := "example.com/reservation-id";
  draw _ := 0%Z;
  ParseIP _ := IPv4 0;
|}.
#[local] Existing Instance example_env.

(** ** A cluster with one node in zone a, where a web pod runs *)

Definition zone : string := LabelTopologyZone.

Definition web_labels : gmap string string := {["app" := "web"]}.

Definition labelled_pod (name : string) (labels : gmap string string) (nodeName : string) (phase : PodPhase) : Pod :=
  mkPod "default" name name labels ∅ 0 ∅ None [] [] [] None nodeName
    (mkPodStatus phase [] EmptyString None) None [] [] [] [].

Definition web_selector : LabelSelector := mkLabelSelector web_labels [].

Definition running_web : Pod := labelled_pod "web-0" web_labels "node-1" PodRunning.

Definition node_1 : Node := mkNode "node-1" {[zone := "zone-a"]} ∅ 0 None [] "aws:///node-1" ∅ ∅ [].

Program Definition example_kube : KubeReader string := {|
  ListPods ns sel := Ok (filter (λ p, pod_Namespace p = ns ∧ sel (pod_Labels p) = true) [running_web]);
  ListNamespaces _ := Ok ["default"];
  GetNode name := Ok (if bool_decide (name = "node-1") then Some node_1 else None);
|}.
Next Obligation. intros name node. simpl. case_bool_decide; intros [= <-]. done. Qed.
#[local] Existing Instance example_kube.

Definition cores (n : Z) : ResourceList := {[ResourceCPU := (n * unit_quantity)%Z]}.

Definition offering_in (z : string) (price : Z) : Offering :=
  mkOffering (NewLabelRequirements {[zone := z; CapacityTypeLabelKey := CapacityTypeOnDemand]}) price true 0 ∅ None false.

Definition instance_type (name : string) (cpu price : Z) : InstanceType :=
  mkInstanceType name (NewLabelRequirements {[LabelInstanceTypeStable := name]})
    [offering_in "zone-a" price; offering_in "zone-b" (price + 1)] (cores cpu) ∅ (mkOverhead ∅ ∅ ∅) false.

Lemma instance_type_wf name cpu price : (0 ≤ cpu)%Z → capacity_wf (instance_type name cpu price).
Proof. intros Hc k q Hk. cbn [instance_type Capacity] in Hk. unfold cores in Hk. apply lookup_singleton_Some in Hk as [_ <-]. unfold unit_quantity. lia. Qed.

Definition small : InstanceType := instance_type "small" 2 10.
Definition large : InstanceType := instance_type "large" 8 30.

Definition pool_template : NodeClaimTemplate :=
  mkNodeClaimTemplate "default" [] (NewLabelRequirements {[NodePoolLabelKey := "default"]}) [small; large].

Definition daemon_group : DaemonOverheadGroup :=
  mkDaemonOverheadGroup [small; large] {[ResourceCPU := 500000000%Z]} NewHostPortUsage.

Definition example_config : SchedulerConfig :=
  mkConfig [pool_template] [[daemon_group]] (mkPreferences false) PreferencePolicyRespect MinValuesPolicyStrict
    ReservedOfferingModeFallback ∅ false ∅ ∅.

Definition empty_topology : Topology := mkTopology PreferencePolicyRespect ∅ ∅ ∅ ∅.

Definition existing_1 : ExistingNode :=
  mkExistingNode "node-1" true [] NewHostPortUsage NewVolumeUsage [] (cores 1)
    (NewLabelRequirements {[zone := "zone-a"; LabelHostname := "node-1"]}) false.

(** The pool may have ten cores more. *)
Definition example_scheduler : Scheduler :=
  mkScheduler [] [existing_1] {["default" := cores 10]} ∅ empty_topology (mkRM ∅ ∅) 0 ∅.

Definition example_pods : list Pod := [plain_pod "a"; plain_pod "b"; plain_pod "c"; plain_pod "d"].

(** Every pod asks for one core; the context never ends. *)
Definition example_solve (s : Scheduler) (pods : list Pod) : option (Scheduler * Results string * option bool) :=
  Scheduler_Solve (E := string) example_config false None [] (λ _, cores 1) (λ _, Ok ∅) (λ _, None) (λ _, None) (λ _, [])
    s pods.

(** One pod fits the node of the cluster and one claim takes the other three. *)
Example example_run :
  (λ '(s, results, err), (length <$> (en_Pods <$> existingNodes s),
     length <$> (nc_Pods <$> newNodeClaims s), (λ n, it_Name <$> InstanceTypeOptions n) <$> newNodeClaims s, size (PodErrors results), err))
    <$> example_solve example_scheduler example_pods
  = Some ([1], [3], [["large"]], 0, None).
Proof. vm_compute. reflexivity. Qed.

(** ** Whole runs *)

Lemma example_run_returns : ∃ s' results, example_solve example_scheduler example_pods = Some (s', results, None).
Proof.
  assert (match example_solve example_scheduler example_pods with Some (_, _, None) => true | _ => false end = true) as H
    by (vm_compute; reflexivity). revert H.
  destruct (example_solve example_scheduler example_pods) as [[[s' r] [e|]]|]; intros H; [discriminate H|exists s', r; reflexivity|discriminate H].
Qed.

Lemma Solve_overcommits_nothing_witness :
  ∃ s' results, example_solve example_scheduler example_pods = Some (s', results, None) ∧
    (∀ n, n ∈ NewNodeClaims results → claim_has_room (λ _, cores 1) n) ∧
    (∀ i n, ExistingNodes results !! i = Some n → en_Pods n ≠ [] →
       ∃ before, [existing_1] !! i = Some before ∧ existing_within (λ _, cores 1) before n).
Proof.
  destruct example_run_returns as (s' & results & H). exists s', results. split; [exact H|].
  unfold example_solve in H. apply Solve_overcommits_nothing in H as (_ & _ & H1 & H2); [split; [exact H1|exact H2]|..].
  - apply (bool_decide_unpack _). vm_compute. reflexivity.
  - reflexivity.
  - reflexivity.
  - change (existingNodes example_scheduler) with [existing_1]. intros n Hn. apply list_elem_of_singleton in Hn.
    rewrite Hn. reflexivity.
Defined.

Lemma Solve_places_once_witness :
  ∃ s' results leftover, example_solve example_scheduler example_pods = Some (s', results, None) ∧
    NoDup leftover ∧ (∀ uid, is_Some (PodErrors results !! uid) ↔ uid ∈ leftover) ∧
    placed_uids s' ++ leftover ≡ₚ ["a"; "b"; "c"; "d"].
Proof.
  destruct example_run_returns as (s' & results & H).
  pose proof H as H0. unfold example_solve in H0. apply Solve_places_once in H0 as (leftover & H1 & H2 & H3).
  - exists s', results, leftover. auto.
  - apply (bool_decide_unpack _). vm_compute. reflexivity.
Defined.

Lemma Solve_respects_limits_witness :
  ∃ s' results, example_solve example_scheduler example_pods = Some (s', results, None) ∧
    (sumZ ((λ n, qty (Capacity large) ResourceCPU) <$>
       filter (λ n, NodePoolName n = "default") (NewNodeClaims results)) ≤ 10 * unit_quantity)%Z.
Proof.
  assert (∃ s' results, example_solve example_scheduler example_pods = Some (s', results, None) ∧
    forallb (λ n, bool_decide (large ∈ InstanceTypeOptions n)) (NewNodeClaims results) = true) as (s' & results & H & Hall).
  { destruct example_run_returns as (s' & results & H). exists s', results. split; [done|].
    assert (match example_solve example_scheduler example_pods with
            | Some (_, r, _) => forallb (λ n, bool_decide (large ∈ InstanceTypeOptions n)) (NewNodeClaims r)
            | None => false end = true) as Hb by (vm_compute; reflexivity).
    by rewrite H in Hb. }
  exists s', results. split; [exact H|].
  unfold example_solve in H.
  apply (Solve_respects_limits _ _ _ _ _ _ _ _ _ _ _ _ _ _ "default" ResourceCPU (10 * unit_quantity) (λ _, large)) in H;
    [exact H|..].
  - discriminate.
  - change (nodeClaimTemplates example_config) with [pool_template]. intros nct Hn. apply list_elem_of_singleton in Hn.
    rewrite Hn. change (nct_InstanceTypeOptions pool_template) with [small; large].
    apply Forall_cons; split; [|apply Forall_cons; split; [|apply Forall_nil_2]]; apply instance_type_wf; lia.
  - reflexivity.
  - reflexivity.
  - unfold unit_quantity. lia.
  - intros n Hn. rewrite forallb_forall in Hall. apply list_elem_of_In, Hall, bool_decide_eq_true in Hn. exact Hn.
Defined.




(** ** Deciding well-formedness *)

Definition bound_check (b : option Z) : bool :=
  match b with Some z => (int64_min <=? z)%Z && (z <=? int64_max)%Z | None => true end.

Definition requirement_check (r : Requirement) : bool :=
  bound_check (gte r) && bound_check (lte r) && negb (bounds_conflict (gte r) (lte r)) &&
  (complement r || bool_decide (gte r = None ∧ lte r = None)).

Definition requirements_check (r : Requirements) : bool :=
  map_forallb (λ k req, bool_decide (Key req = k) && bool_decide (normalize_key (Key req) = Key req) &&
                        requirement_check req) r.

Lemma bound_check_ok b : bound_check b = true → from_option in_int64 True b.
Proof. destruct b; simpl; [|done]. rewrite andb_true_iff, !Z.leb_le. done. Qed.

Lemma requirement_check_ok r : requirement_check r = true → requirement_wf r.
Proof.
  unfold requirement_check. rewrite !andb_true_iff, negb_true_iff, orb_true_iff, bool_decide_eq_true.
  intros (((H1%bound_check_ok & H2%bound_check_ok) & H3) & H4). split_and!; [by split|done|].
  destruct H4; [congruence|done].
Qed.

Lemma requirements_check_ok r : requirements_check r = true → requirements_wf r.
Proof.
  unfold requirements_check. rewrite map_forallb_spec. intros H k req Hk. specialize (H k req Hk).
  rewrite !andb_true_iff, !bool_decide_eq_true in H. destruct H as [[? ?] ?%requirement_check_ok]. done.
Qed.

Definition group_check (t : TopologyGroup) : bool :=
  bool_decide (emptyDomains t = dom (filter (λ kv : string * Z, kv.2 = 0%Z) (domains t))) &&
  map_forallb (λ _ c, (0 <=? c)%Z && (c <? int32_max - 1)%Z) (domains t).

Lemma group_check_ok t : group_check t = true → group_inv t.
Proof.
  unfold group_check. rewrite andb_true_iff, bool_decide_eq_true, map_forallb_spec. intros [He Hc]. split.
  - intros d. rewrite He, elem_of_dom. split.
    + intros [c [Hd Hz]%map_lookup_filter_Some]. simpl in Hz. congruence.
    + intros Hd. exists 0%Z. by apply map_lookup_filter_Some.
  - intros d c Hd. specialize (Hc d c Hd). rewrite andb_true_iff, Z.leb_le, Z.ltb_lt in Hc. done.
Qed.

(** ** Topology *)

(** Web pods spread over two zones, with one pod in zone a. *)
Definition group_with (ty : TopologyType) (skew : Z) (counts : gmap string Z) (owner : gset string) : TopologyGroup :=
  mkTopologyGroup zone ty skew None {["default"]} everything (Some web_selector) no_filter owner counts
    (dom (filter (λ kv : string * Z, kv.2 = 0%Z) counts)).

Definition one_in_a : gmap string Z := {["zone-a" := 1%Z; "zone-b" := 0%Z]}.
Definition spread_group : TopologyGroup := group_with TopologyTypeSpread 1 one_in_a {["a"]}.
Definition affinity_example : TopologyGroup := group_with TopologyTypePodAffinity int32_max one_in_a {["a"]}.
Definition anti_group : TopologyGroup := group_with TopologyTypePodAntiAffinity int32_max one_in_a {["a"]}.
Definition any_zone : Requirement := simple_requirement zone OpExists None.
Definition zoned : Requirements := NewLabelRequirements {[zone := "zone-a"]}.

Lemma spread_group_wf : spread_wf spread_group.
Proof.
  split; [apply group_check_ok; vm_compute; reflexivity|split; vm_compute; discriminate|reflexivity|vm_compute; discriminate].
Qed.

Lemma nextDomainAntiAffinity_spec_witness :
  Has (nextDomainAntiAffinity anti_group any_zone any_zone) "zone-b" = true ↔
  domains anti_group !! "zone-b" = Some 0%Z ∧ Has any_zone "zone-b" = true ∧ Has any_zone "zone-b" = true.
Proof.
  apply (nextDomainAntiAffinity_spec anti_group any_zone any_zone "zone-b");
    [apply group_check_ok; vm_compute; reflexivity|apply simple_requirement_wf].
Defined.

Lemma nextDomainAffinity_spec_witness :
  (∃ d, occupied affinity_example any_zone any_zone d) ∧
  ∀ d, Has (nextDomainAffinity affinity_example (plain_pod "a") any_zone any_zone) d = true ↔
    occupied affinity_example any_zone any_zone d.
Proof.
  pose proof (nextDomainAffinity_spec affinity_example (plain_pod "a") any_zone any_zone) as H.
  change (known_host affinity_example any_zone) with (@None string) in H. destruct H as [H _];
    [apply group_check_ok; vm_compute; reflexivity|apply simple_requirement_wf|].
  assert (∃ d, occupied affinity_example any_zone any_zone d) as Hocc.
  { exists "zone-a". split; [exists 1%Z; split; [reflexivity|lia]|split; reflexivity]. }
  split; [exact Hocc|exact (H Hocc)].
Defined.

Lemma nextDomainTopologySpread_spec_witness :
  let '(req, valid) := nextDomainTopologySpread spread_group (plain_pod "a") any_zone any_zone in
  ∃ min, global_minimum spread_group any_zone min ∧
    (∀ d, d ∈ valid ↔ eligible spread_group (plain_pod "a") min any_zone d) ∧
    ((valid = ∅ ∧ req = requirement_DoesNotExist zone) ∨
     ∃ d, d ∈ valid ∧ req = requirement_In zone d ∧
       ∀ d', d' ∈ valid → (domain_count spread_group d ≤ domain_count spread_group d')%Z).
Proof.
  apply (nextDomainTopologySpread_spec spread_group (plain_pod "a") any_zone any_zone);
    [apply spread_group_wf|apply simple_requirement_wf].
Defined.

Lemma spread_keeps_skew_witness : skew_ok any_zone (TopologyGroup_Record spread_group ["zone-b"]).
Proof.
  apply (spread_keeps_skew any_zone spread_group).
  - apply rtc_once. apply (placed any_zone spread_group (plain_pod "a") any_zone "zone-b");
      [apply spread_group_wf|apply simple_requirement_wf|reflexivity|reflexivity|].
    apply (bool_decide_unpack _). vm_compute. reflexivity.
  - intros d c Hd _. unfold spread_group, group_with, one_in_a in Hd. simpl in Hd.
    replace (domainMinCount spread_group any_zone) with 0%Z by (vm_compute; reflexivity).
    apply lookup_insert_Some in Hd as [[_ <-]|[_ [_ <-]%lookup_singleton_Some]]; vm_compute; discriminate.
Defined.

Definition example_topology : Topology :=
  mkTopology PreferencePolicyRespect {[1%Z := spread_group]} {[2%Z := anti_group]} ∅ ∅.

Lemma AddRequirements_spec_witness :
  (is_ok (AddRequirements (E := string) example_topology (plain_pod "a") [] ∅ zoned WellKnownLabels) = true ↔
   ∀ tg, tg ∈ getMatchingTopologies example_topology (plain_pod "a") [] zoned WellKnownLabels →
     (Len (offered_domains (plain_pod "a") ∅ zoned tg) ≠ 0)%Z).
Proof.
  apply (AddRequirements_spec (E := string) example_topology (plain_pod "a") [] ∅ zoned WellKnownLabels).
  apply requirements_check_ok. vm_compute. reflexivity.
Defined.

(** After the pod another one is recorded, and then a host registered. *)
Lemma inverse_anti_affinity_enforced_witness :
  let t1 := Topology_Record example_topology (plain_pod "a") [] zoned WellKnownLabels in
  let t2 := Topology_Register (Topology_Record t1 (plain_pod "a") [] zoned WellKnownLabels) LabelHostname "host-9" in
  ∃ reqs', AddRequirements (E := string) t2 (plain_pod "q") [] ∅ ∅ WellKnownLabels = Ok reqs' ∧
    Has (Get reqs' (normalize_key (tg_Key anti_group))) "zone-a" = false.
Proof.
  cbn zeta. set (t1 := Topology_Record example_topology (plain_pod "a") [] zoned WellKnownLabels).
  set (t2 := Topology_Register _ _ _).
  assert (is_ok (AddRequirements (E := string) t2 (plain_pod "q") [] ∅ ∅ WellKnownLabels) = true) as Hok by (vm_compute; reflexivity).
  destruct (AddRequirements (E := string) t2 (plain_pod "q") [] ∅ ∅ WellKnownLabels) as [reqs'|e] eqn:Ea; [|discriminate Hok].
  exists reqs'. split; [reflexivity|].
  assert (∀ t, map_forallb (λ _ tg, map_forallb (λ _ c, (0 <=? c)%Z && (c <? 100)%Z) (domains tg)) (inverseTopologyGroups t) = true →
    counts_have_room t) as Hroom.
  { intros t Ht h tg d Hl. pose proof (proj1 (map_forallb_spec _ _) Ht h tg Hl) as Ht1. pose proof (proj1 (map_forallb_spec _ _) Ht1) as Ht2.
    unfold domain_count. destruct (domains tg !! d) as [c|] eqn:Ed; [|vm_compute; reflexivity].
    specialize (Ht2 d c Ed). apply andb_true_iff in Ht2 as [_ Ht3%Z.ltb_lt]. unfold int32_max. simpl. lia. }
  refine (inverse_anti_affinity_enforced (E := string) [] example_topology (plain_pod "a") (plain_pod "q") [] zoned
    WellKnownLabels t2 [] ∅ ∅ WellKnownLabels reqs' 2 anti_group "zone-a" _ _ _ _ _ _ _ _ _ _ _ Ea).
  - reflexivity.
  - vm_compute. reflexivity.
  - reflexivity.
  - apply group_check_ok. vm_compute. reflexivity.
  - apply Hroom. vm_compute. reflexivity.
  - pose proof (requirements_check_ok zoned ltac:(vm_compute; reflexivity)) as Hz.
    destruct (zoned !! tg_Key anti_group) as [r|] eqn:Er; [|exfalso; revert Er; vm_compute; discriminate].
    unfold Get. rewrite Er. exact (proj2 (proj2 (Hz _ _ Er))).
  - vm_compute. reflexivity.
  - vm_compute. reflexivity.
  - eapply rtc_l; [apply (topology_recorded [] t1 (plain_pod "a") [] zoned WellKnownLabels); apply Hroom; vm_compute; reflexivity|].
    apply rtc_once. apply topology_registered.
  - intros k r Hk. rewrite lookup_empty in Hk. discriminate Hk.
  - vm_compute. reflexivity.
Defined.

(** A pod that spreads the web pods over the zones. *)
Definition spreading_pod : Pod :=
  with_spreads (plain_pod "a") [mkTSC 1 zone DoNotSchedule (Some web_selector) None None None []].

Lemma Update_ownership_witness :
  ∃ t' topologies affinities, Update (E := string) [] empty_topology spreading_pod = (t', None) ∧
    newForTopologies empty_topology spreading_pod = Some topologies ∧
    newForAffinities (E := string) empty_topology spreading_pod = Ok affinities ∧
    ∀ h, owns t' spreading_pod h ↔ h ∈ Hash <$> (topologies ++ affinities).
Proof.
  assert (Update (E := string) [] empty_topology spreading_pod =
    ((Update (E := string) [] empty_topology spreading_pod).1, None)) as H.
  { assert ((Update (E := string) [] empty_topology spreading_pod).2 = None) as E2 by (vm_compute; reflexivity).
    rewrite <-E2. apply surjective_pairing. }
  eexists. destruct (Update_ownership (E := string) [] empty_topology spreading_pod _ H) as (ts & affs & H1 & H2 & H3).
  exists ts, affs. split; [exact H|]. auto.
Defined.

Definition spread_new : TopologyGroup :=
  mkTopologyGroup zone TopologyTypeSpread 1 None {["default"]} everything (Some web_selector) no_filter ∅ ∅ ∅.

Lemma countDomains_reference_witness :
  ∃ sorted, sorted ≡ₚ [running_web] ∧
    countDomains (E := string) [] empty_topology spread_new =
      Ok (TopologyGroup_Record (register_node_domains [] spread_new)
        (omap (pod_domain (E := string) ∅ (register_node_domains [] spread_new)) sorted)).
Proof.
  apply (countDomains_reference (E := string) [] empty_topology spread_new [running_web]).
  - vm_compute. reflexivity.
  - intros p Hp _ _. apply list_elem_of_singleton in Hp. rewrite Hp. reflexivity.
Defined.

Definition new_spread : option TopologyGroup :=
  NewTopologyGroup TopologyTypeSpread zone (plain_pod "a") {["default"]} (Some web_selector) 1 None None None ∅.

Definition registered : TopologyGroup := TopologyGroup_Register (default spread_new new_spread) ["zone-a"; "zone-b"].

Lemma emptyDomains_exact_witness :
  "zone-b" ∈ emptyDomains (TopologyGroup_Record registered ["zone-a"]) ∧
  "zone-a" ∉ emptyDomains (TopologyGroup_Record registered ["zone-a"]).
Proof.
  assert (∀ d, d ∈ emptyDomains (TopologyGroup_Record registered ["zone-a"]) ↔
    domains (TopologyGroup_Record registered ["zone-a"]) !! d = Some 0%Z) as H;
    [|split; rewrite H; vm_compute; congruence].
  apply (emptyDomains_exact TopologyTypeSpread zone (plain_pod "a") {["default"]} (Some web_selector) 1 None None None ∅
    (default spread_new new_spread)).
  - vm_compute. reflexivity.
  - apply (rtc_l _ _ registered); [apply step_Register|]. apply rtc_once, step_Record. vm_compute. reflexivity.
Defined.

(** ** Node claims and existing nodes *)

Definition one_core : PodData := mkPodData (cores 1) ∅ ∅ false [] [] false.

Definition example_claim : NodeClaim :=
  NewNodeClaim 0 pool_template 1 [daemon_group] [small; large] ReservedOfferingModeFallback ∅.

Abbreviation example_CanAdd n vols := (NodeClaim_CanAdd (E := string) false None empty_topology (mkRM ∅ ∅) n (plain_pod "a") one_core vols false).

Lemma example_claim_accepts : ∃ a, example_CanAdd example_claim ∅ = Ok a.
Proof.
  assert (is_ok (example_CanAdd example_claim ∅) = true) as H by (vm_compute; reflexivity). revert H.
  destruct (example_CanAdd example_claim ∅) as [a|e]; intros H; [exists a; reflexivity|discriminate H].
Qed.

Lemma no_reservations_wf : rm_wf (mkRM ∅ ∅).
Proof. intros id. unfold remaining. simpl. rewrite lookup_empty. simpl. lia. Qed.

Lemma NodeClaim_Add_total_witness :
  ∃ a t' rm' n', example_CanAdd example_claim ∅ = Ok a ∧
    NodeClaim_Add empty_topology (mkRM ∅ ∅) example_claim (plain_pod "a") one_core ∅ a = Some (t', rm', n') ∧
    nc_Pods n' = [plain_pod "a"].
Proof.
  destruct example_claim_accepts as [a Ha].
  destruct (NodeClaim_Add_total (E := string) false None empty_topology (mkRM ∅ ∅) example_claim (plain_pod "a") one_core ∅
    false a no_reservations_wf Ha) as (t' & rm' & n' & H1 & H2 & _).
  exists a, t', rm', n'. auto.
Defined.

Lemma NodeClaim_CanAdd_sound_witness :
  ∃ a, example_CanAdd example_claim ∅ = Ok a ∧ updatedInstanceTypes a ≠ [] ∧
    narrower (updatedRequirements a) (nc_Requirements example_claim).
Proof.
  destruct example_claim_accepts as [a Ha]. exists a. split; [exact Ha|].
  destruct (NodeClaim_CanAdd_sound (E := string) false None empty_topology (mkRM ∅ ∅) example_claim (plain_pod "a") one_core ∅
    false a) as (_ & H1 & _ & _ & _ & H2 & _); [| | | |exact Ha|split; [exact H2|exact H1]].
  - intros f h r c res Hf. discriminate Hf.
  - apply requirements_check_ok. vm_compute. reflexivity.
  - apply requirements_check_ok. vm_compute. reflexivity.
  - apply Forall_nil_2.
Defined.

Lemma nodeclaim_never_overcommits_witness :
  ∃ n, claim_run (E := string) false None example_claim [one_core] n ∧
    ∀ it, it ∈ InstanceTypeOptions n →
      ∃ g ag o, g ∈ daemonOverheadGroups n ∧ it ∈ dog_InstanceTypes g ∧
        ag ∈ AllocatableOfferingsList override_text it ∧ o ∈ ao_Offerings ag ∧
        IsCompatible (nc_Requirements n) (of_Requirements o) WellKnownLabels = true ∧
        ∀ k, (qty (nc_Requests example_claim) k + sumZ ((λ pd, qty (Requests pd) k) <$> [one_core]) +
              qty (DaemonOverhead g) k ≤ qty (Allocatable_ ag) k)%Z.
Proof.
  destruct example_claim_accepts as [a Ha].
  destruct (NodeClaim_Add_commits (E := string) false None empty_topology (mkRM ∅ ∅) example_claim (plain_pod "a") one_core ∅
    false a no_reservations_wf Ha) as (t' & rm' & n' & H1 & _).
  assert (claim_run (E := string) false None example_claim [one_core] n') as Hrun.
  { apply (claim_run_snoc (E := string) false None example_claim [] example_claim one_core n'); [constructor|].
    exact (claim_placed (E := string) false None _ _ _ _ _ _ _ _ _ _ _ Ha H1). }
  exists n'. split; [exact Hrun|]. apply (nodeclaim_never_overcommits (E := string) false None example_claim [one_core] n' Hrun).
  discriminate.
Defined.

Lemma existing_node_never_overcommits_witness :
  ∃ n, existing_run (E := string) None existing_1 [one_core] n ∧
    (∀ k, (sumZ ((λ pd, qty (Requests pd) k) <$> [one_core]) ≤ qty (remainingResources existing_1) k)%Z) ∧
    volumes_within (en_VolumeUsage n).
Proof.
  assert (is_ok (ExistingNode_CanAdd (E := string) None empty_topology existing_1 (plain_pod "a") one_core ∅) = true) as Hok
    by (vm_compute; reflexivity).
  destruct (ExistingNode_CanAdd (E := string) None empty_topology existing_1 (plain_pod "a") one_core ∅) as [[reqs r]|e] eqn:Ec;
    [|discriminate Hok].
  destruct (ExistingNode_Add empty_topology existing_1 (plain_pod "a") one_core reqs ∅) as [t n] eqn:Ea.
  assert (existing_run (E := string) None existing_1 [one_core] n) as Hrun.
  { apply (existing_run_snoc (E := string) None existing_1 [] existing_1 one_core n); [constructor|].
    exact (existing_placed (E := string) None _ _ _ _ _ _ _ _ _ Ec Ea). }
  exists n. split; [exact Hrun|].
  destruct (existing_node_never_overcommits (E := string) None existing_1 [one_core] n Hrun) as (H1 & _ & H2);
    [discriminate|split; [exact H1|exact H2]].
Defined.

(** ** Reserved capacity *)

Definition reserved_offering : Offering :=
  mkOffering (NewLabelRequirements {[zone := "zone-a"; CapacityTypeLabelKey := CapacityTypeReserved;
                                      "example.com/reservation-id" := "r-1"]}) 0 true 1 ∅ None false.

Definition reserved_type : InstanceType :=
  mkInstanceType "reserved" ∅ [reserved_offering] (cores 4) ∅ (mkOverhead ∅ ∅ ∅) false.

Definition example_rm : ReservationManager :=
  default (mkRM ∅ ∅) (NewReservationManager ReservationIDLabel draw {["default" := [reserved_type]]}).

Definition strict_claim : NodeClaim :=
  NewNodeClaim 0 pool_template 1 [] [reserved_type] ReservedOfferingModeStrict ∅.

(** A pool that lets its claims use the reservation. *)
Definition reservation_requirements : Requirements :=
  NewLabelRequirements {["example.com/reservation-id" := "r-1"]}.

Lemma strict_mode_reserves_witness :
  reserved_candidate strict_claim reservation_requirements reserved_offering ∧
  CanReserve ReservationIDLabel draw example_rm (hostname strict_claim) reserved_offering = Some true.
Proof.
  destruct (strict_mode_reserves (E := string) true example_rm strict_claim [reserved_type] reservation_requirements
    [reserved_offering]) as [H _]; [vm_compute; reflexivity..|].
  destruct (proj1 (H reserved_offering)) as (_ & H1 & H2); [apply list_elem_of_singleton; reflexivity|].
  split; [exact H1|exact H2].
Defined.

Lemma example_rm_wf : rm_wf example_rm.
Proof.
  intros id. unfold remaining. replace (rm_capacity example_rm) with ({["r-1" := 1%Z]} : gmap string Z)
    by (vm_compute; reflexivity). rewrite lookup_singleton. case_decide; simpl; lia.
Qed.

Lemma reservations_conserved_witness :
  ∃ rm, Reserve ReservationIDLabel draw example_rm "host" [reserved_offering] = Some rm ∧
    (remaining rm "r-1" + Z.of_nat (holders rm "r-1") =
     remaining example_rm "r-1" + Z.of_nat (holders example_rm "r-1"))%Z.
Proof.
  destruct (Reserve ReservationIDLabel draw example_rm "host" [reserved_offering]) as [rm|] eqn:Er;
    [|exfalso; revert Er; vm_compute; discriminate].
  exists rm. split; [reflexivity|].
  apply (reservations_conserved ReservationIDLabel draw example_rm rm "r-1" example_rm_wf).
  apply rtc_once. exact (rstep_reserve _ _ _ _ _ _ Er).
Defined.

(** ** The scheduling loop *)

Lemma Solve_terminates_witness :
  is_Some (Solve (mkPreferences false) (λ _ : unit, None) (λ s _, (s, Some false)) (λ s _, s) (λ _, false) (λ _, false)
    (λ _, false) 9 ∅ [plain_pod "a"; plain_pod "b"] ()).
Proof. apply Solve_terminates. simpl. lia. Defined.

Lemma Relax_sound_witness :
  ∃ r pod', Relax (mkPreferences false) two_zone_daemon = Some (r, pod') ∧ relaxes two_zone_daemon pod'.
Proof.
  destruct (Relax (mkPreferences false) two_zone_daemon) as [[r pod']|] eqn:Er; [|exfalso; revert Er; vm_compute; discriminate].
  exists r, pod'. split; [reflexivity|]. apply (Relax_sound (mkPreferences false) two_zone_daemon r pod' Er).
Defined.

(** Two workers and three candidates, of which the second is decisive. *)
Lemma parallelizeUntil_first_witness :
  best (mkPool [] [] 0 (Some 1)) = List.find (λ i, (i =? 1)%nat) (seq 0 3).
Proof.
  apply (parallelizeUntil_first 3 (λ i, (i =? 1)%nat) 2 (mkPool [] [] 0 (Some 1))); [lia| |split; reflexivity].
  eapply rtc_l; [apply (step_fetch _ 0 [1; 2] [] 1 None)|].
  eapply rtc_l; [apply (step_fetch _ 1 [2] [0] 0 None)|].
  eapply rtc_l; [apply (step_stop _ [2] [] 1 [0] 0 None); reflexivity|].
  eapply rtc_l; [apply (step_continue _ [2] [] 0 [] 0 (Some 1)); reflexivity|].
  eapply rtc_l; [apply (step_fetch _ 2 [] [] 0 (Some 1))|].
  eapply rtc_l; [apply (step_continue _ [] [] 2 [] 0 (Some 1)); reflexivity|].
  eapply rtc_l; [apply (step_exit _ [] 0 (Some 1))|apply rtc_refl].
Defined.

(** ** Requirements *)

Definition above_five : Requirement := mkRequirement "example.com/n" true ∅ (Some 6%Z) None None None.
Definition below_nine : Requirement := mkRequirement "example.com/n" true {["7"]} None (Some 8%Z) None None.

Lemma HasIntersection_satisfiable_witness :
  HasIntersection above_five below_nine = true ↔ ∃ v, Has above_five v = true ∧ Has below_nine v = true.
Proof.
  apply (HasIntersection_satisfiable above_five below_nine).
  - exact (proj1 (requirement_check_ok above_five eq_refl)).
  - exact (proj1 (requirement_check_ok below_nine eq_refl)).
Defined.

Lemma Intersects_iff_labels_witness :
  Intersects (NewRequirements [above_five]) (NewRequirements [below_nine]) = [] ↔
  ∃ labels, labels_satisfy labels (NewRequirements [above_five]) ∧ labels_satisfy labels (NewRequirements [below_nine]).
Proof.
  apply (Intersects_iff_labels (NewRequirements [above_five]) (NewRequirements [below_nine]));
    apply requirements_check_ok; vm_compute; reflexivity.
Defined.

Lemma NodeSelectorRequirements_roundtrip_witness :
  NewNodeSelectorRequirementsWithMinValues (NodeSelectorRequirements (NewRequirements [above_five]))
  = Some (serialized_view <$> NewRequirements [above_five]).
Proof.
  apply (NodeSelectorRequirements_roundtrip (NewRequirements [above_five])).
  - apply requirements_check_ok. vm_compute. reflexivity.
  - intros k r Hk. apply lookup_empty.
Defined.

Lemma resolved_labels_allowed_witness :
  ∃ labels v, resolveCustomLabelsFromRequirements (NewRequirements [above_five]) = Some labels ∧
    labels !! "example.com/n" = Some v ∧ custom_label "example.com/n" = true.
Proof.
  exists {["example.com/n" := "6"]}, "6". split; [vm_compute; reflexivity|]. split; [reflexivity|].
  destruct (resolved_labels_allowed (NewRequirements [above_five]) {["example.com/n" := "6"]} "example.com/n" "6")
    as [H _]; [intros n Hn; simpl; lia|apply requirements_check_ok; vm_compute; reflexivity|vm_compute; reflexivity
    |reflexivity|exact H].
Defined.

(** ** Instance types *)

(** At least two instance types are wanted. *)
Definition two_types : Requirements :=
  NewRequirements [requirement_In_flexible LabelInstanceTypeStable (Some 2%Z) ["small"; "large"; "huge"]].

Lemma two_types_keyed : keyed two_types.
Proof. apply requirements_wf_keyed, requirements_check_ok. vm_compute. reflexivity. Qed.

Lemma SatisfiesMinValues_spec_witness :
  let '(n, bad) := SatisfiesMinValues [small; large] two_types in
  (bad = ∅ ↔ min_values_met two_types [small; large]) ∧
  (bad = ∅ → (0 < n ≤ 2)%nat ∧ min_values_met two_types (take n [small; large]) ∧
     ∀ m, (0 < m < n)%nat → ¬ min_values_met two_types (take m [small; large])) ∧
  (bad ≠ ∅ → n = 2 ∧ unsatisfied two_types [small; large] bad).
Proof. apply (SatisfiesMinValues_spec two_types [small; large] two_types_keyed); [discriminate|vm_compute; reflexivity]. Defined.

Lemma Truncate_spec_witness :
  ∃ kept, Truncate MinValuesPolicyStrict [large; small] two_types 2 = Ok kept ∧ (length kept ≤ 2)%nat ∧
    min_values_met two_types kept.
Proof.
  assert (match Truncate MinValuesPolicyStrict [large; small] two_types 2 with Ok _ => true | _ => false end = true) as Hc
    by (vm_compute; reflexivity).
  destruct (Truncate MinValuesPolicyStrict [large; small] two_types 2)
    as [kept|e] eqn:Et; [|discriminate Hc].
  exists kept. split; [reflexivity|].
  destruct (Truncate_spec MinValuesPolicyStrict [large; small] two_types 2 kept two_types_keyed) as (H1 & _ & H2);
    [lia|discriminate|exact Et|]. split; [exact H1|apply H2; reflexivity].
Defined.

Lemma encode_override_inj c h c' h' : encode_override c h = encode_override c' h' → c = c' ∧ h = h'.
Proof.
  unfold encode_override. intros H%(inj pretty). injection H as H. apply (inj encode) in H. injection H as -> H. split; [done|].
  destruct h as [[]|], h' as [[]|]; simplify_eq/=; done.
Qed.

Lemma AllocatableOfferingsList_spec_witness :
  Allocatable encode_override small = computeAllocatable small ∅ None ∧
  concat (ao_Offerings <$> AllocatableOfferingsList encode_override small) ≡ₚ Offerings_Available (Offerings small).
Proof.
  destruct (AllocatableOfferingsList_spec encode_override small encode_override_inj) as (H1 & H2 & _).
  split; [exact H1|exact H2].
Defined.

(** ** Building a scheduler *)

Definition state_node_1 : StateNodeSnapshot :=
  mkStateNodeSnapshot "node-1" true {[NodePoolLabelKey := "default"; zone := "zone-a"]} "node-1" (cores 1) ∅
    NewHostPortUsage NewVolumeUsage [] (cores 2) None.

Lemma existing_nodes_accounted_witness :
  ∃ nodes t remaining, calculateExistingNodeClaims (λ _, cores 1) false 0 ∅ [plain_pod "daemon"] (λ _, None) false
      [state_node_1] empty_topology {["default" := cores 10]} = Some (nodes, t, remaining) ∧
    (en_Name <$> nodes ≡ₚ ["node-1"]) ∧
    (remaining !! "default") ≫= (.!! ResourceCPU) = Some (8 * unit_quantity)%Z.
Proof.
  assert (match calculateExistingNodeClaims (λ _, cores 1) false 0 ∅ [plain_pod "daemon"] (λ _, None) false
    [state_node_1] empty_topology {["default" := cores 10]} with Some _ => true | _ => false end = true) as Hc
    by (vm_compute; reflexivity).
  destruct (calculateExistingNodeClaims (λ _, cores 1) false 0 ∅ [plain_pod "daemon"] (λ _, None) false
    [state_node_1] empty_topology {["default" := cores 10]})
    as [[[nodes t] remaining]|] eqn:Ec; [|discriminate Hc].
  exists nodes, t, remaining. split; [reflexivity|].
  destruct (existing_nodes_accounted (λ _, cores 1) false 0 ∅ [plain_pod "daemon"] (λ _, None) false [state_node_1]
    empty_topology {["default" := cores 10]} nodes t remaining Ec) as (H1 & _ & H3).
  split; [exact H1|]. rewrite H3. vm_compute. reflexivity.
Defined.

Lemma node_limit_not_reduced_witness :
  subtractMax {[ResourceNodes := unit_quantity]} [small; large] !! ResourceNodes = Some unit_quantity.
Proof.
  rewrite (node_limit_not_reduced {[ResourceNodes := unit_quantity]} [small; large]); [vm_compute; reflexivity|].
  intros it Hit. apply elem_of_cons in Hit as [->|Hit]; [reflexivity|].
  apply list_elem_of_singleton in Hit. rewrite Hit. reflexivity.
Defined.

(** A claim that a pod has narrowed to numbers below zero of a custom label. *)
Definition below_zero : Requirement := default (simple_requirement "example.com/n" OpExists None) (NewRequirement "example.com/n" OpLt ["0"]).
Definition negative_claim : NodeClaim :=
  mkNodeClaim "default" [] (Own ∅) (NewRequirements [below_zero]) [small] ∅ [] ∅ [] "host" [] ReservedOfferingModeFallback ∅.

Lemma ToNodeClaim_panics_iff_witness :
  Has below_zero "-1" = true ∧ ToNodeClaim None ∅ (mkTemplateMeta ∅ ∅ EmptyString false None) negative_claim = None.
Proof.
  split; [vm_compute; reflexivity|].
  refine (proj2 (ToNodeClaim_panics_iff None ∅ (mkTemplateMeta ∅ ∅ EmptyString false None) negative_claim _ _ _ _ _) _).
  - apply (bool_decide_unpack _). vm_compute. reflexivity.
  - apply (bool_decide_unpack _). vm_compute. reflexivity.
  - vm_compute. reflexivity.
  - vm_compute. reflexivity.
  - apply requirements_check_ok. vm_compute. reflexivity.
  - exists "example.com/n", below_zero. split; [vm_compute; reflexivity|]. split; [vm_compute; reflexivity|]. split; [reflexivity|].
    unfold drawable. intros [H _]. revert H. vm_compute. intros H. exact (H eq_refl).
Defined.

Lemma relaxed_annotation_overwritten_witness :
  ∃ s' i n', addToNewNodeClaim (E := string) example_config false None example_scheduler (plain_pod "a") ∅ = Ok (Some s') ∧
    nc_Annotations n' = SharedWith i ∧ newNodeClaims s' = [n'].
Proof.
  assert (match addToNewNodeClaim (E := string) example_config false None example_scheduler (plain_pod "a") ∅ with Ok (Some _) => true | _ => false end = true) as Hc
    by (vm_compute; reflexivity).
  destruct (addToNewNodeClaim (E := string) example_config false None example_scheduler (plain_pod "a") ∅)
    as [[s'|]|e] eqn:Ea; [|discriminate Hc..].
  destruct (relaxed_annotation_overwritten (E := string) example_config false None example_scheduler (plain_pod "a") ∅ s' Ea)
    as (i & fresh & n' & H1 & H2 & _).
  exists s', i, n'. auto.
Defined.

(** ** Host ports and volumes *)

Definition web_port : HostPort := mkHostPort (IPv4 0) 80 "TCP".

Lemma host_ports_never_collide_witness : no_collisions (HostPortUsage_Add NewHostPortUsage ("default", "a") [web_port]).
Proof. apply host_ports_never_collide. apply rtc_once, step_add_ports. vm_compute. reflexivity. Defined.

Lemma volume_usage_covers_witness :
  volumes_cover (VolumeUsage_Add NewVolumeUsage ("default", "a") {["driver" := {["claim"]}]}).
Proof. apply (volume_usage_covers _ ("default", "a")). apply rtc_once, vstep_add. Defined.
