(* ===== verification/DisruptionExamples.v ===== *)
(** * DisruptionExamples: disrupting a node of a small cluster

    Inputs that meet the hypotheses of the theorems about the cluster state, the disruption
    methods and the queue. *)

From S2P Require Import Prelude Float64 Labels Requirement Objects RepairPolicy Requirements Resources.
From S2P Require Import Taints HostPorts Volumes InstanceTypes PodState DisruptionCost TopologyGroup Topology NodeClaims.
From S2P Require Import Budgets Templates ExistingNodes Evictions NodePoolState StateNodes Cluster ClusterInv Solver.
From S2P Require Import Candidates Balanced VolumeTopology DefaultConstraints PodValidation Simulation Provisioner.
From S2P Require Import ProvisionerProps Repair Drift Consolidation ConsolidationProps Validation DisruptionQueue.
From S2P Require Import DisruptionQueueProps DisruptionController Examples.

#[local] Open Scope Z_scope.

#[local] Existing Instance default_registry.
#[local] Existing Instance default_registry_stable.
#[local] Existing Instance simple_taint_api.
#[local] Existing Instance example_selector_api.
#[local] Existing Instance example_env.

(** A closed equation, by evaluation; the evaluated terms are not kept in the proof. *)
Ltac vm_eq := lazymatch goal with |- _ = ?y => vm_cast_no_check (@eq_refl _ y) end.

Definition get_ok {E A} (d : A) (r : result E A) : A := match r with Ok a => a | Err _ => d end.
Definition is_ok {E A} (r : result E A) : bool := match r with Ok _ => true | Err _ => false end.
Definition is_some {A} (o : option A) : bool := match o with Some _ => true | None => false end.

Lemma Ok_eq {E A} (d : A) (r : result E A) : is_ok r = true → r = Ok (get_ok d r).
Proof. by destruct r. Qed.
Lemma Some_eq {A} (d : A) (o : option A) : is_some o = true → o = Some (default d o).
Proof. by destruct o. Qed.

(** ** A node, its claim and a command that replaces it *)

Definition initialized_condition : Condition := mkCondition ConditionTypeInitialized ConditionTrue EmptyString EmptyString 0.

Definition claim_of (name id : string) (conditions : list Condition) : v1NodeClaim :=
  mkv1NodeClaim name name {[NodePoolLabelKey := "default"]} ∅ 0 None [] [] None None id EmptyString (cores 2) (cores 2) conditions None.

Definition state_node_of (claim : v1NodeClaim) (node : Node) : StateNode :=
  mkStateNode (Some node) (Some claim) ∅ ∅ ∅ ∅ ∅ NewHostPortUsage NewVolumeUsage false 0 [].

Definition claim_1 : v1NodeClaim := claim_of "claim-1" "aws:///node-1" [initialized_condition].

Definition default_pool : NodePool :=
  mkNodePool (mkNodePoolTemplate "default" [] ∅ []) "default-uid" ∅ (EmptyString, EmptyString, EmptyString) ∅ None
    ConsolidationPolicyWhenEmptyOrUnderutilized [] None None None None [].

Definition candidate_1 : Candidate :=
  mkCandidate (state_node_of claim_1 node_1) (Some small) default_pool "zone-a" CapacityTypeOnDemand (Fin 0) [] false (Fin 10) (Fin 0)
    None empty_result false.

Definition candidate_with_pods : Candidate :=
  mkCandidate (state_node_of claim_1 node_1) (Some small) default_pool "zone-a" CapacityTypeOnDemand (Fin 0) [running_web] false (Fin 30) (Fin 1)
    None empty_result false.

Definition replacing_command : QueuedCommand string :=
  mkQueued (mkCommand empty_results [candidate_1] (replacementsFromNodeClaims false [example_claim]) None EmptyString false)
    DriftMethod 0 false.

(** ** A run of the queue *)

Definition example_conditions : ConditionApi := mkConditionApi
  (λ now type reason message cs, filter (λ c, cond_Type c ≠ type) cs ++ [mkCondition type ConditionTrue reason message now])
  (λ _ type cs, filter (λ c, cond_Type c ≠ type) cs) (λ _, None) (λ _, EmptyString).

(** The claims the API server has: every write is served. *)
Definition kube_with (claims : gmap string v1NodeClaim) : KubeApi := mkKubeApi
  (λ name, if bool_decide (name = "node-1") then Ok node_1 else Err NotFound)
  (λ name, match claims !! name with Some c => Ok c | None => Err NotFound end) (λ _, None).

Definition before_launch : KubeApi := kube_with {["claim-1" := claim_1]}.
Definition after_launch : KubeApi := kube_with {["claim-1" := claim_1; "claim-2" := claim_of "claim-2" "aws:///node-2" [initialized_condition]]}.

Definition example_launcher : Launcher := λ _ c rs, Some (c, replicate (length rs) "claim-2", []).
#[local] Existing Instance example_launcher.

Definition example_pid (name : string) : string := if bool_decide (name = "claim-1") then "aws:///node-1" else "aws:///node-2".

Lemma kube_with_ok claims : map_Forall (λ name c, claim_Name c = name ∧ claim_ProviderID c = example_pid name) claims →
  kube_ok example_pid (kube_with claims).
Proof.
  intros H. split; intros name nc; cbn; destruct (claims !! name) as [c|] eqn:Hc; [|done| |done]; intros [= <-]; by destruct (H _ _ Hc).
Qed.

Definition started : QueueState string :=
  match StartCommand example_conditions before_launch 10 0 [] (idle NewCluster) replacing_command with
  | Some (s, _) => s | None => idle NewCluster end.

Definition reconciled_state : QueueState string :=
  match Queue_Reconcile example_conditions after_launch 5 6 started claim_1 with
  | Some (s, _) => s | None => started end.

Lemma replacing_command_new : new_command example_pid replacing_command.
Proof.
  split; [done| |by repeat constructor]. constructor; [|constructor]. exists node_1, claim_1. by vm_compute.
Qed.

Lemma run_to_started : rtc (queue_step example_conditions 10 example_pid) ([], [], idle NewCluster) ([before_launch], [], started).
Proof.
  eapply rtc_l; [apply (step_check example_conditions 10 example_pid [] [] (idle NewCluster) replacing_command replacing_command_new); [vm_eq|intros qc []%elem_of_nil]|].
  apply rtc_once. apply (step_start example_conditions 10 example_pid example_launcher before_launch 0 [] [] [] replacing_command [] (idle NewCluster) started None); [|vm_eq].
  apply kube_with_ok, map_Forall_singleton. by vm_compute.
Qed.

Lemma after_launch_ok : kube_ok example_pid after_launch.
Proof. apply kube_with_ok. apply map_Forall_insert_2; [by vm_compute|]. apply map_Forall_singleton. by vm_compute. Qed.

Lemma run_to_reconciled : rtc (queue_step example_conditions 10 example_pid) ([], [], idle NewCluster)
  ([before_launch; after_launch], [], take_event reconciled_state []).
Proof.
  eapply rtc_r; [apply run_to_started|].
  apply (step_reconcile example_conditions 10 example_pid after_launch 5 6 [before_launch] [] started [] "claim-1" [] claim_1 reconciled_state None);
    [apply after_launch_ok|vm_eq..].
Qed.

Lemma deletes_follow_replacements_witness :
  DeleteClaim "claim-1" ∈ qs_writes (take_event reconciled_state []) ∧
  ∃ a qc cand, q_commands (qs_queue (take_event reconciled_state [])) !! a = Some qc ∧ cand ∈ cmd_Candidates (qc_Command qc) ∧
    claim_name_of cand = "claim-1" ∧ ∀ r, r ∈ cmd_Replacements (qc_Command qc) → seen_initialized [before_launch; after_launch] (rp_Name r).
Proof.
  assert (DeleteClaim "claim-1" ∈ qs_writes (take_event reconciled_state [])) as H.
  { apply list_elem_of_In. vm_compute. auto. }
  split; [exact H|]. exact (deletes_follow_replacements _ _ _ _ _ _ _ _ run_to_reconciled H).
Defined.

Definition queued_command : QueuedCommand string := queued_as replacing_command [candidate_1] ["claim-2"].

Lemma started_id : ProviderIDToCommand (qs_queue started) !! "aws:///node-1" = Some 0%nat.
Proof. vm_eq. Qed.
Lemma started_command : q_commands (qs_queue started) !! 0%nat = Some queued_command.
Proof. vm_eq. Qed.

Lemma one_command_per_candidate_witness : ProviderIDToCommand (qs_queue started) !! "aws:///node-1" = Some 0%nat ∧
  ∃ first rest, cmd_Candidates (qc_Command queued_command) = first :: rest ∧
    (claim_name_of first ∈ q_source (qs_queue started) ∨ gone [before_launch] (claim_name_of first)).
Proof.
  split; [exact started_id|].
  exact (proj2 (proj2 (one_command_per_candidate _ _ _ _ _ _ _ _ _ _ run_to_started started_id started_command))).
Defined.

Lemma started_cluster : qs_cluster started = NewCluster.
Proof. vm_eq. Qed.

Definition an_hour_later : Z := 3700 * second.

Lemma claim_1_known : ¬ gone [before_launch] "claim-1".
Proof. intros (k & ->%list_elem_of_singleton & H). vm_compute in H. discriminate. Qed.

Lemma started_wf : cluster_wf (qs_cluster started).
Proof. rewrite started_cluster. apply NewCluster_wf. Qed.

Lemma claim_1_served : kube_claim after_launch "claim-1" = Ok claim_1.
Proof. vm_eq. Qed.

Lemma candidate_queued : "aws:///node-1" ∈ command_ids (qc_Command queued_command).
Proof. vm_compute. left. Qed.

Lemma late_command_ends_witness : maxRetryDuration < an_hour_later - qc_CreationTimestamp queued_command ∧
  ∃ s', Queue_Reconcile example_conditions after_launch an_hour_later an_hour_later started claim_1 = Some (s', None) ∧
    ProviderIDToCommand (qs_queue s') !! "aws:///node-1" = None.
Proof.
  assert (maxRetryDuration < an_hour_later - qc_CreationTimestamp queued_command) as Hlate by reflexivity. split; [exact Hlate|].
  destruct (late_command_ends example_conditions 10 example_pid NewCluster [before_launch] [] started "aws:///node-1" 0%nat
    queued_command after_launch an_hour_later an_hour_later candidate_1 [] claim_1 run_to_started started_id started_command
    eq_refl claim_1_known after_launch_ok claim_1_served started_wf Hlate) as (_ & s' & Hs & _ & Hid).
  exists s'. split; [exact Hs|]. rewrite Hid. apply decide_True. exact candidate_queued.
Defined.

(** ** Launching through the provisioner *)

Definition example_meta : TemplateMeta := mkTemplateMeta {[NodePoolLabelKey := "default"]} ∅ "default-uid" false None.
Definition example_launch : Launch := mkLaunch example_claim example_meta.
Definition example_launch_api : LaunchApi := mkLaunchApi (λ _, Ok default_pool) (λ _ _, Ok (claim_of "claim-2" EmptyString [])).

Lemma example_launchable : launchable None ∅ example_launch.
Proof. unfold launchable. vm_compute. eexists. reflexivity. Qed.

Lemma default_labels_known : launch_labels_known.
Proof. split_and!; first [apply (bool_decide_unpack _); vm_compute; reflexivity|vm_compute; reflexivity]. Qed.

Lemma example_creatable : creatable example_launch.
Proof.
  split; [apply requirements_check_ok; vm_compute; reflexivity|].
  assert (map_forallb (λ key r, negb (custom_label key) || negb (complement r)) (nc_Requirements (l_NodeClaim example_launch)) = true) as H
    by (vm_compute; reflexivity).
  intros key r Hr Hk Hc. pose proof (proj1 (map_forallb_spec _ _) H key r Hr) as Hx. cbv beta in Hx. by rewrite Hk, Hc in Hx.
Qed.

Lemma new_cluster_sane : reservations_sane NewCluster.
Proof. intros k. vm_compute. split; discriminate. Qed.

Lemma CreateNodeClaims_spec_witness : ∃ c', CreateNodeClaims None ∅ example_launch_api 0 [0%nat] NewCluster [example_launch] = Some (c', ["claim-2"], []) ∧
  cluster_wf c' ∧ NodeClaimExists c' "claim-2" = true.
Proof.
  destruct (CreateNodeClaims_spec None ∅ example_launch_api 0 [0%nat] NewCluster [example_launch]) as (c' & names & errs & H & Hwf & _ & _ & _ & _ & Hn).
  - exact default_labels_known.
  - reflexivity.
  - apply NewCluster_wf.
  - apply new_cluster_sane.
  - intros i l [-> <-]%list_lookup_singleton_Some. split; [apply example_creatable|]. split; intros object nc [= <-]; vm_compute; auto.
  - exists c'. destruct (Hn ltac:(vm_compute in H; injection H; auto) 0%nat) as (object & nc & [= <-] & _ & Hex); [vm_compute; constructor|].
    split_and!; [|exact Hwf|exact Hex]. rewrite H. vm_compute in H. injection H as _ <- <-. reflexivity.
Defined.

Definition example_launch_of (r : Replacement) : Launch := mkLaunch (rp_NodeClaim r) example_meta.
Definition order_of (n : nat) : list nat := seq 0 n.

Lemma StartCommand_spec_witness :
  ∃ s' err ws, StartCommand (LA := provisioner_launcher None ∅ example_launch_api order_of example_launch_of) example_conditions before_launch 10 0 []
      (idle NewCluster) replacing_command = Some (s', err) ∧ cluster_wf (qs_cluster s') ∧ qs_writes s' = ws ∧
    ∀ w, w ∈ ws → ~ is_delete w.
Proof.
  destruct (StartCommand_spec (LL := provisioner_launcher_laws None ∅ example_launch_api order_of example_launch_of (λ n, reflexivity _))
    example_conditions before_launch 10 0 [] (idle NewCluster) replacing_command) as (s' & err & ws & H & Hwf & _ & Hw & Hd & _).
  - apply NewCluster_wf.
  - apply new_cluster_sane.
  - intros i r [-> <-]%list_lookup_singleton_Some. split; [split; reflexivity|]. split; [apply example_launchable|].
    split; intros object nc [= <-]; vm_compute; auto.
  - vm_compute. discriminate.
  - discriminate.
  - constructor; [exists claim_1; reflexivity|constructor].
  - exists s', err, ws. split_and!; [exact H|exact Hwf|exact Hw|exact Hd].
Defined.

(** ** The loop *)

Definition example_cluster_api : ClusterApi := mkClusterApi (λ _, Ok []) (λ _, Err NotFound) (Ok []) (Ok []) (λ _, true) (λ _, Ok []).

Definition example_method : MethodImpl string := mkMethodImpl DriftMethod (λ _ _, Some (Ok [candidate_1])) (λ _, Some (Ok {["default" := 1]}))
  (λ c _ cands, Some (nodePoolState c, Ok [mkCommand empty_results [candidate_1] (replacementsFromNodeClaims false [example_claim]) None EmptyString false])).

Lemma example_method_ok : method_ok example_pid example_method.
Proof.
  intros c budgets cands pools cmds cmd [= <- <-] ->%list_elem_of_singleton. split; [apply replacing_command_new|]. by repeat constructor.
Qed.

Definition looped : QueueState string :=
  match Controller_Reconcile example_conditions before_launch 10 example_cluster_api 0 order_of [] true (idle NewCluster) [example_method] with
  | Some (s, _) => s | None => idle NewCluster end.

Lemma looped_run : Controller_Reconcile example_conditions before_launch 10 example_cluster_api 0 order_of [] true (idle NewCluster) [example_method]
    = Some (looped, RequeueImmediately) ∧
  ∃ h', rtc (queue_step example_conditions 10 example_pid) ([], [], idle NewCluster) (h', [], looped).
Proof.
  split; [vm_eq|].
  refine (proj1 (loop_refines_queue example_conditions 10 example_cluster_api example_pid before_launch 0 order_of [] true []
    (idle NewCluster) looped [example_method] RequeueImmediately _ _ _)).
  - apply kube_with_ok, map_Forall_singleton. by vm_compute.
  - constructor; [apply example_method_ok|constructor].
  - vm_eq.
Qed.

(** A node that carries the taint of a disruption that no longer exists. *)
Definition tainted_node : Node := mkNode "node-1" {[zone := "zone-a"]} ∅ 0 None [DisruptedNoScheduleTaint] "aws:///node-1" ∅ ∅ [].
Definition tainted_kube : KubeApi := mkKubeApi (λ _, Ok tainted_node) (λ _, Ok claim_1) (λ _, None).
Definition swept_state : QueueState string := add_writes (idle NewCluster) [PatchTaints "node-1" []].

Lemma sweep_spares_disrupting_witness :
  sweep example_conditions tainted_kube 0 [state_node_of claim_1 tainted_node] (idle NewCluster) = Some (swept_state, None) ∧
  ∃ ws, swept_state = add_writes (idle NewCluster) ws ∧ ∀ w, w ∈ ws → ∃ n, n ∈ [state_node_of claim_1 tainted_node] ∧
    undisturbed (qs_queue (idle (E := string) NewCluster)) n ∧ swept example_conditions tainted_kube 0 n w.
Proof.
  assert (sweep example_conditions tainted_kube 0 [state_node_of claim_1 tainted_node] (idle NewCluster) = Some (swept_state, None)) as H by vm_eq.
  split; [exact H|]. exact (sweep_spares_disrupting _ _ _ _ _ _ _ H).
Defined.

(** ** Simulations *)

(** A scheduler that puts all pods on one new claim. *)
Definition claim_with (pods : list Pod) : NodeClaim :=
  let n := example_claim in
  mkNodeClaim (NodePoolName n) (nc_Taints n) (nc_Annotations n) (nc_Requirements n) [small] (nc_Requests n) pods (nc_volumes n)
    (daemonOverheadGroups n) (hostname n) (reservedOfferings n) (reservedOfferingMode n) (creditReservationCapacity n).

Definition one_claim_service : SchedulerService string := {| service_solve _ pods _ _ := Ok (mkResults [claim_with pods] [] ∅) |}.
#[local] Existing Instance one_claim_service.

Lemma one_claim_promise : SchedulerPromise string.
Proof.
  split. intros opts pods nodes uids r _ [= <-] p Hp. right. right. exists (claim_with pods). split; [by left|]. by apply list_elem_of_fmap_2.
Qed.

Definition web_api : NodeApi := mkNodeApi (λ name, if bool_decide (name = "node-1") then Ok [running_web] else Ok []) (Ok []) (λ _, Ok []).

Abbreviation web_simulation := (SimulateScheduling (E := string) (λ _, None) web_api (Some []) false MinValuesPolicyStrict [] 0 [] false [candidate_with_pods]).
Definition web_result : Results string * list Pod := get_ok (empty_results, []) web_simulation.

Lemma web_simulated : web_simulation = Ok web_result.
Proof. apply Ok_eq. vm_eq. Qed.
Lemma web_pods : web_result.2 = [running_web].
Proof. vm_eq. Qed.
Lemma web_all_scheduled : AllNonPendingPodsScheduled web_result.1 web_result.2 = true.
Proof. vm_eq. Qed.

Lemma simulation_places_pods_witness : web_result.2 = [running_web] ∧
  ∃ moved deleting, candidate_pods (λ _, None) web_api 0 false [candidate_with_pods] = Ok moved ∧
    StateNodes_CurrentlyReschedulablePods (λ _, None) web_api 0 (Deleting []) = Ok deleting ∧
    ∀ p, p ∈ moved → IsProvisionable p = false →
      (∃ n, placed_new web_result.1 (pod_UID p) n) ∨
      (∃ n q, n ∈ ExistingNodes web_result.1 ∧ q ∈ en_Pods n ∧ pod_UID q = pod_UID p ∧
              (en_Initialized n = true ∨ pod_key q ∈ pod_key <$> deleting)).
Proof.
  split; [exact web_pods|].
  apply (simulation_places_pods (SP := one_claim_promise) (λ _, None) web_api (Some []) false MinValuesPolicyStrict [] 0 [] false [candidate_with_pods]
    web_result.1 web_result.2).
  - rewrite <-surjective_pairing. exact web_simulated.
  - rewrite web_pods. apply NoDup_singleton.
  - exact web_all_scheduled.
Defined.

(** ** Consolidation *)

Definition example_classes : capacityTypeClassState := λ class,
  match class with ClassReserved => [CapacityTypeReserved] | ClassSpot => [CapacityTypeSpot] | ClassOnDemand => [CapacityTypeOnDemand] end.

Definition node_2 : Node := mkNode "node-2" {[zone := "zone-b"]} ∅ 0 None [] "aws:///node-2" ∅ ∅ [].

Definition costly (claim : v1NodeClaim) (node : Node) : Candidate :=
  mkCandidate (state_node_of claim node) (Some large) default_pool "zone-a" CapacityTypeOnDemand (Fin 0) [running_web] false (Fin 30) (Fin 1)
    None empty_result false.

Definition two_costly : list Candidate := [costly claim_1 node_1; costly (claim_of "claim-2" "aws:///node-2" [initialized_condition]) node_2].

(** Whatever is taken away, the pods fit one small node. *)
Definition onto_small (_ : list SchedulerOption) (_ : bool) (_ : list Candidate) : result sim_error (Results string * list Pod) :=
  Ok (mkResults [claim_with [running_web]] [] ∅, [running_web]).

Abbreviation consolidation_of := (computeConsolidation (E := string) example_classes false onto_small).
Definition consolidated : Command string := get_ok empty_command (consolidation_of two_costly).

Lemma consolidation_computed : consolidation_of two_costly = Ok consolidated.
Proof. apply Ok_eq. vm_eq. Qed.

Definition replacement_of (cmd : Command string) : Replacement :=
  default (mkReplacement example_claim false EmptyString false) (head (cmd_Replacements cmd)).

Lemma head_elem {A} (d : A) (l : list A) : (0 <? length l)%nat = true → default d (head l) ∈ l.
Proof. destruct l; [done|]. left. Qed.

Lemma consolidated_replaces : replacement_of consolidated ∈ cmd_Replacements consolidated.
Proof. apply head_elem. vm_eq. Qed.

Lemma example_classes_ok : capacity_types_ok example_classes.
Proof.
  split.
  - apply (bool_decide_unpack _). vm_compute. reflexivity.
  - vm_compute. reflexivity.
  - vm_compute. reflexivity.
  - intros t c c'. destruct c, c'; intros ->%list_elem_of_singleton Ht%list_elem_of_singleton; first [reflexivity|discriminate Ht].
  - reflexivity.
Qed.

Lemma example_offering_typed z price : z = "zone-a" ∨ z = "zone-b" →
  requirements_wf (of_Requirements (offering_in z price)) ∧ ∃ t c, offering_of example_classes (offering_in z price) t c.
Proof.
  intros Hz. split; [destruct Hz as [-> | ->]; apply requirements_check_ok; vm_compute; reflexivity|].
  exists CapacityTypeOnDemand, ClassOnDemand. split.
  - eexists. destruct Hz as [-> | ->]; (split; [vm_compute; reflexivity|]); vm_compute; auto.
  - assert (map_forallb (λ k _, bool_decide (k ∈ WellKnownLabels)) (of_Requirements (offering_in z price)) = true) as H
      by (destruct Hz as [-> | ->]; vm_compute; reflexivity).
    intros k b Hb. pose proof (proj1 (map_forallb_spec _ _) H k b Hb) as Hk. by apply bool_decide_eq_true in Hk.
  - by left.
Qed.

Lemma claim_with_typed pods : typed_offerings example_classes (claim_with pods).
Proof.
  intros it o ->%list_elem_of_singleton [->|[->|[]%elem_of_nil]%elem_of_cons]%elem_of_cons; apply example_offering_typed; auto.
Qed.

Lemma replacement_is_cheaper_witness : replacement_of consolidated ∈ cmd_Replacements consolidated ∧
  cmd_Candidates consolidated = two_costly ∧
  ∃ n, cheaper_replacement example_classes (sumCandidatePrices two_costly) n (rp_NodeClaim (replacement_of consolidated)).
Proof.
  split; [exact consolidated_replaces|].
  destruct (replacement_is_cheaper example_classes false onto_small example_classes_ok two_costly _ consolidated (replacement_of consolidated) eq_refl) as (H1 & n & _ & H2).
  - intros n ->%list_elem_of_singleton. split; [apply requirements_check_ok; vm_compute; reflexivity|apply claim_with_typed].
  - exact consolidation_computed.
  - exact consolidated_replaces.
  - split; [exact H1|]. exists n. exact H2.
Defined.

Definition two_nodes_budget : gmap string Z := {["default" := 2]}.

Abbreviation multi_computed := (MultiNode_ComputeCommands (E := string) example_classes false onto_small Ok noopEvaluator 0 1 1 two_nodes_budget two_costly).
Definition multi_result := default (0, Ok []) multi_computed.
Definition multi_commands : list (Command string) := get_ok [] multi_result.2.

Lemma multi_eq : multi_computed = Some (multi_result.1, Ok multi_commands).
Proof.
  rewrite (Some_eq (0, Ok []) multi_computed) by vm_eq. fold multi_result. unfold multi_commands.
  rewrite <-Ok_eq by vm_eq. by rewrite <-surjective_pairing.
Qed.

Definition the_command (cmds : list (Command string)) : Command string := default empty_command (head cmds).

Lemma multi_acts : the_command multi_commands ∈ multi_commands.
Proof. apply head_elem. vm_eq. Qed.

Lemma multinode_within_budget_witness : the_command multi_commands ∈ multi_commands ∧
  (2 ≤ length (cmd_Candidates (the_command multi_commands)))%nat ∧
  Z.of_nat (length (of_pool "default" (cmd_Candidates (the_command multi_commands)))) ≤ default 0 (two_nodes_budget !! "default").
Proof.
  split; [exact multi_acts|].
  apply (multinode_within_budget example_classes false onto_small Ok noopEvaluator 0 1 1 two_nodes_budget two_costly multi_result.1 multi_commands _ "default").
  - unfold two_nodes_budget. intros p z [<- <-]%lookup_singleton_Some. discriminate.
  - intros cmd cmd' [= ->]. reflexivity.
  - exact multi_eq.
  - exact multi_acts.
Defined.

Lemma firstN_spec_witness : typed two_costly ∧ is_Some (firstNConsolidationOption example_classes false onto_small noopEvaluator two_costly 2).
Proof.
  assert (typed two_costly) as H.
  { intros c [->|[->|[]%elem_of_nil]%elem_of_cons]%elem_of_cons; eexists; reflexivity. }
  split; [exact H|]. refine (proj1 (firstN_spec example_classes false onto_small noopEvaluator two_costly 2 (empty_command, None) H _)). constructor.
Defined.

Definition example_reads : ValidationReads := mkValidationReads (Some two_costly) (λ _, false) (Some two_nodes_budget).

Lemma consolidated_validates : ConsolidationValidator_Validate onto_small false example_reads example_reads consolidated = Ok consolidated.
Proof. vm_eq. Qed.

Lemma example_reads_ok : reads_ok example_reads.
Proof.
  split.
  - intros current [= <-]. apply (bool_decide_unpack _). vm_compute. reflexivity.
  - intros budget pool z [= <-]. unfold two_nodes_budget. intros [<- <-]%lookup_singleton_Some. discriminate.
Qed.

Lemma validated_command_holds_witness : ∃ validated again, still_disruptable example_reads (cmd_Candidates consolidated) validated ∧
  still_disruptable example_reads (cmd_Candidates consolidated) again.
Proof.
  destruct (validated_command_holds onto_small false example_reads example_reads consolidated consolidated
    example_reads_ok example_reads_ok consolidated_validates) as (_ & _ & validated & _ & again & H1 & _ & _ & _ & H2).
  exists validated, again. split; [exact H1|exact H2].
Defined.

(** ** Cluster state *)

Definition no_volumes : VolumeApi := mkVolumeApi (λ _, Err NotFound) (λ _, Err NotFound) (λ _, Err NotFound) (λ _, None) EmptyString.

Abbreviation example_step := (cluster_step (λ _, cores 1) (λ _, ∅) (λ _, []) no_volumes false example_cluster_api None).

Definition with_claim_1 : Cluster := default NewCluster (UpdateNodeClaim 0 NewCluster claim_1).

Lemma with_claim_1_reachable : rtc example_step NewCluster with_claim_1.
Proof.
  apply rtc_once. apply (step_update_claim _ _ _ _ _ _ _ 0 NewCluster claim_1); [intros n nc' H; vm_compute in H; discriminate|].
  vm_eq.
Qed.

Lemma example_pods_on name pods p : ca_pods_on example_cluster_api name = Ok pods → p ∈ pods → pod_NodeName p = name.
Proof. intros [= <-] []%elem_of_nil. Qed.

Lemma no_matcher m : (None : option RepairPolicyMatcher) = Some m → valid_matcher m.
Proof. discriminate. Qed.

(** Two claims with one provider id, both deleted before a Node joins. *)
Example duplicate_claims_panic :
  (c1 ← UpdateNodeClaim 0 NewCluster claim_1; c2 ← UpdateNodeClaim 0 c1 (claim_of "claim-2" "aws:///node-1" []);
   c3 ← DeleteNodeClaim 0 c2 "claim-1"; Some (DeleteNodeClaim 0 c3 "claim-2")) = Some None.
Proof. vm_compute. reflexivity. Qed.

Lemma cluster_never_panics_witness : nodeClaimNameToProviderID with_claim_1 !! "claim-1" = Some "aws:///node-1" ∧
  is_Some (DeleteNodeClaim 5 with_claim_1 "claim-1") ∧ is_Some (MarkForDeletion with_claim_1 ["aws:///node-1"]).
Proof.
  split; [vm_eq|].
  destruct (cluster_never_panics (λ _, cores 1) (λ _, ∅) (λ _, []) no_volumes false example_cluster_api None example_pods_on no_matcher
    5 with_claim_1 "claim-1" claim_1 node_1 ["aws:///node-1"] with_claim_1_reachable) as (H1 & _ & H2 & _).
  split; assumption.
Defined.

Lemma pool_resources_recomputed_witness : qty (NodePoolResourcesFor with_claim_1 "default") ResourceCPU = 2 * unit_quantity ∧
  qty (NodePoolResourcesFor with_claim_1 "default") ResourceCPU =
  map_sum (λ n, match st_Labels n, st_Capacity n with
    | Some labels, Some capacity =>
        if bool_decide (default EmptyString (labels !! NodePoolLabelKey) = "default") && negb (MarkedForDeletion n)
        then qty (<[ResourceNodes := unit_quantity]> capacity) ResourceCPU else 0%Z
    | _, _ => 0%Z end) (nodes with_claim_1).
Proof.
  split; [vm_eq|].
  apply (pool_resources_recomputed (λ _, cores 1) (λ _, ∅) (λ _, []) no_volumes false example_cluster_api None example_pods_on no_matcher);
    [exact with_claim_1_reachable|discriminate].
Defined.

Definition with_web : StateNode :=
  match updateForPod (λ _, cores 1) (λ _, ∅) (λ _, []) no_volumes false NewNode running_web with Ok n => n | Err _ => NewNode end.

Lemma cleanup_undoes_update_witness : (qty (default ∅ (podRequests with_web !! pod_key running_web)) ResourceCPU) = unit_quantity ∧
  podRequests (cleanupForPod with_web (pod_key running_web)) = ∅.
Proof.
  split; [vm_eq|].
  refine (proj1 (cleanup_undoes_update (λ _, cores 1) (λ _, ∅) (λ _, []) no_volumes false NewNode running_web with_web _ NewNode_consistent _)).
  - vm_eq.
  - vm_compute. discriminate.
Defined.

Definition one_of_three : NodePoolState := MarkNodeClaimActive NewNodePoolState "static" "claim-1".

Lemma ReserveNodeCount_spec_witness : (ReserveNodeCount one_of_three "static" 3 5).2 = 2 ∧
  node_total (ReserveNodeCount one_of_three "static" 3 5).1 "static" + reserved (ReserveNodeCount one_of_three "static" 3 5).1 "static" ≤ 3.
Proof.
  split; [vm_eq|].
  destruct (ReserveNodeCount_spec one_of_three "static" 3 5 (ReserveNodeCount one_of_three "static" 3 5).1 2) as (_ & _ & H & _);
    [vm_eq|discriminate|vm_compute; split; discriminate|vm_compute; discriminate|vm_compute; discriminate|].
  apply H. reflexivity.
Defined.

(** ** Static pools and repair *)

Definition static_pool : NodePool :=
  mkNodePool (mkNodePoolTemplate "static" [] ∅ []) "static-uid" ∅ (EmptyString, EmptyString, EmptyString) {[ResourceNodes := 3]} None
    ConsolidationPolicyWhenEmpty [] None (Some 1) None None [].

Definition static_candidate : Candidate :=
  mkCandidate (state_node_of claim_1 node_1) (Some small) static_pool "zone-a" CapacityTypeOnDemand (Fin 0) [] false (Fin 10) (Fin 0)
    None empty_result false.

Abbreviation drifted_static := (static_drift_pool (E := string) (λ _, Some [small]) (λ _, EmptyString) (λ s, s) (λ q, q) false one_of_three
  {["static" := 1]} "static" [static_candidate]).
Definition drift_result : NodePoolState * list (Command string) := default (one_of_three, []) drifted_static.

Lemma drift_computed : drifted_static = Some drift_result.
Proof. apply Some_eq. vm_eq. Qed.

Lemma static_drift_within_limits_witness : length drift_result.2 = 1%nat ∧
  reserved drift_result.1 "static" = reserved one_of_three "static" + Z.of_nat (length (replacements_of drift_result.2)).
Proof.
  split; [vm_eq|].
  destruct (static_drift_within_limits (λ _, Some [small]) (λ _, EmptyString) (λ s, s) (λ q, q) false one_of_three
    {["static" := 1]} "static" [static_candidate] static_candidate [] drift_result.1 drift_result.2) as (_ & _ & _ & H & _);
    [rewrite <-surjective_pairing; exact drift_computed|reflexivity|vm_eq|vm_compute; discriminate|vm_compute; split; discriminate|
     vm_compute; discriminate|vm_compute; discriminate|exact H].
Defined.

Definition not_ready_policy : RepairPolicy := mkRepairPolicy "Ready" ConditionFalse EmptyString 10 None 0 ReplaceNode.
Definition disk_policy : RepairPolicy := mkRepairPolicy "DiskPressure" ConditionTrue "Full" 20 None 1 RebootNode.

Definition sick (conditions : list Condition) : Node := mkNode "node-1" ∅ ∅ 0 None [] "aws:///node-1" ∅ ∅ conditions.
Definition not_ready : Condition := mkCondition "Ready" ConditionFalse EmptyString EmptyString 0.
Definition disk_pressure : Condition := mkCondition "DiskPressure" ConditionTrue EmptyString EmptyString 0.

Definition any_reason (_ : string) : option Regexp := Some (λ _, true).

Definition no_matcher_yet : RepairPolicyMatcher := mkRepairPolicyMatcher ∅ (mkCompiledPolicy not_ready_policy None (EmptyString, EmptyString, EmptyString)) ∅.
Definition example_matcher : RepairPolicyMatcher :=
  get_ok no_matcher_yet (newRepairPolicyMatcher any_reason [not_ready_policy; disk_policy] supportedRepairActions).

Lemma matcher_compiled : newRepairPolicyMatcher any_reason [not_ready_policy; disk_policy] supportedRepairActions = Ok example_matcher.
Proof. apply Ok_eq. vm_eq. Qed.

Lemma repair_decision_order_independent_witness : ∃ ms ms' r r',
  Match example_matcher (sick [not_ready; disk_pressure]) = Some ms ∧ Match example_matcher (sick [disk_pressure; not_ready]) = Some ms' ∧
  Resolve ms 100 0 = Some r ∧ Resolve ms' 100 0 = Some r' ∧ selected_key r = selected_key r' ∧ selected_grace r = selected_grace r'.
Proof.
  apply (repair_decision_order_independent any_reason [not_ready_policy; disk_policy] example_matcher (sick [not_ready; disk_pressure])
    (sick [disk_pressure; not_ready]) 100 0 matcher_compiled); [reflexivity|constructor].
Defined.

(** ** Budgets, volumes, defaults and requirements *)

Definition no_schedules : CronApi := {| ParseStandard _ := None |}.
#[local] Existing Instance no_schedules.

Definition plain_counts : IntStrApi := {|
  FromInt z := IntVal z;
  GetScaledValueFromIntOrPercent v _ _ := match v with IntVal z => Some z | StrVal _ => None end;
|}.
#[local] Existing Instance plain_counts.

(** Disk pressure, three times half a day apart. *)
Definition half_a_day : Z := 12 * 3600 * second.

Definition sick_candidate : Candidate :=
  mkCandidate (mkStateNode (Some (sick [disk_pressure])) (Some claim_1) ∅ ∅ ∅ ∅ ∅ NewHostPortUsage NewVolumeUsage false 0
      (default [] (Match example_matcher (sick [disk_pressure]))))
    (Some small) default_pool "zone-a" CapacityTypeOnDemand (Fin 0) [] false (Fin 10) (Fin 0) None empty_result false.

Definition to_reboot (h : RebootHistory) (t : Z) : Candidate :=
  (default (sick_candidate, false) (Repair_ShouldDisrupt true h t sick_candidate)).1.

Definition reboot_api : RebootApi := mkRebootApi (λ _, Ok claim_1) None None.
Definition set_true (now : Z) (type reason message : string) (cs : list Condition) : list Condition :=
  mkCondition type ConditionTrue reason message now :: cs.

Abbreviation reboot_pass h t := (Repair_ComputeCommands (E := string) example_matcher reboot_api (λ _, "1m") set_true
  (λ _ _ _, Err CandidateDeleting) false (λ _, None) (λ _, EmptyString) (λ s, s) (λ q, q) t (Ok []) ∅ one_of_three [to_reboot h t]).
Definition pass_outcome (h : RebootHistory) (t : Z) : repair_outcome :=
  get_ok (mkRepairOutcome [] one_of_three None) (default (Ok (mkRepairOutcome [] one_of_three None)) (reboot_pass h t)).

Definition history_1 : RebootHistory := record_reboot ∅ 100 (pass_outcome ∅ 100).
Definition history_2 : RebootHistory := record_reboot history_1 (100 + half_a_day) (pass_outcome history_1 (100 + half_a_day)).
Definition history_3 : RebootHistory := record_reboot history_2 (100 + 2 * half_a_day) (pass_outcome history_2 (100 + 2 * half_a_day)).

Abbreviation example_reboots := (reboots (E := string) example_matcher (λ _, "1m") set_true true false (λ _, EmptyString) (λ s, s) (λ q, q)).

Lemma reboot_step h log t log' :
  example_reboots h log → log ++ committed t (pass_outcome h t) = log' → (∀ uid t', (uid, t') ∈ log → t' ≤ t) →
  Repair_ShouldDisrupt true h t sick_candidate = Some (to_reboot h t, true) → candidate_claim (to_reboot h t) = Some claim_1 →
  reboot_pass h t = Some (Ok (pass_outcome h t)) →
  example_reboots (record_reboot h t (pass_outcome h t)) log'.
Proof.
  intros H <- Hle Hd Hcl Hp. refine (reboots_pass _ _ _ _ _ _ _ _ h log t t t _ _ _ _ _ _ _ _ H Hle _ _ _ Hp); [reflexivity| |].
  - apply Forall_singleton. exists sick_candidate, t. by split.
  - intros c claim nc ->%list_elem_of_singleton. rewrite Hcl. intros [= <-] [= <-]. reflexivity.
Qed.

Lemma three_reboots : example_reboots history_3 [("claim-1", 100); ("claim-1", 100 + half_a_day); ("claim-1", 100 + 2 * half_a_day)].
Proof.
  assert (example_reboots history_1 [("claim-1", 100)]) as H1.
  { apply (reboot_step ∅ [] 100); [constructor|vm_eq|intros ? ? []%elem_of_nil|vm_eq..]. }
  assert (example_reboots history_2 [("claim-1", 100); ("claim-1", 100 + half_a_day)]) as H2.
  { apply (reboot_step history_1 [("claim-1", 100)] (100 + half_a_day)); [exact H1|vm_eq| |vm_eq..].
    intros ? ? [= -> ->]%list_elem_of_singleton. vm_compute. discriminate. }
  apply (reboot_step history_2 [("claim-1", 100); ("claim-1", 100 + half_a_day)] (100 + 2 * half_a_day)); [exact H2|vm_eq| |vm_eq..].
  intros ? ? [[= -> ->]|[= -> ->]%list_elem_of_singleton]%elem_of_cons; vm_compute; discriminate.
Qed.

Lemma at_most_two_reboots_a_day_witness : rebootHistoryWindow ≤ (100 + 2 * half_a_day) - 100.
Proof.
  apply (at_most_two_reboots_a_day _ _ _ _ _ _ _ _ _ _ "claim-1" 0 100 (100 + 2 * half_a_day) three_reboots); reflexivity.
Defined.

Definition two_at_once : NodePool :=
  mkNodePool (mkNodePoolTemplate "default" [] ∅ []) "default-uid" ∅ (EmptyString, EmptyString, EmptyString) ∅ None
    ConsolidationPolicyWhenEmptyOrUnderutilized [mkBudget None "2" None None] None None None None [].

Definition pool_node : StateNode :=
  state_node_of claim_1 (mkNode "node-1" {[zone := "zone-a"; NodePoolLabelKey := "default"; NodeInitializedLabelKey := "true"]} ∅ 0 None []
    "aws:///node-1" ∅ ∅ []).

Definition example_mapping : gmap string Z := default ∅ (BuildDisruptionBudgetMapping 0 [pool_node] [two_at_once] DisruptionReasonEmpty).

Lemma mapping_built : BuildDisruptionBudgetMapping 0 [pool_node] [two_at_once] DisruptionReasonEmpty = Some example_mapping.
Proof. apply Some_eq. vm_eq. Qed.

Lemma budget_mapping_spec_witness : ∃ remaining, example_mapping !! "default" = Some remaining ∧ 0 ≤ remaining.
Proof.
  destruct (budget_mapping_spec 0 [pool_node] [two_at_once] DisruptionReasonEmpty example_mapping two_at_once mapping_built) as (remaining & Hr & Hle & _).
  - apply NoDup_singleton.
  - left.
  - exists remaining. split; [exact Hr|exact Hle].
Defined.

(** A claim that is bound to a volume in zone a. *)
Definition zonal_volume : VolumeApi := mkVolumeApi
  (λ key, Ok (mkPVC key.1 key.2 "volume-1" None ∅ None "Bound"))
  (λ _, Ok (mkPV None false (Some [[mkCoreNSR zone OpIn ["zone-a"]]]) false None)) (λ _, Err NotFound) (λ _, None) EmptyString.

Definition in_zone_a (k : string) : string := if bool_decide (k = zone) then "zone-a" else EmptyString.

Abbreviation data_requirements := (VolumeTopology_GetRequirements zonal_volume running_web [mkVolume "data" EphemeralSource]).
Definition data_result : result api_error (list Requirements) := default (Ok []) data_requirements.
Definition data_alternatives : list Requirements := get_ok [] data_result.

Lemma data_resolved : data_requirements = Some (Ok data_alternatives).
Proof. rewrite (Some_eq (Ok []) data_requirements) by vm_eq. fold data_result. unfold data_alternatives. rewrite <-Ok_eq by vm_eq. reflexivity. Qed.

Lemma volume_alternatives_spec_witness : length data_alternatives = 1%nat ∧
  (mounts_somewhere in_zone_a data_alternatives ↔
   ∀ vol, vol ∈ [mkVolume "data" EphemeralSource] → ∃ va, getRequirements zonal_volume running_web vol = Some (Ok va) ∧ mounts_somewhere in_zone_a va).
Proof. split; [vm_eq|]. apply volume_alternatives_spec. exact data_resolved. Defined.

Definition no_services : DefaultsApi := mkDefaultsApi (λ _, Some [Some web_labels]) (λ _, Err NotFound) (λ _, Err NotFound) (λ _, Err NotFound)
  (λ _, None) (λ s l, map_forallb (λ k v, bool_decide (l !! k = Some v)) s) (λ l, default EmptyString (l !! "app")).

Definition across_zones : TopologySpreadConstraint := mkTSC 1 zone ScheduleAnyway None None None None [].

Lemma Inject_reference_witness : Inject no_services [across_zones] [running_web] = defaulted no_services [across_zones] <$> [running_web].
Proof.
  apply Inject_reference; [discriminate|]. split.
  - intros p q r s ->%list_elem_of_singleton ->%list_elem_of_singleton H. vm_compute in H. discriminate.
  - intros p r ->%list_elem_of_singleton H. vm_compute in H. discriminate.
  - intros p q ->%list_elem_of_singleton ->%list_elem_of_singleton _. reflexivity.
Defined.

Definition any_name : NameSyntax := {| IsQualifiedName _ := true; IsValidLabelValue _ := true |}.
#[local] Existing Instance any_name.
#[local] Existing Instance default_known_values.

Definition zone_requirement : NodeSelectorRequirementWithMinValues := mkNSR zone OpIn ["zone-a"; "zone-b"] (Some 2).

Lemma ValidateRequirement_sound_witness : ValidateRequirement zone_requirement = [] ∧
  is_Some (NewRequirementWithFlexibility zone OpIn (Some 2) ["zone-a"; "zone-b"]).
Proof.
  assert (ValidateRequirement zone_requirement = []) as H by (vm_eq).
  split; [exact H|]. exact (proj1 (ValidateRequirement_sound zone_requirement H)).
Defined.
