(* ===== verification/LifecycleExamples.v ===== *)
(** * LifecycleExamples: the life of one NodeClaim

    A claim is launched, registers, and its node is drained and let go: concrete inputs that
    meet the hypotheses of the theorems about the lifecycle and termination. *)

From S2P Require Import Prelude Labels Requirement Objects Resources Taints Volumes PodState Templates NodePoolHealth.
From S2P Require Import Lifecycle LifecycleProps Terminator Termination Examples DisruptionExamples.

#[local] Open Scope Z_scope.

#[local] Existing Instance simple_taint_api.

(** ** A condition set *)

Definition demo_set (now : Z) (type status reason message : string) (cs : list Condition) : list Condition :=
  filter (λ c, cond_Type c ≠ type) cs ++
  [mkCondition type status reason message
     (match get_condition type cs with
      | Some old => if bool_decide (cond_Status old = status) then cond_LastTransitionTime old else now
      | None => now
      end)].

Lemma get_filtered type type' cs : get_condition type (filter (λ c, cond_Type c ≠ type') cs) = if bool_decide (type = type') then None else get_condition type cs.
Proof.
  induction cs as [|c cs IH]; [by case_bool_decide|]. rewrite filter_cons. unfold get_condition in *. cbn [List.find].
  destruct (decide (cond_Type c ≠ type')) as [Hn|He].
  - cbn [List.find]. rewrite IH. destruct (bool_decide_reflect (cond_Type c = type)) as [<-|]; [|done]. by rewrite bool_decide_eq_false_2.
  - apply dec_stable in He. rewrite IH. destruct (bool_decide_reflect (type = type')) as [|Hne]; [done|]. by rewrite (bool_decide_eq_false_2 (cond_Type c = type)) by congruence.
Qed.

Lemma get_app type l1 l2 : get_condition type (l1 ++ l2) = match get_condition type l1 with Some c => Some c | None => get_condition type l2 end.
Proof.
  unfold get_condition. induction l1 as [|c l1 IH]; [done|]. cbn [app List.find]. by destruct (bool_decide (cond_Type c = type)).
Qed.

#[local] Program Instance demo_conditions : ConditionSets := { set_condition := demo_set }.
Next Obligation.
  intros. unfold demo_set. rewrite get_app, get_filtered, bool_decide_eq_true_2 by done. unfold get_condition at 1. cbn [List.find cond_Type].
  rewrite bool_decide_eq_true_2 by done. eexists. split; [done|]. cbn. by destruct (get_condition type cs).
Qed.
Next Obligation.
  intros. unfold demo_set. rewrite get_app, get_filtered, bool_decide_eq_false_2 by done. unfold get_condition. cbn [List.find cond_Type].
  rewrite (bool_decide_eq_false_2 (type = type')) by done. by case_match.
Qed.

(** ** Launching *)

Definition demo_base (id : string) (deleted : option Z) (conditions : list Condition) : v1NodeClaim :=
  mkv1NodeClaim "claim-1" "uid-1" ∅ ∅ 0 deleted [] [] None None id EmptyString ∅ ∅ conditions None.

Definition demo_claim (id : string) (deleted : option Z) (conditions : list Condition) : Claim :=
  mkClaim (demo_base id deleted conditions) [TerminationFinalizer] [] ("g", "NodeClass") EmptyString ∅.

Definition new_claim : Claim := demo_claim EmptyString None [].

Definition demo_node : NodeObject :=
  mkNodeObject (mkNode "node-1" {["nodeclass" := "default"]} ∅ 0 None [UnregisteredNoExecuteTaint] "id-1" ∅ ∅ [mkCondition "Ready" ConditionTrue EmptyString EmptyString 0]) [] [].

Definition demo_api : LifecycleApi := mkLifecycleApi
  (λ id, Ok (if bool_decide (id = "id-1") then [demo_node] else [])) (λ _, Err NotFound) (Ok []) (λ _, Created (demo_claim "id-1" None []))
  (λ _, InstanceNotFound) (λ _, None).

(** Reads of the claim are stale: both visits see it before its launch. *)
Definition visit_at (now : Z) : Visit := mkVisit now demo_api [] new_claim.

Definition demo_run (st : LifecycleState) (v : Visit) : option (LifecycleState * Claim * Outcome) :=
  Lifecycle_Reconcile (v_api v) (v_now v) [("g", "NodeClass")] (v_hooks v) uninitialized_reason true (λ _, EmptyString) "key" st (v_claim v).

Definition start_state : LifecycleState := mkLifecycleState ∅ ∅.
Definition no_run : LifecycleState * Claim * Outcome := (start_state, new_claim, ([], no_requeue, false)).
Definition after (o : option (LifecycleState * Claim * Outcome)) : LifecycleState := (default no_run o).1.1.
Definition requests (o : option (LifecycleState * Claim * Outcome)) : list action := (default no_run o).2.1.1.

Definition first_run : option (LifecycleState * Claim * Outcome) := demo_run start_state (visit_at 0).
Definition second_run : option (LifecycleState * Claim * Outcome) := demo_run (after first_run) (visit_at 1000).
Definition demo_trace : list (Visit * list action) := [(visit_at 0, requests first_run); (visit_at 1000, requests second_run)].

Lemma demo_history : history [("g", "NodeClass")] uninitialized_reason true (λ _, EmptyString) "key" start_state demo_trace (after second_run).
Proof.
  assert (is_some first_run = true) as H1 by vm_eq. assert (is_some second_run = true) as H2 by vm_eq.
  apply (Some_eq no_run) in H1, H2. unfold demo_trace, after, requests.
  destruct (default no_run first_run) as [[st1 c1] [[ws1 r1] f1]] eqn:E1. destruct (default no_run second_run) as [[st2 c2] [[ws2 r2] f2]] eqn:E2.
  eapply history_cons; [exact H1|]. eapply history_cons; [|apply history_nil]. unfold second_run, after in H2. rewrite E1 in H2. exact H2.
Qed.

Lemma launched_at_most_once_witness : launched "uid-1" demo_trace = 1%nat ∧ (launched "uid-1" demo_trace ≤ 1)%nat.
Proof.
  split; [vm_eq|]. apply (launched_at_most_once [("g", "NodeClass")] uninitialized_reason true (λ _, EmptyString) "key" "uid-1" 0 start_state demo_trace (after second_run)).
  - exact demo_history.
  - done.
  - intros i j p q Hij Hp Hq _ _. destruct i as [|[|i]]; [|lia || (destruct j as [|[|j]]; [lia|lia|done])|done]. injection Hp as <-. by intros.
  - intros p Hp _. repeat (apply elem_of_cons in Hp as [->|Hp]); [unfold minute; cbn; lia..|by apply elem_of_nil in Hp].
Defined.

Lemma outcome_eq o : is_some o = true →
  o = Some ((default no_run o).1.1, (default no_run o).1.2, ((default no_run o).2.1.1, (default no_run o).2.1.2, (default no_run o).2.2)).
Proof. by destruct o as [[[??][[??]?]]|]. Qed.

(** ** Finalizing *)

Definition true_condition (type : string) : Condition := mkCondition type ConditionTrue type EmptyString 0.

Definition gone_api : LifecycleApi := mkLifecycleApi (λ _, Ok []) (λ _, Err NotFound) (Ok []) (λ _, InsufficientCapacity) (λ _, InstanceNotFound) (λ _, None).

Definition deleted_claim : Claim := demo_claim "id-1" (Some 5) [true_condition ConditionTypeLaunched; true_condition ConditionTypeRegistered].

Definition final_run : option (LifecycleState * Claim * Outcome) := demo_run start_state (mkVisit 7 gone_api [] deleted_claim).

Lemma final_request : PatchFinalizers "claim-1" [] ∈ requests final_run.
Proof. apply list_elem_of_In. vm_compute. auto. Qed.

Lemma finalizer_guards_instance_witness : PatchFinalizers "claim-1" [] ∈ requests final_run ∧
  ∃ x, CallDelete x ∈ requests final_run ∧ lc_ProviderID x = "id-1" ∧ la_delete gone_api x = InstanceNotFound.
Proof.
  split; [exact final_request|].
  destruct (finalizer_guards_instance gone_api 7 [("g", "NodeClass")] [] uninitialized_reason true (λ _, EmptyString) "key" start_state deleted_claim
    _ _ _ _ _ (outcome_eq final_run eq_refl)) as [_ H].
  destruct (H "claim-1" [] final_request) as (_ & _ & [Hp|Hx]); [by intros ?%elem_of_nil|discriminate Hp|exact Hx].
Defined.

(** ** Phases *)

Lemma new_claim_phases : phases new_claim.
Proof. split; [|done..]. split; [done|]. intros H. by destruct H. Qed.

Lemma start_identified : cache_identified start_state.
Proof. intros u c e H. cbn in H. by rewrite lookup_empty in H. Qed.

Lemma phases_ordered_witness : condition_true ConditionTypeRegistered (lc_Conditions (default no_run first_run).1.2) = true ∧ phases (default no_run first_run).1.2.
Proof.
  split; [vm_eq|].
  apply (phases_ordered demo_api (λ c created H, ltac:(by injection H as <-)) 0 [("g", "NodeClass")] [] uninitialized_reason true (λ _, EmptyString) "key"
    start_state new_claim _ _ _ (List.Forall_nil _) start_identified new_claim_phases (outcome_eq first_run eq_refl)).
Defined.

(** ** Registering *)

Definition ready_hook : Hook := mkHook "ready" (λ c, (c, Ok no_requeue)).

Lemma ready_hook_keeps : Forall hook_keeps_status [ready_hook].
Proof. repeat constructor. Qed.

Definition launched_claim : Claim := demo_claim "id-1" None [true_condition ConditionTypeLaunched].
Definition registering : Sub := default (mkSub start_state new_claim [] no_requeue None) (Registration_Reconcile demo_api 7 [ready_hook] start_state launched_claim).

Lemma registers : Registration_Reconcile demo_api 7 [ready_hook] start_state launched_claim = Some registering.
Proof. apply Some_eq. vm_eq. Qed.

Lemma registration_joins_node_witness : ∃ node c', hooks_ready [ready_hook] launched_claim c' ∧
  joined launched_claim (sub_claim registering) demo_node node ∧ la_serve demo_api (PatchNode node) = None.
Proof.
  destruct (registration_joins_node demo_api 7 [ready_hook] start_state launched_claim registering ready_hook_keeps eq_refl registers eq_refl)
    as (stored & node & c' & Hn & Hh & _ & Hj & _).
  assert (stored = demo_node) as -> by (injection Hn; intros <-; reflexivity). exists node, c'. split; [exact Hh|]. split; [exact Hj|reflexivity].
Defined.

(** ** Waiting for a node *)

Definition unknown_condition (type : string) (since : Z) : Condition := mkCondition type ConditionUnknown "Waiting" EmptyString since.

Definition late_claim : Claim := demo_claim "id-2" None [true_condition ConditionTypeLaunched; unknown_condition ConditionTypeRegistered 0].

Definition lateness (now : Z) : Sub := default (mkSub start_state new_claim [] no_requeue None) (Liveness_Reconcile demo_api now start_state late_claim).

Lemma liveness_deadline_witness : sub_result (lateness 0) = requeue_after (15 * minute) ∧ timed_out demo_api (15 * minute) start_state late_claim (lateness (15 * minute)).
Proof.
  split.
  - apply (f_equal sub_result (proj1 (liveness_deadline demo_api 0 start_state late_claim (true_condition ConditionTypeLaunched)
      (unknown_condition ConditionTypeRegistered 0) (lateness 0) eq_refl eq_refl eq_refl ltac:(apply Some_eq; vm_eq)) eq_refl)).
  - apply (proj2 (liveness_deadline demo_api (15 * minute) start_state late_claim (true_condition ConditionTypeLaunched)
      (unknown_condition ConditionTypeRegistered 0) (lateness (15 * minute)) eq_refl eq_refl eq_refl ltac:(apply Some_eq; vm_eq))).
    vm_compute. discriminate.
Defined.

(** ** Draining *)

Definition demo_pod (name priorityClass : string) (grace : Z) : DrainPod :=
  mkDrainPod (mkPod "default" name name ∅ ∅ 0 ∅ None [] [] [] None "node-1" (mkPodStatus PodRunning [] EmptyString None) None [] [] [] [])
    priorityClass (Some grace) [].

Definition web_pod : DrainPod := demo_pod "web" EmptyString 30.
Definition dns_pod : DrainPod := demo_pod "dns" "system-cluster-critical" 30.

Definition drain_options : drainOptions := mkDrainOptions false false.
Definition demo_drain : EvictionQueue * drain_result := Drain drain_options None 0 NewEvictionQueue (Some [dns_pod; web_pod]).

(** The critical pod is not queued while the other one waits. *)
Lemma Drain_in_order_witness : waiting_pods drain_options 0 [dns_pod; web_pod] = [dns_pod; web_pod] ∧
  (queue_Has demo_drain.1 dns_pod = true ↔ queue_Has NewEvictionQueue dns_pod = true ∨
     ∃ x, drained_now drain_options None 0 [dns_pod; web_pod] x ∧ NewQueueKey x = NewQueueKey dns_pod) ∧ queue_Has demo_drain.1 dns_pod = false.
Proof.
  split; [vm_eq|]. split; [|vm_eq].
  apply (proj2 (Drain_in_order drain_options None 0 NewEvictionQueue [dns_pod; web_pod] demo_drain.1 demo_drain.2 eq_refl)).
Defined.

Definition queued : EvictionQueue := queue_Add (Some 100) NewEvictionQueue [web_pod].
Definition queued_again : EvictionQueue := queue_Add (Some 900) queued [web_pod].

Lemma deadlines_only_tighten_witness : tighter (mkQueueItem (Some 100) false) (mkQueueItem (Some 100) false).
Proof.
  apply (deadlines_only_tighten (λ _, None) queued queued_again (NewQueueKey web_pod)); [|vm_eq|vm_eq].
  apply rtc_once. split; [exists []; apply step_Add|]. exists (mkQueueItem (Some 100) false). vm_eq.
Defined.

Definition eviction_api : EvictionApi := mkEvictionApi (λ _, None) (λ _ _, None) (λ _, None).

(** At the deadline the pod is deleted with the least grace period. *)
Lemma eviction_requests_justified_witness : ∃ t g, DeletePod (NewQueueKey web_pod) 1 = DeletePod (NewQueueKey web_pod) g ∧ needsDeleteByDeadline web_pod (Some t) 100 = true ∧ 1 ≤ g.
Proof.
  destruct (eviction_requests_justified (λ _, None) eviction_api queued web_pod 100 (complete queued web_pod) [DeletePod (NewQueueKey web_pod) 1] no_requeue false
    (DeletePod (NewQueueKey web_pod) 1) eq_refl ltac:(by left)) as (item & _ & [(H & _)|(t & g & H & _ & _ & Hn & Hg & _)]); [discriminate H|].
  exists t, g. split; [exact H|]. split; [exact Hn|exact Hg].
Defined.

(** ** Letting a node go *)

Definition deleted_node : NodeObject :=
  mkNodeObject (mkNode "node-1" {["nodeclass" := "default"]} ∅ 0 (Some 5) [] "id-1" ∅ ∅ [mkCondition "Ready" ConditionTrue EmptyString EmptyString 0])
    [TerminationFinalizer] [].

Definition drained_claim : Claim := demo_claim "id-1" (Some 5) [true_condition ConditionTypeLaunched; true_condition ConditionTypeDrained].

Definition no_volumes : VolumeApi := mkVolumeApi (λ _, Err NotFound) (λ _, Err NotFound) (λ _, Err NotFound) (λ _, None) EmptyString.

Definition termination_api : TerminationApi := mkTerminationApi (λ _, Ok [drained_claim]) (λ _, InstanceFound) (λ _, InstanceNotFound) (λ _, None)
  (λ _, Ok []) (λ _, Ok []) no_volumes.

Definition letting_go : EvictionQueue * Outcome := Termination_Reconcile (λ _, None) "key" termination_api 7 ["nodeclass"] deleted_node NewEvictionQueue.
Definition freed_node : NodeObject := mkNodeObject (no_Node (tainted DisruptedNoScheduleTaint deleted_node)) [] [].

Lemma node_freed : PatchNode freed_node ∈ letting_go.2.1.1.
Proof. apply list_elem_of_In. vm_compute. auto. Qed.

Lemma node_finalizer_guards_drain_witness : ∃ c, claim_of_node termination_api (no_Node deleted_node) = Ok c ∧
  vacated (λ _, None) "key" termination_api 7 (no_Node deleted_node) c letting_go.2.1.1.
Proof.
  destruct (node_finalizer_guards_drain (λ _, None) "key" termination_api 7 ["nodeclass"] deleted_node NewEvictionQueue letting_go.1 letting_go.2.1.1 letting_go.2.1.2 letting_go.2.2
    (PatchNode freed_node)) as [[H _]|H].
  - unfold letting_go. destruct (Termination_Reconcile _ _ _ _ _ _ _) as [q [[ws r] f]]. reflexivity.
  - exact node_freed.
  - exists freed_node. split; [reflexivity|]. by intros ?%elem_of_nil.
  - discriminate H.
  - exact H.
Defined.
